(* ===== verification/_CoqProject ===== *)
-Q . S2P
Overview.v
Prelude.v
F64.v
ConfigValue.v
ConfigResolve.v
ConfigDefaults.v
ConfigSource.v
ConfigDe.v
CoreTypes.v
Hooks.v
ConfigManager.v
Reload.v
DiTypes.v
ProviderOrder.v
DiRegistry.v
DiSort.v
DiSortSpec.v
DiOrder.v
DiContainer.v
DiScope.v
DiHandles.v
JobSchedule.v
JobEntry.v
JobRun.v
JobSafety.v
JobLog.v
JobScheduler.v
WireStatus.v
WireFrame.v
MemTransport.v
StreamConn.v
StreamTable.v
StreamWire.v
StreamSafety.v
RpcClient.v
RpcClientInv.v
RpcClientSafety.v
RpcRoutes.v
RpcServe.v
RpcHandlers.v
RpcCalls.v
PubSub.v
WsHost.v
StompServer.v
StompInv.v
StompFanout.v
StompSafety.v
WsClient.v
JsonWs.v
StompClient.v
StompAuth.v
Dirs.v
DirsWindows.v
UnixSocket.v
AppBuild.v
AppLifecycle.v
Ndjson.v
HttpBody.v
HttpClient.v
HttpCallbacks.v
AxumConfig.v
AxumServer.v
MacroTopics.v
TopicBus.v
MacroSyn.v
MacroRoutes.v
MacroComponent.v
MacroRpc.v
MacroMethods.v
MacroHandlers.v
MacroInject.v
MacroHook.v
MacroConfig.v
MacroJobs.v
MacroController.v
MacroApp.v
