(* ===== verification/Overview.v ===== *)
(** * A verification development of overseerd

    overseerd is an application framework: it loads a layered configuration,
    validates a graph of components, builds them scope by scope, reloads the
    configuration while the application runs, drives scheduled jobs, and serves
    remote procedure calls over byte streams, HTTP and websockets. Its macros
    generate the servers' handlers and the clients that call them. This library
    models that, as written in the crates [config], [hooks], [core], [di], [app],
    [dirs], [jobs], [transport], [rpc], [client], [axum], [axum-json-ws],
    [axum-stomp], [macros-core], [rpc-macros], [axum-macros] and [jobs-macros] under
    [src/crates/], and proves what makes it correct.

    ** The parts and how they interact

    - [Prelude]: results and errors, machine integers, strings, association
      lists, comparisons, stable sorting, trimming. [F64]: IEEE doubles as the value model
      of the configuration needs them.
    - Configuration, crate [config]. [ConfigValue] is the value tree and the
      template parser ([value.rs], [parse.rs], [error.rs]). [ConfigResolve] is
      placeholder resolution with its budgets and its cycle check ([resolve.rs]).
      [ConfigDefaults] seeds defaults into a tree ([defaults.rs]). [ConfigSource]
      reads, converts and merges files ([format/], [managed/source.rs]).
      [ConfigDe] is the serde deserializer over a tree ([de.rs]). [ConfigManager]
      is the manager and the store of bound values ([managed/source.rs],
      [managed/store.rs]). [Reload] is the two-phase reload
      ([managed/reload.rs]): every binding is deserialized from the new tree into
      a proposal, the hooks of crate [hooks] ([Hooks]) judge it, and only then
      the live cells are swapped.
    - Dependency injection, crates [core] and [di]. [CoreTypes] holds types,
      dependency edges, scopes and resolver sets. [DiTypes] holds the descriptors
      and errors. [DiRegistry] validates the graph ([registry.rs]).
      [ProviderOrder] orders the providers of a trait ([registry/order.rs]).
      [DiSort] computes the construction order of a scope and partitions the
      components among scopes ([container.rs], [app/src/app.rs]); [DiSortSpec]
      gives its wait sets a declarative meaning and [DiOrder] proves the order
      sound and complete. [DiContainer] holds stores, scope chains, resolution,
      the construction of transients and the building of a scope ([container.rs],
      [descriptors/component.rs], [construct.rs]); [DiScope] has its theorems.
      [DiHandles] holds the handles that outlive their construction: lazy, fresh and
      deferred ones, and the slot they capture their scope in ([primitives.rs],
      [root.rs]).
    - Applications, crates [app] and [dirs]. [Dirs] resolves the directories of an
      application and makes private ones safely ([dirs/src/lib.rs]); [DirsWindows] does so on
      Windows, where what was checked is held open ([windows.rs]). [AppBuild]
      registers and assembles an application out of the parts above ([registry.rs],
      the builder of [app.rs]); [AppLifecycle] serves it: startup hooks, the protocol,
      reloads and shutdown ([app.rs], [lifecycle.rs]).
    - Jobs, crate [jobs]. [JobSchedule] holds schedules and options
      ([schedule.rs]) and when a job fires next. [JobEntry] is the shared record of
      a job and each operation on it ([registry.rs]). [JobRun] is the driver task,
      its run tasks and the control calls as a step relation over that record
      ([run.rs], the control calls of [scheduler.rs]); [JobSafety] has its
      theorems, which hold of every interleaving. [JobScheduler] puts many such
      machines over one registry and one run-id counter ([scheduler.rs],
      [metrics.rs]). [JobLog] is the bounded store of captured log records and the
      tracing layer that feeds it ([log.rs]).
    - Transport, crate [transport]. [WireStatus] packs status codes
      ([status.rs]). [WireFrame] is the length-prefixed codec with its incremental
      reader ([protocol/codec.rs]). [StreamConn] is the server's end of a stream:
      the read loop, the handlers' responders and the writes they make, as one
      step relation ([transports/stream.rs]); [StreamTable] has the invariant of
      its call table and byte counts, [StreamWire] the invariant of what is on the
      wire, [StreamSafety] the theorems. [UnixSocket] binds a socket behind a private
      directory ([transports/unix.rs]), with the walk of [Dirs]. [MemTransport] is the
      transport within one process ([transports/memory.rs]).
    - Remote calls, crates [rpc] and [client]. [RpcRoutes] validates services and
      routes, layers and guards calls ([routes.rs], [router.rs], [middleware/],
      [extract.rs]). [RpcServe] is admission, the loops of the listener and of a
      connection, and one call ([protocol.rs]); the operations it sends are those
      [StreamConn] offers. [RpcClient] is the client's tasks as a step relation
      ([client.rs]): callers that open, receive and send, the read loop and the
      writer; [RpcClientInv] has its invariant, [RpcClientSafety] the theorems.
      [RpcHandlers] is the typed side of a server: codecs, extractors, handlers and the
      plugin ([extract.rs], [plugin.rs]); [RpcCalls] has the four typed calls and
      composes them with it, end to end.
    - HTTP, crate [axum]. [AxumConfig] is its configuration ([config.rs]), [AxumServer]
      how the server is put together and runs ([plugin.rs], [protocol.rs],
      [middleware.rs]), [Ndjson] streamed bodies and their limits ([stream.rs]).
      [HttpBody] is what a client puts into a request ([client/body.rs]) and
      [HttpClient] its two transports ([client/reqwest_backend.rs],
      [hyper_backend.rs]); [HttpCallbacks] is what a browser page's callbacks do around a
      request ([client/interceptor.rs]).
    - Websockets, crates [axum], [axum-json-ws] and [axum-stomp]. [PubSub] is the
      registry of subscriptions and its fan-out ([ws/pubsub/]), [TopicBus] typed publication
      ([ws/pubsub/topic_bus.rs]), [WsHost] what every
      endpoint shares ([ws/mod.rs]), [WsClient] the client that matches replies to
      calls ([client/websocket.rs]), [JsonWs] the JSON protocol over it. [StompServer]
      is a STOMP endpoint as a transition system ([server.rs]); [StompInv] has its
      invariant, [StompFanout] and [StompSafety] its theorems; [StompAuth] has the
      authenticators an endpoint takes, resolved from [DiContainer] ([server/auth.rs]);
      [StompClient] is the STOMP client ([client/transport.rs]).
    - Macros, crates [macros-core], [rpc-macros], [axum-macros] and [jobs-macros]. [MacroSyn] reads
      types and tokens ([attr.rs]). [MacroComponent] has the arguments of a component,
      its identity and providers, and the service extension ([attr.rs], [extend.rs],
      [provide.rs], [rpc-macros/src/router.rs]). [MacroRpc] turns an RPC method into
      what serves it and the client's method ([rpc-macros/src/handlers.rs],
      [macros-core/src/client.rs]); [MacroMethods] walks an [impl] block
      ([methods.rs], [hook.rs]), and [MacroHook] has what a hook of it generates, run by the
      manager of [Hooks]. [MacroInject] reads the attributes of a component's
      fields and composes what they declare with the construction of [DiContainer]
      ([inject.rs]); [MacroConfig] is the metadata of a configuration type, under the
      names serde gives its fields ([config.rs], [case.rs]). [MacroRoutes] has route attributes and the HTTP
      client's methods ([axum-macros/src/route.rs], [client.rs]); [MacroHandlers] the
      controllers' routers, messages and documented operations ([handlers.rs],
      [openapi.rs]); [MacroTopics] the topics of a websocket ([topics.rs]). [MacroController] mounts the
      groups of a controller with [AxumServer]'s router, and its client
      ([axum-macros/src/router.rs]). [MacroJobs] turns the methods of a block into jobs of
      [JobScheduler] ([jobs-macros/src/jobs.rs]). [MacroApp] is [app!]: what it is written
      with, and the builder of [AppBuild] it assembles ([macros-core/src/app.rs]). What is generated is modelled by what it
      computes: the URI, the destination, the route, the types on the wire. Their
      theorems meet those of the runtime: [client_reaches_its_handler] speaks of the
      routes of [RpcRoutes], [client_asks_for_its_route] of the encoders of
      [HttpBody].

    ** How the model reads

    An [Option] is an option, a [Result] is [result], a [HashMap] is a [gmap], a
    [Vec] of pairs kept in order is an association list. The iteration order of
    a hash map is an argument of the definitions that iterate one, and a theorem
    shows where it does not matter. A type id is an opaque integer. Mutable
    contexts are threaded, and survive an error as a [&mut] does. Code of the
    application is an argument: hook bodies, serde visitors, factories. So are
    the file system, the environment, the TOML and YAML parsers and the duration
    and cron parsers.

    Concurrency. A job, a scheduler, a stream connection, the in-memory transport, a lazy
    handle, a STOMP endpoint and the clients are transition systems. A step of [JobRun] is one lock
    section, one atomic instruction or one wait, so tasks interleave between any
    two shared accesses; an event names who moves and how a nondeterministic wait
    ends, so a trace can be executed, and the races below are executed traces. A
    control call is one step together with the notification it ends with. Time is
    not part of the state: a timer may end at any step, which covers every clock.
    Other jobs take ids from the shared counter at any step. Theorems on ids bound the number of steps by the word size.

    A stream is what was written on it: whole frames, and at most one fragment at the
    end. Sockets fail or end when an event says so. A channel is the list it holds and
    whether each end is alive; a token is a flag. The frame codec of [postcard] is an
    argument, with the round trip of a message as a hypothesis where it is needed.

    What need not end. A startup or shutdown hook, an aborted task and the protocol of an
    application may run for ever: [AppLifecycle] gives the run of an application either an
    end or what it waits for. A panic of generated code when a server is put together (a
    middleware that is not registered, a route bound twice) is the result [None].

    Fuel. Placeholder resolution carries 65 units, one more than the nesting
    depth the source allows; the theorem [resolve_placeholder_unfold] shows that
    the source's recursion holds without fuel. The expansion of transient recipes
    carries one unit per transient and one more: every nested call marks a new
    transient as visited ([construction_order_total]). The fixpoint loops of the
    two sorts carry one unit per element, and every pass that continues places at
    least one. The loops over tokens carry one unit per token and one more. Constructing a transient has no bound in the source either (two
    recipes can construct each other): there fuel is an argument, and running out
    of it is the result [None], apart from every error.

    ** What the theorems show

    - Templates print and parse back; a parse error points into its input.
    - Resolution follows the documented precedence, detects cycles, spends at most
      the step, byte and depth budgets and gives back its in-flight marks.
    - Defaults never change a configured value and seeding again adds nothing.
      Merging prefers the later file; rereading unchanged files rebuilds the tree.
    - Deserialization delivers integers in range, never puts configured text in an
      error, and reads a tree without placeholders back as it is.
    - A reload that fails changes nothing; one that succeeds publishes exactly what
      the hooks were shown. Hooks run and report in registration order.
    - A validated graph has no captive dependency; one descriptor stands for each
      type; an accepted dependency selects one provider.
    - The providers of a trait are ordered exactly when none is listed twice, what
      they name provides the trait and their constraints are acyclic, and the order
      respects them.
    - The construction order always exists or names what is stuck; it puts every
      component after all that its required eager dependencies reach, through
      transient recipes too; whenever some order does so, one is found. A
      partition loses no component.
    - A built scope holds exactly its seeds, its components and their providers.
      Collections are complete and in ordinal order, keyed ones take the nearest
      scope, a child scope extends its parent.
    - The in-flight count of a job is the number of its runs that have started and
      not left. Under [Skip] at most one run is in flight, and a job reported as
      running is running; under [CancelPrevious] at most one uncancelled run is
      left; run ids are never used twice. From its spawn, with what it was given,
      every job of a scheduler lives through its own moves of one such machine, run ids are unique across jobs, and a cancelled job's loop leaves
      within a bound of its own moves, whatever the others do.
    - The log store behaves as one bounded list of runs; what is read of a run are
      its latest records in order, whatever the channel dropped.
    - Status codes and frames survive the wire, however the stream is cut; a reader
      never holds more than a frame's limit.
    - Under every schedule the calls of a connection are at most as many, and queue at most
      as much, as configured, and every channel is within its bounds; the counts are made
      exact whenever an item arrives; a call gets at most one terminal
      frame and nothing after it; a fragment is the last thing on a wire.
    - A client's caller gets the items of its call in order and then one outcome; what
      is acknowledged is on the wire; frames keep their order; nobody waits for tasks
      that have ended.
    - Services are accepted exactly when ids, names and paths are distinct, and then
      every path reaches its own handler. Guards run in order. A listener and a
      connection never exceed their limits; a driven call is answered once, panics and
      unknown paths included.
    - Those who ask a lazy handle for its value store at most one among them; a deferred handle resolves in
      the scope it was made in. Directories that are trusted are private and not
      reached through links; on Windows they stay open while they are used, and no handle
      leaks. A socket is bound only behind such a directory. When serving an application
      ends, however its protocol ended, it has been cleaned up; when it does not, it waits
      for a hook, a task or a protocol that never ends.
    - Within one process a caller receives in order what the server sends, within the
      bounds of the buffers, and the end of a call only after all of it; calls arrive
      once and in order.
    - A unary call gives its caller what the function of the service returns; the
      streams a typed client reads are those the function makes of what it sent. A
      built plugin serves every declared method behind its guards and middleware, in the
      order they were added.
    - A field of a component declares exactly what its construction asks for, and gets
      what a parameter of the same type would; a component is built of its fields in
      their order, and an edge declared required is checked when the graph is
      validated. A default of a configuration type lands under a name that serde reads
      its field from, told apart from the macro's own naming.
    - A request to a route of the application passes the server's layers in their
      documented order, and only the OpenAPI routes are outside them; a client tells
      its interceptor once of a failure; both HTTP backends report an exchange alike;
      lines of NDJSON are decoded whole, whatever the chunks. A page's callbacks change
      a request as their handle allows, and what they leave is still valid.
    - A STOMP peer receives only what it subscribed to and was admitted to, and a
      publication reaches every subscriber that was there; who subscribes to a topic is sent
      its values, and an awaited publication loses none. An authenticator is given what a
      constructor would be, and a connection is who it says. Calls over a websocket are
      matched to their replies, and no request outlives its caller.
    - The arguments of the macros mean what is written, and what is accepted is well
      formed. Server and client generated from one method agree: on the kind of the
      call, the path or URI, and the types sent and read. A value in a URI or a topic
      is where the template has its hole. Each route of a controller is bound to its
      method inside its middleware, nothing else is bound, and a request over a
      websocket gives its caller what the method returns. A group of routes can be built exactly when
      no two share a verb and a path and their middleware is registered. The client of a
      controller asks for the path under which the server binds and documents a route,
      other than that of the base itself. Each job of a
      block waits in the scheduler with the schedule and options of its attribute. The hooks of a block
      run in its order, on what their parameters ask for. An application is assembled as it is written, and reloads on the triggers it names
      and those its source has.
    - Some theorems record behaviour that the code probably does not intend: a
      required eager edge to a concrete transient is always reported as a cycle;
      a supplied instance registers its provider twice; a transient built while
      the root is built sees no resolver; a templated tag is seeded again; two
      equal provider descriptors are reported as an ordering cycle; a changed
      subtree is reported for NaN and for a budget that two resolutions exceed;
      a binding at the empty path is seeded under an empty key; under [QueueOne]
      two runs can overlap and a firing can be stranded; under [Allow] an idle job
      can stay reported as running; a panicking body blocks its job under [Skip];
      cancelling an ended job takes it out of its terminal state; a job can still be
      listed when [cancel_and_wait] returns; a job paused while it runs can be
      reported stale; reusing a call id that was just answered closes the connection;
      a cancelled call's bytes are no longer counted while they are still held;
      [poll_recv] can report the end before an item; a drained writer never ends by
      itself. A peer that stops reading holds its connection, and a panic in a handler
      leaves its subscription behind; a heart-beat can precede CONNECTED; an abandoned
      subscribe stays subscribed; a reply of [null] is taken for none; a component
      that fails to start is not stopped; a bidirectional call whose item cannot be
      encoded is cut short silently; a streamed response that fails late ends as if it
      were complete; a header set twice keeps one value. The client of a renamed
      service reaches no method; the key [crate] of the macros is refused; a route can
      name a second list of middleware, which replaces the first; the parameters of a
      client's method can clash; [..] is sent as it is; the braces of a static topic
      stay doubled and two topics' values can share a destination; a path parameter can
      be documented under another name than the path's; two routes of one verb and path
      are found out when the server starts. The qualifier of a lazy optional field is
      not used, those of collections are ignored and malformed markers dropped; a
      field set under an alias gets its default as well, the default of a field with a raw
      identifier never reaches it; a default variant for each
      platform is refused. A job whose [Result] is an alias has its error dropped; a
      controller at ["/"], a route ["/"] and a hole in a base are not what the client asks
      for; the middleware of a websocket controller is ignored; a trigger of a manager
      cannot be switched off; of [app] and [root] one is dropped. A directory that was
      there is made private when a socket is bound in it, and a socket left behind blocks
      the next; a connection dropped within the process fires no token. A hook may ask for configuration
      that nothing binds.

    ** What is not modelled

    The tokens the macros emit around what is modelled (registrations, wasm
    bindings, the erased wrappers); accepting on sockets and pipes; the tracing set-up;
    the buffers of the Windows calls; re-exports, entry points and build scripts. The libraries below (tokio, axum,
    hyper, serde and its formats, syn) are arguments with what their documentation
    says of them. The self-reference a frozen container keeps is a plain value. *)
