(* ===== verification/Prelude.v ===== *)
(** * Prelude: the vocabulary every component file shares

    - [result] is Rust's [Result]; [rst] is a computation that may fail and
      threads a mutable context, keeping the context on the error path too (a
      Rust [&mut ctx] argument survives a [?] return).
    - [usize] arithmetic: saturating addition on a 64-bit target.
    - Strings are Rocq byte strings, so [String.length] is Rust's [str::len];
      [split_on] is [str::split(char)], [parse_int] is [str::parse::<iN>] and
      [parse_bool] is [str::parse::<bool>].
    - Association lists [(string * V)] model the order-preserving
      [Vec<(String, V)>] tables of the source. *)
From Stdlib Require Export String Ascii ZArith Lia.
From stdpp Require Export base tactics list strings gmap option numbers pretty sorting.
#[global] Open Scope string_scope.
#[global] Open Scope list_scope.
#[global] Open Scope Z_scope.

(** ** Results *)

Inductive result (A E : Type) : Type :=
| Ok (a : A)
| Err (e : E).
Arguments Ok {A E} a.
Arguments Err {A E} e.

#[export] Instance result_bind {E} : MBind (λ A, result A E) := λ A B f r,
  match r with Ok a => f a | Err e => Err e end.
#[export] Instance result_ret {E} : MRet (λ A, result A E) := λ A a, Ok a.

Definition result_map {A B E} (f : A → B) (r : result A E) : result B E :=
  match r with Ok a => Ok (f a) | Err e => Err e end.
Definition map_err {A E F} (f : E → F) (r : result A E) : result A F :=
  match r with Ok a => Ok a | Err e => Err (f e) end.
Definition result_ok {A E} (r : result A E) : option A :=
  match r with Ok a => Some a | Err _ => None end.
Definition is_ok {A E} (r : result A E) : bool :=
  match r with Ok _ => true | Err _ => false end.

(** [xs.iter().map(f).collect::<Result<Vec<_>, _>>()], or a loop that pushes
    [f(x)?]: the first error wins. *)
Fixpoint try_map {A B E} (f : A → result B E) (l : list A) : result (list B) E :=
  match l with
  | [] => Ok []
  | x :: l' =>
      match f x with
      | Err e => Err e
      | Ok y => match try_map f l' with Err e => Err e | Ok ys => Ok (y :: ys) end
      end
  end.

Lemma try_map_ok {A B E} (f : A → result B E) l ys :
  try_map f l = Ok ys ↔ Forall2 (λ x y, f x = Ok y) l ys.
Proof.
  revert ys. induction l as [|x l IH]; intros ys; simpl.
  - split; [intros [= <-]; constructor | by inversion 1].
  - destruct (f x) as [y|e] eqn:Hx.
    + destruct (try_map f l) as [ys'|e] eqn:Hl; split; intros H; simplify_eq.
      * constructor; [done | by apply IH].
      * inversion H; subst; simplify_eq. f_equal.
        assert (Ok ys' = Ok l' :> result _ E) as [= ->] by by apply IH. congruence.
      * inversion H; subst. by assert (Err e = Ok l') by by apply IH.
    + split; intros H; simplify_eq. inversion H; congruence.
Qed.

(** ** Fallible computations over a mutable context *)

Definition rst (S E A : Type) : Type := S → result A E * S.

#[export] Instance rst_bind {S E} : MBind (rst S E) := λ A B f m s,
  match m s with
  | (Ok a, s') => f a s'
  | (Err e, s') => (Err e, s')
  end.
#[export] Instance rst_ret {S E} : MRet (rst S E) := λ A a s, (Ok a, s).
Definition throw {S E A} (e : E) : rst S E A := λ s, (Err e, s).
Definition get_ctx {S E} : rst S E S := λ s, (Ok s, s).
Definition modify_ctx {S E} (f : S → S) : rst S E unit := λ s, (Ok tt, f s).
(** Lifts a pure [Result] with [?]. *)
Definition lift_result {S E A} (r : result A E) : rst S E A := λ s, (r, s).

(** [inv_run] splits a hypothesis about a run of the monad into one branch per
    step, discarding the contradictory ones. *)
Ltac unfold_monad :=
  unfold mbind, mret, rst_bind, rst_ret, result_bind, result_ret,
    throw, get_ctx, modify_ctx, lift_result in *.
Ltac inv_run :=
  repeat (unfold_monad; simpl in *; simplify_eq;
    match goal with
    | H : context [match ?m with _ => _ end] |- _ =>
        match type of H with _ = _ => destruct m eqn:?; simplify_eq end
    end).

(** ** Machine integers *)

Definition usize_max : Z := 2 ^ 64 - 1.
Definition usize_saturating_add (a b : Z) : Z := Z.min (a + b) usize_max.

Lemma usize_saturating_add_mono a b :
  a ≤ usize_max → 0 ≤ b → a ≤ usize_saturating_add a b.
Proof. unfold usize_saturating_add. lia. Qed.

Lemma usize_saturating_add_le a b k :
  k < usize_max → usize_saturating_add a b ≤ k ↔ a + b ≤ k.
Proof. unfold usize_saturating_add. lia. Qed.

(** The value range of a fixed-width integer type. *)
Definition i_min (w : Z) : Z := - 2 ^ (w - 1).
Definition i_max (w : Z) : Z := 2 ^ (w - 1) - 1.
Definition u_max (w : Z) : Z := 2 ^ w - 1.

(** ** Strings *)

Definition str_len (s : string) : Z := Z.of_nat (String.length s).
Definition str_push (s : string) (c : ascii) : string := s +:+ String c "".

Fixpoint str_any (p : ascii → bool) (s : string) : bool :=
  match s with
  | "" => false
  | String c s' => p c || str_any p s'
  end.
Definition str_contains (c : ascii) (s : string) : bool := str_any (λ d, bool_decide (c = d)) s.
Definition str_is_empty (s : string) : bool := match s with "" => true | _ => false end.

(** [s.split(c)]: always at least one piece; [""] splits into [[""]]. *)
Fixpoint split_on (c : ascii) (s : string) : list string :=
  match s with
  | "" => [""]
  | String d s' =>
      if bool_decide (c = d) then "" :: split_on c s'
      else match split_on c s' with
           | [] => [String d ""]
           | p :: ps => String d p :: ps
           end
  end.
Fixpoint join (sep : string) (l : list string) : string :=
  match l with
  | [] => ""
  | [s] => s
  | s :: l' => s +:+ sep +:+ join sep l'
  end.

Lemma str_app_assoc (a b c : string) : (a +:+ b) +:+ c = a +:+ (b +:+ c).
Proof. induction a as [|x a IH]; [done|]. unfold String.append in *. simpl. by f_equal. Qed.
Lemma str_app_nil_r (a : string) : a +:+ "" = a.
Proof. induction a as [|x a IH]; [done|]. unfold String.append in *. simpl. by f_equal. Qed.
Lemma str_app_cons c (a b : string) : String c a +:+ b = String c (a +:+ b).
Proof. done. Qed.
Lemma str_app_nil_l (b : string) : "" +:+ b = b.
Proof. done. Qed.
Lemma str_push_app s c r : str_push s c +:+ r = s +:+ String c r.
Proof. unfold str_push. by rewrite str_app_assoc. Qed.
Lemma str_length_app (a b : string) :
  String.length (a +:+ b) = (String.length a + String.length b)%nat.
Proof. induction a as [|x a IH]; [done|]. unfold String.append in *. simpl. by rewrite IH. Qed.
Lemma str_len_app (a b : string) : str_len (a +:+ b) = str_len a + str_len b.
Proof. unfold str_len. rewrite str_length_app. lia. Qed.
Lemma str_len_nonneg s : 0 ≤ str_len s.
Proof. unfold str_len. lia. Qed.
Lemma str_app_inv_head (a b c : string) : a +:+ b = a +:+ c → b = c.
Proof. induction a as [|x a IH]; [done|]. rewrite !str_app_cons. intros [= H]. by apply IH. Qed.
Create Rewrite HintDb str.
#[export] Hint Rewrite str_app_assoc str_app_nil_r str_app_cons str_app_nil_l str_push_app : str.
Create HintDb overseerd discriminated.
#[export] Hint Resolve str_len_nonneg usize_saturating_add_mono : overseerd.

Lemma str_is_empty_true s : str_is_empty s = true ↔ s = "".
Proof. by destruct s. Qed.
Lemma str_any_app p a b : str_any p (a +:+ b) = str_any p a || str_any p b.
Proof.
  induction a as [|c a IH]; [done|]. rewrite str_app_cons. simpl.
  rewrite IH. by rewrite orb_assoc.
Qed.
Lemma str_contains_cons c d s :
  str_contains c (String d s) = bool_decide (c = d) || str_contains c s.
Proof. done. Qed.
Lemma str_contains_cons_false c d s :
  str_contains c (String d s) = false ↔ d ≠ c ∧ str_contains c s = false.
Proof.
  rewrite str_contains_cons, orb_false_iff, bool_decide_eq_false. naive_solver.
Qed.
Lemma str_contains_app c a b : str_contains c (a +:+ b) = str_contains c a || str_contains c b.
Proof. apply str_any_app. Qed.

(** [split_on] and [join] are mutually inverse on separator-free pieces. *)
Lemma split_on_not_nil c s : split_on c s ≠ [].
Proof.
  destruct s as [|d s]; simpl; [done|]. case_bool_decide; [done|]. by destruct (split_on c s).
Qed.
Lemma join_split_on c s : join (String c "") (split_on c s) = s.
Proof.
  induction s as [|d s IH]; simpl; [done|].
  pose proof (split_on_not_nil c s) as Hne.
  case_bool_decide as Hcd.
  - subst d. destruct (split_on c s) as [|p ps] eqn:E; [done|].
    change (join (String c "") ("" :: p :: ps)) with ("" +:+ String c "" +:+ join (String c "") (p :: ps)).
    by rewrite IH.
  - destruct (split_on c s) as [|p ps]; [done|].
    destruct ps as [|q ps]; simpl in *; [by rewrite IH|].
    by rewrite <- IH.
Qed.
Lemma split_on_no_sep c s : str_contains c s = false → split_on c s = [s].
Proof.
  induction s as [|d s IH]; [done|].
  rewrite str_contains_cons. intros [Hd Hs]%orb_false_iff. simpl.
  case_bool_decide; [done|]. by rewrite IH.
Qed.
Lemma split_on_app c a r : str_contains c a = false → split_on c (a +:+ String c r) = a :: split_on c r.
Proof.
  induction a as [|d a IH]; intros Ha.
  - rewrite str_app_nil_l. simpl. by rewrite bool_decide_true.
  - rewrite str_app_cons. apply str_contains_cons_false in Ha as [Hd Ha]. simpl.
    rewrite bool_decide_false by done. by rewrite IH.
Qed.
Lemma split_on_pieces c s : Forall (λ p, str_contains c p = false) (split_on c s).
Proof.
  induction s as [|d s IH]; simpl; [by repeat constructor|]. case_bool_decide; [by constructor|].
  destruct (split_on c s) as [|p ps]; [by repeat constructor; rewrite str_contains_cons, bool_decide_false|].
  inversion IH; subst. constructor; [|done]. by rewrite str_contains_cons, bool_decide_false.
Qed.

(** ** Numbers as text *)

Definition digit_of (c : ascii) : option Z :=
  let n := Z.of_N (N_of_ascii c) in
  if (48 <=? n) && (n <=? 57) then Some (n - 48) else None.

Fixpoint parse_digits (acc : Z) (s : string) : option Z :=
  match s with
  | "" => Some acc
  | String c s' => d ← digit_of c; parse_digits (acc * 10 + d) s'
  end.

(** [<iN as FromStr>::from_str]: an optional sign, at least one digit, and a
    value in range. (Rust detects the overflow while accumulating.) *)
Definition parse_int (lo hi : Z) (s : string) : option Z :=
  let '(neg, body) :=
    match s with
    | String "-" r => (true, r)
    | String "+" r => (false, r)
    | _ => (false, s)
    end in
  match body with
  | "" => None
  | _ =>
      n ← parse_digits 0 body;
      let v := if (neg : bool) then - n else n in
      if (lo <=? v) && (v <=? hi) then Some v else None
  end.

Definition parse_i128 : string → option Z := parse_int (i_min 128) (i_max 128).

Definition parse_bool (s : string) : option bool :=
  if bool_decide (s = "true") then Some true
  else if bool_decide (s = "false") then Some false else None.
Definition bool_to_string (b : bool) : string := if b then "true" else "false".
(** [i128::to_string]. *)
Definition int_to_string (n : Z) : string := pretty n.

Lemma parse_bool_to_string b : parse_bool (bool_to_string b) = Some b.
Proof. by destruct b. Qed.

Lemma parse_int_range lo hi s n : parse_int lo hi s = Some n → lo ≤ n ≤ hi.
Proof.
  unfold parse_int. intros H.
  destruct (match s with
    | String "-" r => (true, r) | String "+" r => (false, r) | _ => (false, s) end)
    as [neg body].
  destruct body; [done|].
  apply bind_Some in H as (m & _ & H). case_match eqn:E; simplify_eq. lia.
Qed.

Lemma digit_of_pretty d : (d < 10)%N → digit_of (pretty_N_char d) = Some (Z.of_N d).
Proof.
  intros H. assert (d = 0 ∨ d = 1 ∨ d = 2 ∨ d = 3 ∨ d = 4 ∨ d = 5 ∨ d = 6 ∨ d = 7
    ∨ d = 8 ∨ d = 9)%N by lia. by destruct_or!; subst.
Qed.
Lemma parse_digits_pretty_go x s :
  parse_digits 0 (pretty_N_go x s) = parse_digits (Z.of_N x) s.
Proof.
  revert s. induction (N.lt_wf_0 x) as [x _ IH]; intros s.
  destruct (decide (0 < x)%N) as [Hx|Hx].
  - rewrite pretty_N_go_step by done. rewrite IH by (apply N.div_lt; lia). simpl.
    rewrite digit_of_pretty by (apply N.mod_lt; lia). simpl. f_equal.
    rewrite N2Z.inj_div, N2Z.inj_mod. pose proof (Z.div_mod (Z.of_N x) 10). lia.
  - assert (x = 0%N) as -> by lia. by rewrite pretty_N_go_0.
Qed.
Lemma parse_digits_pretty x : parse_digits 0 (pretty (x : N)) = Some (Z.of_N x).
Proof.
  unfold pretty, pretty_N. case_decide; [by subst|]. by rewrite parse_digits_pretty_go.
Qed.
Lemma pretty_N_go_head x s :
  (0 < x)%N → ∃ d r, pretty_N_go x s = String (pretty_N_char d) r ∧ (d < 10)%N.
Proof.
  revert s. induction (N.lt_wf_0 x) as [x _ IH]; intros s Hx.
  rewrite pretty_N_go_step by done. destruct (decide (0 < x / 10)%N) as [Hq|Hq].
  - apply IH; [apply N.div_lt; lia | done].
  - apply N.nlt_ge, N.le_0_r in Hq as ->. rewrite pretty_N_go_0.
    eexists _, _. split; [done|]. apply N.mod_lt. lia.
Qed.
Lemma pretty_N_head (x : N) : ∃ d r, pretty x = String (pretty_N_char d) r ∧ (d < 10)%N.
Proof.
  unfold pretty, pretty_N. case_decide; [by eexists 0%N, _|].
  apply pretty_N_go_head. lia.
Qed.
Lemma parse_int_unsigned lo hi (x : N) :
  lo ≤ Z.of_N x ≤ hi → parse_int lo hi (pretty x) = Some (Z.of_N x).
Proof.
  intros Hr. unfold parse_int.
  destruct (pretty_N_head x) as (d & r & Hp & Hd). pose proof (parse_digits_pretty x) as Hx.
  rewrite Hp in Hx |- *.
  assert (d = 0 ∨ d = 1 ∨ d = 2 ∨ d = 3 ∨ d = 4 ∨ d = 5 ∨ d = 6 ∨ d = 7
    ∨ d = 8 ∨ d = 9)%N as Hds by lia.
  destruct_or!; subst d; cbn -[parse_digits] in *; rewrite Hx; simpl;
    rewrite (proj2 (Z.leb_le _ _)), (proj2 (Z.leb_le _ _)) by lia; done.
Qed.

(** Printing an integer and parsing it back is the identity on the type's range. *)
Lemma parse_int_to_string lo hi n :
  lo ≤ n ≤ hi → parse_int lo hi (int_to_string n) = Some n.
Proof.
  intros Hr. unfold int_to_string, pretty at 1, pretty_Z.
  destruct n as [|p|p].
  - change "0" with (pretty 0%N). by apply parse_int_unsigned.
  - by apply (parse_int_unsigned _ _ (N.pos p)).
  - change (parse_int lo hi (String "-" (pretty (N.pos p))) = Some (Z.neg p)).
    unfold parse_int. pose proof (parse_digits_pretty (N.pos p)) as Hx.
    destruct (pretty_N_head (N.pos p)) as (d & r & Hp & _).
    rewrite Hp in Hx |- *. rewrite Hx. cbn -[Z.leb].
    rewrite !(proj2 (Z.leb_le _ _)) by lia. done.
Qed.

(** ** Order-preserving tables *)

Section Assoc.
Context {V : Type}.
Implicit Types (l : list (string * V)) (k : string).

  (** [entries.iter().find(|(key, _)| key == k)], values only. *)
Fixpoint assoc_find k l : option V :=
    match l with
    | [] => None
    | (k', v) :: l' => if bool_decide (k' = k) then Some v else assoc_find k l'
    end.

  (** The mutable form: rewrites the value of the first entry named [k]. *)
Fixpoint assoc_update k (f : V → V) l : list (string * V) :=
    match l with
    | [] => []
    | (k', v) :: l' =>
        if bool_decide (k' = k) then (k', f v) :: l' else (k', v) :: assoc_update k f l'
    end.

Definition assoc_keys l : list string := l.*1.

Lemma elem_of_assoc_keys_cons k k' v l :
  k ∈ assoc_keys ((k', v) :: l) ↔ k = k' ∨ k ∈ assoc_keys l.
Proof. apply elem_of_cons. Qed.
Lemma NoDup_assoc_keys_cons k v l :
  NoDup (assoc_keys ((k, v) :: l)) ↔ (k ∉ assoc_keys l) ∧ NoDup (assoc_keys l).
Proof. apply NoDup_cons. Qed.
Lemma not_elem_of_assoc_keys_nil k : k ∉ assoc_keys [].
Proof. apply not_elem_of_nil. Qed.
Lemma assoc_find_None k l : assoc_find k l = None ↔ k ∉ assoc_keys l.
Proof.
    induction l as [|[k' v] l IH]; simpl; [unfold assoc_keys; simpl; set_solver|].
    change (assoc_keys ((k', v) :: l)) with (k' :: assoc_keys l).
    rewrite elem_of_cons. case_bool_decide; [naive_solver|]. rewrite IH. naive_solver.
Qed.
Lemma assoc_find_Some_in k v l : assoc_find k l = Some v → (k, v) ∈ l.
Proof.
    induction l as [|[k' v'] l IH]; simpl; [done|].
    case_bool_decide; intros; simplify_eq; rewrite elem_of_cons; auto.
Qed.
Lemma assoc_find_in k v l : NoDup (assoc_keys l) → (k, v) ∈ l → assoc_find k l = Some v.
Proof.
    induction l as [|[k' v'] l IH]; simpl; [set_solver|].
    intros [Hk Hl]%NoDup_cons Hin. apply elem_of_cons in Hin as [[= -> ->]|Hin].
    - by rewrite bool_decide_true.
    - rewrite bool_decide_false; [by apply IH|]. intros ->. apply Hk.
      apply list_elem_of_fmap. by exists (k, v).
Qed.
Lemma assoc_find_app k l1 l2 :
    assoc_find k (l1 ++ l2) =
    match assoc_find k l1 with Some v => Some v | None => assoc_find k l2 end.
Proof. induction l1 as [|[k' v] l1 IH]; simpl; [done|]. by case_bool_decide. Qed.
Lemma assoc_find_update_eq k f l : assoc_find k (assoc_update k f l) = f <$> assoc_find k l.
Proof.
    induction l as [|[k' v] l IH]; simpl; [done|].
    case_bool_decide; simpl; [by rewrite bool_decide_true|]. by rewrite bool_decide_false.
Qed.
Lemma assoc_find_update_ne k k' f l :
    k ≠ k' → assoc_find k (assoc_update k' f l) = assoc_find k l.
Proof.
    intros Hne. induction l as [|[k'' v] l IH]; simpl; [done|].
    case_bool_decide; simpl; subst; [by rewrite bool_decide_false|]. by case_bool_decide.
Qed.
Lemma assoc_keys_update k f l : assoc_keys (assoc_update k f l) = assoc_keys l.
Proof.
    induction l as [|[k' v] l IH]; simpl; [done|].
    case_bool_decide; simpl; [done|]. unfold assoc_keys in *. by f_equal.
Qed.
Lemma assoc_update_None k f l : assoc_find k l = None → assoc_update k f l = l.
Proof.
    induction l as [|[k' v] l IH]; simpl; [done|]. case_bool_decide; [done|].
    intros Hf. by rewrite IH.
Qed.
Lemma assoc_update_id k f l :
    (∀ v, assoc_find k l = Some v → f v = v) → assoc_update k f l = l.
Proof.
    induction l as [|[k' v] l IH]; simpl; intros H; [done|].
    case_bool_decide; [by rewrite H|]. by rewrite IH.
Qed.
Lemma assoc_update_update k f g l :
    assoc_update k f (assoc_update k g l) = assoc_update k (f ∘ g) l.
Proof.
    induction l as [|[k' v] l IH]; simpl; [done|].
    case_bool_decide; simpl; [by rewrite bool_decide_true|].
    rewrite bool_decide_false by done. by rewrite IH.
Qed.
Lemma Forall_assoc_update (P : V → Prop) k f l :
  (∀ v, P v → P (f v)) → Forall (λ e, P e.2) l → Forall (λ e, P e.2) (assoc_update k f l).
Proof.
  intros Hf. induction 1 as [|[k' v] l Hv Hl IH]; simpl; [done|].
  case_bool_decide; constructor; simpl in *; auto.
Qed.
End Assoc.
#[export] Hint Resolve assoc_find_in not_elem_of_assoc_keys_nil : overseerd.
#[export] Hint Extern 1 => (exfalso; eapply not_elem_of_assoc_keys_nil; eassumption) : overseerd.

(** ** Lists updated by index *)

Lemma list_alter_compose {A} (f g : A → A) h (l : list A) : alter (f ∘ g) h l = alter f h (alter g h l).
Proof. revert h. induction l as [|x l IH]; intros [|h]; simpl; [done..|]. f_equal. apply IH. Qed.
(** Where a list was extended by one element. *)
Lemma app_eq_snoc_split {A} (l : list A) x a y b :
  l ++ [x] = a ++ y :: b → (b = [] ∧ y = x ∧ a = l) ∨ ∃ b', b = b' ++ [x] ∧ l = a ++ y :: b'.
Proof.
  intros Heq. destruct b as [|z b _] using rev_ind.
  - left. apply app_inj_tail in Heq as [-> ->]. done.
  - right. exists b. rewrite app_comm_cons, app_assoc in Heq. by apply app_inj_tail in Heq as [-> ->].
Qed.

(** ** Comparisons

    A three-way comparison that is antisymmetric and transitive, as [Ord::cmp]
    is required to be; [then_with] composes two of them lexicographically. *)
Class GoodCompare {A} (cmp : A → A → comparison) : Prop := {
  compare_flip x y : cmp y x = CompOpp (cmp x y);
  compare_trans r x y z : cmp x y = r → cmp y z = r → cmp x z = r;
}.
Definition then_with (c1 c2 : comparison) : comparison := match c1 with Eq => c2 | _ => c1 end.

Section GoodCompare.
Context {A : Type} (cmp : A → A → comparison) `{!GoodCompare cmp}.
Lemma compare_eq_l x y z : cmp x y = Eq → cmp x z = cmp y z.
Proof.
  intros Hxy. assert (cmp y x = Eq) as Hyx by (rewrite compare_flip, Hxy; done).
  destruct (cmp y z) eqn:Hyz; destruct (cmp x z) eqn:Hxz; try done; exfalso.
  - by rewrite (compare_trans Eq x y z Hxy Hyz) in Hxz.
  - by rewrite (compare_trans Eq x y z Hxy Hyz) in Hxz.
  - by rewrite (compare_trans Eq y x z Hyx Hxz) in Hyz.
  - assert (cmp z x = Lt) as Hzx by (rewrite compare_flip, Hxz; done).
    by rewrite (compare_trans Lt y z x Hyz Hzx) in Hyx.
  - by rewrite (compare_trans Eq y x z Hyx Hxz) in Hyz.
  - assert (cmp z x = Gt) as Hzx by (rewrite compare_flip, Hxz; done).
    by rewrite (compare_trans Gt y z x Hyz Hzx) in Hyx.
Qed.
Lemma compare_le_trans x y z : cmp x y ≠ Gt → cmp y z ≠ Gt → cmp x z ≠ Gt.
Proof.
  intros Hxy Hyz. destruct (cmp x y) eqn:H1; [by rewrite (compare_eq_l x y z H1)| |done].
  destruct (cmp y z) eqn:H2; [|by rewrite (compare_trans Lt x y z H1 H2)|done].
  assert (cmp z y = Eq) as Hzy by (rewrite compare_flip, H2; done).
  intros Hxz. assert (cmp z x = Lt) as Hzx by (rewrite compare_flip, Hxz; done).
  rewrite (compare_eq_l z y x Hzy) in Hzx. rewrite compare_flip, H1 in Hzx. done.
Qed.
Lemma compare_refl x : cmp x x = Eq.
Proof. pose proof (compare_flip x x) as H. by destruct (cmp x x). Qed.
End GoodCompare.

#[export] Instance Zcompare_good : GoodCompare Z.compare.
Proof.
  split; [intros; apply Z.compare_antisym|]. intros [] x y z; rewrite ?Z.compare_eq_iff, ?Z.compare_lt_iff, ?Z.compare_gt_iff; lia.
Qed.
#[export] Instance String_compare_good : GoodCompare String.compare.
Proof.
  split; [intros; apply String.compare_antisym|].
  intros r x. induction x as [|a x IH]; intros [|b y] [|c z]; simpl; try congruence.
  unfold Ascii.compare. intros H1 H2.
  destruct (N.compare_spec (N_of_ascii a) (N_of_ascii b)), (N.compare_spec (N_of_ascii b) (N_of_ascii c)),
    (N.compare_spec (N_of_ascii a) (N_of_ascii c)); try congruence; try lia; by eapply IH.
Qed.
#[export] Instance compare_on_good {A B} (f : A → B) cmp : GoodCompare cmp → GoodCompare (λ x y, cmp (f x) (f y)).
Proof. intros [H1 H2]. split; eauto. Qed.
#[export] Instance then_with_good {A} (c1 c2 : A → A → comparison) :
  GoodCompare c1 → GoodCompare c2 → GoodCompare (λ x y, then_with (c1 x y) (c2 x y)).
Proof.
  intros H1 H2. split.
  - intros x y. rewrite (compare_flip (cmp := c1) x y). destruct (c1 x y); simpl; try done. apply compare_flip.
  - intros r x y z. unfold then_with. destruct (c1 x y) eqn:E1.
    + rewrite (compare_eq_l c1 x y z E1). destruct (c1 y z); [apply compare_trans|congruence..].
    + intros <-. destruct (c1 y z) eqn:E2; intros E3; try done.
      * assert (c1 z y = Eq) as E by (rewrite compare_flip, E2; done).
        rewrite (compare_flip z x), (compare_eq_l c1 z y x E), (compare_flip x y), E1. done.
      * by rewrite (compare_trans Lt x y z E1 E2).
    + intros <-. destruct (c1 y z) eqn:E2; intros E3; try done.
      * assert (c1 z y = Eq) as E by (rewrite compare_flip, E2; done).
        rewrite (compare_flip z x), (compare_eq_l c1 z y x E), (compare_flip x y), E1. done.
      * by rewrite (compare_trans Gt x y z E1 E2).
Qed.

(** ** Sorting

    [sort_by] of the source is stable; so is this insertion sort. *)
Definition str_leb (a b : string) : bool := match String.compare a b with Gt => false | _ => true end.
Fixpoint insert_by {A} (leb : A → A → bool) (x : A) (l : list A) : list A :=
  match l with
  | [] => [x]
  | y :: l' => if leb x y then x :: l else y :: insert_by leb x l'
  end.
Definition sort_by {A} (leb : A → A → bool) (l : list A) : list A := foldr (insert_by leb) [] l.

Lemma insert_by_Permutation {A} (leb : A → A → bool) x l : insert_by leb x l ≡ₚ x :: l.
Proof. induction l as [|y l IH]; simpl; [done|]. destruct (leb x y); [done|]. rewrite IH. apply Permutation_swap. Qed.
Lemma sort_by_Permutation {A} (leb : A → A → bool) l : sort_by leb l ≡ₚ l.
Proof. induction l as [|x l IH]; simpl; [done|]. by rewrite insert_by_Permutation, IH. Qed.
Lemma sort_by_elem {A} (leb : A → A → bool) y l : y ∈ sort_by leb l ↔ y ∈ l.
Proof. by rewrite sort_by_Permutation. Qed.
Lemma insert_by_Sorted {A} (leb : A → A → bool) x l :
  (∀ a b, leb a b = false → leb b a = true) →
  Sorted (λ a b, leb a b = true) l → Sorted (λ a b, leb a b = true) (insert_by leb x l).
Proof.
  intros Htot. induction 1 as [|y l Hl IH Hy]; simpl; [by repeat constructor|].
  destruct (leb x y) eqn:Hxy; [by repeat constructor|]. constructor; [done|].
  destruct l as [|z l]; simpl; [constructor; auto|]. destruct (leb x z); constructor; auto. by inversion Hy.
Qed.
Lemma sort_by_Sorted {A} (leb : A → A → bool) l :
  (∀ a b, leb a b = false → leb b a = true) → Sorted (λ a b, leb a b = true) (sort_by leb l).
Proof. intros Htot. induction l as [|x l IH]; simpl; [constructor|]. by apply insert_by_Sorted. Qed.

(** ** Trimming

    [str::trim] of the source, for ASCII white space. *)
Definition is_space (c : ascii) : bool :=
  let n := Z.of_N (N_of_ascii c) in (n =? 32) || ((9 <=? n) && (n <=? 13)).
Fixpoint trim_start (s : string) : string :=
  match s with String c s' => if is_space c then trim_start s' else s | "" => "" end.
Fixpoint trim_end (s : string) : string :=
  match s with
  | "" => ""
  | String c s' =>
      match trim_end s' with
      | "" => if is_space c then "" else String c ""
      | r => String c r
      end
  end.
Definition trim (s : string) : string := trim_end (trim_start s).
(** [trim_start_matches(c)], [trim_end_matches(c)] and [trim_matches(c)]. *)
Fixpoint trim_start_char (d : ascii) (s : string) : string :=
  match s with String c s' => if bool_decide (c = d) then trim_start_char d s' else s | "" => "" end.
Fixpoint trim_end_char (d : ascii) (s : string) : string :=
  match s with
  | "" => ""
  | String c s' =>
      match trim_end_char d s' with
      | "" => if bool_decide (c = d) then "" else String c ""
      | r => String c r
      end
  end.
Definition trim_char (d : ascii) (s : string) : string := trim_end_char d (trim_start_char d s).
Lemma trim_end_char_idem d s : trim_end_char d (trim_end_char d s) = trim_end_char d s.
Proof.
  induction s as [|c s IH]; [done|]. cbn [trim_end_char]. destruct (trim_end_char d s) as [|e r] eqn:Hs.
  - case_bool_decide as Hc; [done|]. cbn. by rewrite bool_decide_false.
  - cbn [trim_end_char] in IH |- *. by rewrite IH.
Qed.
Lemma trim_end_char_cons d c s : c ≠ d → trim_end_char d (String c s) = String c (trim_end_char d s).
Proof. intros Hc. cbn. destruct (trim_end_char d s); [by rewrite bool_decide_false|done]. Qed.

(** ** Ends and sublists *)

Lemma drop_last_in {A} (n : nat) (l : list A) x : (n < length (l ++ [x]))%nat → x ∈ drop n (l ++ [x]).
Proof.
  rewrite length_app. simpl. intros Hn. rewrite drop_app_le by lia. apply elem_of_app. right. set_solver.
Qed.
Lemma last_drop_lt {A} (n : nat) (l : list A) : (n < length l)%nat → last (drop n l) = last l.
Proof. intros Hn. rewrite !last_lookup, length_drop, lookup_drop. f_equal. lia. Qed.
Lemma filter_all {A} (p : A → bool) (l : list A) : Forall (λ x, p x = true) l → List.filter p l = l.
Proof. induction 1 as [|x l Hx _ IH]; [done|]. cbn. by rewrite Hx, IH. Qed.

Lemma filter_cons_bool {A} (p : A → bool) x l : filter p (x :: l) = if p x then x :: filter p l else filter p l.
Proof. destruct (p x) eqn:Hp; [apply filter_cons_True|apply filter_cons_False]; rewrite Hp; [done|by intros []]. Qed.
Lemma filter_sublist {A} (P : A → Prop) `{!∀ x, Decision (P x)} l k : l `sublist_of` k → filter P l `sublist_of` filter P k.
Proof.
  induction 1 as [|x l k _ IH|x l k _ IH]; rewrite ?filter_cons; repeat case_decide; by eauto using sublist_cons, sublist_skip.
Qed.
