(* ===== verification/F64.v ===== *)
(** * F64: the binary64 values of configuration trees

    The source stores floats as [f64]. They are IEEE-754 values of the Standard
    Library's [SpecFloat] (a definition, not a primitive): [f64_eqb] is IEEE
    equality, under which NaN differs from itself; [f64_parse] is
    [f64::from_str], correctly rounded; [f64_to_string] is [Display for f64],
    the shortest digits that read back as the same value, never in exponent
    notation. *)
From Stdlib Require Import SpecFloat.
From S2P Require Import Prelude.

Abbreviation f64 := spec_float.

#[export] Instance spec_float_eq_dec : EqDecision spec_float.
Proof. solve_decision. Defined.

(** IEEE comparison: [PartialEq for f64]. *)
Definition f64_eqb : f64 → f64 → bool := SFeqb.
Definition f64_nan : f64 := S754_nan.

(** [n as f64], rounding to nearest even. *)
Definition f64_of_int (n : Z) : f64 := binary_normalize 53 1024 n 0 false.
(** [f as f32], kept as a value of the 24-bit format. *)
Definition f32_of_f64 (f : f64) : spec_float :=
  match f with
  | S754_finite s m e => binary_normalize 24 128 (cond_Zopp s (Z.pos m)) e s
  | _ => f
  end.

(** The float nearest to [± m * 10^e]. *)
Definition f64_of_decimal (s : bool) (m e : Z) : f64 :=
  match m with
  | Z.pos p =>
      if 0 <=? e then binary_normalize 53 1024 (cond_Zopp s (m * 10 ^ e)) 0 s
      else SFdiv 53 1024 (S754_finite s p 0) (S754_finite false (Z.to_pos (10 ^ (- e))) 0)
  | _ => S754_zero s
  end.

(** Reads a run of digits: their count, value, and the rest. *)
Fixpoint digit_run (n acc : Z) (s : string) : Z * Z * string :=
  match s with
  | "" => (n, acc, "")
  | String c s' =>
      match digit_of c with
      | Some d => digit_run (n + 1) (acc * 10 + d) s'
      | None => (n, acc, s)
      end
  end.

Definition take_sign (s : string) : bool * string :=
  match s with
  | String "-" r => (true, r)
  | String "+" r => (false, r)
  | _ => (false, s)
  end.

Definition ascii_lower (c : ascii) : ascii :=
  let n := N_of_ascii c in
  if (65 <=? Z.of_N n) && (Z.of_N n <=? 90) then ascii_of_N (n + 32) else c.
Fixpoint str_lower (s : string) : string :=
  match s with "" => "" | String c s' => String (ascii_lower c) (str_lower s') end.

Definition parse_exponent (s : string) : option Z :=
  match s with
  | "" => Some 0
  | String c r =>
      if bool_decide (ascii_lower c = "e"%char) then
        let '(neg, body) := take_sign r in
        match digit_run 0 0 body with
        | (n, v, "") => if n =? 0 then None else Some (if (neg : bool) then - v else v)
        | _ => None
        end
      else None
  end.

Definition f64_parse (s : string) : option f64 :=
  let '(neg, body) := take_sign s in
  let low := str_lower body in
  if bool_decide (low = "inf" ∨ low = "infinity") then Some (S754_infinity neg)
  else if bool_decide (low = "nan") then Some S754_nan
  else
    let '(ni, vi, r) := digit_run 0 0 body in
    let '(nf, v, r') :=
      match r with
      | String "." r' => digit_run 0 vi r'
      | _ => (0, vi, r)
      end in
    if (ni + nf =? 0) then None
    else e ← parse_exponent r'; Some (f64_of_decimal neg v (e - nf)).

(** Round-half-even quotient of positive integers. *)
Definition div_half_even (p q : Z) : Z :=
  let d := p / q in
  let r := 2 * (p mod q) in
  if r <? q then d else if q <? r then d + 1 else if Z.even d then d else d + 1.

(** The least [k] with [p / q < 10^k], from the digit counts of [p] and [q]. *)
Definition dec_exponent (p q : Z) : Z :=
  let k := str_len (int_to_string p) - str_len (int_to_string q) in
  if p * 10 ^ Z.max 0 (- k) <? q * 10 ^ Z.max 0 k then k else k + 1.

(** The shortest decimal [d * 10^e] that reads back as [± m * 2^e2], trying
    one to seventeen significant digits. *)
Fixpoint shortest_from (tries : nat) (n : Z) (s : bool) (m : positive) (e2 : Z) : Z * Z :=
  let p := Z.pos m * 2 ^ Z.max 0 e2 in
  let q := 2 ^ Z.max 0 (- e2) in
  let e := dec_exponent p q - n in
  let d := div_half_even (p * 10 ^ Z.max 0 (- e)) (q * 10 ^ Z.max 0 e) in
  match tries with
  | O => (d, e)
  | S tries' =>
      if bool_decide (f64_of_decimal s d e = S754_finite s m e2) then (d, e)
      else shortest_from tries' (n + 1) s m e2
  end.

Fixpoint strip_zeros (fuel : nat) (d e : Z) : Z * Z :=
  match fuel with
  | O => (d, e)
  | S f => if (d mod 10 =? 0) then strip_zeros f (d / 10) (e + 1) else (d, e)
  end.

Fixpoint zeros (n : nat) : string := match n with O => "" | S n' => String "0" (zeros n') end.

(** Positional notation for [d * 10^e], [d] without trailing zeros. *)
Definition positional (d e : Z) : string :=
  let ds := int_to_string d in
  let len := str_len ds in
  if 0 <=? e then ds +:+ zeros (Z.to_nat e)
  else if 0 <? len + e
    then String.substring 0 (Z.to_nat (len + e)) ds +:+ "."
           +:+ String.substring (Z.to_nat (len + e)) (Z.to_nat (- e)) ds
  else "0." +:+ zeros (Z.to_nat (- (len + e))) +:+ ds.

Definition f64_to_string (f : f64) : string :=
  match f with
  | S754_nan => "NaN"
  | S754_infinity s => if s then "-inf" else "inf"
  | S754_zero s => if s then "-0" else "0"
  | S754_finite s m e =>
      let '(d, e10) := shortest_from 16 1 s m e in
      let '(d, e10) := strip_zeros 20 d e10 in
      (if s then "-" else "") +:+ positional d e10
  end.

Lemma f64_eqb_nan : f64_eqb f64_nan f64_nan = false.
Proof. done. Qed.

Example f64_parse_display :
  (f64_to_string <$> f64_parse "0.1") = Some "0.1" ∧
  (f64_to_string <$> f64_parse "-12.50e1") = Some "-125" ∧
  (f64_to_string <$> f64_parse "1e16") = Some "10000000000000000" ∧
  (f64_to_string <$> f64_parse "1.5E-7") = Some "0.00000015" ∧
  (f64_to_string <$> f64_parse "NaN") = Some "NaN" ∧
  f64_parse "." = None ∧ f64_parse "1e" = None ∧ f64_parse "1.x" = None ∧
  (f64_to_string <$> f64_parse "0.30000000000000004") = Some "0.30000000000000004".
Proof. vm_compute. repeat split. Qed.
