(* ===== verification/ConfigValue.v ===== *)
(** * ConfigValue: the configuration tree and its string templates

    Models [crates/config/src/value.rs], [error.rs] and [parse.rs]: the
    format-agnostic tree every source normalises into, the classified
    placeholder segments of a string leaf, the one-pass template parser, and
    dotted-path lookup. A printer for segments states what the grammar denotes;
    it is the inverse of the parser on its image. *)
From S2P Require Import Prelude F64.

(** ** Errors *)

Inductive TemplateErrorKind : Type :=
| UnterminatedPlaceholder
| MissingPlaceholder (key : string)
| UnknownNamespaceKey (key : string)
| NotStringRenderable (key : string)
| ResolutionCycle (chain : list string) (key : string)
| ResolutionDepthExceeded (limit : Z)
| ResolutionBudgetExceeded (limit : Z)
| RenderedOutputTooLarge (limit : Z)
| PartialInNonString (target : string)
| ParseAs (target : string)
| OutOfRange (target : string)
| TypeMismatch (expected found : string)
| Message (msg : string).

Inductive TemplateError : Type :=
| At (path : string) (kind : TemplateErrorKind)
| Bare (kind : TemplateErrorKind).

Definition error_kind (e : TemplateError) : TemplateErrorKind :=
  match e with At _ k | Bare k => k end.

(** ** The tree *)

Record Placeholder := mkPlaceholder { key : string; default : option string }.

Inductive Segment : Type :=
| SegLiteral (text : string)
| SegPlaceholder (p : Placeholder).

Inductive StrKind : Type := KLiteral | KFullPlaceholder | KTemplated.

Record ConfigStr := mkConfigStr { segments : list Segment; kind : StrKind }.

Inductive ConfigValue : Type :=
| CNull
| CBool (b : bool)
| CInt (n : Z)
| CFloat (f : f64)
| CStr (s : ConfigStr)
| CArray (items : list ConfigValue)
| CTable (entries : list (string * ConfigValue)).

#[export] Instance Placeholder_eq_dec : EqDecision Placeholder.
Proof. solve_decision. Defined.
#[export] Instance Segment_eq_dec : EqDecision Segment.
Proof. solve_decision. Defined.
#[export] Instance StrKind_eq_dec : EqDecision StrKind.
Proof. solve_decision. Defined.
#[export] Instance ConfigStr_eq_dec : EqDecision ConfigStr.
Proof. solve_decision. Defined.
#[export] Instance TemplateErrorKind_eq_dec : EqDecision TemplateErrorKind.
Proof. solve_decision. Defined.
#[export] Instance TemplateError_eq_dec : EqDecision TemplateError.
Proof. solve_decision. Defined.

(** Structural induction through the nested lists. *)
Section ConfigValueInd.
Variable P : ConfigValue → Prop.
Hypothesis Hnull : P CNull.
Hypothesis Hbool : ∀ b, P (CBool b).
Hypothesis Hint : ∀ n, P (CInt n).
Hypothesis Hfloat : ∀ f, P (CFloat f).
Hypothesis Hstr : ∀ s, P (CStr s).
Hypothesis Harray : ∀ items, Forall P items → P (CArray items).
Hypothesis Htable : ∀ entries, Forall (λ e, P (snd e)) entries → P (CTable entries).

Fixpoint ConfigValue_nested_ind (v : ConfigValue) : P v :=
    match v with
    | CNull => Hnull
    | CBool b => Hbool b
    | CInt n => Hint n
    | CFloat f => Hfloat f
    | CStr s => Hstr s
    | CArray items =>
        Harray items
          ((fix go l : Forall P l :=
              match l with
              | [] => List.Forall_nil P
              | x :: l' => List.Forall_cons _ x l' (ConfigValue_nested_ind x) (go l')
              end) items)
    | CTable entries =>
        Htable entries
          ((fix go l : Forall (λ e, P (snd e)) l :=
              match l with
              | [] => List.Forall_nil _
              | e :: l' => List.Forall_cons _ e l' (ConfigValue_nested_ind (snd e)) (go l')
              end) entries)
    end.
End ConfigValueInd.

(** The derived [PartialEq]: field-wise, with IEEE equality on floats. *)
Fixpoint cv_eqb (a b : ConfigValue) : bool :=
  match a, b with
  | CNull, CNull => true
  | CBool x, CBool y => Bool.eqb x y
  | CInt x, CInt y => x =? y
  | CFloat x, CFloat y => f64_eqb x y
  | CStr s, CStr t => bool_decide (s = t)
  | CArray xs, CArray ys =>
      (fix go xs ys :=
         match xs, ys with
         | [], [] => true
         | x :: xs', y :: ys' => cv_eqb x y && go xs' ys'
         | _, _ => false
         end) xs ys
  | CTable xs, CTable ys =>
      (fix go xs ys :=
         match xs, ys with
         | [], [] => true
         | (k, x) :: xs', (l, y) :: ys' => bool_decide (k = l) && cv_eqb x y && go xs' ys'
         | _, _ => false
         end) xs ys
  | _, _ => false
  end.

(** [ConfigValue::type_label] *)
Definition type_label (v : ConfigValue) : string :=
  match v with
  | CNull => "null"
  | CBool _ => "bool"
  | CInt _ => "integer"
  | CFloat _ => "float"
  | CStr _ => "string"
  | CArray _ => "array"
  | CTable _ => "table"
  end.

(** The loop body of [lookup_path], over the pieces of the path. *)
Fixpoint lookup_segments (current : ConfigValue) (segs : list string) : option ConfigValue :=
  match segs with
  | [] => Some current
  | seg :: segs' =>
      match current with
      | CTable entries => next ← assoc_find seg entries; lookup_segments next segs'
      | _ => None
      end
  end.

Definition lookup_path (root : ConfigValue) (path : string) : option ConfigValue :=
  lookup_segments root (split_on "." path).

(** [ConfigValue::get_path] *)
Definition get_path (v : ConfigValue) (path : string) : option ConfigValue :=
  if str_is_empty path then Some v else lookup_path v path.

Definition is_full_placeholder (s : ConfigStr) : bool :=
  bool_decide (kind s = KFullPlaceholder).

(** [ConfigStr::as_full] *)
Definition as_full (s : ConfigStr) : option Placeholder :=
  match kind s, head (segments s) with
  | KFullPlaceholder, Some (SegPlaceholder p) => Some p
  | _, _ => None
  end.

(** [ConfigStr::as_literal] *)
Definition as_literal (s : ConfigStr) : option string :=
  match kind s, segments s with
  | KLiteral, [SegLiteral text] => Some text
  | KLiteral, [] => Some ""
  | _, _ => None
  end.

(** ** The template parser *)

Definition classify (segs : list Segment) : StrKind :=
  match segs with
  | [] => KLiteral
  | [SegLiteral _] => KLiteral
  | [SegPlaceholder _] => KFullPlaceholder
  | _ => KTemplated
  end.

(** Reads the inline default, returning it with the unread characters. *)
Fixpoint read_default (default chars : string) : result (string * string) TemplateErrorKind :=
  match chars with
  | "" => Err UnterminatedPlaceholder
  | String c chars' =>
      if bool_decide (c = "}"%char) then Ok (default, chars')
      else read_default (str_push default c) chars'
  end.

Fixpoint parse_placeholder (key chars : string) :
    result (Placeholder * string) TemplateErrorKind :=
  match chars with
  | "" => Err UnterminatedPlaceholder
  | String c chars' =>
      if bool_decide (c = "}"%char) then Ok (mkPlaceholder key None, chars')
      else if bool_decide (c = ":"%char) then
        match read_default "" chars' with
        | Err e => Err e
        | Ok (default, rest) => Ok (mkPlaceholder key (Some default), rest)
        end
      else parse_placeholder (str_push key c) chars'
  end.

(** [if !literal.is_empty() { segments.push(Literal(literal)) }] *)
Definition flush_literal (literal : string) (segs : list Segment) : list Segment :=
  if str_is_empty literal then segs else segs ++ [SegLiteral literal].

(** The [while let Some(c) = chars.next()] loop; every turn consumes at least
    one character, so [fuel] beyond the length of [chars] is never used up. *)
Fixpoint parse_loop (fuel : nat) (chars literal : string) (segs : list Segment) :
    result (string * list Segment) TemplateErrorKind :=
  match fuel with
  | O => Ok (literal, segs)
  | S fuel' =>
      match chars with
      | "" => Ok (literal, segs)
      | String c chars' =>
          if negb (bool_decide (c = "$"%char)) then
            parse_loop fuel' chars' (str_push literal c) segs
          else
            match chars' with
            | String "$" rest => parse_loop fuel' rest (str_push literal "$") segs
            | String "{" rest =>
                match parse_placeholder "" rest with
                | Err e => Err e
                | Ok (p, rest') =>
                    parse_loop fuel' rest' "" (flush_literal literal segs ++ [SegPlaceholder p])
                end
            | _ => parse_loop fuel' chars' (str_push literal "$") segs
            end
      end
  end.

Definition parse_template (raw : string) : result (list Segment * StrKind) TemplateError :=
  match parse_loop (S (String.length raw)) raw "" [] with
  | Err e => Err (Bare e)
  | Ok (literal, segs) =>
      let segs := flush_literal literal segs in
      Ok (segs, classify segs)
  end.

(** [ConfigStr::parse] *)
Definition ConfigStr_parse (raw : string) : result ConfigStr TemplateError :=
  match parse_template raw with
  | Err e => Err e
  | Ok (segs, k) => Ok (mkConfigStr segs k)
  end.

(** [ConfigValue::parsed_str] *)
Definition parsed_str (raw : string) : result ConfigValue TemplateError :=
  match ConfigStr_parse raw with Err e => Err e | Ok s => Ok (CStr s) end.

(** ** The grammar as a printer *)

(** Escapes a literal: every [$] is doubled. *)
Fixpoint escape_literal (t : string) : string :=
  match t with
  | "" => ""
  | String c t' =>
      if bool_decide (c = "$"%char) then String "$" (String "$" (escape_literal t'))
      else String c (escape_literal t')
  end.
Definition print_placeholder (p : Placeholder) : string :=
  "${" +:+ key p +:+ (match default p with Some d => ":" +:+ d | None => "" end) +:+ "}".
Definition print_segment (s : Segment) : string :=
  match s with SegLiteral t => escape_literal t | SegPlaceholder p => print_placeholder p end.
Fixpoint print_segments (segs : list Segment) : string :=
  match segs with [] => "" | s :: segs' => print_segment s +:+ print_segments segs' end.

(** The placeholders the grammar can express: the key stops at [:] or [}], the
    default at [}]. *)
Definition placeholder_wf (p : Placeholder) : bool :=
  negb (str_contains "}" (key p)) && negb (str_contains ":" (key p)) &&
  match default p with Some d => negb (str_contains "}" d) | None => true end.
(** Canonical segment lists: literals are non-empty and never adjacent. *)
Fixpoint segments_wf (after_literal : bool) (segs : list Segment) : bool :=
  match segs with
  | [] => true
  | SegLiteral t :: segs' => negb after_literal && negb (str_is_empty t) && segments_wf true segs'
  | SegPlaceholder p :: segs' => placeholder_wf p && segments_wf false segs'
  end.
(** The invariant of every [ConfigStr] built by [ConfigStr::parse]. *)
Definition ConfigStr_wf (s : ConfigStr) : Prop :=
  segments_wf false (segments s) = true ∧ kind s = classify (segments s).

(** ** Parser lemmas *)

Lemma read_default_length d chars x rest :
  read_default d chars = Ok (x, rest) → (String.length rest < String.length chars)%nat.
Proof.
  revert d. induction chars as [|c chars IH]; intros d; simpl; [done|].
  case_bool_decide; intros H'; simplify_eq; [lia|]. apply IH in H'. lia.
Qed.
Lemma parse_placeholder_length k chars p rest :
  parse_placeholder k chars = Ok (p, rest) → (String.length rest < String.length chars)%nat.
Proof.
  revert k. induction chars as [|c chars IH]; intros k; simpl; [done|].
  case_bool_decide; [intros; simplify_eq; lia|]. case_bool_decide.
  - destruct (read_default "" chars) as [[d r]|] eqn:E; intros; simplify_eq.
    apply read_default_length in E. lia.
  - intros H'. apply IH in H'. lia.
Qed.

(** Fuel above the input length does not matter. *)
Lemma parse_loop_fuel f1 f2 chars literal segs :
  (String.length chars < f1)%nat → (String.length chars < f2)%nat →
  parse_loop f1 chars literal segs = parse_loop f2 chars literal segs.
Proof.
  revert f2 chars literal segs. induction f1 as [|f1 IH]; intros f2 chars literal segs H1 H2; [lia|].
  destruct f2 as [|f2]; [lia|]. destruct chars as [|c chars]; [done|]. simpl in *.
  case_bool_decide; simpl; [|apply IH; lia].
  destruct chars as [|c' chars]; [apply IH; simpl; lia|]. simpl in *.
  repeat case_match; subst; try (apply IH; simpl in *; lia); try done.
  match goal with E : parse_placeholder _ _ = Ok _ |- _ =>
    apply parse_placeholder_length in E; apply IH; simpl in *; lia end.
Qed.

(** The loop with enough fuel, and its equations. *)
Definition parse_chars (chars literal : string) (segs : list Segment) :=
  parse_loop (S (String.length chars)) chars literal segs.

Lemma parse_chars_char c chars literal segs :
  c ≠ "$"%char → parse_chars (String c chars) literal segs = parse_chars chars (str_push literal c) segs.
Proof. intros. unfold parse_chars. simpl. by rewrite bool_decide_false. Qed.
Lemma parse_chars_escape chars literal segs :
  parse_chars (String "$" (String "$" chars)) literal segs
  = parse_chars chars (str_push literal "$") segs.
Proof.
  unfold parse_chars. transitivity (parse_loop (S (S (String.length chars))) chars
    (str_push literal "$") segs); [done|]. apply parse_loop_fuel; lia.
Qed.
Lemma parse_chars_placeholder chars literal segs p rest :
  parse_placeholder "" chars = Ok (p, rest) →
  parse_chars ("${" +:+ chars) literal segs
  = parse_chars rest "" (flush_literal literal segs ++ [SegPlaceholder p]).
Proof.
  intros Hp. pose proof (parse_placeholder_length _ _ _ _ Hp).
  unfold parse_chars. transitivity (parse_loop (S (S (String.length chars))) rest ""
    (flush_literal literal segs ++ [SegPlaceholder p])).
  - transitivity (match parse_placeholder "" chars with
      | Err e => Err e
      | Ok (p, rest') => parse_loop (S (S (String.length chars))) rest' ""
          (flush_literal literal segs ++ [SegPlaceholder p]) end); [done|by rewrite Hp].
  - apply parse_loop_fuel; lia.
Qed.

Lemma read_default_print d acc rest :
  str_contains "}" d = false → read_default acc (d +:+ "}" +:+ rest) = Ok (acc +:+ d, rest).
Proof.
  revert acc. induction d as [|c d IH]; intros acc Hd.
  - simpl. by rewrite str_app_nil_r.
  - apply str_contains_cons_false in Hd as [Hc Hd].
    rewrite str_app_cons. cbn [read_default]. rewrite bool_decide_false by done.
    rewrite IH by done. by rewrite str_push_app.
Qed.
Lemma parse_placeholder_print p acc rest :
  placeholder_wf p = true →
  parse_placeholder acc (key p +:+ (match default p with Some d => ":" +:+ d | None => "" end)
                           +:+ "}" +:+ rest)
  = Ok (mkPlaceholder (acc +:+ key p) (default p), rest).
Proof.
  destruct p as [k def]. unfold placeholder_wf. simpl.
  rewrite !andb_true_iff, !negb_true_iff. intros [[Hk1 Hk2] Hd].
  revert acc. induction k as [|c k IH]; intros acc.
  - rewrite str_app_nil_l, str_app_nil_r. destruct def as [d|]; [|done].
    rewrite negb_true_iff in Hd. simpl. change (String.append d (String.append "}" rest)) with (d +:+ "}" +:+ rest).
    by rewrite (read_default_print d "").
  - apply str_contains_cons_false in Hk1 as [Hc1 Hk1], Hk2 as [Hc2 Hk2].
    rewrite str_app_cons. cbn [parse_placeholder].
    rewrite !bool_decide_false by done.
    rewrite IH by done. by rewrite str_push_app.
Qed.

Lemma parse_chars_literal t rest literal segs :
  parse_chars (escape_literal t +:+ rest) literal segs = parse_chars rest (literal +:+ t) segs.
Proof.
  revert literal. induction t as [|c t IH]; intros literal; [by rewrite str_app_nil_r|].
  simpl. case_bool_decide; rewrite !str_app_cons.
  - subst. rewrite parse_chars_escape, IH. by rewrite str_push_app.
  - rewrite parse_chars_char by done. rewrite IH. by rewrite str_push_app.
Qed.

Lemma parse_chars_print_placeholder p rest literal segs :
  placeholder_wf p = true →
  parse_chars (print_placeholder p +:+ rest) literal segs
  = parse_chars rest "" (flush_literal literal segs ++ [SegPlaceholder p]).
Proof.
  intros Hp. unfold print_placeholder. rewrite !str_app_assoc.
  apply parse_chars_placeholder. rewrite parse_placeholder_print by done. by destruct p.
Qed.

Lemma parse_chars_print segs literal acc :
  segments_wf (negb (str_is_empty literal)) segs = true →
  ∃ literal' acc', parse_chars (print_segments segs) literal acc = Ok (literal', acc') ∧
    flush_literal literal' acc' = flush_literal literal acc ++ segs.
Proof.
  revert literal acc. induction segs as [|[t|p] segs IH]; intros literal acc Hwf; simpl in *.
  - eexists _, _. split; [done|]. by rewrite app_nil_r.
  - rewrite negb_involutive, !andb_true_iff, negb_true_iff, str_is_empty_true in Hwf.
    destruct Hwf as [[-> Ht] Hwf]. rewrite parse_chars_literal, str_app_nil_l.
    destruct (IH t acc) as (l' & a' & -> & Hf); [by rewrite Ht|]. eexists _, _. split; [done|].
    rewrite Hf. unfold flush_literal. rewrite Ht. simpl. by rewrite <- app_assoc.
  - apply andb_true_iff in Hwf as [Hp Hwf]. rewrite parse_chars_print_placeholder by done.
    destruct (IH "" (flush_literal literal acc ++ [SegPlaceholder p])) as (l' & a' & -> & Hf); [done|].
    eexists _, _. split; [done|]. rewrite Hf. unfold flush_literal at 1. simpl. by rewrite <- app_assoc.
Qed.

(** ** Well-formedness of parsed leaves *)

Fixpoint ends_literal (after_literal : bool) (segs : list Segment) : bool :=
  match segs with
  | [] => after_literal
  | SegLiteral _ :: segs' => ends_literal true segs'
  | SegPlaceholder _ :: segs' => ends_literal false segs'
  end.
Lemma segments_wf_app b s1 s2 :
  segments_wf b (s1 ++ s2) = segments_wf b s1 && segments_wf (ends_literal b s1) s2.
Proof.
  revert b. induction s1 as [|[t|p] s1 IH]; intros b; simpl; [done| |]; by rewrite IH, !andb_assoc.
Qed.
Lemma ends_literal_snoc b s p : ends_literal b (s ++ [SegPlaceholder p]) = false.
Proof. revert b. by induction s as [|[t|q] s IH]; intros b; simpl. Qed.
Lemma flush_literal_wf literal segs :
  segments_wf false segs = true → ends_literal false segs = false →
  segments_wf false (flush_literal literal segs) = true.
Proof.
  intros Hwf Hend. unfold flush_literal. destruct (str_is_empty literal) eqn:E; [done|].
  by rewrite segments_wf_app, Hwf, Hend; simpl; rewrite E.
Qed.

Lemma str_contains_push c s d :
  str_contains c (str_push s d) = str_contains c s || bool_decide (c = d).
Proof. unfold str_push. rewrite str_contains_app, str_contains_cons. by rewrite orb_false_r. Qed.
Lemma read_default_wf acc chars d rest :
  str_contains "}" acc = false → read_default acc chars = Ok (d, rest) → str_contains "}" d = false.
Proof.
  revert acc. induction chars as [|c chars IH]; intros acc Hacc; simpl; [done|].
  case_bool_decide; intros H'; simplify_eq; [done|].
  apply IH in H'; [done|]. rewrite str_contains_push, Hacc. by apply bool_decide_false.
Qed.
Lemma parse_placeholder_wf acc chars p rest :
  str_contains "}" acc = false → str_contains ":" acc = false →
  parse_placeholder acc chars = Ok (p, rest) → placeholder_wf p = true.
Proof.
  revert acc. induction chars as [|c chars IH]; intros acc H1 H2; simpl; [done|].
  case_bool_decide as Hc1; [|case_bool_decide as Hc2]; intros H'; simplify_eq.
  - unfold placeholder_wf. simpl. by rewrite H1, H2.
  - destruct (read_default "" chars) as [[d r]|] eqn:E; simplify_eq.
    apply read_default_wf in E; [|done]. unfold placeholder_wf. simpl. by rewrite H1, H2, E.
  - apply IH in H'; [done|..]; rewrite str_contains_push, ?H1, ?H2; by apply bool_decide_false.
Qed.
Lemma parse_loop_wf fuel chars literal segs literal' segs' :
  segments_wf false segs = true → ends_literal false segs = false →
  parse_loop fuel chars literal segs = Ok (literal', segs') →
  segments_wf false segs' = true ∧ ends_literal false segs' = false.
Proof.
  revert chars literal segs. induction fuel as [|fuel IH]; intros chars literal segs Hwf Hend Hl;
    simpl in Hl; [by simplify_eq|].
  repeat case_match; simplify_eq; eauto.
  match goal with E : parse_placeholder _ _ = _ |- _ =>
    apply parse_placeholder_wf in E; [|done..]; eapply IH in Hl; [done|..] end.
  - rewrite segments_wf_app, flush_literal_wf by done. simpl.
    by match goal with E : placeholder_wf _ = true |- _ => rewrite E end.
  - apply ends_literal_snoc.
Qed.

(** ** Properties *)

(** the parser inverts the printer on every canonical segment list, so the
    grammar [${key}], [${key:default}], [$$] is unambiguous and every
    combination of literals and placeholders can be written. *)
Theorem parse_template_print (segs : list Segment) :
  segments_wf false segs = true →
  parse_template (print_segments segs) = Ok (segs, classify segs).
Proof.
  intros Hwf. destruct (parse_chars_print segs "" [] Hwf) as (l & acc & Hp & Hf).
  unfold parse_template. fold (parse_chars (print_segments segs) "" []).
  rewrite Hp. by rewrite Hf.
Qed.
Lemma parse_template_print_witness :
  parse_template (print_segments [SegLiteral "a$"; SegPlaceholder (mkPlaceholder "k.x" (Some ":d"))])
  = Ok ([SegLiteral "a$"; SegPlaceholder (mkPlaceholder "k.x" (Some ":d"))], KTemplated).
Proof. apply parse_template_print. vm_compute. reflexivity. Defined.

Lemma ConfigStr_parse_wf raw s : ConfigStr_parse raw = Ok s → ConfigStr_wf s.
Proof.
  unfold ConfigStr_parse, parse_template. intros Hp.
  destruct (parse_loop _ raw "" []) as [[l segs]|] eqn:E; simplify_eq.
  apply parse_loop_wf in E as [Hwf Hend]; [|done..].
  split; simpl; [by apply flush_literal_wf|done].
Qed.

(** every parsed leaf is canonical and correctly classified, its kind is
    [FullPlaceholder] exactly when [as_full] yields the sole placeholder (so the
    [expect] of the deserializer cannot fail), and [Literal] exactly when
    [as_literal] yields its text. *)
Theorem ConfigStr_parse_classified (raw : string) (s : ConfigStr) :
  ConfigStr_parse raw = Ok s →
  ConfigStr_wf s ∧
  (kind s = KFullPlaceholder ↔ is_Some (as_full s)) ∧
  (kind s = KLiteral ↔ is_Some (as_literal s)) ∧
  (∀ p, as_full s = Some p → segments s = [SegPlaceholder p] ∧ placeholder_wf p = true).
Proof.
  intros Hwf%ConfigStr_parse_wf. split; [done|]. destruct Hwf as [Hwf Hk].
  destruct s as [segs k]. unfold as_full, as_literal. simpl in *. subst k.
  destruct segs as [|[t|p] [|? ?]]; simpl in *; split_and!; intros;
    try split; try done; try (by intros [? ?]); simplify_eq; eauto.
  by rewrite andb_true_r in Hwf.
Qed.
Lemma ConfigStr_parse_classified_witness :
  ConfigStr_parse "${a:b}" = Ok (mkConfigStr [SegPlaceholder (mkPlaceholder "a" (Some "b"))] KFullPlaceholder)
  ∧ is_Some (as_full (mkConfigStr [SegPlaceholder (mkPlaceholder "a" (Some "b"))] KFullPlaceholder)).
Proof.
  split; [vm_compute; reflexivity|].
  apply (ConfigStr_parse_classified "${a:b}" _ eq_refl). reflexivity.
Defined.

Lemma read_default_unterminated acc chars :
  str_contains "}" chars = false → read_default acc chars = Err UnterminatedPlaceholder.
Proof.
  revert acc. induction chars as [|c chars IH]; intros acc; [done|].
  intros [Hc Hn]%str_contains_cons_false. cbn [read_default].
  rewrite bool_decide_false by done. by apply IH.
Qed.
Lemma parse_placeholder_unterminated acc chars :
  str_contains "}" chars = false → parse_placeholder acc chars = Err UnterminatedPlaceholder.
Proof.
  revert acc. induction chars as [|c chars IH]; intros acc; [done|].
  intros [Hc Hn]%str_contains_cons_false. cbn [parse_placeholder].
  rewrite bool_decide_false by done. case_bool_decide; [|by apply IH].
  by rewrite read_default_unterminated.
Qed.
Lemma read_default_error acc chars e : read_default acc chars = Err e → e = UnterminatedPlaceholder.
Proof.
  revert acc. induction chars as [|c chars IH]; intros acc; simpl; [congruence|].
  case_bool_decide; [done|apply IH].
Qed.
Lemma parse_placeholder_error acc chars e :
  parse_placeholder acc chars = Err e → e = UnterminatedPlaceholder.
Proof.
  revert acc. induction chars as [|c chars IH]; intros acc; simpl; [congruence|].
  repeat case_bool_decide; [done| |apply IH].
  destruct (read_default "" chars) as [[]|] eqn:E; [done|]. intros [= <-].
  by apply read_default_error in E.
Qed.
Lemma parse_loop_error fuel chars literal segs e :
  parse_loop fuel chars literal segs = Err e → e = UnterminatedPlaceholder.
Proof.
  revert chars literal segs. induction fuel as [|fuel IH]; intros chars literal segs Hl;
    simpl in Hl; [done|].
  repeat case_match; simplify_eq; eauto using parse_placeholder_error.
Qed.
Lemma parse_chars_unterminated segs tail lit acc :
  segments_wf (negb (str_is_empty lit)) segs = true → str_contains "}" tail = false →
  parse_chars (print_segments segs +:+ "${" +:+ tail) lit acc = Err UnterminatedPlaceholder.
Proof.
  intros Hwf Htail. revert lit acc Hwf. induction segs as [|[t|p] segs IH]; intros lit acc Hwf; simpl in Hwf |- *.
  - transitivity (match parse_placeholder "" tail with
      | Err e => Err e
      | Ok (p, rest') => parse_loop (S (S (String.length tail))) rest' ""
          (flush_literal lit acc ++ [SegPlaceholder p]) end); [done|].
    by rewrite parse_placeholder_unterminated.
  - rewrite negb_involutive, !andb_true_iff, negb_true_iff, str_is_empty_true in Hwf.
    destruct Hwf as [[-> Ht] Hwf]. rewrite str_app_assoc, parse_chars_literal.
    apply IH. by rewrite str_app_nil_l, Ht.
  - apply andb_true_iff in Hwf as [Hp Hwf].
    rewrite str_app_assoc, parse_chars_print_placeholder by done. by apply IH.
Qed.

(** the only parse error is an unterminated placeholder, and an opening
    [${] with no closing brace after it raises it, whatever precedes it. *)
Theorem parse_template_error (segs : list Segment) (tail : string) :
  segments_wf false segs = true → str_contains "}" tail = false →
  parse_template (print_segments segs +:+ "${" +:+ tail) = Err (Bare UnterminatedPlaceholder)
  ∧ ∀ raw e, parse_template raw = Err e → e = Bare UnterminatedPlaceholder.
Proof.
  intros Hwf Htail. split.
  - unfold parse_template. fold (parse_chars (print_segments segs +:+ "${" +:+ tail) "" []).
    by rewrite parse_chars_unterminated.
  - intros raw e. unfold parse_template. destruct (parse_loop _ _ _ _) as [[l s]|k] eqn:E; [done|].
    intros [= <-]. by apply parse_loop_error in E as ->.
Qed.
Lemma parse_template_error_witness :
  parse_template (print_segments [SegLiteral "a"] +:+ "${" +:+ "x:$y") = Err (Bare UnterminatedPlaceholder).
Proof. apply (parse_template_error [SegLiteral "a"] "x:$y"); reflexivity. Defined.

Lemma parse_template_plain raw :
  str_contains "$" raw = false →
  parse_template raw = Ok (flush_literal raw [], KLiteral).
Proof.
  intros Hno. assert (escape_literal raw = raw) as Hesc.
  { induction raw as [|c raw IH]; [done|]. apply str_contains_cons_false in Hno as [Hc Hno].
    simpl. rewrite bool_decide_false by done. by rewrite IH. }
  destruct raw as [|c raw]; [done|].
  pose proof (parse_template_print [SegLiteral (String c raw)] eq_refl) as Hp.
  cbn [print_segments print_segment] in Hp. by rewrite Hesc, str_app_nil_r in Hp.
Qed.
Lemma ConfigStr_parse_plain raw :
  str_contains "$" raw = false →
  ∃ s, ConfigStr_parse raw = Ok s ∧ as_literal s = Some raw ∧ segments s = flush_literal raw [].
Proof.
  intros Hno. unfold ConfigStr_parse. rewrite parse_template_plain by done.
  eexists. split; [done|]. by destruct raw.
Qed.

(** ** Path lookup *)

Lemma lookup_segments_app v s1 s2 :
  lookup_segments v (s1 ++ s2) = w ← lookup_segments v s1; lookup_segments w s2.
Proof.
  revert v. induction s1 as [|k s1 IH]; intros v; simpl; [done|].
  destruct v; try done. destruct (assoc_find k _); simpl; [apply IH|done].
Qed.
