(* ===== verification/ConfigResolve.v ===== *)
(** * ConfigResolve: placeholder resolution with cycle detection and budgets

    Models [crates/config/src/resolve.rs]: resolver chains, the resolution
    context, depth-first placeholder resolution against the tree and the
    resolvers, and template rendering. The two shared borrows of [ResolveCtx]
    ([root] and [resolvers]) are section variables; its mutable fields are the
    record threaded by the [rst] monad, which survives an early [?] return.

    Resolution recurses through the tree; the depth limit bounds it. The model
    recurses on 65 units of fuel, and [resolve_placeholder_unfold] shows that
    this is exactly the source's unbounded recursion. *)
From S2P Require Import Prelude F64 ConfigValue.

Definition MAX_RESOLUTION_DEPTH : Z := 64.
Definition MAX_DESERIALIZATION_RESOLUTION_STEPS : Z := 4096.
Definition MAX_DESERIALIZATION_RENDERED_BYTES : Z := 1048576.

(** ** Resolvers *)

(** [trait Resolver]: a raw value per key, from one source. *)
Class Resolver (R : Type) := resolve_key : R → string → option string.

(** [std::env] as the map of variables visible to the process. *)
Record EnvResolver := mkEnvResolver { env_vars : gmap string string }.
#[export] Instance EnvResolver_resolve : Resolver EnvResolver := λ r key, env_vars r !! key.

Record MapResolver := mkMapResolver { overlay : gmap string string }.
#[export] Instance MapResolver_resolve : Resolver MapResolver := λ r key, overlay r !! key.

(** [Box<dyn Resolver>] *)
Record DynResolver := mkDyn { dyn_type : Type; dyn_impl : Resolver dyn_type; dyn_value : dyn_type }.
Definition box_resolver {R} `{i : Resolver R} (r : R) : DynResolver := mkDyn R i r.
Definition dyn_resolve (r : DynResolver) (key : string) : option string :=
  @resolve_key _ (dyn_impl r) (dyn_value r) key.

Definition ResolverChain := list DynResolver.
Definition env_default (vars : gmap string string) : ResolverChain := [box_resolver (mkEnvResolver vars)].

(** [ResolverChain::resolve]: the first resolver with a value. *)
Fixpoint chain_resolve (chain : ResolverChain) (key : string) : option string :=
  match chain with
  | [] => None
  | r :: chain' =>
      match dyn_resolve r key with Some v => Some v | None => chain_resolve chain' key end
  end.

(** ** The context *)

Record ResolvedDependency := mkResolved { dep_placeholder : Placeholder; dep_value : string }.
#[export] Instance ResolvedDependency_eq_dec : EqDecision ResolvedDependency.
Proof. solve_decision. Defined.

Record ResolveCtx := mkCtx {
  in_flight : list string;
  resolution_steps : Z;
  rendered_bytes : Z;
  resolved_dependencies : list ResolvedDependency;
}.
Definition ResolveCtx_new : ResolveCtx := mkCtx [] 0 0 [].

Abbreviation RM := (rst ResolveCtx TemplateError).

Definition record_resolved (p : Placeholder) (value : string) : RM unit :=
  modify_ctx (λ c, mkCtx (in_flight c) (resolution_steps c) (rendered_bytes c)
    (resolved_dependencies c ++ [mkResolved p value])).

Definition consume_step : RM unit := λ c,
  let steps := usize_saturating_add (resolution_steps c) 1 in
  let c' := mkCtx (in_flight c) steps (rendered_bytes c) (resolved_dependencies c) in
  if MAX_DESERIALIZATION_RESOLUTION_STEPS <? steps
  then (Err (Bare (ResolutionBudgetExceeded MAX_DESERIALIZATION_RESOLUTION_STEPS)), c')
  else (Ok tt, c').

Definition consume_bytes (bytes : Z) : RM unit := λ c,
  let total := usize_saturating_add (rendered_bytes c) bytes in
  let c' := mkCtx (in_flight c) (resolution_steps c) total (resolved_dependencies c) in
  if MAX_DESERIALIZATION_RENDERED_BYTES <? total
  then (Err (Bare (RenderedOutputTooLarge MAX_DESERIALIZATION_RENDERED_BYTES)), c')
  else (Ok tt, c').

Definition push_in_flight (key : string) (c : ResolveCtx) : ResolveCtx :=
  mkCtx (in_flight c ++ [key]) (resolution_steps c) (rendered_bytes c) (resolved_dependencies c).
Definition pop_in_flight (c : ResolveCtx) : ResolveCtx :=
  mkCtx (removelast (in_flight c)) (resolution_steps c) (rendered_bytes c) (resolved_dependencies c).

(** [is_screaming]: an uppercase ASCII letter and no lowercase one. *)
Definition is_ascii_uppercase (c : ascii) : bool :=
  let n := Z.of_N (N_of_ascii c) in (65 <=? n) && (n <=? 90).
Definition is_ascii_lowercase (c : ascii) : bool :=
  let n := Z.of_N (N_of_ascii c) in (97 <=? n) && (n <=? 122).
Definition is_screaming (key : string) : bool :=
  str_any is_ascii_uppercase key && negb (str_any is_ascii_lowercase key).

Definition is_namespace (key : string) : bool :=
  match key with String "@" _ => true | _ => false end.

(** ** Resolution *)

Section Resolve.
Variable root : ConfigValue.
Variable resolvers : ResolverChain.

(** The recursive knot: how a nested placeholder is resolved. *)
Section Step.
Variable rec : Placeholder → RM string.

(** The loop of [render_str], appending to [out]. *)
Fixpoint render_segments (out : string) (segs : list Segment) : RM string :=
  match segs with
  | [] => mret out
  | SegLiteral text :: segs' =>
      _ ← consume_bytes (str_len text);
      render_segments (out +:+ text) segs'
  | SegPlaceholder p :: segs' =>
      value ← rec p;
      _ ← consume_bytes (str_len value);
      render_segments (out +:+ value) segs'
  end.

Definition render_str_with (s : ConfigStr) : RM string := render_segments "" (segments s).

Definition render_node_as_string (node : ConfigValue) (key : string) : RM string :=
  match node with
  | CStr s => render_str_with s
  | CBool b => mret (bool_to_string b)
  | CInt n => mret (int_to_string n)
  | CFloat f => mret (f64_to_string f)
  | CNull | CArray _ | CTable _ => throw (Bare (NotStringRenderable key))
  end.

Definition resolve_config_path (key : string) : RM (option string) :=
  match lookup_path root key with
  | None => mret None
  | Some node => λ c,
      let '(rendered, c') := render_node_as_string node key (push_in_flight key c) in
      (result_map Some rendered, pop_in_flight c')
  end.

Definition resolve_namespace (key : string) : option string := chain_resolve resolvers key.

Definition resolve_path_then_env (key : string) : RM (option string) :=
  found ← resolve_config_path key;
  match found with
  | Some value => mret (Some value)
  | None => mret (chain_resolve resolvers key)
  end.

Definition resolve_env_then_path (key : string) : RM (option string) :=
  match chain_resolve resolvers key with
  | Some value => mret (Some value)
  | None => resolve_config_path key
  end.

(** The source a key is looked up in, by its shape. *)
Definition resolve_by_shape (key : string) : RM (option string) :=
  if is_namespace key then mret (resolve_namespace key)
  else if str_contains "." key then resolve_path_then_env key
  else if is_screaming key then resolve_env_then_path key
  else resolve_path_then_env key.

(** What [resolve_placeholder] does once the source has answered. *)
Definition finish_placeholder (p : Placeholder) (resolved : option string) : RM string :=
  match resolved, default p with
  | Some value, _ => _ ← record_resolved p value; mret value
  | None, Some value => _ ← record_resolved p value; mret value
  | None, None =>
      throw (Bare (if is_namespace (key p) then UnknownNamespaceKey (key p)
                   else MissingPlaceholder (key p)))
  end.

Definition resolve_placeholder_step (p : Placeholder) : RM string :=
  _ ← consume_step;
  c ← get_ctx;
  if MAX_RESOLUTION_DEPTH <=? Z.of_nat (length (in_flight c)) then
    throw (Bare (ResolutionDepthExceeded MAX_RESOLUTION_DEPTH))
  else if bool_decide (key p ∈ in_flight c) then
    throw (Bare (ResolutionCycle (in_flight c) (key p)))
  else
    resolved ← resolve_by_shape (key p);
    finish_placeholder p resolved.
End Step.

Fixpoint resolve_fuel (fuel : nat) : Placeholder → RM string :=
  match fuel with
  | O => λ _, throw (Bare (ResolutionDepthExceeded MAX_RESOLUTION_DEPTH))
  | S fuel' => resolve_placeholder_step (resolve_fuel fuel')
  end.

(** [ResolveCtx::resolve_placeholder] *)
Definition resolve_placeholder : Placeholder → RM string :=
  resolve_fuel (S (Z.to_nat MAX_RESOLUTION_DEPTH)).

(** [render_str] *)
Definition render_str : ConfigStr → RM string := render_str_with resolve_placeholder.

End Resolve.

(** ** Reasoning about runs

    [R c ok c'] relates the context before and after a run that succeeds
    ([ok = true]) or fails. A relation closed under the primitive steps holds of
    every run of the resolver. *)
Definition run_at (R : ResolveCtx → bool → ResolveCtx → Prop) {A} (m : RM A) (c : ResolveCtx) : Prop :=
  R c (is_ok (m c).1) (m c).2.

Definition with_resolved (p : Placeholder) (v : string) (c : ResolveCtx) : ResolveCtx :=
  (record_resolved p v c).2.

Class ClosedRel (R : ResolveCtx → bool → ResolveCtx → Prop) : Prop := {
  closed_ret c : R c true c;
  closed_throw c : R c false c;
  closed_seq c1 c2 c3 ok : R c1 true c2 → R c2 ok c3 → R c1 ok c3;
  closed_bytes n c : 0 ≤ n → run_at R (consume_bytes n) c;
  closed_step c : run_at R consume_step c;
  closed_resolved c c1 c2 p v :
    consume_step c = (Ok tt, c1) → R c1 true c2 → R c true (with_resolved p v c2);
  closed_frame c k ok c' :
    Z.of_nat (length (in_flight c)) < MAX_RESOLUTION_DEPTH → k ∉ in_flight c →
    R (push_in_flight k c) ok c' → R c ok (pop_in_flight c');
}.

Section ClosedRuns.
Context (R : ResolveCtx → bool → ResolveCtx → Prop) `{!ClosedRel R}.
Variable root : ConfigValue.
Variable resolvers : ResolverChain.

Lemma run_at_ret {A} (a : A) c : run_at R (mret a) c.
Proof. apply closed_ret. Qed.
Lemma run_at_throw {A} e c : run_at R (throw (A := A) e) c.
Proof. apply closed_throw. Qed.
Lemma run_at_bind {A B} (m : RM A) (f : A → RM B) c :
  run_at R m c → (∀ a c', run_at R (f a) c') → run_at R (m ≫= f) c.
Proof.
  unfold run_at. intros Hm Hf. unfold mbind, rst_bind.
  destruct (m c) as [[a|e] c']; simpl in *; [|done]. by eapply closed_seq.
Qed.

Section Step.
Variable rec : Placeholder → RM string.
Hypothesis Hrec : ∀ p c, run_at R (rec p) c.

Lemma render_segments_closed out segs c : run_at R (render_segments rec out segs) c.
Proof.
  revert out c. induction segs as [|[t|p] segs IH]; intros out c; simpl.
  - apply run_at_ret.
  - apply run_at_bind; [apply closed_bytes, str_len_nonneg|intros; apply IH].
  - apply run_at_bind; [done|]. intros v c'.
    apply run_at_bind; [apply closed_bytes, str_len_nonneg|intros; apply IH].
Qed.
Lemma render_node_closed node k c : run_at R (render_node_as_string rec node k) c.
Proof.
  destruct node; simpl; first [apply run_at_ret | apply run_at_throw | apply render_segments_closed].
Qed.
Lemma resolve_config_path_closed k c :
  Z.of_nat (length (in_flight c)) < MAX_RESOLUTION_DEPTH → k ∉ in_flight c →
  run_at R (resolve_config_path root rec k) c.
Proof.
  intros Hd Hk. unfold resolve_config_path. destruct (lookup_path root k) as [node|]; [|apply run_at_ret].
  unfold run_at. pose proof (render_node_closed node k (push_in_flight k c)) as Hn. unfold run_at in Hn.
  destruct (render_node_as_string rec node k (push_in_flight k c)) as [r c']. simpl in *.
  eapply closed_frame; [done..|]. by destruct r.
Qed.
Lemma resolve_by_shape_closed k c :
  Z.of_nat (length (in_flight c)) < MAX_RESOLUTION_DEPTH → k ∉ in_flight c →
  run_at R (resolve_by_shape root resolvers rec k) c.
Proof.
  intros Hd Hk. unfold resolve_by_shape, resolve_path_then_env, resolve_env_then_path.
  repeat case_match; try apply run_at_ret; try (by apply resolve_config_path_closed);
    (apply run_at_bind; [by apply resolve_config_path_closed|]);
    intros [v|] c'; apply run_at_ret.
Qed.
Lemma resolve_placeholder_step_closed p c : run_at R (resolve_placeholder_step root resolvers rec p) c.
Proof.
  pose proof (closed_step c) as Hs. unfold run_at in *. unfold resolve_placeholder_step.
  unfold mbind, rst_bind. destruct (consume_step c) as [[[]|e] c1] eqn:Hc; simpl in Hs; [|done].
  simpl. case_match eqn:Hdepth; [eapply closed_seq; [done|apply closed_throw]|].
  apply Z.leb_gt in Hdepth. case_bool_decide; [eapply closed_seq; [done|apply closed_throw]|].
  pose proof (resolve_by_shape_closed (key p) c1 Hdepth ltac:(done)) as Hb. unfold run_at in Hb.
  destruct (resolve_by_shape root resolvers rec (key p) c1) as [[found|e] c2]; simpl in *;
    [|by eapply closed_seq].
  unfold finish_placeholder. destruct found as [v|], (default p) as [d|]; simpl;
    try (by eapply (closed_resolved c c1 c2 p)).
  eapply closed_seq; [done|]. eapply closed_seq; [done|]. apply closed_throw.
Qed.
End Step.

Lemma resolve_fuel_closed n p c : run_at R (resolve_fuel root resolvers n p) c.
Proof.
  revert p c. induction n as [|n IH]; intros p c; [apply closed_throw|].
  by apply resolve_placeholder_step_closed.
Qed.
Lemma resolve_placeholder_closed p c : run_at R (resolve_placeholder root resolvers p) c.
Proof. apply resolve_fuel_closed. Qed.
Lemma render_str_closed s c : run_at R (render_str root resolvers s) c.
Proof. apply render_segments_closed. intros. apply resolve_placeholder_closed. Qed.
End ClosedRuns.

(** ** The relations *)

(** Balanced: the in-flight stack is restored on every exit. *)
Definition balanced (c : ResolveCtx) (_ : bool) (c' : ResolveCtx) : Prop := in_flight c' = in_flight c.
#[export] Instance balanced_closed : ClosedRel balanced.
Proof.
  split; unfold balanced; try done.
  - by intros ???? -> ->.
  - intros. unfold run_at, consume_bytes. by case_match.
  - intros. unfold run_at, consume_step. by case_match.
  - intros c c1 c2 p v Hc Hf. simpl. rewrite Hf. unfold consume_step in Hc. by case_match; simplify_eq.
  - intros c k _ c' _ _ Hf. simpl. rewrite Hf. simpl. apply removelast_last.
Qed.

(** Metered: counters only grow, a failed run overshoots a limit by at most one
    charge, a successful run stays within both limits, and every recorded
    dependency was paid for by one resolution step. *)
Record metered (c : ResolveCtx) (ok : bool) (c' : ResolveCtx) : Prop := {
  metered_steps : resolution_steps c ≤ usize_max → resolution_steps c ≤ resolution_steps c' ≤ usize_max;
  metered_bytes : rendered_bytes c ≤ usize_max → rendered_bytes c ≤ rendered_bytes c' ≤ usize_max;
  metered_steps_ok : resolution_steps c ≤ MAX_DESERIALIZATION_RESOLUTION_STEPS →
    resolution_steps c' ≤ MAX_DESERIALIZATION_RESOLUTION_STEPS + (if ok then 0 else 1);
  metered_bytes_ok : rendered_bytes c ≤ MAX_DESERIALIZATION_RENDERED_BYTES → ok = true →
    rendered_bytes c' ≤ MAX_DESERIALIZATION_RENDERED_BYTES;
  metered_deps : 0 ≤ resolution_steps c ≤ MAX_DESERIALIZATION_RESOLUTION_STEPS →
    ∃ more, resolved_dependencies c' = resolved_dependencies c ++ more ∧
      Z.of_nat (length more) ≤ resolution_steps c' - resolution_steps c;
}.
#[export] Instance metered_closed : ClosedRel metered.
Proof.
  split.
  - intros c. split; try (intros; lia). intros. exists []. by rewrite app_nil_r; simpl; split; [|lia].
  - intros c. split; try (intros; done || lia). intros. exists []. by rewrite app_nil_r; simpl; split; [|lia].
  - intros c1 c2 c3 ok [S1 B1 SO1 BO1 D1] [S2 B2 SO2 BO2 D2]. split; [lia|lia| |auto|].
    + intros. apply SO2. specialize (SO1 ltac:(done)). lia.
    + intros Hc. unfold usize_max, MAX_DESERIALIZATION_RESOLUTION_STEPS in *. specialize (SO1 ltac:(lia)).
      destruct (D1 Hc) as (m1 & E1 & L1). destruct D2 as (m2 & E2 & L2); [lia|].
      exists (m1 ++ m2). rewrite E2, E1, app_assoc, length_app. split; [done|lia].
  - intros n c Hn. unfold run_at, consume_bytes.
    unfold usize_saturating_add, usize_max, MAX_DESERIALIZATION_RENDERED_BYTES in *.
    case_match eqn:E; (split; unfold usize_max, MAX_DESERIALIZATION_RENDERED_BYTES; simpl; try lia;
      intros; exists []; rewrite app_nil_r; simpl; split; [done|lia]).
  - intros c. unfold run_at, consume_step.
    unfold usize_saturating_add, usize_max, MAX_DESERIALIZATION_RESOLUTION_STEPS in *.
    case_match eqn:E; (split; unfold usize_max, MAX_DESERIALIZATION_RESOLUTION_STEPS; simpl; try lia;
      intros; exists []; rewrite app_nil_r; simpl; split; [done|lia]).
  - intros c c1 c2 p v Hc [S B SO BO D]. unfold consume_step in Hc. case_match eqn:E; simplify_eq.
    unfold usize_saturating_add, usize_max, MAX_DESERIALIZATION_RESOLUTION_STEPS,
      MAX_DESERIALIZATION_RENDERED_BYTES in *; simpl in *.
    split; unfold usize_max, MAX_DESERIALIZATION_RESOLUTION_STEPS, MAX_DESERIALIZATION_RENDERED_BYTES;
      simpl; try lia.
    intros Hc. destruct D as (m & Em & Lm); [lia|]. exists (m ++ [mkResolved p v]).
    rewrite Em, app_assoc, length_app. simpl. split; [done|lia].
  - intros c k ok c' _ _ [S B SO BO D]. by split.
Qed.

Lemma run_balanced root rs p c : in_flight (resolve_placeholder root rs p c).2 = in_flight c.
Proof. apply (resolve_placeholder_closed balanced). Qed.

(** ** Fuel adequacy *)

Definition preserves_in_flight (f : Placeholder → RM string) : Prop :=
  ∀ p c, in_flight (f p c).2 = in_flight c.
(** [f] and [g] agree on contexts whose depth is one of [D]. *)
Definition depth (c : ResolveCtx) : Z := Z.of_nat (length (in_flight c)).
Definition agree (D : Z → Prop) (f g : Placeholder → RM string) : Prop := ∀ p c, D (depth c) → f p c = g p c.

Section Fuel.
Variable root : ConfigValue.
Variable resolvers : ResolverChain.
Implicit Types f g : Placeholder → RM string.

Lemma consume_bytes_in_flight n c r c' : consume_bytes n c = (r, c') → in_flight c' = in_flight c.
Proof. unfold consume_bytes. case_match; intros; by simplify_eq. Qed.
Lemma consume_step_in_flight c r c' : consume_step c = (r, c') → in_flight c' = in_flight c.
Proof. unfold consume_step. case_match; intros; by simplify_eq. Qed.

Lemma consume_bytes_depth n c r c' : consume_bytes n c = (r, c') → depth c' = depth c.
Proof. unfold depth. by intros ->%consume_bytes_in_flight. Qed.
Lemma consume_step_depth c r c' : consume_step c = (r, c') → depth c' = depth c.
Proof. unfold depth. by intros ->%consume_step_in_flight. Qed.
Lemma render_segments_agree (D : Z → Prop) f g out segs c :
  preserves_in_flight f → agree D f g → D (depth c) → render_segments f out segs c = render_segments g out segs c.
Proof.
  intros Hf Ha. revert out c. induction segs as [|[t|p] segs IH]; intros out c Hd; simpl; [done| |];
    unfold mbind, rst_bind.
  - destruct (consume_bytes _ c) as [[[]|e] c1] eqn:E; [|done].
    apply IH. by rewrite (consume_bytes_depth _ _ _ _ E).
  - rewrite <- (Ha p c Hd). pose proof (Hf p c) as Hp. destruct (f p c) as [[v|e] c1]; simpl in *; [|done].
    destruct (consume_bytes _ c1) as [[[]|e] c2] eqn:E; [|done].
    apply IH. rewrite (consume_bytes_depth _ _ _ _ E). unfold depth. by rewrite Hp.
Qed.

(** A placeholder recurses only one level deeper than it is. *)
Lemma resolve_config_path_agree (D : Z → Prop) f g k c :
  preserves_in_flight f → agree D f g → D (depth c + 1) → resolve_config_path root f k c = resolve_config_path root g k c.
Proof.
  intros Hf Ha Hd. unfold resolve_config_path. destruct (lookup_path root k) as [[]|]; try done.
  simpl. unfold render_str_with. rewrite (render_segments_agree D f g); [done..|]. unfold depth in *. simpl. rewrite length_app. simpl.
  by rewrite Nat2Z.inj_add.
Qed.

Lemma resolve_by_shape_agree (D : Z → Prop) f g k c :
  preserves_in_flight f → agree D f g → D (depth c + 1) →
  resolve_by_shape root resolvers f k c = resolve_by_shape root resolvers g k c.
Proof.
  intros Hf Ha Hd. unfold resolve_by_shape, resolve_path_then_env, resolve_env_then_path, mbind, rst_bind.
  repeat case_match; rewrite ?(resolve_config_path_agree D f g) in * by done; congruence.
Qed.

(** At the depth limit the recursion is not entered. *)
Lemma step_agree (D : Z → Prop) f g p c :
  preserves_in_flight f → agree D f g → (depth c < MAX_RESOLUTION_DEPTH → D (depth c + 1)) →
  resolve_placeholder_step root resolvers f p c = resolve_placeholder_step root resolvers g p c.
Proof.
  intros Hf Ha Hd. unfold resolve_placeholder_step, mbind, rst_bind.
  destruct (consume_step c) as [[[]|e] c1] eqn:E; [|done]. pose proof (consume_step_depth _ _ _ E) as Hc1.
  simpl. destruct (MAX_RESOLUTION_DEPTH <=? _) eqn:Hlim; [done|]. case_bool_decide; [done|]. apply Z.leb_gt in Hlim.
  fold (depth c1) in Hlim. rewrite (resolve_by_shape_agree D f g); [done..|]. rewrite Hc1. apply Hd. lia.
Qed.

Lemma resolve_fuel_agree n :
  agree (λ d, MAX_RESOLUTION_DEPTH - Z.of_nat n ≤ d) (resolve_fuel root resolvers (S n)) (resolve_fuel root resolvers (S (S n))).
Proof.
  induction n as [|n IH]; intros p c Hc.
  - apply (step_agree (λ _, False)); [exact (λ q c', resolve_fuel_closed balanced root resolvers 0 q c')|by intros ?? []|cbn in Hc; lia].
  - apply (step_agree (λ d, MAX_RESOLUTION_DEPTH - Z.of_nat n ≤ d)); [exact (λ q c', resolve_fuel_closed balanced root resolvers (S n) q c')|exact IH|cbn in Hc |- *; lia].
Qed.
(** Past the limit a placeholder is refused before its key is looked at. *)
Lemma step_too_deep f p c :
  MAX_RESOLUTION_DEPTH ≤ depth c →
  resolve_placeholder_step root resolvers f p c = (_ ← consume_step; throw (Bare (ResolutionDepthExceeded MAX_RESOLUTION_DEPTH))) c.
Proof.
  intros Hd. unfold resolve_placeholder_step, mbind, rst_bind. destruct (consume_step c) as [[[]|e] c1] eqn:E; [|done].
  pose proof (consume_step_depth _ _ _ E) as Hc1. simpl. fold (depth c1). by rewrite (proj2 (Z.leb_le _ _)) by lia.
Qed.
End Fuel.

(** ** Properties *)

(** resolution terminates as the source's recursion does: the fuelled model
    satisfies the recursive equation of [resolve_placeholder] at every context,
    so the depth limit alone makes the recursion well-founded. *)
Theorem resolve_placeholder_unfold (root : ConfigValue) (rs : ResolverChain) (p : Placeholder)
    (c : ResolveCtx) :
  resolve_placeholder root rs p c
  = resolve_placeholder_step root rs (resolve_placeholder root rs) p c.
Proof.
  apply (resolve_fuel_agree root rs (Z.to_nat MAX_RESOLUTION_DEPTH)). unfold depth. rewrite Z2Nat.id by done. lia.
Qed.

(** the in-flight stack is a call stack: whatever happens while resolving a
    placeholder or rendering a leaf, errors included, it is restored, so one
    context can be reused for the next field after a failure. *)
Theorem resolution_restores_in_flight (root : ConfigValue) (rs : ResolverChain) (p : Placeholder)
    (s : ConfigStr) (c : ResolveCtx) :
  in_flight (resolve_placeholder root rs p c).2 = in_flight c ∧
  in_flight (render_str root rs s c).2 = in_flight c.
Proof.
  split; [apply (resolve_placeholder_closed balanced) | apply (render_str_closed balanced)].
Qed.

(** A context no budget of which is exhausted. *)
Definition within_budget (c : ResolveCtx) : Prop :=
  0 ≤ resolution_steps c ≤ MAX_DESERIALIZATION_RESOLUTION_STEPS ∧
  0 ≤ rendered_bytes c ≤ MAX_DESERIALIZATION_RENDERED_BYTES.

(** C11: the budgets bound all the work of a deserialization. One more render leaves the
    step counter at most one past its limit, a successful one leaves both counters
    within their limits, and the placeholders it resolved are at most the steps it
    consumed. A placeholder that is reached with 64 keys in flight is refused for its
    depth before its key is looked at, and however nested placeholders are resolved, it
    is asked only of contexts of at most 64 keys. *)
Theorem resolution_budget (root : ConfigValue) (rs : ResolverChain) :
  (∀ s c, within_budget c →
     let '(r, c') := render_str root rs s c in
     resolution_steps c ≤ resolution_steps c' ≤ MAX_DESERIALIZATION_RESOLUTION_STEPS + 1 ∧
     (is_ok r = true → within_budget c') ∧
     ∃ more, resolved_dependencies c' = resolved_dependencies c ++ more ∧
       Z.of_nat (length more) ≤ resolution_steps c' - resolution_steps c) ∧
  (∀ p c, 0 ≤ resolution_steps c < MAX_DESERIALIZATION_RESOLUTION_STEPS → MAX_RESOLUTION_DEPTH ≤ depth c →
     (resolve_placeholder root rs p c).1 = Err (Bare (ResolutionDepthExceeded MAX_RESOLUTION_DEPTH))) ∧
  (∀ f g, preserves_in_flight f → agree (λ d, d ≤ MAX_RESOLUTION_DEPTH) f g →
     ∀ p c, resolve_placeholder_step root rs f p c = resolve_placeholder_step root rs g p c).
Proof.
  split; [|split].
  - intros s c [Hs Hb]. pose proof (render_str_closed metered root rs s c) as Hm. unfold run_at in Hm.
    destruct (render_str root rs s c) as [r c']. destruct Hm as [S B SO BO D]; simpl in *.
    unfold within_budget, usize_max, MAX_DESERIALIZATION_RESOLUTION_STEPS,
      MAX_DESERIALIZATION_RENDERED_BYTES in *.
    specialize (SO ltac:(lia)). split; [destruct (is_ok r); lia|]. split; [|by apply D].
    intros Hok. rewrite Hok in SO. specialize (BO ltac:(lia) Hok). lia.
  - intros p c Hs Hd. rewrite resolve_placeholder_unfold, step_too_deep by done. unfold mbind, rst_bind, consume_step.
    unfold usize_saturating_add, usize_max, MAX_DESERIALIZATION_RESOLUTION_STEPS in *. destruct (Z.ltb_spec 4096 (Z.min (resolution_steps c + 1) (2 ^ 64 - 1))); [lia|done].
  - intros f g Hf Ha p c. apply (step_agree root rs (λ d, d ≤ MAX_RESOLUTION_DEPTH)); [done..|lia].
Qed.
(** A key that names another, and a context of 64 keys. *)
Definition named_key : Placeholder := mkPlaceholder "a" None.
Definition naming_root : ConfigValue := CTable [("a", CStr (mkConfigStr [SegLiteral "ab"] KLiteral))].
Definition naming : ConfigStr := mkConfigStr [SegPlaceholder named_key] KTemplated.
Definition deep_ctx : ResolveCtx := mkCtx (replicate 64 "k") 64 0 [].
Lemma resolution_budget_witness :
  (let '(r, c') := render_str naming_root [] naming ResolveCtx_new in
   r = Ok "ab" ∧ resolution_steps c' = 1 ∧ within_budget c' ∧ length (resolved_dependencies c') = 1%nat) ∧
  (resolve_placeholder naming_root [] named_key deep_ctx).1 = Err (Bare (ResolutionDepthExceeded 64)).
Proof.
  destruct (resolution_budget naming_root []) as (Hb & Hd & _). split.
  - specialize (Hb naming ResolveCtx_new). assert (Hw : within_budget ResolveCtx_new) by (unfold within_budget; vm_compute; repeat split; discriminate).
    specialize (Hb Hw). destruct (render_str naming_root [] naming ResolveCtx_new) as [r c'] eqn:Hr. destruct Hb as (_ & Hok & _).
    vm_compute in Hr. injection Hr as <- <-. split; [reflexivity|]. split; [reflexivity|]. split; [exact (Hok eq_refl)|reflexivity].
  - apply (Hd named_key deep_ctx); vm_compute; [split; [discriminate|reflexivity]|discriminate].
Defined.

Lemma consume_bytes_ok n c c' :
  consume_bytes n c = (Ok tt, c') → rendered_bytes c' = rendered_bytes c + n ∧
  rendered_bytes c' ≤ MAX_DESERIALIZATION_RENDERED_BYTES.
Proof.
  unfold consume_bytes, usize_saturating_add, usize_max, MAX_DESERIALIZATION_RENDERED_BYTES.
  case_match eqn:E; intros; simplify_eq. simpl. lia.
Qed.

Lemma render_segments_size rec out segs c v c' :
  (∀ p c, rendered_bytes c ≤ MAX_DESERIALIZATION_RENDERED_BYTES →
     rendered_bytes c ≤ rendered_bytes (rec p c).2 ∧
     (is_ok (rec p c).1 = true → rendered_bytes (rec p c).2 ≤ MAX_DESERIALIZATION_RENDERED_BYTES)) →
  rendered_bytes c ≤ MAX_DESERIALIZATION_RENDERED_BYTES →
  render_segments rec out segs c = (Ok v, c') →
  str_len v - str_len out ≤ rendered_bytes c' - rendered_bytes c ∧
  rendered_bytes c' ≤ MAX_DESERIALIZATION_RENDERED_BYTES.
Proof.
  intros Hrec. revert out c. induction segs as [|[t|p] segs IH]; intros out c Hc; simpl;
    unfold mbind, mret, rst_bind, rst_ret.
  - intros; simplify_eq. lia.
  - destruct (consume_bytes _ c) as [[[]|e] c1] eqn:E; [|done]. intros Hr.
    apply consume_bytes_ok in E as [E1 E2]. apply IH in Hr; [|lia]. rewrite str_len_app in Hr. lia.
  - pose proof (Hrec p c Hc) as Hp. destruct (rec p c) as [[w|e] c1]; simpl in *; [|done].
    destruct (consume_bytes _ c1) as [[[]|e] c2] eqn:E; [|done]. intros Hr.
    apply consume_bytes_ok in E as [E1 E2]. apply IH in Hr; [|lia]. rewrite str_len_app in Hr.
    pose proof (proj2 Hp eq_refl). lia.
Qed.

(** a rendered leaf is no longer than the bytes it was charged for, so a
    single value, however its references fan out, never exceeds one mebibyte. *)
Theorem rendered_output_bounded (root : ConfigValue) (rs : ResolverChain) (s : ConfigStr)
    (c c' : ResolveCtx) (v : string) :
  within_budget c → render_str root rs s c = (Ok v, c') →
  str_len v ≤ rendered_bytes c' - rendered_bytes c ∧ str_len v ≤ MAX_DESERIALIZATION_RENDERED_BYTES.
Proof.
  intros [_ Hb] Hr. apply render_segments_size in Hr as [H1 H2].
  - change (str_len "") with 0 in H1. lia.
  - intros p c0 Hc0. pose proof (resolve_placeholder_closed metered root rs p c0) as Hm.
    unfold run_at in Hm. destruct Hm as [_ B _ BO _].
    split; [|by apply BO]. apply B. unfold MAX_DESERIALIZATION_RENDERED_BYTES, usize_max in *. lia.
  - lia.
Qed.
Lemma rendered_output_bounded_witness :
  let s := mkConfigStr [SegLiteral "a"; SegPlaceholder (mkPlaceholder "k" (Some "xyz"))] KTemplated in
  str_len "axyz" ≤ rendered_bytes (render_str CNull [] s ResolveCtx_new).2 - 0 ∧
  str_len "axyz" ≤ MAX_DESERIALIZATION_RENDERED_BYTES.
Proof.
  apply (rendered_output_bounded CNull []
    (mkConfigStr [SegLiteral "a"; SegPlaceholder (mkPlaceholder "k" (Some "xyz"))] KTemplated) ResolveCtx_new).
  - unfold within_budget. vm_compute. repeat split; discriminate.
  - vm_compute. reflexivity.
Defined.

(** The context after the step charge. *)
Definition stepped (c : ResolveCtx) : ResolveCtx := (consume_step c).2.
(** A placeholder that passes the budget, depth and cycle checks. *)
Definition admissible (p : Placeholder) (c : ResolveCtx) : Prop :=
  resolution_steps c < MAX_DESERIALIZATION_RESOLUTION_STEPS ∧
  Z.of_nat (length (in_flight c)) < MAX_RESOLUTION_DEPTH ∧ key p ∉ in_flight c.
(** Which source answers first: keys of the tree, except a namespace key (never)
    and an environment-shaped key the resolver chain knows. *)
Definition tree_first (rs : ResolverChain) (k : string) : bool :=
  negb (is_namespace k) &&
  (str_contains "." k || negb (is_screaming k) || bool_decide (chain_resolve rs k = None)).

Lemma resolve_admissible root rs p c :
  admissible p c →
  resolve_placeholder root rs p c
  = (found ← resolve_by_shape root rs (resolve_placeholder root rs) (key p);
     finish_placeholder p found) (stepped c).
Proof.
  intros (Hs & Hd & Hk). rewrite resolve_placeholder_unfold. unfold resolve_placeholder_step, stepped.
  unfold mbind, rst_bind. destruct (consume_step c) as [[[]|e] c1] eqn:E.
  - apply consume_step_in_flight in E. simpl. rewrite E, (proj2 (Z.leb_gt _ _)) by done.
    by rewrite bool_decide_false.
  - unfold consume_step, usize_saturating_add, usize_max, MAX_DESERIALIZATION_RESOLUTION_STEPS in *.
    case_match eqn:Hlt; simplify_eq. lia.
Qed.

(** the precedence of the sources. A tree node that [tree_first] admits is
    rendered under the key's in-flight mark; otherwise the resolver chain is the
    only source asked. The inline default and the missing-value error come last
    in both cases ([finish_placeholder]). *)
Theorem resolve_precedence (root : ConfigValue) (rs : ResolverChain) (p : Placeholder) (c : ResolveCtx) :
  admissible p c →
  resolve_placeholder root rs p c =
  match (if tree_first rs (key p) then lookup_path root (key p) else None) with
  | Some node =>
      let '(rendered, c') :=
        render_node_as_string (resolve_placeholder root rs) node (key p) (push_in_flight (key p) (stepped c)) in
      match rendered with
      | Ok value => finish_placeholder p (Some value) (pop_in_flight c')
      | Err e => (Err e, pop_in_flight c')
      end
  | None => finish_placeholder p (chain_resolve rs (key p)) (stepped c)
  end.
Proof.
  intros Ha. rewrite resolve_admissible by done. unfold tree_first, resolve_by_shape.
  unfold resolve_path_then_env, resolve_env_then_path, resolve_config_path, resolve_namespace,
    mbind, mret, rst_bind, rst_ret.
  destruct (is_namespace (key p)); simpl; [done|].
  destruct (str_contains "." (key p)); simpl.
  { destruct (lookup_path root (key p)); [|done]. by destruct (render_node_as_string _ _ _ _) as [[] ?]. }
  destruct (is_screaming (key p)); simpl.
  - destruct (chain_resolve rs (key p)); simpl; [done|].
    destruct (lookup_path root (key p)); [|done]. by destruct (render_node_as_string _ _ _ _) as [[] ?].
  - destruct (lookup_path root (key p)); [|done]. by destruct (render_node_as_string _ _ _ _) as [[] ?].
Qed.
Lemma resolve_precedence_witness :
  (resolve_placeholder (CTable [("port", CInt 80)]) (env_default {["port" := "1"]})
     (mkPlaceholder "port" None) ResolveCtx_new).1 = Ok "80".
Proof.
  rewrite resolve_precedence; [vm_compute; reflexivity|].
  unfold admissible. repeat split; try (vm_compute; reflexivity). apply not_elem_of_nil.
Defined.

(** ** Cycles *)

Section Cycles.
Variable root : ConfigValue.
Variable rs : ResolverChain.

(** The placeholder a tree node starts with, when the key is read from the tree. *)
Definition first_ref (k : string) : option string :=
  if tree_first rs k then
    match lookup_path root k with
    | Some (CStr s) => match segments s with SegPlaceholder q :: _ => Some (key q) | _ => None end
    | _ => None
    end
  else None.

(** Following first references from [k], with [flight] in progress, comes back
    to a key [last] of the chain built so far. *)
Inductive closes_cycle : list string → string → list string → string → Prop :=
| cycle_closed flight k : k ∈ flight → closes_cycle flight k flight k
| cycle_step flight k k' chain last :
    k ∉ flight → first_ref k = Some k' →
    closes_cycle (flight ++ [k]) k' chain last → closes_cycle flight k chain last.

Lemma closes_cycle_length flight k chain last :
  closes_cycle flight k chain last → (length flight ≤ length chain)%nat.
Proof. induction 1; [done|]. rewrite length_app in *. simpl in *. lia. Qed.

Lemma stepped_fields c :
  resolution_steps c < MAX_DESERIALIZATION_RESOLUTION_STEPS →
  in_flight (stepped c) = in_flight c ∧ resolution_steps (stepped c) = resolution_steps c + 1
  ∧ consume_step c = (Ok tt, stepped c).
Proof.
  unfold stepped, consume_step, usize_saturating_add, usize_max, MAX_DESERIALIZATION_RESOLUTION_STEPS.
  intros. case_match; simpl; [lia|]. split_and!; [done|lia|done].
Qed.

(** references that come back to a key being resolved are reported as a
    cycle naming the whole chain, at whatever depth it closes, even when the
    placeholders on it carry defaults. *)
Theorem resolution_cycle_detected (p : Placeholder) (c : ResolveCtx) (chain : list string) (last : string) :
  closes_cycle (in_flight c) (key p) chain last →
  Z.of_nat (length chain) < MAX_RESOLUTION_DEPTH →
  0 ≤ resolution_steps c →
  resolution_steps c + Z.of_nat (length chain - length (in_flight c)) < MAX_DESERIALIZATION_RESOLUTION_STEPS →
  (resolve_placeholder root rs p c).1 = Err (Bare (ResolutionCycle chain last)).
Proof.
  remember (in_flight c) as flight eqn:Hfl. remember (key p) as k eqn:Hk.
  intros Hc. revert p c Hfl Hk. induction Hc as [flight k Hin|flight k k' chain last Hnot Href Hc IH];
    intros p c -> -> Hdepth Hpos Hsteps; destruct (stepped_fields c) as (Ef & Es & Ec); try lia.
  - rewrite resolve_placeholder_unfold. unfold resolve_placeholder_step, mbind, rst_bind.
    rewrite Ec. simpl. rewrite Ef, (proj2 (Z.leb_gt _ _)) by done. by rewrite bool_decide_true.
  - pose proof (closes_cycle_length _ _ _ _ Hc) as Hlen. rewrite length_app in Hlen. simpl in Hlen.
    rewrite resolve_precedence by (split_and!; [lia|lia|done]).
    unfold first_ref in Href. destruct (tree_first rs (key p)); [|done].
    destruct (lookup_path root (key p)) as [[]|]; try done. simpl. unfold render_str_with.
    destruct (segments s) as [|[t|q] segs]; simplify_eq. simpl. unfold mbind, rst_bind.
    specialize (IH q (push_in_flight (key p) (stepped c))). simpl in IH. rewrite Ef, Es in IH.
    specialize (IH eq_refl eq_refl). rewrite length_app in IH. simpl in IH.
    destruct (resolve_placeholder root rs q _) as [[v|e] c2]; simpl in IH |- *.
    + discriminate IH; lia.
    + apply IH; lia.
Qed.
End Cycles.

Definition cyclic_tree : ConfigValue :=
  CTable [("a", CTable [("x", CStr (mkConfigStr [SegPlaceholder (mkPlaceholder "b.y" (Some "1"))] KFullPlaceholder))]);
          ("b", CTable [("y", CStr (mkConfigStr [SegPlaceholder (mkPlaceholder "a.x" None); SegLiteral "!"] KTemplated))])].
Lemma resolution_cycle_detected_witness :
  (resolve_placeholder cyclic_tree [] (mkPlaceholder "a.x" None) ResolveCtx_new).1
  = Err (Bare (ResolutionCycle ["a.x"; "b.y"] "a.x")).
Proof.
  apply (resolution_cycle_detected cyclic_tree []).
  - apply cycle_step with "b.y"; [apply not_elem_of_nil|reflexivity|].
    apply cycle_step with "a.x"; [set_solver|reflexivity|].
    apply cycle_closed. set_solver.
  - reflexivity.
  - discriminate.
  - reflexivity.
Defined.
