(* ===== verification/ConfigDefaults.v ===== *)
(** * ConfigDefaults: merging declared defaults under file values

    Models [crates/config/src/defaults.rs]. Filling mutates the subtree in place
    and may stop half-way on a malformed template, so every operation returns the
    subtree on both outcomes ([rst]). *)
From S2P Require Import Prelude F64 ConfigValue.

Abbreviation FieldDefault := (string * string)%type.
Abbreviation VariantDefault := (string * list (string * string))%type.
Abbreviation entries_t := (list (string * ConfigValue)).

Inductive EnumTag : Type :=
| External
| Internal (tag : string)
| Adjacent (tag content : string)
| Untagged.

Inductive DefaultSpec : Type :=
| DefaultNone
| DefaultFields (fields : list FieldDefault)
| DefaultVariants (tagging : EnumTag) (dflt : option (string * bool)) (fields : list VariantDefault).

Definition is_none (d : DefaultSpec) : bool := match d with DefaultNone => true | _ => false end.

(** A mutation of the subtree (resp. of its entries) that may fail. *)
Abbreviation FM := (rst ConfigValue TemplateError).
Abbreviation EM := (rst entries_t TemplateError).

Definition default_value (raw : string) (coerce : bool) : result ConfigValue TemplateError :=
  match ConfigStr_parse raw with
  | Err e => Err e
  | Ok parsed =>
      match (if coerce then as_literal parsed else None) with
      | Some literal =>
          match parse_i128 literal with
          | Some int => Ok (CInt int)
          | None =>
              match parse_bool literal with
              | Some boolean => Ok (CBool boolean)
              | None =>
                  match f64_parse literal with
                  | Some float => Ok (CFloat float)
                  | None => Ok (CStr parsed)
                  end
              end
          end
      | None => Ok (CStr parsed)
      end
  end.

Definition push_entry (k : string) (v : ConfigValue) : EM unit := modify_ctx (λ es, es ++ [(k, v)]).

Fixpoint fill_entries (fields : list FieldDefault) (coerce : bool) : EM unit :=
  match fields with
  | [] => mret tt
  | (field, raw) :: fields' =>
      entries ← get_ctx;
      match assoc_find field entries with
      | Some _ => fill_entries fields' coerce
      | None =>
          value ← lift_result (default_value raw coerce);
          _ ← push_entry field value;
          fill_entries fields' coerce
      end
  end.

(** [let ConfigValue::Table(entries) = subtree else { return Ok(()) }; m] *)
Definition on_table (m : EM unit) : FM unit := λ v,
  match v with
  | CTable entries => let '(r, entries') := m entries in (r, CTable entries')
  | _ => (Ok tt, v)
  end.

Definition fill_fields (fields : list FieldDefault) (coerce : bool) : FM unit :=
  on_table (fill_entries fields coerce).

(** The variant's field defaults, by serde tag. *)
Definition variant_fields (fields : list VariantDefault) (tag : string) : option (list FieldDefault) :=
  assoc_find tag fields.

(** The loop over [entries.iter_mut()] of [fill_external]. *)
Fixpoint fill_selected (fields : list VariantDefault) (entries : entries_t) :
    result unit TemplateError * entries_t :=
  match entries with
  | [] => (Ok tt, [])
  | (tag, inner) :: rest =>
      match variant_fields fields tag with
      | None => let '(r, rest') := fill_selected fields rest in (r, (tag, inner) :: rest')
      | Some vf =>
          match fill_fields vf false inner with
          | (Err e, inner') => (Err e, (tag, inner') :: rest)
          | (Ok _, inner') =>
              let '(r, rest') := fill_selected fields rest in (r, (tag, inner') :: rest')
          end
      end
  end.

Definition fill_external (dflt : option (string * bool)) (fields : list VariantDefault) : FM unit :=
  λ subtree,
  match subtree with
  | CTable [] =>
      match dflt with
      | None => (Ok tt, subtree)
      | Some (tag, is_unit) =>
          if (is_unit : bool) then
            match parsed_str tag with
            | Err e => (Err e, subtree)
            | Ok v => (Ok tt, v)
            end
          else
            let '(r, inner) :=
              match variant_fields fields tag with
              | Some vf => fill_fields vf false (CTable [])
              | None => (Ok tt, CTable [])
              end in
            match r with
            | Err e => (Err e, subtree)
            | Ok _ => (Ok tt, CTable [(tag, inner)])
            end
      end
  | CTable entries => let '(r, entries') := fill_selected fields entries in (r, CTable entries')
  | _ => (Ok tt, subtree)
  end.

(** [tag_value]: the literal text of the first entry named [tag_key]. *)
Definition tag_value (entries : entries_t) (tag_key : string) : option string :=
  match assoc_find tag_key entries with
  | Some (CStr s) => as_literal s
  | _ => None
  end.

Definition fill_internal (tag_key : string) (dflt : option (string * bool))
    (fields : list VariantDefault) : FM unit :=
  on_table (
    entries ← get_ctx;
    match tag_value entries tag_key with
    | Some variant =>
        match variant_fields fields variant with
        | Some vf => fill_entries vf true
        | None => mret tt
        end
    | None =>
        match dflt with
        | None => mret tt
        | Some (tag, is_unit) =>
            value ← lift_result (parsed_str tag);
            _ ← push_entry tag_key value;
            match (if (is_unit : bool) then None else variant_fields fields tag) with
            | Some vf => fill_entries vf true
            | None => mret tt
            end
        end
    end).

(** [fill_content]: the content table is created when absent. *)
Definition fill_content (content_key : string) (fields : list FieldDefault) : EM unit := λ entries,
  let entries := match assoc_find content_key entries with
    | Some _ => entries
    | None => entries ++ [(content_key, CTable [])]
    end in
  match assoc_find content_key entries with
  | Some content =>
      let '(r, content') := fill_fields fields true content in
      (r, assoc_update content_key (λ _, content') entries)
  | None => (Ok tt, entries)
  end.

Definition fill_adjacent (tag_key content_key : string) (dflt : option (string * bool))
    (fields : list VariantDefault) : FM unit :=
  on_table (
    entries ← get_ctx;
    match tag_value entries tag_key with
    | Some variant =>
        match variant_fields fields variant with
        | Some vf => fill_content content_key vf
        | None => mret tt
        end
    | None =>
        match dflt with
        | None => mret tt
        | Some (tag, is_unit) =>
            value ← lift_result (parsed_str tag);
            _ ← push_entry tag_key value;
            if (is_unit : bool) then mret tt
            else fill_content content_key (from_option id [] (variant_fields fields tag))
        end
    end).

Definition fill_variants (tagging : EnumTag) (dflt : option (string * bool))
    (fields : list VariantDefault) : FM unit :=
  match tagging with
  | External => fill_external dflt fields
  | Internal tag => fill_internal tag dflt fields
  | Adjacent tag content => fill_adjacent tag content dflt fields
  | Untagged => mret tt
  end.

(** [DefaultSpec::fill_missing] *)
Definition fill_missing (spec : DefaultSpec) : FM unit :=
  match spec with
  | DefaultNone => mret tt
  | DefaultFields fields => fill_fields fields false
  | DefaultVariants tagging dflt fields => fill_variants tagging dflt fields
  end.

(** ** Additive runs

    [adds m]: on success or failure the old entries are kept, in order and with
    their values, and new ones are appended under names that were absent. *)
Definition adds (m : EM unit) : Prop :=
  ∀ es, ∃ more, (m es).2 = es ++ more ∧ ∀ k, k ∈ assoc_keys more → assoc_find k es = None.

Lemma push_entry_run k v es : push_entry k v es = (Ok tt, es ++ [(k, v)]).
Proof. done. Qed.

Lemma fill_entries_cons field raw fields coerce es :
  fill_entries ((field, raw) :: fields) coerce es =
  match assoc_find field es with
  | Some _ => fill_entries fields coerce es
  | None =>
      match default_value raw coerce with
      | Err e => (Err e, es)
      | Ok value => fill_entries fields coerce (es ++ [(field, value)])
      end
  end.
Proof.
  simpl. unfold mbind, rst_bind, get_ctx, lift_result. simpl.
  destruct (assoc_find field es); [done|]. by destruct (default_value raw coerce).
Qed.

Lemma fill_entries_adds fields coerce : adds (fill_entries fields coerce).
Proof.
  induction fields as [|[field raw] fields IH]; intros es.
  - exists []. rewrite app_nil_r. split; [done|]. intros k Hk. by apply not_elem_of_nil in Hk.
  - rewrite fill_entries_cons. destruct (assoc_find field es) eqn:E; [apply IH|].
    destruct (default_value raw coerce) as [v|e].
    + destruct (IH (es ++ [(field, v)])) as (more & -> & Hm). exists ((field, v) :: more).
      rewrite <- app_assoc. split; [done|]. intros k Hk.
      apply elem_of_assoc_keys_cons in Hk as [->|Hk]; [done|].
      apply Hm in Hk. rewrite assoc_find_app in Hk. by destruct (assoc_find k es).
    + exists []. rewrite app_nil_r. split; [done|]. intros k Hk. by apply not_elem_of_nil in Hk.
Qed.

(** What a successful fill leaves under a field: the old value, or the first
    declared default of that name. *)
Lemma fill_entries_find fields coerce es es' k :
  fill_entries fields coerce es = (Ok tt, es') →
  assoc_find k es' =
  match assoc_find k es with
  | Some v => Some v
  | None => raw ← assoc_find k fields; result_ok (default_value raw coerce)
  end.
Proof.
  revert es. induction fields as [|[field raw] fields IH]; intros es.
  - intros [= <-]. by destruct (assoc_find k es).
  - rewrite fill_entries_cons. simpl. case_bool_decide as Hk; simpl.
    + subst field. destruct (assoc_find k es) as [v|] eqn:E.
      * intros H'%IH. by rewrite E in H'.
      * destruct (default_value raw coerce) as [v|e] eqn:Ev; [|done]. intros H'%IH.
        rewrite assoc_find_app, E in H'. simpl in *. by rewrite bool_decide_true in H'.
    + destruct (assoc_find field es) as [v|] eqn:E; [by apply IH|].
      destruct (default_value raw coerce) as [v|e] eqn:Ev; [|done]. intros H'%IH.
      rewrite assoc_find_app in H'. simpl in H'. by rewrite bool_decide_false in H' by done;
        destruct (assoc_find k es).
Qed.

Lemma fill_entries_noop fields coerce es :
  (∀ k, k ∈ assoc_keys fields → is_Some (assoc_find k es)) → fill_entries fields coerce es = (Ok tt, es).
Proof.
  induction fields as [|[field raw] fields IH]; intros Hall; [done|].
  rewrite fill_entries_cons. destruct (Hall field) as [v ->]; [by left|].
  apply IH. intros k Hk. apply Hall. by right.
Qed.

Lemma fill_entries_present fields coerce es es' k :
  fill_entries fields coerce es = (Ok tt, es') → k ∈ assoc_keys fields → is_Some (assoc_find k es').
Proof.
  revert es. induction fields as [|[field raw] fields IH]; intros es.
  - intros _ Hk. by apply not_elem_of_nil in Hk.
  - rewrite fill_entries_cons. intros Hf [->|Hk]%elem_of_assoc_keys_cons.
    + assert (∃ es1, is_Some (assoc_find field es1) ∧ fill_entries fields coerce es1 = (Ok tt, es'))
        as (es1 & [v Hv] & Hrun).
      { destruct (assoc_find field es) as [v|] eqn:E; [by eauto|].
        destruct (default_value raw coerce) as [v|e]; [|done]. exists (es ++ [(field, v)]).
        split; [|done]. rewrite assoc_find_app, E. simpl. rewrite bool_decide_true by done. eauto. }
      rewrite (fill_entries_find _ _ _ _ _ Hrun), Hv. eauto.
    + destruct (assoc_find field es); [by eapply IH|].
      destruct (default_value raw coerce); [by eapply IH|done].
Qed.

Lemma fill_entries_idem fields coerce es es' :
  fill_entries fields coerce es = (Ok tt, es') → fill_entries fields coerce es' = (Ok tt, es').
Proof. intros. apply fill_entries_noop. intros. by eapply fill_entries_present. Qed.

Lemma fill_fields_idem fields coerce v v' :
  fill_fields fields coerce v = (Ok tt, v') → fill_fields fields coerce v' = (Ok tt, v').
Proof.
  unfold fill_fields, on_table. destruct v as [| | | | | |es]; try (by intros [= <-]).
  destruct (fill_entries fields coerce es) as [[[]|e] es'] eqn:E; intros; simplify_eq.
  by rewrite (fill_entries_idem _ _ _ _ E).
Qed.

(** ** Values already present are kept *)

Definition is_table (v : ConfigValue) : bool := match v with CTable _ => true | _ => false end.

(** Every non-table node of [v] is found unchanged, at the same path, in [v']. *)
Definition keeps (v v' : ConfigValue) : Prop :=
  ∀ segs leaf, is_table leaf = false → lookup_segments v segs = Some leaf →
    lookup_segments v' segs = Some leaf.

#[export] Instance keeps_preorder : PreOrder keeps.
Proof. split; [by intros v segs leaf | intros u v w H1 H2 segs leaf Hl H; by apply H2, H1]. Qed.

Lemma keeps_table es es' :
  (∀ k v, assoc_find k es = Some v → ∃ v', assoc_find k es' = Some v' ∧ keeps v v') →
  keeps (CTable es) (CTable es').
Proof.
  intros Hk [|seg segs] leaf Hleaf; simpl; [by intros; simplify_eq|].
  destruct (assoc_find seg es) as [v|] eqn:E; [|done]. destruct (Hk _ _ E) as (v' & -> & Hv).
  simpl. by apply Hv.
Qed.
Lemma keeps_app es more : keeps (CTable es) (CTable (es ++ more)).
Proof. apply keeps_table. intros k v Hv. exists v. rewrite assoc_find_app, Hv. done. Qed.
Lemma keeps_empty v : keeps (CTable []) v.
Proof. intros [|? ?] leaf Hleaf; simpl; intros; by simplify_eq. Qed.
Lemma keeps_update k es v v' :
  assoc_find k es = Some v → keeps v v' → keeps (CTable es) (CTable (assoc_update k (λ _, v') es)).
Proof.
  intros Hk Hv. apply keeps_table. intros k' w Hw. destruct (decide (k' = k)) as [->|Hne].
  - exists v'. rewrite assoc_find_update_eq, Hw. simplify_eq. done.
  - exists w. by rewrite assoc_find_update_ne.
Qed.
Lemma on_table_keeps m v : (∀ es, keeps (CTable es) (CTable (m es).2)) → keeps v (on_table m v).2.
Proof.
  intros Hm. unfold on_table. destruct v as [| | | | | |es]; try done.
  specialize (Hm es). by destruct (m es).
Qed.
Lemma adds_keeps m es : adds m → keeps (CTable es) (CTable (m es).2).
Proof. intros Hm. destruct (Hm es) as (more & -> & _). apply keeps_app. Qed.
#[export] Hint Resolve keeps_app keeps_empty adds_keeps fill_entries_adds : overseerd.

Lemma fill_fields_keeps fields coerce v : keeps v (fill_fields fields coerce v).2.
Proof. apply on_table_keeps. eauto with overseerd. Qed.

Lemma fill_content_keeps k fields es : keeps (CTable es) (CTable (fill_content k fields es).2).
Proof.
  unfold fill_content. set (es0 := match assoc_find k es with Some _ => es | None => _ end).
  assert (keeps (CTable es) (CTable es0)) as H0 by (subst es0; case_match; [done|apply keeps_app]).
  destruct (assoc_find k es0) as [v|] eqn:E; [|done].
  pose proof (fill_fields_keeps fields true v) as Hf. destruct (fill_fields fields true v) as [r v'].
  simpl in *. etransitivity; [done|]. by eapply keeps_update.
Qed.

Lemma fill_selected_keeps fields es : keeps (CTable es) (CTable (fill_selected fields es).2).
Proof.
  apply keeps_table. induction es as [|[tag inner] es IH]; intros k v; simpl; [done|].
  destruct (variant_fields fields tag) as [vf|].
  - pose proof (fill_fields_keeps vf false inner) as Hi.
    destruct (fill_fields vf false inner) as [[[]|e] inner']; simpl in *;
      [destruct (fill_selected fields es) as [r es'] eqn:Hs; simpl in *|];
      case_bool_decide; intros; simplify_eq; eauto; by eexists.
  - destruct (fill_selected fields es) as [r es'] eqn:Hs. simpl in *.
    case_bool_decide; intros; simplify_eq; eauto; by eexists.
Qed.

Lemma fill_external_keeps dflt fields v : keeps v (fill_external dflt fields v).2.
Proof.
  unfold fill_external. destruct v as [| | | | | |[|e es]]; try done.
  - apply keeps_empty.
  - pose proof (fill_selected_keeps fields (e :: es)). by destruct (fill_selected fields (e :: es)).
Qed.

(** The shared shape of the two inline-tag encodings: read the tag, or push the
    default variant's. *)
Lemma fill_tagged_keeps tag_key dflt (pick : string → EM unit) (after : string → bool → EM unit) es :
  (∀ tag es, keeps (CTable es) (CTable (pick tag es).2)) →
  (∀ tag u es, keeps (CTable es) (CTable (after tag u es).2)) →
  keeps (CTable es) (CTable ((
    entries ← get_ctx;
    match tag_value entries tag_key with
    | Some variant => pick variant
    | None =>
        match dflt with
        | None => mret tt
        | Some (tag, is_unit) =>
            value ← lift_result (parsed_str tag);
            _ ← push_entry tag_key value;
            after tag is_unit
        end
    end) es).2).
Proof.
  intros Hp Ha. unfold mbind, rst_bind, get_ctx, lift_result.
  destruct (tag_value es tag_key) as [variant|]; [apply Hp|].
  destruct dflt as [[tag u]|]; [|done]. destruct (parsed_str tag) as [v|e]; [|done]. simpl.
  etransitivity; [apply keeps_app|apply Ha].
Qed.

Lemma fill_missing_keeps (spec : DefaultSpec) (v : ConfigValue) : keeps v (fill_missing spec v).2.
Proof.
  destruct spec as [|fields|[|tag|tag content|] dflt fields]; simpl; try done.
  - apply fill_fields_keeps.
  - apply fill_external_keeps.
  - apply on_table_keeps. intros es. apply (fill_tagged_keeps tag dflt
      (λ variant, match variant_fields fields variant with Some vf => fill_entries vf true | None => mret tt end)
      (λ tag (u : bool), match (if u then None else variant_fields fields tag) with
                | Some vf => fill_entries vf true | None => mret tt end));
      intros; repeat case_match; eauto with overseerd; done.
  - apply on_table_keeps. intros es. apply (fill_tagged_keeps tag dflt
      (λ variant, match variant_fields fields variant with Some vf => fill_content content vf | None => mret tt end)
      (λ tag (u : bool), if u then mret tt else fill_content content (from_option id [] (variant_fields fields tag))));
      intros; repeat case_match; try done; apply fill_content_keeps.
Qed.

(** filling defaults never changes a value the file supplies: every scalar
    and array present before is at the same path afterwards, for every tagging,
    even when filling stops at a malformed default. *)
Theorem fill_missing_keeps_values (spec : DefaultSpec) (v leaf : ConfigValue) (segs : list string) :
  lookup_segments v segs = Some leaf → is_table leaf = false →
  lookup_segments (fill_missing spec v).2 segs = Some leaf.
Proof. intros Hl Ht. by apply fill_missing_keeps. Qed.
Lemma fill_missing_keeps_values_witness :
  lookup_segments (fill_missing (DefaultVariants (Internal "kind") (Some ("tcp", false)) [("tcp", [("port", "80")])])
    (CTable [("kind", CStr (mkConfigStr [SegLiteral "tcp"] KLiteral)); ("host", CInt 1)])).2 ["host"] = Some (CInt 1).
Proof. apply fill_missing_keeps_values; reflexivity. Defined.

(** after a successful struct fill every field reads as the file's value
    where there is one and as its (first) parsed default otherwise, undeclared
    fields are untouched, and the file's entries keep their order in front. *)
Theorem fill_fields_spec (fields : list FieldDefault) (es : entries_t) (v' : ConfigValue) :
  fill_missing (DefaultFields fields) (CTable es) = (Ok tt, v') →
  ∃ more, v' = CTable (es ++ more) ∧
    (∀ k, k ∈ assoc_keys fields → is_Some (assoc_find k (es ++ more))) ∧
    (∀ k, assoc_find k (es ++ more) =
       match assoc_find k es with
       | Some v => Some v
       | None => raw ← assoc_find k fields; result_ok (default_value raw false)
       end).
Proof.
  simpl. unfold fill_fields, on_table. destruct (fill_entries fields false es) as [[[]|e] es'] eqn:E;
    intros; simplify_eq.
  destruct (fill_entries_adds fields false es) as (more & Hm & _). rewrite E in Hm. simpl in Hm. subst es'.
  exists more. split_and!; [done| |].
  - intros k Hk. by eapply fill_entries_present.
  - intros k. by apply (fill_entries_find fields false).
Qed.
Lemma fill_fields_spec_witness :
  ∃ more, (fill_missing (DefaultFields [("port", "80"); ("url", "${host}:${port}")]) (CTable [("host", CNull)])).2
    = CTable ([("host", CNull)] ++ more) ∧ is_Some (assoc_find "url" ([("host", CNull)] ++ more)).
Proof.
  edestruct (fill_fields_spec [("port", "80"); ("url", "${host}:${port}")] [("host", CNull)]) as (more & Hv & Hp & _).
  { vm_compute. reflexivity. }
  exists more. split; [vm_compute in Hv |- *; exact Hv|]. apply Hp. right. left.
Defined.

(** ** Idempotence *)

(** Specs the [#[config]] macro emits: the default variant's tag is a plain
    name, and a unit variant declares no field defaults. *)
Definition spec_wf (spec : DefaultSpec) : Prop :=
  match spec with
  | DefaultVariants _ (Some (tag, is_unit)) fields =>
      str_contains "$" tag = false ∧ (is_unit = true → variant_fields fields tag = None)
  | _ => True
  end.
(** The discriminant of an inline-tagged enum is absent or a plain string. *)
Definition tag_readable (spec : DefaultSpec) (v : ConfigValue) : Prop :=
  match spec, v with
  | DefaultVariants (Internal tag | Adjacent tag _) _ _, CTable es =>
      assoc_find tag es = None ∨ is_Some (tag_value es tag)
  | _, _ => True
  end.

Lemma fill_selected_idem fields es es' :
  fill_selected fields es = (Ok tt, es') → fill_selected fields es' = (Ok tt, es').
Proof.
  revert es'. induction es as [|[tag inner] es IH]; intros es' Hs; simpl in Hs; [by simplify_eq|].
  destruct (variant_fields fields tag) as [vf|] eqn:Ev.
  - destruct (fill_fields vf false inner) as [[[]|e] inner'] eqn:Ef; [|done].
    destruct (fill_selected fields es) as [[[]|e] rest] eqn:Er; simplify_eq.
    simpl. rewrite Ev, (fill_fields_idem _ _ _ _ Ef). by rewrite (IH rest).
  - destruct (fill_selected fields es) as [[[]|e] rest] eqn:Er; simplify_eq.
    simpl. rewrite Ev. by rewrite (IH rest).
Qed.

Lemma fill_content_idem k fields es es' :
  fill_content k fields es = (Ok tt, es') → fill_content k fields es' = (Ok tt, es').
Proof.
  unfold fill_content at 1. set (es0 := match assoc_find k es with Some _ => es | None => _ end).
  assert (is_Some (assoc_find k es0)) as [v Hv].
  { subst es0. case_match eqn:E; [by eauto|]. rewrite assoc_find_app, E. simpl. by rewrite bool_decide_true. }
  rewrite Hv. destruct (fill_fields fields true v) as [[[]|e] v'] eqn:Ef; intros; simplify_eq.
  unfold fill_content. assert (assoc_find k (assoc_update k (λ _, v') es0) = Some v') as Hk
    by by rewrite assoc_find_update_eq, Hv.
  rewrite Hk, Hk, (fill_fields_idem _ _ _ _ Ef), assoc_update_update. done.
Qed.

Lemma parsed_str_plain tag : str_contains "$" tag = false →
  ∃ s, parsed_str tag = Ok (CStr s) ∧ as_literal s = Some tag.
Proof.
  intros Hno. destruct (ConfigStr_parse_plain tag Hno) as (s & Hs & Hl & _).
  exists s. unfold parsed_str. by rewrite Hs.
Qed.

Lemma tag_value_adds m es variant tag_key :
  adds m → tag_value es tag_key = Some variant → tag_value (m es).2 tag_key = Some variant.
Proof.
  intros Hm Ht. destruct (Hm es) as (more & -> & _). unfold tag_value in *.
  rewrite assoc_find_app. by destruct (assoc_find tag_key es).
Qed.
Lemma tag_value_push es tag_key s tag :
  assoc_find tag_key es = None → as_literal s = Some tag →
  tag_value (es ++ [(tag_key, CStr s)]) tag_key = Some tag.
Proof.
  intros Hn Hs. unfold tag_value. rewrite assoc_find_app, Hn. simpl. by rewrite bool_decide_true.
Qed.
Lemma tag_value_content es content_key fields variant tag_key :
  tag_value es tag_key = Some variant →
  tag_value (fill_content content_key fields es).2 tag_key = Some variant.
Proof.
  unfold tag_value at 1. destruct (assoc_find tag_key es) as [v|] eqn:E; [|done].
  destruct v as [| | | |s| |]; try done. intros Hs.
  pose proof (fill_content_keeps content_key fields es [tag_key] (CStr s) eq_refl) as Hk.
  simpl in Hk. rewrite E in Hk. specialize (Hk eq_refl). unfold tag_value.
  destruct (assoc_find tag_key (fill_content content_key fields es).2) as [w|]; simpl in Hk; [|done].
  by simplify_eq.
Qed.

Definition internal_body (tag_key : string) (dflt : option (string * bool)) (fields : list VariantDefault)
    (es : entries_t) : result unit TemplateError * entries_t :=
  match tag_value es tag_key with
  | Some variant => fill_entries (from_option id [] (variant_fields fields variant)) true es
  | None =>
      match dflt with
      | None => (Ok tt, es)
      | Some (tag, is_unit) =>
          match parsed_str tag with
          | Err e => (Err e, es)
          | Ok value =>
              fill_entries (if (is_unit : bool) then [] else from_option id [] (variant_fields fields tag)) true
                (es ++ [(tag_key, value)])
          end
      end
  end.
Lemma fill_internal_run tag_key dflt fields es :
  fill_internal tag_key dflt fields (CTable es)
  = let '(r, es') := internal_body tag_key dflt fields es in (r, CTable es').
Proof.
  unfold fill_internal, on_table, internal_body, mbind, rst_bind, get_ctx, lift_result.
  destruct (tag_value es tag_key) as [variant|]; [by destruct (variant_fields fields variant)|].
  destruct dflt as [[tag []]|]; [| |done]; destruct (parsed_str tag); simpl; try done.
  by destruct (variant_fields fields tag).
Qed.

Lemma fill_internal_idem tag_key dflt fields es v' :
  spec_wf (DefaultVariants (Internal tag_key) dflt fields) →
  tag_readable (DefaultVariants (Internal tag_key) dflt fields) (CTable es) →
  fill_internal tag_key dflt fields (CTable es) = (Ok tt, v') →
  fill_internal tag_key dflt fields v' = (Ok tt, v').
Proof.
  intros Hwf Hread. rewrite fill_internal_run.
  destruct (internal_body tag_key dflt fields es) as [[[]|e] es'] eqn:Eb; intros; simplify_eq.
  rewrite fill_internal_run. enough (internal_body tag_key dflt fields es' = (Ok tt, es')) as -> by done.
  unfold internal_body in Eb. destruct (tag_value es tag_key) as [variant|] eqn:Et.
  - pose proof (tag_value_adds _ _ _ _ (fill_entries_adds (from_option id [] (variant_fields fields variant)) true) Et) as Ht.
    rewrite Eb in Ht. simpl in Ht. unfold internal_body. rewrite Ht. by eapply fill_entries_idem.
  - destruct dflt as [[tag u]|]; [|simplify_eq; unfold internal_body; by rewrite Et].
    destruct Hwf as [Hplain Hunit]. destruct (parsed_str_plain tag Hplain) as (s & Hs & Hl).
    rewrite Hs in Eb. destruct Hread as [Hnone|[? Hsome]]; [|congruence].
    pose proof (tag_value_adds _ _ _ _ (fill_entries_adds (if u then [] else from_option id [] (variant_fields fields tag)) true)
      (tag_value_push es tag_key s tag Hnone Hl)) as Ht.
    rewrite Eb in Ht. simpl in Ht. unfold internal_body. rewrite Ht. destruct u.
    + rewrite (Hunit eq_refl). done.
    + by eapply fill_entries_idem.
Qed.

Lemma fill_adjacent_run tag_key content_key dflt fields es :
  fill_adjacent tag_key content_key dflt fields (CTable es) =
  let '(r, es') :=
    match tag_value es tag_key with
    | Some variant =>
        match variant_fields fields variant with
        | Some vf => fill_content content_key vf es
        | None => (Ok tt, es)
        end
    | None =>
        match dflt with
        | None => (Ok tt, es)
        | Some (tag, is_unit) =>
            match parsed_str tag with
            | Err e => (Err e, es)
            | Ok value =>
                let es1 := es ++ [(tag_key, value)] in
                if (is_unit : bool) then (Ok tt, es1)
                else fill_content content_key (from_option id [] (variant_fields fields tag)) es1
            end
        end
    end in (r, CTable es').
Proof.
  unfold fill_adjacent, on_table, mbind, rst_bind, get_ctx, lift_result.
  destruct (tag_value es tag_key) as [variant|]; [by destruct (variant_fields fields variant)|].
  destruct dflt as [[tag []]|]; [| |done]; by destruct (parsed_str tag).
Qed.

Lemma fill_adjacent_idem tag_key content_key dflt fields es v' :
  spec_wf (DefaultVariants (Adjacent tag_key content_key) dflt fields) →
  tag_readable (DefaultVariants (Adjacent tag_key content_key) dflt fields) (CTable es) →
  fill_adjacent tag_key content_key dflt fields (CTable es) = (Ok tt, v') →
  fill_adjacent tag_key content_key dflt fields v' = (Ok tt, v').
Proof.
  intros Hwf Hread. rewrite fill_adjacent_run. intros Hrun.
  destruct (tag_value es tag_key) as [variant|] eqn:Et.
  - destruct (variant_fields fields variant) as [vf|] eqn:Ev.
    + pose proof (tag_value_content es content_key vf variant tag_key Et) as Ht.
      destruct (fill_content content_key vf es) as [[[]|e] es'] eqn:Ef; simplify_eq. simpl in Ht.
      rewrite fill_adjacent_run, Ht, Ev. by rewrite (fill_content_idem _ _ _ _ Ef).
    + simplify_eq. by rewrite fill_adjacent_run, Et, Ev.
  - destruct dflt as [[tag u]|]; [|simplify_eq; by rewrite fill_adjacent_run, Et].
    destruct Hwf as [Hplain Hunit]. destruct (parsed_str_plain tag Hplain) as (s & Hs & Hl).
    rewrite Hs in Hrun. destruct Hread as [Hnone|[? Hsome]]; [|congruence].
    pose proof (tag_value_push es tag_key s tag Hnone Hl) as Ht. destruct u.
    + simpl in Hrun. simplify_eq. rewrite fill_adjacent_run, Ht, (Hunit eq_refl). done.
    + simpl in Hrun. set (vf := from_option id [] (variant_fields fields tag)) in *.
      pose proof (tag_value_content _ content_key vf tag tag_key Ht) as Ht'.
      destruct (fill_content content_key vf _) as [[[]|e] es'] eqn:Ef; simplify_eq. simpl in Ht'.
      rewrite fill_adjacent_run, Ht'. subst vf. apply fill_content_idem in Ef.
      destruct (variant_fields fields tag) as [vf|]; [|done]. simpl in Ef. by rewrite Ef.
Qed.

Lemma fill_external_idem dflt fields v v' :
  spec_wf (DefaultVariants External dflt fields) →
  fill_external dflt fields v = (Ok tt, v') → fill_external dflt fields v' = (Ok tt, v').
Proof.
  intros Hwf. unfold fill_external at 1. destruct v as [| | | | | |[|e es]]; try (by intros; simplify_eq).
  - destruct dflt as [[tag []]|]; [| |by intros; simplify_eq].
    + destruct Hwf as [Hplain _]. destruct (parsed_str_plain tag Hplain) as (s & -> & _). by intros; simplify_eq.
    + destruct (variant_fields fields tag) as [vf|] eqn:Ev.
      * destruct (fill_fields vf false (CTable [])) as [[[]|er] inner] eqn:Ef; intros; simplify_eq.
        simpl. rewrite Ev. by rewrite (fill_fields_idem _ _ _ _ Ef).
      * intros; simplify_eq. simpl. by rewrite Ev.
  - destruct (fill_selected fields (e :: es)) as [[[]|er] es'] eqn:Es; intros; simplify_eq.
    pose proof (fill_selected_idem _ _ _ Es) as Hi. unfold fill_external.
    destruct es' as [|e' es']; [|by rewrite Hi].
    exfalso. destruct e as [tag inner]. simpl in Es. repeat case_match; simplify_eq.
Qed.

(** filling is idempotent, so seeding a tree again (on every registration
    and on every reload) changes nothing, provided an inline tag that is present
    is a plain string. *)
Theorem fill_missing_idempotent (spec : DefaultSpec) (v v' : ConfigValue) :
  spec_wf spec → tag_readable spec v →
  fill_missing spec v = (Ok tt, v') → fill_missing spec v' = (Ok tt, v').
Proof.
  intros Hwf Hread. destruct spec as [|fields|[|tag|tag content|] dflt fields]; simpl.
  - by intros; simplify_eq.
  - apply fill_fields_idem.
  - by apply fill_external_idem.
  - destruct v as [| | | | | |es]; try (by intros [= <-]). by apply fill_internal_idem.
  - destruct v as [| | | | | |es]; try (by intros [= <-]). by apply fill_adjacent_idem.
  - by intros; simplify_eq.
Qed.
Definition tagged_spec : DefaultSpec :=
  DefaultVariants (Adjacent "kind" "opts") (Some ("tcp", false)) [("tcp", [("port", "80")])].
Lemma fill_missing_idempotent_witness :
  let v' := (fill_missing tagged_spec (CTable [])).2 in
  fill_missing tagged_spec v' = (Ok tt, v').
Proof.
  apply (fill_missing_idempotent tagged_spec (CTable [])).
  - split; [reflexivity | discriminate].
  - left. reflexivity.
  - vm_compute. reflexivity.
Defined.

(** the hypothesis of idempotence is needed: a tag that is present but is a
    template (or not a string) is taken for absent, and the default variant's tag
    is pushed as a second entry of the same name, once more on every fill. *)
Theorem fill_internal_duplicates_templated_tag (tag_key tag : string) (fields : list VariantDefault)
    (es : entries_t) (v : ConfigValue) :
  assoc_find tag_key es = Some v → tag_value es tag_key = None → str_contains "$" tag = false →
  ∃ s, fill_missing (DefaultVariants (Internal tag_key) (Some (tag, true)) fields) (CTable es)
       = (Ok tt, CTable (es ++ [(tag_key, CStr s)])) ∧
     tag_value (es ++ [(tag_key, CStr s)]) tag_key = None.
Proof.
  intros Hf Ht Hplain. destruct (parsed_str_plain tag Hplain) as (s & Hs & _). exists s.
  cbn [fill_missing fill_variants]. rewrite fill_internal_run. unfold internal_body. rewrite Ht, Hs. split; [done|].
  unfold tag_value in *. rewrite assoc_find_app. by rewrite Hf in *.
Qed.
Lemma fill_internal_duplicates_templated_tag_witness :
  ∃ s, (fill_missing (DefaultVariants (Internal "kind") (Some ("tcp", true)) [])
    (CTable [("kind", CStr (mkConfigStr [SegPlaceholder (mkPlaceholder "KIND" None)] KFullPlaceholder))])).2
    = CTable ([("kind", CStr (mkConfigStr [SegPlaceholder (mkPlaceholder "KIND" None)] KFullPlaceholder))]
              ++ [("kind", CStr s)]).
Proof.
  edestruct (fill_internal_duplicates_templated_tag "kind" "tcp" []
    [("kind", CStr (mkConfigStr [SegPlaceholder (mkPlaceholder "KIND" None)] KFullPlaceholder))])
    as (s & Hs & _); [reflexivity..|]. exists s. rewrite Hs. reflexivity.
Defined.
