(* ===== verification/ConfigSource.v ===== *)
(** * ConfigSource: normalising, merging and loading configuration sources

    Models [crates/config/src/format/toml.rs], [format/yaml.rs] and the merge and
    discovery half of [managed/source.rs]. The TOML and YAML parsers are
    libraries the source calls: they are section variables returning the
    library's value tree. The file system and the process environment are
    explicit arguments. *)
From S2P Require Import Prelude F64 ConfigValue.

(** ** Library value trees, as the source matches on them *)

Inductive TomlValue : Type :=
| TString (s : string)
| TInteger (n : Z)
| TFloat (f : f64)
| TBoolean (b : bool)
| TDatetime (rendered : string)
| TArray (items : list TomlValue)
| TTable (table : list (string * TomlValue)).

(** [serde_yaml_ng::Number] by the accessors the source uses. *)
Inductive YamlNumber : Type :=
| YInt (n : Z)
| YUint (n : Z)
| YFloat (f : f64)
| YOther (text : string).

Inductive YamlValue : Type :=
| YNull
| YBool (b : bool)
| YString (s : string)
| YNumber (n : YamlNumber)
| YSequence (items : list YamlValue)
| YMapping (mapping : list (YamlValue * YamlValue))
| YTagged (value : YamlValue).

(** [format::toml::from_toml] *)
Fixpoint from_toml (value : TomlValue) : result ConfigValue TemplateError :=
  match value with
  | TString s => result_map CStr (ConfigStr_parse s)
  | TInteger n => Ok (CInt n)
  | TFloat f => Ok (CFloat f)
  | TBoolean b => Ok (CBool b)
  | TDatetime rendered => result_map CStr (ConfigStr_parse rendered)
  | TArray items => result_map CArray (try_map from_toml items)
  | TTable table =>
      result_map CTable (try_map (λ '(k, item), result_map (pair k) (from_toml item)) table)
  end.

(** [format::yaml::number_to_value] *)
Definition number_to_value (n : YamlNumber) : result ConfigValue TemplateError :=
  match n with
  | YInt i => Ok (CInt i)
  | YUint u => Ok (CInt u)
  | YFloat f => Ok (CFloat f)
  | YOther text => Err (Bare (Message ("unrepresentable YAML number: " +:+ text)))
  end.

Section Yaml.
(** [Display] of a YAML number and the debug rendering of a composite key. *)
Variable number_to_string : YamlNumber → string.
Variable debug_key : YamlValue → string.

Definition stringify_key (key : YamlValue) : string :=
  match key with
  | YString s => s
  | YBool b => bool_to_string b
  | YNumber n => number_to_string n
  | other => debug_key other
  end.

(** [format::yaml::from_yaml] *)
Fixpoint from_yaml (value : YamlValue) : result ConfigValue TemplateError :=
  match value with
  | YNull => Ok CNull
  | YBool b => Ok (CBool b)
  | YString s => result_map CStr (ConfigStr_parse s)
  | YNumber n => number_to_value n
  | YSequence items => result_map CArray (try_map from_yaml items)
  | YMapping mapping =>
      result_map CTable
        (try_map (λ '(k, item), result_map (pair (stringify_key k)) (from_yaml item)) mapping)
  | YTagged inner => from_yaml inner
  end.
End Yaml.

(** ** Deep merge *)

(** [merge_into]: tables recurse key by key, anything else is replaced. *)
Fixpoint merge_into (base overlay : ConfigValue) {struct overlay} : ConfigValue :=
  match overlay with
  | CTable overlay_entries =>
      match base with
      | CTable base_entries =>
          CTable
            ((fix go (bes oes : list (string * ConfigValue)) : list (string * ConfigValue) :=
                match oes with
                | [] => bes
                | (k, value) :: oes' =>
                    go (match assoc_find k bes with
                        | Some slot => assoc_update k (λ slot, merge_into slot value) bes
                        | None => bes ++ [(k, value)]
                        end) oes'
                end) base_entries overlay_entries)
      | _ => CTable overlay_entries
      end
  | _ => overlay
  end.

(** [ensure_path_mut], as the update [f] made through the returned reference:
    missing segments become empty tables, and [None] reports a non-table on the
    way. *)
Fixpoint with_path {A} (f : ConfigValue → A * ConfigValue) (segs : list string)
    (current : ConfigValue) : option A * ConfigValue :=
  match segs with
  | [] => let '(a, v) := f current in (Some a, v)
  | seg :: segs' =>
      match current with
      | CTable entries =>
          match assoc_find seg entries with
          | Some child =>
              let '(a, child') := with_path f segs' child in
              (a, CTable (assoc_update seg (λ _, child') entries))
          | None =>
              let '(a, child') := with_path f segs' (CTable []) in
              (a, CTable (entries ++ [(seg, child')]))
          end
      | _ => (None, current)
      end
  end.
Definition ensure_path_mut {A} (f : ConfigValue → A * ConfigValue) (path : string)
    (root : ConfigValue) : option A * ConfigValue :=
  with_path f (split_on "." path) root.

(** ** Loading *)

Inductive IoError : Type := IoNotFound | IoUnreadable.

Inductive ConfigError : Type :=
| ConfigIo (path : string) (source : IoError)
| ConfigParse (path : string) (source : TemplateError)
| ConfigMissingPath (path : string)
| ConfigSubstitution (path : string) (source : TemplateError).

(** A path that exists holds readable text or not. *)
Abbreviation FileSystem := (gmap string (option string)).
Definition path_exists (fs : FileSystem) (path : string) : bool := bool_decide (is_Some (fs !! path)).
Definition read_to_string (fs : FileSystem) (path : string) : result string IoError :=
  match fs !! path with
  | Some (Some text) => Ok text
  | Some None => Err IoUnreadable
  | None => Err IoNotFound
  end.

(** [Path::join] of a relative file name, and [Path::extension]. *)
Definition path_join (dir file : string) : string := dir +:+ "/" +:+ file.
Fixpoint last_piece (c : ascii) (s : string) : option string :=
  match s with
  | "" => None
  | String d s' =>
      match last_piece c s' with
      | Some piece => Some piece
      | None => if bool_decide (c = d) then Some s' else None
      end
  end.
Definition file_name (path : string) : string := from_option id path (last_piece "/" path).
Definition path_extension (path : string) : option string :=
  match file_name path with
  | "" => None
  | String _ rest => last_piece "." rest
  end.

Inductive FormatId : Type := FToml | FYaml | FDynamic.

Section Load.
(** The document parsers, extension by extension, composed with [from_toml] and
    [from_yaml]: [format::toml::from_str] and [format::yaml::from_str]. *)
Variable toml_from_str : string → result TomlValue string.
Variable yaml_from_str : string → result YamlValue string.
Variable number_to_string : YamlNumber → string.
Variable debug_key : YamlValue → string.
(** The [yaml] cargo feature. *)
Variable yaml_feature : bool.

Definition Parser := string → result ConfigValue TemplateError.

Definition toml_parser : Parser := λ text,
  match toml_from_str text with
  | Err e => Err (Bare (Message e))
  | Ok value => from_toml value
  end.
Definition yaml_parser : Parser := λ text,
  match yaml_from_str text with
  | Err e => Err (Bare (Message e))
  | Ok value => from_yaml number_to_string debug_key value
  end.

(** [parsers_for], equal to [F::parsers] of the format with that id. *)
Definition parsers_for (format : FormatId) : list (string * Parser) :=
  match format with
  | FToml => [("toml", toml_parser)]
  | FYaml => if yaml_feature then [("yaml", yaml_parser); ("yml", yaml_parser)] else []
  | FDynamic =>
      ("toml", toml_parser) ::
      (if yaml_feature then [("yaml", yaml_parser); ("yml", yaml_parser)] else [])
  end.

(** Reads and parses one file into [root]. *)
Definition merge_text (fs : FileSystem) (root : ConfigValue) (path : string) (parse : Parser) :
    result ConfigValue ConfigError :=
  match read_to_string fs path with
  | Err source => Err (ConfigIo path source)
  | Ok text =>
      match parse text with
      | Err source => Err (ConfigParse path source)
      | Ok parsed => Ok (merge_into root parsed)
      end
  end.

(** [merge_file] *)
Definition merge_file (fs : FileSystem) (parsers : list (string * Parser)) (root : ConfigValue)
    (path : string) : result ConfigValue ConfigError :=
  match path_extension path with
  | None => Ok root
  | Some ext =>
      match assoc_find ext parsers with
      | None => Ok root
      | Some parse => merge_text fs root path parse
      end
  end.

(** [merge_stem]: the tree and the list of sources read so far. *)
Fixpoint merge_stem (fs : FileSystem) (dir stem : string) (parsers : list (string * Parser))
    (st : ConfigValue * list string) : result (ConfigValue * list string) ConfigError :=
  match parsers with
  | [] => Ok st
  | (ext, parse) :: parsers' =>
      let path := path_join dir (stem +:+ "." +:+ ext) in
      if path_exists fs path then
        match merge_text fs st.1 path parse with
        | Err e => Err e
        | Ok root => merge_stem fs dir stem parsers' (root, st.2 ++ [path])
        end
      else merge_stem fs dir stem parsers' st
  end.

Fixpoint merge_stems (fs : FileSystem) (dir : string) (parsers : list (string * Parser))
    (stems : list string) (st : ConfigValue * list string) :
    result (ConfigValue * list string) ConfigError :=
  match stems with
  | [] => Ok st
  | stem :: stems' =>
      match merge_stem fs dir stem parsers st with
      | Err e => Err e
      | Ok st' => merge_stems fs dir parsers stems' st'
      end
  end.

(** [resolve_profiles]: [OVERSEERD_PROFILES] first, then the explicit list. *)
Definition resolve_profiles (vars : gmap string string) (explicit : list string) : list string :=
  (match vars !! "OVERSEERD_PROFILES" with
   | Some env => List.filter (λ s, negb (str_is_empty s)) (trim <$> split_on "," env)
   | None => []
   end) ++ explicit.

Definition profile_stem (profile : string) : string := "application-" +:+ profile.

(** The reading part of [ConfigManager::load_in]: the merged tree and the files
    it came from, in merge order. *)
Definition load_sources (fs : FileSystem) (vars : gmap string string) (format : FormatId)
    (dir : string) (profiles : list string) : result (ConfigValue * list string) ConfigError :=
  merge_stems fs dir (parsers_for format)
    ("application" :: (profile_stem <$> resolve_profiles vars profiles)) (CTable [], []).

(** The reading part of [ConfigManager::reread]. *)
Fixpoint merge_files (fs : FileSystem) (parsers : list (string * Parser)) (sources : list string)
    (root : ConfigValue) : result ConfigValue ConfigError :=
  match sources with
  | [] => Ok root
  | path :: sources' =>
      match merge_file fs parsers root path with
      | Err e => Err e
      | Ok root' => merge_files fs parsers sources' root'
      end
  end.
Definition reread_sources (fs : FileSystem) (format : FormatId) (sources : list string) :
    result ConfigValue ConfigError :=
  merge_files fs (parsers_for format) sources (CTable []).
End Load.

(** ** Well-formed trees

    Parsed documents have distinct keys in every table. *)
Fixpoint tree_wf (v : ConfigValue) : Prop :=
  match v with
  | CTable es =>
      NoDup (assoc_keys es) ∧
      (fix go (l : list (string * ConfigValue)) : Prop :=
         match l with [] => True | (_, x) :: l' => tree_wf x ∧ go l' end) es
  | CArray items =>
      (fix go (l : list ConfigValue) : Prop :=
         match l with [] => True | x :: l' => tree_wf x ∧ go l' end) items
  | _ => True
  end.
Lemma tree_wf_table es :
  tree_wf (CTable es) ↔ NoDup (assoc_keys es) ∧ Forall (λ e, tree_wf e.2) es.
Proof.
  simpl. split; intros [Hn Hf]; (split; [done|]).
  - clear Hn. induction es as [|[k x] es IH]; [constructor|]. destruct Hf. constructor; [done|by apply IH].
  - clear Hn. induction es as [|[k x] es IH]; [done|]. inversion Hf; subst. split; [done|by apply IH].
Qed.
Lemma tree_wf_find es k v : Forall (λ e, tree_wf e.2) es → assoc_find k es = Some v → tree_wf v.
Proof. intros Hf Hk%assoc_find_Some_in. rewrite Forall_forall in Hf. by apply (Hf (k, v)). Qed.

(** ** The merge of two tables *)

(** One overlay entry. *)
Definition merge_entry (bes : list (string * ConfigValue)) (kv : string * ConfigValue) :
    list (string * ConfigValue) :=
  match assoc_find kv.1 bes with
  | Some slot => assoc_update kv.1 (λ slot, merge_into slot kv.2) bes
  | None => bes ++ [kv]
  end.
Definition merge_entries (bes oes : list (string * ConfigValue)) : list (string * ConfigValue) :=
  foldl merge_entry bes oes.

Lemma merge_tables bes oes : merge_into (CTable bes) (CTable oes) = CTable (merge_entries bes oes).
Proof.
  simpl. f_equal. revert bes. induction oes as [|[k v] oes IH]; intros bes; [done|].
  simpl. rewrite <- IH. unfold merge_entry. simpl. by destruct (assoc_find k bes).
Qed.
Lemma merge_non_table base overlay :
  (∀ es, base ≠ CTable es) ∨ (∀ es, overlay ≠ CTable es) → merge_into base overlay = overlay.
Proof. destruct overlay, base; simpl; try done; intros [H|H]; by destruct (H _ eq_refl). Qed.

Lemma assoc_find_merge_entry k bes kv :
  assoc_find k (merge_entry bes kv) =
  if bool_decide (kv.1 = k)
  then Some (match assoc_find k bes with Some slot => merge_into slot kv.2 | None => kv.2 end)
  else assoc_find k bes.
Proof.
  destruct kv as [k' v]. unfold merge_entry. simpl. case_bool_decide as Hk.
  - subst. destruct (assoc_find k bes) as [slot|] eqn:E.
    + by rewrite assoc_find_update_eq, E.
    + rewrite assoc_find_app, E. simpl. by rewrite bool_decide_true.
  - destruct (assoc_find k' bes) as [slot|] eqn:E.
    + by rewrite assoc_find_update_ne.
    + rewrite assoc_find_app. simpl. rewrite bool_decide_false by done. by destruct (assoc_find k bes).
Qed.

Lemma assoc_find_merge k bes oes :
  NoDup (assoc_keys oes) →
  assoc_find k (merge_entries bes oes) =
  match assoc_find k oes, assoc_find k bes with
  | Some v, Some slot => Some (merge_into slot v)
  | Some v, None => Some v
  | None, b => b
  end.
Proof.
  unfold merge_entries. revert bes. induction oes as [|[k' v] oes IH]; intros bes Hnd; simpl.
  - by destruct (assoc_find k bes).
  - apply NoDup_assoc_keys_cons in Hnd as [Hk Hnd]. rewrite IH by done. rewrite assoc_find_merge_entry. simpl.
    case_bool_decide as Heq; [|done]. subst k'.
    apply assoc_find_None in Hk. rewrite Hk. by destruct (assoc_find k bes).
Qed.

Lemma merge_entry_keys bes kv :
  assoc_keys (merge_entry bes kv) =
  if assoc_find kv.1 bes is Some _ then assoc_keys bes else assoc_keys bes ++ [kv.1].
Proof.
  destruct kv as [k v]. unfold merge_entry. simpl. destruct (assoc_find k bes).
  - apply assoc_keys_update.
  - unfold assoc_keys. by rewrite fmap_app.
Qed.
Lemma merge_entry_NoDup bes kv : NoDup (assoc_keys bes) → NoDup (assoc_keys (merge_entry bes kv)).
Proof.
  rewrite merge_entry_keys. destruct (assoc_find kv.1 bes) eqn:E; [done|]. intros Hnd.
  apply NoDup_app. split; [done|]. apply assoc_find_None in E.
  split; [|apply NoDup_singleton]. by intros k Hk ->%list_elem_of_singleton.
Qed.

(** merging two documents gives a well-formed document. *)
Theorem merge_into_wf (base overlay : ConfigValue) :
  tree_wf base → tree_wf overlay → tree_wf (merge_into base overlay).
Proof.
  revert base. induction overlay as [| | | | | |oes IH] using ConfigValue_nested_ind;
    intros base Hb Ho; try by rewrite merge_non_table by (right; done).
  destruct base as [| | | | | |bes]; try by rewrite merge_non_table by (left; done).
  rewrite merge_tables. apply tree_wf_table in Hb as [Hb1 Hb2], Ho as [_ Ho].
  apply tree_wf_table. unfold merge_entries.
  revert bes Hb1 Hb2. induction oes as [|[k v] oes IHo]; intros bes Hb1 Hb2; [done|].
  inversion IH; inversion Ho; subst; simpl in *. apply IHo; [done..|by apply merge_entry_NoDup|].
  unfold merge_entry. simpl. destruct (assoc_find k bes) as [slot|] eqn:E.
  - apply Forall_assoc_update; [|done]. intros w Hw.
    match goal with H : ∀ base, tree_wf base → _ |- _ => by apply H end.
  - apply Forall_app. split; [done|]. by repeat constructor.
Qed.
Lemma merge_into_wf_witness :
  tree_wf (merge_into (CTable [("a", CTable [("x", CInt 1)])]) (CTable [("b", CNull); ("a", CTable [("y", CInt 2)])])).
Proof.
  apply merge_into_wf; simpl; split_and!; try done; unfold assoc_keys; simpl;
    repeat (apply NoDup_cons; split; [set_solver|]); apply NoDup_nil; done.
Defined.

(** Whether the overlay says nothing about the node at [segs]: at some prefix it
    has no entry. *)
Fixpoint overlay_silent (overlay : ConfigValue) (segs : list string) : bool :=
  match overlay, segs with
  | CTable oes, seg :: segs' =>
      match assoc_find seg oes with Some o => overlay_silent o segs' | None => true end
  | _, _ => false
  end.

(** deep-merge precedence. Every scalar and array of the overlay wins at its
    path; every node of the base that the overlay is silent about is kept; and
    nothing else appears: each scalar of the result comes from one of the two at
    that same path. *)
Theorem merge_into_precedence (base overlay : ConfigValue) (segs : list string) (leaf : ConfigValue) :
  tree_wf overlay →
  (lookup_segments overlay segs = Some leaf → (∀ es, leaf ≠ CTable es) →
   lookup_segments (merge_into base overlay) segs = Some leaf) ∧
  (lookup_segments base segs = Some leaf → overlay_silent overlay segs = true →
   lookup_segments (merge_into base overlay) segs = Some leaf) ∧
  (lookup_segments (merge_into base overlay) segs = Some leaf → (∀ es, leaf ≠ CTable es) →
   lookup_segments overlay segs = Some leaf ∨ lookup_segments base segs = Some leaf).
Proof.
  revert base overlay. induction segs as [|seg segs IH]; intros base overlay Hwf.
  - split_and!.
    + intros [= ->] Hleaf. simpl. by rewrite merge_non_table by (by right).
    + intros _. by destruct overlay.
    + intros [= Hm] Hleaf. destruct overlay as [| | | | | |oes];
        try (left; rewrite merge_non_table in Hm by (right; done); by rewrite <- Hm).
      destruct base as [| | | | | |bes]; try (left; rewrite merge_non_table in Hm by (left; done); by rewrite <- Hm).
      rewrite merge_tables in Hm. by destruct (Hleaf _ (eq_sym Hm)).
  - destruct overlay as [| | | | | |oes]; try (rewrite merge_non_table by (right; done);
      split_and!; intros; simpl in *; try done; by left).
    destruct base as [| | | | | |bes]; try (rewrite merge_non_table by (left; done);
      split_and!; intros; simpl in *; try done; by left).
    apply tree_wf_table in Hwf as [Hnd Hf]. rewrite merge_tables. simpl. rewrite assoc_find_merge by done.
    destruct (assoc_find seg oes) as [v|] eqn:Eo; [|split_and!; [done|done|by right]].
    destruct (assoc_find seg bes) as [slot|]; simpl.
    + apply IH. by eapply tree_wf_find.
    + split_and!; [done|done|by left].
Qed.
Lemma merge_into_precedence_witness :
  lookup_segments (merge_into (CTable [("s", CTable [("p", CInt 1); ("h", CInt 2)])])
    (CTable [("s", CTable [("p", CInt 9)])])) ["s"; "p"] = Some (CInt 9) ∧
  lookup_segments (merge_into (CTable [("s", CTable [("p", CInt 1); ("h", CInt 2)])])
    (CTable [("s", CTable [("p", CInt 9)])])) ["s"; "h"] = Some (CInt 2).
Proof.
  assert (tree_wf (CTable [("s", CTable [("p", CInt 9)])])) as Hwf.
  { simpl. split_and!; try done; unfold assoc_keys; simpl; apply NoDup_singleton. }
  split.
  - destruct (merge_into_precedence (CTable [("s", CTable [("p", CInt 1); ("h", CInt 2)])])
      (CTable [("s", CTable [("p", CInt 9)])]) ["s"; "p"] (CInt 9) Hwf) as (H & _).
    apply H; [reflexivity | discriminate].
  - destruct (merge_into_precedence (CTable [("s", CTable [("p", CInt 1); ("h", CInt 2)])])
      (CTable [("s", CTable [("p", CInt 9)])]) ["s"; "h"] (CInt 2) Hwf) as (_ & H & _).
    apply H; reflexivity.
Defined.

(** ** Re-reading what was loaded *)

Section Reread.
Variable toml_from_str : string → result TomlValue string.
Variable yaml_from_str : string → result YamlValue string.
Variable number_to_string : YamlNumber → string.
Variable debug_key : YamlValue → string.
Variable yaml_feature : bool.
Abbreviation parsers := (parsers_for toml_from_str yaml_from_str number_to_string debug_key yaml_feature).

Lemma last_piece_none c s : str_contains c s = false → last_piece c s = None.
Proof.
  induction s as [|d s IH]; [done|]. intros [Hd Hs]%str_contains_cons_false. simpl.
  rewrite IH by done. by rewrite bool_decide_false.
Qed.
Lemma last_piece_app c a b :
  str_contains c b = false → last_piece c (a +:+ String c b) = Some b.
Proof.
  intros Hb. induction a as [|d a IH]; [|by rewrite str_app_cons; simpl; rewrite IH].
  rewrite str_app_nil_l. simpl. rewrite last_piece_none by done. by rewrite bool_decide_true.
Qed.

(** The extension a source was merged under is the one its path shows. *)
Lemma stem_extension dir stem ext :
  str_contains "/" stem = false → stem ≠ "" → str_contains "/" ext = false → str_contains "." ext = false →
  path_extension (path_join dir (stem +:+ "." +:+ ext)) = Some ext.
Proof.
  intros Hstem Hne Hext1 Hext2. unfold path_extension, file_name, path_join.
  change ("." +:+ ext) with (String "." ext). change ("/" +:+ (stem +:+ String "." ext)) with
    (String "/" (stem +:+ String "." ext)).
  rewrite last_piece_app; [|by rewrite str_contains_app, Hstem, str_contains_cons, Hext1].
  simpl. destruct stem as [|c stem]; [done|]. rewrite str_app_cons. by apply last_piece_app.
Qed.

Lemma parsers_for_extensions format ext parse :
  (ext, parse) ∈ parsers format →
  str_contains "/" ext = false ∧ str_contains "." ext = false ∧ assoc_find ext (parsers format) = Some parse.
Proof.
  unfold parsers_for. destruct format, yaml_feature; set_unfold; intros; destruct_or?; simplify_eq; done.
Qed.

Definition file_stem_ok (stem : string) : Prop := str_contains "/" stem = false ∧ stem ≠ "".

Lemma merge_files_app fs ps s1 s2 root :
  merge_files fs ps (s1 ++ s2) root =
  match merge_files fs ps s1 root with Ok root' => merge_files fs ps s2 root' | Err e => Err e end.
Proof. revert root. induction s1 as [|p s1 IH]; intros root; simpl; [done|]. by destruct (merge_file _ _ _ _). Qed.

Lemma merge_stem_sources fs dir stem format ps st st' :
  file_stem_ok stem → (∀ e, e ∈ ps → e ∈ parsers format) →
  merge_stem fs dir stem ps st = Ok st' →
  ∃ more, st'.2 = st.2 ++ more ∧ merge_files fs (parsers format) more st.1 = Ok st'.1.
Proof.
  intros [Hslash Hne]. revert st. induction ps as [|[ext parse] ps IH]; intros st Hin; simpl.
  - intros [= <-]. exists []. by rewrite app_nil_r.
  - case_match; [|apply IH; set_solver].
    destruct (merge_text fs st.1 _ parse) as [root|e] eqn:Hm; [|done]. intros Hrest.
    apply IH in Hrest as (more & Hsrc & Hfiles); [|set_solver]. simpl in *.
    exists (path_join dir (stem +:+ "." +:+ ext) :: more). rewrite Hsrc, <- app_assoc. split; [done|].
    destruct (parsers_for_extensions format ext parse) as (He1 & He2 & Hf); [apply Hin; by left|].
    simpl. unfold merge_file. rewrite stem_extension by done. rewrite Hf. rewrite Hm. done.
Qed.

Lemma merge_stems_sources fs dir format stems st st' :
  Forall file_stem_ok stems →
  merge_stems fs dir (parsers format) stems st = Ok st' →
  ∃ more, st'.2 = st.2 ++ more ∧ merge_files fs (parsers format) more st.1 = Ok st'.1.
Proof.
  revert st. induction stems as [|stem stems IH]; intros st Hok; simpl.
  - intros [= <-]. exists []. by rewrite app_nil_r.
  - inversion Hok; subst. destruct (merge_stem _ _ _ _ st) as [st1|e] eqn:Hm; [|done]. intros Hrest.
    apply (merge_stem_sources fs dir stem format) in Hm as (m1 & Hs1 & Hf1); [|done|auto].
    apply IH in Hrest as (m2 & Hs2 & Hf2); [|done]. exists (m1 ++ m2).
    rewrite Hs2, Hs1, app_assoc. split; [done|]. by rewrite merge_files_app, Hf1.
Qed.

Lemma reread_of_load (fs : FileSystem) (vars : gmap string string) (format : FormatId)
    (dir : string) (profiles : list string) (root : ConfigValue) (sources : list string) :
  Forall (λ p, str_contains "/" p = false) (resolve_profiles vars profiles) →
  load_sources toml_from_str yaml_from_str number_to_string debug_key yaml_feature
    fs vars format dir profiles = Ok (root, sources) →
  reread_sources toml_from_str yaml_from_str number_to_string debug_key yaml_feature
    fs format sources = Ok root.
Proof.
  intros Hprof Hload. unfold load_sources in Hload.
  apply merge_stems_sources in Hload as (more & Hsrc & Hfiles); [by simpl in *; subst|].
  constructor; [done|]. apply Forall_fmap. eapply Forall_impl; [done|]. intros p Hp. split; [|done].
  simpl. unfold profile_stem. by rewrite str_contains_app, Hp.
Qed.

(** a reload re-reads exactly what was loaded: on an unchanged file system
    the retained sources, merged again in the retained order with the parsers
    chosen by extension, rebuild the loaded tree, profile overlays included. *)
Theorem reread_rebuilds_load (fs : FileSystem) (vars : gmap string string) (format : FormatId)
    (dir : string) (profiles : list string) (root : ConfigValue) (sources : list string) :
  Forall (λ p, str_contains "/" p = false) (resolve_profiles vars profiles) →
  load_sources toml_from_str yaml_from_str number_to_string debug_key yaml_feature
    fs vars format dir profiles = Ok (root, sources) →
  reread_sources toml_from_str yaml_from_str number_to_string debug_key yaml_feature
    fs format sources = Ok root.
Proof. apply reread_of_load. Qed.
End Reread.

Definition sample_toml (text : string) : result TomlValue string :=
  if bool_decide (text = "a") then Ok (TTable [("k", TInteger 1); ("p", TString "base")])
  else if bool_decide (text = "b") then Ok (TTable [("p", TString "dev")])
  else Err "syntax".
Lemma reread_rebuilds_load_witness :
  let fs : FileSystem := <["cfg/application.toml" := Some "a"]> (<["cfg/application-dev.toml" := Some "b"]> ∅) in
  let vars : gmap string string := <["OVERSEERD_PROFILES" := " dev ,"]> ∅ in
  let root := CTable [("k", CInt 1); ("p", CStr (mkConfigStr [SegLiteral "dev"] KLiteral))] in
  let sources := ["cfg/application.toml"; "cfg/application-dev.toml"] in
  load_sources sample_toml (λ _, Err "no yaml") (λ _, "") (λ _, "") true fs vars FToml "cfg" [] = Ok (root, sources) ∧
  reread_sources sample_toml (λ _, Err "no yaml") (λ _, "") (λ _, "") true fs FToml sources = Ok root.
Proof.
  intros fs vars root sources. split; [vm_compute; reflexivity|].
  apply (reread_rebuilds_load sample_toml (λ _, Err "no yaml") (λ _, "") (λ _, "") true fs vars FToml "cfg" []).
  - apply (bool_decide_unpack _). vm_compute. exact I.
  - vm_compute. reflexivity.
Defined.
