(* ===== verification/ConfigDe.v ===== *)
(** * ConfigDe: typed deserialization over the tree

    Models [crates/config/src/de.rs]: the serde [Deserializer] over one node,
    and the [SeqAccess]/[MapAccess]/[EnumAccess]/[VariantAccess] walks. The
    visitor and the seed a target type supplies are code the source only calls:
    a [Visitor] is a record of methods, a seed is a function of the child
    deserializer, and both run in the resolution monad because they may resolve
    further nodes through the shared [&mut ResolveCtx]. *)
From S2P Require Import Prelude F64 ConfigValue ConfigResolve.

(** The width of each integer method of the [deserialize_int!] macro. *)
Inductive IntTy := I8 | I16 | I32 | I64 | I128 | U8 | U16 | U32 | U64 | U128.
#[export] Instance IntTy_eq_dec : EqDecision IntTy.
Proof. solve_decision. Defined.
Definition int_name (t : IntTy) : string :=
  match t with
  | I8 => "i8" | I16 => "i16" | I32 => "i32" | I64 => "i64" | I128 => "i128"
  | U8 => "u8" | U16 => "u16" | U32 => "u32" | U64 => "u64" | U128 => "u128"
  end.
Definition int_lo (t : IntTy) : Z :=
  match t with
  | I8 => i_min 8 | I16 => i_min 16 | I32 => i_min 32 | I64 => i_min 64 | I128 => i_min 128
  | _ => 0
  end.
Definition int_hi (t : IntTy) : Z :=
  match t with
  | I8 => i_max 8 | I16 => i_max 16 | I32 => i_max 32 | I64 => i_max 64 | I128 => i_max 128
  | U8 => u_max 8 | U16 => u_max 16 | U32 => u_max 32 | U64 => u_max 64 | U128 => u_max 128
  end.
(** [<$ty>::try_from(n : i128)] *)
Definition int_try_from (t : IntTy) (n : Z) : option Z :=
  if (int_lo t <=? n) && (n <=? int_hi t) then Some n else None.

(** ** The state of each walker *)

Record ValueDeserializer := mkDe { de_value : ConfigValue; de_path : string }.
Record SeqWalk := mkSeqWalk { sw_items : list ConfigValue; sw_index : nat; sw_path : string }.
Record MapWalk := mkMapWalk { mw_entries : list (string * ConfigValue); mw_index : nat; mw_path : string }.
Record EnumWalk := mkEnumWalk { ew_variant : string; ew_value : option ConfigValue; ew_path : string }.
Record VariantWalk := mkVariantWalk { vw_value : option ConfigValue; vw_path : string }.

(** [DeserializeSeed]; a [char] is the UTF-8 text that encodes it. *)
Abbreviation Seed A := (ValueDeserializer → RM A).
Record Visitor (A : Type) := mkVisitor {
  visit_unit : RM A;
  visit_bool : bool → RM A;
  visit_int : IntTy → Z → RM A;
  visit_f32 : f64 → RM A;
  visit_f64 : f64 → RM A;
  visit_char : string → RM A;
  visit_string : string → RM A;
  visit_none : RM A;
  visit_some : Seed A;
  visit_newtype_struct : Seed A;
  visit_seq : SeqWalk → RM A;
  visit_map : MapWalk → RM A;
  visit_enum : EnumWalk → RM A;
}.
Arguments visit_unit {A}. Arguments visit_bool {A}. Arguments visit_int {A}. Arguments visit_f32 {A}.
Arguments visit_f64 {A}. Arguments visit_char {A}. Arguments visit_string {A}. Arguments visit_none {A}.
Arguments visit_some {A}. Arguments visit_newtype_struct {A}. Arguments visit_seq {A}.
Arguments visit_map {A}. Arguments visit_enum {A}. Arguments mkVisitor {A}.

(** [ValueDeserializer::err] and [mismatch] *)
Definition de_err (d : ValueDeserializer) (k : TemplateErrorKind) : TemplateError :=
  if str_is_empty (de_path d) then Bare k else At (de_path d) k.
Definition mismatch (d : ValueDeserializer) (expected : string) : TemplateError :=
  de_err d (TypeMismatch expected (type_label (de_value d))).

(** The child paths of a table key and of an array index. *)
Definition key_path (path key : string) : string :=
  if str_is_empty path then key else path +:+ "." +:+ key.
Definition index_path (path : string) (i : nat) : string :=
  path +:+ "[" +:+ pretty i +:+ "]".
Definition child_key (d : ValueDeserializer) (key : string) : string := key_path (de_path d) key.

(** The number of [char]s a UTF-8 string decodes to: its non-continuation bytes. *)
Definition is_continuation (c : ascii) : bool := Z.land (Z.of_N (N_of_ascii c)) 192 =? 128.
Fixpoint char_count (s : string) : Z :=
  match s with
  | "" => 0
  | String c s' => (if is_continuation c then 0 else 1) + char_count s'
  end.

Section De.
Variable root : ConfigValue.
Variable resolvers : ResolverChain.
Abbreviation resolve := (resolve_placeholder root resolvers).
Abbreviation render := (render_str root resolvers).

(** [scalar_source]; the [expect] on [as_full] is the [None] branch, which no
    classified leaf reaches. *)
Definition scalar_source (d : ValueDeserializer) (s : ConfigStr) : RM (StrKind * string) :=
  match kind s with
  | KFullPlaceholder =>
      match as_full s with
      | Some p => raw ← resolve p; mret (KFullPlaceholder, raw)
      | None => throw (de_err d (Message "full kind implies one placeholder"))
      end
  | KLiteral | KTemplated => rendered ← render s; mret (kind s, rendered)
  end.

(** The shared tail of the scalar coercions: reject a template, then parse. *)
Definition coerce_scalar {A} (d : ValueDeserializer) (target : string) (parse : string → option A)
    (s : ConfigStr) : RM A :=
  src ← scalar_source d s;
  let '(k, raw) := src in
  if bool_decide (k = KTemplated) then throw (de_err d (PartialInNonString target))
  else match parse raw with
       | Some v => mret v
       | None => throw (de_err d (ParseAs target))
       end.

Definition int_value (d : ValueDeserializer) (target : string) : RM Z :=
  match de_value d with
  | CInt n => mret n
  | CStr s => coerce_scalar d target parse_i128 s
  | _ => throw (mismatch d target)
  end.

Definition float_value (d : ValueDeserializer) (target : string) : RM f64 :=
  match de_value d with
  | CFloat f => mret f
  | CInt n => mret (f64_of_int n)
  | CStr s => coerce_scalar d target f64_parse s
  | _ => throw (mismatch d target)
  end.

Section Methods.
Context {A : Type}.

Definition deserialize_bool (d : ValueDeserializer) (v : Visitor A) : RM A :=
  match de_value d with
  | CBool b => visit_bool v b
  | CStr s => b ← coerce_scalar d "bool" parse_bool s; visit_bool v b
  | _ => throw (mismatch d "bool")
  end.

Definition deserialize_int (t : IntTy) (d : ValueDeserializer) (v : Visitor A) : RM A :=
  n ← int_value d (int_name t);
  match int_try_from t n with
  | Some narrowed => visit_int v t narrowed
  | None => throw (de_err d (OutOfRange (int_name t)))
  end.

Definition deserialize_i128 (d : ValueDeserializer) (v : Visitor A) : RM A :=
  n ← int_value d "i128"; visit_int v I128 n.

Definition deserialize_u128 (d : ValueDeserializer) (v : Visitor A) : RM A :=
  n ← int_value d "u128";
  match int_try_from U128 n with
  | Some narrowed => visit_int v U128 narrowed
  | None => throw (de_err d (OutOfRange "u128"))
  end.

Definition deserialize_f32 (d : ValueDeserializer) (v : Visitor A) : RM A :=
  f ← float_value d "f32"; visit_f32 v (f32_of_f64 f).
Definition deserialize_f64 (d : ValueDeserializer) (v : Visitor A) : RM A :=
  f ← float_value d "f64"; visit_f64 v f.

Definition deserialize_char (d : ValueDeserializer) (v : Visitor A) : RM A :=
  match de_value d with
  | CStr s =>
      rendered ← render s;
      if char_count rendered =? 1 then visit_char v rendered
      else throw (de_err d (ParseAs "char"))
  | _ => throw (mismatch d "char")
  end.

(** Also [deserialize_string] and [deserialize_identifier]. *)
Definition deserialize_str (d : ValueDeserializer) (v : Visitor A) : RM A :=
  match de_value d with
  | CStr s => rendered ← render s; visit_string v rendered
  | _ => throw (mismatch d "string")
  end.

Definition deserialize_option (d : ValueDeserializer) (v : Visitor A) : RM A :=
  match de_value d with CNull => visit_none v | _ => visit_some v d end.

(** Also [deserialize_unit_struct]. *)
Definition deserialize_unit (d : ValueDeserializer) (v : Visitor A) : RM A :=
  match de_value d with CNull => visit_unit v | _ => throw (mismatch d "null") end.

Definition deserialize_newtype_struct (d : ValueDeserializer) (v : Visitor A) : RM A :=
  visit_newtype_struct v d.

(** Also [deserialize_tuple] and [deserialize_tuple_struct]. *)
Definition deserialize_seq (d : ValueDeserializer) (v : Visitor A) : RM A :=
  match de_value d with
  | CArray items => visit_seq v (mkSeqWalk items 0 (de_path d))
  | _ => throw (mismatch d "array")
  end.

(** Also [deserialize_struct]. *)
Definition deserialize_map (d : ValueDeserializer) (v : Visitor A) : RM A :=
  match de_value d with
  | CTable entries => visit_map v (mkMapWalk entries 0 (de_path d))
  | _ => throw (mismatch d "table")
  end.

Definition deserialize_enum (d : ValueDeserializer) (v : Visitor A) : RM A :=
  match de_value d with
  | CStr s => variant ← render s; visit_enum v (mkEnumWalk variant None (de_path d))
  | CTable [(key, value)] => visit_enum v (mkEnumWalk key (Some value) (child_key d key))
  | _ => throw (mismatch d "enum")
  end.

Definition deserialize_ignored_any (d : ValueDeserializer) (v : Visitor A) : RM A := visit_unit v.

(** Also [deserialize_bytes] and [deserialize_byte_buf]. *)
Definition deserialize_any (d : ValueDeserializer) (v : Visitor A) : RM A :=
  match de_value d with
  | CNull => visit_unit v
  | CBool b => visit_bool v b
  | CInt n =>
      match int_try_from I64 n with
      | Some small => visit_int v I64 small
      | None => visit_int v I128 n
      end
  | CFloat f => visit_f64 v f
  | CStr s => rendered ← render s; visit_string v rendered
  | CArray _ => deserialize_seq d v
  | CTable _ => deserialize_map d v
  end.

(** ** The walks: what is handed out, and the walk that remains *)

Definition next_element_seed (w : SeqWalk) (seed : Seed A) : RM (option A) * SeqWalk :=
  match sw_items w !! sw_index w with
  | None => (mret None, w)
  | Some value =>
      let child := mkDe value (index_path (sw_path w) (sw_index w)) in
      (x ← seed child; mret (Some x), mkSeqWalk (sw_items w) (S (sw_index w)) (sw_path w))
  end.

(** The key is handed out as a literal string and is not advanced past. *)
Definition next_key_seed (w : MapWalk) (seed : string → RM A) : RM (option A) :=
  match mw_entries w !! mw_index w with
  | None => mret None
  | Some (key, _) => x ← seed key; mret (Some x)
  end.

(** [None] is the out-of-bounds panic of [self.entries[self.index]]. *)
Definition next_value_seed (w : MapWalk) (seed : Seed A) : option (RM A * MapWalk) :=
  match mw_entries w !! mw_index w with
  | None => None
  | Some (key, value) =>
      let child := mkDe value (key_path (mw_path w) key) in
      Some (seed child, mkMapWalk (mw_entries w) (S (mw_index w)) (mw_path w))
  end.

Definition variant_seed (w : EnumWalk) (seed : string → RM A) : RM (A * VariantWalk) :=
  variant ← seed (ew_variant w); mret (variant, mkVariantWalk (ew_value w) (ew_path w)).

Definition variant_missing (w : VariantWalk) (expected : string) : TemplateError :=
  At (vw_path w) (TypeMismatch expected "unit").

Definition unit_variant (w : VariantWalk) : RM unit :=
  match vw_value w with
  | None | Some CNull => mret tt
  | Some other => throw (At (vw_path w) (TypeMismatch "unit variant" (type_label other)))
  end.
Definition newtype_variant_seed (w : VariantWalk) (seed : Seed A) : RM A :=
  match vw_value w with
  | None => throw (variant_missing w "newtype variant")
  | Some value => seed (mkDe value (vw_path w))
  end.
Definition tuple_variant (w : VariantWalk) (v : Visitor A) : RM A :=
  match vw_value w with
  | None => throw (variant_missing w "tuple variant")
  | Some value => deserialize_seq (mkDe value (vw_path w)) v
  end.
Definition struct_variant (w : VariantWalk) (v : Visitor A) : RM A :=
  match vw_value w with
  | None => throw (variant_missing w "struct variant")
  | Some value => deserialize_map (mkDe value (vw_path w)) v
  end.
End Methods.
Definition seq_size_hint (w : SeqWalk) : Z := Z.of_nat (length (sw_items w)) - Z.of_nat (sw_index w).
Definition map_size_hint (w : MapWalk) : Z := Z.of_nat (length (mw_entries w)) - Z.of_nat (mw_index w).

End De.

(** [T::deserialize], for the type [T] being read. *)
Abbreviation Deserialize A := (ConfigValue → ResolverChain → Seed A).

Definition from_value_in_with_dependencies {A} (root value : ConfigValue) (resolvers : ResolverChain)
    (de : Deserialize A) : result (A * list ResolvedDependency) TemplateError :=
  let '(r, ctx) := de root resolvers (mkDe value "") ResolveCtx_new in
  result_map (λ a, (a, resolved_dependencies ctx)) r.
Definition from_value_in {A} (root value : ConfigValue) (resolvers : ResolverChain)
    (de : Deserialize A) : result A TemplateError :=
  result_map fst (from_value_in_with_dependencies root value resolvers de).
Definition from_value {A} (root : ConfigValue) (resolvers : ResolverChain) (de : Deserialize A) :
    result A TemplateError :=
  from_value_in root root resolvers de.

(** ** Errors never hold a resolved value

    The strings an error can show, the keys written in a tree, and the fixed
    labels of the source. *)
Definition error_strings (k : TemplateErrorKind) : list string :=
  match k with
  | UnterminatedPlaceholder | ResolutionDepthExceeded _ | ResolutionBudgetExceeded _
  | RenderedOutputTooLarge _ => []
  | MissingPlaceholder k | UnknownNamespaceKey k | NotStringRenderable k => [k]
  | ResolutionCycle chain k => k :: chain
  | PartialInNonString t | ParseAs t | OutOfRange t => [t]
  | TypeMismatch e f => [e; f]
  | Message m => [m]
  end.
Definition segment_keys (s : Segment) : list string :=
  match s with SegPlaceholder p => [key p] | SegLiteral _ => [] end.
Fixpoint tree_keys (v : ConfigValue) : list string :=
  match v with
  | CStr s => flat_map segment_keys (segments s)
  | CArray items => flat_map tree_keys items
  | CTable entries => flat_map (λ '(_, x), tree_keys x) entries
  | _ => []
  end.
Definition source_labels : list string :=
  ["i8"; "i16"; "i32"; "i64"; "i128"; "u8"; "u16"; "u32"; "u64"; "u128"; "f32"; "f64"; "bool"; "char";
   "string"; "null"; "integer"; "float"; "array"; "table"; "enum"; "full kind implies one placeholder"].

(** [m] fails only with strings of [K], and keeps the in-flight keys in [K]. *)
Definition tells (K : string → Prop) {A} (m : RM A) : Prop := ∀ c,
  Forall K (in_flight c) →
  Forall K (in_flight (m c).2) ∧
  match (m c).1 with Err e => Forall K (error_strings (error_kind e)) | Ok _ => True end.

Section Tells.
Context (K : string → Prop).
Lemma tells_ret {A} (a : A) : tells K (mret a).
Proof. by intros c Hc. Qed.
Lemma tells_throw {A} e : Forall K (error_strings (error_kind e)) → tells K (throw (A := A) e).
Proof. by intros He c Hc. Qed.
Lemma tells_bind {A B} (m : RM A) (f : A → RM B) :
  tells K m → (∀ a, tells K (f a)) → tells K (m ≫= f).
Proof.
  intros Hm Hf c Hc. specialize (Hm c Hc) as [Hc' He]. unfold mbind, rst_bind.
  destruct (m c) as [[a|e] c']; simpl in *; [by apply Hf|done].
Qed.
Lemma tells_bytes n : tells K (consume_bytes n).
Proof. intros c Hc. unfold consume_bytes. case_match; by repeat constructor. Qed.
Lemma tells_step : tells K consume_step.
Proof. intros c Hc. unfold consume_step. case_match; by repeat constructor. Qed.
Lemma tells_record p v : tells K (record_resolved p v).
Proof. by intros c Hc. Qed.
End Tells.
#[export] Hint Resolve tells_ret tells_bytes tells_step tells_record tells_throw : overseerd.

Definition seg_in (K : string → Prop) (s : Segment) : Prop :=
  match s with SegPlaceholder p => K (key p) | SegLiteral _ => True end.

Section TellsResolve.
Context (K : string → Prop) (root : ConfigValue) (resolvers : ResolverChain).
Hypothesis Hroot : Forall K (tree_keys root).

Lemma segs_in_keys segs : Forall K (flat_map segment_keys segs) → Forall (seg_in K) segs.
Proof.
  induction segs as [|[t|p] segs IH]; simpl; [constructor|by constructor; auto|].
  rewrite Forall_cons. intros [Hp Hs]. constructor; auto.
Qed.
Lemma lookup_segments_keys v segs node :
  Forall K (tree_keys v) → lookup_segments v segs = Some node → Forall K (tree_keys node).
Proof.
  revert v. induction segs as [|seg segs IH]; intros v Hv; simpl; [by intros [= <-]|].
  destruct v as [| | | | | |entries]; try done. destruct (assoc_find seg entries) as [x|] eqn:Hx; [|done].
  apply IH. apply assoc_find_Some_in in Hx. simpl in Hv. rewrite Forall_forall in Hv |- *.
  intros k Hk. apply Hv, list_elem_of_In, in_flat_map. exists (seg, x).
  split; by apply list_elem_of_In.
Qed.

Section Step.
Variable rec : Placeholder → RM string.
Hypothesis Hrec : ∀ p, K (key p) → tells K (rec p).

Lemma render_segments_tells out segs : Forall (seg_in K) segs → tells K (render_segments rec out segs).
Proof.
  revert out. induction segs as [|[t|p] segs IH]; intros out Hs; simpl; inversion Hs; subst.
  - apply tells_ret.
  - apply tells_bind; auto with overseerd.
  - apply tells_bind; [by apply Hrec|]. intros v. apply tells_bind; auto with overseerd.
Qed.
Lemma render_node_tells node k :
  K k → Forall K (tree_keys node) → tells K (render_node_as_string rec node k).
Proof.
  intros Hk Hn. destruct node; simpl; auto with overseerd; try (apply tells_throw; by repeat constructor).
  apply render_segments_tells, segs_in_keys, Hn.
Qed.
Lemma resolve_config_path_tells k : K k → tells K (resolve_config_path root rec k).
Proof.
  intros Hk. unfold resolve_config_path. destruct (lookup_path root k) as [node|] eqn:Hl; [|apply tells_ret].
  intros c Hc. apply lookup_segments_keys in Hl; [|done].
  pose proof (render_node_tells node k Hk Hl (push_in_flight k c)) as Hn.
  destruct (render_node_as_string rec node k (push_in_flight k c)) as [r c']. simpl in *.
  destruct Hn as [Hc' He]; [by apply Forall_app; auto|].
  split; [|by destruct r]. rewrite removelast_firstn_len. by apply Forall_take.
Qed.
Lemma resolve_by_shape_tells k : K k → tells K (resolve_by_shape root resolvers rec k).
Proof.
  intros Hk. unfold resolve_by_shape, resolve_path_then_env, resolve_env_then_path.
  pose proof (resolve_config_path_tells k Hk).
  repeat case_match; auto with overseerd; apply tells_bind; auto; intros [v|]; auto with overseerd.
Qed.
Lemma resolve_step_tells p : K (key p) → tells K (resolve_placeholder_step root resolvers rec p).
Proof.
  intros Hp. unfold resolve_placeholder_step. apply tells_bind; [apply tells_step|]. intros [] c Hc.
  unfold mbind, rst_bind, get_ctx. simpl. case_match; [by repeat constructor|].
  case_bool_decide; [by repeat constructor|].
  apply (tells_bind K (resolve_by_shape root resolvers rec (key p))); [by apply resolve_by_shape_tells| |done].
  intros found. unfold finish_placeholder. destruct found as [v|], (default p) as [u|];
    try (apply tells_bind; auto with overseerd). apply tells_throw. case_match; by repeat constructor.
Qed.
End Step.

Lemma resolve_fuel_tells n p : K (key p) → tells K (resolve_fuel root resolvers n p).
Proof.
  revert p. induction n as [|n IH]; intros p Hp; simpl; [apply tells_throw; constructor|].
  by apply resolve_step_tells.
Qed.
Lemma render_str_tells s : Forall (seg_in K) (segments s) → tells K (render_str root resolvers s).
Proof. apply render_segments_tells. intros p. apply resolve_fuel_tells. Qed.
Lemma scalar_source_tells d s :
  K "full kind implies one placeholder" →
  Forall (seg_in K) (segments s) → tells K (scalar_source root resolvers d s).
Proof.
  intros Hlbl Hs. unfold scalar_source, as_full.
  destruct (kind s); try (apply tells_bind; [by apply render_str_tells|auto with overseerd]).
  assert (tells K (A := StrKind * string) (throw (de_err d (Message "full kind implies one placeholder")))).
  { apply tells_throw. unfold de_err. case_match; by repeat constructor. }
  destruct (segments s) as [|[t|p] l]; simpl; auto. inversion Hs; subst.
  apply tells_bind; [by apply resolve_fuel_tells|auto with overseerd].
Qed.
Lemma coerce_scalar_tells {A} d target (parse : string → option A) s :
  K "full kind implies one placeholder" → K target →
  Forall (seg_in K) (segments s) → tells K (coerce_scalar root resolvers d target parse s).
Proof.
  intros Hlbl Ht Hs. apply tells_bind; [by apply scalar_source_tells|]. intros [k raw].
  repeat case_match; try apply tells_ret; apply tells_throw; unfold de_err; case_match; by repeat constructor.
Qed.
End TellsResolve.

(** ** The scalar methods, by name *)

Inductive ScalarMethod := MBool | MInt (t : IntTy) | MI128 | MU128 | MF32 | MF64 | MChar | MStr.
Definition scalar_method (root : ConfigValue) (resolvers : ResolverChain) {A} (m : ScalarMethod) :
    ValueDeserializer → Visitor A → RM A :=
  match m with
  | MBool => deserialize_bool root resolvers
  | MInt t => deserialize_int root resolvers t
  | MI128 => deserialize_i128 root resolvers
  | MU128 => deserialize_u128 root resolvers
  | MF32 => deserialize_f32 root resolvers
  | MF64 => deserialize_f64 root resolvers
  | MChar => deserialize_char root resolvers
  | MStr => deserialize_str root resolvers
  end.

Definition scalar_target (m : ScalarMethod) : string :=
  match m with
  | MBool => "bool" | MInt t => int_name t | MI128 => "i128" | MU128 => "u128"
  | MF32 => "f32" | MF64 => "f64" | MChar => "char" | MStr => "string"
  end.

(** A visitor whose scalar methods accept every value they are given. *)
Record accepting {A} (v : Visitor A) : Prop := {
  accepts_bool b : ∃ a, visit_bool v b = mret a;
  accepts_int t n : ∃ a, visit_int v t n = mret a;
  accepts_f32 f : ∃ a, visit_f32 v f = mret a;
  accepts_f64 f : ∃ a, visit_f64 v f = mret a;
  accepts_char s : ∃ a, visit_char v s = mret a;
  accepts_string s : ∃ a, visit_string v s = mret a;
}.

Lemma labels_in (K : string → Prop) l : Forall K source_labels → l ∈ source_labels → K l.
Proof. rewrite Forall_forall. auto. Qed.
Ltac is_label := apply (bool_decide_unpack _); vm_compute; exact I.
Ltac label HK := apply (labels_in _ _ HK); is_label.

Lemma mismatch_tells (K : string → Prop) {A} d expected :
  Forall K source_labels → expected ∈ source_labels → tells K (throw (A := A) (mismatch d expected)).
Proof.
  intros HK He. assert (K (type_label (de_value d))) by (destruct (de_value d); label HK).
  assert (K expected) by by eapply labels_in.
  apply tells_throw. unfold mismatch, de_err. case_match; by repeat constructor.
Qed.
Lemma de_err_tells (K : string → Prop) {A} d k :
  Forall K (error_strings k) → tells K (throw (A := A) (de_err d k)).
Proof. intros Hk. apply tells_throw. unfold de_err. by case_match. Qed.
Lemma int_name_label t : int_name t ∈ source_labels.
Proof. destruct t; is_label. Qed.

Section ScalarTells.
Context (K : string → Prop) (root : ConfigValue) (resolvers : ResolverChain) (d : ValueDeserializer).
Hypothesis Hroot : Forall K (tree_keys root).
Hypothesis Hnode : Forall K (tree_keys (de_value d)).
Hypothesis Hlabels : Forall K source_labels.

Lemma coerce_tells {A} target (parse : string → option A) s :
  de_value d = CStr s → target ∈ source_labels → tells K (coerce_scalar root resolvers d target parse s).
Proof.
  intros Hs Ht. apply coerce_scalar_tells; [done|label Hlabels|by eapply labels_in|].
  apply segs_in_keys. by pose proof Hnode as H; rewrite Hs in H.
Qed.
Lemma node_render_tells s : de_value d = CStr s → tells K (render_str root resolvers s).
Proof.
  intros Hs. apply render_str_tells; [done|]. apply segs_in_keys. by pose proof Hnode as H; rewrite Hs in H.
Qed.
Lemma int_value_tells target : target ∈ source_labels → tells K (int_value root resolvers d target).
Proof.
  intros Ht. pose proof (λ s, coerce_tells (A := Z) target parse_i128 s) as Hco. unfold int_value. destruct (de_value d) eqn:Hv; auto with overseerd;
    try by apply mismatch_tells.
Qed.
Lemma float_value_tells target : target ∈ source_labels → tells K (float_value root resolvers d target).
Proof.
  intros Ht. pose proof (λ s, coerce_tells (A := f64) target f64_parse s) as Hco. unfold float_value. destruct (de_value d) eqn:Hv; auto with overseerd;
    try by apply mismatch_tells.
Qed.
Lemma scalar_method_tells {A} (v : Visitor A) m : accepting v → tells K (scalar_method root resolvers m d v).
Proof.
  intros Hv. pose proof (λ s, coerce_tells (A := bool) "bool" parse_bool s) as Hco.
  pose proof node_render_tells as Hrender. destruct m; simpl.
  - unfold deserialize_bool. destruct (de_value d) eqn:Hd; try (by apply mismatch_tells; [|is_label]).
    + destruct (accepts_bool v Hv b) as [a ->]. apply tells_ret.
    + apply tells_bind; [apply Hco; [done|apply (bool_decide_unpack _); vm_compute; exact I]|].
      intros b. destruct (accepts_bool v Hv b) as [a ->]. apply tells_ret.
  - apply tells_bind; [apply int_value_tells, int_name_label|]. intros n. case_match.
    + destruct (accepts_int v Hv t z) as [a ->]. apply tells_ret.
    + apply de_err_tells. repeat constructor. eapply labels_in; [done|apply int_name_label].
  - apply tells_bind; [apply int_value_tells, (int_name_label I128)|]. intros n.
    destruct (accepts_int v Hv I128 n) as [a ->]. apply tells_ret.
  - apply tells_bind; [apply int_value_tells, (int_name_label U128)|]. intros n. case_match.
    + destruct (accepts_int v Hv U128 z) as [a ->]. apply tells_ret.
    + apply de_err_tells. repeat constructor. label Hlabels.
  - apply tells_bind; [apply float_value_tells; is_label|].
    intros f. destruct (accepts_f32 v Hv (f32_of_f64 f)) as [a ->]. apply tells_ret.
  - apply tells_bind; [apply float_value_tells; is_label|].
    intros f. destruct (accepts_f64 v Hv f) as [a ->]. apply tells_ret.
  - unfold deserialize_char. destruct (de_value d) eqn:Hd; try (by apply mismatch_tells; [|is_label]).
    apply tells_bind; [by apply Hrender|].
    intros r. case_match.
    + destruct (accepts_char v Hv r) as [a ->]. apply tells_ret.
    + apply de_err_tells. repeat constructor. label Hlabels.
  - unfold deserialize_str. destruct (de_value d) eqn:Hd; try (by apply mismatch_tells; [|is_label]).
    apply tells_bind; [by apply Hrender|].
    intros r. destruct (accepts_string v Hv r) as [a ->]. apply tells_ret.
Qed.
End ScalarTells.

(** a failing scalar read names only what the configuration text itself
    spells out (placeholder keys) or a fixed label: no value supplied by a
    resolver, and no rendered or rejected text, ever reaches the error. *)
Theorem errors_never_hold_values {A} (root : ConfigValue) (resolvers : ResolverChain)
    (d : ValueDeserializer) (v : Visitor A) (m : ScalarMethod) (c c' : ResolveCtx) (e : TemplateError) :
  accepting v → in_flight c = [] →
  scalar_method root resolvers m d v c = (Err e, c') →
  ∀ s, s ∈ error_strings (error_kind e) →
    s ∈ source_labels ++ tree_keys root ++ tree_keys (de_value d).
Proof.
  intros Hv Hc Hrun s Hs.
  set (K := λ s, s ∈ source_labels ++ tree_keys root ++ tree_keys (de_value d)).
  assert (tells K (scalar_method root resolvers m d v)) as Ht.
  { apply scalar_method_tells; [| | |done]; apply Forall_forall; intros k Hk; unfold K; set_solver. }
  destruct (Ht c) as [_ He]; [rewrite Hc; constructor|]. rewrite Hrun in He. simpl in He.
  rewrite Forall_forall in He. by apply He.
Qed.

(** A visitor that keeps the text of what it is given. *)
Definition text_visitor : Visitor string :=
  mkVisitor (mret "") (λ b, mret (bool_to_string b)) (λ _ n, mret (int_to_string n))
    (λ f, mret (f64_to_string f)) (λ f, mret (f64_to_string f)) mret mret (mret "")
    (λ _, mret "") (λ _, mret "") (λ _, mret "") (λ _, mret "") (λ _, mret "").
Definition port_leaf : ConfigValue :=
  CStr (mkConfigStr [SegPlaceholder (mkPlaceholder "PORT" None)] KFullPlaceholder).
Lemma errors_never_hold_values_witness :
  let chain := env_default (<["PORT" := "hunter2"]> ∅) in
  let d := mkDe port_leaf "server.port" in
  let run := scalar_method port_leaf chain (MInt U16) d text_visitor ResolveCtx_new in
  run.1 = Err (At "server.port" (ParseAs "u16")) ∧
  ("u16" ∈ source_labels ++ tree_keys port_leaf ++ tree_keys (de_value d)).
Proof.
  intros chain d run. assert (run.1 = Err (At "server.port" (ParseAs "u16"))) as Hrun by (vm_compute; reflexivity).
  split; [exact Hrun|].
  apply (errors_never_hold_values port_leaf chain d text_visitor (MInt U16) ResolveCtx_new run.2
           (At "server.port" (ParseAs "u16"))).
  - split; intros; eexists; reflexivity.
  - reflexivity.
  - rewrite <- Hrun. apply surjective_pairing.
  - simpl. left.
Defined.

(** ** Integers *)

Lemma int_try_from_Some t n m : int_try_from t n = Some m ↔ m = n ∧ int_lo t ≤ n ≤ int_hi t.
Proof. unfold int_try_from. case_match; split; intros; destruct_and?; simplify_eq; try lia; done. Qed.
Lemma int_try_from_None t n : int_try_from t n = None ↔ ¬ (int_lo t ≤ n ≤ int_hi t).
Proof. unfold int_try_from. case_match; split; intros; simplify_eq; try done; lia. Qed.

(** the integer a type receives is always in that type's range: a run
    depends on the visitor only through its behaviour on representable values. *)
Theorem deserialize_int_in_range {A} (root : ConfigValue) (resolvers : ResolverChain) (t : IntTy)
    (d : ValueDeserializer) (v1 v2 : Visitor A) (c : ResolveCtx) :
  (∀ n, int_lo t ≤ n ≤ int_hi t → visit_int v1 t n = visit_int v2 t n) →
  deserialize_int root resolvers t d v1 c = deserialize_int root resolvers t d v2 c.
Proof.
  intros Hv. unfold deserialize_int, mbind, rst_bind.
  destruct (int_value root resolvers d (int_name t) c) as [[n|e] c1]; [|done].
  destruct (int_try_from t n) as [m|] eqn:Hn; [|done].
  apply int_try_from_Some in Hn as [-> Hn]. by rewrite Hv.
Qed.
Lemma deserialize_int_in_range_witness :
  let strict := mkVisitor (mret 0) (λ _, mret 0)
    (λ t n, if (int_lo t <=? n) && (n <=? int_hi t) then mret n else throw (Bare (Message "range")))
    (λ _, mret 0) (λ _, mret 0) (λ _, mret 0) (λ _, mret 0) (mret 0) (λ _, mret 0) (λ _, mret 0)
    (λ _, mret 0) (λ _, mret 0) (λ _, mret 0) in
  let lax := mkVisitor (mret 0) (λ _, mret 0) (λ _ n, mret n)
    (λ _, mret 0) (λ _, mret 0) (λ _, mret 0) (λ _, mret 0) (mret 0) (λ _, mret 0) (λ _, mret 0)
    (λ _, mret 0) (λ _, mret 0) (λ _, mret 0) in
  let chain := env_default (<["PORT" := "65535"]> ∅) in
  let run v := deserialize_int port_leaf chain U16 (mkDe port_leaf "p") v ResolveCtx_new in
  (run strict).1 = Ok 65535 ∧ run strict = run lax.
Proof.
  intros strict lax chain run. split; [vm_compute; reflexivity|].
  apply (deserialize_int_in_range port_leaf chain U16 (mkDe port_leaf "p") strict lax).
  intros n [H1 H2]. apply Z.leb_le in H1, H2. unfold strict, lax, visit_int. by rewrite H1, H2.
Defined.

(** spelling an integer as text makes no difference: a string leaf holding
    the decimal form of an [i128], and a placeholder that resolves to it, are
    narrowed and reported exactly as the integer leaf is. *)
Theorem int_spellings_agree {A} (root : ConfigValue) (resolvers : ResolverChain) (t : IntTy)
    (path : string) (v : Visitor A) (c c1 : ResolveCtx) (s : ConfigStr) (k : StrKind) (n : Z) :
  int_lo I128 ≤ n ≤ int_hi I128 →
  scalar_source root resolvers (mkDe (CStr s) path) s c = (Ok (k, int_to_string n), c1) → k ≠ KTemplated →
  deserialize_int root resolvers t (mkDe (CStr s) path) v c =
  deserialize_int root resolvers t (mkDe (CInt n) path) v c1.
Proof.
  intros Hn Hsrc Hk. unfold deserialize_int, int_value, coerce_scalar, mbind, rst_bind; simpl.
  rewrite Hsrc. rewrite bool_decide_false by done.
  replace (parse_i128 (int_to_string n)) with (Some n); [done|].
  symmetry. unfold parse_i128. by apply parse_int_to_string.
Qed.
Lemma int_spellings_agree_witness :
  let chain := env_default (<["PORT" := "70000"]> ∅) in
  let s := mkConfigStr [SegPlaceholder (mkPlaceholder "PORT" None)] KFullPlaceholder in
  let c1 := mkCtx [] 1 0 [mkResolved (mkPlaceholder "PORT" None) "70000"] in
  deserialize_int port_leaf chain U16 (mkDe (CInt 70000) "p") text_visitor c1 = (Err (At "p" (OutOfRange "u16")), c1) ∧
  deserialize_int port_leaf chain U16 (mkDe (CStr s) "p") text_visitor ResolveCtx_new =
  deserialize_int port_leaf chain U16 (mkDe (CInt 70000) "p") text_visitor c1.
Proof.
  intros chain s c1. split; [vm_compute; reflexivity|].
  apply (int_spellings_agree port_leaf chain U16 "p" text_visitor ResolveCtx_new c1 s KFullPlaceholder 70000).
  - vm_compute. split; discriminate.
  - vm_compute. reflexivity.
  - discriminate.
Defined.

(** ** Templates *)

(** a leaf mixing text and placeholders can only become a string: every
    non-string scalar method fails on it, whatever the resolvers answer. *)
Theorem templated_is_only_a_string {A} (root : ConfigValue) (resolvers : ResolverChain)
    (s : ConfigStr) (path : string) (v : Visitor A) (m : ScalarMethod) (c : ResolveCtx) :
  kind s = KTemplated → m ≠ MStr → m ≠ MChar →
  is_ok (scalar_method root resolvers m (mkDe (CStr s) path) v c).1 = false ∧
  ∀ text c1, render_str root resolvers s c = (Ok text, c1) →
    scalar_method root resolvers m (mkDe (CStr s) path) v c =
      (Err (de_err (mkDe (CStr s) path) (PartialInNonString (scalar_target m))), c1).
Proof.
  intros Hk H1 H2. destruct (render_str root resolvers s c) as [[text|e] c1] eqn:Hr.
  all: split; [|intros ?? Heq; simplify_eq].
  all: destruct m; try done; simpl; unfold deserialize_bool, deserialize_int, deserialize_i128, deserialize_u128,
      deserialize_f32, deserialize_f64, int_value, float_value, coerce_scalar, scalar_source, mbind, rst_bind;
      simpl; rewrite Hk, Hr; reflexivity.
Qed.
Lemma templated_is_only_a_string_witness :
  let s := mkConfigStr [SegLiteral "80"; SegPlaceholder (mkPlaceholder "PORT" None)] KTemplated in
  let chain := env_default (<["PORT" := "80"]> ∅) in
  is_ok (scalar_method CNull chain (MInt U16) (mkDe (CStr s) "p") text_visitor ResolveCtx_new).1 = false.
Proof.
  intros s chain.
  exact (proj1 (templated_is_only_a_string CNull chain s "p" text_visitor (MInt U16) ResolveCtx_new
    eq_refl ltac:(discriminate) ltac:(discriminate))).
Defined.

(** ** Walks

    The loops a collection visitor runs over an access, bounded by its size
    hint: a value per element, in order, until the access is exhausted. *)
Fixpoint drain_seq {A} (fuel : nat) (w : SeqWalk) (seed : Seed A) : RM (list A) :=
  match fuel with
  | O => mret []
  | S fuel' =>
      let '(element, w') := next_element_seed w seed in
      x ← element;
      match x with
      | None => mret []
      | Some a => rest ← drain_seq fuel' w' seed; mret (a :: rest)
      end
  end.
Fixpoint drain_map {A} (fuel : nat) (w : MapWalk) (seed : Seed A) : RM (list (string * A)) :=
  match fuel with
  | O => mret []
  | S fuel' =>
      k ← next_key_seed w mret;
      match k with
      | None => mret []
      | Some key =>
          match next_value_seed w seed with
          | None => mret []
          | Some (value, w') =>
              a ← value; rest ← drain_map fuel' w' seed; mret ((key, a) :: rest)
          end
      end
  end.

(** One run of the seed per child, left to right, stopping at the first error. *)
Fixpoint seed_each {A} (children : list ValueDeserializer) (seed : Seed A) : RM (list A) :=
  match children with
  | [] => mret []
  | d :: ds => a ← seed d; rest ← seed_each ds seed; mret (a :: rest)
  end.
Definition seq_children (path : string) (items : list ConfigValue) : list ValueDeserializer :=
  imap (λ i x, mkDe x (index_path path i)) items.
Definition map_children (path : string) (entries : list (string * ConfigValue)) : list ValueDeserializer :=
  (λ '(k, x), mkDe x (key_path path k)) <$> entries.

Lemma bind_ext {A B} (m : RM A) (f g : A → RM B) c : (∀ a c', f a c' = g a c') → (m ≫= f) c = (m ≫= g) c.
Proof. intros Hfg. unfold mbind, rst_bind. by destruct (m c) as [[a|e] c']. Qed.
Lemma bind_assoc {A B C} (m : RM A) (f : A → RM B) (g : B → RM C) c :
  ((m ≫= f) ≫= g) c = (m ≫= λ a, f a ≫= g) c.
Proof. unfold mbind, rst_bind. by destruct (m c) as [[a|e] c']. Qed.
Lemma ret_bind {A B} (a : A) (f : A → RM B) c : (mret a ≫= f) c = f a c.
Proof. done. Qed.

Lemma drain_seq_from {A} (seed : Seed A) path items done_items c fuel :
  (length items < fuel)%nat →
  drain_seq fuel (mkSeqWalk (done_items ++ items) (length done_items) path) seed c =
  seed_each (imap (λ i x, mkDe x (index_path path (length done_items + i))) items) seed c.
Proof.
  revert done_items c fuel. induction items as [|x items IH]; intros done_items c [|fuel] Hf; try (simpl in *; lia).
  - simpl. unfold next_element_seed; simpl. by rewrite app_nil_r, lookup_ge_None_2 by lia.
  - simpl in *. unfold next_element_seed; simpl. rewrite list_lookup_middle by done. rewrite Nat.add_0_r, bind_assoc.
    apply bind_ext. intros a c1. rewrite ret_bind.
    replace (done_items ++ x :: items) with ((done_items ++ [x]) ++ items) by by rewrite <- app_assoc.
    replace (S (length done_items)) with (length (done_items ++ [x])) by (rewrite length_app; simpl; lia).
    unfold mbind, rst_bind. rewrite IH by lia.
    erewrite (imap_ext _ _ items); [done|]. intros i y Hy. simpl. rewrite length_app. simpl. do 2 f_equal. lia.
Qed.

Lemma drain_map_from {A} (seed : Seed A) path entries done_entries c fuel :
  (length entries < fuel)%nat →
  drain_map fuel (mkMapWalk (done_entries ++ entries) (length done_entries) path) seed c =
  (values ← seed_each (map_children path entries) seed; mret (zip entries.*1 values)) c.
Proof.
  revert done_entries c fuel. induction entries as [|[k x] entries IH]; intros done_entries c [|fuel] Hf; try (simpl in *; lia).
  - simpl. unfold next_key_seed; simpl. by rewrite app_nil_r, lookup_ge_None_2 by lia.
  - simpl in *. unfold next_key_seed, next_value_seed; simpl. rewrite list_lookup_middle by done.
    rewrite bind_assoc. unfold mbind, rst_bind, mret, rst_ret at 1 2. simpl.
    destruct (seed (mkDe x (key_path path k)) c) as [[a|e] c1]; [|done].
    replace (done_entries ++ (k, x) :: entries) with ((done_entries ++ [(k, x)]) ++ entries) by by rewrite <- app_assoc.
    replace (S (length done_entries)) with (length (done_entries ++ [(k, x)])) by (rewrite length_app; simpl; lia).
    rewrite IH by lia. unfold mbind, rst_bind, mret, rst_ret.
    by destruct (seed_each (map_children path entries) seed c1) as [[vs|e] c2].
Qed.
Lemma drain_seq_all {A} (seed : Seed A) path items c :
  let w := mkSeqWalk items 0 path in
  drain_seq (S (Z.to_nat (seq_size_hint w))) w seed c = seed_each (seq_children path items) seed c.
Proof.
  intros w. unfold w, seq_size_hint, seq_children. simpl sw_items. simpl sw_index. rewrite Z.sub_0_r, Nat2Z.id.
  apply (drain_seq_from seed path items []). lia.
Qed.
Lemma drain_map_all {A} (seed : Seed A) path entries c :
  let w := mkMapWalk entries 0 path in
  drain_map (S (Z.to_nat (map_size_hint w))) w seed c =
  (values ← seed_each (map_children path entries) seed; mret (zip entries.*1 values)) c.
Proof.
  intros w. unfold w, map_size_hint. simpl mw_entries. simpl mw_index. rewrite Z.sub_0_r, Nat2Z.id.
  apply (drain_map_from seed path entries []). lia.
Qed.

(** the walks are complete and in order: draining a sequence or a table
    runs the element seed once on every child, left to right, under the path
    [p[i]] or [p.key], hands the keys out unchanged, and stops at the first error. *)
Theorem walks_visit_every_child {A} (seed : Seed A) (path : string) (items : list ConfigValue)
    (entries : list (string * ConfigValue)) (c : ResolveCtx) :
  let sw := mkSeqWalk items 0 path in
  let mw := mkMapWalk entries 0 path in
  drain_seq (S (Z.to_nat (seq_size_hint sw))) sw seed c = seed_each (seq_children path items) seed c ∧
  drain_map (S (Z.to_nat (map_size_hint mw))) mw seed c =
    (values ← seed_each (map_children path entries) seed; mret (zip entries.*1 values)) c.
Proof.
  intros sw mw. split; [apply drain_seq_all|apply drain_map_all].
Qed.

(** ** A self-describing target

    The [Deserialize] of a type that keeps whatever it is given, as
    [serde_json::Value] does: one [deserialize_any] per node. *)
Inductive Plain : Type :=
| PNull
| PBool (b : bool)
| PInt (n : Z)
| PFloat (f : f64)
| PStr (s : string)
| PSeq (items : list Plain)
| PMap (entries : list (string * Plain)).

Section ReadPlain.
Variable root : ConfigValue.
Variable resolvers : ResolverChain.
Fixpoint read_plain (fuel : nat) (d : ValueDeserializer) : RM Plain :=
  match fuel with
  | O => throw (Bare (Message "recursion limit exceeded"))
  | S fuel' =>
      deserialize_any root resolvers d
        (mkVisitor (mret PNull) (λ b, mret (PBool b)) (λ _ n, mret (PInt n)) (λ f, mret (PFloat f))
           (λ f, mret (PFloat f)) (λ s, mret (PStr s)) (λ s, mret (PStr s)) (mret PNull)
           (read_plain fuel') (read_plain fuel')
           (λ w, xs ← drain_seq (S (Z.to_nat (seq_size_hint w))) w (read_plain fuel'); mret (PSeq xs))
           (λ w, xs ← drain_map (S (Z.to_nat (map_size_hint w))) w (read_plain fuel'); mret (PMap xs))
           (λ _, throw (Bare (Message "invalid type: enum"))))
  end.
End ReadPlain.

Definition literal_text (s : ConfigStr) : string :=
  foldr (λ seg acc, match seg with SegLiteral t => t +:+ acc | SegPlaceholder _ => acc end) "" (segments s).
Fixpoint plain_of (v : ConfigValue) : Plain :=
  match v with
  | CNull => PNull
  | CBool b => PBool b
  | CInt n => PInt n
  | CFloat f => PFloat f
  | CStr s => PStr (literal_text s)
  | CArray items => PSeq (map plain_of items)
  | CTable entries => PMap (map (λ '(k, x), (k, plain_of x)) entries)
  end.
(** The text a tree renders, and its nesting depth. *)
Fixpoint tree_bytes (v : ConfigValue) : Z :=
  match v with
  | CStr s => str_len (literal_text s)
  | CArray items => foldr (λ x acc, tree_bytes x + acc) 0 items
  | CTable entries => foldr (λ '(_, x) acc, tree_bytes x + acc) 0 entries
  | _ => 0
  end.
Fixpoint tree_depth (v : ConfigValue) : nat :=
  match v with
  | CArray items => S (foldr (λ x acc, Nat.max (tree_depth x) acc) 0%nat items)
  | CTable entries => S (foldr (λ '(_, x) acc, Nat.max (tree_depth x) acc) 0%nat entries)
  | _ => 1
  end.

Definition add_bytes (n : Z) (c : ResolveCtx) : ResolveCtx :=
  mkCtx (in_flight c) (resolution_steps c) (rendered_bytes c + n) (resolved_dependencies c).
Definition fits (n : Z) (c : ResolveCtx) : Prop := rendered_bytes c + n ≤ MAX_DESERIALIZATION_RENDERED_BYTES.

Lemma add_bytes_add n m c : add_bytes m (add_bytes n c) = add_bytes (n + m) c.
Proof. unfold add_bytes. simpl. f_equal. lia. Qed.
Lemma add_bytes_0 c : add_bytes 0 c = c.
Proof. destruct c. unfold add_bytes. simpl. by rewrite Z.add_0_r. Qed.
Lemma consume_bytes_fits n c : fits n c → consume_bytes n c = (Ok tt, add_bytes n c).
Proof.
  unfold fits, consume_bytes, MAX_DESERIALIZATION_RENDERED_BYTES. intros Hf.
  assert (usize_saturating_add (rendered_bytes c) n = rendered_bytes c + n) as ->
    by (unfold usize_saturating_add, usize_max; lia).
  by rewrite (proj2 (Z.ltb_ge _ _)) by lia.
Qed.
Lemma tree_bytes_nonneg v : 0 ≤ tree_bytes v.
Proof.
  induction v as [| | | |s|items IH|entries IH] using ConfigValue_nested_ind; simpl; try lia; [apply str_len_nonneg| |].
  - induction IH; simpl; lia.
  - induction IH as [|[k x] l]; simpl in *; lia.
Qed.

#[local] Arguments drain_seq : simpl never.
#[local] Arguments drain_map : simpl never.
Section ReadPlainLiteral.
Variable root : ConfigValue.
Variable resolvers : ResolverChain.

Lemma render_literal rec segs out c :
  flat_map segment_keys segs = [] → fits (str_len (literal_text (mkConfigStr segs KLiteral))) c →
  render_segments rec out segs c =
  (Ok (out +:+ literal_text (mkConfigStr segs KLiteral)),
   add_bytes (str_len (literal_text (mkConfigStr segs KLiteral))) c).
Proof.
  revert out c. induction segs as [|[t|p] segs IH]; intros out c Hk Hf; simpl in *; [|..|done].
  - by rewrite str_app_nil_r, add_bytes_0.
  - unfold literal_text in *; simpl in *. rewrite str_len_app in Hf |- *.
    set (rest := foldr _ "" segs) in *. pose proof (str_len_nonneg rest).
    unfold mbind, rst_bind. rewrite consume_bytes_fits by (unfold fits in *; lia).
    rewrite IH; [|done|unfold fits in *; simpl; lia]. by rewrite str_app_assoc, add_bytes_add.
Qed.

(** What reading one node does when everything below it is literal. *)
Definition reads_plain (fuel : nat) (v : ConfigValue) : Prop := ∀ path c,
  fits (tree_bytes v) c →
  read_plain root resolvers fuel (mkDe v path) c = (Ok (plain_of v), add_bytes (tree_bytes v) c).

Definition bytes_of (vs : list ConfigValue) : Z := foldr (λ x acc, tree_bytes x + acc) 0 vs.
Lemma bytes_of_nonneg vs : 0 ≤ bytes_of vs.
Proof. induction vs as [|x vs IH]; simpl; [lia|]. pose proof (tree_bytes_nonneg x). lia. Qed.

Lemma seed_each_plain fuel ds vs c :
  de_value <$> ds = vs → Forall (reads_plain fuel) vs → fits (bytes_of vs) c →
  seed_each ds (read_plain root resolvers fuel) c = (Ok (map plain_of vs), add_bytes (bytes_of vs) c).
Proof.
  intros <-. revert c. induction ds as [|[x p] ds IH]; intros c Hall Hf.
  - simpl. by rewrite add_bytes_0.
  - change (bytes_of (de_value <$> mkDe x p :: ds)) with (tree_bytes x + bytes_of (de_value <$> ds)) in *. simpl.
    inversion Hall as [|?? Hx Hrest]; subst. pose proof (bytes_of_nonneg (de_value <$> ds)).
    unfold mbind, rst_bind. rewrite Hx by (unfold fits in *; lia).
    rewrite IH; [|done|unfold fits in *; simpl; lia]. by rewrite add_bytes_add.
Qed.

Lemma read_children fuel (vs : list ConfigValue) :
  Forall (λ v, ∀ fuel, (tree_depth v ≤ fuel)%nat → tree_keys v = [] → reads_plain fuel v) vs →
  (foldr (λ x acc, Nat.max (tree_depth x) acc) 0 vs ≤ fuel)%nat → flat_map tree_keys vs = [] →
  Forall (reads_plain fuel) vs.
Proof.
  induction 1 as [|x vs Hx Hvs IH]; simpl; [constructor|]. intros Hd [Hk1 Hk2]%app_eq_nil.
  constructor; [apply Hx; [lia|done]|apply IH; [lia|done]].
Qed.

Lemma zip_plain (entries : list (string * ConfigValue)) :
  zip entries.*1 (map plain_of entries.*2) = map (λ '(k, x), (k, plain_of x)) entries.
Proof. induction entries as [|[k x] l IH]; [done|]. simpl. f_equal. apply IH. Qed.
Lemma read_plain_literal v fuel : (tree_depth v ≤ fuel)%nat → tree_keys v = [] → reads_plain fuel v.
Proof.
  revert fuel. induction v as [| |n| |s|items IH|entries IH] using ConfigValue_nested_ind;
    intros [|fuel] Hd Hk path c Hf; try (simpl in Hd; lia); simpl in *; unfold deserialize_any; simpl;
    try by rewrite add_bytes_0.
  - rewrite add_bytes_0. destruct (int_try_from I64 n) eqn:Hn; [|done]. by apply int_try_from_Some in Hn as [-> _].
  - destruct s as [segs k]. unfold render_str, render_str_with, mbind, rst_bind. simpl.
    by rewrite render_literal.
  - unfold deserialize_seq. simpl. unfold mbind, rst_bind. rewrite drain_seq_all.
    rewrite (seed_each_plain fuel _ items); [done| |by apply read_children; [|lia|]|done].
    unfold seq_children. rewrite fmap_imap. apply list_eq. intros i. rewrite list_lookup_imap. by destruct (items !! i).
  - assert (foldr (λ '(_, x) acc, tree_bytes x + acc) 0 entries = bytes_of entries.*2) as Hb
      by (clear; induction entries as [|[k x] l IH]; simpl; [done|by rewrite IH]).
    assert (foldr (λ '(_, x) acc, Nat.max (tree_depth x) acc) 0%nat entries =
            foldr (λ x acc, Nat.max (tree_depth x) acc) 0%nat entries.*2) as Hdep
      by (clear; induction entries as [|[k x] l IH]; simpl; [done|by rewrite IH]).
    assert (flat_map (λ '(_, x), tree_keys x) entries = flat_map tree_keys entries.*2) as Hkeys
      by (clear; induction entries as [|[k x] l IH]; simpl; [done|by rewrite IH]).
    rewrite Hb in *. rewrite Hdep in Hd. rewrite Hkeys in Hk.
    unfold deserialize_map. simpl. unfold mbind, rst_bind. rewrite drain_map_all. unfold mbind, rst_bind.
    rewrite (seed_each_plain fuel _ entries.*2); [| |by apply read_children; [by apply Forall_fmap| lia|]|done].
    + unfold mret, rst_ret. rewrite zip_plain. done.
    + unfold map_children. rewrite <- list_fmap_compose. apply list_fmap_ext. by intros i [k x].
Qed.
End ReadPlainLiteral.

(** what is written is what is read: a tree without placeholders, whose
    text fits the render budget, deserializes into a self-describing target as
    the same tree, touching no resolver and recording no dependency. *)
Theorem plain_tree_roundtrip (root value : ConfigValue) (resolvers : ResolverChain) (fuel : nat) :
  tree_keys value = [] → tree_bytes value ≤ MAX_DESERIALIZATION_RENDERED_BYTES →
  (tree_depth value ≤ fuel)%nat →
  from_value_in_with_dependencies root value resolvers (λ r ch, read_plain r ch fuel) = Ok (plain_of value, []).
Proof.
  intros Hk Hb Hd. unfold from_value_in_with_dependencies.
  by rewrite (read_plain_literal root resolvers value fuel Hd Hk "" ResolveCtx_new) by (unfold fits; simpl; lia).
Qed.
Lemma plain_tree_roundtrip_witness :
  let v := CTable [("name", CStr (mkConfigStr [SegLiteral "api"] KLiteral));
                   ("ports", CArray [CInt 80; CInt 443; CNull])] in
  from_value_in_with_dependencies CNull v [] (λ r ch, read_plain r ch 3) =
  Ok (PMap [("name", PStr "api"); ("ports", PSeq [PInt 80; PInt 443; PNull])], []).
Proof.
  intros v. apply (plain_tree_roundtrip CNull v [] 3).
  - reflexivity.
  - vm_compute. discriminate.
  - vm_compute. lia.
Defined.
