(* ===== verification/CoreTypes.v ===== *)
(** * CoreTypes: the shared vocabulary of the core crate

    Models [crates/core/src/types.rs], [dependency.rs], [scope.rs] and
    [resolver.rs]: type descriptors, dependency edges, lifetime scopes and the
    type-keyed resolver set. A [TypeId] is an opaque number that identifies a
    type; equality is the only operation on it. *)
From S2P Require Import Prelude.

Abbreviation TypeId := Z.

(** [type_name] is the result of [std::any::type_name]. *)
Record TypeDescriptor := mkType { ty_name : string; type_name : string; type_id : TypeId }.
#[export] Instance TypeDescriptor_eq_dec : EqDecision TypeDescriptor.
Proof. solve_decision. Defined.

Inductive Cardinality := One | Collection | Keyed.
#[export] Instance Cardinality_eq_dec : EqDecision Cardinality.
Proof. solve_decision. Defined.
Inductive ResolutionMode := Eager | Deferred | Lazy | Fresh.
#[export] Instance ResolutionMode_eq_dec : EqDecision ResolutionMode.
Proof. solve_decision. Defined.

(** [Cardinality::requires_provider] *)
Definition requires_provider (c : Cardinality) : bool := bool_decide (c = One).

Record DependencyDescriptor := mkDep {
  dep_name : string;
  dep_ty : TypeDescriptor;
  cardinality : Cardinality;
  optional : bool;
  dynamic : bool;
  qualifier : option string;
  config : bool;
  resolution : ResolutionMode;
}.

(** ** Scopes *)

Record Scope := mkScope { rank : Z; scope_name : string; is_transient : bool }.
#[export] Instance Scope_eq_dec : EqDecision Scope.
Proof. solve_decision. Defined.
Definition Singleton : Scope := mkScope (u_max 8) "Singleton" false.
Definition Transient : Scope := mkScope 0 "Transient" true.
(** A [u8] rank. *)
Definition scope_ok (s : Scope) : Prop := 0 ≤ rank s ≤ u_max 8.

(** ** Resolver sets

    [Arc<dyn Any>] values of erased type, keyed by the concrete type they were
    registered under. Cloning shares the map until a clone is written to. *)
Record Erased (V : Type) := mkErased { erased_type : TypeId; erased : V }.
Arguments mkErased {V}. Arguments erased_type {V}. Arguments erased {V}.

Abbreviation ResolverSet V := (gmap TypeId (Erased V)).
Section ResolverSet.
Context {V : Type}.
Definition resolver_set_insert (R : TypeId) (v : V) (s : ResolverSet V) : ResolverSet V :=
  <[R := mkErased R v]> s.
Definition resolver (s : ResolverSet V) (kind : TypeId) : option (Erased V) := s !! kind.
(** [downcast]: succeeds on a value stored under its own type only. *)
Definition downcast (R : TypeId) (e : Erased V) : option V :=
  if erased_type e =? R then Some (erased e) else None.
Definition get_arc (R : TypeId) (s : ResolverSet V) : option V := e ← s !! R; downcast R e.
Definition get_resolver (R : TypeId) (s : ResolverSet V) : option V := e ← resolver s R; downcast R e.

Lemma get_resolver_insert R v s R' :
  get_resolver R' (resolver_set_insert R v s) = if decide (R = R') then Some v else get_resolver R' s.
Proof.
  unfold get_resolver, resolver, resolver_set_insert. case_decide as H.
  - subst. rewrite lookup_insert_eq. unfold downcast. simpl. by rewrite Z.eqb_refl.
  - by rewrite lookup_insert_ne.
Qed.
End ResolverSet.
