(* ===== verification/Hooks.v ===== *)
(** * Hooks: registered hooks and the two ways of running them

    Models [crates/hooks/src/lib.rs] and [error.rs]. The body of a hook is
    generated or application code: a function from the state of the world and
    the erased kind context to how the call ended. [run_until_error] threads
    that state in registration order; [run] polls its hooks concurrently with
    [join_all], so its model takes the order in which they take effect. *)
From S2P Require Import Prelude CoreTypes.

Inductive HookError : Type :=
| MissingReceiver (name : string)
| MissingParam (name : string)
| HookPanicked (hook component : string)
| InvalidOutput (hook component : string)
| HookOther (msg : string).

Section Hooks.
(** The application's state, the erased context of an event, and erased boxes. *)
Context {World Cx Any : Type}.

(** How an erased call ends: a panic while building or polling the future, an
    error, or a boxed value. *)
Inductive CallOutcome : Type :=
| CallPanicked
| CallErr (e : HookError)
| CallOk (boxed : Any).

Record HookDescriptor := mkHook {
  ordinal : Z;
  component_ty : TypeDescriptor;
  kind_ty : TypeId;
  hook_dependencies : list DependencyDescriptor;
  hook_call : World → Cx → CallOutcome * World;
}.

(** [HookKind]: its type, its name, and the downcast to its [Output]. *)
Record HookKind (Output : Type) := mkKind {
  hook_kind : TypeId;
  hook_kind_name : string;
  hook_downcast : Any → option Output;
}.
Arguments hook_kind {Output}. Arguments hook_kind_name {Output}. Arguments hook_downcast {Output}.

(** [HookManagerInner]; the attached resolver context is part of [World]. *)
Record HookManager := mkHooks { attached : bool; by_kind : gmap TypeId (list HookDescriptor) }.

Definition HookManager_new (hooks : list HookDescriptor) : HookManager :=
  mkHooks false (foldl (λ m h, <[kind_ty h := from_option id [] (m !! kind_ty h) ++ [h]]> m) ∅ hooks).
Definition attach (m : HookManager) : HookManager := mkHooks true (by_kind m).

Section Kind.
Context {Output : Type} (K : HookKind Output).

Definition has (m : HookManager) : bool := bool_decide (is_Some (by_kind m !! hook_kind K)).

(** [invoke_hook]: panics are caught and reported without their payload. *)
Definition invoke_outcome (hook : HookDescriptor) (o : CallOutcome) : result Output HookError :=
  match o with
  | CallPanicked => Err (HookPanicked (hook_kind_name K) (ty_name (component_ty hook)))
  | CallErr e => Err e
  | CallOk boxed =>
      match hook_downcast K boxed with
      | Some out => Ok out
      | None => Err (InvalidOutput (hook_kind_name K) (ty_name (component_ty hook)))
      end
  end.
Definition invoke_hook (hook : HookDescriptor) (w : World) (cx : Cx) : result Output HookError * World :=
  let '(o, w') := hook_call hook w cx in (invoke_outcome hook o, w').

Abbreviation Outcomes := (list (TypeDescriptor * result Output HookError)).

(** The loop of [run_until_error]. *)
Fixpoint run_seq (hooks : list HookDescriptor) (w : World) (cx : Cx) : Outcomes * World :=
  match hooks with
  | [] => ([], w)
  | hook :: hooks' =>
      let '(outcome, w1) := invoke_hook hook w cx in
      if is_ok outcome then
        let '(rest, w2) := run_seq hooks' w1 cx in ((component_ty hook, outcome) :: rest, w2)
      else ([(component_ty hook, outcome)], w1)
  end.

(** [None] is the panic of [expect] on an unattached manager. *)
Definition run_until_error (m : HookManager) (filter : HookDescriptor → bool) (cx : Cx) (w : World) :
    option (Outcomes * World) :=
  match by_kind m !! hook_kind K with
  | None => Some ([], w)
  | Some bucket =>
      if attached m then Some (run_seq (List.filter filter bucket) w cx) else None
  end.

(** The effects of a set of hooks, taken one whole hook at a time in the order
    [schedule] (a permutation of the indices), and the outcome at each index. *)
Fixpoint run_schedule (hooks : list HookDescriptor) (schedule : list nat) (w : World) (cx : Cx)
    (acc : gmap nat (result Output HookError)) : gmap nat (result Output HookError) * World :=
  match schedule with
  | [] => (acc, w)
  | i :: schedule' =>
      match hooks !! i with
      | None => run_schedule hooks schedule' w cx acc
      | Some hook =>
          let '(outcome, w') := invoke_hook hook w cx in
          run_schedule hooks schedule' w' cx (<[i := outcome]> acc)
      end
  end.
(** [join_all] returns the outcomes in registration order. *)
Definition collect_outcomes (hooks : list HookDescriptor) (acc : gmap nat (result Output HookError)) : Outcomes :=
  omap (λ '(i, hook), o ← acc !! i; Some (component_ty hook, o)) (imap pair hooks).

Definition run (m : HookManager) (filter : HookDescriptor → bool) (schedule : list nat) (cx : Cx) (w : World) :
    option (Outcomes * World) :=
  match by_kind m !! hook_kind K with
  | None => Some ([], w)
  | Some bucket =>
      if attached m then
        let hooks := List.filter filter bucket in
        let '(acc, w') := run_schedule hooks schedule w cx ∅ in
        Some (collect_outcomes hooks acc, w')
      else None
  end.

(** [component_has] *)
Definition component_has (m : HookManager) (component : TypeId) : bool :=
  match by_kind m !! hook_kind K with
  | None => false
  | Some hooks => existsb (λ h, type_id (component_ty h) =? component) hooks
  end.
End Kind.
End Hooks.
Arguments CallOutcome : clear implicits.
Arguments HookDescriptor : clear implicits.
Arguments HookManager : clear implicits.
Arguments HookKind : clear implicits.
Arguments hook_kind {Any Output}.
Arguments hook_kind_name {Any Output}.
Arguments hook_downcast {Any Output}.
Arguments mkKind {Any Output}.

(** ** Registration *)

Section HookFacts.
Context {World Cx Any : Type}.
Abbreviation Descriptor := (HookDescriptor World Cx Any).
Abbreviation Manager := (HookManager World Cx Any).

Lemma by_kind_fold (hooks : list Descriptor) (m : gmap TypeId (list Descriptor)) K :
  from_option id [] (foldl (λ m h, <[kind_ty h := from_option id [] (m !! kind_ty h) ++ [h]]> m) m hooks !! K) =
  from_option id [] (m !! K) ++ List.filter (λ h, kind_ty h =? K) hooks.
Proof.
  revert m. induction hooks as [|h hooks IH]; intros m; simpl; [by rewrite app_nil_r|].
  rewrite IH. destruct (decide (kind_ty h = K)) as [Hk|Hk].
  - rewrite Hk, lookup_insert_eq, Z.eqb_refl. simpl. by rewrite <- app_assoc.
  - rewrite lookup_insert_ne by done. by rewrite (proj2 (Z.eqb_neq _ _) Hk).
Qed.
Lemma bucket_of (hooks : list Descriptor) K :
  from_option id [] (by_kind (HookManager_new hooks) !! K) = List.filter (λ h, kind_ty h =? K) hooks.
Proof. unfold HookManager_new. simpl. by rewrite by_kind_fold, lookup_empty. Qed.

Section RunFacts.
Context {Output : Type} (K : HookKind Any Output).

Definition succeeded (o : TypeDescriptor * result Output HookError) : bool := is_ok o.2.
Definition world_after (hooks : list Descriptor) (cx : Cx) (w : World) : World :=
  foldl (λ w h, (hook_call h w cx).2) w hooks.

(** Exactly a prefix of the hooks ran: all but its last succeeded, and it is the
    whole list unless its last failed. *)
Lemma run_seq_prefix (hooks : list Descriptor) w cx outcomes w' :
  run_seq K hooks w cx = (outcomes, w') →
  ∃ n, (n ≤ length hooks)%nat ∧ outcomes.*1 = component_ty <$> take n hooks ∧
    w' = world_after (take n hooks) cx w ∧
    forallb succeeded (removelast outcomes) = true ∧
    (if forallb succeeded outcomes then n = length hooks else True).
Proof.
  revert w outcomes w'. induction hooks as [|hook hooks IH]; intros w outcomes w'; simpl.
  - intros [= <- <-]. by exists 0%nat.
  - unfold invoke_hook. destruct (hook_call hook w cx) as [o w1] eqn:Hcall.
    destruct (invoke_outcome K hook o) as [out|e]; simpl.
    + destruct (run_seq K hooks w1 cx) as [rest w2] eqn:Hr. intros [= <- <-].
      destruct (IH _ _ _ Hr) as (n & Hle & Hn & Hw & Hok & Hall). exists (S n). simpl.
      rewrite Hcall. split; [lia|]. split; [by f_equal|]. split; [done|]. split.
      * by destruct rest.
      * destruct (forallb succeeded rest); [by f_equal|done].
    + intros [= <- <-]. exists 1%nat. simpl. rewrite Hcall. repeat split. lia.
Qed.

(** sequential hooks stop at the first failure: [run_until_error] runs a
    prefix of the matching hooks in registration order, every one of them but
    the last succeeds, and a hook after a failed one has no effect at all. *)
Theorem run_until_error_prefix (hooks : list Descriptor) (filter : Descriptor → bool) (cx : Cx)
    (w w' : World) (outcomes : list (TypeDescriptor * result Output HookError)) :
  run_until_error K (attach (HookManager_new hooks)) filter cx w = Some (outcomes, w') →
  let matching := List.filter filter (List.filter (λ h, kind_ty h =? hook_kind K) hooks) in
  ∃ n, (n ≤ length matching)%nat ∧ outcomes.*1 = component_ty <$> take n matching ∧
    w' = world_after (take n matching) cx w ∧
    forallb succeeded (removelast outcomes) = true ∧
    (forallb succeeded outcomes = true → n = length matching).
Proof.
  intros Hrun matching. unfold matching. rewrite <- bucket_of. unfold run_until_error in Hrun. simpl in *.
  destruct (_ !! hook_kind K) as [bucket|] eqn:Hb; simpl in *.
  - injection Hrun as Hrun. destruct (run_seq_prefix _ _ _ _ _ Hrun) as (n & ? & ? & ? & ? & Hall).
    exists n. repeat split; try done. intros Hs. by rewrite Hs in Hall.
  - simplify_eq. by exists 0%nat.
Qed.

(** ** Concurrent runs *)

(** A hook whose outcome does not depend on the other hooks' effects. *)
Definition independent (cx : Cx) (h : Descriptor) : Prop := ∀ w1 w2, (hook_call h w1 cx).1 = (hook_call h w2 cx).1.

Lemma run_schedule_lookup (hooks : list Descriptor) schedule w w0 cx acc i h :
  Forall (independent cx) hooks → hooks !! i = Some h →
  (i ∈ schedule ∨ acc !! i = Some (invoke_outcome K h (hook_call h w0 cx).1)) →
  (run_schedule K hooks schedule w cx acc).1 !! i = Some (invoke_outcome K h (hook_call h w0 cx).1).
Proof.
  intros Hind Hi. revert w acc. induction schedule as [|j schedule IH]; intros w acc Hor; simpl.
  - destruct Hor as [Hin|Hor]; [by apply not_elem_of_nil in Hin|done].
  - destruct (decide (i = j)) as [->|Hne].
    + rewrite Hi. unfold invoke_hook. destruct (hook_call h w cx) as [o w1] eqn:Hcall. apply IH. right.
      rewrite lookup_insert_eq. do 2 f_equal. change o with (o, w1).1. rewrite <- Hcall.
      rewrite Forall_forall in Hind. apply Hind. by eapply list_elem_of_lookup_2.
    + assert (i ∈ schedule ∨ acc !! i = Some (invoke_outcome K h (hook_call h w0 cx).1)) as Hor' by set_solver.
      destruct (hooks !! j) as [hj|]; [|by apply IH].
      unfold invoke_hook. destruct (hook_call hj w cx) as [o w1]. apply IH. by rewrite lookup_insert_ne.
Qed.
Lemma collect_outcomes_all (hooks : list Descriptor) (f : Descriptor → result Output HookError)
    (acc : gmap nat (result Output HookError)) :
  (∀ i h, hooks !! i = Some h → acc !! i = Some (f h)) →
  collect_outcomes hooks acc = (λ h, (component_ty h, f h)) <$> hooks.
Proof.
  unfold collect_outcomes. revert acc. induction hooks as [|h hooks IH] using rev_ind; intros acc Hacc; [done|].
  rewrite imap_app, omap_app, fmap_app. rewrite IH.
  - simpl. rewrite Nat.add_0_r, (Hacc (length hooks) h) by by rewrite list_lookup_middle. done.
  - intros i h' Hi. apply Hacc. by apply lookup_app_l_Some.
Qed.

(** concurrent hooks report in registration order: whatever order their
    effects are taken in, [run] returns one outcome per matching hook, in the
    order the hooks were registered. *)
Theorem run_reports_in_order (hooks : list Descriptor) (filter : Descriptor → bool) (schedule : list nat)
    (cx : Cx) (w : World) :
  let matching := List.filter filter (List.filter (λ h, kind_ty h =? hook_kind K) hooks) in
  Forall (independent cx) matching → schedule ≡ₚ seq 0 (length matching) →
  ∃ w', run K (attach (HookManager_new hooks)) filter schedule cx w =
    Some ((λ h, (component_ty h, invoke_outcome K h (hook_call h w cx).1)) <$> matching, w').
Proof.
  intros matching Hind Hperm. unfold run. simpl.
  assert (matching = List.filter filter (from_option id [] (by_kind (HookManager_new hooks) !! hook_kind K))) as Hm
    by by rewrite bucket_of.
  unfold HookManager_new in Hm at 1. simpl in Hm.
  destruct (_ !! hook_kind K) as [bucket|] eqn:Hb; simpl in Hm; [|exists w; by rewrite Hm].
  rewrite <- Hm. destruct (run_schedule K matching schedule w cx ∅) as [acc w'] eqn:Hr. exists w'. do 2 f_equal.
  apply collect_outcomes_all. intros i h Hi. change acc with (acc, w').1. rewrite <- Hr.
  apply run_schedule_lookup; [done..|]. left. rewrite Hperm. apply elem_of_seq. apply lookup_lt_Some in Hi. lia.
Qed.
End RunFacts.
End HookFacts.

(** ** A traced instance *)

Section Sample.
Definition sample_kind : HookKind Z Z := mkKind 7 "startup" (λ z, if z <? 0 then None else Some z).
Definition sample_hook (name : string) (o : CallOutcome Z) : HookDescriptor (list string) unit Z :=
  mkHook 0 (mkType name name 1) 7 [] (λ trace _, (o, trace ++ [name])).
Definition sample_hooks : list (HookDescriptor (list string) unit Z) :=
  [sample_hook "a" (CallOk 1); sample_hook "b" CallPanicked; sample_hook "c" (CallOk 3)].
End Sample.

Lemma run_until_error_prefix_witness :
  ∃ outcomes, run_until_error sample_kind (attach (HookManager_new sample_hooks)) (λ _, true) () [] =
    Some (outcomes, ["a"; "b"]) ∧
  ∃ n, (n ≤ 3)%nat ∧ outcomes.*1 = component_ty <$> take n sample_hooks.
Proof.
  eexists. split; [vm_compute; reflexivity|].
  edestruct (run_until_error_prefix sample_kind sample_hooks (λ _, true) () [] ["a"; "b"]) as (n & Hn & Ho & _);
    [vm_compute; reflexivity|]. exists n. split; [exact Hn|exact Ho].
Defined.
Lemma run_reports_in_order_witness :
  ∃ w', run sample_kind (attach (HookManager_new sample_hooks)) (λ _, true) [2; 0; 1]%nat () [] =
    Some ([(mkType "a" "a" 1, Ok 1); (mkType "b" "b" 1, Err (HookPanicked "startup" "b")); (mkType "c" "c" 1, Ok 3)], w').
Proof.
  apply (run_reports_in_order sample_kind sample_hooks (λ _, true) [2; 0; 1]%nat () []).
  - repeat constructor; intros ??; reflexivity.
  - apply (bool_decide_unpack _). vm_compute. exact I.
Defined.
