(* ===== verification/ConfigManager.v ===== *)
(** * ConfigManager: bindings, seeding, typed reads and snapshots

    Models the manager half of [crates/config/src/managed/source.rs], the
    bindings of [managed/mod.rs] and the store of [managed/store.rs]. The
    process environment, the file system and the third-party parsers are
    arguments; a config type is its descriptor, its defaults and its
    [Deserialize], which yields [None] when the type's own code panics. *)
From S2P Require Import Prelude F64 ConfigValue ConfigResolve ConfigDefaults ConfigSource ConfigDe CoreTypes.

Record ReloadTriggers := mkTriggers { sighup : bool; watch : bool; debounce_ms : Z }.
Definition ReloadTriggers_default : ReloadTriggers := mkTriggers false false 250.

(** A bound seed: the value's cell, by type and path. *)
Abbreviation ConfigStore := (gmap TypeId (gmap string nat)).

Section Manager.
(** Values of every config type, erased. *)
Context {Value : Type}.

(** [ConfigProperties], as a value. *)
Record ConfigType := mkConfigType {
  ct_ty : TypeDescriptor;
  ct_defaults : DefaultSpec;
  ct_deserialize : Deserialize (option Value);
}.
(** [ConfigBinding], and its link-time form [ConfigBindingDescriptor]. *)
Record ConfigBinding := mkBinding { cb_type : ConfigType; cb_path : string }.

Record ConfigManager := mkManager {
  cm_root : ConfigValue;
  cm_resolvers : ResolverChain;
  cm_format : FormatId;
  cm_sources : list string;
  cm_bindings : list ConfigBinding;
  cm_triggers : ReloadTriggers;
}.
Record ConfigSnapshot := mkSnapshot { snap_raw : option ConfigValue; snap_resolved : list ResolvedDependency }.

(** The chain consulted while the environment is [vars]: the environment
    resolver that [wrap] installs, then the registered ones. *)
Definition resolvers (m : ConfigManager) (vars : gmap string string) : ResolverChain :=
  env_default vars ++ cm_resolvers m.

Definition wrap (format : FormatId) (root : ConfigValue) (sources : list string) : ConfigManager :=
  mkManager root [] format sources [] ReloadTriggers_default.
Definition empty (format : FormatId) : ConfigManager := wrap format (CTable []) [].

Definition set_root (root : ConfigValue) (m : ConfigManager) : ConfigManager :=
  mkManager root (cm_resolvers m) (cm_format m) (cm_sources m) (cm_bindings m) (cm_triggers m).
Definition set_triggers (f : ReloadTriggers → ReloadTriggers) (m : ConfigManager) : ConfigManager :=
  mkManager (cm_root m) (cm_resolvers m) (cm_format m) (cm_sources m) (cm_bindings m) (f (cm_triggers m)).

Definition with_resolver (r : DynResolver) (m : ConfigManager) : ConfigManager :=
  mkManager (cm_root m) (cm_resolvers m ++ [r]) (cm_format m) (cm_sources m) (cm_bindings m) (cm_triggers m).
Definition reload_on_sighup : ConfigManager → ConfigManager :=
  set_triggers (λ t, mkTriggers true (watch t) (debounce_ms t)).
Definition watch_config : ConfigManager → ConfigManager :=
  set_triggers (λ t, mkTriggers (sighup t) true (debounce_ms t)).
Definition config_reload_debounce (d : Z) : ConfigManager → ConfigManager :=
  set_triggers (λ t, mkTriggers (sighup t) (watch t) d).
Definition contains (m : ConfigManager) (path : string) : bool :=
  bool_decide (is_Some (get_path (cm_root m) path)).

(** ** Typed reads *)

Definition get (m : ConfigManager) (vars : gmap string string) {A} (de : Deserialize A) (path : string) :
    result A ConfigError :=
  match get_path (cm_root m) path with
  | None => Err (ConfigMissingPath path)
  | Some subtree => map_err (ConfigSubstitution path) (from_value_in (cm_root m) subtree (resolvers m vars) de)
  end.

(** The subtree a binding reads: the node at [path], or an empty table for an
    absent path whose type declares defaults. *)
Definition binding_subtree (T : ConfigType) (base : ConfigValue) (path : string) : option ConfigValue :=
  match get_path base path with
  | Some node => Some node
  | None => if is_none (ct_defaults T) then None else Some (CTable [])
  end.
(** The root a binding resolves against: [base] with the filled subtree placed. *)
Definition place (base : ConfigValue) (path : string) (subtree : ConfigValue) : ConfigValue :=
  (ensure_path_mut (λ _, ((), subtree)) path base).2.

Definition get_config_in_with_snapshot (m : ConfigManager) (vars : gmap string string) (T : ConfigType)
    (base : ConfigValue) (path : string) : result (option Value * ConfigSnapshot) ConfigError :=
  match binding_subtree T base path with
  | None => Err (ConfigMissingPath path)
  | Some subtree0 =>
      match fill_missing (ct_defaults T) subtree0 with
      | (Err source, _) => Err (ConfigSubstitution path source)
      | (Ok _, subtree) =>
          match from_value_in_with_dependencies (place base path subtree) subtree (resolvers m vars) (ct_deserialize T) with
          | Err source => Err (ConfigSubstitution path source)
          | Ok (value, resolved) => Ok (value, mkSnapshot (get_path base path) resolved)
          end
      end
  end.
Definition get_config_with_snapshot (m : ConfigManager) (vars : gmap string string) (T : ConfigType) (path : string) :=
  get_config_in_with_snapshot m vars T (cm_root m) path.
Definition get_config_in (m : ConfigManager) (vars : gmap string string) (T : ConfigType)
    (base : ConfigValue) (path : string) : result (option Value) ConfigError :=
  result_map fst (get_config_in_with_snapshot m vars T base path).
Definition get_config (m : ConfigManager) (vars : gmap string string) (T : ConfigType) (path : string) :=
  get_config_in m vars T (cm_root m) path.

(** ** Bindings and seeding *)

Definition same_binding (a b : ConfigBinding) : bool :=
  (type_id (ct_ty (cb_type a)) =? type_id (ct_ty (cb_type b))) && bool_decide (cb_path a = cb_path b).
Definition push_binding (b : ConfigBinding) (m : ConfigManager) : ConfigManager :=
  if existsb (λ existing, same_binding existing b) (cm_bindings m) then m
  else mkManager (cm_root m) (cm_resolvers m) (cm_format m) (cm_sources m) (cm_bindings m ++ [b]) (cm_triggers m).

(** One turn of the seeding loop; a failed fill keeps what it had inserted. *)
Definition seed_binding (root : ConfigValue) (b : ConfigBinding) : ConfigValue :=
  if is_none (ct_defaults (cb_type b)) then root
  else (ensure_path_mut (fill_missing (ct_defaults (cb_type b))) (cb_path b) root).2.
Definition seed_defaults_into (root : ConfigValue) (bindings : list ConfigBinding) : ConfigValue :=
  foldl seed_binding root bindings.
Definition seed_defaults (m : ConfigManager) : ConfigManager :=
  set_root (seed_defaults_into (cm_root m) (cm_bindings m)) m.

Definition register_binding (b : ConfigBinding) (m : ConfigManager) : ConfigManager := seed_defaults (push_binding b m).
(** Also [with_config]. *)
Definition descriptor_leb (a b : ConfigBinding) : bool :=
  match String.compare (type_name (ct_ty (cb_type a))) (type_name (ct_ty (cb_type b))) with
  | Lt => true
  | Gt => false
  | Eq => str_leb (cb_path a) (cb_path b)
  end.
Definition auto_discover (descriptors : list ConfigBinding) (m : ConfigManager) : ConfigManager :=
  seed_defaults (foldl (λ m b, push_binding b m) m (sort_by descriptor_leb descriptors)).

(** ** Snapshots *)

Definition raw_eqb (a b : option ConfigValue) : bool :=
  match a, b with Some x, Some y => cv_eqb x y | None, None => true | _, _ => false end.
Fixpoint dependencies_hold (base : ConfigValue) (chain : ResolverChain) (deps : list ResolvedDependency)
    (c : ResolveCtx) : bool :=
  match deps with
  | [] => true
  | d :: deps' =>
      match resolve_placeholder base chain (dep_placeholder d) c with
      | (Ok value, c') => bool_decide (value = dep_value d) && dependencies_hold base chain deps' c'
      | (Err _, _) => false
      end
  end.
Definition snapshot_matches (m : ConfigManager) (vars : gmap string string) (base : ConfigValue) (path : string)
    (committed : ConfigSnapshot) : bool :=
  if negb (raw_eqb (get_path base path) (snap_raw committed)) then false
  else dependencies_hold base (resolvers m vars) (snap_resolved committed) ResolveCtx_new.

Definition adopt (root : ConfigValue) (m : ConfigManager) : ConfigManager := set_root root m.

(** ** The file side *)
Section Files.
Variable toml_from_str : string → result TomlValue string.
Variable yaml_from_str : string → result YamlValue string.
Variable number_to_string : YamlNumber → string.
Variable debug_key : YamlValue → string.
Variable yaml_feature : bool.
Abbreviation parsers := (parsers_for toml_from_str yaml_from_str number_to_string debug_key yaml_feature).

(** [None] is the [expect] on a format without parsers. *)
Definition from_str (format : FormatId) (text : string) : option (result ConfigManager ConfigError) :=
  match parsers format with
  | [] => None
  | (_, parse) :: _ =>
      Some (match parse text with
            | Err source => Err (ConfigParse "<in-memory>" source)
            | Ok root => Ok (wrap format root [])
            end)
  end.
Definition load_in (fs : FileSystem) (vars : gmap string string) (format : FormatId) (dir : string)
    (profiles : list string) : result ConfigManager ConfigError :=
  result_map (λ '(root, sources), wrap format root sources)
    (load_sources toml_from_str yaml_from_str number_to_string debug_key yaml_feature fs vars format dir profiles).
Definition reread (fs : FileSystem) (m : ConfigManager) : result ConfigValue ConfigError :=
  result_map (λ root, seed_defaults_into root (cm_bindings m))
    (reread_sources toml_from_str yaml_from_str number_to_string debug_key yaml_feature fs (cm_format m) (cm_sources m)).
End Files.

(** ** The store *)

Definition store_insert (T : TypeId) (path : string) (cell : nat) (s : ConfigStore) : ConfigStore :=
  <[T := <[path := cell]> (from_option id ∅ (s !! T))]> s.
Definition resolve_path (T : TypeId) (path : string) (s : ConfigStore) : option nat :=
  paths ← s !! T; paths !! path.
Definition resolve_sole (T : TypeId) (s : ConfigStore) : option nat :=
  paths ← s !! T;
  match map_to_list paths with [(_, cell)] => Some cell | _ => None end.
End Manager.
Arguments ConfigType : clear implicits.
Arguments ConfigBinding : clear implicits.
Arguments ConfigManager : clear implicits.

(** ** Paths *)

Lemma with_path_keeps {A} (f : ConfigValue → A * ConfigValue) segs v :
  (∀ v, keeps v (f v).2) → keeps v (with_path f segs v).2.
Proof.
  intros Hf. revert v. induction segs as [|seg segs IH]; intros v; simpl.
  - specialize (Hf v). by destruct (f v).
  - destruct v as [| | | | | |es]; try done. destruct (assoc_find seg es) as [child|] eqn:Hc.
    + specialize (IH child). destruct (with_path f segs child) as [a child']. by eapply keeps_update.
    + specialize (IH (CTable [])). destruct (with_path f segs (CTable [])) as [a child']. apply keeps_app.
Qed.
(** Writing back what a path already holds changes nothing. *)
Lemma with_path_id segs v subtree :
  lookup_segments v segs = Some subtree → with_path (λ _, ((), subtree)) segs v = (Some (), v).
Proof.
  revert v. induction segs as [|seg segs IH]; intros v; simpl; [by intros; simplify_eq|].
  destruct v as [| | | | | |es]; try done. destruct (assoc_find seg es) as [child|] eqn:Hc; [|done].
  simpl. intros Hl. rewrite (IH child Hl). do 2 f_equal. apply assoc_update_id. intros w Hw. by simplify_eq.
Qed.
Lemma with_path_result {A} (f : ConfigValue → A * ConfigValue) segs v a v' :
  with_path f segs v = (Some a, v') → ∃ node, lookup_segments v' segs = Some node.
Proof.
  revert v v'. induction segs as [|seg segs IH]; intros v v'; simpl; [eauto|].
  destruct v as [| | | | | |es]; try done. destruct (assoc_find seg es) as [child|] eqn:Hc.
  - destruct (with_path f segs child) as [o child'] eqn:Hw. intros [= -> <-].
    rewrite assoc_find_update_eq, Hc. simpl. by eapply IH.
  - destruct (with_path f segs (CTable [])) as [o child'] eqn:Hw. intros [= -> <-].
    rewrite assoc_find_app, Hc. simpl. rewrite decide_True || rewrite bool_decide_true; try done. simpl. by eapply IH.
Qed.

Section Facts.
Context {Value : Type}.
Abbreviation Binding := (ConfigBinding Value).
Abbreviation Manager := (ConfigManager Value).

Lemma seed_binding_keeps root (b : Binding) : keeps root (seed_binding root b).
Proof.
  unfold seed_binding. destruct (is_none _); [done|]. apply with_path_keeps. apply fill_missing_keeps.
Qed.
Lemma seed_defaults_into_keeps root (bs : list Binding) : keeps root (seed_defaults_into root bs).
Proof.
  revert root. induction bs as [|b bs IH]; intros root; simpl; [done|].
  etransitivity; [apply seed_binding_keeps|apply IH].
Qed.

(** a file value always wins over a default: whatever bindings are
    registered or discovered, every scalar and array of the tree read from the
    sources is still there, at the same path, after seeding. *)
Theorem discovery_keeps_file_values (ds : list Binding) (m : Manager) (segs : list string) (leaf : ConfigValue) :
  is_table leaf = false → lookup_segments (cm_root m) segs = Some leaf →
  lookup_segments (cm_root (auto_discover ds m)) segs = Some leaf.
Proof.
  intros Ht Hl. unfold auto_discover, seed_defaults. simpl.
  assert (∀ bs, cm_root (foldl (λ m b, push_binding b m) m bs) = cm_root m) as Hroot.
  { intros bs. revert m Hl. induction bs as [|b bs IH]; intros m Hl; simpl; [done|].
    assert (cm_root (push_binding b m) = cm_root m) as Hr by (unfold push_binding; by case_match).
    rewrite IH; by rewrite Hr. }
  apply seed_defaults_into_keeps; [done|]. by rewrite Hroot.
Qed.

(** ** Bindings *)

Lemma same_binding_key (a b : Binding) :
  same_binding a b = true ↔
  (type_id (ct_ty (cb_type a)), cb_path a) = (type_id (ct_ty (cb_type b)), cb_path b).
Proof.
  unfold same_binding. rewrite andb_true_iff, Z.eqb_eq, bool_decide_eq_true. split; [by intros [-> ->]|by intros [= -> ->]].
Qed.
Definition binding_key (b : Binding) : TypeId * string := (type_id (ct_ty (cb_type b)), cb_path b).
Definition bound (m : Manager) (k : TypeId * string) : Prop := k ∈ binding_key <$> cm_bindings m.

Lemma push_binding_cases (b : Binding) (m : Manager) :
  (bound m (binding_key b) ∧ push_binding b m = m) ∨
  (¬ bound m (binding_key b) ∧ cm_bindings (push_binding b m) = cm_bindings m ++ [b]).
Proof.
  unfold push_binding, bound. destruct (existsb _ _) eqn:He; [left|right].
  - split; [|done]. apply existsb_exists in He as (x & Hx & Hs%same_binding_key).
    rewrite list_elem_of_fmap. exists x. split; [done|]. by apply list_elem_of_In.
  - split; [|done]. rewrite list_elem_of_fmap. intros (x & Hk & Hx).
    apply not_true_iff_false in He. apply He, existsb_exists. exists x.
    split; [by apply list_elem_of_In|by apply same_binding_key].
Qed.
Definition push_all (bs : list Binding) (m : Manager) : Manager := foldl (λ m b, push_binding b m) m bs.

Lemma push_all_bound bs m k : bound m k ∨ k ∈ binding_key <$> bs → bound (push_all bs m) k.
Proof.
  revert m. induction bs as [|b bs IH]; intros m; simpl; [set_solver|].
  intros Hk. apply IH. rewrite elem_of_cons in Hk.
  destruct (push_binding_cases b m) as [[Hb ->]|[Hb Hp]]; [destruct Hk as [?|[->|?]]; auto|].
  unfold bound in *. rewrite Hp, fmap_app, elem_of_app. set_solver.
Qed.
Lemma push_all_noop bs m : (∀ k, k ∈ binding_key <$> bs → bound m k) → push_all bs m = m.
Proof.
  revert m. induction bs as [|b bs IH]; intros m Hk; simpl; [done|].
  destruct (push_binding_cases b m) as [[_ ->]|[Hb _]]; [apply IH; set_solver|].
  destruct Hb. apply Hk. set_solver.
Qed.
Lemma push_all_nodup bs m :
  NoDup (binding_key <$> cm_bindings m) → NoDup (binding_key <$> cm_bindings (push_all bs m)).
Proof.
  revert m. induction bs as [|b bs IH]; intros m Hn; simpl; [done|]. apply IH.
  destruct (push_binding_cases b m) as [[_ ->]|[Hb ->]]; [done|].
  rewrite fmap_app. apply NoDup_app. split; [done|]. split; [|apply NoDup_singleton].
  intros k Hk. simpl. rewrite list_elem_of_singleton. by intros ->.
Qed.

(** a type is bound at most once per path, and discovering again is
    harmless: it registers no binding a second time. *)
Theorem auto_discover_once (ds : list Binding) (m : Manager) :
  NoDup (binding_key <$> cm_bindings m) →
  let m1 := auto_discover ds m in
  NoDup (binding_key <$> cm_bindings m1) ∧
  (∀ d, d ∈ ds → bound m1 (binding_key d)) ∧
  cm_bindings (auto_discover ds m1) = cm_bindings m1.
Proof.
  intros Hn m1. set (sorted := sort_by descriptor_leb ds).
  assert (cm_bindings m1 = cm_bindings (push_all sorted m)) as Hb by done.
  assert (∀ d, d ∈ ds → binding_key d ∈ binding_key <$> sorted) as Hin.
  { intros d Hd. apply list_elem_of_fmap. exists d. split; [done|]. by apply sort_by_elem. }
  assert (∀ k, k ∈ binding_key <$> sorted → bound m1 k) as Hbound.
  { intros k Hk. unfold bound. rewrite Hb. by apply push_all_bound; right. }
  split; [|split].
  - rewrite Hb. by apply push_all_nodup.
  - intros d Hd. by apply Hbound, Hin.
  - unfold auto_discover at 1, seed_defaults. simpl. fold sorted. fold (push_all sorted m1).
    by rewrite push_all_noop.
Qed.

(** ** Typed reads *)

(** reading a default-free config type is reading the subtree: away from
    the empty path, [get_config] resolves against the very tree [get] does and
    returns the same value or the same error. *)
Theorem get_config_without_defaults (m : Manager) (vars : gmap string string) (T : ConfigType Value) (path : string) :
  ct_defaults T = DefaultNone → path ≠ "" →
  get_config m vars T path = get m vars (ct_deserialize T) path.
Proof.
  intros HT Hp. unfold get_config, get_config_in, get_config_in_with_snapshot, get, binding_subtree.
  rewrite HT. simpl. unfold get_path. destruct path as [|ch path]; [done|]. simpl str_is_empty.
  destruct (lookup_path (cm_root m) (String ch path)) as [node|] eqn:Hl; [|done]. simpl.
  assert (place (cm_root m) (String ch path) node = cm_root m) as ->.
  { unfold place, ensure_path_mut. unfold lookup_path in Hl. by rewrite (with_path_id _ _ _ Hl). }
  unfold from_value_in. by destruct (from_value_in_with_dependencies _ _ _ _) as [[v deps]|e].
Qed.
End Facts.

(** ** Reloading an unchanged configuration *)

Section RereadFacts.
Context {Value : Type}.
Variable toml_from_str : string → result TomlValue string.
Variable yaml_from_str : string → result YamlValue string.
Variable number_to_string : YamlNumber → string.
Variable debug_key : YamlValue → string.
Variable yaml_feature : bool.

Lemma push_all_frame (bs : list (ConfigBinding Value)) (m : ConfigManager Value) :
  cm_root (push_all bs m) = cm_root m ∧ cm_sources (push_all bs m) = cm_sources m ∧
  cm_format (push_all bs m) = cm_format m.
Proof.
  revert m. induction bs as [|b bs IH]; intros m; simpl; [done|].
  destruct (IH (push_binding b m)) as (-> & -> & ->). unfold push_binding. by case_match.
Qed.

(** a reload that finds the files unchanged finds the same tree: loading a
    directory, discovering the bindings and re-reading give one tree, the
    defaults of every type included. *)
Theorem reread_unchanged (fs : FileSystem) (vars : gmap string string) (format : FormatId) (dir : string)
    (profiles : list string) (ds : list (ConfigBinding Value)) (m : ConfigManager Value) :
  Forall (λ p, str_contains "/" p = false) (resolve_profiles vars profiles) →
  load_in toml_from_str yaml_from_str number_to_string debug_key yaml_feature fs vars format dir profiles = Ok m →
  reread toml_from_str yaml_from_str number_to_string debug_key yaml_feature fs (auto_discover ds m) =
    Ok (cm_root (auto_discover ds m)).
Proof.
  intros Hprof. unfold load_in, reread, auto_discover, seed_defaults. simpl. fold (push_all (sort_by descriptor_leb ds) m).
  destruct (push_all_frame (sort_by descriptor_leb ds) m) as (-> & -> & ->).
  destruct (load_sources _ _ _ _ _ _ _ _ _ _) as [[root sources]|e] eqn:Hl; [|done]. simpl. intros [= <-]. simpl.
  by rewrite (reread_of_load _ _ _ _ _ _ _ _ _ _ _ _ Hprof Hl).
Qed.
End RereadFacts.

(** ** The store *)

Lemma map_to_list_one (m : gmap string nat) k c : map_to_list m = [(k, c)] → m = {[k := c]}.
Proof. intros H. by rewrite <- (list_to_map_to_list m), H. Qed.

(** a binding is found where it was bound: by path always, and by type alone
    exactly while the type has a single path. *)
Theorem store_resolution (s : ConfigStore) (T : TypeId) (path : string) (cell : nat) :
  let s' := store_insert T path cell s in
  resolve_path T path s' = Some cell ∧
  (∀ T' path', (T', path') ≠ (T, path) → resolve_path T' path' s' = resolve_path T' path' s) ∧
  (resolve_sole T s' = Some cell ↔ ∀ path', path' ≠ path → resolve_path T path' s = None) ∧
  (∀ path', path' ≠ path → is_Some (resolve_path T path' s) → resolve_sole T s' = None).
Proof.
  intros s'. unfold s', store_insert, resolve_path, resolve_sole.
  set (m := from_option id ∅ (s !! T)).
  assert (∀ p, resolve_path T p s = m !! p) as Hm.
  { intros p. unfold resolve_path, m. destruct (s !! T); [done|simpl; by rewrite lookup_empty]. }
  unfold resolve_path in Hm. rewrite lookup_insert_eq. simpl. split; [by rewrite lookup_insert_eq|]. split.
  { intros T' p Hne. destruct (decide (T' = T)) as [->|HT].
    - rewrite lookup_insert_eq, Hm. simpl. apply lookup_insert_ne. by intros ->.
    - by rewrite lookup_insert_ne. }
  assert (∀ p, p ≠ path → <[path := cell]> m !! p = m !! p) as Hother
    by (intros p Hp; by apply lookup_insert_ne).
  split; [split|].
  - intros Hsole p Hp. rewrite Hm, <- Hother by done.
    destruct (map_to_list (<[path:=cell]> m)) as [|[k c] [|]] eqn:Hl; try done.
    assert (<[path:=cell]> m = {[k := c]}) as Heq by by apply map_to_list_one.
    rewrite Heq. assert (k = path) as ->.
    { assert (<[path:=cell]> m !! path = Some cell) as H by apply lookup_insert_eq.
      rewrite Heq in H. by apply lookup_singleton_Some in H as [? _]. }
    by apply lookup_singleton_ne.
  - intros Hnone. assert (<[path:=cell]> m = {[path := cell]}) as ->.
    { apply map_eq. intros p. destruct (decide (p = path)) as [->|Hp]; [by rewrite lookup_insert_eq, lookup_singleton_eq|].
      rewrite Hother, <- Hm, Hnone by done. symmetry. by apply lookup_singleton_ne. }
    by rewrite map_to_list_singleton.
  - intros p Hp [c Hc]. rewrite Hm in Hc.
    destruct (map_to_list (<[path:=cell]> m)) as [|[k c'] [|]] eqn:Hl; try done.
    exfalso. assert (<[path:=cell]> m = {[k := c']}) as Heq by by apply map_to_list_one.
    assert (<[path:=cell]> m !! path = Some cell) as H1 by apply lookup_insert_eq.
    assert (<[path:=cell]> m !! p = Some c) as H2 by by rewrite Hother.
    rewrite Heq in H1, H2. apply lookup_singleton_Some in H1 as [? _], H2 as [? _]. congruence.
Qed.

(** ** Edge cases of paths and snapshots *)

(** Two chains of placeholders, each as long as resolution allows. *)
Definition chain_key (prefix : string) (i : nat) : string := prefix +:+ pretty i.
Definition placeholder_to (k : string) : ConfigValue :=
  CStr (mkConfigStr [SegPlaceholder (mkPlaceholder k None)] KFullPlaceholder).
Definition chain_table (prefix : string) (n : nat) : list (string * ConfigValue) :=
  ((λ i, (chain_key prefix i, placeholder_to (chain_key prefix (S i)))) <$> seq 0 n) ++
  [(chain_key prefix n, CStr (mkConfigStr [SegLiteral "x"] KLiteral))].
Definition two_chains : ConfigValue :=
  CTable (chain_table "a" 63 ++ chain_table "b" 63 ++
    [("app", CArray [placeholder_to (chain_key "a" 0); placeholder_to (chain_key "b" 0)])]).
Definition app_type : ConfigType Plain :=
  mkConfigType (mkType "App" "App" 1) DefaultNone
    (λ root chain d c, let '(r, c') := read_plain root chain 4 d c in (result_map Some r, c')).
Definition app_manager : ConfigManager Plain := wrap FToml two_chains [].

(** the unchanged check can reject an unchanged binding: it charges every
    nested placeholder again to one budget, so a binding that deserializes well
    within the budget is reported as changed on the very tree it was read from. *)
Theorem snapshot_recheck_exceeds_budget :
  ∃ value snapshot,
    get_config_with_snapshot app_manager ∅ app_type "app" = Ok (Some value, snapshot) ∧
    Z.of_nat (length (snap_resolved snapshot)) ≤ 128 ∧
    snapshot_matches app_manager ∅ two_chains "app" snapshot = false.
Proof. eexists _, _. split; [vm_compute; reflexivity|]. split; [vm_compute; discriminate|vm_compute; reflexivity]. Qed.

(** a subtree holding a NaN never compares equal to itself, so its binding
    is reported as changed by every reload. *)
Theorem nan_subtree_always_changes {Value} (m : ConfigManager Value) (vars : gmap string string)
    (base : ConfigValue) (path : string) (committed : ConfigSnapshot) (k : string) (f : f64) :
  snap_raw committed = get_path base path → get_path base path = Some (CTable [(k, CFloat f)]) →
  f64_eqb f f = false → snapshot_matches m vars base path committed = false.
Proof.
  intros Hraw Hp Hf. unfold snapshot_matches. rewrite Hraw, Hp. simpl. rewrite Hf. by rewrite andb_false_r.
Qed.
Lemma nan_subtree_always_changes_witness :
  let base := CTable [("ratio", CFloat SpecFloat.S754_nan)] in
  snapshot_matches (Value := unit) (wrap FToml base []) ∅ base "" (mkSnapshot (Some base) []) = false.
Proof.
  intros base. apply (nan_subtree_always_changes _ ∅ base "" (mkSnapshot (Some base) []) "ratio" SpecFloat.S754_nan);
    reflexivity.
Defined.

(** the empty path means two things: reads take the whole tree for it, but
    seeding creates an entry under the empty key, so defaults bound at the root
    are never read back. *)
Theorem root_binding_seeds_empty_key {Value} (T : ConfigType Value) (field raw : string) :
  ct_defaults T = DefaultFields [(field, raw)] → str_contains "$" raw = false →
  ∃ v, seed_binding (CTable []) (mkBinding T "") = CTable [("", CTable [(field, v)])] ∧
    (field ≠ "" → lookup_segments (seed_binding (CTable []) (mkBinding T "")) [field] = None).
Proof.
  intros HT Hraw. unfold seed_binding. simpl. rewrite HT. simpl. unfold ensure_path_mut. simpl.
  unfold fill_fields, on_table. simpl. unfold default_value.
  destruct (ConfigStr_parse_plain raw Hraw) as (parsed & Hp & Hlit & _). rewrite Hp. simpl. eexists.
  split; [by unfold_monad; simpl; rewrite ?Hlit|].
  intros Hf. unfold_monad. simpl. by rewrite bool_decide_false.
Qed.
Lemma root_binding_seeds_empty_key_witness :
  let T := mkConfigType (mkType "App" "App" 1) (DefaultFields [("port", "80")]) (λ _ _ _, mret (Some ())) in
  ∃ v, seed_binding (CTable []) (mkBinding T "") = CTable [("", CTable [("port", v)])] ∧
    ("port" ≠ "" → lookup_segments (seed_binding (CTable []) (mkBinding T "")) ["port"] = None).
Proof. intros T. apply (root_binding_seeds_empty_key T "port" "80"); reflexivity. Defined.

(** ** A small application *)

Definition text_leaf (s : string) : ConfigValue := CStr (mkConfigStr [SegLiteral s] KLiteral).
Definition server_type : ConfigType Plain :=
  mkConfigType (mkType "Server" "app::Server" 2) (DefaultFields [("host", "localhost"); ("port", "80")])
    (λ root chain d c, let '(r, c') := read_plain root chain 4 d c in (result_map Some r, c')).
Definition sample_manager : ConfigManager Plain :=
  wrap FToml (CTable [("server", CTable [("port", CInt 8080)])]) [].
Definition sample_bindings : list (ConfigBinding Plain) := [mkBinding server_type "server"; mkBinding app_type "app"].

Lemma discovery_keeps_file_values_witness :
  lookup_segments (cm_root (auto_discover sample_bindings sample_manager)) ["server"; "port"] = Some (CInt 8080) ∧
  lookup_segments (cm_root (auto_discover sample_bindings sample_manager)) ["server"; "host"] =
    Some (text_leaf "localhost").
Proof.
  split; [|vm_compute; reflexivity].
  apply (discovery_keeps_file_values sample_bindings sample_manager ["server"; "port"] (CInt 8080)); reflexivity.
Defined.
Lemma auto_discover_once_witness :
  let m1 := auto_discover sample_bindings sample_manager in
  cb_path <$> cm_bindings m1 = ["app"; "server"] ∧
  cm_bindings (auto_discover sample_bindings m1) = cm_bindings m1.
Proof.
  intros m1. split; [vm_compute; reflexivity|].
  apply (auto_discover_once sample_bindings sample_manager). constructor.
Defined.
Lemma get_config_without_defaults_witness :
  get_config sample_manager ∅ app_type "server" = Ok (Some (PMap [("port", PInt 8080)])) ∧
  get_config sample_manager ∅ app_type "server" = get sample_manager ∅ (ct_deserialize app_type) "server".
Proof.
  split; [vm_compute; reflexivity|].
  apply (get_config_without_defaults sample_manager ∅ app_type "server"); [reflexivity|discriminate].
Defined.
Lemma reread_unchanged_witness :
  let fs : FileSystem := <["cfg/application.toml" := Some "a"]> ∅ in
  let loaded := wrap FToml (CTable [("k", CInt 1); ("p", text_leaf "base")]) ["cfg/application.toml"] in
  reread sample_toml (λ _, Err "no yaml") (λ _, "") (λ _, "") true fs (auto_discover sample_bindings loaded) =
  Ok (cm_root (auto_discover sample_bindings loaded)).
Proof.
  intros fs loaded.
  apply (reread_unchanged sample_toml (λ _, Err "no yaml") (λ _, "") (λ _, "") true fs ∅ FToml "cfg" []
           sample_bindings loaded).
  - constructor.
  - vm_compute. reflexivity.
Defined.
