(* ===== verification/Reload.v ===== *)
(** * Reload: the two-phase configuration reload

    Models [crates/config/src/managed/reload.rs] and the build of the store in
    [managed/store.rs]. A [Cfg<T>] is a shared cell: every injected handle and
    the reload slot of the binding hold the same cell, so the live values are a
    store [cells] indexed by cell and a slot names its cell. The whole of
    [reload] runs under the [in_progress] lock, so one call is one step; the
    hooks it awaits act on the application's own state [World]. *)
From S2P Require Import Prelude ConfigValue ConfigResolve ConfigDefaults ConfigSource ConfigDe ConfigManager CoreTypes Hooks.

Inductive HookOutcome := Unchanged | Reloaded | RestartRequired (reason : string).

Section Reload.
Context {Value World Any : Type}.

Record Cell := mkCell { live : Value; committed_snapshot : ConfigSnapshot }.
Record Slot := mkSlot { sl_type : ConfigType Value; sl_path : string; sl_cell : nat }.
Definition slot_type_id (s : Slot) : TypeId := type_id (ct_ty (sl_type s)).

Record StagedConfig := mkStaged { st_type_id : TypeId; st_path : string; st_value : Value }.
Definition ReloadProposal := list StagedConfig.

Inductive ConfigReloadError : Type :=
| ReloadLoad (source : ConfigError)
| ReloadBind (path type_name : string) (source : ConfigError)
| ReloadHook (component : string) (source : HookError)
| ReloadPanicked.

Record ChangedBinding := mkChanged { cb_changed_path : string; cb_type_name : string }.
Record ComponentHookReport := mkHookReport { hr_component : string; hr_outcome : HookOutcome }.
Record ConfigReloadReport := mkReport {
  generation : Z; changed : list ChangedBinding; hook_reports : list ComponentHookReport }.

(** The deserialized value, and what its commit closure writes. *)
Record PreparedSwap := mkSwap {
  ps_type_id : TypeId; ps_path : string; ps_value : Value; ps_cell : nat; ps_snapshot : ConfigSnapshot }.

(** [ReloaderInner], and the cells its slots share with the injected handles. *)
Record Reloader := mkReloader {
  rl_manager : ConfigManager Value;
  rl_slots : list Slot;
  rl_hooks : HookManager World ReloadProposal Any;
  rl_generation : Z;
  cells : gmap nat Cell;
}.

(** [ReloadProposal::next]; the type-checked downcast is the type-id match. *)
Definition next (p : ReloadProposal) (T : TypeId) (path : option string) : option (Value * string) :=
  match path with
  | Some path =>
      staged ← List.find (λ s, (st_type_id s =? T) && bool_decide (st_path s = path)) p;
      Some (st_value staged, st_path staged)
  | None =>
      match List.filter (λ s, st_type_id s =? T) p with
      | [first] => Some (st_value first, st_path first)
      | _ => None
      end
  end.

Section Inputs.
(** What a reload reads from outside: the files, the environment, the parsers. *)
Variable toml_from_str : string → result TomlValue string.
Variable yaml_from_str : string → result YamlValue string.
Variable number_to_string : YamlNumber → string.
Variable debug_key : YamlValue → string.
Variable yaml_feature : bool.
Variable fs : FileSystem.
Variable vars : gmap string string.
Variable K : HookKind Any HookOutcome.
Abbreviation reread := (reread toml_from_str yaml_from_str number_to_string debug_key yaml_feature fs).

(** [ConfigSlot::prepare]: [Ok None] is unchanged; the inner [None] a panic. *)
Definition prepare (m : ConfigManager Value) (cs : gmap nat Cell) (new_root : ConfigValue) (s : Slot) :
    result (option (option PreparedSwap)) ConfigError :=
  match cs !! sl_cell s with
  | None => Ok None
  | Some cell =>
      if snapshot_matches m vars new_root (sl_path s) (committed_snapshot cell) then Ok None
      else match get_config_in_with_snapshot m vars (sl_type s) new_root (sl_path s) with
           | Err e => Err e
           | Ok (None, _) => Ok (Some None)
           | Ok (Some value, snapshot) =>
               Ok (Some (Some (mkSwap (slot_type_id s) (sl_path s) value (sl_cell s) snapshot)))
           end
  end.
Definition stage_current (cs : gmap nat Cell) (s : Slot) : list StagedConfig :=
  match cs !! sl_cell s with Some cell => [mkStaged (slot_type_id s) (sl_path s) (live cell)] | None => [] end.

(** What phase one has accumulated. *)
Record Phase := mkPhase {
  prepared : list PreparedSwap; phase_changed : list ChangedBinding;
  staged : ReloadProposal; changed_paths : gset string }.
Definition phase_start : Phase := mkPhase [] [] [] ∅.

Fixpoint prepare_all (m : ConfigManager Value) (cs : gmap nat Cell) (run_hooks : bool) (new_root : ConfigValue)
    (slots : list Slot) (p : Phase) : result Phase ConfigReloadError :=
  match slots with
  | [] => Ok p
  | s :: slots' =>
      match prepare m cs new_root s with
      | Err source => Err (ReloadBind (sl_path s) (ty_name (ct_ty (sl_type s))) source)
      | Ok (Some None) => Err ReloadPanicked
      | Ok None =>
          prepare_all m cs run_hooks new_root slots'
            (mkPhase (prepared p) (phase_changed p)
               (if run_hooks then staged p ++ stage_current cs s else staged p) (changed_paths p))
      | Ok (Some (Some swap)) =>
          prepare_all m cs run_hooks new_root slots'
            (mkPhase (prepared p ++ [swap])
               (phase_changed p ++ [mkChanged (sl_path s) (ty_name (ct_ty (sl_type s)))])
               (if run_hooks then staged p ++ [mkStaged (ps_type_id swap) (ps_path swap) (ps_value swap)] else staged p)
               (if run_hooks then {[sl_path s]} ∪ changed_paths p else changed_paths p))
      end
  end.

Definition bindings_by_type_index (m : ConfigManager Value) : gmap TypeId (list string) :=
  foldl (λ index b, let T := type_id (ct_ty (cb_type b)) in
           <[T := from_option id [] (index !! T) ++ [cb_path b]]> index) ∅ (cm_bindings m).

Definition hook_targets_changed (hook : HookDescriptor World ReloadProposal Any) (changed_paths : gset string)
    (bindings_by_type : gmap TypeId (list string)) : bool :=
  existsb (λ dep,
    config dep &&
    match qualifier dep with
    | Some path => bool_decide (path ∈ changed_paths)
    | None =>
        match bindings_by_type !! type_id (dep_ty dep) with
        | Some [path] => bool_decide (path ∈ changed_paths)
        | _ => false
        end
    end) (hook_dependencies hook).

(** The loop over the hook outcomes: the first error aborts. *)
Fixpoint accept_outcomes (outcomes : list (TypeDescriptor * result HookOutcome HookError)) :
    result (list ComponentHookReport) ConfigReloadError :=
  match outcomes with
  | [] => Ok []
  | (component, Err source) :: _ => Err (ReloadHook (ty_name component) source)
  | (component, Ok outcome) :: outcomes' =>
      result_map (cons (mkHookReport (ty_name component) outcome)) (accept_outcomes outcomes')
  end.

(** The commit closure of a swap: publish the value, then its snapshot. *)
Definition commit_swap (cs : gmap nat Cell) (s : PreparedSwap) : gmap nat Cell :=
  match cs !! ps_cell s with
  | Some _ => <[ps_cell s := mkCell (ps_value s) (ps_snapshot s)]> cs
  | None => cs
  end.

(** [AtomicU64::fetch_add] wraps around. *)
Definition u64_succ (g : Z) : Z := (g + 1) mod 2 ^ 64.

(** [ConfigReloader::reload]; the result, the reloader and the world after it.
    [None] is the panic of running hooks on an unattached manager. *)
Definition reload (schedule : list nat) (r : Reloader) (w : World) :
    option (result ConfigReloadReport ConfigReloadError * Reloader * World) :=
  let run_hooks := has K (rl_hooks r) in
  let m := rl_manager r in
  match reread m with
  | Err e => Some (Err (ReloadLoad e), r, w)
  | Ok new_root =>
      match prepare_all m (cells r) run_hooks new_root (rl_slots r) phase_start with
      | Err e => Some (Err e, r, w)
      | Ok phase =>
          match phase_changed phase with
          | [] =>
              let g := u64_succ (rl_generation r) in
              Some (Ok (mkReport g [] []), mkReloader m (rl_slots r) (rl_hooks r) g (cells r), w)
          | _ :: _ =>
              hooks_result ←
                (if run_hooks then
                   '(outcomes, w') ← run K (rl_hooks r)
                      (λ hook, hook_targets_changed hook (changed_paths phase) (bindings_by_type_index m))
                      schedule (staged phase) w;
                   Some (accept_outcomes outcomes, w')
                 else Some (Ok [], w));
              match hooks_result with
              | (Err e, w') => Some (Err e, r, w')
              | (Ok reports, w') =>
                  let g := u64_succ (rl_generation r) in
                  Some (Ok (mkReport g (phase_changed phase) reports),
                        mkReloader (adopt new_root m) (rl_slots r) (rl_hooks r) g
                          (foldl commit_swap (cells r) (prepared phase)), w')
              end
          end
      end
  end.
End Inputs.

(** ** [ConfigStore::build] *)

(** Binds every registered binding into a fresh cell; [None] is a panic of a
    bound type's code. *)
Fixpoint build_bindings (m : ConfigManager Value) (vars : gmap string string) (bindings : list (ConfigBinding Value))
    (cell : nat) (acc : ConfigStore * list Slot * gmap nat Cell) :
    option (result (ConfigStore * list Slot * gmap nat Cell) ConfigError) :=
  match bindings with
  | [] => Some (Ok acc)
  | b :: bindings' =>
      match get_config_with_snapshot m vars (cb_type b) (cb_path b) with
      | Err e => Some (Err e)
      | Ok (None, _) => None
      | Ok (Some value, snapshot) =>
          let '(store, slots, cs) := acc in
          build_bindings m vars bindings' (S cell)
            (store_insert (type_id (ct_ty (cb_type b))) (cb_path b) cell store,
             slots ++ [mkSlot (cb_type b) (cb_path b) cell],
             <[cell := mkCell value snapshot]> cs)
      end
  end.
Definition ConfigStore_build (m : ConfigManager Value) (vars : gmap string string) :=
  build_bindings m vars (cm_bindings m) 0 (∅, [], ∅).
End Reload.
Arguments Cell : clear implicits.
Arguments Slot : clear implicits.
Arguments Reloader : clear implicits.
Arguments PreparedSwap : clear implicits.
Arguments ReloadProposal : clear implicits.
Arguments Phase : clear implicits.

Section Facts.
Context {Value World Any : Type}.
Variable toml_from_str : string → result TomlValue string.
Variable yaml_from_str : string → result YamlValue string.
Variable number_to_string : YamlNumber → string.
Variable debug_key : YamlValue → string.
Variable yaml_feature : bool.
Variable fs : FileSystem.
Variable vars : gmap string string.
Variable K : HookKind Any HookOutcome.
Abbreviation reread_now := (reread toml_from_str yaml_from_str number_to_string debug_key yaml_feature fs).
Abbreviation reload_now := (reload (Value := Value) (World := World) toml_from_str yaml_from_str number_to_string
  debug_key yaml_feature fs vars K).

(** The swap a slot contributes, if its binding changed. *)
Definition slot_swap (m : ConfigManager Value) (cs : gmap nat (Cell Value)) (new_root : ConfigValue)
    (s : Slot Value) : option (PreparedSwap Value) :=
  match prepare vars m cs new_root s with Ok (Some (Some swap)) => Some swap | _ => None end.
(** What a slot contributes to the proposal. *)
Definition slot_staged (m : ConfigManager Value) (cs : gmap nat (Cell Value)) (new_root : ConfigValue)
    (s : Slot Value) : ReloadProposal Value :=
  match slot_swap m cs new_root s with
  | Some swap => [mkStaged (ps_type_id swap) (ps_path swap) (ps_value swap)]
  | None => stage_current cs s
  end.

Lemma slot_swap_fields m cs new_root s swap :
  slot_swap m cs new_root s = Some swap →
  ps_type_id swap = slot_type_id s ∧ ps_path swap = sl_path s ∧ ps_cell swap = sl_cell s ∧
  get_config_in_with_snapshot m vars (sl_type s) new_root (sl_path s) = Ok (Some (ps_value swap), ps_snapshot swap).
Proof.
  unfold slot_swap, prepare. destruct (cs !! sl_cell s) as [cell|]; [|done].
  destruct (snapshot_matches _ _ _ _ _); [done|].
  destruct (get_config_in_with_snapshot _ _ _ _ _) as [[[v|] snap]|e] eqn:Hg; try done.
  intros [= <-]. by repeat split.
Qed.

Lemma prepare_all_ok m cs run_hooks new_root slots p p' :
  prepare_all vars m cs run_hooks new_root slots p = Ok p' →
  prepared p' = prepared p ++ omap (slot_swap m cs new_root) slots ∧
  phase_changed p' = phase_changed p ++
    omap (λ s, _ ← slot_swap m cs new_root s; Some (mkChanged (sl_path s) (ty_name (ct_ty (sl_type s))))) slots ∧
  staged p' = staged p ++ (if run_hooks then flat_map (slot_staged m cs new_root) slots else []).
Proof.
  revert p. induction slots as [|s slots IH]; intros p; simpl.
  { intros [= <-]. destruct run_hooks; by rewrite !app_nil_r. }
  destruct (prepare vars m cs new_root s) as [[[swap|]|]|e] eqn:Hp; try done; intros Hall;
    apply IH in Hall as (-> & -> & ->); simpl.
  - assert (slot_swap m cs new_root s = Some swap) as Hs by (unfold slot_swap; by rewrite Hp).
    unfold slot_staged at 2. rewrite Hs. simpl. destruct run_hooks; by rewrite <- !app_assoc.
  - assert (slot_swap m cs new_root s = None) as Hs by (unfold slot_swap; by rewrite Hp).
    unfold slot_staged at 2. rewrite Hs. simpl. destruct run_hooks; by rewrite <- ?app_assoc.
Qed.

(** C1: a failed reload changes nothing: when the sources cannot be read, a
    binding fails to deserialize or panics, or a hook rejects the proposal, every
    live value, the manager's tree and the generation are as they were. *)
Theorem reload_atomic (schedule : list nat) (r r' : Reloader Value World Any) (w w' : World) (e : ConfigReloadError) :
  reload_now schedule r w = Some (Err e, r', w') → r' = r.
Proof.
  unfold reload. destruct (reread_now _) as [new_root|]; [|by intros; simplify_eq].
  destruct (prepare_all _ _ _ _ _ _ _) as [phase|]; [|by intros; simplify_eq].
  destruct (phase_changed phase) as [|c cs]; [by intros; simplify_eq|].
  destruct (has K (rl_hooks r)); simpl.
  - destruct (run _ _ _ _ _ _) as [[outcomes w1]|]; simpl; [|done].
    destruct (accept_outcomes outcomes); by intros; simplify_eq.
  - by intros; simplify_eq.
Qed.

Lemma find_cell_none (swaps : list (PreparedSwap Value)) i :
  i ∉ ps_cell <$> swaps → List.find (λ s, bool_decide (ps_cell s = i)) swaps = None.
Proof.
  induction swaps as [|s swaps IH]; simpl; [done|]. rewrite not_elem_of_cons. intros [Hs Hi].
  rewrite bool_decide_false by done. by apply IH.
Qed.
Lemma commit_all_lookup (swaps : list (PreparedSwap Value)) (cs : gmap nat (Cell Value)) i :
  NoDup (ps_cell <$> swaps) →
  foldl commit_swap cs swaps !! i =
  match List.find (λ s, bool_decide (ps_cell s = i)) swaps with
  | Some s => _ ← cs !! i; Some (mkCell (ps_value s) (ps_snapshot s))
  | None => cs !! i
  end.
Proof.
  revert cs. induction swaps as [|s swaps IH]; intros cs; simpl; [done|].
  inversion 1 as [|?? Hs Hn]; subst. rewrite IH by done. case_bool_decide as Hi; [subst i|].
  - rewrite find_cell_none by done.
    unfold commit_swap. destruct (cs !! ps_cell s) eqn:Hc; [by rewrite lookup_insert_eq|done].
  - assert (commit_swap cs s !! i = cs !! i) as ->; [|done].
    unfold commit_swap. destruct (cs !! ps_cell s); [by rewrite lookup_insert_ne|done].
Qed.

(** ** What a commit leaves in the cells *)

Lemma omap_find (m : ConfigManager Value) cs new_root (slots : list (Slot Value)) s :
  NoDup (sl_cell <$> slots) → s ∈ slots →
  List.find (λ swap, bool_decide (ps_cell swap = sl_cell s)) (omap (slot_swap m cs new_root) slots) =
  slot_swap m cs new_root s.
Proof.
  induction slots as [|t slots IH]; simpl; [set_solver|]. inversion 1 as [|?? Ht Hn]; subst.
  intros [->|Hs]%elem_of_cons.
  - destruct (slot_swap m cs new_root t) as [swap|] eqn:Hsw; simpl.
    + apply slot_swap_fields in Hsw as (_ & _ & -> & _). by rewrite bool_decide_true.
    + apply find_cell_none. rewrite list_elem_of_fmap. intros (swap & Hc & Hin).
      apply list_elem_of_omap in Hin as (u & Hu & Hsu). apply slot_swap_fields in Hsu as (_ & _ & Hcell & _).
      apply Ht. rewrite list_elem_of_fmap. exists u. split; [congruence|done].
  - assert (sl_cell t ≠ sl_cell s) as Hne.
    { intros Heq. apply Ht. rewrite Heq. by apply list_elem_of_fmap_2. }
    destruct (slot_swap m cs new_root t) as [swap|] eqn:Hsw; simpl; [|by apply IH].
    apply slot_swap_fields in Hsw as (_ & _ & -> & _). rewrite bool_decide_false by done. by apply IH.
Qed.
Lemma omap_cells (m : ConfigManager Value) cs new_root (slots : list (Slot Value)) :
  ps_cell <$> omap (slot_swap m cs new_root) slots `sublist_of` sl_cell <$> slots.
Proof.
  induction slots as [|t slots IH]; simpl; [constructor|].
  destruct (slot_swap m cs new_root t) as [swap|] eqn:Hsw; simpl; [|by constructor].
  apply slot_swap_fields in Hsw as (_ & _ & -> & _). by constructor.
Qed.
Lemma slot_swap_cell (m : ConfigManager Value) cs new_root s swap :
  slot_swap m cs new_root s = Some swap → is_Some (cs !! sl_cell s).
Proof. unfold slot_swap, prepare. destruct (cs !! sl_cell s); [eauto|done]. Qed.

Lemma commit_slots (m : ConfigManager Value) cs new_root slots i :
  NoDup (sl_cell <$> slots) →
  let cs' := foldl commit_swap cs (omap (slot_swap m cs new_root) slots) in
  (∀ s, s ∈ slots → cs' !! sl_cell s =
     match slot_swap m cs new_root s with
     | Some swap => Some (mkCell (ps_value swap) (ps_snapshot swap))
     | None => cs !! sl_cell s
     end) ∧
  (i ∉ sl_cell <$> slots → cs' !! i = cs !! i).
Proof.
  intros Hn cs'. pose proof (sublist_NoDup _ _ Hn (omap_cells m cs new_root slots)) as Hn'. unfold cs'. split.
  - intros s Hs. rewrite commit_all_lookup, omap_find by done.
    destruct (slot_swap m cs new_root s) as [swap|] eqn:Hsw; [|done].
    by apply slot_swap_cell in Hsw as [cell ->].
  - intros Hi. rewrite commit_all_lookup, find_cell_none; [done| |done].
    intros Hin. apply Hi. eapply elem_of_sublist; [done|apply omap_cells].
Qed.

Lemma omap_changed_nil (m : ConfigManager Value) cs new_root (slots : list (Slot Value)) :
  omap (λ s, _ ← slot_swap m cs new_root s; Some (mkChanged (sl_path s) (ty_name (ct_ty (sl_type s))))) slots = [] →
  omap (slot_swap m cs new_root) slots = [].
Proof.
  induction slots as [|s slots IH]; [done|]. simpl. by destruct (slot_swap m cs new_root s).
Qed.

(** C15: a successful reload publishes exactly the changed bindings: each slot
    whose snapshot no longer matches holds the value and the snapshot of one
    deserialization of the new tree, every other live value is untouched, the
    report lists the changed bindings in slot order and carries the generation. *)
Theorem reload_publishes (schedule : list nat) (r r' : Reloader Value World Any) (w w' : World)
    (report : ConfigReloadReport) :
  NoDup (sl_cell <$> rl_slots r) →
  reload_now schedule r w = Some (Ok report, r', w') →
  ∃ new_root, reread_now (rl_manager r) = Ok new_root ∧
    (∀ s, s ∈ rl_slots r → cells r' !! sl_cell s =
       match slot_swap (rl_manager r) (cells r) new_root s with
       | Some swap => Some (mkCell (ps_value swap) (ps_snapshot swap))
       | None => cells r !! sl_cell s
       end) ∧
    (∀ i, i ∉ sl_cell <$> rl_slots r → cells r' !! i = cells r !! i) ∧
    changed report = omap (λ s, _ ← slot_swap (rl_manager r) (cells r) new_root s;
                             Some (mkChanged (sl_path s) (ty_name (ct_ty (sl_type s))))) (rl_slots r) ∧
    generation report = rl_generation r' ∧ rl_generation r' = u64_succ (rl_generation r) ∧
    cm_root (rl_manager r') = (match changed report with [] => cm_root (rl_manager r) | _ => new_root end).
Proof.
  intros Hn. unfold reload. destruct (reread_now _) as [new_root|]; [|done].
  destruct (prepare_all _ _ _ _ _ _ _) as [phase|] eqn:Hall; [|done].
  apply prepare_all_ok in Hall as (Hprep & Hch & _). simpl in Hprep, Hch.
  intros Hrun. exists new_root. split; [done|]. rewrite <- Hch.
  assert (cells r' = foldl commit_swap (cells r) (prepared phase) ∧ changed report = phase_changed phase ∧
          generation report = u64_succ (rl_generation r) ∧ rl_generation r' = u64_succ (rl_generation r) ∧
          cm_root (rl_manager r') = match phase_changed phase with [] => cm_root (rl_manager r) | _ => new_root end)
    as (-> & -> & -> & -> & ->).
  { destruct (phase_changed phase) as [|c ch] eqn:Hc.
    - simplify_eq. simpl. rewrite Hprep.
      assert (omap (slot_swap (rl_manager r) (cells r) new_root) (rl_slots r) = []) as ->; [|done].
      apply omap_changed_nil. congruence.
    - destruct (has K (rl_hooks r)); simpl in Hrun; [|by simplify_eq].
      destruct (run _ _ _ _ _ _) as [[outcomes w1]|]; simpl in Hrun; [|done].
      destruct (accept_outcomes outcomes); by simplify_eq. }
  rewrite Hprep. split; [|split; [|done]].
  - intros s Hs. by apply (commit_slots _ _ _ _ 0%nat Hn).
  - intros i Hi. by apply (commit_slots _ _ _ _ i Hn).
Qed.

(** hooks judge what is committed: in the proposal every binding resolves,
    by its type and path, to exactly the value its live cell holds if the
    proposal is accepted, whether the binding changed or not. *)
Theorem proposal_is_the_commit (m : ConfigManager Value) (cs : gmap nat (Cell Value)) (new_root : ConfigValue)
    (slots : list (Slot Value)) (phase : Phase Value) (s : Slot Value) :
  NoDup (sl_cell <$> slots) → NoDup ((λ s, (slot_type_id s, sl_path s)) <$> slots) →
  Forall (λ s, is_Some (cs !! sl_cell s)) slots →
  prepare_all vars m cs true new_root slots phase_start = Ok phase → s ∈ slots →
  ∃ cell, foldl commit_swap cs (prepared phase) !! sl_cell s = Some cell ∧
    next (staged phase) (slot_type_id s) (Some (sl_path s)) = Some (live cell, sl_path s).
Proof.
  intros Hcells Hkeys Hall Hprep Hs. apply prepare_all_ok in Hprep as (-> & _ & ->). simpl.
  rewrite (proj1 (commit_slots m cs new_root slots 0%nat Hcells) s Hs).
  pose proof Hall as Hcell. rewrite Forall_forall in Hcell. destruct (Hcell s Hs) as [cell Hc]. clear Hcell.
  assert (∃ v, slot_staged m cs new_root s = [mkStaged (slot_type_id s) (sl_path s) v] ∧
    ∃ c, (match slot_swap m cs new_root s with
          | Some swap => Some (mkCell (ps_value swap) (ps_snapshot swap)) | None => cs !! sl_cell s end) = Some c ∧
      live c = v) as (v & Hst & c & -> & Hlive).
  { unfold slot_staged, stage_current. destruct (slot_swap m cs new_root s) as [swap|] eqn:Hsw.
    - apply slot_swap_fields in Hsw as (-> & -> & _). by eauto.
    - rewrite Hc. by eauto. }
  exists c. split; [done|]. rewrite Hlive. clear Hlive c Hc cell.
  assert (List.find (λ x, (st_type_id x =? slot_type_id s) && bool_decide (st_path x = sl_path s))
    (flat_map (slot_staged m cs new_root) slots) = Some (mkStaged (slot_type_id s) (sl_path s) v)) as Hf.
  { clear Hcells Hall. induction slots as [|t slots IH]; [set_solver|]. simpl. inversion Hkeys as [|?? Ht Hn]; subst.
    apply elem_of_cons in Hs as [->|Hs]; [rewrite Hst; simpl; by rewrite Z.eqb_refl, bool_decide_true|].
    assert (∀ x, x ∈ slot_staged m cs new_root t → (st_type_id x, st_path x) = (slot_type_id t, sl_path t)) as Hx.
    { intros x. unfold slot_staged, stage_current. destruct (slot_swap m cs new_root t) as [swap|] eqn:Hsw.
      - apply slot_swap_fields in Hsw as (Ha & Hb & _). rewrite Ha, Hb. by intros ->%list_elem_of_singleton.
      - destruct (cs !! sl_cell t); [by intros ->%list_elem_of_singleton|by intros ?%not_elem_of_nil]. }
    assert ((slot_type_id t, sl_path t) ≠ (slot_type_id s, sl_path s)) as Hne.
    { intros Heq. apply Ht. rewrite list_elem_of_fmap. by exists s. }
    rewrite <- (IH Hn Hs). clear -Hx Hne. induction (slot_staged m cs new_root t) as [|x l IHl]; [done|]. simpl.
    assert ((st_type_id x =? slot_type_id s) && bool_decide (st_path x = sl_path s) = false) as ->.
    { apply andb_false_iff. specialize (Hx x ltac:(left)). injection Hx as -> ->.
      destruct (Z.eqb_spec (slot_type_id t) (slot_type_id s)) as [Heq|]; [right|by left].
      apply bool_decide_eq_false. intros Hp. apply Hne. by rewrite Heq, Hp. }
    apply IHl. intros y Hy. apply Hx. by right. }
  unfold next. by rewrite Hf.
Qed.
End Facts.

(** ** Building the store *)

Section Build.
Context {Value : Type}.
Variable m : ConfigManager Value.
Variable vars : gmap string string.

(** A slot as [ConfigStore::build] leaves it: in the store under its type and
    path, with a cell holding what its binding deserialized to. *)
Definition slot_built (store : ConfigStore) (cs : gmap nat (Cell Value)) (s : Slot Value) : Prop :=
  resolve_path (slot_type_id s) (sl_path s) store = Some (sl_cell s) ∧
  ∃ cell, cs !! sl_cell s = Some cell ∧
    get_config_with_snapshot m vars (sl_type s) (sl_path s) = Ok (Some (live cell), committed_snapshot cell).

Lemma resolve_path_insert T path cell store T' path' :
  resolve_path T' path' (store_insert T path cell store) =
  if decide ((T', path') = (T, path)) then Some cell else resolve_path T' path' store.
Proof.
  unfold resolve_path, store_insert. destruct (decide (T' = T)) as [->|HT].
  - rewrite lookup_insert_eq. simpl. case_decide as H.
    + injection H as ->. by rewrite lookup_insert_eq.
    + rewrite lookup_insert_ne by (by intros ->). destruct (store !! T); simpl; [done|by rewrite lookup_empty].
  - rewrite lookup_insert_ne by done. case_decide as H; [by injection H|done].
Qed.

Lemma build_bindings_spec bindings n store slots cs store' slots' cs' :
  NoDup (((λ s, (slot_type_id s, sl_path s)) <$> slots) ++ (binding_key <$> bindings)) →
  Forall (slot_built store cs) slots → Forall (λ c, (c < n)%nat) (sl_cell <$> slots) → NoDup (sl_cell <$> slots) →
  build_bindings m vars bindings n (store, slots, cs) = Some (Ok (store', slots', cs')) →
  Forall (slot_built store' cs') slots' ∧ NoDup (sl_cell <$> slots') ∧
  (λ s, (sl_type s, sl_path s)) <$> slots' =
    ((λ s, (sl_type s, sl_path s)) <$> slots) ++ ((λ b, (cb_type b, cb_path b)) <$> bindings).
Proof.
  revert n store slots cs. induction bindings as [|b bindings IH]; intros n store slots cs Hkeys Hbuilt Hlt Hn; simpl.
  { intros [= <- <- <-]. by rewrite app_nil_r. }
  destruct (get_config_with_snapshot m vars (cb_type b) (cb_path b)) as [[[value|] snapshot]|e] eqn:Hg; try done.
  set (s := mkSlot (cb_type b) (cb_path b) n). intros Hrun. apply IH in Hrun as (Hall & Hnd & Heq).
  - split; [done|]. split; [done|]. rewrite Heq, fmap_app, <- app_assoc. done.
  - rewrite fmap_app, <- app_assoc. done.
  - rewrite fmap_cons in Hkeys. apply Forall_app. split.
    + pose proof (proj1 (Forall_forall _ _) Hbuilt) as Hb. pose proof (proj1 (Forall_forall _ _) Hlt) as Hlt'.
      apply Forall_forall. intros t Ht. destruct (Hb t Ht) as (Hr & cell & Hc & Hcell).
      split; [|exists cell; rewrite lookup_insert_ne; [done|]].
      * rewrite resolve_path_insert, decide_False; [done|]. intros Heq.
        apply NoDup_app in Hkeys as (_ & Hdis & _). apply (Hdis (slot_type_id t, sl_path t)).
        -- apply list_elem_of_fmap. by exists t.
        -- rewrite Heq. left.
      * intros Heq. specialize (Hlt' (sl_cell t) (list_elem_of_fmap_2 sl_cell slots t Ht)). simpl in Hlt'. lia.
    + constructor; [|constructor]. split.
      * simpl. rewrite resolve_path_insert. by rewrite decide_True.
      * exists (mkCell value snapshot). simpl. by rewrite lookup_insert_eq.
  - rewrite fmap_app. apply Forall_app. split; [|by repeat constructor; simpl; lia].
    eapply Forall_impl; [done|]. simpl. lia.
  - rewrite fmap_app. apply NoDup_app. split; [done|]. split; [|apply NoDup_singleton].
    intros c Hc. simpl. rewrite list_elem_of_singleton. intros ->.
    pose proof (proj1 (Forall_forall _ _) Hlt n Hc) as H. simpl in H. lia.
Qed.

(** the store and the reloader share their cells: after a build there is one
    slot per binding, in binding order, each with a cell of its own that holds
    its binding's value, and injection by type and path finds that very cell. *)
Theorem store_build_shares_cells (store : ConfigStore) (slots : list (Slot Value)) (cs : gmap nat (Cell Value)) :
  NoDup (binding_key <$> cm_bindings m) →
  ConfigStore_build m vars = Some (Ok (store, slots, cs)) →
  (λ s, (sl_type s, sl_path s)) <$> slots = (λ b, (cb_type b, cb_path b)) <$> cm_bindings m ∧
  NoDup (sl_cell <$> slots) ∧ Forall (slot_built store cs) slots.
Proof.
  intros Hk Hb. apply build_bindings_spec in Hb as (Hall & Hn & Heq); try done; constructor.
Qed.
End Build.

(** ** Hook selection *)

Lemma bindings_by_type_lookup {Value} (bs : list (ConfigBinding Value)) T (index : gmap TypeId (list string)) :
  from_option id [] (foldl (λ index b, let T := type_id (ct_ty (cb_type b)) in
      <[T := from_option id [] (index !! T) ++ [cb_path b]]> index) index bs !! T) =
  from_option id [] (index !! T) ++ (cb_path <$> List.filter (λ b, type_id (ct_ty (cb_type b)) =? T) bs).
Proof.
  revert index. induction bs as [|b bs IH]; intros index; simpl; [by rewrite app_nil_r|]. rewrite IH.
  destruct (decide (type_id (ct_ty (cb_type b)) = T)) as [Hk|Hk].
  - rewrite Hk, lookup_insert_eq, Z.eqb_refl. simpl. by rewrite <- app_assoc.
  - rewrite lookup_insert_ne by done. by rewrite (proj2 (Z.eqb_neq _ _) Hk).
Qed.

(** a hook runs exactly when a configuration it reads has changed: one of
    its config parameters names a changed path, or names no path and the single
    binding of its type is at a changed path. *)
Theorem hook_targets_changed_spec {Value World Any} (m : ConfigManager Value)
    (hook : HookDescriptor World (ReloadProposal Value) Any) (changed_paths : gset string) :
  hook_targets_changed hook changed_paths (bindings_by_type_index m) = true ↔
  ∃ dep, dep ∈ hook_dependencies hook ∧ config dep = true ∧
    ∃ path, path ∈ changed_paths ∧
      match qualifier dep with
      | Some q => q = path
      | None => cb_path <$> List.filter (λ b, type_id (ct_ty (cb_type b)) =? type_id (dep_ty dep)) (cm_bindings m) = [path]
      end.
Proof.
  unfold hook_targets_changed. rewrite existsb_exists.
  assert (∀ T, from_option id [] (bindings_by_type_index m !! T) =
    cb_path <$> List.filter (λ b, type_id (ct_ty (cb_type b)) =? T) (cm_bindings m)) as Hidx
    by (intros T; unfold bindings_by_type_index; by rewrite bindings_by_type_lookup, lookup_empty).
  split; intros (dep & Hin & Hdep); exists dep; rewrite ?list_elem_of_In in *; (split; [done|]).
  - apply andb_true_iff in Hdep as [Hc Hq]. split; [done|]. destruct (qualifier dep) as [q|].
    + apply bool_decide_eq_true in Hq. eauto.
    + rewrite <- Hidx. destruct (_ !! _) as [[|p [|]]|]; try done. apply bool_decide_eq_true in Hq. eauto.
  - destruct Hdep as (Hc & path & Hp & Hq). rewrite Hc. simpl. destruct (qualifier dep) as [q|].
    + subst. by apply bool_decide_eq_true.
    + rewrite <- Hidx in Hq. destruct (_ !! _) as [l|]; simpl in Hq; simplify_eq. by apply bool_decide_eq_true.
Qed.

(** ** A reload of a small application *)

Definition plain_type (name : string) (T : TypeId) : ConfigType Plain :=
  mkConfigType (mkType name name T) DefaultNone
    (λ root chain d c, let '(r, c') := read_plain root chain 4 d c in (result_map Some r, c')).
Definition old_root : ConfigValue := CTable [("k", CInt 1); ("p", text_leaf "base")].
Definition old_cell (v : Plain) (raw : ConfigValue) : Cell Plain := mkCell v (mkSnapshot (Some raw) []).
Definition p_slot : Slot Plain := mkSlot (plain_type "P" 1) "p" 0.
Definition k_slot : Slot Plain := mkSlot (plain_type "K" 2) "k" 1.
Definition old_cells : gmap nat (Cell Plain) :=
  <[0%nat := old_cell (PStr "base") (text_leaf "base")]> (<[1%nat := old_cell (PInt 1) (CInt 1)]> ∅).
Definition reload_kind : HookKind HookOutcome HookOutcome := mkKind 9 "config_reload" Some.
(** A hook on [P] that records the proposed value it was shown. *)
Definition p_hook : HookDescriptor (list (option (Plain * string))) (ReloadProposal Plain) HookOutcome :=
  mkHook 0 (mkType "Svc" "Svc" 5) 9
    [mkDep "P" (mkType "P" "P" 1) One false false None true Eager]
    (λ w proposal, (CallOk Reloaded, w ++ [next proposal 1 None])).
Definition sample_reloader (slots : list (Slot Plain)) :
    Reloader Plain (list (option (Plain * string))) HookOutcome :=
  mkReloader
    (mkManager old_root [] FToml ["cfg/application.toml"]
       [mkBinding (plain_type "P" 1) "p"; mkBinding (plain_type "K" 2) "k"] ReloadTriggers_default)
    slots (attach (HookManager_new [p_hook])) 0 old_cells.
(** The sources now hold only [p = dev]. *)
Definition new_files : FileSystem := <["cfg/application.toml" := Some "b"]> ∅.
Abbreviation sample_reload := (reload sample_toml (λ _, Err "no yaml") (λ _, "") (λ _, "") true new_files ∅ reload_kind).

(** The observable part of a reload: its result, the live values and the trace. *)
Definition observe {W} (x : option (result ConfigReloadReport ConfigReloadError * Reloader Plain W HookOutcome * W)) :=
  '(res, r', w') ← x; Some (res, live <$> cells r' !! 0%nat, live <$> cells r' !! 1%nat, w').
Lemma observe_some {W} (x : option (result ConfigReloadReport ConfigReloadError * Reloader Plain W HookOutcome * W))
    res a b w :
  observe x = Some (res, a, b, w) → ∃ r', x = Some (res, r', w) ∧ live <$> cells r' !! 0%nat = a.
Proof. destruct x as [[[res' r'] w']|]; simpl; [|done]. intros [= -> <- <- ->]. eauto. Qed.

Lemma reload_atomic_witness :
  ∃ r', sample_reload [0%nat] (sample_reloader [p_slot; k_slot]) [] =
    Some (Err (ReloadBind "k" "K" (ConfigMissingPath "k")), r', []) ∧ r' = sample_reloader [p_slot; k_slot].
Proof.
  destruct (observe_some (sample_reload [0%nat] (sample_reloader [p_slot; k_slot]) [])
    (Err (ReloadBind "k" "K" (ConfigMissingPath "k"))) (Some (PStr "base")) (Some (PInt 1)) []) as (r' & Hr & _);
    [vm_compute; reflexivity|]. exists r'. split; [exact Hr|].
  apply (reload_atomic sample_toml (λ _, Err "no yaml") (λ _, "") (λ _, "") true new_files ∅ reload_kind [0%nat]
    (sample_reloader [p_slot; k_slot]) r' [] [] (ReloadBind "k" "K" (ConfigMissingPath "k"))).
  exact Hr.
Defined.

Lemma reload_publishes_witness :
  ∃ r', sample_reload [0%nat] (sample_reloader [p_slot]) [] =
    Some (Ok (mkReport 1 [mkChanged "p" "P"] [mkHookReport "Svc" Reloaded]), r', [Some (PStr "dev", "p")]) ∧
  live <$> cells r' !! 0%nat = Some (PStr "dev") ∧ cells r' !! 1%nat = old_cells !! 1%nat.
Proof.
  destruct (observe_some (sample_reload [0%nat] (sample_reloader [p_slot]) [])
    (Ok (mkReport 1 [mkChanged "p" "P"] [mkHookReport "Svc" Reloaded])) (Some (PStr "dev")) (Some (PInt 1))
    [Some (PStr "dev", "p")]) as (r' & Hr & Hlive); [vm_compute; reflexivity|].
  exists r'. split; [exact Hr|]. split; [exact Hlive|].
  edestruct (reload_publishes sample_toml (λ _, Err "no yaml") (λ _, "") (λ _, "") true new_files ∅ reload_kind [0%nat]
    (sample_reloader [p_slot]) r' [] [Some (PStr "dev", "p")]
    (mkReport 1 [mkChanged "p" "P"] [mkHookReport "Svc" Reloaded])) as (new_root & _ & _ & Hother & _).
  - repeat constructor. apply not_elem_of_nil.
  - exact Hr.
  - apply (Hother 1%nat). apply (bool_decide_unpack _). vm_compute. exact I.
Defined.

Lemma proposal_is_the_commit_witness :
  let m := rl_manager (sample_reloader [p_slot]) in
  match prepare_all ∅ m old_cells true (CTable [("p", text_leaf "dev")]) [p_slot] phase_start with
  | Ok phase =>
      ∃ cell, foldl commit_swap old_cells (prepared phase) !! 0%nat = Some cell ∧
        next (staged phase) 1 (Some "p") = Some (live cell, "p")
  | Err _ => False
  end.
Proof.
  intros m.
  assert (is_ok (prepare_all ∅ m old_cells true (CTable [("p", text_leaf "dev")]) [p_slot] phase_start) = true) as Hok
    by (vm_compute; reflexivity).
  destruct (prepare_all ∅ m old_cells true (CTable [("p", text_leaf "dev")]) [p_slot] phase_start) as [phase|e] eqn:Hp;
    [|discriminate Hok].
  apply (proposal_is_the_commit ∅ m old_cells (CTable [("p", text_leaf "dev")]) [p_slot] phase p_slot).
  - repeat constructor. apply not_elem_of_nil.
  - repeat constructor. apply not_elem_of_nil.
  - repeat constructor. exists (old_cell (PStr "base") (text_leaf "base")). vm_compute. reflexivity.
  - exact Hp.
  - left.
Defined.

Definition sample_source : ConfigManager Plain := rl_manager (sample_reloader []).
Lemma sample_source_build :
  match ConfigStore_build sample_source ∅ with Some (Ok (_, slots, _)) => Some (sl_cell <$> slots) | _ => None end =
  Some [0%nat; 1%nat].
Proof. vm_compute. reflexivity. Qed.
Lemma store_build_shares_cells_witness :
  match ConfigStore_build sample_source ∅ with
  | Some (Ok (store, slots, cs)) =>
      sl_cell <$> slots = [0%nat; 1%nat] ∧ Forall (slot_built sample_source ∅ store cs) slots
  | _ => False
  end.
Proof.
  pose proof sample_source_build as Hcells.
  destruct (ConfigStore_build sample_source ∅) as [[[[store slots] cs]|e]|] eqn:Hb; [|discriminate Hcells..].
  split; [injection Hcells; exact (λ H, H)|].
  apply (store_build_shares_cells sample_source ∅ store slots cs); [|exact Hb].
  apply (bool_decide_unpack _). vm_compute. exact I.
Defined.
