(* ===== verification/DiTypes.v ===== *)
(** * DiTypes: descriptors and errors of the dependency-injection engine

    Models the descriptor half of [crates/di/src/descriptors/component.rs] and
    [crates/di/src/error.rs]: providers and their ordering constraints,
    factories, components, and which factory and provider is selected. The code
    a factory runs is application code, of an arbitrary type [Construct]. *)
From S2P Require Import Prelude CoreTypes.

Inductive DiError : Type :=
| DuplicateComponentId (id : string)
| DuplicateComponentType (ty : string)
| AmbiguousFactory (component : string)
| MissingDependency (component ty : string)
| AmbiguousProvider (ty : string)
| DependencyCycle (components : list string)
| MissingProviderOrderTarget (component target : string)
| SelfProviderOrder (component : string)
| ProviderOrderSourceTraitMismatch (component trait_name : string)
| ProviderOrderTargetTraitMismatch (component target trait_name : string)
| ProviderOrderCycle (trait_name : string) (components : list string)
| MissingComponent (name : string)
| RootUnavailable
| ScopeUnavailable
| UnsupportedFreshFactory (component : string)
| InvalidFreshDependency (component dependency : string)
| DeferredTransientDependency (component dependency : string)
| DuplicateProviderQualifier (trait_name qualifier scope : string)
| ScopeViolation (component dependency component_scope dependency_scope : string)
| OtherError (msg : string).

Inductive ProviderOrderDirection := Before | After.
Record ProviderOrder := mkOrder {
  po_target : TypeDescriptor; po_traits : list TypeDescriptor; po_direction : ProviderOrderDirection }.

Record ProviderDescriptor := mkProvider {
  trait_ty : TypeDescriptor;
  concrete_ty : TypeDescriptor;
  p_qualifier : string;
  primary : bool;
  priority : Z;
  ordering : list ProviderOrder;
}.
Definition trait_id (p : ProviderDescriptor) : TypeId := type_id (trait_ty p).
Definition concrete_id (p : ProviderDescriptor) : TypeId := type_id (concrete_ty p).

Section Component.
Context {Construct : Type}.
Record ComponentFactoryDescriptor := mkFactory {
  construct : Construct; factory_dependencies : list DependencyDescriptor; is_default : bool }.
Record ComponentDescriptor := mkComponent {
  c_id : string; c_name : string; c_ty : TypeDescriptor; c_scope : Scope;
  factories : list ComponentFactoryDescriptor;
}.
Definition component_ty_id (c : ComponentDescriptor) : TypeId := type_id (c_ty c).

(** [ComponentDescriptor::of] and [manual]: no factory. *)
Definition manual (id name : string) (ty : TypeDescriptor) (scope : Scope) : ComponentDescriptor :=
  mkComponent id name ty scope [].

(** [ComponentDescriptor::effective_factory] *)
Definition effective_factory (c : ComponentDescriptor) : result (option ComponentFactoryDescriptor) DiError :=
  match factories c with
  | [f] => Ok (Some f)
  | fs =>
      match List.filter (λ f, negb (is_default f)) fs with
      | _ :: _ :: _ => Err (AmbiguousFactory (c_name c))
      | [f] => Ok (Some f)
      | [] => Ok (List.find is_default fs)
      end
  end.
(** [ComponentDescriptor::dependencies] *)
Definition dependencies (c : ComponentDescriptor) : list DependencyDescriptor :=
  match effective_factory c with
  | Ok (Some f) => factory_dependencies f
  | _ => []
  end.
End Component.
Arguments ComponentFactoryDescriptor : clear implicits.
Arguments ComponentDescriptor : clear implicits.

(** [HashMap::entry(k).or_default().push(v)] over a list. *)
Definition group_by {A} (key : A → TypeId) (l : list A) : gmap TypeId (list A) :=
  foldl (λ m a, <[key a := from_option id [] (m !! key a) ++ [a]]> m) ∅ l.
Lemma group_by_lookup {A} (key : A → TypeId) (l : list A) k :
  from_option id [] (group_by key l !! k) = List.filter (λ a, key a =? k) l.
Proof.
  unfold group_by.
  assert (∀ m : gmap TypeId (list A), from_option id [] (foldl (λ m a, <[key a := from_option id [] (m !! key a) ++ [a]]> m) m l !! k)
    = from_option id [] (m !! k) ++ List.filter (λ a, key a =? k) l) as H; [|by rewrite H, lookup_empty].
  induction l as [|a l IH]; intros m; simpl; [by rewrite app_nil_r|]. rewrite IH.
  destruct (decide (key a = k)) as [Hk|Hk].
  - rewrite Hk, lookup_insert_eq, Z.eqb_refl. simpl. by rewrite <- app_assoc.
  - rewrite lookup_insert_ne by done. by rewrite (proj2 (Z.eqb_neq _ _) Hk).
Qed.
Lemma group_by_nonempty {A} (key : A → TypeId) (l : list A) k v : group_by key l !! k = Some v → v ≠ [].
Proof.
  unfold group_by. revert v. induction l as [|a l IH] using rev_ind; intros v; [done|].
  rewrite foldl_snoc. destruct (decide (key a = k)) as [->|Hk].
  - rewrite lookup_insert_eq. intros [= <-]. by destruct (from_option id [] _).
  - rewrite lookup_insert_ne by done. apply IH.
Qed.
Lemma group_by_Some {A} (key : A → TypeId) (l : list A) k v :
  group_by key l !! k = Some v ↔ v = List.filter (λ a, key a =? k) l ∧ v ≠ [].
Proof.
  pose proof (group_by_lookup key l k) as H. split.
  - intros Hv. rewrite Hv in H. simpl in H. split; [done|]. by eapply group_by_nonempty.
  - intros [-> Hne]. destruct (group_by key l !! k) as [v|]; simpl in H; subst; done.
Qed.

(** [container::select_single_provider]: the sole provider, or the only primary. *)
Definition select_single_provider (providers : list ProviderDescriptor) : option ProviderDescriptor :=
  match providers with
  | [p] => Some p
  | _ => match List.filter primary providers with [p] => Some p | _ => None end
  end.
(** [container::select_provider_for] *)
Definition select_provider_for (dep : DependencyDescriptor) (providers : list ProviderDescriptor) :
    option ProviderDescriptor :=
  match qualifier dep with
  | Some q => List.find (λ p, bool_decide (p_qualifier p = q)) providers
  | None => select_single_provider providers
  end.
