(* ===== verification/ProviderOrder.v ===== *)
(** * ProviderOrder: the per-trait collection order

    Models [crates/di/src/registry/order.rs]. For each trait the providers are
    sorted topologically by their before/after constraints, ties broken by
    priority, type name and qualifier. The two maps the source iterates
    ([by_concrete] and [by_trait]) have no defined order: the orders in which
    their keys come are the arguments [concretes] and [traits]. *)
From stdpp Require Import fin_sets.
From S2P Require Import Prelude CoreTypes DiTypes.

Section Order.
Context {Construct : Type}.
Abbreviation Component := (ComponentDescriptor Construct).

(** ** Declared targets *)

(** The checks of one ordering entry of [source]. *)
Definition check_ordering (component_ids : gset TypeId) (source_providers : list ProviderDescriptor)
    (source : ProviderDescriptor) (o : ProviderOrder) : result unit DiError :=
  let name := type_name (concrete_ty source) in
  if bool_decide (type_id (po_target o) ∉ component_ids) then
    Err (MissingProviderOrderTarget name (type_name (po_target o)))
  else if type_id (po_target o) =? concrete_id source then Err (SelfProviderOrder name)
  else
    match List.find (λ t, negb (existsb (λ p, trait_id p =? type_id t) source_providers)) (po_traits o) with
    | Some t => Err (ProviderOrderSourceTraitMismatch name (type_name t))
    | None => Ok tt
    end.
Fixpoint check_all {A} (f : A → result unit DiError) (l : list A) : result unit DiError :=
  match l with
  | [] => Ok tt
  | a :: l' => match f a with Ok _ => check_all f l' | Err e => Err e end
  end.
Definition check_source (component_ids : gset TypeId) (source_providers : list ProviderDescriptor) :
    result unit DiError :=
  match source_providers with
  | [] => Ok tt
  | source :: _ => check_all (check_ordering component_ids source_providers source) (ordering source)
  end.

(** ** One trait *)

(** [edges] and [indegree]. *)
Record Graph := mkGraph { edges : gmap TypeId (gset TypeId); indegree : gmap TypeId nat }.
Definition successors (g : Graph) (u : TypeId) : gset TypeId := from_option id ∅ (edges g !! u).

Definition add_edge (from to : TypeId) (g : Graph) : Graph :=
  if bool_decide (to ∈ successors g from) then g
  else mkGraph (<[from := {[to]} ∪ successors g from]> (edges g))
         (<[to := S (from_option id 0%nat (indegree g !! to))]> (indegree g)).

(** One ordering entry of one source, for the trait [t]. *)
Definition add_ordering (t : TypeId) (trait_providers : list ProviderDescriptor) (source : ProviderDescriptor)
    (g : Graph) (o : ProviderOrder) : result Graph DiError :=
  match po_traits o with
  | _ :: _ =>
      if existsb (λ ty, type_id ty =? t) (po_traits o) then
        if existsb (λ p, concrete_id p =? type_id (po_target o)) trait_providers then
          Ok (match po_direction o with
              | Before => add_edge (concrete_id source) (type_id (po_target o)) g
              | After => add_edge (type_id (po_target o)) (concrete_id source) g
              end)
        else Err (ProviderOrderTargetTraitMismatch (type_name (concrete_ty source)) (type_name (po_target o))
                    (type_name (trait_ty source)))
      else Ok g
  | [] =>
      if existsb (λ p, concrete_id p =? type_id (po_target o)) trait_providers then
        Ok (match po_direction o with
            | Before => add_edge (concrete_id source) (type_id (po_target o)) g
            | After => add_edge (type_id (po_target o)) (concrete_id source) g
            end)
      else Ok g
  end.
Fixpoint fold_ok {A} (f : Graph → A → result Graph DiError) (g : Graph) (l : list A) : result Graph DiError :=
  match l with
  | [] => Ok g
  | a :: l' => match f g a with Ok g' => fold_ok f g' l' | Err e => Err e end
  end.
Definition build_graph (t : TypeId) (trait_providers : list ProviderDescriptor) : result Graph DiError :=
  fold_ok (λ g source, fold_ok (add_ordering t trait_providers source) g (ordering source))
    (mkGraph ∅ (list_to_map ((λ p, (concrete_id p, 0%nat)) <$> trait_providers))) trait_providers.

(** The comparator of [min_by]: priority, then type name, then qualifier. *)
Definition provider_compare (l r : ProviderDescriptor) : comparison :=
  then_with (Z.compare (priority l) (priority r))
    (then_with (String.compare (type_name (concrete_ty l)) (type_name (concrete_ty r)))
       (String.compare (p_qualifier l) (p_qualifier r))).
(** [Iterator::min_by]: the first of the least elements. *)
Fixpoint min_by (l : list ProviderDescriptor) : option ProviderDescriptor :=
  match l with
  | [] => None
  | p :: l' =>
      match min_by l' with
      | None => Some p
      | Some q => match provider_compare q p with Lt => Some q | _ => Some p end
      end
  end.

Definition ready (g : Graph) (ordered : list TypeId) (p : ProviderDescriptor) : bool :=
  bool_decide (indegree g !! concrete_id p = Some 0%nat) && bool_decide (concrete_id p ∉ ordered).

(** [*indegree.get_mut(s).expect(..) -= 1] for every successor; [None] is the
    panic of a missing entry or of an underflow. *)
Fixpoint decrement (succs : list TypeId) (deg : gmap TypeId nat) : option (gmap TypeId nat) :=
  match succs with
  | [] => Some deg
  | s :: succs' =>
      match deg !! s with
      | Some (S n) => decrement succs' (<[s := n]> deg)
      | _ => None
      end
  end.

(** The selection loop; [None] is a panic. *)
Fixpoint order_loop (fuel : nat) (trait_providers : list ProviderDescriptor) (g : Graph) (ordered : list TypeId) :
    option (result (list TypeId) DiError) :=
  if (length ordered <? length trait_providers)%nat then
    match fuel with
    | O => None
    | S fuel' =>
        match min_by (List.filter (ready g ordered) trait_providers) with
        | None =>
            Some (Err (ProviderOrderCycle
              (from_option (λ p, type_name (trait_ty p)) "" (head trait_providers))
              ((λ p, type_name (concrete_ty p)) <$>
                 List.filter (λ p, bool_decide (concrete_id p ∉ ordered)) trait_providers)))
        | Some next =>
            deg ← decrement (elements (successors g (concrete_id next))) (indegree g);
            order_loop fuel' trait_providers (mkGraph (edges g) deg) (ordered ++ [concrete_id next])
        end
    end
  else Some (Ok ordered).

Definition order_trait (t : TypeId) (trait_providers : list ProviderDescriptor) :
    option (result (list TypeId) DiError) :=
  match build_graph t trait_providers with
  | Err e => Some (Err e)
  | Ok g => order_loop (S (length trait_providers)) trait_providers g []
  end.

(** ** All traits *)

Definition ordinals (ordered : list TypeId) : gmap TypeId nat :=
  list_to_map (imap (λ i c, (c, i)) ordered).

Fixpoint plan_traits (by_trait : gmap TypeId (list ProviderDescriptor)) (traits : list TypeId)
    (plan : gmap TypeId (gmap TypeId nat)) : option (result (gmap TypeId (gmap TypeId nat)) DiError) :=
  match traits with
  | [] => Some (Ok plan)
  | t :: traits' =>
      match order_trait t (from_option id [] (by_trait !! t)) with
      | None => None
      | Some (Err e) => Some (Err e)
      | Some (Ok ordered) => plan_traits by_trait traits' (<[t := ordinals ordered]> plan)
      end
  end.

(** [order::build] *)
Definition build (concretes traits : list TypeId) (components : list Component)
    (providers : list ProviderDescriptor) : option (result (gmap TypeId (gmap TypeId nat)) DiError) :=
  let component_ids : gset TypeId := list_to_set (component_ty_id <$> components) in
  let by_concrete := group_by concrete_id providers in
  let by_trait := group_by trait_id providers in
  match check_all (λ c, check_source component_ids (from_option id [] (by_concrete !! c))) concretes with
  | Err e => Some (Err e)
  | Ok _ => plan_traits by_trait traits ∅
  end.
End Order.

(** ** The graph *)

Definition node (ps : list ProviderDescriptor) (u : TypeId) : Prop := u ∈ concrete_id <$> ps.
Definition preds (g : Graph) (v : TypeId) : gset TypeId := filter (λ u, v ∈ successors g u) (dom (edges g)).

Lemma elem_of_preds g u v : u ∈ preds g v ↔ v ∈ successors g u.
Proof.
  unfold preds. rewrite elem_of_filter, elem_of_dom. unfold successors.
  destruct (edges g !! u) eqn:H; simpl; [|set_solver]. split; [by intros [? _]|]. intros; split; [done|eauto].
Qed.
Lemma successors_add_edge from to g u :
  successors (add_edge from to g) u = if decide (u = from) then {[to]} ∪ successors g from else successors g u.
Proof.
  unfold add_edge. case_bool_decide as Hin.
  - case_decide; [subst; set_solver|done].
  - unfold successors at 1. simpl. case_decide as Hu; [subst; by rewrite lookup_insert_eq|by rewrite lookup_insert_ne].
Qed.

Lemma preds_add_edge from to g v :
  preds (add_edge from to g) v = if decide (v = to) then {[from]} ∪ preds g v else preds g v.
Proof.
  apply set_eq. intros u. rewrite elem_of_preds, successors_add_edge.
  case_decide as Hu; case_decide as Hv; subst; rewrite ?elem_of_union, ?elem_of_singleton, ?elem_of_preds; naive_solver.
Qed.

(** A constraint declared by some provider of the trait, as an edge. *)
Definition order_constraint (t : TypeId) (ps : list ProviderDescriptor) (u v : TypeId) : Prop :=
  ∃ source o, source ∈ ps ∧ o ∈ ordering source ∧
    (po_traits o = [] ∨ t ∈ type_id <$> po_traits o) ∧ node ps (type_id (po_target o)) ∧
    match po_direction o with
    | Before => u = concrete_id source ∧ v = type_id (po_target o)
    | After => u = type_id (po_target o) ∧ v = concrete_id source
    end.

(** Indegrees count the predecessors not yet placed. *)
Record graph_ok (ps : list ProviderDescriptor) (g : Graph) (placed : gset TypeId) : Prop := {
  graph_nodes u v : v ∈ successors g u → node ps u ∧ node ps v;
  graph_dom v : is_Some (indegree g !! v) → node ps v;
  graph_degree v : node ps v → indegree g !! v = Some (size (preds g v ∖ placed));
}.

Lemma existsb_node (ps : list ProviderDescriptor) x : existsb (λ p, concrete_id p =? x) ps = true ↔ node ps x.
Proof.
  rewrite existsb_exists. unfold node. rewrite list_elem_of_fmap. split.
  - intros (p & Hp & Hx). apply Z.eqb_eq in Hx. exists p. split; [done|by apply list_elem_of_In].
  - intros (p & -> & Hp). exists p. split; [by apply list_elem_of_In|apply Z.eqb_refl].
Qed.
Lemma existsb_type (l : list TypeDescriptor) x : existsb (λ ty, type_id ty =? x) l = true ↔ x ∈ type_id <$> l.
Proof.
  rewrite existsb_exists, list_elem_of_fmap. split.
  - intros (p & Hp & Hx). apply Z.eqb_eq in Hx. exists p. split; [done|by apply list_elem_of_In].
  - intros (p & -> & Hp). exists p. split; [by apply list_elem_of_In|apply Z.eqb_refl].
Qed.

Lemma add_edge_ok ps g from to :
  graph_ok ps g ∅ → node ps from → node ps to → graph_ok ps (add_edge from to g) ∅.
Proof.
  intros [Hn Hd Hdeg] Hf Ht. split.
  - intros u v. rewrite successors_add_edge. case_decide; [subst|by apply Hn].
    rewrite elem_of_union, elem_of_singleton. intros [->|Hv]; [done|by apply Hn].
  - intros v. unfold add_edge. case_bool_decide; [by apply Hd|]. simpl.
    destruct (decide (v = to)) as [->|Hne]; [done|]. rewrite lookup_insert_ne by done. apply Hd.
  - intros v Hv. rewrite preds_add_edge. unfold add_edge. case_bool_decide as Hin.
    { rewrite (Hdeg v Hv). case_decide as Hvt; [|done]. subst v. apply elem_of_preds in Hin.
      replace ({[from]} ∪ preds g to) with (preds g to) by set_solver. done. }
    simpl. destruct (decide (v = to)) as [->|Hne].
    + rewrite lookup_insert_eq, (Hdeg to Ht). simpl. f_equal.
      replace (({[from]} ∪ preds g to) ∖ ∅) with ({[from]} ∪ (preds g to ∖ ∅)) by set_solver.
      rewrite (size_union {[from]} (preds g to ∖ ∅)); [by rewrite size_singleton|].
      apply disjoint_singleton_l. rewrite elem_of_difference, elem_of_preds. tauto.
    + rewrite lookup_insert_ne by done. by apply Hdeg.
Qed.

Lemma fold_ok_inv {A} (P : Graph → Prop) (f : Graph → A → result Graph DiError) l g g' :
  P g → (∀ g a g1, a ∈ l → P g → f g a = Ok g1 → P g1) → fold_ok f g l = Ok g' → P g'.
Proof.
  revert g. induction l as [|a l IH]; intros g Hg Hf; simpl; [by intros [= <-]|].
  destruct (f g a) as [g1|] eqn:Hfa; [|done]. apply IH; [eapply Hf; [left|done|done]|].
  intros g2 b g3 Hb. apply Hf. by right.
Qed.
(** What one ordering entry adds, and the only way it fails. *)
Definition edge_of (source : ProviderDescriptor) (o : ProviderOrder) : TypeId * TypeId :=
  match po_direction o with
  | Before => (concrete_id source, type_id (po_target o))
  | After => (type_id (po_target o), concrete_id source)
  end.
Definition applies (t : TypeId) (ps : list ProviderDescriptor) (o : ProviderOrder) : Prop :=
  (po_traits o = [] ∨ t ∈ type_id <$> po_traits o) ∧ node ps (type_id (po_target o)).
Lemma add_ordering_ok t ps source g o g' :
  add_ordering t ps source g o = Ok g' →
  (applies t ps o ∧ g' = add_edge (edge_of source o).1 (edge_of source o).2 g) ∨ (¬ applies t ps o ∧ g' = g).
Proof.
  unfold add_ordering, applies, edge_of. rewrite <- existsb_type, <- existsb_node.
  destruct (po_traits o) as [|ty tys].
  - destruct (existsb _ ps) eqn:Hn; intros [= <-]; [left|right; naive_solver]. destruct (po_direction o); auto.
  - destruct (existsb (λ ty, type_id ty =? t) _) eqn:Ht; [|intros [= <-]; right; naive_solver].
    destruct (existsb _ ps) eqn:Hn; [|done]. intros [= <-]. left. destruct (po_direction o); auto.
Qed.
Lemma edge_of_nodes ps source o : source ∈ ps → node ps (type_id (po_target o)) →
  node ps (edge_of source o).1 ∧ node ps (edge_of source o).2.
Proof.
  intros Hs Ht. assert (node ps (concrete_id source)) by (by apply list_elem_of_fmap_2).
  unfold edge_of. by destruct (po_direction o).
Qed.

Lemma build_graph_ok t ps g : build_graph t ps = Ok g → graph_ok ps g ∅.
Proof.
  unfold build_graph. apply (fold_ok_inv (λ g, graph_ok ps g ∅)).
  - assert (∀ v, is_Some ((list_to_map ((λ p, (concrete_id p, 0%nat)) <$> ps) : gmap TypeId nat) !! v) → node ps v) as Hdom.
    { intros v [n Hv]. apply elem_of_list_to_map_2 in Hv. apply list_elem_of_fmap in Hv as (p & [= -> ->] & Hp).
      by apply list_elem_of_fmap_2. }
    split; simpl; [by intros u v; unfold successors; simpl; rewrite lookup_empty|done|].
    intros v Hv. assert (preds (mkGraph ∅ (list_to_map ((λ p, (concrete_id p, 0%nat)) <$> ps))) v = ∅) as ->.
    { apply set_eq. intros u. rewrite elem_of_preds. unfold successors. simpl. rewrite lookup_empty. set_solver. }
    rewrite difference_empty_L, size_empty.
    clear Hdom. unfold node in Hv. induction ps as [|p ps IH]; [by apply not_elem_of_nil in Hv|]. simpl in *.
    destruct (decide (v = concrete_id p)) as [->|Hne]; [by rewrite lookup_insert_eq|].
    rewrite lookup_insert_ne by done. apply IH. apply elem_of_cons in Hv as [|]; done.
  - intros g0 source g1 Hs Hg0. apply (fold_ok_inv (λ g, graph_ok ps g ∅)); [done|]. intros g2 o g3 Ho Hg2 Hadd.
    apply add_ordering_ok in Hadd as [[[_ Ht] ->]|[_ ->]]; [|done].
    destruct (edge_of_nodes ps source o Hs Ht). by apply add_edge_ok.
Qed.

(** The edges are exactly the declared constraints. *)
Definition adds_edges {A} (f : Graph → A → result Graph DiError) (E : A → TypeId → TypeId → Prop) (l : list A) : Prop :=
  ∀ a g g', a ∈ l → f g a = Ok g' → ∀ u v, v ∈ successors g' u ↔ v ∈ successors g u ∨ E a u v.
Lemma fold_ok_edges {A} (f : Graph → A → result Graph DiError) E l g g' :
  adds_edges f E l → fold_ok f g l = Ok g' →
  ∀ u v, v ∈ successors g' u ↔ v ∈ successors g u ∨ ∃ a, a ∈ l ∧ E a u v.
Proof.
  revert g. induction l as [|a l IH]; intros g Hf; simpl.
  - intros [= <-] u v. split; [auto|]. intros [|(a & Ha & _)]; [done|by apply not_elem_of_nil in Ha].
  - destruct (f g a) as [g1|] eqn:Hfa; [|done]. intros Hrest u v.
    rewrite (IH g1) by (try done; intros b g2 g3 Hb; apply Hf; by right).
    rewrite (Hf a g g1) by (try done; left). split.
    + intros [[|]|(b & Hb & He)]; [auto|right; exists a; split; [left|done]|right; exists b; split; [by right|done]].
    + intros [|(b & [->|Hb]%elem_of_cons & He)]; eauto.
Qed.
Definition source_edge (t : TypeId) (ps : list ProviderDescriptor) (source : ProviderDescriptor) (u v : TypeId) : Prop :=
  ∃ o, o ∈ ordering source ∧ applies t ps o ∧ edge_of source o = (u, v).
Lemma source_adds t ps : adds_edges (λ g source, fold_ok (add_ordering t ps source) g (ordering source)) (source_edge t ps) ps.
Proof.
  intros source g g' Hs Hf u v. unfold source_edge.
  refine (fold_ok_edges (add_ordering t ps source) (λ o u v, applies t ps o ∧ edge_of source o = (u, v)) _ g g' _ Hf u v).
  intros o g1 g2 Ho Hadd x y. apply add_ordering_ok in Hadd as [[Ha ->]|[Ha ->]]; [|naive_solver].
  rewrite successors_add_edge. destruct (edge_of source o) as [from to]. simpl. case_decide; subst; set_solver.
Qed.
Lemma build_graph_edges t ps g u v : build_graph t ps = Ok g → v ∈ successors g u ↔ order_constraint t ps u v.
Proof.
  unfold build_graph. intros Hb.
  rewrite (fold_ok_edges _ _ _ _ _ (source_adds t ps) Hb u v). unfold source_edge.
  unfold successors at 1. simpl. rewrite lookup_empty. simpl. unfold order_constraint, applies, edge_of. split.
  - intros [|(source & Hs & o & Ho & [Ht Hn] & He)]; [set_solver|]. exists source, o. repeat split; try done.
    destruct (po_direction o); by simplify_eq.
  - intros (source & o & Hs & Ho & Ht & Hn & He). right. exists source. split; [done|]. exists o. split; [done|].
    split; [done|]. destruct (po_direction o); by destruct He as [-> ->].
Qed.

(** ** The selection *)

#[local] Instance provider_compare_good : GoodCompare provider_compare.
Proof.
  assert (GoodCompare (λ l r, then_with (Z.compare (priority l) (priority r))
    (then_with (String.compare (type_name (concrete_ty l)) (type_name (concrete_ty r)))
       (String.compare (p_qualifier l) (p_qualifier r))))) as H.
  { apply then_with_good; [exact (compare_on_good priority _ _)|].
    apply then_with_good; [exact (compare_on_good (λ p, type_name (concrete_ty p)) _ _)|exact (compare_on_good p_qualifier _ _)]. }
  exact H.
Qed.
Lemma min_by_spec l p : min_by l = Some p → p ∈ l ∧ ∀ q, q ∈ l → provider_compare p q ≠ Gt.
Proof.
  revert p. induction l as [|x l IH]; intros p; simpl; [done|].
  destruct (min_by l) as [q|] eqn:Hm.
  - destruct (IH q eq_refl) as [Hq Hmin]. destruct (provider_compare q x) eqn:Hc; intros [= <-].
    + split; [left|]. assert (provider_compare x q = Eq) as Hxq by (rewrite (compare_flip q x), Hc; done).
      intros y [->|Hy]%elem_of_cons; [by rewrite compare_refl by apply _|].
      rewrite (compare_eq_l provider_compare x q y Hxq). by apply Hmin.
    + split; [by right|]. intros y [->|Hy]%elem_of_cons; [by rewrite Hc|by apply Hmin].
    + split; [left|]. assert (provider_compare x q = Lt) as Hxq by (rewrite (compare_flip q x), Hc; done).
      intros y [->|Hy]%elem_of_cons; [by rewrite compare_refl by apply _|].
      apply (compare_le_trans provider_compare x q y); [by rewrite Hxq|by apply Hmin].
  - intros [= <-]. destruct l as [|y l]; [|simpl in Hm; destruct (min_by l); repeat case_match; done].
    split; [left|]. intros y ->%list_elem_of_singleton. by rewrite compare_refl by apply _.
Qed.
Lemma min_by_None l : min_by l = None → l = [].
Proof. destruct l as [|x l]; [done|]. simpl. destruct (min_by l); repeat case_match; done. Qed.

Lemma decrement_spec succs deg :
  NoDup succs → (∀ s, s ∈ succs → ∃ n, deg !! s = Some (S n)) →
  ∃ deg', decrement succs deg = Some deg' ∧
    ∀ v, deg' !! v = if decide (v ∈ succs) then pred <$> deg !! v else deg !! v.
Proof.
  revert deg. induction succs as [|s succs IH]; intros deg Hn Hs; simpl.
  { exists deg. split; [done|]. done. }
  inversion Hn as [|?? Hns Hn']; subst. destruct (Hs s ltac:(left)) as [n Hn0]. rewrite Hn0.
  destruct (IH (<[s := n]> deg) Hn') as (deg' & Hdeg & Hv).
  { intros s' Hs'. rewrite lookup_insert_ne by (by intros ->). apply Hs. by right. }
  exists deg'. split; [done|]. intros v. rewrite Hv. destruct (decide (v = s)) as [->|Hne].
  - case_decide; [done|]. case_decide as Hsin; [by rewrite lookup_insert_eq, Hn0|]. destruct Hsin. left.
  - rewrite lookup_insert_ne by done. case_decide as H1; case_decide as H2; try done; exfalso.
    + apply H2. by right.
    + by apply elem_of_cons in H2 as [|].
Qed.

(** Placing a node all of whose predecessors are placed. *)
Lemma place_ok ps g placed u :
  graph_ok ps g placed → node ps u → u ∉ placed →
  ∃ deg, decrement (elements (successors g u)) (indegree g) = Some deg ∧
    graph_ok ps (mkGraph (edges g) deg) ({[u]} ∪ placed).
Proof.
  intros [Hn Hd Hdeg] Hu Hup.
  assert (∀ v, v ∈ successors g u → preds g v ∖ placed = {[u]} ∪ (preds g v ∖ ({[u]} ∪ placed))) as Hsplit.
  { intros v Hv. apply set_eq. intros w. rewrite elem_of_union, !elem_of_difference, elem_of_union, !elem_of_singleton.
    assert (u ∈ preds g v) by by apply elem_of_preds. destruct (decide (w = u)) as [->|]; naive_solver. }
  assert (∀ v, v ∈ successors g u → size (preds g v ∖ placed) = S (size (preds g v ∖ ({[u]} ∪ placed)))) as Hsize.
  { intros v Hv. rewrite (Hsplit v Hv). rewrite (size_union {[u]} (preds g v ∖ ({[u]} ∪ placed))); [by rewrite size_singleton|].
    set_solver. }
  destruct (decrement_spec (elements (successors g u)) (indegree g)) as (deg & Hdec & Hlook).
  { apply NoDup_elements. }
  { intros s Hs%elem_of_elements. destruct (Hn u s Hs) as [_ Hs']. rewrite (Hdeg s Hs'), (Hsize s Hs). eauto. }
  exists deg. split; [done|]. split; simpl.
  - done.
  - intros v. rewrite Hlook. case_decide; [rewrite fmap_is_Some|]; apply Hd.
  - intros v Hv. rewrite Hlook, (Hdeg v Hv). change (preds (mkGraph (edges g) deg) v) with (preds g v).
    case_decide as Hin.
    + apply elem_of_elements in Hin. rewrite (Hsize v Hin). done.
    + rewrite elem_of_elements in Hin. do 2 f_equal. apply set_eq. intros w.
      rewrite !elem_of_difference, elem_of_union, elem_of_singleton, elem_of_preds.
      destruct (decide (w = u)) as [->|]; naive_solver.
Qed.

(** ** The loop *)

(** Why [a] may be placed right after [l1]: all its predecessors are in [l1],
    and it is least among the providers for which that holds. *)
Definition placed_well (ps : list ProviderDescriptor) (E : TypeId → TypeId → Prop) (l1 : list TypeId) (a : TypeId) : Prop :=
  (∀ u, E u a → u ∈ l1) ∧
  ∃ pa, pa ∈ ps ∧ concrete_id pa = a ∧
    ∀ pb, pb ∈ ps → concrete_id pb ∉ l1 → (∀ u, E u (concrete_id pb) → u ∈ l1) → provider_compare pa pb ≠ Gt.
Definition well_ordered (ps : list ProviderDescriptor) (E : TypeId → TypeId → Prop) (ordered : list TypeId) : Prop :=
  NoDup ordered ∧ (∀ u, u ∈ ordered → node ps u) ∧
  ∀ l1 a l2, ordered = l1 ++ a :: l2 → placed_well ps E l1 a.
(** A non-empty set of providers each of which waits for another one of it. *)
Definition stuck (ps : list ProviderDescriptor) (E : TypeId → TypeId → Prop) : Prop :=
  ∃ S : gset TypeId, S ≠ ∅ ∧ ∀ v, v ∈ S → node ps v ∧ ∃ u, u ∈ S ∧ E u v.

Lemma well_ordered_snoc ps E ordered a :
  well_ordered ps E ordered → a ∉ ordered → node ps a → placed_well ps E ordered a →
  well_ordered ps E (ordered ++ [a]).
Proof.
  intros (Hn & Hnode & Hwell) Ha Hna Hp. split; [|split].
  - apply NoDup_app. split; [done|]. split; [|apply NoDup_singleton].
    intros x Hx ->%list_elem_of_singleton. done.
  - intros u [Hu| ->%list_elem_of_singleton]%elem_of_app; [by apply Hnode|done].
  - intros l1 b l2 Heq. destruct l2 as [|c l2 _] using rev_ind.
    + apply app_inj_2 in Heq as [-> [= ->]]; done.
    + rewrite app_comm_cons, app_assoc in Heq. apply app_inj_2 in Heq as [Heq _]; [|done]. by eapply Hwell.
Qed.

Definition edge (g : Graph) (u v : TypeId) : Prop := v ∈ successors g u.
Lemma ready_spec ps g ordered p :
  graph_ok ps g (list_to_set ordered) → p ∈ ps →
  (ready g ordered p = true) ↔ ((concrete_id p ∉ ordered) ∧ ∀ u, edge g u (concrete_id p) → u ∈ ordered).
Proof.
  intros [Hn Hd Hdeg] Hp. unfold ready. rewrite andb_true_iff, !bool_decide_eq_true.
  rewrite (Hdeg (concrete_id p)) by by apply list_elem_of_fmap_2.
  assert ((Some (size (preds g (concrete_id p) ∖ list_to_set ordered)) = Some 0%nat) ↔
    ∀ u, edge g u (concrete_id p) → u ∈ ordered) as ->; [|tauto].
  split.
  - intros [= Hs] u Hu. apply size_empty_inv in Hs. apply elem_of_preds in Hu.
    destruct (decide (u ∈ ordered)) as [|Hno]; [done|]. exfalso. apply (not_elem_of_empty (C := gset TypeId) u).
    rewrite <- Hs, elem_of_difference, elem_of_list_to_set. done.
  - intros Hall. f_equal. apply size_empty_iff, elem_of_equiv_empty. intros u. rewrite elem_of_difference, elem_of_list_to_set, elem_of_preds.
    intros [Hu Hno]. by apply Hno, Hall.
Qed.

Lemma order_loop_spec fuel ps g ordered :
  graph_ok ps g (list_to_set ordered) → well_ordered ps (edge g) ordered →
  (length ps ≤ length ordered + fuel)%nat →
  ∃ r, order_loop fuel ps g ordered = Some r ∧
    match r with
    | Ok final => well_ordered ps (edge g) final ∧ (length ps ≤ length final)%nat
    | Err e => (∃ t l, e = ProviderOrderCycle t l) ∧ (NoDup (concrete_id <$> ps) → stuck ps (edge g))
    end.
Proof.
  revert g ordered. induction fuel as [|fuel IH]; intros g ordered Hg Hw Hlen; simpl.
  - rewrite (proj2 (Nat.ltb_ge _ _)) by lia. eexists. split; [done|]. simpl. split; [done|lia].
  - destruct (Nat.ltb_spec (length ordered) (length ps)) as [Hlt|Hge]; [|eexists; by split].
    destruct (min_by _) as [next|] eqn:Hmin.
    + apply min_by_spec in Hmin as [Hin Hleast]. apply list_elem_of_In, filter_In in Hin as [Hin Hready].
      apply list_elem_of_In in Hin. apply (ready_spec ps) in Hready as [Hnew Hpre]; [|done..].
      assert (node ps (concrete_id next)) as Hnode by by apply list_elem_of_fmap_2.
      destruct (place_ok ps g (list_to_set ordered) (concrete_id next)) as (deg & Hdec & Hg'); [done|done| |].
      { by rewrite elem_of_list_to_set. }
      rewrite Hdec. simpl. apply (IH (mkGraph (edges g) deg) (ordered ++ [concrete_id next])).
      * replace (list_to_set (ordered ++ [concrete_id next]) : gset TypeId) with
          ({[concrete_id next]} ∪ list_to_set ordered : gset TypeId) by set_solver. done.
      * apply well_ordered_snoc; try done. split; [done|]. exists next. repeat split; [done|].
        intros pb Hpb Hnb Hpreb. apply Hleast. apply list_elem_of_In, filter_In. split; [by apply list_elem_of_In|].
        by apply (ready_spec ps).
      * rewrite length_app. simpl. lia.
    + apply min_by_None in Hmin. eexists. split; [done|]. simpl. split; [by eexists _, _|]. intros Hn.
      exists (list_to_set (concrete_id <$> ps) ∖ list_to_set ordered). split.
      * intros Hempty. destruct Hw as (Hno & Hsub & _).
        assert (concrete_id <$> ps ⊆+ ordered) as Hle%submseteq_length; [|rewrite length_fmap in Hle; lia].
        apply NoDup_submseteq; [done|]. intros x Hx. destruct (decide (x ∈ ordered)); [done|].
        exfalso. apply (not_elem_of_empty (C := gset TypeId) x). rewrite <- Hempty. set_solver.
      * intros v Hv. apply elem_of_difference in Hv as [Hv Hvo]. rewrite elem_of_list_to_set in Hv, Hvo.
        split; [done|]. apply list_elem_of_fmap in Hv as Hv'. destruct Hv' as (p & Hvp & Hp).
        assert (ready g ordered p = false) as Hr.
        { destruct (ready g ordered p) eqn:Hr; [|done]. exfalso.
          assert (p ∈ List.filter (ready g ordered) ps) as Hpf by (apply list_elem_of_In, filter_In; split; [by apply list_elem_of_In|done]).
          rewrite Hmin in Hpf. by apply not_elem_of_nil in Hpf. }
        destruct (decide (preds g v ⊆ list_to_set ordered)) as [Hsub|Hsub].
        -- apply not_true_iff_false in Hr. destruct Hr. apply (ready_spec ps); [done|done|]. rewrite <- Hvp.
           split; [done|]. intros u Hu. apply elem_of_preds in Hu. apply Hsub in Hu. by rewrite elem_of_list_to_set in Hu.
        -- assert (preds g v ∖ list_to_set ordered ≠ ∅) as [u Hu]%set_choose_L.
           { intros He. apply Hsub. by apply subseteq_empty_difference_L in He || by apply empty_difference_subseteq_L. }
           apply elem_of_difference in Hu as [Hu Huo]. apply elem_of_preds in Hu. exists u. split; [|done].
           rewrite elem_of_difference, elem_of_list_to_set. split; [|done]. by apply (graph_nodes _ _ _ Hg) in Hu as [? _].
Qed.

(** ** The plan of one trait *)

(** An entry restricted to [t] whose target does not provide [t]. *)
Definition dangling (t : TypeId) (ps : list ProviderDescriptor) : Prop :=
  ∃ source o, source ∈ ps ∧ o ∈ ordering source ∧ t ∈ type_id <$> po_traits o ∧ ¬ node ps (type_id (po_target o)).

Lemma fold_ok_err {A} (f : Graph → A → result Graph DiError) l g e :
  fold_ok f g l = Err e → ∃ a g', a ∈ l ∧ f g' a = Err e.
Proof.
  revert g. induction l as [|a l IH]; intros g; simpl; [done|]. destruct (f g a) as [g1|e1] eqn:Ha.
  - intros (b & g' & Hb & He)%IH. exists b, g'. split; [by right|done].
  - intros [= ->]. exists a, g. split; [left|done].
Qed.
Lemma fold_ok_ok {A} (f : Graph → A → result Graph DiError) l g g' :
  fold_ok f g l = Ok g' → ∀ a, a ∈ l → ∃ g1 g2, f g1 a = Ok g2.
Proof.
  revert g. induction l as [|a l IH]; intros g; simpl; [intros _ a Ha; by apply not_elem_of_nil in Ha|].
  destruct (f g a) as [g1|] eqn:Ha; [|done]. intros Hr b [->|Hb]%elem_of_cons; [eauto|by eapply IH].
Qed.
Lemma build_graph_err t ps e : build_graph t ps = Err e →
  (∃ a b c, e = ProviderOrderTargetTraitMismatch a b c) ∧ dangling t ps.
Proof.
  unfold build_graph. intros (source & g & Hs & (o & g' & Ho & He)%fold_ok_err)%fold_ok_err.
  unfold add_ordering in He. destruct (po_traits o) eqn:Hpo; [by case_match|].
  destruct (existsb (λ ty, type_id ty =? t) _) eqn:Ht; [|done]. destruct (existsb _ ps) eqn:Hn; [done|].
  simplify_eq. split; [by eexists _, _, _|]. exists source, o. rewrite Hpo. apply existsb_type in Ht. repeat split; try done.
  rewrite <- existsb_node. by rewrite Hn.
Qed.
Lemma build_graph_not_dangling t ps g : build_graph t ps = Ok g → ¬ dangling t ps.
Proof.
  unfold build_graph. intros Hb (source & o & Hs & Ho & Ht & Hn).
  destruct (fold_ok_ok _ _ _ _ Hb source Hs) as (g1 & g2 & Hin).
  destruct (fold_ok_ok _ _ _ _ Hin o Ho) as (g3 & g4 & Hadd). unfold add_ordering in Hadd.
  apply existsb_type in Ht. rewrite <- existsb_node in Hn. apply not_true_is_false in Hn.
  destruct (po_traits o) eqn:Hpo; [done|]. by rewrite Ht, Hn in Hadd.
Qed.
Lemma well_ordered_ext ps (E1 E2 : TypeId → TypeId → Prop) l :
  (∀ u v, E1 u v ↔ E2 u v) → well_ordered ps E1 l → well_ordered ps E2 l.
Proof.
  intros HE (Hn & Hs & Hw). split; [done|]. split; [done|]. intros l1 a l2 Heq.
  destruct (Hw l1 a l2 Heq) as (Hp & pa & Hpa & Ha & Hmin). split; [intros u Hu; by apply Hp, HE|].
  exists pa. repeat split; try done. intros pb Hpb Hnb Hpre. apply Hmin; try done. intros u Hu. by apply Hpre, HE.
Qed.
Lemma order_trait_cases t ps :
  ∃ r, order_trait t ps = Some r ∧
    match r with
    | Ok ordered => ¬ dangling t ps ∧ well_ordered ps (order_constraint t ps) ordered ∧ ordered ≡ₚ concrete_id <$> ps
    | Err (ProviderOrderTargetTraitMismatch _ _ _) => dangling t ps
    | Err (ProviderOrderCycle _ _) => ¬ dangling t ps ∧ (NoDup (concrete_id <$> ps) → stuck ps (order_constraint t ps))
    | Err _ => False
    end.
Proof.
  unfold order_trait. destruct (build_graph t ps) as [g|e] eqn:Hb.
  - pose proof (build_graph_not_dangling _ _ _ Hb) as Hnd.
    destruct (order_loop_spec (S (length ps)) ps g []) as (r & Hr & Hspec).
    + by eapply build_graph_ok.
    + split; [constructor|]. split; [set_solver|]. intros l1 a l2 Heq. by destruct l1.
    + simpl. lia.
    + exists r. split; [done|]. pose proof (λ u v, build_graph_edges t ps g u v Hb) as HE. destruct r as [ordered|e].
      * destruct Hspec as [Hw Hlen]. split; [done|]. split; [by eapply (well_ordered_ext ps (edge g))|].
        destruct Hw as (Hn & Hs & _). apply submseteq_length_Permutation; [by apply NoDup_submseteq|by rewrite length_fmap].
      * destruct Hspec as [(t' & l & ->) Hst]. split; [done|]. intros Hn. destruct (Hst Hn) as (S & HS & Hv).
        exists S. split; [done|]. intros v Hv'. destruct (Hv v Hv') as (? & u & ? & ?). split; [done|]. exists u. by rewrite <- HE.
  - apply build_graph_err in Hb as [(a & b & c & ->) Hd]. by eexists.
Qed.
(** Nobody in a well-ordered list waits for itself in a circle. *)
Lemma well_ordered_not_stuck ps (E : TypeId → TypeId → Prop) ordered :
  well_ordered ps E ordered → (∀ u, node ps u → u ∈ ordered) → ¬ stuck ps E.
Proof.
  intros (Hn & _ & Hw) Hall (S & HS & Hv).
  assert (∀ l1 l2, ordered = l1 ++ l2 → ∀ v, v ∈ l1 → v ∉ S) as Hnone.
  { intros l1. induction l1 as [|a l1 IH] using rev_ind; intros l2 Heq v Hvl; [by apply not_elem_of_nil in Hvl|].
    rewrite <- app_assoc in Heq. simpl in Heq.
    apply elem_of_app in Hvl as [Hvl| ->%list_elem_of_singleton]; [by eapply IH|]. intros HaS.
    destruct (Hv a HaS) as (_ & u & Hu & HE). destruct (Hw l1 a l2 Heq) as [Hpre _].
    by apply (IH _ Heq u); [apply Hpre|]. }
  apply set_choose_L in HS as [v HvS]. apply (Hnone ordered [] ltac:(by rewrite app_nil_r) v); [|done].
  apply Hall, Hv, HvS.
Qed.
Lemma well_ordered_constraint ps (E : TypeId → TypeId → Prop) ordered u v :
  well_ordered ps E ordered → v ∈ ordered → E u v → ∃ l1 l2 l3, ordered = l1 ++ u :: l2 ++ v :: l3.
Proof.
  intros (_ & _ & Hw) Hv HE. apply list_elem_of_split in Hv as (l1 & l2 & ->).
  destruct (Hw l1 v l2 eq_refl) as [Hpre _]. apply Hpre in HE. apply list_elem_of_split in HE as (l3 & l4 & ->).
  exists l3, l4, l2. by rewrite <- app_assoc.
Qed.

(** C13: the collection order of a trait is sound: it lists every provider
    exactly once, every before/after constraint is respected, and at each
    position stands the least provider, by priority, type name and qualifier,
    among those whose predecessors are all placed. *)
Theorem provider_order_sound (t : TypeId) (ps : list ProviderDescriptor) (ordered : list TypeId) :
  order_trait t ps = Some (Ok ordered) →
  ordered ≡ₚ concrete_id <$> ps ∧
  (∀ u v, order_constraint t ps u v → ∃ l1 l2 l3, ordered = l1 ++ u :: l2 ++ v :: l3) ∧
  (∀ l1 a l2, ordered = l1 ++ a :: l2 → placed_well ps (order_constraint t ps) l1 a).
Proof.
  destruct (order_trait_cases t ps) as (r & -> & Hr). intros [= ->]. destruct Hr as (_ & Hw & Hp).
  split; [done|]. split; [|apply Hw]. intros u v HE. eapply well_ordered_constraint; [done| |done].
  rewrite Hp. destruct HE as (source & o & Hs & Ho & _ & Hn & Hd).
  destruct (po_direction o); destruct Hd as [-> ->]; [done|by apply list_elem_of_fmap_2].
Qed.

(** C14: ordering fails only when it must, and always ends: the provider graph
    is ordered exactly when no component is listed twice, no restricted target
    lacks the trait and no set of providers waits for itself, and the indegree
    bookkeeping never panics. *)
Theorem provider_order_complete (t : TypeId) (ps : list ProviderDescriptor) :
  is_Some (order_trait t ps) ∧
  ((∃ ordered, order_trait t ps = Some (Ok ordered)) ↔
     NoDup (concrete_id <$> ps) ∧ ¬ dangling t ps ∧ ¬ stuck ps (order_constraint t ps)).
Proof.
  destruct (order_trait_cases t ps) as (r & -> & Hr). split; [by eexists|]. destruct r as [ordered|e].
  - destruct Hr as (Hd & Hw & Hp). split; [intros _|by eexists].
    assert (NoDup (concrete_id <$> ps)) as Hn by (rewrite <- Hp; apply Hw). split; [done|]. split; [done|].
    eapply well_ordered_not_stuck; [done|]. intros u Hu. by rewrite Hp.
  - split; [by intros [? [=]]|]. intros (Hn & Hd & Hst). destruct e; try done. by destruct Hr as [_ Hr%Hst].
Qed.

(** two provider descriptors of one component for one trait defeat the
    ordering: no order is found for them even without a single constraint. *)
Theorem duplicate_provider_never_orders (t : TypeId) (ps : list ProviderDescriptor) :
  ¬ NoDup (concrete_id <$> ps) → ordering <$> ps = (λ _, []) <$> ps →
  ∃ name stuck_names, order_trait t ps = Some (Err (ProviderOrderCycle name stuck_names)).
Proof.
  intros Hdup Hempty. destruct (order_trait_cases t ps) as (r & -> & Hr). destruct r as [ordered|e].
  - destruct Hr as (_ & (Hn & _ & _) & Hp). destruct Hdup. by rewrite <- Hp.
  - assert (¬ dangling t ps) as Hnd.
    { intros (source & o & Hs & Ho & _). assert (ordering source = []) as Hnil; [|rewrite Hnil in Ho; by apply not_elem_of_nil in Ho].
      apply list_elem_of_lookup in Hs as [i Hi]. assert ((ordering <$> ps) !! i = ((λ _, []) <$> ps) !! i) as Heq by by rewrite Hempty.
      rewrite !list_lookup_fmap, Hi in Heq. by injection Heq. }
    destruct e; try done. eauto.
Qed.

(** ** The whole plan *)

Lemma plan_traits_ok by_trait traits plan plan' :
  plan_traits by_trait traits plan = Some (Ok plan') →
  (∀ t, t ∈ traits → ∃ ordered, order_trait t (from_option id [] (by_trait !! t)) = Some (Ok ordered) ∧
     plan' !! t = Some (ordinals ordered)) ∧
  (∀ t, t ∉ traits → plan' !! t = plan !! t).
Proof.
  revert plan. induction traits as [|t traits IH]; intros plan; simpl.
  { intros [= <-]. split; [intros t Ht; by apply not_elem_of_nil in Ht|done]. }
  destruct (order_trait t _) as [[ordered|e]|] eqn:Ho; try done. intros Hr.
  destruct (IH _ Hr) as [Hin Hout]. split.
  - intros u [->|Hu]%elem_of_cons; [|by apply Hin]. exists ordered. split; [done|].
    destruct (decide (t ∈ traits)) as [Ht|Ht].
    + destruct (Hin t Ht) as (o2 & Ho2 & ->). congruence.
    + rewrite Hout by done. by rewrite lookup_insert_eq.
  - intros u [Hne Hu]%not_elem_of_cons. rewrite Hout by done. by rewrite lookup_insert_ne.
Qed.
Lemma plan_traits_some by_trait traits plan :
  (∀ t, t ∈ traits → ∃ ordered, order_trait t (from_option id [] (by_trait !! t)) = Some (Ok ordered)) →
  ∃ plan', plan_traits by_trait traits plan = Some (Ok plan').
Proof.
  revert plan. induction traits as [|t traits IH]; intros plan Ht; simpl; [by eexists|].
  destruct (Ht t ltac:(left)) as [ordered ->]. apply IH. intros u Hu. apply Ht. by right.
Qed.
Lemma check_all_ok {A} (f : A → result unit DiError) l : check_all f l = Ok tt ↔ ∀ a, a ∈ l → f a = Ok tt.
Proof.
  induction l as [|a l IH]; simpl.
  - split; [intros _ a Ha; by apply not_elem_of_nil in Ha|done].
  - destruct (f a) as [[]|e] eqn:Ha.
    + rewrite IH. split; [intros H b [->|Hb]%elem_of_cons; auto|intros H b Hb; apply H; by right].
    + split; [done|]. intros H. specialize (H a ltac:(left)). congruence.
Qed.

(** the plan does not depend on hash-map iteration: whichever orders the
    two maps are walked in, the same descriptors are accepted, with the same
    ordinal for every provider of every trait. *)
Theorem build_iteration_independent {Construct} (concretes1 concretes2 traits1 traits2 : list TypeId)
    (components : list (ComponentDescriptor Construct)) (providers : list ProviderDescriptor)
    (plan : gmap TypeId (gmap TypeId nat)) :
  concretes1 ≡ₚ concretes2 → traits1 ≡ₚ traits2 →
  build concretes1 traits1 components providers = Some (Ok plan) →
  build concretes2 traits2 components providers = Some (Ok plan).
Proof.
  intros Hc Ht. unfold build. destruct (check_all _ concretes1) as [[]|e] eqn:H1; [|done].
  assert (check_all (λ c, check_source (list_to_set (component_ty_id <$> components))
    (from_option id [] (group_by concrete_id providers !! c))) concretes2 = Ok tt) as ->.
  { apply check_all_ok. intros a Ha. rewrite check_all_ok in H1. apply H1. by rewrite Hc. }
  intros Hp. destruct (plan_traits_ok _ _ _ _ Hp) as [Hin Hout].
  destruct (plan_traits_some (group_by trait_id providers) traits2 ∅) as [plan2 Hp2].
  { intros t Hin2. destruct (Hin t) as (o & Ho & _); [by rewrite Ht|eauto]. }
  rewrite Hp2. do 2 f_equal. destruct (plan_traits_ok _ _ _ _ Hp2) as [Hin2 Hout2].
  apply map_eq. intros t. destruct (decide (t ∈ traits2)) as [Hi|Hi].
  - destruct (Hin2 t Hi) as (o2 & Ho2 & ->). destruct (Hin t) as (o1 & Ho1 & ->); [by rewrite Ht|]. congruence.
  - rewrite Hout2 by done. by rewrite Hout by by rewrite Ht.
Qed.

(** ** Three providers of one trait, the second constrained between the others *)

Definition sample_ty (name : string) (id : Z) : TypeDescriptor := mkType name name id.
Definition sample_provider (name : string) (id prio : Z) (o : list ProviderOrder) : ProviderDescriptor :=
  mkProvider (sample_ty "dyn Trait" 100) (sample_ty name id) name false prio o.
Definition sample_providers : list ProviderDescriptor :=
  [sample_provider "Beta" 2 0 [];
   sample_provider "Gamma" 3 (-5) [mkOrder (sample_ty "Alpha" 1) [] After;
                                   mkOrder (sample_ty "Beta" 2) [sample_ty "dyn Trait" 100] Before];
   sample_provider "Alpha" 1 7 []].
Definition sample_components : list (ComponentDescriptor unit) :=
  (λ p, mkComponent (p_qualifier p) (p_qualifier p) (concrete_ty p) CoreTypes.Singleton []) <$> sample_providers.

Lemma provider_order_sound_witness :
  order_trait 100 sample_providers = Some (Ok [1; 3; 2]) ∧
  [1; 3; 2] ≡ₚ concrete_id <$> sample_providers.
Proof.
  assert (order_trait 100 sample_providers = Some (Ok [1; 3; 2])) as H by (vm_compute; reflexivity).
  split; [exact H|]. exact (proj1 (provider_order_sound 100 sample_providers [1; 3; 2] H)).
Defined.
Lemma provider_order_complete_witness :
  let ps := [sample_provider "A" 1 0 [mkOrder (sample_ty "B" 2) [] Before];
             sample_provider "B" 2 0 [mkOrder (sample_ty "A" 1) [] Before]] in
  order_trait 100 ps = Some (Err (ProviderOrderCycle "dyn Trait" ["A"; "B"])) ∧
  ((∃ ordered, order_trait 100 ps = Some (Ok ordered)) ↔
     NoDup (concrete_id <$> ps) ∧ ¬ dangling 100 ps ∧ ¬ stuck ps (order_constraint 100 ps)).
Proof.
  intros ps. split; [vm_compute; reflexivity|]. apply (proj2 (provider_order_complete 100 ps)).
Defined.
Lemma duplicate_provider_never_orders_witness :
  ∃ name names, order_trait 100 [sample_provider "A" 1 0 []; sample_provider "A" 1 0 []] =
    Some (Err (ProviderOrderCycle name names)).
Proof.
  apply (duplicate_provider_never_orders 100 [sample_provider "A" 1 0 []; sample_provider "A" 1 0 []]).
  - intros H. inversion H as [|? ? Hn]. apply Hn. left.
  - reflexivity.
Defined.
Lemma build_iteration_independent_witness :
  ∃ plan, build [1; 2; 3] [100] sample_components sample_providers = Some (Ok plan) ∧
    build [3; 1; 2] [100] sample_components sample_providers = Some (Ok plan).
Proof.
  eexists. split; [vm_compute; reflexivity|].
  apply (build_iteration_independent [1; 2; 3] [3; 1; 2] [100] [100] sample_components sample_providers).
  - apply (bool_decide_unpack _). vm_compute. exact I.
  - reflexivity.
  - vm_compute. reflexivity.
Defined.
