(* ===== verification/DiRegistry.v ===== *)
(** * DiRegistry: validation of the component graph

    Models [crates/di/src/registry.rs]: which descriptor stands for each type,
    and the checks that a graph must pass before anything is built. Each check
    walks its components, and within a component its dependencies, in order and
    reports the first fault. *)
From stdpp Require Import fin_sets.
From S2P Require Import Prelude CoreTypes DiTypes ProviderOrder.

Section Registry.
Context {Construct : Type}.
Abbreviation Component := (ComponentDescriptor Construct).

Record ComponentRegistry := mkRegistry { components : list Component; providers : list ProviderDescriptor }.

(** [HashMap::collect]: a later entry of a key replaces an earlier one. *)
Definition collect_map {A B} (f : A → TypeId * B) (l : list A) : gmap TypeId B :=
  foldl (λ m a, <[(f a).1 := (f a).2]> m) ∅ l.
Definition by_type_map (cs : list Component) : gmap TypeId Component := collect_map (λ c, (component_ty_id c, c)) cs.
Definition scope_map (cs : list Component) : gmap TypeId Scope := collect_map (λ c, (component_ty_id c, c_scope c)) cs.

(** [ComponentRegistry::collect] over the link-time slices. *)
Definition provider_key_compare (l r : ProviderDescriptor) : comparison :=
  then_with (then_with (String.compare (type_name (trait_ty l)) (type_name (trait_ty r)))
               (String.compare (type_name (concrete_ty l)) (type_name (concrete_ty r))))
    (String.compare (p_qualifier l) (p_qualifier r)).
Definition collect (linked : list Component) (linked_providers : list ProviderDescriptor) : ComponentRegistry :=
  mkRegistry (sort_by (λ a b, str_leb (c_id a) (c_id b)) linked)
    (sort_by (λ a b, match provider_key_compare a b with Gt => false | _ => true end) linked_providers).

(** A descriptor without a factory: the instance is supplied. *)
Definition is_manual (c : Component) : result bool DiError :=
  match effective_factory c with Ok None => Ok true | Ok (Some _) => Ok false | Err e => Err e end.

(** The loop of [resolved_components]; [positions] is the index of the chosen
    descriptor of a type, which the model looks up in [chosen] itself. *)
Fixpoint resolve_loop (registered chosen : list Component) : result (list Component) DiError :=
  match registered with
  | [] => Ok chosen
  | component :: registered' =>
      match is_manual component with
      | Err e => Err e
      | Ok new_manual =>
          match list_find (λ c, component_ty_id c = component_ty_id component) chosen with
          | None => resolve_loop registered' (chosen ++ [component])
          | Some (position, existing) =>
              match is_manual existing with
              | Err e => Err e
              | Ok existing_manual =>
                  if new_manual && negb existing_manual then
                    resolve_loop registered' (<[position := component]> chosen)
                  else if Bool.eqb new_manual existing_manual && negb (bool_decide (c_id existing = c_id component)) then
                    Err (DuplicateComponentType (type_name (c_ty component)))
                  else resolve_loop registered' chosen
              end
          end
      end
  end.
Definition resolved_components (r : ComponentRegistry) : result (list Component) DiError :=
  resolve_loop (components r) [].

(** ** Scopes *)

(** [scope_allows] *)
Definition scope_allows (consumer dependency : Scope) : bool :=
  if is_transient dependency then true
  else if is_transient consumer then rank dependency =? rank Singleton
  else rank consumer <=? rank dependency.

(** The scopes a dependency may resolve to, with the name to report. *)
Definition dependency_scopes (r : ComponentRegistry) (scope_of : gmap TypeId Scope) (dep : DependencyDescriptor) :
    list (Scope * string) :=
  match scope_of !! type_id (dep_ty dep) with
  | Some scope => [(scope, type_name (dep_ty dep))]
  | None =>
      omap (λ p, scope ← scope_of !! concrete_id p; Some (scope, type_name (concrete_ty p)))
        (List.filter (λ p, trait_id p =? type_id (dep_ty dep)) (providers r))
  end.
Definition check_dependency_scopes (r : ComponentRegistry) (scope_of : gmap TypeId Scope) (c : Component)
    (dep : DependencyDescriptor) : result unit DiError :=
  if dynamic dep || config dep then Ok tt
  else check_all (λ '(dep_scope, dep_name),
    if negb (bool_decide (resolution dep = Fresh)) && negb (scope_allows (c_scope c) dep_scope) then
      Err (ScopeViolation (c_name c) dep_name (scope_name (c_scope c)) (scope_name dep_scope))
    else Ok tt) (dependency_scopes r scope_of dep).
Definition validate_scopes (r : ComponentRegistry) (cs : list Component) : result unit DiError :=
  let scope_of := scope_map cs in
  check_all (λ c, check_all (check_dependency_scopes r scope_of c) (dependencies c)) cs.

(** ** Ids, dependencies, qualifiers *)

Fixpoint check_ids (seen : gset string) (cs : list Component) : result unit DiError :=
  match cs with
  | [] => Ok tt
  | c :: cs' =>
      if bool_decide (c_id c ∈ seen) then Err (DuplicateComponentId (c_id c))
      else check_ids ({[c_id c]} ∪ seen) cs'
  end.
Definition validate_component_ids (cs : list Component) : result unit DiError := check_ids ∅ cs.

(** Providers of a trait, total and primary; [None] when there is none. *)
Definition provider_counts (r : ComponentRegistry) (t : TypeId) : option (nat * nat) :=
  match List.filter (λ p, trait_id p =? t) (providers r) with
  | [] => None
  | ps => Some (length ps, length (List.filter primary ps))
  end.
Definition check_dependency (r : ComponentRegistry) (available : gset TypeId) (c : Component)
    (dep : DependencyDescriptor) : result unit DiError :=
  if config dep then Ok tt
  else
    let dep_id := type_id (dep_ty dep) in
    let counts := provider_counts r dep_id in
    match qualifier dep with
    | Some q =>
        if dynamic dep || existsb (λ p, (trait_id p =? dep_id) && bool_decide (p_qualifier p = q)) (providers r)
        then Ok tt
        else Err (MissingDependency (c_name c) (type_name (dep_ty dep) +:+ " (qualifier `" +:+ q +:+ "`)"))
    | None =>
        if bool_decide (cardinality dep = One) && negb (dynamic dep) &&
           match counts with Some (total, primaries) => (1 <? total)%nat && negb (primaries =? 1)%nat | None => false end
        then Err (AmbiguousProvider (type_name (dep_ty dep)))
        else
          let must_exist := requires_provider (cardinality dep) && negb (optional dep) && negb (dynamic dep) in
          if must_exist && negb (bool_decide (dep_id ∈ available)) && bool_decide (counts = None) then
            Err (MissingDependency (c_name c) (type_name (dep_ty dep)))
          else Ok tt
    end.
Definition validate_dependencies (r : ComponentRegistry) (cs : list Component) : result unit DiError :=
  let available : gset TypeId := list_to_set (component_ty_id <$> cs) in
  check_all (λ c, check_all (check_dependency r available c) (dependencies c)) cs.

Fixpoint check_qualifiers (scope_of : gmap TypeId Scope) (seen : gset (TypeId * string * string))
    (ps : list ProviderDescriptor) : result unit DiError :=
  match ps with
  | [] => Ok tt
  | p :: ps' =>
      match scope_of !! concrete_id p with
      | None => check_qualifiers scope_of seen ps'
      | Some scope =>
          let entry := (trait_id p, p_qualifier p, scope_name scope) in
          if bool_decide (entry ∈ seen) then
            Err (DuplicateProviderQualifier (type_name (trait_ty p)) (p_qualifier p) (scope_name scope))
          else check_qualifiers scope_of ({[entry]} ∪ seen) ps'
      end
  end.
Definition validate_provider_qualifiers (r : ComponentRegistry) (cs : list Component) : result unit DiError :=
  check_qualifiers (scope_map cs) ∅ (providers r).

(** ** Deferred and fresh edges *)

Definition matching_providers (r : ComponentRegistry) (dep : DependencyDescriptor) : list ProviderDescriptor :=
  List.filter (λ p, match qualifier dep with Some q => bool_decide (p_qualifier p = q) | None => true end)
    (List.filter (λ p, trait_id p =? type_id (dep_ty dep)) (providers r)).

(** The candidates of a deferred edge: the scope-stored ones, or all of them
    when every one is transient. *)
Definition deferred_candidates (by_type : gmap TypeId Component) (matching : list ProviderDescriptor) :
    list ProviderDescriptor :=
  match List.filter (λ p, match by_type !! concrete_id p with
                          | Some c => negb (is_transient (c_scope c)) | None => true end) matching with
  | [] => matching
  | scoped => scoped
  end.

(** The [BTreeMap] of visible groups: keyed and ordered by rank, then name. *)
Definition scope_key (s : Scope) : Z * string := (rank s, scope_name s).
Definition scope_key_leb (a b : Z * string) : bool :=
  match then_with (Z.compare a.1 b.1) (String.compare a.2 b.2) with Gt => false | _ => true end.
Definition visible (by_type : gmap TypeId Component) (consumer : Component) (p : ProviderDescriptor) :
    option (Z * string) :=
  c ← by_type !! concrete_id p;
  if rank (c_scope consumer) <=? rank (c_scope c) then Some (scope_key (c_scope c)) else None.
Definition scope_groups (by_type : gmap TypeId Component) (consumer : Component) (candidates : list ProviderDescriptor) :
    list (list ProviderDescriptor) :=
  let keys := sort_by scope_key_leb (remove_dups (omap (visible by_type consumer) candidates)) in
  (λ k, List.filter (λ p, bool_decide (visible by_type consumer p = Some k)) candidates) <$> keys.

(** The provider of the nearest group that selects one. *)
Definition select_deferred (dep : DependencyDescriptor) (groups : list (list ProviderDescriptor)) :
    option ProviderDescriptor :=
  head (omap (λ group, match qualifier dep with Some _ => head group | None => select_single_provider group end) groups).

Definition deferred_target (r : ComponentRegistry) (by_type : gmap TypeId Component) (consumer : Component)
    (dep : DependencyDescriptor) : result (option Component) DiError :=
  match by_type !! type_id (dep_ty dep) with
  | Some target => Ok (Some target)
  | None =>
      let groups := scope_groups by_type consumer (deferred_candidates by_type (matching_providers r dep)) in
      match select_deferred dep groups with
      | Some p => Ok (by_type !! concrete_id p)
      | None => match groups with [] => Ok None | _ => Err (AmbiguousProvider (type_name (dep_ty dep))) end
      end
  end.
Definition edges_of (mode : ResolutionMode) (c : Component) : list DependencyDescriptor :=
  List.filter (λ d, bool_decide (resolution d = mode)) (dependencies c).
Definition check_deferred (r : ComponentRegistry) (by_type : gmap TypeId Component) (consumer : Component)
    (dep : DependencyDescriptor) : result unit DiError :=
  match deferred_target r by_type consumer dep with
  | Err e => Err e
  | Ok (Some target) =>
      if is_transient (c_scope target) then
        Err (DeferredTransientDependency (c_name consumer) (type_name (dep_ty dep)))
      else Ok tt
  | Ok None => Ok tt
  end.
Definition validate_deferred_dependencies (r : ComponentRegistry) (cs : list Component) : result unit DiError :=
  check_all (λ c, check_all (check_deferred r (by_type_map cs) c) (edges_of Deferred c)) cs.

(** [fresh_targets] *)
Definition fresh_targets (r : ComponentRegistry) (by_type : gmap TypeId Component) (dep : DependencyDescriptor) :
    list Component :=
  match by_type !! type_id (dep_ty dep) with
  | Some c => [c]
  | None => omap (λ p, by_type !! concrete_id p) (matching_providers r dep)
  end.
(** One eager edge of a fresh target, seen from the consumer's scope. *)
Definition check_fresh_edge (r : ComponentRegistry) (scope_of : gmap TypeId Scope) (consumer target : Component)
    (edge : DependencyDescriptor) : result unit DiError :=
  let scopes :=
    match scope_of !! type_id (dep_ty edge) with
    | Some scope => [scope]
    | None => omap (λ p, scope_of !! concrete_id p)
                (List.filter (λ p, trait_id p =? type_id (dep_ty edge)) (providers r))
    end in
  if existsb (λ scope, negb (scope_allows (c_scope consumer) scope)) scopes then
    Err (InvalidFreshDependency (c_name consumer) (c_name target +:+ " -> " +:+ type_name (dep_ty edge)))
  else Ok tt.
Definition check_fresh_target (r : ComponentRegistry) (scope_of : gmap TypeId Scope) (consumer : Component)
    (dep : DependencyDescriptor) (target : Component) : result unit DiError :=
  if negb (scope_allows (c_scope consumer) (c_scope target)) then
    if bool_decide (cardinality dep = One) then Err (InvalidFreshDependency (c_name consumer) (c_name target))
    else Ok tt
  else
    match effective_factory target with
    | Err e => Err e
    | Ok None => Err (UnsupportedFreshFactory (c_name target))
    | Ok (Some _) =>
        check_all (check_fresh_edge r scope_of consumer target)
          (List.filter (λ e, bool_decide (resolution e = Eager) && negb (dynamic e) && negb (config e)) (dependencies target))
    end.
Definition validate_fresh_dependencies (r : ComponentRegistry) (cs : list Component) : result unit DiError :=
  check_all (λ c,
    check_all (λ dep, check_all (check_fresh_target r (scope_map cs) c dep) (fresh_targets r (by_type_map cs) dep))
      (edges_of Fresh c)) cs.

(** [ComponentRegistry::validate]; [None] is a panic of the provider ordering. *)
Definition validate (concretes traits : list TypeId) (r : ComponentRegistry) : option (result unit DiError) :=
  match resolved_components r with
  | Err e => Some (Err e)
  | Ok cs =>
      match check_all (λ step, step tt)
              [λ _, validate_component_ids cs; λ _, validate_dependencies r cs; λ _, validate_provider_qualifiers r cs;
               λ _, validate_deferred_dependencies r cs; λ _, validate_fresh_dependencies r cs] with
      | Err e => Some (Err e)
      | Ok _ =>
          match build concretes traits cs (providers r) with
          | None => None
          | Some (Err e) => Some (Err e)
          | Some (Ok _) => Some (validate_scopes r cs)
          end
      end
  end.
End Registry.
Arguments ComponentRegistry : clear implicits.

(** ** One descriptor per type *)

Section Resolved.
Context {Construct : Type}.
Abbreviation Component := (ComponentDescriptor Construct).

(** The distinct types of a list, in order of first appearance. *)
Definition first_occurrences (l : list TypeId) : list TypeId :=
  foldl (λ acc t, if decide (t ∈ acc) then acc else acc ++ [t]) [] l.
#[local] Arguments first_occurrences : simpl never.
Definition represents (registered chosen : list Component) : Prop :=
  component_ty_id <$> chosen = first_occurrences (component_ty_id <$> registered) ∧
  (∀ c, c ∈ chosen → c ∈ registered ∧ ∃ b, is_manual c = Ok b) ∧
  (∀ c d, c ∈ registered → is_manual c = Ok true → d ∈ chosen → component_ty_id d = component_ty_id c →
     is_manual d = Ok true).

Lemma first_occurrences_snoc l t :
  first_occurrences (l ++ [t]) =
  if decide (t ∈ first_occurrences l) then first_occurrences l else first_occurrences l ++ [t].
Proof. unfold first_occurrences. by rewrite foldl_snoc. Qed.
Lemma first_occurrences_NoDup l : NoDup (first_occurrences l).
Proof.
  induction l as [|t l IH] using rev_ind; [constructor|]. rewrite first_occurrences_snoc. case_decide; [done|].
  apply NoDup_app. split; [done|]. split; [|apply NoDup_singleton]. by intros x Hx ->%list_elem_of_singleton.
Qed.
Lemma first_occurrences_elem l t : t ∈ first_occurrences l ↔ t ∈ l.
Proof.
  induction l as [|x l IH] using rev_ind; [done|]. rewrite first_occurrences_snoc, elem_of_app, list_elem_of_singleton.
  case_decide as Hx; [|rewrite elem_of_app, list_elem_of_singleton]; rewrite IH in *; naive_solver.
Qed.

Lemma resolve_step seen chosen component chosen' :
  represents seen chosen →
  resolve_loop [component] chosen = Ok chosen' → represents (seen ++ [component]) chosen'.
Proof.
  intros (Htypes & Hsub & Hman). simpl. destruct (is_manual component) as [new_manual|] eqn:Hnew; [|done].
  assert (NoDup (component_ty_id <$> chosen)) as Hnd by (rewrite Htypes; apply first_occurrences_NoDup).
  destruct (list_find _ chosen) as [[position existing]|] eqn:Hfind.
  - apply list_find_Some in Hfind as (Hpos & Hty & _).
    assert (existing ∈ chosen) as Hin by by eapply list_elem_of_lookup_2.
    assert (component_ty_id component ∈ first_occurrences (component_ty_id <$> seen)) as Hseen.
    { rewrite <- Htypes, <- Hty. by apply list_elem_of_fmap_2. }
    assert (∀ d, d ∈ chosen → component_ty_id d = component_ty_id component → d = existing) as Huniq.
    { intros d Hd Hdt. apply list_elem_of_lookup in Hd as [i Hi].
      assert (i = position) as ->; [|congruence]. eapply (NoDup_lookup (component_ty_id <$> chosen)); [done| |].
      - by rewrite list_lookup_fmap, Hi.
      - rewrite list_lookup_fmap, Hpos. simpl. by rewrite Hty, Hdt. }
    destruct (is_manual existing) as [existing_manual|] eqn:Hex; [|done].
    destruct (new_manual && negb existing_manual) eqn:Hover.
    + apply andb_true_iff in Hover as [-> ->%negb_true_iff]. intros [= <-]. split; [|split].
      * rewrite fmap_app, list_fmap_insert, Htypes. simpl. rewrite first_occurrences_snoc, decide_True by done.
        apply list_insert_id. rewrite <- Htypes, list_lookup_fmap, Hpos. simpl. by rewrite Hty.
      * intros c Hc. apply list_elem_of_lookup in Hc as [i Hi]. rewrite elem_of_app, list_elem_of_singleton.
        apply list_lookup_insert_Some in Hi as [(_ & <- & _)|[_ Hi]]; [by eauto|].
        apply list_elem_of_lookup_2, Hsub in Hi as [? ?]. eauto.
      * intros c d Hc Hcm Hd Hdt. apply list_elem_of_lookup in Hd as [i Hi].
        apply list_lookup_insert_Some in Hi as [(_ & <- & _)|[Hne Hi]]; [done|].
        apply list_elem_of_lookup_2 in Hi as Hd. apply elem_of_app in Hc as [Hc| ->%list_elem_of_singleton]; [by eapply Hman|].
        rewrite (Huniq d Hd Hdt) in Hi. exfalso. apply Hne.
        eapply (NoDup_lookup (component_ty_id <$> chosen)); [done| |]; rewrite list_lookup_fmap; [by rewrite Hpos|by rewrite Hi].
    + assert (represents (seen ++ [component]) chosen) as Hrep.
      { split; [|split].
        - rewrite fmap_app. simpl. by rewrite first_occurrences_snoc, decide_True.
        - intros c Hc. destruct (Hsub c Hc). rewrite elem_of_app. eauto.
        - intros c d Hc Hcm Hd Hdt. apply elem_of_app in Hc as [Hc| ->%list_elem_of_singleton]; [by eapply Hman|].
          rewrite (Huniq d Hd Hdt), Hex. f_equal. rewrite Hcm in Hnew. injection Hnew as <-. by destruct existing_manual. }
      destruct (Bool.eqb new_manual existing_manual && _); [done|]. by intros [= <-].
  - rewrite list_find_None in Hfind. intros [= <-]. rewrite Forall_forall in Hfind. split; [|split].
    + rewrite !fmap_app, Htypes. simpl. rewrite first_occurrences_snoc, decide_False; [done|].
      rewrite <- Htypes. intros Hin. apply list_elem_of_fmap in Hin as (d & Hdt & Hd). by apply (Hfind d Hd).
    + intros c [Hc| ->%list_elem_of_singleton]%elem_of_app; rewrite elem_of_app, list_elem_of_singleton; [|by eauto].
      destruct (Hsub c Hc). eauto.
    + intros c d Hc Hcm Hd Hdt.
      apply elem_of_app in Hc as [Hc| ->%list_elem_of_singleton]; apply elem_of_app in Hd as [Hd| ->%list_elem_of_singleton].
      * by eapply Hman.
      * exfalso. assert (component_ty_id c ∈ component_ty_id <$> chosen) as Hin.
        { rewrite Htypes, first_occurrences_elem. by apply list_elem_of_fmap_2. }
        apply list_elem_of_fmap in Hin as (e & He & Hine). apply (Hfind e Hine). congruence.
      * exfalso. by apply (Hfind d Hd).
      * done.
Qed.
Lemma resolve_loop_cons (component : Component) (registered chosen : list Component) :
  resolve_loop (component :: registered) chosen =
  match resolve_loop [component] chosen with Ok chosen' => resolve_loop registered chosen' | Err e => Err e end.
Proof. simpl. repeat case_match; simplify_eq; done. Qed.
Lemma resolve_loop_represents seen registered chosen chosen' :
  represents seen chosen → resolve_loop registered chosen = Ok chosen' → represents (seen ++ registered) chosen'.
Proof.
  revert seen chosen. induction registered as [|c registered IH]; intros seen chosen Hrep.
  - simpl. rewrite app_nil_r. by intros [= <-].
  - rewrite resolve_loop_cons. destruct (resolve_loop [c] chosen) as [chosen1|] eqn:Hc; [|done]. intros Hr.
    replace (seen ++ c :: registered) with ((seen ++ [c]) ++ registered) by by rewrite <- app_assoc.
    eapply IH; [|done]. by eapply resolve_step.
Qed.

(** resolution keeps one descriptor per registered type, at the position
    where the type first appeared, always one of the registered descriptors, and
    an instance supplied by hand always wins over a factory of its type. *)
Theorem resolved_components_represent (r : ComponentRegistry Construct) (cs : list Component) :
  resolved_components r = Ok cs →
  NoDup (component_ty_id <$> cs) ∧ represents (components r) cs.
Proof.
  intros Hr. assert (represents (components r) cs) as Hrep.
  { apply (resolve_loop_represents [] (components r) [] cs); [|done]. split; [done|]. split.
    - intros c Hc. by apply not_elem_of_nil in Hc.
    - intros c d Hc. by apply not_elem_of_nil in Hc. }
  split; [|done]. destruct Hrep as [-> _]. apply first_occurrences_NoDup.
Qed.
End Resolved.

(** ** The captive-dependency rule *)

Lemma scope_allows_trans a b c :
  scope_ok a → scope_ok b → scope_ok c → scope_allows a b = true → scope_allows b c = true → scope_allows a c = true.
Proof.
  unfold scope_ok, scope_allows, Singleton, u_max. simpl. intros Ha Hb Hc.
  destruct (is_transient a), (is_transient b), (is_transient c); rewrite ?Z.eqb_eq, ?Z.leb_le; intros; lia || done.
Qed.

Section Scopes.
Context {Construct : Type}.
Abbreviation Component := (ComponentDescriptor Construct).
Variable r : ComponentRegistry Construct.
Variable cs : list Component.
Hypothesis Hcs : NoDup (component_ty_id <$> cs).

Lemma collect_map_lookup {B} (f : Component → TypeId * B) l t :
  NoDup ((λ c, (f c).1) <$> l) →
  collect_map f l !! t = (λ c, (f c).2) <$> List.find (λ c, (f c).1 =? t) l.
Proof.
  unfold collect_map.
  assert (∀ m : gmap TypeId B, NoDup ((λ c, (f c).1) <$> l) →
    foldl (λ m a, <[(f a).1 := (f a).2]> m) m l !! t =
    match List.find (λ c, (f c).1 =? t) l with Some c => Some (f c).2 | None => m !! t end) as H.
  { induction l as [|c l IH]; intros m; simpl; [done|]. inversion 1 as [|?? Hc Hn]; subst. rewrite IH by done.
    destruct (Z.eqb_spec (f c).1 t) as [<-|Hne].
    - destruct (List.find _ l) as [d|] eqn:Hd; [|by rewrite lookup_insert_eq].
      apply List.find_some in Hd as [Hd Heq%Z.eqb_eq]. destruct Hc. rewrite <- Heq.
      apply list_elem_of_fmap. exists d. split; [done|by apply list_elem_of_In].
    - destruct (List.find _ l); [done|]. by rewrite lookup_insert_ne. }
  intros Hn. rewrite H by done. by destruct (List.find _ l).
Qed.
Lemma find_component (c : Component) : c ∈ cs → List.find (λ d, component_ty_id d =? component_ty_id c) cs = Some c.
Proof.
  clear r. induction cs as [|d l IH]; [by intros ?%not_elem_of_nil|]. inversion Hcs as [|?? Hd Hn]; subst.
  intros [->|Hc]%elem_of_cons; simpl; [by rewrite Z.eqb_refl|].
  destruct (Z.eqb_spec (component_ty_id d) (component_ty_id c)) as [Heq|]; [|by apply IH].
  destruct Hd. rewrite Heq. by apply list_elem_of_fmap_2.
Qed.
Lemma scope_map_Some t s : scope_map cs !! t = Some s ↔ ∃ c, c ∈ cs ∧ component_ty_id c = t ∧ c_scope c = s.
Proof.
  unfold scope_map. rewrite collect_map_lookup by done. simpl. split.
  - rewrite fmap_Some. intros (c & Hf & ->). apply List.find_some in Hf as [Hc Ht%Z.eqb_eq].
    exists c. by rewrite list_elem_of_In.
  - intros (c & Hc & <- & <-). by rewrite find_component.
Qed.

(** The components a dependency of [c] may hold on to: the one of its type, or
    every provider of its trait. Runtime-supplied, configuration and fresh
    edges hold nothing. *)
Definition holds (c d : Component) : Prop :=
  c ∈ cs ∧ d ∈ cs ∧ ∃ dep, dep ∈ dependencies c ∧ dynamic dep = false ∧ config dep = false ∧ resolution dep ≠ Fresh ∧
    (component_ty_id d = type_id (dep_ty dep) ∨
     ((type_id (dep_ty dep) ∉ component_ty_id <$> cs) ∧
      ∃ p, p ∈ providers r ∧ trait_id p = type_id (dep_ty dep) ∧ concrete_id p = component_ty_id d)).

Lemma dependency_scopes_elem dep s name :
  (s, name) ∈ dependency_scopes r (scope_map cs) dep →
  ∃ d, d ∈ cs ∧ c_scope d = s ∧
    (component_ty_id d = type_id (dep_ty dep) ∨
     ((type_id (dep_ty dep) ∉ component_ty_id <$> cs) ∧
      ∃ p, p ∈ providers r ∧ trait_id p = type_id (dep_ty dep) ∧ concrete_id p = component_ty_id d)).
Proof.
  unfold dependency_scopes. destruct (scope_map cs !! type_id (dep_ty dep)) as [scope|] eqn:Hs.
  - intros [= -> _]%list_elem_of_singleton. apply scope_map_Some in Hs as (d & Hd & Ht & Hsc). eauto.
  - intros (p & Hp & Hsome)%list_elem_of_omap. apply bind_Some in Hsome as (sc & Hsc & [= -> _]).
    apply list_elem_of_In, filter_In in Hp as [Hp%list_elem_of_In Ht%Z.eqb_eq].
    apply scope_map_Some in Hsc as (d & Hd & Hdt & Hds). exists d. split; [done|]. split; [done|]. right.
    split; [|by exists p]. intros Hin. apply list_elem_of_fmap in Hin as (e & He & Hec).
    assert (scope_map cs !! type_id (dep_ty dep) = Some (c_scope e)) as Hcontra by (apply scope_map_Some; eauto). congruence.
Qed.
Lemma holds_scope_elem c d : holds c d → ∃ dep name, dep ∈ dependencies c ∧ dynamic dep = false ∧ config dep = false ∧
  resolution dep ≠ Fresh ∧ (c_scope d, name) ∈ dependency_scopes r (scope_map cs) dep.
Proof.
  intros (Hc & Hd & dep & Hdep & Hdyn & Hcfg & Hres & Hor). exists dep.
  destruct Hor as [Ht|(Hno & p & Hp & Ht & Hpd)].
  - exists (type_name (dep_ty dep)). repeat split; try done. unfold dependency_scopes.
    assert (scope_map cs !! type_id (dep_ty dep) = Some (c_scope d)) as -> by (apply scope_map_Some; eauto).
    by apply list_elem_of_singleton.
  - exists (type_name (concrete_ty p)). repeat split; try done. unfold dependency_scopes.
    destruct (scope_map cs !! type_id (dep_ty dep)) as [s|] eqn:Hs.
    { apply scope_map_Some in Hs as (e & He & Het & _). destruct Hno. rewrite <- Het. by apply list_elem_of_fmap_2. }
    apply list_elem_of_omap. exists p. split.
    + apply list_elem_of_In, filter_In. split; [by apply list_elem_of_In|by apply Z.eqb_eq].
    + assert (scope_map cs !! concrete_id p = Some (c_scope d)) as -> by (apply scope_map_Some; eauto). done.
Qed.

Lemma validate_scopes_iff :
  validate_scopes r cs = Ok tt ↔ ∀ c d, holds c d → scope_allows (c_scope c) (c_scope d) = true.
Proof.
  unfold validate_scopes. rewrite check_all_ok. split.
  - intros Hall c d Hh. pose proof Hh as (Hc & _). apply holds_scope_elem in Hh as (dep & name & Hdep & Hdyn & Hcfg & Hres & Hin).
    specialize (Hall c Hc). rewrite check_all_ok in Hall. specialize (Hall dep Hdep). unfold check_dependency_scopes in Hall.
    rewrite Hdyn, Hcfg in Hall. simpl in Hall. rewrite check_all_ok in Hall. specialize (Hall _ Hin). simpl in Hall.
    rewrite bool_decide_false in Hall by done. simpl in Hall. by destruct (scope_allows _ _).
  - intros Hh c Hc. apply check_all_ok. intros dep Hdep. unfold check_dependency_scopes.
    destruct (dynamic dep) eqn:Hdyn, (config dep) eqn:Hcfg; try done. simpl. apply check_all_ok. intros [s name] Hin.
    case_bool_decide as Hres; [done|]. simpl.
    apply dependency_scopes_elem in Hin as (d & Hd & <- & Hor). rewrite Hh; [done|]. split; [done|]. split; [done|]. eauto 10.
Qed.

(** C21: the captive-dependency rule, end to end: in a registry that passes the
    scope check, nothing reachable through held dependencies, however long the
    chain and whatever transients it goes through, is shorter-lived than its
    holder. *)
Theorem no_captive_dependency (c d : Component) :
  Forall (λ c, scope_ok (c_scope c)) cs → validate_scopes r cs = Ok tt → tc holds c d →
  scope_allows (c_scope c) (c_scope d) = true.
Proof.
  intros Hok Hv Htc. rewrite validate_scopes_iff in Hv. rewrite Forall_forall in Hok.
  assert (∀ x y, tc holds x y → x ∈ cs ∧ y ∈ cs) as Hends.
  { intros x y. induction 1 as [x y (?&?&_)|x y z (?&?&_) _ [_ ?]]; done. }
  induction Htc as [c d Hh|c x d Hh Hrest IH]; [by apply Hv|].
  pose proof Hh as (Hc & Hx & _). destruct (Hends _ _ Hrest) as [_ Hd].
  eapply (scope_allows_trans (c_scope c) (c_scope x)); [by apply Hok..|by apply Hv|done].
Qed.

(** ** Satisfiable dependencies *)

(** an accepted dependency resolves: every required single edge of a
    component that passes the check has a component of its type, or exactly one
    provider that the runtime selection rule picks for it. *)
Theorem accepted_dependency_selects (c : Component) (dep : DependencyDescriptor) :
  validate_dependencies r cs = Ok tt → c ∈ cs → dep ∈ dependencies c →
  config dep = false → dynamic dep = false → optional dep = false → cardinality dep = One →
  (type_id (dep_ty dep) ∈ component_ty_id <$> cs ∧ qualifier dep = None) ∨
  ∃ p, select_provider_for dep (List.filter (λ p, trait_id p =? type_id (dep_ty dep)) (providers r)) = Some p ∧
    trait_id p = type_id (dep_ty dep) ∧ ∀ q, qualifier dep = Some q → p_qualifier p = q.
Proof.
  unfold validate_dependencies. rewrite check_all_ok. intros Hv Hc Hdep Hcfg Hdyn Hopt Hcard.
  specialize (Hv c Hc). rewrite check_all_ok in Hv. specialize (Hv dep Hdep). unfold check_dependency in Hv.
  rewrite Hcfg, Hdyn, Hopt, Hcard in Hv. unfold select_provider_for.
  set (ps := List.filter _ (providers r)). assert (∀ p, p ∈ ps → trait_id p = type_id (dep_ty dep)) as Htrait.
  { intros p Hp. by apply list_elem_of_In, filter_In in Hp as [_ ?%Z.eqb_eq]. }
  destruct (qualifier dep) as [q|]; simpl in Hv.
  - destruct (existsb _ (providers r)) eqn:He; [|done]. right. apply existsb_exists in He as (p & Hp & Hpq).
    apply andb_true_iff in Hpq as [Ht Hq].
    destruct (List.find (λ p, bool_decide (p_qualifier p = q)) ps) as [p'|] eqn:Hf.
    + apply List.find_some in Hf as [Hin Hq']. apply bool_decide_eq_true in Hq'. exists p'. split; [done|].
      split; [by apply Htrait, list_elem_of_In|]. by intros ? [= <-].
    + exfalso. pose proof (List.find_none _ _ Hf p) as Hn. simpl in Hn. rewrite Hq in Hn.
      discriminate Hn. by apply filter_In.
  - unfold provider_counts in Hv. fold ps in Hv. unfold select_single_provider.
    destruct (bool_decide (type_id (dep_ty dep) ∈ (list_to_set (component_ty_id <$> cs) : gset TypeId))) eqn:Hav.
    { left. apply bool_decide_eq_true in Hav. by rewrite elem_of_list_to_set in Hav. }
    right. destruct ps as [|p [|p' ps']].
    + simpl in Hv. done.
    + exists p. split; [done|]. split; [apply Htrait; left|done].
    + assert (∃ x, List.filter primary (p :: p' :: ps') = [x]) as [x Hx].
      { destruct (List.filter primary (p :: p' :: ps')) as [|x [|y l]] eqn:Hp; [done|by eexists|done]. }
      exists x. rewrite Hx. split; [done|]. split; [|done]. apply Htrait.
      assert (x ∈ List.filter primary (p :: p' :: ps')) as Hin by (rewrite Hx; left).
      by apply list_elem_of_In, filter_In in Hin as [?%list_elem_of_In _].
Qed.
End Scopes.

(** ** A small graph

    [Svc] holds a transient [Tmp], which holds a singleton [Db] through the
    trait it provides; [Db] is also supplied by hand. *)
Definition eager_dep (name : string) (id : Z) : DependencyDescriptor :=
  mkDep name (mkType name name id) One false false None false Eager.
Definition built (name : string) (id : Z) (scope : Scope) (deps : list DependencyDescriptor) : ComponentDescriptor unit :=
  mkComponent name name (mkType name name id) scope [mkFactory tt deps true].
Definition svc : ComponentDescriptor unit := built "Svc" 1 Singleton [eager_dep "Tmp" 2].
Definition tmp : ComponentDescriptor unit := built "Tmp" 2 Transient [eager_dep "dyn Store" 100].
Definition db_auto : ComponentDescriptor unit := built "Db" 3 Singleton [].
Definition db_manual : ComponentDescriptor unit := manual "db" "Db" (mkType "Db" "Db" 3) Singleton.
Definition store_provider : ProviderDescriptor :=
  mkProvider (mkType "dyn Store" "dyn Store" 100) (mkType "Db" "Db" 3) "db" false 0 [].
Definition sample_registry : ComponentRegistry unit := mkRegistry [svc; db_auto; tmp; db_manual] [store_provider].

Example sample_registry_valid : validate [3] [100] sample_registry = Some (Ok tt).
Proof. vm_compute. reflexivity. Qed.

Lemma resolved_components_represent_witness :
  resolved_components sample_registry = Ok [svc; db_manual; tmp] ∧
  represents (components sample_registry) [svc; db_manual; tmp].
Proof.
  split; [vm_compute; reflexivity|].
  apply (resolved_components_represent sample_registry). vm_compute. reflexivity.
Defined.
Lemma no_captive_dependency_witness :
  let cs := [svc; db_manual; tmp] in
  tc (holds sample_registry cs) svc db_manual ∧ scope_allows (c_scope svc) (c_scope db_manual) = true.
Proof.
  intros cs.
  assert (tc (holds sample_registry cs) svc db_manual) as Htc.
  { apply (tc_l _ _ tmp).
    - split; [left|]. split; [by right; right; left|]. exists (eager_dep "Tmp" 2). split; [left|].
      repeat (split; [done|]). by left.
    - apply tc_once. split; [by right; right; left|]. split; [by right; left|]. exists (eager_dep "dyn Store" 100).
      split; [left|]. repeat (split; [done|]). right. split.
      + apply (bool_decide_unpack _). vm_compute. exact I.
      + exists store_provider. split; [left|done]. }
  split; [exact Htc|]. apply (no_captive_dependency sample_registry cs).
  - apply (bool_decide_unpack _). vm_compute. exact I.
  - repeat constructor; vm_compute; discriminate.
  - vm_compute. reflexivity.
  - exact Htc.
Defined.
Lemma accepted_dependency_selects_witness :
  (100 ∈ component_ty_id <$> [svc; db_manual; tmp] ∧ (None : option string) = None) ∨
  ∃ p, select_provider_for (eager_dep "dyn Store" 100) [store_provider] = Some p ∧ trait_id p = 100 ∧
    ∀ q, (None : option string) = Some q → p_qualifier p = q.
Proof.
  apply (accepted_dependency_selects sample_registry [svc; db_manual; tmp] tmp (eager_dep "dyn Store" 100)); try reflexivity.
  - right. right. left.
  - left.
Defined.
