(* ===== verification/DiSort.v ===== *)
(** * DiSort: the construction order of a scope

    Models [topological_sort], [WaitExpansion] and [dep_ready] of
    [crates/di/src/container.rs], and [ScopePlan::partition] of
    [crates/app/src/app.rs], which runs the sort once per scope. The maps the
    source iterates have no defined order; the order in which their keys come is
    an argument. Expansion recurses through transient recipes: every nested call
    adds a transient to [visiting], so one unit of fuel per transient is enough. *)
From stdpp Require Import fin_sets.
From S2P Require Import Prelude CoreTypes DiTypes ProviderOrder DiRegistry.

Section Sort.
Context {Construct : Type}.
Abbreviation Component := (ComponentDescriptor Construct).

(** An edge that gates construction. *)
Definition gates (dep : DependencyDescriptor) : bool :=
  negb (optional dep) && negb (dynamic dep) && negb (config dep) && bool_decide (resolution dep = Eager).

(** ** [WaitExpansion] *)

Record Expansion := mkExpansion {
  provider_memo : gmap TypeId (gset TypeId);
  trait_memo : gmap TypeId (gset TypeId);
  visiting : gset TypeId;
}.
Definition memo_provider (c : TypeId) (w : gset TypeId) (x : Expansion) : Expansion :=
  mkExpansion (<[c := w]> (provider_memo x)) (trait_memo x) (visiting x).
Definition memo_trait (t : TypeId) (w : gset TypeId) (x : Expansion) : Expansion :=
  mkExpansion (provider_memo x) (<[t := w]> (trait_memo x)) (visiting x).
Definition set_visiting (v : gset TypeId) (x : Expansion) : Expansion :=
  mkExpansion (provider_memo x) (trait_memo x) v.

(** A wait set, and the expansion after computing it; [None] is out of fuel. *)
Abbreviation Waits := (option (gset TypeId * Expansion)).

Section Expand.
Variable providers_by_trait : gmap TypeId (list ProviderDescriptor).
Variable transients : gmap TypeId Component.
Variable sortable : gset TypeId.

Section Step.
(** [expand_transient descriptor waits] *)
Variable expand : Component → gset TypeId → Expansion → Waits.

(** [WaitExpansion::provider_waits] *)
Definition provider_waits (concrete : TypeId) (x : Expansion) : Waits :=
  match provider_memo x !! concrete with
  | Some done_ => Some (done_, x)
  | None =>
      '(waits, x1) ←
        (if bool_decide (concrete ∈ sortable) then Some ({[concrete]}, x)
         else match transients !! concrete with
              | Some descriptor => expand descriptor ∅ x
              | None => Some (∅, x)
              end);
      Some (waits, memo_provider concrete waits x1)
  end.

(** The union of the waits of several providers. *)
Fixpoint union_waits (concretes : list TypeId) (waits : gset TypeId) (x : Expansion) : Waits :=
  match concretes with
  | [] => Some (waits, x)
  | concrete :: concretes' =>
      '(w, x1) ← provider_waits concrete x;
      union_waits concretes' (waits ∪ w) x1
  end.

Definition local_providers (ps : list ProviderDescriptor) : list ProviderDescriptor :=
  List.filter (λ p, bool_decide (concrete_id p ∈ sortable)) ps.
(** The globally selected provider of an edge, when it is transient. *)
Definition transient_selection (dep : DependencyDescriptor) (ps : list ProviderDescriptor) : option ProviderDescriptor :=
  p ← select_provider_for dep ps;
  if bool_decide (is_Some (transients !! concrete_id p)) then Some p else None.

(** [WaitExpansion::single_edge_waits] *)
Definition single_edge_waits (dep : DependencyDescriptor) (ps : list ProviderDescriptor) (x : Expansion) : Waits :=
  match transient_selection dep ps with
  | Some p => provider_waits (concrete_id p) x
  | None =>
      let local := local_providers ps in
      match select_provider_for dep local with
      | Some p => provider_waits (concrete_id p) x
      | None =>
          match local, qualifier dep with
          | [], _ => Some (∅, x)
          | _, Some _ => Some (∅, x)
          | _, None => union_waits (concrete_id <$> local) ∅ x
          end
      end
  end.

(** [WaitExpansion::trait_waits] *)
Definition trait_waits (t : TypeId) (x : Expansion) : Waits :=
  match trait_memo x !! t with
  | Some done_ => Some (done_, x)
  | None =>
      if bool_decide (t ∈ visiting x) then Some (∅, x)
      else
        '(waits, x1) ← union_waits (concrete_id <$> from_option id [] (providers_by_trait !! t)) ∅
                         (set_visiting ({[t]} ∪ visiting x) x);
        Some (waits, memo_trait t waits (set_visiting (visiting x1 ∖ {[t]}) x1))
  end.

(** The loop of [expand_transient]. *)
Fixpoint expand_dependencies (deps : list DependencyDescriptor) (waits : gset TypeId) (x : Expansion) : Waits :=
  match deps with
  | [] => Some (waits, x)
  | dep :: deps' =>
      if negb (gates dep) then expand_dependencies deps' waits x
      else
        let dep_id := type_id (dep_ty dep) in
        '(waits1, x1) ←
          (if bool_decide (dep_id ∈ sortable) then Some ({[dep_id]} ∪ waits, x)
           else match providers_by_trait !! dep_id with
                | Some ps =>
                    '(w, x1) ← (match cardinality dep with
                                | One => single_edge_waits dep ps x
                                | Collection | Keyed => trait_waits dep_id x
                                end);
                    Some (waits ∪ w, x1)
                | None =>
                    match transients !! dep_id with
                    | Some next => expand next waits x
                    | None => Some (waits, x)
                    end
                end);
        expand_dependencies deps' waits1 x1
  end.

(** [WaitExpansion::expand_transient] *)
Definition expand_step (descriptor : Component) (waits : gset TypeId) (x : Expansion) : Waits :=
  let id := component_ty_id descriptor in
  if bool_decide (id ∈ visiting x) then Some (waits, x)
  else
    '(waits1, x1) ← expand_dependencies (dependencies descriptor) waits (set_visiting ({[id]} ∪ visiting x) x);
    Some (waits1, set_visiting (visiting x1 ∖ {[id]}) x1).
End Step.

Fixpoint expand_transient (fuel : nat) : Component → gset TypeId → Expansion → Waits :=
  match fuel with
  | O => λ _ _ _, None
  | S fuel' => expand_step (expand_transient fuel')
  end.
Definition expand_fuel : nat := S (size transients).

(** The two precomputed tables of [topological_sort]. *)
Fixpoint provider_table (concretes : list TypeId) (table : gmap TypeId (gset TypeId)) (x : Expansion) :
    option (gmap TypeId (gset TypeId) * Expansion) :=
  match concretes with
  | [] => Some (table, x)
  | c :: concretes' =>
      '(w, x1) ← provider_waits (expand_transient expand_fuel) c x;
      provider_table concretes' (<[c := w]> table) x1
  end.
Fixpoint trait_table (traits : list TypeId) (table : gmap TypeId (gset TypeId)) (x : Expansion) :
    option (gmap TypeId (gset TypeId) * Expansion) :=
  match traits with
  | [] => Some (table, x)
  | t :: traits' =>
      '(w, x1) ← trait_waits (expand_transient expand_fuel) t x;
      trait_table traits' (<[t := w]> table) x1
  end.

(** ** Readiness *)

Definition all_built (is_built : TypeId → bool) (waits : option (gset TypeId)) : bool :=
  match waits with Some w => bool_decide (set_Forall (λ id, is_built id = true) w) | None => true end.

(** [dep_ready] *)
Definition dep_ready (dep : DependencyDescriptor) (pw tw : gmap TypeId (gset TypeId)) (is_built : TypeId → bool) : bool :=
  match providers_by_trait !! type_id (dep_ty dep) with
  | None => match cardinality dep with One => is_built (type_id (dep_ty dep)) | Collection | Keyed => true end
  | Some ps =>
      match cardinality dep with
      | Collection | Keyed => all_built is_built (tw !! type_id (dep_ty dep))
      | One =>
          match transient_selection dep ps with
          | Some p => all_built is_built (pw !! concrete_id p)
          | None =>
              let local := local_providers ps in
              match select_provider_for dep local with
              | Some p => all_built is_built (pw !! concrete_id p)
              | None =>
                  match qualifier dep with
                  | Some _ => true
                  | None => forallb (λ p, all_built is_built (pw !! concrete_id p)) local
                  end
              end
          end
      end
  end.

Definition is_built (prebuilt : gset TypeId) (result_ : list Component) (id : TypeId) : bool :=
  bool_decide (id ∈ prebuilt) || existsb (λ c, component_ty_id c =? id) result_.
Definition component_ready (pw tw : gmap TypeId (gset TypeId)) (prebuilt : gset TypeId) (result_ : list Component)
    (c : Component) : bool :=
  forallb (λ dep, dep_ready dep pw tw (is_built prebuilt result_)) (List.filter gates (dependencies c)).

(** One pass of [remaining.retain]: what is placed, and what is left. *)
Fixpoint retain_pass (pw tw : gmap TypeId (gset TypeId)) (prebuilt : gset TypeId) (remaining result_ : list Component) :
    list Component * list Component :=
  match remaining with
  | [] => (result_, [])
  | c :: remaining' =>
      if component_ready pw tw prebuilt result_ c then retain_pass pw tw prebuilt remaining' (result_ ++ [c])
      else let '(placed, left_) := retain_pass pw tw prebuilt remaining' result_ in (placed, c :: left_)
  end.

Fixpoint sort_loop (fuel : nat) (pw tw : gmap TypeId (gset TypeId)) (prebuilt : gset TypeId)
    (remaining result_ : list Component) : option (result (list Component) DiError) :=
  match remaining with
  | [] => Some (Ok result_)
  | _ :: _ =>
      match fuel with
      | O => None
      | S fuel' =>
          let '(placed, left_) := retain_pass pw tw prebuilt remaining result_ in
          if (length left_ =? length remaining)%nat then Some (Err (DependencyCycle (c_name <$> left_)))
          else sort_loop fuel' pw tw prebuilt left_ placed
      end
  end.
End Expand.

(** [topological_sort]; [None] is out of fuel. *)
Definition topological_sort (concretes traits : list TypeId) (components : list Component) (prebuilt : gset TypeId)
    (providers : list ProviderDescriptor) (transients : gmap TypeId Component) :
    option (result (list Component) DiError) :=
  let by_trait := group_by trait_id providers in
  let sortable : gset TypeId := list_to_set (component_ty_id <$> components) in
  '(pw, x1) ← provider_table by_trait transients sortable concretes ∅ (mkExpansion ∅ ∅ ∅);
  '(tw, _) ← trait_table by_trait transients sortable traits ∅ x1;
  sort_loop by_trait transients sortable (length components) pw tw prebuilt components [].

(** ** [ScopePlan::partition] *)

Record ScopePlan := mkPlan {
  singletons : list Component;
  transient : gmap TypeId Component;
  orders : gmap string (list Component);
}.
Inductive PartitionError := PartitionDi (e : DiError) | UndeclaredScope (component scope : string).

(** The split of the resolved components; [by_scope] keeps the scopes in the
    order they were first met. *)
Record Split := mkSplit {
  sp_singletons : list Component; sp_transient : gmap TypeId Component;
  sp_by_scope : list (string * list Component); sp_prebuilt : gset TypeId }.
Definition push_scope (name : string) (c : Component) (m : list (string * list Component)) : list (string * list Component) :=
  match assoc_find name m with
  | Some _ => assoc_update name (λ l, l ++ [c]) m
  | None => m ++ [(name, [c])]
  end.
Fixpoint split_components (resolved : list Component) (s : Split) : result Split DiError :=
  match resolved with
  | [] => Ok s
  | c :: resolved' =>
      if is_transient (c_scope c) then
        split_components resolved'
          (mkSplit (sp_singletons s) (<[component_ty_id c := c]> (sp_transient s)) (sp_by_scope s) (sp_prebuilt s))
      else if rank (c_scope c) =? rank Singleton then
        split_components resolved'
          (mkSplit (sp_singletons s ++ [c]) (sp_transient s) (sp_by_scope s) (sp_prebuilt s))
      else
        match effective_factory c with
        | Err e => Err e
        | Ok (Some _) =>
            split_components resolved'
              (mkSplit (sp_singletons s) (sp_transient s) (push_scope (scope_name (c_scope c)) c (sp_by_scope s)) (sp_prebuilt s))
        | Ok None =>
            split_components resolved'
              (mkSplit (sp_singletons s) (sp_transient s) (sp_by_scope s) ({[component_ty_id c]} ∪ sp_prebuilt s))
        end
  end.
(** The loop over the declared scopes: each order extends what is prebuilt. *)
Fixpoint plan_scopes (concretes traits : list TypeId) (scopes : list Scope) (by_scope : list (string * list Component))
    (prebuilt : gset TypeId) (providers : list ProviderDescriptor) (transients : gmap TypeId Component)
    (orders : gmap string (list Component)) :
    option (result (gmap string (list Component) * list (string * list Component)) DiError) :=
  match scopes with
  | [] => Some (Ok (orders, by_scope))
  | scope :: scopes' =>
      let name := scope_name scope in
      let components := from_option id [] (assoc_find name by_scope) in
      match topological_sort concretes traits components prebuilt providers transients with
      | None => None
      | Some (Err e) => Some (Err e)
      | Some (Ok order) =>
          plan_scopes concretes traits scopes' (List.filter (λ '(n, _), negb (bool_decide (n = name))) by_scope)
            (list_to_set (component_ty_id <$> order) ∪ prebuilt) providers transients (<[name := order]> orders)
      end
  end.
Definition partition (concretes traits : list TypeId) (resolved : list Component) (providers : list ProviderDescriptor)
    (scopes : list Scope) : option (result ScopePlan PartitionError) :=
  match split_components resolved (mkSplit [] ∅ [] ∅) with
  | Err e => Some (Err (PartitionDi e))
  | Ok s =>
      let prebuilt := list_to_set (component_ty_id <$> sp_singletons s) ∪ sp_prebuilt s in
      match plan_scopes concretes traits scopes (sp_by_scope s) prebuilt providers (sp_transient s) ∅ with
      | None => None
      | Some (Err e) => Some (Err (PartitionDi e))
      | Some (Ok (orders, [])) => Some (Ok (mkPlan (sp_singletons s) (sp_transient s) orders))
      | Some (Ok (_, (scope, c :: _) :: _)) => Some (Err (UndeclaredScope (c_name c) scope))
      | Some (Ok (_, (scope, []) :: _)) => Some (Err (UndeclaredScope "" scope))
      end
  end.
End Sort.
