(* ===== verification/DiSortSpec.v ===== *)
(** * DiSortSpec: what the construction order promises

    The wait sets of [DiSort] are compared with a declarative reading of the
    dependency graph: [needs c id] says that building the provider [c] reaches
    the component [id] of this scope, directly or through transient recipes. *)
From stdpp Require Import fin_sets.
From S2P Require Import Prelude CoreTypes DiTypes ProviderOrder DiRegistry DiSort.

Section Needs.
Context {Construct : Type}.
Abbreviation Component := (ComponentDescriptor Construct).
Context (by_trait : gmap TypeId (list ProviderDescriptor)) (transients : gmap TypeId Component) (sortable : gset TypeId).

(** The providers a trait edge captures or constructs. *)
Definition captured (dep : DependencyDescriptor) (ps : list ProviderDescriptor) : list TypeId :=
  match cardinality dep with
  | Collection | Keyed => concrete_id <$> ps
  | One =>
      match transient_selection transients dep ps with
      | Some p => [concrete_id p]
      | None =>
          let local := local_providers sortable ps in
          match select_provider_for dep local, qualifier dep with
          | Some p, _ => [concrete_id p]
          | None, Some _ => []
          | None, None => concrete_id <$> local
          end
      end
  end.
(** The concrete types an edge of a transient recipe leads to. *)
Definition edge_targets (dep : DependencyDescriptor) : list TypeId :=
  let dep_id := type_id (dep_ty dep) in
  if bool_decide (dep_id ∈ sortable) then [dep_id]
  else match by_trait !! dep_id with Some ps => captured dep ps | None => [dep_id] end.

Inductive needs : TypeId → TypeId → Prop :=
| needs_self c : c ∈ sortable → needs c c
| needs_recipe c d dep p id :
    c ∉ sortable → transients !! c = Some d → dep ∈ dependencies d → gates dep = true → p ∈ edge_targets dep →
    needs p id → needs c id.

(** Transient recipes do not construct themselves: a [height] that falls along
    every edge a recipe follows. *)
Record acyclic (height : TypeId → nat) : Prop := {
  acyclic_provider t ps p : by_trait !! t = Some ps → p ∈ ps → (height (concrete_id p) < height t)%nat;
  acyclic_collection c d dep : c ∉ sortable → transients !! c = Some d → dep ∈ dependencies d → gates dep = true →
    cardinality dep ≠ One → (height (type_id (dep_ty dep)) < height c)%nat;
  acyclic_target c d dep p : c ∉ sortable → transients !! c = Some d → dep ∈ dependencies d → gates dep = true →
    p ∈ edge_targets dep → (height p < height c)%nat;
}.

Lemma needs_sortable c id : c ∈ sortable → needs c id ↔ id = c.
Proof. intros Hc. split; [by inversion 1|]. intros ->. by constructor. Qed.
Lemma needs_in_sortable c id : needs c id → id ∈ sortable.
Proof. by induction 1. Qed.
Lemma needs_transient c d id :
  c ∉ sortable → transients !! c = Some d →
  needs c id ↔ ∃ dep, dep ∈ dependencies d ∧ gates dep = true ∧ ∃ p, p ∈ edge_targets dep ∧ needs p id.
Proof.
  intros Hc Hd. split.
  - inversion 1; simplify_eq; [done|]. naive_solver.
  - intros (dep & ? & ? & p & ? & ?). by eapply needs_recipe.
Qed.
Lemma needs_nothing c id : c ∉ sortable → transients !! c = None → ¬ needs c id.
Proof. intros Hc Hd. inversion 1; simplify_eq; done. Qed.

(** ** The wait sets compute [needs]

    One induction proves that the expansion always returns and, when [good]
    holds, that what it returns is exact. *)
Context (keyed : ∀ c d, transients !! c = Some d → component_ty_id d = c).
Context (good : Prop) (height : TypeId → nat) (Hacyclic : good → acyclic height).

Record memo_exact (x : Expansion) : Prop := {
  provider_exact c w : provider_memo x !! c = Some w → ∀ id, id ∈ w ↔ needs c id;
  trait_exact t w : trait_memo x !! t = Some w →
    ∀ id, id ∈ w ↔ ∃ c, c ∈ concrete_id <$> from_option (λ ps, ps) [] (by_trait !! t) ∧ needs c id;
}.
Definition below (n : nat) (x : Expansion) : Prop := ∀ v, v ∈ visiting x → (n < height v)%nat.
Definition pre (n : nat) (x : Expansion) : Prop := good → memo_exact x ∧ below n x.
Definition room (n : nat) (x : Expansion) : Prop := (size (dom transients ∖ visiting x) < n)%nat.
Definition returns (m : option (gset TypeId * Expansion)) (x : Expansion) (Q : gset TypeId → Prop) : Prop :=
  ∃ w x', m = Some (w, x') ∧ visiting x' = visiting x ∧ (good → memo_exact x' ∧ Q w).

Lemma returns_now w x Q : (good → memo_exact x ∧ Q w) → returns (Some (w, x)) x Q.
Proof. intros H. by exists w, x. Qed.
Lemma returns_weaken m x (Q R : gset TypeId → Prop) : (∀ w, Q w → R w) → returns m x Q → returns m x R.
Proof. intros H (w & x' & ? & ? & Hpost). exists w, x'. split; [done|]. split; [done|]. naive_solver. Qed.
Lemma room_visiting n x x' : visiting x' = visiting x → room n x → room n x'.
Proof. unfold room. by intros ->. Qed.
Lemma pre_visiting n x x' : visiting x' = visiting x → (good → memo_exact x') → pre n x → pre n x'.
Proof. unfold pre, below. intros -> H Hp Hg. split; [by apply H|]. by apply Hp. Qed.
Lemma pre_lower n n' x : (good → n' ≤ n)%nat → pre n x → pre n' x.
Proof.
  intros Hn Hp Hg. destruct (Hp Hg) as [? Hb]. split; [done|]. intros v Hv. specialize (Hb v Hv). specialize (Hn Hg). lia.
Qed.

Section Step.
Context (expand : Component → gset TypeId → Expansion → option (gset TypeId * Expansion)) (n : nat).
Context (Hexpand : ∀ d c waits x, transients !! c = Some d → c ∉ sortable → room n x → pre (height c) x →
  returns (expand d waits x) x (λ w, ∀ id, id ∈ w ↔ id ∈ waits ∨ needs c id)).

Lemma provider_waits_returns c x :
  room n x → pre (height c) x →
  returns (provider_waits transients sortable expand c x) x (λ w, ∀ id, id ∈ w ↔ needs c id).
Proof.
  intros Hr Hp. unfold provider_waits. destruct (provider_memo x !! c) as [w|] eqn:Hm.
  { apply returns_now. intros Hg. destruct (Hp Hg) as [He _]. split; [done|]. by apply (provider_exact x He). }
  enough (returns (if bool_decide (c ∈ sortable) then Some ({[c]}, x)
          else match transients !! c with Some d => expand d ∅ x | None => Some (∅, x) end) x
          (λ w, ∀ id, id ∈ w ↔ needs c id)) as (w & x1 & Hrun & Hv & Hpost).
  { exists w, (memo_provider c w x1). rewrite Hrun. simpl. split; [done|]. split; [done|]. intros Hg.
    destruct (Hpost Hg) as [He Hw]. split; [|done]. split; [|by apply (trait_exact x1 He)].
    intros c' w'. simpl. destruct (decide (c = c')) as [->|Hne].
    - rewrite lookup_insert_eq. by intros [= <-].
    - rewrite lookup_insert_ne by done. by apply (provider_exact x1 He). }
  case_bool_decide as Hc.
  - apply returns_now. intros Hg. split; [by apply Hp|]. intros id. rewrite needs_sortable by done. set_solver.
  - destruct (transients !! c) as [d|] eqn:Hd.
    + destruct (Hexpand d c ∅ x Hd Hc Hr Hp) as (w & x1 & Hrun & Hv & Hpost). exists w, x1. split; [done|].
      split; [done|]. intros Hg. destruct (Hpost Hg) as [? Hw]. split; [done|]. intros id. rewrite Hw. set_solver.
    + apply returns_now. intros Hg. split; [by apply Hp|]. intros id. pose proof (needs_nothing c id Hc Hd). set_solver.
Qed.

Lemma union_waits_returns cs waits x :
  room n x → (∀ c, c ∈ cs → pre (height c) x) → (good → memo_exact x) →
  returns (union_waits transients sortable expand cs waits x) x
    (λ w, ∀ id, id ∈ w ↔ id ∈ waits ∨ ∃ c, c ∈ cs ∧ needs c id).
Proof.
  revert waits x. induction cs as [|c cs IH]; intros waits x Hr Hp He; simpl.
  { apply returns_now. intros Hg. split; [by apply He|]. set_solver. }
  destruct (provider_waits_returns c x Hr (Hp c ltac:(set_solver))) as (w & x1 & Hrun & Hv & Hpost).
  rewrite Hrun. simpl. assert (good → memo_exact x1) as He1 by (intros Hg; by destruct (Hpost Hg)).
  destruct (IH (waits ∪ w) x1) as (w' & x2 & Hrun' & Hv' & Hpost').
  - by eapply room_visiting.
  - intros c' Hc'. eapply pre_visiting; [done|done|]. apply Hp. set_solver.
  - done.
  - exists w', x2. split; [done|]. split; [congruence|]. intros Hg. destruct (Hpost' Hg) as [? Hw'].
    split; [done|]. intros id. rewrite Hw', elem_of_union. destruct (Hpost Hg) as [_ Hw]. rewrite Hw.
    setoid_rewrite elem_of_cons. naive_solver.
Qed.

Lemma single_edge_waits_returns dep ps x :
  cardinality dep = One → room n x → (good → memo_exact x) → (∀ p, p ∈ captured dep ps → pre (height p) x) →
  returns (single_edge_waits transients sortable expand dep ps x) x
    (λ w, ∀ id, id ∈ w ↔ ∃ c, c ∈ captured dep ps ∧ needs c id).
Proof.
  intros Hone Hr He. unfold single_edge_waits, captured. rewrite Hone. intros Hp.
  assert (∀ p, pre (height (concrete_id p)) x →
    returns (provider_waits transients sortable expand (concrete_id p) x) x
      (λ w, ∀ id, id ∈ w ↔ ∃ c, c ∈ [concrete_id p] ∧ needs c id)) as Hsingle.
  { intros p Hpk. eapply returns_weaken; [|by apply provider_waits_returns]. set_solver. }
  destruct (transient_selection transients dep ps) as [p|]; [apply Hsingle, Hp; set_solver|].
  destruct (select_provider_for dep (local_providers sortable ps)) as [p|]; [apply Hsingle, Hp; set_solver|].
  destruct (local_providers sortable ps) as [|p local] eqn:Hl; [|destruct (qualifier dep) as [q|] eqn:Hq].
  - apply returns_now. intros Hg. split; [by apply He|]. intros id. destruct (qualifier dep); set_solver.
  - apply returns_now. intros Hg. split; [by apply He|]. set_solver.
  - eapply returns_weaken; [|by apply union_waits_returns]. set_solver.
Qed.

Lemma trait_waits_returns t x :
  room n x → pre (height t) x →
  returns (trait_waits by_trait transients sortable expand t x) x
    (λ w, ∀ id, id ∈ w ↔ ∃ c, c ∈ concrete_id <$> from_option (λ ps, ps) [] (by_trait !! t) ∧ needs c id).
Proof.
  intros Hr Hp. unfold trait_waits. destruct (trait_memo x !! t) as [w|] eqn:Hm.
  { apply returns_now. intros Hg. destruct (Hp Hg) as [He _]. split; [done|]. by apply (trait_exact x He). }
  case_bool_decide as Ht.
  { apply returns_now. intros Hg. destruct (Hp Hg) as [_ Hb]. specialize (Hb t Ht). lia. }
  set (cs := concrete_id <$> _).
  destruct (union_waits_returns cs ∅ (set_visiting ({[t]} ∪ visiting x) x)) as (w & x1 & Hrun & Hv & Hpost).
  - unfold room in *. simpl. eapply Nat.le_lt_trans; [|exact Hr]. apply subseteq_size. set_solver.
  - intros c Hc Hg. destruct (Hp Hg) as [He Hb]. split; [by destruct He; split|].
    assert (height c < height t)%nat as Hct.
    { unfold cs in Hc. destruct (by_trait !! t) as [ps|] eqn:Hps; simpl in Hc; [|set_solver].
      apply list_elem_of_fmap in Hc as (p & -> & Hin). by eapply (acyclic_provider _ (Hacyclic Hg)). }
    intros v. simpl. rewrite elem_of_union, elem_of_singleton. intros [->|Hv]; [done|]. specialize (Hb v Hv). lia.
  - intros Hg. destruct (Hp Hg) as [He _]. by destruct He; split.
  - exists w, (memo_trait t w (set_visiting (visiting x1 ∖ {[t]}) x1)). rewrite Hrun. simpl. split; [done|].
    split; [rewrite Hv; simpl; apply leibniz_equiv; set_solver|]. intros Hg. destruct (Hpost Hg) as [He Hw].
    split; [|intros id; rewrite Hw; set_solver]. split; [by apply (provider_exact x1 He)|].
    intros t' w'. simpl. destruct (decide (t = t')) as [->|Hne].
    + rewrite lookup_insert_eq. intros [= <-] id. rewrite Hw. unfold cs. set_solver.
    + rewrite lookup_insert_ne by done. by apply (trait_exact x1 He).
Qed.

Definition edge_needs (dep : DependencyDescriptor) (id : TypeId) : Prop :=
  if bool_decide (type_id (dep_ty dep) ∈ sortable) then id = type_id (dep_ty dep)
  else match by_trait !! type_id (dep_ty dep) with
       | Some ps => ∃ c, c ∈ captured dep ps ∧ needs c id
       | None => needs (type_id (dep_ty dep)) id
       end.
Lemma edge_target_cases dep id : (∃ p, p ∈ edge_targets dep ∧ needs p id) ↔ edge_needs dep id.
Proof.
  unfold edge_needs.
  unfold edge_targets. case_bool_decide as Hs; [|by destruct (by_trait !! _); [|set_solver]].
  setoid_rewrite list_elem_of_singleton. split; [|intros ->; eexists; split; [done|by constructor]].
  intros (p & -> & Hn). by apply needs_sortable in Hn.
Qed.

(** The waits an edge of a recipe adds. *)
Lemma edge_returns dep waits x :
  room n x → (good → memo_exact x) → (∀ p, p ∈ edge_targets dep → pre (height p) x) →
  (cardinality dep ≠ One → pre (height (type_id (dep_ty dep))) x) →
  returns (if bool_decide (type_id (dep_ty dep) ∈ sortable) then Some ({[type_id (dep_ty dep)]} ∪ waits, x)
           else match by_trait !! type_id (dep_ty dep) with
                | Some ps =>
                    '(w, x1) ← (match cardinality dep with
                                | One => single_edge_waits transients sortable expand dep ps x
                                | Collection | Keyed => trait_waits by_trait transients sortable expand (type_id (dep_ty dep)) x
                                end);
                    Some (waits ∪ w, x1)
                | None =>
                    match transients !! type_id (dep_ty dep) with
                    | Some next => expand next waits x
                    | None => Some (waits, x)
                    end
                end) x
    (λ w, ∀ id, id ∈ w ↔ id ∈ waits ∨ ∃ p, p ∈ edge_targets dep ∧ needs p id).
Proof.
  intros Hr He Hp Hcoll.
  eapply (returns_weaken _ _ (λ w, ∀ id, id ∈ w ↔ id ∈ waits ∨ edge_needs dep id)).
  { intros w Hw id. rewrite (edge_target_cases dep id). apply Hw. }
  unfold edge_needs. unfold edge_targets in Hp. case_bool_decide as Hs.
  { apply returns_now. intros Hg. split; [by apply He|]. set_solver. }
  destruct (by_trait !! type_id (dep_ty dep)) as [ps|] eqn:Hps.
  - set (edge := match cardinality dep with One => _ | _ => _ end).
    enough (returns edge x (λ w, ∀ id, id ∈ w ↔ ∃ c, c ∈ captured dep ps ∧ needs c id)) as (w & x1 & Hrun & Hv & Hpost).
    { exists (waits ∪ w), x1. rewrite Hrun. split; [done|]. split; [done|]. intros Hg. destruct (Hpost Hg) as [? Hw].
      split; [done|]. intros id. specialize (Hw id). by rewrite elem_of_union, Hw. }
    assert (cardinality dep ≠ One → captured dep ps = concrete_id <$> ps) as Hcap.
    { unfold captured. by destruct (cardinality dep). }
    unfold edge. destruct (cardinality dep) eqn:Hcard; [by apply single_edge_waits_returns|..].
    all: eapply returns_weaken; [|apply trait_waits_returns; [done|by apply Hcoll]].
    all: intros w Hw id; specialize (Hw id); rewrite Hps in Hw; rewrite Hcap by done; exact Hw.
  - destruct (transients !! type_id (dep_ty dep)) as [next|] eqn:Hn.
    + apply Hexpand; [done|done|done|]. apply Hp. set_solver.
    + apply returns_now. intros Hg. split; [by apply He|]. intros id. pose proof (needs_nothing _ id Hs Hn). naive_solver.
Qed.

Lemma expand_dependencies_returns c d deps waits x :
  transients !! c = Some d → c ∉ sortable → (∀ dep, dep ∈ deps → dep ∈ dependencies d) → room n x →
  (good → memo_exact x ∧ ∀ v, v ∈ visiting x → (height c ≤ height v)%nat) →
  returns (expand_dependencies by_trait transients sortable expand deps waits x) x
    (λ w, ∀ id, id ∈ w ↔ id ∈ waits ∨ ∃ dep, dep ∈ deps ∧ gates dep = true ∧ ∃ p, p ∈ edge_targets dep ∧ needs p id).
Proof.
  intros Hd Hc. revert waits x. induction deps as [|dep deps IH]; intros waits x Hdeps Hr Hp; simpl.
  { apply returns_now. intros Hg. split; [by apply Hp|]. set_solver. }
  assert (∀ dep, dep ∈ deps → dep ∈ dependencies d) as Hdeps' by set_solver.
  assert (dep ∈ dependencies d) as Hdep by set_solver.
  destruct (gates dep) eqn:Hgate; simpl.
  2: { eapply returns_weaken; [|by apply IH]. intros w Hw id. specialize (Hw id). rewrite Hw. setoid_rewrite elem_of_cons.
       naive_solver congruence. }
  assert (∀ k, (good → k < height c)%nat → pre k x) as Hpre.
  { intros k Hk Hg. destruct (Hp Hg) as [He Hb]. split; [done|]. intros v Hv. specialize (Hb v Hv). specialize (Hk Hg). lia. }
  destruct (edge_returns dep waits x) as (w & x1 & Hrun & Hv & Hpost); [done|by intros Hg; apply Hp|..].
  { intros p Hin. apply Hpre. intros Hg. by eapply (acyclic_target _ (Hacyclic Hg)). }
  { intros Hone. apply Hpre. intros Hg. by eapply (acyclic_collection _ (Hacyclic Hg)). }
  rewrite Hrun. simpl. destruct (IH w x1) as (w' & x2 & Hrun' & Hv' & Hpost'); [done|by eapply room_visiting|..].
  { intros Hg. rewrite Hv. destruct (Hpost Hg). split; [done|]. by apply Hp. }
  exists w', x2. split; [done|]. split; [congruence|]. intros Hg. destruct (Hpost' Hg) as [? Hw']. split; [done|].
  destruct (Hpost Hg) as [_ Hw]. intros id. rewrite Hw', Hw. setoid_rewrite elem_of_cons. naive_solver.
Qed.

Lemma expand_step_returns c d waits x :
  transients !! c = Some d → c ∉ sortable → (size (dom transients ∖ visiting x) < S n)%nat → pre (height c) x →
  returns (expand_step by_trait transients sortable expand d waits x) x (λ w, ∀ id, id ∈ w ↔ id ∈ waits ∨ needs c id).
Proof.
  intros Hd Hc Hr Hp. unfold expand_step. rewrite (keyed c d Hd). case_bool_decide as Hin.
  { apply returns_now. intros Hg. destruct (Hp Hg) as [_ Hb]. specialize (Hb c Hin). lia. }
  destruct (expand_dependencies_returns c d (dependencies d) waits (set_visiting ({[c]} ∪ visiting x) x))
    as (w & x1 & Hrun & Hv & Hpost); [done|done|done|..].
  - unfold room. simpl. eapply Nat.lt_le_trans; [apply subset_size|apply Nat.lt_succ_r, Hr].
    assert (c ∈ dom transients) by (apply elem_of_dom; by eexists). set_solver.
  - intros Hg. destruct (Hp Hg) as [He Hb]. split; [by destruct He; split|]. intros v. simpl.
    rewrite elem_of_union, elem_of_singleton. intros [->|Hv]; [done|]. specialize (Hb v Hv). lia.
  - exists w, (set_visiting (visiting x1 ∖ {[c]}) x1). rewrite Hrun. simpl. split; [done|].
    split; [rewrite Hv; simpl; apply leibniz_equiv; set_solver|]. intros Hg. destruct (Hpost Hg) as [He Hw].
    split; [by destruct He; split|]. intros id. by rewrite Hw, (needs_transient c d id).
Qed.
End Step.

Lemma expand_transient_returns n d c waits x :
  transients !! c = Some d → c ∉ sortable → room n x → pre (height c) x →
  returns (expand_transient by_trait transients sortable n d waits x) x (λ w, ∀ id, id ∈ w ↔ id ∈ waits ∨ needs c id).
Proof.
  revert d c waits x. induction n as [|n IH]; intros d c waits x Hd Hc Hr Hp; [by apply Nat.nlt_0_r in Hr|].
  by apply (expand_step_returns _ n).
Qed.

(** ** The precomputed tables *)

Definition table_exact (spec : TypeId → TypeId → Prop) (keys : list TypeId) (table : gmap TypeId (gset TypeId)) : Prop :=
  (∀ k, k ∈ keys → is_Some (table !! k)) ∧ (good → ∀ k w, table !! k = Some w → ∀ id, id ∈ w ↔ spec k id).
Lemma table_insert spec keys table k w :
  table_exact spec keys table → (good → ∀ id, id ∈ w ↔ spec k id) → table_exact spec (keys ++ [k]) (<[k := w]> table).
Proof.
  intros [Hsome Hex] Hw. split.
  - intros k' [Hk| ->%list_elem_of_singleton]%elem_of_app; [|by rewrite lookup_insert_eq].
    apply lookup_insert_is_Some'. right. by apply Hsome.
  - intros Hg k' w'. destruct (decide (k = k')) as [->|Hne]; [rewrite lookup_insert_eq|rewrite lookup_insert_ne by done].
    + intros [= <-]. by apply Hw.
    + by apply Hex.
Qed.

Definition idle (x : Expansion) : Prop := visiting x = ∅ ∧ (good → memo_exact x).
Lemma idle_room x : idle x → room (expand_fuel transients) x.
Proof. intros [Hv _]. unfold room, expand_fuel. rewrite Hv, difference_empty_L, size_dom. lia. Qed.
Lemma idle_pre x n : idle x → pre n x.
Proof. intros [Hv He] Hg. split; [by apply He|]. intros v. rewrite Hv. set_solver. Qed.
Lemma idle_returns m x Q : idle x → returns m x Q → ∃ w x', m = Some (w, x') ∧ idle x' ∧ (good → Q w).
Proof. intros [Hi _] (w & x' & ? & Hv & Hpost). exists w, x'. split; [done|]. split; [split; [congruence|]|]; naive_solver. Qed.

Lemma provider_table_returns keys done_ table x :
  idle x → table_exact needs done_ table →
  ∃ table' x', provider_table by_trait transients sortable keys table x = Some (table', x') ∧ idle x' ∧
    table_exact needs (done_ ++ keys) table'.
Proof.
  revert done_ table x. induction keys as [|k keys IH]; intros done_ table x Hi Ht; cbn [provider_table trait_table].
  { exists table, x. by rewrite app_nil_r. }
  destruct (idle_returns _ x _ Hi (provider_waits_returns _ _ (expand_transient_returns _) k x (idle_room x Hi) (idle_pre x _ Hi)))
    as (w & x1 & Hrun & Hi1 & Hw). rewrite Hrun. cbn [mbind option_bind].
  destruct (IH (done_ ++ [k]) (<[k := w]> table) x1 Hi1 (table_insert _ _ _ _ _ Ht Hw)) as (table' & x' & ? & ? & Ht').
  exists table', x'. split; [done|]. split; [done|]. by rewrite <- app_assoc in Ht'.
Qed.

Definition trait_needs (t id : TypeId) : Prop :=
  ∃ c, c ∈ concrete_id <$> from_option (λ ps, ps) [] (by_trait !! t) ∧ needs c id.
Lemma trait_table_returns keys done_ table x :
  idle x → table_exact trait_needs done_ table →
  ∃ table' x', trait_table by_trait transients sortable keys table x = Some (table', x') ∧ idle x' ∧
    table_exact trait_needs (done_ ++ keys) table'.
Proof.
  revert done_ table x. induction keys as [|k keys IH]; intros done_ table x Hi Ht; cbn [provider_table trait_table].
  { exists table, x. by rewrite app_nil_r. }
  destruct (idle_returns _ x _ Hi (trait_waits_returns _ _ (expand_transient_returns _) k x (idle_room x Hi) (idle_pre x _ Hi)))
    as (w & x1 & Hrun & Hi1 & Hw). rewrite Hrun. cbn [mbind option_bind].
  destruct (IH (done_ ++ [k]) (<[k := w]> table) x1 Hi1 (table_insert _ _ _ _ _ Ht Hw)) as (table' & x' & ? & ? & Ht').
  exists table', x'. split; [done|]. split; [done|]. by rewrite <- app_assoc in Ht'.
Qed.

End Needs.
