(* ===== verification/DiOrder.v ===== *)
(** * DiOrder: the construction order of a scope is sound and complete

    Theorems about [topological_sort] and [ScopePlan::partition] of [DiSort],
    stated with the declarative [needs] of [DiSortSpec]. *)
From stdpp Require Import fin_sets.
From S2P Require Import Prelude CoreTypes DiTypes ProviderOrder DiRegistry DiSort DiSortSpec.

(** ** The fixpoint loop

    Over any readiness that only grows as more is built. *)
Section Loop.
Context {Construct : Type}.
Abbreviation Component := (ComponentDescriptor Construct).
Context (by_trait : gmap TypeId (list ProviderDescriptor)) (transients : gmap TypeId Component) (sortable : gset TypeId).
Context (pw tw : gmap TypeId (gset TypeId)) (prebuilt : gset TypeId).
Abbreviation ready := (component_ready by_trait transients sortable pw tw prebuilt).
Abbreviation pass := (retain_pass by_trait transients sortable pw tw prebuilt).
Abbreviation loop := (λ n, sort_loop by_trait transients sortable n pw tw prebuilt).

Definition ordered (order : list Component) : Prop := ∀ l1 c l2, order = l1 ++ c :: l2 → ready l1 c = true.
Lemma ordered_snoc order c : ordered order → ready order c = true → ordered (order ++ [c]).
Proof.
  intros Ho Hc l1 d l2 H. destruct l2 as [|e l2 _] using rev_ind.
  - by apply app_inj_tail in H as [<- <-].
  - rewrite app_comm_cons, app_assoc in H. apply app_inj_tail in H as [-> _]. by eapply Ho.
Qed.
Lemma ordered_prefix l1 l2 : ordered (l1 ++ l2) → ordered l1.
Proof. intros Ho k1 c k2 ->. apply (Ho k1 c (k2 ++ l2)). by rewrite <- app_assoc. Qed.

(** A pass places ready components only; one that places none found none ready. *)
Lemma retain_pass_spec remaining result_ placed left_ :
  pass remaining result_ = (placed, left_) → ordered result_ →
  ordered placed ∧ placed ++ left_ ≡ₚ result_ ++ remaining ∧ (length left_ ≤ length remaining)%nat ∧
  (length left_ = length remaining → placed = result_ ∧ left_ = remaining ∧ ∀ c, c ∈ remaining → ready result_ c = false).
Proof.
  revert result_ placed left_. induction remaining as [|c remaining IH]; intros result_ placed left_; cbn [retain_pass].
  { intros [= <- <-] Ho. split; [done|]. split; [done|]. split; [done|]. set_solver. }
  destruct (ready result_ c) eqn:Hc.
  - intros Hp Ho. destruct (IH _ _ _ Hp (ordered_snoc _ _ Ho Hc)) as (? & Hperm & Hlen & _). split; [done|].
    split; [by rewrite Hperm, <- app_assoc|]. simpl. split; lia.
  - destruct (pass remaining result_) as [placed' left'] eqn:Hp. intros [= <- <-] Ho.
    destruct (IH _ _ _ Hp Ho) as (? & Hperm & Hlen & Hnone). split; [done|].
    split; [by rewrite <- Permutation_middle, Hperm, Permutation_middle|]. simpl. split; [lia|].
    intros Heq. destruct Hnone as (-> & -> & Hall); [lia|]. split; [done|]. split; [done|]. set_solver.
Qed.

(** The loop returns a total order, or what is left once nothing is ready. *)
Lemma sort_loop_spec n remaining result_ :
  (length remaining ≤ n)%nat → ordered result_ →
  (∃ order, loop n remaining result_ = Some (Ok order) ∧ order ≡ₚ result_ ++ remaining ∧ ordered order) ∨
  (∃ placed stuck, loop n remaining result_ = Some (Err (DependencyCycle (c_name <$> stuck))) ∧ stuck ≠ [] ∧
     placed ++ stuck ≡ₚ result_ ++ remaining ∧ ordered placed ∧ ∀ c, c ∈ stuck → ready placed c = false).
Proof.
  revert remaining result_. induction n as [|n IH]; intros [|c remaining] result_ Hn Ho; cbn [sort_loop].
  1, 3: left; exists result_; by rewrite app_nil_r.
  { simpl in Hn. lia. }
  destruct (pass (c :: remaining) result_) as [placed left_] eqn:Hp.
  destruct (retain_pass_spec _ _ _ _ Hp Ho) as (Ho' & Hperm & Hlen & Hnone). case_match eqn:Hl.
  - apply Nat.eqb_eq in Hl. destruct (Hnone Hl) as (-> & -> & Hall). right. exists result_, (c :: remaining). done.
  - apply Nat.eqb_neq in Hl. setoid_rewrite <- Hperm. apply IH; [|done]. simpl in *. lia.
Qed.

(** If the components can be ordered, the loop does not get stuck. *)
Lemma sort_loop_complete n remaining order :
  (∀ built built' c, (∀ b, b ∈ built → b ∈ built') → ready built c = true → ready built' c = true) →
  (length remaining ≤ n)%nat → order ≡ₚ remaining → ordered order →
  ∃ order', loop n remaining [] = Some (Ok order').
Proof.
  intros Hmono Hn Hperm Ho. destruct (sort_loop_spec n remaining [] Hn) as [(order' & ? & _)|(placed & stuck & _ & Hne & Hps & _ & Hstuck)].
  { intros [|??] ???; discriminate. } { by exists order'. }
  exfalso. assert (∀ k, k ≤ length order → ∀ c, c ∈ take k order → c ∈ stuck → False)%nat as H.
  2: { destruct stuck as [|c stuck]; [done|]. apply (H (length order) ltac:(lia) c); [|set_solver].
       rewrite firstn_all, Hperm. simpl in Hps. rewrite <- Hps. set_solver. }
  induction k as [|k IH]; intros Hk c; [simpl; set_solver|].
  destruct (lookup_lt_is_Some_2 order k) as [d Hd]; [lia|]. rewrite (take_S_r _ _ _ Hd), elem_of_app, list_elem_of_singleton.
  intros [Hc| ->] Hin; [by apply (IH ltac:(lia) c)|].
  assert (ready placed d = true) as Hready; [|by rewrite Hstuck in Hready].
  apply Hmono with (built := take k order).
  - intros b Hb. assert (b ∈ placed ++ stuck) as Hb'.
    { rewrite Hps. simpl. rewrite <- Hperm. by eapply elem_of_take in Hb as (? & Hb%list_elem_of_lookup_2 & _). }
    apply elem_of_app in Hb' as [|Hb']; [done|]. by destruct (IH ltac:(lia) b Hb Hb').
  - apply (Ho _ d (drop (S k) order)). by rewrite take_drop_middle.
Qed.
End Loop.

(** ** What readiness means *)

Lemma select_provider_for_in dep ps p : select_provider_for dep ps = Some p → p ∈ ps.
Proof.
  unfold select_provider_for, select_single_provider. destruct (qualifier dep) as [q|].
  - intros [H _]%find_some. by apply list_elem_of_In.
  - assert (∀ p, List.filter primary ps = [p] → p ∈ ps) as Hprim.
    { intros p' H. assert (In p' (List.filter primary ps)) as [Hin _]%filter_In by (rewrite H; by left). by apply list_elem_of_In. }
    destruct ps as [|a [|b ps']]; [done|intros [= ->]; set_solver|].
    destruct (List.filter primary _) as [|c [|]] eqn:Hf; [done| |done]. intros [= <-]. by apply Hprim.
Qed.

Section Requires.
Context {Construct : Type}.
Abbreviation Component := (ComponentDescriptor Construct).
Context (by_trait : gmap TypeId (list ProviderDescriptor)) (transients : gmap TypeId Component) (sortable : gset TypeId).
Abbreviation needs := (needs by_trait transients sortable).
Abbreviation captured := (captured transients sortable).

(** The components of this scope a required eager edge waits for. *)
Definition dep_requires (dep : DependencyDescriptor) (id : TypeId) : Prop :=
  match by_trait !! type_id (dep_ty dep) with
  | Some ps => ∃ c, c ∈ captured dep ps ∧ needs c id
  | None => cardinality dep = One ∧ id = type_id (dep_ty dep)
  end.
Definition requires (c : Component) (id : TypeId) : Prop :=
  ∃ dep, dep ∈ dependencies c ∧ gates dep = true ∧ dep_requires dep id.
(** An order in which everything is built after what it requires. *)
Definition respects (prebuilt : gset TypeId) (order : list Component) : Prop :=
  ∀ l1 c l2, order = l1 ++ c :: l2 → ∀ id, requires c id → id ∈ prebuilt ∨ id ∈ component_ty_id <$> l1.

Lemma captured_in dep ps c : c ∈ captured dep ps → c ∈ concrete_id <$> ps.
Proof.
  assert (∀ p, p ∈ local_providers sortable ps → p ∈ ps) as Hlocal.
  { intros p. unfold local_providers. rewrite !list_elem_of_In. by intros [? _]%filter_In. }
  assert (∀ p, select_provider_for dep ps = Some p → concrete_id p ∈ concrete_id <$> ps) as Hsel.
  { intros p Hp. by apply list_elem_of_fmap_2, (select_provider_for_in dep). }
  assert (∀ p, select_provider_for dep (local_providers sortable ps) = Some p → concrete_id p ∈ concrete_id <$> ps) as Hloc.
  { intros p Hp. by apply list_elem_of_fmap_2, Hlocal, (select_provider_for_in dep). }
  unfold DiSortSpec.captured, transient_selection. destruct (cardinality dep); [|done|done].
  destruct (select_provider_for dep ps) as [p|]; simpl; [case_bool_decide; [set_solver|]|].
  all: destruct (select_provider_for dep (local_providers _ _)) as [q|]; [set_solver|].
  all: destruct (qualifier dep); [set_solver|]. all: intros (p' & -> & Hp)%list_elem_of_fmap; apply list_elem_of_fmap_2; auto.
Qed.

Section Ready.
Context (pw tw : gmap TypeId (gset TypeId)) (concretes traits : list TypeId).
Context (Hpw : table_exact True needs concretes pw)
        (Htw : table_exact True (trait_needs by_trait transients sortable) traits tw)
        (Hconcretes : ∀ t ps p, by_trait !! t = Some ps → p ∈ ps → concrete_id p ∈ concretes)
        (Htraits : ∀ t ps, by_trait !! t = Some ps → t ∈ traits).

Lemma all_built_spec spec keys table k (built : TypeId → bool) :
  table_exact True spec keys table → k ∈ keys →
  all_built built (table !! k) = true ↔ ∀ id, spec k id → built id = true.
Proof.
  intros [Hsome Hex] [w Hw]%Hsome. rewrite Hw. simpl. rewrite bool_decide_eq_true. unfold set_Forall.
  by setoid_rewrite (Hex I k w Hw).
Qed.

Lemma dep_ready_spec dep (built : TypeId → bool) :
  dep_ready by_trait transients sortable dep pw tw built = true ↔ ∀ id, dep_requires dep id → built id = true.
Proof.
  unfold dep_ready, dep_requires. destruct (by_trait !! type_id (dep_ty dep)) as [ps|] eqn:Hps.
  2: { destruct (cardinality dep); [naive_solver|split; [by intros _ ? []|done]..]. }
  assert (∀ c, c ∈ captured dep ps → all_built built (pw !! c) = true ↔ ∀ id, needs c id → built id = true) as Hone.
  { intros c (p & -> & Hp)%captured_in%list_elem_of_fmap. by eapply all_built_spec, Hconcretes. }
  assert (∀ c, captured dep ps = [c] →
    all_built built (pw !! c) = true ↔ ∀ id, (∃ c', c' ∈ captured dep ps ∧ needs c' id) → built id = true) as Hsingle.
  { intros c Hc. rewrite Hone by (rewrite Hc; set_solver). rewrite Hc. set_solver. }
  assert (captured dep ps = concrete_id <$> ps →
    all_built built (tw !! type_id (dep_ty dep)) = true ↔ ∀ id, (∃ c, c ∈ captured dep ps ∧ needs c id) → built id = true) as Hcoll.
  { intros ->. rewrite (all_built_spec _ _ _ _ _ Htw); [|by eapply Htraits]. unfold trait_needs. by rewrite Hps. }
  unfold DiSortSpec.captured in *. destruct (cardinality dep); [|by apply Hcoll..].
  destruct (transient_selection transients dep ps) as [p|]; [by apply Hsingle|].
  destruct (select_provider_for dep (local_providers sortable ps)) as [p|]; [by apply Hsingle|].
  destruct (qualifier dep) as [q|]; [set_solver|]. rewrite forallb_forall. setoid_rewrite <- list_elem_of_In.
  split.
  - intros H id (c & Hc & Hn). pose proof Hc as (p & -> & Hp)%list_elem_of_fmap. apply (Hone _ Hc); [by apply H|done].
  - intros H p Hp. apply Hone; [by apply list_elem_of_fmap_2|]. intros id Hn. apply H. eexists. split; [|done].
    by apply list_elem_of_fmap_2.
Qed.

Lemma component_ready_spec prebuilt built c :
  component_ready by_trait transients sortable pw tw prebuilt built c = true ↔
  ∀ id, requires c id → id ∈ prebuilt ∨ id ∈ component_ty_id <$> built.
Proof.
  unfold component_ready, requires. rewrite forallb_forall.
  assert (∀ id, is_built prebuilt built id = true ↔ id ∈ prebuilt ∨ id ∈ component_ty_id <$> built) as Hb.
  { intros id. unfold is_built. rewrite orb_true_iff, bool_decide_eq_true, existsb_exists, list_elem_of_fmap.
    setoid_rewrite <- list_elem_of_In. setoid_rewrite Z.eqb_eq. naive_solver. }
  setoid_rewrite filter_In. setoid_rewrite dep_ready_spec. setoid_rewrite Hb. setoid_rewrite <- list_elem_of_In. naive_solver.
Qed.
Lemma ordered_respects prebuilt order :
  ordered by_trait transients sortable pw tw prebuilt order ↔ respects prebuilt order.
Proof. unfold ordered, respects. by setoid_rewrite component_ready_spec. Qed.
Lemma component_ready_mono prebuilt built built' c :
  (∀ b : Component, b ∈ built → b ∈ built') → component_ready by_trait transients sortable pw tw prebuilt built c = true →
  component_ready by_trait transients sortable pw tw prebuilt built' c = true.
Proof.
  rewrite !component_ready_spec. intros Hin H id Hr. destruct (H id Hr) as [?|(b & -> & Hb)%list_elem_of_fmap]; [by left|].
  right. by apply list_elem_of_fmap_2, Hin.
Qed.
End Ready.
End Requires.

(** ** [topological_sort] *)

Section Sort.
Context {Construct : Type}.
Abbreviation Component := (ComponentDescriptor Construct).

(** The iteration of the maps meets every provider and every trait. *)
Definition covers (concretes traits : list TypeId) (providers : list ProviderDescriptor) : Prop :=
  ∀ p, p ∈ providers → concrete_id p ∈ concretes ∧ trait_id p ∈ traits.
Definition keyed (transients : gmap TypeId Component) : Prop :=
  ∀ c d, transients !! c = Some d → component_ty_id d = c.
Definition own_types (components : list Component) : gset TypeId := list_to_set (component_ty_id <$> components).
Definition sort_respects (components : list Component) (prebuilt : gset TypeId) (providers : list ProviderDescriptor)
    (transients : gmap TypeId Component) : list Component → Prop :=
  respects (group_by trait_id providers) transients (own_types components) prebuilt.

Lemma group_by_in (providers : list ProviderDescriptor) t ps p :
  group_by trait_id providers !! t = Some ps → p ∈ ps → p ∈ providers ∧ trait_id p = t.
Proof.
  intros [-> _]%group_by_Some. rewrite !list_elem_of_In. by intros [? ?%Z.eqb_eq]%filter_In.
Qed.

(** The tables, once for every theorem below. *)
Lemma sort_tables (good : Prop) height concretes traits components prebuilt providers (transients : gmap TypeId Component) :
  let by_trait := group_by trait_id providers in
  let sortable := own_types components in
  keyed transients → (good → acyclic by_trait transients sortable height) →
  ∃ pw tw,
    topological_sort concretes traits components prebuilt providers transients =
      sort_loop by_trait transients sortable (length components) pw tw prebuilt components [] ∧
    table_exact good (needs by_trait transients sortable) concretes pw ∧
    table_exact good (trait_needs by_trait transients sortable) traits tw.
Proof.
  intros by_trait sortable Hkey Hacyclic.
  assert (∀ spec, table_exact good spec [] ∅) as Hempty by (split; [set_solver|done]).
  destruct (provider_table_returns by_trait transients sortable Hkey good height Hacyclic concretes [] ∅ (mkExpansion ∅ ∅ ∅))
    as (pw & x1 & Hpw & Hi & Hex); [by split|done|].
  destruct (trait_table_returns by_trait transients sortable Hkey good height Hacyclic traits [] ∅ x1)
    as (tw & x2 & Htw & _ & Hex'); [done|done|].
  exists pw, tw. split; [|done]. unfold topological_sort. fold by_trait. change (list_to_set _) with sortable.
  rewrite Hpw. cbn [mbind option_bind]. by rewrite Htw.
Qed.

(** C16: The construction order is always computed: whatever the graph and the
    iteration order of the maps, expansion of transient recipes and the fixpoint
    loop end, with an order or with the names of what could not be placed. *)
Theorem construction_order_total concretes traits components prebuilt providers (transients : gmap TypeId Component) :
  keyed transients →
  (∃ order, topological_sort concretes traits components prebuilt providers transients = Some (Ok order) ∧
     order ≡ₚ components) ∨
  (∃ stuck, topological_sort concretes traits components prebuilt providers transients =
       Some (Err (DependencyCycle (c_name <$> stuck))) ∧ stuck ≠ [] ∧ stuck ⊆ components).
Proof.
  intros Hkey.
  destruct (sort_tables False (λ _, O) concretes traits components prebuilt providers transients Hkey) as (pw & tw & -> & _);
    [done|].
  destruct (sort_loop_spec (group_by trait_id providers) transients (own_types components) pw tw prebuilt
              (length components) components [] (Nat.le_refl _)) as [(order & -> & Hperm & _)|(placed & stuck & -> & Hne & Hperm & _)].
  - intros [|??] ???; discriminate.
  - left. by exists order.
  - right. exists stuck. split; [done|]. split; [done|]. intros c Hc. simpl in Hperm. rewrite <- Hperm. set_solver.
Qed.

(** C3: In a computed order each component of the scope stands exactly once,
    after everything its required eager dependencies reach in this scope:
    concrete dependencies, the provider a trait edge captures, every provider of
    a collection, and all that the transient recipes on the way construct. *)
Theorem construction_order_sound height concretes traits components prebuilt providers (transients : gmap TypeId Component) order :
  keyed transients → covers concretes traits providers →
  acyclic (group_by trait_id providers) transients (own_types components) height →
  topological_sort concretes traits components prebuilt providers transients = Some (Ok order) →
  order ≡ₚ components ∧ sort_respects components prebuilt providers transients order.
Proof.
  intros Hkey Hcov Hac.
  destruct (sort_tables True height concretes traits components prebuilt providers transients Hkey) as (pw & tw & -> & Hpw & Htw);
    [done|].
  destruct (sort_loop_spec (group_by trait_id providers) transients (own_types components) pw tw prebuilt
              (length components) components [] (Nat.le_refl _)) as [(order' & -> & Hperm & Ho)|(? & ? & -> & _)]; [| |done].
  - intros [|??] ???; discriminate.
  - intros [= <-]. split; [done|]. eapply ordered_respects in Ho; [done|done|done|..].
    + intros t ps p Hps Hp. eapply Hcov, group_by_in; done.
    + intros t ps Hps. pose proof (group_by_nonempty _ _ _ _ Hps). destruct ps as [|p ps]; [done|].
      destruct (group_by_in _ _ _ p Hps) as [? <-]; [set_solver|]. by apply Hcov.
Qed.

(** C4: A graph whose components can be ordered at all is ordered: the sort
    reports a cycle only when no order respects the requirements. *)
Theorem construction_order_complete height concretes traits components prebuilt providers (transients : gmap TypeId Component) order :
  keyed transients → covers concretes traits providers →
  acyclic (group_by trait_id providers) transients (own_types components) height →
  order ≡ₚ components → sort_respects components prebuilt providers transients order →
  ∃ order', topological_sort concretes traits components prebuilt providers transients = Some (Ok order').
Proof.
  intros Hkey Hcov Hac Hperm Ho.
  destruct (sort_tables True height concretes traits components prebuilt providers transients Hkey) as (pw & tw & -> & Hpw & Htw);
    [done|].
  assert (∀ t ps p, group_by trait_id providers !! t = Some ps → p ∈ ps → concrete_id p ∈ concretes) as Hc.
  { intros t ps p Hps Hp. eapply Hcov, group_by_in; done. }
  assert (∀ t ps, group_by trait_id providers !! t = Some ps → t ∈ traits) as Ht.
  { intros t ps Hps. pose proof (group_by_nonempty _ _ _ _ Hps). destruct ps as [|p ps]; [done|].
    destruct (group_by_in _ _ _ p Hps) as [? <-]; [set_solver|]. by apply Hcov. }
  apply (sort_loop_complete _ _ _ _ _ _ _ _ order); [|done|done|].
  - intros built built' c. by eapply component_ready_mono.
  - by eapply ordered_respects.
Qed.

(** A required eager dependency on a concrete type that this scope does not
    build, that is not prebuilt and that is no trait, is never ordered. A
    transient component is such a type: validation accepts the edge, but nothing
    counts as having built the transient, so the sort reports a dependency cycle
    where there is none. *)
Theorem eager_transient_never_orders concretes traits components prebuilt providers (transients : gmap TypeId Component) c dep :
  keyed transients → c ∈ components → dep ∈ dependencies c → gates dep = true → cardinality dep = One →
  type_id (dep_ty dep) ∉ prebuilt →
  (∀ d, d ∈ components → component_ty_id d ≠ type_id (dep_ty dep)) →
  (∀ p, p ∈ providers → trait_id p ≠ type_id (dep_ty dep)) →
  ∃ stuck : list Component, topological_sort concretes traits components prebuilt providers transients =
    Some (Err (DependencyCycle (c_name <$> stuck))) ∧ stuck ≠ [].
Proof.
  intros Hkey Hc Hdep Hgate Hone Hpre Hown Htrait.
  destruct (sort_tables False (λ _, O) concretes traits components prebuilt providers transients Hkey) as (pw & tw & -> & _);
    [done|].
  destruct (sort_loop_spec (group_by trait_id providers) transients (own_types components) pw tw prebuilt
              (length components) components [] (Nat.le_refl _)) as [(order & _ & Hperm & Ho)|(? & stuck & -> & Hne & _)].
  - intros [|??] ???; discriminate.
  - exfalso. simpl in Hperm. assert (c ∈ order) as (l1 & l2 & ->)%list_elem_of_split by by rewrite Hperm.
    specialize (Ho l1 c l2 eq_refl). unfold component_ready in Ho. rewrite forallb_forall in Ho.
    specialize (Ho dep). rewrite filter_In, <- list_elem_of_In in Ho. specialize (Ho (conj Hdep Hgate)).
    unfold dep_ready in Ho. destruct (group_by trait_id providers !! _) as [ps|] eqn:Hps.
    + pose proof (group_by_nonempty _ _ _ _ Hps). destruct ps as [|p ps]; [done|].
      destruct (group_by_in _ _ _ p Hps) as [Hp Hid]; [set_solver|]. by destruct (Htrait p Hp).
    + rewrite Hone in Ho. unfold is_built in Ho. rewrite bool_decide_false in Ho by done. simpl in Ho.
      apply existsb_exists in Ho as (d & Hd%list_elem_of_In & Heq%Z.eqb_eq). apply (Hown d); [|done].
      rewrite <- Hperm. set_solver.
  - by exists stuck.
Qed.
End Sort.

(** ** [ScopePlan::partition] *)

Section Partition.
Context {Construct : Type}.
Abbreviation Component := (ComponentDescriptor Construct).
Abbreviation Groups := (list (string * list Component)).

(** What becomes of a resolved component: kept as a singleton, kept as a
    transient recipe, constructed in a declared scope, or supplied. *)
Definition singleton_component (c : Component) : bool := negb (is_transient (c_scope c)) && (rank (c_scope c) =? rank Singleton).
Definition scoped_component (c : Component) : bool :=
  negb (is_transient (c_scope c)) && negb (rank (c_scope c) =? rank Singleton) &&
  match effective_factory c with Ok (Some _) => true | _ => false end.
Definition in_scope (name : string) (c : Component) : bool := scoped_component c && bool_decide (scope_name (c_scope c) = name).

Lemma push_scope_find name c (m : Groups) name' :
  from_option id [] (assoc_find name' (push_scope name c m)) =
  from_option id [] (assoc_find name' m) ++ (if bool_decide (name = name') then [c] else []).
Proof.
  unfold push_scope. destruct (assoc_find name m) as [l|] eqn:Hm.
  - case_bool_decide as Hn; [subst name'; rewrite assoc_find_update_eq, Hm; done|].
    rewrite assoc_find_update_ne by done. by rewrite app_nil_r.
  - rewrite assoc_find_app. case_bool_decide as Hn.
    + subst name'. rewrite Hm. simpl. by rewrite bool_decide_true.
    + simpl. rewrite bool_decide_false by done. rewrite app_nil_r. by destruct (assoc_find name' m).
Qed.
Lemma split_components_spec resolved s s' :
  split_components resolved s = Ok s' →
  sp_singletons s' = sp_singletons s ++ List.filter singleton_component resolved ∧
  ∀ name, from_option id [] (assoc_find name (sp_by_scope s')) =
          from_option id [] (assoc_find name (sp_by_scope s)) ++ List.filter (in_scope name) resolved.
Proof.
  revert s. induction resolved as [|c resolved IH]; intros s; simpl.
  { intros [= ->]. split; [by rewrite app_nil_r|]. intros. by rewrite app_nil_r. }
  unfold in_scope, singleton_component, scoped_component in *. destruct (is_transient (c_scope c)); simpl; [by intros H%IH|].
  destruct (rank (c_scope c) =? _) eqn:Hr; simpl.
  { intros [-> ?]%IH. simpl. by rewrite <- app_assoc. }
  destruct (effective_factory c) as [[f|]|] eqn:Hf; [|by intros H%IH|done].
  intros [-> Hs]%IH. split; [done|]. intros name. rewrite Hs. simpl. rewrite push_scope_find.
  rewrite <- app_assoc. by case_bool_decide.
Qed.

Lemma sort_ok_permutation concretes traits components prebuilt providers (transients : gmap TypeId Component) order :
  topological_sort concretes traits components prebuilt providers transients = Some (Ok order) → order ≡ₚ components.
Proof.
  unfold topological_sort. destruct (provider_table _ _ _ _ _ _) as [[pw x1]|]; [|done]. cbn [mbind option_bind].
  destruct (trait_table _ _ _ _ _ _) as [[tw x2]|]; [|done]. cbn [mbind option_bind].
  destruct (sort_loop_spec (group_by trait_id providers) transients (list_to_set (component_ty_id <$> components)) pw tw prebuilt
              (length components) components [] (Nat.le_refl _)) as [(order' & -> & Hperm & _)|(? & ? & -> & _)]; [| |done].
  - intros [|??] ???; discriminate.
  - by intros [= <-].
Qed.

Lemma assoc_find_filter name name' (m : Groups) :
  assoc_find name' (List.filter (λ '(n, _), negb (bool_decide (n = name))) m) =
  if bool_decide (name = name') then None else assoc_find name' m.
Proof.
  induction m as [|[n l] m IH]; cbn [List.filter assoc_find]; [by case_bool_decide|].
  destruct (decide (n = name)) as [->|Hn].
  - rewrite (bool_decide_true (name = name)) by done. cbn [negb]. rewrite IH. by case_bool_decide.
  - rewrite (bool_decide_false (n = name)) by done. cbn [negb assoc_find]. rewrite IH.
    case_bool_decide as Hn'; case_bool_decide as Hn''; congruence.
Qed.

Definition group (name : string) (m : Groups) : list Component := from_option id [] (assoc_find name m).
Lemma plan_scopes_spec concretes traits scopes m prebuilt providers (transients : gmap TypeId Component) orders orders' rest :
  plan_scopes concretes traits scopes m prebuilt providers transients orders = Some (Ok (orders', rest)) →
  NoDup (scope_name <$> scopes) →
  (∀ name, name ∉ scope_name <$> scopes → orders' !! name = orders !! name ∧ assoc_find name rest = assoc_find name m) ∧
  (∀ name, name ∈ scope_name <$> scopes →
     assoc_find name rest = None ∧ ∃ order, orders' !! name = Some order ∧ order ≡ₚ group name m).
Proof.
  revert m prebuilt orders. induction scopes as [|scope scopes IH]; intros m prebuilt orders; cbn [plan_scopes].
  { intros [= <- <-] _. set_solver. }
  destruct (topological_sort _ _ _ _ _ _) as [[order|]|] eqn:Hsort; [|done|done].
  intros Hplan [Hnew Hnd]%NoDup_cons. destruct (IH _ _ _ Hplan Hnd) as [Hout Hin].
  apply sort_ok_permutation in Hsort. rewrite fmap_cons. split.
  - intros name [Hne Hn]%not_elem_of_cons. destruct (Hout name Hn) as [-> ->].
    rewrite lookup_insert_ne, assoc_find_filter, bool_decide_false by done. done.
  - intros name [->|Hn]%elem_of_cons.
    + destruct (Hout _ Hnew) as [-> ->]. rewrite lookup_insert_eq, assoc_find_filter, bool_decide_true by done.
      split; [done|]. by exists order.
    + destruct (Hin name Hn) as (Hrest & order' & Ho & Hp). split; [done|]. exists order'. split; [done|].
      unfold group in *. rewrite Hp, assoc_find_filter, bool_decide_false; [done|]. by intros <-.
Qed.

(** A partition that succeeds loses no component and builds none twice: the
    singletons are kept in order, every declared scope has an order of exactly
    the constructable components declared in it, and no constructable component
    belongs to an undeclared scope. *)
Theorem partition_assigns concretes traits resolved providers scopes (plan : ScopePlan) :
  NoDup (scope_name <$> scopes) →
  partition concretes traits resolved providers scopes = Some (Ok plan) →
  singletons plan = List.filter (λ c : Component, singleton_component c) resolved ∧
  (∀ scope, scope ∈ scopes → ∃ order, orders plan !! scope_name scope = Some order ∧
     order ≡ₚ List.filter (in_scope (scope_name scope)) resolved) ∧
  (∀ c, c ∈ resolved → scoped_component c = true → scope_name (c_scope c) ∈ scope_name <$> scopes).
Proof.
  intros Hnd. unfold partition. destruct (split_components resolved _) as [s|] eqn:Hsplit; [|done].
  destruct (split_components_spec _ _ _ Hsplit) as [Hsing Hgroups]. simpl in Hsing, Hgroups.
  destruct (plan_scopes _ _ _ _ _ _ _ _) as [[[orders' rest]|]|] eqn:Hplan; [|done|done].
  destruct (plan_scopes_spec _ _ _ _ _ _ _ _ _ _ Hplan Hnd) as [Hout Hin].
  destruct rest as [|[n [|c rest]] rest']; [|done..]. intros [= <-]. simpl. split; [done|]. split.
  - intros scope Hscope. destruct (Hin (scope_name scope)) as (_ & order & Ho & Hp); [by apply list_elem_of_fmap_2|].
    exists order. split; [done|]. unfold group in Hp. by rewrite Hp, Hgroups.
  - intros c Hc Hs. destruct (decide (scope_name (c_scope c) ∈ scope_name <$> scopes)) as [?|Hn]; [done|]. exfalso.
    destruct (Hout _ Hn) as [_ Hfind]. simpl in Hfind. specialize (Hgroups (scope_name (c_scope c))).
    rewrite <- Hfind in Hgroups. simpl in Hgroups.
    assert (In c (List.filter (in_scope (scope_name (c_scope c))) resolved)) as Hf; [|by rewrite <- Hgroups in Hf].
    apply filter_In. split; [by apply list_elem_of_In|]. unfold in_scope. by rewrite Hs, bool_decide_true.
Qed.
End Partition.

(** ** A graph with a transient recipe on the way *)

Definition trait_dep (name : string) (id : Z) (card : Cardinality) : DependencyDescriptor :=
  mkDep name (mkType name name id) card false false None false Eager.
Definition w_audit : ComponentDescriptor unit := built "Audit" 3 Singleton [trait_dep "dyn Sink" 200 Collection].
Definition w_repo : ComponentDescriptor unit := built "Repo" 1 Singleton [trait_dep "dyn Store" 100 One].
Definition w_db : ComponentDescriptor unit := built "Db" 2 Singleton [].
Definition w_sink : ComponentDescriptor unit := built "Sink" 5 Transient [eager_dep "Repo" 1].
Definition w_providers : list ProviderDescriptor :=
  [mkProvider (mkType "dyn Store" "dyn Store" 100) (mkType "Db" "Db" 2) "db" false 0 [];
   mkProvider (mkType "dyn Sink" "dyn Sink" 200) (mkType "Sink" "Sink" 5) "sink" false 0 []].
Definition w_components : list (ComponentDescriptor unit) := [w_audit; w_repo; w_db].
Definition w_transients : gmap TypeId (ComponentDescriptor unit) := {[5 := w_sink]}.
Definition w_height (id : TypeId) : nat := if id =? 5 then 1 else if id <? 100 then 0 else 2.

Lemma w_keyed : keyed w_transients.
Proof. intros c d. unfold w_transients. by intros [<- <-]%lookup_singleton_Some. Qed.
Lemma w_covers : covers [2; 5] [100; 200] w_providers.
Proof. intros p. unfold w_providers. rewrite !elem_of_cons. intros [-> |[-> |Hp]]; [set_solver..|by apply not_elem_of_nil in Hp]. Qed.
Lemma w_acyclic : acyclic (group_by trait_id w_providers) w_transients (own_types w_components) w_height.
Proof.
  assert (∀ c d, w_transients !! c = Some d → c = 5 ∧ d = w_sink) as Ht.
  { intros c d. unfold w_transients. by intros [<- <-]%lookup_singleton_Some. }
  split.
  - intros t ps p Hps Hp. destruct (group_by_in _ _ _ _ Hps Hp) as [Hin <-]. unfold w_providers in Hin.
    rewrite !elem_of_cons in Hin. destruct Hin as [-> |[-> |Hin%not_elem_of_nil]]; [vm_compute; lia..|done].
  - intros c d dep _ [-> ->]%Ht Hdep. apply list_elem_of_singleton in Hdep as ->. done.
  - intros c d dep p _ [-> ->]%Ht Hdep _. apply list_elem_of_singleton in Hdep as ->.
    assert (edge_targets (group_by trait_id w_providers) w_transients (own_types w_components) (eager_dep "Repo" 1) = [1]) as ->.
    { vm_compute. reflexivity. }
    intros ->%list_elem_of_singleton. vm_compute. lia.
Qed.

Lemma construction_order_total_witness :
  (∃ order, topological_sort [2; 5] [100; 200] w_components ∅ w_providers w_transients = Some (Ok order) ∧ order ≡ₚ w_components) ∨
  (∃ stuck, topological_sort [2; 5] [100; 200] w_components ∅ w_providers w_transients =
     Some (Err (DependencyCycle (c_name <$> stuck))) ∧ stuck ≠ [] ∧ stuck ⊆ w_components).
Proof. apply construction_order_total. exact w_keyed. Defined.
Lemma construction_order_sound_witness :
  topological_sort [2; 5] [100; 200] w_components ∅ w_providers w_transients = Some (Ok [w_db; w_repo; w_audit]) ∧
  sort_respects w_components ∅ w_providers w_transients [w_db; w_repo; w_audit].
Proof.
  assert (topological_sort [2; 5] [100; 200] w_components ∅ w_providers w_transients = Some (Ok [w_db; w_repo; w_audit])) as H.
  { vm_compute. reflexivity. }
  split; [exact H|].
  exact (proj2 (construction_order_sound w_height [2; 5] [100; 200] w_components ∅ w_providers w_transients _
                  w_keyed w_covers w_acyclic H)).
Defined.
Lemma w_respects : sort_respects w_components ∅ w_providers w_transients [w_db; w_repo; w_audit].
Proof.
  assert (∀ id, needs (group_by trait_id w_providers) w_transients (own_types w_components) 5 id → id = 1) as Hsink.
  { intros id (dep & Hdep & _ & p & Hp & Hn)%(needs_transient _ _ _ 5 w_sink);
      [|by apply (bool_decide_unpack _); vm_compute|reflexivity].
    apply list_elem_of_singleton in Hdep as ->. vm_compute in Hp. apply list_elem_of_singleton in Hp as ->.
    apply needs_sortable in Hn; [done|]. apply (bool_decide_unpack _). by vm_compute. }
  intros l1 c l2 Horder id (dep & Hdep & _ & Hreq). right. unfold dep_requires in Hreq.
  destruct l1 as [|c1 [|c2 [|c3 [|]]]]; simplify_eq/=.
  - by apply not_elem_of_nil in Hdep.
  - apply list_elem_of_singleton in Hdep as ->. change (match _ with Some ps => _ | None => _ end) with
      (∃ c, c ∈ [2] ∧ needs (group_by trait_id w_providers) w_transients (own_types w_components) c id) in Hreq.
    destruct Hreq as (p & ->%list_elem_of_singleton & Hn). apply needs_sortable in Hn as ->; [|by apply (bool_decide_unpack _); vm_compute].
    apply (bool_decide_unpack _). by vm_compute.
  - apply list_elem_of_singleton in Hdep as ->. change (match _ with Some ps => _ | None => _ end) with
      (∃ c, c ∈ [5] ∧ needs (group_by trait_id w_providers) w_transients (own_types w_components) c id) in Hreq.
    destruct Hreq as (p & ->%list_elem_of_singleton & ->%Hsink). apply (bool_decide_unpack _). by vm_compute.
Qed.
Lemma construction_order_complete_witness :
  [w_db; w_repo; w_audit] ≡ₚ w_components ∧
  ∃ order, topological_sort [2; 5] [100; 200] w_components ∅ w_providers w_transients = Some (Ok order).
Proof.
  assert ([w_db; w_repo; w_audit] ≡ₚ w_components) as Hperm.
  { unfold w_components. by rewrite (Permutation_rev [w_db; w_repo; w_audit]). }
  split; [exact Hperm|].
  exact (construction_order_complete w_height [2; 5] [100; 200] w_components ∅ w_providers w_transients _
           w_keyed w_covers w_acyclic Hperm w_respects).
Defined.

(** The graph [sample_registry] passes validation. *)
Lemma eager_transient_never_orders_witness :
  validate [3] [100] sample_registry = Some (Ok tt) ∧
  ∃ stuck : list (ComponentDescriptor unit),
    topological_sort [3] [100] [svc; db_manual] {[3]} [store_provider] {[2 := tmp]} =
      Some (Err (DependencyCycle (c_name <$> stuck))) ∧ stuck ≠ [].
Proof.
  split; [vm_compute; reflexivity|].
  apply (eager_transient_never_orders [3] [100] [svc; db_manual] {[3]} [store_provider] {[2 := tmp]} svc (eager_dep "Tmp" 2)).
  - by intros c d [<- <-]%lookup_singleton_Some.
  - left.
  - left.
  - reflexivity.
  - reflexivity.
  - apply (bool_decide_unpack _). vm_compute. exact I.
  - intros d. rewrite !elem_of_cons. intros [-> |[-> |Hd%not_elem_of_nil]]; done.
  - intros p ->%list_elem_of_singleton. done.
Defined.

Definition w_request : Scope := mkScope 10 "Request" false.
Definition w_handler : ComponentDescriptor unit := built "Handler" 7 w_request [eager_dep "Repo" 1].
Lemma partition_assigns_witness :
  let resolved := w_handler :: w_sink :: w_components in
  ∃ plan, partition [2; 5] [100; 200] resolved w_providers [w_request] = Some (Ok plan) ∧
    singletons plan = w_components ∧ ∃ order, orders plan !! "Request" = Some order ∧ order ≡ₚ [w_handler].
Proof.
  intros resolved. eexists. split; [vm_compute; reflexivity|]. split; [reflexivity|].
  refine (proj1 (proj2 (partition_assigns [2; 5] [100; 200] resolved w_providers [w_request] _ _ _)) w_request _).
  - apply (bool_decide_unpack _). vm_compute. exact I.
  - vm_compute. reflexivity.
  - left.
Defined.
