(* ===== verification/DiContainer.v ===== *)
(** * DiContainer: scopes, resolution and construction

    Models [crates/di/src/container.rs] (all but the sort, which is [DiSort])
    and the store and construction context of
    [crates/di/src/descriptors/component.rs].

    - A chain of scopes is the list of its containers, nearest first; the parent
      of a container is the tail.
    - The code of a factory is application code. A factory is a [Program]: it
      asks its context to resolve things, continues with the answers in any way
      it likes, and ends with a component or an error.
    - A transient is constructed on every resolution, by running its factory in
      a context that shares the store under construction. Recipes may refer to
      recipes, so the construction runs on fuel: [None] is a construction that
      does not end, or a panic.
    - An [Injectable] handle is its key and the downcast of a stored value. *)
From S2P Require Import Prelude CoreTypes DiTypes ProviderOrder DiRegistry DiSort.

(** Computations that may fail, or may not return. *)
Definition run A : Type := option (result A DiError).
Definition run_bind {A B} (m : run A) (f : A → run B) : run B :=
  match m with None => None | Some (Err e) => Some (Err e) | Some (Ok a) => f a end.
Definition done {A} (a : A) : run A := Some (Ok a).
Definition raise {A} (e : DiError) : run A := Some (Err e).
Declare Scope run_scope.
Delimit Scope run_scope with run.
Notation "x ←? m ; k" := (run_bind m (λ x, k)) (at level 20, m at level 100, k at level 200, right associativity) : run_scope.
#[local] Open Scope run_scope.

Section Container.
Context {V Hd Rv : Type}.

Record BoxedComponent := mkBoxed { b_ty : TypeDescriptor; b_value : V }.
Definition boxed_id (b : BoxedComponent) : TypeId := type_id (b_ty b).
Record Injectable := mkInjectable { target : TypeId; from_stored : V → option Hd }.
Definition from_boxed (H : Injectable) (b : BoxedComponent) : option Hd := from_stored H (b_value b).

(** ** [ScopeStore] *)

Record ProviderInstance := mkInstance {
  ordinal : nat; pi_qualifier : string; pi_primary : bool; pi_value : BoxedComponent }.
Record ScopeStore := mkStore {
  store_components : gmap TypeId BoxedComponent;
  store_providers : gmap TypeId (list ProviderInstance) }.
Definition empty_store : ScopeStore := mkStore ∅ ∅.
Definition entries (t : TypeId) (s : ScopeStore) : list ProviderInstance := from_option id [] (store_providers s !! t).

Definition pick_single (es : list ProviderInstance) : option ProviderInstance :=
  match es with
  | [e] => Some e
  | _ => match List.filter pi_primary es with [e] => Some e | _ => None end
  end.
Definition resolve_local (H : Injectable) (s : ScopeStore) : option Hd :=
  match store_components s !! target H with
  | Some component => from_boxed H component
  | None => es ← store_providers s !! target H; chosen ← pick_single es; from_boxed H (pi_value chosen)
  end.
Definition resolve_qualified_local (H : Injectable) (q : string) (s : ScopeStore) : option Hd :=
  es ← store_providers s !! target H;
  entry ← List.find (λ e, bool_decide (pi_qualifier e = q)) es;
  from_boxed H (pi_value entry).
Definition collect_all_local (H : Injectable) (s : ScopeStore) : list (nat * Hd) :=
  omap (λ e, h ← from_boxed H (pi_value e); Some (ordinal e, h)) (entries (target H) s).
Definition extend {A} (m : gmap string A) (l : list (string * A)) : gmap string A := foldl (λ m e, <[e.1 := e.2]> m) m l.
Definition collect_keyed_local (H : Injectable) (s : ScopeStore) : list (string * Hd) :=
  omap (λ e, h ← from_boxed H (pi_value e); Some (pi_qualifier e, h)) (entries (target H) s).
Definition insert_component (b : BoxedComponent) (s : ScopeStore) : ScopeStore :=
  mkStore (<[boxed_id b := b]> (store_components s)) (store_providers s).

(** [provider.erase], a function the macros generate. *)
Context (erase : ProviderDescriptor → BoxedComponent → BoxedComponent).
Definition register_provider (p : ProviderDescriptor) (ord : nat) (s : ScopeStore) : ScopeStore :=
  match store_components s !! concrete_id p with
  | None => s
  | Some concrete =>
      mkStore (store_components s)
        (<[trait_id p := entries (trait_id p) s ++ [mkInstance ord (p_qualifier p) (primary p) (erase p concrete)]]>
           (store_providers s))
  end.
Definition store_contains (id : TypeId) (s : ScopeStore) : bool := bool_decide (is_Some (store_components s !! id)).

(** ** Factories *)

Inductive Program :=
| Return (r : result BoxedComponent DiError)
| Resolve (H : Injectable) (k : result (option Hd) DiError → Program)
| ResolveQualified (H : Injectable) (q : string) (k : result (option Hd) DiError → Program)
| ResolveAll (H : Injectable) (k : result (list Hd) DiError → Program)
| ResolveKeyed (H : Injectable) (k : result (gmap string Hd) DiError → Program)
| GetResolver (kind : TypeId) (k : option (Erased Rv) → Program).
Abbreviation Component := (ComponentDescriptor Program).

(** ** [ScopeRegistry] *)

Record ScopeRegistry := mkScopeRegistry {
  transient : gmap TypeId Component;
  factory_backed : gmap TypeId Component;
  sr_providers : list ProviderDescriptor;
  providers_by_concrete : gmap TypeId (list ProviderDescriptor);
  providers_by_trait : gmap TypeId (list ProviderDescriptor);
  provider_order : gmap TypeId (gmap TypeId nat);
  transient_providers_by_trait : gmap TypeId (list ProviderDescriptor);
}.
Definition next_ordinal (ordinals : gmap TypeId nat) : nat := map_fold (λ _ n m, Nat.max (S n) m) 0%nat ordinals.
Definition complete_ordinal (order : gmap TypeId (gmap TypeId nat)) (p : ProviderDescriptor) : gmap TypeId (gmap TypeId nat) :=
  let ordinals := from_option id ∅ (order !! trait_id p) in
  <[trait_id p :=
      match ordinals !! concrete_id p with
      | Some _ => ordinals
      | None => <[concrete_id p := next_ordinal ordinals]> ordinals
      end]> order.
Definition ScopeRegistry_new (transient_ factory_backed_ : gmap TypeId Component) (providers : list ProviderDescriptor)
    (order : gmap TypeId (gmap TypeId nat)) : ScopeRegistry :=
  mkScopeRegistry transient_ factory_backed_ providers (group_by concrete_id providers) (group_by trait_id providers)
    (foldl complete_ordinal order providers)
    (group_by trait_id (List.filter (λ p, bool_decide (is_Some (transient_ !! concrete_id p))) providers)).

Definition providers_for (r : ScopeRegistry) (concrete : TypeId) := from_option id [] (providers_by_concrete r !! concrete).
Definition providers_for_trait (r : ScopeRegistry) (t : TypeId) := from_option id [] (providers_by_trait r !! t).
Definition single_provider (r : ScopeRegistry) (t : TypeId) := select_single_provider (providers_for_trait r t).
Definition transient_providers_for (r : ScopeRegistry) (t : TypeId) :=
  from_option id [] (transient_providers_by_trait r !! t).
Definition qualified_provider (r : ScopeRegistry) (t : TypeId) (q : string) : option ProviderDescriptor :=
  List.find (λ p, bool_decide (p_qualifier p = q)) (providers_for_trait r t).
(** [None] is the panic of [expect]. *)
Definition provider_ordinal (r : ScopeRegistry) (p : ProviderDescriptor) : option nat :=
  ordinals ← provider_order r !! trait_id p; ordinals !! concrete_id p.

(** ** [ScopeContainer] *)

Record ScopeContainer := mkContainer {
  ct_scope : Scope; ct_store : ScopeStore; ct_resolvers : ResolverSet Rv }.
Abbreviation Chain := (list ScopeContainer).

Fixpoint can_access (chain : Chain) (scope : Scope) : bool :=
  match chain with
  | [] => false
  | c :: parents =>
      if is_transient scope || bool_decide (scope_name (ct_scope c) = scope_name scope) then true
      else can_access parents scope
  end.
Fixpoint resolve_built (H : Injectable) (chain : Chain) : option Hd :=
  match chain with
  | [] => None
  | c :: parents => match resolve_local H (ct_store c) with Some h => Some h | None => resolve_built H parents end
  end.
Fixpoint resolve_qualified_built (H : Injectable) (q : string) (chain : Chain) : option Hd :=
  match chain with
  | [] => None
  | c :: parents =>
      match resolve_qualified_local H q (ct_store c) with Some h => Some h | None => resolve_qualified_built H q parents end
  end.
Fixpoint collect_all_built (H : Injectable) (chain : Chain) : list (nat * Hd) :=
  match chain with
  | [] => []
  | c :: parents => collect_all_local H (ct_store c) ++ collect_all_built H parents
  end.
Fixpoint collect_keyed_built (H : Injectable) (chain : Chain) : gmap string Hd :=
  match chain with
  | [] => ∅
  | c :: parents => extend (collect_keyed_built H parents) (collect_keyed_local H (ct_store c))
  end.
(** [parent.map(|p| p.resolvers().clone()).unwrap_or_default()] *)
Definition chain_resolvers (chain : Chain) : ResolverSet Rv := from_option ct_resolvers ∅ (head chain).

(** ** Resolution in a construction context *)

(** [ComponentConstructionContext], without the capture slot. *)
Record Cx := mkCx {
  cx_scope : Scope; cx_store : ScopeStore; cx_parent : Chain; cx_resolvers : ResolverSet Rv }.

Section Resolve.
Context (registry : ScopeRegistry).
Section WithTransients.
(** [construct_transient_boxed registry parent slot store descriptor] *)
Variable construct_boxed : Chain → ScopeStore → Component → run BoxedComponent.

Definition construct_transient (H : Injectable) (parent : Chain) (store : ScopeStore) : run (option Hd) :=
  match transient registry !! target H with
  | None => done None
  | Some descriptor => boxed ←? construct_boxed parent store descriptor; done (from_boxed H boxed)
  end.
Definition construct_transient_provider (H : Injectable) (parent : Chain) (store : ScopeStore) (p : ProviderDescriptor) :
    run (option Hd) :=
  match transient registry !! concrete_id p with
  | None => done None
  | Some descriptor => concrete ←? construct_boxed parent store descriptor; done (from_boxed H (erase p concrete))
  end.
Definition construct_selected_transient_provider (H : Injectable) (parent : Chain) (store : ScopeStore) (q : option string) :
    run (option Hd) :=
  match (match q with Some q => qualified_provider registry (target H) q | None => single_provider registry (target H) end) with
  | None => done None
  | Some p =>
      match transient registry !! concrete_id p with
      | None => done None
      | Some _ => construct_transient_provider H parent store p
      end
  end.

(** [ComponentConstructionContext::resolve] *)
Definition resolve (cx : Cx) (H : Injectable) : run (option Hd) :=
  selected ←? construct_selected_transient_provider H (cx_parent cx) (cx_store cx) None;
  match selected with
  | Some h => done (Some h)
  | None =>
      match resolve_local H (cx_store cx) with
      | Some h => done (Some h)
      | None =>
          match resolve_built H (cx_parent cx) with
          | Some h => done (Some h)
          | None => construct_transient H (cx_parent cx) (cx_store cx)
          end
      end
  end.
(** [ComponentConstructionContext::resolve_qualified] *)
Definition resolve_qualified (cx : Cx) (H : Injectable) (q : string) : run (option Hd) :=
  selected ←? construct_selected_transient_provider H (cx_parent cx) (cx_store cx) (Some q);
  match selected with
  | Some h => done (Some h)
  | None =>
      match resolve_qualified_local H q (cx_store cx) with
      | Some h => done (Some h)
      | None => done (resolve_qualified_built H q (cx_parent cx))
      end
  end.
(** The loops over the transient providers of a collection. *)
Fixpoint add_transients (cx : Cx) (H : Injectable) (ps : list ProviderDescriptor) (all : list (nat * Hd)) : run (list (nat * Hd)) :=
  match ps with
  | [] => done all
  | p :: ps' =>
      value ←? construct_transient_provider H (cx_parent cx) (cx_store cx) p;
      match value with
      | None => add_transients cx H ps' all
      | Some h =>
          match provider_ordinal registry p with
          | None => None
          | Some ord => add_transients cx H ps' (all ++ [(ord, h)])
          end
      end
  end.
Fixpoint key_transients (cx : Cx) (H : Injectable) (ps : list ProviderDescriptor) (keyed : gmap string Hd) : run (gmap string Hd) :=
  match ps with
  | [] => done keyed
  | p :: ps' =>
      value ←? construct_transient_provider H (cx_parent cx) (cx_store cx) p;
      key_transients cx H ps' (match value with Some h => <[p_qualifier p := h]> keyed | None => keyed end)
  end.
Definition ordinal_leb (a b : nat * Hd) : bool := (a.1 <=? b.1)%nat.
(** [ComponentConstructionContext::resolve_all] *)
Definition resolve_all (cx : Cx) (H : Injectable) : run (list Hd) :=
  all ←? add_transients cx H (transient_providers_for registry (target H))
           (collect_all_local H (cx_store cx) ++ collect_all_built H (cx_parent cx));
  done (snd <$> sort_by ordinal_leb all).
(** [ComponentConstructionContext::resolve_keyed] *)
Definition resolve_keyed (cx : Cx) (H : Injectable) : run (gmap string Hd) :=
  key_transients cx H (transient_providers_for registry (target H))
    (extend (collect_keyed_built H (cx_parent cx)) (collect_keyed_local H (cx_store cx))).

(** A factory call: [Err] is passed to the program, which may use [?] on it. *)
Definition answer {A} (m : run A) (k : result A DiError → run BoxedComponent) : run BoxedComponent :=
  match m with None => None | Some r => k r end.
Fixpoint run_factory (cx : Cx) (p : Program) : run BoxedComponent :=
  match p with
  | Return r => Some r
  | Resolve H k => answer (resolve cx H) (λ r, run_factory cx (k r))
  | ResolveQualified H q k => answer (resolve_qualified cx H q) (λ r, run_factory cx (k r))
  | ResolveAll H k => answer (resolve_all cx H) (λ r, run_factory cx (k r))
  | ResolveKeyed H k => answer (resolve_keyed cx H) (λ r, run_factory cx (k r))
  | GetResolver kind k => run_factory cx (k (resolver (cx_resolvers cx) kind))
  end.
End WithTransients.

(** [construct_transient_boxed] *)
Fixpoint construct_transient_boxed (fuel : nat) (parent : Chain) (store : ScopeStore) (descriptor : Component) : run BoxedComponent :=
  match fuel with
  | O => None
  | S fuel' =>
      match effective_factory descriptor with
      | Err e => raise e
      | Ok None => raise (MissingComponent (c_name descriptor))
      | Ok (Some factory) =>
          run_factory (construct_transient_boxed fuel')
            (mkCx Transient store parent (chain_resolvers parent)) (construct factory)
      end
  end.
(** [construct_fresh_boxed] *)
Definition construct_fresh_boxed (fuel : nat) (parent : Chain) (descriptor : Component) : run BoxedComponent :=
  match effective_factory descriptor with
  | Err e => raise e
  | Ok None => raise (UnsupportedFreshFactory (c_name descriptor))
  | Ok (Some factory) =>
      run_factory (construct_transient_boxed fuel)
        (mkCx (c_scope descriptor) empty_store parent (chain_resolvers parent)) (construct factory)
  end.

(** ** Building a scope *)

Fixpoint register_each (ps : list ProviderDescriptor) (store : ScopeStore) : run ScopeStore :=
  match ps with
  | [] => done store
  | p :: ps' =>
      match provider_ordinal registry p with
      | None => None
      | Some ord => register_each ps' (register_provider p ord store)
      end
  end.
Definition register_providers_for (concrete : TypeId) (store : ScopeStore) : run ScopeStore :=
  register_each (providers_for registry concrete) store.

Fixpoint seed_store (seeds : list BoxedComponent) (store : ScopeStore) : run ScopeStore :=
  match seeds with
  | [] => done store
  | seed :: seeds' =>
      store' ←? register_providers_for (boxed_id seed) (insert_component seed store);
      seed_store seeds' store'
  end.

Section Build.
Context (fuel : nat) (scope : Scope) (parent : Chain) (externals : ResolverSet Rv).
Definition build_component (descriptor : Component) (store : ScopeStore) : run ScopeStore :=
  match effective_factory descriptor with
  | Err e => raise e
  | Ok (Some factory) =>
      component ←? run_factory (construct_transient_boxed fuel) (mkCx scope store parent externals) (construct factory);
      done (insert_component component store)
  | Ok None =>
      if store_contains (component_ty_id descriptor) store then done store
      else raise (MissingComponent (c_name descriptor))
  end.
Fixpoint build_order (order : list Component) (store : ScopeStore) : run ScopeStore :=
  match order with
  | [] => done store
  | descriptor :: order' =>
      store1 ←? build_component descriptor store;
      store2 ←? register_providers_for (component_ty_id descriptor) store1;
      build_order order' store2
  end.
(** [ScopeContainer::build]. The self-reference a frozen container adds to its
    resolvers is [self_source]. *)
Definition build_scope (ComponentSource : TypeId) (self_source : Rv) (order : list Component) (seeds : list BoxedComponent) :
    run ScopeContainer :=
  store ←? seed_store seeds empty_store;
  store' ←? build_order order store;
  done (mkContainer scope store' (resolver_set_insert ComponentSource self_source externals)).
End Build.

Definition build_root (fuel : nat) (concretes traits : list TypeId) (ComponentSource : TypeId) (self_source : Rv)
    (components : list Component) (instances : list BoxedComponent) (externals : ResolverSet Rv) : run ScopeContainer :=
  match topological_sort concretes traits components (list_to_set (boxed_id <$> instances)) (sr_providers registry)
          (transient registry) with
  | None => None
  | Some (Err e) => raise e
  | Some (Ok order) => build_scope fuel Singleton [] externals ComponentSource self_source order instances
  end.
Definition open_child (fuel : nat) (scope : Scope) (parent : Chain) (ComponentSource : TypeId) (self_source : Rv)
    (order : list Component) (seeds : list BoxedComponent) : run Chain :=
  match order, seeds with
  | [], [] => done parent
  | _, _ =>
      child ←? build_scope fuel scope parent (chain_resolvers parent) ComponentSource self_source order seeds;
      done (child :: parent)
  end.

(** ** Resolution from a finished scope *)

(** [ScopeContainer::resolve] *)
Definition container_resolve (fuel : nat) (self : Chain) (H : Injectable) : run (option Hd) :=
  selected ←? construct_selected_transient_provider (construct_transient_boxed fuel) H self empty_store None;
  match selected with
  | Some h => done (Some h)
  | None =>
      match resolve_built H self with
      | Some h => done (Some h)
      | None => construct_transient (construct_transient_boxed fuel) H self empty_store
      end
  end.
(** [ScopeContainer::resolve_qualified] *)
Definition container_resolve_qualified (fuel : nat) (self : Chain) (H : Injectable) (q : string) : run (option Hd) :=
  selected ←? construct_selected_transient_provider (construct_transient_boxed fuel) H self empty_store (Some q);
  match selected with Some h => done (Some h) | None => done (resolve_qualified_built H q self) end.
(** The context of [ScopeContainer::extract]. *)
Definition extract_cx (self : Chain) : Cx := mkCx Transient empty_store self (chain_resolvers self).
End Resolve.

(** ** Factories of functions ([construct.rs]) *)

(** The injectable parameter shapes that resolve while a factory runs; [PSingle]
    is [Arc<T>], [Dep<T>] and the by-value handles. *)
Inductive Param :=
| PSingle (ty : TypeDescriptor) (H : Injectable)
| POption (ty : TypeDescriptor) (H : Injectable)
| PVec (ty : TypeDescriptor) (H : Injectable)
| PMap (ty : TypeDescriptor) (H : Injectable).
Inductive Arg := ASingle (h : Hd) | AOption (h : option Hd) | AVec (hs : list Hd) | AMap (hs : gmap string Hd).

Definition dependency_of (ty : TypeDescriptor) (card : Cardinality) (optional_ config_ : bool) : DependencyDescriptor :=
  mkDep (ty_name ty) ty card optional_ false None config_ Eager.
(** [FromContainer::dependency] *)
Definition param_dependency (p : Param) : DependencyDescriptor :=
  match p with
  | PSingle ty _ => dependency_of ty One false false
  | POption ty _ => dependency_of ty One true false
  | PVec ty _ => dependency_of ty Collection false false
  | PMap ty _ => dependency_of ty Keyed false false
  end.
(** [FromContainer::from_container], followed by [?]. *)
Definition from_container (p : Param) (k : Arg → Program) : Program :=
  let question {A} (f : A → Program) (r : result A DiError) := match r with Ok a => f a | Err e => Return (Err e) end in
  match p with
  | PSingle ty H =>
      Resolve H (question (λ h, match h with Some h => k (ASingle h) | None => Return (Err (MissingComponent (ty_name ty))) end))
  | POption ty H => Resolve H (question (λ h, k (AOption h)))
  | PVec ty H => ResolveAll H (question (λ hs, k (AVec hs)))
  | PMap ty H => ResolveKeyed H (question (λ hs, k (AMap hs)))
  end.
(** [Factory::construct]: the user's function gets every argument, in order. *)
Fixpoint factory_program (params : list Param) (user : list Arg → result BoxedComponent DiError) (args : list Arg) : Program :=
  match params with
  | [] => Return (user args)
  | p :: params' => from_container p (λ a, factory_program params' user (args ++ [a]))
  end.
Definition dispatch_factory (params : list Param) (user : list Arg → result BoxedComponent DiError) : Program :=
  factory_program params user [].
Definition params_dependencies (params : list Param) : list DependencyDescriptor := param_dependency <$> params.
End Container.

Lemma run_bind_done {A B} (m : run A) (f : A → run B) b : run_bind m f = done b → ∃ a, m = done a ∧ f a = done b.
Proof. destruct m as [[a|e]|]; [|done..]. intros E. by exists a. Qed.
