(* ===== verification/DiScope.v ===== *)
(** * DiScope: what the scopes of the container guarantee

    Theorems about [DiContainer]: ordinals, collection order, which scope wins,
    what a built scope holds, and how a child scope relates to its parent. *)
From S2P Require Import Prelude CoreTypes DiTypes ProviderOrder DiRegistry DiSort DiContainer.

(** ** Ordinals *)

Section Ordinals.
Abbreviation Plan := (gmap TypeId (gmap TypeId nat)).
Definition planned (order : Plan) (t c : TypeId) : option nat := ordinals ← order !! t; ordinals !! c.

Lemma next_ordinal_above (m : gmap TypeId nat) c n : m !! c = Some n → (n < next_ordinal m)%nat.
Proof.
  unfold next_ordinal. revert c n. induction m as [|i x m Hi IH] using map_ind; intros c n.
  - by rewrite lookup_empty.
  - rewrite map_fold_insert_L; [|intros; lia|done]. rewrite lookup_insert_Some. intros [[-> ->]|[_ Hm]]; [lia|].
    specialize (IH c n Hm). lia.
Qed.
Lemma planned_complete order p t c :
  planned (complete_ordinal order p) t c =
  if decide (t = trait_id p ∧ c = concrete_id p) then
    Some (match planned order t c with Some n => n | None => next_ordinal (from_option id ∅ (order !! t)) end)
  else planned order t c.
Proof.
  unfold planned, complete_ordinal. destruct (decide (t = trait_id p)) as [->|Ht].
  2: { rewrite lookup_insert_ne by done. by rewrite decide_False by naive_solver. }
  rewrite lookup_insert_eq. destruct (order !! trait_id p) as [m|]; simpl.
  - destruct (m !! concrete_id p) as [n|] eqn:Hm; (destruct (decide (c = concrete_id p)) as [->|Hc]; [rewrite decide_True by done|rewrite decide_False by naive_solver]); simpl; rewrite ?Hm, ?lookup_insert_eq, ?lookup_insert_ne by done; done.
  - rewrite lookup_empty. destruct (decide (c = concrete_id p)) as [->|Hc]; [rewrite decide_True by done|rewrite decide_False by naive_solver].
    + by rewrite lookup_insert_eq.
    + by rewrite lookup_insert_ne.
Qed.
Lemma planned_below_next order t c n : planned order t c = Some n → (n < next_ordinal (from_option id ∅ (order !! t)))%nat.
Proof. unfold planned. destruct (order !! t) as [m|]; [|done]. simpl. apply next_ordinal_above. Qed.

Definition distinct_ordinals (order : Plan) : Prop :=
  ∀ t c c' n, planned order t c = Some n → planned order t c' = Some n → c = c'.
(** The second plan keeps the first, and puts what it adds after it. *)
Definition extends (order order' : Plan) : Prop :=
  (∀ t c n, planned order t c = Some n → planned order' t c = Some n) ∧
  (∀ t c n c' n', planned order t c = Some n → planned order t c' = None → planned order' t c' = Some n' → (n < n')%nat).

Lemma complete_all_extends ps order :
  extends order (foldl complete_ordinal order ps) ∧
  (distinct_ordinals order → distinct_ordinals (foldl complete_ordinal order ps)) ∧
  ∀ p, p ∈ ps → is_Some (planned (foldl complete_ordinal order ps) (trait_id p) (concrete_id p)).
Proof.
  induction ps as [|p ps (Hext & Hdist & Hall)] using rev_ind.
  { simpl. split; [split; naive_solver|]. split; [done|]. by intros p ?%not_elem_of_nil. }
  rewrite foldl_snoc. set (o := foldl complete_ordinal order ps) in *. destruct Hext as [Hkeep Hafter].
  assert (∀ t c n, planned o t c = Some n → planned (complete_ordinal o p) t c = Some n) as Hstep.
  { intros t c n H. rewrite planned_complete. case_decide; by rewrite H. }
  split; [split|split].
  - intros t c n H. by apply Hstep, Hkeep.
  - intros t c n c' n' Hc Hc'. rewrite planned_complete. case_decide as Hp; [|by apply Hafter with (c := c)].
    destruct (planned o t c') as [m|] eqn:Hm; intros [= <-]; [by eapply Hafter|]. by eapply planned_below_next, Hkeep.
  - intros Hd t c c' n. specialize (Hdist Hd). rewrite !planned_complete. case_decide as H1; case_decide as H2; [naive_solver| | |by apply Hdist].
    + destruct H1 as [-> ->]. intros [= Hn] Hc'. destruct (planned o (trait_id p) (concrete_id p)) as [m|] eqn:Hm.
      * subst m. by eapply Hdist.
      * apply planned_below_next in Hc'. lia.
    + destruct H2 as [-> ->]. intros Hc [= Hn]. destruct (planned o (trait_id p) (concrete_id p)) as [m|] eqn:Hm.
      * subst m. by eapply Hdist.
      * apply planned_below_next in Hc. lia.
  - intros q [Hq| ->%list_elem_of_singleton]%elem_of_app.
    + destruct (Hall q Hq) as [n Hn]. exists n. by apply Hstep.
    + rewrite planned_complete, decide_True by done. by eexists.
Qed.

(** Looking up a provider's ordinal never panics. Whatever order plan the
    registry is given, it ends up with an ordinal for every provider; planned
    ordinals are kept, missing ones come after every planned one of the trait,
    and distinct ordinals stay distinct. *)
Theorem every_provider_has_an_ordinal {V Hd Rv} (transient_ factory_backed_ : gmap TypeId (ComponentDescriptor (@Program V Hd Rv)))
    providers order :
  let r := ScopeRegistry_new transient_ factory_backed_ providers order in
  (∀ p, p ∈ providers → is_Some (provider_ordinal r p)) ∧
  extends order (provider_order r) ∧
  (distinct_ordinals order → distinct_ordinals (provider_order r)).
Proof.
  destruct (complete_all_extends providers order) as (Hext & Hdist & Hall). split; [|by split].
  intros p Hp. exact (Hall p Hp).
Qed.
End Ordinals.

(** ** Collections and keyed lookups *)

Section Lookup.
Context {V Hd Rv : Type} (erase : ProviderDescriptor → @BoxedComponent V → @BoxedComponent V).
Abbreviation Component := (ComponentDescriptor (@Program V Hd Rv)).
Context (registry : @ScopeRegistry V Hd Rv).
Context (ct : list (@ScopeContainer V Rv) → @ScopeStore V → Component → run (@BoxedComponent V)).

(** What a transient provider contributes when it is constructed. *)
Definition constructed (cx : Cx) (H : Injectable) (p : ProviderDescriptor) : option Hd :=
  match construct_transient_provider erase registry ct H (cx_parent cx) (cx_store cx) p with Some (Ok h) => h | _ => None end.
Definition with_ordinal (cx : Cx) (H : Injectable) (p : ProviderDescriptor) : option (nat * Hd) :=
  h ← constructed cx H p; ord ← provider_ordinal registry p; Some (ord, h).

Lemma add_transients_spec cx H ps all all' :
  add_transients erase registry ct cx H ps all = done all' → all' = all ++ omap (with_ordinal cx H) ps.
Proof.
  revert all. induction ps as [|p ps IH]; intros all; cbn [add_transients omap list_omap]; [intros [= ->]; by rewrite app_nil_r|].
  unfold with_ordinal at 1, constructed at 1.
  destruct (construct_transient_provider _ _ _ _ _ _ p) as [[[h|]|e]|]; cbn [run_bind mbind option_bind]; [|by apply IH|done|done].
  destruct (provider_ordinal registry p) as [ord|]; [|done]. intros ->%IH. by rewrite <- app_assoc.
Qed.

Lemma collect_all_concat (H : Injectable) chain :
  collect_all_built H chain = concat ((λ c : @ScopeContainer V Rv, collect_all_local (Hd := Hd) H (ct_store c)) <$> chain).
Proof. induction chain as [|c chain IH]; [done|]. cbn [collect_all_built fmap list_fmap concat]. by rewrite IH. Qed.

(** A collection holds every visible provider, sorted by its global ordinal:
    the providers of this scope, those of every parent scope, and a fresh
    instance of each transient one. *)
Theorem resolve_all_complete_and_sorted cx H hs :
  resolve_all erase registry ct cx H = done hs →
  ∃ all, hs = all.*2 ∧ Sorted (λ a b : nat * Hd, (a.1 ≤ b.1)%nat) all ∧
    all ≡ₚ collect_all_local H (cx_store cx) ++ concat ((λ c, collect_all_local H (ct_store c)) <$> cx_parent cx) ++
           omap (with_ordinal cx H) (transient_providers_for registry (target H)).
Proof.
  unfold resolve_all. destruct (add_transients _ _ _ _ _ _ _) as [[all|]|] eqn:Hadd; [|done|done]. cbn [run_bind].
  intros [= <-]. exists (sort_by ordinal_leb all). split; [done|]. split.
  - assert (Sorted (λ a b : nat * Hd, ordinal_leb a b = true) (sort_by ordinal_leb all)) as Hs.
    { apply sort_by_Sorted. unfold ordinal_leb. intros a b. rewrite Nat.leb_gt, Nat.leb_le. lia. }
    induction Hs as [|a l Hs IH Ha]; constructor; [done|]. destruct Ha as [|b l Hab]; constructor. by apply Nat.leb_le.
  - rewrite sort_by_Permutation. apply add_transients_spec in Hadd as ->. rewrite <- app_assoc, <- collect_all_concat. done.
Qed.

Definition last_keyed {A} (q : string) (l : list (string * A)) : option A :=
  last (omap (λ e, if bool_decide (e.1 = q) then Some e.2 else None) l).
Lemma extend_lookup {A} (m : gmap string A) l q :
  extend m l !! q = match last_keyed q l with Some h => Some h | None => m !! q end.
Proof.
  unfold extend, last_keyed. induction l as [|[k h] l IH] using rev_ind; [done|].
  rewrite foldl_snoc, omap_app. cbn [fst snd omap list_omap]. case_bool_decide as Hk.
  - subst k. by rewrite lookup_insert_eq, last_snoc.
  - by rewrite lookup_insert_ne, app_nil_r by done.
Qed.
Lemma key_transients_spec cx H ps keyed keyed' :
  key_transients erase registry ct cx H ps keyed = done keyed' →
  keyed' = extend keyed (omap (λ p, h ← constructed cx H p; Some (p_qualifier p, h)) ps).
Proof.
  revert keyed. induction ps as [|p ps IH]; intros keyed; cbn [key_transients omap list_omap]; [by intros [= ->]|].
  unfold constructed at 1.
  destruct (construct_transient_provider _ _ _ _ _ _ p) as [[[h|]|e]|]; cbn [run_bind mbind option_bind]; [|by apply IH|done|done].
  by intros ->%IH.
Qed.
Definition first_some {A} (a b : option A) : option A := match a with Some x => Some x | None => b end.

(** In a keyed collection a closer scope wins a qualifier: a transient
    provider before any built one, then this scope, then the nearest parent that
    provides the qualifier; within one scope the last to land. *)
Theorem resolve_keyed_nearest cx H m q :
  resolve_keyed erase registry ct cx H = done m →
  m !! q =
    first_some (last_keyed q (omap (λ p, h ← constructed cx H p; Some (p_qualifier p, h)) (transient_providers_for registry (target H))))
      (first_some (last_keyed q (collect_keyed_local H (cx_store cx)))
         (head (omap (λ c, last_keyed q (collect_keyed_local H (ct_store c))) (cx_parent cx)))).
Proof.
  unfold resolve_keyed. intros ->%key_transients_spec. rewrite !extend_lookup. unfold first_some. f_equiv.
  destruct (last_keyed q (collect_keyed_local H (cx_store cx))); [done|].
  induction (cx_parent cx) as [|c chain IH]; cbn [collect_keyed_built omap list_omap]; [by rewrite lookup_empty|].
  rewrite extend_lookup. destruct (last_keyed q _); [done|]. apply IH.
Qed.
End Lookup.

(** ** What a built scope holds *)

Section Build.
Context {V Hd Rv : Type} (erase : ProviderDescriptor → @BoxedComponent V → @BoxedComponent V).
Abbreviation Component := (ComponentDescriptor (@Program V Hd Rv)).
Context (transients factories_ : gmap TypeId Component) (providers : list ProviderDescriptor)
  (plan : gmap TypeId (gmap TypeId nat)).
Abbreviation registry := (ScopeRegistry_new transients factories_ providers plan).

(** An entry of a trait's table stands for a provider. *)
Definition describes (p : ProviderDescriptor) (e : @ProviderInstance V) : Prop :=
  pi_qualifier e = p_qualifier p ∧ pi_primary e = primary p ∧ provider_ordinal registry p = Some (ordinal e).
(** The store holds the types of [landed], and the providers of [registered]. *)
Record store_holds (landed registered : list TypeId) (s : @ScopeStore V) : Prop := {
  holds_components id : is_Some (store_components s !! id) ↔ id ∈ landed;
  holds_sound t e : e ∈ entries t s → ∃ p, p ∈ providers ∧ trait_id p = t ∧ concrete_id p ∈ landed ∧ describes p e;
  holds_complete p : p ∈ providers → concrete_id p ∈ registered → ∃ e, e ∈ entries (trait_id p) s ∧ describes p e;
}.

Lemma providers_for_in id p : p ∈ providers_for registry id ↔ p ∈ providers ∧ concrete_id p = id.
Proof.
  unfold providers_for. simpl. rewrite group_by_lookup, list_elem_of_In, filter_In, <- list_elem_of_In. by rewrite Z.eqb_eq.
Qed.
Lemma holds_empty : store_holds [] [] empty_store.
Proof.
  split.
  - intros id. simpl. rewrite lookup_empty. split; [by intros []|by intros ?%not_elem_of_nil].
  - intros t e. unfold entries. simpl. rewrite lookup_empty. by intros ?%not_elem_of_nil.
  - by intros p _ ?%not_elem_of_nil.
Qed.
Lemma holds_insert landed registered b s :
  store_holds landed registered s → store_holds (boxed_id b :: landed) registered (insert_component b s).
Proof.
  intros [Hc Hs Hp]. split; [|intros t e He; destruct (Hs t e He) as (p & ? & ? & ? & ?); exists p; set_solver|done].
  intros id. simpl. rewrite lookup_insert_is_Some', elem_of_cons, Hc. naive_solver.
Qed.
Lemma register_provider_entries p ord s :
  is_Some (store_components s !! concrete_id p) →
  store_components (register_provider erase p ord s) = store_components s ∧
  ∃ v, ∀ t e, e ∈ entries t (register_provider erase p ord s) ↔
    e ∈ entries t s ∨ (t = trait_id p ∧ e = mkInstance ord (p_qualifier p) (primary p) v).
Proof.
  intros [b Hb]. unfold register_provider. rewrite Hb. split; [done|]. exists (erase p b). intros t e.
  unfold entries at 1. simpl. destruct (decide (t = trait_id p)) as [->|Hne].
  - rewrite lookup_insert_eq. simpl. rewrite elem_of_app, list_elem_of_singleton. naive_solver.
  - rewrite lookup_insert_ne by done. unfold entries. naive_solver.
Qed.
Lemma register_each_holds ps landed registered s s' :
  store_holds landed registered s → (∀ p, p ∈ ps → p ∈ providers ∧ concrete_id p ∈ landed) →
  register_each erase registry ps s = done s' →
  store_holds landed registered s' ∧ (∀ t e, e ∈ entries t s → e ∈ entries t s') ∧
  ∀ p, p ∈ ps → ∃ e, e ∈ entries (trait_id p) s' ∧ describes p e.
Proof.
  revert s. induction ps as [|p ps IH]; intros s Hs Hps; cbn [register_each].
  { intros [= ->]. split; [done|]. split; [done|]. by intros p ?%not_elem_of_nil. }
  destruct (provider_ordinal registry p) as [ord|] eqn:Hord; [|done]. intros Hrun.
  destruct (Hps p) as [Hp Hland]; [left|].
  destruct (register_provider_entries p ord s) as (Hcomp & v & Hentries); [by apply (holds_components _ _ _ Hs)|].
  set (s1 := register_provider erase p ord s) in *.
  assert (store_holds landed registered s1) as Hs1.
  { split; [rewrite Hcomp; apply Hs| |].
    - intros t e [He|[-> ->]]%Hentries; [by apply Hs|]. exists p. done.
    - intros q Hq Hr. destruct (holds_complete _ _ _ Hs q Hq Hr) as (e & ? & ?). exists e. split; [|done].
      apply Hentries. by left. }
  destruct (IH s1 Hs1) as (Hs' & Hmono & Hall); [set_solver|exact Hrun|].
  split; [done|]. split; [intros t e He; apply Hmono, Hentries; by left|].
  intros q [->|Hq]%elem_of_cons; [|by apply Hall].
  exists (mkInstance ord (p_qualifier p) (primary p) v). split; [apply Hmono, Hentries; by right|done].
Qed.
Lemma register_providers_holds id landed registered s s' :
  store_holds landed registered s → id ∈ landed → register_providers_for erase registry id s = done s' →
  store_holds landed (id :: registered) s'.
Proof.
  intros Hs Hid Hrun. unfold register_providers_for in Hrun.
  destruct (register_each_holds (providers_for registry id) landed registered s s' Hs) as ([Hc Hsound Hcomp] & _ & Hnew).
  { intros p [? <-]%providers_for_in. done. }
  { exact Hrun. }
  split; [done|done|]. intros p Hp [Hin|Hin]%elem_of_cons; [|by apply Hcomp]. apply Hnew, providers_for_in. done.
Qed.
Lemma seed_store_holds seeds landed s s' :
  store_holds landed landed s → seed_store erase registry seeds s = done s' →
  ∃ landed', (∀ id, id ∈ landed' ↔ id ∈ landed ∨ id ∈ boxed_id <$> seeds) ∧ store_holds landed' landed' s'.
Proof.
  revert landed s. induction seeds as [|b seeds IH]; intros landed s Hs; cbn [seed_store].
  { intros [= <-]. exists landed. split; [set_solver|done]. }
  destruct (register_providers_for _ _ _ _) as [[s1|]|] eqn:Hreg; [|done|done]. cbn [run_bind]. intros Hrun.
  apply (register_providers_holds _ (boxed_id b :: landed) landed) in Hreg; [|by apply holds_insert|left].
  destruct (IH _ _ Hreg Hrun) as (landed' & Hin & Hs'). exists landed'. split; [|done].
  intros id. rewrite Hin, fmap_cons, !elem_of_cons. naive_solver.
Qed.
Lemma holds_perm landed landed' registered registered' s :
  (∀ id, id ∈ landed ↔ id ∈ landed') → (∀ id, id ∈ registered ↔ id ∈ registered') →
  store_holds landed registered s → store_holds landed' registered' s.
Proof.
  intros Hl Hr [Hc Hs Hp]. split; [intros id; by rewrite Hc|intros t e He; setoid_rewrite <- Hl; auto|].
  intros p. rewrite <- Hr. apply Hp.
Qed.

(** A factory boxes its component under the component's own type. *)
Definition builds_own_type (fuel : nat) (d : Component) : Prop :=
  ∀ f cx b, effective_factory d = Ok (Some f) →
    run_factory erase registry (construct_transient_boxed erase registry fuel) cx (construct f) = done b →
    boxed_id b = component_ty_id d.
Lemma build_order_holds fuel scope parent externals order landed s s' :
  store_holds landed landed s → (∀ d, d ∈ order → builds_own_type fuel d) →
  build_order erase registry fuel scope parent externals order s = done s' →
  ∃ landed', (∀ id, id ∈ landed' ↔ id ∈ landed ∨ id ∈ component_ty_id <$> order) ∧ store_holds landed' landed' s'.
Proof.
  revert landed s. induction order as [|d order IH]; intros landed s Hs Hown; cbn [build_order].
  { intros [= <-]. exists landed. split; [set_solver|done]. }
  destruct (build_component _ _ _ _ _ _ d s) as [[s1|]|] eqn:Hbuild; [|done|done]. cbn [run_bind].
  destruct (register_providers_for _ _ _ _) as [[s2|]|] eqn:Hreg; [|done|done]. cbn [run_bind]. intros Hrun.
  assert (store_holds (component_ty_id d :: landed) landed s1) as Hs1.
  { unfold build_component in Hbuild. destruct (effective_factory d) as [[f|]|] eqn:Hf; [| |done].
    - destruct (run_factory _ _ _ _ _) as [[b|]|] eqn:Hb; [|done|done]. injection Hbuild as <-.
      rewrite <- (Hown d ltac:(left) f _ b Hf Hb). by apply holds_insert.
    - destruct (store_contains _ s) eqn:Hin; [|done]. injection Hbuild as <-. unfold store_contains in Hin.
      apply bool_decide_eq_true in Hin. apply (holds_components _ _ _ Hs) in Hin.
      eapply holds_perm; [|done|done]. set_solver. }
  apply (register_providers_holds _ (component_ty_id d :: landed) landed) in Hreg; [|done|left].
  destruct (IH _ _ Hreg) as (landed' & Hin & Hs'); [set_solver|exact Hrun|]. exists landed'. split; [|done].
  intros id. rewrite Hin, fmap_cons, !elem_of_cons. naive_solver.
Qed.

(** C20: A scope that was built holds exactly its seeds and the components of its
    order, each provider of a held type stands under its trait with its own
    qualifier, primary mark and ordinal, and nothing else stands there. *)
Theorem build_scope_holds fuel scope parent externals source_id source order seeds c :
  (∀ d, d ∈ order → builds_own_type fuel d) →
  build_scope erase registry fuel scope parent externals source_id source order seeds = done c →
  ∃ landed, (∀ id, id ∈ landed ↔ id ∈ boxed_id <$> seeds ∨ id ∈ component_ty_id <$> order) ∧
    store_holds landed landed (ct_store c).
Proof.
  intros Hown. unfold build_scope. destruct (seed_store _ _ _ _) as [[s|]|] eqn:Hseed; [|done|done]. cbn [run_bind].
  destruct (build_order _ _ _ _ _ _ _ s) as [[s'|]|] eqn:Horder; [|done|done]. intros [= <-]. simpl.
  destruct (seed_store_holds _ _ _ _ holds_empty Hseed) as (landed & Hin & Hs).
  destruct (build_order_holds _ _ _ _ _ _ _ _ Hs Hown Horder) as (landed' & Hin' & Hs'). exists landed'. split; [|done].
  intros id. rewrite Hin', Hin. set_solver.
Qed.
End Build.

(** ** Factories of functions *)

Section Factories.
Context {V Hd Rv : Type} (erase : ProviderDescriptor → @BoxedComponent V → @BoxedComponent V).
Abbreviation Component := (ComponentDescriptor (@Program V Hd Rv)).
Context (registry : @ScopeRegistry V Hd Rv).
Context (ct : list (@ScopeContainer V Rv) → @ScopeStore V → Component → run (@BoxedComponent V)).
#[local] Open Scope run_scope.

(** What each parameter shape stands for in a context. *)
Definition resolve_param (cx : Cx) (p : @Param V Hd) : run (@Arg Hd) :=
  match p with
  | PSingle ty H =>
      h ←? resolve erase registry ct cx H;
      match h with Some h => done (ASingle h) | None => raise (MissingComponent (ty_name ty)) end
  | POption _ H => h ←? resolve erase registry ct cx H; done (AOption h)
  | PVec _ H => hs ←? resolve_all erase registry ct cx H; done (AVec hs)
  | PMap _ H => hs ←? resolve_keyed erase registry ct cx H; done (AMap hs)
  end.
Fixpoint resolve_params (cx : Cx) (ps : list (@Param V Hd)) : run (list (@Arg Hd)) :=
  match ps with
  | [] => done []
  | p :: ps' => a ←? resolve_param cx p; args ←? resolve_params cx ps'; done (a :: args)
  end.

(** A factory made of a function resolves its parameters in order, stops at
    the first that fails or is missing, and otherwise returns what the function
    makes of all of them; the function runs on no partial list. *)
Theorem factory_resolves_parameters_in_order cx params user :
  run_factory erase registry ct cx (dispatch_factory params user) =
  (args ←? resolve_params cx params; Some (user args)).
Proof.
  unfold dispatch_factory. enough (∀ pre, run_factory erase registry ct cx (factory_program params user pre) =
    (args ←? resolve_params cx params; Some (user (pre ++ args)))) as H by apply H.
  induction params as [|p params IH]; intros pre; [simpl; by rewrite app_nil_r|].
  cbn [factory_program resolve_params]. destruct p as [ty H|ty H|ty H|ty H]; simpl.
  1, 2: destruct (resolve erase registry ct cx H) as [[[h|]|e]|]; simpl; try done.
  4: destruct (resolve_all erase registry ct cx H) as [[hs|e]|]; simpl; try done.
  5: destruct (resolve_keyed erase registry ct cx H) as [[hs|e]|]; simpl; try done.
  all: rewrite IH; destruct (resolve_params cx params) as [[args|e]|]; simpl; try done; by rewrite <- app_assoc.
Qed.
End Factories.

(** ** Parents and children *)

Section Scopes.
Context {V Hd Rv : Type} (erase : ProviderDescriptor → @BoxedComponent V → @BoxedComponent V).
Abbreviation Component := (ComponentDescriptor (@Program V Hd Rv)).
Context (registry : @ScopeRegistry V Hd Rv).

(** Opening a child scope with nothing to hold gives the parent itself.
    Otherwise the child is one more container before its parents: it has every
    resolver of the parent, but its own component source, and whatever it does
    not hold itself is resolved exactly as from the parent. *)
Theorem open_child_extends_parent fuel scope parent source_id source order seeds self :
  open_child erase registry fuel scope parent source_id source order seeds = done self →
  (order = [] ∧ seeds = [] ∧ self = parent) ∨
  ∃ c, self = c :: parent ∧ ct_scope c = scope ∧
    (∀ kind, kind ≠ source_id → resolver (ct_resolvers c) kind = resolver (chain_resolvers parent) kind) ∧
    (∀ H : Injectable (Hd := Hd), resolve_local H (ct_store c) = None → resolve_built H self = resolve_built H parent) ∧
    (∀ s, is_transient s = false → scope_name s ≠ scope_name scope → can_access self s = can_access parent s).
Proof.
  intros Hopen.
  assert (order = [] ∧ seeds = [] ∧ self = parent ∨
    ∃ child, build_scope erase registry fuel scope parent (chain_resolvers parent) source_id source order seeds = done child ∧
      self = child :: parent) as [?|(c & Hbuild & ->)]; [|by left|right].
  { unfold open_child in Hopen. destruct order, seeds; [by left; injection Hopen as <-| | |].
    all: right; destruct (build_scope _ _ _ _ _ _ _ _ _ _) as [[child|]|]; [|done|done]; injection Hopen as <-; by exists child. }
  exists c. split; [done|]. unfold build_scope in Hbuild.
  destruct (seed_store _ _ _ _) as [[s|]|]; [|done|done]. cbn [run_bind] in Hbuild.
  destruct (build_order _ _ _ _ _ _ _ s) as [[s'|]|]; [|done|done]. injection Hbuild as <-. simpl. split; [done|].
  split; [|split].
  - intros kind Hne. unfold resolver, resolver_set_insert. by rewrite lookup_insert_ne.
  - by intros H ->.
  - intros s0 -> Hne. simpl. by rewrite bool_decide_false.
Qed.

(** A supplied instance that provides a trait is unusable through that
    trait. Building the root registers its provider when the instance is seeded
    and again when its descriptor comes up in the order, so the trait has two
    entries for the one instance: a single dependency on it finds nothing, and a
    collection holds it twice. *)
Theorem supplied_provider_registered_twice fuel externals source_id source d b p c (H : Injectable (Hd := Hd)) :
  effective_factory d = Ok None → boxed_id b = component_ty_id d →
  providers_for registry (component_ty_id d) = [p] → concrete_id p = component_ty_id d → trait_id p ≠ component_ty_id d →
  build_scope erase registry fuel Singleton [] externals source_id source [d] [b] = done c →
  target H = trait_id p →
  resolve_built H [c] = None ∧
  ∀ h, from_boxed H (erase p b) = Some h → snd <$> collect_all_built H [c] = [h; h].
Proof.
  intros Hmanual Hb Hps Hc Hne Hbuild Ht.
  destruct (provider_ordinal registry p) as [ord|] eqn:Hord.
  2: { unfold build_scope in Hbuild. cbn [seed_store] in Hbuild. unfold register_providers_for in Hbuild.
       rewrite Hb, Hps in Hbuild. cbn [register_each] in Hbuild. by rewrite Hord in Hbuild. }
  assert (∀ s, register_providers_for erase registry (component_ty_id d) s = done (register_provider erase p ord s)) as Hreg.
  { intros s. unfold register_providers_for. rewrite Hps. cbn [register_each]. by rewrite Hord. }
  set (s1 := register_provider erase p ord (insert_component b empty_store)).
  set (e := mkInstance ord (p_qualifier p) (primary p) (erase p b)).
  assert (s1 = mkStore {[component_ty_id d := b]} {[trait_id p := [e]]}) as Hs1.
  { unfold s1, register_provider, insert_component. simpl. by rewrite Hb, Hc, lookup_insert_eq. }
  assert (build_order erase registry fuel Singleton [] externals [d] s1 = done (register_provider erase p ord s1)) as Horder.
  { cbn [build_order]. unfold build_component, store_contains. rewrite Hmanual, Hs1. simpl.
    rewrite bool_decide_true by (exists b; apply lookup_singleton_eq). cbn [run_bind done]. by rewrite Hreg. }
  assert (ct_store c = register_provider erase p ord s1) as Hstore.
  { unfold build_scope in Hbuild. cbn [seed_store] in Hbuild. rewrite Hb, Hreg in Hbuild. cbn [run_bind done] in Hbuild.
    fold s1 in Hbuild. change (seed_store erase registry [] s1) with (done s1) in Hbuild. cbn [run_bind done] in Hbuild.
    rewrite Horder in Hbuild. by injection Hbuild as <-. }
  assert (store_components (ct_store c) !! trait_id p = None ∧ store_providers (ct_store c) !! trait_id p = Some [e; e])
    as [Hnone Hentries].
  { rewrite Hstore, Hs1. unfold register_provider, entries. simpl. rewrite Hc, lookup_singleton_eq. simpl.
    split; [apply lookup_singleton_ne; congruence|]. by rewrite lookup_insert_eq, lookup_singleton_eq. }
  split.
  - simpl. unfold resolve_local. rewrite Ht, Hnone, Hentries. simpl. by destruct (primary p).
  - intros h Hh. simpl. rewrite app_nil_r. unfold collect_all_local, entries. rewrite Ht, Hentries. simpl. by rewrite Hh.
Qed.

(** A transient that a singleton resolves through a trait while the root is
    being built sees no resolver at all, so a configuration value it asks for is
    missing, whatever the root was given; from inside a child scope the same
    recipe sees the resolvers of the parent. *)
Theorem root_transient_sees_no_resolvers fuel cx (H : Injectable (Hd := Hd)) p d f kind b e :
  single_provider registry (target H) = Some p → transient registry !! concrete_id p = Some d →
  effective_factory d = Ok (Some f) →
  construct f = GetResolver kind (λ r, match r with Some _ => Return (Ok b) | None => Return (Err e) end) →
  (cx_parent cx = [] → resolve erase registry (construct_transient_boxed erase registry (S fuel)) cx H = raise e) ∧
  (∀ c parents, cx_parent cx = c :: parents → is_Some (resolver (ct_resolvers c) kind) →
     is_Some (from_boxed H (erase p b)) →
     resolve erase registry (construct_transient_boxed erase registry (S fuel)) cx H = done (from_boxed H (erase p b))).
Proof.
  intros Hp Hd' Hf Hprog.
  assert (construct_selected_transient_provider erase registry (construct_transient_boxed erase registry (S fuel)) H (cx_parent cx) (cx_store cx) None =
    concrete ←? match resolver (chain_resolvers (cx_parent cx)) kind with Some _ => done b | None => raise e end;
    done (from_boxed H (erase p concrete)))%run as Hsel.
  { unfold construct_selected_transient_provider, construct_transient_provider. rewrite Hp, Hd'.
    cbn [construct_transient_boxed]. rewrite Hf, Hprog. cbn [run_factory cx_resolvers]. by destruct (resolver _ kind). }
  unfold resolve. rewrite Hsel. split.
  - intros ->. unfold chain_resolvers, resolver. simpl. by rewrite lookup_empty.
  - intros c parents -> [r Hr] [h Hh]. unfold chain_resolvers. simpl. rewrite Hr. simpl. by rewrite Hh.
Qed.
End Scopes.

(** ** A root with two built providers and a transient one

    A stored value is a string, its handle the same string. *)

Definition x_boxed (name : string) (id : Z) : @BoxedComponent string := mkBoxed (mkType name name id) name.
Definition x_erase (p : ProviderDescriptor) (b : @BoxedComponent string) : @BoxedComponent string :=
  mkBoxed (trait_ty p) (b_value b).
Definition x_handle (id : TypeId) : @Injectable string string := mkInjectable id Some.
Definition x_factory (p : @Program string string unit) : ComponentFactoryDescriptor (@Program string string unit) := mkFactory p [] true.
Definition x_built (name : string) (id : Z) (p : @Program string string unit) : ComponentDescriptor (@Program string string unit) :=
  mkComponent name name (mkType name name id) Singleton [x_factory p].
Definition x_value (name : string) (id : Z) : @Program string string unit := Return (Ok (x_boxed name id)).
(** Asks for the resolver 50, as [Cfg<T>] asks for the configuration store. *)
Definition x_config : @Program string string unit :=
  GetResolver 50 (λ r, match r with Some _ => Return (Ok (x_boxed "Gamma" 3)) | None => Return (Err (MissingComponent "Gamma")) end).
Definition x_alpha := x_built "Alpha" 1 (x_value "Alpha" 1).
Definition x_beta := x_built "Beta" 2 (x_value "Beta" 2).
Definition x_gamma := mkComponent "Gamma" "Gamma" (mkType "Gamma" "Gamma" 3) Transient [x_factory x_config].
Definition x_provider (trait_id : Z) (name : string) (id : Z) (q : string) : ProviderDescriptor :=
  mkProvider (mkType "dyn Trait" "dyn Trait" trait_id) (mkType name name id) q false 0 [].
Definition x_providers : list ProviderDescriptor :=
  [x_provider 100 "Beta" 2 "b"; x_provider 100 "Alpha" 1 "a"; x_provider 101 "Gamma" 3 "c"; x_provider 100 "Gamma" 3 "c"].
Definition x_transients : gmap TypeId (ComponentDescriptor (@Program string string unit)) := {[3 := x_gamma]}.
Definition x_plan : gmap TypeId (gmap TypeId nat) := {[100 := list_to_map [(1, 0%nat); (2, 1%nat); (3, 2%nat)]]}.
Definition x_registry := ScopeRegistry_new x_transients ∅ x_providers x_plan.
Definition x_externals : ResolverSet unit := {[50 := mkErased 50 tt]}.
Definition x_root : @ScopeContainer string unit :=
  match build_scope x_erase x_registry 2 Singleton [] x_externals 60 tt [x_beta; x_alpha] [] with
  | Some (Ok c) => c
  | _ => mkContainer Singleton empty_store ∅
  end.
Definition x_cx : @Cx string unit := mkCx Transient empty_store [x_root] (ct_resolvers x_root).

Lemma resolve_all_complete_and_sorted_witness :
  resolve_all x_erase x_registry (construct_transient_boxed x_erase x_registry 2) x_cx (x_handle 100) = done ["Alpha"; "Beta"; "Gamma"] ∧
  ∃ all : list (nat * string), ["Alpha"; "Beta"; "Gamma"] = all.*2 ∧ Sorted (λ a b : nat * string, (a.1 ≤ b.1)%nat) all.
Proof.
  assert (resolve_all x_erase x_registry (construct_transient_boxed x_erase x_registry 2) x_cx (x_handle 100) = done ["Alpha"; "Beta"; "Gamma"]) as H.
  { vm_compute. reflexivity. }
  split; [exact H|].
  destruct (resolve_all_complete_and_sorted x_erase x_registry (construct_transient_boxed x_erase x_registry 2) x_cx (x_handle 100) _ H)
    as (all & Hall & Hs & _). exists all. split; [exact Hall|exact Hs].
Defined.
Lemma resolve_keyed_nearest_witness :
  ∃ m, resolve_keyed x_erase x_registry (construct_transient_boxed x_erase x_registry 2) x_cx (x_handle 100) = done m ∧
    m !! "a" = Some "Alpha".
Proof.
  destruct (resolve_keyed x_erase x_registry (construct_transient_boxed x_erase x_registry 2) x_cx (x_handle 100)) as [[m|e]|] eqn:H;
    [|exfalso; vm_compute in H; discriminate..].
  exists m. split; [reflexivity|].
  rewrite (resolve_keyed_nearest x_erase x_registry (construct_transient_boxed x_erase x_registry 2) x_cx (x_handle 100) m "a" H).
  vm_compute. reflexivity.
Defined.
Lemma build_scope_holds_witness :
  ∃ c, build_scope x_erase x_registry 2 Singleton [] x_externals 60 tt [x_beta; x_alpha] [] = done c ∧
    ∃ landed, 1 ∈ landed ∧ store_holds x_transients ∅ x_providers x_plan landed landed (ct_store c).
Proof.
  eexists. split; [vm_compute; reflexivity|].
  edestruct (build_scope_holds x_erase x_transients ∅ x_providers x_plan 2 Singleton [] x_externals 60 tt [x_beta; x_alpha] [])
    as (landed & Hin & Hs); [| |exists landed; split; [apply Hin; right; right; left|exact Hs]].
  - intros d Hd. rewrite !elem_of_cons in Hd. destruct Hd as [-> |[-> |Hd%not_elem_of_nil]]; [| |done].
    all: intros f cx b [= <-] [= <-]; reflexivity.
  - vm_compute. reflexivity.
Defined.
Lemma open_child_extends_parent_witness :
  ∃ self, open_child x_erase x_registry 2 (mkScope 10 "Request" false) [x_root] 60 tt [] [x_boxed "Peer" 9] = done self ∧
    resolve_built (x_handle 1) self = Some "Alpha".
Proof.
  destruct (open_child x_erase x_registry 2 (mkScope 10 "Request" false) [x_root] 60 tt [] [x_boxed "Peer" 9]) as [[self|e]|] eqn:H;
    [|exfalso; vm_compute in H; discriminate..].
  exists self. split; [reflexivity|].
  destruct (open_child_extends_parent x_erase x_registry 2 (mkScope 10 "Request" false) [x_root] 60 tt [] [x_boxed "Peer" 9] self H)
    as [(_ & Hseeds & _)|(c & -> & _ & _ & Hres & _)]; [discriminate Hseeds|].
  rewrite Hres; vm_compute in H |- *; [reflexivity|]. injection H as <-. reflexivity.
Defined.
Definition x_supplied : ComponentDescriptor (@Program string string unit) := manual "Alpha" "Alpha" (mkType "Alpha" "Alpha" 1) Singleton.
Lemma supplied_provider_registered_twice_witness :
  ∃ c, build_scope x_erase x_registry 2 Singleton [] x_externals 60 tt [x_supplied] [x_boxed "Alpha" 1] = done c ∧
    resolve_built (x_handle 100) [c] = None.
Proof.
  eexists. split; [vm_compute; reflexivity|].
  refine (proj1 (supplied_provider_registered_twice x_erase x_registry 2 x_externals 60 tt x_supplied (x_boxed "Alpha" 1)
                   (x_provider 100 "Alpha" 1 "a") _ (x_handle 100) _ _ _ _ _ _ _)); try reflexivity.
  discriminate.
Defined.
Lemma root_transient_sees_no_resolvers_witness :
  resolve x_erase x_registry (construct_transient_boxed x_erase x_registry 1) (mkCx Singleton empty_store [] x_externals) (x_handle 101) =
    raise (MissingComponent "Gamma") ∧
  resolve x_erase x_registry (construct_transient_boxed x_erase x_registry 1) x_cx (x_handle 101) = done (Some "Gamma").
Proof.
  split.
  - refine (proj1 (root_transient_sees_no_resolvers x_erase x_registry 0 (mkCx Singleton empty_store [] x_externals) (x_handle 101)
                     (x_provider 101 "Gamma" 3 "c") x_gamma (x_factory x_config) 50 (x_boxed "Gamma" 3) (MissingComponent "Gamma") _ _ _ _) _);
      reflexivity.
  - refine (proj2 (root_transient_sees_no_resolvers x_erase x_registry 0 x_cx (x_handle 101)
                     (x_provider 101 "Gamma" 3 "c") x_gamma (x_factory x_config) 50 (x_boxed "Gamma" 3) (MissingComponent "Gamma") _ _ _ _) x_root [] _ _ _);
      try reflexivity; eexists; vm_compute; reflexivity.
Defined.
