(* ===== verification/DiHandles.v ===== *)
(** * DiHandles: lazy, fresh and deferred handles, and the root resolver

    Models [crates/di/src/primitives.rs], [root.rs], the capture slot of
    [container.rs] and the swappable cell of [descriptors/component.rs].

    - A [Fresh] handle runs the factories of [DiContainer] on the scopes it was
      captured in.
    - A [Lazy] handle is one cell that many callers share: a transition system, one
      step per shared access. What its resolver comes to is part of the step.
    - A [Weak] reference is an identifier of what it points to; whether that is
      alive is part of the state. *)
From stdpp Require Import relations.
From S2P Require Import Prelude CoreTypes DiTypes ProviderOrder DiRegistry DiContainer DiScope.
#[local] Open Scope run_scope.

(** ** [Fresh] *)

Section Fresh.
Context {V Hd Rv : Type} (erase : ProviderDescriptor → @BoxedComponent V → @BoxedComponent V).
Abbreviation Component := (ComponentDescriptor (@Program V Hd Rv)).
Context (registry : @ScopeRegistry V Hd Rv) (fuel : nat).
Abbreviation Chain := (list (@ScopeContainer V Rv)).
Abbreviation Handle := (@Injectable V Hd).
Abbreviation fresh_boxed := (construct_fresh_boxed erase registry fuel).

(** The factory that rebuilds a concrete type; [name] is its name in the error. *)
Definition fresh_factory (concrete : TypeId) (name : string) : run Component :=
  match factory_backed registry !! concrete with Some d => done d | None => raise (UnsupportedFreshFactory name) end.
(** [fresh_arc] *)
Definition fresh_arc (scope : Chain) (H : Handle) (q : option string) : run (option Hd) :=
  match factory_backed registry !! target H with
  | Some descriptor =>
      if negb (can_access scope (c_scope descriptor)) then done None
      else boxed ←? fresh_boxed scope descriptor; done (from_boxed H boxed)
  | None =>
      match (match q with Some q => qualified_provider registry (target H) q | None => single_provider registry (target H) end) with
      | None => done None
      | Some provider =>
          descriptor ←? fresh_factory (concrete_id provider) (ty_name (concrete_ty provider));
          if negb (can_access scope (c_scope descriptor)) then done None
          else concrete ←? fresh_boxed scope descriptor; done (from_boxed H (erase provider concrete))
      end
  end.
(** [fresh_construct_all] *)
Fixpoint fresh_each (scope : Chain) (H : Handle) (name : string) (ps : list ProviderDescriptor) : run (list (ProviderDescriptor * Hd)) :=
  match ps with
  | [] => done []
  | provider :: ps' =>
      descriptor ←? fresh_factory (concrete_id provider) (ty_name (concrete_ty provider));
      if negb (can_access scope (c_scope descriptor)) then fresh_each scope H name ps'
      else
        concrete ←? fresh_boxed scope descriptor;
        match from_boxed H (erase provider concrete) with
        | None => raise (MissingComponent name)
        | Some value => rest ←? fresh_each scope H name ps'; done ((provider, value) :: rest)
        end
  end.
Definition fresh_construct_all (scope : Chain) (H : Handle) (name : string) := fresh_each scope H name (providers_for_trait registry (target H)).

(** The shapes of [FreshFromContainer]; [None] is a panic, or a construction that does not end. *)
Inductive FreshShape := FArc | FValue | FOption | FVec | FMap.
Inductive FreshArg := GOne (h : Hd) | GOption (h : option Hd) | GVec (hs : list Hd) | GMap (hs : gmap string Hd).
(** The stable sort of the collected providers by ordinal; [None]: a provider without one. *)
Definition with_ordinals (values : list (ProviderDescriptor * Hd)) : option (list (nat * Hd)) :=
  mapM (λ e, n ← provider_ordinal registry e.1; Some (n, e.2)) values.
Definition fresh_from_container (scope : Chain) (shape : FreshShape) (H : Handle) (name : string) (q : option string) : run FreshArg :=
  match shape with
  | FArc => o ←? fresh_arc scope H q; match o with Some h => done (GOne h) | None => raise (MissingComponent name) end
  | FValue =>
      descriptor ←? fresh_factory (target H) name;
      if negb (can_access scope (c_scope descriptor)) then raise (MissingComponent name)
      else boxed ←? fresh_boxed scope descriptor;
           match from_boxed H boxed with Some h => done (GOne h) | None => raise (MissingComponent name) end
  | FOption => o ←? fresh_arc scope H q; done (GOption o)
  | FVec =>
      values ←? fresh_construct_all scope H name;
      match with_ordinals values with Some ps => done (GVec (snd <$> sort_by ordinal_leb ps)) | None => None end
  | FMap => values ←? fresh_construct_all scope H name; done (GMap (extend ∅ ((λ e, (p_qualifier e.1, e.2)) <$> values)))
  end.
Definition fresh_dependency (shape : FreshShape) (ty : TypeDescriptor) : DependencyDescriptor :=
  match shape with
  | FArc | FValue => dependency_of ty One false false
  | FOption => dependency_of ty One true false
  | FVec => dependency_of ty Collection false false
  | FMap => dependency_of ty Keyed false false
  end.
End Fresh.
(** [FromContainer::dependency] of [Lazy], [Fresh] and [Deferred]. *)
Definition with_resolution (m : ResolutionMode) (d : DependencyDescriptor) : DependencyDescriptor :=
  mkDep (dep_name d) (dep_ty d) (cardinality d) (optional d) (dynamic d) (qualifier d) (config d) m.

(** ** [Lazy] *)

Section Lazy.
Context {Hd E : Type}.
Inductive CallKind := GetOrCreate | Create.
Inductive LazyPc :=
| PCheck                        (* before the first [get] *)
| PLock                         (* awaits the mutex *)
| PRecheck                      (* holds it, before the second [get] *)
| PResolving                    (* in [create]: the resolver runs *)
| PReturned (r : result Hd E)
| PDropped.                     (* its future was dropped *)
Record Caller := mkCaller { l_kind : CallKind; l_pc : LazyPc }.
(** The cell, the holder of the mutex, and the callers; [stored] records what was put
    into the cell. *)
Record LazySys := mkLazy { value : option Hd; initializing : option nat; callers : list Caller; stored : list Hd }.
Definition Lazy_capture : LazySys := mkLazy None None [] [].
Definition lazy_get (s : LazySys) : option Hd := value s.

Inductive LazyEvent :=
| ECall (k : CallKind)                 (* a caller starts *)
| EMove (i : nat)
| EResolved (i : nat) (r : result Hd E)  (* the slot or the resolver answers; a success is stored *)
| EDrop (i : nat).
Definition set_pc (i : nat) (pc : LazyPc) (s : LazySys) : LazySys :=
  mkLazy (value s) (initializing s) (alter (λ c, mkCaller (l_kind c) pc) i (callers s)) (stored s).
Definition unlock (i : nat) (s : LazySys) : LazySys :=
  mkLazy (value s) (if bool_decide (initializing s = Some i) then None else initializing s) (callers s) (stored s).
Definition return_ (i : nat) (r : result Hd E) (s : LazySys) : LazySys := unlock i (set_pc i (PReturned r) s).
Definition exec_lazy (ev : LazyEvent) (s : LazySys) : option LazySys :=
  match ev with
  | ECall k =>
      let pc := match k with GetOrCreate => PCheck | Create => PResolving end in
      Some (mkLazy (value s) (initializing s) (callers s ++ [mkCaller k pc]) (stored s))
  | EMove i =>
      c ← callers s !! i;
      match l_pc c with
      | PCheck => Some (match lazy_get s with Some v => return_ i (Ok v) s | None => set_pc i PLock s end)
      | PLock =>
          match initializing s with
          | Some _ => None
          | None => Some (set_pc i PRecheck (mkLazy (value s) (Some i) (callers s) (stored s)))
          end
      | PRecheck => Some (match lazy_get s with Some v => return_ i (Ok v) s | None => set_pc i PResolving s end)
      | _ => None
      end
  | EResolved i r =>
      c ← callers s !! i;
      match l_pc c with
      | PResolving =>
          Some (return_ i r (match r with
            | Ok v => mkLazy (Some v) (initializing s) (callers s) (stored s ++ [v])
            | Err _ => s
            end))
      | _ => None
      end
  | EDrop i =>
      c ← callers s !! i;
      match l_pc c with PReturned _ | PDropped => None | _ => Some (unlock i (set_pc i PDropped s)) end
  end.
Fixpoint run_lazy (evs : list LazyEvent) (s : LazySys) : option LazySys :=
  match evs with [] => Some s | ev :: evs' => s' ← exec_lazy ev s; run_lazy evs' s' end.
End Lazy.
Arguments Caller : clear implicits.
Arguments LazySys : clear implicits.
Arguments LazyEvent : clear implicits.

(** ** Slots, [Deferred], and the root resolver *)

Section Slots.
Context {V Hd Rv : Type}.
Abbreviation Chain := (list (@ScopeContainer V Rv)).
Abbreviation Handle := (@Injectable V Hd).

(** [Deferred]: which slot it was captured in, what it refers to, and the
    [OnceLock]ed reference. *)
Record DeferredCell := mkDeferred { d_slot : nat; d_qualifier : option string; d_handle : Handle; d_name : string; d_value : option Hd }.
(** [ScopeResolverState]: the weak container, and the cells that wait for it. *)
Record SlotState := mkSlot { container : option nat; deferred : list nat }.
(** The containers, some of which have been dropped, the slots and the cells. *)
Record World := mkWorld { scopes : gmap nat Chain; dropped : gset nat; slots : list SlotState; cells : list DeferredCell }.
Definition World_new : World := mkWorld ∅ ∅ [] [].

(** [Weak::upgrade] *)
Definition upgrade (c : nat) (w : World) : option Chain := if bool_decide (c ∈ dropped w) then None else scopes w !! c.
Definition slot_scope (s : nat) (w : World) : option Chain := st ← slots w !! s; c ← container st; upgrade c w.
(** [ScopeResolverSlot::resolve] *)
Definition slot_resolve (s : nat) (w : World) : result Chain DiError :=
  match slot_scope s w with Some chain => Ok chain | None => Err ScopeUnavailable end.
Definition hydrated (d : DeferredCell) (chain : Chain) : option Hd :=
  match d_qualifier d with
  | Some q => resolve_qualified_built (d_handle d) q chain
  | None => resolve_built (d_handle d) chain
  end.
Definition set_cell (i : nat) (h : Hd) (w : World) : World :=
  mkWorld (scopes w) (dropped w) (slots w)
    (alter (λ d, mkDeferred (d_slot d) (d_qualifier d) (d_handle d) (d_name d) (match d_value d with Some v => Some v | None => Some h end)) i (cells w)).
(** [DeferredInner::hydrate] *)
Definition hydrate (i : nat) (chain : Chain) (w : World) : result unit DiError * World :=
  match cells w !! i with
  | None => (Ok tt, w)
  | Some d => match hydrated d chain with Some h => (Ok tt, set_cell i h w) | None => (Err (MissingComponent (d_name d)), w) end
  end.
Fixpoint hydrate_all (is_ : list nat) (chain : Chain) (w : World) : result unit DiError * World :=
  match is_ with
  | [] => (Ok tt, w)
  | i :: is' => match hydrate i chain w with (Ok _, w') => hydrate_all is' chain w' | (Err e, w') => (Err e, w') end
  end.
Definition set_slot (s : nat) (f : SlotState → SlotState) (w : World) : World :=
  mkWorld (scopes w) (dropped w) (alter f s (slots w)) (cells w).

Inductive SlotEvent :=
| EScope                                       (* a scope begins construction, with a new slot *)
| ECapture (s : nat) (q : option string) (H : Handle) (name : string)   (* [Deferred::capture] *)
| EAttach (s : nat) (chain : Chain)            (* the scope is frozen: [ScopeResolverSlot::attach] *)
| EDropScope (c : nat).
(** [ScopeResolverSlot::attach], to the container [c] whose chain is [chain]. *)
Definition slot_attach (s c : nat) (chain : Chain) (w : World) : result unit DiError * World :=
  match slots w !! s with
  | None => (Ok tt, w)
  | Some st => hydrate_all (deferred st) chain (set_slot s (λ _, mkSlot (Some c) []) w)
  end.
(** [register_deferred] *)
Definition register_deferred (s i : nat) (w : World) : result unit DiError * World :=
  match slot_scope s w with
  | Some chain => hydrate i chain w
  | None => (Ok tt, set_slot s (λ st, mkSlot (container st) (deferred st ++ [i])) w)
  end.
(** [Deferred::capture] *)
Definition Deferred_capture (s : nat) (q : option string) (H : Handle) (name : string) (w : World) : result unit DiError * World :=
  register_deferred s (length (cells w)) (mkWorld (scopes w) (dropped w) (slots w) (cells w ++ [mkDeferred s q H name None])).
(** The result is what the operation returns to its caller. A capture that fails
    leaves no handle; a slot is attached once, when its scope is frozen, and the
    scope is dropped when that fails. *)
Definition exec_slot (ev : SlotEvent) (w : World) : option (result unit DiError * World) :=
  match ev with
  | EScope => Some (Ok tt, mkWorld (scopes w) (dropped w) (slots w ++ [mkSlot None []]) (cells w))
  | ECapture s q H name =>
      _ ← slots w !! s;
      Some (match Deferred_capture s q H name w with (Ok _, w') => (Ok tt, w') | (Err e, _) => (Err e, w) end)
  | EAttach s chain =>
      st ← slots w !! s;
      match container st with
      | Some _ => None
      | None =>
          let c := size (scopes w) in
          Some (match slot_attach s c chain (mkWorld (<[c := chain]> (scopes w)) (dropped w) (slots w) (cells w)) with
                | (Ok _, w') => (Ok tt, w')
                | (Err e, w') => (Err e, mkWorld (scopes w') ({[c]} ∪ dropped w') (slots w') (cells w'))
                end)
      end
  | EDropScope c => _ ← scopes w !! c; Some (Ok tt, mkWorld (scopes w) ({[c]} ∪ dropped w) (slots w) (cells w))
  end.
Fixpoint run_slots (evs : list SlotEvent) (w : World) : option World :=
  match evs with [] => Some w | ev :: evs' => r ← exec_slot ev w; run_slots evs' r.2 end.
(** [Deferred::try_get]; [alive]: an owner of the component is left. [None] is also
    the panic of [get]. *)
Definition try_get (alive : Hd → bool) (d : DeferredCell) : option Hd := h ← d_value d; if alive h then Some h else None.

(** [RootResolver] *)
Definition RootResolver : Type := option nat.
Definition RootResolver_new : RootResolver := None.
Definition root_attach (root : nat) (r : RootResolver) : RootResolver := match r with Some c => Some c | None => Some root end.
Definition resolver_root (r : RootResolver) (w : World) : option Chain := c ← r; upgrade c w.
Definition root_component (r : RootResolver) (H : Handle) (name : string) (w : World) : result Hd DiError :=
  match resolver_root r w with
  | None => Err RootUnavailable
  | Some chain => match resolve_built H chain with Some h => Ok h | None => Err (MissingComponent name) end
  end.
Definition root_extract {A} (r : RootResolver) (extract : Chain → run A) (w : World) : run A :=
  match resolver_root r w with None => raise RootUnavailable | Some chain => extract chain end.
End Slots.

(** [Fresh::create], of a handle captured in the slot [s]. *)
Definition fresh_create {V Hd Rv} (erase : ProviderDescriptor → @BoxedComponent V → @BoxedComponent V) (registry : @ScopeRegistry V Hd Rv)
    (fuel : nat) (s : nat) (q : option string) (shape : FreshShape) (H : @Injectable V Hd) (name : string) (w : @World V Hd Rv) : run FreshArg :=
  match slot_resolve s w with
  | Err e => raise e
  | Ok scope => fresh_from_container erase registry fuel scope shape H name q
  end.

(** ** A lazy value is made once *)

Section LazyFacts.
Context {Hd E : Type}.
Abbreviation Sys := (LazySys Hd E).

(** The caller owns the mutex at this point of a [get_or_create]. *)
Definition owns (c : Caller Hd E) : Prop := l_kind c = GetOrCreate ∧ (l_pc c = PRecheck ∨ l_pc c = PResolving).
(** Only [get_or_create] checks and locks. *)
Definition placed (c : Caller Hd E) : Prop := l_kind c = GetOrCreate ∨ l_pc c ∉ [PCheck; PLock; PRecheck].
Record lazy_inv (s : Sys) : Prop := {
  lazy_placed i c : callers s !! i = Some c → placed c;
  lazy_owner i c : callers s !! i = Some c → owns c → initializing s = Some i;
  lazy_held i : initializing s = Some i → ∃ c, callers s !! i = Some c ∧ owns c;
  lazy_last : value s = last (stored s) }.
(** With no caller of [create] itself. *)
Record once_inv (s : Sys) : Prop := {
  once_kind i c : callers s !! i = Some c → l_kind c = GetOrCreate;
  once_stored : (length (stored s) ≤ 1)%nat;
  once_resolving i c : callers s !! i = Some c → l_pc c = PResolving → stored s = [];
  once_returned i c v : callers s !! i = Some c → l_pc c = PReturned (Ok v) → stored s = [v] }.

Lemma set_pc_lookup i pc (s : Sys) j : callers (set_pc i pc s) !! j =
  if decide (j = i) then (λ c, mkCaller (l_kind c) pc) <$> callers s !! i else callers s !! j.
Proof.
  unfold set_pc. cbn [callers]. case_decide as Hj; [subst j; apply list_lookup_alter_eq|by apply list_lookup_alter_ne].
Qed.
(** A step moves one caller: what the invariant asks of the others is kept. *)
Lemma set_pc_owns i pc (s : Sys) c : callers s !! i = Some c → lazy_inv s → placed (mkCaller (l_kind c) pc) →
  (owns c ↔ owns (mkCaller (l_kind c) pc)) → lazy_inv (set_pc i pc s).
Proof.
  intros Hc [Hp Ho Hh Hl] Hpl Heq. split; [| | |done].
  - intros j c'. rewrite set_pc_lookup. case_decide as Hj; [subst j|by apply Hp]. rewrite Hc. by intros [= <-].
  - intros j c'. rewrite set_pc_lookup. case_decide as Hj; [subst j|by apply Ho]. rewrite Hc. intros [= <-] Hown.
    apply (Ho i c); [done|by apply Heq].
  - intros j Hj. cbn [initializing set_pc] in Hj. destruct (Hh j Hj) as (c' & Hc' & Hown). setoid_rewrite set_pc_lookup.
    case_decide as Hij; [subst j|by exists c']. rewrite Hc in Hc' |- *. injection Hc' as <-. eexists. split; [done|by apply Heq].
Qed.
(** Letting go of the mutex, whether or not it was held; the value may change with [stored]. *)
Lemma release_inv i pc (s : Sys) c v st : callers s !! i = Some c → lazy_inv s → pc ∉ [PCheck; PLock; PRecheck; PResolving] → v = last st →
  lazy_inv (unlock i (set_pc i pc (mkLazy v (initializing s) (callers s) st))).
Proof.
  intros Hc [Hp Ho Hh Hl] Hn Hv.
  assert (Hlook : ∀ j, callers (unlock i (set_pc i pc (mkLazy v (initializing s) (callers s) st))) !! j =
    if decide (j = i) then (λ c, mkCaller (l_kind c) pc) <$> callers s !! i else callers s !! j)
    by (intros j; exact (set_pc_lookup i pc (mkLazy v (initializing s) (callers s) st) j)).
  split; [| | |done].
  - intros j c'. rewrite Hlook. case_decide as Hj; [subst j; rewrite Hc; intros [= <-]; right; set_solver|]. apply Hp.
  - intros j c'. rewrite Hlook. case_decide as Hj; [subst j; rewrite Hc; intros [= <-] [_ Hpc]; cbn in Hpc; set_solver|].
    intros Hc' Hown. cbn. rewrite (Ho j c') by done. rewrite bool_decide_false by congruence. done.
  - intros j. cbn [initializing unlock set_pc]. case_bool_decide as Hi; [done|]. intros Hj. destruct (Hh j Hj) as (c' & Hc' & Hown).
    exists c'. split; [|done]. rewrite Hlook. rewrite decide_False by congruence. done.
Qed.
Lemma lazy_inv_init : lazy_inv (Lazy_capture : Sys).
Proof. by split. Qed.
Lemma lazy_eta (s : Sys) : mkLazy (value s) (initializing s) (callers s) (stored s) = s.
Proof. by destruct s. Qed.
Lemma return_inv i r (s : Sys) c : callers s !! i = Some c → lazy_inv s → lazy_inv (return_ i r s).
Proof.
  intros Hc Hi. unfold return_. rewrite <- (lazy_eta s) at 1. apply (release_inv i _ s c); [done..|set_solver|by apply lazy_last].
Qed.
Lemma recheck_inv i (s : Sys) c pc : callers s !! i = Some c → lazy_inv s → l_pc c = PCheck ∧ pc = PLock ∨ l_pc c = PRecheck ∧ pc = PResolving →
  lazy_inv (set_pc i pc s).
Proof.
  intros Hc Hi Hpc. pose proof (lazy_placed _ Hi i c Hc) as [Hk|Hk]; [|destruct Hpc as [[Hpc _]|[Hpc _]]; rewrite Hpc in Hk; set_solver].
  apply (set_pc_owns i _ s c); [done..|by left|]. unfold owns. cbn. destruct Hpc as [[-> ->]|[-> ->]]; naive_solver.
Qed.
Lemma lock_inv i (s : Sys) c : callers s !! i = Some c → lazy_inv s → l_pc c = PLock → initializing s = None →
  lazy_inv (set_pc i PRecheck (mkLazy (value s) (Some i) (callers s) (stored s))).
Proof.
  intros Hc [Hp Ho Hh Hl] Hpc Hi.
  assert (l_kind c = GetOrCreate) as Hk by (destruct (Hp i c Hc) as [?|Hk]; [done|rewrite Hpc in Hk; set_solver]).
  split; [| | |done].
  - intros j c'. rewrite set_pc_lookup. case_decide; [|by apply Hp]. cbn [callers]. rewrite Hc. intros [= <-]. by left.
  - intros j c'. rewrite set_pc_lookup. cbn [callers initializing set_pc]. case_decide as Hj; [by subst|]. intros Hc' Hown.
    specialize (Ho _ _ Hc' Hown); congruence.
  - intros j [= <-]. setoid_rewrite set_pc_lookup. cbn [callers]. rewrite decide_True, Hc by done. eexists. split; [done|]. split; [done|by left].
Qed.
Lemma exec_lazy_inv ev (s s' : Sys) : lazy_inv s → exec_lazy ev s = Some s' → lazy_inv s'.
Proof.
  intros Hinv. destruct ev as [k|i|i r|i]; cbn [exec_lazy].
  - intros [= <-]. destruct Hinv as [Hp Ho Hh Hl]. split; [| | |done]; cbn [callers initializing].
    + intros j c Hj. apply lookup_app_Some in Hj as [Hj|[_ Hj]]; [by apply (Hp j)|]. apply list_lookup_singleton_Some in Hj as [_ <-].
      destruct k; [by left|]. right. set_solver.
    + intros j c Hj. apply lookup_app_Some in Hj as [Hj|[_ Hj]]; [by apply Ho|]. apply list_lookup_singleton_Some in Hj as [_ <-].
      intros [Hk Hpc]. cbn in Hk, Hpc. rewrite Hk in Hpc. by destruct Hpc.
    + intros j Hj. destruct (Hh j Hj) as (c & Hc & Hown). exists c. split; [by apply lookup_app_l_Some|done].
  - destruct (callers s !! i) as [c|] eqn:Hc; simpl; [|done]. destruct (l_pc c) eqn:Hpc; try done.
    + intros [= <-]. destruct (lazy_get s); [by apply (return_inv i _ s c)|]. apply (recheck_inv i s c); auto.
    + destruct (initializing s) eqn:Hi; [done|]. intros [= <-]. by apply (lock_inv i s c).
    + intros [= <-]. destruct (lazy_get s); [by apply (return_inv i _ s c)|]. apply (recheck_inv i s c); auto.
  - destruct (callers s !! i) as [c|] eqn:Hc; simpl; [|done]. destruct (l_pc c) eqn:Hpc; try done. intros [= <-].
    destruct r as [v|e]; [|by apply (return_inv i _ s c)].
    apply (release_inv i _ s c); [done..|set_solver|by rewrite last_snoc].
  - destruct (callers s !! i) as [c|] eqn:Hc; simpl; [|done].
    destruct (l_pc c) eqn:Hpc; try done; intros [= <-]; rewrite <- (lazy_eta s) at 1; (apply (release_inv i _ s c); [done..|set_solver|by apply lazy_last]).
Qed.
Lemma run_lazy_inv evs (s s' : Sys) : lazy_inv s → run_lazy evs s = Some s' → lazy_inv s'.
Proof.
  revert s. induction evs as [|ev evs IH]; intros s Hinv; cbn; [by intros [= <-]|].
  intros (s1 & Hs1 & Hrun)%bind_Some. apply (IH s1); [by eapply exec_lazy_inv|done].
Qed.

Lemma once_move i pc (s : Sys) held c : callers s !! i = Some c → once_inv s → (pc = PResolving → stored s = []) →
  (∀ v, pc = PReturned (Ok v) → stored s = [v]) → once_inv (mkLazy (value s) held (callers (set_pc i pc s)) (stored s)).
Proof.
  intros Hc [Hk Hs Hr Ht] Hpr Hpt. split; [|done| |]; cbn [callers stored]; intros j c'.
  - change (callers (set_pc i pc s) !! j = Some c' → l_kind c' = GetOrCreate). rewrite set_pc_lookup. case_decide; [|by apply Hk].
    rewrite Hc. intros [= <-]. exact (Hk i c Hc).
  - change (callers (set_pc i pc s) !! j = Some c' → l_pc c' = PResolving → stored s = []). rewrite set_pc_lookup. case_decide; [|by apply Hr].
    rewrite Hc. by intros [= <-].
  - intros v. change (callers (set_pc i pc s) !! j = Some c' → l_pc c' = PReturned (Ok v) → stored s = [v]). rewrite set_pc_lookup.
    case_decide; [|by apply Ht]. rewrite Hc. intros [= <-]. apply Hpt.
Qed.
(** The value is stored while its caller is alone in resolving. *)
Lemma once_store i v (s : Sys) c held : callers s !! i = Some c → l_pc c = PResolving → lazy_inv s → once_inv s →
  once_inv (mkLazy (Some v) held (callers (set_pc i (PReturned (Ok v)) s)) (stored s ++ [v])).
Proof.
  intros Hc Hpc Hi [Hk Hs Hr Ht]. pose proof (Hr i c Hc Hpc) as Hst.
  assert (Hown : ∀ j c', callers s !! j = Some c' → l_pc c' = PResolving → j = i).
  { intros j c' Hc' Hpc'. assert (initializing s = Some j) as Hj by (apply (lazy_owner _ Hi j c'); [done|split; [by apply (Hk j)|by right]]).
    assert (initializing s = Some i) by (apply (lazy_owner _ Hi i c); [done|split; [by apply (Hk i)|by right]]). congruence. }
  rewrite Hst. split; [|done| |]; cbn [callers stored app]; intros j c'.
  - change (callers (set_pc i (PReturned (Ok v)) s) !! j = Some c' → l_kind c' = GetOrCreate). rewrite set_pc_lookup.
    case_decide; [|by apply Hk]. rewrite Hc. intros [= <-]. exact (Hk i c Hc).
  - change (callers (set_pc i (PReturned (Ok v)) s) !! j = Some c' → l_pc c' = PResolving → [v] = []). rewrite set_pc_lookup.
    case_decide as Hj; [rewrite Hc; by intros [= <-]|]. intros Hc' Hpc'. by destruct Hj; apply (Hown j c').
  - intros v'. change (callers (set_pc i (PReturned (Ok v)) s) !! j = Some c' → l_pc c' = PReturned (Ok v') → [v] = [v']). rewrite set_pc_lookup.
    case_decide as Hj; [rewrite Hc; intros [= <-]; cbn; congruence|]. intros Hc' Hpc'. specialize (Ht _ _ _ Hc' Hpc'). congruence.
Qed.
Lemma once_cached (s : Sys) v : lazy_inv s → once_inv s → lazy_get s = Some v → stored s = [v].
Proof.
  intros Hi Ho Hv. unfold lazy_get in Hv. rewrite (lazy_last _ Hi) in Hv. pose proof (once_stored _ Ho) as Hl.
  destruct (stored s) as [|v0 [|]]; simpl in *; [done|congruence|lia].
Qed.
Lemma once_empty (s : Sys) : lazy_inv s → once_inv s → lazy_get s = None → stored s = [].
Proof.
  intros Hi Ho Hv. unfold lazy_get in Hv. rewrite (lazy_last _ Hi) in Hv. pose proof (once_stored _ Ho) as Hl.
  destruct (stored s) as [|v0 [|]]; simpl in *; [done|congruence|lia].
Qed.
Lemma exec_once ev (s s' : Sys) : lazy_inv s → once_inv s → ev ≠ ECall Create → exec_lazy ev s = Some s' → once_inv s'.
Proof.
  intros Hi Ho Hev. destruct ev as [k|i|i r|i]; cbn [exec_lazy].
  - destruct k; [|done]. intros [= <-]. destruct Ho as [Hk Hs Hr Ht].
    split; [|done| |]; cbn [callers stored]; intros j c'; [|..|intros v]; intros Hj; apply lookup_app_Some in Hj as [Hj|[_ Hj]];
      [by apply (Hk j)| |by apply (Hr j)| |by apply (Ht j)|]; by apply list_lookup_singleton_Some in Hj as [_ <-].
  - destruct (callers s !! i) as [c|] eqn:Hc; simpl; [|done]. destruct (l_pc c) eqn:Hpc; try done.
    + intros [= <-]. destruct (lazy_get s) as [v|] eqn:Hv; [|apply (once_move i PLock s (initializing s) c); done].
      apply (once_move i _ s _ c); [done..|]. intros v' [= <-]. by apply once_cached.
    + destruct (initializing s) eqn:Hh; [done|]. intros [= <-]. by apply (once_move i PRecheck s (Some i) c).
    + intros [= <-]. destruct (lazy_get s) as [v|] eqn:Hv.
      * apply (once_move i _ s _ c); [done..|]. intros v' [= <-]. by apply once_cached.
      * apply (once_move i PResolving s (initializing s) c); [done..| |done]. intros _. by apply once_empty.
  - destruct (callers s !! i) as [c|] eqn:Hc; simpl; [|done]. destruct (l_pc c) eqn:Hpc; try done. intros [= <-].
    destruct r as [v|e]; [by apply (once_store i v s c)|]. by apply (once_move i _ s _ c).
  - destruct (callers s !! i) as [c|] eqn:Hc; simpl; [|done]. destruct (l_pc c) eqn:Hpc; try done; intros [= <-]; by apply (once_move i _ s _ c).
Qed.
Lemma run_once evs (s s' : Sys) : lazy_inv s → once_inv s → ECall Create ∉ evs → run_lazy evs s = Some s' → once_inv s'.
Proof.
  revert s. induction evs as [|ev evs IH]; intros s Hinv Ho Hev; cbn; [by intros [= <-]|].
  apply not_elem_of_cons in Hev as [Hne Hev]. intros (s1 & Hs1 & Hrun)%bind_Some.
  apply (IH s1); [by eapply exec_lazy_inv|by eapply exec_once|done..].
Qed.
Lemma once_init : once_inv (Lazy_capture : Sys).
Proof. split; cbn; [done|lia|done..]. Qed.

(** *** With callers of [create] too *)

(** Each call of [create] that succeeded has stored a value of its own. *)
Definition created_by (c : Caller Hd E) : nat := match l_kind c, l_pc c with Create, PReturned (Ok _) => 1 | _, _ => 0 end.
Definition creates (s : Sys) : nat := sum_list (created_by <$> callers s).
Record bounded (s : Sys) : Prop := {
  bd_stored : (length (stored s) ≤ S (creates s))%nat;
  bd_resolving i c : callers s !! i = Some c → l_kind c = GetOrCreate → l_pc c = PResolving → (length (stored s) ≤ creates s)%nat;
  bd_returned i c v : callers s !! i = Some c → l_pc c = PReturned (Ok v) → v ∈ stored s }.
Lemma sum_alter (l : list (Caller Hd E)) i c f : l !! i = Some c → created_by c = 0%nat → sum_list (created_by <$> alter f i l) = (sum_list (created_by <$> l) + created_by (f c))%nat.
Proof.
  revert i. induction l as [|d l IH]; intros [|i]; cbn; [done..| |].
  - intros [= ->] ->. lia.
  - intros Hi Hm. change (list_alter f i l) with (alter f i l). rewrite (IH i Hi Hm). lia.
Qed.
Lemma bounded_move i pc (s : Sys) c val held st : callers s !! i = Some c → created_by c = 0%nat → bounded s →
  (length st ≤ S (creates s + created_by (mkCaller (l_kind c) pc)))%nat → (∀ v, v ∈ stored s → v ∈ st) →
  (∀ j c', j ≠ i → callers s !! j = Some c' → l_kind c' = GetOrCreate → l_pc c' = PResolving → (length st ≤ creates s + created_by (mkCaller (l_kind c) pc))%nat) →
  (pc = PResolving → l_kind c = GetOrCreate → (length st ≤ creates s)%nat) → (∀ v, pc = PReturned (Ok v) → v ∈ st) →
  bounded (mkLazy val held (callers (set_pc i pc s)) st).
Proof.
  intros Hc Hm [Hs Hr Ht] Hst Hsub Hother Hpr Hpt.
  assert (Hcr : ∀ val held, creates (mkLazy val held (callers (set_pc i pc s)) st) = (creates s + created_by (mkCaller (l_kind c) pc))%nat).
  { intros. unfold creates, set_pc. cbn [callers]. by rewrite (sum_alter _ i c). }
  split; cbn [stored]; rewrite ?Hcr; [done| |]; intros j c'; [|intros v];
    change (callers (mkLazy val held (callers (set_pc i pc s)) st)) with (callers (set_pc i pc s)); rewrite set_pc_lookup;
    case_decide as Hj; rewrite ?Hc.
  - intros [= <-] Hk Hpc. cbn in Hk, Hpc. specialize (Hpr Hpc Hk). lia.
  - intros Hc' Hk Hpc. by apply (Hother j c').
  - intros [= <-]. apply Hpt.
  - intros Hc' Hpc. apply Hsub. by apply (Ht j c').
Qed.
(** A move that stores nothing. *)
Lemma bounded_step i pc (s : Sys) c val held : callers s !! i = Some c → created_by c = 0%nat → bounded s →
  (pc = PResolving → l_kind c = GetOrCreate → (length (stored s) ≤ creates s)%nat) → (∀ v, pc = PReturned (Ok v) → v ∈ stored s) →
  bounded (mkLazy val held (callers (set_pc i pc s)) (stored s)).
Proof.
  intros Hc Hm Hb Hpr Hpt. pose proof (bd_stored _ Hb). apply (bounded_move i pc s c); [done..|lia|done| |done|done].
  intros j c' _ Hc' Hk Hpc. pose proof (bd_resolving _ Hb j c' Hc' Hk Hpc). lia.
Qed.
Lemma cached_stored (s : Sys) v : lazy_inv s → lazy_get s = Some v → v ∈ stored s.
Proof. intros Hi Hv. unfold lazy_get in Hv. rewrite (lazy_last _ Hi) in Hv. by apply last_Some_elem_of. Qed.
Lemma empty_stored (s : Sys) : lazy_inv s → lazy_get s = None → stored s = [].
Proof. intros Hi Hv. unfold lazy_get in Hv. rewrite (lazy_last _ Hi) in Hv. by apply last_None in Hv. Qed.
Lemma resolving_alone (s : Sys) i j c d : lazy_inv s → callers s !! i = Some c → callers s !! j = Some d → l_kind c = GetOrCreate → l_kind d = GetOrCreate →
  l_pc c = PResolving → l_pc d = PResolving → i = j.
Proof.
  intros Hi Hc Hcd Hk Hkd Hpc Hpd.
  assert (initializing s = Some i) by (apply (lazy_owner _ Hi i c); [done|split; [done|by right]]).
  assert (initializing s = Some j) by (apply (lazy_owner _ Hi j d); [done|split; [done|by right]]). congruence.
Qed.
Lemma exec_bounded ev (s s' : Sys) : lazy_inv s → bounded s → exec_lazy ev s = Some s' → bounded s'.
Proof.
  intros Hi Hb. assert (Hmade : ∀ c, (∀ r, l_pc c ≠ PReturned r) → created_by c = 0%nat) by (intros [[] pc] Hn; unfold created_by; cbn in *; [done|]; destruct pc as [| | | |r|]; try done; by destruct (Hn r)).
  destruct ev as [k|i|i r|i]; cbn [exec_lazy].
  - intros [= <-]. destruct Hb as [Hs Hr Ht].
    assert (Hcr : creates (mkLazy (value s) (initializing s) (callers s ++ [mkCaller k match k with GetOrCreate => PCheck | Create => PResolving end]) (stored s)) = creates s).
    { unfold creates. cbn [callers]. rewrite fmap_app. induction (created_by <$> callers s) as [|n l IH]; [by destruct k|]. cbn [app sum_list sum_list_with foldr] in *. by rewrite <- IH. }
    split; rewrite ?Hcr; cbn [stored callers]; [done| |]; intros j c; [|intros v]; intros Hj; apply lookup_app_Some in Hj as [Hj|[_ Hj]];
      [by apply (Hr j)| |by apply (Ht j)|]; apply list_lookup_singleton_Some in Hj as [_ <-]; by destruct k.
  - destruct (callers s !! i) as [c|] eqn:Hc; simpl; [|done]. destruct (l_pc c) eqn:Hpc; try done.
    + assert (created_by c = 0%nat) by (apply Hmade; by rewrite Hpc). intros [= <-].
      destruct (lazy_get s) as [v|] eqn:Hv; [|by apply (bounded_step i PLock s c)].
      apply (bounded_step i _ s c); [done..|]. intros v' [= <-]. by apply cached_stored.
    + destruct (initializing s) eqn:Hh; [done|]. intros [= <-]. apply (bounded_step i PRecheck s c); [done| |done..]. apply Hmade. by rewrite Hpc.
    + assert (created_by c = 0%nat) by (apply Hmade; by rewrite Hpc). intros [= <-]. destruct (lazy_get s) as [v|] eqn:Hv.
      * apply (bounded_step i _ s c); [done..|]. intros v' [= <-]. by apply cached_stored.
      * apply (bounded_step i PResolving s c); [done..| |done]. intros _ _. rewrite (empty_stored s) by done. cbn. lia.
  - destruct (callers s !! i) as [c|] eqn:Hc; simpl; [|done]. destruct (l_pc c) eqn:Hpc; try done. intros [= <-].
    assert (created_by c = 0%nat) by (apply Hmade; by rewrite Hpc). destruct r as [v|e]; [|by apply (bounded_step i _ s c)].
    pose proof (bd_stored _ Hb). unfold return_, unlock. cbn [value initializing stored set_pc].
    change (callers (set_pc i (PReturned (Ok v)) (mkLazy (Some v) (initializing s) (callers s) (stored s ++ [v])))) with (callers (set_pc i (PReturned (Ok v)) s)).
    apply (bounded_move i (PReturned (Ok v)) s c); rewrite ?length_app; cbn [length]; try done.
    + destruct (l_kind c) eqn:Hk; unfold created_by; cbn [l_kind l_pc]; [|lia]. pose proof (bd_resolving _ Hb i c Hc Hk Hpc). lia.
    + set_solver.
    + intros j c' Hj Hc' Hk' Hpc'. unfold created_by. cbn [l_kind l_pc]. destruct (l_kind c) eqn:Hk.
      * by destruct Hj; apply (resolving_alone s j i c' c).
      * pose proof (bd_resolving _ Hb j c' Hc' Hk' Hpc'). lia.
    + intros v' [= <-]. set_solver.
  - destruct (callers s !! i) as [c|] eqn:Hc; simpl; [|done].
    destruct (l_pc c) eqn:Hpc; try done; intros [= <-]; (apply (bounded_step i PDropped s c); [done| |done..]); apply Hmade; by rewrite Hpc.
Qed.
Lemma run_bounded evs (s s' : Sys) : lazy_inv s → bounded s → run_lazy evs s = Some s' → bounded s'.
Proof.
  revert s. induction evs as [|ev evs IH]; intros s Hinv Hb; cbn; [by intros [= <-]|].
  intros (s1 & Hs1 & Hrun)%bind_Some. apply (IH s1); [by eapply exec_lazy_inv|by eapply exec_bounded|done].
Qed.
Lemma bounded_init : bounded (Lazy_capture : Sys).
Proof. split; cbn; [lia|done..]. Qed.

(** C37: A lazy value is initialized once. However the steps of its callers interleave
    and whichever of them are dropped half way, callers of [get_or_create] together
    store at most one value: there are never more than one above those that calls of
    [create] itself have stored, and no two of them run the resolver at the same
    time. The cell holds the value that was stored last, and a caller returns a value that
    was stored. If nobody calls [create], at most one value is ever stored, all
    successful callers return it and it stays in the cell. *)
Theorem lazy_initializes_once evs (s : Sys) : run_lazy evs Lazy_capture = Some s →
  (length (stored s) ≤ 1 + creates s)%nat ∧ lazy_get s = last (stored s) ∧
  (∀ i c v, callers s !! i = Some c → l_pc c = PReturned (Ok v) → v ∈ stored s) ∧
  (∀ i j c d, callers s !! i = Some c → callers s !! j = Some d → l_kind c = GetOrCreate → l_kind d = GetOrCreate →
     l_pc c = PResolving → l_pc d = PResolving → i = j) ∧
  (ECall Create ∉ evs → (length (stored s) ≤ 1)%nat ∧
     ∀ i c v, callers s !! i = Some c → l_pc c = PReturned (Ok v) → stored s = [v] ∧ lazy_get s = Some v).
Proof.
  intros Hrun. pose proof (run_lazy_inv _ _ _ lazy_inv_init Hrun) as Hi. pose proof (run_bounded _ _ _ lazy_inv_init bounded_init Hrun) as Hb.
  split; [exact (bd_stored _ Hb)|]. split; [exact (lazy_last _ Hi)|]. split; [exact (bd_returned _ Hb)|]. split; [intros i j c d; by apply resolving_alone|].
  intros Hev. pose proof (run_once _ _ _ lazy_inv_init once_init Hev Hrun) as Ho. split; [by apply once_stored|].
  intros i c v Hc Hv. pose proof (once_returned _ Ho i c v Hc Hv) as Hs. split; [done|]. unfold lazy_get. by rewrite (lazy_last _ Hi), Hs.
Qed.

(** A caller that has neither returned nor been dropped. *)
Definition waiting (c : Caller Hd E) : bool := match l_pc c with PReturned _ | PDropped => false | _ => true end.
(** No deadlock: while a call has not returned, some call can take a step, or its
    resolver is running. *)
Theorem lazy_never_stuck evs (s : Sys) i c : run_lazy evs Lazy_capture = Some s → callers s !! i = Some c → waiting c = true →
  ∃ j, is_Some (exec_lazy (EMove j) s) ∨ ∀ r, is_Some (exec_lazy (EResolved j r) s).
Proof.
  intros Hrun Hc Hw. pose proof (run_lazy_inv _ _ _ lazy_inv_init Hrun) as Hi. unfold waiting in Hw. cbn [exec_lazy].
  destruct (l_pc c) eqn:Hpc; try done; [exists i; left; rewrite Hc; cbn; rewrite Hpc; eauto| |exists i; left; rewrite Hc; cbn; rewrite Hpc; eauto|
    exists i; right; intros r; rewrite Hc; cbn; rewrite Hpc; eauto].
  destruct (initializing s) as [j|] eqn:Hj; [|exists i; left; rewrite Hc; cbn; rewrite Hpc; eauto].
  destruct (lazy_held _ Hi j Hj) as (d & Hd' & _ & [Hpd|Hpd]); exists j; [left|right; intros r]; rewrite Hd'; cbn; rewrite Hpd; eauto.
Qed.
End LazyFacts.

(** ** A deferred handle is of its own scope *)

Section SlotFacts.
Context {V Ht Rv : Type}.
Abbreviation Chain := (list (@ScopeContainer V Rv)).
Abbreviation W := (@World V Ht Rv).
Abbreviation Cell := (@DeferredCell V Ht).

Definition with_value (v : option Ht) (d : Cell) : Cell := mkDeferred (d_slot d) (d_qualifier d) (d_handle d) (d_name d) v.
(** What hydration with [chain] may make of a cell that is [mem]ber of the batch. *)
Definition filled (chain : Chain) (mem : Prop) (d d' : Cell) : Prop :=
  d' = with_value (d_value d') d ∧ (d_value d' = d_value d ∨ mem ∧ d_value d = None ∧ d_value d' = hydrated d chain).

Lemma filled_refl chain P d : filled chain P d d.
Proof. split; [by destruct d|by left]. Qed.
Lemma filled_trans chain (P Q R : Prop) d1 d2 d3 : (P → R) → (Q → R) → filled chain P d1 d2 → filled chain Q d2 d3 → filled chain R d1 d3.
Proof.
  intros HP HQ [E1 H1] [E2 H2]. split; [rewrite E2, E1; done|].
  destruct H2 as [E|(Hq & Hn & E)]; [rewrite E; destruct H1 as [?|(?&?&?)]; [by left|right; auto]|].
  right. split; [by apply HQ|]. assert (hydrated d2 chain = hydrated d1 chain) as Hh by (rewrite E1; done).
  split; [|by rewrite E, Hh]. destruct H1 as [H1|(_&?&_)]; [by rewrite <- H1|done].
Qed.
Lemma hydrate_spec i chain (w w' : W) r : hydrate i chain w = (r, w') →
  scopes w' = scopes w ∧ dropped w' = dropped w ∧ slots w' = slots w ∧ length (cells w') = length (cells w) ∧
  (∀ j d, cells w !! j = Some d → ∃ d', cells w' !! j = Some d' ∧ filled chain (j = i) d d' ∧ (r = Ok tt → j = i → is_Some (d_value d'))).
Proof.
  unfold hydrate. destruct (cells w !! i) as [d0|] eqn:Hi; [destruct (hydrated d0 chain) as [h|] eqn:Hh|]; intros [= <- <-].
  - repeat (split; [done|]). cbn [cells set_cell]. split; [by rewrite length_alter|]. intros j d Hj. destruct (decide (j = i)) as [->|Hne].
    + rewrite list_lookup_alter_eq, Hj. replace d0 with d in * by congruence. eexists. split; [done|]. split.
      * split; [by destruct d|]. cbn. destruct (d_value d); [by left|right; auto].
      * intros _ _. cbn. by destruct (d_value d).
    + rewrite list_lookup_alter_ne by done. exists d. split; [done|]. split; [apply filled_refl|done].
  - repeat (split; [done|]). intros j d Hj. exists d. split; [done|]. split; [apply filled_refl|done].
  - repeat (split; [done|]). intros j d Hj. exists d. split; [done|]. split; [apply filled_refl|]. congruence.
Qed.
Lemma hydrate_all_spec is_ chain (w w' : W) r : hydrate_all is_ chain w = (r, w') →
  scopes w' = scopes w ∧ dropped w' = dropped w ∧ slots w' = slots w ∧ length (cells w') = length (cells w) ∧
  (∀ j d, cells w !! j = Some d → ∃ d', cells w' !! j = Some d' ∧ filled chain (j ∈ is_) d d' ∧ (r = Ok tt → j ∈ is_ → is_Some (d_value d'))).
Proof.
  revert w. induction is_ as [|i is_ IH]; intros w; cbn [hydrate_all].
  - intros [= <- <-]. repeat (split; [done|]). intros j d Hj. exists d. split; [done|]. split; [apply filled_refl|set_solver].
  - destruct (hydrate i chain w) as [[[]|e] w1] eqn:H1; apply hydrate_spec in H1 as (E1&E2&E3&E4&Hc).
    + intros Hall. apply IH in Hall as (F1&F2&F3&F4&Hc'). rewrite F1, F2, F3, F4. repeat (split; [done|]).
      intros j d Hj. destruct (Hc j d Hj) as (d1 & Hj1 & Hf1 & Hs1). destruct (Hc' j d1 Hj1) as (d2 & Hj2 & Hf2 & Hs2).
      exists d2. split; [done|]. split; [by eapply filled_trans; [..|exact Hf1|exact Hf2]; set_solver|].
      intros Hr [->|Hin]%elem_of_cons; [|by apply Hs2]. destruct Hf2 as [_ [E|(Hin&_)]]; [rewrite E; by apply Hs1|by apply Hs2].
    + intros [= <- <-]. rewrite E1, E2, E3, E4. repeat (split; [done|]). intros j d Hj. destruct (Hc j d Hj) as (d1 & Hj1 & Hf1 & Hs1).
      exists d1. split; [done|]. split; [|done]. eapply filled_trans; [..|apply (filled_refl chain (j ∈ i :: is_))|exact Hf1]; set_solver.
Qed.
Lemma hydrate_all_back is_ chain (w w' : W) r : hydrate_all is_ chain w = (r, w') →
  ∀ j d', cells w' !! j = Some d' → ∃ d, cells w !! j = Some d ∧ filled chain (j ∈ is_) d d' ∧ (r = Ok tt → j ∈ is_ → is_Some (d_value d')).
Proof.
  intros (_&_&_&E4&Hc)%hydrate_all_spec j d' Hj.
  assert (is_Some (cells w !! j)) as [d Hd] by (apply lookup_lt_is_Some; rewrite <- E4; by eapply lookup_lt_Some).
  destruct (Hc j d Hd) as (d1 & Hj1 & Hf & Hs). exists d. by replace d' with d1 by congruence.
Qed.
Lemma filled_slot chain P d d' : filled chain P d d' → d_slot d' = d_slot d.
Proof. intros [-> _]. done. Qed.
Lemma filled_hydrated chain P d d' (chain' : Chain) : filled chain P d d' → hydrated d' chain' = hydrated d chain'.
Proof. intros [-> _]. done. Qed.
Lemma filled_same chain (P : Prop) d d' : filled chain P d d' → ¬ P → d' = d.
Proof. intros [E [Hv|[? _]]] Hn; [|done]. rewrite E, Hv. by destruct d. Qed.

Definition cell_ok (w : W) (d : Cell) : Prop :=
  ∃ st, slots w !! d_slot d = Some st ∧
  match container st with
  | None => d_value d = None
  | Some c => ∃ chain, scopes w !! c = Some chain ∧ (d_value d = None ∨ d_value d = hydrated d chain) ∧ (c ∉ dropped w → is_Some (d_value d))
  end.
Record slot_inv (w : W) : Prop := {
  inv_ids c : is_Some (scopes w !! c) → (c < size (scopes w))%nat;
  inv_pending s st i : slots w !! s = Some st → container st = None → (i ∈ deferred st ↔ ∃ d, cells w !! i = Some d ∧ d_slot d = s);
  inv_cell i d : cells w !! i = Some d → cell_ok w d;
  inv_attached s st c : slots w !! s = Some st → container st = Some c → is_Some (scopes w !! c) }.

Lemma slot_inv_init : slot_inv World_new.
Proof. split; cbn; [by intros c [? ?%lookup_empty_Some]|done..]. Qed.
Lemma slot_inv_scope (w : W) : slot_inv w → slot_inv (mkWorld (scopes w) (dropped w) (slots w ++ [mkSlot None []]) (cells w)).
Proof.
  intros [H1 H2 H3 H4]. split; cbn [scopes slots cells]; [done| | |].
  - intros s st i Hs Hc. apply lookup_app_Some in Hs as [Hs|[Hl Hs]]; [by apply H2|].
    apply list_lookup_singleton_Some in Hs as [Hz <-]. cbn. split; [set_solver|]. intros (d & Hd & <-).
    destruct (H3 i d Hd) as (st & Hst & _). apply lookup_lt_Some in Hst. lia.
  - intros i d Hd. destruct (H3 i d Hd) as (st & Hst & Hok). exists st. split; [by apply lookup_app_l_Some|done].
  - intros s st c Hs Hc. apply lookup_app_Some in Hs as [Hs|[_ Hs]]; [by apply (H4 s st)|]. by apply list_lookup_singleton_Some in Hs as [_ <-].
Qed.
Lemma slot_inv_drop c (w : W) : slot_inv w → slot_inv (mkWorld (scopes w) ({[c]} ∪ dropped w) (slots w) (cells w)).
Proof.
  intros [H1 H2 H3 H4]. split; [done..| |done]. intros i d Hd. destruct (H3 i d Hd) as (st & Hst & Hok). exists st. split; [done|].
  destruct (container st); [|done]. destruct Hok as (chain & Hch & Hv & Hs). exists chain. repeat split; [done..|].
  cbn. intros Hn. apply Hs. set_solver.
Qed.
(** The cell of a capture, not yet hydrated, in a slot that is attached. *)
Lemma slot_inv_hydrated s c st q H name chain (w w' : W) : slot_inv w → slots w !! s = Some st → container st = Some c → scopes w !! c = Some chain →
  hydrate (length (cells w)) chain (mkWorld (scopes w) (dropped w) (slots w) (cells w ++ [mkDeferred s q H name None])) = (Ok tt, w') → slot_inv w'.
Proof.
  intros [H1 H2 H3 H4] Hst Hc Hch Hh.
  assert (hydrate_all [length (cells w)] chain (mkWorld (scopes w) (dropped w) (slots w) (cells w ++ [mkDeferred s q H name None])) = (Ok tt, w')) as Hall
    by (cbn [hydrate_all]; by rewrite Hh).
  destruct (hydrate_all_spec _ _ _ _ _ Hall) as (E1&E2&E3&E4&Hc'). pose proof (hydrate_all_back _ _ _ _ _ Hall) as Hb.
  cbn [scopes dropped slots cells] in *. clear Hh Hall. split; [by rewrite E1|..].
  - intros s' st' i Hs' Hn. rewrite E3 in Hs'. rewrite (H2 s' st' i) by done. split.
    + intros (d & Hd & <-). destruct (Hc' i d) as (d' & Hd' & Hf & _); [by apply lookup_app_l_Some|]. exists d'. split; [done|by eapply filled_slot].
    + intros (d' & Hd' & <-). destruct (Hb i d' Hd') as (d & Hd & Hf & _). apply lookup_app_Some in Hd as [Hd|[_ Hd]].
      * exists d. split; [done|]. symmetry. by eapply filled_slot.
      * apply list_lookup_singleton_Some in Hd as [_ <-]. apply filled_slot in Hf. cbn in Hf. congruence.
  - intros i d' Hd'. destruct (Hb i d' Hd') as (d & Hd & Hf & Hs). apply lookup_app_Some in Hd as [Hd|[Hl Hd]].
    + apply filled_same in Hf; [subst d'|apply lookup_lt_Some in Hd; intros ->%list_elem_of_singleton; lia].
      destruct (H3 i d Hd) as (st' & Hst' & Hok). exists st'. rewrite E3. split; [done|]. by rewrite E1, E2.
    + apply list_lookup_singleton_Some in Hd as [Hz <-]. exists st. rewrite (filled_slot _ _ _ _ Hf), E3. split; [done|]. rewrite Hc, E1. exists chain.
      split; [done|]. rewrite (filled_hydrated _ _ _ _ chain Hf). destruct Hf as [_ [Hv|(_&_&Hv)]]; (split; [rewrite Hv; auto|]); intros _; (apply Hs; [done|]);
        apply list_elem_of_singleton; lia.
  - rewrite E1, E3. done.
Qed.
(** ... and in a slot that is not, or whose scope is gone. *)
Lemma slot_inv_waiting s st q H name (w : W) : slot_inv w → slots w !! s = Some st →
  (∀ c, container st = Some c → c ∈ dropped w ∧ is_Some (scopes w !! c)) →
  slot_inv (set_slot s (λ st, mkSlot (container st) (deferred st ++ [length (cells w)]))
    (mkWorld (scopes w) (dropped w) (slots w) (cells w ++ [mkDeferred s q H name None]))).
Proof.
  intros [H1 H2 H3 H4] Hst Hc. split; [done|..]; cbn [scopes slots cells set_slot].
  - intros s' st' i Hs' Hn. assert (∀ d, (cells w ++ [mkDeferred s q H name None]) !! i = Some d ↔ cells w !! i = Some d ∨ i = length (cells w) ∧ d = mkDeferred s q H name None) as Hlk.
    { intros d. rewrite lookup_app_Some, list_lookup_singleton_Some. split; [intros [?|(?&?&?)]; [by left|right; split; [lia|done]]|].
      intros [?|[-> ->]]; [by left|right]. split; [done|]. split; [lia|done]. }
    destruct (decide (s' = s)) as [->|Hne].
    + rewrite list_lookup_alter_eq, Hst in Hs'. injection Hs' as <-. cbn [container deferred] in *. rewrite elem_of_app, (H2 s st i), list_elem_of_singleton by done.
      setoid_rewrite Hlk. split.
      * intros [(d & Hd & Hs)| ->]; [exists d; auto|]. eexists. split; [by right|done].
      * intros (d & [Hd|[-> _]] & Hs); [left; by exists d|by right].
    + rewrite list_lookup_alter_ne in Hs' by done. rewrite (H2 s' st' i) by done. setoid_rewrite Hlk. split; [intros (d & Hd & Hs); exists d; auto|].
      intros (d & [Hd|[_ ->]] & Hs); [by exists d|cbn in Hs; congruence].
  - intros i d Hd. assert (∃ st', slots w !! d_slot d = Some st' ∧
      match container st' with None => d_value d = None | Some c => ∃ chain, scopes w !! c = Some chain ∧ (d_value d = None ∨ d_value d = hydrated d chain) ∧ (c ∉ dropped w → is_Some (d_value d)) end) as (st' & Hst' & Hok).
    { apply lookup_app_Some in Hd as [Hd|[_ Hd]]; [by apply (H3 i)|]. apply list_lookup_singleton_Some in Hd as [_ <-]. exists st. split; [done|].
      destruct (container st) as [c|]; [|done]. destruct (Hc c eq_refl) as [Hin [chain Hch]]. exists chain. split; [done|]. split; [by left|done]. }
    unfold cell_ok, set_slot. cbn [slots scopes dropped]. destruct (decide (d_slot d = s)) as [Hs|Hne].
    + rewrite Hs in Hst' |- *. rewrite list_lookup_alter_eq, Hst'. eexists. split; [done|]. done.
    + rewrite list_lookup_alter_ne by done. by exists st'.
  - intros s' st' c Hs' Hc'. destruct (decide (s' = s)) as [->|Hne].
    + rewrite list_lookup_alter_eq, Hst in Hs'. injection Hs' as <-. by apply (H4 s st).
    + rewrite list_lookup_alter_ne in Hs' by done. by apply (H4 s' st').
Qed.
Lemma slot_scope_Some s (w : W) chain : slot_scope s w = Some chain →
  ∃ st c, slots w !! s = Some st ∧ container st = Some c ∧ scopes w !! c = Some chain ∧ c ∉ dropped w.
Proof.
  unfold slot_scope, upgrade. intros (st & Hst & (c & Hc & Hu)%bind_Some)%bind_Some. case_bool_decide; [done|]. by exists st, c.
Qed.
Lemma slot_scope_None s (w : W) st : slot_inv w → slots w !! s = Some st → slot_scope s w = None →
  ∀ c, container st = Some c → c ∈ dropped w ∧ is_Some (scopes w !! c).
Proof.
  intros Hi Hst Hn c Hc. pose proof (inv_attached _ Hi s st c Hst Hc) as [chain Hch]. split; [|done].
  unfold slot_scope, upgrade in Hn. rewrite Hst in Hn. cbn in Hn. rewrite Hc in Hn. cbn in Hn. case_bool_decide; [done|congruence].
Qed.
Lemma slot_inv_capture s q H name (w w' : W) st : slot_inv w → slots w !! s = Some st → Deferred_capture s q H name w = (Ok tt, w') → slot_inv w'.
Proof.
  intros Hi Hst. unfold Deferred_capture, register_deferred.
  assert (slot_scope s (mkWorld (scopes w) (dropped w) (slots w) (cells w ++ [mkDeferred s q H name None])) = slot_scope s w) as -> by done.
  destruct (slot_scope s w) as [chain|] eqn:Hsc.
  - apply slot_scope_Some in Hsc as (st' & c & Hst' & Hc & Hch & _). intros Hh. by eapply slot_inv_hydrated.
  - intros [= <-]. apply (slot_inv_waiting s st); [done..|]. by eapply slot_scope_None.
Qed.
(** The slots's cells are those the attachment hydrates. *)
Lemma slot_inv_attach s st chain (w w' : W) r (dr : gset nat) : slot_inv w → slots w !! s = Some st → container st = None →
  slot_attach s (size (scopes w)) chain (mkWorld (<[size (scopes w) := chain]> (scopes w)) (dropped w) (slots w) (cells w)) = (r, w') →
  dropped w ⊆ dr → (r = Ok tt ∨ size (scopes w) ∈ dr) → slot_inv (mkWorld (scopes w') dr (slots w') (cells w')).
Proof.
  intros [H1 H2 H3 H4] Hst Hc Ha Hdr Hr. unfold slot_attach in Ha. cbn [slots] in Ha. rewrite Hst in Ha.
  destruct (hydrate_all_spec _ _ _ _ _ Ha) as (E1&E2&E3&E4&Hf). pose proof (hydrate_all_back _ _ _ _ _ Ha) as Hb.
  cbn [scopes dropped slots cells set_slot] in *. clear Ha. set (c := size (scopes w)) in *.
  assert (scopes w !! c = None) as Hfresh by (apply eq_None_not_Some; intros Hs%H1; lia).
  assert (Hne : ∀ s', s' ≠ s → slots w' !! s' = slots w !! s') by (intros s' ?; rewrite E3; by apply list_lookup_alter_ne).
  assert (slots w' !! s = Some (mkSlot (Some c) [])) as Heq by (rewrite E3, list_lookup_alter_eq, Hst; done).
  split; cbn [scopes dropped slots cells].
  - intros c'. rewrite E1, map_size_insert_None by done. intros [?|[_ ?%H1]]%lookup_insert_is_Some; lia.
  - intros s' st' i Hs' Hn. destruct (decide (s' = s)) as [->|Hs]; [rewrite Heq in Hs'; by injection Hs' as <-|].
    rewrite Hne in Hs' by done. rewrite (H2 s' st' i) by done. split.
    + intros (d & Hd & Hds). destruct (Hf i d Hd) as (d' & Hd' & Hfl & _). exists d'. split; [done|]. by rewrite (filled_slot _ _ _ _ Hfl).
    + intros (d' & Hd' & Hds). destruct (Hb i d' Hd') as (d & Hd & Hfl & _). exists d. split; [done|]. by rewrite <- (filled_slot _ _ _ _ Hfl).
  - intros i d' Hd'. destruct (Hb i d' Hd') as (d & Hd & Hfl & Hs). destruct (H3 i d Hd) as (st' & Hst' & Hok).
    unfold cell_ok. rewrite (filled_slot _ _ _ _ Hfl). cbn [slots scopes dropped]. destruct (decide (d_slot d = s)) as [Hds|Hds].
    + rewrite Hds in *. exists (mkSlot (Some c) []). split; [done|]. cbn [container]. exists chain. rewrite E1, lookup_insert_eq. split; [done|].
      assert (d_value d = None) as Hv by (replace st' with st in Hok by congruence; by rewrite Hc in Hok).
      rewrite (filled_hydrated _ _ _ _ chain Hfl). split; [destruct Hfl as [_ [E|(_&_&E)]]; rewrite E, ?Hv; auto|]. intros Hcd.
      apply Hs; [by destruct Hr|]. apply (H2 s st); [done..|]. by exists d.
    + rewrite Hne by done. exists st'. split; [done|].
      assert (d' = d) as -> by (eapply filled_same; [done|]; intros (d0 & ? & ?)%(H2 s st); [congruence|done..]).
      destruct (container st') as [c'|] eqn:Hc'; [|done]. destruct Hok as (chain' & Hch & Hv & Hsome). exists chain'.
      rewrite E1, lookup_insert_ne by congruence. repeat split; [done..|]. intros ?. apply Hsome. set_solver.
  - intros s' st' c' Hs' Hc'. rewrite E1. destruct (decide (s' = s)) as [->|Hs].
    + rewrite Heq in Hs'. injection Hs' as <-. cbn in Hc'. injection Hc' as <-. by rewrite lookup_insert_eq.
    + rewrite Hne in Hs' by done. apply lookup_insert_is_Some'. right. by eapply H4.
Qed.
Lemma exec_slot_inv ev (w : W) r : slot_inv w → exec_slot ev w = Some r → slot_inv r.2.
Proof.
  intros Hi. destruct ev as [|s q H name|s chain|c]; cbn [exec_slot].
  - intros [= <-]. by apply slot_inv_scope.
  - destruct (slots w !! s) as [st|] eqn:Hst; [|done]. cbn. destruct (Deferred_capture s q H name w) as [[[]|e] w'] eqn:Hc; intros [= <-]; [|done].
    by eapply slot_inv_capture.
  - destruct (slots w !! s) as [st|] eqn:Hst; [|done]. cbn. destruct (container st) eqn:Hc; [done|].
    destruct (slot_attach s (size (scopes w)) chain _) as [[[]|e] w'] eqn:Ha; intros [= <-]; cbn [snd].
    + pose proof (slot_inv_attach s st chain w w' _ (dropped w') Hi Hst Hc Ha) as Hinv.
      assert (dropped w' = dropped w) as Hd.
      { unfold slot_attach in Ha. cbn [slots] in Ha. rewrite Hst in Ha. by apply hydrate_all_spec in Ha as (_&->&_). }
      destruct w'; apply Hinv; [by rewrite Hd|by left].
    + apply (slot_inv_attach s st chain w w' _ _ Hi Hst Hc Ha); [|right; set_solver].
      assert (dropped w' = dropped w) as ->; [|set_solver].
      unfold slot_attach in Ha. cbn [slots] in Ha. rewrite Hst in Ha. by apply hydrate_all_spec in Ha as (_&->&_).
  - destruct (scopes w !! c); [|done]. intros [= <-]. by apply slot_inv_drop.
Qed.
Lemma run_slots_inv evs (w w' : W) : slot_inv w → run_slots evs w = Some w' → slot_inv w'.
Proof.
  revert w. induction evs as [|ev evs IH]; intros w Hi; cbn; [by intros [= <-]|].
  intros (r & Hr & Hrun)%bind_Some. apply (IH r.2); [by eapply exec_slot_inv|done].
Qed.

(** A deferred handle is of its own scope. After any sequence of captures, frozen
    scopes and dropped scopes, a handle whose scope can be reached holds what that
    scope resolves it to, wherever it was captured, before or after the scope was
    frozen; and what a handle holds never comes from any other scope. *)
Theorem deferred_is_of_its_scope evs (w : W) i d : run_slots evs World_new = Some w → cells w !! i = Some d →
  (∀ chain, slot_resolve (d_slot d) w = Ok chain → d_value d = hydrated d chain ∧ is_Some (d_value d)) ∧
  (∀ h, d_value d = Some h → ∃ st c chain, slots w !! d_slot d = Some st ∧ container st = Some c ∧ scopes w !! c = Some chain ∧ hydrated d chain = Some h).
Proof.
  intros Hrun Hd. pose proof (run_slots_inv _ _ _ slot_inv_init Hrun) as Hi. destruct (inv_cell _ Hi i d Hd) as (st & Hst & Hok). split.
  - intros chain. unfold slot_resolve. destruct (slot_scope (d_slot d) w) as [chain'|] eqn:Hsc; [|done]. intros [= ->].
    apply slot_scope_Some in Hsc as (st' & c & Hst' & Hc & Hch & Hnd). replace st' with st in * by congruence. rewrite Hc in Hok.
    destruct Hok as (chain' & Hch' & Hv & Hs). replace chain' with chain in * by congruence. specialize (Hs Hnd). split; [|done].
    destruct Hv as [Hv|Hv]; [|done]. rewrite Hv in Hs. by destruct Hs.
  - intros h Hv. destruct (container st) as [c|] eqn:Hc; [|congruence]. destruct Hok as (chain & Hch & Hor & _). exists st, c, chain.
    repeat split; [done..|]. destruct Hor; congruence.
Qed.
End SlotFacts.

(** ** A fresh value is made by its factory *)

Section FreshFacts.
Context {V Ht Rv : Type} (erase : ProviderDescriptor → @BoxedComponent V → @BoxedComponent V).
Context (registry : @ScopeRegistry V Ht Rv) (fuel : nat) (scope : list (@ScopeContainer V Rv)) (H : @Injectable V Ht).

(** [h] comes from running the registered factory of [concrete] on an empty store. *)
Definition made (concrete : TypeId) (erased : @BoxedComponent V → @BoxedComponent V) (h : Ht) : Prop :=
  ∃ d boxed, factory_backed registry !! concrete = Some d ∧ can_access scope (c_scope d) = true ∧
    construct_fresh_boxed erase registry fuel scope d = done boxed ∧ from_boxed H (erased boxed) = Some h.
Definition made_by (e : ProviderDescriptor * Ht) : Prop := made (concrete_id e.1) (erase e.1) e.2.
(** The providers a collection is made of. *)
Definition reachable (p : ProviderDescriptor) : Prop :=
  ∃ d, factory_backed registry !! concrete_id p = Some d ∧ can_access scope (c_scope d) = true.
#[local] Instance reachable_dec p : Decision (reachable p).
Proof.
  destruct (factory_backed registry !! concrete_id p) as [d|] eqn:E; [|right; intros (d & Hd & _); congruence].
  destruct (can_access scope (c_scope d)) eqn:Ha; [left; by exists d|right; intros (d' & Hd & Ha'); congruence].
Defined.

Lemma fresh_arc_made q h : fresh_arc erase registry fuel scope H q = done (Some h) →
  made (target H) id h ∨
  factory_backed registry !! target H = None ∧
  ∃ p, (match q with Some q => qualified_provider registry (target H) q | None => single_provider registry (target H) end) = Some p ∧ made_by (p, h).
Proof.
  unfold fresh_arc. destruct (factory_backed registry !! target H) as [d|] eqn:Ed.
  - destruct (can_access scope (c_scope d)) eqn:Ha; [|done]. cbn [negb]. intros (boxed & Hb & Hd)%run_bind_done. left. exists d, boxed.
    injection Hd as Hd. auto.
  - destruct (match q with Some q => _ | None => _ end) as [p|] eqn:Ep; [|done]. intros (d & Hd & Hr)%run_bind_done. right. split; [done|].
    exists p. split; [done|]. unfold fresh_factory in Hd. destruct (factory_backed registry !! concrete_id p) as [d'|] eqn:Ed'; [|done]. injection Hd as ->.
    destruct (can_access scope (c_scope d)) eqn:Ha; [|done]. cbn [negb] in Hr. apply run_bind_done in Hr as (boxed & Hb & Hr).
    exists d, boxed. injection Hr as Hr. auto.
Qed.
Lemma fresh_each_made name ps values : fresh_each erase registry fuel scope H name ps = done values →
  values.*1 = filter reachable ps ∧ Forall made_by values.
Proof.
  revert values. induction ps as [|p ps IH]; intros values; cbn [fresh_each]; [by intros [= <-]|].
  intros (d & Hd & Hr)%run_bind_done. unfold fresh_factory in Hd. destruct (factory_backed registry !! concrete_id p) as [d'|] eqn:Ed; [|done].
  injection Hd as ->. destruct (can_access scope (c_scope d)) eqn:Ha; cbn [negb] in Hr.
  - apply run_bind_done in Hr as (boxed & Hb & Hr). destruct (from_boxed H (erase p boxed)) as [h|] eqn:Eh; [|done].
    apply run_bind_done in Hr as (rest & Hrest & [= <-]). apply IH in Hrest as [Hf Hm]. rewrite filter_cons_True by (by exists d). split.
    + cbn. by rewrite Hf.
    + constructor; [by exists d, boxed|done].
  - apply IH in Hr as [Hf Hm]. rewrite filter_cons_False; [done|]. intros (d' & Hd' & Ha'). congruence.
Qed.
Lemma with_ordinals_sorted values ps : with_ordinals registry values = Some ps →
  ∃ ordered ns, ordered ≡ₚ values ∧ snd <$> sort_by ordinal_leb ps = ordered.*2 ∧
    Forall2 (λ e n, provider_ordinal registry e.1 = Some n) ordered ns ∧ Sorted le ns.
Proof.
  unfold with_ordinals. intros Hm%mapM_Some.
  assert (Forall2 (λ o e, provider_ordinal registry e.1 = Some o.1 ∧ e.2 = o.2) ps values) as Hf.
  { apply Forall2_flip. eapply Forall2_impl; [exact Hm|]. intros e o (n & Hn & [= <-])%bind_Some. done. }
  destruct (Permutation_Forall2 (symmetry (sort_by_Permutation ordinal_leb ps)) Hf) as (ordered & Hp & Ho).
  exists ordered, (sort_by ordinal_leb ps).*1. split; [by symmetry|].
  assert (Sorted (λ a b, ordinal_leb a b = true) (sort_by ordinal_leb ps)) as Hs
    by (apply sort_by_Sorted; unfold ordinal_leb; intros a b ?%Nat.leb_gt; apply Nat.leb_le; lia).
  clear Hp Hf Hm. induction Ho as [|o e os es [Hn He] Ho IH]; [by repeat constructor|]. apply Sorted_inv in Hs as [Hs Hh].
  destruct (IH Hs) as (IH1 & IH2 & IH3). cbn. rewrite IH1, He. repeat split; [by constructor|]. constructor; [done|].
  destruct Hh as [|o' os' Hle]; constructor. by apply Nat.leb_le.
Qed.

(** A [Fresh] handle never gives what a scope holds: its value is made by running
    the factory of its target, or of the provider its trait selects, in a scope that
    can reach it; a collection is of all the providers in reach, in provider order. *)
Theorem fresh_is_made_by_its_factory shape name q a : fresh_from_container erase registry fuel scope shape H name q = done a →
  match a with
  | GOption None => True
  | GOne h | GOption (Some h) =>
      made (target H) id h ∨ ∃ p,
        (match q with Some q => qualified_provider registry (target H) q | None => single_provider registry (target H) end) = Some p ∧ made_by (p, h)
  | GVec hs =>
      ∃ values ns, hs = values.*2 ∧ Forall made_by values ∧ values.*1 ≡ₚ filter reachable (providers_for_trait registry (target H)) ∧
        Forall2 (λ e n, provider_ordinal registry e.1 = Some n) values ns ∧ Sorted le ns
  | GMap hs =>
      ∃ values, hs = extend ∅ ((λ e, (p_qualifier e.1, e.2)) <$> values) ∧ Forall made_by values ∧
        values.*1 = filter reachable (providers_for_trait registry (target H))
  end.
Proof.
  destruct shape; cbn [fresh_from_container].
  - intros (o & Ho & Hr)%run_bind_done. destruct o as [h|]; [|done]. injection Hr as <-.
    apply fresh_arc_made in Ho as [?|(_ & p & ? & ?)]; [by left|right; by exists p].
  - intros (d & Hd & Hr)%run_bind_done. unfold fresh_factory in Hd. destruct (factory_backed registry !! target H) as [d'|] eqn:Ed; [|done].
    injection Hd as ->. destruct (can_access scope (c_scope d)) eqn:Ha; [|done]. cbn [negb] in Hr. apply run_bind_done in Hr as (boxed & Hb & Hr).
    destruct (from_boxed H boxed) as [h|] eqn:Eh; [|done]. injection Hr as <-. left. by exists d, boxed.
  - intros (o & Ho & Hr)%run_bind_done. injection Hr as <-. destruct o as [h|]; [|done].
    apply fresh_arc_made in Ho as [?|(_ & p & ? & ?)]; [by left|right; by exists p].
  - intros (values & Hv & Hr)%run_bind_done. destruct (with_ordinals registry values) as [ps|] eqn:Ep; [|done]. injection Hr as <-.
    apply fresh_each_made in Hv as [Hf Hm]. apply with_ordinals_sorted in Ep as (ordered & ns & Hp & Hs & Hn & Hsn).
    exists ordered, ns. split; [done|]. split; [by rewrite Hp|]. split; [by rewrite Hp, Hf|done].
  - intros (values & Hv & Hr)%run_bind_done. injection Hr as <-. apply fresh_each_made in Hv as [Hf Hm]. by exists values.
Qed.
End FreshFacts.

(** ** Two callers of one cell, and the handles of a root *)

(** The second caller checks before the first has stored, and waits. *)
Definition y_race : list (LazyEvent Z string) :=
  [ECall GetOrCreate; ECall GetOrCreate; EMove 0; EMove 1; EMove 0; EMove 0; EResolved 0 (Ok 7); EMove 1; EMove 1].
Example lazy_race : (λ s, (lazy_get s, l_pc <$> callers s)) <$> run_lazy y_race Lazy_capture = Some (Some 7, [PReturned (Ok 7); PReturned (Ok 7)]).
Proof. reflexivity. Qed.
(** The one that resolves may be dropped: the other takes over. *)
Example lazy_dropped :
  (λ s : LazySys Z string, (lazy_get s, l_pc <$> callers s)) <$>
    run_lazy (take 6 y_race ++ [EDrop 0; EMove 1; EMove 1; EResolved 1 (Err "down")]) Lazy_capture = Some (None, [PDropped; PReturned (Err "down")]).
Proof. reflexivity. Qed.
(** [create] does not take the mutex: two values, of which the last stays. *)
Example lazy_create_replaces :
  (λ s : LazySys Z string, (lazy_get s, l_pc <$> callers s)) <$>
    run_lazy (take 6 y_race ++ [ECall Create; EResolved 2 (Ok 8); EResolved 0 (Ok 9)]) Lazy_capture =
  Some (Some 9, [PReturned (Ok 9); PLock; PReturned (Ok 8)]).
Proof. reflexivity. Qed.
Definition y_created : list (LazyEvent Z string) := take 6 y_race ++ [ECall Create; EResolved 2 (Ok 8); EResolved 0 (Ok 9)].
Lemma lazy_initializes_once_witness :
  (∃ s, run_lazy y_race Lazy_capture = Some s ∧ lazy_get s = Some 7) ∧
  (∃ s, run_lazy y_created Lazy_capture = Some s ∧ creates s = 1%nat ∧ (length (stored s) ≤ 2)%nat ∧ lazy_get s = last (stored s)).
Proof.
  split; eexists; (split; [reflexivity|]).
  - destruct (lazy_initializes_once y_race _ eq_refl) as (_ & _ & _ & _ & Honce).
    refine (proj2 (proj2 (Honce _) 1%nat (mkCaller GetOrCreate (PReturned (Ok 7))) 7 _ _)); [|reflexivity..].
    intros Hin; repeat (apply elem_of_cons in Hin as [Hin|Hin]; [discriminate|]); by apply elem_of_nil in Hin.
  - destruct (lazy_initializes_once y_created _ eq_refl) as (Hb & Hl & _). split; [reflexivity|]. split; [exact Hb|exact Hl].
Defined.
Lemma lazy_never_stuck_witness : ∃ s : LazySys Z string, run_lazy (take 6 y_race) Lazy_capture = Some s ∧
  ∃ j, is_Some (exec_lazy (EMove j) s) ∨ ∀ r, is_Some (exec_lazy (EResolved j r) s).
Proof. eexists. split; [reflexivity|]. refine (lazy_never_stuck (take 6 y_race) _ 1 (mkCaller GetOrCreate PLock) _ _ _); reflexivity. Defined.

(** A deferred handle of ["Alpha"] and one of what is not there. *)
Definition y_events : list (SlotEvent (V := string) (Hd := string) (Rv := unit)) :=
  [EScope; ECapture 0 None (x_handle 1) "Alpha"; EScope; ECapture 1 None (x_handle 1) "Alpha"; EAttach 0 [x_root];
   ECapture 0 (Some "b") (x_handle 100) "dyn Trait"; ECapture 0 None (x_handle 9) "Peer"].
Definition y_world : World := from_option id World_new (run_slots y_events World_new).
Example deferred_of_a_root : d_value <$> cells y_world = [Some "Alpha"; None; Some "Beta"].
Proof. vm_compute. reflexivity. Qed.
Example deferred_of_a_dropped_scope :
  (λ w, (slot_resolve 0 w, (try_get (λ _, false)) <$> cells w)) <$> run_slots (y_events ++ [EDropScope 0]) World_new =
    Some (Err ScopeUnavailable, [None; None; None]).
Proof. vm_compute. reflexivity. Qed.
#[local] Instance DeferredCell_inhabited : Inhabited (@DeferredCell string string) := populate (mkDeferred 0 None (x_handle 0) "" None).
Lemma deferred_is_of_its_scope_witness : run_slots y_events World_new = Some y_world ∧ is_Some (d_value (cells y_world !!! 0%nat)).
Proof.
  assert (run_slots y_events World_new = Some y_world) as H by (vm_compute; reflexivity). split; [exact H|].
  refine (proj2 (proj1 (deferred_is_of_its_scope y_events y_world 0 (cells y_world !!! 0%nat) H _) [x_root] _)); vm_compute; reflexivity.
Defined.

(** ["Alpha"] and ["Beta"] have factories; what they make is not what the root holds. *)
Definition y_factories : gmap TypeId (ComponentDescriptor (@Program string string unit)) :=
  {[1 := x_built "Alpha" 1 (Return (Ok (mkBoxed (mkType "Alpha" "Alpha" 1) "new Alpha")));
    2 := x_built "Beta" 2 (Resolve (x_handle 1) (λ r, Return (match r with
      | Ok (Some a) => Ok (mkBoxed (mkType "Beta" "Beta" 2) ("new Beta of " ++ a)%string)
      | Ok None => Err (MissingComponent "Alpha")
      | Err e => Err e end)));
    3 := x_gamma]}.
Definition y_registry := ScopeRegistry_new x_transients y_factories x_providers x_plan.
Abbreviation y_fresh := (fresh_from_container x_erase y_registry 2 [x_root]).
Example fresh_samples :
  y_fresh FArc (x_handle 1) "Alpha" None = done (GOne "new Alpha") ∧
  y_fresh FArc (x_handle 100) "dyn Trait" (Some "b") = done (GOne "new Beta of Alpha") ∧
  y_fresh FOption (x_handle 100) "dyn Trait" None = done (GOption None) ∧
  y_fresh FVec (x_handle 100) "dyn Trait" None = done (GVec ["new Alpha"; "new Beta of Alpha"; "Gamma"]) ∧
  y_fresh FValue (x_handle 9) "Peer" None = raise (UnsupportedFreshFactory "Peer").
Proof. vm_compute. auto. Qed.
Lemma fresh_is_made_by_its_factory_witness :
  y_fresh FVec (x_handle 100) "dyn Trait" None = done (GVec ["new Alpha"; "new Beta of Alpha"; "Gamma"]) ∧
  ∃ values, ["new Alpha"; "new Beta of Alpha"; "Gamma"] = values.*2 ∧ Forall (made_by x_erase y_registry 2 [x_root] (x_handle 100)) values.
Proof.
  assert (y_fresh FVec (x_handle 100) "dyn Trait" None = done (GVec ["new Alpha"; "new Beta of Alpha"; "Gamma"])) as H by (vm_compute; reflexivity).
  split; [exact H|]. destruct (fresh_is_made_by_its_factory x_erase y_registry 2 [x_root] (x_handle 100) FVec "dyn Trait" None _ H) as (values & ns & Hv & Hm & _).
  by exists values.
Defined.
(** A [Fresh] handle of the root, before and after the root is dropped; and the root
    resolver, which keeps the first root it is given. *)
Example handles_of_a_dropped_root :
  fresh_create x_erase y_registry 2 0 None FArc (x_handle 1) "Alpha" y_world = done (GOne "new Alpha") ∧
  (λ w, fresh_create x_erase y_registry 2 0 None FArc (x_handle 1) "Alpha" w) <$> run_slots (y_events ++ [EDropScope 0]) World_new =
    Some (raise ScopeUnavailable) ∧
  (λ w, (root_component (root_attach 7 (root_attach 0 RootResolver_new)) (x_handle 1) "Alpha" w, root_component RootResolver_new (x_handle 1) "Alpha" w)) y_world =
    (Ok "Alpha", Err RootUnavailable).
Proof. vm_compute. auto. Qed.
