(* ===== verification/JobSchedule.v ===== *)
(** * JobSchedule: schedules and execution options of a job

    Models [crates/jobs/src/schedule.rs]. Durations and times are integers of
    nanoseconds. Parsing a duration is [humantime]'s, parsing a cron expression
    and its next occurrence are [croner]'s: arguments. *)
From S2P Require Import Prelude.

Inductive ScheduleKind := Interval | CronKind.
Inductive JobTimezone := Utc | Local.
Inductive OverlapPolicy := Skip | QueueOne | Allow | CancelPrevious.
#[export] Instance OverlapPolicy_eq_dec : EqDecision OverlapPolicy.
Proof. solve_decision. Defined.

Record JobOptions := mkOptions {
  run_on_startup : bool;
  timeout : option Z;
  jitter : option Z;
  overlap : OverlapPolicy;
  max_runtime : option Z;
  opt_timezone : option JobTimezone;
}.
(** [JobOptions::default] *)
Definition JobOptions_default : JobOptions := mkOptions false None None Skip None None.
(** [JobOptions::deadline] *)
Definition deadline (o : JobOptions) : option Z :=
  match timeout o, max_runtime o with
  | Some a, Some b => Some (Z.min a b)
  | Some a, None => Some a
  | None, Some b => Some b
  | None, None => None
  end.
(** [JobOptions::timezone] *)
Definition timezone (o : JobOptions) : JobTimezone := from_option id Utc (opt_timezone o).

Section Schedule.
Context {Cron DurationError CronError : Type}.
Inductive Schedule := Every (period : Z) | CronSchedule (cron : Cron).
Inductive ScheduleError :=
| IntervalError (expr : string) (source : DurationError)
| ZeroInterval (expr : string)
| CronInvalid (expr : string) (source : CronError).
Inductive ScheduleInfo := EveryInfo (period : Z) | CronInfo (pattern : string).

Context (parse_duration : string → result Z DurationError) (parse_cron : string → result Cron CronError)
  (pattern : Cron → string) (find_next_occurrence : Cron → JobTimezone → Z → option Z).

(** [Schedule::parse] *)
Definition Schedule_parse (kind : ScheduleKind) (raw : string) : result Schedule ScheduleError :=
  let expr := trim raw in
  match kind with
  | Interval =>
      match parse_duration expr with
      | Err source => Err (IntervalError raw source)
      | Ok period => if period =? 0 then Err (ZeroInterval raw) else Ok (Every period)
      end
  | CronKind =>
      match parse_cron expr with
      | Err source => Err (CronInvalid raw source)
      | Ok cron => Ok (CronSchedule cron)
      end
  end.
(** [Schedule::describe] *)
Definition describe (s : Schedule) : ScheduleInfo :=
  match s with Every period => EveryInfo period | CronSchedule cron => CronInfo (pattern cron) end.
(** [Schedule::next_cron_occurrence] *)
Definition next_cron_occurrence (s : Schedule) (after : Z) (tz : JobTimezone) : option Z :=
  match s with Every _ => None | CronSchedule cron => find_next_occurrence cron tz after end.

(** [NextFire] and [compute_next] of [run.rs]; [instant] is the monotonic clock,
    [now] the wall clock. *)
Inductive NextFire := FireInterval (at_ : Z) | FireCron (at_ : Z) | Never.
Definition compute_next (s : Schedule) (o : JobOptions) (instant now : Z) : NextFire :=
  match s with
  | Every period => if period =? 0 then Never else FireInterval (instant + period)
  | CronSchedule _ =>
      match next_cron_occurrence s now (timezone o) with Some at_ => FireCron at_ | None => Never end
  end.
(** [NextFire::as_wall_clock] *)
Definition as_wall_clock (f : NextFire) (paused : bool) (instant now : Z) : option Z :=
  if paused then None
  else match f with
       | FireInterval at_ => Some (now + Z.max 0 (at_ - instant))
       | FireCron at_ => Some at_
       | Never => None
       end.
(** How long [NextFire::sleep] sleeps; [None] is forever. *)
Definition sleep_for (f : NextFire) (instant now : Z) : option Z :=
  match f with
  | FireInterval at_ => Some (Z.max 0 (at_ - instant))
  | FireCron at_ => Some (Z.max 0 (at_ - now))
  | Never => None
  end.
End Schedule.
Arguments Schedule : clear implicits.

(** [jitter_delay], in milliseconds: a delay below the span, or none. *)
Definition jitter_delay (jitter_ns subsec_nanos run_id : Z) : Z :=
  let span := Z.max (jitter_ns / 1000000) 1 mod 2 ^ 64 in
  let seed := Z.lxor subsec_nanos ((run_id * 0x9E3779B97F4A7C15) mod 2 ^ 64) in
  seed mod span.
