(* ===== verification/JobEntry.v ===== *)
(** * JobEntry: the shared record of a scheduled job

    Models [crates/jobs/src/registry.rs]: the state of a job, what each control
    and bookkeeping operation does to it, and the registry of jobs. Every
    operation here holds one lock or is one atomic instruction, so it is one
    step; [JobRun] interleaves them.

    A run's token is a child of the job's token, so it is cancelled when the
    job's is or when it was cancelled itself; [cancelled_runs] holds the runs
    whose own token was cancelled. A [Notify] holds at most one permit. *)
From stdpp Require Import fin_sets.
From S2P Require Import Prelude JobSchedule.

Abbreviation JobId := Z.
Abbreviation JobRunId := Z.
Definition RECENT_RUNS_CAP : nat := 32.
(** [fetch_add(1)], [fetch_sub(1)] and [+= 1] on 64-bit words. *)
Definition word_succ (n : Z) : Z := (n + 1) mod 2 ^ 64.
Definition word_pred (n : Z) : Z := (n - 1) mod 2 ^ 64.

Inductive JobState := Scheduled | Running (run_id : JobRunId) | Paused | Cancelling | Cancelled.
Inductive JobTrigger := BySchedule | Manual.
Inductive JobRunOutcome := StillRunning | Success | Failed (msg : string) | TimedOut | RunCancelled.
#[export] Instance JobState_eq_dec : EqDecision JobState.
Proof. solve_decision. Defined.
#[export] Instance JobTrigger_eq_dec : EqDecision JobTrigger.
Proof. solve_decision. Defined.

Record JobRunSummary := mkSummary {
  s_run_id : JobRunId; trigger : JobTrigger; started_at : Z; finished_at : option Z; outcome : JobRunOutcome }.
(** [JobRunSummary::duration] *)
Definition duration (s : JobRunSummary) : option Z :=
  f ← finished_at s; if f <? started_at s then None else Some (f - started_at s).
Record JobProgress := mkProgress {
  phase : option string; current : option Z; total : option Z; message : option string }.
Record JobMetadata := mkMetadata {
  m_name : string; labels : list (string * string); description : option string }.

Section Entry.
Context {Cron : Type}.

Record Shared := mkShared {
  state : JobState;
  schedule : Schedule Cron;
  options : JobOptions;
  next_run_at : option Z;
  run_count : Z;
  failure_count : Z;
  skipped_count : Z;
  last_run : option JobRunSummary;
  recent : list JobRunSummary;
  paused : bool;
}.
Record JobEntry := mkEntry {
  id : JobId;
  metadata : JobMetadata;
  token_cancelled : bool;
  shared : Shared;
  progress : option JobProgress;
  wake : bool;
  triggered : bool;
  manual : list JobRunId;
  active : Z;
  pending : option (JobRunId * JobTrigger);
  run_token : option JobRunId;
  cancelled_runs : gset JobRunId;
  done : bool;
}.

Definition with_shared (f : Shared → Shared) (e : JobEntry) : JobEntry :=
  mkEntry (id e) (metadata e) (token_cancelled e) (f (shared e)) (progress e) (wake e) (triggered e) (manual e) (active e)
    (pending e) (run_token e) (cancelled_runs e) (done e).
Definition set_state (s : JobState) (sh : Shared) : Shared :=
  mkShared s (schedule sh) (options sh) (next_run_at sh) (run_count sh) (failure_count sh) (skipped_count sh) (last_run sh)
    (recent sh) (paused sh).
Definition set_paused (b : bool) (s : JobState) (sh : Shared) : Shared :=
  mkShared s (schedule sh) (options sh) (next_run_at sh) (run_count sh) (failure_count sh) (skipped_count sh) (last_run sh)
    (recent sh) b.
Definition set_wake (b : bool) (e : JobEntry) : JobEntry :=
  mkEntry (id e) (metadata e) (token_cancelled e) (shared e) (progress e) b (triggered e) (manual e) (active e)
    (pending e) (run_token e) (cancelled_runs e) (done e).
Definition set_triggered (b : bool) (m : list JobRunId) (e : JobEntry) : JobEntry :=
  mkEntry (id e) (metadata e) (token_cancelled e) (shared e) (progress e) (wake e) b m (active e)
    (pending e) (run_token e) (cancelled_runs e) (done e).
Definition set_progress (p : option JobProgress) (e : JobEntry) : JobEntry :=
  mkEntry (id e) (metadata e) (token_cancelled e) (shared e) p (wake e) (triggered e) (manual e) (active e)
    (pending e) (run_token e) (cancelled_runs e) (done e).
Definition set_active (n : Z) (e : JobEntry) : JobEntry :=
  mkEntry (id e) (metadata e) (token_cancelled e) (shared e) (progress e) (wake e) (triggered e) (manual e) n
    (pending e) (run_token e) (cancelled_runs e) (done e).
Definition set_pending (p : option (JobRunId * JobTrigger)) (e : JobEntry) : JobEntry :=
  mkEntry (id e) (metadata e) (token_cancelled e) (shared e) (progress e) (wake e) (triggered e) (manual e) (active e)
    p (run_token e) (cancelled_runs e) (done e).
Definition set_token (t : option JobRunId) (c : gset JobRunId) (e : JobEntry) : JobEntry :=
  mkEntry (id e) (metadata e) (token_cancelled e) (shared e) (progress e) (wake e) (triggered e) (manual e) (active e)
    (pending e) t c (done e).

(** [JobEntry::new] *)
Definition JobEntry_new (id_ : JobId) (metadata_ : JobMetadata) (schedule_ : Schedule Cron) (options_ : JobOptions) : JobEntry :=
  mkEntry id_ metadata_ false (mkShared Scheduled schedule_ options_ None 0 0 0 None [] false) None false false [] 0 None None ∅ false.

(** ** Control *)

Definition is_cancelled (e : JobEntry) : bool := token_cancelled e.
Definition is_paused (e : JobEntry) : bool := paused (shared e).
Definition set_next_run_at (at_ : option Z) (e : JobEntry) : JobEntry :=
  with_shared (λ sh, mkShared (state sh) (schedule sh) (options sh) at_ (run_count sh) (failure_count sh) (skipped_count sh)
                       (last_run sh) (recent sh) (paused sh)) e.
Definition begin_cancel (e : JobEntry) : JobEntry :=
  mkEntry (id e) (metadata e) true (set_state Cancelling (shared e)) (progress e) (wake e) (triggered e) (manual e) (active e)
    (pending e) (run_token e) (cancelled_runs e) (done e).
(** What dropping the scheduler, whose token is the parent, does to the token. *)
Definition cancel_token (e : JobEntry) : JobEntry :=
  mkEntry (id e) (metadata e) true (shared e) (progress e) (wake e) (triggered e) (manual e) (active e)
    (pending e) (run_token e) (cancelled_runs e) (done e).
Definition mark_cancelled (e : JobEntry) : JobEntry :=
  mkEntry (id e) (metadata e) (token_cancelled e) (set_state Cancelled (shared e)) (progress e) (wake e) (triggered e) (manual e)
    (active e) (pending e) (run_token e) (cancelled_runs e) true.
Definition pause (e : JobEntry) : bool * JobEntry :=
  if paused (shared e) then (false, e)
  else (true, set_wake true (with_shared (λ sh, set_paused true (match state sh with Scheduled => Paused | s => s end) sh) e)).
Definition resume (e : JobEntry) : bool * JobEntry :=
  if paused (shared e)
  then (true, set_wake true (with_shared (λ sh, set_paused false (match state sh with Paused => Scheduled | s => s end) sh) e))
  else (false, e).
Definition reschedule (s : Schedule Cron) (e : JobEntry) : JobEntry :=
  set_wake true (with_shared (λ sh, mkShared (state sh) s (options sh) (next_run_at sh) (run_count sh) (failure_count sh)
                                      (skipped_count sh) (last_run sh) (recent sh) (paused sh)) e).

(** ** Manual runs *)

(** [next_run_id], over the counter the scheduler shares: the id and the counter. *)
Definition next_run_id (run_ids : Z) : JobRunId * Z := (run_ids, word_succ run_ids).
Definition trigger_manual (run_ids : Z) (e : JobEntry) : JobRunId * Z * JobEntry :=
  let '(run_id, run_ids') := next_run_id run_ids in
  (run_id, run_ids', set_triggered true (manual e ++ [run_id]) e).
Definition take_manual (e : JobEntry) : list JobRunId * JobEntry := (manual e, set_triggered (triggered e) [] e).

(** ** The overlap guard *)

Definition enter_run (e : JobEntry) : JobEntry := set_active (word_succ (active e)) e.
Definition mark_pending (run_id : JobRunId) (t : JobTrigger) (e : JobEntry) : JobEntry :=
  match pending e with None => set_pending (Some (run_id, t)) e | Some _ => e end.
Definition set_run_token (run_id : JobRunId) (e : JobEntry) : JobEntry := set_token (Some run_id) (cancelled_runs e) e.
Definition clear_run_token (run_id : JobRunId) (e : JobEntry) : JobEntry :=
  match run_token e with
  | Some owner => if owner =? run_id then set_token None (cancelled_runs e) e else e
  | None => e
  end.
Definition cancel_active_run (e : JobEntry) : JobEntry :=
  match run_token e with Some owner => set_token (Some owner) ({[owner]} ∪ cancelled_runs e) e | None => e end.
(** The two instructions of [exit_run]. *)
Definition exit_active (e : JobEntry) : JobEntry := set_active (word_pred (active e)) e.
Definition take_pending (e : JobEntry) : option (JobRunId * JobTrigger) * JobEntry := (pending e, set_pending None e).
Definition run_cancelled (run_id : JobRunId) (e : JobEntry) : bool := token_cancelled e || bool_decide (run_id ∈ cancelled_runs e).

(** ** Bookkeeping *)

Definition is_winding_down (s : JobState) : bool := match s with Cancelling | Cancelled => true | _ => false end.
(** [while recent.len() > CAP { recent.pop_front() }] *)
Definition trim_recent (l : list JobRunSummary) : list JobRunSummary := drop (length l - RECENT_RUNS_CAP) l.
Definition record_start_shared (run_id : JobRunId) (t : JobTrigger) (at_ : Z) (sh : Shared) : Shared :=
  let summary := mkSummary run_id t at_ None StillRunning in
  mkShared (if is_winding_down (state sh) then state sh else Running run_id) (schedule sh) (options sh) (next_run_at sh)
    (run_count sh) (failure_count sh) (skipped_count sh) (Some summary) (trim_recent (recent sh ++ [summary])) (paused sh).
Definition record_start (run_id : JobRunId) (t : JobTrigger) (at_ : Z) (e : JobEntry) : JobEntry :=
  with_shared (record_start_shared run_id t at_) (set_progress None e).
Definition record_skipped (e : JobEntry) : JobEntry :=
  with_shared (λ sh, mkShared (state sh) (schedule sh) (options sh) (next_run_at sh) (run_count sh) (failure_count sh)
                       (word_succ (skipped_count sh)) (last_run sh) (recent sh) (paused sh)) e.
Definition finalize (run_id : JobRunId) (at_ : Z) (o : JobRunOutcome) (s : JobRunSummary) : JobRunSummary :=
  if s_run_id s =? run_id then mkSummary (s_run_id s) (trigger s) (started_at s) (Some at_) o else s.
Definition is_failure (o : JobRunOutcome) : bool := match o with Failed _ | TimedOut => true | _ => false end.
(** [record_finish] after it has read [active] into [last_active]. *)
Definition record_finish_shared (last_active : bool) (run_id : JobRunId) (at_ : Z) (o : JobRunOutcome) (sh : Shared) : Shared :=
  mkShared
    (if negb (is_winding_down (state sh)) && last_active then (if paused sh then Paused else Scheduled) else state sh)
    (schedule sh) (options sh) (next_run_at sh) (word_succ (run_count sh))
    (if is_failure o then word_succ (failure_count sh) else failure_count sh) (skipped_count sh)
    (finalize run_id at_ o <$> last_run sh) (finalize run_id at_ o <$> recent sh) (paused sh).
Definition last_active (e : JobEntry) : bool := active e <=? 1.
Definition record_finish (last : bool) (run_id : JobRunId) (at_ : Z) (o : JobRunOutcome) (e : JobEntry) : JobEntry :=
  with_shared (record_finish_shared last run_id at_ o) (if last then set_progress None e else e).

(** [JobEntry::info]; the pattern text of a cron schedule is [croner]'s. *)
Record JobInfo := mkInfo {
  i_id : JobId; i_name : string; i_schedule : ScheduleInfo; i_state : JobState; i_next_run_at : option Z;
  i_last_run : option JobRunSummary; i_progress : option JobProgress; i_run_count : Z; i_failure_count : Z;
  i_skipped_count : Z; i_labels : list (string * string); i_description : option string }.
Definition info (pattern : Cron → string) (e : JobEntry) : JobInfo :=
  mkInfo (id e) (m_name (metadata e)) (describe pattern (schedule (shared e))) (state (shared e)) (next_run_at (shared e))
    (last_run (shared e)) (progress e) (run_count (shared e)) (failure_count (shared e)) (skipped_count (shared e))
    (labels (metadata e)) (description (metadata e)).

(** ** [JobRegistry] *)

Abbreviation JobRegistry := (gmap JobId JobEntry).
Definition registry_insert (e : JobEntry) (r : JobRegistry) : JobRegistry := <[id e := e]> r.
Definition registry_remove (i : JobId) (r : JobRegistry) : JobRegistry := delete i r.
(** [by_name] finds the first match of the map's iteration, an argument. *)
Definition registry_by_name (iteration : list JobId) (n : string) (r : JobRegistry) : option JobEntry :=
  head (omap (λ i, e ← r !! i; if bool_decide (m_name (metadata e) = n) then Some e else None) iteration).
End Entry.
Arguments JobEntry : clear implicits.
Arguments Shared : clear implicits.
Arguments JobInfo : clear implicits.
