(* ===== verification/JobRun.v ===== *)
(** * JobRun: the driver loop and the runs of a job, interleaved

    Models [crates/jobs/src/run.rs]. One driver task and any number of run tasks
    share a [JobEntry]; other threads call its control operations. A step is one
    lock section, one atomic instruction or one wait; an [Event] says who moves
    and how a nondeterministic wait ends, so a schedule is a list of events and
    can be executed. The steps between two shared accesses of one task are one
    step, and so are the two lock sections of [record_start] and of
    [record_finish], of which the first only clears the progress snapshot, and a
    control call with the notification or cancellation it ends with. *)
From stdpp Require Import fin_sets relations.
From S2P Require Import Prelude JobSchedule JobEntry.

Section Run.
Context {Cron : Type}.
Abbreviation Entry := (JobEntry Cron).

(** [start_run], between its shared accesses. *)
Inductive Start := StartEnter | StartToken | StartSpawn.

(** Where an [execute_run] task stands. *)
Inductive RunPc :=
| RJitter                                  (* the jitter delay *)
| RRecordStart
| RBody                                    (* [run_body] *)
| RPanicked                                (* the body panicked: the task is gone, nothing after it runs *)
| RReadActive (o : JobRunOutcome)          (* [record_finish] reads the count *)
| RRecordFinish (o : JobRunOutcome) (last : bool)
| RClearToken
| RExit                                    (* [exit_run]: the count *)
| RTakePending                             (* [exit_run]: the deferred firing *)
| RStart (st : Start) (next : JobRunId) (t : JobTrigger).
Record RunTask := mkTask { r_id : JobRunId; r_trigger : JobTrigger; r_pc : RunPc }.

(** Where the [drive_job] task stands; [rest] are the firings still to apply. *)
Abbreviation Firing := (JobTrigger * option JobRunId)%type.
Inductive DriverPc :=
| DStartup
| DLoop                                     (* waiting in [select!] *)
| DFire (rest : list Firing)
| DCheck (run_id : JobRunId) (t : JobTrigger) (rest : list Firing)
| DSkip (rest : list Firing)
| DPend (run_id : JobRunId) (t : JobTrigger) (rest : list Firing)
| DCancelPrevious (run_id : JobRunId) (t : JobTrigger) (rest : list Firing)
| DStart (st : Start) (run_id : JobRunId) (t : JobTrigger) (rest : list Firing)
| DExit
| DOnExit
| DDone.

Record Sys := mkSys {
  entry : Entry; run_ids : Z; driver : DriverPc; tasks : list RunTask; registered : bool }.
Definition initial (e : Entry) (run_ids_ : Z) : Sys := mkSys e run_ids_ DStartup [] true.

(** What other threads do: the control calls, [JobRunContext::progress] (a context
    can be cloned and kept), dropping the scheduler, whose token is the parent, and
    another job taking an id from the shared counter. *)
Inductive Control :=
| CPause | CResume | CReschedule (s : Schedule Cron) | CTrigger | CCancel
| CProgress (p : JobProgress)
| CDropScheduler
| COtherJob.
(** How the body of a run ends. *)
Inductive BodyEnd := Returns (o : JobRunOutcome) | Panics.
(** How [select!] of the loop returns. *)
Inductive Select := SCancelled | SWoken | STriggered | STick.
Inductive Event :=
| EControl (c : Control)
| ENextRunAt (at_ : option Z)
| ESelect (c : Select)
| EDriver
| ERun (i : nat) (now : Z) (o : BodyEnd).

Definition set_entry (e : Entry) (s : Sys) : Sys := mkSys e (run_ids s) (driver s) (tasks s) (registered s).
Definition set_driver (d : DriverPc) (s : Sys) : Sys := mkSys (entry s) (run_ids s) d (tasks s) (registered s).
Definition set_tasks (ts : list RunTask) (s : Sys) : Sys := mkSys (entry s) (run_ids s) (driver s) ts (registered s).

Definition exec_control (c : Control) (s : Sys) : Sys :=
  match c with
  | CPause => set_entry (pause (entry s)).2 s
  | CResume => set_entry (resume (entry s)).2 s
  | CReschedule sc => set_entry (reschedule sc (entry s)) s
  | CTrigger =>
      let '(_, run_ids', e) := trigger_manual (run_ids s) (entry s) in
      mkSys e run_ids' (driver s) (tasks s) (registered s)
  | CCancel => set_entry (begin_cancel (entry s)) s
  | CProgress p => set_entry (set_progress (Some p) (entry s)) s
  | CDropScheduler => set_entry (cancel_token (entry s)) s
  | COtherJob => mkSys (entry s) (next_run_id (run_ids s)).2 (driver s) (tasks s) (registered s)
  end.

(** The biased [select!]: the first branch that is ready is taken. *)
Definition exec_select (c : Select) (s : Sys) : option Sys :=
  match driver s with
  | DLoop =>
      let e := entry s in
      match c with
      | SCancelled => if is_cancelled e then Some (set_driver DExit s) else None
      | SWoken => if negb (is_cancelled e) && wake e then Some (set_entry (set_wake false e) s) else None
      | STriggered =>
          if negb (is_cancelled e) && negb (wake e) && triggered e then
            let '(ids, e') := take_manual (set_triggered false (manual e) e) in
            Some (set_driver (DFire ((λ i, (Manual, Some i)) <$> ids)) (set_entry e' s))
          else None
      | STick =>
          if negb (is_cancelled e) && negb (wake e) && negb (triggered e) then
            Some (set_driver (if is_paused e then DLoop else DFire [(BySchedule, None)]) s)
          else None
      end
  | _ => None
  end.

(** One shared access of [start_run]; [None] once the run is spawned. *)
Definition exec_start (st : Start) (run_id : JobRunId) (e : Entry) : Entry * option Start :=
  match st with
  | StartEnter =>
      (enter_run e, Some (if bool_decide (overlap (options (shared e)) = CancelPrevious) then StartToken else StartSpawn))
  | StartToken => (set_run_token run_id e, Some StartSpawn)
  | StartSpawn => (e, None)
  end.
Definition spawned (run_id : JobRunId) (t : JobTrigger) : RunTask := mkTask run_id t RJitter.

(** The driver between two waits: [maybe_start_run] for every firing. *)
Definition exec_driver (s : Sys) : option Sys :=
  let e := entry s in
  match driver s with
  | DStartup =>
      Some (set_driver (if run_on_startup (options (shared e)) && negb (is_cancelled e) then DFire [(BySchedule, None)] else DLoop) s)
  | DLoop | DDone => None
  | DFire [] => Some (set_driver DLoop s)
  | DFire ((t, Some run_id) :: rest) => Some (set_driver (DCheck run_id t rest) s)
  | DFire ((t, None) :: rest) =>
      let '(run_id, run_ids') := next_run_id (run_ids s) in
      Some (mkSys e run_ids' (DCheck run_id t rest) (tasks s) (registered s))
  | DCheck run_id t rest =>
      Some (set_driver
        (if 0 <? active e then
           match overlap (options (shared e)) with
           | Skip => DSkip rest
           | QueueOne => DPend run_id t rest
           | CancelPrevious => DCancelPrevious run_id t rest
           | Allow => DStart StartEnter run_id t rest
           end
         else DStart StartEnter run_id t rest) s)
  | DSkip rest => Some (set_driver (DFire rest) (set_entry (record_skipped e) s))
  | DPend run_id t rest => Some (set_driver (DFire rest) (set_entry (mark_pending run_id t e) s))
  | DCancelPrevious run_id t rest =>
      Some (set_driver (DStart StartEnter run_id t rest) (set_entry (cancel_active_run e) s))
  | DStart st run_id t rest =>
      let '(e', next) := exec_start st run_id e in
      Some (match next with
            | Some st' => set_driver (DStart st' run_id t rest) (set_entry e' s)
            | None => set_tasks (tasks s ++ [spawned run_id t]) (set_driver (DFire rest) (set_entry e' s))
            end)
  | DExit => Some (set_driver DOnExit (set_entry (mark_cancelled e) s))
  | DOnExit => Some (mkSys e (run_ids s) DDone (tasks s) false)
  end.

(** The outcomes [run_body] can return now. *)
Definition body_returns (e : Entry) (run_id : JobRunId) (o : JobRunOutcome) : bool :=
  match o with
  | Success | Failed _ => true
  | TimedOut => bool_decide (is_Some (deadline (options (shared e))))
  | RunCancelled => run_cancelled run_id e
  | StillRunning => false
  end.
Definition goto (pc : RunPc) (r : RunTask) : option RunTask := Some (mkTask (r_id r) (r_trigger r) pc).
(** One step of a run task: the entry, what becomes of the task, the task it spawns. *)
Definition exec_task (now : Z) (o : BodyEnd) (e : Entry) (r : RunTask) :
    option (Entry * option RunTask * list RunTask) :=
  match r_pc r with
  | RJitter => Some (e, goto RRecordStart r, [])
  | RRecordStart => Some (record_start (r_id r) (r_trigger r) now e, goto RBody r, [])
  | RBody =>
      match o with
      | Returns o => if body_returns e (r_id r) o then Some (e, goto (RReadActive o) r, []) else None
      | Panics => Some (e, goto RPanicked r, [])
      end
  | RPanicked => None
  | RReadActive o' => Some (e, goto (RRecordFinish o' (last_active e)) r, [])
  | RRecordFinish o' last => Some (record_finish last (r_id r) now o' e, goto RClearToken r, [])
  | RClearToken => Some (clear_run_token (r_id r) e, goto RExit r, [])
  | RExit => Some (exit_active e, goto RTakePending r, [])
  | RTakePending =>
      let '(p, e') := take_pending e in
      Some (e', match p with
                | Some (next, t) => if is_cancelled e then None else goto (RStart StartEnter next t) r
                | None => None
                end, [])
  | RStart st next t =>
      let '(e', st') := exec_start st next e in
      Some (match st' with
            | Some st' => (e', goto (RStart st' next t) r, [])
            | None => (e', None, [spawned next t])
            end)
  end.
Definition exec_run (i : nat) (now : Z) (o : BodyEnd) (s : Sys) : option Sys :=
  r ← tasks s !! i;
  '(e', r', new) ← exec_task now o (entry s) r;
  Some (set_tasks (match r' with Some r' => <[i := r']> (tasks s) | None => delete i (tasks s) end ++ new) (set_entry e' s)).

Definition exec (ev : Event) (s : Sys) : option Sys :=
  match ev with
  | EControl c => Some (exec_control c s)
  | ENextRunAt at_ => match driver s with DLoop => Some (set_entry (set_next_run_at at_ (entry s)) s) | _ => None end
  | ESelect c => exec_select c s
  | EDriver => exec_driver s
  | ERun i now o => exec_run i now o s
  end.
Fixpoint exec_all (evs : list Event) (s : Sys) : option Sys :=
  match evs with [] => Some s | ev :: evs' => s' ← exec ev s; exec_all evs' s' end.

Definition step (s s' : Sys) : Prop := ∃ ev, exec ev s = Some s'.
Definition reachable (e : Entry) (run_ids_ : Z) (s : Sys) : Prop := rtc step (initial e run_ids_) s.

Lemma exec_all_reachable evs s s' : exec_all evs s = Some s' → rtc step s s'.
Proof.
  revert s. induction evs as [|ev evs IH]; intros s; simpl; [by intros [= ->]|].
  destruct (exec ev s) as [s1|] eqn:Hev; simpl; [|done]. intros H. eapply rtc_l; [by exists ev|]. by apply IH.
Qed.

(** A rule-induction principle over the events. *)
Lemma reachable_ind (P : Sys → Prop) e run_ids_ :
  P (initial e run_ids_) → (∀ ev s s', P s → exec ev s = Some s' → P s') → ∀ s, reachable e run_ids_ s → P s.
Proof.
  intros H0 Hstep s Hs. unfold reachable in Hs. remember (initial e run_ids_) as s0 eqn:E. revert H0. clear E.
  induction Hs as [|s0 s1 s2 [ev Hev] _ IH]; intros H0; [done|]. apply IH. by eapply Hstep.
Qed.

(** ** The count of runs in flight *)

Definition start_counted (st : Start) : Z := match st with StartEnter => 0 | _ => 1 end.
Definition task_counted (r : RunTask) : Z :=
  match r_pc r with RTakePending => 0 | RStart st _ _ => start_counted st | _ => 1 end.
Definition driver_counted (d : DriverPc) : Z := match d with DStart st _ _ _ => start_counted st | _ => 0 end.
(** Runs that were started and have not yet left. *)
Definition tasks_counted (ts : list RunTask) : Z := foldr (λ r n, task_counted r + n) 0 ts.
Definition in_flight (s : Sys) : Z := tasks_counted (tasks s) + driver_counted (driver s).

Lemma counted_bounds r : 0 ≤ task_counted r ≤ 1.
Proof. unfold task_counted, start_counted. destruct (r_pc r) as [| | | | | | | | |[]]; lia. Qed.
Lemma tasks_counted_nonneg ts : 0 ≤ tasks_counted ts.
Proof. induction ts as [|r ts IH]; simpl; [done|]. pose proof (counted_bounds r). lia. Qed.
Lemma tasks_counted_app ts ts' : tasks_counted (ts ++ ts') = tasks_counted ts + tasks_counted ts'.
Proof. induction ts as [|r ts IH]; simpl; [done|]. rewrite IH. lia. Qed.
Lemma tasks_counted_split ts i r :
  ts !! i = Some r →
  tasks_counted ts = task_counted r + tasks_counted (delete i ts) ∧
  ∀ r', tasks_counted (<[i := r']> ts) = task_counted r' + tasks_counted (delete i ts).
Proof.
  revert i. induction ts as [|r0 ts IH]; intros [|i]; simpl; try done; [by intros [= ->]|].
  intros [Hd Hi]%IH. split; [lia|]. intros r'. rewrite Hi. lia.
Qed.

Lemma driver_counted_nonneg d : 0 ≤ driver_counted d.
Proof. unfold driver_counted, start_counted. destruct d as [| | | | | | |[]| | |]; lia. Qed.

(** ** One task step

    Every step of a task, seen through the count. *)
Lemma exec_start_active st run_id (e : Entry) e' st' :
  exec_start st run_id e = (e', st') →
  shared e' = shared e ∧ pending e' = pending e ∧
  match st with StartEnter => active e' = word_succ (active e) | _ => active e' = active e end ∧
  match st' with Some st' => start_counted st' = 1 | None => st = StartSpawn end.
Proof. destruct st; simpl; intros [= <- <-]; [|done..]. by destruct (bool_decide _). Qed.
Lemma frame_active (e : Entry) :
  (∀ i, active (clear_run_token i e) = active e) ∧ active (cancel_active_run e) = active e ∧
  (∀ i t, active (mark_pending i t e) = active e) ∧ active (pause e).2 = active e ∧ active (resume e).2 = active e ∧
  (∀ last i t o, active (record_finish last i t o e) = active e).
Proof.
  unfold clear_run_token, cancel_active_run, mark_pending, pause, resume, record_finish.
  split; [intros i; destruct (run_token e) as [o|]; [destruct (o =? i)|]; done|].
  split; [by destruct (run_token e)|]. split; [by destruct (pending e)|]. do 2 (split; [by destruct (paused _)|]).
  by intros [].
Qed.

Definition counted_after (r' : option RunTask) (new : list RunTask) : Z :=
  match r' with Some r' => task_counted r' | None => 0 end + tasks_counted new.
(** A move of one agent changes the active count and the runs in flight alike. *)
Inductive count_move (e e' : Entry) (n n' : Z) : Prop :=
| count_same : active e' = active e → n' = n → count_move e e' n n'
| count_up : active e' = word_succ (active e) → n' = n + 1 → count_move e e' n n'
| count_down : active e' = word_pred (active e) → n' = n - 1 → count_move e e' n n'.

Lemma exec_task_count now o e r e' r' new :
  exec_task now o e r = Some (e', r', new) → count_move e e' (task_counted r) (counted_after r' new).
Proof.
  destruct (frame_active e) as (Hclear & _ & _ & _ & _ & Hfinish). unfold exec_task, counted_after, task_counted, goto.
  destruct (r_pc r) as [| | | |o'|o' last| | | |st next t]; intros H; simplify_eq/=.
  1, 2, 4: by apply count_same.
  - destruct o as [o|]; [destruct (body_returns _ _ _)|]; simplify_eq; by apply count_same.
  - apply count_same; [|done]. simpl. by destruct last.
  - by apply count_same.
  - by apply count_down.
  - destruct (pending e) as [[next t]|]; [destruct (is_cancelled e)|]; simplify_eq/=; by apply count_same.
  - destruct (exec_start st next e) as [e1 [st'|]] eqn:Hst; simplify_eq/=.
    all: apply exec_start_active in Hst as (_ & _ & Ha & Hc); destruct st; simplify_eq/=.
    all: first [apply count_up; [done|simpl; lia] | apply count_same; [done|]]; simpl; unfold task_counted; simpl; lia.
Qed.
Lemma exec_driver_count s s' :
  exec_driver s = Some s' → count_move (entry s) (entry s') (in_flight s) (in_flight s').
Proof.
  destruct (frame_active (entry s)) as (_ & Hcancel & Hpend & _). unfold exec_driver, in_flight.
  destruct (driver s) as [| |[|[t [i|]] rest]|i t rest|rest|i t rest|i t rest|st i t rest| | |]; intros H; simplify_eq/=.
  all: try by apply count_same.
  - apply count_same; [done|]. by destruct (run_on_startup _ && _).
  - apply count_same; [done|]. destruct (0 <? _); [destruct (overlap _)|]; done.
  - destruct (exec_start st i (entry s)) as [e1 [st'|]] eqn:Hst; simplify_eq/=.
    all: apply exec_start_active in Hst as (_ & _ & Ha & Hc); destruct st; simplify_eq/=; rewrite ?tasks_counted_app.
    all: first [apply count_up; [done|simpl; lia] | apply count_same; [done|]]; simpl; unfold task_counted; simpl; lia.
Qed.

Lemma exec_run_split i now o s s' :
  exec_run i now o s = Some s' →
  ∃ r e' r' new, tasks s !! i = Some r ∧ exec_task now o (entry s) r = Some (e', r', new) ∧
    entry s' = e' ∧ driver s' = driver s ∧ run_ids s' = run_ids s ∧
    tasks s' = match r' with Some r' => <[i := r']> (tasks s) | None => delete i (tasks s) end ++ new ∧
    tasks_counted (tasks s') = tasks_counted (tasks s) - task_counted r + counted_after r' new.
Proof.
  unfold exec_run. destruct (tasks s !! i) as [r|] eqn:Hr; [|done]. cbn [mbind option_bind].
  destruct (exec_task now o (entry s) r) as [[[e' r'] new]|] eqn:Ht; [|done]. cbn [mbind option_bind]. intros [= <-].
  exists r, e', r', new. do 6 (split; [done|]). simpl. unfold counted_after.
  destruct (tasks_counted_split _ _ _ Hr) as [Hd Hi]. rewrite tasks_counted_app.
  destruct r' as [r'|]; [rewrite (Hi r')|]; lia.
Qed.
Lemma exec_count ev s s' :
  exec ev s = Some s' → count_move (entry s) (entry s') (in_flight s) (in_flight s').
Proof.
  destruct (frame_active (entry s)) as (_ & _ & _ & Hpause & Hresume & _).
  destruct ev as [c|at_|c| |i now o]; simpl.
  - intros [= <-]. destruct c; (apply count_same; [|done]); simpl; done.
  - unfold in_flight. destruct (driver s) eqn:Hd; intros; simplify_eq. apply count_same; [done|]. simpl. by rewrite Hd.
  - unfold exec_select, in_flight. destruct (driver s) eqn:Hd; try done. destruct c; case_match; intros; simplify_eq/=.
    all: apply count_same; [done|]; simpl; rewrite ?Hd; try done. by destruct (is_paused _).
  - apply exec_driver_count.
  - intros (r & e' & r' & new & _ & Ht & -> & Hd & _ & _ & Hc)%exec_run_split. apply exec_task_count in Ht.
    unfold in_flight. rewrite Hd, Hc. destruct Ht; [apply count_same|apply count_up|apply count_down]; try done; lia.
Qed.
Lemma count_invariant s e run_ids_ :
  active e = 0 → reachable e run_ids_ s → 0 ≤ in_flight s ∧ active (entry s) = in_flight s mod 2 ^ 64.
Proof.
  intros He Hs. pattern s. revert s Hs. apply reachable_ind.
  - unfold in_flight, initial. simpl. by rewrite He.
  - intros ev s s' [Hn Ha] Hev. split.
    + unfold in_flight. pose proof (tasks_counted_nonneg (tasks s')). unfold driver_counted, start_counted.
      destruct (driver s') as [| | | | | | |[]| | |]; lia.
    + destruct (exec_count _ _ _ Hev) as [Ha' ->|Ha' ->|Ha' ->]; rewrite Ha', Ha; [done|..].
      all: unfold word_succ, word_pred; by rewrite ?Zplus_mod_idemp_l, ?Zminus_mod_idemp_l.
Qed.

(** ** Frames *)

Definition job_options (s : Sys) : JobOptions := options (shared (entry s)).
Lemma exec_task_frame now o e r e' r' new :
  exec_task now o e r = Some (e', r', new) →
  options (shared e') = options (shared e) ∧ (pending e' = pending e ∨ pending e' = None) ∧
  (pending e = None → (∀ st n t, r_pc r ≠ RStart st n t) → new = [] ∧ ∀ x, r' = Some x → ∀ st n t, r_pc x ≠ RStart st n t).
Proof.
  unfold exec_task, goto. destruct (r_pc r) as [| | | |o'|o' last| | | |st next t] eqn:Hpc; intros H; simplify_eq/=.
  - split; [done|]. split; [by left|]. naive_solver.
  - split; [done|]. split; [by left|]. naive_solver.
  - destruct o as [o|]; [destruct (body_returns _ _ _)|]; simplify_eq; (split; [done|]); (split; [by left|]); naive_solver.
  - split; [done|]. split; [by left|]. naive_solver.
  - destruct last; (split; [done|]; split; [by left|]; naive_solver).
  - unfold clear_run_token. destruct (run_token e) as [o'|]; [destruct (o' =? _)|].
    all: split; [done|]; split; [by left|]; naive_solver.
  - split; [done|]. split; [by left|]. naive_solver.
  - split; [done|]. split; [by right|]. intros Hp. rewrite Hp. naive_solver.
  - destruct (exec_start st next e) as [e1 st'] eqn:Hst. pose proof Hst as (Hs & Hp & _)%exec_start_active.
    destruct st' as [st'|]; simplify_eq/=; (rewrite Hs, Hp; split; [done|]; split; [by left|]); intros _ Hno; by destruct (Hno st next t).
Qed.
Lemma exec_options ev s s' : exec ev s = Some s' → job_options s' = job_options s.
Proof.
  unfold job_options. destruct ev as [c|at_|c| |i now o]; simpl.
  - intros [= <-]. destruct c; simpl; try done; unfold pause, resume; by destruct (paused _).
  - by destruct (driver s); intros; simplify_eq.
  - unfold exec_select. destruct (driver s); try done. destruct c; case_match; intros; by simplify_eq/=.
  - unfold exec_driver. destruct (driver s) as [| |[|[t [i|]] rest]|i t rest|rest|i t rest|i t rest|st i t rest| | |]; intros H; simplify_eq/=; try done.
    + unfold mark_pending. by destruct (pending _).
    + unfold cancel_active_run. by destruct (run_token _).
    + destruct (exec_start st i (entry s)) as [e1 st'] eqn:Hst. pose proof Hst as (Hs & _)%exec_start_active.
      destruct st'; simplify_eq/=; by rewrite Hs.
  - intros (r & e' & r' & new & _ & (? & _)%exec_task_frame & -> & _)%exec_run_split. done.
Qed.

Lemma exec_task_no_start now o e r e' r' new :
  (∀ st n t, r_pc r ≠ RStart st n t) → exec_task now o e r = Some (e', r', new) → counted_after r' new ≤ task_counted r.
Proof.
  unfold exec_task, goto, counted_after, task_counted. intros Hno.
  destruct (r_pc r) as [| | | |o'|o' last| | | |st next t] eqn:Hpc; intros H; simplify_eq/=; try done.
  - destruct o as [o|]; [destruct (body_returns _ _ _)|]; by simplify_eq.
  - destruct (pending e) as [[next t]|]; [destruct (is_cancelled e)|]; done.
  - by destruct (Hno st next t).
Qed.

(** ** Runs that never overlap *)

Definition not_starting (r : RunTask) : Prop := ∀ st n t, r_pc r ≠ RStart st n t.
Definition skip_driver (d : DriverPc) (n : Z) : Prop :=
  match d with
  | DPend _ _ _ | DCancelPrevious _ _ _ => False
  | DStart StartEnter _ _ _ => n = 0
  | _ => True
  end.
Record skip_ok (s : Sys) : Prop := {
  skip_pending : pending (entry s) = None;
  skip_tasks : Forall not_starting (tasks s);
  skip_active : active (entry s) = in_flight s;
  skip_flight : 0 ≤ in_flight s ≤ 1;
  skip_at : skip_driver (driver s) (in_flight s);
}.
Lemma skip_active_next e e' n n' :
  active e = n → 0 ≤ n ≤ 1 → 0 ≤ n' ≤ 1 → count_move e e' n n' → active e' = n'.
Proof.
  intros Ha Hn Hn' [-> ->| -> ->| -> ->]; rewrite Ha; [done|..]; unfold word_succ, word_pred; by apply Z.mod_small; lia.
Qed.
Lemma in_flight_nonneg s : 0 ≤ in_flight s.
Proof.
  unfold in_flight. pose proof (tasks_counted_nonneg (tasks s)).
  unfold driver_counted, start_counted. destruct (driver s) as [| | | | | | |[]| | |]; lia.
Qed.
Lemma skip_step ev s s' : overlap (job_options s) = Skip → skip_ok s → exec ev s = Some s' → skip_ok s'.
Proof.
  intros Hskip [Hp Ht Ha [Hn0 Hn] Hd] Hev. pose proof (exec_count _ _ _ Hev) as Hmove. pose proof (in_flight_nonneg s') as Hpos.
  enough (pending (entry s') = None ∧ Forall not_starting (tasks s') ∧ in_flight s' ≤ 1 ∧ skip_driver (driver s') (in_flight s'))
    as (? & ? & ? & ?).
  { split; [done|done| |done|done]. by apply (skip_active_next _ _ _ _ Ha). }
  destruct ev as [c|at_|c| |i now o]; simpl in Hev.
  - injection Hev as <-. destruct c; (split; [simpl; unfold pause, resume; try destruct (paused _); exact Hp|]).
    all: exact (conj Ht (conj Hn Hd)).
  - destruct (driver s) eqn:Hdr; simplify_eq/=. unfold in_flight in *. simpl in *. rewrite Hdr in *. done.
  - unfold exec_select in Hev. destruct (driver s) eqn:Hdr; try done. unfold in_flight in *. rewrite Hdr in *.
    destruct c; case_match; simplify_eq/=; rewrite ?Hdr; simpl; try done.
    destruct (is_paused _); done.
  - unfold exec_driver in Hev. unfold in_flight, job_options in *.
    destruct (driver s) as [| |[|[t [i|]] rest]|i t rest|rest|i t rest|i t rest|st i t rest| | |] eqn:Hdr; simplify_eq/=; try done.
    + by destruct (run_on_startup _ && _).
    + rewrite Hskip. destruct (0 <? active (entry s)) eqn:Hz; simpl; [done|]. apply Z.ltb_ge in Hz.
      split; [done|]. split; [done|]. lia.
    + destruct (exec_start st i (entry s)) as [e1 [st'|]] eqn:Hst; simplify_eq/=.
      all: apply exec_start_active in Hst as (_ & Hp' & _ & Hc); rewrite Hp'.
      * split; [done|]. split; [done|]. destruct st; simpl in *; (split; [lia|]); destruct st'; simpl in *; lia || done.
      * subst st. rewrite tasks_counted_app. simpl in *. unfold task_counted. simpl. split; [done|].
        split; [|split; [lia|done]]. apply Forall_app. split; [done|]. constructor; [|constructor]. by intros ???.
  - apply exec_run_split in Hev as (r & e' & r' & new & Hr & Htask & He & Hdr & _ & Hts & Hc).
    pose proof (exec_task_frame _ _ _ _ _ _ _ Htask) as (_ & Hpend & Hnew).
    pose proof (exec_task_count _ _ _ _ _ _ _ Htask) as Hcount.
    assert (not_starting r) as Hns. { rewrite Forall_lookup in Ht. by eapply Ht. }
    destruct (Hnew Hp Hns) as [-> Hr'].
    pose proof (exec_task_no_start _ _ _ _ _ _ _ Hns Htask) as Hle.
    unfold in_flight in *. rewrite He, Hdr, Hc in *. split; [naive_solver congruence|]. split.
    + rewrite Hts, app_nil_r. destruct r' as [r'|]; [|by apply Forall_delete].
      apply Forall_insert; [done|]. exact (Hr' r' eq_refl).
    + split; [lia|]. destruct (driver s) as [| | | | | | |[]| | |]; simpl in *; try done.
      pose proof (tasks_counted_nonneg (tasks s')). rewrite Hc in *. lia.
Qed.
End Run.
