(* ===== verification/JobSafety.v ===== *)
(** * JobSafety: what the interleaved runs of a job keep

    Theorems about [JobRun]: the in-flight count is exact, run ids are unique,
    the overlap policies, and the states in which two tasks race. *)
From stdpp Require Import fin_sets relations.
From S2P Require Import Prelude JobSchedule JobEntry JobRun.

Section Safety.
Context {Cron : Type}.
Abbreviation Entry := (JobEntry Cron).
Abbreviation Sys := (@Sys Cron).

(** ** Run ids *)

Definition task_ids (r : RunTask) : list JobRunId :=
  r_id r :: match r_pc r with RStart _ next _ => [next] | _ => [] end.
Definition driver_ids (d : DriverPc) : list JobRunId :=
  match d with
  | DFire rest | DSkip rest => omap snd rest
  | DCheck i _ rest | DPend i _ rest | DCancelPrevious i _ rest | DStart _ i _ rest => i :: omap snd rest
  | _ => []
  end.
Definition pending_ids (p : option (JobRunId * JobTrigger)) : list JobRunId :=
  match p with Some (i, _) => [i] | None => [] end.
(** Every run id that is in use: by a run, a firing, a deferred or a queued run. *)
Definition all_ids (s : Sys) : list JobRunId :=
  concat (task_ids <$> tasks s) ++ driver_ids (driver s) ++ pending_ids (pending (entry s)) ++ manual (entry s).

Definition task_result_ids (r' : option RunTask) (new : list RunTask) : list JobRunId :=
  match r' with Some r' => task_ids r' | None => [] end ++ concat (task_ids <$> new).
Lemma exec_task_ids now o (e : Entry) r e' r' new :
  exec_task now o e r = Some (e', r', new) →
  manual e' = manual e ∧ task_result_ids r' new ++ pending_ids (pending e') ⊆+ task_ids r ++ pending_ids (pending e).
Proof.
  unfold exec_task, goto, task_result_ids, task_ids.
  destruct (r_pc r) as [| | | |o'|o' last| | | |st next t] eqn:Hpc; intros H; simplify_eq/=; try done.
  - by destruct o as [o|]; [destruct (body_returns _ _ _)|]; simplify_eq.
  - by destruct last.
  - unfold clear_run_token. destruct (run_token e) as [o'|]; [destruct (o' =? _)|]; done.
  - split; [done|]. destruct (pending e) as [[next t]|]; simpl; [destruct (is_cancelled e)|]; simpl; [|done|].
    all: apply submseteq_nil_l.
  - destruct (exec_start st next e) as [e1 st'] eqn:Hst. pose proof Hst as (Hs & Hp & _)%exec_start_active.
    assert (manual e1 = manual e) as Hm by (destruct st; simpl in Hst; by simplify_eq).
    destruct st' as [st'|]; simplify_eq/=; rewrite Hp, Hm; (split; [done|]); [done|]. apply submseteq_cons. done.
Qed.

Lemma concat_ids_split (ts : list RunTask) i r :
  ts !! i = Some r →
  concat (task_ids <$> ts) ≡ₚ task_ids r ++ concat (task_ids <$> delete i ts) ∧
  ∀ r', concat (task_ids <$> <[i := r']> ts) ≡ₚ task_ids r' ++ concat (task_ids <$> delete i ts).
Proof.
  revert i. induction ts as [|r0 ts IH]; intros [|i]; simpl; try done; [by intros [= ->]|].
  intros [Hd Hi]%IH. split; [|intros r'; rewrite Hi]; rewrite ?Hd; simpl; solve_Permutation.
Qed.

(** A step passes the ids on, drops some, or adds the next one of the counter. *)
Definition ids_move (s s' : Sys) : Prop :=
  (run_ids s' = run_ids s ∧ all_ids s' ⊆+ all_ids s) ∨
  (run_ids s' = word_succ (run_ids s) ∧ all_ids s' ⊆+ run_ids s :: all_ids s).
Lemma ids_same s s' : run_ids s' = run_ids s → all_ids s' ⊆+ all_ids s → ids_move s s'.
Proof. by left. Qed.
Lemma exec_ids ev s s' : exec ev s = Some s' → ids_move s s'.
Proof.
  destruct ev as [c|at_|c| |i now o]; simpl.
  - intros [= <-]. destruct c; simpl; try (by left).
    + left. unfold all_ids, pause. simpl. by destruct (paused _).
    + left. unfold all_ids, resume. simpl. by destruct (paused _).
    + right. split; [done|]. unfold all_ids. simpl. apply Permutation_submseteq. solve_Permutation.
    + right. split; [done|]. unfold all_ids. simpl. by apply submseteq_cons.
  - destruct (driver s) eqn:Hd; intros; simplify_eq. left. split; [done|]. unfold all_ids. simpl. by rewrite Hd.
  - unfold exec_select. destruct (driver s) eqn:Hd; try done. destruct c; case_match; intros; simplify_eq/=.
    all: left; split; [done|]; unfold all_ids; simpl; rewrite ?Hd; simpl; try done.
    + assert (omap snd ((λ i : JobRunId, (Manual, Some i)) <$> manual (entry s)) = manual (entry s)) as ->.
      { induction (manual (entry s)) as [|j m IH]; simpl; [done|]. by f_equal. }
      apply Permutation_submseteq. rewrite app_nil_r. solve_Permutation.
    + by destruct (is_paused _).
  - unfold exec_driver. destruct (driver s) as [| |[|[t [i|]] rest]|i t rest|rest|i t rest|i t rest|st i t rest| | |] eqn:Hd; intros H; simplify_eq/=.
    + left. split; [done|]. unfold all_ids. simpl. rewrite Hd. by destruct (run_on_startup _ && _).
    + left. split; [done|]. unfold all_ids. simpl. by rewrite Hd.
    + left. split; [done|]. unfold all_ids. simpl. by rewrite Hd.
    + right. split; [done|]. unfold all_ids. simpl. rewrite Hd. simpl. apply Permutation_submseteq. solve_Permutation.
    + left. split; [done|]. unfold all_ids. simpl. rewrite Hd. simpl. apply submseteq_app; [done|].
      destruct (0 <? _); [destruct (overlap _)|]; simpl; try done. by apply submseteq_cons.
    + left. split; [done|]. unfold all_ids. simpl. by rewrite Hd.
    + left. split; [done|]. unfold all_ids, mark_pending. rewrite Hd. simpl. destruct (pending (entry s)) as [[j t']|] eqn:Hp; simpl; rewrite ?Hp; simpl.
      * apply submseteq_app; [done|]. by apply submseteq_cons.
      * apply Permutation_submseteq. solve_Permutation.
    + left. split; [done|]. unfold all_ids, cancel_active_run. rewrite Hd. simpl. by destruct (run_token _).
    + destruct (exec_start st i (entry s)) as [e1 st'] eqn:Hst. pose proof Hst as (_ & Hp & _)%exec_start_active.
      assert (manual e1 = manual (entry s)) as Hm by (destruct st; simpl in Hst; by simplify_eq).
      left. destruct st' as [st'|]; simplify_eq/=; (split; [done|]); unfold all_ids; simpl; rewrite Hd, Hp, Hm; simpl; [done|].
      rewrite fmap_app, concat_app. simpl. apply Permutation_submseteq. solve_Permutation.
    + left. split; [done|]. unfold all_ids. simpl. by rewrite Hd.
    + left. split; [done|]. unfold all_ids. simpl. by rewrite Hd.
  - intros (r & e' & r' & new & Hr & Ht & He & Hd & Hids & Hts & _)%exec_run_split.
    apply exec_task_ids in Ht as [Hm Hsub]. left. split; [done|]. unfold all_ids. rewrite Hd, He, Hm, Hts.
    destruct (concat_ids_split _ _ _ Hr) as [Hc Hi]. rewrite fmap_app, concat_app.
    set (D := driver_ids (driver s)). set (M := manual (entry s)). set (R := concat (task_ids <$> delete i (tasks s))) in *.
    assert (concat (task_ids <$> match r' with Some r' => <[i:=r']> (tasks s) | None => delete i (tasks s) end) ++ concat (task_ids <$> new)
      ≡ₚ task_result_ids r' new ++ R) as Hnew.
    { unfold task_result_ids. destruct r' as [r'|]; [rewrite (Hi r')|]; simpl; solve_Permutation. }
    rewrite Hnew, Hc.
    transitivity ((task_result_ids r' new ++ pending_ids (pending e')) ++ (R ++ D ++ M)); [apply Permutation_submseteq; solve_Permutation|].
    transitivity ((task_ids r ++ pending_ids (pending (entry s))) ++ (R ++ D ++ M)); [by apply submseteq_app|].
    apply Permutation_submseteq; solve_Permutation.
Qed.

Lemma submseteq_NoDup {A} (l k : list A) : l ⊆+ k → NoDup k → NoDup l.
Proof. intros [l' ->]%submseteq_Permutation. rewrite NoDup_app. naive_solver. Qed.
Lemma submseteq_Forall {A} (P : A → Prop) (l k : list A) : l ⊆+ k → Forall P k → Forall P l.
Proof. intros [l' ->]%submseteq_Permutation. rewrite Forall_app. naive_solver. Qed.

(** Ids that are in use are distinct and below the counter. *)
Definition ids_ok (s : Sys) : Prop := NoDup (all_ids s) ∧ Forall (λ i, i < run_ids s) (all_ids s).
Lemma ids_ok_move s s' : 0 ≤ run_ids s < 2 ^ 64 - 1 → ids_ok s → ids_move s s' → ids_ok s' ∧ run_ids s ≤ run_ids s' ≤ run_ids s + 1.
Proof.
  intros Hb [Hnd Hlt] [[Hr Hsub]|[Hr Hsub]].
  - rewrite Hr. split; [|lia]. split; [by eapply submseteq_NoDup|]. rewrite Hr. by eapply submseteq_Forall.
  - assert (word_succ (run_ids s) = run_ids s + 1) as Hw by (unfold word_succ; rewrite Z.mod_small by lia; done).
    rewrite Hr, Hw. split; [|lia]. rewrite Forall_forall in Hlt. split.
    + eapply submseteq_NoDup; [done|]. apply NoDup_cons. split; [|done]. intros Hin%Hlt. lia.
    + rewrite Hr, Hw. eapply submseteq_Forall; [done|]. constructor; [lia|]. apply Forall_forall. intros i Hi%Hlt. lia.
Qed.
(** A job that has just been registered. *)
Definition fresh_entry (e : Entry) : Prop :=
  active e = 0 ∧ pending e = None ∧ manual e = [] ∧ run_token e = None ∧ cancelled_runs e = ∅.
Lemma ids_invariant n e run_ids_ s :
  fresh_entry e → 0 ≤ run_ids_ → run_ids_ + Z.of_nat n < 2 ^ 64 → nsteps step n (initial e run_ids_) s →
  ids_ok s ∧ run_ids_ ≤ run_ids s ≤ run_ids_ + Z.of_nat n.
Proof.
  intros (_ & Hp & Hm & _) H0 Hb Hs. revert Hb. remember (initial e run_ids_) as s0 eqn:Hs0.
  assert (ids_ok s0 ∧ run_ids s0 = run_ids_) as [Hok Hr].
  { subst s0. split; [|done]. unfold ids_ok, all_ids, initial. simpl. rewrite Hp, Hm. simpl. split; constructor. }
  clear Hs0. rewrite <- Hr in H0 |- *. clear Hr. induction Hs as [s|n s s1 s2 [ev Hev] Hs IH]; intros Hb; [split; [done|lia]|].
  destruct (ids_ok_move s s1) as [Hok1 Hr1]; [lia|done|by eapply exec_ids|].
  destruct IH as [? ?]; [lia|done|lia|]. split; [done|lia].
Qed.

Lemma task_id_in (s : Sys) i r : tasks s !! i = Some r → r_id r ∈ concat (task_ids <$> tasks s).
Proof.
  intros Hr. destruct (concat_ids_split _ _ _ Hr) as [-> _]. apply elem_of_app. left. left.
Qed.
Lemma ids_distinct (s : Sys) i j ri rj :
  ids_ok s → tasks s !! i = Some ri → tasks s !! j = Some rj → r_id ri = r_id rj → i = j.
Proof.
  intros [Hnd _] Hi Hj Heq. destruct (decide (i = j)) as [|Hne]; [done|exfalso].
  unfold all_ids in Hnd. apply NoDup_app in Hnd as (Hnd & _).
  destruct (concat_ids_split _ _ _ Hi) as [Hsplit _]. rewrite Hsplit in Hnd. apply NoDup_app in Hnd as (_ & Hdis & _).
  apply (Hdis (r_id ri)); [left|]. rewrite Heq.
  destruct (decide (i < j)%nat).
  - assert (delete i (tasks s) !! pred j = Some rj) as Hd.
    { rewrite list_lookup_delete_ge by lia. by replace (S (pred j)) with j by lia. }
    destruct (concat_ids_split _ _ _ Hd) as [-> _]. apply elem_of_app. left. left.
  - assert (delete i (tasks s) !! j = Some rj) as Hd by (rewrite list_lookup_delete_lt by lia; done).
    destruct (concat_ids_split _ _ _ Hd) as [-> _]. apply elem_of_app. left. left.
Qed.
Lemma ids_driver (s : Sys) i r k : ids_ok s → tasks s !! i = Some r → k ∈ driver_ids (driver s) → r_id r ≠ k.
Proof.
  intros [Hnd _] Hr%task_id_in Hk Heq. rewrite Heq in Hr. unfold all_ids in Hnd. apply NoDup_app in Hnd as (_ & Hdis & _).
  apply (Hdis k Hr). apply elem_of_app. by left.
Qed.

(** ** [CancelPrevious] *)

(** A run that has not yet given up its token. *)
Definition live (r : RunTask) : bool := match r_pc r with RPanicked | RExit | RTakePending | RStart _ _ _ => false | _ => true end.
Definition all_cancelled (s : Sys) : Prop := ∀ i r, tasks s !! i = Some r → live r = true → r_id r ∈ cancelled_runs (entry s).
Definition cancel_driver (s : Sys) : Prop :=
  match driver s with
  | DPend _ _ _ => False
  | DStart StartSpawn i _ _ => all_cancelled s ∧ run_token (entry s) = Some i
  | DStart _ _ _ _ => all_cancelled s
  | _ => True
  end.
Record cancel_ok (s : Sys) : Prop := {
  co_pending : pending (entry s) = None;
  co_tasks : Forall not_starting (tasks s);
  co_owner i r : tasks s !! i = Some r → live r = true → r_id r ∈ cancelled_runs (entry s) ∨ run_token (entry s) = Some (r_id r);
  co_driver : cancel_driver s;
}.
Lemma live_counted (s : Sys) i r : in_flight s = 0 → tasks s !! i = Some r → live r = false.
Proof.
  unfold in_flight. intros H0 Hr. destruct (tasks_counted_split _ _ _ Hr) as [Hc _].
  pose proof (tasks_counted_nonneg (delete i (tasks s))). pose proof (counted_bounds r).
  assert (0 ≤ driver_counted (driver s)) by (unfold driver_counted, start_counted; destruct (driver s) as [| | | | | | |[]| | |]; lia).
  assert (task_counted r = 0) as Hz by lia. unfold task_counted in Hz. unfold live. by destruct (r_pc r).
Qed.
Lemma exec_task_live now o (e : Entry) r e' r' new :
  not_starting r → exec_task now o e r = Some (e', r', new) →
  cancelled_runs e' = cancelled_runs e ∧
  (∀ x, r' = Some x → r_id x = r_id r ∧ (live x = true → live r = true)) ∧
  (run_token e' = run_token e ∨ (run_token e = Some (r_id r) ∧ run_token e' = None ∧ ∀ x, r' = Some x → live x = false)).
Proof.
  unfold exec_task, goto, live, not_starting. intros Hno.
  destruct (r_pc r) as [| | | |o'|o' last| | | |st next t] eqn:Hpc; intros H; simplify_eq/=.
  - split; [done|]. split; [naive_solver|by left].
  - split; [done|]. split; [naive_solver|by left].
  - destruct o as [o|]; [destruct (body_returns _ _ _)|]; simplify_eq; (split; [done|]); (split; [naive_solver|by left]).
  - split; [done|]. split; [naive_solver|by left].
  - destruct last; (split; [done|]; split; [naive_solver|by left]).
  - unfold clear_run_token. destruct (run_token e) as [owner|] eqn:Ht; [destruct (owner =? r_id r) eqn:Ho|]; simpl.
    + apply Z.eqb_eq in Ho as ->. split; [done|]. split; [naive_solver|right]. naive_solver.
    + split; [done|]. split; [naive_solver|by left].
    + split; [done|]. split; [naive_solver|by left].
  - split; [done|]. split; [naive_solver|by left].
  - destruct (pending e) as [[next t]|]; [destruct (is_cancelled e)|]; simpl; (split; [done|]); (split; [naive_solver|by left]).
  - by destruct (Hno st next t).
Qed.

Lemma cancel_control c s : cancel_ok s → cancel_ok (exec_control c s).
Proof.
  intros [Hp Ht Ho Hd].
  assert (∀ e n, pending e = pending (entry s) → run_token e = run_token (entry s) → cancelled_runs e = cancelled_runs (entry s) →
    cancel_ok (mkSys e n (driver s) (tasks s) (registered s))) as Hframe.
  { intros e n Hpe Hte Hce. split; simpl; [congruence|done|by rewrite Hce, Hte|].
    unfold cancel_driver, all_cancelled in *. simpl. by rewrite Hce, Hte. }
  destruct c; simpl; try (by apply Hframe).
  - apply Hframe; unfold pause; by destruct (paused _).
  - apply Hframe; unfold resume; by destruct (paused _).
Qed.
Lemma cancel_task i now o s s' : ids_ok s → cancel_ok s → exec_run i now o s = Some s' → cancel_ok s'.
Proof.
  intros Hids [Hp Ht Ho Hd] (r & e' & r' & new & Hr & Htask & He & Hdr & _ & Hts & _)%exec_run_split.
  assert (not_starting r) as Hns. { rewrite Forall_lookup in Ht. by eapply Ht. }
  pose proof (exec_task_frame _ _ _ _ _ _ _ Htask) as (_ & Hpend & Hnew). destruct (Hnew Hp Hns) as [-> Hr'].
  destruct (exec_task_live _ _ _ _ _ _ _ Hns Htask) as (Hc & Hlive & Htok).
  (* Every live task of the new list was a live task of the same id. *)
  assert (∀ j x, tasks s' !! j = Some x → live x = true →
    ∃ k y, tasks s !! k = Some y ∧ live y = true ∧ r_id y = r_id x ∧ (run_token e' = run_token (entry s) ∨ k ≠ i)) as Hold.
  { intros j x. rewrite Hts, app_nil_r. destruct r' as [r'|].
    - destruct (decide (j = i)) as [->|Hji].
      + rewrite list_lookup_insert_eq by (by eapply lookup_lt_Some). intros [= <-] Hx. destruct (Hlive r' eq_refl) as [Hid Hl].
        exists i, r. split; [done|]. split; [by apply Hl|]. split; [done|]. destruct Htok as [?|(_ & _ & Hdead)]; [by left|].
        by rewrite (Hdead r' eq_refl) in Hx.
      + rewrite list_lookup_insert_ne by done. intros Hx Hl. exists j, x. naive_solver.
    - rewrite list_lookup_delete. destruct (decide (j < i)%nat); intros Hx Hl.
      + exists j, x. split; [done|]. split; [done|]. split; [done|]. right. lia.
      + exists (S j), x. split; [done|]. split; [done|]. split; [done|]. right. lia. }
  assert (all_cancelled s → all_cancelled s') as Hall.
  { intros H j x Hx Hl. destruct (Hold j x Hx Hl) as (k & y & Hk & Hy & <- & _). rewrite He, Hc. by eapply H. }
  split.
  - rewrite He. destruct Hpend as [->|?]; done.
  - rewrite Hts, app_nil_r. destruct r' as [r'|]; [|by apply Forall_delete]. apply Forall_insert; [done|]. exact (Hr' r' eq_refl).
  - intros j x Hx Hl. destruct (Hold j x Hx Hl) as (k & y & Hk & Hy & <- & Hwhy). rewrite He, Hc.
    destruct (Ho k y Hk Hy) as [?|Hown]; [by left|]. right.
    destruct Htok as [->|(Hrown & Hnone & _)]; [done|]. destruct Hwhy as [->|Hki]; [done|].
    rewrite Hrown in Hown. injection Hown as Heq. by destruct Hki; eapply ids_distinct.
  - unfold cancel_driver in *. rewrite Hdr. pose proof (λ k, ids_driver s i r k Hids Hr) as Hfree.
    destruct (driver s) as [| | | | | | |[] k t rest| | |]; try done; try (by apply Hall).
    destruct Hd as [Hd Hrt]. split; [by apply Hall|]. rewrite He. destruct Htok as [->|(Hrown & _)]; [done|].
    exfalso. apply (Hfree k); [left|]. congruence.
Qed.
Lemma cancel_step ev s s' :
  overlap (job_options s) = CancelPrevious → ids_ok s → active (entry s) = in_flight s → cancel_ok s → exec ev s = Some s' → cancel_ok s'.
Proof.
  intros Hpol Hids Hact Hok Hev. destruct ev as [c|at_|c| |i now o]; simpl in Hev.
  - injection Hev as <-. by apply cancel_control.
  - destruct Hok as [Hp Ht Ho Hd]. destruct (driver s) eqn:Hdr; simplify_eq. by split.
  - destruct Hok as [Hp Ht Ho Hd]. unfold exec_select in Hev. destruct (driver s) eqn:Hdr; try done.
    destruct c; case_match; simplify_eq/=; (split; [done|done|done|]); unfold cancel_driver; simpl; rewrite ?Hdr; try done.
    by destruct (is_paused _).
  - destruct Hok as [Hp Ht Ho Hd]. unfold exec_driver, cancel_driver, job_options in *.
    destruct (driver s) as [| |[|[t [i|]] rest]|i t rest|rest|i t rest|i t rest|st i t rest| | |] eqn:Hdr; simplify_eq/=; try (by split).
    + split; try done. unfold cancel_driver. simpl. by destruct (run_on_startup _ && _).
    + split; try done. unfold cancel_driver. simpl. rewrite Hpol. destruct (0 <? active (entry s)) eqn:Hz; [done|].
      apply Z.ltb_ge in Hz. pose proof (in_flight_nonneg s). intros j x Hx Hl.
      by rewrite (live_counted s j x) in Hl by (done || lia).
    + assert (∀ j x, tasks s !! j = Some x → live x = true → r_id x ∈ cancelled_runs (cancel_active_run (entry s))) as Hall.
      { intros j x Hx Hl. unfold cancel_active_run. destruct (Ho j x Hx Hl) as [?|Hrt]; [|rewrite Hrt; simpl; set_solver].
        destruct (run_token (entry s)); simpl; set_solver. }
      split; simpl; [unfold cancel_active_run; by destruct (run_token _)|done|intros j x Hx Hl; left; by eapply Hall|done].
    + destruct st; simpl in Hev.
      * injection Hev as <-. rewrite Hpol, bool_decide_true by done. split; simpl; [done|done|intros j x Hx Hl; left; by eapply Hd|exact Hd].
      * injection Hev as <-. split; simpl; [done|done|intros j x Hx Hl; left; by eapply Hd|]. split; [exact Hd|done].
      * injection Hev as <-. destruct Hd as [Hd Hrt]. split; simpl; [done| | |done].
        { apply Forall_app. split; [done|]. constructor; [by intros ???|constructor]. }
        { intros j x [Hx|[_ Hx]]%lookup_app_Some Hl; [left; by eapply Hd|]. apply list_lookup_singleton_Some in Hx as [_ <-].
          right. done. }
  - by eapply cancel_task.
Qed.

Lemma nsteps_options n (s0 s : Sys) : nsteps step n s0 s → job_options s = job_options s0.
Proof. induction 1 as [|n s0 s1 s [ev Hev] _ IH]; [done|]. rewrite IH. by eapply exec_options. Qed.
Lemma nsteps_snoc_ind (P : nat → Sys → Prop) s0 :
  P 0%nat s0 → (∀ n ev s s', nsteps step n s0 s → P n s → exec ev s = Some s' → P (S n) s') → ∀ n s, nsteps step n s0 s → P n s.
Proof.
  intros H0 Hstep n. induction n as [|n IH]; intros s Hs; [by inversion Hs; subst|].
  apply nsteps_inv_r in Hs as (s1 & Hs1 & ev & Hev). by eapply Hstep; [| apply IH|].
Qed.
Lemma in_flight_bound n e run_ids_ s :
  fresh_entry e → nsteps step n (initial e run_ids_) s → in_flight s ≤ Z.of_nat n.
Proof.
  intros _. revert n s. apply nsteps_snoc_ind; [done|]. intros n ev s s' _ Hn Hev.
  destruct (exec_count _ _ _ Hev) as [_ ->|_ ->|_ ->]; lia.
Qed.
Lemma count_exact n e run_ids_ s :
  fresh_entry e → Z.of_nat n < 2 ^ 64 → nsteps step n (initial e run_ids_) s → active (entry s) = in_flight s.
Proof.
  intros Hf Hn Hs. pose proof (in_flight_bound _ _ _ _ Hf Hs) as Hb. destruct Hf as (Ha & _).
  destruct (count_invariant s e run_ids_ Ha) as [Hpos Hact]; [by eapply rtc_nsteps_2|]. rewrite Hact. apply Z.mod_small. lia.
Qed.

(** However the driver, the runs and the control calls interleave, the
    in-flight counter is exactly the number of runs that were started and have
    not left, modulo the word size; it never underflows. *)
Theorem active_counts_runs (e : Entry) run_ids_ s :
  active e = 0 → reachable e run_ids_ s → 0 ≤ in_flight s ∧ active (entry s) = in_flight s mod 2 ^ 64.
Proof. apply count_invariant. Qed.

Lemma skip_invariant n (e : Entry) run_ids_ s :
  overlap (options (shared e)) = Skip → fresh_entry e → nsteps step n (initial e run_ids_) s →
  overlap (job_options s) = Skip ∧ skip_ok s.
Proof.
  intros Hpol (Ha & Hp & _). revert n s. apply (nsteps_snoc_ind (λ _ s, overlap (job_options s) = Skip ∧ skip_ok s)).
  - split; [done|]. split; simpl; done.
  - intros n ev s s' _ [Hsk Hok] Hev. split; [by rewrite (exec_options _ _ _ Hev)|]. by eapply skip_step.
Qed.

(** C6: Under [Skip] at most one run is ever in flight, in every interleaving. *)
Theorem skip_never_overlaps n (e : Entry) run_ids_ s :
  overlap (options (shared e)) = Skip → fresh_entry e → nsteps step n (initial e run_ids_) s →
  in_flight s ≤ 1 ∧ (length (List.filter (λ r, match r_pc r with RBody => true | _ => false end) (tasks s)) ≤ 1)%nat.
Proof.
  intros Hpol Hf Hs. destruct (skip_invariant _ _ _ _ Hpol Hf Hs) as [_ [_ _ _ [H0 H1] _]].
  split; [done|]. unfold in_flight in H1.
  assert (Z.of_nat (length (List.filter (λ r, match r_pc r with RBody => true | _ => false end) (tasks s))) ≤ tasks_counted (tasks s)) as Hlen.
  { clear. induction (tasks s) as [|r ts IH]; [done|]. simpl. pose proof (counted_bounds r) as Hb. unfold task_counted in *.
    destruct (r_pc r); simpl in *; lia. }
  assert (0 ≤ driver_counted (driver s)) by (unfold driver_counted, start_counted; destruct (driver s) as [| | | | | | |[]| | |]; lia).
  lia.
Qed.

(** Under [CancelPrevious] two runs that still hold their turn are never both
    uncancelled: each run but the newest has had its token cancelled, however
    late the older ones finish. *)
Theorem cancel_previous_leaves_one n (e : Entry) run_ids_ s i j ri rj :
  overlap (options (shared e)) = CancelPrevious → fresh_entry e → 0 ≤ run_ids_ → run_ids_ + Z.of_nat n < 2 ^ 64 →
  nsteps step n (initial e run_ids_) s →
  tasks s !! i = Some ri → tasks s !! j = Some rj → live ri = true → live rj = true →
  run_cancelled (r_id ri) (entry s) = false → run_cancelled (r_id rj) (entry s) = false → i = j.
Proof.
  intros Hpol Hf H0 Hb Hs Hi Hj Hli Hlj Hci Hcj.
  destruct (ids_invariant n e run_ids_ s Hf H0 Hb Hs) as [Hids _].
  assert (cancel_ok s) as [_ _ Ho _].
  { clear -Hpol Hf H0 Hb Hs. revert Hb. pattern n, s. revert n s Hs. apply nsteps_snoc_ind.
    - intros _. destruct Hf as (_ & Hp & _). by split.
    - intros n ev s s' Hs IH Hev Hb. eapply cancel_step; [|by eapply ids_invariant; [|..|exact Hs]; (done || lia)| |apply IH; lia|done].
      + by rewrite (nsteps_options _ _ _ Hs).
      + eapply count_exact; [done| |done]. lia. }
  unfold run_cancelled in *. apply orb_false_iff in Hci as [_ Hci%bool_decide_eq_false], Hcj as [_ Hcj%bool_decide_eq_false].
  destruct (Ho i ri Hi Hli) as [?|Hri]; [done|]. destruct (Ho j rj Hj Hlj) as [?|Hrj]; [done|].
  eapply (ids_distinct s); [done..|]. congruence.
Qed.

(** The ids of runs in flight, of firings on the way, of a deferred and of
    queued manual runs are pairwise distinct and below the shared counter. *)
Theorem run_ids_unique n (e : Entry) run_ids_ s :
  fresh_entry e → 0 ≤ run_ids_ → run_ids_ + Z.of_nat n < 2 ^ 64 → nsteps step n (initial e run_ids_) s →
  NoDup (all_ids s) ∧ Forall (λ i, i < run_ids s) (all_ids s).
Proof. intros Hf H0 Hb Hs. by destruct (ids_invariant n e run_ids_ s Hf H0 Hb Hs). Qed.
End Safety.

(** ** The reported state under [Skip] *)

Section Reported.
Context {Cron : Type}.
Abbreviation Entry := (JobEntry Cron).
Abbreviation Sys := (@Sys Cron).

(** A run that is recorded as started and not as finished; one whose body panicked
    never will be. *)
Definition recorded (r : RunTask) : bool :=
  match r_pc r with RBody | RPanicked | RReadActive _ | RRecordFinish _ _ => true | _ => false end.
Record reported_ok (s : Sys) : Prop := {
  rep_last i r o last : tasks s !! i = Some r → r_pc r = RRecordFinish o last → last = true;
  rep_running i : state (shared (entry s)) = Running i → ∃ k r, tasks s !! k = Some r ∧ r_id r = i ∧ recorded r = true;
}.
Lemma reported_frame (s s' : Sys) :
  tasks s' = tasks s → (∀ i, state (shared (entry s')) = Running i → state (shared (entry s)) = Running i) →
  reported_ok s → reported_ok s'.
Proof. intros Ht Hst [Hl Hr]. split; rewrite Ht; [done|]. intros i Hi. by apply Hr, Hst. Qed.

(** What a step of a task that starts no run does to the state. *)
Lemma exec_task_state now o (e : Entry) r e' r' new :
  not_starting r → active e ≤ 1 → (∀ o last, r_pc r = RRecordFinish o last → last = true) →
  exec_task now o e r = Some (e', r', new) →
  (∀ o last x, r' = Some x → r_pc x = RRecordFinish o last → last = true) ∧
  ∀ i, state (shared e') = Running i →
    (∃ x, r' = Some x ∧ r_id x = i ∧ recorded x = true) ∨ (state (shared e) = Running i ∧ (r_id r = i → recorded r = false)).
Proof.
  unfold not_starting, exec_task, goto, recorded. intros Hno Ha Hlast.
  assert (∀ pc i, match pc with RBody | RPanicked | RReadActive _ | RRecordFinish _ _ => true | _ => false end = true →
    state (shared e) = Running i →
    (∃ x, Some (mkTask (r_id r) (r_trigger r) pc) = Some x ∧ r_id x = i ∧ match r_pc x with RBody | RPanicked | RReadActive _ | RRecordFinish _ _ => true | _ => false end = true) ∨
    (state (shared e) = Running i ∧ (r_id r = i → true = false))) as Hstay.
  { intros pc i Hpc Hi. destruct (decide (r_id r = i)) as [<-|Hne]; [left; eexists; by split|by right]. }
  destruct (r_pc r) as [| | | |o'|o' last| | | |st next t] eqn:Hpc; intros H; simplify_eq/=.
  - naive_solver.
  - split; [naive_solver|]. intros i. destruct (state (shared e)) eqn:Hs; simpl; naive_solver.
  - destruct o as [o|]; [destruct (body_returns _ _ _)|]; simplify_eq; (split; [naive_solver|]); intros i; by apply Hstay.
  - split; [|intros i; by apply Hstay]. intros o1 last x [= <-] [= <- <-]. unfold last_active. by apply Z.leb_le.
  - assert (last = true) as -> by by eapply Hlast. split; [naive_solver|]. intros i. simpl.
    destruct (state (shared e)) eqn:Hs; simpl; try done; by destruct (paused _).
  - split; [naive_solver|]. intros i. unfold clear_run_token. destruct (run_token e) as [o'|]; [destruct (o' =? _)|]; simpl; by right.
  - split; [naive_solver|]. intros i Hi. by right.
  - destruct (pending e) as [[next t]|]; [destruct (is_cancelled e)|]; simpl; (split; [naive_solver|]); intros i Hi; by right.
  - by destruct (Hno st next t).
Qed.
Lemma reported_task i now o (s s' : Sys) : skip_ok s → reported_ok s → exec_run i now o s = Some s' → reported_ok s'.
Proof.
  intros Hok [Hl Hrun] (r & e' & r' & new & Hr & Htask & He & _ & _ & Hts & _)%exec_run_split.
  assert (not_starting r) as Hns. { pose proof (skip_tasks _ Hok) as Ht. rewrite Forall_lookup in Ht. by eapply Ht. }
  pose proof (exec_task_frame _ _ _ _ _ _ _ Htask) as (_ & _ & Hnew). destruct (Hnew (skip_pending _ Hok) Hns) as [-> _].
  rewrite app_nil_r in Hts. destruct (skip_flight _ Hok) as [_ Hone]. rewrite <- (skip_active _ Hok) in Hone.
  destruct (exec_task_state _ _ _ _ _ _ _ Hns Hone (λ o last, Hl i r o last Hr) Htask) as [Hlast Hstate].
  assert (∀ j x, tasks s' !! j = Some x → r' = Some x ∨ ∃ k, tasks s !! k = Some x) as Hback.
  { intros j x. rewrite Hts. destruct r' as [r'|].
    - intros [(_ & <- & _)|[_ Hx]]%list_lookup_insert_Some; [by left|right; by exists j].
    - rewrite list_lookup_delete. intros Hx. right. by eexists. }
  split.
  - intros j x o1 last Hx Hpc. destruct (Hback j x Hx) as [Hx'|[k Hk]]; [by eapply Hlast|by eapply Hl].
  - rewrite He. intros id_ Hid. destruct (Hstate id_ Hid) as [(x & -> & Hxi & Hx)|[Hold Hno]].
    + exists i, x. split; [|done]. rewrite Hts. apply list_lookup_insert_eq. by eapply lookup_lt_Some.
    + destruct (Hrun id_ Hold) as (k & y & Hk & Hyi & Hy). assert (k ≠ i) as Hki.
      { intros ->. rewrite Hr in Hk. injection Hk as <-. by rewrite Hno in Hy. }
      destruct r' as [r'|].
      * exists k, y. split; [|done]. rewrite Hts. by rewrite list_lookup_insert_ne.
      * exists (if decide (k < i)%nat then k else pred k), y. split; [|done]. rewrite Hts, list_lookup_delete.
        destruct (decide (k < i)%nat) as [Hlt|Hge]; [by rewrite decide_True|].
        rewrite decide_False by lia. by replace (S (pred k)) with k by lia.
Qed.
Lemma reported_step ev (s s' : Sys) :
  overlap (job_options s) = Skip → skip_ok s → reported_ok s → exec ev s = Some s' → reported_ok s'.
Proof.
  intros Hpol Hok Hrep Hev. destruct ev as [c|at_|c| |i now o]; simpl in Hev.
  - injection Hev as <-. apply (reported_frame s); [by destruct c| |done]. intros i.
    destruct c; simpl; unfold pause, resume; try destruct (paused _); simpl; try done; by destruct (state _).
  - destruct (driver s); simplify_eq. by apply (reported_frame s).
  - apply (reported_frame s); [| |done]; unfold exec_select in Hev; destruct (driver s); try done; destruct c; case_match; by simplify_eq/=.
  - unfold exec_driver in Hev. destruct (driver s) as [| |[|[t [i|]] rest]|i t rest|rest|i t rest|i t rest|st i t rest| | |] eqn:Hd; simplify_eq/=.
    all: try (by apply (reported_frame s)).
    + apply (reported_frame s); [done| |done]. simpl. unfold mark_pending. by destruct (pending _).
    + apply (reported_frame s); [done| |done]. simpl. unfold cancel_active_run. by destruct (run_token _).
    + destruct (exec_start st i (entry s)) as [e1 [st'|]] eqn:Hst; simplify_eq; apply exec_start_active in Hst as (Hs & _).
      * apply (reported_frame s); [done| |done]. simpl. by rewrite Hs.
      * destruct Hrep as [Hl Hrun]. split; simpl.
        { intros k r o last [Hk|[_ Hk]]%lookup_app_Some Hpc; [by eapply Hl|].
          by apply list_lookup_singleton_Some in Hk as [_ <-]. }
        { rewrite Hs. intros id_ (k & r & Hk & ? & ?)%Hrun. exists k, r. split; [|done]. by apply lookup_app_l_Some. }
  - by eapply reported_task.
Qed.

(** Under [Skip] the state of a job is right in every interleaving: a job
    reported as running has that very run between its recorded start and its
    recorded finish, and once every run has left it is reported otherwise. *)
Theorem skip_reports_running n (e : Entry) run_ids_ (s : Sys) i :
  overlap (options (shared e)) = Skip → fresh_entry e → state (shared e) = Scheduled →
  nsteps step n (initial e run_ids_) s → state (shared (entry s)) = Running i →
  ∃ r, r ∈ tasks s ∧ r_id r = i ∧ recorded r = true.
Proof.
  intros Hpol (Ha & Hp & _) Hst Hs.
  assert (overlap (job_options s) = Skip ∧ skip_ok s ∧ reported_ok s) as (_ & _ & [_ Hrun]).
  { revert n s Hs. apply (nsteps_snoc_ind (λ _ s, overlap (job_options s) = Skip ∧ skip_ok s ∧ reported_ok s)).
    - split; [done|]. split; [by split|]. split; simpl; [done|]. intros k Hk. by rewrite Hst in Hk.
    - intros n ev s s' _ (Hsk & Hok & Hrep) Hev. split; [by rewrite (exec_options _ _ _ Hev)|].
      split; [by eapply skip_step|by eapply reported_step]. }
  intros (k & r & Hk & ? & ?)%Hrun. exists r. split; [by eapply list_elem_of_lookup_2|done].
Qed.
End Reported.

(** ** A body that panics *)

Section Panic.
Context {Cron : Type}.
Abbreviation Entry := (JobEntry Cron).
Abbreviation Sys := (@Sys Cron).

Definition has_panicked (s : Sys) : Prop := ∃ k r, tasks s !! k = Some r ∧ r_pc r = RPanicked.
(** No task takes a step any more, or only to leave. *)
Definition idle_task (r : RunTask) : Prop := r_pc r = RPanicked ∨ r_pc r = RTakePending.
Lemma panicked_step ev (s s' : Sys) : has_panicked s → exec ev s = Some s' → has_panicked s'.
Proof.
  intros (k & r & Hk & Hr) Hev. destruct ev as [c|at_|c| |i now o]; simpl in Hev.
  - injection Hev as <-. exists k, r. by destruct c.
  - destruct (driver s); simplify_eq. by exists k, r.
  - unfold exec_select in Hev. destruct (driver s); try done. destruct c; case_match; simplify_eq/=; by exists k, r.
  - unfold exec_driver in Hev.
    destruct (driver s) as [| |[|[t [i|]] rest]|i t rest|rest|i t rest|i t rest|st i t rest| | |]; simplify_eq/=; try (by exists k, r).
    destruct (exec_start st i (entry s)) as [e1 [st'|]]; simplify_eq; [by exists k, r|].
    exists k, r. split; [|done]. by apply lookup_app_l_Some.
  - apply exec_run_split in Hev as (x & e' & r' & new & Hx & Htask & _ & _ & _ & Hts & _).
    assert (k ≠ i) as Hki by (intros ->; simplify_eq; unfold exec_task in Htask; by rewrite Hr in Htask).
    exists (match r' with Some _ => k | None => if decide (k < i)%nat then k else pred k end), r. split; [|done]. rewrite Hts.
    apply lookup_app_l_Some. destruct r' as [r'|]; [by rewrite list_lookup_insert_ne|]. rewrite list_lookup_delete.
    destruct (decide (k < i)%nat); [by rewrite decide_True|]. rewrite decide_False by lia. by replace (S (pred k)) with k by lia.
Qed.
Lemma panicked_idle (s : Sys) : skip_ok s → has_panicked s → Forall idle_task (tasks s) ∧ active (entry s) = 1.
Proof.
  intros [_ Ht Ha [_ Hle] _] (k & r & Hk & Hr). destruct (tasks_counted_split _ _ _ Hk) as [Hc _].
  assert (task_counted r = 1) as Hr1 by (unfold task_counted; by rewrite Hr).
  pose proof (tasks_counted_nonneg (delete k (tasks s))) as Hpos. pose proof (driver_counted_nonneg (driver s)) as Hdpos.
  unfold in_flight in *. split; [|lia]. apply Forall_lookup. intros j x Hj. destruct (decide (j = k)) as [->|Hjk].
  - simplify_eq. by left.
  - right. rewrite Forall_lookup in Ht. pose proof (Ht j x Hj) as Hns.
    assert (∃ j', delete k (tasks s) !! j' = Some x) as [j' Hj'].
    { exists (if decide (j < k)%nat then j else pred j). rewrite list_lookup_delete. destruct (decide (j < k)%nat); [by rewrite decide_True|].
      rewrite decide_False by lia. by replace (S (pred j)) with j by lia. }
    destruct (tasks_counted_split _ _ _ Hj') as [Hcx _]. pose proof (tasks_counted_nonneg (delete j' (delete k (tasks s)))).
    pose proof (counted_bounds x). assert (task_counted x = 0) as Hx0 by lia. unfold task_counted in Hx0.
    destruct (r_pc x) eqn:Hx; try done. by destruct (Hns _ _ _ Hx).
Qed.

(** Under [Skip], once the body of a run has panicked no run of the job ever
    starts again: the count stays at one, so every later firing is skipped. *)
Theorem panic_blocks_skip n m (e : Entry) run_ids_ (s s' : Sys) :
  overlap (options (shared e)) = Skip → fresh_entry e → nsteps step n (initial e run_ids_) s →
  (∃ k r, tasks s !! k = Some r ∧ r_pc r = RPanicked) → nsteps step m s s' →
  Forall (λ r, r_pc r = RPanicked ∨ r_pc r = RTakePending) (tasks s') ∧ active (entry s') = 1.
Proof.
  intros Hpol Hf Hs Hpan Hs'. apply panicked_idle.
  - refine (proj2 (skip_invariant (n + m) e run_ids_ s' Hpol Hf _)). by eapply nsteps_trans.
  - clear -Hpan Hs'. induction Hs' as [|m s s1 s' [ev Hev] _ IH]; [done|]. apply IH. by eapply panicked_step.
Qed.
End Panic.

(** ** Races and other schedules *)

Definition j_options (p : OverlapPolicy) : JobOptions := mkOptions false None None p None None.
Definition j_entry (p : OverlapPolicy) : JobEntry unit :=
  JobEntry_new 0 (mkMetadata "job" [] None) (Every 1000) (j_options p).
Definition j_init (p : OverlapPolicy) : @Sys unit := initial (j_entry p) 0.
(** One firing of the schedule, up to the spawned run; and a run's own steps. *)
Definition fire_idle : list (@Event unit) := [ESelect STick; EDriver; EDriver; EDriver; EDriver; EDriver].
Definition run_steps (i k : nat) : list (@Event unit) := replicate k (ERun i 0 (Returns Success)).

(** Under [QueueOne] two runs can be in flight at once. The finishing run
    leaves the count and takes the deferred firing; before it starts that run,
    the schedule fires, finds the count at zero and starts another. *)
Theorem queue_one_overlaps :
  ∃ s, reachable (j_entry QueueOne) 0 s ∧ active (entry s) = 2 ∧
    (r_pc <$> tasks s) = [RBody; RBody].
Proof.
  destruct (exec_all ([EDriver] ++ fire_idle ++                         (* run 0 *)
      [ESelect STick; EDriver; EDriver; EDriver; EDriver] ++            (* run 1 deferred *)
      run_steps 0 8 ++                                                   (* run 0 leaves, takes run 1 *)
      fire_idle ++                                                       (* run 2 *)
      run_steps 0 2 ++ run_steps 0 2 ++ run_steps 1 2) (j_init QueueOne)) as [s|] eqn:H; [|exfalso; vm_compute in H; discriminate].
  exists s. split; [by eapply exec_all_reachable|]. vm_compute in H. injection H as <-. split; reflexivity.
Qed.

(** Under [QueueOne] a firing can be deferred for good. The driver sees a
    run in flight and decides to defer; the run leaves and finds nothing deferred;
    then the firing is stored. The job is idle and nothing will start it. *)
Theorem queue_one_strands_firing :
  ∃ s, reachable (j_entry QueueOne) 0 s ∧ driver s = DLoop ∧ tasks s = [] ∧ active (entry s) = 0 ∧
    pending (entry s) = Some (1, BySchedule).
Proof.
  destruct (exec_all ([EDriver] ++ fire_idle ++ [ESelect STick; EDriver; EDriver] ++ run_steps 0 8 ++ [EDriver; EDriver])
              (j_init QueueOne)) as [s|] eqn:H; [|exfalso; vm_compute in H; discriminate].
  exists s. split; [by eapply exec_all_reachable|]. vm_compute in H. injection H as <-. repeat split; reflexivity.
Qed.

(** Under [Allow] a job can be reported as running for good. Two runs finish
    together: each reads a count of two, so neither takes itself for the last,
    and both leave; no run is in flight and the state is still [Running]. *)
Theorem allow_stays_running :
  ∃ s, reachable (j_entry Allow) 0 s ∧ driver s = DLoop ∧ tasks s = [] ∧ active (entry s) = 0 ∧
    state (shared (entry s)) = Running 1.
Proof.
  destruct (exec_all ([EDriver] ++ fire_idle ++ fire_idle ++ run_steps 0 4 ++ run_steps 1 4 ++ run_steps 0 8)
              (j_init Allow)) as [s|] eqn:H; [|exfalso; vm_compute in H; discriminate].
  exists s. split; [by eapply exec_all_reachable|]. vm_compute in H. injection H as <-. repeat split; reflexivity.
Qed.

(** Cancelling through a handle after the job has ended takes the job back
    from [Cancelled], which is documented as terminal, to [Cancelling]. *)
Theorem cancel_undoes_cancelled :
  ∃ s s', reachable (j_entry Skip) 0 s ∧ driver s = DDone ∧ state (shared (entry s)) = Cancelled ∧
    exec (EControl CCancel) s = Some s' ∧ state (shared (entry s')) = Cancelling.
Proof.
  destruct (exec_all [EDriver; EControl CCancel; ESelect SCancelled; EDriver; EDriver] (j_init Skip)) as [s|] eqn:H;
    [|exfalso; vm_compute in H; discriminate].
  exists s. eexists. split; [by eapply exec_all_reachable|]. vm_compute in H. injection H as <-. repeat split; reflexivity.
Qed.

(** ** Witnesses *)

Lemma j_fresh p : fresh_entry (j_entry p).
Proof. done. Qed.
Definition j_trace : list (@Event unit) := [EDriver] ++ fire_idle ++ run_steps 0 3.
Lemma exec_all_nsteps {evs} {s0 s : @Sys unit} : exec_all evs s0 = Some s → nsteps step (length evs) s0 s.
Proof.
  revert s0. induction evs as [|ev evs IH]; intros s0; simpl.
  - intros [= ->]. constructor.
  - destruct (exec ev s0) as [s1|] eqn:Hev; simpl; [|done]. intros H. econstructor; [by exists ev|]. by apply IH.
Qed.
Lemma j_nsteps {p evs s} : exec_all evs (j_init p) = Some s → nsteps step (length evs) (initial (j_entry p) 0) s.
Proof. exact exec_all_nsteps. Qed.
Lemma active_counts_runs_witness :
  ∃ s, reachable (j_entry Allow) 0 s ∧ 0 ≤ in_flight s ∧ active (entry s) = in_flight s mod 2 ^ 64.
Proof.
  destruct (exec_all j_trace (j_init Allow)) as [s|] eqn:H; [|exfalso; vm_compute in H; discriminate].
  exists s. assert (reachable (j_entry Allow) 0 s) as Hr by exact (exec_all_reachable _ _ _ H).
  split; [exact Hr|]. apply (active_counts_runs (j_entry Allow) 0 s); [reflexivity|exact Hr].
Defined.
Lemma skip_never_overlaps_witness :
  ∃ s, reachable (j_entry Skip) 0 s ∧ in_flight s ≤ 1.
Proof.
  destruct (exec_all j_trace (j_init Skip)) as [s|] eqn:H; [|exfalso; vm_compute in H; discriminate].
  exists s. split; [exact (exec_all_reachable _ _ _ H)|].
  exact (proj1 (skip_never_overlaps _ (j_entry Skip) 0 s eq_refl (j_fresh Skip) (j_nsteps H))).
Defined.
(** Two runs in flight, of which the second is the uncancelled one. *)
Lemma cancel_previous_leaves_one_witness :
  ∃ s, reachable (j_entry CancelPrevious) 0 s ∧ length (tasks s) = 2%nat ∧
    ∀ i r, tasks s !! i = Some r → live r = true → run_cancelled (r_id r) (entry s) = false → i = 1%nat.
Proof.
  destruct (exec_all ([EDriver] ++ [ESelect STick; EDriver; EDriver; EDriver; EDriver; EDriver; EDriver] ++
                      [ESelect STick; EDriver; EDriver; EDriver; EDriver; EDriver; EDriver]) (j_init CancelPrevious)) as [s|] eqn:H;
    [|exfalso; vm_compute in H; discriminate].
  pose proof (j_nsteps H) as Hn.
  exists s. split; [exact (exec_all_reachable _ _ _ H)|].
  vm_compute in H. injection H as <-. split; [reflexivity|]. intros i r Hi Hlive Hc.
  refine (cancel_previous_leaves_one _ (j_entry CancelPrevious) 0 _ i 1 r (mkTask 1 BySchedule RJitter)
            _ (j_fresh CancelPrevious) _ _ Hn Hi _ Hlive _ Hc _); try reflexivity; try discriminate.
Defined.
Lemma run_ids_unique_witness :
  ∃ s, reachable (j_entry Skip) 0 s ∧ NoDup (all_ids s).
Proof.
  destruct (exec_all j_trace (j_init Skip)) as [s|] eqn:H; [|exfalso; vm_compute in H; discriminate].
  exists s. split; [exact (exec_all_reachable _ _ _ H)|].
  refine (proj1 (run_ids_unique _ (j_entry Skip) 0 s (j_fresh Skip) _ _ (j_nsteps H))); [discriminate|reflexivity].
Defined.

Lemma skip_reports_running_witness :
  ∃ s, reachable (j_entry Skip) 0 s ∧ ∃ r, r ∈ tasks s ∧ r_id r = 0 ∧ recorded r = true.
Proof.
  destruct (exec_all j_trace (j_init Skip)) as [s|] eqn:H; [|exfalso; vm_compute in H; discriminate].
  exists s. split; [exact (exec_all_reachable _ _ _ H)|].
  refine (skip_reports_running _ (j_entry Skip) 0 s 0 eq_refl (j_fresh Skip) eq_refl (j_nsteps H) _).
  vm_compute in H. injection H as <-. reflexivity.
Defined.
Definition p_trace : list (@Event unit) := [EDriver] ++ fire_idle ++ run_steps 0 2 ++ [ERun 0 0 Panics].
Lemma panic_blocks_skip_witness :
  ∃ s s', nsteps step (length p_trace) (initial (j_entry Skip) 0) s ∧ nsteps step 4 s s' ∧
    skipped_count (shared (entry s')) = 1 ∧ active (entry s') = 1.
Proof.
  destruct (exec_all p_trace (j_init Skip)) as [s|] eqn:H; [|exfalso; vm_compute in H; discriminate].
  destruct (exec_all [ESelect STick; EDriver; EDriver; EDriver] s) as [s'|] eqn:H'; [|exfalso; vm_compute in H; injection H as <-; vm_compute in H'; discriminate].
  pose proof (j_nsteps H) as Hn. pose proof (exec_all_nsteps H') as Hn'.
  exists s, s'. split; [exact Hn|]. split; [exact Hn'|].
  split; [vm_compute in H; injection H as <-; vm_compute in H'; injection H' as <-; reflexivity|].
  refine (proj2 (panic_blocks_skip _ _ (j_entry Skip) 0 s s' eq_refl (j_fresh Skip) Hn _ Hn')).
  vm_compute in H. injection H as <-. eexists 0%nat, _. split; reflexivity.
Defined.
