(* ===== verification/JobLog.v ===== *)
(** * JobLog: the records a run leaves behind

    Models [crates/jobs/src/log.rs]: the bounded in-memory store of log records
    and the tracing layer that feeds it. The store's two locks are taken
    together, so [record] is one step; the layer is a producer that never
    blocks, the drain task the consumer, and [Capture] interleaves them.

    A time stamp is nanoseconds since the epoch, a duration nanoseconds. What
    [tracing] hands the layer (the severity of an event, the fields of a span or
    event with their values, the spans around an event from the innermost out)
    is the input of its operations; [Other] carries the [Debug] text of a value
    that is neither a [u64] nor a string. *)
From S2P Require Import Prelude JobEntry.

(** [tracing::Level] orders ERROR below TRACE, [JobLogLevel] the other way round. *)
Inductive Level := TRACE | DEBUG | INFO | WARN | ERROR.
Definition level_rank (l : Level) : Z :=
  match l with ERROR => 1 | WARN => 2 | INFO => 3 | DEBUG => 4 | TRACE => 5 end.
Inductive JobLogLevel := Trace | Debug | Info | Warn | Error.
Definition JobLogLevel_from (l : Level) : JobLogLevel :=
  match l with TRACE => Trace | DEBUG => Debug | INFO => Info | WARN => Warn | ERROR => Error end.
Definition log_rank (l : JobLogLevel) : Z :=
  match l with Trace => 0 | Debug => 1 | Info => 2 | Warn => 3 | Error => 4 end.

Record JobLogRecord := mkRecord {
  l_run_id : JobRunId; l_job_id : JobId; l_job_name : string; timestamp : Z; level : JobLogLevel;
  target : string; l_message : string }.
(** [JobLogRecord::size] *)
Definition size (r : JobLogRecord) : Z := str_len (l_message r) + str_len (target r).

Record JobLogConfig := mkLogConfig {
  enabled : bool; max_runs : nat; max_bytes_per_run : Z; ttl : Z; capture_level : Level }.
Definition JobLogConfig_default : JobLogConfig := mkLogConfig true 128 (64 * 1024) (3600 * 10 ^ 9) INFO.

Record RunLog := mkRunLog { log_records : list JobLogRecord; bytes : Z; first_seen : Z }.
Record Store := mkStore { runs : gmap JobRunId RunLog; order : list JobRunId }.
Definition InMemoryJobLogStore_new : Store := mkStore ∅ [].

(** ** [InMemoryJobLogStore::record] *)

(** [now.duration_since(first_seen).map(|age| age <= ttl).unwrap_or(true)] *)
Definition is_live (c : JobLogConfig) (now : Z) (log : RunLog) : bool :=
  if now <? first_seen log then true else now - first_seen log <=? ttl c.
Definition run_live (c : JobLogConfig) (now : Z) (p : JobRunId * RunLog) : Prop := is_live c now p.2 = true.
#[export] Instance run_live_dec c now p : Decision (run_live c now p).
Proof. unfold run_live. apply _. Defined.
Definition drop_expired (c : JobLogConfig) (now : Z) (s : Store) : Store :=
  let live := filter (run_live c now) (runs s) in
  mkStore live (filter (λ i, is_Some (live !! i)) (order s)).
(** [runs.entry(run_id).or_insert_with(..)] *)
Definition entry_or_insert (run_id : JobRunId) (now : Z) (s : Store) : RunLog * list JobRunId :=
  match runs s !! run_id with
  | Some log => (log, order s)
  | None => (mkRunLog [] 0 now, order s ++ [run_id])
  end.
(** [while log.bytes > max && log.records.len() > 1 { pop_front }] *)
Fixpoint shed (max n : Z) (l : list JobLogRecord) : list JobLogRecord * Z :=
  match l with
  | dropped :: (_ :: _) as l' => if max <? n then shed max (Z.max 0 (n - size dropped)) l' else (l, n)
  | _ => (l, n)
  end.
Definition push_record (max : Z) (event : JobLogRecord) (log : RunLog) : RunLog :=
  let '(l, n) := shed max (bytes log + size event) (log_records log ++ [event]) in mkRunLog l n (first_seen log).
(** [while order.len() > max_runs { pop_front; remove }] *)
Fixpoint evict (fuel : nat) (max : nat) (s : Store) : Store :=
  match fuel, order s with
  | S fuel, evicted :: rest =>
      if (max <? length (order s))%nat then evict fuel max (mkStore (delete evicted (runs s)) rest) else s
  | _, _ => s
  end.
Definition record (c : JobLogConfig) (event : JobLogRecord) (s : Store) : Store :=
  if negb (enabled c) then s
  else
    let now := timestamp event in
    let s := drop_expired c now s in
    let '(log, order') := entry_or_insert (l_run_id event) now s in
    let s := mkStore (<[l_run_id event := push_record (max_bytes_per_run c) event log]> (runs s)) order' in
    evict (length (order s)) (max_runs c) s.
(** [InMemoryJobLogStore::records] *)
Definition records (run_id : JobRunId) (limit : nat) (s : Store) : list JobLogRecord :=
  match runs s !! run_id with
  | None => []
  | Some log => drop (length (log_records log) - limit) (log_records log)
  end.
(** [NoopJobLogStore], whose state is empty. *)
Definition noop_record (event : JobLogRecord) (s : unit) : unit := s.
Definition noop_records (run_id : JobRunId) (limit : nat) (s : unit) : list JobLogRecord := [].

(** ** The layer *)

Inductive FieldValue := U64 (n : Z) | Str (s : string) | Other (text : string).
Abbreviation Fields := (list (string * FieldValue)).
Definition RUN_SPAN_NAME : string := "job.run".
Record RunSpanFields := mkRunSpan { sp_run_id : JobRunId; sp_job_id : JobId; sp_job_name : string }.

Record RunFieldsVisitor := mkRunVisitor {
  v_run_id : option Z; v_job_id : option Z; v_job_name : option string }.
(** [record_u64], [record_debug] and [record_str] of [RunFieldsVisitor]. *)
Definition visit_run_field (v : RunFieldsVisitor) (f : string * FieldValue) : RunFieldsVisitor :=
  match f.2 with
  | U64 n =>
      if bool_decide (f.1 = "run_id") then mkRunVisitor (Some n) (v_job_id v) (v_job_name v)
      else if bool_decide (f.1 = "job_id") then mkRunVisitor (v_run_id v) (Some n) (v_job_name v)
      else v
  | Str s | Other s =>
      if bool_decide (f.1 = "job_name") then mkRunVisitor (v_run_id v) (v_job_id v) (Some s) else v
  end.
(** [on_new_span]: what it stashes in the span's extensions. *)
Definition on_new_span (name : string) (attrs : Fields) : option RunSpanFields :=
  if bool_decide (name = RUN_SPAN_NAME) then
    let v := foldl visit_run_field (mkRunVisitor None None None) attrs in
    match v_run_id v, v_job_id v, v_job_name v with
    | Some r, Some j, Some n => Some (mkRunSpan r j n)
    | _, _, _ => None
    end
  else None.

Record MessageVisitor := mkMessage { msg : string; msg_fields : string }.
(** [record_debug] and [record_str] of [MessageVisitor]; a [u64] reaches the former
    through the trait's default. *)
Definition field_text (v : FieldValue) : string :=
  match v with U64 n => int_to_string n | Str s | Other s => s end.
Definition visit_message (v : MessageVisitor) (f : string * FieldValue) : MessageVisitor :=
  if bool_decide (f.1 = "message") then mkMessage (field_text f.2) (msg_fields v)
  else mkMessage (msg v) (msg_fields v +:+ (" " +:+ f.1 +:+ "=" +:+ field_text f.2)).
Definition render (v : MessageVisitor) : string :=
  if str_is_empty (msg_fields v) then msg v
  else (if str_is_empty (msg v) then msg v else str_push (msg v) " ") +:+ trim_start (msg_fields v).

(** An event as the layer sees it: [scope] are the stashed fields of the spans
    around it, innermost first; [at_] is the clock's reading. *)
Record TracingEvent := mkEvent {
  e_level : Level; e_target : string; e_fields : Fields; scope : list (option RunSpanFields); at_ : Z }.
(** [on_event] up to the [try_send]. *)
Definition on_event (capture : Level) (e : TracingEvent) : option JobLogRecord :=
  if level_rank capture <? level_rank (e_level e) then None
  else
    run ← head (omap (λ stash, stash) (scope e));
    let v := foldl visit_message (mkMessage "" "") (e_fields e) in
    Some (mkRecord (sp_run_id run) (sp_job_id run) (sp_job_name run) (at_ e) (JobLogLevel_from (e_level e))
            (e_target e) (render v)).

Definition CAPTURE_CHANNEL_CAPACITY : nat := Z.to_nat 8192.
(** The channel and the store its drain task writes; [open] is false once the
    receiver is gone. The layer has a severity of its own; the store's is not consulted. *)
Record Capture := mkCapture { queue : list JobLogRecord; store : Store; open : bool }.
Definition JobLogLayer_new (s : Store) : Capture := mkCapture [] s true.
Definition try_send (r : JobLogRecord) (s : Capture) : Capture :=
  if open s && (length (queue s) <? CAPTURE_CHANNEL_CAPACITY)%nat then mkCapture (queue s ++ [r]) (store s) true else s.
Inductive CaptureStep := Emit (e : TracingEvent) | Drain | RuntimeStops.
Definition exec_capture (capture : Level) (c : JobLogConfig) (st : CaptureStep) (s : Capture) : Capture :=
  match st with
  | Emit e => match on_event capture e with Some r => try_send r s | None => s end
  | Drain => match queue s with r :: q => mkCapture q (record c r (store s)) (open s) | [] => s end
  | RuntimeStops => mkCapture [] (store s) false
  end.
Definition run_capture (capture : Level) (c : JobLogConfig) (sts : list CaptureStep) (s : Capture) : Capture :=
  foldl (λ s st, exec_capture capture c st s) s sts.

(** ** The store as one list of runs

    A map and a queue that must agree, against a single list of runs in the
    order they were first seen. *)

Definition sizes (l : list JobLogRecord) : Z := foldr (λ r n, size r + n) 0 l.
Definition spec_push (max : Z) (event : JobLogRecord) (p : JobRunId * RunLog) : JobRunId * RunLog :=
  if bool_decide (p.1 = l_run_id event) then (p.1, push_record max event p.2) else p.
Definition spec_record (c : JobLogConfig) (event : JobLogRecord) (l : list (JobRunId * RunLog)) : list (JobRunId * RunLog) :=
  if negb (enabled c) then l
  else
    let l := filter (run_live c (timestamp event)) l in
    let l := if bool_decide (l_run_id event ∈ l.*1) then spec_push (max_bytes_per_run c) event <$> l
             else l ++ [(l_run_id event, push_record (max_bytes_per_run c) event (mkRunLog [] 0 (timestamp event)))] in
    drop (length l - max_runs c) l.
Record stands_for (s : Store) (l : list (JobRunId * RunLog)) : Prop := {
  sf_nodup : NoDup l.*1;
  sf_order : order s = l.*1;
  sf_runs : runs s = list_to_map l;
}.

Lemma stands_for_elem s l i log : stands_for s l → runs s !! i = Some log ↔ (i, log) ∈ l.
Proof. intros [Hn _ ->]. symmetry. by apply elem_of_list_to_map. Qed.
Lemma filter_keys {A} (P : JobRunId * A → Prop) `{!∀ p, Decision (P p)} (Q : JobRunId → Prop) `{!∀ i, Decision (Q i)} l :
  (∀ p, p ∈ l → P p ↔ Q p.1) → filter Q l.*1 = (filter P l).*1.
Proof.
  induction l as [|p l IH]; intros Hpq; [done|]. csimpl. rewrite !filter_cons, IH by set_solver.
  specialize (Hpq p (list_elem_of_here _ _)). repeat case_decide; tauto.
Qed.
Lemma NoDup_keys_filter {A} (P : JobRunId * A → Prop) `{!∀ p, Decision (P p)} (l : list (JobRunId * A)) :
  NoDup l.*1 → NoDup (filter P l).*1.
Proof. intros Hn. eapply sublist_NoDup; [done|]. apply fmap_sublist, sublist_filter. Qed.
Lemma drop_expired_stands_for c now s l :
  stands_for s l → stands_for (drop_expired c now s) (filter (run_live c now) l).
Proof.
  intros R. pose proof R as [Hn Ho Hr].
  assert (Hm : filter (run_live c now) (runs s) = list_to_map (filter (run_live c now) l)).
  { apply map_eq. intros i. apply option_eq. intros log.
    rewrite map_lookup_filter_Some, <- elem_of_list_to_map by by apply NoDup_keys_filter.
    rewrite list_elem_of_filter, (stands_for_elem s l) by done. unfold run_live. tauto. }
  unfold drop_expired. rewrite Hm.
  split; cbn [runs order]; [by apply NoDup_keys_filter | | done]. rewrite Ho. apply filter_keys. intros [i log] Hi. cbn [fst]. split.
  - intros Hl. exists log. apply elem_of_list_to_map; [by apply NoDup_keys_filter|]. by apply list_elem_of_filter.
  - intros [log' Hl]. apply elem_of_list_to_map in Hl; [|by apply NoDup_keys_filter].
    apply list_elem_of_filter in Hl as [Hlive Hi'].
    rewrite <- (stands_for_elem s l) in Hi, Hi' by done. by simplify_eq.
Qed.
Lemma spec_push_keys max event l : (spec_push max event <$> l).*1 = l.*1.
Proof.
  rewrite <- list_fmap_compose. apply list_fmap_ext. intros _ p _. unfold spec_push, compose. by case_bool_decide.
Qed.
Lemma push_stands_for max event s l :
  stands_for s l →
  let '(log, order') := entry_or_insert (l_run_id event) (timestamp event) s in
  stands_for (mkStore (<[l_run_id event := push_record max event log]> (runs s)) order')
    (if bool_decide (l_run_id event ∈ l.*1) then spec_push max event <$> l
     else l ++ [(l_run_id event, push_record max event (mkRunLog [] 0 (timestamp event)))]).
Proof.
  intros R. pose proof R as [Hn Ho Hr]. unfold entry_or_insert.
  destruct (runs s !! l_run_id event) as [log|] eqn:Hlog.
  - pose proof Hlog as Hin. rewrite (stands_for_elem s l) in Hin by done.
    rewrite bool_decide_true by (apply list_elem_of_fmap; by exists (l_run_id event, log)).
    split; simpl; rewrite ?spec_push_keys; [done..|]. apply map_eq. intros i. apply option_eq. intros log'.
    rewrite <- elem_of_list_to_map by by rewrite spec_push_keys.
    rewrite list_elem_of_fmap. rewrite lookup_insert_Some. split.
    + intros [[<- <-]|[Hne Hl]].
      * exists (l_run_id event, log). split; [|done]. unfold spec_push. by rewrite bool_decide_true.
      * exists (i, log'). split; [|by apply (stands_for_elem s l)]. unfold spec_push. simpl. by rewrite bool_decide_false.
    + intros [[i' log0] [He Hin']]. unfold spec_push in He. simpl in He. case_bool_decide; simplify_eq/=.
      * left. split; [done|]. rewrite <- (stands_for_elem s l) in Hin' by done. by simplify_eq.
      * right. split; [done|]. by apply (stands_for_elem s l).
  - assert (l_run_id event ∉ l.*1) as Hnew.
    { intros [[i log] [He Hin]]%list_elem_of_fmap. simpl in He. rewrite <- (stands_for_elem s l) in Hin by done. congruence. }
    rewrite bool_decide_false by done. split; simpl.
    + rewrite fmap_app. apply NoDup_app. split; [done|]. split; [|apply NoDup_singleton]. simpl. set_solver.
    + rewrite fmap_app. simpl. by rewrite Ho.
    + rewrite list_to_map_snoc by done. by rewrite Hr.
Qed.
Lemma evict_stands_for fuel max s l :
  stands_for s l → (length l ≤ fuel)%nat → stands_for (evict fuel max s) (drop (length l - max) l).
Proof.
  revert s l. induction fuel as [|fuel IH]; intros s l R Hf.
  - destruct l; simpl in Hf; [|lia]. by destruct s as [? []].
  - pose proof R as [Hn Ho Hr]. cbn [evict]. destruct l as [|[i log] l]; rewrite Ho; csimpl; [done|].
    rewrite length_fmap. case_match eqn:Hlt.
    + apply Nat.ltb_lt in Hlt.
      replace (S (length l) - max)%nat with (S (length l - max)) by lia. simpl. apply IH; [|simpl in Hf; lia].
      csimpl in Hn. apply NoDup_cons in Hn as [Hi Hn]. split; simpl; [done..|]. rewrite Hr. simpl.
      apply delete_insert_id. by apply not_elem_of_list_to_map.
    + apply Nat.ltb_ge in Hlt. by replace (S (length l) - max)%nat with 0%nat by lia.
Qed.
Lemma record_stands_for c event s l : stands_for s l → stands_for (record c event s) (spec_record c event l).
Proof.
  intros R. unfold record, spec_record. destruct (enabled c); simpl; [|done].
  apply (drop_expired_stands_for c (timestamp event)) in R. apply (push_stands_for (max_bytes_per_run c) event) in R.
  destruct (entry_or_insert _ _ _) as [log order']. apply evict_stands_for; [done|].
  pose proof (sf_order _ _ R) as Ho. cbn [order] in *. by rewrite Ho, length_fmap.
Qed.

(** ** What a run's buffer holds *)

Lemma sizes_nonneg l : 0 ≤ sizes l.
Proof. induction l as [|r l IH]; simpl; [lia|]. unfold size, str_len. lia. Qed.
Lemma shed_spec max l n l' n' :
  shed max n l = (l', n') → l ≠ [] → n = sizes l →
  n' = sizes l' ∧ last l' = last l ∧ (n' ≤ max ∨ length l' = 1%nat) ∧
  ∃ gone, l = gone ++ l' ∧ (∀ d, last gone = Some d → max < size d + sizes l').
Proof.
  revert n. induction l as [|r l IH]; intros n Hs Hne Hn; [done|]. destruct l as [|r2 l].
  - simplify_eq/=. split_and!; [done..|by right|]. by exists [].
  - cbn [shed] in Hs. case_match eqn:Hlt.
    + apply Z.ltb_lt in Hlt. apply IH in Hs as (? & ? & ? & gone & Hl & Hg); [|done|].
      * split_and!; [done..|]. exists (r :: gone). split; [by rewrite Hl|].
        intros d Hd. destruct gone as [|g gone].
        -- by simplify_eq/=.
        -- apply Hg. by rewrite <- Hd.
      * rewrite Hn. pose proof (sizes_nonneg (r2 :: l)). simpl in *. lia.
    + apply Z.ltb_ge in Hlt. simplify_eq. split_and!; [done..|by left|]. by exists [].
Qed.

(** A run's buffer, after the records [seen] of all runs were handed over. *)
Record log_ok (c : JobLogConfig) (seen : list JobLogRecord) (p : JobRunId * RunLog) : Prop := {
  lo_nonempty : log_records p.2 ≠ [];
  lo_bytes : bytes p.2 = sizes (log_records p.2);
  lo_bound : bytes p.2 ≤ max_bytes_per_run c ∨ length (log_records p.2) = 1%nat;
  lo_suffix : log_records p.2 `suffix_of` filter (λ r, l_run_id r = p.1) seen;
}.
Lemma push_record_spec max event log :
  bytes log = sizes (log_records log) →
  let log' := push_record max event log in
  log_records log' ≠ [] ∧ bytes log' = sizes (log_records log') ∧ (bytes log' ≤ max ∨ length (log_records log') = 1%nat) ∧
  last (log_records log') = Some event ∧ log_records log' `suffix_of` log_records log ++ [event].
Proof.
  intros Hb. unfold push_record. destruct (shed max _ _) as [l n] eqn:Hs. simpl.
  apply shed_spec in Hs as (-> & Hl & Hm & gone & Hg & _).
  - rewrite last_snoc in Hl. split_and!; [by intros ->|done..|]. by exists gone.
  - by destruct (log_records log).
  - rewrite Hb. unfold sizes. rewrite foldr_app. simpl.
    generalize (log_records log). induction l0 as [|r l0 IH]; simpl; lia.
Qed.
Lemma log_ok_other c seen event p :
  l_run_id event ≠ p.1 → log_ok c seen p → log_ok c (seen ++ [event]) p.
Proof.
  intros Hne [? ? ? ?]. split; [done..|]. by rewrite filter_app, filter_cons_False, filter_nil, app_nil_r.
Qed.
Lemma log_ok_push c seen event p :
  l_run_id event = p.1 → bytes p.2 = sizes (log_records p.2) →
  log_records p.2 `suffix_of` filter (λ r, l_run_id r = p.1) seen →
  log_ok c (seen ++ [event]) (p.1, push_record (max_bytes_per_run c) event p.2).
Proof.
  intros Hr Hb Hs. destruct (push_record_spec (max_bytes_per_run c) event p.2 Hb) as (? & ? & ? & _ & Hsuf).
  split; simpl; [done..|]. rewrite filter_app, filter_cons_True, filter_nil by done.
  etrans; [exact Hsuf|]. by apply suffix_app.
Qed.
Record runs_ok (c : JobLogConfig) (seen : list JobLogRecord) (l : list (JobRunId * RunLog)) : Prop := {
  ro_logs : Forall (log_ok c seen) l;
  ro_few : (length l ≤ max_runs c)%nat;
  ro_enabled : enabled c = false → l = [];
}.
Lemma spec_record_ok c seen event l :
  runs_ok c seen l → runs_ok c (seen ++ [event]) (spec_record c event l).
Proof.
  intros [Hl Hm He]. unfold spec_record. destruct (enabled c) eqn:Hen; simpl;
    [|rewrite He by done; split; [by constructor|simpl; lia|done]].
  split; [|rewrite length_drop; lia|congruence]. apply Forall_drop.
  assert (Hlive : Forall (log_ok c seen) (filter (run_live c (timestamp event)) l)).
  { apply Forall_forall. intros p [_ Hp]%list_elem_of_filter. by eapply Forall_forall in Hl. }
  clear Hl. rename Hlive into Hl.
  case_bool_decide as Hin.
  - apply Forall_fmap. eapply Forall_impl; [exact Hl|]. intros p Hp. unfold compose, spec_push.
    case_bool_decide as Hr; [|by apply log_ok_other]. destruct Hp. by apply log_ok_push.
  - apply Forall_app. split.
    + apply Forall_forall. intros p Hp. apply log_ok_other; [|by eapply Forall_forall in Hl].
      intros Heq. apply Hin. rewrite Heq. by apply list_elem_of_fmap_2.
    + constructor; [|done]. apply (log_ok_push c seen event (l_run_id event, mkRunLog [] 0 (timestamp event))); [done..|].
      apply suffix_nil.
Qed.
Definition record_all (c : JobLogConfig) (seen : list JobLogRecord) : Store :=
  foldl (λ s e, record c e s) InMemoryJobLogStore_new seen.
Lemma record_all_ok c seen : ∃ l, stands_for (record_all c seen) l ∧ runs_ok c seen l.
Proof.
  induction seen as [|event seen IH] using rev_ind.
  - exists []. split; [split; simpl; [constructor|done..]|]. split; simpl; [constructor|lia|done].
  - destruct IH as (l & R & Hok). exists (spec_record c event l). unfold record_all. rewrite foldl_app.
    split; [by apply record_stands_for | by apply spec_record_ok].
Qed.

(** ** Properties *)

Definition spec_all (c : JobLogConfig) (seen : list JobLogRecord) : list (JobRunId * RunLog) :=
  foldl (λ l e, spec_record c e l) [] seen.
Definition spec_records (run_id : JobRunId) (limit : nat) (l : list (JobRunId * RunLog)) : list JobLogRecord :=
  match head (filter (λ p, p.1 = run_id) l) with
  | Some p => drop (length (log_records p.2) - limit) (log_records p.2)
  | None => []
  end.
(** The map and the queue behave as one bounded list of runs, in the order they were
    first seen, after any sequence of records. *)
Theorem log_store_refines_list c seen :
  stands_for (record_all c seen) (spec_all c seen) ∧
  ∀ run_id limit, records run_id limit (record_all c seen) = spec_records run_id limit (spec_all c seen).
Proof.
  assert (R : stands_for (record_all c seen) (spec_all c seen)).
  { unfold record_all, spec_all. induction seen as [|event seen IH] using rev_ind; [split; simpl; [constructor|done..]|].
    rewrite !foldl_app. by apply record_stands_for. }
  split; [done|]. intros run_id limit. unfold records, spec_records. destruct (head _) as [[i log]|] eqn:Hh.
  - destruct (filter _ _) as [|p l] eqn:Hf; [done|]. simplify_eq/=.
    assert ((i, log) ∈ filter (λ p, p.1 = run_id) (spec_all c seen)) as Hin by (rewrite Hf; apply list_elem_of_here).
    apply list_elem_of_filter in Hin as [Hi Hin]. simpl in Hi. subst i. by rewrite (proj2 (stands_for_elem _ _ _ _ R) Hin).
  - destruct (runs _ !! run_id) as [log|] eqn:Hlog; [|done]. apply (stands_for_elem _ _ _ _ R) in Hlog.
    destruct (filter _ _) as [|p l] eqn:Hf; [|done].
    assert ((run_id, log) ∈ filter (λ p, p.1 = run_id) (spec_all c seen)) as Hin by by apply list_elem_of_filter.
    rewrite Hf in Hin. by apply elem_of_nil in Hin.
Qed.

(** Whatever was recorded, the map and the queue of runs agree, no more than
    [max_runs] runs are kept, and a run's buffer is never empty, counts its
    bytes exactly and exceeds [max_bytes_per_run] only as a single record. *)
Theorem log_store_bounded c seen :
  let s := record_all c seen in
  NoDup (order s) ∧ (∀ i, i ∈ order s ↔ is_Some (runs s !! i)) ∧ (length (order s) ≤ max_runs c)%nat ∧
  (∀ i log, runs s !! i = Some log →
     log_records log ≠ [] ∧ bytes log = sizes (log_records log) ∧
     (bytes log ≤ max_bytes_per_run c ∨ length (log_records log) = 1%nat)).
Proof.
  destruct (record_all_ok c seen) as (l & R & [Hl Hm _]). pose proof R as [Hn Ho Hr]. simpl. rewrite Ho.
  split_and!; [done| |by rewrite length_fmap|].
  - intros i. rewrite Hr, list_elem_of_fmap. split.
    + intros [[i' log] [-> Hin]]. exists log. by apply elem_of_list_to_map.
    + intros [log Hlog]. apply elem_of_list_to_map in Hlog; [|done]. by exists (i, log).
  - intros i log Hlog. apply (stands_for_elem _ l) in Hlog; [|done]. eapply Forall_forall in Hl as [? ? ? _]; [|done]. done.
Qed.

Lemma spec_record_has c seen event l :
  enabled c = true → (1 ≤ max_runs c)%nat → runs_ok c seen l →
  ∃ log, (l_run_id event, log) ∈ spec_record c event l ∧ last (log_records log) = Some event.
Proof.
  intros Hen Hmax [Hl Hm _]. unfold spec_record. rewrite Hen. simpl.
  pose proof (length_filter (run_live c (timestamp event)) l) as Hlen.
  case_bool_decide as Hin.
  - rewrite length_fmap, (proj2 (Nat.sub_0_le _ _)) by lia. simpl.
    apply list_elem_of_fmap in Hin as [[i log] [He Hin]]. simpl in He.
    exists (push_record (max_bytes_per_run c) event log). split.
    + apply list_elem_of_fmap. exists (i, log). split; [|done]. unfold spec_push. simpl. by rewrite bool_decide_true, He.
    + apply list_elem_of_filter in Hin as [_ Hin]. eapply Forall_forall in Hl as [_ Hb _ _]; [|done].
      by apply (push_record_spec _ _ _ Hb).
  - eexists. split; [apply drop_last_in; rewrite length_app; simpl; lia|].
    by apply (push_record_spec _ _ (mkRunLog [] 0 (timestamp event))).
Qed.
(** The newest record of a run is always there to be read, even when it alone is
    larger than the run's share. *)
Theorem newest_record_kept c seen event limit :
  enabled c = true → (1 ≤ max_runs c)%nat → (1 ≤ limit)%nat →
  last (records (l_run_id event) limit (record c event (record_all c seen))) = Some event.
Proof.
  intros Hen Hmax Hlim. destruct (record_all_ok c seen) as (l & R & Hok).
  destruct (spec_record_has c seen event l) as (log & Hin & Hlast); [done..|].
  apply (record_stands_for c event) in R. rewrite <- (stands_for_elem _ _ _ _ R) in Hin.
  unfold records. rewrite Hin. rewrite last_drop_lt; [done|].
  assert (log_records log ≠ []) by (by intros Hnil; rewrite Hnil in Hlast).
  destruct (log_records log); [done|simpl; lia].
Qed.

(** What is read back of a run is a run's latest records, oldest first, as they
    were recorded: none lost in between, none of another run. *)
Theorem records_are_the_latest c seen run_id limit :
  records run_id limit (record_all c seen) `suffix_of` filter (λ r, l_run_id r = run_id) seen ∧
  (length (records run_id limit (record_all c seen)) ≤ limit)%nat.
Proof.
  destruct (record_all_ok c seen) as (l & R & [Hl _ _]). unfold records.
  destruct (runs _ !! run_id) as [log|] eqn:Hlog; [|split; [apply suffix_nil|simpl; lia]].
  apply (stands_for_elem _ l) in Hlog; [|done]. eapply Forall_forall in Hl as [_ _ _ Hs]; [|done]. simpl in Hs.
  split; [|rewrite length_drop; lia]. etrans; [|exact Hs]. apply suffix_drop.
Qed.

(** ** The layer and its channel *)

Definition emitted (capture : Level) (sts : list CaptureStep) : list JobLogRecord :=
  omap (λ st, match st with Emit e => on_event capture e | _ => None end) sts.
Record capture_ok (capture : Level) (c : JobLogConfig) (sts : list CaptureStep) (s : Capture) (taken : list JobLogRecord) : Prop := {
  co_store : store s = record_all c taken;
  co_order : taken ++ queue s `sublist_of` emitted capture sts;
  co_bound : (length (queue s) ≤ CAPTURE_CHANNEL_CAPACITY)%nat;
}.
Lemma emitted_snoc capture sts st : emitted capture (sts ++ [st]) = emitted capture sts ++ emitted capture [st].
Proof. apply omap_app. Qed.
Lemma exec_capture_ok capture c sts st s taken :
  capture_ok capture c sts s taken → ∃ taken', capture_ok capture c (sts ++ [st]) (exec_capture capture c st s) taken'.
Proof.
  intros [Hs Ho Hb].
  assert (Hskip : taken ++ queue s `sublist_of` emitted capture (sts ++ [st]))
    by (rewrite emitted_snoc; by apply sublist_inserts_r).
  unfold exec_capture. destruct st as [e| |].
  - exists taken. destruct (on_event capture e) as [r|] eqn:He; [|by split].
    unfold try_send. destruct (open s); [|by split]. simpl. case_match eqn:Hlt; [|by split].
    apply Nat.ltb_lt in Hlt. split; simpl; [done| |rewrite length_app; simpl; lia].
    rewrite emitted_snoc, (assoc_L (++)). unfold emitted at 2. simpl. rewrite He. by apply sublist_app.
  - destruct (queue s) as [|r q] eqn:Hq; [exists taken; split; by rewrite ?Hq|].
    exists (taken ++ [r]). split; simpl; [| |simpl in Hb; lia].
    + unfold record_all. rewrite foldl_app. simpl. by rewrite Hs.
    + by rewrite <- (assoc_L (++)).
  - exists taken. split; simpl; [done| |lia]. rewrite app_nil_r.
    etrans; [|exact Hskip]. by apply sublist_inserts_r.
Qed.
Lemma run_capture_ok capture c sts :
  ∃ taken, capture_ok capture c sts (run_capture capture c sts (JobLogLayer_new InMemoryJobLogStore_new)) taken.
Proof.
  induction sts as [|st sts [taken IH]] using rev_ind.
  - exists []. split; simpl; [done|constructor|lia].
  - unfold run_capture. rewrite foldl_app. by apply (exec_capture_ok _ _ _ _ _ taken).
Qed.
(** However events, the drain task and the end of the runtime interleave, the
    channel stays bounded, and what can be read of a run are records the layer
    made of events inside that run's span, in the order of the events. *)
Theorem captured_in_order capture c sts run_id limit :
  let s := run_capture capture c sts (JobLogLayer_new InMemoryJobLogStore_new) in
  records run_id limit (store s) `sublist_of` filter (λ r, l_run_id r = run_id) (emitted capture sts) ∧
  (length (queue s) ≤ CAPTURE_CHANNEL_CAPACITY)%nat.
Proof.
  destruct (run_capture_ok capture c sts) as [taken [Hs Ho Hb]]. simpl. split; [|done]. rewrite Hs.
  destruct (records_are_the_latest c taken run_id limit) as [Hsuf _].
  transitivity (filter (λ r, l_run_id r = run_id) taken); [destruct Hsuf as [k ->]; by apply sublist_inserts_l|].
  apply filter_sublist. etrans; [|exact Ho]. by apply sublist_inserts_r.
Qed.

(** ** Witnesses *)

Definition a_record (run_id : JobRunId) (at_ : Z) (text : string) : JobLogRecord :=
  mkRecord run_id 1 "sync" at_ Info "app" text.
Definition a_config : JobLogConfig := mkLogConfig true 2 10 100 INFO.
Lemma newest_record_kept_witness :
  let s := record_all a_config [a_record 1 0 "one"; a_record 2 1 "two"; a_record 1 2 "three"] in
  order s = [1; 2] ∧ (l_message <$> records 1 5 s) = ["three"] ∧
  last (records 3 1 (record a_config (a_record 3 4 "a message over ten bytes") s)) = Some (a_record 3 4 "a message over ten bytes").
Proof. split_and!; [reflexivity..|]. apply newest_record_kept; [reflexivity|simpl; lia|lia]. Defined.
