(* ===== verification/JobScheduler.v ===== *)
(** * JobScheduler: many jobs over one registry

    Models [crates/jobs/src/scheduler.rs], [metrics.rs] and [error.rs]. Every
    job that was spawned is a [JobRun] machine; they share the run-id counter,
    which [view] hands to the job that moves. A job stays in [jobs] after its
    loop left, because a [JobHandle] keeps the entry; the registry is the part
    of them whose [registered] flag is set, which the loop clears as it exits.

    A call that looks a job up and then acts on its entry is a function here;
    that the two can be apart is [WJob] with a control event, which moves any
    job, listed or not. *)
From stdpp Require Import fin_sets relations.
From S2P Require Import Prelude JobSchedule JobEntry JobRun JobSafety.

Section Scheduler.
Context {Cron DurationError CronError : Type}.
Context (parse_duration : string → result Z DurationError) (parse_cron : string → result Cron CronError)
  (pattern : Cron → string).
Abbreviation Entry := (JobEntry Cron).
Abbreviation Sys := (@Sys Cron).

(** [JobError]; its [Schedule] variant is built by no operation of the scheduler. *)
Inductive JobError := UnknownJob (i : JobId) | UnknownName (n : string).

(** The scheduler; [dropped] is set by its [Drop]. *)
Record World := mkWorld { next_id : Z; w_run_ids : Z; jobs : gmap JobId Sys; dropped : bool }.
(** [JobScheduler::create] *)
Definition create : World := mkWorld 0 0 ∅ false.
Definition registry (w : World) : gmap JobId Entry := entry <$> filter (λ p, registered p.2 = true) (jobs w).
Definition metadata_named (n : string) : JobMetadata := mkMetadata n [] None.

(** [spawn], which [schedule_with] is; the returned handle is the id. *)
Definition spawn (m : JobMetadata) (sc : Schedule Cron) (o : JobOptions) (w : World) : JobId * World :=
  let i := next_id w in
  (i, mkWorld (word_succ i) (w_run_ids w) (<[i := initial (JobEntry_new i m sc o) (w_run_ids w)]> (jobs w)) (dropped w)).
Definition schedule_named (n : string) (sc : Schedule Cron) (w : World) : JobId * World :=
  spawn (metadata_named n) sc JobOptions_default w.
Definition schedule_dynamic (sc : Schedule Cron) (w : World) : JobId * World := schedule_named "dynamic" sc w.

(** [JobDescriptor] as [start] reads it, and the loop over [JOBS]. *)
Record JobDescriptor := mkDescriptor { d_name : string; d_schedule : string; d_kind : ScheduleKind; d_options : JobOptions }.
Fixpoint start_jobs (ds : list JobDescriptor) (count : nat) (w : World) :
    result nat (@ScheduleError DurationError CronError) * World :=
  match ds with
  | [] => (Ok count, w)
  | d :: ds' =>
      match Schedule_parse parse_duration parse_cron (d_kind d) (d_schedule d) with
      | Err e => (Err e, w)
      | Ok sc => start_jobs ds' (S count) (spawn (metadata_named (d_name d)) sc (d_options d) w).2
      end
  end.
Definition start (ds : list JobDescriptor) (w : World) := start_jobs ds 0 w.

(** ** The moves *)

(** A job as it moves: its own state and the shared counter. *)
Definition view (w : World) (s : Sys) : Sys := mkSys (entry s) (w_run_ids w) (driver s) (tasks s) (registered s).
Definition put (i : JobId) (s : Sys) (w : World) : World := mkWorld (next_id w) (run_ids s) (<[i := s]> (jobs w)) (dropped w).
Inductive WorldEvent :=
| WSpawn (m : JobMetadata) (sc : Schedule Cron) (o : JobOptions)
| WJob (i : JobId) (ev : @Event Cron)
| WDrop.
(** Only the job's own events: a job takes ids from the shared counter itself, and
    the scheduler's token is cancelled for all jobs at once. *)
Definition own_event (ev : @Event Cron) : bool :=
  match ev with EControl COtherJob | EControl CDropScheduler => false | _ => true end.
Definition exec_world (ev : WorldEvent) (w : World) : option World :=
  match ev with
  | WSpawn m sc o => if dropped w then None else Some (spawn m sc o w).2
  | WJob i ev =>
      if own_event ev then
        s ← jobs w !! i; s' ← exec ev (view w s); Some (put i s' w)
      else None
  | WDrop => Some (mkWorld (next_id w) (w_run_ids w) (exec_control CDropScheduler <$> jobs w) true)
  end.
Definition world_step (w w' : World) : Prop := ∃ ev, exec_world ev w = Some w'.

(** ** Looking at jobs *)

Definition job (i : JobId) (w : World) : option JobInfo := info pattern <$> registry w !! i.
(** [list_jobs] in the map's iteration order, an argument. *)
Definition list_jobs (iteration : list JobId) (w : World) : list JobInfo := omap (λ i, job i w) iteration.
(** [recent_runs], whose entry method clones the ring. *)
Definition recent_runs (i : JobId) (w : World) : list JobRunSummary :=
  match registry w !! i with Some e => recent (shared e) | None => [] end.

Record JobMetrics := mkMetrics {
  jobs_scheduled : Z; paused_jobs : Z; active_runs : Z; completed_runs : Z; failed_runs : Z; skipped_ticks : Z }.
Definition metrics_default : JobMetrics := mkMetrics 0 0 0 0 0 0.
Definition word (n : Z) : Z := n mod 2 ^ 64.
(** One round of the loop of [metrics]: the snapshot of an entry and its counter. *)
Definition add_metrics (m : JobMetrics) (r : JobInfo * Z) : JobMetrics :=
  mkMetrics (word (jobs_scheduled m + 1))
    (match i_state r.1 with Paused => word (paused_jobs m + 1) | _ => paused_jobs m end)
    (word (active_runs m + r.2)) (word (completed_runs m + i_run_count r.1)) (word (failed_runs m + i_failure_count r.1))
    (word (skipped_ticks m + i_skipped_count r.1)).
Definition readings (iteration : list JobId) (w : World) : list (JobInfo * Z) :=
  omap (λ i, (λ e, (info pattern e, active e)) <$> registry w !! i) iteration.
Definition metrics (iteration : list JobId) (w : World) : JobMetrics :=
  foldl add_metrics metrics_default (readings iteration w).

(** [JobInfo::schedule_lag], [last_run_duration] and [is_stale]; [now] is the clock. *)
Definition schedule_lag (now : Z) (i : JobInfo) : option Z :=
  match i_state i with
  | Paused => None
  | _ => next ← i_next_run_at i; if now <? next then None else Some (now - next)
  end.
Definition last_run_duration (i : JobInfo) : option Z := r ← i_last_run i; duration r.
Definition is_stale (now threshold : Z) (i : JobInfo) : bool :=
  match schedule_lag now i with Some lag => threshold <? lag | None => false end.
(** The clock is read once per job: [nows]. *)
Definition stale_jobs (nows : list Z) (threshold : Z) (l : list JobInfo) : list JobInfo :=
  snd <$> filter (λ p, is_stale p.1 threshold p.2 = true) (zip nows l).

(** ** Acting on jobs *)

Definition on_job {A} (i : JobId) (f : World → Sys → A * World) (w : World) : result A JobError * World :=
  match registry w !! i, jobs w !! i with
  | Some _, Some s => let '(a, w') := f w (view w s) in (Ok a, w')
  | _, _ => (Err (UnknownJob i), w)
  end.
Definition control (i : JobId) (c : @Control Cron) (w : World) : result () JobError * World :=
  on_job i (λ w s, (tt, put i (exec_control c s) w)) w.
Definition pause_job (i : JobId) (w : World) := control i CPause w.
Definition resume_job (i : JobId) (w : World) := control i CResume w.
Definition reschedule_job (i : JobId) (sc : Schedule Cron) (w : World) := control i (CReschedule sc) w.
(** The run id is the counter before the call. *)
Definition run_now (i : JobId) (w : World) : result JobRunId JobError * World :=
  on_job i (λ w s, (run_ids s, put i (exec_control CTrigger s) w)) w.
Definition run_named (iteration : list JobId) (n : string) (w : World) : result JobRunId JobError * World :=
  match registry_by_name iteration n (registry w) with
  | Some e => run_now (id e) w
  | None => (Err (UnknownName n), w)
  end.
(** [cancel_and_wait] up to its wait, and when the wait is over. *)
Definition cancel_and_wait (i : JobId) (w : World) : result () JobError * World := control i CCancel w.
Definition wait_is_over (i : JobId) (w : World) : bool :=
  match jobs w !! i with Some s => done (entry s) | None => false end.
(** [JobHandle::cancel] and [is_cancelled], registered or not. *)
Definition handle_cancel (i : JobId) (w : World) : option World := exec_world (WJob i (EControl CCancel)) w.
Definition handle_is_cancelled (i : JobId) (w : World) : bool :=
  match jobs w !! i with Some s => is_cancelled (entry s) | None => false end.

(** ** Every job is a [JobRun] execution *)

Lemma view_put i s w : view (put i s w) s = s.
Proof. by destruct s. Qed.
Lemma exec_run_ids ev (s s' : Sys) :
  0 ≤ run_ids s → exec ev s = Some s' →
  (run_ids s' = run_ids s ∨ run_ids s' = word_succ (run_ids s)) ∧ 0 ≤ run_ids s' ≤ run_ids s + 1.
Proof.
  intros H0 Hev. pose proof (Z.mod_le (run_ids s + 1) (2 ^ 64)). pose proof (Z.mod_pos_bound (run_ids s + 1) (2 ^ 64)).
  destruct (exec_ids _ _ _ Hev) as [[-> _]|[-> _]]; unfold word_succ; (split; [auto|lia]).
Qed.
(** What one move does to the view of the jobs. *)
Lemma exec_world_views ev w w' :
  0 ≤ w_run_ids w → exec_world ev w = Some w' →
  0 ≤ w_run_ids w' ≤ w_run_ids w + 1 ∧
  ∀ i s', jobs w' !! i = Some s' →
    (∃ m sc o, view w' s' = initial (JobEntry_new i m sc o) (w_run_ids w)) ∨
    (∃ s, jobs w !! i = Some s ∧ (view w' s' = view w s ∨ step (view w s) (view w' s'))).
Proof.
  intros H0. destruct ev as [m sc o|i ev|]; simpl; intros H.
  - destruct (dropped w); simplify_eq/=. split; [lia|]. intros j s' Hj.
    apply lookup_insert_Some in Hj as [[<- <-]|[_ Hj]]; [left; by exists m, sc, o|]. right. exists s'. auto.
  - destruct (own_event ev); [|done]. destruct (jobs w !! i) as [s|] eqn:Hs; [|done]. simpl in H.
    destruct (exec ev (view w s)) as [s1|] eqn:Hev; [|done]. simplify_eq/=.
    destruct (exec_run_ids ev (view w s) s1 H0 Hev) as [Hr Hb]. split; [done|]. intros j s' Hj. right.
    apply lookup_insert_Some in Hj as [[<- <-]|[_ Hj]].
    + exists s. split; [done|]. right. rewrite view_put. by exists ev.
    + exists s'. split; [done|]. destruct Hr as [Hr|Hr]; [left; unfold view; simpl; by rewrite Hr|].
      right. exists (EControl COtherJob). unfold view. simpl. by rewrite Hr.
  - simplify_eq/=. split; [lia|]. intros j s' Hj. right. rewrite lookup_fmap, fmap_Some in Hj.
    destruct Hj as (s & Hs & ->). exists s. split; [done|]. right. by exists (EControl CDropScheduler).
Qed.
Lemma nsteps_world_ind (P : nat → World → Prop) :
  P 0%nat create → (∀ n ev w w', nsteps world_step n create w → P n w → exec_world ev w = Some w' → P (S n) w') →
  ∀ n w, nsteps world_step n create w → P n w.
Proof.
  intros H0 Hstep n. induction n as [|n IH]; intros w Hs; [by inversion Hs; subst|].
  apply nsteps_inv_r in Hs as (w1 & Hs1 & ev & Hev). by eapply Hstep; [|apply IH|].
Qed.
Lemma run_ids_bound n w : nsteps world_step n create w → 0 ≤ w_run_ids w ≤ Z.of_nat n.
Proof.
  revert n w. apply nsteps_world_ind; [simpl; lia|]. intros n ev w w' _ [H0 Hn] Hev.
  destruct (exec_world_views ev w w' H0 Hev) as [Hb _]. lia.
Qed.
Lemma jobs_are_runs n w i s :
  nsteps world_step n create w → jobs w !! i = Some s →
  ∃ m sc o r k, nsteps step k (initial (JobEntry_new i m sc o) r) (view w s) ∧ 0 ≤ r ∧ r + Z.of_nat k ≤ Z.of_nat n.
Proof.
  intros Hs. revert s. pattern n, w. revert n w Hs. apply nsteps_world_ind; [done|].
  intros n ev w w' Hs IH Hev s' Hj. pose proof (run_ids_bound n w Hs) as Hb.
  destruct (exec_world_views ev w w' (proj1 Hb) Hev) as [_ Hv]. destruct (Hv i s' Hj) as [(m & sc & o & ->)|(s & Hi & Hm)].
  - exists m, sc, o, (w_run_ids w), 0%nat. split; [constructor|lia].
  - destruct (IH s Hi) as (m & sc & o & r & k & Hk & H0 & Hle). destruct Hm as [->|Hstep].
    + exists m, sc, o, r, k. split; [done|lia].
    + exists m, sc, o, r, (S k). split; [by eapply nsteps_r|lia].
Qed.

Lemma new_fresh i m (sc : Schedule Cron) o : fresh_entry (JobEntry_new i m sc o).
Proof. by split_and!. Qed.

(** ** Every job is a refinement of [JobRun]

    The events of a schedule, as one job sees them. *)
Fixpoint exec_worlds (evs : list WorldEvent) (w : World) : option World :=
  match evs with [] => Some w | ev :: evs' => w' ← exec_world ev w; exec_worlds evs' w' end.
Lemma exec_worlds_app a b w : exec_worlds (a ++ b) w = w' ← exec_worlds a w; exec_worlds b w'.
Proof. revert w. induction a as [|ev a IH]; intros w; [done|]. simpl. destruct (exec_world ev w); simpl; auto. Qed.
Definition own_moves (i : JobId) (evs : list WorldEvent) : list (@Event Cron) :=
  omap (λ ev, match ev with
              | WJob j ev => if j =? i then Some ev else None
              | WDrop => Some (EControl CDropScheduler)
              | WSpawn _ _ _ => None
              end) evs.
Definition counter_moved (ev : @Event Cron) : bool := match ev with EControl COtherJob => true | _ => false end.
(** [p] runs job [i] from [s] to [s'], and but for other jobs taking run ids it is what
    the events of [evs] do to [i]. *)
Definition runs_job (i : JobId) (evs : list WorldEvent) (s s' : Sys) : Prop :=
  ∃ p, exec_all p s = Some s' ∧ List.filter (λ ev, negb (counter_moved ev)) p = own_moves i evs.
Lemma run_all_app p q (s : Sys) : exec_all (p ++ q) s = s' ← exec_all p s; exec_all q s'.
Proof. revert s. induction p as [|ev p IH]; intros s; [done|]. simpl. destruct (exec ev s); simpl; auto. Qed.
Lemma runs_job_app i a b s1 s2 s3 : runs_job i a s1 s2 → runs_job i b s2 s3 → runs_job i (a ++ b) s1 s3.
Proof.
  intros (p & Hp & Hpo) (q & Hq & Hqo). exists (p ++ q). split; [by rewrite run_all_app, Hp|].
  unfold own_moves in *. by rewrite List.filter_app, omap_app, Hpo, Hqo.
Qed.
Lemma own_event_counts ev : own_event ev = true → counter_moved ev = false.
Proof. by destruct ev as [[]| | | |]. Qed.
(** What one event does to a job: it made it, or the job made its own move. *)
Lemma exec_world_job ev w w' i s' :
  0 ≤ w_run_ids w → exec_world ev w = Some w' → jobs w' !! i = Some s' →
  (∃ m sc o, ev = WSpawn m sc o ∧ i = next_id w ∧ view w' s' = initial (JobEntry_new i m sc o) (w_run_ids w)) ∨
  (∃ s, jobs w !! i = Some s ∧ runs_job i [ev] (view w s) (view w' s')).
Proof.
  intros H0. destruct ev as [m sc o|j ev|]; simpl; intros H Hi.
  - destruct (dropped w); simplify_eq/=. apply lookup_insert_Some in Hi as [[<- <-]|[_ Hi]]; [left; by exists m, sc, o|].
    right. exists s'. split; [done|]. by exists [].
  - right. destruct (own_event ev) eqn:Ho; [|done]. destruct (jobs w !! j) as [s|] eqn:Hs; [|done]. simpl in H.
    destruct (exec ev (view w s)) as [s1|] eqn:Hev; [|done]. simplify_eq/=.
    apply lookup_insert_Some in Hi as [[<- <-]|[Hne Hi]].
    + exists s. split; [done|]. exists [ev]. rewrite view_put. simpl. rewrite Hev, own_event_counts, Z.eqb_refl by done. done.
    + exists s'. split; [done|]. destruct (exec_run_ids ev (view w s) s1 H0 Hev) as [Hr _]. unfold runs_job, own_moves. simpl.
      rewrite (proj2 (Z.eqb_neq j i)) by done. destruct Hr as [Hr|Hr].
      * exists []. split; [|done]. unfold view. simpl. by rewrite Hr.
      * exists [EControl COtherJob]. split; [|done]. unfold view. simpl. by rewrite Hr.
  - right. simplify_eq/=. rewrite lookup_fmap, fmap_Some in Hi. destruct Hi as (s & Hs & ->). exists s. split; [done|].
    by exists [EControl CDropScheduler].
Qed.
Lemma exec_world_keeps ev w w' i : exec_world ev w = Some w' → is_Some (jobs w !! i) → is_Some (jobs w' !! i).
Proof.
  intros H Hi. destruct ev as [m sc o|j ev|]; simpl in H.
  - destruct (dropped w); simplify_eq/=. apply lookup_insert_is_Some'. by right.
  - destruct (own_event ev); [|done]. destruct (jobs w !! j) as [s|]; [|done]. simpl in H. destruct (exec ev (view w s)) as [s1|]; [|done].
    simplify_eq/=. apply lookup_insert_is_Some'. by right.
  - simplify_eq/=. rewrite lookup_fmap. by apply fmap_is_Some.
Qed.
Lemma exec_worlds_keeps evs w w' i : exec_worlds evs w = Some w' → is_Some (jobs w !! i) → is_Some (jobs w' !! i).
Proof.
  revert w. induction evs as [|ev evs IH]; intros w; simpl; [by intros [= ->]|].
  destruct (exec_world ev w) as [w1|] eqn:Hev; [|done]. simpl. intros Hx Hi. apply (IH w1 Hx). by eapply exec_world_keeps.
Qed.
Lemma exec_worlds_nonneg evs w : exec_worlds evs create = Some w → 0 ≤ w_run_ids w.
Proof.
  revert w. induction evs as [|ev evs IH] using rev_ind; intros w; [by intros [= <-]|]. rewrite exec_worlds_app.
  destruct (exec_worlds evs create) as [w1|]; [|done]. simpl. destruct (exec_world ev w1) as [w2|] eqn:Hev; [|done]. intros [= <-].
  by apply (exec_world_views ev w1 w2 (IH w1 eq_refl) Hev).
Qed.
(** C7: However jobs are spawned, moved, controlled and dropped, each of them is a run of
    the [JobRun] machine of its own: it began with the entry that its [spawn] made of the
    metadata, the schedule and the options given to it, under the id that was next, and
    since then has made exactly the moves the schedule names for it and been cancelled
    when the scheduler was dropped; all that other jobs change for it is the shared
    counter of run ids. And every job that was spawned is there. *)
Theorem scheduled_jobs_refine_runs evs w :
  exec_worlds evs create = Some w →
  (∀ i s, jobs w !! i = Some s →
     ∃ before m sc o after w0, evs = before ++ WSpawn m sc o :: after ∧ exec_worlds before create = Some w0 ∧ next_id w0 = i ∧
       runs_job i after (initial (JobEntry_new i m sc o) (w_run_ids w0)) (view w s)) ∧
  (∀ before m sc o after w0, evs = before ++ WSpawn m sc o :: after → exec_worlds before create = Some w0 →
     is_Some (jobs w !! next_id w0)).
Proof.
  intros Hx. split.
  - revert w Hx. induction evs as [|ev evs IH] using rev_ind; intros w; [by intros [= <-]|]. rewrite exec_worlds_app.
    destruct (exec_worlds evs create) as [w1|] eqn:H1; [|done]. simpl. destruct (exec_world ev w1) as [w2|] eqn:Hev; [|done]. intros [= <-] i s Hi.
    destruct (exec_world_job ev w1 w2 i s (exec_worlds_nonneg _ _ H1) Hev Hi) as [(m & sc & o & -> & -> & Hv)|(s1 & Hs1 & Hrun)].
    + exists evs, m, sc, o, [], w1. split_and!; [done..|]. exists []. by rewrite Hv.
    + destruct (IH w1 eq_refl i s1 Hs1) as (before & m & sc & o & after & w0 & -> & Hb & Hid & Hr).
      exists before, m, sc, o, (after ++ [ev]), w0. split_and!; [by rewrite <- app_assoc|done|done|by eapply runs_job_app].
  - intros before m sc o after w0 -> Hb. rewrite exec_worlds_app, Hb in Hx. simpl in Hx. destruct (dropped w0); [done|]. simpl in Hx.
    apply (exec_worlds_keeps after _ w _ Hx). simpl. rewrite lookup_insert_eq. by eexists.
Qed.

(** ** Run ids across jobs *)

Record world_ids_ok (w : World) : Prop := {
  wi_job i s : jobs w !! i = Some s → ids_ok (view w s);
  wi_apart i j s t : jobs w !! i = Some s → jobs w !! j = Some t → i ≠ j → all_ids s ## all_ids t;
}.
Lemma all_ids_view w s : all_ids (view w s) = all_ids s.
Proof. done. Qed.
Lemma world_ids_step ev w w' :
  0 ≤ w_run_ids w < 2 ^ 64 - 1 → world_ids_ok w → exec_world ev w = Some w' → world_ids_ok w'.
Proof.
  intros Hb [Hj Ha]. destruct ev as [m sc o|i ev|]; simpl; intros H.
  - destruct (dropped w); simplify_eq/=. split; simpl.
    + intros j s [[<- <-]|[_ Hs]]%lookup_insert_Some; [|by apply (Hj j s)]. unfold ids_ok, all_ids. simpl. split; constructor.
    + intros j k s t [[<- <-]|[_ Hs]]%lookup_insert_Some [[<- <-]|[_ Ht]]%lookup_insert_Some Hne; try done.
      * intros x Hx. by apply elem_of_nil in Hx.
      * intros x _ Hx. by apply elem_of_nil in Hx.
      * by eapply Ha.
  - destruct (own_event ev); [|done]. destruct (jobs w !! i) as [s|] eqn:Hs; [|done]. simpl in H.
    destruct (exec ev (view w s)) as [s1|] eqn:Hev; [|done]. simplify_eq/=. pose proof (exec_ids _ _ _ Hev) as Hm.
    pose proof (Hj i s Hs) as Hok. destruct (ids_ok_move (view w s) s1 Hb Hok Hm) as [Hok1 Hr]. simpl in Hr.
    assert (Hin : ∀ k t, jobs w !! k = Some t → i ≠ k → all_ids s1 ## all_ids t).
    { intros k t Ht Hne x Hx Hxt. destruct (Hj k t Ht) as [_ Hlt]. rewrite Forall_forall in Hlt.
      specialize (Hlt x Hxt). simpl in Hlt. specialize (Ha i k s t Hs Ht Hne x).
      destruct Hm as [[_ Hsub]|[_ Hsub]]; apply (elem_of_submseteq _ _ x Hx) in Hsub; rewrite ?all_ids_view in Hsub.
      - by apply Ha.
      - apply elem_of_cons in Hsub as [->|Hsub]; [simpl in Hlt; lia|by apply Ha]. }
    split; simpl.
    + intros j t [[<- <-]|[_ Ht]]%lookup_insert_Some; [by rewrite view_put|]. destruct (Hj j t Ht) as [Hnd Hlt].
      split; [done|]. eapply Forall_impl; [exact Hlt|]. simpl. lia.
    + intros j k t u [[<- <-]|[Hjn Ht]]%lookup_insert_Some [[<- <-]|[Hkn Hu]]%lookup_insert_Some Hne; try done.
      * by eapply Hin.
      * intros x Hx Hxs. by eapply (Hin j t Ht).
      * by eapply Ha.
  - simplify_eq/=. split; simpl.
    + intros j s'. rewrite lookup_fmap, fmap_Some. intros (s & Hs & ->). apply (Hj j s Hs).
    + intros j k t u. rewrite !lookup_fmap, !fmap_Some. intros (s & Hs & ->) (s2 & Hs2 & ->) Hne.
      exact (Ha j k s s2 Hs Hs2 Hne).
Qed.
Lemma world_ids_invariant n w : Z.of_nat n < 2 ^ 64 → nsteps world_step n create w → world_ids_ok w.
Proof.
  intros Hn Hs. revert Hn. pattern n, w. revert n w Hs. apply nsteps_world_ind.
  - intros _. by split.
  - intros n ev w w' Hs IH Hev Hn. pose proof (run_ids_bound n w Hs). eapply world_ids_step; [|apply IH|exact Hev]; lia.
Qed.
(** No run id is ever in use twice, within a job or by two jobs of a scheduler:
    the log store and the listings may key on it. *)
Theorem run_ids_unique_across_jobs n w i j s t :
  Z.of_nat n < 2 ^ 64 → nsteps world_step n create w → jobs w !! i = Some s → jobs w !! j = Some t →
  NoDup (all_ids s) ∧ (i ≠ j → all_ids s ## all_ids t).
Proof.
  intros Hn Hs Hi Hj. destruct (world_ids_invariant n w Hn Hs) as [Hok Ha].
  split; [by destruct (Hok i s Hi)|]. intros Hne. by eapply Ha.
Qed.

(** ** A cancelled job leaves *)

(** How many more moves the driver makes once its job is cancelled. *)
Definition driver_work (d : @DriverPc) : nat :=
  let rest_work rest := (4 + 8 * length rest)%nat in
  match d with
  | DDone => 0 | DOnExit => 1 | DExit => 2 | DLoop => 3 | DStartup => 13
  | DFire rest => rest_work rest
  | DSkip rest | DPend _ _ rest => 1 + rest_work rest
  | DStart st _ _ rest => match st with StartSpawn => 1 | StartToken => 2 | StartEnter => 3 end + rest_work rest
  | DCancelPrevious _ _ rest => 4 + rest_work rest
  | DCheck _ _ rest => 5 + rest_work rest
  end.
Definition driver_move (ev : @Event Cron) : bool := match ev with EDriver | ESelect _ => true | _ => false end.

Lemma exec_task_token now o (e : Entry) r e' r' new :
  exec_task now o e r = Some (e', r', new) → is_cancelled e' = is_cancelled e ∧ done e' = done e.
Proof.
  unfold exec_task, goto. destruct (r_pc r) as [| | | |o'|o' last| | | |st next t]; intros H; simplify_eq/=; try done.
  - destruct o as [o|]; [destruct (body_returns _ _ _)|]; by simplify_eq.
  - unfold record_finish, is_cancelled. by destruct last.
  - unfold clear_run_token. destruct (run_token e) as [j|]; [destruct (j =? _)|]; done.
  - destruct (exec_start st next e) as [e1 st'] eqn:Hst. destruct st; simplify_eq/=; try done; by case_bool_decide.
Qed.
Lemma exec_control_token c (s : Sys) :
  (is_cancelled (entry s) = true → is_cancelled (entry (exec_control c s)) = true) ∧
  done (entry (exec_control c s)) = done (entry s) ∧ driver (exec_control c s) = driver s ∧
  registered (exec_control c s) = registered s.
Proof. destruct c; simpl; unfold pause, resume; try case_match; done. Qed.
(** Once cancelled a job stays cancelled, and every move of its driver counts. *)
Lemma cancelled_step ev (s s' : Sys) :
  is_cancelled (entry s) = true → exec ev s = Some s' →
  is_cancelled (entry s') = true ∧
  (if driver_move ev then driver_work (driver s') < driver_work (driver s) else driver_work (driver s') = driver_work (driver s))%nat.
Proof.
  intros Hc. destruct ev as [c|at_|c| |i now o]; simpl.
  - intros [= <-]. destruct (exec_control_token c s) as (Ht & _ & -> & _). auto.
  - destruct (driver s) eqn:Hd; intros; simplify_eq/=. by rewrite Hd.
  - unfold exec_select. destruct (driver s) eqn:Hd; try done. destruct c; rewrite Hc; simpl; intros; simplify_eq/=. split; [done|lia].
  - unfold exec_driver. destruct (driver s) as [| |[|[t [i|]] rest]|i t rest|rest|i t rest|i t rest|st i t rest| | |] eqn:Hd; intros H; simplify_eq/=; try (split; [done|lia]).
    + split; [done|]. rewrite Hc, andb_false_r. simpl. lia.
    + split; [done|]. destruct (0 <? _); [destruct (overlap _)|]; simpl; lia.
    + unfold mark_pending. split; [by case_match|]. lia.
    + unfold cancel_active_run. split; [by case_match|]. lia.
    + destruct st; simplify_eq/=; (split; [done|]); [case_bool_decide|..]; simpl; lia.
  - intros (r & e' & r' & new & _ & Ht & He & Hd & _)%exec_run_split.
    destruct (exec_task_token _ _ _ _ _ _ _ Ht) as [Hc' _]. rewrite He, Hc', Hd. done.
Qed.
Definition left_loop (d : @DriverPc) : bool := match d with DOnExit | DDone => true | _ => false end.
(** The loop's last two moves: the wait ends, then the registry forgets the job. *)
Record exit_ok (s : Sys) : Prop := {
  ex_done : done (entry s) = left_loop (driver s);
  ex_registered : registered s = negb (bool_decide (driver_work (driver s) = 0%nat));
}.
Lemma exec_run_registered i now o (s s' : Sys) : exec_run i now o s = Some s' → registered s' = registered s.
Proof.
  unfold exec_run. destruct (tasks s !! i) as [r|]; [|done]. cbn [mbind option_bind].
  destruct (exec_task now o (entry s) r) as [[[e' r'] new]|]; [|done]. by intros [= <-].
Qed.
Lemma exit_step ev (s s' : Sys) : exit_ok s → exec ev s = Some s' → exit_ok s'.
Proof.
  intros [Hd0 Hr]. destruct ev as [c|at_|c| |i now o]; simpl.
  - intros [= <-]. destruct (exec_control_token c s) as (_ & Hd & Hdr & Hrg). split; rewrite ?Hd, ?Hdr, ?Hrg; done.
  - destruct (driver s) eqn:Hd; intros; simplify_eq/=. split; simpl; rewrite Hd; done.
  - unfold exec_select. destruct (driver s) eqn:Hd; try done. destruct c; case_match; intros; simplify_eq/=; split; simpl; rewrite ?Hd; try done.
    all: by destruct (is_paused _).
  - unfold exec_driver. destruct (driver s) as [| |[|[t [i|]] rest]|i t rest|rest|i t rest|i t rest|st i t rest| | |] eqn:Hd; intros H; simplify_eq/=; try (by split).
    + split; simpl; by destruct (_ && _).
    + split; simpl; (destruct (0 <? _); [destruct (overlap _)|]; simpl; done).
    + split; simpl; [|done]. unfold mark_pending. by case_match.
    + split; simpl; [|done]. unfold cancel_active_run. by case_match.
    + destruct st; simplify_eq/=; [case_bool_decide|..]; by split.
  - intros H. pose proof (exec_run_registered _ _ _ _ _ H) as Hrg.
    apply exec_run_split in H as (r & e' & r' & new & _ & Ht & He & Hd & _). destruct (exec_task_token _ _ _ _ _ _ _ Ht) as [_ Hd']. split; rewrite ?He, ?Hd', ?Hd, ?Hrg; done.
Qed.
Lemma exit_invariant e r k (s : Sys) : done e = false → nsteps step k (initial e r) s → exit_ok s.
Proof.
  intros Hd Hs. revert k s Hs. apply nsteps_snoc_ind; [by split|]. intros _ ev s s' _ IH. by apply exit_step.
Qed.
Lemma driver_enabled (s : Sys) :
  is_cancelled (entry s) = true → exit_ok s → registered s = true → ∃ ev s', driver_move ev = true ∧ own_event ev = true ∧ exec ev s = Some s'.
Proof.
  intros Hc [_ Hr] Hreg. rewrite Hreg in Hr.
  destruct (driver s) as [| |[|[t [i|]] rest]|i t rest|rest|i t rest|i t rest|st i t rest| | |] eqn:Hd; try done.
  2: { exists (ESelect SCancelled). eexists. split_and!; [done..|]. simpl. unfold exec_select. by rewrite Hd, Hc. }
  all: exists EDriver; simpl; unfold exec_driver; rewrite Hd; try by eexists.
  destruct (exec_start st i (entry s)) as [e' next]. eexists. by split_and!.
Qed.

(** How often the driver of the job moves. *)
Definition moves_job (i : JobId) (ev : WorldEvent) : bool :=
  match ev with WJob j ev => (j =? i) && driver_move ev | _ => false end.
Definition moves (i : JobId) (evs : list WorldEvent) : nat :=
  foldr (λ ev n, (if moves_job i ev then 1 else 0) + n)%nat 0%nat evs.
Lemma next_id_bound n w :
  Z.of_nat n < 2 ^ 64 → nsteps world_step n create w → 0 ≤ next_id w ≤ Z.of_nat n ∧ ∀ i s, jobs w !! i = Some s → i < next_id w.
Proof.
  intros Hn Hs. revert Hn. pattern n, w. revert n w Hs. apply nsteps_world_ind; [by split; [simpl; lia|]|].
  intros n ev w w' _ IH Hev Hn. destruct IH as [Hb Hlt]; [lia|]. destruct ev as [m sc o|i ev|]; simpl in Hev.
  - destruct (dropped w); simplify_eq/=. assert (word_succ (next_id w) = next_id w + 1) as -> by (unfold word_succ; rewrite Z.mod_small; lia).
    split; [lia|]. intros i s [[<- _]|[_ Hi%Hlt]]%lookup_insert_Some; lia.
  - destruct (own_event ev); [|done]. destruct (jobs w !! i) as [s|] eqn:Hs; [|done]. simpl in Hev.
    destruct (exec ev (view w s)); [|done]. simplify_eq/=. split; [lia|].
    intros j t [[<- _]|[_ Hj]]%lookup_insert_Some; by eapply Hlt.
  - simplify_eq/=. split; [lia|]. intros i s. rewrite lookup_fmap, fmap_Some. intros (t & Ht & _). by eapply Hlt.
Qed.
(** A move of the scheduler, as the cancelled job sees it. *)
Lemma cancelled_world_step ev w w' i s :
  exec_world ev w = Some w' → jobs w !! i = Some s → i ≠ next_id w → is_cancelled (entry s) = true →
  ∃ s', jobs w' !! i = Some s' ∧ is_cancelled (entry s') = true ∧
    (moves i [ev] + driver_work (driver s') ≤ driver_work (driver s))%nat.
Proof.
  intros Hev Hs Hne Hc. destruct ev as [m sc o|j ev|]; simpl in Hev.
  - destruct (dropped w); simplify_eq/=. exists s. rewrite lookup_insert_ne by done. auto.
  - destruct (own_event ev); [|done]. destruct (jobs w !! j) as [t|] eqn:Ht; [|done]. simpl in Hev.
    destruct (exec ev (view w t)) as [t'|] eqn:Hx; [|done]. simplify_eq/=. destruct (decide (j = i)) as [->|Hji].
    + exists t'. rewrite lookup_insert_eq. split; [done|]. assert (t = s) as -> by congruence. destruct (cancelled_step _ (view w s) _ Hc Hx) as [Hc' Hw].
      split; [done|]. rewrite Z.eqb_refl. simpl in *. destruct (driver_move ev); simpl; lia.
    + exists s. rewrite lookup_insert_ne by done. rewrite (proj2 (Z.eqb_neq j i)) by done. auto.
  - simplify_eq/=. exists (exec_control CDropScheduler s). rewrite lookup_fmap, Hs. auto.
Qed.
Lemma moves_cons i ev evs : moves i (ev :: evs) = (moves i [ev] + moves i evs)%nat.
Proof. simpl. lia. Qed.
Lemma cancelled_worlds evs n w w' i s :
  Z.of_nat (n + length evs) < 2 ^ 64 → nsteps world_step n create w → jobs w !! i = Some s → is_cancelled (entry s) = true →
  exec_worlds evs w = Some w' →
  nsteps world_step (n + length evs) create w' ∧ ∃ s', jobs w' !! i = Some s' ∧ is_cancelled (entry s') = true ∧
    (moves i evs + driver_work (driver s') ≤ driver_work (driver s))%nat.
Proof.
  revert n w s. induction evs as [|ev evs IH]; intros n w s Hn Hs Hi Hc Hx; simpl in Hx; cbn [length] in Hn.
  - simplify_eq. rewrite Nat.add_0_r. split; [done|]. exists s. auto.
  - destruct (exec_world ev w) as [w1|] eqn:Hev; [|done]. simpl in Hx.
    destruct (next_id_bound n w) as [_ Hlt]; [lia|done|]. specialize (Hlt i s Hi).
    destruct (cancelled_world_step _ _ _ _ _ Hev Hi ltac:(lia) Hc) as (s1 & Hi1 & Hc1 & Hw1).
    destruct (IH (S n) w1 s1) as (Hs' & s' & Hi' & Hc' & Hw'); [lia|by eapply nsteps_r; [|exists ev]|done..|].
    rewrite moves_cons. cbn [length]. rewrite Nat.add_succ_r. split; [done|]. exists s'. split_and!; [done..|lia].
Qed.
Lemma registry_lookup w i : registry w !! i = (s ← jobs w !! i; if registered s then Some (entry s) else None).
Proof.
  unfold registry. rewrite lookup_fmap. apply option_eq. intros e. rewrite fmap_Some. setoid_rewrite map_lookup_filter_Some.
  destruct (jobs w !! i) as [s|]; simpl; [destruct (registered s) eqn:Hr|]; split.
  all: try by intros (t & [Ht Hrt] & ->); simplify_eq/=; congruence.
  all: intros [= <-]. by exists s.
Qed.
(** Whatever else goes on, the loop of a cancelled job makes at most thirteen moves
    plus eight for every firing it still has to handle, it can always make the next
    one, and when it cannot move any more the registry has forgotten the job and
    [cancel_and_wait] has returned. *)
Theorem cancelled_job_leaves n w evs w' i s :
  Z.of_nat (n + length evs) < 2 ^ 64 → nsteps world_step n create w → jobs w !! i = Some s →
  handle_is_cancelled i w = true → exec_worlds evs w = Some w' →
  (moves i evs ≤ driver_work (driver s))%nat ∧
  ((registry w' !! i = None ∧ wait_is_over i w' = true) ∨
   ∃ ev w'', driver_move ev = true ∧ exec_world (WJob i ev) w' = Some w'').
Proof.
  intros Hn Hs Hi Hc Hx. unfold handle_is_cancelled in Hc. rewrite Hi in Hc.
  destruct (cancelled_worlds evs n w w' i s) as (Hs' & s' & Hi' & Hc' & Hw'); [done..|]. split; [lia|].
  destruct (jobs_are_runs _ _ i s' Hs' Hi') as (m & sc & o & r & k & Hk & _).
  pose proof (exit_invariant (JobEntry_new i m sc o) r k (view w' s') eq_refl Hk) as Hex.
  unfold wait_is_over. rewrite registry_lookup, Hi'. simpl. destruct (registered s') eqn:Hr.
  - right. destruct (driver_enabled (view w' s')) as (ev & s2 & Hm & Ho & He); [done..|].
    exists ev, (put i s2 w'). split; [done|]. unfold exec_world. rewrite Ho, Hi'. cbn [mbind option_bind]. by rewrite He.
  - left. split; [done|]. destruct Hex as [Hd Hreg]. simpl in *. rewrite Hd. rewrite Hr in Hreg.
    symmetry in Hreg. apply negb_false_iff, bool_decide_eq_true in Hreg. destruct (driver s') as [| | | | | | |[]| | |]; simpl in *; done || lia.
Qed.

(** ** Metrics *)

Definition total_of {A} (f : A → Z) (l : list A) : Z := foldr (λ x n, f x + n) 0 l.
Lemma total_of_snoc {A} (f : A → Z) l x : total_of f (l ++ [x]) = total_of f l + f x.
Proof. unfold total_of. rewrite foldr_app. simpl. induction l as [|y l IH]; simpl; lia. Qed.
Lemma total_of_fmap {A B} (f : B → Z) (g : A → B) l : total_of f (g <$> l) = total_of (f ∘ g) l.
Proof. induction l as [|y l IH]; [done|]. unfold total_of in *. csimpl. by rewrite IH. Qed.
#[export] Instance total_of_perm {A} (f : A → Z) : Proper ((≡ₚ) ==> (=)) (total_of f).
Proof. intros l l'. unfold total_of. induction 1; simpl; lia. Qed.
Lemma word_add a b : word (word a + b) = word (a + b).
Proof. apply Z.add_mod_idemp_l. lia. Qed.
Definition paused_state (s : JobState) : Z := match s with Paused => 1 | _ => 0 end.
Lemma add_metrics_total rs :
  foldl add_metrics metrics_default rs =
  mkMetrics (word (Z.of_nat (length rs))) (word (total_of (λ r, paused_state (i_state r.1)) rs)) (word (total_of snd rs))
    (word (total_of (λ r, i_run_count r.1) rs)) (word (total_of (λ r, i_failure_count r.1) rs))
    (word (total_of (λ r, i_skipped_count r.1) rs)).
Proof.
  induction rs as [|r rs IH] using rev_ind; [done|]. rewrite foldl_app, IH, !total_of_snoc, length_app. simpl.
  unfold add_metrics. cbn [jobs_scheduled paused_jobs active_runs completed_runs failed_runs skipped_ticks]. rewrite !word_add.
  f_equal; [f_equal; lia|].
  destruct (i_state r.1); simpl; rewrite ?word_add, ?Z.add_0_r; done.
Qed.
Lemma readings_infos iteration w : (readings iteration w).*1 = list_jobs iteration w.
Proof.
  unfold readings, list_jobs, job. induction iteration as [|i it IH]; [done|]. csimpl.
  destruct (registry w !! i); csimpl; by rewrite IH.
Qed.
Definition job_in_flight (w : World) (i : JobId) : Z :=
  match jobs w !! i with Some s => if registered s then in_flight s else 0 | None => 0 end.
Lemma readings_in_flight n iteration w :
  Z.of_nat n < 2 ^ 64 → nsteps world_step n create w → total_of snd (readings iteration w) = total_of (job_in_flight w) iteration.
Proof.
  intros Hn Hs. induction iteration as [|i it IH]; [done|]. unfold readings in *. csimpl. rewrite registry_lookup.
  unfold job_in_flight at 1. destruct (jobs w !! i) as [s|] eqn:Hi; [|done]. simpl. destruct (registered s); [|done]. csimpl.
  unfold total_of in *. simpl. rewrite IH. f_equal.
  destruct (jobs_are_runs n w i s Hs Hi) as (m & sc & o & r & k & Hk & Hr0 & Hle).
  apply (count_exact k (JobEntry_new i m sc o) r (view w s)); [by apply new_fresh|lia|done].
Qed.
(** The aggregate is the sum of what the listing shows, in words, whatever order the
    map is walked in; [active_runs] is the number of runs in flight. *)
Theorem metrics_add_up n w iteration :
  Z.of_nat n < 2 ^ 64 → nsteps world_step n create w →
  let l := list_jobs iteration w in
  metrics iteration w =
  mkMetrics (word (Z.of_nat (length l))) (word (total_of (paused_state ∘ i_state) l)) (word (total_of (job_in_flight w) iteration))
    (word (total_of i_run_count l)) (word (total_of i_failure_count l)) (word (total_of i_skipped_count l)) ∧
  ∀ iteration', iteration' ≡ₚ iteration → metrics iteration' w = metrics iteration w.
Proof.
  intros Hn Hs. split.
  - unfold metrics. rewrite add_metrics_total, (readings_in_flight n) by done. rewrite <- readings_infos.
    rewrite length_fmap, !total_of_fmap. done.
  - intros it Hp. unfold metrics. rewrite !add_metrics_total.
    assert (readings it w ≡ₚ readings iteration w) as Hr by (by apply omap_Permutation). 
    by rewrite (Permutation_length Hr), !(total_of_perm _ _ _ Hr).
Qed.

(** ** Starting the static jobs *)

Definition parse_job (d : JobDescriptor) := Schedule_parse parse_duration parse_cron (d_kind d) (d_schedule d).
Definition spawn_all (ds : list JobDescriptor) (scs : list (Schedule Cron)) (w : World) : World :=
  foldl (λ w p, (spawn (metadata_named (d_name p.1)) p.2 (d_options p.1) w).2) w (zip ds scs).
Lemma start_jobs_spec ds count w :
  match start_jobs ds count w with
  | (Ok n, w') => n = (count + length ds)%nat ∧ ∃ scs, Forall2 (λ d sc, parse_job d = Ok sc) ds scs ∧ w' = spawn_all ds scs w
  | (Err e, w') => ∃ before d after scs, ds = before ++ d :: after ∧ parse_job d = Err e ∧
                     Forall2 (λ d sc, parse_job d = Ok sc) before scs ∧ w' = spawn_all before scs w
  end.
Proof.
  revert count w. induction ds as [|d ds IH]; intros count w; simpl; [split; [lia|by exists []]|].
  change (Schedule_parse parse_duration parse_cron (d_kind d) (d_schedule d)) with (parse_job d).
  destruct (parse_job d) as [sc|e] eqn:Hp; [|by exists [], d, ds, []].
  specialize (IH (S count) (spawn (metadata_named (d_name d)) sc (d_options d) w).2).
  destruct (start_jobs ds (S count) _) as [[n|e] w'].
  - destruct IH as [-> (scs & Hall & ->)]. split; [lia|]. exists (sc :: scs). split; [by constructor|done].
  - destruct IH as (before & d0 & after & scs & -> & He & Hall & ->).
    exists (d :: before), d0, after, (sc :: scs). split_and!; [done..|by constructor|done].
Qed.
(** Startup spawns one job per descriptor, in order; it fails with the first schedule
    that does not parse, and the jobs before it have been spawned. *)
Theorem start_stops_at_first_error ds w :
  match start ds w with
  | (Ok n, w') => n = length ds ∧ ∃ scs, Forall2 (λ d sc, parse_job d = Ok sc) ds scs ∧ w' = spawn_all ds scs w
  | (Err e, w') => ∃ before d after scs, ds = before ++ d :: after ∧ parse_job d = Err e ∧
                     Forall2 (λ d sc, parse_job d = Ok sc) before scs ∧ w' = spawn_all before scs w
  end.
Proof. apply (start_jobs_spec ds 0). Qed.

(** ** Calls on jobs that are not there *)

(** A call on an id that is not listed is refused and changes nothing; on a listed
    one it moves that job alone, and exactly the listed jobs answer to a look-up. *)
Theorem control_reaches_listed i c w :
  match control i c w with
  | (Ok _, w') => is_Some (job i w) ∧ ∃ s, jobs w !! i = Some s ∧ jobs w' = <[i := exec_control c (view w s)]> (jobs w)
  | (Err e, w') => e = UnknownJob i ∧ job i w = None ∧ w' = w
  end.
Proof.
  unfold control, on_job, job. rewrite registry_lookup. destruct (jobs w !! i) as [s|] eqn:Hs; simpl; [|done].
  destruct (registered s); simpl; [|done]. split; [done|]. by exists s.
Qed.
End Scheduler.

(** A job is stale when it is not reported paused and its next run is overdue by more
    than the threshold. *)
Lemma is_stale_iff now threshold i :
  0 ≤ threshold →
  is_stale now threshold i = true ↔ i_state i ≠ Paused ∧ ∃ next, i_next_run_at i = Some next ∧ next + threshold < now.
Proof.
  intros Ht. unfold is_stale, schedule_lag.
  assert (Hlag : match (next ← i_next_run_at i; if now <? next then None else Some (now - next)) with
                 | Some lag => threshold <? lag | None => false end = true ↔
                 ∃ next, i_next_run_at i = Some next ∧ next + threshold < now).
  { destruct (i_next_run_at i) as [next|]; simpl; [|naive_solver].
    destruct (Z.ltb_spec now next); [split; [done|intros (? & [= <-] & ?); lia]|].
    rewrite Z.ltb_lt. split; [intros; exists next; split; [done|lia]|intros (? & [= <-] & ?); lia]. }
  destruct (i_state i); rewrite ?Hlag; naive_solver.
Qed.

(** ** Concrete schedulers *)

Definition spawn_skip : @WorldEvent unit := WSpawn (metadata_named "sync") (Every 10) JobOptions_default.
Definition world_after (evs : list (@WorldEvent unit)) : option (@World unit) := exec_worlds evs create.
Definition no_pattern (_ : unit) : string := "".
Lemma exec_worlds_nsteps evs (w w' : @World unit) n :
  nsteps world_step n create w → exec_worlds evs w = Some w' → nsteps world_step (n + length evs) create w'.
Proof.
  revert n w. induction evs as [|ev evs IH]; intros n w Hs Hx; simpl in Hx; [simplify_eq; by rewrite Nat.add_0_r|].
  destruct (exec_world ev w) as [w1|] eqn:Hev; [|done]. cbn [length]. rewrite Nat.add_succ_r.
  apply (IH (S n) w1); [|done]. eapply nsteps_r; [done|]. by exists ev.
Qed.

(** [cancel_and_wait] can return while the registry still lists the job: the loop
    reports its end before it removes the entry. *)
Theorem cancel_and_wait_still_listed :
  ∃ w, world_after [spawn_skip; WJob 0 EDriver; WJob 0 (EControl CCancel); WJob 0 (ESelect SCancelled); WJob 0 EDriver] = Some w ∧
    wait_is_over 0 w = true ∧ is_Some (job no_pattern 0 w).
Proof. eexists. split; [vm_compute; reflexivity|]. split; [reflexivity|by eexists]. Qed.

(** A job paused while a run is in flight stays [Running], so the listing reports it
    stale, and the metrics do not count it paused, until its loop wakes. *)
Definition run_then_pause : list (@WorldEvent unit) :=
  [spawn_skip; WJob 0 EDriver; WJob 0 (ENextRunAt (Some 10)); WJob 0 (ESelect STick)] ++ replicate 5 (WJob 0 EDriver) ++
  [WJob 0 (ERun 0 10 (Returns Success)); WJob 0 (ERun 0 10 (Returns Success)); WJob 0 (ENextRunAt (Some 20)); WJob 0 (EControl CPause)].
Theorem paused_running_job_is_stale :
  ∃ w i, world_after run_then_pause = Some w ∧ job no_pattern 0 w = Some i ∧
    (is_paused ∘ entry <$> jobs w !! 0) = Some true ∧ is_stale 25 0 i = true ∧ paused_jobs (metrics no_pattern [0] w) = 0.
Proof. do 2 eexists. split; [vm_compute; reflexivity|]. split; [reflexivity|]. by vm_compute. Qed.

(** ** Witnesses *)

Definition two_jobs : list (@WorldEvent unit) :=
  [spawn_skip; spawn_skip; WJob 0 EDriver; WJob 1 EDriver; WJob 1 (EControl CTrigger); WJob 0 (EControl CTrigger)].
Definition two_world : @World unit := default create (world_after two_jobs).
Lemma two_world_steps : nsteps world_step 6 create two_world.
Proof. apply (exec_worlds_nsteps two_jobs create two_world 0); [constructor|]. vm_compute. reflexivity. Defined.
Lemma scheduled_jobs_refine_runs_witness : ∃ before m sc o after s, two_jobs = before ++ WSpawn m sc o :: after ∧ jobs two_world !! 1 = Some s ∧
  runs_job 1 after (initial (JobEntry_new 1 m sc o) 0) (view two_world s).
Proof.
  assert (Hx : exec_worlds two_jobs create = Some two_world) by (vm_compute; reflexivity).
  destruct (jobs two_world !! 1) as [s|] eqn:Hs; [|vm_compute in Hs; discriminate Hs].
  destruct (proj1 (scheduled_jobs_refine_runs two_jobs two_world Hx) 1 s Hs) as (before & m & sc & o & after & w0 & Heq & Hb & Hid & Hr).
  exists before, m, sc, o, after, s. split; [exact Heq|]. split; [reflexivity|].
  destruct before as [|e1 [|e2 before]]; injection Heq as ? ? Heq'; subst; [vm_compute in Hb; injection Hb as <-; discriminate Hid|vm_compute in Hb; injection Hb as <-; exact Hr|].
  exfalso. repeat (destruct before as [|? before]; [discriminate Heq'|]; injection Heq' as ? Heq'). destruct before; discriminate.
Defined.
Lemma run_ids_unique_across_jobs_witness : ∃ s t,
  jobs two_world !! 0 = Some s ∧ jobs two_world !! 1 = Some t ∧ all_ids s = [1] ∧ all_ids t = [0] ∧ all_ids s ## all_ids t.
Proof.
  destruct (jobs two_world !! 0) as [s|] eqn:Hs; [|vm_compute in Hs; discriminate Hs].
  destruct (jobs two_world !! 1) as [t|] eqn:Ht; [|vm_compute in Ht; discriminate Ht].
  exists s, t. split; [reflexivity|]. split; [reflexivity|].
  split; [vm_compute in Hs; simplify_eq; reflexivity|]. split; [vm_compute in Ht; simplify_eq; reflexivity|].
  apply (run_ids_unique_across_jobs 6 two_world 0 1 s t ltac:(lia) two_world_steps Hs Ht). discriminate.
Defined.
Definition leave_moves : list (@WorldEvent unit) := [WJob 1 EDriver; WJob 0 (ESelect SCancelled); WJob 0 EDriver; WJob 0 EDriver].
Definition cancelled_world : @World unit := (cancel_and_wait 0 (default create (world_after [spawn_skip; spawn_skip; WJob 0 EDriver]))).2.
Lemma cancelled_job_leaves_witness : ∃ w', exec_worlds leave_moves cancelled_world = Some w' ∧
  moves 0 leave_moves = 3%nat ∧ registry w' !! 0 = None ∧
  ((registry w' !! 0 = None ∧ wait_is_over 0 w' = true) ∨
   ∃ ev w'', driver_move ev = true ∧ exec_world (WJob 0 ev) w' = Some w'').
Proof.
  destruct (exec_worlds leave_moves cancelled_world) as [w'|] eqn:Hx; [|vm_compute in Hx; discriminate Hx].
  assert (nsteps world_step 4 create cancelled_world) as Hs.
  { apply (exec_worlds_nsteps [spawn_skip; spawn_skip; WJob 0 EDriver; WJob 0 (EControl CCancel)] create cancelled_world 0);
      [constructor|vm_compute; reflexivity]. }
  destruct (jobs cancelled_world !! 0) as [s|] eqn:Hi; [|vm_compute in Hi; discriminate Hi].
  exists w'. split; [reflexivity|]. split; [reflexivity|]. split; [vm_compute in Hx; simplify_eq; reflexivity|].
  apply (cancelled_job_leaves 4 cancelled_world leave_moves w' 0 s); [simpl; lia|exact Hs|exact Hi|reflexivity|exact Hx].
Defined.
Lemma metrics_add_up_witness :
  jobs_scheduled (metrics no_pattern [0; 1] two_world) = 2 ∧
  ∀ iteration', iteration' ≡ₚ [0; 1] → metrics no_pattern iteration' two_world = metrics no_pattern [0; 1] two_world.
Proof.
  split; [reflexivity|]. apply (metrics_add_up no_pattern 6 two_world [0; 1]); [lia|apply two_world_steps].
Defined.
