(* ===== verification/WireStatus.v ===== *)
(** * WireStatus: the status code of an error response

    Models [crates/transport/src/status.rs]. A [u8], [u16] or [u32] is an integer
    in its range; [as] truncates. *)
From S2P Require Import Prelude.

Definition FLAGS_SHIFT : Z := 24.
Definition PREDEFINED_SHIFT : Z := 16.
(** [x as u8] and [x as u16] of an unsigned integer. *)
Definition as_u8 (x : Z) : Z := x mod 2 ^ 8.
Definition as_u16 (x : Z) : Z := x mod 2 ^ 16.
Definition as_u32 (x : Z) : Z := x mod 2 ^ 32.

(** [Flags] is its bits: [from_bits_retain] keeps unknown ones. *)
Abbreviation Flags := Z.
Definition RETRYABLE : Flags := 1.

Inductive PredefinedCode := Empty | Internal | BadInput | NotFound | Unauthorized | UnknownErrorCode.
#[export] Instance PredefinedCode_eq_dec : EqDecision PredefinedCode.
Proof. solve_decision. Defined.
(** [PredefinedCode::from_byte] and [to_byte], the discriminants of the enum. *)
Definition from_byte (byte : Z) : PredefinedCode :=
  match byte with
  | 0 => Empty | 1 => Internal | 2 => BadInput | 3 => NotFound | 4 => Unauthorized
  | _ => UnknownErrorCode
  end.
Definition to_byte (c : PredefinedCode) : Z :=
  match c with
  | Empty => 0 | Internal => 1 | BadInput => 2 | NotFound => 3 | Unauthorized => 4
  | UnknownErrorCode => 255
  end.

Record StatusCode := mkStatus { flags : Flags; predefined : PredefinedCode; custom : Z }.
#[export] Instance StatusCode_eq_dec : EqDecision StatusCode.
Proof. solve_decision. Defined.
Definition StatusCode_new (p : PredefinedCode) (f : Flags) : StatusCode := mkStatus f p 0.
Definition new_with_custom (p : PredefinedCode) (f : Flags) (c : Z) : StatusCode := mkStatus f p c.
(** [From<PredefinedCode>] *)
Definition status_of (p : PredefinedCode) : StatusCode := StatusCode_new p 0.
(** [StatusCode::contains]: every bit of [flag] is set. *)
Definition contains (s : StatusCode) (flag : Flags) : bool := Z.land (flags s) flag =? flag.

(** [StatusCode::raw] and [StatusCode::from_raw] *)
Definition raw (s : StatusCode) : Z :=
  Z.lor (Z.lor (as_u32 (Z.shiftl (flags s) FLAGS_SHIFT)) (as_u32 (Z.shiftl (to_byte (predefined s)) PREDEFINED_SHIFT)))
    (custom s).
Definition from_raw (r : Z) : StatusCode :=
  mkStatus (as_u8 (Z.shiftr r FLAGS_SHIFT)) (from_byte (as_u8 (Z.shiftr r PREDEFINED_SHIFT))) (as_u16 r).

(** The fields are in the ranges of their types. *)
Definition status_ok (s : StatusCode) : Prop := 0 ≤ flags s < 2 ^ 8 ∧ 0 ≤ custom s < 2 ^ 16.

(** ** Lemmas *)

Lemma lor_disjoint a b k : 0 ≤ k → 0 ≤ b < 2 ^ k → Z.lor (a * 2 ^ k) b = a * 2 ^ k + b.
Proof.
  intros Hk Hb. symmetry. rewrite <- Z.shiftl_mul_pow2 by done.
  rewrite Z.add_nocarry_lxor; [rewrite Z.lxor_lor; [done|]|].
  all: apply Z.bits_inj'; intros n Hn; rewrite Z.land_spec, Z.bits_0.
  all: destruct (decide (n < k)) as [Hlt|Hge]; [rewrite Z.shiftl_spec_low by done; done|].
  all: rewrite <- (Z.mod_small b (2 ^ k)) by done; rewrite Z.mod_pow2_bits_high by lia; apply andb_false_r.
Qed.
Lemma to_byte_bounds c : 0 ≤ to_byte c < 2 ^ 8.
Proof. by destruct c. Qed.
Lemma from_to_byte c : from_byte (to_byte c) = c.
Proof. by destruct c. Qed.
Lemma from_byte_cases b : 0 ≤ b < 2 ^ 8 → to_byte (from_byte b) = b ∨ (to_byte (from_byte b) = 255 ∧ 5 ≤ b < 255).
Proof.
  intros Hb. destruct (decide (b = 255)) as [->|]; [by left|]. destruct (decide (5 ≤ b)) as [|].
  - right. split; [|lia]. destruct b as [|[[[]|[]|]|[[]|[]|]|]|]; try done; lia.
  - left. assert (b = 0 ∨ b = 1 ∨ b = 2 ∨ b = 3 ∨ b = 4) as [->|[->|[->|[->| ->]]]] by lia; done.
Qed.

(** The packed word in arithmetic. *)
Lemma raw_eq s : status_ok s → raw s = flags s * 2 ^ 24 + to_byte (predefined s) * 2 ^ 16 + custom s.
Proof.
  intros [Hf Hc]. pose proof (to_byte_bounds (predefined s)) as Hb. unfold raw, as_u32, FLAGS_SHIFT, PREDEFINED_SHIFT.
  rewrite !Z.shiftl_mul_pow2 by lia. rewrite !Z.mod_small by lia.
  rewrite (lor_disjoint (flags s) (to_byte (predefined s) * 2 ^ 16) 24) by lia.
  replace (flags s * 2 ^ 24 + to_byte (predefined s) * 2 ^ 16) with ((flags s * 2 ^ 8 + to_byte (predefined s)) * 2 ^ 16) by lia.
  rewrite lor_disjoint by lia. lia.
Qed.
Lemma raw_bounds s : status_ok s → 0 ≤ raw s < 2 ^ 32.
Proof. intros Hs. rewrite raw_eq by done. destruct Hs. pose proof (to_byte_bounds (predefined s)). lia. Qed.
Lemma from_raw_ok r : status_ok (from_raw r).
Proof. split; apply Z.mod_pos_bound; lia. Qed.
Lemma from_raw_split r :
  from_raw r = mkStatus (r / 2 ^ 24 mod 2 ^ 8) (from_byte (r / 2 ^ 16 mod 2 ^ 8)) (r mod 2 ^ 16).
Proof. unfold from_raw, as_u8, as_u16, FLAGS_SHIFT, PREDEFINED_SHIFT. by rewrite !Z.shiftr_div_pow2. Qed.

(** ** Theorems *)

(** The packed word fits 32 bits and unpacks to the status code it packs. *)
Theorem status_raw_roundtrip s : status_ok s → 0 ≤ raw s < 2 ^ 32 ∧ from_raw (raw s) = s.
Proof.
  intros Hs. split; [by apply raw_bounds|]. rewrite from_raw_split, raw_eq by done.
  destruct s as [f p c], Hs as [Hf Hc]; simpl in *. pose proof (to_byte_bounds p) as Hp.
  assert ((f * 2 ^ 24 + to_byte p * 2 ^ 16 + c) / 2 ^ 24 = f) as ->.
  { symmetry. apply (Z.div_unique _ _ _ (to_byte p * 2 ^ 16 + c)); lia. }
  assert ((f * 2 ^ 24 + to_byte p * 2 ^ 16 + c) / 2 ^ 16 = f * 2 ^ 8 + to_byte p) as ->.
  { symmetry. apply (Z.div_unique _ _ _ c); lia. }
  f_equal; [by apply Z.mod_small| |].
  - rewrite <- (from_to_byte p) at 2. f_equal. symmetry. apply (Z.mod_unique _ _ f); lia.
  - symmetry. apply (Z.mod_unique _ _ (f * 2 ^ 8 + to_byte p)); lia.
Qed.

(** Unpacking is total, and packing what was unpacked gives the word back unless
    its predefined byte is unknown: that byte alone becomes 255. *)
Theorem status_unpack_total r :
  0 ≤ r < 2 ^ 32 →
  status_ok (from_raw r) ∧
  (raw (from_raw r) = r ∨
   predefined (from_raw r) = UnknownErrorCode ∧ raw (from_raw r) = r + (255 - r / 2 ^ 16 mod 2 ^ 8) * 2 ^ 16).
Proof.
  intros Hr. pose proof (from_raw_ok r) as Hok. split; [done|]. rewrite (raw_eq _ Hok), !from_raw_split. simpl.
  assert (0 ≤ r / 2 ^ 16 mod 2 ^ 8 < 2 ^ 8) as Hb by (apply Z.mod_pos_bound; lia).
  assert (r / 2 ^ 24 mod 2 ^ 8 = r / 2 ^ 24) as -> by (apply Z.mod_small; split; [apply Z.div_pos; lia|apply Z.div_lt_upper_bound; lia]).
  assert (r / 2 ^ 24 * 2 ^ 24 + r / 2 ^ 16 mod 2 ^ 8 * 2 ^ 16 + r mod 2 ^ 16 = r) as Hr'.
  { change (2 ^ 24) with (2 ^ 16 * 2 ^ 8). rewrite <- Z.div_div by lia.
    pose proof (Z.div_mod r (2 ^ 16)). pose proof (Z.div_mod (r / 2 ^ 16) (2 ^ 8)). lia. }
  destruct (from_byte_cases _ Hb) as [->|[Hu Hrange]]; [left; lia|right]. split; [|lia].
  by destruct (from_byte (r / 2 ^ 16 mod 2 ^ 8)).
Qed.

Lemma status_raw_roundtrip_witness :
  let s := new_with_custom Unauthorized RETRYABLE 4660 in
  status_ok s ∧ raw s = 17044020 ∧ from_raw (raw s) = s.
Proof.
  assert (status_ok (new_with_custom Unauthorized RETRYABLE 4660)) as H by (split; simpl; unfold RETRYABLE; lia).
  split; [exact H|]. split; [reflexivity|]. exact (proj2 (status_raw_roundtrip _ H)).
Defined.
Lemma status_unpack_total_witness : status_ok (from_raw 16711680) ∧ predefined (from_raw 524288) = UnknownErrorCode.
Proof. split; [|reflexivity]. refine (proj1 (status_unpack_total 16711680 _)). split; [discriminate|reflexivity]. Defined.
