(* ===== verification/WireFrame.v ===== *)
(** * WireFrame: messages and their frames

    Models [crates/transport/src/error.rs], [frame.rs], [protocol/mod.rs] and
    [protocol/codec.rs], and the frame writers of [rpc/src/client.rs]. The body
    format is [postcard]'s: two arguments. A read of the socket is an event; a
    [read_message] future that is dropped while it waits leaves the reader as it
    is, so a later call goes on from there. *)
From Stdlib Require Import Strings.Byte.
From S2P Require Import Prelude WireStatus.

Abbreviation bytes := (list Byte.byte).
Definition byte_of (z : Z) : Byte.byte :=
  match Byte.of_N (Z.to_N (z mod 256)) with Some b => b | None => Byte.x00 end.
Definition byte_val (b : Byte.byte) : Z := Z.of_N (Byte.to_N b).
Definition blen (bs : bytes) : Z := Z.of_nat (length bs).

(** [u32::to_le_bytes] and [u32::from_le_bytes] *)
Definition to_le_bytes (n : Z) : bytes := byte_of <$> [n; n / 2 ^ 8; n / 2 ^ 16; n / 2 ^ 24].
Fixpoint from_le_bytes (bs : bytes) : Z :=
  match bs with [] => 0 | b :: bs' => byte_val b + 256 * from_le_bytes bs' end.

(** ** Messages *)

Abbreviation CallId := Z.
Inductive CallResult := CallOk (body : bytes) | CallErr (code : StatusCode) (body : bytes).
Inductive WireOutcome := WireOk (body : bytes) | WireErr (code : StatusCode) (body : bytes).
Record WireRequest := mkRequest { req_id : CallId; path : string; req_payload : bytes; streaming_input : bool }.
Record WireResponse := mkResponse { resp_id : CallId; outcome : WireOutcome }.
Inductive WireMessage :=
| MRequest (r : WireRequest)
| MResponse (r : WireResponse)
| MStreamItem (id : CallId) (payload : bytes)
| MStreamEnd (id : CallId)
| MStreamError (id : CallId) (code : StatusCode) (body : bytes)
| MStreamCancel (id : CallId).
(** [WireResponse::new] *)
Definition WireResponse_new (id : CallId) (o : CallResult) : WireResponse :=
  mkResponse id (match o with CallOk b => WireOk b | CallErr c b => WireErr c b end).

Inductive IoKind := UnexpectedEof | ConnectionReset | ConnectionAborted | BrokenPipe | OtherIo (code : Z).
Inductive TransportError :=
| Closed
| Io (kind : IoKind)
| Serialization (msg : string)
| FrameTooLarge (len max : Z)
| FrameAllocation (len : Z)
| ReadTimeout (idle_timeout : Z)
| TooManyCalls (max : Z)
| DuplicateCallId (id : CallId)
| ControlWriteTimeout (timeout : Z)
| ControlTasksSaturated (max : Z)
| ControlTask (msg : string)
| UnexpectedMessage.
(** [is_disconnect] of the server connection and of the client. *)
Definition is_disconnect (k : IoKind) : bool := match k with OtherIo _ => false | _ => true end.

(** ** [FrameConfig] *)

Definition DEFAULT_MAX_FRAME_LEN : Z := 16 * 1024 * 1024.
Definition DEFAULT_READ_IDLE_TIMEOUT : Z := 30 * 1000000000.
Definition READ_CHUNK_LEN : Z := 8 * 1024.
Record FrameConfig := mkFrameConfig { max_frame_len : Z; read_idle_timeout : Z }.
(** [FrameConfig::new]; [None] is the panic of an assertion. *)
Definition FrameConfig_new (max idle : Z) : option FrameConfig :=
  if (0 <? max) && negb (idle =? 0) then Some (mkFrameConfig max idle) else None.

Section Codec.
Context (to_allocvec : WireMessage → result bytes string) (from_bytes : bytes → result WireMessage string).

(** ** Writing *)

(** The bytes [write_message] writes when no write fails. *)
Definition write_message (m : WireMessage) : result bytes TransportError :=
  match to_allocvec m with
  | Err e => Err (Serialization e)
  | Ok payload => Ok (to_le_bytes (as_u32 (blen payload)) ++ payload)
  end.
(** [serialize_frame] of the client; [reserves] is whether an allocation succeeds. *)
Definition serialize_frame (reserves : Z → bool) (m : WireMessage) : result bytes TransportError :=
  match to_allocvec m with
  | Err e => Err (Serialization e)
  | Ok payload =>
      if u_max 32 <? blen payload then Err (FrameTooLarge (blen payload) (u_max 32))
      else if usize_max <? blen payload + 4 then Err (FrameAllocation (blen payload))
      else if reserves (blen payload + 4) then Ok (to_le_bytes (blen payload) ++ payload)
      else Err (FrameAllocation (blen payload + 4))
  end.

(** ** Reading *)

Record MessageReader := mkReader {
  config : FrameConfig;
  prefix : bytes;
  prefix_read : nat;
  expected_len : option Z;
  payload : bytes;
  idle_deadline : option Z;
}.
(** [MessageReader::with_config] *)
Definition with_config (c : FrameConfig) : MessageReader := mkReader c (replicate 4 Byte.x00) 0 None [] None.
(** The reset after a decoded frame. *)
Definition reset (r : MessageReader) : MessageReader := with_config (config r).
Definition set_expected (len : Z) (r : MessageReader) : MessageReader :=
  mkReader (config r) (prefix r) (prefix_read r) (Some len) (payload r) (idle_deadline r).

(** What [read_message] does until it waits for the socket, for how many bytes at
    most, or returns. *)
Inductive Progress :=
| Wait (n : Z) (r : MessageReader)
| Done (res : result WireMessage TransportError) (r : MessageReader).
Definition settle (r : MessageReader) : Progress :=
  if (prefix_read r <? 4)%nat then Wait (if (prefix_read r =? 0)%nat then 1 else 4 - Z.of_nat (prefix_read r)) r
  else
    let header : result (Z * MessageReader) TransportError :=
      match expected_len r with
      | Some len => Ok (len, r)
      | None =>
          let len := from_le_bytes (prefix r) in
          if max_frame_len (config r) <? len then Err (FrameTooLarge len (max_frame_len (config r)))
          else Ok (len, set_expected len r)
      end in
    match header with
    | Err e => Done (Err e) r
    | Ok (len, r') =>
        if blen (payload r') <? len then Wait (Z.min (len - blen (payload r')) READ_CHUNK_LEN) r'
        else Done (map_err Serialization (from_bytes (payload r'))) (reset r')
    end.

(** How a wait ends: bytes that [read] returned, the same when the buffer cannot
    grow, end of file, an error, the idle deadline, or the future is dropped. *)
Inductive ReadEvent :=
| Data (now : Z) (bs : bytes)
| DataNoMem (now : Z) (bs : bytes)
| Eof
| IoFails (k : IoKind)
| Elapsed (now : Z)
| Dropped.
(** What [read_once] and [read_with_idle_deadline] then do to the reader; [None] is
    an event the wait cannot end with. *)
Definition feed (n : Z) (ev : ReadEvent) (r : MessageReader) : option (option TransportError * MessageReader) :=
  let fits (bs : bytes) := negb (blen bs =? 0) && (blen bs <=? n) in
  let deadline (now : Z) := Some (now + read_idle_timeout (config r)) in
  match ev with
  | Data now bs =>
      if fits bs then
        Some (None,
          if (prefix_read r <? 4)%nat
          then mkReader (config r) (take (prefix_read r) (prefix r) ++ bs ++ drop (prefix_read r + length bs) (prefix r))
                 (prefix_read r + length bs) (expected_len r) (payload r) (deadline now)
          else mkReader (config r) (prefix r) (prefix_read r) (expected_len r) (payload r ++ bs) (deadline now))
      else None
  | DataNoMem now bs =>
      if fits bs && negb (prefix_read r <? 4)%nat then
        Some (FrameAllocation <$> expected_len r,
          mkReader (config r) (prefix r) (prefix_read r) (expected_len r) (payload r) (deadline now))
      else None
  | Eof => Some (Some (Io UnexpectedEof), r)
  | IoFails k => Some (Some (Io k), r)
  | Elapsed now =>
      match idle_deadline r with
      | Some d => if d <=? now then Some (Some (ReadTimeout (read_idle_timeout (config r))), r) else None
      | None => None
      end
  | Dropped => Some (None, r)
  end.

(** One call of [read_message]: what it returns (nothing while it waits or when it
    is dropped), the reader, and the events left. *)
Fixpoint read_message (evs : list ReadEvent) (r : MessageReader) :
    option (option (result WireMessage TransportError) * MessageReader * list ReadEvent) :=
  match settle r with
  | Done res r' => Some (Some res, r', evs)
  | Wait n r' =>
      match evs with
      | [] => Some (None, r', [])
      | Dropped :: evs' => Some (None, r', evs')
      | ev :: evs' =>
          match feed n ev r' with
          | None => None
          | Some (Some e, r'') => Some (Some (Err e), r'', evs')
          | Some (None, r'') => read_message evs' r''
          end
      end
  end.

(** The calls of [read_message] a connection makes, one after another, event by
    event: what each event lets a call return. *)
Definition step (ev : ReadEvent) (r : MessageReader) : option (list (result WireMessage TransportError) * MessageReader) :=
  match settle r with
  | Done _ _ => None
  | Wait n r' =>
      match feed n ev r' with
      | None => None
      | Some (Some e, r'') => Some ([Err e], r'')
      | Some (None, r'') => Some (match settle r'' with Wait _ r3 => ([], r3) | Done res r3 => ([res], r3) end)
      end
  end.
Fixpoint run (evs : list ReadEvent) (r : MessageReader) : option (list (result WireMessage TransportError) * MessageReader) :=
  match evs with
  | [] => Some ([], r)
  | ev :: evs' =>
      '(o, r1) ← step ev r;
      '(os, r2) ← run evs' r1;
      Some (o ++ os, r2)
  end.

(** ** Bytes and lengths *)

Definition pending (r : MessageReader) : bytes := take (prefix_read r) (prefix r) ++ payload r.
Definition frame_of (body : bytes) : bytes := to_le_bytes (blen body) ++ body.
Definition decode (body : bytes) : result WireMessage TransportError := map_err Serialization (from_bytes body).
Definition data_of (ev : ReadEvent) : bytes := match ev with Data _ bs => bs | _ => [] end.
(** Data and dropped futures, no failure of the socket. *)
Definition plain (ev : ReadEvent) : Prop := match ev with Data _ _ | Dropped => True | _ => False end.

Lemma byte_val_of z : byte_val (byte_of z) = z mod 256.
Proof.
  unfold byte_of, byte_val. destruct (Byte.of_N (Z.to_N (z mod 256))) as [b|] eqn:Hb.
  - apply Byte.to_of_N in Hb. rewrite Hb. pose proof (Z.mod_pos_bound z 256). lia.
  - apply Byte.of_N_None_iff in Hb. pose proof (Z.mod_pos_bound z 256). lia.
Qed.
Lemma byte_of_val b : byte_of (byte_val b) = b.
Proof.
  unfold byte_of, byte_val. pose proof (Byte.to_N_bounded b). rewrite Z.mod_small by lia.
  rewrite N2Z.id, Byte.of_to_N. done.
Qed.
Lemma byte_of_low b k : byte_of (byte_val b + 256 * k) = b.
Proof.
  rewrite <- (byte_of_val b) at 2. unfold byte_of. by rewrite (Z.mul_comm 256), Z.mod_add by done.
Qed.
Lemma byte_val_bounds b : 0 ≤ byte_val b < 256.
Proof. unfold byte_val. pose proof (Byte.to_N_bounded b). lia. Qed.
Lemma blen_nonneg bs : 0 ≤ blen bs.
Proof. unfold blen. lia. Qed.
Lemma blen_app a b : blen (a ++ b) = blen a + blen b.
Proof. unfold blen. rewrite length_app. lia. Qed.
Lemma blen_nil bs : blen bs = 0 → bs = [].
Proof. unfold blen. destruct bs; simpl; [done|lia]. Qed.
Lemma to_le_bytes_length n : length (to_le_bytes n) = 4%nat.
Proof. done. Qed.
Lemma from_to_le n : 0 ≤ n < 2 ^ 32 → from_le_bytes (to_le_bytes n) = n.
Proof.
  intros Hn. unfold to_le_bytes. simpl. rewrite !byte_val_of. change 256 with (2 ^ 8).
  pose proof (Z.div_mod n (2 ^ 8)). pose proof (Z.div_mod (n / 2 ^ 8) (2 ^ 8)). pose proof (Z.div_mod (n / 2 ^ 16) (2 ^ 8)).
  assert (n / 2 ^ 8 / 2 ^ 8 = n / 2 ^ 16) as E1 by (rewrite Z.div_div by lia; done).
  assert (n / 2 ^ 16 / 2 ^ 8 = n / 2 ^ 24) as E2 by (rewrite Z.div_div by lia; done).
  assert (0 ≤ n / 2 ^ 24 < 2 ^ 8) by (split; [apply Z.div_pos; lia|apply Z.div_lt_upper_bound; lia]).
  rewrite (Z.mod_small (n / 2 ^ 24)) by done. lia.
Qed.
Lemma from_le_bounds p : length p = 4%nat → 0 ≤ from_le_bytes p < 2 ^ 32.
Proof.
  destruct p as [|a [|b [|c [|d [|]]]]]; simpl; try done. intros _.
  pose proof (byte_val_bounds a). pose proof (byte_val_bounds b). pose proof (byte_val_bounds c). pose proof (byte_val_bounds d). lia.
Qed.
Lemma to_from_le p : length p = 4%nat → to_le_bytes (from_le_bytes p) = p.
Proof.
  destruct p as [|a [|b [|c [|d [|]]]]]; try done. intros _. unfold to_le_bytes. cbn [from_le_bytes fmap list_fmap].
  pose proof (byte_val_bounds a). pose proof (byte_val_bounds b). pose proof (byte_val_bounds c). pose proof (byte_val_bounds d).
  set (x := byte_val a + 256 * (byte_val b + 256 * (byte_val c + 256 * (byte_val d + 256 * 0)))).
  assert (x / 2 ^ 8 = byte_val b + 256 * (byte_val c + 256 * byte_val d)) as E1 by (symmetry; apply (Z.div_unique _ _ _ (byte_val a)); lia).
  assert (x / 2 ^ 16 = byte_val c + 256 * byte_val d) as E2 by (symmetry; apply (Z.div_unique _ _ _ (byte_val a + 256 * byte_val b)); lia).
  assert (x / 2 ^ 24 = byte_val d) as E3
    by (symmetry; apply (Z.div_unique _ _ _ (byte_val a + 256 * (byte_val b + 256 * byte_val c))); lia).
  rewrite E1, E2, E3. unfold x. by rewrite !byte_of_low, byte_of_val.
Qed.

(** ** The reader between two events *)

Record reader_ok (r : MessageReader) : Prop := {
  ok_prefix : length (prefix r) = 4%nat;
  ok_read : (prefix_read r ≤ 4)%nat;
  ok_partial : (prefix_read r < 4)%nat → expected_len r = None ∧ payload r = [];
  ok_expected len : expected_len r = Some len → len = from_le_bytes (prefix r) ∧ len ≤ max_frame_len (config r);
  ok_payload : expected_len r = None → payload r = [];
  ok_len : blen (payload r) ≤ from_le_bytes (prefix r) ∨ payload r = [];
  ok_idle : prefix_read r = 0%nat ↔ idle_deadline r = None;
}.
Definition waiting (r : MessageReader) : Prop := ∃ n, settle r = Wait n r.
Lemma with_config_ok c : reader_ok (with_config c) ∧ waiting (with_config c) ∧ pending (with_config c) = [].
Proof. split; [by split; simpl; (done || lia || right)|]. split; [by exists 1|done]. Qed.

(** What [settle] finds. *)
Inductive settled (r : MessageReader) : Progress → Prop :=
| settled_wait n r' :
    reader_ok r' → settle r' = Wait n r' → pending r' = pending r → config r' = config r → idle_deadline r' = idle_deadline r →
    0 < n → ((prefix_read r < 4)%nat ∧ r' = r ∧ n ≤ 4 - Z.of_nat (prefix_read r) ∨
             prefix_read r' = 4%nat ∧ prefix r' = prefix r ∧ expected_len r' = Some (from_le_bytes (prefix r)) ∧
             n ≤ from_le_bytes (prefix r) - blen (payload r')) →
    settled r (Wait n r')
| settled_frame body :
    pending r = frame_of body → blen body ≤ max_frame_len (config r) → blen body < 2 ^ 32 → settled r (Done (decode body) (reset r))
| settled_too_large len :
    max_frame_len (config r) < len → pending r = to_le_bytes len → 0 ≤ len < 2 ^ 32 →
    settled r (Done (Err (FrameTooLarge len (max_frame_len (config r)))) r).
Lemma settle_spec r : reader_ok r → settled r (settle r).
Proof.
  intros Hok. pose proof Hok as [Hp Hr Hpart Hexp Hpay Hlen Hidle]. unfold settle.
  destruct (prefix_read r <? 4)%nat eqn:Hr4.
  - apply Nat.ltb_lt in Hr4. apply settled_wait; try done.
    + unfold settle. by rewrite (proj2 (Nat.ltb_lt _ _) Hr4).
    + destruct (prefix_read r =? 0)%nat; lia.
    + left. split; [done|]. split; [done|]. destruct (prefix_read r =? 0)%nat eqn:H0; [apply Nat.eqb_eq in H0|]; lia.
  - apply Nat.ltb_ge in Hr4. assert (prefix_read r = 4%nat) as Hr4' by lia.
    assert (take (prefix_read r) (prefix r) = prefix r) as Htake by (rewrite take_ge; [done|lia]).
    pose proof (from_le_bounds _ Hp) as Hb. pose proof (to_from_le _ Hp) as Hto.
    set (len := from_le_bytes (prefix r)) in *.
    assert (∀ r1, prefix r1 = prefix r → prefix_read r1 = 4%nat → payload r1 = payload r → config r1 = config r →
      idle_deadline r1 = idle_deadline r → expected_len r1 = Some len → len ≤ max_frame_len (config r) →
      settled r (if blen (payload r1) <? len then Wait (Z.min (len - blen (payload r1)) READ_CHUNK_LEN) r1
                 else Done (map_err Serialization (from_bytes (payload r1))) (reset r1))) as Hgo.
    { intros r1 H1 H2 H3 H4 H5 H6 Hmax. destruct (blen (payload r1) <? len) eqn:Hl.
      - apply Z.ltb_lt in Hl. apply settled_wait.
        + split; rewrite ?H1, ?H2, ?H3, ?H4, ?H5, ?H6; try done; try lia; [|split; [lia|]].
          * intros len' [= <-]. done.
          * intros Hn. by rewrite Hr4' in Hidle; apply Hidle in Hn.
        + unfold settle. rewrite H2, H6. simpl.
          by rewrite (proj2 (Z.ltb_lt _ _) Hl).
        + unfold pending. by rewrite H1, H2, H3, Hr4'.
        + done.
        + done.
        + unfold READ_CHUNK_LEN. lia.
        + right. split; [done|]. split; [done|]. split; [done|]. lia.
      - apply Z.ltb_ge in Hl. replace (reset r1) with (reset r) by (unfold reset; by rewrite H4).
        assert (blen (payload r) = len) as Heq.
        { rewrite H3 in Hl. destruct Hlen as [Hlen|Hnil]; [lia|]. rewrite Hnil in Hl |- *. unfold blen in *. simpl in *. lia. }
        rewrite H3. apply (settled_frame r (payload r)); [|lia..]. unfold pending, frame_of. by rewrite Htake, Heq, Hto. }
    destruct (expected_len r) as [len'|] eqn:He.
    + destruct (Hexp _ eq_refl) as [-> Hmax]. by apply Hgo.
    + destruct (max_frame_len (config r) <? len) eqn:Hmax.
      * apply Z.ltb_lt in Hmax. apply settled_too_large; [done| |done]. unfold pending. by rewrite Htake, (Hpay eq_refl), app_nil_r, Hto.
      * apply Z.ltb_ge in Hmax. by apply Hgo.
Qed.

Lemma feed_data r n r1 now bs :
  settled r (Wait n r1) → reader_ok r → feed n (Data now bs) r1 ≠ None →
  ∃ r2, feed n (Data now bs) r1 = Some (None, r2) ∧ reader_ok r2 ∧ pending r2 = pending r ++ bs ∧ config r2 = config r ∧
    idle_deadline r2 = Some (now + read_idle_timeout (config r)) ∧ bs ≠ [].
Proof.
  intros Hset Hok Hne. inversion Hset as [? ? Hok1 _ Hpend Hcfg _ Hn Hwhere| |]; subst. unfold feed in *.
  destruct (negb (blen bs =? 0) && (blen bs <=? n)) eqn:Hfit; [|done].
  apply andb_prop in Hfit as [Hne0%negb_true_iff%Z.eqb_neq Hle%Z.leb_le]. unfold blen in Hne0, Hle.
  assert (bs ≠ []) as Hnil by (intros ->; done).
  eexists. split; [done|]. destruct Hok1 as [Hp Hr Hpart Hexp Hpay Hlen Hidle].
  destruct Hwhere as [(Hr4 & -> & Hn4)|(Hr4 & Hpre & Hexp1 & Hnlen)].
  - rewrite (proj2 (Nat.ltb_lt _ _) Hr4). destruct (Hpart Hr4) as [He Hpl]. simpl.
    assert (length (take (prefix_read r) (prefix r)) = prefix_read r) as Htl by (rewrite length_take; lia).
    split; [split; simpl; rewrite ?He, ?Hpl|].
    + rewrite !length_app, length_take, length_drop. lia.
    + lia.
    + done.
    + done.
    + done.
    + by right.
    + split; [intros; lia|done].
    + split; [|done]. unfold pending. simpl. rewrite Hpl, !app_nil_r, app_assoc.
      rewrite take_app_le by (rewrite length_app; lia). rewrite take_ge by (rewrite length_app; lia). done.
  - rewrite Hr4. simpl. split; [split; simpl; try done; try lia|].
    + intros Hn'. congruence.
    + left. rewrite blen_app, Hpre. unfold blen in *. lia.
    + split; [|by rewrite Hcfg]. rewrite <- Hpend. unfold pending. simpl. by rewrite Hr4, app_assoc.
Qed.

(** What one event does. *)
Inductive stepped (r : MessageReader) (bs : bytes) : list (result WireMessage TransportError) → MessageReader → Prop :=
| stepped_more r' : waiting r' → pending r' = pending r ++ bs → stepped r bs [] r'
| stepped_frame body :
    pending r ++ bs = frame_of body → blen body ≤ max_frame_len (config r) → blen body < 2 ^ 32 → stepped r bs [decode body] (reset r)
| stepped_too_large r' len :
    max_frame_len (config r) < len → 0 ≤ len < 2 ^ 32 → pending r ++ bs = to_le_bytes len → pending r' = to_le_bytes len →
    (∀ ev, step ev r' = None) → stepped r bs [Err (FrameTooLarge len (max_frame_len (config r)))] r'.
Lemma step_spec ev r o r' :
  reader_ok r → plain ev → step ev r = Some (o, r') → reader_ok r' ∧ config r' = config r ∧ stepped r (data_of ev) o r'.
Proof.
  intros Hok Hplain. unfold step. pose proof (settle_spec r Hok) as Hset. destruct (settle r) as [n r1|]; [|done].
  pose proof Hset as Hset1. inversion Hset1 as [? ? Hok1 Hw1 Hp1 Hc1 _ _ _| |]; subst.
  destruct ev as [now bs| | | | |]; try done.
  - destruct (feed n (Data now bs) r1) as [[e r2]|] eqn:Hf; [|done].
    destruct (feed_data r n r1 now bs) as (r2' & Hf' & Hok2 & Hp2 & Hc2 & _ & _); [done|done|by rewrite Hf|].
    rewrite Hf in Hf'. injection Hf' as -> ->. intros H.
    pose proof (settle_spec r2' Hok2) as Hset2. destruct (settle r2') as [n' r3|res r3] eqn:Hsettle.
    + inversion Hset2 as [? ? Hok3 Hw3 Hp3 Hc3 _ _ _| |]; simplify_eq. split; [done|]. split; [congruence|].
      apply stepped_more; [by eexists|]. simpl. congruence.
    + inversion Hset2 as [|body Hb Hmax H32|len Hlen Hb Hr]; simplify_eq.
      * split; [apply with_config_ok|]. split; [by rewrite <- Hc2|]. simpl.
        replace (reset r2') with (reset r) by (unfold reset; by rewrite Hc2). rewrite Hc2 in Hmax. apply stepped_frame; [|done..]. congruence.
      * split; [done|]. split; [done|]. simpl. rewrite Hc2 in *. eapply stepped_too_large; try done; [congruence|].
        intros ev. unfold step. by rewrite Hsettle.
  - simpl. intros H. pose proof (settle_spec _ Hok1) as Hs. rewrite Hw1 in H. simplify_eq.
    split; [done|]. split; [done|]. apply stepped_more; [by eexists|]. by rewrite app_nil_r.
Qed.

(** ** Streams of frames *)

Lemma run_nil_only evs r o r' : (∀ ev, step ev r = None) → run evs r = Some (o, r') → evs = [] ∧ o = [] ∧ r' = r.
Proof. intros Hstuck. destruct evs as [|ev evs]; simpl; [by intros [= <- <-]|by rewrite Hstuck]. Qed.

(** What a whole run delivers: the decoded bodies of the frames that arrived, then
    at most the one error of an over-long frame. *)
Lemma run_frames evs r outs r' :
  reader_ok r → waiting r → Forall plain evs → run evs r = Some (outs, r') →
  ∃ bodies tail, pending r ++ concat (data_of <$> evs) = concat (frame_of <$> bodies) ++ pending r' ∧
    outs = (decode <$> bodies) ++ tail ∧ Forall (λ b, blen b ≤ max_frame_len (config r) ∧ blen b < 2 ^ 32) bodies ∧
    config r' = config r ∧
    (tail = [] ∧ reader_ok r' ∧ waiting r' ∨
     ∃ len, max_frame_len (config r) < len < 2 ^ 32 ∧ 0 ≤ len ∧ tail = [Err (FrameTooLarge len (max_frame_len (config r)))] ∧
       pending r' = to_le_bytes len).
Proof.
  revert r outs. induction evs as [|ev evs IH]; intros r outs Hok Hw Hpl; simpl.
  { intros [= <- <-]. exists [], []. rewrite app_nil_r. naive_solver. }
  inversion Hpl as [|? ? Hev Hevs]; subst. destruct (step ev r) as [[o r1]|] eqn:Hstep; [|done]. cbn [mbind option_bind].
  destruct (run evs r1) as [[os r2]|] eqn:Hrun; [|done]. cbn [mbind option_bind]. intros [= <- <-].
  destruct (step_spec _ _ _ _ Hok Hev Hstep) as (Hok1 & Hc1 & Hst).
  inversion Hst as [? Hw1 Hp1|body Hb Hmax H32|? len Hlen Hrange Hb Hp1 Hstuck]; subst.
  - destruct (IH _ _ Hok1 Hw1 Hevs Hrun) as (bodies & tail & Hd & -> & Hall & Hc2 & Htail). rewrite Hc1 in *.
    exists bodies, tail. rewrite app_assoc, <- Hp1. done.
  - destruct (with_config_ok (config r)) as (_ & Hwf & Hpf). destruct (IH _ _ Hok1 Hwf Hevs Hrun) as (bodies & tail & Hd & -> & Hall & Hc2 & Htail).
    exists (body :: bodies), tail. unfold reset in Hd. rewrite Hpf in Hd. cbn [fmap list_fmap concat app] in *. rewrite <- app_assoc, <- Hd, app_assoc, Hb. simpl in Hall |- *. naive_solver.
  - destruct (run_nil_only _ _ _ _ Hstuck Hrun) as (-> & -> & ->). simpl. exists [], [Err (FrameTooLarge len (max_frame_len (config r)))].
    rewrite app_nil_r, Hb, Hp1. simpl. split; [done|]. split; [done|]. split; [done|]. split; [done|]. right. exists len. split; [lia|].
    split; [lia|]. done.
Qed.

Lemma frame_of_inj b b' x y : blen b < 2 ^ 32 → blen b' < 2 ^ 32 → frame_of b ++ x = frame_of b' ++ y → b = b' ∧ x = y.
Proof.
  intros Hb Hb'. unfold frame_of. rewrite <- !app_assoc. intros [Hlen Hrest]%app_inj_1; [|done].
  apply (f_equal from_le_bytes) in Hlen. pose proof (blen_nonneg b). pose proof (blen_nonneg b').
  rewrite !from_to_le in Hlen by lia. apply app_inj_1 in Hrest; [done|]. unfold blen in Hlen. lia.
Qed.
(** A waiting reader does not hold a whole frame. *)
Lemma waiting_no_frame r b x : reader_ok r → waiting r → blen b < 2 ^ 32 → pending r ≠ frame_of b ++ x.
Proof.
  intros Hok [n Hw] Hb Hp. pose proof (settle_spec r Hok) as Hs. rewrite Hw in Hs.
  inversion Hs as [? ? _ _ _ _ _ Hn Hwhere| |]; subst. pose proof (blen_nonneg b).
  destruct Hwhere as [(H4 & _ & _)|(H4 & _ & He & Hlen)].
  - unfold pending in Hp. destruct (ok_partial _ Hok H4) as [_ Hpl]. rewrite Hpl, app_nil_r in Hp.
    apply (f_equal length) in Hp. unfold frame_of in Hp. rewrite length_take, !length_app, to_le_bytes_length in Hp. lia.
  - unfold pending, frame_of in Hp. rewrite H4, take_ge in Hp by (rewrite (ok_prefix _ Hok); lia). rewrite <- app_assoc in Hp.
    apply app_inj_1 in Hp as [Hpre Hpl]; [|by rewrite (ok_prefix _ Hok)]. rewrite Hpre, from_to_le in Hlen by lia.
    rewrite Hpl, blen_app in Hlen. pose proof (blen_nonneg x). lia.
Qed.
Lemma frames_unique bodies bodies0 rest :
  Forall (λ b, blen b < 2 ^ 32) bodies → Forall (λ b, blen b < 2 ^ 32) bodies0 →
  concat (frame_of <$> bodies) ++ rest = concat (frame_of <$> bodies0) →
  ∃ more, bodies0 = bodies ++ more ∧ rest = concat (frame_of <$> more).
Proof.
  revert bodies0. induction bodies as [|b bodies IH]; intros bodies0 Hb Hb0 Heq; [by exists bodies0|].
  inversion Hb; subst. destruct bodies0 as [|b0 bodies0]; [done|]. inversion Hb0; subst. cbn [fmap list_fmap concat] in Heq.
  rewrite <- app_assoc in Heq. apply frame_of_inj in Heq as [-> Heq]; [|done..]. apply IH in Heq as (more & -> & ->); [|done..]. by exists more.
Qed.

(** ** Every event *)

Lemma idle_ok r d :
  reader_ok r → (4 ≤ prefix_read r)%nat →
  reader_ok (mkReader (config r) (prefix r) (prefix_read r) (expected_len r) (payload r) (Some d)).
Proof. intros [] H4. split; simpl; try done. split; [lia|done]. Qed.
Lemma step_ok ev r o r' : reader_ok r → step ev r = Some (o, r') → reader_ok r' ∧ config r' = config r.
Proof.
  intros Hok Hstep. assert (plain ev ∨ ¬ plain ev) as [Hpl|Hpl] by (destruct ev; simpl; tauto); [by destruct (step_spec _ _ _ _ Hok Hpl Hstep) as (? & ? & _)|].
  revert Hstep. unfold step. pose proof (settle_spec r Hok) as Hset. destruct (settle r) as [n r1|]; [|done].
  inversion Hset as [? ? Hok1 _ _ Hc1 Hi1 _ Hwhere| |]; subst. destruct ev as [| now bs| |k|now|]; try done; simpl.
  - destruct (_ && _ && _) eqn:Hg; [|done]. apply andb_prop in Hg as [_ Hg]. apply negb_true_iff, Nat.ltb_ge in Hg.
    destruct Hwhere as [(H4 & -> & _)|(_ & _ & He & _)]; [lia|]. rewrite He. simpl. intros [= <- <-].
    split; [|done]. rewrite <- He. by apply idle_ok.
  - intros [= <- <-]. by rewrite Hc1.
  - intros [= <- <-]. by rewrite Hc1.
  - destruct (idle_deadline r1) as [d|]; [|done]. destruct (d <=? now); [|done]. intros [= <- <-]. by rewrite Hc1.
Qed.
Lemma run_ok evs r outs r' : reader_ok r → run evs r = Some (outs, r') → reader_ok r' ∧ config r' = config r.
Proof.
  revert r outs. induction evs as [|ev evs IH]; intros r outs Hok; simpl; [by intros [= _ <-]|].
  destruct (step ev r) as [[o r1]|] eqn:Hs; [|done]. cbn [mbind option_bind]. destruct (run evs r1) as [[os r2]|] eqn:Hr; [|done].
  intros [= _ <-]. destruct (step_ok _ _ _ _ Hok Hs) as [Hok1 <-]. by eapply IH.
Qed.
(** When the last byte arrived. *)
Definition arrival (ev : ReadEvent) : option Z := match ev with Data now _ | DataNoMem now _ => Some now | _ => None end.
Definition last_arrival (evs : list ReadEvent) : option Z := last (omap arrival evs).
Lemma step_idle ev r o r' d :
  reader_ok r → step ev r = Some (o, r') → idle_deadline r' = Some d →
  match arrival ev with Some now => d = now + read_idle_timeout (config r) | None => idle_deadline r = Some d end.
Proof.
  intros Hok. unfold step. pose proof (settle_spec r Hok) as Hset. destruct (settle r) as [n r1|]; [|done].
  pose proof Hset as Hset1. inversion Hset1 as [? ? Hok1 Hw1 _ Hc1 Hi1 _ Hwhere| |]; subst. destruct ev as [now bs|now bs| |k|now|]; simpl arrival.
  - destruct (feed n (Data now bs) r1) as [[e r2]|] eqn:Hf; [|done].
    destruct (feed_data r n r1 now bs) as (r2' & Hf' & Hok2 & _ & _ & Hi2 & _); [done|done|by rewrite Hf|].
    rewrite Hf in Hf'. injection Hf' as -> ->. pose proof (settle_spec r2' Hok2) as Hs2.
    destruct Hs2 as [? r3 _ _ _ _ Hi3 _ _|body _ _ _|len _ _ _]; intros [= <- <-] Hd; [|done|]; congruence.
  - simpl. destruct (_ && _ && _) eqn:Hg; [|done]. apply andb_prop in Hg as [_ Hg]. apply negb_true_iff, Nat.ltb_ge in Hg.
    destruct Hwhere as [(H4 & -> & _)|(_ & _ & He & _)]; [lia|]. rewrite He. simpl. intros [= <- <-]. simpl. rewrite Hc1. congruence.
  - intros [= <- <-]. congruence.
  - intros [= <- <-]. congruence.
  - simpl. destruct (idle_deadline r1) as [d1|] eqn:E; [|done]. destruct (d1 <=? now); [|done]. intros [= <- <-]. congruence.
  - simpl. rewrite Hw1. intros [= <- <-]. congruence.
Qed.
Lemma run_idle evs r outs r' d :
  reader_ok r → run evs r = Some (outs, r') → idle_deadline r' = Some d →
  match last_arrival evs with Some now => d = now + read_idle_timeout (config r) | None => idle_deadline r = Some d end.
Proof.
  revert r outs. induction evs as [|ev evs IH]; intros r outs Hok; simpl; [intros [= _ <-]; done|].
  destruct (step ev r) as [[o r1]|] eqn:Hs; [|done]. cbn [mbind option_bind]. destruct (run evs r1) as [[os r2]|] eqn:Hr; [|done].
  intros [= _ <-] Hd. destruct (step_ok _ _ _ _ Hok Hs) as [Hok1 Hc1]. specialize (IH _ _ Hok1 Hr Hd). rewrite Hc1 in IH.
  assert (omap arrival (ev :: evs) = match arrival ev with Some a => a :: omap arrival evs | None => omap arrival evs end) as Ho by done.
  unfold last_arrival in *. rewrite Ho. destruct (omap arrival evs) as [|a l].
  - simpl in IH. pose proof (step_idle _ _ _ _ _ Hok Hs IH) as Hst. by destruct (arrival ev).
  - assert (is_Some (last (a :: l))) as [y Hy] by by apply last_is_Some. rewrite Hy in IH.
    destruct (arrival ev) as [z|]; [rewrite (last_cons z)|]; rewrite Hy; exact IH.
Qed.

(** One call of [read_message] consumes events and returns what they deliver. *)
Lemma read_message_run evs r res r' evs' :
  reader_ok r → waiting r → read_message evs r = Some (res, r', evs') →
  ∃ used, evs = used ++ evs' ∧ run used r = Some (match res with Some x => [x] | None => [] end, r').
Proof.
  revert r. induction evs as [|ev evs IH]; intros r Hok [n Hw]; simpl; rewrite Hw.
  { intros [= <- <- <-]. exists []. done. }
  assert (ev = Dropped ∨ ev ≠ Dropped) as [->|Hnd] by (destruct ev; (by left) || (by right)).
  { intros [= <- <- <-]. exists [Dropped]. split; [done|]. simpl. unfold step. rewrite Hw. simpl. by rewrite Hw. }
  intros H. assert (match feed n ev r with None => None | Some (Some e, r'') => Some (Some (Err e), r'', evs) | Some (None, r'') => read_message evs r'' end
    = Some (res, r', evs')) as Hm by (by destruct ev). clear H.
  destruct (feed n ev r) as [[[e|] r2]|] eqn:Hf; [| |done].
  { injection Hm as <- <- <-. exists [ev]. split; [done|]. simpl. unfold step. by rewrite Hw, Hf. }
  assert (reader_ok r2) as Hok2.
  { destruct ev as [now bs|now bs| |k|now|]; simpl in Hf; try done.
    - pose proof (settle_spec r Hok) as Hset. rewrite Hw in Hset.
      destruct (feed_data r n r now bs) as (r2' & Hf' & Hok2 & _); [done|done|simpl; by rewrite Hf|]. simpl in Hf'. rewrite Hf in Hf'. by simplify_eq.
    - destruct (_ && _ && _) eqn:Hg; [|done]. apply andb_prop in Hg as [_ Hg]. apply negb_true_iff, Nat.ltb_ge in Hg.
      pose proof (settle_spec r Hok) as Hset. rewrite Hw in Hset. inversion Hset as [? ? _ _ _ _ _ _ Hwhere| |]; subst.
      destruct Hwhere as [(H4 & _)|(_ & _ & He & _)]; [lia|]. by rewrite He in Hf.
    - by repeat case_match. }
  destruct (settle r2) as [n3 r3|res3 r3] eqn:Hs2.
  - pose proof (settle_spec r2 Hok2) as Hset2. rewrite Hs2 in Hset2. inversion Hset2 as [? ? Hok3 Hw3 _ _ _ _ _| |]; subst.
    assert (read_message evs r2 = read_message evs r3) as Heq.
    { by destruct evs; simpl; rewrite Hs2, Hw3. }
    rewrite Heq in Hm. destruct (IH r3 Hok3 (ex_intro _ n3 Hw3) Hm) as (used & -> & Hrun). exists (ev :: used). split; [done|]. simpl.
    unfold step. rewrite Hw, Hf, Hs2. simpl. by rewrite Hrun.
  - destruct evs as [|ev' evs]; simpl in Hm; rewrite Hs2 in Hm; injection Hm as <- <- <-; exists [ev]; (split; [done|]);
      simpl; unfold step; by rewrite Hw, Hf, Hs2.
Qed.

(** ** Theorems *)

Lemma written_frame m f : write_message m = Ok f → blen f < 2 ^ 32 + 4 → ∃ body, to_allocvec m = Ok body ∧ f = frame_of body ∧ blen f = blen body + 4.
Proof.
  unfold write_message, frame_of. destruct (to_allocvec m) as [body|e]; [|done].
  intros Heq Hlen. assert (to_le_bytes (as_u32 (blen body)) ++ body = f) as <- by congruence. exists body. split; [done|].
  assert (∀ n, blen (to_le_bytes n ++ body) = blen body + 4) as Hn.
  { intros n. rewrite blen_app. unfold blen at 1. rewrite to_le_bytes_length. lia. }
  rewrite Hn in Hlen |- *. unfold as_u32. pose proof (blen_nonneg body). by rewrite Z.mod_small by lia.
Qed.

(** C12: Messages that were written arrive as they were sent, in order and each once,
    however the socket cuts the bytes into reads and however often a waiting call
    of [read_message] is dropped and made again. *)
Theorem frames_roundtrip c ms frames evs outs r :
  (∀ m b, to_allocvec m = Ok b → from_bytes b = Ok m) →
  Forall2 (λ m f, write_message m = Ok f) ms frames →
  Forall (λ f, blen f - 4 ≤ max_frame_len c ∧ blen f < 2 ^ 32 + 4) frames →
  Forall plain evs → concat (data_of <$> evs) = concat frames → run evs (with_config c) = Some (outs, r) →
  outs = Ok <$> ms ∧ pending r = [].
Proof.
  intros Hcodec Hw Hlen Hpl Hdata Hrun. destruct (with_config_ok c) as (Hok & Hwait & Hp0).
  assert (∃ bodies0, frames = frame_of <$> bodies0 ∧ decode <$> bodies0 = Ok <$> ms ∧
    Forall (λ b, blen b ≤ max_frame_len c ∧ blen b < 2 ^ 32) bodies0) as (bodies0 & -> & Hdec & Hb0).
  { clear -Hw Hlen Hcodec. induction Hw as [|m f ms frames Hm _ IH]; [by exists []|]. inversion Hlen as [|? ? [H1 H2] Hl]; subst.
    destruct (IH Hl) as (bodies0 & -> & Hd & Hb). destruct (written_frame _ _ Hm H2) as (body & Hbody & -> & Hlen').
    exists (body :: bodies0). split; [done|]. split; [|constructor; [lia|done]]. cbn [fmap list_fmap] in *. rewrite Hd. unfold decode.
    by rewrite (Hcodec _ _ Hbody). }
  destruct (run_frames _ _ _ _ Hok Hwait Hpl Hrun) as (bodies & tail & Heq & -> & Hb & Hc & Htail). rewrite Hp0, Hdata in Heq. simpl in Heq.
  symmetry in Heq. destruct (frames_unique bodies bodies0 (pending r)) as (more & -> & Hmore); [..|done|].
  { eapply Forall_impl; [exact Hb|]. simpl. tauto. }
  { eapply Forall_impl; [exact Hb0|]. simpl. tauto. }
  apply Forall_app in Hb0 as [_ Hmb]. destruct more as [|b more].
  - rewrite app_nil_r in *. destruct Htail as [(-> & _)|(len & _ & _ & _ & Hpend)]; [by rewrite app_nil_r|].
    rewrite Hmore in Hpend. apply (f_equal length) in Hpend. by rewrite to_le_bytes_length in Hpend.
  - exfalso. inversion Hmb as [|? ? [Hb1 Hb2] _]; subst. cbn [fmap list_fmap concat] in Hmore. destruct Htail as [(_ & Hok' & Hw')|(len & Hlen' & H0 & _ & Hpend)].
    + by eapply waiting_no_frame in Hmore.
    + rewrite Hpend in Hmore. unfold frame_of in Hmore. rewrite <- app_assoc, <- (app_nil_r (to_le_bytes len)) in Hmore.
      apply app_inj_1 in Hmore as [Hmore _]; [|done]. apply (f_equal from_le_bytes) in Hmore. pose proof (blen_nonneg b).
      rewrite !from_to_le in Hmore by lia. simpl in *. lia.
Qed.

(** Whatever arrives, the buffered payload never exceeds the frame limit, and a
    longer declared length is reported before any of its payload is read. *)
Theorem payload_within_limit c evs outs r :
  0 ≤ max_frame_len c → run evs (with_config c) = Some (outs, r) → blen (payload r) ≤ max_frame_len c.
Proof.
  intros Hmax Hrun. destruct (with_config_ok c) as (Hok & _). destruct (run_ok _ _ _ _ Hok Hrun) as [Hok' Hc]. simpl in Hc.
  destruct (expected_len r) as [len|] eqn:He.
  - destruct (ok_expected _ Hok' _ He) as [-> Hle]. rewrite Hc in Hle. destruct (ok_len _ Hok') as [|Hn]; [lia|]. rewrite Hn. done.
  - rewrite (ok_payload _ Hok' He). done.
Qed.

(** A read times out only inside a frame, and only after the idle time has passed
    since its last byte; between frames a peer may be silent for ever. *)
Theorem timeout_after_idle c evs outs r now o r' :
  run evs (with_config c) = Some (outs, r) → step (Elapsed now) r = Some (o, r') →
  o = [Err (ReadTimeout (read_idle_timeout c))] ∧ prefix_read r ≠ 0%nat ∧
  ∃ t, last_arrival evs = Some t ∧ t + read_idle_timeout c ≤ now.
Proof.
  intros Hrun Hstep. destruct (with_config_ok c) as (Hok & _). destruct (run_ok _ _ _ _ Hok Hrun) as [Hok' Hc]. simpl in Hc.
  revert Hstep. unfold step. pose proof (settle_spec r Hok') as Hset. destruct (settle r) as [n r1|]; [|done].
  inversion Hset as [? ? _ _ _ Hc1 Hi1 _ _| |]; subst. simpl. destruct (idle_deadline r1) as [d|] eqn:Hd; [|done].
  destruct (d <=? now) eqn:Hle; [|done]. intros [= <- _]. apply Z.leb_le in Hle. rewrite Hc1. split; [done|].
  split; [intros H0%(ok_idle _ Hok'); congruence|]. symmetry in Hi1. pose proof (run_idle _ _ _ _ _ Hok Hrun Hi1) as Hrun'.
  simpl in Hrun'. destruct (last_arrival evs) as [t|]; [|done]. exists t. split; [done|lia].
Qed.
End Codec.

(** ** Witnesses *)

Definition toy_alloc (m : WireMessage) : result bytes string :=
  match m with
  | MStreamEnd id => if (0 <=? id) && (id <? 2 ^ 32) then Ok (to_le_bytes id) else Err "id"
  | _ => Err "message"
  end.
Definition toy_bytes (bs : bytes) : result WireMessage string :=
  if (length bs =? 4)%nat then Ok (MStreamEnd (from_le_bytes bs)) else Err "length".
Lemma toy_codec m b : toy_alloc m = Ok b → toy_bytes b = Ok m.
Proof.
  destruct m; simpl; try done. destruct ((0 <=? id) && (id <? 2 ^ 32)) eqn:Hid; [|done]. intros [= <-].
  apply andb_prop in Hid as [H1%Z.leb_le H2%Z.ltb_lt]. unfold toy_bytes. by rewrite to_le_bytes_length, from_to_le.
Qed.
Definition toy_config : FrameConfig := mkFrameConfig 16 5.
Definition toy_frame (id : Z) : bytes := to_le_bytes 4 ++ to_le_bytes id.
(** Two frames, cut in the middle of a prefix and of a body, with a dropped call. *)
Definition toy_events : list ReadEvent :=
  [Data 0 (take 1 (toy_frame 7)); Dropped; Data 1 (take 3 (drop 1 (toy_frame 7))); Data 2 (take 1 (drop 4 (toy_frame 7))); Dropped;
   Data 3 (drop 5 (toy_frame 7)); Data 9 (take 1 (toy_frame 300)); Data 10 (take 2 (drop 1 (toy_frame 300)));
   Data 11 (take 1 (drop 3 (toy_frame 300))); Data 12 (drop 4 (toy_frame 300))].
Lemma frames_roundtrip_witness :
  ∃ r, run toy_bytes toy_events (with_config toy_config) = Some ([Ok (MStreamEnd 7); Ok (MStreamEnd 300)], r) ∧ pending r = [].
Proof.
  destruct (run toy_bytes toy_events (with_config toy_config)) as [[outs r]|] eqn:Hrun; [|exfalso; vm_compute in Hrun; discriminate].
  exists r.
  assert (outs = Ok <$> [MStreamEnd 7; MStreamEnd 300] ∧ pending r = []) as [-> Hp].
  { refine (frames_roundtrip toy_alloc toy_bytes toy_config [MStreamEnd 7; MStreamEnd 300] [toy_frame 7; toy_frame 300] toy_events outs r
      toy_codec _ _ _ _ Hrun).
    - repeat constructor.
    - repeat constructor; discriminate.
    - repeat constructor.
    - reflexivity. }
  split; [reflexivity|exact Hp].
Defined.
Definition toy_silence : list ReadEvent := [Data 3 (take 1 (toy_frame 7))].
Lemma payload_within_limit_witness :
  ∃ outs r, run toy_bytes (take 4 toy_events) (with_config toy_config) = Some (outs, r) ∧ blen (payload r) = 1 ∧ blen (payload r) ≤ 16.
Proof.
  destruct (run toy_bytes (take 4 toy_events) (with_config toy_config)) as [[outs r]|] eqn:Hrun; [|exfalso; vm_compute in Hrun; discriminate].
  exists outs, r. split; [reflexivity|]. split; [vm_compute in Hrun; injection Hrun as _ <-; reflexivity|].
  refine (payload_within_limit toy_bytes toy_config (take 4 toy_events) outs r _ Hrun). discriminate.
Defined.
Lemma timeout_after_idle_witness :
  ∃ outs r o r', run toy_bytes toy_silence (with_config toy_config) = Some (outs, r) ∧ step toy_bytes (Elapsed 8) r = Some (o, r') ∧
    o = [Err (ReadTimeout 5)].
Proof.
  destruct (run toy_bytes toy_silence (with_config toy_config)) as [[outs r]|] eqn:Hrun; [|exfalso; vm_compute in Hrun; discriminate].
  destruct (step toy_bytes (Elapsed 8) r) as [[o r']|] eqn:Hstep;
    [|exfalso; vm_compute in Hrun; injection Hrun as _ <-; vm_compute in Hstep; discriminate].
  exists outs, r, o, r'. split; [reflexivity|]. split; [exact Hstep|].
  exact (proj1 (timeout_after_idle toy_bytes toy_config toy_silence outs r 8 o r' Hrun Hstep)).
Defined.
