(* ===== verification/MemTransport.v ===== *)
(** * MemTransport: calls within one process

    Models [crates/transport/src/transports/memory.rs]: the channels of the in-memory
    transport and every move of a client and of a server on them, as a transition system.
    A step is one operation on a channel; an operation that would wait is not enabled. A
    channel of [tokio::sync::mpsc] is what it holds, its capacity and whether each end is
    alive. The fields [m_sent], [m_got], [m_fed], [m_read], [c_opened] and [c_taken] only record. *)
From S2P Require Import Prelude WireStatus WireFrame.

(** ** Channels *)

Record Chan (A : Type) := mkChan { ch_queue : list A; ch_cap : nat; ch_tx : bool; ch_rx : bool }.
Arguments mkChan {A}. Arguments ch_queue {A}. Arguments ch_cap {A}. Arguments ch_tx {A}. Arguments ch_rx {A}.
Section Chan.
Context {A : Type}.
Definition channel (cap : nat) : Chan A := mkChan [] cap true true.
(** [send]: [None] while it waits for room; [false] when the receiver is gone. *)
Definition chan_send (x : A) (c : Chan A) : option (bool * Chan A) :=
  if negb (ch_rx c) then Some (false, c)
  else if (length (ch_queue c) <? ch_cap c)%nat then Some (true, mkChan (ch_queue c ++ [x]) (ch_cap c) (ch_tx c) (ch_rx c))
  else None.
(** [recv]: [None] while it waits; [Some None] once it is empty and the sender is gone. *)
Definition chan_recv (c : Chan A) : option (option A * Chan A) :=
  match ch_queue c with
  | x :: q => Some (Some x, mkChan q (ch_cap c) (ch_tx c) (ch_rx c))
  | [] => if ch_tx c then None else Some (None, c)
  end.
Definition drop_tx (c : Chan A) : Chan A := mkChan (ch_queue c) (ch_cap c) false (ch_rx c).
(** What a dropped receiver still held is dropped with it. *)
Definition drop_rx (c : Chan A) : Chan A := mkChan [] (ch_cap c) (ch_tx c) false.

(** What was sent is what was received and, in order, what is still held. *)
Definition chan_ok (sent got : list A) (c : Chan A) : Prop :=
  (length (ch_queue c) ≤ ch_cap c)%nat ∧ (ch_rx c = false → ch_queue c = []) ∧ if ch_rx c then sent = got ++ ch_queue c else got `prefix_of` sent.
Lemma channel_ok cap : chan_ok [] [] (channel cap).
Proof. split; [cbn; lia|]. split; done. Qed.
Lemma chan_send_ok x sent got c b c' : chan_ok sent got c → chan_send x c = Some (b, c') → chan_ok (if b then sent ++ [x] else sent) got c'.
Proof.
  intros Hok. unfold chan_send. destruct (ch_rx c) eqn:Er; cbn [negb]; [|by intros [= <- <-]]. destruct Hok as (Hcap & Hrx & Hs). rewrite Er in Hs.
  destruct (_ <? _)%nat eqn:Hl; [|done]. intros [= <- <-]. apply Nat.ltb_lt in Hl. split; [cbn; rewrite length_app; cbn; lia|]. cbn. split; [done|]. by rewrite Hs, app_assoc.
Qed.
Lemma chan_recv_ok sent got c x c' : chan_ok sent got c → chan_recv c = Some (Some x, c') → ch_rx c = true ∧ chan_ok sent (got ++ [x]) c'.
Proof.
  intros (Hcap & Hrx & Hs). unfold chan_recv. destruct (ch_queue c) as [|y q] eqn:Eq; [by destruct (ch_tx c)|]. intros [= -> <-]. cbn in *.
  destruct (ch_rx c); [|by discriminate Hrx]. split; [done|]. split; [cbn; lia|]. cbn. split; [done|]. by rewrite Hs, <- app_assoc.
Qed.
Lemma chan_recv_end c c' : chan_recv c = Some (None, c') → c' = c ∧ ch_queue c = [] ∧ ch_tx c = false.
Proof. unfold chan_recv. destruct (ch_queue c); [|done]. destruct (ch_tx c); [done|]. by intros [= <-]. Qed.
Lemma drop_tx_ok sent got c : chan_ok sent got c → chan_ok sent got (drop_tx c).
Proof. done. Qed.
Lemma drop_rx_ok sent got c : chan_ok sent got c → chan_ok sent got (drop_rx c).
Proof. intros (_ & _ & Hs). split; [cbn; lia|]. cbn. split; [done|]. destruct (ch_rx c); [subst; by apply prefix_app_r|done]. Qed.
End Chan.

(** ** Calls *)

(** [ServerEvent] *)
Inductive ServerEvent := Response (o : CallResult) | Item (payload : bytes) | End_ | ErrorEvent (code : StatusCode) (body : bytes).
(** Where the server's end of a call is: in a queued frame, in its [MemoryResponder], in its [MemorySink], or dropped. *)
Inductive Side := SQueued | SResponder | SSink | SDone.
Record MemCall := mkCall {
  m_path : string; m_payload : bytes; m_requests : option (Chan bytes); m_events : Chan ServerEvent; m_cancelled : bool; m_side : Side;
  m_sent : list ServerEvent; m_got : list ServerEvent; m_fed : list bytes; m_read : list bytes }.
Definition EVENTS_BUFFER : nat := 64.
(** [open_with_capacity], and the frame it sends. *)
Definition MemCall_new (path : string) (payload : bytes) (streaming_input : bool) (events_capacity : nat) : MemCall :=
  mkCall path payload (if streaming_input then Some (channel 32) else None) (channel events_capacity) false SQueued [] [] [] [].
Definition set_requests (r : Chan bytes) (c : MemCall) : MemCall := mkCall (m_path c) (m_payload c) (Some r) (m_events c) (m_cancelled c) (m_side c) (m_sent c) (m_got c) (m_fed c) (m_read c).
Definition set_events (e : Chan ServerEvent) (side : Side) (c : MemCall) : MemCall := mkCall (m_path c) (m_payload c) (m_requests c) e (m_cancelled c) side (m_sent c) (m_got c) (m_fed c) (m_read c).
Definition note_sent (x : ServerEvent) (c : MemCall) : MemCall := mkCall (m_path c) (m_payload c) (m_requests c) (m_events c) (m_cancelled c) (m_side c) (m_sent c ++ [x]) (m_got c) (m_fed c) (m_read c).
Definition note_got (x : ServerEvent) (c : MemCall) : MemCall := mkCall (m_path c) (m_payload c) (m_requests c) (m_events c) (m_cancelled c) (m_side c) (m_sent c) (m_got c ++ [x]) (m_fed c) (m_read c).
Definition note_fed (x : bytes) (c : MemCall) : MemCall := mkCall (m_path c) (m_payload c) (m_requests c) (m_events c) (m_cancelled c) (m_side c) (m_sent c) (m_got c) (m_fed c ++ [x]) (m_read c).
Definition note_read (x : bytes) (c : MemCall) : MemCall := mkCall (m_path c) (m_payload c) (m_requests c) (m_events c) (m_cancelled c) (m_side c) (m_sent c) (m_got c) (m_fed c) (m_read c ++ [x]).

(** What an operation returns. *)
Inductive Reply := RDone | RClosed | REvent (e : option ServerEvent) | RItem (i : option bytes) | RConn (k : nat) | RCall (h : option nat) | RPanicked.
Inductive CallOp :=
| CSend (item : bytes) | CEndInput | CRecv | CCancel | CDrop              (* [MemoryCall] *)
| STake | SDropRequests                                                   (* the request stream of the handler *)
| SRespond (o : CallResult) | SIntoSink | SSend (item : bytes) | SError (code : StatusCode) (body : bytes) | SFinish | SDrop.

Definition ends_input (c : MemCall) : MemCall := match m_requests c with Some r => set_requests (drop_tx r) c | None => c end.
Definition drops_requests (c : MemCall) : MemCall := match m_requests c with Some r => set_requests (drop_rx r) c | None => c end.
(** The server's end is dropped. *)
Definition server_gone (c : MemCall) : MemCall := set_events (drop_tx (m_events c)) SDone c.
(** A send that consumes the responder or the sink when it is over. *)
Definition send_event (x : ServerEvent) (consumes : bool) (c : MemCall) : option (Reply * MemCall) :=
  match chan_send x (m_events c) with
  | None => None
  | Some (sent, e) =>
      let c := set_events e (m_side c) c in
      let c := if sent : bool then note_sent x c else c in
      Some (if sent : bool then RDone else RClosed, if consumes : bool then server_gone c else c)
  end.
Definition exec_call (op : CallOp) (c : MemCall) : option (Reply * MemCall) :=
  match op with
  | CSend item =>
      match m_requests c with
      | Some r =>
          if ch_tx r then '(sent, r') ← chan_send item r; Some (if sent : bool then (RDone, note_fed item (set_requests r' c)) else (RClosed, c))
          else Some (RClosed, c)
      | None => Some (RClosed, c)
      end
  | CEndInput => Some (RDone, ends_input c)
  | CRecv =>
      if ch_rx (m_events c) then
        '(x, e) ← chan_recv (m_events c);
        Some (REvent x, match x with Some x => note_got x (set_events e (m_side c) c) | None => c end)
      else None
  | CCancel => Some (RDone, mkCall (m_path c) (m_payload c) (m_requests c) (m_events c) true (m_side c) (m_sent c) (m_got c) (m_fed c) (m_read c))
  | CDrop => Some (RDone, set_events (drop_rx (m_events c)) (m_side c) (ends_input c))
  | STake =>
      match m_side c, m_requests c with
      | SQueued, _ => None
      | _, Some r => if ch_rx r then '(x, r') ← chan_recv r; Some (RItem x, match x with Some x => note_read x (set_requests r' c) | None => c end) else None
      | _, None => None
      end
  | SDropRequests => match m_side c with SQueued => None | _ => Some (RDone, drops_requests c) end
  | SRespond o => match m_side c with SResponder => send_event (Response o) true c | _ => None end
  | SIntoSink => match m_side c with SResponder => Some (RDone, set_events (m_events c) SSink c) | _ => None end
  | SSend item => match m_side c with SSink => send_event (Item item) false c | _ => None end
  | SError code body => match m_side c with SSink => send_event (ErrorEvent code body) true c | _ => None end
  | SFinish => match m_side c with SSink => send_event End_ true c | _ => None end
  | SDrop => match m_side c with SResponder | SSink => Some (RDone, server_gone c) | _ => None end
  end.

(** [MemoryCall::response], of the event it receives. *)
Definition response (e : option ServerEvent) : option CallResult :=
  match e with Some (Response o) => Some o | Some (ErrorEvent code body) => Some (CallErr code body) | _ => None end.

(** ** Connections *)

Record MemConn := mkMemConn { c_frames : Chan nat; c_opened : list nat; c_taken : list nat }.
Record MemWorld := mkMem { accepts : Chan nat; conns : list MemConn; calls : list MemCall; w_connected : list nat; w_accepted : list nat }.
Inductive MemEvent :=
| EConnect | EDropClient | EAccept | EDropTransport
| EOpen (k : nat) (path : string) (payload : bytes) (streaming_input : bool) (events_capacity : nat) | EDropHandle (k : nat)
| ERecvCall (k : nat) | EDropConnection (k : nat)
| ECallOp (h : nat) (op : CallOp).
Definition MemWorld_new : MemWorld := mkMem (channel 16) [] [] [] [].
(** A frame that is dropped takes the server's ends of its call along. *)
Definition frame_dropped (c : MemCall) : MemCall := drops_requests (server_gone c).
Definition drop_connection (k : nat) (s : MemWorld) : MemWorld :=
  match conns s !! k with
  | None => s
  | Some n =>
      mkMem (accepts s) (<[k := mkMemConn (drop_rx (c_frames n)) (c_opened n) (c_taken n)]> (conns s))
        (foldr (λ h, alter frame_dropped h) (calls s) (ch_queue (c_frames n))) (w_connected s) (w_accepted s)
  end.
(** [MemoryClient::connect] *)
Definition connect (s : MemWorld) : option (Reply * MemWorld) :=
  if ch_tx (accepts s) then
  let k := length (conns s) in
  '(sent, a) ← chan_send k (accepts s);
  Some (if sent : bool then (RConn k, mkMem a (conns s ++ [mkMemConn (channel 64) [] []]) (calls s) (w_connected s ++ [k]) (w_accepted s)) else (RClosed, s))
  else None.
(** [MemoryTransport::accept] *)
Definition accept (s : MemWorld) : option (Reply * MemWorld) :=
  if ch_rx (accepts s) then
    '(k, a) ← chan_recv (accepts s);
    Some match k with Some k => (RConn k, mkMem a (conns s) (calls s) (w_connected s) (w_accepted s ++ [k])) | None => (RClosed, s) end
  else None.
(** [MemoryConnectionHandle::open_with_capacity]; a channel without capacity is a panic. *)
Definition open_with_capacity (k : nat) (path : string) (payload : bytes) (streaming : bool) (cap : nat) (s : MemWorld) : option (Reply * MemWorld) :=
  n ← conns s !! k;
  if ch_tx (c_frames n) then
    if (cap =? 0)%nat then Some (RPanicked, s) else
    let h := length (calls s) in
    '(sent, q) ← chan_send h (c_frames n);
    Some (if sent : bool
          then (RCall (Some h), mkMem (accepts s) (<[k := mkMemConn q (c_opened n ++ [h]) (c_taken n)]> (conns s)) (calls s ++ [MemCall_new path payload streaming cap]) (w_connected s) (w_accepted s))
          else (RClosed, s))
  else None.
(** [MemoryConnection::recv] *)
Definition recv_call (k : nat) (s : MemWorld) : option (Reply * MemWorld) :=
  n ← conns s !! k;
  if ch_rx (c_frames n) then
    '(h, q) ← chan_recv (c_frames n);
    Some match h with
         | Some h => (RCall (Some h), mkMem (accepts s) (<[k := mkMemConn q (c_opened n) (c_taken n ++ [h])]> (conns s)) (alter (λ c, set_events (m_events c) SResponder c) h (calls s)) (w_connected s) (w_accepted s))
         | None => (RCall None, s)
         end
  else None.
Definition exec_mem (ev : MemEvent) (s : MemWorld) : option (Reply * MemWorld) :=
  match ev with
  | EConnect => connect s
  | EDropClient => Some (RDone, mkMem (drop_tx (accepts s)) (conns s) (calls s) (w_connected s) (w_accepted s))
  | EAccept => accept s
  | EDropTransport => Some (RDone, foldr drop_connection (mkMem (drop_rx (accepts s)) (conns s) (calls s) (w_connected s) (w_accepted s)) (ch_queue (accepts s)))
  | EOpen k path payload streaming cap => open_with_capacity k path payload streaming cap s
  | EDropHandle k => n ← conns s !! k; Some (RDone, mkMem (accepts s) (<[k := mkMemConn (drop_tx (c_frames n)) (c_opened n) (c_taken n)]> (conns s)) (calls s) (w_connected s) (w_accepted s))
  | ERecvCall k => recv_call k s
  | EDropConnection k => Some (RDone, drop_connection k s)
  | ECallOp h op => c ← calls s !! h; '(r, c') ← exec_call op c; Some (r, mkMem (accepts s) (conns s) (<[h := c']> (calls s)) (w_connected s) (w_accepted s))
  end.
Fixpoint exec_mems (evs : list MemEvent) (s : MemWorld) : option MemWorld :=
  match evs with [] => Some s | ev :: evs' => '(_, s') ← exec_mem ev s; exec_mems evs' s' end.

(** ** What holds in every interleaving *)

Definition is_item (e : ServerEvent) : Prop := match e with Item _ => True | _ => False end.
(** What a server may have sent of a call: items, then at most one end or error; or one response. *)
Definition well_formed (sent : list ServerEvent) : Prop :=
  ∃ items last, sent = items ++ last ∧ Forall is_item items ∧ (last = [] ∨ last = [End_] ∨ (∃ code body, last = [ErrorEvent code body]) ∨ (items = [] ∧ ∃ o, last = [Response o])).
Definition side_ok (side : Side) (sent : list ServerEvent) : Prop :=
  match side with SQueued | SResponder => sent = [] | SSink => Forall is_item sent | SDone => well_formed sent end.
Definition call_ok (c : MemCall) : Prop :=
  chan_ok (m_sent c) (m_got c) (m_events c) ∧
  match m_requests c with Some r => chan_ok (m_fed c) (m_read c) r | None => m_fed c = [] ∧ m_read c = [] end ∧
  side_ok (m_side c) (m_sent c) ∧ (ch_tx (m_events c) = false ↔ m_side c = SDone).

Lemma side_well_formed side sent : side_ok side sent → well_formed sent.
Proof. destruct side; cbn; [intros ->|intros ->|intros Hs|done]; [exists [], []; eauto..|exists sent, []; rewrite app_nil_r; eauto]. Qed.
Lemma chan_send_tx {A} (x : A) c b c' : chan_send x c = Some (b, c') → ch_tx c' = ch_tx c.
Proof. unfold chan_send. destruct (negb _); [by intros [= _ <-]|]. destruct (_ <? _)%nat; [by intros [= _ <-]|done]. Qed.
Lemma chan_recv_tx {A} (c : Chan A) x c' : chan_recv c = Some (x, c') → ch_tx c' = ch_tx c.
Proof. unfold chan_recv. destruct (ch_queue c); [destruct (ch_tx c) eqn:Ht; [done|by intros [= _ <-]]|by intros [= _ <-]]. Qed.
Lemma send_event_ok x (consumes : bool) c r c' : call_ok c → send_event x consumes c = Some (r, c') →
  side_ok (if consumes then SDone else m_side c) (m_sent c ++ [x]) → (consumes = false → m_side c ≠ SDone) → call_ok c'.
Proof.
  intros (He & Hr & Hs & Ht) Hx Hside Hnd. unfold send_event in Hx. destruct (chan_send x (m_events c)) as [[sent e]|] eqn:Hc; [|done]. injection Hx as _ <-.
  pose proof (chan_send_ok _ _ _ _ _ _ He Hc) as He'. pose proof (chan_send_tx _ _ _ _ Hc) as Htx.
  destruct sent, consumes; (split; [exact He'|]; split; [exact Hr|]; split; [|cbn; try rewrite Htx; done]); [exact Hside|exact Hside|by apply side_well_formed in Hs|exact Hs].
Qed.
Lemma ends_input_ok c : call_ok c → call_ok (ends_input c).
Proof. intros (He & Hr & Hs & Ht). unfold ends_input. destruct (m_requests c) as [r|] eqn:Er; unfold call_ok; cbn; rewrite ?Er; done. Qed.
Lemma drops_requests_ok c : call_ok c → call_ok (drops_requests c).
Proof.
  intros (He & Hr & Hs & Ht). unfold drops_requests. destruct (m_requests c) as [r|] eqn:Er; unfold call_ok; cbn; rewrite ?Er; [|done].
  split; [done|]. split; [by apply drop_rx_ok|done].
Qed.
Lemma server_gone_ok c : call_ok c → call_ok (server_gone c).
Proof. intros (He & Hr & Hs & Ht). split; [exact He|]. split; [done|]. split; [by apply side_well_formed in Hs|done]. Qed.
Lemma exec_call_ok op c r c' : call_ok c → exec_call op c = Some (r, c') → call_ok c'.
Proof.
  intros Hok Hx. pose proof Hok as (He & Hr & Hs & Ht). destruct op; cbn [exec_call] in Hx.
  - destruct (m_requests c) as [q|] eqn:Eq; [|by injection Hx as _ <-]. destruct (ch_tx q); [|by injection Hx as _ <-].
    destruct (chan_send item q) as [[sent q']|] eqn:Hq; [|done]. cbn in Hx. apply (chan_send_ok _ _ _ _ _ _ Hr) in Hq.
    destruct sent; injection Hx as _ <-; [|done]. unfold call_ok. cbn. done.
  - injection Hx as _ <-. by apply ends_input_ok.
  - destruct (ch_rx (m_events c)) eqn:Er; [|done]. destruct (chan_recv (m_events c)) as [[[x|] e]|] eqn:Hc; cbn in Hx; [| |done]; injection Hx as _ <-; [|done].
    pose proof (chan_recv_tx _ _ _ Hc) as Htx. apply (chan_recv_ok _ _ _ _ _ He) in Hc as [_ Hc]. split; [exact Hc|]. split; [done|]. split; [done|]. cbn. by rewrite Htx.
  - injection Hx as _ <-. done.
  - injection Hx as _ <-. apply ends_input_ok in Hok as (He' & Hr' & Hs' & Ht').
    assert (Hev : m_events (ends_input c) = m_events c ∧ m_side (ends_input c) = m_side c) by (unfold ends_input; by destruct (m_requests c)). destruct Hev as [Hev Hsd].
    split; [cbn; rewrite <- Hev; by apply drop_rx_ok|]. split; [done|]. split; [cbn; by rewrite <- Hsd|done].
  - destruct (m_side c) eqn:Esd; [done|..]; (destruct (m_requests c) as [q|] eqn:Eq; [|done]; destruct (ch_rx q); [|done]; destruct (chan_recv q) as [[[x|] q']|] eqn:Hq; cbn in Hx; [| |done]; injection Hx as _ <-; [|done];
      apply (chan_recv_ok _ _ _ _ _ Hr) in Hq as [_ Hq]; unfold call_ok; cbn; rewrite Esd; done).
  - assert (c' = drops_requests c) as -> by (destruct (m_side c); congruence). by apply drops_requests_ok.
  - destruct (m_side c) eqn:Esd; try done. eapply send_event_ok; [done..| |done]. cbn in *. rewrite Hs. exists [], [Response o]. repeat split; eauto 8.
  - destruct (m_side c) eqn:Esd; try done. injection Hx as _ <-. split; [exact He|]. split; [done|]. cbn in *. rewrite Hs, Ht. split; [constructor|done].
  - destruct (m_side c) eqn:Esd; try done. eapply send_event_ok; [done..| |by rewrite Esd]. rewrite Esd. cbn in *. apply Forall_app; split; [done|by repeat constructor].
  - destruct (m_side c) eqn:Esd; try done. eapply send_event_ok; [done..| |done]. cbn in *. exists (m_sent c), [ErrorEvent code body]. repeat split; eauto 8.
  - destruct (m_side c) eqn:Esd; try done. eapply send_event_ok; [done..| |done]. cbn in *. exists (m_sent c), [End_]. repeat split; eauto 8.
  - assert (c' = server_gone c) as -> by (destruct (m_side c); congruence). by apply server_gone_ok.
Qed.
Lemma MemCall_new_ok path payload streaming cap : call_ok (MemCall_new path payload streaming cap).
Proof. split; [apply channel_ok|]. destruct streaming; (split; [first [done|apply channel_ok]|]); done. Qed.

Definition conn_ok (n : MemConn) : Prop := chan_ok (c_opened n) (c_taken n) (c_frames n).
(** Each call was opened once, on one connection; while it waits there its server's end is in the queue. *)
Definition opened_at (s : MemWorld) (k i h : nat) : Prop := ∃ n, conns s !! k = Some n ∧ c_opened n !! i = Some h.
Definition opened_once (s : MemWorld) : Prop :=
  (∀ k i h, opened_at s k i h → (h < length (calls s))%nat) ∧ ∀ k i k' i' h, opened_at s k i h → opened_at s k' i' h → k = k' ∧ i = i'.
Definition waits (s : MemWorld) : Prop := ∀ k n h, conns s !! k = Some n → h ∈ ch_queue (c_frames n) → ∃ c, calls s !! h = Some c ∧ m_side c = SQueued.
Definition mem_ok (s : MemWorld) : Prop :=
  Forall call_ok (calls s) ∧ Forall conn_ok (conns s) ∧ chan_ok (w_connected s) (w_accepted s) (accepts s) ∧ opened_once s ∧ waits s.

Lemma exec_call_queued op c r c' : exec_call op c = Some (r, c') → m_side c = SQueued → m_side c' = SQueued.
Proof.
  intros Hx Hq. destruct op; cbn [exec_call] in Hx; rewrite ?Hq in Hx; try done.
  - destruct (m_requests c) as [q|]; [|by injection Hx as _ <-]. destruct (ch_tx q); [|by injection Hx as _ <-].
    destruct (chan_send item q) as [[sent q']|]; [|done]. by destruct sent; injection Hx as _ <-.
  - injection Hx as _ <-. unfold ends_input. by destruct (m_requests c).
  - destruct (ch_rx (m_events c)); [|done]. destruct (chan_recv (m_events c)) as [[[x|] e]|]; [| |done]; by injection Hx as _ <-.
  - by injection Hx as _ <-.
  - injection Hx as _ <-. unfold ends_input. by destruct (m_requests c).
Qed.
Lemma foldr_alter_lookup {A} (f : A → A) l (cs : list A) h : h ∉ l → foldr (λ i, alter f i) cs l !! h = cs !! h.
Proof. induction l as [|i l IH]; [done|]. intros [Hne Hl]%not_elem_of_cons. cbn. rewrite list_lookup_alter_ne by done. by apply IH. Qed.
Lemma foldr_alter_length {A} (f : A → A) l (cs : list A) : length (foldr (λ i, alter f i) cs l) = length cs.
Proof. induction l as [|i l IH]; [done|]. cbn. by rewrite length_alter. Qed.
Lemma foldr_alter_Forall {A} (P : A → Prop) (f : A → A) l (cs : list A) : (∀ x, P x → P (f x)) → Forall P cs → Forall P (foldr (λ i, alter f i) cs l).
Proof. intros Hf Hcs. induction l as [|i l IH]; [done|]. cbn. apply Forall_alter; [done|]. intros x _. apply Hf. Qed.
Lemma frame_dropped_ok c : call_ok c → call_ok (frame_dropped c).
Proof. intros Hc. by apply drops_requests_ok, server_gone_ok. Qed.
(** A queue that holds what was opened and not taken. *)
Lemma queue_opened n h : conn_ok n → h ∈ ch_queue (c_frames n) → ∃ i, c_opened n !! i = Some h ∧ (length (c_taken n) ≤ i)%nat.
Proof.
  intros (_ & Hrx & Ho) [i Hi]%list_elem_of_lookup. destruct (ch_rx (c_frames n)); [|by rewrite Hrx in Hi].
  exists (length (c_taken n) + i)%nat. rewrite Ho, lookup_app_r by lia. split; [|lia]. by replace (length (c_taken n) + i - length (c_taken n))%nat with i by lia.
Qed.
Lemma opened_insert s k n n' a cs w w' j i h : conns s !! k = Some n → c_opened n' = c_opened n →
  opened_at (mkMem a (<[k := n']> (conns s)) cs w w') j i h → opened_at s j i h.
Proof.
  intros Hn Ho (m & Hm & Hi). cbn in Hm. apply list_lookup_insert_Some in Hm as [(<- & <- & _)|[_ Hm]]; [exists n; by rewrite <- Ho|by exists m].
Qed.
Lemma opened_once_insert s k n n' a cs w w' : conns s !! k = Some n → c_opened n' = c_opened n → length cs = length (calls s) → opened_once s →
  opened_once (mkMem a (<[k := n']> (conns s)) cs w w').
Proof.
  intros Hn Ho Hl [Hb Hu]. split.
  - intros j i h Hj%(opened_insert s k n n' _ _ _ _ _ _ _ Hn Ho). cbn. rewrite Hl. by eapply Hb.
  - intros j i j' i' h Hj%(opened_insert s k n n' _ _ _ _ _ _ _ Hn Ho) Hj'%(opened_insert s k n n' _ _ _ _ _ _ _ Hn Ho). by eapply Hu.
Qed.
Lemma drop_connection_ok k s : mem_ok s → mem_ok (drop_connection k s).
Proof.
  intros (Hc & Hn & Ha & Ho & Hw). unfold drop_connection. destruct (conns s !! k) as [n|] eqn:Hk; [|done].
  assert (Hnk : conn_ok n) by by eapply Forall_lookup_1 in Hn.
  split; [apply foldr_alter_Forall; [apply frame_dropped_ok|done]|]. split; [apply Forall_insert; [done|by apply drop_rx_ok]|]. split; [done|].
  split; [apply (opened_once_insert s k n); [done|done|by rewrite foldr_alter_length|done]|].
  intros j m h Hj Hh. cbn in Hj |- *. apply list_lookup_insert_Some in Hj as [(<- & <- & _)|[Hne Hj]]; [by apply elem_of_nil in Hh|].
  destruct (Hw j m h Hj Hh) as (c & Hc' & Hq). exists c. split; [|done]. rewrite foldr_alter_lookup; [done|]. intros Hin.
  apply (queue_opened n h Hnk) in Hin as (i & Hi & _). apply (queue_opened m h) in Hh as (i' & Hi' & _); [|by eapply Forall_lookup_1 in Hn].
  destruct Ho as [_ Hu]. destruct (Hu k i j i' h) as [? _]; [by exists n|by exists m|done].
Qed.
(** One connection's channel and log change, and the calls as [cs] says. *)
Lemma conn_step_ok s k n n' cs : mem_ok s → conns s !! k = Some n → conn_ok n' → c_opened n' = c_opened n → Forall call_ok cs → length cs = length (calls s) →
  (∀ h, h ∈ ch_queue (c_frames n') → h ∈ ch_queue (c_frames n)) →
  (∀ j m h, conns s !! j = Some m → h ∈ ch_queue (c_frames m) → (j = k → h ∈ ch_queue (c_frames n')) → cs !! h = calls s !! h) →
  mem_ok (mkMem (accepts s) (<[k := n']> (conns s)) cs (w_connected s) (w_accepted s)).
Proof.
  intros (Hc & Hn & Ha & Ho & Hw) Hk Hn' Hop Hcs Hl Hq Hsame. split; [done|]. split; [by apply Forall_insert|]. split; [done|].
  split; [by apply (opened_once_insert s k n)|]. intros j m h Hj Hh. cbn in Hj |- *. apply list_lookup_insert_Some in Hj as [(<- & <- & _)|[Hne Hj]].
  - rewrite (Hsame k n) by auto. by eapply Hw, Hq.
  - rewrite (Hsame j m) by done. by eapply Hw.
Qed.
Lemma exec_mem_ok ev s r s' : mem_ok s → exec_mem ev s = Some (r, s') → mem_ok s'.
Proof.
  intros Hok Hx. pose proof Hok as (Hc & Hn & Ha & Ho & Hw). destruct ev as [| | | |k path payload streaming cap|k|k|k|h op]; cbn [exec_mem] in Hx; unfold connect, accept, open_with_capacity, recv_call in Hx.
  - destruct (ch_tx (accepts s)); [|done]. destruct (chan_send _ (accepts s)) as [[sent a]|] eqn:Hs; [|done]. cbn in Hx. destruct sent; injection Hx as _ <-; [|done].
    apply (chan_send_ok _ _ _ _ _ _ Ha) in Hs. split; [done|]. split; [apply Forall_app; split; [done|]; repeat constructor; apply channel_ok|]. split; [done|]. split.
    + assert (Hat : ∀ j i h, opened_at (mkMem a (conns s ++ [mkMemConn (channel 64) [] []]) (calls s) (w_connected s ++ [length (conns s)]) (w_accepted s)) j i h → opened_at s j i h).
      { intros j i h (m & Hm & Hi). cbn in Hm. apply lookup_app_Some in Hm as [Hm|[_ Hm]]; [by exists m|]. apply list_lookup_singleton_Some in Hm as [_ <-]. done. }
      destruct Ho as [Hb Hu]. split; [intros j i h Hj%Hat; by eapply Hb|intros j i j' i' h Hj%Hat Hj'%Hat; by eapply Hu].
    + intros j m h Hj Hh. cbn in Hj |- *. apply lookup_app_Some in Hj as [Hj|[_ Hj]]; [by eapply Hw|]. apply list_lookup_singleton_Some in Hj as [_ <-]. by apply elem_of_nil in Hh.
  - injection Hx as _ <-. done.
  - destruct (ch_rx (accepts s)); [|done]. destruct (chan_recv (accepts s)) as [[[k|] a]|] eqn:Hr; [| |done]; injection Hx as _ <-; [|done].
    apply (chan_recv_ok _ _ _ _ _ Ha) in Hr as [_ Hr]. done.
  - injection Hx as _ <-. induction (ch_queue (accepts s)) as [|k q IH]; [|by apply drop_connection_ok]. cbn. repeat (split; [done|]). split; [by apply drop_rx_ok|done].
  - destruct (conns s !! k) as [n|] eqn:Hk; [|done]. cbn in Hx. destruct (ch_tx (c_frames n)); [|done].
    destruct (cap =? 0)%nat; [by injection Hx as _ <-|]. destruct (chan_send _ (c_frames n)) as [[sent q]|] eqn:Hs; [|done].
    cbn in Hx. destruct sent; injection Hx as _ <-; [|done]. pose proof (Forall_lookup_1 _ _ _ _ Hn Hk) as Hnk. pose proof (chan_send_ok _ _ _ _ _ _ Hnk Hs) as Hq.
    split; [apply Forall_app; split; [done|]; repeat constructor; apply MemCall_new_ok|]. split; [by apply Forall_insert|]. split; [done|].
    assert (Hat : ∀ j i h, opened_at (mkMem (accepts s) (<[k := mkMemConn q (c_opened n ++ [length (calls s)]) (c_taken n)]> (conns s)) (calls s ++ [MemCall_new path payload streaming cap]) (w_connected s) (w_accepted s)) j i h →
      opened_at s j i h ∨ (h = length (calls s) ∧ j = k ∧ i = length (c_opened n))).
    { intros j i h (m & Hm & Hi). cbn in Hm. apply list_lookup_insert_Some in Hm as [(<- & <- & _)|[_ Hm]]; [|left; by exists m]. cbn in Hi.
      apply lookup_app_Some in Hi as [Hi|[Hlen Hi]]; [left; by exists n|right]. apply list_lookup_singleton_Some in Hi as [Hi <-]. split; [done|]. split; [done|lia]. }
    destruct Ho as [Hb Hu]. split; [split|].
    + intros j i h [Hj|(-> & _)]%Hat; cbn; rewrite length_app; cbn; [apply Hb in Hj; lia|lia].
    + intros j i j' i' h [Hj|(-> & -> & ->)]%Hat [Hj'|(Hh & -> & ->)]%Hat; [by eapply Hu| | |done].
      * subst. apply Hb in Hj. lia.
      * apply Hb in Hj'. lia.
    + assert (Hold : ∀ j m h, conns s !! j = Some m → h ∈ ch_queue (c_frames m) → ∃ c, (calls s ++ [MemCall_new path payload streaming cap]) !! h = Some c ∧ m_side c = SQueued).
      { intros j m h Hj Hh. destruct (Hw j m h Hj Hh) as (c & Hc' & Hq'). exists c. split; [|done]. by apply lookup_app_l_Some. }
      intros j m h Hj Hh. cbn in Hj |- *. apply list_lookup_insert_Some in Hj as [(<- & <- & _)|[_ Hj]]; [|by eapply Hold].
      cbn in Hh. unfold chan_send in Hs. destruct (negb _); [done|]. destruct (_ <? _)%nat; [|done]. injection Hs as <-. cbn in Hh.
      apply elem_of_app in Hh as [Hh|Hh%list_elem_of_singleton]; [by eapply Hold|]. subst h. exists (MemCall_new path payload streaming cap). split; [|done].
      rewrite lookup_app_r by lia. by rewrite Nat.sub_diag.
  - destruct (conns s !! k) as [n|] eqn:Hk; [|done]. injection Hx as _ <-. apply (conn_step_ok s k n); try done. by apply (Forall_lookup_1 _ _ _ _ Hn Hk).
  - destruct (conns s !! k) as [n|] eqn:Hk; [|done]. cbn in Hx. destruct (ch_rx (c_frames n)); [|done]. destruct (chan_recv (c_frames n)) as [[[h|] q]|] eqn:Hr; [| |done]; injection Hx as _ <-; [|done].
    pose proof (Forall_lookup_1 _ _ _ _ Hn Hk) as Hnk. pose proof (chan_recv_ok _ _ _ _ _ Hnk Hr) as [Hrx Hq].
    assert (Hqueue : ch_queue (c_frames n) = h :: ch_queue q). { unfold chan_recv in Hr. destruct (ch_queue (c_frames n)); [by destruct (ch_tx (c_frames n))|]. by injection Hr as -> <-. }
    apply (conn_step_ok s k n); [done..| | | |].
    + apply Forall_alter; [done|]. intros c Hc' Hcok. destruct (Hw k n h Hk ltac:(rewrite Hqueue; left)) as (c0 & Hc0 & Hq0). rewrite Hc' in Hc0. injection Hc0 as <-.
      destruct Hcok as (He & Hreq & Hside & Ht). rewrite Hq0 in *. split; [done|]. split; [done|]. split; [done|]. cbn. by rewrite Ht.
    + by rewrite length_alter.
    + intros h' Hh'. rewrite Hqueue. by right.
    + intros j m h' Hj Hh' Hkk. destruct (decide (h = h')) as [<-|Hne]; [|by rewrite list_lookup_alter_ne]. exfalso.
      destruct (queue_opened m h (Forall_lookup_1 _ _ _ _ Hn Hj) Hh') as (i' & Hi' & Hle'). destruct (queue_opened n h Hnk ltac:(rewrite Hqueue; left)) as (i & Hi & _).
      destruct Ho as [_ Hu]. assert (Hd : ∀ i1 i2, c_opened n !! i1 = Some h → c_opened n !! i2 = Some h → i1 = i2) by (intros i1 i2 H1 H2; by apply (Hu k i1 k i2 h); exists n).
      destruct (Hu j i' k i h) as [-> _]; [by exists m|by exists n|]. rewrite Hk in Hj. injection Hj as <-. specialize (Hkk eq_refl). cbn in Hkk.
      destruct Hnk as (_ & _ & Hon). rewrite Hrx, Hqueue in Hon. apply list_elem_of_lookup in Hkk as [p Hp].
      specialize (Hd (length (c_taken n)) (length (c_taken n) + S p)%nat). rewrite Hon in Hd. rewrite !lookup_app_r in Hd by lia. rewrite Nat.sub_diag in Hd.
      replace (length (c_taken n) + S p - length (c_taken n))%nat with (S p) in Hd by lia. specialize (Hd eq_refl Hp). lia.
  - injection Hx as _ <-. by apply drop_connection_ok.
  - destruct (calls s !! h) as [c|] eqn:Hh; [|done]. cbn in Hx. destruct (exec_call op c) as [[r' c']|] eqn:Hcall; [|done]. injection Hx as _ <-.
    split; [apply Forall_insert; [done|]; eapply exec_call_ok; [by eapply Forall_lookup_1 in Hc|done]|]. split; [done|]. split; [done|]. split.
    + destruct Ho as [Hb Hu]. split; [|done]. intros j i h' Hj. cbn. rewrite length_insert. by eapply Hb.
    + intros j m h' Hj Hh'. cbn. destruct (Hw j m h' Hj Hh') as (c0 & Hc0 & Hq0). destruct (decide (h' = h)) as [->|Hne].
      * rewrite Hh in Hc0. injection Hc0 as <-. exists c'. rewrite list_lookup_insert_eq by (by eapply lookup_lt_Some). split; [done|]. by eapply exec_call_queued.
      * exists c0. by rewrite list_lookup_insert_ne.
Qed.
Definition mem_reachable (s : MemWorld) : Prop := ∃ evs, exec_mems evs MemWorld_new = Some s.
Lemma MemWorld_new_ok : mem_ok MemWorld_new.
Proof. split; [constructor|]. split; [constructor|]. split; [apply channel_ok|]. split; [split|]; [by intros ? ? ? (? & ? & _)|by intros ? ? ? ? ? (? & ? & _)|by intros ? ? ? ?]. Qed.
Lemma mem_reachable_ok s : mem_reachable s → mem_ok s.
Proof.
  intros [evs Hx]. revert Hx. generalize MemWorld_new_ok. generalize MemWorld_new. induction evs as [|ev evs IH]; intros s0 Hok; cbn; [by intros [= <-]|].
  destruct (exec_mem ev s0) as [[r s1]|] eqn:He; [|done]. cbn. apply IH. by eapply exec_mem_ok.
Qed.
Lemma mem_call_ok s h c : mem_reachable s → calls s !! h = Some c → call_ok c.
Proof. intros (Hc & _)%mem_reachable_ok Hh. by eapply Forall_lookup_1 in Hc. Qed.
Lemma chan_ok_prefix {A} (sent got : list A) c : chan_ok sent got c → got `prefix_of` sent.
Proof. intros (_ & _ & Hs). destruct (ch_rx c); [subst; by apply prefix_app_r|done]. Qed.

(** C39: a call within the process is carried as one over a wire. In every interleaving, what
    the caller of a call has received of it is, in order, a part of what the server has
    sent, and all of it but what the buffer still holds, which never exceeds its
    capacity; what the server has sent is items and then at most one end or error, or
    one response alone; and the items the handler has read are, in order, the first of
    those that were fed. *)
Theorem memory_calls_are_carried s h c : mem_reachable s → calls s !! h = Some c →
  m_got c `prefix_of` m_sent c ∧ (ch_rx (m_events c) = true → m_sent c = m_got c ++ ch_queue (m_events c)) ∧
  (length (ch_queue (m_events c)) ≤ ch_cap (m_events c))%nat ∧ well_formed (m_sent c) ∧ m_read c `prefix_of` m_fed c.
Proof.
  intros Hs Hc. destruct (mem_call_ok s h c Hs Hc) as (He & Hr & Hsd & Ht). split; [by eapply chan_ok_prefix|]. destruct He as (Hcap & _ & He).
  split; [by intros Hrx; rewrite Hrx in He|]. split; [done|]. split; [by eapply side_well_formed|]. destruct (m_requests c); [by eapply chan_ok_prefix|]. by destruct Hr as [-> ->].
Qed.
(** the end of a call means that nothing of it is lost. A caller is told that a call is
    complete only when it has received everything the server sent, and the server's end
    is gone; and the first thing a unary caller receives, if it counts as an answer, is
    all the server ever sent of the call. *)
Theorem memory_call_ends s h c e c' : mem_reachable s → calls s !! h = Some c → exec_call CRecv c = Some (REvent e, c') →
  (e = None → m_got c = m_sent c ∧ m_side c = SDone) ∧
  ∀ o, m_got c = [] → response e = Some o → m_sent c = [Response o] ∨ ∃ code body, m_sent c = [ErrorEvent code body] ∧ o = CallErr code body.
Proof.
  intros Hs Hc Hx. destruct (mem_call_ok s h c Hs Hc) as ((_ & Hrx & He) & _ & Hsd & Ht). cbn [exec_call] in Hx. destruct (ch_rx (m_events c)); [|done].
  destruct (chan_recv (m_events c)) as [[x q]|] eqn:Hr; [|done]. cbn in Hx. injection Hx as -> _. split.
  - intros ->. apply chan_recv_end in Hr as (_ & Hq & Htx). rewrite Hq, app_nil_r in He. split; [done|by apply Ht].
  - intros o Hg Ho. rewrite Hg in He. unfold chan_recv in Hr. destruct (ch_queue (m_events c)) as [|y l] eqn:Hq; [destruct (ch_tx (m_events c)); [done|by injection Hr as <- _]|].
    injection Hr as <- _. cbn in He. apply side_well_formed in Hsd as (items & last & Hsent & Hitems & Hlast). rewrite He in Hsent.
    destruct items as [|i items]; [|injection Hsent as <- _; apply Forall_cons in Hitems as [Hi _]; by destruct y].
    cbn in Hsent. destruct Hlast as [->|[->|[(code & body & ->)|(_ & o' & ->)]]]; [done|injection Hsent as -> ->; done|..]; injection Hsent as -> ->; cbn in Ho; injection Ho as <-; rewrite He; eauto.
Qed.
(** calls arrive once and in order. What a server has taken from a connection is, in
    order, the first of the calls that were opened on it, and no call is taken twice, nor
    from two connections. *)
Theorem memory_calls_arrive_once s k n : mem_reachable s → conns s !! k = Some n →
  c_taken n `prefix_of` c_opened n ∧ NoDup (c_taken n) ∧ ∀ j m h, conns s !! j = Some m → h ∈ c_taken n → h ∈ c_taken m → j = k.
Proof.
  intros (_ & Hn & _ & [_ Hu] & _)%mem_reachable_ok Hk.
  assert (Hpre : ∀ j m, conns s !! j = Some m → c_taken m `prefix_of` c_opened m) by (intros j m Hj; eapply chan_ok_prefix, (Forall_lookup_1 _ _ _ _ Hn Hj)).
  assert (Hat : ∀ j m i h, conns s !! j = Some m → c_taken m !! i = Some h → opened_at s j i h) by (intros j m i h Hj Hi; exists m; split; [done|]; by eapply prefix_lookup_Some, Hpre).
  split; [by eapply Hpre|]. split.
  - apply NoDup_alt. intros i i' h Hi Hi'. destruct (Hu k i k i' h) as [_ ?]; [by eapply Hat..|done].
  - intros j m h Hj [i Hi]%list_elem_of_lookup [i' Hi']%list_elem_of_lookup. by destruct (Hu j i' k i h) as [-> _]; [eapply Hat..|].
Qed.

(** ** Runs *)

Definition u_unary : list MemEvent :=
  [EConnect; EOpen 0 "Echo.echo" [] false 64; EAccept; ERecvCall 0; ECallOp 0 (SRespond (CallOk []))].
Definition u_stream : list MemEvent :=
  [EConnect; EAccept; EOpen 0 "Feed.all" [] true 1; ERecvCall 0; ECallOp 0 (CSend []); ECallOp 0 STake; ECallOp 0 SIntoSink; ECallOp 0 (SSend []);
   ECallOp 0 CRecv; ECallOp 0 SFinish; ECallOp 0 CRecv].
Definition u_world (evs : list MemEvent) : MemWorld := from_option (λ s, s) MemWorld_new (exec_mems evs MemWorld_new).
Definition u_reply (evs : list MemEvent) (ev : MemEvent) : option Reply := fst <$> exec_mem ev (u_world evs).
Example memory_samples :
  u_reply u_unary (ECallOp 0 CRecv) = Some (REvent (Some (Response (CallOk [])))) ∧
  u_reply (u_unary ++ [ECallOp 0 CRecv]) (ECallOp 0 CRecv) = Some (REvent None) ∧
  (λ c, (m_got c, m_read c)) <$> calls (u_world u_stream) !! 0%nat = Some ([Item []; End_], [[]]) ∧
  u_reply (take 8 u_stream) (ECallOp 0 (SSend [])) = None ∧                                        (* the buffer is full: it waits *)
  u_reply (take 4 u_unary ++ [ECallOp 0 CDrop]) (ECallOp 0 (SRespond (CallOk []))) = Some RClosed ∧
  u_reply [EConnect; EDropTransport] (EOpen 0 "Echo.echo" [] false 64) = Some RClosed ∧
  u_reply [EConnect; EOpen 0 "Echo.echo" [] false 64; EDropTransport] (ECallOp 0 CRecv) = Some (REvent None) ∧
  u_reply [EConnect; EAccept; EDropHandle 0] (ERecvCall 0) = Some (RCall None).
Proof. vm_compute. repeat split. Qed.
(** A caller that goes away closes the channel of its call; the token of the handler fires only when the caller cancels. *)
Example dropped_memory_call :
  m_cancelled <$> calls (u_world (take 4 u_unary ++ [ECallOp 0 CDrop])) !! 0%nat = Some false ∧
  m_cancelled <$> calls (u_world (take 4 u_unary ++ [ECallOp 0 CCancel])) !! 0%nat = Some true.
Proof. vm_compute. done. Qed.
(** A client that drops its connection fires the token of none of its calls, whether the server has taken them or not. *)
Theorem dropped_connection_cancels_nothing s r s' k : exec_mem (EDropHandle k) s = Some (r, s') → calls s' = calls s.
Proof. cbn. destruct (conns s !! k); [|done]. cbn. by intros [= _ <-]. Qed.
Lemma u_reachable evs s : exec_mems evs MemWorld_new = Some s → mem_reachable s.
Proof. by exists evs. Qed.
Lemma u_worlds_reachable : mem_reachable (u_world u_unary) ∧ mem_reachable (u_world u_stream).
Proof. split; [apply (u_reachable u_unary)|apply (u_reachable u_stream)]; vm_compute; reflexivity. Qed.
Lemma memory_calls_are_carried_witness : ∃ c, calls (u_world u_stream) !! 0%nat = Some c ∧ m_got c `prefix_of` m_sent c ∧ m_got c = [Item []; End_].
Proof.
  destruct (calls (u_world u_stream) !! 0%nat) as [c|] eqn:Hc; [|vm_compute in Hc; discriminate Hc]. exists c. split; [done|].
  split; [|vm_compute in Hc; by injection Hc as <-]. refine (proj1 (memory_calls_are_carried _ _ _ (proj2 u_worlds_reachable) Hc)).
Defined.
Lemma memory_call_ends_witness : ∃ c c', calls (u_world u_unary) !! 0%nat = Some c ∧ exec_call CRecv c = Some (REvent (Some (Response (CallOk []))), c') ∧ m_sent c = [Response (CallOk [])].
Proof.
  destruct (calls (u_world u_unary) !! 0%nat) as [c|] eqn:Hc; [|vm_compute in Hc; discriminate Hc]. destruct (exec_call CRecv c) as [[r c']|] eqn:Hx; [|vm_compute in Hc; injection Hc as <-; discriminate Hx].
  assert (Hr : r = REvent (Some (Response (CallOk []))) ∧ m_got c = []) by (vm_compute in Hc; injection Hc as <-; vm_compute in Hx; by injection Hx as <- _). destruct Hr as [-> Hg].
  exists c, c'. split; [done|]. split; [done|]. pose proof (proj1 u_worlds_reachable) as Hs.
  destruct (memory_call_ends _ _ _ _ _ Hs Hc Hx) as [_ Hall]. by destruct (Hall (CallOk []) Hg eq_refl) as [?|(code & body & _ & ?)].
Defined.
Lemma memory_calls_arrive_once_witness : ∃ n, conns (u_world u_unary) !! 0%nat = Some n ∧ NoDup (c_taken n) ∧ c_taken n = [0%nat].
Proof.
  destruct (conns (u_world u_unary) !! 0%nat) as [n|] eqn:Hn; [|vm_compute in Hn; discriminate Hn]. exists n. split; [done|].
  split; [|vm_compute in Hn; by injection Hn as <-]. pose proof (proj1 u_worlds_reachable) as Hs.
  apply (memory_calls_arrive_once _ _ _ Hs Hn).
Defined.
