(* ===== verification/StreamConn.v ===== *)
(** * StreamConn: the server side of a byte-stream connection

    Models [crates/transport/src/transports/stream.rs]. The read loop owns the call
    table; handlers and control tasks write frames under one lock; both share, per
    call, the flag that decides who sends the terminal frame, a cancellation token
    and a bounded channel of request items. A call that was accepted is a handle,
    an index into [cells]: two calls of the same id are two handles, as two [Arc]s.

    A step is one iteration of the read loop up to a point where another task can
    interfere, or one shared access of a writer. The branches of [select!] are
    polled one after another while other tasks run, so any branch that is ready can
    win although an earlier one has just become ready. *)
From S2P Require Import Prelude WireStatus WireFrame.

Definition INBOUND_BUFFER : nat := 32.
Definition DEFAULT_MAX_INBOUND_BYTES_PER_CONNECTION : Z := 64 * 1024 * 1024.
Definition DEFAULT_MAX_IN_FLIGHT_CALLS : Z := 256.
Definition DEFAULT_CONTROL_WRITE_TIMEOUT : Z := 5 * 1000000000.

Record StreamConfig := mkStreamConfig {
  frame : FrameConfig;
  max_in_flight_calls : Z;
  control_write_timeout : Z;
  max_inbound_bytes_per_call : Z;
  max_inbound_bytes_per_connection : Z;
}.
(** [StreamConfig::new] and [with_inbound_byte_limits]; [None] is a failed assertion. *)
Definition StreamConfig_new (f : FrameConfig) (max_calls timeout : Z) : option StreamConfig :=
  if (0 <? max_calls) && negb (timeout =? 0)
  then Some (mkStreamConfig f max_calls timeout (max_frame_len f)
               (Z.max DEFAULT_MAX_INBOUND_BYTES_PER_CONNECTION (max_frame_len f)))
  else None.
Definition with_inbound_byte_limits (c : StreamConfig) (per_call per_connection : Z) : option StreamConfig :=
  if (0 <? per_call) && (per_call <=? per_connection)
  then Some (mkStreamConfig (frame c) (max_in_flight_calls c) (control_write_timeout c) per_call per_connection)
  else None.

(** ** State *)

(** What a call shares with its handler; [resp] follows the ownership of the
    responder or sink: free, in a [send], or consumed. *)
Inductive Responder := RespFree | RespBusy | RespGone.
Record Cell := mkCell {
  c_id : CallId;
  active : bool;
  cancelled : bool;
  queue : list bytes;
  receiver : bool;
  resp : Responder;
}.
(** [CallSlot]; [inbound] is whether it holds the sender. *)
Record CallSlot := mkSlot {
  handle : nat;
  inbound : bool;
  inbound_sizes : list Z;
  inbound_bytes : Z;
  inbound_ending : bool;
  tombstone : bool;
}.
(** A task that writes one frame for a call. *)
Inductive Kind := KTerminal | KItem | KControl.
Inductive WriterPc :=
| WStart                                    (* before the flag is taken or read *)
| WCheck
| WWait                                     (* for the lock *)
| WLocked
| WWriting
| WAfter (res : result unit TransportError) (* before the completion is reported *)
| WDone (res : result unit TransportError)
| WGone.                                    (* dropped, or joined *)
Record Writer := mkWriter { w_handle : nat; w_kind : Kind; w_msg : WireMessage; w_pc : WriterPc }.
(** What reached the byte stream: a whole frame, or a fragment of one. *)
Record Sent := mkSent { sent_handle : nat; sent_msg : WireMessage; whole : bool }.
(** Where the read loop stands. *)
Inductive ReadPc :=
| RTop
| RSelect
| RItem (id : CallId) (payload : bytes)    (* after the byte counts were reconciled *)
| RReject (id : CallId) (h : nat)          (* in [reject_inbound_overflow], the terminal won *)
| REnded (res : result unit TransportError)
| RDropped.
Record Conn := mkConn {
  config : StreamConfig;
  calls : gmap CallId CallSlot;
  conn_bytes : Z;
  completions : list (CallId * nat);
  closed : bool;
  cells : list Cell;
  writers : list Writer;
  lock : option nat;
  out : list Sent;
  pc : ReadPc;
}.
(** [StreamConnection::with_config] *)
Definition Conn_new (c : StreamConfig) : Conn := mkConn c ∅ 0 [] false [] [] None [] RTop.

Definition set_calls (m : gmap CallId CallSlot) (n : Z) (s : Conn) : Conn :=
  mkConn (config s) m n (completions s) (closed s) (cells s) (writers s) (lock s) (out s) (pc s).
Definition set_cells (cs : list Cell) (s : Conn) : Conn :=
  mkConn (config s) (calls s) (conn_bytes s) (completions s) (closed s) cs (writers s) (lock s) (out s) (pc s).
Definition set_writers (ws : list Writer) (s : Conn) : Conn :=
  mkConn (config s) (calls s) (conn_bytes s) (completions s) (closed s) (cells s) ws (lock s) (out s) (pc s).
Definition set_pc (p : ReadPc) (s : Conn) : Conn :=
  mkConn (config s) (calls s) (conn_bytes s) (completions s) (closed s) (cells s) (writers s) (lock s) (out s) p.
Definition set_completions (l : list (CallId * nat)) (s : Conn) : Conn :=
  mkConn (config s) (calls s) (conn_bytes s) l (closed s) (cells s) (writers s) (lock s) (out s) (pc s).
Definition set_closed (b : bool) (s : Conn) : Conn :=
  mkConn (config s) (calls s) (conn_bytes s) (completions s) b (cells s) (writers s) (lock s) (out s) (pc s).
Definition set_lock (l : option nat) (s : Conn) : Conn :=
  mkConn (config s) (calls s) (conn_bytes s) (completions s) (closed s) (cells s) (writers s) l (out s) (pc s).
Definition push_out (o : Sent) (s : Conn) : Conn :=
  mkConn (config s) (calls s) (conn_bytes s) (completions s) (closed s) (cells s) (writers s) (lock s) (out s ++ [o]) (pc s).

Definition upd_cell (h : nat) (f : Cell → Cell) (s : Conn) : Conn := set_cells (alter f h (cells s)) s.
Definition set_active (b : bool) (c : Cell) : Cell := mkCell (c_id c) b (cancelled c) (queue c) (receiver c) (resp c).
Definition cancel_cell (c : Cell) : Cell := mkCell (c_id c) (active c) true (queue c) (receiver c) (resp c).
Definition set_queue (q : list bytes) (c : Cell) : Cell := mkCell (c_id c) (active c) (cancelled c) q (receiver c) (resp c).
Definition drop_receiver (c : Cell) : Cell := mkCell (c_id c) (active c) (cancelled c) [] false (resp c).
Definition set_resp (r : Responder) (c : Cell) : Cell := mkCell (c_id c) (active c) (cancelled c) (queue c) (receiver c) r.
Definition is_active (h : nat) (s : Conn) : bool := match cells s !! h with Some c => active c | None => false end.
(** [usize::saturating_sub] *)
Definition saturating_sub (a b : Z) : Z := Z.max 0 (a - b).

(** ** Byte accounting *)

(** Items in the channel: its bound less [Sender::capacity]. *)
Definition queued_items (s : Conn) (h : nat) : nat := match cells s !! h with Some c => length (queue c) | None => 0 end.
Definition sum_sizes (l : list Z) : Z := foldr Z.add 0 l.
(** The sizes [pop_front] releases while more than [queued] are held. *)
Definition released_sizes (queued : nat) (sl : CallSlot) : list Z :=
  if inbound sl then take (length (inbound_sizes sl) - queued) (inbound_sizes sl) else [].
Definition reconcile_slot (queued : nat) (sl : CallSlot) : CallSlot :=
  let released := released_sizes queued sl in
  mkSlot (handle sl) (inbound sl) (drop (length released) (inbound_sizes sl))
    (saturating_sub (inbound_bytes sl) (sum_sizes released)) (inbound_ending sl) (tombstone sl).
(** [reconcile_inbound_bytes] and [reconcile_all_inbound_bytes] *)
Definition reconcile_inbound_bytes (id : CallId) (s : Conn) : Conn :=
  match calls s !! id with
  | Some sl =>
      let q := queued_items s (handle sl) in
      set_calls (<[id := reconcile_slot q sl]> (calls s)) (saturating_sub (conn_bytes s) (sum_sizes (released_sizes q sl))) s
  | None => s
  end.
Definition reconcile_all_inbound_bytes (s : Conn) : Conn :=
  set_calls ((λ sl, reconcile_slot (queued_items s (handle sl)) sl) <$> calls s)
    (saturating_sub (conn_bytes s)
       (map_fold (λ _ sl n, sum_sizes (released_sizes (queued_items s (handle sl)) sl) + n) 0 (calls s))) s.
(** [remove_call] *)
Definition remove_call (id : CallId) (s : Conn) : option CallSlot * Conn :=
  match calls s !! id with
  | Some sl => (Some sl, set_calls (delete id (calls s)) (saturating_sub (conn_bytes s) (inbound_bytes sl)) s)
  | None => (None, s)
  end.
(** The slot without its inbound half. *)
Definition shut_inbound (sl : CallSlot) : CallSlot := mkSlot (handle sl) false [] 0 false (tombstone sl).
(** [discard_closed_inbound] *)
Definition discard_closed_inbound (id : CallId) (s : Conn) : Conn :=
  match calls s !! id with
  | Some sl => set_calls (<[id := shut_inbound sl]> (calls s)) (saturating_sub (conn_bytes s) (inbound_bytes sl)) s
  | None => s
  end.
(** [finalize_consumed_inbound_ends] *)
Definition finish_end (sl : CallSlot) : CallSlot :=
  if inbound_ending sl && (length (inbound_sizes sl) =? 0)%nat
  then mkSlot (handle sl) false (inbound_sizes sl) (inbound_bytes sl) false (tombstone sl) else sl.
Definition finalize_consumed_inbound_ends (s : Conn) : Conn :=
  let s' := reconcile_all_inbound_bytes s in set_calls (finish_end <$> calls s') (conn_bytes s') s'.
Definition any_ending (s : Conn) : bool := existsb (λ p, inbound_ending p.2) (map_to_list (calls s)).

(** ** Closing *)

(** [cancel_all] and [close] *)
Definition in_table (s : Conn) (h : nat) : bool := existsb (λ p, (handle p.2 =? h)%nat) (map_to_list (calls s)).
Definition cancel_all (s : Conn) : Conn :=
  set_cells (imap (λ h c, if in_table s h then set_active false (cancel_cell c) else c) (cells s)) s.
Definition close (s : Conn) : Conn := cancel_all (set_closed true s).
Definition end_with (res : result unit TransportError) (s : Conn) : Conn := set_pc (REnded res) (close s).

(** ** Control tasks *)

Definition is_control (w : Writer) : bool := match w_kind w with KControl => true | _ => false end.
(** Spawned and not yet joined. *)
Definition unjoined (w : Writer) : bool := is_control w && match w_pc w with WGone => false | _ => true end.
Definition control_tasks_len (s : Conn) : Z := Z.of_nat (length (List.filter unjoined (writers s))).
Definition finished_control (w : Writer) : option (result unit TransportError) :=
  if is_control w then match w_pc w with WDone res => Some res | _ => None end else None.
Definition msg_id (m : WireMessage) : CallId :=
  match m with
  | MRequest r => req_id r | MResponse r => resp_id r
  | MStreamItem i _ | MStreamEnd i | MStreamError i _ _ | MStreamCancel i => i
  end.
Definition set_wpc (p : WriterPc) (w : Writer) : Writer := mkWriter (w_handle w) (w_kind w) (w_msg w) p.
(** [finish_control_task] of the [i]-th task, which has ended. *)
Definition finish_control_task (i : nat) (s : Conn) : option (result unit TransportError * Conn) :=
  w ← writers s !! i;
  res ← finished_control w;
  let s := set_writers (<[i := set_wpc WGone w]> (writers s)) s in
  Some (match res with
        | Err e => (Err e, s)
        | Ok _ =>
            let id := msg_id (w_msg w) in
            match calls s !! id with
            | Some sl => (Ok tt, if tombstone sl then (remove_call id s).2 else s)
            | None => (Ok tt, s)
            end
        end).

(** ** The read loop *)

(** [reject_inbound_overflow] up to the terminal flag; the rest is [RReject]. *)
Definition reject_inbound_overflow (id : CallId) (s0 : Conn) : Conn :=
  let s := reconcile_inbound_bytes id s0 in
  match calls s !! id with
  | None => set_pc RTop s
  | Some sl =>
      let won := is_active (handle sl) s in
      let sl' := mkSlot (handle sl) false [] 0 false (if won then true else tombstone sl) in
      let s := set_calls (<[id := sl']> (calls s)) (saturating_sub (conn_bytes s) (inbound_bytes sl)) s in
      set_pc (if won then RReject id (handle sl) else RTop) (upd_cell (handle sl) (λ c, set_active false (cancel_cell c)) s)
  end.
Definition overflow_error (id : CallId) (body : bytes) : WireMessage := MStreamError id (status_of BadInput) body.

(** [StreamItem] after the reconciliation: routing, [try_send] and the accounting. *)
Definition checked_add (a b : Z) : option Z := if usize_max <? a + b then None else Some (a + b).
Definition route_item (id : CallId) (len : Z) (s : Conn) : option (CallSlot * Z * Z) :=
  sl ← calls s !! id;
  if inbound_ending sl then None
  else
    call_bytes ← checked_add (inbound_bytes sl) len;
    connection_bytes ← checked_add (conn_bytes s) len;
    if (max_inbound_bytes_per_call (config s) <? call_bytes) || (max_inbound_bytes_per_connection (config s) <? connection_bytes)
    then None
    else if inbound sl then Some (sl, call_bytes, connection_bytes) else None.
Definition deliver_item (id : CallId) (payload : bytes) (s : Conn) : Conn :=
  match route_item id (blen payload) s with
  | Some (sl, call_bytes, connection_bytes) =>
      match cells s !! handle sl with
      | Some c =>
          if negb (receiver c) then set_pc RTop (discard_closed_inbound id s)
          else if (INBOUND_BUFFER <=? length (queue c))%nat then reject_inbound_overflow id s
          else
            set_pc RTop
              (upd_cell (handle sl) (λ c, set_queue (queue c ++ [payload]) c)
                 (set_calls
                    (<[id := mkSlot (handle sl) (inbound sl) (inbound_sizes sl ++ [blen payload]) call_bytes
                               (inbound_ending sl) (tombstone sl)]> (calls s))
                    connection_bytes s))
      | None => set_pc RTop s
      end
  | None =>
      match calls s !! id with
      | Some sl => if inbound sl && negb (inbound_ending sl) then reject_inbound_overflow id s else set_pc RTop s
      | None => set_pc RTop s
      end
  end.

(** The message branch of [recv]. *)
Definition handle_message (m : WireMessage) (s : Conn) : Conn :=
  match m with
  | MRequest req =>
      let id := req_id req in
      match calls s !! id with
      | Some _ => end_with (Err (DuplicateCallId id)) s
      | None =>
          if max_in_flight_calls (config s) <=? Z.of_nat (size (calls s))
          then end_with (Err (TooManyCalls (max_in_flight_calls (config s)))) s
          else
            set_pc RTop
              (set_cells (cells s ++ [mkCell id true false [] (streaming_input req) RespFree])
                 (set_calls (<[id := mkSlot (length (cells s)) (streaming_input req) [] 0 false false]> (calls s)) (conn_bytes s) s))
      end
  | MStreamItem id payload => set_pc (RItem id payload) (reconcile_all_inbound_bytes s)
  | MStreamEnd id =>
      let s := reconcile_inbound_bytes id s in
      set_pc RTop
        (match calls s !! id with
         | Some sl =>
             set_calls
               (<[id := if (length (inbound_sizes sl) =? 0)%nat
                        then mkSlot (handle sl) false (inbound_sizes sl) (inbound_bytes sl) (inbound_ending sl) (tombstone sl)
                        else mkSlot (handle sl) (inbound sl) (inbound_sizes sl) (inbound_bytes sl) true (tombstone sl)]> (calls s))
               (conn_bytes s) s
         | None => s
         end)
  | MStreamCancel id =>
      match calls s !! id with
      | Some sl =>
          if tombstone sl then set_pc RTop s
          else set_pc RTop (upd_cell (handle sl) (λ c, set_active false (cancel_cell c)) (remove_call id s).2)
      | None => set_pc RTop s
      end
  | MResponse _ | MStreamError _ _ _ => end_with (Err UnexpectedMessage) s
  end.

(** How [select!] returns. *)
Inductive Branch :=
| BCompletion
| BControl (i : nat)
| BShutdown
| BTimer
| BMessage (m : WireMessage)
| BReadError (e : TransportError).
Definition exec_select (b : Branch) (s : Conn) : option Conn :=
  match b with
  | BCompletion =>
      match completions s with
      | [] => None
      | (id, h) :: rest =>
          let s := set_completions rest s in
          Some (set_pc RTop
            (match calls s !! id with
             | Some sl => if negb (tombstone sl) && (handle sl =? h)%nat then (remove_call id s).2 else s
             | None => s
             end))
      end
  | BControl i =>
      '(res, s) ← finish_control_task i s;
      Some (match res with Ok _ => set_pc RTop s | Err e => end_with (Err e) s end)
  | BShutdown => if closed s then Some (end_with (Err Closed) s) else None
  | BTimer => if any_ending s then Some (set_pc RTop (finalize_consumed_inbound_ends s)) else None
  | BMessage m => Some (handle_message m s)
  | BReadError e =>
      Some (end_with (match e with Io k => if is_disconnect k then Ok tt else Err e | _ => Err e end) s)
  end.

(** ** Writers *)

(** What a handler does with its responder or sink. *)
Inductive HandlerOp :=
| HRespond (o : CallResult)
| HSend (item : bytes)
| HFinish
| HError (code : StatusCode) (body : bytes).
Definition op_message (id : CallId) (op : HandlerOp) : Kind * WireMessage :=
  match op with
  | HRespond o => (KTerminal, MResponse (WireResponse_new id o))
  | HSend item => (KItem, MStreamItem id item)
  | HFinish => (KTerminal, MStreamEnd id)
  | HError code body => (KTerminal, MStreamError id code body)
  end.
Definition start_op (h : nat) (op : HandlerOp) (s : Conn) : option Conn :=
  c ← cells s !! h;
  match resp c with
  | RespFree =>
      let '(k, m) := op_message (c_id c) op in
      Some (set_writers (writers s ++ [mkWriter h k m WStart])
              (upd_cell h (set_resp (match k with KItem => RespBusy | _ => RespGone end)) s))
  | _ => None
  end.

(** How a wait of a writer ends. *)
Inductive WriteStep :=
| WNext                       (* it goes on: takes the lock, finishes the frame *)
| WShutdown                   (* the shutdown token is seen *)
| WFails (e : TransportError) (* serialization or the socket fails *)
| WDrop                       (* the future is dropped *)
| WTimeout.                   (* the deadline of a control frame *)
Definition refuses (w : Writer) (s : Conn) : bool :=
  closed s || match w_kind w with KItem => negb (is_active (w_handle w) s) | _ => false end.
Definition with_pc (i : nat) (w : Writer) (p : WriterPc) (s : Conn) : Conn := set_writers (<[i := set_wpc p w]> (writers s)) s.
(** The frame is left unfinished, the connection poisoned, the lock released. *)
Definition poison (w : Writer) (s : Conn) : Conn :=
  set_lock None (push_out (mkSent (w_handle w) (w_msg w) false) (set_closed true s)).
(** A dropped future takes with it what it consumed: [respond], [finish] and [error] the
    responder or sink; [send] only borrows the sink, which stays. *)
Definition drop_resp (w : Writer) (s : Conn) : Conn :=
  match w_kind w with
  | KControl => s
  | KTerminal => upd_cell (w_handle w) (set_resp RespGone) s
  | KItem => upd_cell (w_handle w) (set_resp RespFree) s
  end.
Definition exec_writer (i : nat) (st : WriteStep) (s : Conn) : option Conn :=
  w ← writers s !! i;
  match w_pc w, st with
  | WStart, WNext =>
      if is_active (w_handle w) s
      then Some (with_pc i w WCheck
             (match w_kind w with KItem => s | _ => upd_cell (w_handle w) (set_active false) s end))
      else Some (with_pc i w (WDone (Err Closed))
             (match w_kind w with KItem => upd_cell (w_handle w) (set_resp RespFree) s | _ => s end))
  | WCheck, WNext => Some (with_pc i w (if refuses w s then WAfter (Err Closed) else WWait) s)
  | WWait, WNext => match lock s with None => Some (set_lock (Some i) (with_pc i w WLocked s)) | Some _ => None end
  | WWait, WShutdown => if closed s then Some (with_pc i w (WAfter (Err Closed)) s) else None
  | WWait, WDrop =>
      if is_control w && match pc s with RDropped => false | _ => true end then None
      else Some (with_pc i w WGone (drop_resp w s))
  | WWait, WTimeout =>
      if is_control w
      then Some (with_pc i w (WDone (Err (ControlWriteTimeout (control_write_timeout (config s))))) (set_closed true s)) else None
  | WLocked, WNext =>
      Some (if refuses w s then set_lock None (with_pc i w (WAfter (Err Closed)) s) else with_pc i w WWriting s)
  | WWriting, WNext =>
      Some (set_lock None (with_pc i w (WAfter (Ok tt)) (push_out (mkSent (w_handle w) (w_msg w) true) s)))
  | WWriting, WShutdown => if closed s then Some (with_pc i w (WAfter (Err Closed)) (poison w s)) else None
  | WWriting, WFails e =>
      match e with
      | Serialization _ => Some (set_lock None (with_pc i w (WAfter (Err e)) (set_closed true s)))
      | Io _ => Some (with_pc i w (WAfter (Err e)) (poison w s))
      | _ => None
      end
  | WWriting, WDrop =>
      if is_control w && match pc s with RDropped => false | _ => true end then None
      else Some (with_pc i w WGone (drop_resp w (poison w s)))
  | WWriting, WTimeout =>
      if is_control w
      then Some (with_pc i w (WDone (Err (ControlWriteTimeout (control_write_timeout (config s))))) (poison w s)) else None
  | WAfter res, WNext =>
      let report s := set_completions (completions s ++ [(msg_id (w_msg w), w_handle w)]) s in
      Some (with_pc i w (WDone res)
        (match w_kind w with
         | KTerminal => report s
         | KControl => s
         | KItem =>
             let s := upd_cell (w_handle w) (set_resp RespFree) s in
             match res with Ok _ => s | Err _ => report (upd_cell (w_handle w) (set_active false) s) end
         end))
  | _, _ => None
  end.

(** ** Steps *)

Inductive Event :=
| ETop
| ESelect (b : Branch)
| EDeliver                              (* the second half of a [StreamItem] *)
| EJoin (i : nat)                       (* [try_join_next] of a rejection *)
| ESpawn (body : bytes)                 (* a rejection spawns its control task *)
| EDropConn
| EStart (h : nat) (op : HandlerOp)
| EConsume (h : nat)
| EDropReceiver (h : nat)
| EWriter (i : nat) (st : WriteStep).
Definition exec (ev : Event) (s : Conn) : option Conn :=
  match ev, pc s with
  | ETop, RTop => Some (set_pc RSelect (if any_ending s then finalize_consumed_inbound_ends s else s))
  | ESelect b, RSelect => exec_select b s
  | EDeliver, RItem id payload => Some (deliver_item id payload s)
  | EJoin i, RReject _ _ =>
      '(res, s) ← finish_control_task i s;
      Some (match res with Ok _ => s | Err e => end_with (Err e) s end)
  | ESpawn body, RReject id h =>
      if existsb (λ w, if finished_control w is Some _ then true else false) (writers s) then None
      else if max_in_flight_calls (config s) <=? control_tasks_len s
      then Some (end_with (Err (ControlTasksSaturated (max_in_flight_calls (config s)))) s)
      else Some (set_pc RTop (set_writers (writers s ++ [mkWriter h KControl (overflow_error id body) WCheck]) s))
  | EDropConn, (RSelect | REnded _) => Some (set_pc RDropped (close s))
  | EStart h op, _ => start_op h op s
  | EConsume h, _ =>
      c ← cells s !! h;
      match queue c with
      | _ :: q => if receiver c then Some (upd_cell h (set_queue q) s) else None
      | [] => None
      end
  | EDropReceiver h, _ => c ← cells s !! h; if receiver c then Some (upd_cell h drop_receiver s) else None
  | EWriter i st, _ => exec_writer i st s
  | _, _ => None
  end.
Fixpoint exec_all (evs : list Event) (s : Conn) : option Conn :=
  match evs with [] => Some s | ev :: evs' => s' ← exec ev s; exec_all evs' s' end.
Definition reachable (c : StreamConfig) (s : Conn) : Prop := ∃ evs, exec_all evs (Conn_new c) = Some s.

Lemma conn_exec_all_app a b s : exec_all (a ++ b) s = s' ← exec_all a s; exec_all b s'.
Proof. revert s. induction a as [|ev a IH]; intros s; simpl; [done|]. destruct (exec ev s); simpl; auto. Qed.
(** Rule induction over the events of a run. *)
Lemma conn_reachable_ind (P : Conn → Prop) c :
  P (Conn_new c) → (∀ ev s s', P s → exec ev s = Some s' → P s') → ∀ s, reachable c s → P s.
Proof.
  intros H0 Hstep s [evs Hevs]. revert H0 Hevs. generalize (Conn_new c). induction evs as [|ev evs IH]; intros s0 H0; simpl.
  - by intros [= <-].
  - destruct (exec ev s0) as [s1|] eqn:Hev; simpl; [|done]. apply IH. by eapply Hstep.
Qed.
