(* ===== verification/StreamTable.v ===== *)
(** * StreamTable: the call table of a byte-stream connection

    The invariant [table_ok] of the table of [StreamConn] (byte counts, limits,
    queue bounds), kept by every event, and the relation [loop_frame]: what the
    read loop may change of the state its writers see. *)
From S2P Require Import Prelude WireStatus WireFrame StreamConn.

(** ** Sums *)

Lemma sum_sizes_app a b : sum_sizes (a ++ b) = sum_sizes a + sum_sizes b.
Proof. induction a as [|x a IH]; simpl; [done|]. rewrite IH. lia. Qed.
Lemma sum_sizes_nonneg l : Forall (λ x, 0 ≤ x) l → 0 ≤ sum_sizes l.
Proof. induction 1; simpl; lia. Qed.

(** The sum of a measure of the slots. *)
Definition total (f : CallSlot → Z) (m : gmap CallId CallSlot) : Z := map_fold (λ _ sl n, f sl + n) 0 m.
Lemma total_empty f : total f ∅ = 0.
Proof. apply map_fold_empty. Qed.
Lemma total_insert f m i sl : m !! i = None → total f (<[i := sl]> m) = f sl + total f m.
Proof. intros Hi. unfold total. rewrite (map_fold_insert_L (λ _ sl n, f sl + n)); [done| |done]. intros; lia. Qed.
Lemma total_delete f m i sl : m !! i = Some sl → total f (delete i m) = total f m - f sl.
Proof.
  intros Hi. rewrite <- (insert_delete_id m i sl Hi) at 2. rewrite total_insert by apply lookup_delete_eq. lia.
Qed.
Lemma total_replace f m i sl sl' : m !! i = Some sl → total f (<[i := sl']> m) = total f m - f sl + f sl'.
Proof.
  intros Hi. rewrite <- insert_delete_eq, total_insert by apply lookup_delete_eq. rewrite (total_delete f m i sl Hi). lia.
Qed.
Lemma total_fmap f g m : total f (g <$> m) = total (f ∘ g) m.
Proof.
  induction m as [|i sl m Hi IH] using map_ind; [by rewrite fmap_empty, !total_empty|].
  rewrite fmap_insert, !total_insert; [by rewrite IH|done|by rewrite lookup_fmap, Hi].
Qed.
Lemma total_ext f g m : (∀ i sl, m !! i = Some sl → f sl = g sl) → total f m = total g m.
Proof.
  induction m as [|i sl m Hi IH] using map_ind; intros H; [by rewrite !total_empty|]. rewrite !total_insert by done.
  rewrite (H i sl) by apply lookup_insert_eq. rewrite IH; [done|]. intros j sl' Hj. apply (H j).
  rewrite lookup_insert_ne; [done|]. by intros ->; rewrite Hi in Hj.
Qed.
Lemma total_le f g m : (∀ i sl, m !! i = Some sl → f sl ≤ g sl) → total f m ≤ total g m.
Proof.
  induction m as [|i sl m Hi IH] using map_ind; intros H; [by rewrite !total_empty|]. rewrite !total_insert by done.
  pose proof (H i sl (lookup_insert_eq _ _ _)). assert (total f m ≤ total g m); [|lia]. apply IH. intros j sl' Hj. apply (H j).
  rewrite lookup_insert_ne; [done|]. by intros ->; rewrite Hi in Hj.
Qed.
Lemma total_sub f g m : total (λ sl, f sl - g sl) m = total f m - total g m.
Proof.
  induction m as [|i sl m Hi IH] using map_ind; [by rewrite !total_empty|]. rewrite !total_insert, IH by done. lia.
Qed.
Lemma total_zero m : total (λ _, 0) m = 0.
Proof. induction m as [|i sl m Hi IH] using map_ind; [by rewrite total_empty|]. by rewrite total_insert, IH. Qed.
Lemma total_elem f m i sl : (∀ j sl', m !! j = Some sl' → 0 ≤ f sl') → m !! i = Some sl → f sl ≤ total f m.
Proof.
  intros Hpos Hi. rewrite <- (insert_delete_id m i sl Hi), total_insert by apply lookup_delete_eq.
  assert (0 ≤ total f (delete i m)); [|lia]. rewrite <- (total_zero (delete i m)). apply total_le.
  intros j sl' [_ Hj]%lookup_delete_Some. by eapply Hpos.
Qed.

(** ** The call table *)

Definition config_ok (c : StreamConfig) : Prop :=
  0 < max_in_flight_calls c ∧ 0 < max_inbound_bytes_per_call c ∧ max_inbound_bytes_per_call c ≤ max_inbound_bytes_per_connection c.
(** The sizes held for a slot are those of its queue, after some that were consumed. *)
Definition sizes_cover (sl : CallSlot) (q : list bytes) : Prop := ∃ consumed, inbound_sizes sl = consumed ++ (blen <$> q).
Record slot_ok (c : StreamConfig) (sl : CallSlot) : Prop := {
  so_bytes : inbound_bytes sl = sum_sizes (inbound_sizes sl);
  so_sizes : Forall (λ x, 0 ≤ x) (inbound_sizes sl);
  so_shut : inbound sl = false → inbound_sizes sl = [];
  so_limit : inbound_bytes sl ≤ max_inbound_bytes_per_call c;
}.
(** What the channel of a call may hold, whether the call is in the table or not. *)
Definition queue_ok (c : StreamConfig) (q : list bytes) : Prop :=
  (length q ≤ INBOUND_BUFFER)%nat ∧ sum_sizes (blen <$> q) ≤ max_inbound_bytes_per_call c.
Lemma blens_nonneg q : 0 ≤ sum_sizes (blen <$> q).
Proof. apply sum_sizes_nonneg, Forall_fmap, Forall_true. intros x. apply blen_nonneg. Qed.
Lemma queue_ok_drop c q k : queue_ok c q → queue_ok c (drop k q).
Proof.
  intros [Hl Hs]. split; [rewrite length_drop; lia|]. pose proof (blens_nonneg (take k q)).
  rewrite <- (take_drop k q), fmap_app, sum_sizes_app in Hs. lia.
Qed.
Record table_ok (s : Conn) : Prop := {
  to_slots i sl : calls s !! i = Some sl → slot_ok (config s) sl;
  to_cells i sl : calls s !! i = Some sl → ∃ c, cells s !! handle sl = Some c ∧ c_id c = i ∧ (inbound sl = true → sizes_cover sl (queue c));
  to_total : conn_bytes s = total inbound_bytes (calls s);
  to_limit : conn_bytes s ≤ max_inbound_bytes_per_connection (config s);
  to_size : Z.of_nat (size (calls s)) ≤ max_in_flight_calls (config s);
  to_queues h c : cells s !! h = Some c → queue_ok (config s) (queue c);
}.
Lemma slot_bytes_nonneg c sl : slot_ok c sl → 0 ≤ inbound_bytes sl.
Proof. intros [-> H _ _]. by apply sum_sizes_nonneg. Qed.
Lemma conn_bytes_covers s i sl : table_ok s → calls s !! i = Some sl → 0 ≤ inbound_bytes sl ≤ conn_bytes s.
Proof.
  intros Hok Hi. split; [eapply slot_bytes_nonneg, to_slots; done|]. rewrite (to_total _ Hok). apply (total_elem _ _ i); [|done].
  intros j sl' Hj. eapply slot_bytes_nonneg, to_slots; done.
Qed.

(** Replacing and removing a slot, and changing every slot. *)
Definition slot_cell_ok (s : Conn) (i : CallId) (sl : CallSlot) : Prop :=
  slot_ok (config s) sl ∧ ∃ c, cells s !! handle sl = Some c ∧ c_id c = i ∧ (inbound sl = true → sizes_cover sl (queue c)).
Lemma slot_cell s i sl : table_ok s → calls s !! i = Some sl → slot_cell_ok s i sl.
Proof. intros Hok Hi. split; [by eapply to_slots|by eapply to_cells]. Qed.
Lemma table_replace s i sl sl' n :
  table_ok s → calls s !! i = Some sl → slot_cell_ok s i sl' → n = conn_bytes s - inbound_bytes sl + inbound_bytes sl' →
  n ≤ max_inbound_bytes_per_connection (config s) → table_ok (set_calls (<[i := sl']> (calls s)) n s).
Proof.
  intros [Hs Hc Ht Hl Hz Hq] Hi [Hs' Hc'] -> Hn. split; simpl; try done.
  - intros j sl1 [[<- <-]|[_ Hj]]%lookup_insert_Some; [done|by eapply Hs].
  - intros j sl1 [[<- <-]|[_ Hj]]%lookup_insert_Some; [done|by eapply Hc].
  - rewrite (total_replace _ _ _ _ _ Hi). lia.
  - by rewrite map_size_insert_Some by by eexists.
Qed.
Lemma table_remove s i sl n :
  table_ok s → calls s !! i = Some sl → n = conn_bytes s - inbound_bytes sl → table_ok (set_calls (delete i (calls s)) n s).
Proof.
  intros Hok Hi ->. pose proof (conn_bytes_covers s i sl Hok Hi). destruct Hok as [Hs Hc Ht Hl Hz Hq]. split; simpl; try done.
  - intros j sl1 [_ Hj]%lookup_delete_Some. by eapply Hs.
  - intros j sl1 [_ Hj]%lookup_delete_Some. by eapply Hc.
  - rewrite (total_delete _ _ _ _ Hi). lia.
  - lia.
  - rewrite map_size_delete_Some by by eexists. lia.
Qed.
Lemma table_fmap s f n :
  table_ok s → (∀ i sl, calls s !! i = Some sl → slot_cell_ok s i (f sl) ∧ inbound_bytes (f sl) ≤ inbound_bytes sl) →
  n = total (inbound_bytes ∘ f) (calls s) → table_ok (set_calls (f <$> calls s) n s).
Proof.
  intros [Hs Hc Ht Hl Hz Hq] Hf ->. split; simpl; try done.
  - intros j sl1 (sl & <- & Hj)%lookup_fmap_Some. by destruct (Hf j sl Hj) as [[? ?] _].
  - intros j sl1 (sl & <- & Hj)%lookup_fmap_Some. by destruct (Hf j sl Hj) as [[? ?] _].
  - by rewrite total_fmap.
  - assert (total (inbound_bytes ∘ f) (calls s) ≤ total inbound_bytes (calls s)); [|lia]. apply total_le.
    intros i sl Hi. by destruct (Hf i sl Hi) as [_ Hle].
  - by rewrite map_size_fmap.
Qed.
(** Changing a cell so that its queue only shrinks. *)
Lemma table_cells s cs :
  table_ok s →
  (∀ h c, cells s !! h = Some c → ∃ c', cs !! h = Some c' ∧ c_id c' = c_id c ∧ ∃ k, queue c' = drop k (queue c)) →
  (∀ h c', cs !! h = Some c' → queue_ok (config s) (queue c')) → table_ok (set_cells cs s).
Proof.
  intros [Hs Hc Ht Hl Hz Hq] Hcs Hq'. split; simpl; try done. intros i sl Hi. destruct (Hc i sl Hi) as (c & Hh & Hid & Hcov).
  destruct (Hcs _ _ Hh) as (c' & Hc' & Hid' & k & Hk). exists c'. split; [done|]. split; [congruence|].
  intros Hin. destruct (Hcov Hin) as [pre Hpre]. exists (pre ++ (blen <$> take k (queue c))).
  rewrite Hpre, Hk, <- app_assoc, <- fmap_app, take_drop. done.
Qed.
Lemma table_upd_cell s h f :
  table_ok s → (∀ c, c_id (f c) = c_id c ∧ ∃ k, queue (f c) = drop k (queue c)) → table_ok (upd_cell h f s).
Proof.
  intros Hok Hf. apply table_cells; [done| |].
  - intros h' c Hh'. destruct (decide (h = h')) as [<-|Hne].
    + exists (f c). rewrite list_lookup_alter_eq, Hh'. by destruct (Hf c) as [? ?].
    + exists c. rewrite list_lookup_alter_ne by done. split; [done|]. split; [done|]. by exists 0%nat.
  - intros h' c'. destruct (decide (h = h')) as [<-|Hne].
    + rewrite list_lookup_alter_eq. destruct (cells s !! h) as [c|] eqn:Hh; [|done]. intros [= <-].
      destruct (Hf c) as [_ [k ->]]. by apply queue_ok_drop, (to_queues _ Hok _ _ Hh).
    + rewrite list_lookup_alter_ne by done. apply (to_queues _ Hok).
Qed.
Lemma table_frame s s' :
  table_ok s → config s' = config s → calls s' = calls s → conn_bytes s' = conn_bytes s → cells s' = cells s → table_ok s'.
Proof. intros [Hs Hc Ht Hl Hz Hq] E1 E2 E3 E4. split; rewrite ?E1, ?E2, ?E3, ?E4; done. Qed.

(** ** Each operation keeps the table *)

Lemma saturating_sub_exact a b : b ≤ a → saturating_sub a b = a - b.
Proof. unfold saturating_sub. lia. Qed.
Lemma reconcile_slot_ok s i sl :
  slot_cell_ok s i sl →
  let q := queued_items s (handle sl) in
  slot_cell_ok s i (reconcile_slot q sl) ∧ 0 ≤ sum_sizes (released_sizes q sl) ∧
  inbound_bytes (reconcile_slot q sl) = inbound_bytes sl - sum_sizes (released_sizes q sl) ∧
  (length (inbound_sizes (reconcile_slot q sl)) ≤ length (inbound_sizes sl))%nat.
Proof.
  intros [[Hb Hs Hsh Hl] (c & Hc & Hid & Hcov)]. unfold queued_items. rewrite Hc. simpl.
  set (rel := released_sizes (length (queue c)) sl).
  assert (take (length rel) (inbound_sizes sl) = rel) as Htake.
  { unfold rel, released_sizes. destruct (inbound sl); [|done]. rewrite length_take. f_equal. lia. }
  assert (inbound_sizes sl = rel ++ drop (length rel) (inbound_sizes sl)) as Hsplit by (rewrite <- Htake at 1; by rewrite take_drop).
  assert (0 ≤ sum_sizes rel) as Hrel.
  { apply sum_sizes_nonneg. rewrite <- Htake. by apply Forall_take. }
  assert (sum_sizes (inbound_sizes sl) = sum_sizes rel + sum_sizes (drop (length rel) (inbound_sizes sl))) as Hsum
    by (rewrite Hsplit at 1; apply sum_sizes_app).
  assert (0 ≤ sum_sizes (drop (length rel) (inbound_sizes sl))) as Hrest by by apply sum_sizes_nonneg, Forall_drop.
  assert (saturating_sub (inbound_bytes sl) (sum_sizes rel) = inbound_bytes sl - sum_sizes rel) as Hsat by (apply saturating_sub_exact; lia).
  split; [|split; [done|split; [done|simpl; rewrite length_drop; lia]]]. split.
  - split; simpl; fold rel; [lia|by apply Forall_drop| |lia]. intros Hin. rewrite (Hsh Hin). by rewrite drop_nil.
  - exists c. split; [done|]. split; [done|]. simpl. intros Hin. destruct (Hcov Hin) as [pre Hpre]. exists []. simpl.
    unfold rel, released_sizes. rewrite Hin, Hpre, length_take, !length_app, length_fmap.
    replace (Nat.min _ _) with (length pre) by lia. by rewrite drop_app_length.
Qed.
Lemma reconcile_ok s id : table_ok s → table_ok (reconcile_inbound_bytes id s).
Proof.
  intros Hok. unfold reconcile_inbound_bytes. destruct (calls s !! id) as [sl|] eqn:Hi; [|done].
  destruct (reconcile_slot_ok s id sl (slot_cell _ _ _ Hok Hi)) as (Hsl & Hrel & Hb & _).
  pose proof (conn_bytes_covers s id sl Hok Hi). pose proof (to_limit _ Hok). pose proof (slot_bytes_nonneg _ _ (proj1 Hsl)).
  rewrite saturating_sub_exact by lia. eapply table_replace; [done|done|done|lia|lia].
Qed.
Lemma reconcile_all_ok s : table_ok s → table_ok (reconcile_all_inbound_bytes s).
Proof.
  intros Hok. unfold reconcile_all_inbound_bytes. fold (total (λ sl, sum_sizes (released_sizes (queued_items s (handle sl)) sl)) (calls s)).
  set (f := λ sl, reconcile_slot (queued_items s (handle sl)) sl). set (g := λ sl, sum_sizes (released_sizes (queued_items s (handle sl)) sl)).
  assert (∀ i sl, calls s !! i = Some sl → slot_cell_ok s i (f sl) ∧ 0 ≤ g sl ∧ inbound_bytes (f sl) = inbound_bytes sl - g sl) as Hf.
  { intros i sl Hi. by destruct (reconcile_slot_ok s i sl (slot_cell _ _ _ Hok Hi)) as (? & ? & ? & _). }
  assert (total (inbound_bytes ∘ f) (calls s) = conn_bytes s - total g (calls s)) as Heq.
  { rewrite (to_total _ Hok), <- total_sub. apply total_ext. intros i sl Hi. by destruct (Hf i sl Hi) as (_ & _ & Hfi). }
  assert (0 ≤ total (inbound_bytes ∘ f) (calls s)) as Hpos.
  { rewrite <- (total_zero (calls s)). apply total_le. intros i sl Hi. destruct (Hf i sl Hi) as ([Hsl _] & _). by eapply slot_bytes_nonneg. }
  apply table_fmap; [done| |].
  - intros i sl Hi. destruct (Hf i sl Hi) as (? & ? & Hfi). split; [done|]. rewrite Hfi. lia.
  - rewrite saturating_sub_exact by lia. by rewrite Heq.
Qed.
(** What a reconciliation leaves: the sizes of what is still unread, no more. *)
Definition counts_unread (s : Conn) (sl : CallSlot) : Prop :=
  ∃ c, cells s !! handle sl = Some c ∧ inbound_sizes sl = (if inbound sl then blen <$> queue c else []) ∧
    inbound_bytes sl = sum_sizes (inbound_sizes sl).
Lemma reconcile_slot_exact s i sl : slot_cell_ok s i sl → counts_unread s (reconcile_slot (queued_items s (handle sl)) sl).
Proof.
  intros Hsl. destruct (reconcile_slot_ok s i sl Hsl) as ([[Hb _ Hsh _] _] & _). destruct Hsl as [_ (c & Hc & Hid & Hcov)].
  exists c. split; [done|]. split; [|done]. change (inbound (reconcile_slot (queued_items s (handle sl)) sl)) with (inbound sl) in *.
  destruct (inbound sl) eqn:Hin; [|by apply Hsh]. destruct (Hcov eq_refl) as [pre Hpre]. unfold queued_items. rewrite Hc. simpl.
  unfold released_sizes. rewrite Hin, Hpre, length_take, !length_app, length_fmap. replace (Nat.min _ _) with (length pre) by lia.
  by rewrite drop_app_length.
Qed.
Lemma reconcile_all_exact s i sl : table_ok s → calls (reconcile_all_inbound_bytes s) !! i = Some sl → counts_unread (reconcile_all_inbound_bytes s) sl.
Proof. intros Hok (sl0 & <- & Hi)%lookup_fmap_Some. by apply (reconcile_slot_exact s i), slot_cell. Qed.
Lemma finalize_ok s : table_ok s → table_ok (finalize_consumed_inbound_ends s).
Proof.
  intros Hok%reconcile_all_ok. unfold finalize_consumed_inbound_ends. set (s' := reconcile_all_inbound_bytes s) in *.
  assert (∀ sl, inbound_bytes (finish_end sl) = inbound_bytes sl) as Hfe by (intros sl; unfold finish_end; by destruct (_ && _)).
  apply table_fmap; [done| |].
  - intros i sl Hi. rewrite Hfe. split; [|done]. pose proof (slot_cell _ _ _ Hok Hi) as Hc. unfold finish_end.
    destruct (inbound_ending sl && (length (inbound_sizes sl) =? 0)%nat) eqn:E; [|done].
    apply andb_prop in E as [_ E%Nat.eqb_eq]. destruct Hc as [[] (c & Hc & Hid & _)]. split.
    + split; simpl; try done. intros _. by apply nil_length_inv.
    + exists c. done.
  - rewrite (to_total _ Hok). apply total_ext. intros i sl _. simpl. by rewrite Hfe.
Qed.
Lemma remove_call_ok s id : table_ok s → table_ok (remove_call id s).2.
Proof.
  intros Hok. unfold remove_call. destruct (calls s !! id) as [sl|] eqn:Hi; [|done]. pose proof (conn_bytes_covers s id sl Hok Hi).
  rewrite saturating_sub_exact by lia. by eapply table_remove.
Qed.
Lemma shut_slot_ok s i sl b : slot_cell_ok s i sl → 0 < max_inbound_bytes_per_call (config s) → slot_cell_ok s i (mkSlot (handle sl) false [] 0 false b).
Proof.
  intros [_ (c & Hc & Hid & _)] Hmax. split; [split; simpl; (done || lia)|]. by exists c.
Qed.
Lemma discard_ok s id : config_ok (config s) → table_ok s → table_ok (discard_closed_inbound id s).
Proof.
  intros (_ & Hcall & Hconn) Hok. unfold discard_closed_inbound. destruct (calls s !! id) as [sl|] eqn:Hi; [|done].
  pose proof (conn_bytes_covers s id sl Hok Hi). pose proof (to_limit _ Hok). rewrite saturating_sub_exact by lia.
  eapply table_replace; [done|done| |simpl; lia|lia]. apply shut_slot_ok; [by apply slot_cell|done].
Qed.
Definition same_queue (f : Cell → Cell) : Prop := ∀ c, c_id (f c) = c_id c ∧ queue (f c) = queue c.
Lemma same_queue_cell s h f : same_queue f → table_ok s → table_ok (upd_cell h f s).
Proof. intros Hf Hok. apply table_upd_cell; [done|]. intros c. destruct (Hf c) as [? Hq]. split; [done|]. exists 0%nat. by rewrite Hq. Qed.
Lemma close_ok s : table_ok s → table_ok (close s).
Proof.
  intros Hok. unfold close, cancel_all. apply table_cells; [by apply (table_frame s)| |].
  - intros h c Hh. exists (if in_table (set_closed true s) h then set_active false (cancel_cell c) else c). simpl in *.
    rewrite list_lookup_imap, Hh. simpl. split; [done|]. split; [by destruct (in_table _ h)|]. exists 0%nat. by destruct (in_table _ h).
  - intros h c'. rewrite list_lookup_imap. simpl. destruct (cells s !! h) as [c|] eqn:Hh; [|done]. simpl. intros [= <-].
    pose proof (to_queues _ Hok _ _ Hh). by destruct (in_table _ h).
Qed.
Lemma end_with_ok s res : table_ok s → table_ok (end_with res s).
Proof. intros Hok%close_ok. by apply (table_frame (close s)). Qed.
Lemma set_pc_ok s p : table_ok s → table_ok (set_pc p s).
Proof. intros Hok. by apply (table_frame s). Qed.
Lemma reject_ok s id : config_ok (config s) → table_ok s → table_ok (reject_inbound_overflow id s).
Proof.
  intros Hcfg Hok. unfold reject_inbound_overflow. pose proof (reconcile_ok s id Hok) as Hok1.
  assert (config (reconcile_inbound_bytes id s) = config s) as Hc1 by (unfold reconcile_inbound_bytes; by destruct (calls s !! id)).
  set (s1 := reconcile_inbound_bytes id s) in *. destruct (calls s1 !! id) as [sl|] eqn:Hi; [|by apply set_pc_ok].
  apply set_pc_ok, same_queue_cell; [done|]. pose proof (conn_bytes_covers s1 id sl Hok1 Hi). pose proof (to_limit _ Hok1).
  rewrite <- Hc1 in Hcfg. destruct Hcfg as (_ & Hcall & _).
  rewrite saturating_sub_exact by lia. eapply table_replace; [done|done| |simpl; lia|lia]. apply shut_slot_ok; [by apply slot_cell|done].
Qed.
Lemma route_item_some s id len sl cb nb :
  route_item id len s = Some (sl, cb, nb) →
  calls s !! id = Some sl ∧ inbound sl = true ∧ inbound_ending sl = false ∧ cb = inbound_bytes sl + len ∧ nb = conn_bytes s + len ∧
  cb ≤ max_inbound_bytes_per_call (config s) ∧ nb ≤ max_inbound_bytes_per_connection (config s).
Proof.
  unfold route_item, checked_add. destruct (calls s !! id) as [sl'|]; [|done]. cbn [mbind option_bind].
  destruct (inbound_ending sl') eqn:He; [done|]. destruct (usize_max <? inbound_bytes sl' + len); [done|]. cbn [mbind option_bind].
  destruct (usize_max <? conn_bytes s + len); [done|]. cbn [mbind option_bind]. destruct (_ || _) eqn:Hlim; [done|].
  apply orb_false_iff in Hlim as [H1%Z.ltb_ge H2%Z.ltb_ge]. destruct (inbound sl') eqn:Hin; [|done]. intros [= <- <- <-]. done.
Qed.
Lemma deliver_ok s id payload : config_ok (config s) → table_ok s → table_ok (deliver_item id payload s).
Proof.
  intros Hcfg Hok. unfold deliver_item. destruct (route_item id (blen payload) s) as [[[sl cb] nb]|] eqn:Hr.
  - apply route_item_some in Hr as (Hi & Hin & He & -> & -> & Hcb & Hnb).
    destruct (slot_cell _ _ _ Hok Hi) as [[Hb Hs Hsh Hl] (c & Hc & Hid & Hcov)]. rewrite Hc.
    destruct (negb (receiver c)); [by apply set_pc_ok, discard_ok|].
    destruct (INBOUND_BUFFER <=? length (queue c))%nat eqn:Hfull; [by apply reject_ok|]. apply Nat.leb_gt in Hfull. apply set_pc_ok.
    destruct (Hcov Hin) as [pre Hpre]. pose proof (blen_nonneg payload). pose proof Hok as [Hss Hcs Ht Hlim Hsz Hqs].
    set (sl' := mkSlot _ _ _ _ _ _). unfold upd_cell. split; simpl.
    + intros j sl1 [[<- <-]|[_ Hj]]%lookup_insert_Some; [|by eapply Hss]. split; simpl.
      * rewrite sum_sizes_app. simpl. lia.
      * apply Forall_app. split; [done|]. by constructor.
      * by rewrite Hin.
      * done.
    + intros j sl1 [[<- <-]|[Hne Hj]]%lookup_insert_Some.
      * exists (set_queue (queue c ++ [payload]) c). rewrite list_lookup_alter_eq, Hc. split; [done|]. split; [done|]. intros _.
        exists pre. simpl. by rewrite Hpre, fmap_app, app_assoc.
      * destruct (Hcs j sl1 Hj) as (c1 & Hc1 & Hid1 & Hcov1). exists c1. rewrite list_lookup_alter_ne; [done|].
        intros Heq. rewrite <- Heq, Hc in Hc1. congruence.
    + rewrite (total_replace _ _ _ _ _ Hi). simpl. lia.
    + done.
    + by rewrite map_size_insert_Some by by eexists.
    + intros h c1. destruct (decide (handle sl = h)) as [<-|Hne]; [|rewrite list_lookup_alter_ne by done; apply Hqs].
      rewrite list_lookup_alter_eq, Hc. intros [= <-]. split; cbn [queue set_queue]; [rewrite length_app; simpl; lia|].
      rewrite fmap_app, sum_sizes_app. rewrite Hb, Hpre, sum_sizes_app in Hcb. rewrite Hpre in Hs. apply Forall_app in Hs as [Hs _].
      pose proof (sum_sizes_nonneg _ Hs). simpl. lia.
  - destruct (calls s !! id) as [sl|] eqn:Hi; [|by apply set_pc_ok]. destruct (inbound sl && _); [by apply reject_ok|by apply set_pc_ok].
Qed.
Lemma finish_control_ok i s res s' : table_ok s → finish_control_task i s = Some (res, s') → table_ok s' ∧ config s' = config s.
Proof.
  intros Hok. unfold finish_control_task. destruct (writers s !! i) as [w|]; [|done]. cbn [mbind option_bind].
  destruct (finished_control w) as [r|]; [|done]. cbn [mbind option_bind]. set (s1 := set_writers _ s).
  assert (table_ok s1) as Hok1 by by apply (table_frame s).
  destruct r as [|e]; [|by intros [= <- <-]]. destruct (calls s1 !! _) as [sl|]; [|by intros [= <- <-]].
  intros [= <- <-]. destruct (tombstone sl); [|done]. split; [by apply remove_call_ok|].
  unfold remove_call. by destruct (calls s1 !! _).
Qed.
Lemma handle_message_ok m s : config_ok (config s) → table_ok s → table_ok (handle_message m s).
Proof.
  intros (Hmax & Hcall & Hconn) Hok. destruct m as [req|resp|id payload|id|id code body|id]; simpl.
  - destruct (calls s !! req_id req) as [sl|] eqn:Hi; [by apply end_with_ok|].
    destruct (max_in_flight_calls (config s) <=? _) eqn:Hsz; [by apply end_with_ok|]. apply Z.leb_gt in Hsz. apply set_pc_ok.
    pose proof Hok as [Hss Hcs Ht Hlim _ Hqs]. split; simpl.
    + intros j sl1 [[<- <-]|[_ Hj]]%lookup_insert_Some; [|by eapply Hss]. by split; simpl; (done || lia).
    + intros j sl1 [[<- <-]|[_ Hj]]%lookup_insert_Some.
      * eexists. rewrite lookup_app_r, Nat.sub_diag by done. split; [done|]. split; [done|]. intros _. by exists [].
      * destruct (Hcs j sl1 Hj) as (c & Hc & ?). exists c. split; [by apply lookup_app_l_Some|done].
    + rewrite total_insert by done. simpl. lia.
    + done.
    + rewrite map_size_insert_None by done. lia.
    + intros h c [Hc|[_ Hc]]%lookup_app_Some; [by eapply Hqs|]. apply list_lookup_singleton_Some in Hc as [_ <-]. split; simpl; [unfold INBOUND_BUFFER; lia|lia].
  - by apply end_with_ok.
  - by apply set_pc_ok, reconcile_all_ok.
  - apply set_pc_ok. pose proof (reconcile_ok s id Hok) as Hok1. set (s1 := reconcile_inbound_bytes id s) in *.
    destruct (calls s1 !! id) as [sl|] eqn:Hi; [|done]. destruct (slot_cell _ _ _ Hok1 Hi) as [[] (c & Hc & Hid & Hcov)].
    pose proof (to_limit _ Hok1). destruct (length (inbound_sizes sl) =? 0)%nat eqn:H0.
    + apply Nat.eqb_eq, nil_length_inv in H0. eapply table_replace; [done|done| |simpl; lia|lia]. split; [by split|]. by exists c.
    + eapply table_replace; [done|done| |simpl; lia|lia]. split; [by split|]. by exists c.
  - by apply end_with_ok.
  - destruct (calls s !! id) as [sl|]; [|by apply set_pc_ok]. destruct (tombstone sl); [by apply set_pc_ok|].
    by apply set_pc_ok, same_queue_cell, remove_call_ok.
Qed.
(** A step of a writer leaves the table and the queues alone. *)
Lemma exec_writer_frame i st s s' :
  exec_writer i st s = Some s' →
  config s' = config s ∧ calls s' = calls s ∧ conn_bytes s' = conn_bytes s ∧ pc s' = pc s ∧
  (cells s' = cells s ∨ ∃ h f, same_queue f ∧ cells s' = alter f h (cells s)).
Proof.
  unfold exec_writer, with_pc, poison, drop_resp. destruct (writers s !! i) as [w|]; [|done]. cbn [mbind option_bind].
  intros H. repeat (case_match; simplify_eq/=; try done).
  all: do 4 (split; [done|]). all: try by left. all: try (right; do 2 eexists; split; [|reflexivity]; by intros ?).
  right. exists (w_handle w), (set_active false ∘ set_resp RespFree). split; [by intros ?|]. by rewrite list_alter_compose.
Qed.
Lemma exec_writer_table i st s s' : table_ok s → exec_writer i st s = Some s' → table_ok s' ∧ config s' = config s.
Proof.
  intros Hok (Hcfg & Hcalls & Hb & _ & Hcells)%exec_writer_frame. split; [|done].
  destruct Hcells as [Hc|(h & f & Hf & Hc)]; [by apply (table_frame s)|]. by apply (table_frame (upd_cell h f s)); [apply same_queue_cell|..].
Qed.

Lemma exec_select_ok b s s' : config_ok (config s) → table_ok s → exec_select b s = Some s' → table_ok s'.
Proof.
  intros Hcfg Hok. destruct b as [|i| | |m|e]; simpl.
  - destruct (completions s) as [|[id h] rest]; [done|]. intros [= <-]. apply set_pc_ok. set (s1 := set_completions rest s).
    assert (table_ok s1) as Hok1 by by apply (table_frame s). destruct (calls s !! id) as [sl|]; [|done].
    destruct (_ && _); [by apply remove_call_ok|done].
  - destruct (finish_control_task i s) as [[res s1]|] eqn:Hf; [|done]. cbn [mbind option_bind]. intros [= <-].
    destruct (finish_control_ok _ _ _ _ Hok Hf) as [Hok1 _]. destruct res; [by apply set_pc_ok|by apply end_with_ok].
  - destruct (closed s); [|done]. intros [= <-]. by apply end_with_ok.
  - destruct (any_ending s); [|done]. intros [= <-]. by apply set_pc_ok, finalize_ok.
  - intros [= <-]. by apply handle_message_ok.
  - intros [= <-]. by apply end_with_ok.
Qed.
Lemma table_step ev s s' : config_ok (config s) → table_ok s → exec ev s = Some s' → table_ok s'.
Proof.
  intros Hcfg Hok. destruct ev as [|b| |i|body| |h op|h|h|i st]; simpl.
  - destruct (pc s); try done. intros [= <-]. apply set_pc_ok. destruct (any_ending s); [by apply finalize_ok|done].
  - destruct (pc s); try done. by apply exec_select_ok.
  - destruct (pc s); try done. intros [= <-]. by apply deliver_ok.
  - destruct (pc s); try done. destruct (finish_control_task i s) as [[res s1]|] eqn:Hf; [|done]. cbn [mbind option_bind]. intros [= <-].
    destruct (finish_control_ok _ _ _ _ Hok Hf) as [Hok1 _]. destruct res; [done|by apply end_with_ok].
  - destruct (pc s); try done. destruct (existsb _ _); [done|]. destruct (_ <=? _); [intros [= <-]; by apply end_with_ok|].
    intros [= <-]. by apply set_pc_ok, (table_frame s).
  - destruct (pc s); try done; intros [= <-]; by apply set_pc_ok, close_ok.
  - unfold start_op. destruct (cells s !! h) as [c|] eqn:Hc; [|done]. cbn [mbind option_bind]. destruct (resp c); try done.
    destruct (op_message (c_id c) op) as [k m]. intros [= <-].
    by eapply table_frame; [apply (same_queue_cell s h (set_resp (match k with KItem => RespBusy | _ => RespGone end))); [by intros ?|exact Hok]|..].
  - destruct (cells s !! h) as [c|] eqn:Hc; [|done]. cbn [mbind option_bind]. destruct (queue c) as [|p q] eqn:Hq; [done|].
    destruct (receiver c); [|done]. intros [= <-]. apply table_cells; [done| |].
    + intros h' c' Hh'. destruct (decide (h = h')) as [<-|Hne].
      * exists (set_queue q c'). rewrite list_lookup_alter_eq, Hh'. split; [done|]. split; [done|]. exists 1%nat. simpl.
        replace c' with c by congruence. by rewrite Hq.
      * exists c'. rewrite list_lookup_alter_ne by done. split; [done|]. split; [done|]. by exists 0%nat.
    + intros h' c'. destruct (decide (h = h')) as [<-|Hne].
      * rewrite list_lookup_alter_eq, Hc. intros [= <-]. pose proof (queue_ok_drop _ _ 1 (to_queues _ Hok _ _ Hc)) as Hl. by rewrite Hq in Hl.
      * rewrite list_lookup_alter_ne by done. apply (to_queues _ Hok).
  - destruct (cells s !! h) as [c|] eqn:Hc; [|done]. cbn [mbind option_bind]. destruct (receiver c); [|done]. intros [= <-].
    apply table_upd_cell; [done|]. intros c'. split; [done|]. exists (length (queue c')). simpl. by rewrite drop_all.
  - intros Hw. by destruct (exec_writer_table _ _ _ _ Hok Hw).
Qed.

Lemma reconcile_frame id s : config (reconcile_inbound_bytes id s) = config s ∧ cells (reconcile_inbound_bytes id s) = cells s ∧
  writers (reconcile_inbound_bytes id s) = writers s ∧ lock (reconcile_inbound_bytes id s) = lock s ∧
  out (reconcile_inbound_bytes id s) = out s ∧ closed (reconcile_inbound_bytes id s) = closed s ∧
  completions (reconcile_inbound_bytes id s) = completions s.
Proof. unfold reconcile_inbound_bytes. by destruct (calls s !! id). Qed.
Lemma remove_frame id s : config (remove_call id s).2 = config s ∧ cells (remove_call id s).2 = cells s ∧
  writers (remove_call id s).2 = writers s ∧ lock (remove_call id s).2 = lock s ∧
  out (remove_call id s).2 = out s ∧ closed (remove_call id s).2 = closed s ∧ completions (remove_call id s).2 = completions s.
Proof. unfold remove_call. by destruct (calls s !! id). Qed.

(** What the read loop does to the writers' side of the state: it may close the
    connection, and only clears flags. *)
Record loop_frame (s s' : Conn) : Prop := {
  lf_config : config s' = config s;
  lf_writers : writers s' = writers s;
  lf_lock : lock s' = lock s;
  lf_out : out s' = out s;
  lf_closed : closed s = true → closed s' = true;
  lf_active h : is_active h s' = true → is_active h s = true ∨ (length (cells s) ≤ h)%nat;
  lf_length : (length (cells s) ≤ length (cells s'))%nat;
  lf_resp h c : cells s !! h = Some c → ∃ c', cells s' !! h = Some c' ∧ resp c' = resp c ∧ c_id c' = c_id c;
}.
#[export] Instance loop_frame_refl : Reflexive loop_frame.
Proof. intros s. split; try done; [by left|]. intros h c Hc. by exists c. Qed.
#[export] Instance loop_frame_trans : Transitive loop_frame.
Proof.
  intros s1 s2 s3 [E1 E2 E3 E4 E5 E6 E7 E8] [F1 F2 F3 F4 F5 F6 F7 F8]. split; try congruence; [auto| |lia|].
  - intros h [H|H]%F6; [by apply E6|right; lia].
  - intros h c Hc. destruct (E8 h c Hc) as (c' & Hc' & ? & ?). destruct (F8 h c' Hc') as (c'' & ? & ? & ?). exists c''. split; [done|]. split; congruence.
Qed.
Lemma loop_frame_same s s' :
  config s' = config s → writers s' = writers s → lock s' = lock s → out s' = out s → (closed s = true → closed s' = true) → cells s' = cells s → loop_frame s s'.
Proof.
  intros E1 E2 E3 E4 E5 E6. split; try done; unfold is_active; rewrite ?E6; [by left|done|]. intros h c Hc. by exists c.
Qed.
Lemma loop_frame_upd h f s :
  (∀ c, resp (f c) = resp c ∧ c_id (f c) = c_id c ∧ (active (f c) = true → active c = true)) → loop_frame s (upd_cell h f s).
Proof.
  intros Hf. split; try done; simpl; [| |].
  - intros h'. unfold is_active. simpl. destruct (decide (h = h')) as [<-|Hne]; [|rewrite list_lookup_alter_ne by done; by left].
    rewrite list_lookup_alter_eq. destruct (cells s !! h) as [c|]; [|done]. simpl. intros Ha. left. by apply (Hf c).
  - by rewrite length_alter.
  - intros h' c Hc. destruct (decide (h = h')) as [<-|Hne].
    + exists (f c). rewrite list_lookup_alter_eq, Hc. destruct (Hf c) as (? & ? & _). done.
    + exists c. by rewrite list_lookup_alter_ne by done.
Qed.
Lemma loop_frame_close s : loop_frame s (close s).
Proof.
  unfold close, cancel_all. split; try done; simpl.
  - intros h. unfold is_active. simpl. rewrite list_lookup_imap. destruct (cells s !! h) as [c|]; [|done]. simpl.
    destruct (in_table _ h); [done|by left].
  - by rewrite length_imap.
  - intros h c Hc. rewrite list_lookup_imap, Hc. simpl. eexists. split; [done|]. by destruct (in_table _ h).
Qed.
Lemma loop_frame_end_with res s : loop_frame s (end_with res s).
Proof. transitivity (close s); [apply loop_frame_close|by apply loop_frame_same]. Qed.
Lemma loop_frame_reconcile id s : loop_frame s (reconcile_inbound_bytes id s).
Proof. destruct (reconcile_frame id s) as (? & ? & ? & ? & ? & Hc & ?). apply loop_frame_same; try done. by rewrite Hc. Qed.
Lemma loop_frame_remove id s : loop_frame s (remove_call id s).2.
Proof. destruct (remove_frame id s) as (? & ? & ? & ? & ? & Hc & ?). apply loop_frame_same; try done. by rewrite Hc. Qed.
Lemma loop_frame_calls m n p s : loop_frame s (set_pc p (set_calls m n s)).
Proof. by apply loop_frame_same. Qed.
Lemma loop_frame_pc p s : loop_frame s (set_pc p s).
Proof. by apply loop_frame_same. Qed.
Lemma loop_frame_cancel h s : loop_frame s (upd_cell h (λ c, set_active false (cancel_cell c)) s).
Proof. by apply loop_frame_upd. Qed.

Lemma loop_frame_reject id s : loop_frame s (reject_inbound_overflow id s).
Proof.
  unfold reject_inbound_overflow. transitivity (reconcile_inbound_bytes id s); [apply loop_frame_reconcile|].
  set (s1 := reconcile_inbound_bytes id s). destruct (calls s1 !! id) as [sl|]; [|apply loop_frame_pc].
  etransitivity; [|apply loop_frame_pc]. etransitivity; [|apply loop_frame_cancel]. by apply loop_frame_same.
Qed.
Lemma loop_frame_deliver id payload s : loop_frame s (deliver_item id payload s).
Proof.
  unfold deliver_item. destruct (route_item id (blen payload) s) as [[[sl cb] nb]|].
  - destruct (cells s !! handle sl) as [c|]; [|apply loop_frame_pc]. destruct (negb (receiver c)).
    { etransitivity; [|apply loop_frame_pc]. unfold discard_closed_inbound. by destruct (calls s !! id); apply loop_frame_same. }
    destruct (_ <=? _)%nat; [apply loop_frame_reject|]. etransitivity; [|apply loop_frame_pc]. etransitivity; [|by apply loop_frame_upd].
    by apply loop_frame_same.
  - destruct (calls s !! id) as [sl|]; [|apply loop_frame_pc]. destruct (_ && _); [apply loop_frame_reject|apply loop_frame_pc].
Qed.
Lemma loop_frame_message m s : loop_frame s (handle_message m s).
Proof.
  destruct m as [req|resp|id payload|id|id code body|id]; simpl.
  - destruct (calls s !! _); [apply loop_frame_end_with|]. destruct (_ <=? _); [apply loop_frame_end_with|].
    etransitivity; [|apply loop_frame_pc]. split; try done; simpl.
    + intros h. unfold is_active. simpl. destruct (decide (h < length (cells s))%nat) as [Hlt|Hge]; [|right; lia].
      rewrite lookup_app_l by done. by left.
    + rewrite length_app. lia.
    + intros h c Hc. exists c. split; [by apply lookup_app_l_Some|done].
  - apply loop_frame_end_with.
  - by apply loop_frame_same.
  - etransitivity; [apply (loop_frame_reconcile id)|]. etransitivity; [|apply loop_frame_pc].
    set (s1 := reconcile_inbound_bytes id s). by destruct (calls s1 !! id); apply loop_frame_same.
  - apply loop_frame_end_with.
  - destruct (calls s !! id) as [sl|]; [|apply loop_frame_pc]. destruct (tombstone sl); [apply loop_frame_pc|].
    etransitivity; [|apply loop_frame_pc]. etransitivity; [apply (loop_frame_remove id)|apply loop_frame_cancel].
Qed.
