(* ===== verification/StreamWire.v ===== *)
(** * StreamWire: the writers of a byte-stream connection

    The invariant [wire_ok] of [StreamConn]: who holds the lock, who may still send
    the terminal frame of a call, and what is on the byte stream. Every event
    keeps it. *)
From S2P Require Import Prelude WireStatus WireFrame StreamConn StreamTable.

(** ** Writers

    [count p l] is the number of elements with [p]. *)
Definition b2z (b : bool) : Z := if b then 1 else 0.
Definition count {A} (p : A → bool) (l : list A) : Z := foldr (λ x n, b2z (p x) + n) 0 l.
Lemma b2z_bounds b : 0 ≤ b2z b ≤ 1.
Proof. destruct b; simpl; lia. Qed.
Lemma count_nonneg {A} (p : A → bool) l : 0 ≤ count p l.
Proof. induction l as [|x l IH]; simpl; [done|]. pose proof (b2z_bounds (p x)). lia. Qed.
Lemma count_app {A} (p : A → bool) l k : count p (l ++ k) = count p l + count p k.
Proof. induction l as [|x l IH]; simpl; [done|]. rewrite IH. lia. Qed.
Lemma count_insert {A} (p : A → bool) l i x y : l !! i = Some x → count p (<[i := y]> l) = count p l - b2z (p x) + b2z (p y).
Proof.
  revert i. induction l as [|z l IH]; intros [|i]; simpl; try done; [intros [= ->]; lia|]. intros Hi. rewrite (IH _ Hi). lia.
Qed.
Lemma count_elem {A} (p : A → bool) l i x : l !! i = Some x → p x = true → 1 ≤ count p l.
Proof.
  intros Hi Hp. rewrite <- (list_insert_id _ _ _ Hi), (count_insert _ _ _ _ _ Hi), Hp. revert i Hi.
  induction l as [|z l IH]; intros [|i]; simpl; try done; [intros [= ->]; rewrite Hp; pose proof (count_nonneg p l); simpl; lia|].
  intros Hi. specialize (IH _ Hi). pose proof (b2z_bounds (p z)). lia.
Qed.
Lemma count_zero {A} (p : A → bool) l x : count p l ≤ 0 → x ∈ l → p x = false.
Proof.
  intros Hc [i Hi]%list_elem_of_lookup_1. destruct (p x) eqn:Hp; [|done]. pose proof (count_elem p l i x Hi Hp). lia.
Qed.

Definition is_item (w : Writer) : bool := match w_kind w with KItem => true | _ => false end.
Definition is_terminal (m : WireMessage) : bool := match m with MStreamItem _ _ => false | _ => true end.
Definition holds (w : Writer) : bool := match w_pc w with WLocked | WWriting => true | _ => false end.
(** A writer that took the right to send the terminal frame of [h] and may still do so. *)
Definition claims (h : nat) (w : Writer) : bool :=
  (w_handle w =? h)%nat && negb (is_item w) && match w_pc w with WCheck | WWait | WLocked | WWriting => true | _ => false end.
Definition ends (h : nat) (f : Sent) : bool := (sent_handle f =? h)%nat && is_terminal (sent_msg f).
Definition rejecting (h : nat) (p : ReadPc) : bool := match p with RReject _ h' => (h' =? h)%nat | _ => false end.
Definition terminals (h : nat) (s : Conn) : Z := count (claims h) (writers s) + count (ends h) (out s) + b2z (rejecting h (pc s)).
Record wire_ok (s : Conn) : Prop := {
  wo_lock i w : writers s !! i = Some w → holds w = true → lock s = Some i;
  wo_kind i w : writers s !! i = Some w → is_terminal (w_msg w) = negb (is_item w);
  wo_terminals h : terminals h s ≤ (if is_active h s then 0 else 1);
  wo_writers i w : writers s !! i = Some w → (w_handle w < length (cells s))%nat;
  wo_out f : f ∈ out s → (sent_handle f < length (cells s))%nat;
  wo_reject h : rejecting h (pc s) = true → (h < length (cells s))%nat;
  wo_item i w f : writers s !! i = Some w → w_pc w = WWriting → is_item w = true → f ∈ out s → ends (w_handle w) f = false;
  wo_order a f b : out s = a ++ f :: b → is_terminal (sent_msg f) = true → ∀ g, g ∈ b → sent_handle g ≠ sent_handle f;
  wo_whole a f b : out s = a ++ f :: b → whole f = false → b = [] ∧ closed s = true ∧ ∀ i w, writers s !! i = Some w → w_pc w ≠ WWriting;
}.

(** The read loop keeps it. *)
Lemma terminals_nonneg h s : 0 ≤ terminals h s.
Proof. unfold terminals. pose proof (count_nonneg (claims h) (writers s)). pose proof (count_nonneg (ends h) (out s)). pose proof (b2z_bounds (rejecting h (pc s))). lia. Qed.
Lemma terminals_range s h : wire_ok s → (length (cells s) ≤ h)%nat → terminals h s = 0.
Proof.
  intros Hok Hh. unfold terminals.
  assert (∀ A (p : A → bool) l, (∀ x, x ∈ l → p x = false) → count p l = 0) as Hz.
  { intros A p l. induction l as [|x l IH]; intros H; simpl; [done|]. rewrite (H x) by left. rewrite IH; [done|]. intros y Hy. apply H. by right. }
  rewrite !Hz.
  - destruct (rejecting h (pc s)) eqn:Hr; [|done]. apply (wo_reject _ Hok) in Hr. lia.
  - intros f Hf. pose proof (wo_out _ Hok f Hf). unfold ends. destruct (Nat.eqb_spec (sent_handle f) h); [lia|done].
  - intros w [i Hi]%list_elem_of_lookup_1. pose proof (wo_writers _ Hok i w Hi). unfold claims. destruct (Nat.eqb_spec (w_handle w) h); [lia|done].
Qed.
Lemma wire_frame s s' :
  wire_ok s → loop_frame s s' →
  (∀ h, rejecting h (pc s') = true → rejecting h (pc s) = true ∨ is_active h s = true ∧ is_active h s' = false ∧ (h < length (cells s))%nat) →
  wire_ok s'.
Proof.
  intros Hok [_ Ew El Eo Ec Ha Hl _] Hrej. split; rewrite ?Ew, ?El, ?Eo; try apply Hok.
  - intros h. pose proof (wo_terminals _ Hok h) as Ht.
    assert (terminals h s' ≤ terminals h s + b2z (rejecting h (pc s') && negb (rejecting h (pc s)))) as Hle.
    { unfold terminals. rewrite Ew, Eo. destruct (rejecting h (pc s')), (rejecting h (pc s)); simpl; lia. }
    destruct (rejecting h (pc s') && negb (rejecting h (pc s))) eqn:Hnew.
    + apply andb_prop in Hnew as [Hr Hn]. destruct (Hrej h Hr) as [Hr'|(Hact & Hact' & _)]; [by rewrite Hr' in Hn|].
      rewrite Hact in Ht. rewrite Hact'. simpl in Hle. lia.
    + simpl in Hle. destruct (is_active h s') eqn:Hact'; [|destruct (is_active h s); lia].
      destruct (Ha h Hact') as [Hact|Hge]; [rewrite Hact in Ht; lia|]. rewrite (terminals_range s h Hok Hge) in Hle. lia.
  - intros i w Hi. pose proof (wo_writers _ Hok i w Hi). lia.
  - intros f Hf. pose proof (wo_out _ Hok f Hf). lia.
  - intros h Hr. destruct (Hrej h Hr) as [Hr'|(_ & _ & ?)]; [|lia]. pose proof (wo_reject _ Hok h Hr'). lia.
  - intros a f b Heq Hw. destruct (wo_whole _ Hok a f b Heq Hw) as (? & ? & ?). auto.
Qed.

Lemma claims_set h p w :
  claims h (set_wpc p w) = (w_handle w =? h)%nat && negb (is_item w) && match p with WCheck | WWait | WLocked | WWriting => true | _ => false end.
Proof. done. Qed.
Lemma lookup_pc (s : Conn) i w p j x :
  writers s !! i = Some w → <[i := set_wpc p w]> (writers s) !! j = Some x → j = i ∧ x = set_wpc p w ∨ j ≠ i ∧ writers s !! j = Some x.
Proof. intros Hi [(<- & <- & _)|[Hne Hj]]%list_lookup_insert_Some; [by left|by right]. Qed.
(** One writer moves and nothing is written. *)
Lemma wire_move s s' i w p :
  wire_ok s → writers s !! i = Some w → writers s' = <[i := set_wpc p w]> (writers s) → out s' = out s → pc s' = pc s →
  length (cells s') = length (cells s) → (closed s = true → closed s' = true) → (∀ h, is_active h s' = true → is_active h s = true) →
  (holds (set_wpc p w) = true → lock s' = Some i) →
  (∀ j x, j ≠ i → writers s !! j = Some x → holds x = true → lock s' = Some j) →
  (∀ h, claims h (set_wpc p w) = true → claims h w = true ∨ is_active h s = true ∧ is_active h s' = false) →
  (p = WWriting → closed s = false ∧ (is_item w = true → is_active (w_handle w) s = true)) →
  wire_ok s'.
Proof.
  intros Hok Hi Ew Eo Ep El Ec Ea Hl1 Hl2 Hcl Hw. pose proof Hok as [Hlk Hk Ht Hwr Ho Hr Hit Hord Hwh].
  split; rewrite ?Ew, ?Eo, ?Ep, ?El; try done.
  - intros j x Hj Hx. destruct (lookup_pc _ _ _ _ _ _ Hi Hj) as [[-> ->]|[Hne Hj']]; [by apply Hl1|by eapply Hl2].
  - intros j x Hj. destruct (lookup_pc _ _ _ _ _ _ Hi Hj) as [[-> ->]|[Hne Hj']]; [by apply (Hk i w)|by eapply Hk].
  - intros h. specialize (Ht h). unfold terminals in *. rewrite Ew, Eo, Ep, (count_insert _ _ _ _ _ Hi).
    pose proof (Ea h) as Hah. destruct (claims h (set_wpc p w)) eqn:Hc.
    + destruct (Hcl h Hc) as [Hc'|[Ha Ha']]; [rewrite Hc'|rewrite Ha', Ha in *; pose proof (b2z_bounds (claims h w)); simpl; lia].
      destruct (is_active h s'); [rewrite Hah in Ht by done; lia|destruct (is_active h s); lia].
    + pose proof (b2z_bounds (claims h w)). destruct (is_active h s'); [rewrite Hah in Ht by done; simpl; lia|destruct (is_active h s); simpl; lia].
  - intros j x Hj. destruct (lookup_pc _ _ _ _ _ _ Hi Hj) as [[-> ->]|[Hne Hj']]; [by apply (Hwr i w)|by eapply Hwr].
  - intros j x f Hj Hx Hitm Hf. destruct (lookup_pc _ _ _ _ _ _ Hi Hj) as [[-> ->]|[Hne Hj']]; [|by eapply Hit].
    destruct (Hw Hx) as [_ Hact]. specialize (Hact Hitm). simpl. specialize (Ht (w_handle w)). rewrite Hact in Ht. unfold terminals in Ht.
    pose proof (count_nonneg (claims (w_handle w)) (writers s)). pose proof (b2z_bounds (rejecting (w_handle w) (pc s))).
    apply (count_zero _ (out s)); [lia|done].
  - intros a f b Heq Hff. destruct (Hwh a f b Heq Hff) as (Hb & Hcls & Hnw). split; [done|]. split; [by apply Ec|].
    intros j x Hj. destruct (lookup_pc _ _ _ _ _ _ Hi Hj) as [[-> ->]|[Hne Hj']]; [|by eapply Hnw].
    simpl. intros ->. destruct (Hw eq_refl) as [Hcl' _]. congruence.
Qed.
(** While a writer writes, no other one does, no fragment was left, and the terminal
    frame of its call is not out. *)
Lemma lock_exclusive s i w j x :
  wire_ok s → writers s !! i = Some w → w_pc w = WWriting → writers s !! j = Some x → holds x = true → j = i.
Proof.
  intros Hok Hi Hpc Hj Hx. pose proof (wo_lock _ Hok j x Hj Hx). pose proof (wo_lock _ Hok i w Hi) as Hl.
  unfold holds in Hl. rewrite Hpc in Hl. specialize (Hl eq_refl). congruence.
Qed.
Lemma writing_whole s i w f : wire_ok s → writers s !! i = Some w → w_pc w = WWriting → f ∈ out s → whole f = true.
Proof.
  intros Hok Hi Hpc Hf. destruct (whole f) eqn:Hw; [done|]. apply list_elem_of_split in Hf as (l1 & l2 & Heq).
  destruct (wo_whole _ Hok _ _ _ Heq Hw) as (_ & _ & Hnw). by destruct (Hnw i w Hi).
Qed.
Lemma writing_fresh s i w f :
  wire_ok s → writers s !! i = Some w → w_pc w = WWriting → f ∈ out s → is_terminal (sent_msg f) = true → w_handle w ≠ sent_handle f.
Proof.
  intros Hok Hi Hpc Hf Hterm Heq. destruct (is_item w) eqn:Hitm.
  - pose proof (wo_item _ Hok i w f Hi Hpc Hitm Hf) as Hne. unfold ends in Hne. by rewrite Hterm, Heq, Nat.eqb_refl in Hne.
  - pose proof (wo_terminals _ Hok (w_handle w)) as Ht. unfold terminals in Ht. pose proof (b2z_bounds (rejecting (w_handle w) (pc s))).
    apply list_elem_of_lookup_1 in Hf as [k Hk'].
    pose proof (count_elem (ends (w_handle w)) (out s) k f Hk') as H1. pose proof (count_elem (claims (w_handle w)) (writers s) i w Hi) as H2.
    unfold ends in H1 at 1. unfold claims in H2 at 1. rewrite Hterm, Heq, Nat.eqb_refl in H1. rewrite Nat.eqb_refl, Hitm, Hpc in H2.
    rewrite Heq in *. specialize (H1 eq_refl). specialize (H2 eq_refl). destruct (is_active (sent_handle f) s); lia.
Qed.
(** A writer that holds the lock finishes its frame or leaves a fragment. *)
Lemma wire_push s s' i w p b :
  wire_ok s → writers s !! i = Some w → w_pc w = WWriting → writers s' = <[i := set_wpc p w]> (writers s) →
  out s' = out s ++ [mkSent (w_handle w) (w_msg w) b] → pc s' = pc s → length (cells s') = length (cells s) →
  (closed s = true → closed s' = true) → (∀ h, is_active h s' = true → is_active h s = true) →
  match p with WAfter _ | WDone _ | WGone => True | _ => False end → (b = false → closed s' = true) → wire_ok s'.
Proof.
  intros Hok Hi Hpc Ew Eo Ep El Ec Ea Hp Hb. pose proof Hok as [Hlk Hk Ht Hwr Ho Hr Hit Hord Hwh].
  pose proof (λ j x, lock_exclusive s i w j x Hok Hi Hpc) as Hexcl. pose proof (λ f, writing_whole s i w f Hok Hi Hpc) as Hallw.
  pose proof (λ f, writing_fresh s i w f Hok Hi Hpc) as Hfresh.
  assert (holds (set_wpc p w) = false ∧ ∀ h, claims h (set_wpc p w) = false) as [Hnh Hnc].
  { split; [by destruct p|]. intros h. rewrite claims_set. destruct p; try done; by rewrite andb_false_r. }
  set (g := mkSent (w_handle w) (w_msg w) b) in *.
  assert (∀ h, b2z (ends h g) = b2z (claims h w)) as Hends.
  { intros h. unfold ends, claims, g. simpl. rewrite Hpc, (Hk i w Hi). by rewrite andb_true_r. }
  split; rewrite ?Ew, ?Eo, ?Ep, ?El; try done.
  - intros j x Hj Hx. destruct (lookup_pc _ _ _ _ _ _ Hi Hj) as [[-> ->]|[Hne Hj']]; [by rewrite Hnh in Hx|by destruct Hne; eapply Hexcl].
  - intros j x Hj. destruct (lookup_pc _ _ _ _ _ _ Hi Hj) as [[-> ->]|[Hne Hj']]; [by apply (Hk i w)|by eapply Hk].
  - intros h. specialize (Ht h). unfold terminals in *. rewrite Ew, Eo, Ep, (count_insert _ _ _ _ _ Hi), count_app, Hnc. simpl.
    rewrite Hends. pose proof (Ea h) as Hah. destruct (is_active h s'); [rewrite Hah in Ht by done; lia|destruct (is_active h s); lia].
  - intros j x Hj. destruct (lookup_pc _ _ _ _ _ _ Hi Hj) as [[-> ->]|[Hne Hj']]; [by apply (Hwr i w)|by eapply Hwr].
  - intros f [Hf|Hf%list_elem_of_singleton]%elem_of_app; [by apply Ho|]. subst f. by apply (Hwr i w).
  - intros j x f Hj Hx Hitm Hf. destruct (lookup_pc _ _ _ _ _ _ Hi Hj) as [[-> ->]|[Hne Hj']]; [simpl in Hx; by subst p|].
    destruct Hne. apply (Hexcl j x); [done|]. unfold holds. by rewrite Hx.
  - intros a f bb Heq Hterm g' Hg'. destruct (app_eq_snoc_split _ _ _ _ _ Heq) as [(Hb0 & Hf & Ha)|(b' & Hb' & Ho')].
    + subst bb. by apply not_elem_of_nil in Hg'.
    + subst bb. apply elem_of_app in Hg' as [Hg'|Hg'%list_elem_of_singleton]; [by eapply Hord|]. subst g'. apply Hfresh; [|done]. rewrite Ho'.
      apply elem_of_app. right. left.
  - intros a f bb Heq Hfw. destruct (app_eq_snoc_split _ _ _ _ _ Heq) as [(Hb0 & Hf & Ha)|(b' & Hb' & Ho')].
    + subst bb f. split; [done|]. split; [by apply Hb|]. intros j x Hj.
      destruct (lookup_pc _ _ _ _ _ _ Hi Hj) as [[-> ->]|[Hne Hj']]; [simpl; by intros ->|]. intros Hx. destruct Hne. apply (Hexcl j x); [done|].
      unfold holds. by rewrite Hx.
    + exfalso. rewrite (Hallw f) in Hfw; [done|]. rewrite Ho'. apply elem_of_app. right. left.
Qed.

Lemma is_active_upd s h f h' : (∀ c, active (f c) = true → active c = true) → is_active h' (upd_cell h f s) = true → is_active h' s = true.
Proof.
  intros Hf. unfold is_active. simpl. destruct (decide (h = h')) as [<-|Hne]; [|by rewrite list_lookup_alter_ne].
  rewrite list_lookup_alter_eq. destruct (cells s !! h); simpl; auto.
Qed.
Lemma is_active_cleared s h : is_active h (upd_cell h (set_active false) s) = false.
Proof. unfold is_active. simpl. rewrite list_lookup_alter_eq. by destruct (cells s !! h). Qed.
Lemma wire_writer i st s s' : wire_ok s → exec_writer i st s = Some s' → wire_ok s'.
Proof.
  intros Hok. unfold exec_writer. destruct (writers s !! i) as [w|] eqn:Hi; [|done]. cbn [mbind option_bind].
  pose proof (wo_lock _ Hok) as Hlk.
  assert (∀ j x, j ≠ i → holds w = true → writers s !! j = Some x → holds x = true → False) as Hexcl.
  { intros j x Hne Hw Hj Hx. pose proof (Hlk _ _ Hj Hx). pose proof (Hlk _ _ Hi Hw). congruence. }
  destruct (w_pc w) as [| | | | |res|res|] eqn:Hpc, st as [| |e| |]; try done.
  - destruct (is_active (w_handle w) s) eqn:Hact; intros [= <-].
    + destruct (w_kind w) eqn:Hkind.
      2: { eapply (wire_move s _ i w WCheck); try done; [by intros; eapply Hlk|]. intros h. rewrite claims_set. unfold is_item. rewrite Hkind. simpl. by rewrite andb_false_r. }
      all: eapply (wire_move s _ i w WCheck); try done; simpl; [by rewrite length_alter|by intros h; apply is_active_upd|by intros; eapply Hlk|];
        intros h; rewrite claims_set; intros Hc; apply andb_prop in Hc as [Hc _]; apply andb_prop in Hc as [Hc%Nat.eqb_eq _]; subst h;
        right; split; [done|apply is_active_cleared].
    + destruct (w_kind w); eapply (wire_move s _ i w (WDone (Err Closed))); try done; simpl; rewrite ?length_alter; try done.
      all: try (by intros h; apply is_active_upd). all: try (by intros; eapply Hlk). all: intros h; rewrite claims_set; by rewrite andb_false_r.
  - intros [= <-]. eapply (wire_move s _ i w (if refuses w s then WAfter (Err Closed) else WWait)); try done.
    + by destruct (refuses w s).
    + by intros; eapply Hlk.
    + intros h. rewrite claims_set. unfold claims. rewrite Hpc. destruct (refuses w s); [by rewrite andb_false_r|by left].
    + by destruct (refuses w s).
  - destruct (lock s) eqn:Hl; [done|]. intros [= <-]. eapply (wire_move s _ i w WLocked); try done.
    + intros j x _ Hj Hx. by specialize (Hlk _ _ Hj Hx).
    + intros h. rewrite claims_set. unfold claims. rewrite Hpc. by left.
  - destruct (closed s) eqn:Hcl; [|done]. intros [= <-]. eapply (wire_move s _ i w (WAfter (Err Closed))); try done; [by intros; eapply Hlk|].
    intros h. by rewrite claims_set, andb_false_r.
  - destruct (_ && _); [done|]. intros [= <-]. unfold drop_resp. destruct (w_kind w); eapply (wire_move s _ i w WGone); try done; simpl; rewrite ?length_alter; try done.
    all: try (by intros h; apply is_active_upd). all: try (by intros; eapply Hlk). all: intros h; by rewrite claims_set, andb_false_r.
  - destruct (is_control w); [|done]. intros [= <-].
    eapply (wire_move s _ i w (WDone (Err (ControlWriteTimeout (control_write_timeout (config s)))))); try done; [by intros; eapply Hlk|].
    intros h. by rewrite claims_set, andb_false_r.
  - intros [= <-]. destruct (refuses w s) eqn:Hr.
    + eapply (wire_move s _ i w (WAfter (Err Closed))); try done; [|intros h; by rewrite claims_set, andb_false_r].
      intros j x Hne Hj Hx. exfalso. eapply Hexcl; try done. unfold holds. by rewrite Hpc.
    + unfold refuses in Hr. apply orb_false_iff in Hr as [Hcl Hitm].
      eapply (wire_move s _ i w WWriting); try done; [by intros; apply (Hlk i w Hi); unfold holds; rewrite Hpc|by intros; eapply Hlk| |].
      * intros h. rewrite claims_set. unfold claims. rewrite Hpc. by left.
      * intros _. split; [done|]. unfold is_item. destruct (w_kind w); try done. by apply negb_false_iff in Hitm.
  - intros [= <-]. by eapply (wire_push s _ i w (WAfter (Ok tt)) true).
  - destruct (closed s) eqn:Hcl; [|done]. intros [= <-]. by eapply (wire_push s _ i w (WAfter (Err Closed)) false).
  - destruct e; try done; intros [= <-].
    + by eapply (wire_push s _ i w (WAfter (Err (Io kind))) false).
    + eapply (wire_move s _ i w (WAfter (Err (Serialization msg)))); try done; [|intros h; by rewrite claims_set, andb_false_r].
      intros j x Hne Hj Hx. exfalso. eapply Hexcl; try done. unfold holds. by rewrite Hpc.
  - destruct (_ && _); [done|]. intros [= <-]. unfold drop_resp. destruct (w_kind w); eapply (wire_push s _ i w WGone false); try done; simpl; rewrite ?length_alter; try done.
    all: by intros h; apply (is_active_upd (poison w s)).
  - destruct (is_control w); [|done]. intros [= <-].
    by eapply (wire_push s _ i w (WDone (Err (ControlWriteTimeout (control_write_timeout (config s))))) false).
  - intros [= <-]. destruct (w_kind w); [| |].
    + eapply (wire_move s _ i w (WDone res)); try done; [by intros; eapply Hlk|]. intros h. by rewrite claims_set, andb_false_r.
    + destruct res as [u|e].
      * eapply (wire_move s _ i w (WDone (Ok u))); try done; simpl; [by rewrite length_alter|by intros h; apply is_active_upd|by intros; eapply Hlk|].
        intros h. by rewrite claims_set, andb_false_r.
      * eapply (wire_move s _ i w (WDone (Err e))); try done; simpl; [by rewrite !length_alter| |by intros; eapply Hlk|].
        { intros h Ha. apply (is_active_upd s (w_handle w) (set_resp RespFree)); [done|].
          by apply (is_active_upd (upd_cell (w_handle w) (set_resp RespFree) s) (w_handle w) (set_active false)). }
        { intros h. by rewrite claims_set, andb_false_r. }
    + eapply (wire_move s _ i w (WDone res)); try done; [by intros; eapply Hlk|]. intros h. by rewrite claims_set, andb_false_r.
Qed.

(** A new writer, which starts before its flag or takes over the claim of a rejection. *)
Lemma wire_append s s' w :
  wire_ok s → writers s' = writers s ++ [w] → lock s' = lock s → out s' = out s → closed s' = closed s →
  length (cells s') = length (cells s) → (∀ h, is_active h s' = true → is_active h s = true) →
  (w_handle w < length (cells s))%nat → is_terminal (w_msg w) = negb (is_item w) → match w_pc w with WStart | WCheck => True | _ => False end →
  (∀ h, b2z (claims h w) + b2z (rejecting h (pc s')) ≤ b2z (rejecting h (pc s))) → wire_ok s'.
Proof.
  intros [Hlk Hk Ht Hwr Ho Hr Hit Hord Hwh] Ew El Eo Ec Elen Ea Hh Hterm Hpc Hclaim.
  assert (∀ j x, (writers s ++ [w]) !! j = Some x → writers s !! j = Some x ∨ x = w) as Hj.
  { intros j x [Hx|[_ Hx%list_lookup_singleton_Some]]%lookup_app_Some; [by left|]. right. by destruct Hx. }
  split; rewrite ?Ew, ?El, ?Eo, ?Ec, ?Elen; try done.
  - intros j x [Hx| ->]%Hj; [by eapply Hlk|]. unfold holds. by destruct (w_pc w).
  - intros j x [Hx| ->]%Hj; [by eapply Hk|done].
  - intros h. specialize (Ht h). specialize (Hclaim h). unfold terminals in *. rewrite Ew, Eo, count_app. simpl. pose proof (Ea h) as Hah.
    destruct (is_active h s'); [rewrite Hah in Ht by done; lia|destruct (is_active h s); lia].
  - intros j x [Hx| ->]%Hj; [by eapply Hwr|done].
  - intros h Hrej. apply Hr. specialize (Hclaim h). rewrite Hrej in Hclaim. pose proof (b2z_bounds (claims h w)).
    by destruct (rejecting h (pc s)); simpl in *; [|lia].
  - intros j x f [Hx| ->]%Hj; [by eapply Hit|]. intros Hx. by rewrite Hx in Hpc.
  - intros a f b Heq Hw. destruct (Hwh a f b Heq Hw) as (? & ? & Hnw). split; [done|]. split; [done|]. intros j x [Hx| ->]%Hj; [by eapply Hnw|].
    intros Hx. by rewrite Hx in Hpc.
Qed.

Lemma is_active_range h s : is_active h s = true → (h < length (cells s))%nat.
Proof. unfold is_active. destruct (cells s !! h) eqn:Hc; [|done]. intros _. by eapply lookup_lt_Some. Qed.
(** The loop moves to a place where it claims no terminal frame. *)
Lemma wire_loop s s' : wire_ok s → loop_frame s s' → (∀ h, rejecting h (pc s') = false) → wire_ok s'.
Proof. intros Hok Hlf Hpc. apply (wire_frame s); [done..|]. intros h Hr. by rewrite Hpc in Hr. Qed.
Lemma wire_cells s h f :
  wire_ok s → (∀ c, resp (f c) = resp c ∧ c_id (f c) = c_id c ∧ (active (f c) = true → active c = true)) → wire_ok (upd_cell h f s).
Proof. intros Hok Hf. apply (wire_frame s); [done|by apply loop_frame_upd|]. by left. Qed.
Lemma reject_pc id s h :
  rejecting h (pc (reject_inbound_overflow id s)) = true →
  is_active h s = true ∧ is_active h (reject_inbound_overflow id s) = false ∧ (h < length (cells s))%nat.
Proof.
  unfold reject_inbound_overflow. destruct (reconcile_frame id s) as (_ & Hcells & _). set (s1 := reconcile_inbound_bytes id s) in *.
  destruct (calls s1 !! id) as [sl|]; [|done].
  assert (∀ h, is_active h s1 = is_active h s) as Hact by (intros h'; unfold is_active; by rewrite Hcells). rewrite Hact.
  destruct (is_active (handle sl) s) eqn:Ha; [|done]. simpl. intros <-%Nat.eqb_eq. split; [done|]. split; [|by apply is_active_range].
  unfold is_active. simpl. rewrite list_lookup_alter_eq. by destruct (cells s1 !! _).
Qed.
Lemma wire_reject id s : wire_ok s → wire_ok (reject_inbound_overflow id s).
Proof. intros Hok. apply (wire_frame s); [done|apply loop_frame_reject|]. intros h Hr. right. by apply (reject_pc id). Qed.
Lemma wire_deliver id payload s : wire_ok s → wire_ok (deliver_item id payload s).
Proof.
  intros Hok. pose proof (loop_frame_deliver id payload s) as Hlf. unfold deliver_item in *. destruct (route_item id (blen payload) s) as [[[sl cb] nb]|].
  - destruct (cells s !! handle sl) as [c|]; [|by apply (wire_loop s)]. destruct (negb (receiver c)); [by apply (wire_loop s)|].
    destruct (_ <=? _)%nat; [by apply wire_reject|by apply (wire_loop s)].
  - destruct (calls s !! id) as [sl|]; [|by apply (wire_loop s)]. destruct (inbound sl && _); [by apply wire_reject|by apply (wire_loop s)].
Qed.
Lemma handle_message_pc m s h : rejecting h (pc (handle_message m s)) = false.
Proof.
  destruct m as [req|resp|id payload|id|id code body|id]; simpl; try done.
  - destruct (calls s !! req_id req); [done|]. by destruct (_ <=? _).
  - destruct (calls s !! id) as [sl|]; [|done]. by destruct (tombstone sl).
Qed.
Lemma wire_message m s : wire_ok s → wire_ok (handle_message m s).
Proof. intros Hok. apply (wire_loop s); [done|apply loop_frame_message|]. intros h. apply handle_message_pc. Qed.
Lemma wire_end_with res s : wire_ok s → wire_ok (end_with res s).
Proof. intros Hok. apply (wire_loop s); [done|apply loop_frame_end_with|done]. Qed.
Lemma finish_control_wire i s res s' : wire_ok s → finish_control_task i s = Some (res, s') → wire_ok s'.
Proof.
  intros Hok. unfold finish_control_task. destruct (writers s !! i) as [w|] eqn:Hi; [|done]. cbn [mbind option_bind].
  destruct (finished_control w) as [r|] eqn:Hf; [|done]. cbn [mbind option_bind]. set (s1 := set_writers _ s).
  assert (wire_ok s1) as Hok1.
  { apply (wire_move s s1 i w WGone); try done; [by intros; eapply (wo_lock _ Hok)|]. intros h. by rewrite claims_set, andb_false_r. }
  destruct r as [|e]; [|by intros [= <- <-]]. destruct (calls s1 !! _) as [sl|]; [|by intros [= <- <-]].
  intros [= <- <-]. destruct (tombstone sl); [|done]. apply (wire_frame s1); [done|apply loop_frame_remove|]. left.
  unfold remove_call in *. by destruct (calls s1 !! _).
Qed.
Lemma wire_pc s p : wire_ok s → (∀ h, rejecting h p = false) → wire_ok (set_pc p s).
Proof. intros Hok Hp. apply (wire_loop s); [done|apply loop_frame_pc|done]. Qed.
Lemma wire_select b s s' : wire_ok s → exec_select b s = Some s' → wire_ok s'.
Proof.
  intros Hok. destruct b as [|i| | |m|e]; simpl.
  - destruct (completions s) as [|[id h] rest]; [done|]. intros [= <-]. apply (wire_loop s); [done| |done].
    transitivity (set_completions rest s); [by apply loop_frame_same|]. etransitivity; [|apply loop_frame_pc].
    destruct (calls s !! id) as [sl|]; [|done]. destruct (_ && _); [apply loop_frame_remove|done].
  - destruct (finish_control_task i s) as [[res s1]|] eqn:Hf; [|done]. cbn [mbind option_bind]. intros [= <-].
    apply finish_control_wire in Hf; [|done]. destruct res; [by apply wire_pc|by apply wire_end_with].
  - destruct (closed s); [|done]. intros [= <-]. by apply wire_end_with.
  - destruct (any_ending s); [|done]. intros [= <-]. apply (wire_loop s); [done|by apply loop_frame_same|done].
  - intros [= <-]. by apply wire_message.
  - intros [= <-]. by apply wire_end_with.
Qed.
Lemma wire_start h op s s' : wire_ok s → start_op h op s = Some s' → wire_ok s'.
Proof.
  intros Hok. unfold start_op. destruct (cells s !! h) as [c|] eqn:Hc; [|done]. cbn [mbind option_bind]. destruct (resp c); try done.
  destruct (op_message (c_id c) op) as [k m] eqn:Hm. intros [= <-]. eapply (wire_append s); try done; simpl.
  - by rewrite length_alter.
  - intros h'. by apply is_active_upd.
  - by eapply lookup_lt_Some.
  - unfold is_item. simpl. by destruct op; simplify_eq/=.
  - intros h'. unfold claims. simpl. by rewrite andb_false_r.
Qed.
Lemma wire_step ev s s' : wire_ok s → exec ev s = Some s' → wire_ok s'.
Proof.
  intros Hok. destruct ev as [|b| |i|body| |h op|h|h|i st]; simpl.
  - destruct (pc s); try done. intros [= <-]. apply wire_pc; [|done]. destruct (any_ending s); [|done].
    apply (wire_frame s); [done|by apply loop_frame_same|by left].
  - destruct (pc s); try done. by apply wire_select.
  - destruct (pc s); try done. intros [= <-]. by apply wire_deliver.
  - destruct (pc s); try done. destruct (finish_control_task i s) as [[res s1]|] eqn:Hf; [|done]. cbn [mbind option_bind]. intros [= <-].
    apply finish_control_wire in Hf; [|done]. destruct res; [done|by apply wire_end_with].
  - destruct (pc s) eqn:Hpc; try done. destruct (existsb _ _); [done|]. destruct (_ <=? _); intros [= <-]; [by apply wire_end_with|].
    eapply (wire_append s); try done; simpl.
    + apply (wo_reject _ Hok). rewrite Hpc. simpl. apply Nat.eqb_refl.
    + intros h'. unfold claims, is_item. simpl. rewrite Hpc. simpl. rewrite !andb_true_r. lia.
  - assert (wire_ok (set_pc RDropped (close s))) as Hd.
    { apply (wire_loop s); [done| |done]. transitivity (close s); [apply loop_frame_close|apply loop_frame_pc]. }
    by destruct (pc s); try done; intros [= <-].
  - by apply wire_start.
  - destruct (cells s !! h) as [c|]; [|done]. cbn [mbind option_bind]. destruct (queue c); [done|]. destruct (receiver c); [|done].
    intros [= <-]. by apply wire_cells.
  - destruct (cells s !! h) as [c|]; [|done]. cbn [mbind option_bind]. destruct (receiver c); [|done]. intros [= <-]. by apply wire_cells.
  - by apply wire_writer.
Qed.
Lemma wire_init c : wire_ok (Conn_new c).
Proof.
  split; simpl; try done.
  - intros f Hf. by apply not_elem_of_nil in Hf.
  - intros a f b Heq. by destruct a.
  - intros a f b Heq. by destruct a.
Qed.
Lemma wire_reachable c s : reachable c s → wire_ok s.
Proof. revert s. apply conn_reachable_ind; [apply wire_init|]. intros ev s s'. apply wire_step. Qed.
