(* ===== verification/StreamSafety.v ===== *)
(** * StreamSafety: what a byte-stream connection promises

    Theorems about every interleaving of [StreamConn]: the bounds on what a peer can
    make the server hold, the one terminal frame of a call, the integrity of the
    byte stream; and two interleavings the code probably does not intend. *)
From S2P Require Import Prelude WireStatus WireFrame StreamConn StreamTable StreamWire.

(** ** Every event keeps the configuration, and extends the byte stream *)

Lemma finish_control_frame i s res s' :
  finish_control_task i s = Some (res, s') → config s' = config s ∧ out s' = out s.
Proof.
  unfold finish_control_task. destruct (writers s !! i) as [w|]; [|done]. cbn [mbind option_bind].
  destruct (finished_control w) as [r|]; [|done]. cbn [mbind option_bind]. set (s1 := set_writers _ s).
  destruct r as [|e]; [|by intros [= <- <-]]. destruct (calls s1 !! _) as [sl|]; [|by intros [= <- <-]].
  intros [= <- <-]. destruct (tombstone sl); [|done]. destruct (remove_frame (msg_id (w_msg w)) s1) as (Hc & _ & _ & _ & Ho & _). by rewrite Hc, Ho.
Qed.
Lemma exec_writer_out i st s s' : exec_writer i st s = Some s' → ∃ new, out s' = out s ++ new.
Proof.
  unfold exec_writer, with_pc, poison, drop_resp. destruct (writers s !! i) as [w|]; [|done]. cbn [mbind option_bind].
  intros H. repeat (case_match; simplify_eq/=; try done).
  all: try (exists []; by rewrite app_nil_r). all: by eexists.
Qed.
Definition extends (s s' : Conn) : Prop := config s' = config s ∧ ∃ new, out s' = out s ++ new.
Lemma extends_same s s' : config s' = config s → out s' = out s → extends s s'.
Proof. intros Hc Ho. split; [done|]. exists []. by rewrite app_nil_r. Qed.
Lemma extends_frame s s' : loop_frame s s' → extends s s'.
Proof. intros Hlf. apply extends_same; [apply Hlf|apply Hlf]. Qed.
#[export] Instance extends_trans : Transitive extends.
Proof. intros s1 s2 s3 [E1 [n1 H1]] [E2 [n2 H2]]. split; [congruence|]. exists (n1 ++ n2). by rewrite H2, H1, app_assoc. Qed.
Lemma extends_join (res : result unit TransportError) s1 : extends s1 (match res with Ok _ => s1 | Err e => end_with (Err e) s1 end).
Proof. destruct res; [by apply extends_same|apply extends_frame, loop_frame_end_with]. Qed.
Lemma select_extends b s s' : exec_select b s = Some s' → extends s s'.
Proof.
  destruct b as [|i| | |m|e]; simpl.
  - destruct (completions s) as [|[id h] rest]; [done|]. intros [= <-]. apply extends_frame.
    transitivity (set_completions rest s); [by apply loop_frame_same|]. etransitivity; [|apply loop_frame_pc].
    destruct (calls s !! id) as [sl|]; [|done]. destruct (_ && _); [apply loop_frame_remove|done].
  - destruct (finish_control_task i s) as [[res s1]|] eqn:Hf; [|done]. cbn [mbind option_bind]. intros [= <-].
    apply finish_control_frame in Hf as [Hc Ho]. transitivity s1; [by apply extends_same|].
    destruct res; [by apply extends_same|apply extends_frame, loop_frame_end_with].
  - destruct (closed s); [|done]. intros [= <-]. apply extends_frame, loop_frame_end_with.
  - destruct (any_ending s); [|done]. intros [= <-]. by apply extends_same.
  - intros [= <-]. apply extends_frame, loop_frame_message.
  - intros [= <-]. apply extends_frame, loop_frame_end_with.
Qed.
Lemma exec_extends ev s s' : exec ev s = Some s' → extends s s'.
Proof.
  destruct ev as [|b| |i|body| |h op|h|h|i st]; simpl.
  - destruct (pc s); try done. intros [= <-]. destruct (any_ending s); by apply extends_same.
  - destruct (pc s); try done. apply select_extends.
  - destruct (pc s); try done. intros [= <-]. apply extends_frame, loop_frame_deliver.
  - destruct (pc s); try done. destruct (finish_control_task i s) as [[res s1]|] eqn:Hf; [|done]. cbn [mbind option_bind]. intros [= <-].
    apply finish_control_frame in Hf as [Hc Ho]. transitivity s1; [by apply extends_same|apply extends_join].
  - destruct (pc s); try done. destruct (existsb _ _); [done|]. destruct (_ <=? _); intros [= <-]; [apply extends_frame, loop_frame_end_with|by apply extends_same].
  - destruct (pc s); try done; intros [= <-]; by apply extends_same.
  - unfold start_op. destruct (cells s !! h) as [c|]; [|done]. cbn [mbind option_bind]. destruct (resp c); try done.
    destruct (op_message (c_id c) op) as [k m]. intros [= <-]. by apply extends_same.
  - destruct (cells s !! h) as [c|]; [|done]. cbn [mbind option_bind]. destruct (queue c); [done|]. destruct (receiver c); [|done].
    intros [= <-]. by apply extends_same.
  - destruct (cells s !! h) as [c|]; [|done]. cbn [mbind option_bind]. destruct (receiver c); [|done]. intros [= <-]. by apply extends_same.
  - intros Hw. pose proof (exec_writer_out _ _ _ _ Hw). by apply exec_writer_frame in Hw as (? & _).
Qed.
Lemma exec_all_extends evs s s' : exec_all evs s = Some s' → extends s s'.
Proof.
  revert s. induction evs as [|ev evs IH]; intros s; simpl; [intros [= <-]; by apply extends_same|].
  destruct (exec ev s) as [s1|] eqn:Hev; [|done]. simpl. intros Hs. transitivity s1; [by eapply exec_extends|by apply IH].
Qed.
Lemma reachable_then c s evs s' : reachable c s → exec_all evs s = Some s' → reachable c s'.
Proof. intros [evs0 H0] Hs. exists (evs0 ++ evs). by rewrite conn_exec_all_app, H0. Qed.

(** ** Bounds *)

Lemma table_init c : config_ok c → table_ok (Conn_new c).
Proof. intros (? & ? & ?). split; simpl; try done; rewrite ?map_size_empty; lia. Qed.
Lemma table_reachable c s : config_ok c → reachable c s → config s = c ∧ table_ok s.
Proof.
  intros Hc. revert s. apply conn_reachable_ind; [split; [done|by apply table_init]|]. intros ev s s' [Hcfg Hok] Hev.
  split; [|eapply table_step; [by rewrite Hcfg|done..]]. by destruct (exec_extends _ _ _ Hev) as [-> _].
Qed.
(** Every configuration that can be built is one. *)
Lemma StreamConfig_new_ok f n t c : 0 < max_frame_len f → StreamConfig_new f n t = Some c → config_ok c.
Proof.
  unfold StreamConfig_new. intros Hf. destruct (_ && _) eqn:E; [|done]. apply andb_prop in E as [E%Z.ltb_lt _]. intros [= <-]. split; simpl; lia.
Qed.
Lemma with_inbound_byte_limits_ok c a b c' : config_ok c → with_inbound_byte_limits c a b = Some c' → config_ok c'.
Proof.
  unfold with_inbound_byte_limits. intros (? & _). destruct (_ && _) eqn:E; [|done]. apply andb_prop in E as [E1%Z.ltb_lt E2%Z.leb_le].
  intros [= <-]. split; simpl; lia.
Qed.
(** The bytes in the channel of an open call. *)
Definition queued_bytes (s : Conn) (sl : CallSlot) : Z :=
  match cells s !! handle sl with Some c => if inbound sl then sum_sizes (blen <$> queue c) else 0 | None => 0 end.
Lemma queued_bytes_le s i sl : table_ok s → calls s !! i = Some sl → queued_bytes s sl ≤ inbound_bytes sl.
Proof.
  intros Hok Hi. pose proof (slot_bytes_nonneg _ _ (to_slots _ Hok i sl Hi)).
  destruct (to_cells _ Hok i sl Hi) as (c & Hc & _ & Hcov). destruct (to_slots _ Hok i sl Hi) as [Hb Hs _ _]. unfold queued_bytes. rewrite Hc.
  destruct (inbound sl); [|lia]. destruct (Hcov eq_refl) as [pre Hpre]. rewrite Hb, Hpre, sum_sizes_app.
  rewrite Hpre in Hs. apply Forall_app in Hs as [Hs _]. pose proof (sum_sizes_nonneg _ Hs). lia.
Qed.

(** C2: Whatever the peer sends and however the tasks interleave, the items that wait for
    the calls in the table take at most the configured bytes, per call and on the
    connection, and the table holds at most the configured number of calls. The channel
    of any call, cancelled or ended ones included, holds at most 32 items and the bytes
    of one call; what cancelled calls hold is not counted on the connection. *)
Theorem inbound_within_limits c s :
  config_ok c → reachable c s →
  total (queued_bytes s) (calls s) ≤ max_inbound_bytes_per_connection c ∧
  (∀ i sl, calls s !! i = Some sl → queued_bytes s sl ≤ max_inbound_bytes_per_call c) ∧
  Z.of_nat (size (calls s)) ≤ max_in_flight_calls c ∧
  (∀ h cell, cells s !! h = Some cell →
     (length (queue cell) ≤ INBOUND_BUFFER)%nat ∧ sum_sizes (blen <$> queue cell) ≤ max_inbound_bytes_per_call c).
Proof.
  intros Hc Hr. destruct (table_reachable c s Hc Hr) as [<- Hok]. split; [|split; [|split; [apply Hok|apply (to_queues _ Hok)]]].
  - assert (total (queued_bytes s) (calls s) ≤ total inbound_bytes (calls s)) as Hle.
    { apply total_le. intros i sl. by apply queued_bytes_le. }
    rewrite <- (to_total _ Hok) in Hle. pose proof (to_limit _ Hok). lia.
  - intros i sl Hi. pose proof (queued_bytes_le _ _ _ Hok Hi). pose proof (so_limit _ _ (to_slots _ Hok i sl Hi)). lia.
Qed.

(** ** The byte stream *)

(** No frame of a call follows its terminal one. *)
Definition silent_after_terminal (o : list Sent) : Prop :=
  ∀ a f b, o = a ++ f :: b → is_terminal (sent_msg f) = true → ∀ g, g ∈ b → sent_handle g ≠ sent_handle f.
(** C8: A call's terminal frame is sent at most once, whoever races for it (the handler's
    response, the end or the error of its sink, an overflow rejection), and no other
    frame of that call follows it. *)
Theorem one_terminal_frame c s :
  reachable c s →
  (∀ h, count (ends h) (out s) ≤ 1) ∧
  silent_after_terminal (out s).
Proof.
  intros Hr. pose proof (wire_reachable _ _ Hr) as Hok. split; [|exact (wo_order _ Hok)]. intros h.
  pose proof (wo_terminals _ Hok h) as Ht. unfold terminals in Ht. pose proof (count_nonneg (claims h) (writers s)).
  pose proof (b2z_bounds (rejecting h (pc s))). destruct (is_active h s); lia.
Qed.
(** A frame that was left unfinished closes the connection and is the last thing on
    the stream for good: no frame is ever written into the middle of another. *)
Theorem fragment_is_last c s a f b :
  reachable c s → out s = a ++ f :: b → whole f = false →
  b = [] ∧ closed s = true ∧ ∀ evs s', exec_all evs s = Some s' → out s' = out s.
Proof.
  intros Hr Heq Hw. destruct (wo_whole _ (wire_reachable _ _ Hr) a f b Heq Hw) as (-> & Hcl & _). split; [done|]. split; [done|].
  intros evs s' Hs. destruct (exec_all_extends _ _ _ Hs) as [_ [new Hnew]].
  assert (out s' = a ++ f :: new) as Heq' by (rewrite Hnew, Heq; by rewrite <- app_assoc).
  destruct (wo_whole _ (wire_reachable _ _ (reachable_then _ _ _ _ Hr Hs)) _ _ _ Heq' Hw) as (-> & _). by rewrite Heq', Heq.
Qed.

(** ** Concrete runs *)

Definition small : StreamConfig := mkStreamConfig (mkFrameConfig 8 1) 2 1 4 4.
Definition four : bytes := repeat Byte.x00 4.
Definition call_of (id : CallId) (streaming : bool) : Event := ESelect (BMessage (MRequest (mkRequest id "svc/rpc" [] streaming))).
Definition item_of (id : CallId) (payload : bytes) : list Event := [ETop; ESelect (BMessage (MStreamItem id payload)); EDeliver].
(** Every step of the [i]-th writer up to its completion report. *)
Definition writes (i : nat) : list Event := repeat (EWriter i WNext) 5.
(** A streaming call whose peer exceeds its byte budget while the handler responds:
    the handler wins, then sends; the control frame is not sent. *)
Definition overflow_run : list Event :=
  [ETop; call_of 7 true] ++ item_of 7 four ++ item_of 7 four ++ [ESpawn []] ++ repeat (EWriter 0 WNext) 4.
Definition overflow_state : Conn := default (Conn_new small) (exec_all overflow_run (Conn_new small)).
Lemma small_ok : config_ok small.
Proof. by split. Qed.
Lemma overflow_reachable : reachable small overflow_state.
Proof. exists overflow_run. by vm_compute. Qed.

Lemma inbound_within_limits_witness : total (queued_bytes overflow_state) (calls overflow_state) ≤ 4.
Proof. exact (proj1 (inbound_within_limits small overflow_state small_ok overflow_reachable)). Defined.
Lemma one_terminal_frame_witness : out overflow_state = [mkSent 0 (overflow_error 7 []) true] ∧ count (ends 0) (out overflow_state) ≤ 1.
Proof. split; [by vm_compute|]. exact (proj1 (one_terminal_frame small overflow_state overflow_reachable) 0%nat). Defined.

(** A response cut by a reset of the socket. *)
Definition cut_run : list Event :=
  [ETop; call_of 7 false; EStart 0 (HRespond (CallOk four))] ++ repeat (EWriter 0 WNext) 4 ++ [EWriter 0 (WFails (Io ConnectionReset))].
Definition cut_state : Conn := default (Conn_new small) (exec_all cut_run (Conn_new small)).
Lemma cut_reachable : reachable small cut_state.
Proof. exists cut_run. by vm_compute. Qed.
Lemma fragment_is_last_witness : closed cut_state = true.
Proof.
  apply (fragment_is_last small cut_state [] (mkSent 0 (MResponse (WireResponse_new 7 (CallOk four))) false) []);
    [exact cut_reachable|by vm_compute|done].
Defined.

(** A peer that has read the whole response of a call may use its id again. The read
    loop can meet the new request before the writer has reported the completion of
    the old call, and then closes the connection for a duplicate id. *)
Theorem id_reuse_closes :
  ∃ s s', reachable small s ∧ out s = [mkSent 0 (MResponse (WireResponse_new 7 (CallOk []))) true] ∧
          exec (call_of 7 false) s = Some s' ∧ pc s' = REnded (Err (DuplicateCallId 7)) ∧ closed s' = true.
Proof.
  pose (evs := [ETop; call_of 7 false; EStart 0 (HRespond (CallOk []))] ++ writes 0 ++ [ETop]).
  pose (s := default (Conn_new small) (exec_all evs (Conn_new small))).
  exists s, (default s (exec (call_of 7 false) s)). split; [exists evs; by vm_compute|]. by vm_compute.
Qed.
(** A cancelled call leaves the table with its bytes, but its channel is read until
    the handler drops it: the items held for handlers can exceed the limit of the
    connection. *)
Theorem cancelled_bytes_unaccounted :
  ∃ s, reachable small s ∧ conn_bytes s ≤ max_inbound_bytes_per_connection small ∧
       foldr (λ c n, sum_sizes (blen <$> queue c) + n) 0 (cells s) = 2 * max_inbound_bytes_per_connection small.
Proof.
  pose (evs := [ETop; call_of 7 true] ++ item_of 7 four ++ [ETop; ESelect (BMessage (MStreamCancel 7)); ETop; call_of 8 true] ++ item_of 8 four).
  exists (default (Conn_new small) (exec_all evs (Conn_new small))). split; [exists evs; by vm_compute|]. split; [by vm_compute|by vm_compute].
Qed.
