(* ===== verification/RpcClient.v ===== *)
(** * RpcClient: the client side of the RPC protocol

    Models [crates/rpc/src/client.rs]. A transport has two tasks, the read loop that
    routes replies to the calls and the actor that owns the write half, joined by a
    bounded queue of frames; every call has a caller that opens it, a source it
    receives from and, for a streaming call, a sink. A call is a handle, an index
    into [kcalls].

    A step is one access to what tasks share (the table under its mutex, an atomic,
    a channel, the closed flag), so tasks interleave between any two of them. The
    flag and the token that [ConnectionState] sets one after the other count as one
    access. Three fields are not in the code: [accepted], the frames the queue took,
    and per call [k_arrived], the items its channel took, and [k_got], what its
    source returned. They are written, never read. *)
From S2P Require Import Prelude WireStatus WireFrame.

Definition REPLY_BUFFER : nat := 32.
Definition WRITE_BUFFER : nat := 32.
Definition REPLY_OVERFLOW_ERROR : string := "local RPC reply buffer exceeded".
Definition u64_max : Z := 2 ^ 64 - 1.

Inductive Reply :=
| ReplyResponse (o : WireOutcome)
| ReplyItem (body : bytes)
| ReplyEnd
| ReplyError (code : StatusCode) (body : bytes)
| ReplyOverflow.
Inductive ClientError :=
| Transport (e : TransportError)
| Encode (msg : string)
| Decode (msg : string)
| Remote (code : StatusCode) (body : bytes)
| ConnectionClosed.

(** ** State *)

(** [WriteCommand]; the frame of a message is what [serialize_frame] makes of it. An
    acknowledgement is an index into [acks], which repeats the message. *)
Inductive WriteCommand :=
| Data (m : WireMessage) (written : nat)
| Control (m : WireMessage).
Definition command_msg (c : WriteCommand) : WireMessage := match c with Data m _ | Control m => m end.
(** The one-shot channel [written]. *)
Inductive Ack := AckPending | AckSent (res : result unit TransportError) | AckDropped.

(** Where [Writer::write_frame] stands. *)
Inductive Submit :=
| SubCheck (m : WireMessage)
| SubQueue (m : WireMessage) (written : nat)
| SubAck (written : nat).
(** Where [RpcSource] stands: between calls, or at the terminal lane in [recv] or
    [poll_recv]. *)
Inductive Recv := RecvIdle | RecvTerminal | PollTerminal.
(** Where the caller stands: in [open], with a source, or in [Drop] of the guard or
    the source (the same three accesses and the two of [Writer::cancel]). *)
Inductive Owner :=
| OInsert (m : WireMessage)
| OCheck (m : WireMessage)
| OWrite (w : Submit)
| OSource (p : Recv)
| ORemove
| OSwap
| OCancel
| OCancelSend
| ODropped.
Record Call := mkCall {
  k_id : CallId;
  k_items : list bytes;
  k_lane : option Reply;   (* sent on the terminal lane *)
  k_active : bool;
  k_taken : bool;          (* the source's [terminal] is [None] *)
  k_owner : Owner;
  k_sink : option Submit;  (* the frame the sink is writing *)
  k_arrived : list bytes;
  k_got : list (option Reply);
}.
(** Where the read loop stands; [tx] is the call whose sender the loop has cloned. *)
Inductive Reader :=
| RdRun
| RdItem (id : CallId) (h : nat) (body : bytes)
| RdTake (id : CallId) (r : Reply) (tx : option nat)  (* in [complete_call] *)
| RdStore (h : nat) (r : Reply) (tx : option nat)
| RdSend (h : nat) (r : Reply) (tx : option nat)
| RdCancel (h : nat)
| RdCancelSend (h : nat) (m : WireMessage)
| RdRemove (id : CallId) (h : nat)
| RdClose
| RdClear
| RdDone.
(** Where the writer actor stands; the flag is whether it drains. *)
Inductive Actor := AIdle | AWriting (c : WriteCommand) (draining : bool) | ADrain | AEnd | ADone.
Record Client := mkClient {
  next_id : Z;
  table : gmap CallId nat;
  kcalls : list Call;
  queue : list WriteCommand;
  queue_open : bool;
  acks : list (WireMessage * Ack);
  is_closed : bool;       (* [closed]; its token is [shutdown] *)
  shutdown : bool;
  drain : bool;
  dropped : bool;         (* the last transport handle *)
  reader : Reader;
  actor : Actor;
  wire : list (WireMessage * bool);  (* frames on the stream, whole or cut *)
  accepted : list WireMessage;
}.
(** [StreamClientTransport::with_frame_config] *)
Definition Client_new : Client := mkClient 1 ∅ [] [] true [] false false false false RdRun AIdle [] [].

Definition set_table (t : gmap CallId nat) (s : Client) : Client :=
  mkClient (next_id s) t (kcalls s) (queue s) (queue_open s) (acks s) (is_closed s) (shutdown s) (drain s) (dropped s) (reader s) (actor s) (wire s) (accepted s).
Definition set_kcalls (l : list Call) (s : Client) : Client :=
  mkClient (next_id s) (table s) l (queue s) (queue_open s) (acks s) (is_closed s) (shutdown s) (drain s) (dropped s) (reader s) (actor s) (wire s) (accepted s).
Definition set_next_id (n : Z) (s : Client) : Client :=
  mkClient n (table s) (kcalls s) (queue s) (queue_open s) (acks s) (is_closed s) (shutdown s) (drain s) (dropped s) (reader s) (actor s) (wire s) (accepted s).
Definition set_queue (q : list WriteCommand) (b : bool) (s : Client) : Client :=
  mkClient (next_id s) (table s) (kcalls s) q b (acks s) (is_closed s) (shutdown s) (drain s) (dropped s) (reader s) (actor s) (wire s) (accepted s).
Definition set_acks (a : list (WireMessage * Ack)) (s : Client) : Client :=
  mkClient (next_id s) (table s) (kcalls s) (queue s) (queue_open s) a (is_closed s) (shutdown s) (drain s) (dropped s) (reader s) (actor s) (wire s) (accepted s).
(** [ConnectionState::close] and [start_drain] *)
Definition close (s : Client) : Client :=
  mkClient (next_id s) (table s) (kcalls s) (queue s) (queue_open s) (acks s) true true (drain s) (dropped s) (reader s) (actor s) (wire s) (accepted s).
Definition start_drain (s : Client) : Client :=
  mkClient (next_id s) (table s) (kcalls s) (queue s) (queue_open s) (acks s) true (shutdown s) true (dropped s) (reader s) (actor s) (wire s) (accepted s).
Definition set_reader (p : Reader) (s : Client) : Client :=
  mkClient (next_id s) (table s) (kcalls s) (queue s) (queue_open s) (acks s) (is_closed s) (shutdown s) (drain s) (dropped s) p (actor s) (wire s) (accepted s).
Definition set_actor (p : Actor) (s : Client) : Client :=
  mkClient (next_id s) (table s) (kcalls s) (queue s) (queue_open s) (acks s) (is_closed s) (shutdown s) (drain s) (dropped s) (reader s) p (wire s) (accepted s).
Definition set_dropped (s : Client) : Client :=
  mkClient (next_id s) (table s) (kcalls s) (queue s) (queue_open s) (acks s) (is_closed s) (shutdown s) (drain s) true (reader s) (actor s) (wire s) (accepted s).
(** The queue takes a frame. *)
Definition push (c : WriteCommand) (s : Client) : Client :=
  mkClient (next_id s) (table s) (kcalls s) (queue s ++ [c]) (queue_open s) (acks s) (is_closed s) (shutdown s) (drain s) (dropped s) (reader s) (actor s) (wire s) (accepted s ++ [command_msg c]).
Definition push_wire (f : WireMessage * bool) (s : Client) : Client :=
  mkClient (next_id s) (table s) (kcalls s) (queue s) (queue_open s) (acks s) (is_closed s) (shutdown s) (drain s) (dropped s) (reader s) (actor s) (wire s ++ [f]) (accepted s).
Definition upd_call (h : nat) (f : Call → Call) (s : Client) : Client := set_kcalls (alter f h (kcalls s)) s.

Definition set_owner (o : Owner) (k : Call) : Call := mkCall (k_id k) (k_items k) (k_lane k) (k_active k) (k_taken k) o (k_sink k) (k_arrived k) (k_got k).
Definition set_sink (w : option Submit) (k : Call) : Call := mkCall (k_id k) (k_items k) (k_lane k) (k_active k) (k_taken k) (k_owner k) w (k_arrived k) (k_got k).
Definition deactivate (k : Call) : Call := mkCall (k_id k) (k_items k) (k_lane k) false (k_taken k) (k_owner k) (k_sink k) (k_arrived k) (k_got k).
Definition set_lane (r : Reply) (k : Call) : Call := mkCall (k_id k) (k_items k) (Some r) (k_active k) (k_taken k) (k_owner k) (k_sink k) (k_arrived k) (k_got k).
Definition push_item (b : bytes) (k : Call) : Call := mkCall (k_id k) (k_items k ++ [b]) (k_lane k) (k_active k) (k_taken k) (k_owner k) (k_sink k) (k_arrived k ++ [b]) (k_got k).
Definition pop_item (q : list bytes) (b : bytes) (k : Call) : Call :=
  mkCall (k_id k) q (k_lane k) (k_active k) (k_taken k) (OSource RecvIdle) (k_sink k) (k_arrived k) (k_got k ++ [Some (ReplyItem b)]).
(** The source goes to the terminal lane, which [recv] takes first. *)
Definition at_terminal (p : Recv) (k : Call) : Call :=
  mkCall (k_id k) (k_items k) (k_lane k) (k_active k) (match p with RecvTerminal => true | _ => k_taken k end) (OSource p) (k_sink k) (k_arrived k) (k_got k).
Definition answer (r : option Reply) (k : Call) : Call :=
  mkCall (k_id k) (k_items k) (k_lane k) (k_active k) true (OSource RecvIdle) (k_sink k) (k_arrived k) (k_got k ++ [r]).

(** ** Channels *)

(** A sender of the items of [h] lives: in the table or in the loop's hands. *)
Definition reader_sender (h : nat) (p : Reader) : bool :=
  match p with
  | RdItem _ h' _ | RdCancel h' | RdCancelSend h' _ | RdRemove _ h' => (h' =? h)%nat
  | RdTake _ _ tx => bool_decide (tx = Some h)
  | RdStore h' _ tx | RdSend h' _ tx => (h' =? h)%nat || bool_decide (tx = Some h)
  | _ => false
  end.
Definition in_table (h : nat) (s : Client) : bool := existsb (λ p, (p.2 =? h)%nat) (map_to_list (table s)).
Definition sender_alive (h : nat) (s : Client) : bool := in_table h s || reader_sender h (reader s).
(** The sender of the terminal lane of [h] lives. *)
Definition terminal_alive (h : nat) (s : Client) : bool :=
  in_table h s || match reader s with RdStore h' _ _ | RdSend h' _ _ => (h' =? h)%nat | _ => false end.

(** Senders that wait for room in the queue. The semaphore may already hold a permit
    for one of them, so [try_send] can fail before the queue is full. *)
Definition waits (k : Call) : nat :=
  (match k_owner k with OWrite (SubQueue _ _) => 1 | _ => 0 end + match k_sink k with Some (SubQueue _ _) => 1 | _ => 0 end)%nat.
Definition waiting (s : Client) : nat := list_sum (waits <$> kcalls s).
Definition has_room (s : Client) : bool := queue_open s && (length (queue s) <? WRITE_BUFFER)%nat.
Definition may_be_full (s : Client) : bool := negb (queue_open s) || (WRITE_BUFFER <=? length (queue s) + waiting s)%nat.

(** ** Writing a frame: [Writer::write_frame], one access *)

Inductive Submitted := StillAt (w : Submit) | Finished (res : result unit ClientError).
Definition exec_submit (w : Submit) (s : Client) : option (Submitted * Client) :=
  match w with
  | SubCheck m =>
      Some (if is_closed s then (Finished (Err ConnectionClosed), s)
            else (StillAt (SubQueue m (length (acks s))), set_acks (acks s ++ [(m, AckPending)]) s))
  | SubQueue m n =>
      if negb (queue_open s) then Some (Finished (Err ConnectionClosed), s)
      else if has_room s then Some (StillAt (SubAck n), push (Data m n) s) else None
  | SubAck n =>
      match acks s !! n with
      | Some (_, AckSent res) => Some (Finished (map_err Transport res), s)
      | Some (_, AckDropped) => Some (Finished (Err ConnectionClosed), s)
      | _ => None
      end
  end.
(** A task that waits there can be dropped. *)
Definition awaits (w : Submit) : bool := match w with SubCheck _ => false | _ => true end.

Section Steps.
(** [serialize_frame]; only whether it fails matters here. *)
Context (serialize : WireMessage → result bytes TransportError).

(** ** Callers *)

(** [open] up to the registration: the first look at the flag, the id, the frames. *)
Definition open_call (path : string) (streaming : bool) (payload : bytes) (s : Client) : Client :=
  if is_closed s then s
  else
    let id := next_id s in
    let s := set_next_id (if id =? u64_max then 0 else id + 1) s in
    let request := MRequest (mkRequest id path payload streaming) in
    match serialize request, serialize (MStreamCancel id) with
    | Ok _, Ok _ => set_kcalls (kcalls s ++ [mkCall id [] None true false (OInsert request) None [] []]) s
    | _, _ => s
    end.
(** [open] after the registration, and the two [Drop]s. *)
Definition exec_owner (h : nat) (full : bool) (s : Client) : option Client :=
  k ← kcalls s !! h;
  let goto o s := upd_call h (set_owner o) s in
  match k_owner k with
  | OInsert m => Some (goto (OCheck m) (set_table (<[k_id k := h]> (table s)) s))
  | OCheck m => Some (goto (if is_closed s then ORemove else OWrite (SubCheck m)) s)
  | OWrite w =>
      '(r, s) ← exec_submit w s;
      Some (goto (match r with StillAt w => OWrite w | Finished (Ok _) => OSource RecvIdle | Finished (Err _) => ORemove end) s)
  | ORemove => Some (goto OSwap (set_table (delete (k_id k) (table s)) s))
  | OSwap => Some (goto (if k_active k then OCancel else ODropped) (upd_call h deactivate s))
  | OCancel => Some (goto (if is_closed s then ODropped else OCancelSend) s)
  | OCancelSend =>
      if full then (if may_be_full s then Some (goto ODropped (close s)) else None)
      else if has_room s then Some (goto ODropped (push (Control (MStreamCancel (k_id k))) s)) else None
  | OSource _ | ODropped => None
  end.
(** The future of [open], or the source, is dropped. *)
Definition drop_owner (h : nat) (s : Client) : option Client :=
  k ← kcalls s !! h;
  match k_owner k with
  | OWrite w => if awaits w then Some (upd_call h (set_owner ORemove) s) else None
  | OSource _ => Some (upd_call h (set_owner ORemove) s)
  | _ => None
  end.

(** [RpcSource::recv] and [poll_recv]: an access to the items, then one to the
    terminal lane. [None] where the future stays pending. *)
Definition exec_recv (poll : bool) (h : nat) (s : Client) : option Client :=
  k ← kcalls s !! h;
  match k_owner k with
  | OSource RecvIdle =>
      match k_items k with
      | b :: q => Some (upd_call h (pop_item q b) s)
      | [] =>
          if negb poll && sender_alive h s then None
          else if k_taken k then Some (upd_call h (answer None) s)
          else Some (upd_call h (at_terminal (if poll then PollTerminal else RecvTerminal)) s)
      end
  | OSource p =>
      match k_lane k with
      | Some r => Some (upd_call h (answer (Some r)) s)
      | None =>
          if terminal_alive h s then
            match p with PollTerminal => Some (upd_call h (set_owner (OSource RecvIdle)) s) | _ => None end
          else Some (upd_call h (answer None) s)
      end
  | _ => None
  end.

(** [RpcSink::send] and [finish]: [Writer::write_message] serializes first. *)
Definition sink_start (h : nat) (item : option bytes) (s : Client) : option Client :=
  k ← kcalls s !! h;
  match k_owner k, k_sink k with
  | (OInsert _ | OCheck _ | OWrite _), _ | _, Some _ => None
  | _, None =>
      let m := match item with Some b => MStreamItem (k_id k) b | None => MStreamEnd (k_id k) end in
      Some (match serialize m with Ok _ => upd_call h (set_sink (Some (SubCheck m))) s | Err _ => s end)
  end.
Definition exec_sink (h : nat) (s : Client) : option Client :=
  k ← kcalls s !! h;
  w ← k_sink k;
  '(r, s) ← exec_submit w s;
  Some (upd_call h (set_sink (match r with StillAt w => Some w | Finished _ => None end)) s).
Definition drop_sink (h : nat) (s : Client) : option Client :=
  k ← kcalls s !! h;
  w ← k_sink k;
  if awaits w then Some (upd_call h (set_sink None) s) else None.

(** ** The read loop *)

(** A message, or why the loop ends. *)
Definition on_message (m : WireMessage) (s : Client) : Client :=
  set_reader
    match m with
    | MResponse r => RdTake (resp_id r) (ReplyResponse (outcome r)) None
    | MStreamItem id body => match table s !! id with Some h => RdItem id h body | None => RdRun end
    | MStreamEnd id => RdTake id ReplyEnd None
    | MStreamError id code body => RdTake id (ReplyError code body) None
    | MRequest _ | MStreamCancel _ => RdClose
    end s.
(** The rest of an iteration: [try_send] of an item, [complete_call] (take the route,
    clear the flag, send the reply), [cancel_overflowed_call]; and the end. *)
Definition exec_reader (full : bool) (s : Client) : option Client :=
  match reader s with
  | RdItem id h body =>
      k ← kcalls s !! h;
      Some (match k_owner k with
            | ODropped => set_reader (RdRemove id h) s
            | _ =>
                if (length (k_items k) <? REPLY_BUFFER)%nat then set_reader RdRun (upd_call h (push_item body) s)
                else set_reader (RdTake id ReplyOverflow (Some h)) s
            end)
  | RdTake id r tx =>
      Some (match table s !! id with
            | Some h => set_reader (RdStore h r tx) (set_table (delete id (table s)) s)
            | None => set_reader RdRun s
            end)
  | RdStore h r tx => Some (set_reader (RdSend h r tx) (upd_call h deactivate s))
  | RdSend h r tx => Some (set_reader (match tx with Some _ => RdCancel h | None => RdRun end) (upd_call h (set_lane r) s))
  | RdCancel h =>
      k ← kcalls s !! h;
      Some (match serialize (MStreamCancel (k_id k)) with
            | Ok _ => set_reader (if is_closed s then RdRun else RdCancelSend h (MStreamCancel (k_id k))) s
            | Err _ => set_reader RdRun (close s)
            end)
  | RdCancelSend h m =>
      if full then (if may_be_full s then Some (set_reader RdRun (close s)) else None)
      else if has_room s then Some (set_reader RdRun (push (Control m) s)) else None
  | RdRemove id h => Some (set_reader RdRun (set_table (delete id (table s)) s))
  | RdClose => Some (set_reader RdClear (close s))
  | RdClear => Some (set_reader RdDone (set_table ∅ s))
  | RdRun | RdDone => None
  end.

(** ** The writer actor

    The [else] branches of its two [select!]s are not steps: they run when every other
    branch is disabled, and the branch that waits for the token never is. *)

Inductive ActorStep :=
| AcNext                   (* it goes on: takes a command, finishes a frame *)
| AcShutdown               (* the shutdown token is seen *)
| AcDrain                  (* the drain token is seen *)
| AcFails (k : IoKind)     (* the socket fails *)
| AcAbort.                 (* the watchdog's deadline *)
Definition acknowledge (c : WriteCommand) (a : Ack) (s : Client) : Client :=
  match c with Data m n => set_acks (<[n := (m, a)]> (acks s)) s | Control _ => s end.
(** The receiver of the queue is dropped with what it holds. *)
Definition drop_queue (s : Client) : Client :=
  set_queue [] false (foldl (λ s c, acknowledge c AckDropped s) s (queue s)).
(** The task ends: [state.close()], then its queue is dropped. *)
Definition end_actor (s : Client) : Client := set_actor ADone (drop_queue (close s)).
Definition exec_actor (st : ActorStep) (s : Client) : option Client :=
  match actor s, st with
  | AIdle, AcNext | ADrain, AcNext =>
      match queue s with
      | c :: q => Some (set_actor (AWriting c (match actor s with ADrain => true | _ => false end)) (set_queue q (queue_open s) s))
      | [] => None
      end
  | AIdle, AcShutdown | ADrain, AcShutdown => if shutdown s then Some (set_actor AEnd s) else None
  | AIdle, AcDrain => if drain s then Some (set_actor ADrain (set_queue (queue s) false s)) else None
  | AWriting c d, AcNext =>
      Some (set_actor (if d then ADrain else AIdle) (acknowledge c (AckSent (Ok tt)) (push_wire (command_msg c, true) s)))
  | AWriting c d, AcShutdown =>
      if shutdown s then Some (set_actor AEnd (acknowledge c (AckSent (Err Closed)) (push_wire (command_msg c, false) s))) else None
  | AWriting c d, AcFails k => Some (set_actor AEnd (acknowledge c (AckSent (Err (Io k))) (push_wire (command_msg c, false) s)))
  | AEnd, AcNext => Some (end_actor s)
  | AWriting c d, AcAbort =>
      if dropped s then Some (end_actor (set_actor AEnd (acknowledge c AckDropped (push_wire (command_msg c, false) s)))) else None
  | (AIdle | ADrain | AEnd), AcAbort => if dropped s then Some (end_actor s) else None
  | _, _ => None
  end.

(** ** The life of a transport *)

Definition gone (k : Call) : bool := match k_owner k, k_sink k with ODropped, None => true | _, _ => false end.
(** [ClientTasks::drop]: sources and pumps hold a transport, so none is left. *)
Definition drop_transport (s : Client) : option Client :=
  if dropped s || negb (forallb gone (kcalls s)) then None else Some (set_table ∅ (start_drain (set_dropped s))).

Inductive Event :=
| EOpen (path : string) (streaming : bool) (payload : bytes)
| EOwner (h : nat) (full : bool)
| EDropOwner (h : nat)
| ERecv (h : nat)
| EPoll (h : nat)
| ESinkStart (h : nat) (item : option bytes)
| ESink (h : nat)
| EDropSink (h : nat)
| ERead (m : WireMessage)
| EReadEnds              (* a read error, a disconnect, or the token *)
| EReader (full : bool)
| EAborted               (* the read task, after the last handle is dropped *)
| EActor (st : ActorStep)
| EDropTransport.
Definition exec (ev : Event) (s : Client) : option Client :=
  match ev with
  | EOpen path streaming payload => if dropped s then None else Some (open_call path streaming payload s)
  | EOwner h full => exec_owner h full s
  | EDropOwner h => drop_owner h s
  | ERecv h => exec_recv false h s
  | EPoll h => exec_recv true h s
  | ESinkStart h item => if dropped s then None else sink_start h item s
  | ESink h => exec_sink h s
  | EDropSink h => drop_sink h s
  | ERead m => match reader s with RdRun => Some (on_message m s) | _ => None end
  | EReadEnds => match reader s with RdRun => Some (set_reader RdClose s) | _ => None end
  | EReader full => exec_reader full s
  | EAborted => match reader s with RdRun => if dropped s then Some (set_reader RdDone s) else None | _ => None end
  | EActor st => exec_actor st s
  | EDropTransport => drop_transport s
  end.
Fixpoint exec_all (evs : list Event) (s : Client) : option Client :=
  match evs with [] => Some s | ev :: evs' => s' ← exec ev s; exec_all evs' s' end.
Definition reachable (s : Client) : Prop := ∃ evs, exec_all evs Client_new = Some s.

Lemma client_exec_all_app a b s : exec_all (a ++ b) s = s' ← exec_all a s; exec_all b s'.
Proof. revert s. induction a as [|ev a IH]; intros s; simpl; [done|]. destruct (exec ev s); simpl; auto. Qed.
(** Rule induction over the events of a run, with the number of events. *)
Lemma run_ind (P : nat → Client → Prop) :
  P 0%nat Client_new → (∀ n ev s s', P n s → exec ev s = Some s' → P (S n) s') →
  ∀ evs s, exec_all evs Client_new = Some s → P (length evs) s.
Proof.
  intros H0 Hstep evs. induction evs as [|ev evs IH] using rev_ind; intros s; simpl; [by intros [= <-]|].
  rewrite client_exec_all_app, length_app, Nat.add_1_r. destruct (exec_all evs Client_new) as [s0|]; [|done]. simpl.
  destruct (exec ev s0) as [s1|] eqn:Hev; [|done]. simpl. intros [= <-]. eapply Hstep; [by apply IH|done].
Qed.
Lemma client_reachable_ind (P : Client → Prop) :
  P Client_new → (∀ ev s s', P s → exec ev s = Some s' → P s') → ∀ s, reachable s → P s.
Proof. intros H0 Hstep s [evs Hs]. apply (run_ind (λ _, P)) in Hs; [done..|]. intros n. apply Hstep. Qed.
End Steps.

(** ** Results of calls *)

Section Decode.
Context {Resp : Type} (decode : bytes → result Resp string).

Definition decode_unary (reply : option Reply) : result Resp ClientError :=
  match reply with
  | Some (ReplyResponse (WireOk body)) => map_err Decode (decode body)
  | Some (ReplyResponse (WireErr code body)) | Some (ReplyError code body) => Err (Remote code body)
  | None | Some ReplyEnd => Err ConnectionClosed
  | Some (ReplyItem _) => Err (Decode "unexpected stream item awaiting unary response")
  | Some ReplyOverflow => Err (Decode REPLY_OVERFLOW_ERROR)
  end.
Definition decode_item (reply : option Reply) : option (result Resp ClientError) :=
  match reply with
  | Some (ReplyItem body) => Some (map_err Decode (decode body))
  | Some (ReplyError code body) | Some (ReplyResponse (WireErr code body)) => Some (Err (Remote code body))
  | Some (ReplyResponse (WireOk _)) => Some (Err (Decode "unexpected unary response in stream"))
  | Some ReplyOverflow => Some (Err (Decode REPLY_OVERFLOW_ERROR))
  | None | Some ReplyEnd => None
  end.
End Decode.
