(* ===== verification/RpcClientInv.v ===== *)
(** * RpcClientInv: the invariant of the RPC client

    What every event of [RpcClient] keeps: the stream carries the accepted frames in
    order and is whole up to a last cut ([stream_ok]); an awaited acknowledgement
    exists and its frame is not lost ([calls_ok]); the table holds calls that are
    between registration and removal, and after the end of the read loop only those
    that are about to leave ([life_ok]). *)
From S2P Require Import Prelude WireStatus WireFrame RpcClient.

Section Safety.
Context (serialize : WireMessage → result bytes TransportError).
#[local] Abbreviation exec := (exec serialize).
#[local] Abbreviation exec_all := (exec_all serialize).
#[local] Abbreviation reachable := (reachable serialize).

(** ** The stream

    [frames] lists what was written, what is being written and what waits. *)
Definition writing (s : Client) : list WriteCommand := match actor s with AWriting c _ => [c] | _ => [] end.
Definition flight (s : Client) : list WriteCommand := writing s ++ queue s.
Definition frames (s : Client) : list WireMessage := (fst <$> wire s) ++ (command_msg <$> flight s).
Record stream_ok (s : Client) : Prop := {
  st_fifo : ∃ lost, accepted s = frames s ++ lost ∧ (actor s ≠ ADone → lost = []);
  st_whole a f b : wire s = a ++ (f, false) :: b → b = [] ∧ (actor s = AEnd ∨ actor s = ADone);
  st_done : actor s = ADone → queue s = [] ∧ queue_open s = false ∧ is_closed s = true;
  st_flight m n : Data m n ∈ flight s → ∃ a, acks s !! n = Some (m, a);
  st_acked n m : acks s !! n = Some (m, AckSent (Ok tt)) → (m, true) ∈ wire s;
}.
(** What a step may do to what a waiting caller relies on. *)
Record grows (s s' : Client) : Prop := {
  gr_acks n m a : acks s !! n = Some (m, a) →
    ∃ a', acks s' !! n = Some (m, a') ∧ (a' = AckPending → a = AckPending ∧ (Data m n ∈ flight s → Data m n ∈ flight s'));
  gr_wire f : f ∈ wire s → f ∈ wire s';
}.
#[local] Instance grows_refl : Reflexive grows.
Proof. intros s. split; [|done]. intros n m a Ha. by exists a. Qed.
#[local] Instance grows_trans : Transitive grows.
Proof.
  intros s1 s2 s3 [A1 W1] [A2 W2]. split; [|by auto]. intros n m a Ha.
  destruct (A1 n m a Ha) as (a1 & Ha1 & H1). destruct (A2 n m a1 Ha1) as (a2 & Ha2 & H2). exists a2. split; [done|]. intros Hp.
  destruct (H2 Hp) as [Hp1 Hf2]. destruct (H1 Hp1) as [Hp0 Hf1]. auto.
Qed.
Record same_stream (s s' : Client) : Prop := {
  ss_queue : queue s' = queue s;
  ss_open : queue_open s' = queue_open s;
  ss_acks : acks s' = acks s;
  ss_actor : actor s' = actor s;
  ss_wire : wire s' = wire s;
  ss_accepted : accepted s' = accepted s;
  ss_closed : is_closed s = true → is_closed s' = true;
}.
#[local] Instance same_stream_trans : Transitive same_stream.
Proof. intros s1 s2 s3 [] []. split; congruence || auto. Qed.
Lemma same_flight s s' : same_stream s s' → flight s' = flight s.
Proof. intros [Hq _ _ Ha _ _ _]. unfold flight, writing. by rewrite Hq, Ha. Qed.
Lemma stream_same s s' : stream_ok s → same_stream s s' → stream_ok s' ∧ grows s s'.
Proof.
  intros Hok Hs. pose proof (same_flight _ _ Hs) as Hf. destruct Hs as [Hq Ho Hk Ha Hw Hc Hcl]. split.
  - split; unfold frames; rewrite ?Hf, ?Hq, ?Ho, ?Hk, ?Ha, ?Hw, ?Hc; try apply Hok. intros Hd. destruct (st_done _ Hok Hd) as (? & ? & ?). auto.
  - split; rewrite ?Hk, ?Hw, ?Hf; [|done]. intros n m a Hn. by exists a.
Qed.
(** The queue takes a frame. *)
Lemma stream_push s c :
  stream_ok s → has_room s = true → (∀ m n, c = Data m n → ∃ a, acks s !! n = Some (m, a)) → stream_ok (push c s) ∧ grows s (push c s).
Proof.
  intros Hok Hroom Hc. unfold has_room in Hroom. apply andb_prop in Hroom as [Hopen _].
  assert (actor s ≠ ADone) as Hlive by (intros Hd; destruct (st_done _ Hok Hd) as (_ & ? & _); congruence).
  assert (flight (push c s) = flight s ++ [c]) as Hf by (unfold flight; simpl; by rewrite app_assoc).
  split.
  - split; rewrite ?Hf; simpl; try apply Hok; try done.
    + exists []. split; [|done]. destruct (st_fifo _ Hok) as (lost & Heq & Hl). rewrite Hl, app_nil_r in Heq by done. rewrite app_nil_r.
      unfold frames. rewrite Hf. simpl. rewrite fmap_app. simpl. by rewrite app_assoc, Heq.
    + intros m n [Hin|Hin%list_elem_of_singleton]%elem_of_app; [by apply (st_flight _ Hok)|by apply Hc].
  - split; simpl; [|done]. intros n m a Hn. exists a. split; [done|]. intros Hp. split; [done|]. rewrite Hf. intros Hin. apply elem_of_app. by left.
Qed.
Lemma stream_new_ack s m : stream_ok s → let s' := set_acks (acks s ++ [(m, AckPending)]) s in stream_ok s' ∧ grows s s'.
Proof.
  intros Hok. simpl. split.
  - split; simpl; try apply Hok.
    + intros m' n Hin. destruct (st_flight _ Hok m' n Hin) as [a Ha]. exists a. by apply lookup_app_l_Some.
    + intros n m' [Hn|[_ Hn]]%lookup_app_Some; [by apply (st_acked _ Hok n)|]. by apply list_lookup_singleton_Some in Hn as [_ [= ]].
  - split; simpl; [|done]. intros n m' a Hn. exists a. split; [by apply lookup_app_l_Some|done].
Qed.

(** An acknowledgement is settled. *)
Definition ack_frame (s s' : Client) : Prop :=
  queue s' = queue s ∧ queue_open s' = queue_open s ∧ actor s' = actor s ∧ wire s' = wire s ∧ accepted s' = accepted s ∧
  is_closed s' = is_closed s ∧ kcalls s' = kcalls s ∧ table s' = table s ∧ reader s' = reader s ∧ dropped s' = dropped s ∧
  shutdown s' = shutdown s ∧ next_id s' = next_id s.
Definition settles (cs : list WriteCommand) (a : Ack) (s s' : Client) : Prop :=
  ∀ n m b, acks s !! n = Some (m, b) →
    acks s' !! n = Some (m, b) ∧ (∀ m', Data m' n ∉ cs) ∨ acks s' !! n = Some (m, a) ∧ Data m n ∈ cs.
Lemma acknowledge_frame c a s : ack_frame s (acknowledge c a s).
Proof. by destruct c. Qed.
Lemma acknowledge_settles c a s : (∀ m n, c = Data m n → ∃ b, acks s !! n = Some (m, b)) → settles [c] a s (acknowledge c a s).
Proof.
  intros Hc n m b Hn. destruct c as [m' n'|m']; simpl.
  - destruct (Hc m' n' eq_refl) as [b' Hb']. destruct (decide (n = n')) as [->|Hne].
    + right. assert (m' = m) as -> by congruence. rewrite list_lookup_insert_eq by by eapply lookup_lt_Some. split; [done|by left].
    + left. rewrite list_lookup_insert_ne by done. split; [done|]. intros m1 Hin%list_elem_of_singleton. congruence.
  - left. split; [done|]. intros m1 Hin%list_elem_of_singleton. done.
Qed.
Lemma drop_settles cs s :
  (∀ m n, Data m n ∈ cs → ∃ b, acks s !! n = Some (m, b)) →
  let s' := foldl (λ s c, acknowledge c AckDropped s) s cs in ack_frame s s' ∧ settles cs AckDropped s s'.
Proof.
  revert s. induction cs as [|c cs IH]; intros s Hcs; simpl.
  - split; [done|]. intros n m b Hn. left. split; [done|]. intros m'. apply not_elem_of_nil.
  - pose proof (acknowledge_frame c AckDropped s) as Hf.
    assert (settles [c] AckDropped s (acknowledge c AckDropped s)) as Hs.
    { apply acknowledge_settles. intros m n ->. apply Hcs. left. }
    destruct (IH (acknowledge c AckDropped s)) as [Hf2 Hs2].
    { intros m n Hin. destruct (Hcs m n) as [b Hb]; [by right|]. destruct (Hs n m b Hb) as [[? _]|[? _]]; by eexists. }
    split; [unfold ack_frame in *; intuition congruence|]. intros n m b Hn. destruct (Hs n m b Hn) as [[H1 H1']|[H1 H1']].
    + destruct (Hs2 n m b H1) as [[H2 H2']|[H2 H2']]; [left|right; split; [done|by right]]. split; [done|].
      intros m' [Hin|Hin]%elem_of_cons; [|by apply (H2' m')]. apply (H1' m'). rewrite Hin. left.
    + right. destruct (Hs2 n m _ H1) as [[H2 H2']|[H2 H2']]; (split; [done|]); [|by right]. apply list_elem_of_singleton in H1'. rewrite H1'. left.
Qed.
Lemma acknowledge_length cs s : length (acks (foldl (λ s c, acknowledge c AckDropped s) s cs)) = length (acks s).
Proof. revert s. induction cs as [|c cs IH]; intros s; simpl; [done|]. rewrite IH. destruct c; simpl; [by rewrite length_insert|done]. Qed.
Lemma no_fragment s a f b : stream_ok s → actor s ≠ AEnd → actor s ≠ ADone → wire s = a ++ (f, false) :: b → False.
Proof. intros Hok H1 H2 Hw. destruct (st_whole _ Hok _ _ _ Hw) as (_ & [?|?]); done. Qed.
(** The frame in hand is written, whole or cut. *)
Lemma stream_written s c d whole a next :
  stream_ok s → actor s = AWriting c d → (whole = false → next = AEnd) → match next with AIdle | ADrain | AEnd => True | _ => False end →
  a ≠ AckPending → (a = AckSent (Ok tt) → whole = true) →
  let s' := set_actor next (acknowledge c a (push_wire (command_msg c, whole) s)) in stream_ok s' ∧ grows s s'.
Proof.
  intros Hok Ha Hnext Hshape Hnp Hack s'. set (s1 := push_wire (command_msg c, whole) s) in *.
  assert (flight s = c :: queue s) as Hfl by (unfold flight, writing; by rewrite Ha).
  assert (∀ m n, c = Data m n → ∃ b, acks s1 !! n = Some (m, b)) as Hc.
  { intros m n ->. apply (st_flight _ Hok). rewrite Hfl. left. }
  pose proof (acknowledge_settles c a s1 Hc) as Hset. destruct (acknowledge_frame c a s1) as (Eq & Eo & _ & Ew & Eacc & Ecl & _).
  assert (flight s' = queue s) as Hf'.
  { unfold flight, writing, s'. simpl. rewrite Eq. by destruct next. }
  assert (∀ n m b, acks s !! n = Some (m, b) → acks s' !! n = Some (m, b) ∧ (∀ m', Data m' n ∉ [c]) ∨ acks s' !! n = Some (m, a) ∧ Data m n ∈ [c]) as Hset' by exact Hset.
  assert (∀ n m, acks s' !! n = Some (m, AckSent (Ok tt)) → acks s !! n = Some (m, AckSent (Ok tt)) ∨ a = AckSent (Ok tt) ∧ command_msg c = m) as Hback.
  { intros n m Hn. destruct c as [m' n'|m']; [|by left]. simpl in Hn. apply list_lookup_insert_Some in Hn as [(<- & [= -> ->] & _)|[_ Hn]]; [by right|by left]. }
  split.
  - split; unfold frames; rewrite ?Hf'; simpl; rewrite ?Ew, ?Eacc, ?Eq, ?Eo, ?Ecl; simpl.
    + exists []. split; [|done]. destruct (st_fifo _ Hok) as (lost & Heq & Hl). rewrite Hl, app_nil_r in Heq by by rewrite Ha. rewrite Heq, app_nil_r.
      unfold frames. rewrite Hfl. simpl. rewrite fmap_app. simpl. by rewrite <- app_assoc.
    + intros x f b Heq. apply app_eq_snoc_split in Heq as [(-> & [= -> <-] & _)|(b' & _ & Heq)]; [split; [done|left; by apply Hnext]|].
      exfalso. by apply (no_fragment s x f b' Hok); rewrite ?Ha.
    + intros ->. done.
    + intros m n Hin. destruct (st_flight _ Hok m n) as [b Hb]; [rewrite Hfl; by right|]. destruct (Hset' n m b Hb) as [[? _]|[? _]]; by eexists.
    + intros n m Hn. apply elem_of_app. destruct (Hback n m Hn) as [Hn'|[Hok' <-]]; [left; by apply (st_acked _ Hok n)|right].
      rewrite (Hack Hok'). by apply list_elem_of_singleton.
  - split.
    + intros n m b Hn. destruct (Hset' n m b Hn) as [[Hn' Hnin]|[Hn' _]]; [exists b|by exists a]. split; [done|]. intros ->. split; [done|].
      rewrite Hf', Hfl. intros [Hin|Hin]%elem_of_cons; [|done]. exfalso. apply (Hnin m). rewrite Hin. left.
    + simpl. rewrite Ew. simpl. intros f Hf. apply elem_of_app. by left.
Qed.
Lemma stream_end s : stream_ok s → writing s = [] → actor s ≠ ADone → let s' := end_actor s in stream_ok s' ∧ grows s s'.
Proof.
  intros Hok Hw Hlive. unfold end_actor, drop_queue. destruct (drop_settles (queue (close s)) (close s)) as [Hfr Hset].
  { intros m n Hin. apply (st_flight _ Hok). unfold flight. simpl in Hin. apply elem_of_app. by right. }
  set (s1 := foldl _ _ _) in *. destruct Hfr as (Eq & Eo & Ea & Ew & Eacc & Ecl & _). simpl in *.
  assert (flight s = queue s) as Hfl by (unfold flight; by rewrite Hw).
  assert (∀ n m, acks s1 !! n = Some (m, AckSent (Ok tt)) → acks s !! n = Some (m, AckSent (Ok tt))) as Hback.
  { intros n m Hn. assert (length (acks s1) = length (acks s)) as Hlen.
    { unfold s1. by rewrite acknowledge_length. }
    destruct (acks s !! n) as [[m' b]|] eqn:Hs.
    - destruct (Hset n m' b Hs) as [[H1 _]|[H1 _]]; congruence.
    - apply lookup_ge_None in Hs. apply lookup_lt_Some in Hn. lia. }
  split.
  - split; unfold frames, flight, writing; simpl; rewrite ?Ew, ?Eacc, ?Ecl.
    + exists (command_msg <$> queue s). rewrite app_nil_r. split; [|done]. destruct (st_fifo _ Hok) as (lost & Heq & Hl). unfold frames in Heq. rewrite Hfl in Heq.
      rewrite Heq, Hl by done. by rewrite app_nil_r.
    + intros a f b Heq. destruct (st_whole _ Hok _ _ _ Heq) as [? _]. split; [done|by right].
    + done.
    + intros m n Hin. by apply not_elem_of_nil in Hin.
    + intros n m Hn. apply (st_acked _ Hok n). by apply Hback.
  - split; simpl; [|by rewrite Ew]. intros n m a Hn. destruct (Hset n m a Hn) as [[H1 Hnin]|[H1 _]]; [exists a|by exists AckDropped].
    split; [done|]. intros ->. split; [done|]. rewrite Hfl. intros Hin. by destruct (Hnin m).
Qed.
(** The actor takes a command, or stops. *)
Lemma stream_moves s s' :
  stream_ok s → actor s ≠ AEnd → actor s ≠ ADone → actor s' ≠ ADone → flight s' = flight s → acks s' = acks s → wire s' = wire s → accepted s' = accepted s →
  stream_ok s' ∧ grows s s'.
Proof.
  intros Hok H1 H2 H3 Hf Hk Hw Hc. split.
  - split; unfold frames; rewrite ?Hf, ?Hk, ?Hw, ?Hc; try done; try apply Hok.
    + destruct (st_fifo _ Hok) as (lost & Heq & Hl). exists lost. split; [done|]. auto.
    + intros a f b Heq. by destruct (no_fragment s a f b Hok).
  - split; rewrite ?Hk, ?Hw, ?Hf; [|done]. intros n m a Hn. by exists a.
Qed.
Lemma stream_actor st s s' : stream_ok s → exec_actor st s = Some s' → stream_ok s' ∧ grows s s'.
Proof.
  intros Hok. destruct (actor s) as [|c d| | |] eqn:Ha; unfold exec_actor; rewrite Ha; destruct st; try done.
  all: try (destruct (queue s) as [|c' q] eqn:Hq; [done|]); try (destruct (shutdown s) eqn:Hsh; [|done]); try (destruct (drain s) eqn:Hdr; [|done]);
    try (destruct (dropped s) eqn:Hdp; [|done]); intros [= <-].
  all: try (apply stream_end; unfold writing; rewrite ?Ha; done).
  all: try (apply (stream_moves s); unfold flight, writing; simpl; rewrite ?Ha, ?Hq; done).
  1-3: apply (stream_written s c d); try done; by destruct d.
  destruct (stream_written s c d false AckDropped AEnd) as [H1 G1]; try done. destruct (stream_end _ H1) as [H2 G2]; [done..|].
  split; [done|]. etransitivity; [exact G1|exact G2].
Qed.
Lemma actor_frame st s s' :
  exec_actor st s = Some s' →
  kcalls s' = kcalls s ∧ table s' = table s ∧ reader s' = reader s ∧ dropped s' = dropped s ∧ next_id s' = next_id s ∧ (is_closed s = true → is_closed s' = true).
Proof.
  assert (∀ s, kcalls (end_actor s) = kcalls s ∧ table (end_actor s) = table s ∧ reader (end_actor s) = reader s ∧ dropped (end_actor s) = dropped s ∧
            next_id (end_actor s) = next_id s ∧ is_closed (end_actor s) = true) as He.
  { intros s0. unfold end_actor, drop_queue.
    assert (∀ cs s1, ack_frame s1 (foldl (λ s c, acknowledge c AckDropped s) s1 cs)) as Hd.
    { intros cs. induction cs as [|c cs IH]; intros s1; simpl; [done|]. pose proof (acknowledge_frame c AckDropped s1).
      specialize (IH (acknowledge c AckDropped s1)). unfold ack_frame in *. intuition congruence. }
    specialize (Hd (queue (close s0)) (close s0)). unfold ack_frame in Hd. simpl in *. intuition congruence. }
  unfold exec_actor. destruct (actor s) as [|c d| | |], st; try done.
  all: try (destruct (queue s) as [|c' q] eqn:Hq; [done|]); try (destruct (shutdown s); [|done]); try (destruct (drain s); [|done]);
    try (destruct (dropped s) eqn:Hdp; [|done]); intros [= <-]; rewrite <- ?Hdp; try done.
  all: try (destruct (He s) as (-> & -> & -> & -> & -> & ->); done). all: try by destruct c.
  match goal with |- context [end_actor ?x] => destruct (He x) as (-> & -> & -> & -> & -> & ->) end. by destruct c.
Qed.

(** ** Callers *)

Definition is_request (id : CallId) (m : WireMessage) : Prop := match m with MRequest r => req_id r = id | _ => False end.
(** A frame with [P] is on its way: an awaited acknowledgement exists, and while it
    is pending its frame has not been lost. *)
Definition sub_ok (s : Client) (P : WireMessage → Prop) (w : Submit) : Prop :=
  match w with
  | SubCheck m => P m
  | SubQueue m n => P m ∧ ∃ a, acks s !! n = Some (m, a)
  | SubAck n => ∃ m a, P m ∧ acks s !! n = Some (m, a) ∧ (a = AckPending → Data m n ∈ flight s)
  end.
Record call_ok (s : Client) (k : Call) : Prop := {
  co_owner : match k_owner k with
             | OInsert m | OCheck m => is_request (k_id k) m
             | OWrite w => sub_ok s (is_request (k_id k)) w
             | OSource _ => ∃ m, is_request (k_id k) m ∧ (m, true) ∈ wire s
             | _ => True
             end;
  co_sink w : k_sink k = Some w → sub_ok s (λ _, True) w;
}.
Definition calls_ok (s : Client) : Prop := ∀ h k, kcalls s !! h = Some k → call_ok s k.
Lemma sub_ok_grows s s' P w : grows s s' → sub_ok s P w → sub_ok s' P w.
Proof.
  intros [Ga _]. destruct w as [m|m n|n]; simpl; [done| |].
  - intros [Hm [a Ha]]. split; [done|]. destruct (Ga n m a Ha) as (a' & Ha' & _). by exists a'.
  - intros (m & a & Hm & Ha & Hf). destruct (Ga n m a Ha) as (a' & Ha' & Hp). exists m, a'. split; [done|]. split; [done|].
    intros E. destruct (Hp E) as [E' Hfl]. auto.
Qed.
Lemma call_ok_grows s s' k : grows s s' → call_ok s k → call_ok s' k.
Proof.
  intros G [Ho Hs]. split; [|intros w Hw; eapply sub_ok_grows; eauto]. destruct (k_owner k); try done; [by eapply sub_ok_grows|].
  destruct Ho as (m & ? & ?). exists m. split; [done|]. by apply (gr_wire _ _ G).
Qed.
Lemma calls_grow s s' : calls_ok s → grows s s' → kcalls s' = kcalls s → calls_ok s'.
Proof. intros Hok G E h k. rewrite E. intros Hk. eapply call_ok_grows; [done|by eapply Hok]. Qed.
Lemma calls_upd s s' h f :
  calls_ok s → grows s s' → kcalls s' = alter f h (kcalls s) → (∀ k, kcalls s !! h = Some k → call_ok s' k → call_ok s' (f k)) → calls_ok s'.
Proof.
  intros Hok G E Hf h' k. rewrite E. destruct (decide (h = h')) as [<-|Hne].
  - rewrite list_lookup_alter_eq. destruct (kcalls s !! h) as [k0|] eqn:Hk; [|done]. intros [= <-]. apply Hf; [done|].
    eapply call_ok_grows; [done|by eapply Hok].
  - rewrite list_lookup_alter_ne by done. intros Hk. eapply call_ok_grows; [done|by eapply Hok].
Qed.
Lemma exec_submit_frame w s r s1 :
  exec_submit w s = Some (r, s1) →
  kcalls s1 = kcalls s ∧ table s1 = table s ∧ reader s1 = reader s ∧ dropped s1 = dropped s ∧ next_id s1 = next_id s ∧ is_closed s1 = is_closed s.
Proof.
  destruct w as [m|m n|n]; simpl.
  - destruct (is_closed s) eqn:Hc; intros [= <- <-]; by rewrite <- ?Hc.
  - destruct (negb (queue_open s)); [by intros [= <- <-]|]. destruct (has_room s); [|done]. by intros [= <- <-].
  - destruct (acks s !! n) as [[m [|res|]]|]; try done; by intros [= <- <-].
Qed.
Lemma exec_submit_ok w s r s1 P :
  stream_ok s → sub_ok s P w → exec_submit w s = Some (r, s1) →
  stream_ok s1 ∧ grows s s1 ∧
  match r with StillAt w' => sub_ok s1 P w' | Finished (Ok _) => ∃ m, P m ∧ (m, true) ∈ wire s1 | Finished (Err _) => True end.
Proof.
  intros Hok Hw. destruct w as [m|m n|n]; simpl in *.
  - destruct (is_closed s); intros [= <- <-]; [split; [done|]; split; [done|done]|]. destruct (stream_new_ack s m Hok) as [H1 G1].
    split; [done|]. split; [done|]. simpl. split; [done|]. exists AckPending. by rewrite lookup_app_r, Nat.sub_diag.
  - destruct Hw as [Hm [a Ha]]. destruct (negb (queue_open s)); [by intros [= <- <-]|]. destruct (has_room s) eqn:Hr; [|done].
    intros [= <- <-]. destruct (stream_push s (Data m n) Hok Hr) as [H1 G1]; [intros ? ? [= <- <-]; by exists a|].
    split; [done|]. split; [done|]. exists m, a. split; [done|]. split; [done|]. intros _. unfold flight. simpl. rewrite app_assoc.
    apply elem_of_app. right. by apply list_elem_of_singleton.
  - destruct Hw as (m & a & Hm & Ha & Hf). rewrite Ha. destruct a as [|[[]|e]|]; try done; intros [= <- <-]; try (split; [done|]; split; done).
    split; [done|]. split; [done|]. exists m. split; [done|]. by apply (st_acked _ Hok n).
Qed.

(** ** The table and the end of a connection *)

(** Between the registration and its removal. *)
Definition registered (o : Owner) : bool := match o with OCheck _ | OWrite _ | OSource _ | ORemove => true | _ => false end.
(** About to look at the flag, or to leave the table. *)
Definition leaving (o : Owner) : bool := match o with OCheck _ | ORemove => true | _ => false end.
Definition ended (p : Reader) : bool := match p with RdClear | RdDone => true | _ => false end.
Record life_ok (s : Client) : Prop := {
  li_table id h : table s !! id = Some h → ∃ k, kcalls s !! h = Some k ∧ k_id k = id ∧ registered (k_owner k) = true;
  li_gone : dropped s = true → is_closed s = true ∧ ∀ h k, kcalls s !! h = Some k → gone k = true;
  li_closed : ended (reader s) = true → is_closed s = true;
  li_orphan id h k : reader s = RdDone → table s !! id = Some h → kcalls s !! h = Some k → leaving (k_owner k) = true;
}.
Lemma gone_unregistered k : gone k = true → registered (k_owner k) = false.
Proof. unfold gone. by destruct (k_owner k). Qed.
(** Steps that change calls only. *)
Lemma life_upd s s' h f :
  life_ok s → table s' = table s → reader s' = reader s → dropped s' = dropped s → (is_closed s = true → is_closed s' = true) →
  kcalls s' = alter f h (kcalls s) →
  (∀ k, kcalls s !! h = Some k →
     k_id (f k) = k_id k ∧ (registered (k_owner k) = true → registered (k_owner (f k)) = true) ∧ (dropped s = true → gone k = true → gone (f k) = true) ∧
     (reader s = RdDone → leaving (k_owner k) = true → leaving (k_owner (f k)) = true)) →
  life_ok s'.
Proof.
  intros [Ht Hg Hc Ho] Et Er Ed Ecl Ek Hf. split; rewrite ?Et, ?Er, ?Ed, ?Ek.
  - intros id h' Hid. destruct (Ht id h' Hid) as (k & Hk & Hkid & Hreg). destruct (decide (h = h')) as [<-|Hne].
    + exists (f k). rewrite list_lookup_alter_eq, Hk. destruct (Hf k Hk) as (H1 & H2 & _). split; [done|]. rewrite H1. auto.
    + exists k. by rewrite list_lookup_alter_ne by done.
  - intros Hd. destruct (Hg Hd) as [Hcl Hall]. split; [auto|]. intros h' k. destruct (decide (h = h')) as [<-|Hne].
    + rewrite list_lookup_alter_eq. destruct (kcalls s !! h) as [k0|] eqn:Hk; [|done]. intros [= <-]. apply (Hf k0 eq_refl); [done|]. by eapply Hall.
    + rewrite list_lookup_alter_ne by done. apply Hall.
  - auto.
  - intros id h' k Hrd Hid. destruct (decide (h = h')) as [<-|Hne].
    + rewrite list_lookup_alter_eq. destruct (kcalls s !! h) as [k0|] eqn:Hk; [|done]. intros [= <-]. apply (Hf k0 eq_refl); [done|]. by eapply Ho.
    + rewrite list_lookup_alter_ne by done. by apply (Ho id h').
Qed.
(** Steps that leave calls and table alone. *)
Lemma life_same s s' :
  life_ok s → table s' = table s → dropped s' = dropped s → kcalls s' = kcalls s → (is_closed s = true → is_closed s' = true) →
  (reader s' = reader s ∨ ended (reader s') = false) → life_ok s'.
Proof.
  intros [Ht Hg Hc Ho] Et Ed Ek Ecl Hr. split; rewrite ?Et, ?Ed, ?Ek; [done| | |].
  - intros Hd. destruct (Hg Hd). auto.
  - destruct Hr as [-> | ->]; [auto|done].
  - intros id h k. destruct Hr as [-> | Hr]; [apply Ho|]. intros E. by rewrite E in Hr.
Qed.
(** An entry leaves the table. *)
Lemma life_delete s id : life_ok s → life_ok (set_table (delete id (table s)) s).
Proof.
  intros [Ht Hg Hc Ho]. split; simpl; try done; [intros id' h' [_ Hid]%lookup_delete_Some; by apply Ht|].
  intros id' h' k Hr [_ Hid]%lookup_delete_Some. by eapply Ho.
Qed.
Lemma life_submit w s r s1 : life_ok s → exec_submit w s = Some (r, s1) → life_ok s1.
Proof. intros Hok (Hk & Ht & Hr & Hd & _ & Hc)%exec_submit_frame. apply (life_same s); try done; [by rewrite Hc|by left]. Qed.
Lemma goto_life s h o :
  life_ok s → (∀ k, kcalls s !! h = Some k → gone k = false ∧ (registered (k_owner k) = true → registered o = true) ∧
    (reader s = RdDone → leaving (k_owner k) = true → leaving o = true)) → life_ok (upd_call h (set_owner o) s).
Proof.
  intros Hok Ho. apply (life_upd s _ h (set_owner o)); try done. intros k Hk. destruct (Ho k Hk) as (H1 & H2 & H3). simpl.
  split; [done|]. split; [done|]. split; [by rewrite H1|done].
Qed.
Lemma goto_lookup s h o : kcalls (upd_call h (set_owner o) s) !! h = set_owner o <$> kcalls s !! h.
Proof. simpl. by rewrite list_lookup_alter_eq. Qed.

(** ** The invariant *)

Record inv (s : Client) : Prop := { in_stream : stream_ok s; in_calls : calls_ok s; in_life : life_ok s }.
Lemma inv_frame s s' : inv s → same_stream s s' → kcalls s' = kcalls s → life_ok s' → inv s'.
Proof. intros [Hs Hc _] Hss Hk Hl. destruct (stream_same s s' Hs Hss) as [? ?]. split; [done| |done]. by eapply calls_grow. Qed.
Lemma inv_delete s id : inv s → inv (set_table (delete id (table s)) s).
Proof. intros Hok. apply (inv_frame s); try done. apply life_delete, Hok. Qed.
Lemma inv_close s : inv s → inv (close s).
Proof. intros Hok. apply (inv_frame s); try done. apply (life_same s); try done; [apply Hok|by left]. Qed.
Lemma inv_reader s p : inv s → ended p = false → inv (set_reader p s).
Proof. intros Hok Hp. apply (inv_frame s); try done. apply (life_same s); try done; [apply Hok|by right]. Qed.
Lemma inv_push s m : inv s → has_room s = true → inv (push (Control m) s).
Proof.
  intros [Hs Hc Hl] Hr. destruct (stream_push s (Control m) Hs Hr) as [H1 G1]; [done|]. split; [done|by eapply calls_grow|].
  apply (life_same s); try done. by left.
Qed.
Lemma inv_submit s w r s1 P :
  inv s → sub_ok s P w → exec_submit w s = Some (r, s1) →
  inv s1 ∧ kcalls s1 = kcalls s ∧
  match r with StillAt w' => sub_ok s1 P w' | Finished (Ok _) => ∃ m, P m ∧ (m, true) ∈ wire s1 | Finished (Err _) => True end.
Proof.
  intros [Hs Hc Hl] Hw He. destruct (exec_submit_ok w s r s1 P Hs Hw He) as (H1 & G1 & Hpost). pose proof (life_submit w s r s1 Hl He).
  apply exec_submit_frame in He as (Hk & _). split; [|done]. split; [done|by eapply calls_grow|done].
Qed.
(** A call moves on. *)
Lemma inv_upd s h f :
  inv s →
  (∀ k, kcalls s !! h = Some k → call_ok s k → call_ok s (f k) ∧ k_id (f k) = k_id k ∧
     (registered (k_owner k) = true → registered (k_owner (f k)) = true) ∧ (dropped s = true → gone k = true → gone (f k) = true) ∧
     (reader s = RdDone → leaving (k_owner k) = true → leaving (k_owner (f k)) = true)) → inv (upd_call h f s).
Proof.
  intros [Hs Hc Hl] Hf. destruct (stream_same s (upd_call h f s) Hs) as [H1 G1]; [done|]. split; [done| |].
  - apply (calls_upd s _ h f); try done. intros k Hk _. eapply call_ok_grows; [done|]. apply Hf; [done|by eapply Hc].
  - apply (life_upd s _ h f); try done. intros k Hk. apply Hf; [done|by eapply Hc].
Qed.
(** One that keeps its place, or its source. *)
Definition same_place (k k' : Call) : Prop :=
  k_id k' = k_id k ∧ k_sink k' = k_sink k ∧ (k_owner k' = k_owner k ∨ ∃ p p', k_owner k = OSource p ∧ k_owner k' = OSource p').
Lemma inv_place s h f : inv s → (∀ k, kcalls s !! h = Some k → same_place k (f k)) → inv (upd_call h f s).
Proof.
  intros Hok Hf. apply inv_upd; [done|]. intros k Hk [Ho Hsk]. destruct (Hf k Hk) as (Hid & Hsink & Hown). unfold gone. rewrite Hid, Hsink.
  split; [|split; [done|]].
  - split; rewrite ?Hsink, ?Hid; [|done]. destruct Hown as [-> |(p & p' & E & ->)]; [done|]. by rewrite E in Ho.
  - destruct Hown as [-> |(p & p' & E & ->)]; [done|]. rewrite E. done.
Qed.
Lemma inv_goto s h o :
  inv s →
  (∀ k, kcalls s !! h = Some k → call_ok s k → call_ok s (set_owner o k) ∧ gone k = false ∧ (registered (k_owner k) = true → registered o = true) ∧
     (reader s = RdDone → leaving (k_owner k) = true → leaving o = true)) → inv (upd_call h (set_owner o) s).
Proof.
  intros Hok Ho. apply inv_upd; [done|]. intros k Hk Hc. destruct (Ho k Hk Hc) as (H1 & H2 & H3 & H4). rewrite H2. done.
Qed.
Lemma call_ok_plain s k o : call_ok s k → match o with ORemove | OSwap | OCancel | OCancelSend | ODropped => True | _ => False end → call_ok s (set_owner o k).
Proof. intros [_ Hs] Ho. split; [by destruct o|done]. Qed.
Lemma gone_busy k : k_owner k ≠ ODropped → gone k = false.
Proof. unfold gone. by destruct (k_owner k). Qed.

(** Registration, and the look at the flag that follows it. *)
Lemma inv_insert s h k m :
  inv s → kcalls s !! h = Some k → k_owner k = OInsert m → inv (upd_call h (set_owner (OCheck m)) (set_table (<[k_id k := h]> (table s)) s)).
Proof.
  intros [Hs Hc Hl] Hk Ho. destruct (stream_same s (upd_call h (set_owner (OCheck m)) (set_table (<[k_id k := h]> (table s)) s)) Hs) as [H1 G1]; [done|].
  split; [done| |].
  - apply (calls_upd s _ h (set_owner (OCheck m))); try done. intros k' Hk' [H2 H3]. simplify_eq. split; [|done]. simpl. by rewrite Ho in H2.
  - destruct Hl as [Ht Hg Hcl Hor]. split; simpl; try done.
    + intros id h' [[<- <-]|[Hne Hid]]%lookup_insert_Some.
      * exists (set_owner (OCheck m) k). by rewrite list_lookup_alter_eq, Hk.
      * destruct (Ht id h' Hid) as (k' & Hk' & Hid' & Hreg). exists k'. rewrite list_lookup_alter_ne; [done|].
        intros <-. simplify_eq.
    + intros Hd. destruct (Hg Hd) as [_ Hall]. pose proof (Hall h k Hk) as Hgk. by rewrite (gone_busy k) in Hgk by by rewrite Ho.
    + intros id h' k' Hr [[<- <-]|[Hne Hid]]%lookup_insert_Some.
      * rewrite list_lookup_alter_eq, Hk. by intros [= <-].
      * destruct (decide (h = h')) as [<-|Hne'].
        { destruct (Ht id h Hid) as (k1 & Hk1 & Hid1 & _). simplify_eq. }
        rewrite list_lookup_alter_ne by done. by apply (Hor id h').
Qed.
Lemma inv_remove s h k :
  inv s → kcalls s !! h = Some k → k_owner k = ORemove → inv (upd_call h (set_owner OSwap) (set_table (delete (k_id k) (table s)) s)).
Proof.
  intros [Hs Hc Hl] Hk Ho. destruct (stream_same s (upd_call h (set_owner OSwap) (set_table (delete (k_id k) (table s)) s)) Hs) as [H1 G1]; [done|].
  split; [done| |].
  - apply (calls_upd s _ h (set_owner OSwap)); try done. intros k' _ Hk'. by apply call_ok_plain.
  - destruct Hl as [Ht Hg Hcl Hor].
    assert (∀ id h', delete (k_id k) (table s) !! id = Some h' → h ≠ h' ∧ table s !! id = Some h') as Hne.
    { intros id h' [Hne Hid]%lookup_delete_Some. split; [|done]. intros <-. destruct (Ht id h Hid) as (k1 & Hk1 & Hid1 & _). simplify_eq. }
    split; simpl; try done.
    + intros id h' [Hh Hid]%Hne. rewrite list_lookup_alter_ne by done. by apply Ht.
    + intros Hd. destruct (Hg Hd) as [_ Hall]. pose proof (Hall h k Hk) as Hgk. by rewrite (gone_busy k) in Hgk by by rewrite Ho.
    + intros id h' k' Hr [Hh Hid]%Hne. rewrite list_lookup_alter_ne by done. by apply (Hor id h').
Qed.
Ltac goto_plain Ho :=
  apply inv_goto; [|intros k' Hk' Hc'; simpl in *; simplify_eq; rewrite Ho;
    split; [by apply call_ok_plain|]; split; [by apply gone_busy; rewrite Ho|done]].
Lemma inv_owner h full s s' : inv s → exec_owner h full s = Some s' → inv s'.
Proof.
  intros Hok. unfold exec_owner. destruct (kcalls s !! h) as [k|] eqn:Hk; [|done]. cbn [mbind option_bind].
  pose proof (in_calls _ Hok h k Hk) as [Hown Hsk]. destruct (k_owner k) as [m|m|w|p| | | | |] eqn:Ho; try done.
  - intros [= <-]. by apply inv_insert.
  - intros [= <-]. apply inv_goto; [done|]. intros k' Hk' [H1 H2]. simplify_eq. rewrite Ho. split; [|split; [by apply gone_busy; rewrite Ho|]].
    + split; [|done]. simpl. by destruct (is_closed s).
    + split; [by destruct (is_closed s)|]. intros Hr _. rewrite (li_closed _ (in_life _ Hok)); [done|]. by rewrite Hr.
  - destruct (exec_submit w s) as [[r s1]|] eqn:He; [|done]. cbn [mbind option_bind]. intros [= <-].
    destruct (inv_submit s w r s1 _ Hok Hown He) as (Hok1 & Hk1 & Hpost). apply inv_goto; [done|]. rewrite Hk1. intros k' Hk' [H1 H2]. simplify_eq.
    rewrite Ho. split; [|split; [by apply gone_busy; rewrite Ho|done || split; [by destruct r as [|[]]|done]]].
    split; [|done]. simpl. destruct r as [w'|[[]|e]]; done.
  - intros [= <-]. by apply inv_remove.
  - intros [= <-]. set (s1 := upd_call h deactivate s).
    assert (inv s1) as Hok1 by (apply inv_place; [done|]; intros k' _; split; [done|]; split; [done|by left]).
    apply inv_goto; [done|]. intros k' Hk' Hc'. simpl in Hk'. rewrite list_lookup_alter_eq, Hk in Hk'. simplify_eq/=. rewrite Ho.
    split; [by apply call_ok_plain; [|destruct (k_active k)]|]. split; [by apply gone_busy; simpl; rewrite Ho|done].
  - intros [= <-]. apply inv_goto; [done|]. intros k' Hk' Hc'. simplify_eq. rewrite Ho.
    split; [by apply call_ok_plain; [|destruct (is_closed s)]|]. split; [by apply gone_busy; rewrite Ho|done].
  - destruct full; [destruct (may_be_full s); [|done]|destruct (has_room s) eqn:Hr; [|done]]; intros [= <-].
    + assert (inv (close s)) as Hok1 by by apply inv_close. by goto_plain Ho.
    + assert (inv (push (Control (MStreamCancel (k_id k))) s)) as Hok1 by by apply inv_push. by goto_plain Ho.
Qed.
Lemma inv_open path streaming payload s : inv s → dropped s = false → inv (open_call serialize path streaming payload s).
Proof.
  intros Hok Hd. unfold open_call. destruct (is_closed s); [done|]. set (n := if next_id s =? u64_max then 0 else next_id s + 1).
  assert (inv (set_next_id n s)) as Hok1 by (apply (inv_frame s); try done; apply (life_same s); try done; [apply Hok|by left]).
  destruct (serialize _); [|done]. destruct (serialize _); [|done]. destruct Hok1 as [Hs Hc [Ht Hg Hcl Hor]]. simpl in *.
  assert (∀ (l : list Call) k h k', (l ++ [k]) !! h = Some k' → l !! h = Some k' ∨ k' = k) as Hsn.
  { intros l k h k' [H|[_ H]]%lookup_app_Some; [by left|]. apply list_lookup_singleton_Some in H as [_ <-]. by right. }
  split.
  - by apply (stream_same (set_next_id n s)).
  - intros h k [Hk| ->]%Hsn; [|by split]. apply (call_ok_grows (set_next_id n s)); [|by apply (Hc h)]. split; [|done]. intros n' m' b Hb. by exists b.
  - split; simpl; try done.
    + intros id h Hid. destruct (Ht id h Hid) as (k & Hk & ?). exists k. split; [by apply lookup_app_l_Some|done].
    + congruence.
    + intros id h k Hr Hid [Hk|Hk]%lookup_app_Some; [by eapply Hor|]. destruct (Ht id h Hid) as (k1 & Hk1%lookup_lt_Some & _). lia.
Qed.
Lemma inv_drop_owner h s s' : inv s → drop_owner h s = Some s' → inv s'.
Proof.
  intros Hok. unfold drop_owner. destruct (kcalls s !! h) as [k|] eqn:Hk; [|done]. cbn [mbind option_bind].
  destruct (k_owner k) as [m|m|w|p| | | | |] eqn:Ho; try done; [destruct (awaits w); [|done]|]; intros [= <-]; by goto_plain Ho.
Qed.
Lemma inv_recv poll h s s' : inv s → exec_recv poll h s = Some s' → inv s'.
Proof.
  intros Hok. unfold exec_recv. destruct (kcalls s !! h) as [k|] eqn:Hk; [|done]. cbn [mbind option_bind].
  destruct (k_owner k) as [m|m|w|p| | | | |] eqn:Ho; try done.
  assert (∀ f, (∀ k, k_id (f k) = k_id k ∧ k_sink (f k) = k_sink k ∧ ∃ p', k_owner (f k) = OSource p') → inv (upd_call h f s)) as Hf.
  { intros f Hf. apply inv_place; [done|]. intros k' Hk'. simplify_eq. destruct (Hf k) as (? & ? & p' & ?). split; [done|]. split; [done|].
    right. by exists p, p'. }
  destruct p; [| |]; repeat (case_match; try done); intros [= <-]; apply Hf; intros k0; (split; [done|]; split; [done|by eexists]).
Qed.
Lemma inv_sink_start h item s s' : inv s → dropped s = false → sink_start serialize h item s = Some s' → inv s'.
Proof.
  intros Hok Hd. unfold sink_start. destruct (kcalls s !! h) as [k|] eqn:Hk; [|done]. cbn [mbind option_bind].
  assert (inv (upd_call h (set_sink (Some (SubCheck (match item with Some b => MStreamItem (k_id k) b | None => MStreamEnd (k_id k) end)))) s)) as Hi.
  { apply inv_upd; [done|]. intros k' Hk' [H1 H2]. simplify_eq. split; [split; [done|]|]; simpl; [by intros w [= <-]|].
    split; [done|]. split; [done|]. split; [congruence|done]. }
  destruct (k_owner k), (k_sink k); try done; destruct (serialize _); by intros [= <-].
Qed.
Lemma inv_set_sink s h w :
  inv s → (∀ k, kcalls s !! h = Some k → k_sink k ≠ None ∧ ∀ w', w = Some w' → sub_ok s (λ _, True) w') → inv (upd_call h (set_sink w) s).
Proof.
  intros Hok Hw. apply inv_upd; [done|]. intros k Hk [H1 H2]. destruct (Hw k Hk) as [Hne Hw']. split; [split; [done|by apply Hw']|].
  split; [done|]. split; [done|]. split; [|done]. unfold gone. simpl. destruct (k_owner k), (k_sink k); done.
Qed.
Lemma inv_sink h s s' : inv s → exec_sink h s = Some s' → inv s'.
Proof.
  intros Hok. unfold exec_sink. destruct (kcalls s !! h) as [k|] eqn:Hk; [|done]. cbn [mbind option_bind].
  destruct (k_sink k) as [w|] eqn:Hw; [|done]. cbn [mbind option_bind]. destruct (exec_submit w s) as [[r s1]|] eqn:He; [|done].
  cbn [mbind option_bind]. intros [= <-]. pose proof (co_sink _ _ (in_calls _ Hok h k Hk) w Hw) as Hsub.
  destruct (inv_submit s w r s1 _ Hok Hsub He) as (Hok1 & Hk1 & Hpost). apply inv_set_sink; [done|]. rewrite Hk1. intros k' Hk'. simplify_eq.
  split; [by rewrite Hw|]. destruct r as [w'|]; [by intros ? [= <-]|done].
Qed.
Lemma inv_drop_sink h s s' : inv s → drop_sink h s = Some s' → inv s'.
Proof.
  intros Hok. unfold drop_sink. destruct (kcalls s !! h) as [k|] eqn:Hk; [|done]. cbn [mbind option_bind].
  destruct (k_sink k) as [w|] eqn:Hw; [|done]. cbn [mbind option_bind]. destruct (awaits w); [|done]. intros [= <-].
  apply inv_set_sink; [done|]. intros k' Hk'. simplify_eq. split; [by rewrite Hw|done].
Qed.
Lemma inv_exec_reader full s s' : inv s → exec_reader serialize full s = Some s' → inv s'.
Proof.
  intros Hok. assert (∀ h f, (∀ k, same_place k (f k)) → inv (upd_call h f s)) as Hplace by (intros h f Hf; apply inv_place; auto).
  assert (∀ f, (∀ k, k_id (f k) = k_id k ∧ k_sink (f k) = k_sink k ∧ k_owner (f k) = k_owner k) → ∀ k, same_place k (f k)) as Hsame.
  { intros f Hf k. destruct (Hf k) as (? & ? & ?). split; [done|]. split; [done|by left]. }
  unfold exec_reader. destruct (reader s) as [|id h body|id r tx|h r tx|h r tx|h|h m|id h| | |] eqn:Hrd; try done.
  - destruct (kcalls s !! h) as [k|] eqn:Hk; [|done]. cbn [mbind option_bind]. intros [= <-].
    assert (inv (upd_call h (push_item body) s)) by by apply Hplace, Hsame.
    destruct (k_owner k); try (by apply inv_reader); destruct (_ <? _)%nat; by apply inv_reader.
  - intros [= <-]. destruct (table s !! id); [|by apply inv_reader]. apply inv_reader; [by apply inv_delete|done].
  - intros [= <-]. apply inv_reader; [by apply Hplace, Hsame|done].
  - intros [= <-]. apply inv_reader; [by apply Hplace, Hsame|by destruct tx].
  - destruct (kcalls s !! h) as [k|] eqn:Hk; [|done]. cbn [mbind option_bind]. intros [= <-].
    destruct (serialize _); apply inv_reader; try done; [by destruct (is_closed s)|by apply inv_close].
  - destruct full; [destruct (may_be_full s); [|done]|destruct (has_room s) eqn:Hroom; [|done]]; intros [= <-];
      apply inv_reader; try done; [by apply inv_close|by apply inv_push].
  - intros [= <-]. apply inv_reader; [by apply inv_delete|done].
  - intros [= <-]. apply (inv_frame s); try done. destruct (in_life _ Hok). split; simpl; try done. naive_solver.
  - intros [= <-]. apply (inv_frame s); try done. destruct (in_life _ Hok) as [_ Hg Hc _]. split; simpl; try done.
    intros _. apply Hc. by rewrite Hrd.
Qed.
Lemma inv_actor st s s' : inv s → exec_actor st s = Some s' → inv s'.
Proof.
  intros [Hs Hc Hl] He. destruct (stream_actor st s s' Hs He) as [H1 G1]. apply actor_frame in He as (Hk & Ht & Hr & Hd & _ & Hcl).
  split; [done|by eapply calls_grow|]. apply (life_same s); try done. by left.
Qed.
Lemma inv_step ev s s' : inv s → exec ev s = Some s' → inv s'.
Proof.
  intros Hok. destruct ev as [path streaming payload|h full|h|h|h|h item|h|h|m| |full| |st|]; simpl.
  - destruct (dropped s) eqn:Hd; [done|]. intros [= <-]. by apply inv_open.
  - by apply inv_owner.
  - by apply inv_drop_owner.
  - by apply inv_recv.
  - by apply inv_recv.
  - destruct (dropped s) eqn:Hd; [done|]. by apply inv_sink_start.
  - by apply inv_sink.
  - by apply inv_drop_sink.
  - destruct (reader s); try done. intros [= <-]. apply inv_reader; [done|]. destruct m; try done. by destruct (table s !! id).
  - destruct (reader s); try done. intros [= <-]. by apply inv_reader.
  - by apply inv_exec_reader.
  - destruct (reader s); try done. destruct (dropped s) eqn:Hd; [|done]. intros [= <-]. apply (inv_frame s); try done.
    destruct (in_life _ Hok) as [Ht Hg Hc Ho]. destruct (Hg Hd) as [Hcl Hall]. split; simpl; try done.
    intros id h k _ Hid Hk. destruct (Ht id h Hid) as (k1 & Hk1 & _ & Hreg). simplify_eq.
    by rewrite (gone_unregistered k (Hall h k Hk)) in Hreg.
  - by apply inv_actor.
  - unfold drop_transport. destruct (dropped s || _) eqn:Hd; [done|]. intros [= <-]. apply orb_false_iff in Hd as [Hd Hall%negb_false_iff].
    apply (inv_frame s); try done. destruct (in_life _ Hok) as [Ht Hg Hc Ho]. split; simpl; try done. intros _. split; [done|].
    intros h k Hk. rewrite forallb_forall in Hall. apply Hall, list_elem_of_In. by eapply list_elem_of_lookup_2.
Qed.
Lemma inv_init : inv Client_new.
Proof.
  split.
  - split; simpl; try done.
    + by exists [].
    + intros a f b Heq. by destruct a.
    + intros m n Hin. by apply not_elem_of_nil in Hin.
  - done.
  - by split.
Qed.
Lemma inv_reachable s : reachable s → inv s.
Proof. revert s. apply client_reachable_ind; [apply inv_init|]. intros ev s s'. apply inv_step. Qed.
End Safety.

