(* ===== verification/RpcClientSafety.v ===== *)
(** * RpcClientSafety: what the RPC client promises

    Theorems about every interleaving of [RpcClient]: the order in which a source
    sees its replies, the order of frames on the stream, acknowledgements, ids, and
    that nobody waits for a connection that is gone; and two behaviours the code
    probably does not intend. *)
From S2P Require Import Prelude WireStatus WireFrame RpcClient RpcClientInv.

Section Safety.
Context (serialize : WireMessage → result bytes TransportError).
#[local] Abbreviation exec := (exec serialize).
#[local] Abbreviation exec_all := (exec_all serialize).
#[local] Abbreviation reachable := (reachable serialize).

(** ** What an event does to a call *)

Definition opening (o : Owner) : bool := match o with OInsert _ | OCheck _ | OWrite _ => true | _ => false end.
Definition closing (o : Owner) : bool := match o with ORemove | OSwap | OCancel | OCancelSend | ODropped => true | _ => false end.
(** It opens, gets its source, or is dropped. *)
Definition moves (o o' : Owner) : Prop :=
  o' = o ∨ closing o' = true ∨ opening o = true ∧ (opening o' = true ∨ o' = OSource RecvIdle).
Record quiet (k k' : Call) : Prop := {
  qu_id : k_id k' = k_id k;
  qu_items : k_items k' = k_items k;
  qu_lane : k_lane k' = k_lane k;
  qu_taken : k_taken k' = k_taken k;
  qu_arrived : k_arrived k' = k_arrived k;
  qu_got : k_got k' = k_got k;
  qu_owner : moves (k_owner k) (k_owner k');
}.
Inductive change (ev : Event) (h : nat) (s s' : Client) (k : Call) : Call → Prop :=
| change_quiet k' : quiet k k' → change ev h s s' k k'
| change_lane r tx : reader s = RdSend h r tx → change ev h s s' k (set_lane r k)
| change_item id b : reader s = RdItem id h b → (length (k_items k) < REPLY_BUFFER)%nat → change ev h s s' k (push_item b k)
| change_recv (poll : bool) k' :
    ev = (if poll then EPoll h else ERecv h) → exec_recv poll h s = Some s' → kcalls s' !! h = Some k' → change ev h s s' k k'.
Lemma quiet_refl k : quiet k k.
Proof. split; try done. by left. Qed.
Lemma quiet_owner k o : moves (k_owner k) o → quiet k (set_owner o k).
Proof. by split. Qed.
Lemma quiet_same f : (∀ k, f k = deactivate k ∨ ∃ w, f k = set_sink w k) → ∀ k, quiet k (f k).
Proof. intros Hf k. destruct (Hf k) as [-> |[w ->]]; split; try done; by left. Qed.
Lemma alter_quiet (l : list Call) h h' f k :
  l !! h = Some k → (h = h' → quiet k (f k)) → ∃ k', alter f h' l !! h = Some k' ∧ quiet k k'.
Proof.
  intros Hk Hf. destruct (decide (h' = h)) as [->|Hne].
  - exists (f k). rewrite list_lookup_alter_eq, Hk. auto.
  - exists k. rewrite list_lookup_alter_ne by done. split; [done|apply quiet_refl].
Qed.
Lemma owner_change h0 full h s s' k :
  kcalls s !! h = Some k → exec_owner h0 full s = Some s' → ∃ k', kcalls s' !! h = Some k' ∧ quiet k k'.
Proof.
  intros Hk. unfold exec_owner. destruct (kcalls s !! h0) as [k0|] eqn:Hk0; [|done]. cbn [mbind option_bind].
  assert (∀ s1 o, kcalls s1 = kcalls s → moves (k_owner k0) o → ∃ k', kcalls (upd_call h0 (set_owner o) s1) !! h = Some k' ∧ quiet k k') as Hgo.
  { intros s1 o E Hm. simpl. rewrite E. apply alter_quiet; [done|]. intros <-. simplify_eq. by apply quiet_owner. }
  destruct (k_owner k0) as [m|m|w|p| | | | |] eqn:Ho; try done.
  - intros [= <-]. apply Hgo; [done|]. right. by right; split; [|left].
  - intros [= <-]. apply Hgo; [done|]. destruct (is_closed s); [by right; left|right; by right; split; [|left]].
  - destruct (exec_submit w s) as [[r s1]|] eqn:He; [|done]. cbn [mbind option_bind]. intros [= <-].
    apply exec_submit_frame in He as (E & _). apply Hgo; [done|].
    destruct r as [w'|[[]|e]]; [right; right; by split; [|left]|right; right; by split; [|right]|by right; left].
  - intros [= <-]. apply Hgo; [done|]. by right; left.
  - intros [= <-]. simpl. rewrite <- list_alter_compose. apply alter_quiet; [done|]. intros <-. simplify_eq. split; try done. simpl.
    right; left. by destruct (k_active k).
  - intros [= <-]. apply Hgo; [done|]. right; left. by destruct (is_closed s).
  - destruct full; [destruct (may_be_full s); [|done]|destruct (has_room s); [|done]]; intros [= <-]; apply Hgo; try done; by right; left.
Qed.
Lemma recv_upd poll h s s' : exec_recv poll h s = Some s' → ∃ f, s' = upd_call h f s.
Proof.
  unfold exec_recv. destruct (kcalls s !! h) as [k|]; [|done]. cbn [mbind option_bind]. intros He. repeat case_match; simplify_eq; by eexists.
Qed.
Lemma exec_change ev h s s' k :
  kcalls s !! h = Some k → exec ev s = Some s' → ∃ k', kcalls s' !! h = Some k' ∧ change ev h s s' k k'.
Proof.
  intros Hk. assert (∀ s1, kcalls s1 = kcalls s → ∃ k', kcalls s1 !! h = Some k' ∧ change ev h s s1 k k') as Hsame.
  { intros s1 E. exists k. rewrite E. split; [done|]. apply change_quiet, quiet_refl. }
  assert (∀ s1 h0 f, kcalls s1 = alter f h0 (kcalls s) → (h = h0 → quiet k (f k)) → ∃ k', kcalls s1 !! h = Some k' ∧ change ev h s s1 k k') as Hq.
  { intros s1 h0 f E Hf. destruct (alter_quiet (kcalls s) h h0 f k Hk Hf) as (k' & Hk' & Hqk). exists k'. rewrite E. split; [done|by apply change_quiet]. }
  assert (∀ poll h0, exec_recv poll h0 s = Some s' →
            (∀ f, s' = upd_call h0 f s → h ≠ h0 → ∃ k', kcalls s' !! h = Some k' ∧ change (if poll then EPoll h0 else ERecv h0) h s s' k k') →
            ∃ k', kcalls s' !! h = Some k' ∧ change (if poll then EPoll h0 else ERecv h0) h s s' k k') as recv_case.
  { intros poll h0 He Hf. destruct (recv_upd _ _ _ _ He) as [f ->]. destruct (decide (h = h0)) as [<-|Hne]; [|by eapply Hf].
    exists (f k). assert (kcalls (upd_call h f s) !! h = Some (f k)) as Hk' by (simpl; by rewrite list_lookup_alter_eq, Hk).
    split; [done|]. by apply (change_recv _ _ _ _ _ poll). }
  destruct ev as [path streaming payload|h0 full|h0|h0|h0|h0 item|h0|h0|m| |full| |st|]; simpl.
  - destruct (dropped s); [done|]. intros [= <-]. unfold open_call. destruct (is_closed s); [by apply Hsame|].
    destruct (serialize _); [|by apply Hsame]. destruct (serialize _); [|by apply Hsame]. exists k. simpl.
    split; [by apply lookup_app_l_Some|]. apply change_quiet, quiet_refl.
  - intros He. destruct (owner_change _ _ _ _ _ _ Hk He) as (k' & ? & ?). exists k'. split; [done|by apply change_quiet].
  - unfold drop_owner. destruct (kcalls s !! h0) as [k0|] eqn:Hk0; [|done]. cbn [mbind option_bind].
    destruct (k_owner k0) eqn:Ho; try done; [destruct (awaits w); [|done]|]; intros [= <-];
      (eapply (Hq _ h0 (set_owner ORemove)); [done|]; intros <-; simplify_eq; apply quiet_owner; by right; left).
  - intros He. apply (recv_case false h0); [done|]. intros f -> Hne. by apply (Hq _ h0 f).
  - intros He. apply (recv_case true h0); [done|]. intros f -> Hne. by apply (Hq _ h0 f).
  - destruct (dropped s); [done|]. unfold sink_start. destruct (kcalls s !! h0) as [k0|]; [|done]. cbn [mbind option_bind].
    intros He. repeat case_match; simplify_eq; first [by apply Hsame|eapply (Hq _ h0); [reflexivity|]; intros _; apply (quiet_same (set_sink _)); intros ?; right; by eexists].
  - unfold exec_sink. destruct (kcalls s !! h0) as [k0|]; [|done]. cbn [mbind option_bind]. destruct (k_sink k0) as [w|]; [|done]. cbn [mbind option_bind].
    destruct (exec_submit w s) as [[r s1]|] eqn:He; [|done]. cbn [mbind option_bind]. intros [= <-]. apply exec_submit_frame in He as (E & _).
    eapply (Hq _ h0); [simpl; by rewrite E|]. intros _. apply (quiet_same (set_sink _)). intros ?. right. by eexists.
  - unfold drop_sink. destruct (kcalls s !! h0) as [k0|]; [|done]. cbn [mbind option_bind]. destruct (k_sink k0) as [w|]; [|done]. cbn [mbind option_bind].
    destruct (awaits w); [|done]. intros [= <-]. eapply (Hq _ h0); [done|]. intros _. apply (quiet_same (set_sink None)). intros ?. right. by eexists.
  - destruct (reader s); try done. intros [= <-]. by apply Hsame.
  - destruct (reader s); try done. intros [= <-]. by apply Hsame.
  - unfold exec_reader. destruct (reader s) as [|id h0 body|id r tx|h0 r tx|h0 r tx|h0|h0 m|id h0| | |] eqn:Hrd; try done.
    + destruct (kcalls s !! h0) as [k0|] eqn:Hk0; [|done]. cbn [mbind option_bind]. intros [= <-].
      assert (∀ s1, kcalls s1 = kcalls (upd_call h0 (push_item body) s) → (length (k_items k0) <? REPLY_BUFFER)%nat = true →
                ∃ k', kcalls s1 !! h = Some k' ∧ change (EReader full) h s s1 k k') as Hpush.
      { intros s1 E Hlt%Nat.ltb_lt. rewrite E. simpl. destruct (decide (h0 = h)) as [->|Hne].
        - exists (push_item body k). simplify_eq. rewrite list_lookup_alter_eq, Hk. split; [done|]. by eapply change_item.
        - exists k. rewrite list_lookup_alter_ne by done. split; [done|]. apply change_quiet, quiet_refl. }
      destruct (k_owner k0); try (by apply Hsame); destruct (_ <? _)%nat eqn:Hlt; first [by apply Hpush|by apply Hsame].
    + intros [= <-]. by destruct (table s !! id); apply Hsame.
    + intros [= <-]. eapply (Hq _ h0); [done|]. intros _. apply (quiet_same deactivate). by left.
    + intros [= <-]. simpl. destruct (decide (h0 = h)) as [->|Hne].
      * exists (set_lane r k). rewrite list_lookup_alter_eq, Hk. split; [done|]. by eapply change_lane.
      * exists k. rewrite list_lookup_alter_ne by done. split; [done|]. apply change_quiet, quiet_refl.
    + destruct (kcalls s !! h0); [|done]. cbn [mbind option_bind]. intros [= <-]. by destruct (serialize _); apply Hsame.
    + destruct full; [destruct (may_be_full s); [|done]|destruct (has_room s); [|done]]; intros [= <-]; by apply Hsame.
    + intros [= <-]. by apply Hsame.
    + intros [= <-]. by apply Hsame.
    + intros [= <-]. by apply Hsame.
  - destruct (reader s); try done. destruct (dropped s); [|done]. intros [= <-]. by apply Hsame.
  - intros He%actor_frame. apply Hsame, He.
  - unfold drop_transport. destruct (_ || _); [done|]. intros [= <-]. by apply Hsame.
Qed.

(** ** Senders of a call only die *)

Lemma in_table_true h s : in_table h s = true ↔ ∃ id, table s !! id = Some h.
Proof.
  unfold in_table. rewrite existsb_exists. split.
  - intros ([id h'] & Hin%list_elem_of_In & Heq%Nat.eqb_eq). exists id. apply elem_of_map_to_list in Hin. simpl in Heq. by subst.
  - intros [id Hid]. exists (id, h). split; [by apply list_elem_of_In, elem_of_map_to_list|apply Nat.eqb_refl].
Qed.
Lemma table_change ev s s' id h :
  exec ev s = Some s' → table s' !! id = Some h → table s !! id = Some h ∨ ∃ k m, kcalls s !! h = Some k ∧ k_owner k = OInsert m.
Proof.
  assert (∀ id', delete id' (table s) !! id = Some h → table s !! id = Some h) as Hdel by (intros id' [_ H]%lookup_delete_Some; done).
  destruct ev as [path streaming payload|h0 full|h0|h0|h0|h0 item|h0|h0|m| |full| |st|]; simpl.
  - destruct (dropped s); [done|]. intros [= <-]. unfold open_call. destruct (is_closed s); [by left|]. repeat case_match; by left.
  - unfold exec_owner. destruct (kcalls s !! h0) as [k0|] eqn:Hk0; [|done]. cbn [mbind option_bind].
    destruct (k_owner k0) as [m|m|w|p| | | | |] eqn:Ho; try done.
    + intros [= <-]. simpl. intros [[_ <-]|[_ Hid]]%lookup_insert_Some; [right; by exists k0, m|by left].
    + intros [= <-]. by left.
    + destruct (exec_submit w s) as [[r s1]|] eqn:He; [|done]. cbn [mbind option_bind]. intros [= <-].
      apply exec_submit_frame in He as (_ & E & _). simpl. rewrite E. by left.
    + intros [= <-]. simpl. intros Hid. left. by eapply Hdel.
    + intros [= <-]. by left.
    + intros [= <-]. by left.
    + destruct full; [destruct (may_be_full s); [|done]|destruct (has_room s); [|done]]; intros [= <-]; by left.
  - unfold drop_owner. destruct (kcalls s !! h0); [|done]. cbn [mbind option_bind]. intros He. repeat case_match; simplify_eq; by left.
  - intros [f ->]%recv_upd. by left.
  - intros [f ->]%recv_upd. by left.
  - destruct (dropped s); [done|]. unfold sink_start. destruct (kcalls s !! h0); [|done]. cbn [mbind option_bind]. intros He. repeat case_match; simplify_eq; by left.
  - unfold exec_sink. destruct (kcalls s !! h0) as [k0|]; [|done]. cbn [mbind option_bind]. destruct (k_sink k0) as [w|]; [|done]. cbn [mbind option_bind].
    destruct (exec_submit w s) as [[r s1]|] eqn:He; [|done]. cbn [mbind option_bind]. intros [= <-]. apply exec_submit_frame in He as (_ & E & _).
    simpl. rewrite E. by left.
  - unfold drop_sink. destruct (kcalls s !! h0); [|done]. cbn [mbind option_bind]. destruct (k_sink _); [|done]. cbn [mbind option_bind].
    destruct (awaits _); [|done]. intros [= <-]. by left.
  - destruct (reader s); try done. intros [= <-]. by left.
  - destruct (reader s); try done. intros [= <-]. by left.
  - unfold exec_reader. destruct (reader s) as [|id0 h0 body|id0 r tx|h0 r tx|h0 r tx|h0|h0 m|id0 h0| | |]; try done.
    + destruct (kcalls s !! h0) as [k0|]; [|done]. cbn [mbind option_bind]. intros He. repeat case_match; simplify_eq; by left.
    + intros [= <-]. destruct (table s !! id0); [|by left]. simpl. intros Hid. left. by eapply Hdel.
    + intros [= <-]. by left.
    + intros [= <-]. by left.
    + destruct (kcalls s !! h0); [|done]. cbn [mbind option_bind]. intros [= <-]. destruct (serialize _); by left.
    + destruct full; [destruct (may_be_full s); [|done]|destruct (has_room s); [|done]]; intros [= <-]; by left.
    + intros [= <-]. simpl. intros Hid. left. by eapply Hdel.
    + intros [= <-]. by left.
    + intros [= <-]. simpl. by rewrite lookup_empty.
  - destruct (reader s); try done. destruct (dropped s); [|done]. intros [= <-]. by left.
  - intros (_ & -> & _)%actor_frame. by left.
  - unfold drop_transport. destruct (_ || _); [done|]. intros [= <-]. simpl. by rewrite lookup_empty.
Qed.
(** The read loop moves only by its own events. *)
Lemma reader_change ev s s' :
  exec ev s = Some s' → reader s' = reader s ∨ ∃ full, ev = EReader full ∨ (∃ m, ev = ERead m) ∨ ev = EReadEnds ∨ ev = EAborted.
Proof.
  destruct ev as [path streaming payload|h0 full|h0|h0|h0|h0 item|h0|h0|m| |full| |st|]; simpl; try (intros _; right; exists true; by eauto).
  - destruct (dropped s); [done|]. intros [= <-]. unfold open_call. left. repeat case_match; done.
  - unfold exec_owner. destruct (kcalls s !! h0) as [k0|]; [|done]. cbn [mbind option_bind]. left.
    destruct (k_owner k0) as [m|m|w|p| | | | |]; try done; try (by simplify_eq).
    + destruct (exec_submit w s) as [[r s1]|] eqn:He; [|done]. cbn [mbind option_bind] in *. simplify_eq.
      by apply exec_submit_frame in He as (_ & _ & E & _).
    + repeat case_match; simplify_eq; done.
  - unfold drop_owner. destruct (kcalls s !! h0); [|done]. cbn [mbind option_bind]. left. repeat case_match; simplify_eq; done.
  - intros [f ->]%recv_upd. by left.
  - intros [f ->]%recv_upd. by left.
  - destruct (dropped s); [done|]. unfold sink_start. destruct (kcalls s !! h0); [|done]. cbn [mbind option_bind]. left. repeat case_match; simplify_eq; done.
  - unfold exec_sink. destruct (kcalls s !! h0) as [k0|]; [|done]. cbn [mbind option_bind]. destruct (k_sink k0) as [w|]; [|done]. cbn [mbind option_bind].
    destruct (exec_submit w s) as [[r s1]|] eqn:He; [|done]. cbn [mbind option_bind]. intros [= <-]. left. by apply exec_submit_frame in He as (_ & _ & E & _).
  - unfold drop_sink. destruct (kcalls s !! h0); [|done]. cbn [mbind option_bind]. destruct (k_sink _); [|done]. cbn [mbind option_bind].
    destruct (awaits _); [|done]. intros [= <-]. by left.
  - intros _. right. exists full. by left.
  - intros (_ & _ & E & _)%actor_frame. by left.
  - unfold drop_transport. destruct (_ || _); [done|]. intros [= <-]. by left.
Qed.
Lemma reader_sender_change ev s s' h : exec ev s = Some s' → reader_sender h (reader s') = true → sender_alive h s = true.
Proof.
  intros He. pose proof He as Hev. apply reader_change in Hev as [-> |(full & Hev)]; [intros H; unfold sender_alive; rewrite H; apply orb_true_r|].
  assert (∀ id, table s !! id = Some h → sender_alive h s = true) as Htab.
  { intros id Hid. unfold sender_alive. apply orb_true_iff. left. apply in_table_true. by exists id. }
  assert (reader_sender h (reader s) = true → sender_alive h s = true) as Hrd by (intros H; unfold sender_alive; rewrite H; apply orb_true_r).
  destruct Hev as [-> |[[m ->]|[-> | ->]]]; simpl in He.
  - unfold exec_reader in He. destruct (reader s) as [|id0 h0 body|id0 r tx|h0 r tx|h0 r tx|h0|h0 m|id0 h0| | |] eqn:E; try done; simpl in Hrd.
    + destruct (kcalls s !! h0) as [k0|]; [|done]. cbn [mbind option_bind] in He. repeat case_match; simplify_eq; simpl; try done;
        by rewrite bool_decide_eq_true; intros [= <-]; apply Hrd, Nat.eqb_refl.
    + destruct (table s !! id0) as [h0|] eqn:Hid; simplify_eq; simpl; [|done]. intros [<-%Nat.eqb_eq|H]%orb_true_iff; [by eapply Htab|by apply Hrd].
    + simplify_eq. simpl. done.
    + simplify_eq. simpl. destruct tx; simpl; [|done]. intros H. apply Hrd. by rewrite H.
    + destruct (kcalls s !! h0); [|done]. cbn [mbind option_bind] in He. repeat case_match; simplify_eq; done.
    + repeat case_match; simplify_eq; done.
    + by simplify_eq.
    + by simplify_eq.
    + by simplify_eq.
  - destruct (reader s); try done. simplify_eq. simpl. destruct m; simpl; try done. destruct (table s !! id) as [h0|] eqn:Hid; [|done]. simpl.
    intros <-%Nat.eqb_eq. by eapply Htab.
  - destruct (reader s); try done. by simplify_eq.
  - destruct (reader s); try done. destruct (dropped s); [|done]. by simplify_eq.
Qed.
Lemma sender_monotone ev s s' h k :
  kcalls s !! h = Some k → opening (k_owner k) = false → exec ev s = Some s' → sender_alive h s = false → sender_alive h s' = false.
Proof.
  intros Hk Ho He Hs. apply not_true_iff_false. intros Hs'. apply not_true_iff_false in Hs. apply Hs.
  unfold sender_alive in Hs'. apply orb_prop in Hs' as [Hin|Hrd]; [|by eapply reader_sender_change].
  apply in_table_true in Hin as [id Hid]. destruct (table_change _ _ _ _ _ He Hid) as [H|(k' & m & Hk' & Ho')]; [|by simplify_eq; rewrite Ho' in Ho].
  unfold sender_alive. apply orb_true_iff. left. apply in_table_true. by exists id.
Qed.

(** ** What a source sees *)

Definition items_of (items : list bytes) : list (option Reply) := (λ b, Some (ReplyItem b)) <$> items.
Record recv_ok (s : Client) (h : nat) (k : Call) : Prop := {
  ro_items : ∃ items ends, k_got k = items_of items ++ ends ∧ items ++ k_items k = k_arrived k ∧
    (ends = [] ∨ k_taken k = true ∧ k_owner k ≠ OSource RecvTerminal ∧ ∃ n, ends = k_lane k :: replicate n None) ∧
    (k_taken k = true → k_owner k = OSource RecvIdle → ends ≠ []);
  ro_taken : k_taken k = true → k_items k = [] ∧ sender_alive h s = false ∧ opening (k_owner k) = false;
  ro_poll : k_owner k ≠ OSource PollTerminal;
  ro_terminal : k_owner k = OSource RecvTerminal → k_taken k = true;
}.
Lemma moves_source o o' p : moves o o' → o' = OSource p → o = OSource p ∨ opening o = true ∧ p = RecvIdle.
Proof. intros [-> |[Hc|[Ho [Ho'| ->]]]] E; [by left|by rewrite E in Hc|by rewrite E in Ho'|]. right. split; [done|congruence]. Qed.
Lemma moves_opening o o' : moves o o' → opening o = false → opening o' = false.
Proof. intros [-> |[Hc|[Ho _]]]; [done| |congruence]. by destruct o'. Qed.
Lemma recv_ok_step ev s s' h k k' :
  kcalls s !! h = Some k → exec ev s = Some s' → change ev h s s' k k' → ev ≠ EPoll h → recv_ok s h k → recv_ok s' h k'.
Proof.
  intros Hk He Hch Hpoll [(items & ends & Hgot & Harr & Hends & Hidle) Htk Hp Hterm].
  assert (k_taken k = true → k_items k = [] ∧ sender_alive h s' = false ∧ opening (k_owner k) = false) as Htk'.
  { intros Ht. destruct (Htk Ht) as (? & ? & ?). split; [done|]. split; [by eapply sender_monotone|done]. }
  destruct Hch as [k' [Q1 Q2 Q3 Q4 Q5 Q6 Q7]|r tx Hr|id b Hr Hlt|poll k' -> Hev Hk'].
  - split.
    + exists items, ends. rewrite Q2, Q3, Q4, Q5, Q6. split; [done|]. split; [done|]. split.
      * destruct Hends as [->|(Ht & Ho & n & ->)]; [by left|]. right. split; [done|]. split; [|by exists n].
        intros E. destruct (moves_source _ _ _ Q7 E) as [E'|[_ [=]]]. done.
      * intros Ht E. destruct (Htk Ht) as (_ & _ & Hno). destruct (moves_source _ _ _ Q7 E) as [E'|[Ho _]]; [by apply Hidle|congruence].
    + rewrite Q4, Q2. intros Ht. destruct (Htk' Ht) as (? & ? & ?). split; [done|]. split; [done|]. by eapply moves_opening.
    + intros E. destruct (moves_source _ _ _ Q7 E) as [E'|[_ [=]]]. done.
    + rewrite Q4. intros E. destruct (moves_source _ _ _ Q7 E) as [E'|[_ [=]]]. auto.
  - assert (k_taken k = false) as Hnt.
    { apply not_true_iff_false. intros Ht. destruct (Htk Ht) as (_ & Hs & _). unfold sender_alive in Hs. rewrite Hr in Hs. simpl in Hs.
      rewrite Nat.eqb_refl, orb_true_r in Hs. done. }
    split; simpl; try done. exists items, ends. split; [done|]. split; [done|]. split; [|done]. destruct Hends as [->|(Ht & _)]; [by left|congruence].
  - assert (k_taken k = false) as Hnt.
    { apply not_true_iff_false. intros Ht. destruct (Htk Ht) as (_ & Hs & _). unfold sender_alive in Hs. rewrite Hr in Hs. simpl in Hs.
      rewrite Nat.eqb_refl, orb_true_r in Hs. done. }
    split; simpl; try done; [|congruence]. exists items, ends. split; [done|]. split; [by rewrite app_assoc, Harr|]. split; [|done].
    destruct Hends as [->|(Ht & _)]; [by left|congruence].
  - destruct poll; [done|]. revert Hev. unfold exec_recv. rewrite Hk. cbn [mbind option_bind].
    destruct (k_owner k) as [| | |[]| | | | |] eqn:Ho; try done.
    + destruct (k_items k) as [|b q] eqn:Hq.
      * simpl. destruct (sender_alive h s) eqn:Hs; [done|]. destruct (k_taken k) eqn:Ht; intros [= <-]; simpl in Hk';
          rewrite list_lookup_alter_eq, Hk in Hk'; simplify_eq/=.
        { destruct (Htk' eq_refl) as (_ & Hs' & _). destruct Hends as [->|(_ & _ & n & ->)]; [by destruct Hidle|].
          split; simpl; try done. exists items, (k_lane k :: replicate (S n) None). split; [rewrite Hgot, <- app_assoc; simpl; by rewrite <- replicate_cons_app|].
          split; [by rewrite Hq|]. split; [right; split; [done|]; split; [done|by exists (S n)]|done]. }
        { assert (ends = []) as -> by (destruct Hends as [?|(? & _)]; done). split; simpl; try done.
          exists items, []. split; [done|]. split; [by rewrite Hq|]. split; [by left|done]. }
      * intros [= <-]. simpl in Hk'. rewrite list_lookup_alter_eq, Hk in Hk'. simplify_eq/=.
        assert (k_taken k = false) as Hnt by (apply not_true_iff_false; intros Ht; by destruct (Htk Ht)).
        assert (ends = []) as -> by (destruct Hends as [?|(? & _)]; [done|congruence]).
        split; simpl; try done; [|congruence]. exists (items ++ [b]), []. split; [unfold items_of in *; by rewrite Hgot, !app_nil_r, fmap_app|].
        split; [rewrite <- app_assoc; simpl; rewrite <- Harr; congruence|]. split; [by left|congruence].
    + pose proof (Hterm eq_refl) as Ht. destruct (Htk' Ht) as (Hq & Hs' & _).
      assert (ends = []) as -> by (destruct Hends as [?|(_ & ? & _)]; done).
      assert (∀ r, r = k_lane k → recv_ok s' h (answer r k)) as Hans.
      { intros r ->. split; simpl; try done. exists items, [k_lane k]. split; [by rewrite Hgot, app_nil_r|]. split; [done|]. split; [|done].
        right. split; [done|]. split; [done|]. by exists 0%nat. }
      destruct (k_lane k) as [r|] eqn:Hl.
      * intros [= <-]. simpl in Hk'. rewrite list_lookup_alter_eq, Hk in Hk'. simplify_eq/=. by apply Hans.
      * destruct (terminal_alive h s); [done|]. intros [= <-]. simpl in Hk'. rewrite list_lookup_alter_eq, Hk in Hk'. simplify_eq/=. by apply Hans.
Qed.
(** A call starts with nothing received. *)
Definition untouched (k : Call) : Prop :=
  k_items k = [] ∧ k_taken k = false ∧ k_arrived k = [] ∧ k_got k = [] ∧ (∃ m, k_owner k = OInsert m) ∧ k_sink k = None.
Lemma fresh_call ev s s' h k :
  exec ev s = Some s' → kcalls s !! h = None → kcalls s' !! h = Some k → untouched k ∧ h = length (kcalls s) ∧ k_id k = next_id s.
Proof.
  intros He Hn Hk. assert (length (kcalls s) ≤ h)%nat as Hlen by by apply lookup_ge_None.
  assert (∀ f h0, alter f h0 (kcalls s) !! h = Some k → False) as Hno.
  { intros f h0 H%lookup_lt_Some. rewrite length_alter in H. lia. }
  assert (kcalls s' = kcalls s → False) as Hsame by (intros E; rewrite E in Hk; congruence).
  destruct ev as [path streaming payload|h0 full|h0|h0|h0|h0 item|h0|h0|m| |full| |st|]; simpl in He.
  - destruct (dropped s); [done|]. simplify_eq. unfold open_call in *. destruct (is_closed s); [congruence|].
    destruct (serialize _); [|done]. destruct (serialize _); [|done]. simpl in *.
    apply lookup_app_Some in Hk as [?|[_ Hk]]; [congruence|]. apply list_lookup_singleton_Some in Hk as [Hlt <-].
    split; [|split; [lia|done]]. unfold untouched. simpl. split_and!; try done. by eexists.
  - exfalso. unfold exec_owner in He. destruct (kcalls s !! h0) as [k0|]; [|done]. cbn [mbind option_bind] in He.
    destruct (k_owner k0) as [m|m|w|p| | | | |]; simplify_eq; try (eapply Hno; exact Hk).
    + destruct (exec_submit w s) as [[r s1]|] eqn:Hs; [|done]. cbn [mbind option_bind] in He. simplify_eq. simpl in Hk.
      apply exec_submit_frame in Hs as (E & _). rewrite E in Hk. by eapply Hno; exact Hk.
    + simpl in Hk. apply lookup_lt_Some in Hk. rewrite !length_alter in Hk. lia.
    + repeat case_match; simplify_eq; eapply Hno; exact Hk.
  - exfalso. unfold drop_owner in He. destruct (kcalls s !! h0); [|done]. cbn [mbind option_bind] in He. repeat case_match; simplify_eq; by eapply Hno; exact Hk.
  - apply recv_upd in He as [f ->]. by destruct (Hno f h0).
  - apply recv_upd in He as [f ->]. by destruct (Hno f h0).
  - exfalso. destruct (dropped s); [done|]. unfold sink_start in He. destruct (kcalls s !! h0); [|done]. cbn [mbind option_bind] in He. repeat case_match; simplify_eq; first [by apply Hsame|by eapply Hno; exact Hk].
  - exfalso. unfold exec_sink in He. destruct (kcalls s !! h0) as [k0|]; [|done]. cbn [mbind option_bind] in He. destruct (k_sink k0) as [w|]; [|done].
    cbn [mbind option_bind] in He. destruct (exec_submit w s) as [[r s1]|] eqn:Hs; [|done]. cbn [mbind option_bind] in He. simplify_eq. simpl in Hk.
    apply exec_submit_frame in Hs as (E & _). rewrite E in Hk. by eapply Hno; exact Hk.
  - exfalso. unfold drop_sink in He. destruct (kcalls s !! h0); [|done]. cbn [mbind option_bind] in He. destruct (k_sink _); [|done]. cbn [mbind option_bind] in He.
    destruct (awaits _); [|done]. simplify_eq. by eapply Hno; exact Hk.
  - exfalso. destruct (reader s); try done. simplify_eq; by apply Hsame.
  - exfalso. destruct (reader s); try done. simplify_eq; by apply Hsame.
  - exfalso. unfold exec_reader in He. destruct (reader s) as [|id0 h0 body|id0 r tx|h0 r tx|h0 r tx|h0|h0 m|id0 h0| | |]; try done;
      try (destruct (kcalls s !! h0) as [k0|]; [|done]; cbn [mbind option_bind] in He); repeat case_match; simplify_eq; first [by apply Hsame|by eapply Hno; exact Hk].
  - exfalso. destruct (reader s); try done. destruct (dropped s); [|done]. simplify_eq; by apply Hsame.
  - exfalso. apply actor_frame in He as (E & _). by apply Hsame.
  - exfalso. unfold drop_transport in He. destruct (_ || _); [done|]. simplify_eq; by apply Hsame.
Qed.
Lemma recv_ok_run evs h : EPoll h ∉ evs → ∀ s k, exec_all evs Client_new = Some s → kcalls s !! h = Some k → recv_ok s h k.
Proof.
  induction evs as [|ev evs IH] using rev_ind; intros Hn s k; [by intros [= <-]|]. rewrite client_exec_all_app.
  destruct (exec_all evs Client_new) as [s0|] eqn:H0; [|done]. simpl. destruct (exec ev s0) as [s1|] eqn:Hev; [|done]. simpl. intros [= <-] Hk.
  rewrite elem_of_app, list_elem_of_singleton in Hn. destruct (kcalls s0 !! h) as [k0|] eqn:Hk0.
  - destruct (exec_change _ _ _ _ _ Hk0 Hev) as (k' & Hk' & Hch). simplify_eq. eapply recv_ok_step; eauto.
  - destruct (fresh_call _ _ _ _ _ Hev Hk0 Hk) as [(Hi & Ht & Ha & Hg & [m Ho] & _) _]. split; rewrite ?Hi, ?Ht, ?Ha, ?Hg, ?Ho; try done.
    exists [], []. split; [done|]. split; [done|]. split; [by left|done].
Qed.

(** C5: A source that is read with [recv] returns the items of its call, all of them and in
    the order the read loop routed them, and only then the terminal reply, the one the
    loop sent; after that it returns nothing. *)
Theorem recv_in_order evs s h k :
  exec_all evs Client_new = Some s → EPoll h ∉ evs → kcalls s !! h = Some k →
  ∃ items ends, k_got k = items_of items ++ ends ∧ items ++ k_items k = k_arrived k ∧
    (ends = [] ∨ items = k_arrived k ∧ ∃ n, ends = k_lane k :: replicate n None).
Proof.
  intros He Hn Hk. destruct (recv_ok_run evs h Hn s k He Hk) as [(items & ends & Hg & Ha & Hends & _) Ht _ _].
  exists items, ends. split; [done|]. split; [done|]. destruct Hends as [?|(Htk & _ & Hn')]; [by left|right]. destruct (Ht Htk) as [Hq _].
  rewrite Hq, app_nil_r in Ha. done.
Qed.
(** A frame that was cut is the last one. *)
Definition cut_is_last (w : list (WireMessage * bool)) : Prop := ∀ a f b, w = a ++ (f, false) :: b → b = [].
(** The frames on the stream are the accepted ones, in the order the queue accepted
    them, so that no cancellation overtakes a request or an item that was accepted
    before it; a frame that was cut is the last one, and as long as the writer task
    runs every accepted frame is written, in hand or waiting. *)
Theorem frames_in_order s :
  reachable s →
  (∃ rest, accepted s = (fst <$> wire s) ++ rest) ∧ (actor s ≠ ADone → accepted s = frames s) ∧
  cut_is_last (wire s).
Proof.
  intros [Hok _ _]%inv_reachable. destruct (st_fifo _ Hok) as (lost & Heq & Hl). split; [|split].
  - exists ((command_msg <$> flight s) ++ lost). by rewrite Heq, app_assoc.
  - intros Ha. by rewrite Heq, (Hl Ha), app_nil_r.
  - intros a f b Hw. by destruct (st_whole _ Hok a f b Hw).
Qed.
(** The whole request of a call is on the stream. *)
Definition requested (s : Client) (k : Call) : Prop := ∃ m, is_request (k_id k) m ∧ (m, true) ∈ wire s.
(** C10: A call that has its source has had its whole request written; an acknowledgement
    that succeeded belongs to a frame that was written whole. *)
Theorem acknowledged_is_written s :
  reachable s →
  (∀ h k p, kcalls s !! h = Some k → k_owner k = OSource p → requested s k) ∧
  (∀ n m, acks s !! n = Some (m, AckSent (Ok tt)) → (m, true) ∈ wire s).
Proof.
  intros [Hok Hc _]%inv_reachable. split; [|apply (st_acked _ Hok)]. intros h k p Hk Ho. destruct (Hc h k Hk) as [Hown _]. by rewrite Ho in Hown.
Qed.
(** Whatever a call waits for, it goes on. *)
Definition can_go_on (s : Client) (h : nat) (k : Call) : Prop :=
  match k_owner k with
  | ODropped => True
  | OSource _ => ∃ s', exec_recv false h s = Some s'
  | _ => ∃ full s', exec_owner h full s = Some s'
  end ∧ (k_sink k ≠ None → ∃ s', exec_sink h s = Some s').
(** C9: When both tasks of a connection have ended, nobody waits for it: a caller in [open]
    or in a drop goes on, a receiving source returns, a sink that writes goes on. *)
Theorem nobody_waits_for_the_dead s h k :
  reachable s → reader s = RdDone → actor s = ADone → kcalls s !! h = Some k → can_go_on s h k.
Proof.
  intros [Hok Hc [Ht Hg Hcl Hor]]%inv_reachable Hr Ha Hk. destruct (Hc h k Hk) as [Hown Hsk].
  destruct (st_done _ Hok Ha) as (Hq & Ho & Hclosed).
  assert (∀ P w, sub_ok s P w → ∃ r s1, exec_submit w s = Some (r, s1)) as Hsub.
  { intros P [m|m n|n] Hw; simpl in *; [rewrite Hclosed; by do 2 eexists|rewrite Ho; by do 2 eexists|]. destruct Hw as (m & a & _ & Hn & Hf). rewrite Hn.
    destruct a; [|by do 2 eexists..]. specialize (Hf eq_refl). unfold flight, writing in Hf. rewrite Ha, Hq in Hf. by apply not_elem_of_nil in Hf. }
  assert (in_table h s = true → leaving (k_owner k) = true) as Hleave.
  { intros [id Hid]%in_table_true. by apply (Hor id h). }
  split.
  - destruct (k_owner k) as [m|m|w|p| | | | |] eqn:Hown'; try done; unfold exec_owner, exec_recv; rewrite Hk; cbn [mbind option_bind]; rewrite Hown'; try done;
      try (by exists false; eexists).
    + destruct (Hsub _ _ Hown) as (r & s1 & ->). exists false. by eexists.
    + assert (in_table h s = false) as Hin by (apply not_true_iff_false; intros Hin; by apply Hleave in Hin).
      assert (sender_alive h s = false ∧ terminal_alive h s = false) as [-> ->] by (unfold sender_alive, terminal_alive; by rewrite Hin, Hr).
      destruct p; simpl; repeat case_match; by eexists.
    + exists true. unfold may_be_full. rewrite Ho. by eexists.
  - intros Hsome. destruct (k_sink k) as [w|] eqn:Hw; [|done]. unfold exec_sink. rewrite Hk. cbn [mbind option_bind]. rewrite Hw. cbn [mbind option_bind].
    destruct (Hsub _ _ (Hsk w eq_refl)) as (r & s1 & ->). by eexists.
Qed.

(** ** Ids and buffers *)

Definition id_succ (n : Z) : Z := if n =? u64_max then 0 else n + 1.
Lemma next_change ev s s' :
  exec ev s = Some s' → next_id s' = next_id s ∧ length (kcalls s') = length (kcalls s) ∨ next_id s' = id_succ (next_id s).
Proof.
  destruct ev as [path streaming payload|h0 full|h0|h0|h0|h0 item|h0|h0|m| |full| |st|]; simpl.
  - destruct (dropped s); [done|]. intros [= <-]. unfold open_call. destruct (is_closed s); [by left|]. right.
    destruct (serialize _); [|done]. by destruct (serialize _).
  - unfold exec_owner. destruct (kcalls s !! h0) as [k0|]; [|done]. cbn [mbind option_bind]. intros He. left.
    destruct (k_owner k0) as [m|m|w|p| | | | |]; simplify_eq; try (split; [done|]; by simpl; rewrite ?length_alter).
    + destruct (exec_submit w s) as [[r s1]|] eqn:Hs; [|done]. cbn [mbind option_bind] in He. simplify_eq.
      apply exec_submit_frame in Hs as (E & _ & _ & _ & En & _). simpl. by rewrite length_alter, E.
    + repeat case_match; simplify_eq; split; try done; by simpl; rewrite length_alter.
  - unfold drop_owner. destruct (kcalls s !! h0); [|done]. cbn [mbind option_bind]. intros He. left. repeat case_match; simplify_eq; (split; [done|]; by simpl; rewrite length_alter).
  - intros [f ->]%recv_upd. left. by simpl; rewrite length_alter.
  - intros [f ->]%recv_upd. left. by simpl; rewrite length_alter.
  - destruct (dropped s); [done|]. unfold sink_start. destruct (kcalls s !! h0); [|done]. cbn [mbind option_bind]. intros He. left.
    repeat case_match; simplify_eq; (split; [done|]; by simpl; rewrite ?length_alter).
  - unfold exec_sink. destruct (kcalls s !! h0) as [k0|]; [|done]. cbn [mbind option_bind]. destruct (k_sink k0) as [w|]; [|done]. cbn [mbind option_bind].
    destruct (exec_submit w s) as [[r s1]|] eqn:Hs; [|done]. cbn [mbind option_bind]. intros [= <-]. left.
    apply exec_submit_frame in Hs as (E & _ & _ & _ & En & _). simpl. by rewrite length_alter, E.
  - unfold drop_sink. destruct (kcalls s !! h0); [|done]. cbn [mbind option_bind]. destruct (k_sink _); [|done]. cbn [mbind option_bind].
    destruct (awaits _); [|done]. intros [= <-]. left. by simpl; rewrite length_alter.
  - destruct (reader s); try done. intros [= <-]. by left.
  - destruct (reader s); try done. intros [= <-]. by left.
  - unfold exec_reader. intros He. left. destruct (reader s) as [|id0 h0 body|id0 r tx|h0 r tx|h0 r tx|h0|h0 m|id0 h0| | |]; try done;
      try (destruct (kcalls s !! h0) as [k0|]; [|done]; cbn [mbind option_bind] in He); repeat case_match; simplify_eq; (split; [done|]; by simpl; rewrite ?length_alter).
  - destruct (reader s); try done. destruct (dropped s); [|done]. intros [= <-]. by left.
  - intros (E & _ & _ & _ & En & _)%actor_frame. left. by rewrite E.
  - unfold drop_transport. destruct (_ || _); [done|]. intros [= <-]. by left.
Qed.
Lemma ids_below evs s :
  exec_all evs Client_new = Some s → Z.of_nat (length evs) < u64_max →
  1 ≤ next_id s ≤ Z.of_nat (length evs) + 1 ∧
  ∀ h k, kcalls s !! h = Some k → 1 ≤ k_id k < next_id s ∧ ∀ h' k', kcalls s !! h' = Some k' → (h < h')%nat → k_id k < k_id k'.
Proof.
  apply (run_ind serialize (λ n s, Z.of_nat n < u64_max → 1 ≤ next_id s ≤ Z.of_nat n + 1 ∧ ∀ h k, kcalls s !! h = Some k →
    1 ≤ k_id k < next_id s ∧ ∀ h' k', kcalls s !! h' = Some k' → (h < h')%nat → k_id k < k_id k')); [done|].
  intros n ev s0 s1 IH He Hn. destruct IH as [Hnext Hids]; [lia|].
  assert (next_id s0 ≤ next_id s1 ≤ next_id s0 + 1 ∧ ((length (kcalls s0) < length (kcalls s1))%nat → next_id s0 < next_id s1)) as [Hle Hnew].
  { destruct (next_change _ _ _ He) as [[-> ->]| ->]; [split; lia|]. unfold id_succ. destruct (Z.eqb_spec (next_id s0) u64_max); lia. }
  split; [lia|].
  assert (∀ h k, kcalls s1 !! h = Some k → (∃ k0, kcalls s0 !! h = Some k0 ∧ k_id k0 = k_id k) ∨ kcalls s0 !! h = None ∧ k_id k = next_id s0 ∧ next_id s0 < next_id s1) as Hold.
  { intros h k Hk. destruct (kcalls s0 !! h) as [k0|] eqn:Hk0; [left; exists k0; split; [done|]|right; split; [done|]].
    - destruct (exec_change _ _ _ _ _ Hk0 He) as (k' & Hk' & Hch). simplify_eq. destruct Hch as [k' []| | |poll k' _ Hev Hk2]; try done.
      revert Hev. unfold exec_recv. rewrite Hk0. cbn [mbind option_bind]. intros Hev. clear -Hev Hk2 Hk0.
      repeat case_match; simplify_eq; simpl in Hk2; rewrite list_lookup_alter_eq, Hk0 in Hk2; by simplify_eq/=.
    - destruct (fresh_call _ _ _ _ _ He Hk0 Hk) as (_ & -> & Hid). split; [done|]. apply Hnew. by apply lookup_lt_Some in Hk. }
  intros h k Hk. destruct (Hold h k Hk) as [(k0 & Hk0 & <-)|(Hk0 & -> & Hlt)].
  - destruct (Hids h k0 Hk0) as [Hb Hs]. split; [lia|]. intros h' k' Hk' Hh. destruct (Hold h' k' Hk') as [(k0' & Hk0' & <-)|(_ & -> & _)]; [by eapply Hs|lia].
  - split; [lia|]. intros h' k' Hk' Hh. apply lookup_ge_None in Hk0. destruct (Hold h' k' Hk') as [(k0' & Hk0' & _)|(Hk0' & _ & _)].
    + apply lookup_lt_Some in Hk0'. lia.
    + destruct (fresh_call _ _ _ _ _ He Hk0' Hk') as (_ & -> & _).
      assert (kcalls s0 !! h = None) as Hn0 by by apply lookup_ge_None. destruct (fresh_call _ _ _ _ _ He Hn0 Hk) as (_ & -> & _). lia.
Qed.
(** No two calls of a transport get the same id, in runs shorter than the counter's
    range. *)
Theorem call_ids_unique evs s h h' k k' :
  exec_all evs Client_new = Some s → Z.of_nat (length evs) < u64_max →
  kcalls s !! h = Some k → kcalls s !! h' = Some k' → k_id k = k_id k' → h = h'.
Proof.
  intros He Hn Hk Hk' Heq. destruct (ids_below evs s He Hn) as [_ Hids]. destruct (lt_eq_lt_dec h h') as [[Hlt| ->]|Hgt]; [|done|].
  - destruct (Hids h k Hk) as [_ Hs]. specialize (Hs h' k' Hk' Hlt). lia.
  - destruct (Hids h' k' Hk') as [_ Hs]. specialize (Hs h k Hk Hgt). lia.
Qed.
(** An item that finds its call's buffer full is not stored: the call leaves the table
    and its terminal reply is the overflow error, whatever the consumer does. *)
Theorem overflow_ends_the_call s id h b k :
  reader s = RdItem id h b → table s !! id = Some h → kcalls s !! h = Some k → k_owner k ≠ ODropped → (REPLY_BUFFER ≤ length (k_items k))%nat →
  ∃ s' k', exec_all (repeat (EReader false) 4) s = Some s' ∧ kcalls s' !! h = Some k' ∧
    k_lane k' = Some ReplyOverflow ∧ k_active k' = false ∧ k_items k' = k_items k ∧ k_arrived k' = k_arrived k ∧
    table s' = delete id (table s) ∧ reader s' = RdCancel h.
Proof.
  intros Hr Ht Hk Ho Hfull. apply Nat.ltb_ge in Hfull.
  assert (exec (EReader false) s = Some (set_reader (RdTake id ReplyOverflow (Some h)) s)) as E.
  { simpl. unfold exec_reader. rewrite Hr, Hk. simpl. rewrite Hfull. by destruct (k_owner k). }
  change (repeat (EReader false) 4) with (EReader false :: repeat (EReader false) 3). cbn [RpcClient.exec_all]. rewrite E. simpl. rewrite Ht. simpl.
  eexists _, (set_lane ReplyOverflow (deactivate k)). split; [done|]. simpl. split; [by rewrite !list_lookup_alter_eq, Hk|done].
Qed.

(** ** The end of a transport *)

(** Once the last handle of a transport is gone and its queue has been drained, the
    writer task does not end by itself: nothing moves until the drain deadline. *)
Theorem drained_writer_waits s ev s' :
  reachable s → dropped s = true → reader s = RdDone → actor s = ADrain → queue s = [] → shutdown s = false →
  exec ev s = Some s' → ev = EActor AcAbort.
Proof.
  intros [_ _ Hl]%inv_reachable Hd Hr Ha Hq Hsh He. destruct (li_gone _ Hl Hd) as [_ Hall].
  assert (∀ h k, kcalls s !! h = Some k → k_owner k = ODropped ∧ k_sink k = None) as Hgone.
  { intros h k Hk. pose proof (Hall h k Hk) as Hg. unfold gone in Hg. by destruct (k_owner k), (k_sink k). }
  destruct ev as [path streaming payload|h full|h|h|h|h item|h|h|m| |full| |st|]; simpl in He;
    unfold exec_owner, drop_owner, exec_recv, exec_sink, drop_sink, exec_reader, exec_actor, drop_transport in He;
    rewrite ?Hd, ?Hr, ?Ha, ?Hq, ?Hsh in He; try done;
    try (destruct (kcalls s !! h) as [k|] eqn:Hk; [|done]; cbn [mbind option_bind] in He; destruct (Hgone h k Hk) as [E1 E2]; by rewrite ?E1, ?E2 in He).
  by destruct st.
Qed.
End Safety.

(** ** Concrete runs *)

Definition toy (m : WireMessage) : result bytes TransportError := Ok [].
Definition body1 : bytes := [Byte.x01].
(** A call is opened and its request written. *)
Definition open_run : list Event :=
  [EOpen "svc/rpc" false []] ++ repeat (EOwner 0 false) 4 ++ [EActor AcNext; EActor AcNext; EOwner 0 false].
Definition items_run (n : nat) : list Event := concat (repeat [ERead (MStreamItem 1 body1); EReader false] n).
Definition end_run : list Event := [ERead (MStreamEnd 1)] ++ repeat (EReader false) 3.
Definition stream_run : list Event := open_run ++ items_run 2 ++ end_run ++ repeat (ERecv 0) 4.
Definition state_of (evs : list Event) : Client := default Client_new (exec_all toy evs Client_new).
Definition call_of (evs : list Event) : Call := default (mkCall 0 [] None false false ODropped None [] []) (kcalls (state_of evs) !! 0%nat).

Lemma recv_in_order_witness : k_got (call_of stream_run) = [Some (ReplyItem body1); Some (ReplyItem body1); Some ReplyEnd] ∧
  ∃ items ends, k_got (call_of stream_run) = items_of items ++ ends.
Proof.
  split; [by vm_compute|].
  destruct (recv_in_order toy stream_run (state_of stream_run) 0 (call_of stream_run)) as (items & ends & Hg & _); [by vm_compute| |by vm_compute|by eauto].
  rewrite list_elem_of_In. vm_compute. by repeat (intros [?|H]; [done|revert H]).
Defined.
Lemma stream_reachable : reachable toy (state_of stream_run).
Proof. exists stream_run. by vm_compute. Qed.
Lemma frames_in_order_witness : accepted (state_of stream_run) = frames (state_of stream_run).
Proof. apply (frames_in_order toy (state_of stream_run) stream_reachable). by vm_compute. Defined.
Lemma acknowledged_is_written_witness : ∃ m, is_request 1 m ∧ (m, true) ∈ wire (state_of stream_run).
Proof.
  destruct (acknowledged_is_written toy (state_of stream_run) stream_reachable) as [H _].
  apply (H 0%nat (call_of stream_run) RecvIdle); by vm_compute.
Defined.

(** The connection breaks while a call waits for its reply. *)
Definition break_run : list Event := open_run ++ [EReadEnds; EReader false; EReader false; EActor AcShutdown; EActor AcNext].
Lemma break_reachable : reachable toy (state_of break_run).
Proof. exists break_run. by vm_compute. Qed.
Lemma nobody_waits_for_the_dead_witness : ∃ s', exec_recv false 0 (state_of break_run) = Some s'.
Proof.
  destruct (nobody_waits_for_the_dead toy (state_of break_run) 0 (call_of break_run) break_reachable) as [H _]; [by vm_compute..|].
  assert (k_owner (call_of break_run) = OSource RecvIdle) as E by by vm_compute. by rewrite E in H.
Defined.
Definition two_calls : list Event := [EOpen "a" false []; EOpen "b" false []].
Lemma call_ids_unique_witness : length (kcalls (state_of two_calls)) = 2%nat ∧ 0%nat = 0%nat.
Proof.
  split; [by vm_compute|].
  by apply (call_ids_unique toy two_calls (state_of two_calls) 0 0 (call_of two_calls) (call_of two_calls)); vm_compute.
Defined.
Definition full_run : list Event := open_run ++ items_run 32 ++ [ERead (MStreamItem 1 body1)].
Lemma overflow_ends_the_call_witness :
  ∃ s' k', exec_all toy (repeat (EReader false) 4) (state_of full_run) = Some s' ∧ kcalls s' !! 0%nat = Some k' ∧ k_lane k' = Some ReplyOverflow.
Proof.
  destruct (overflow_ends_the_call toy (state_of full_run) 1 0 body1 (call_of full_run)) as (s' & k' & H1 & H2 & H3 & _);
    [by vm_compute|by vm_compute|by vm_compute|by vm_compute|vm_compute; lia|].
  exists s', k'. exact (conj H1 (conj H2 H3)).
Defined.
Definition drop_run : list Event := [EDropTransport; EAborted; EActor AcDrain].
Lemma drained_writer_waits_witness : ∃ ev s', exec toy ev (state_of drop_run) = Some s' ∧ ev = EActor AcAbort.
Proof.
  assert (reachable toy (state_of drop_run)) as Hr by (exists drop_run; by vm_compute).
  destruct (exec toy (EActor AcAbort) (state_of drop_run)) as [s'|] eqn:He; [|by vm_compute in He].
  exists (EActor AcAbort), s'. split; [done|]. apply (drained_writer_waits toy (state_of drop_run) (EActor AcAbort) s' Hr); by vm_compute || exact He.
Defined.

(** A stream polls the items, finds none, and then polls the terminal lane. An item and
    the end that the read loop delivers in between make it report the end of the
    stream with the item still unread. *)
Theorem poll_recv_loses_item :
  ∃ s k, reachable toy s ∧ kcalls s !! 0%nat = Some k ∧ k_got k = [Some ReplyEnd] ∧ k_items k = [body1] ∧
         decode_item (Resp := bytes) Ok (Some ReplyEnd) = None.
Proof.
  pose (evs := open_run ++ [EPoll 0] ++ items_run 1 ++ end_run ++ [EPoll 0]).
  exists (state_of evs), (call_of evs). split; [exists evs; by vm_compute|]. by vm_compute.
Qed.
