(* ===== verification/RpcRoutes.v ===== *)
(** * RpcRoutes: services, routes, middleware and errors of the RPC protocol

    Models [routes.rs], [router.rs], [middleware/mod.rs], [error.rs], the extraction
    and conversion of [extract.rs] and [RpcPlugin::build] of [plugin.rs], all under
    [crates/rpc/src/]. User code (handlers, guards, middleware, error handlers) is a
    function that returns or panics; [postcard] is an argument. *)
From S2P Require Import Prelude CoreTypes DiTypes WireStatus WireFrame.

(** What running user code gives. *)
Inductive run (A : Type) := Returned (a : A) | Panicked.
Arguments Returned {A} a.
Arguments Panicked {A}.
#[export] Instance run_ret : MRet run := λ A a, Returned a.
#[export] Instance run_bind : MBind run := λ A B f r, match r with Returned a => f a | Panicked => Panicked end.

(** ** Errors *)

Record ErrorResponse := mkError { code : StatusCode; body : bytes }.
(** [Error]; the errors of the other crates are opaque here. *)
Inductive RpcError :=
| DuplicateServiceId (id : string)
| DuplicateRpcName (service rpc : string)
| DuplicateRpcPath (path : string)
| EmptyService (name : string)
| RouteNotFound (path : string)
| InvalidPayload (msg : string)
| NotStreaming
| SerializationFailed (msg : string)
| MissingComponent (name : string)
| AppError (msg : string)
| ConfigError (msg : string)
| TransportFailed (e : TransportError)
| DiError (msg : string).
(** [Error::status_code] and the public message of [error_response]. *)
Definition status_code (e : RpcError) : StatusCode :=
  status_of match e with
            | InvalidPayload _ | NotStreaming => BadInput
            | RouteNotFound _ => NotFound
            | _ => Internal
            end.
Definition public_message (e : RpcError) : string :=
  match e with
  | InvalidPayload _ => "invalid request payload"
  | NotStreaming => "request stream required"
  | RouteNotFound _ => "route not found"
  | _ => "internal server error"
  end.

Section Rpc.
(** [postcard::to_allocvec] on strings. *)
Context (encode_str : string → result bytes string).
(** [ErrorResponse::with_serialized_body], given what serializing gave. *)
Definition with_serialized_body (c : StatusCode) (encoded : result bytes string) : ErrorResponse :=
  mkError c (match encoded with Ok b => b | Err _ => [] end).
Definition error_response (e : RpcError) : ErrorResponse := with_serialized_body (status_code e) (encode_str (public_message e)).
(** [ResponseError::error_response] of a serializable error. *)
Definition default_error_response (encoded : result bytes string) : ErrorResponse := with_serialized_body (status_of Internal) encoded.

(** ** Handlers *)

(** [Stream::next] up to the end of the stream. *)
Inductive StreamStep := SItem (item : bytes) | SFault (e : ErrorResponse) | SPanic.
Inductive RpcOutcome := Unary (payload : bytes) | Stream (steps : list StreamStep).
Context {Ctx : Type}.
Definition RpcHandler := Ctx → run (result RpcOutcome ErrorResponse).

(** [FromContext]: extraction may fail with an [Error]; one parameter after another. *)
Definition Extractor (A : Type) := Ctx → run (result A RpcError).
Fixpoint extract_all {A} (params : list (Extractor A)) (ctx : Ctx) : run (result (list A) RpcError) :=
  match params with
  | [] => Returned (Ok [])
  | p :: params' =>
      r ← p ctx;
      match r with
      | Err e => Returned (Err e)
      | Ok a =>
          rs ← extract_all params' ctx;
          Returned (match rs with Err e => Err e | Ok l => Ok (a :: l) end)
      end
  end.
(** [Responder::respond]: a serializable value, or a stream. *)
Inductive Response := RValue (encoded : result bytes string) | RStream (steps : list StreamStep).
Definition respond (r : Response) : result RpcOutcome ErrorResponse :=
  match r with
  | RValue (Ok payload) => Ok (Unary payload)
  | RValue (Err msg) => Err (error_response (SerializationFailed msg))
  | RStream steps => Ok (Stream steps)
  end.
(** [Handler::call] and [FallibleHandler::call]; the error of the latter is what its
    [error_response] gives. *)
Definition dispatch_with {A} (params : list (Extractor A)) (f : list A → run Response) : RpcHandler := λ ctx,
  args ← extract_all params ctx;
  match args with
  | Err e => Returned (Err (error_response e))
  | Ok args => out ← f args; Returned (respond out)
  end.
Definition dispatch_fallible {A} (params : list (Extractor A)) (f : list A → run (result Response ErrorResponse)) : RpcHandler := λ ctx,
  args ← extract_all params ctx;
  match args with
  | Err e => Returned (Err (error_response e))
  | Ok args => out ← f args; Returned (match out with Ok r => respond r | Err e => Err e end)
  end.
(** [ResponseStream::from_results]: the frames of a stream of results. *)
Definition from_results (l : list (run (result (result bytes ErrorResponse) ErrorResponse))) : list StreamStep :=
  (λ r, match r with
        | Panicked => SPanic
        | Returned (Ok (Ok frame)) => SItem frame
        | Returned (Ok (Err e)) | Returned (Err e) => SFault e
        end) <$> l.

(** ** Services and routes *)

Record RpcDescriptor := mkRpc { rpc_name : string; handler : RpcHandler }.
Record RpcGroup := mkGroup { group_service : TypeDescriptor; group_rpcs : list RpcDescriptor }.
Record ServiceDescriptor := mkService { id : string; name : string; ty : TypeDescriptor; version : option string; rpcs_of : list RpcGroup }.
Record ResolvedService := mkResolved { descriptor : ServiceDescriptor; rpcs : list RpcDescriptor }.
(** [resolved_services]: the filter remembers the types it has seen. *)
Fixpoint resolved_loop (seen : list TypeId) (services : list ServiceDescriptor) : list ResolvedService :=
  match services with
  | [] => []
  | d :: rest =>
      if bool_decide (type_id (ty d) ∈ seen) then resolved_loop seen rest
      else mkResolved d (concat (group_rpcs <$> rpcs_of d)) :: resolved_loop (type_id (ty d) :: seen) rest
  end.
Definition resolved_services (services : list ServiceDescriptor) : list ResolvedService := resolved_loop [] services.
Definition rpc_path (s : ServiceDescriptor) (r : RpcDescriptor) : string := (name s ++ "." ++ rpc_name r)%string.

(** [validate_services] *)
Fixpoint validate_rpcs (s : ServiceDescriptor) (l : list RpcDescriptor) (seen_names seen_paths : gset string) : result (gset string) RpcError :=
  match l with
  | [] => Ok seen_paths
  | r :: l' =>
      if bool_decide (rpc_name r ∈ seen_names) then Err (DuplicateRpcName (name s) (rpc_name r))
      else if bool_decide (rpc_path s r ∈ seen_paths) then Err (DuplicateRpcPath (rpc_path s r))
      else validate_rpcs s l' ({[rpc_name r]} ∪ seen_names) ({[rpc_path s r]} ∪ seen_paths)
  end.
Fixpoint validate_loop (services : list ResolvedService) (seen_ids seen_paths : gset string) : result unit RpcError :=
  match services with
  | [] => Ok tt
  | s :: rest =>
      if bool_decide (id (descriptor s) ∈ seen_ids) then Err (DuplicateServiceId (id (descriptor s)))
      else
        match rpcs s with
        | [] => Err (EmptyService (name (descriptor s)))
        | l =>
            match validate_rpcs (descriptor s) l ∅ seen_paths with
            | Err e => Err e
            | Ok seen_paths' => validate_loop rest ({[id (descriptor s)]} ∪ seen_ids) seen_paths'
            end
        end
  end.
Definition validate_services (services : list ResolvedService) : result unit RpcError := validate_loop services ∅ ∅.

(** [RpcRouter::from_services] and [dispatch] *)
Definition service_routes (s : ResolvedService) : list (string * RpcHandler) := (λ r, (rpc_path (descriptor s) r, handler r)) <$> rpcs s.
Definition from_services (services : list ResolvedService) : gmap string RpcHandler :=
  foldl (λ m p, <[p.1 := p.2]> m) ∅ (concat (service_routes <$> services)).
Definition route_count (routes : gmap string RpcHandler) : nat := size routes.
Definition dispatch (routes : gmap string RpcHandler) (path : string) : RpcHandler := λ ctx,
  match routes !! path with
  | Some h => h ctx
  | None => Returned (Err (error_response (RouteNotFound path)))
  end.

(** ** Middleware *)

Definition RpcService := string → RpcHandler.
Definition Layer := RpcService → RpcService.
(** [GuardService::call] *)
Definition guard_layer (check : Ctx → run (result unit ErrorResponse)) : Layer := λ inner path ctx,
  r ← check ctx;
  match r with Err e => Returned (Err e) | Ok _ => inner path ctx end.
(** The fold of [RpcPlugin::build]. *)
Definition apply_layers (layers : list Layer) (terminal : RpcService) : RpcService :=
  foldl (λ service layer, layer service) terminal (reverse layers).
(** [RpcPlugin::build]; [peer_id] is the type of [PeerInfo]. *)
Record Rpc := mkRpcProtocol { router : gmap string RpcHandler; service : RpcService; needs_peer : bool }.
Definition depends_on_peer {C} (peer_id : TypeId) (components : list (ComponentDescriptor C)) : bool :=
  existsb (λ c, negb (component_ty_id c =? peer_id) && existsb (λ d, type_id (dep_ty d) =? peer_id) (dependencies c)) components.
Definition build {C} (services : list ServiceDescriptor) (layers : list Layer) (peer_id : TypeId) (components : list (ComponentDescriptor C)) : result Rpc RpcError :=
  let resolved := resolved_services services in
  match validate_services resolved with
  | Err e => Err e
  | Ok _ =>
      let routes := from_services resolved in
      Ok (mkRpcProtocol routes (apply_layers layers (dispatch routes)) (depends_on_peer peer_id components))
  end.
End Rpc.

(** ** What validation accepts *)

Section Properties.
Context (encode_str : string → result bytes string) {Ctx : Type}.
#[local] Abbreviation RpcHandler := (@RpcHandler Ctx).
#[local] Abbreviation RpcDescriptor := (@RpcDescriptor Ctx).
#[local] Abbreviation ServiceDescriptor := (@ServiceDescriptor Ctx).
#[local] Abbreviation ResolvedService := (@ResolvedService Ctx).

Definition paths (s : ResolvedService) : list string := rpc_path (descriptor s) <$> rpcs s.
Definition all_paths (services : list ResolvedService) : list string := concat (paths <$> services).

Lemma string_app_inj_l (a b c : string) : (a ++ b = a ++ c)%string → b = c.
Proof. induction a as [|x a IH]; simpl; [done|]. intros [= H]. auto. Qed.
Lemma rpc_path_inj (s : ServiceDescriptor) (r r' : RpcDescriptor) : rpc_path s r = rpc_path s r' → rpc_name r = rpc_name r'.
Proof. unfold rpc_path. intros H. by do 2 apply string_app_inj_l in H. Qed.
Lemma validate_rpcs_ok (s : ServiceDescriptor) l names seen seen' :
  validate_rpcs s l names seen = Ok seen' ↔
  NoDup (rpc_path s <$> l) ∧ (∀ r, r ∈ l → (rpc_name r ∉ names) ∧ (rpc_path s r ∉ seen)) ∧ seen' = (list_to_set (rpc_path s <$> l) ∪ seen :> gset string).
Proof.
  revert names seen. induction l as [|r l IH]; intros names seen; simpl.
  - split; [intros [= <-]; split; [constructor|]; split; [by intros r Hr%not_elem_of_nil|set_solver]|intros (_ & _ & ->); f_equal; set_solver].
  - case_bool_decide as Hn.
    { split; [done|]. intros (_ & H & _). by destruct (H r) as [? _]; [left|]. }
    case_bool_decide as Hp.
    { split; [done|]. intros (_ & H & _). by destruct (H r) as [_ ?]; [left|]. }
    rewrite IH, NoDup_cons. split.
    + intros (Hnd & Hall & ->). split; [split; [|done]|split; [|set_solver]].
      * intros (r' & Heq & Hr')%list_elem_of_fmap. destruct (Hall r' Hr') as [_ H]. set_solver.
      * intros r' [-> |Hr']%elem_of_cons; [done|]. destruct (Hall r' Hr'). set_solver.
    + intros ([Hnin Hnd] & Hall & ->). split; [done|]. split; [|set_solver]. intros r' Hr'. destruct (Hall r') as [H1 H2]; [by right|].
      assert (rpc_path s r' ≠ rpc_path s r) as Hne by (intros E; apply Hnin; rewrite <- E; by apply list_elem_of_fmap_2).
      split; [|set_solver]. intros [E%elem_of_singleton|?]%elem_of_union; [|done]. apply Hne. unfold rpc_path. by rewrite E.
Qed.
Lemma validate_loop_cons (s : ResolvedService) rest ids seen :
  rpcs s ≠ [] → validate_loop (s :: rest) ids seen =
    if bool_decide (id (descriptor s) ∈ ids) then Err (DuplicateServiceId (id (descriptor s)))
    else match validate_rpcs (descriptor s) (rpcs s) ∅ seen with
         | Err e => Err e
         | Ok seen' => validate_loop rest ({[id (descriptor s)]} ∪ ids) seen'
         end.
Proof. intros Hne. cbn [validate_loop]. by destruct (rpcs s). Qed.
Lemma validate_loop_ok (services : list ResolvedService) ids seen :
  validate_loop services ids seen = Ok tt ↔
  (NoDup ((λ s, id (descriptor s)) <$> services) ∧ ∀ s, s ∈ services → id (descriptor s) ∉ ids) ∧ Forall (λ s, rpcs s ≠ []) services ∧
  NoDup (all_paths services) ∧ ∀ p, p ∈ all_paths services → p ∉ seen.
Proof.
  revert ids seen. induction services as [|s rest IH]; intros ids seen.
  - simpl. split; [|done]. intros _. split; [split; [constructor|by intros s Hs%not_elem_of_nil]|]. split; [done|]. split; [constructor|].
    by intros p Hp%not_elem_of_nil.
  - change (all_paths (s :: rest)) with (paths s ++ all_paths rest). rewrite fmap_cons, NoDup_cons, Forall_cons, NoDup_app.
    destruct (decide (rpcs s = [])) as [Hr|Hr]; [simpl; rewrite Hr; case_bool_decide; (split; [done|by intros (_ & [? _] & _)])|].
    rewrite validate_loop_cons by done. case_bool_decide as Hid.
    { split; [done|]. intros ((_ & H) & _). by destruct (H s); [left|]. }
    destruct (validate_rpcs (descriptor s) (rpcs s) ∅ seen) as [seen'|e] eqn:Hv.
    + apply validate_rpcs_ok in Hv as (Hnd & Hall & ->). rewrite IH. fold (paths s) in *. split.
      * intros ([Hi Hi'] & Hne & Hnd' & Hdis). split.
        { split; [split; [|done]|].
          - intros (s' & Heq & Hs')%list_elem_of_fmap. specialize (Hi' s' Hs'). set_solver.
          - intros s' [-> |Hs']%elem_of_cons; [done|]. specialize (Hi' s' Hs'). set_solver. }
        split; [split; [done|done]|]. split; [split; [done|split; [|done]]|].
        { intros p Hp Hp'. specialize (Hdis p Hp'). set_solver. }
        { intros p [Hp|Hp]%elem_of_app; [|specialize (Hdis p Hp); set_solver].
          unfold paths in Hp. apply list_elem_of_fmap in Hp as (r' & -> & Hr'). by apply Hall. }
      * intros ([[Hi Hi''] Hi'] & [_ Hne] & (Hnd1 & Hdis & Hnd2) & Hseen). split.
        { split; [done|]. intros s' Hs'. specialize (Hi' s'). assert (id (descriptor s') ≠ id (descriptor s)).
          { intros E. apply Hi. rewrite <- E. by apply (list_elem_of_fmap_2 (λ s, id (descriptor s))). }
          assert (id (descriptor s') ∉ ids) by (apply Hi'; by right). set_solver. }
        split; [done|]. split; [done|]. intros p Hp. assert (p ∉ seen) by (apply Hseen, elem_of_app; by right).
        assert (p ∉ paths s) by (intros Hin; by apply (Hdis p)). set_solver.
    + split; [done|]. intros (_ & _ & (Hnd1 & _ & _) & Hseen). exfalso.
      assert (validate_rpcs (descriptor s) (rpcs s) ∅ seen = Ok (list_to_set (rpc_path (descriptor s) <$> rpcs s) ∪ seen)) as Hok; [|congruence].
      apply validate_rpcs_ok. split; [done|]. split; [|done]. intros r' Hr'. split; [set_solver|]. apply Hseen, elem_of_app. left.
      by apply (list_elem_of_fmap_2 (rpc_path (descriptor s))).
Qed.

(** Validation accepts exactly the services with distinct ids, at least one method
    each, and distinct paths over all services. *)
Theorem validate_services_spec (services : list ResolvedService) :
  validate_services services = Ok tt ↔
  NoDup ((λ s, id (descriptor s)) <$> services) ∧ Forall (λ s, rpcs s ≠ []) services ∧ NoDup (all_paths services).
Proof.
  unfold validate_services. rewrite validate_loop_ok. split; [by intros ((? & _) & ? & ? & _)|].
  intros (? & ? & ?). split; [split; [done|]|split; [done|split; [done|]]]; intros; apply not_elem_of_empty.
Qed.

(** ** Routing *)

Lemma foldl_insert_lookup (l : list (string * RpcHandler)) (m : gmap string RpcHandler) p h :
  NoDup l.*1 → (p, h) ∈ l → foldl (λ m q, <[q.1 := q.2]> m) m l !! p = Some h.
Proof.
  revert m. induction l as [|q l IH]; intros m; simpl; [by intros _ ?%not_elem_of_nil|].
  intros [Hnin Hnd]%NoDup_cons [<- |Hin]%elem_of_cons; [|by apply IH]. clear IH. simpl in *.
  assert (∀ m : gmap string RpcHandler, m !! p = Some h → foldl (λ m q, <[q.1 := q.2]> m) m l !! p = Some h) as H; [|apply H, lookup_insert_eq].
  clear Hnd m. induction l as [|q l IH]; intros m Hm; simpl; [done|]. simpl in Hnin. rewrite not_elem_of_cons in Hnin. destruct Hnin as [Hne Hnin].
  apply IH; [done|]. by rewrite lookup_insert_ne by congruence.
Qed.
Lemma foldl_insert_source (l : list (string * RpcHandler)) (m : gmap string RpcHandler) p h :
  foldl (λ m q, <[q.1 := q.2]> m) m l !! p = Some h → (p, h) ∈ l ∨ m !! p = Some h.
Proof.
  revert m. induction l as [|[p' h'] l IH]; intros m; simpl; [by right|]. intros [Hin|Hm]%IH; [left; by right|].
  simpl in Hm. apply lookup_insert_Some in Hm as [[<- <-]|[_ Hm]]; [left; by left|by right].
Qed.
Lemma routes_paths (services : list ResolvedService) : (concat (service_routes <$> services)).*1 = all_paths services.
Proof.
  induction services as [|s rest IH]; [done|]. rewrite fmap_cons. cbn [concat]. rewrite fmap_app, IH.
  change (all_paths (s :: rest)) with (paths s ++ all_paths rest). f_equal. unfold service_routes, paths. by rewrite <- list_fmap_compose.
Qed.
Lemma dispatch_reaches (services : list ResolvedService) :
  validate_services services = Ok tt →
  (∀ s r ctx, s ∈ services → r ∈ rpcs s → dispatch encode_str (from_services services) (rpc_path (descriptor s) r) ctx = handler r ctx) ∧
  (∀ p ctx, p ∉ all_paths services →
     dispatch encode_str (from_services services) p ctx = Returned (Err (error_response encode_str (RouteNotFound p)))).
Proof.
  intros (_ & _ & Hnd)%validate_services_spec. rewrite <- routes_paths in Hnd. split.
  - intros s r ctx Hs Hr. unfold dispatch, from_services. rewrite (foldl_insert_lookup _ ∅ _ (handler r)); [done|done|].
    apply list_elem_of_In, in_concat. exists (service_routes s). rewrite <- !list_elem_of_In. split; [by apply list_elem_of_fmap_2|].
    unfold service_routes. by apply (list_elem_of_fmap_2 (λ r, (rpc_path (descriptor s) r, handler r))).
  - intros p ctx Hp. unfold dispatch. destruct (from_services services !! p) as [h|] eqn:Hl; [|done]. exfalso. apply Hp.
    apply foldl_insert_source in Hl as [Hin|Hin]; [|by rewrite lookup_empty in Hin]. rewrite <- routes_paths.
    by apply (list_elem_of_fmap_2 fst _ (p, h)).
Qed.
(** Every method of a validated set of services is reached under its own path, and any
    other path is answered with the not-found error. *)
Theorem validated_routes_reach (services : list ResolvedService) :
  validate_services services = Ok tt →
  (∀ s r ctx, s ∈ services → r ∈ rpcs s → dispatch encode_str (from_services services) (rpc_path (descriptor s) r) ctx = handler r ctx) ∧
  (∀ p ctx, p ∉ all_paths services →
     dispatch encode_str (from_services services) p ctx = Returned (Err (error_response encode_str (RouteNotFound p)))).
Proof. apply dispatch_reaches. Qed.

(** ** Middleware *)

Lemma apply_layers_cons (l : @Layer Ctx) ls t : apply_layers (l :: ls) t = l (apply_layers ls t).
Proof. unfold apply_layers. by rewrite reverse_cons, foldl_snoc. Qed.
(** The checks in registration order, up to the first that rejects or panics. *)
Fixpoint admit_all (checks : list (Ctx → run (result unit ErrorResponse))) (ctx : Ctx) : run (result unit ErrorResponse) :=
  match checks with
  | [] => Returned (Ok tt)
  | c :: cs => r ← c ctx; match r with Err e => Returned (Err e) | Ok _ => admit_all cs ctx end
  end.
Lemma guards_compose checks (terminal : @RpcService Ctx) path ctx :
  apply_layers (guard_layer <$> checks) terminal path ctx =
  r ← admit_all checks ctx; match r with Err e => Returned (Err e) | Ok _ => terminal path ctx end.
Proof.
  induction checks as [|c cs IH]; [done|]. rewrite fmap_cons, apply_layers_cons. unfold guard_layer at 1. simpl.
  destruct (c ctx) as [[[]|e]|]; simpl; [by rewrite IH|done|done].
Qed.
(** Guards run in the order they were registered; the handler runs only when all of
    them admit the call, and the first rejection is the answer. *)
Theorem guards_in_order checks (terminal : @RpcService Ctx) path ctx :
  apply_layers (guard_layer <$> checks) terminal path ctx =
  r ← admit_all checks ctx; match r with Err e => Returned (Err e) | Ok _ => terminal path ctx end.
Proof. apply guards_compose. Qed.
End Properties.

(** ** Concrete services *)

Definition toy_encode (s : string) : result bytes string := Ok [].
Definition toy_rpc (n : string) (b : bytes) : @RpcDescriptor unit := mkRpc n (λ _, Returned (Ok (Unary b))).
Definition toy_service (i n : string) (t : TypeId) (l : list (@RpcDescriptor unit)) : ServiceDescriptor :=
  mkService i n (mkType n n t) None [mkGroup (mkType n n t) l].
Definition toy_services : list ServiceDescriptor :=
  [toy_service "a" "Greeter" 1 [toy_rpc "hello" [Byte.x01]; toy_rpc "bye" [Byte.x02]]; toy_service "b" "Clock" 2 [toy_rpc "now" [Byte.x03]]].
Definition toy_resolved : list ResolvedService := resolved_services toy_services.
Lemma validated_routes_reach_witness :
  dispatch toy_encode (from_services toy_resolved) "Clock.now" tt = Returned (Ok (Unary [Byte.x03])).
Proof.
  assert (validate_services toy_resolved = Ok tt) as Hv by by vm_compute.
  destruct (validated_routes_reach toy_encode toy_resolved Hv) as [H _].
  apply (H (mkResolved (toy_service "b" "Clock" 2 [toy_rpc "now" [Byte.x03]]) [toy_rpc "now" [Byte.x03]]) (toy_rpc "now" [Byte.x03]) tt).
  - right. left.
  - left.
Defined.
