(* ===== verification/RpcServe.v ===== *)
(** * RpcServe: serving RPC calls

    Models [crates/rpc/src/protocol.rs]: the admission limits, the accept loop, the
    loop of a connection and [drive_call], which runs one call and answers it. The
    operations a call performs on its responder are those of [StreamConn]. *)
From S2P Require Import Prelude CoreTypes WireStatus WireFrame StreamConn RpcRoutes.

(** ** Limits *)

Definition DEFAULT_MAX_CONNECTIONS : Z := 1024.
Definition DEFAULT_MAX_CALLS_PER_CONNECTION : Z := 256.
Definition DEFAULT_ACCEPT_RETRY_INITIAL : Z := 25 * 1000000.
Definition DEFAULT_ACCEPT_RETRY_MAX : Z := 1000000000.
(** [Duration::MAX] in nanoseconds. *)
Definition duration_max : Z := (2 ^ 64 - 1) * 1000000000 + 999999999.
Record RpcLimits := mkLimits {
  max_connections : Z;
  max_calls_per_connection : Z;
  accept_retry_initial : Z;
  accept_retry_max : Z;
}.
(** [RpcLimits::new] and [with_accept_backoff]; [None] is a failed assertion. *)
Definition RpcLimits_new (connections calls : Z) : option RpcLimits :=
  if (0 <? connections) && (0 <? calls)
  then Some (mkLimits connections calls DEFAULT_ACCEPT_RETRY_INITIAL DEFAULT_ACCEPT_RETRY_MAX) else None.
Definition with_accept_backoff (l : RpcLimits) (initial maximum : Z) : option RpcLimits :=
  if negb (initial =? 0) && (initial <=? maximum)
  then Some (mkLimits (max_connections l) (max_calls_per_connection l) initial maximum) else None.
(** The next delay: [saturating_mul(2).min(max)]. *)
Definition next_retry (l : RpcLimits) (retry : Z) : Z := Z.min (Z.min (2 * retry) duration_max) (accept_retry_max l).

(** [std::io::ErrorKind] as [is_transient_accept_error] reads it, and the raw code. *)
Inductive AcceptKind := Interrupted | WouldBlock | AcceptAborted | AcceptReset | TimedOut | OtherKind.
Definition is_transient_accept_os_error (raw : option Z) : bool :=
  match raw with Some c => (c =? 12) || (c =? 23) || (c =? 24) || (c =? 105) | None => false end.
Definition is_transient_accept_error (kind : AcceptKind) (raw : option Z) : bool :=
  match kind with
  | Interrupted | WouldBlock | AcceptAborted | AcceptReset | TimedOut => true
  | OtherKind => is_transient_accept_os_error raw
  end.

(** ** The accept loop: [Serve::serve]

    [live] counts the tasks of the join set. *)
Inductive ServePhase := SAccepting | SBackoff | SDraining | SJoining | SStopped.
Record Server := mkServer { live : Z; retry : Z; cancelled_all : bool; failed : bool; phase : ServePhase }.
Definition serve_start (l : RpcLimits) : Server := mkServer 0 (accept_retry_initial l) false false SAccepting.
Inductive AcceptResult := AcceptConn | AcceptIo (kind : AcceptKind) (raw : option Z) | AcceptClosed | AcceptError.
Inductive ServeEvent :=
| SvAccept (r : AcceptResult)
| SvJoin                      (* a connection task has ended *)
| SvShutdown                  (* the shutdown signal *)
| SvElapsed                   (* the backoff sleep *)
| SvEmpty.                    (* the join set is empty *)
Definition exec_serve (l : RpcLimits) (ev : ServeEvent) (s : Server) : option Server :=
  let goto p c := mkServer (live s) (retry s) (c || cancelled_all s) (failed s) p in
  match phase s, ev with
  | SAccepting, SvAccept r =>
      if live s <? max_connections l then
        Some match r with
             | AcceptConn => mkServer (live s + 1) (accept_retry_initial l) (cancelled_all s) (failed s) SAccepting
             | AcceptIo kind raw =>
                 if is_transient_accept_error kind raw then goto SBackoff false
                 else mkServer (live s) (retry s) true true SDraining
             | AcceptClosed => goto SDraining false
             | AcceptError => mkServer (live s) (retry s) true true SDraining
             end
      else None
  | SBackoff, SvElapsed => Some (mkServer (live s) (next_retry l (retry s)) (cancelled_all s) (failed s) SAccepting)
  | (SAccepting | SBackoff), SvShutdown => Some (goto SDraining true)
  | (SAccepting | SDraining | SJoining), SvJoin =>
      if 0 <? live s then Some (mkServer (live s - 1) (retry s) (cancelled_all s) (failed s) (phase s)) else None
  | SDraining, SvShutdown => if 0 <? live s then Some (goto SJoining true) else None
  | (SDraining | SJoining), SvEmpty => if live s =? 0 then Some (goto SStopped false) else None
  | _, _ => None
  end.
Fixpoint serve_run (l : RpcLimits) (evs : list ServeEvent) (s : Server) : option Server :=
  match evs with [] => Some s | ev :: evs' => s' ← exec_serve l ev s; serve_run l evs' s' end.

(** ** The loop of a connection: [serve_connection]

    [calls_done] are the tasks of the join set, each ended or not. *)
Inductive ConnPhase := CnLoop | CnShutdown | CnEnded.
Record CallTasks := mkTasks { calls_done : list bool; rejected : bool; cn_phase : ConnPhase }.
Inductive ConnEvent :=
| CnCall            (* [recv] returns a call *)
| CnClosed          (* it returns the end or an error, or the shutdown token fires *)
| CnFinish (i : nat)
| CnJoin (i : nat)
| CnAbort.          (* [tasks.shutdown()] *)
Definition exec_connection (max_calls : Z) (ev : ConnEvent) (s : CallTasks) : option CallTasks :=
  match cn_phase s, ev with
  | CnLoop, CnCall =>
      let running := List.filter negb (calls_done s) in
      Some (if max_calls <=? Z.of_nat (length running) then mkTasks running true CnShutdown
            else mkTasks (running ++ [false]) (rejected s) CnLoop)
  | CnLoop, CnClosed => Some (mkTasks (calls_done s) (rejected s) CnShutdown)
  | _, CnFinish i =>
      match calls_done s !! i with Some false => Some (mkTasks (<[i := true]> (calls_done s)) (rejected s) (cn_phase s)) | _ => None end
  | CnLoop, CnJoin i =>
      match calls_done s !! i with Some true => Some (mkTasks (delete i (calls_done s)) (rejected s) CnLoop) | _ => None end
  | CnShutdown, CnAbort => Some (mkTasks [] (rejected s) CnEnded)
  | _, _ => None
  end.
Fixpoint connection_run (max_calls : Z) (evs : list ConnEvent) (s : CallTasks) : option CallTasks :=
  match evs with [] => Some s | ev :: evs' => s' ← exec_connection max_calls ev s; connection_run max_calls evs' s' end.

(** ** One call: [drive_call] *)

Section Drive.
Context (encode_str : string → result bytes string).
(** [internal_error_response] and [apply_error_handler]. *)
Definition internal_error_response : ErrorResponse := with_serialized_body (status_of Internal) (encode_str "internal server error").
Definition ErrorHandler := string → ErrorResponse → run ErrorResponse.
Definition apply_error_handler (h : option ErrorHandler) (path : string) (e : ErrorResponse) : ErrorResponse :=
  match h with
  | None => e
  | Some h => match h path e with Returned r => r | Panicked => internal_error_response end
  end.
Context (h : option ErrorHandler) (path : string).
Definition error_result (e : ErrorResponse) : HandlerOp :=
  let e := apply_error_handler h path e in HRespond (CallErr (code e) (body e)).
Definition sink_error (e : ErrorResponse) : HandlerOp :=
  let e := apply_error_handler h path e in HError (code e) (body e).
(** The loop over the response stream; [sent n] is whether the [n]-th send succeeds. *)
Fixpoint pump (sent : nat → bool) (n : nat) (steps : list StreamStep) : list HandlerOp :=
  match steps with
  | [] => [HFinish]
  | SItem item :: steps' => HSend item :: if sent n then pump sent (S n) steps' else []
  | SFault e :: _ => [sink_error e]
  | SPanic :: _ => [sink_error internal_error_response]
  end.
(** The operations on the responder, given how the request scope is built and what the
    service returns. *)
Definition drive_call (scope : run (result unit RpcError)) (service : run (result RpcOutcome ErrorResponse)) (sent : nat → bool) : list HandlerOp :=
  match scope with
  | Returned (Err e) => [error_result (error_response encode_str e)]
  | Panicked => [error_result internal_error_response]
  | Returned (Ok _) =>
      match service with
      | Panicked => [error_result internal_error_response]
      | Returned (Ok (Unary payload)) => [HRespond (CallOk payload)]
      | Returned (Ok (Stream steps)) => pump sent 0 steps
      | Returned (Err e) => [error_result e]
      end
  end.
End Drive.

(** ** Bounds *)

Definition limits_ok (l : RpcLimits) : Prop :=
  0 < max_connections l ∧ 0 < max_calls_per_connection l ∧ 0 < accept_retry_initial l ∧
  accept_retry_initial l ≤ accept_retry_max l ∧ accept_retry_initial l ≤ duration_max.
Lemma RpcLimits_new_ok connections calls l : RpcLimits_new connections calls = Some l → limits_ok l.
Proof.
  unfold RpcLimits_new. destruct (_ && _) eqn:E; [|done]. apply andb_prop in E as [E1%Z.ltb_lt E2%Z.ltb_lt]. intros [= <-].
  unfold limits_ok, DEFAULT_ACCEPT_RETRY_INITIAL, DEFAULT_ACCEPT_RETRY_MAX, duration_max. simpl. lia.
Qed.
Lemma with_accept_backoff_ok l initial maximum l' :
  limits_ok l → 0 ≤ initial ≤ duration_max → with_accept_backoff l initial maximum = Some l' → limits_ok l'.
Proof.
  intros (? & ? & _) Hi. unfold with_accept_backoff. destruct (_ && _) eqn:E; [|done].
  apply andb_prop in E as [E1%negb_true_iff%Z.eqb_neq E2%Z.leb_le]. intros [= <-]. unfold limits_ok. simpl. lia.
Qed.
Lemma next_retry_bounds l retry : limits_ok l → accept_retry_initial l ≤ retry → accept_retry_initial l ≤ next_retry l retry ≤ accept_retry_max l.
Proof. intros (? & ? & ? & ? & ?) Hr. unfold next_retry. lia. Qed.
Record serve_ok (l : RpcLimits) (s : Server) : Prop := {
  sv_live : 0 ≤ live s ≤ max_connections l;
  sv_retry : accept_retry_initial l ≤ retry s ≤ accept_retry_max l;
  sv_stopped : phase s = SStopped → live s = 0;
  sv_failed : failed s = true → cancelled_all s = true;
}.
Lemma serve_step l ev s s' : limits_ok l → serve_ok l s → exec_serve l ev s = Some s' → serve_ok l s'.
Proof.
  intros Hl [Hlive Hretry Hstop Hfail]. pose proof (next_retry_bounds l (retry s) Hl (proj1 Hretry)) as Hnext. destruct Hl as (? & ? & ? & ? & ?).
  assert (∀ c, failed s = true → c || cancelled_all s = true) as Hf by (intros c Hc; rewrite (Hfail Hc); apply orb_true_r).
  unfold exec_serve. destruct (phase s) eqn:Hp, ev as [r| | | |]; try done.
  all: try (destruct (0 <? live s) eqn:Hpos; [apply Z.ltb_lt in Hpos|done]).
  all: try (destruct (live s =? 0) eqn:Hz; [apply Z.eqb_eq in Hz|done]).
  all: try (intros [= <-]; split; simpl; rewrite ?Hp; (lia || done || auto)).
  destruct (live s <? max_connections l) eqn:Hlt; [apply Z.ltb_lt in Hlt|done]. intros [= <-].
  destruct r as [|kind raw| |]; [|destruct (is_transient_accept_error kind raw)|..]; split; simpl; (lia || done || auto).
Qed.
(** However connections and errors arrive, the server never serves more connections
    than its limit, waits between the configured delays before it accepts again, and
    when it stops no connection is left; after a fatal accept error every connection
    has been told to stop. *)
Theorem accept_loop_bounds l evs s :
  limits_ok l → serve_run l evs (serve_start l) = Some s → serve_ok l s.
Proof.
  intros Hl. assert (serve_ok l (serve_start l)) as H0 by (destruct Hl as (? & ? & ? & ? & ?); split; simpl; (lia || done)).
  revert H0. generalize (serve_start l). induction evs as [|ev evs IH]; intros s0 H0; simpl; [by intros [= <-]|].
  destruct (exec_serve l ev s0) as [s1|] eqn:He; [|done]. simpl. apply IH. by eapply serve_step.
Qed.
(** A connection never runs more handler tasks than its limit: the call that would be
    one too many is cancelled and ends the loop, and then no task is left. *)
Theorem connection_calls_bounded max_calls evs s :
  0 < max_calls → connection_run max_calls evs (mkTasks [] false CnLoop) = Some s →
  Z.of_nat (length (calls_done s)) ≤ max_calls ∧ (rejected s = true → cn_phase s ≠ CnLoop) ∧ (cn_phase s = CnEnded → calls_done s = []).
Proof.
  intros Hmax. set (P := λ s, Z.of_nat (length (calls_done s)) ≤ max_calls ∧ (rejected s = true → cn_phase s ≠ CnLoop) ∧ (cn_phase s = CnEnded → calls_done s = [])).
  assert (P (mkTasks [] false CnLoop)) as H0 by (unfold P; simpl; (split; [lia|done])). fold (P s).
  revert H0. generalize (mkTasks [] false CnLoop). induction evs as [|ev evs IH]; intros s0 H0; simpl; [by intros [= <-]|].
  destruct (exec_connection max_calls ev s0) as [s1|] eqn:He; [|done]. simpl. apply IH. clear IH. revert He. destruct H0 as (Hlen & Hrej & Hend).
  assert (∀ i b, length (<[i := b]> (calls_done s0)) = length (calls_done s0)) as Hins by (intros; apply length_insert).
  assert (length (List.filter negb (calls_done s0)) ≤ length (calls_done s0))%nat as Hfil by apply filter_length_le.
  unfold exec_connection, P. destruct (cn_phase s0) eqn:Hp, ev as [| |i|i|]; try done.
  - destruct (max_calls <=? _) eqn:Hle; intros [= <-]; simpl; [split; [lia|done]|]. apply Z.leb_gt in Hle. rewrite length_app. simpl.
    split; [lia|]. split; [|done]. by intros ?%Hrej.
  - intros [= <-]. simpl. done.
  - destruct (calls_done s0 !! i) as [[]|]; try done. intros [= <-]. simpl. rewrite Hins. done.
  - destruct (calls_done s0 !! i) as [[]|] eqn:Hi; try done. intros [= <-]. simpl. rewrite length_delete by by eexists. split; [lia|]. split; [|done]. by intros ?%Hrej.
  - destruct (calls_done s0 !! i) as [[]|]; try done. intros [= <-]. simpl. rewrite Hins. done.
  - intros [= <-]. simpl. split; [lia|done].
  - rewrite Hend by done. done.
Qed.

(** ** The answer of a call *)

Section Answers.
Context (encode_str : string → result bytes string) (h : option ErrorHandler) (path : string).
#[local] Abbreviation drive_call := (drive_call encode_str h path).

Definition ends_call (op : HandlerOp) : bool := match op with HSend _ => false | _ => true end.
Lemma pump_shape sent n steps :
  ∃ items tail, pump encode_str h path sent n steps = (HSend <$> items) ++ tail ∧
    ((∃ op, tail = [op] ∧ ends_call op = true) ∨ tail = [] ∧ ∃ m, (n ≤ m < n + length items)%nat ∧ sent m = false).
Proof.
  revert n. induction steps as [|[item|e|] steps IH]; intros n; simpl.
  - exists [], [HFinish]. split; [done|]. left. by exists HFinish.
  - destruct (sent n) eqn:Hs.
    + destruct (IH (S n)) as (items & tail & -> & Ht). exists (item :: items), tail. split; [done|]. destruct Ht as [?|(-> & m & Hm & ?)]; [by left|].
      right. split; [done|]. exists m. simpl. split; [lia|done].
    + exists [item], []. split; [done|]. right. split; [done|]. exists n. simpl. split; [lia|done].
  - eexists [], _. split; [done|]. left. by eexists.
  - eexists [], _. split; [done|]. left. by eexists.
Qed.
(** A call is answered with exactly one terminal operation, after the items of its
    stream in order; the answer is left out only when sending an item has failed. *)
Theorem drive_call_answers_once scope service sent :
  ∃ items tail, drive_call scope service sent = (HSend <$> items) ++ tail ∧
    ((∃ op, tail = [op] ∧ ends_call op = true) ∨ tail = [] ∧ ∃ m, (m < length items)%nat ∧ sent m = false).
Proof.
  assert (∀ op, ends_call op = true → ∃ items tail, [op] = (HSend <$> items) ++ tail ∧
    ((∃ op, tail = [op] ∧ ends_call op = true) ∨ tail = [] ∧ ∃ m, (m < length items)%nat ∧ sent m = false)) as Hone.
  { intros op Hop. exists [], [op]. split; [done|]. left. by exists op. }
  unfold drive_call. destruct scope as [[[]|e]|]; [|by apply Hone..]. destruct service as [[[payload|steps]|e]|]; try (by apply Hone).
  destruct (pump_shape sent 0 steps) as (items & tail & -> & Ht). exists items, tail. split; [done|].
  destruct Ht as [?|(-> & m & Hm & ?)]; [by left|right]. split; [done|]. exists m. split; [lia|done].
Qed.
(** A panic never leaves a call unanswered: a panic while its scope is built, in its
    handler or middleware, or in its response stream after some items, is answered
    with the internal error, and a panicking error handler is replaced by it too. *)
Theorem panics_become_internal scope items rest sent :
  let internal := internal_error_response encode_str in
  drive_call Panicked Panicked sent = [error_result encode_str h path internal] ∧
  (is_Some (match scope with Returned (Ok u) => Some u | _ => None end) → drive_call scope Panicked sent = [error_result encode_str h path internal]) ∧
  ((∀ n, (n < length items)%nat → sent n = true) →
   drive_call (Returned (Ok tt)) (Returned (Ok (Stream ((SItem <$> items) ++ SPanic :: rest)))) sent =
     (HSend <$> items) ++ [sink_error encode_str h path internal]) ∧
  (∀ f e, h = Some f → f path e = Panicked → apply_error_handler encode_str h path e = internal).
Proof.
  intros internal. split; [done|]. split; [|split].
  - intros [u Hu]. destruct scope as [[[]|]|]; done.
  - unfold drive_call. intros Hs.
    assert (∀ n, (∀ m, (m < length items)%nat → sent (n + m)%nat = true) →
      pump encode_str h path sent n ((SItem <$> items) ++ SPanic :: rest) = (HSend <$> items) ++ [sink_error encode_str h path internal]) as H; [|by apply H].
    clear Hs. induction items as [|item items IH]; intros n Hs; [done|]. simpl. rewrite <- (Nat.add_0_r n) at 1. rewrite (Hs 0%nat) by (simpl; lia).
    f_equal. apply IH. intros m Hm. rewrite Nat.add_succ_comm. apply Hs. simpl. lia.
  - intros f e -> Hf. simpl. by rewrite Hf.
Qed.
(** A call to a path no service has is answered with the not-found error, whatever
    services are registered. *)
Theorem unknown_route_answered {Ctx C} (services : list (@ServiceDescriptor Ctx)) peer_id (components : list (DiTypes.ComponentDescriptor C)) rpc p ctx sent :
  build encode_str services [] peer_id components = Ok rpc → p ∉ all_paths (resolved_services services) →
  drive_call (Returned (Ok tt)) (service rpc p ctx) sent = [error_result encode_str h path (error_response encode_str (RouteNotFound p))].
Proof.
  unfold build. destruct (validate_services _) as [[]|e] eqn:Hv; [|done]. intros [= <-] Hp. simpl.
  destruct (validated_routes_reach encode_str _ Hv) as [_ Hno]. unfold apply_layers. simpl. by rewrite (Hno p ctx Hp).
Qed.
End Answers.

(** ** Concrete runs *)

Definition toy_limits : RpcLimits := mkLimits 1 1 10 100.
Lemma toy_limits_ok : limits_ok toy_limits.
Proof. by vm_compute. Qed.
Definition toy_serve : list ServeEvent :=
  [SvAccept (AcceptIo OtherKind (Some 24)); SvElapsed; SvAccept AcceptConn; SvShutdown; SvJoin; SvEmpty].
Definition toy_server : Server := default (serve_start toy_limits) (serve_run toy_limits toy_serve (serve_start toy_limits)).
Lemma accept_loop_bounds_witness : phase toy_server = SStopped ∧ serve_ok toy_limits toy_server.
Proof. split; [by vm_compute|]. apply (accept_loop_bounds toy_limits toy_serve toy_server toy_limits_ok). by vm_compute. Defined.
Lemma connection_calls_bounded_witness : ∃ s, connection_run 1 [CnCall; CnCall] (mkTasks [] false CnLoop) = Some s ∧ cn_phase s ≠ CnLoop.
Proof.
  exists (mkTasks [false] true CnShutdown). split; [by vm_compute|].
  by apply (connection_calls_bounded 1 [CnCall; CnCall] (mkTasks [false] true CnShutdown)); [done|vm_compute|].
Defined.
Lemma panics_become_internal_witness :
  drive_call toy_encode None "p" (Returned (Ok tt)) (Returned (Ok (Stream [SItem [Byte.x01]; SPanic]))) (λ _, true) =
    [HSend [Byte.x01]; HError (status_of Internal) []].
Proof. apply (panics_become_internal toy_encode None "p" Panicked [[Byte.x01]] [] (λ _, true)). done. Defined.
Definition toy_components : list (DiTypes.ComponentDescriptor unit) := [].
Lemma unknown_route_answered_witness : ∃ rpc,
  build toy_encode toy_services [] 9 toy_components = Ok rpc ∧
  drive_call toy_encode None "Clock.then" (Returned (Ok tt)) (service rpc "Clock.then" tt) (λ _, true) = [HRespond (CallErr (status_of NotFound) [])].
Proof.
  destruct (build toy_encode toy_services [] 9 toy_components) as [rpc|e] eqn:Hb; [|by vm_compute in Hb]. exists rpc. split; [done|].
  apply (unknown_route_answered toy_encode None "Clock.then" toy_services 9 toy_components rpc "Clock.then" tt (λ _, true) Hb).
  rewrite list_elem_of_In. vm_compute. intuition discriminate.
Defined.
