(* ===== verification/RpcHandlers.v ===== *)
(** * RpcHandlers: typed handlers, streams and the RPC plugin

    Models the extractors, streams and handler adapters of [crates/rpc/src/extract.rs],
    the call context of [descriptors/rpc.rs], the item codecs of
    [crates/transport/src/stream_codec.rs] and the builder of [plugin.rs], over the
    routes and errors of [RpcRoutes].

    - A message type is an instance of [WireCodec]: what [postcard] makes of it.
    - Taking the request stream changes the context, so an extractor returns it. The
      stream is the list of frames that the call receives until it ends.
    - A handler is a tree of parameters that ends in what the body returns. *)
From S2P Require Import Prelude CoreTypes DiTypes WireStatus WireFrame StreamConn RpcRoutes RpcServe.

(** ** Codecs *)

(** [Serialize] and [DeserializeOwned], through [postcard]. *)
Class WireCodec (T : Type) := { wire_encode : T → result bytes string; wire_decode : bytes → result T string }.
(** What [postcard] encodes it decodes. *)
Class WireCodecLaws (T : Type) `{WireCodec T} := wire_decode_encode (x : T) b : wire_encode x = Ok b → wire_decode b = Ok x.
(** [StreamEncode] and [StreamDecode] of one item; a [StreamEncodeError] is a code and a body. *)
Class StreamEncode (T : Type) := stream_encode : T → result bytes ErrorResponse.
Class StreamDecode (T : Type) := stream_decode : bytes → result T string.
Definition StreamEncodeError_internal : ErrorResponse := mkError (status_of Internal) [].
#[export] Instance StreamEncode_serialize {T} `{WireCodec T} : StreamEncode T := λ x,
  match wire_encode x with Ok b => Ok b | Err _ => Err StreamEncodeError_internal end.
#[export] Instance StreamDecode_deserialize {T} `{WireCodec T} : StreamDecode T := wire_decode.
(** [ResponseError] *)
Class ResponseError (E : Type) := response_error : E → ErrorResponse.
#[export] Instance ResponseError_serialize {E} `{WireCodec E} : ResponseError E := λ e, default_error_response (wire_encode e).

(** ** The context of a call, and what is extracted from it *)

Section Context_.
Context {Scope Peer : Type}.
Record RpcCallContext := mkCtx {
  payload : bytes; scope : Scope; peer : Peer;
  requests : option (list bytes);
  cancel : nat                     (* which token *)
}.
Definition RpcCallContext_new (payload : bytes) (peer : Peer) (scope : Scope) (requests : option (list bytes)) (cancel : nat) : RpcCallContext :=
  mkCtx payload scope peer requests cancel.
(** [take_requests] *)
Definition take_requests (ctx : RpcCallContext) : option (list bytes) * RpcCallContext :=
  (requests ctx, mkCtx (payload ctx) (scope ctx) (peer ctx) None (cancel ctx)).

Definition FromContext (A : Type) : Type := RpcCallContext → run (result A RpcError) * RpcCallContext.
(** [Payload], [Peer], [Inject] and [Cancel]. *)
Definition Payload {T} `{WireCodec T} : FromContext T := λ ctx, (Returned (map_err InvalidPayload (wire_decode (payload ctx))), ctx).
Definition Peer_ : FromContext Peer := λ ctx, (Returned (Ok (peer ctx)), ctx).
Definition Inject {H} (extract : Scope → run (result H string)) : FromContext H := λ ctx, (r ← extract (scope ctx); Returned (map_err DiError r), ctx).
Definition Cancel : FromContext nat := λ ctx, (Returned (Ok (cancel ctx)), ctx).
(** [StreamDecode::from_frames] *)
Definition from_frames {T} `{StreamDecode T} (frames : list bytes) : list (result T string) := stream_decode <$> frames.
(** [StreamDecodeError] as it is displayed. *)
Definition decode_failed (e : string) : RpcError := InvalidPayload ("stream item decode failed: " ++ e).
(** [Streaming] *)
Definition Streaming {T} `{StreamDecode T} : FromContext (list (result T RpcError)) := λ ctx,
  let '(rx, ctx') := take_requests ctx in
  (Returned (match rx with None => Err NotStreaming | Some frames => Ok (map_err decode_failed <$> from_frames frames) end), ctx').
(** [RequestStream]: [take_while] and [filter_map]. *)
Fixpoint take_ok {T E} (l : list (result T E)) : list T := match l with Ok x :: l' => x :: take_ok l' | _ => [] end.
Definition RequestStream {T} `{StreamDecode T} : FromContext (list T) := λ ctx,
  let '(rx, ctx') := take_requests ctx in
  (Returned (match rx with None => Err NotStreaming | Some frames => Ok (take_ok (from_frames frames)) end), ctx').

(** ** Handlers *)

(** What [impl_handler!] makes of a function: its parameters in order, then its body. *)
Inductive Handler (Res : Type) : Type :=
| HBody (out : run Res)
| HParam (T : Type) (param : FromContext T) (rest : T → Handler Res).
Arguments HBody {Res} out.
Arguments HParam {Res T} param rest.
(** Every parameter is extracted before the body runs. *)
Fixpoint call {Res} (h : Handler Res) (ctx : RpcCallContext) : run (result Res RpcError) :=
  match h with
  | HBody out => o ← out; Returned (Ok o)
  | HParam param rest =>
      match param ctx with
      | (Returned (Ok x), ctx') => call (rest x) ctx'
      | (Returned (Err e), _) => Returned (Err e)
      | (Panicked, _) => Panicked
      end
  end.
Section Dispatch.
Context (encode_str : string → result bytes string).
(** [dispatch_with] and [dispatch_fallible] *)
Definition typed_with (h : Handler Response) : RpcHandler := λ ctx,
  r ← call h ctx; Returned (match r with Ok out => respond encode_str out | Err e => Err (error_response encode_str e) end).
Definition typed_fallible {E} `{ResponseError E} (h : Handler (result Response E)) : RpcHandler := λ ctx,
  r ← call h ctx;
  Returned (match r with
            | Ok (Ok out) => respond encode_str out
            | Ok (Err e) => Err (response_error e)
            | Err e => Err (error_response encode_str e)
            end).
End Dispatch.
(** [Responder] of a serializable value. *)
Definition value {T} `{WireCodec T} (x : T) : Response := RValue (wire_encode x).
(** [ResponseStream::from_items], over [StreamEncode::into_frames]. *)
Definition from_items {T} `{StreamEncode T} (items : list (run T)) : Response :=
  RStream ((λ r, match r with
                 | Panicked => SPanic
                 | Returned x => match stream_encode x with Ok frame => SItem frame | Err e => SFault e end
                 end) <$> items).
(** [ResponseStream::from_results] *)
Definition stream_results {T E} `{StreamEncode T, ResponseError E} (items : list (run (result T E))) : Response :=
  RStream (from_results ((λ r, x ← r; Returned (match x with Ok v => Ok (stream_encode v) | Err e => Err (response_error e) end)) <$> items)).
End Context_.
Arguments RpcCallContext : clear implicits.
Arguments Handler : clear implicits.
Arguments HBody {Scope Peer Res} out.
Arguments HParam {Scope Peer Res T} param rest.

(** ** [RpcPlugin] *)

Section Plugin.
Context (encode_str : string → result bytes string) {Ctx : Type}.
#[local] Abbreviation Layer := (@Layer Ctx).
#[local] Abbreviation ServiceDescriptor := (@ServiceDescriptor Ctx).
Definition default_limits : RpcLimits :=
  mkLimits DEFAULT_MAX_CONNECTIONS DEFAULT_MAX_CALLS_PER_CONNECTION DEFAULT_ACCEPT_RETRY_INITIAL DEFAULT_ACCEPT_RETRY_MAX.
Record RpcPlugin := mkPlugin { services : list ServiceDescriptor; layers : list Layer; error_handler : option ErrorHandler; limits : RpcLimits }.
Definition RpcPlugin_default : RpcPlugin := mkPlugin [] [] None default_limits.
(** [auto_discover], over the link-time slice. *)
Definition auto_discover (SERVICES : list ServiceDescriptor) (p : RpcPlugin) : RpcPlugin :=
  mkPlugin (services p ++ SERVICES) (layers p) (error_handler p) (limits p).
(** The methods of [RpcAppBuilder]; the component or value that [service] and
    [with_service] also register is the application builder's. *)
Inductive BuilderCall :=
| BService (d : ServiceDescriptor)
| BMiddleware (l : Layer)
| BGuard (check : Ctx → run (result unit ErrorResponse))
| BErrorHandler (h : ErrorHandler)
| BLimits (l : RpcLimits).
Definition push_layer (l : Layer) (p : RpcPlugin) : RpcPlugin := mkPlugin (services p) (layers p ++ [l]) (error_handler p) (limits p).
Definition builder_call (p : RpcPlugin) (c : BuilderCall) : RpcPlugin :=
  match c with
  | BService d => mkPlugin (services p ++ [d]) (layers p) (error_handler p) (limits p)
  | BMiddleware l => push_layer l p
  | BGuard check => push_layer (guard_layer check) p
  | BErrorHandler h => mkPlugin (services p) (layers p) (Some h) (limits p)
  | BLimits l => mkPlugin (services p) (layers p) (error_handler p) l
  end.
Record RpcProtocol := mkProtocol { rpc : @Rpc Ctx; rpc_error_handler : option ErrorHandler; rpc_limits : RpcLimits }.
(** [ProtocolPlugin::build] *)
Definition plugin_build {C} (peer_id : TypeId) (components : list (ComponentDescriptor C)) (p : RpcPlugin) : result RpcProtocol RpcError :=
  match build encode_str (services p) (layers p) peer_id components with
  | Err e => Err e
  | Ok r => Ok (mkProtocol r (error_handler p) (limits p))
  end.
End Plugin.

(** ** Extraction *)

Section Extraction.
Context {Scope Peer : Type}.
#[local] Abbreviation Ctx := (RpcCallContext Scope Peer).

(** The request stream is taken once: a second parameter that wants it fails, whatever
    is extracted in between that leaves the context alone. *)
Theorem streaming_is_taken_once {T U Res} `{StreamDecode T, StreamDecode U} (k : list (result T RpcError) → list U → Handler Scope Peer Res) (ctx : Ctx) :
  call (HParam Streaming (λ s, HParam RequestStream (k s))) ctx = Returned (Err NotStreaming) ∧
  (∀ fc : FromContext unit, (∀ c, (fc c).2 = c ∧ (fc c).1 = Returned (Ok tt)) →
     call (HParam Streaming (λ s, HParam fc (λ _, HParam RequestStream (k s)))) ctx = Returned (Err NotStreaming)).
Proof.
  unfold Streaming, RequestStream, take_requests. cbn. destruct (requests ctx) as [frames|]; [|split; done]. cbn. split; [done|].
  intros fc Hfc. specialize (Hfc (mkCtx (payload ctx) (scope ctx) (peer ctx) None (cancel ctx))) as [Hc Ho].
  destruct (fc _) as [o c]. cbn in Hc, Ho. by subst o c.
Qed.
(** A [RequestStream] gives the values of the longest prefix of frames that decode;
    a [Streaming] gives them too, and then the error of the first that does not. *)
Lemma take_ok_spec {T E} (l : list (result T E)) :
  ∃ rest, l = (Ok <$> take_ok l) ++ rest ∧ match rest with Ok _ :: _ => False | _ => True end.
Proof.
  induction l as [|[x|e] l (rest & IH & Hr)]; [by exists []| |by exists (Err e :: l)]. exists rest. split; [|done]. cbn. by rewrite <- IH.
Qed.
Theorem request_stream_is_the_good_prefix {T} `{StreamDecode T} (frames : list bytes) (ctx : Ctx) : requests ctx = Some frames →
  ∃ items tail, (RequestStream ctx).1 = Returned (Ok items) ∧ (Streaming ctx).1 = Returned (Ok ((Ok <$> items) ++ tail)) ∧
    match tail with
    | Ok _ :: _ => False
    | Err e :: _ => ∃ frame msg, frames !! length items = Some frame ∧ stream_decode frame = Err msg ∧ e = decode_failed msg
    | [] => length items = length frames
    end.
Proof.
  intros Hr. unfold RequestStream, Streaming, take_requests. rewrite Hr. cbn. destruct (take_ok_spec (from_frames frames)) as (rest & Hf & Hs).
  eexists _, (map_err decode_failed <$> rest). split; [done|]. split.
  - rewrite Hf at 1. by rewrite fmap_app, <- list_fmap_compose.
  - set (items := take_ok (from_frames frames)) in *. destruct rest as [|[x|e] rest]; [|done|].
    + apply (f_equal length) in Hf. unfold from_frames in Hf. rewrite app_nil_r, !length_fmap in Hf. by rewrite Hf.
    + cbn. assert (from_frames frames !! length items = Some (Err e)) as Hl.
      { rewrite Hf, lookup_app_r by (by rewrite length_fmap). by rewrite length_fmap, Nat.sub_diag. }
      unfold from_frames in Hl. apply list_lookup_fmap_Some in Hl as (frame & Hfr & He). by exists frame, e.
Qed.
End Extraction.

(** ** What a plugin serves *)

Section Served.
Context (encode_str : string → result bytes string) {Ctx : Type}.
#[local] Abbreviation Call := (@BuilderCall Ctx).
#[local] Abbreviation Plugin := (@RpcPlugin Ctx).

Definition guards_of (calls : list Call) : list (Ctx → run (result unit ErrorResponse)) :=
  omap (λ c, match c with BGuard g => Some g | _ => None end) calls.
Definition services_of (calls : list Call) : list (@ServiceDescriptor Ctx) := omap (λ c, match c with BService d => Some d | _ => None end) calls.
Definition is_middleware (c : Call) : bool := match c with BMiddleware _ => true | _ => false end.
(** What stands before the methods: the guards and the middleware of the calls, in order. *)
(** A call on its way to [terminal]: a guard lets it on or answers with its refusal; a
    middleware is given what follows it, and may call it or not. *)
Fixpoint through (calls : list Call) (terminal : RpcService) : RpcService :=
  match calls with
  | [] => terminal
  | BGuard check :: calls' => λ path ctx,
      r ← check ctx; match r with Err e => Returned (Err e) | Ok _ => through calls' terminal path ctx end
  | BMiddleware m :: calls' => m (through calls' terminal)
  | _ :: calls' => through calls' terminal
  end.
Definition layers_of (calls : list Call) : list (@Layer Ctx) :=
  omap (λ c, match c with BMiddleware l => Some l | BGuard g => Some (guard_layer g) | _ => None end) calls.
Lemma apply_layers_through calls terminal : apply_layers (layers_of calls) terminal = through calls terminal.
Proof.
  induction calls as [|c calls IH]; [done|]. destruct c; cbn [layers_of omap list_omap through]; try exact IH;
    rewrite apply_layers_cons; fold (layers_of calls); by rewrite IH.
Qed.
Lemma through_guards calls terminal path ctx : Forall (λ c, is_middleware c = false) calls →
  through calls terminal path ctx =
  (r ← admit_all (guards_of calls) ctx; match r with Err e => Returned (Err e) | Ok _ => terminal path ctx end).
Proof.
  induction 1 as [|c calls Hc _ IH]; [done|]. destruct c; try done; cbn [through guards_of omap list_omap admit_all]; try exact IH.
  destruct (check ctx) as [[[]|e]|]; [|done..]. exact IH.
Qed.
Lemma builder_calls_layers calls (p : Plugin) :
  layers (foldl builder_call p calls) = layers p ++ layers_of calls ∧
  services (foldl builder_call p calls) = services p ++ services_of calls.
Proof.
  revert p. induction calls as [|c calls IH]; intros p; [by rewrite !app_nil_r|].
  cbn [foldl]. destruct (IH (builder_call p c)) as [-> ->]. destruct c; cbn; by rewrite <- ?app_assoc.
Qed.
Lemma builder_calls_handler calls (p : Plugin) :
  error_handler (foldl builder_call p calls) = from_option Some (error_handler p) (last (omap (λ c, match c with BErrorHandler h => Some h | _ => None end) calls)) ∧
  limits (foldl builder_call p calls) = from_option (λ x, x) (limits p) (last (omap (λ c, match c with BLimits l => Some l | _ => None end) calls)).
Proof.
  revert p. induction calls as [|c calls IH]; intros p; [done|]. cbn [foldl]. destruct (IH (builder_call p c)) as [-> ->]. destruct c; cbn; try done.
  - split; [|done]. match goal with |- context [last (_ :: ?l)] => rewrite (last_cons _ l); by destruct (last l) end.
  - split; [done|]. match goal with |- context [last (_ :: ?l)] => rewrite (last_cons _ l); by destruct (last l) end.
Qed.

(** C25: What is registered is what is served. Of a plugin built by any sequence of builder
    calls, a call passes the guards and the middleware in the order they were added, whatever
    its path is, and then reaches the method declared under its path, or is answered
    that there is none; a guard that refuses answers itself, and what a middleware does with
    the rest of the way is up to it. Without middleware a call is answered by the first
    guard that refuses it, or by its method. The last error handler and the last limits hold. *)
Theorem built_plugin_serves {C} (linked : list ServiceDescriptor) (calls : list Call) peer_id (components : list (ComponentDescriptor C)) P :
  plugin_build encode_str peer_id components (foldl builder_call (auto_discover linked RpcPlugin_default) calls) = Ok P →
  let resolved := resolved_services (linked ++ services_of calls) in
  (∃ methods : RpcService,
    (∀ s r ctx, s ∈ resolved → r ∈ rpcs s → methods (rpc_path (descriptor s) r) ctx = handler r ctx) ∧
    (∀ path ctx, path ∉ all_paths resolved → methods path ctx = Returned (Err (error_response encode_str (RouteNotFound path)))) ∧
    service (rpc P) = through calls methods ∧
    (Forall (λ c, is_middleware c = false) calls → ∀ path ctx, service (rpc P) path ctx =
       (r ← admit_all (guards_of calls) ctx; match r with Err e => Returned (Err e) | Ok _ => methods path ctx end))) ∧
  rpc_error_handler P = last (omap (λ c, match c with BErrorHandler h => Some h | _ => None end) calls) ∧
  rpc_limits P = from_option (λ x, x) default_limits (last (omap (λ c, match c with BLimits l => Some l | _ => None end) calls)).
Proof.
  intros Hb resolved. destruct (builder_calls_layers calls (auto_discover linked RpcPlugin_default)) as [Hl Hs].
  destruct (builder_calls_handler calls (auto_discover linked RpcPlugin_default)) as [He Hlim].
  unfold plugin_build, build in Hb. rewrite Hl, Hs, He, Hlim in Hb. cbn [auto_discover RpcPlugin_default services layers error_handler limits app] in Hb.
  destruct (validate_services _) as [[]|e] eqn:Hv; [|done]. injection Hb as <-. cbn [rpc rpc_error_handler rpc_limits service].
  destruct (dispatch_reaches encode_str _ Hv) as [Hr Hn]. split; [|split; [cbn; by destruct (last _)|done]].
  eexists. split; [exact Hr|]. split; [exact Hn|]. rewrite apply_layers_through. split; [done|]. intros Hm path ctx. by apply through_guards.
Qed.
End Served.

(** ** Two guards *)

(** The first admits everyone, the second no one but with an even token. *)
Definition g_even : RpcCallContext unit unit → run (result unit ErrorResponse) := λ ctx,
  Returned (if Nat.even (cancel ctx) then Ok tt else Err (mkError (status_of Unauthorized) [])).
Definition g_rpc : @RpcDescriptor (RpcCallContext unit unit) := mkRpc "hello" (λ _, Returned (Ok (Unary [Byte.x01]))).
Definition g_service : @ServiceDescriptor (RpcCallContext unit unit) := mkService "a" "Greeter" (mkType "Greeter" "Greeter" 1) None [mkGroup (mkType "Greeter" "Greeter" 1) [g_rpc]].
(** A middleware that keeps one path to itself. *)
Definition g_ping : @Layer (RpcCallContext unit unit) := λ inner path ctx,
  if bool_decide (path = "ping") then Returned (Ok (Unary [])) else inner path ctx.
Definition g_calls : list (@BuilderCall (RpcCallContext unit unit)) :=
  [BGuard (λ _, Returned (Ok tt)); BService g_service; BMiddleware g_ping; BLimits (mkLimits 1 1 1 1); BGuard g_even].
Definition g_ctx (cancel : nat) : RpcCallContext unit unit := RpcCallContext_new [] tt tt None cancel.
Lemma built_plugin_serves_witness :
  ∃ P, plugin_build (C := unit) toy_encode 7 [] (foldl builder_call (auto_discover [] RpcPlugin_default) g_calls) = Ok P ∧
    service (rpc P) "Greeter.hello" (g_ctx 2) = Returned (Ok (Unary [Byte.x01])) ∧
    service (rpc P) "Greeter.hello" (g_ctx 3) = Returned (Err (mkError (status_of Unauthorized) [])) ∧
    service (rpc P) "ping" (g_ctx 3) = Returned (Ok (Unary [])).
Proof.
  eexists. split; [reflexivity|].
  destruct (built_plugin_serves (C := unit) toy_encode [] g_calls 7 [] _ eq_refl) as [(methods & Hm & _ & Hs & _) _].
  rewrite Hs. split; [|split; reflexivity].
  exact (Hm (mkResolved g_service [g_rpc]) g_rpc (g_ctx 2) ltac:(by left) ltac:(by left)).
Defined.
Example streaming_samples :
  call (HParam (T := N) (Peer_ (Scope := N)) (λ n, HParam Cancel (λ c, HBody (Returned (n, c))))) (RpcCallContext_new [] 5%N 6%N None 3) = Returned (Ok (5%N, 3%nat)).
Proof. reflexivity. Qed.
