(* ===== verification/RpcCalls.v ===== *)
(** * RpcCalls: typed calls, from the client to the handler and back

    Models the four call shapes of the client in [crates/rpc/src/client.rs]
    ([Unary], [ServerStreaming], [ClientStreaming], [BidiStreaming]) and the error
    body of [crates/client/src/lib.rs], and composes them with [drive_call] and the
    handlers of [RpcHandlers].

    - A call is what the client writes, a list of [ClientOp], and what it gives its
      caller. The machine of [RpcClient] decides what a write or an open returns and
      which replies arrive; here they are a [Session]. The cancellation that a dropped
      call sends is that machine's.
    - [served] is the session of a client whose connection does not fail, with a
      server that answers every call by [drive_call]. *)
From S2P Require Import Prelude CoreTypes DiTypes WireStatus WireFrame StreamConn RpcRoutes RpcServe RpcClient RpcHandlers.

(** ** The client *)

Inductive ClientOp :=
| COpen (path : string) (streaming_input : bool) (payload : bytes)
| CSend (item : bytes)
| CFinish.
(** [s_replies]: what arrives for the call, given what it has written. *)
Record Session := mkSession {
  s_open : result unit ClientError;
  s_send : nat → result unit ClientError;
  s_finish : result unit ClientError;
  s_replies : list ClientOp → list Reply }.

Section Calls.
Context {A R : Type} `{WireCodec A, WireCodec R} (net : Session).
(** [encode_err] *)
Definition encode_err (msg : string) : ClientError := Encode msg.
(** [recv]: the first reply, or [None] when the connection has ended. *)
Definition recv_reply (ops : list ClientOp) : option Reply := head (s_replies net ops).
(** [unary] *)
Definition unary (path : string) (request : A) : list ClientOp * result R ClientError :=
  match wire_encode request with
  | Err msg => ([], Err (encode_err msg))
  | Ok payload =>
      match s_open net with
      | Err e => ([], Err e)
      | Ok _ => let ops := [COpen path false payload] in (ops, decode_unary wire_decode (recv_reply ops))
      end
  end.
(** [RpcResponses::poll_next] until it gives [None]. *)
Fixpoint responses (replies : list Reply) : list (result R ClientError) :=
  match replies with
  | [] => []
  | reply :: replies' => match decode_item wire_decode (Some reply) with Some r => r :: responses replies' | None => [] end
  end.
(** [server_stream] *)
Definition server_stream (path : string) (request : A) : list ClientOp * result (list (result R ClientError)) ClientError :=
  match wire_encode request with
  | Err msg => ([], Err (encode_err msg))
  | Ok payload =>
      match s_open net with
      | Err e => ([], Err e)
      | Ok _ => let ops := [COpen path false payload] in (ops, Ok (responses (s_replies net ops)))
      end
  end.
Definition finish_input : list ClientOp * result unit ClientError :=
  match s_finish net with Err e => ([], Err e) | Ok _ => ([CFinish], Ok tt) end.
(** The loop of [client_stream], then [finish]; [n] counts the items sent. *)
Fixpoint send_items (n : nat) (items : list A) : list ClientOp * result unit ClientError :=
  match items with
  | [] => finish_input
  | item :: items' =>
      match wire_encode item with
      | Err msg => ([], Err (encode_err msg))
      | Ok b =>
          match s_send net n with
          | Err e => ([], Err e)
          | Ok _ => let '(ops, r) := send_items (S n) items' in (CSend b :: ops, r)
          end
      end
  end.
(** [client_stream] *)
Definition client_stream (path : string) (items : list A) : list ClientOp * result R ClientError :=
  match s_open net with
  | Err e => ([], Err e)
  | Ok _ =>
      let '(ops, r) := send_items 0 items in
      let ops := COpen path true [] :: ops in
      (ops, match r with Err e => Err e | Ok _ => decode_unary wire_decode (recv_reply ops) end)
  end.
(** The task that [bidi_stream] spawns: every way out of its loop finishes the input. *)
Fixpoint pump_items (n : nat) (items : list A) : list ClientOp :=
  match items with
  | [] => finish_input.1
  | item :: items' =>
      match wire_encode item with
      | Err _ => finish_input.1
      | Ok b => match s_send net n with Err _ => finish_input.1 | Ok _ => CSend b :: pump_items (S n) items' end
      end
  end.
(** [bidi_stream] *)
Definition bidi_stream (path : string) (items : list A) : list ClientOp * result (list (result R ClientError)) ClientError :=
  match s_open net with
  | Err e => ([], Err e)
  | Ok _ => let ops := COpen path true [] :: pump_items 0 items in (ops, Ok (responses (s_replies net ops)))
  end.
End Calls.

(** [ErrorBody] *)
Record ErrorBody (T : Type) := mkErrorBody { eb_code : StatusCode; eb_raw : bytes }.
Arguments mkErrorBody {T}.
Arguments eb_code {T}.
Arguments eb_raw {T}.
Definition eb_deserialize {T} `{WireCodec T} (e : ErrorBody T) : result T string := wire_decode (eb_raw e).
Definition eb_cast {T} (U : Type) (e : ErrorBody T) : ErrorBody U := mkErrorBody (eb_code e) (eb_raw e).

(** ** The server at the other end *)

Section Served.
Context {Scope Peer : Type} (peer : Peer) (scope : Scope).
#[local] Abbreviation Ctx := (RpcCallContext Scope Peer).
(** What the server makes of what the client writes: the items of a streaming call
    are its request stream. *)
Definition inbound (ops : list ClientOp) : list bytes := omap (λ op, match op with CSend b => Some b | _ => None end) ops.
Definition call_of (ops : list ClientOp) : option (string * Ctx) :=
  match ops with
  | COpen path streaming payload :: rest =>
      Some (path, RpcCallContext_new payload peer scope (if streaming then Some (inbound rest) else None) 0)
  | _ => None
  end.
(** What an operation of the server's responder is to the client. *)
Definition reply_of (op : HandlerOp) : Reply :=
  match op with
  | HRespond (CallOk b) => ReplyResponse (WireOk b)
  | HRespond (CallErr c b) => ReplyResponse (WireErr c b)
  | HSend item => ReplyItem item
  | HFinish => ReplyEnd
  | HError c b => ReplyError c b
  end.
Context (encode_str : string → result bytes string) (h : option ErrorHandler) (service : @RpcService Ctx).
Definition served : Session :=
  mkSession (Ok tt) (λ _, Ok tt) (Ok tt) (λ ops,
    match call_of ops with
    | Some (path, ctx) => reply_of <$> drive_call encode_str h path (Returned (Ok tt)) (service path ctx) (λ _, true)
    | None => []
    end).
End Served.

(** A reply is what the read loop makes of the frame the server writes for it. *)
Lemma reply_of_message id op s :
  on_message (op_message id op).2 s =
    match op with
    | HSend item => set_reader (match table s !! id with Some k => RdItem id k item | None => RdRun end) s
    | _ => set_reader (RdTake id (reply_of op) None) s
    end.
Proof. by destruct op as [[]| | |]. Qed.

(** ** End to end *)

Section EndToEnd.
Context {Scope Peer : Type} (peer : Peer) (scope : Scope) (encode_str : string → result bytes string) (h : option ErrorHandler).
#[local] Abbreviation Ctx := (RpcCallContext Scope Peer).
Context (service : @RpcService Ctx) (path : string).
#[local] Abbreviation net := (served peer scope encode_str h service).
Context {A R E : Type} `{WireCodecLaws A, WireCodecLaws R, ResponseError E}.

(** What the caller sees of an error of the server. *)
Definition remote (e : ErrorResponse) : ClientError :=
  let e := apply_error_handler encode_str h path e in Remote (code e) (body e).
Definition outcome_of (r : run (result R E)) : result R ClientError :=
  match r with
  | Panicked => Err (remote (internal_error_response encode_str))
  | Returned (Err e) => Err (remote (response_error e))
  | Returned (Ok b) => match wire_encode b with Ok _ => Ok b | Err msg => Err (remote (error_response encode_str (SerializationFailed msg))) end
  end.
(** The typed service [f] in [#[rpc]] form: its body returns a value or an error. *)
Definition body_of (r : run (result R E)) : run (result Response E) :=
  x ← r; Returned (match x with Ok b => Ok (value b) | Err e => Err e end).

Lemma replies_served ops ctx : call_of peer scope ops = Some (path, ctx) →
  s_replies net ops = reply_of <$> drive_call encode_str h path (Returned (Ok tt)) (service path ctx) (λ _, true).
Proof. unfold served. cbn [s_replies]. by intros ->. Qed.
Lemma decode_body ctx (hd : Handler Scope Peer (result Response E)) r : service path ctx = typed_fallible encode_str hd ctx → call hd ctx = (x ← body_of r; Returned (Ok x)) →
  decode_unary wire_decode (head (reply_of <$> drive_call encode_str h path (Returned (Ok tt)) (service path ctx) (λ _, true))) = outcome_of r.
Proof.
  intros Hs Hc. rewrite Hs. unfold typed_fallible. rewrite Hc. unfold body_of, outcome_of, remote. destruct r as [[b|e]|]; cbn; [|done..].
  unfold value. destruct (wire_encode b) as [p|msg] eqn:Hb; cbn; [|done]. by rewrite (wire_decode_encode b p Hb).
Qed.

Lemma unary_decides (f : A → run (result R E)) (a : A) :
  (∀ ctx, service path ctx = typed_fallible encode_str (HParam Payload (λ x, HBody (body_of (f x)))) ctx) →
  match wire_encode a with
  | Err msg => unary (R := R) net path a = ([], Err (Encode msg))
  | Ok payload => unary net path a = ([COpen path false payload], outcome_of (f a))
  end.
Proof.
  intros Hf. unfold unary. destruct (wire_encode a) as [p|msg] eqn:Ha; [|done]. cbn [s_open served]. f_equal.
  unfold recv_reply. erewrite replies_served by done.
  apply (decode_body _ _ _ (Hf _)). cbn. by rewrite (wire_decode_encode a p Ha).
Qed.
(** C19: A unary call is the call of the function. What the caller of a typed client gets is
    what the service's function returns for the value it passed: the value, the error
    as the error handler leaves it, or the internal error for a panic; a request that
    cannot be encoded is not sent. *)
Theorem unary_end_to_end (f : A → run (result R E)) (a : A) :
  (∀ ctx, service path ctx = typed_fallible encode_str (HParam Payload (λ x, HBody (body_of (f x)))) ctx) →
  match wire_encode a with
  | Err msg => unary (R := R) net path a = ([], Err (Encode msg))
  | Ok payload => unary net path a = ([COpen path false payload], outcome_of (f a))
  end.
Proof. apply unary_decides. Qed.

(** *** Request streams *)

(** The frames of the items up to the first that cannot be encoded, and those items. *)
Definition frames_of (items : list A) : list bytes := take_ok (wire_encode <$> items).
Definition sendable (items : list A) : list A := take (length (frames_of items)) items.
Definition first_failure (items : list A) : option string :=
  head (omap (λ x, match wire_encode x with Err msg => Some msg | Ok _ => None end) items).
Lemma send_items_served (items : list A) n :
  (send_items net n items).2 = match first_failure items with Some msg => Err (Encode msg) | None => Ok tt end ∧
  (first_failure items = None → (send_items net n items).1 = (CSend <$> frames_of items) ++ [CFinish] ∧ sendable items = items).
Proof.
  revert n. induction items as [|x items IH]; intros n; [by split|]. unfold first_failure, sendable, frames_of in *. cbn.
  destruct (wire_encode x) as [b|msg]; cbn; [|done]. destruct (IH (S n)) as [IH1 IH2]. destruct (send_items net (S n) items) as [ops r].
  cbn in IH1, IH2 |- *. split; [done|]. intros Hn. destruct (IH2 Hn) as [-> ->]. done.
Qed.
Lemma pump_items_served (items : list A) n : pump_items net n items = (CSend <$> frames_of items) ++ [CFinish].
Proof.
  revert n. induction items as [|x items IH]; intros n; [done|]. unfold frames_of in *. cbn. destruct (wire_encode x) as [b|msg]; cbn; [|done].
  by rewrite IH.
Qed.
Lemma inbound_sent bs : inbound ((CSend <$> bs) ++ [CFinish]) = bs.
Proof. induction bs as [|b bs IH]; [done|]. cbn. by rewrite <- IH at 2. Qed.
Lemma from_frames_sent (items : list A) : from_frames (frames_of items) = Ok <$> sendable items.
Proof.
  unfold sendable, frames_of. induction items as [|x items IH]; [done|]. cbn. destruct (wire_encode x) as [b|msg] eqn:Hb; [|done]. cbn.
  rewrite <- IH. unfold stream_decode, StreamDecode_deserialize. by rewrite (wire_decode_encode x b Hb).
Qed.
Lemma streaming_sent {Res} (items : list A) (k : list (result A RpcError) → Handler Scope Peer Res) rest ctx :
  requests ctx = Some (inbound rest) → rest = (CSend <$> frames_of items) ++ [CFinish] →
  call (HParam Streaming k) ctx = call (k (Ok <$> sendable items)) (take_requests ctx).2.
Proof.
  intros Hr ->. rewrite inbound_sent in Hr. cbn [call]. unfold Streaming, take_requests. rewrite Hr. cbn. by rewrite from_frames_sent, <- list_fmap_compose.
Qed.

(** A client-streaming call hands the function every item of the stream, in order; or an
    item cannot be encoded, and the caller is told. *)
Theorem client_stream_end_to_end (f : list (result A RpcError) → run (result R E)) (items : list A) :
  (∀ ctx, service path ctx = typed_fallible encode_str (HParam Streaming (λ s, HBody (body_of (f s)))) ctx) →
  (client_stream net path items).2 =
    match first_failure items with Some msg => Err (Encode msg) | None => outcome_of (f (Ok <$> items)) end.
Proof.
  intros Hf. unfold client_stream. cbn [s_open served]. destruct (send_items_served items 0) as [Hs1 Hs2].
  destruct (send_items net 0 items) as [ops r]. cbn in Hs1, Hs2. subst r. destruct (first_failure items); [done|]. destruct (Hs2 eq_refl) as [-> Hs]. cbn [snd].
  unfold recv_reply. erewrite replies_served by done. apply (decode_body _ _ _ (Hf _)).
  rewrite (streaming_sent items _ ((CSend <$> frames_of items) ++ [CFinish])) by done. rewrite Hs. cbn. by destruct (body_of _).
Qed.

(** *** Response streams *)

(** What a client reads of a stream: the values up to the first error, and that error. *)
Fixpoint stream_outcome (l : list (run (result R E))) : list (result R ClientError) :=
  match l with
  | [] => []
  | Panicked :: _ => [Err (remote (internal_error_response encode_str))]
  | Returned (Err e) :: _ => [Err (remote (response_error e))]
  | Returned (Ok x) :: l' =>
      match wire_encode x with Ok _ => Ok x :: stream_outcome l' | Err _ => [Err (remote StreamEncodeError_internal)] end
  end.
Lemma responses_pumped (l : list (run (result R E))) n :
  responses (reply_of <$> pump encode_str h path (λ _, true) n
    (from_results ((λ r, x ← r; Returned (match x with Ok v => Ok (stream_encode v) | Err e => Err (response_error e) end)) <$> l))) = stream_outcome l.
Proof.
  revert n. induction l as [|[[x|e]|] l IH]; intros n; [done| |done..].
  cbn. unfold stream_encode, StreamEncode_serialize. destruct (wire_encode x) as [b|msg] eqn:Hx; cbn; [|done].
  rewrite (wire_decode_encode x b Hx). cbn. by rewrite IH.
Qed.
Lemma responses_served (l : list (run (result R E))) ctx (hd : Handler Scope Peer Response) :
  service path ctx = typed_with encode_str hd ctx → call hd ctx = Returned (Ok (stream_results l)) →
  responses (reply_of <$> drive_call encode_str h path (Returned (Ok tt)) (service path ctx) (λ _, true)) = stream_outcome l.
Proof. intros Hs Hc. rewrite Hs. unfold typed_with. rewrite Hc. apply responses_pumped. Qed.

(** The caller of a streaming call reads the stream that the function makes of the
    request: each value in order, up to the end or the first error, which comes last.
    For a bidirectional call the request is the items before the first that cannot be
    encoded. *)
Theorem streams_end_to_end :
  (∀ (f : A → list (run (result R E))) (a : A),
    (∀ ctx, service path ctx = typed_with encode_str (HParam Payload (λ x, HBody (Returned (stream_results (f x))))) ctx) →
    (server_stream net path a).2 = match wire_encode a with Err msg => Err (Encode msg) | Ok _ => Ok (stream_outcome (f a)) end) ∧
  (∀ (f : list (result A RpcError) → list (run (result R E))) (items : list A),
    (∀ ctx, service path ctx = typed_with encode_str (HParam Streaming (λ s, HBody (Returned (stream_results (f s))))) ctx) →
    (bidi_stream net path items).2 = Ok (stream_outcome (f (Ok <$> sendable items)))).
Proof.
  split.
  - intros f a Hf. unfold server_stream. destruct (wire_encode a) as [p|msg] eqn:Ha; [|done]. cbn [s_open served snd]. f_equal.
    erewrite replies_served by done. apply (responses_served _ _ _ (Hf _)). cbn. by rewrite (wire_decode_encode a p Ha).
  - intros f items Hf. unfold bidi_stream. cbn [s_open served snd]. f_equal. rewrite pump_items_served.
    erewrite replies_served by done. apply (responses_served _ _ _ (Hf _)).
    by rewrite (streaming_sent items _ ((CSend <$> frames_of items) ++ [CFinish])).
Qed.
(** An item of a bidirectional call that cannot be encoded ends the request like its
    last item: nothing tells the server, or the caller, that the rest is missing. *)
Theorem bidi_truncates_silently (xs ys : list A) x msg : first_failure xs = None → wire_encode x = Err msg →
  bidi_stream (R := R) net path (xs ++ x :: ys) = bidi_stream net path xs.
Proof.
  intros Hxs Hx. unfold bidi_stream. cbn [s_open served]. rewrite !pump_items_served.
  assert (frames_of (xs ++ x :: ys) = frames_of xs) as ->; [|done]. unfold frames_of. revert Hxs.
  induction xs as [|y xs IH]; cbn; [by rewrite Hx|]. destruct (wire_encode y) eqn:Hy; [|by unfold first_failure; cbn; rewrite Hy].
  intros Hn. f_equal. apply IH. unfold first_failure in Hn. cbn in Hn. by rewrite Hy in Hn.
Qed.
End EndToEnd.

(** A serializable error of the service comes back as the value that was returned,
    under the default code, when no error handler changes it. *)
Theorem typed_errors_roundtrip {Scope Peer A R E} `{WireCodecLaws A, WireCodecLaws R, WireCodecLaws E} (peer : Peer) (scope : Scope)
    (encode_str : string → result bytes string) (service : @RpcService (RpcCallContext Scope Peer)) path (f : A → run (result R E)) a e p b :
  (∀ ctx, service path ctx = typed_fallible encode_str (HParam Payload (λ x, HBody (body_of (f x)))) ctx) →
  wire_encode a = Ok p → f a = Returned (Err e) → wire_encode e = Ok b →
  ∃ eb : ErrorBody E, (unary (R := R) (served peer scope encode_str None service) path a).2 = Err (Remote (eb_code eb) (eb_raw eb)) ∧
    eb_code eb = status_of Internal ∧ eb_deserialize eb = Ok e.
Proof.
  intros Hs Ha Hf He. pose proof (unary_decides peer scope encode_str None service path f a Hs) as Hu. rewrite Ha in Hu. rewrite Hu, Hf.
  exists (mkErrorBody (status_of Internal) b). cbn. unfold response_error, ResponseError_serialize, default_error_response. rewrite He. split; [done|].
  split; [done|]. by apply wire_decode_encode.
Qed.

(** ** Bytes as messages *)

#[local] Instance N_codec : WireCodec N := {|
  wire_encode n := match Byte.of_N n with Some b => Ok [b] | None => Err "too large" end;
  wire_decode bs := match bs with [b] => Ok (Byte.to_N b) | _ => Err "not one byte" end |}.
#[local] Instance N_codec_laws : WireCodecLaws N.
Proof. intros x b. cbn. destruct (Byte.of_N x) as [y|] eqn:E; [|done]. intros [= <-]. f_equal. by apply Byte.to_of_N. Qed.

(** Half of an even number. *)
Definition z_half (n : N) : run (result N N) := Returned (if N.even n then Ok (N.div2 n) else Err n).
Definition z_halves (s : list (result N RpcError)) : list (run (result N N)) := (λ r, match r with Ok n => z_half n | Err _ => Panicked end) <$> s.
Definition z_sum (s : list (result N RpcError)) : run (result N N) := Returned (Ok (foldr (λ r n, match r with Ok m => (m + n)%N | Err _ => n end) 0%N s)).
Definition z_routes : gmap string (@RpcHandler (RpcCallContext unit unit)) :=
  list_to_map [
    ("Math.half", typed_fallible toy_encode (HParam Payload (λ x, HBody (body_of (z_half x)))));
    ("Math.sum", typed_fallible toy_encode (HParam Streaming (λ s, HBody (body_of (z_sum s)))));
    ("Math.halves", typed_with toy_encode (HParam Streaming (λ s, HBody (Returned (stream_results (z_halves s)))))) ].
Definition z_net : Session := served tt tt toy_encode None (dispatch toy_encode z_routes).
Example call_samples :
  (unary z_net "Math.half" 10%N).2 = Ok 5%N ∧ (unary (R := N) z_net "Math.half" 7%N).2 = Err (Remote (status_of Internal) [Byte.x07]) ∧
  (unary (R := N) z_net "Math.half" 300%N) = ([], Err (Encode "too large")) ∧
  (unary (R := N) z_net "Math.third" 9%N).2 = Err (Remote (status_of NotFound) []) ∧
  (client_stream z_net "Math.sum" [1; 2; 3]%N).2 = Ok 6%N ∧ (client_stream (R := N) z_net "Math.sum" [1; 300; 3]%N).2 = Err (Encode "too large") ∧
  (bidi_stream z_net "Math.halves" [2; 4; 5; 6]%N).2 = Ok [Ok 1%N; Ok 2%N; Err (Remote (status_of Internal) [Byte.x05])] ∧
  (bidi_stream z_net "Math.halves" [2; 300; 4]%N).2 = Ok [Ok 1%N] ∧
  (unary (R := N) z_net "Math.sum" 1%N).2 = Err (Remote (status_of BadInput) []).
Proof. vm_compute. repeat split. Qed.
Lemma unary_end_to_end_witness : (unary z_net "Math.half" 10%N) = ([COpen "Math.half" false [Byte.x0a]], Ok 5%N).
Proof. exact (unary_end_to_end tt tt toy_encode None (dispatch toy_encode z_routes) "Math.half" z_half 10%N (λ _, eq_refl)). Defined.
Lemma client_stream_end_to_end_witness : (client_stream z_net "Math.sum" [1; 2; 3]%N).2 = Ok 6%N.
Proof. exact (client_stream_end_to_end tt tt toy_encode None (dispatch toy_encode z_routes) "Math.sum" z_sum [1; 2; 3]%N (λ _, eq_refl)). Defined.
Lemma streams_end_to_end_witness : (bidi_stream z_net "Math.halves" [2; 300; 4]%N).2 = Ok [Ok 1%N].
Proof.
  exact (proj2 (streams_end_to_end (A := N) (R := N) (E := N) tt tt toy_encode None (dispatch toy_encode z_routes) "Math.halves") z_halves [2; 300; 4]%N (λ _, eq_refl)).
Defined.
Lemma bidi_truncates_silently_witness : bidi_stream (R := N) z_net "Math.halves" [2; 300; 4]%N = bidi_stream z_net "Math.halves" [2%N].
Proof. exact (bidi_truncates_silently (R := N) tt tt toy_encode None (dispatch toy_encode z_routes) "Math.halves" [2%N] [4%N] 300%N "too large" eq_refl eq_refl). Defined.
Lemma typed_errors_roundtrip_witness :
  ∃ eb : ErrorBody N, (unary (R := N) z_net "Math.half" 7%N).2 = Err (Remote (eb_code eb) (eb_raw eb)) ∧ eb_deserialize eb = Ok 7%N.
Proof.
  destruct (typed_errors_roundtrip tt tt toy_encode (dispatch toy_encode z_routes) "Math.half" z_half 7%N 7%N [Byte.x07] [Byte.x07] (λ _, eq_refl) eq_refl eq_refl eq_refl)
    as (eb & Hr & _ & Hd). by exists eb.
Defined.
