(* ===== verification/PubSub.v ===== *)
(** * PubSub: the subscription registry and its fan-out

    Models [crates/axum/src/ws/pubsub/registry.rs]. The registry is generic over the frame a protocol delivers; a
    sender into a connection's outbound channel is the number of that channel, and
    the channels themselves belong to the protocol ([StompServer]).

    Every method takes the registry's lock once, or is one atomic increment. A
    publication takes its targets under the lock and sends to them one by one
    afterwards, so it is a value, [Fan], that lives on between two such steps. *)
From stdpp Require Import relations.
From S2P Require Import Prelude.

Abbreviation ConnectionId := Z.
(** [fetch_add(1)] on a 64-bit word. *)
Definition id_next (n : Z) : Z := (n + 1) mod 2 ^ 64.

(** [SubEntry]; [tx] is the channel of the connection. *)
Record SubEntry := mkSub { conn : ConnectionId; sub_id : string; tx : nat }.
Record SubscriptionRegistry := mkRegistry {
  subs : gmap string (list SubEntry); next_conn : Z; next_message : Z }.
(** [SubscriptionRegistry::new] *)
Definition Registry_new : SubscriptionRegistry := mkRegistry ∅ 1 1.
Definition set_subs (m : gmap string (list SubEntry)) (r : SubscriptionRegistry) : SubscriptionRegistry :=
  mkRegistry m (next_conn r) (next_message r).

Definition register (r : SubscriptionRegistry) : ConnectionId * SubscriptionRegistry :=
  (next_conn r, mkRegistry (subs r) (id_next (next_conn r)) (next_message r)).
Definition next_message_id (r : SubscriptionRegistry) : Z * SubscriptionRegistry :=
  (next_message r, mkRegistry (subs r) (next_conn r) (id_next (next_message r))).
(** [subs.get(destination)], and the [or_default] of [entry] *)
Definition entries_of (d : string) (r : SubscriptionRegistry) : list SubEntry := default [] (subs r !! d).
Definition subscribe (c : ConnectionId) (s d : string) (t : nat) (r : SubscriptionRegistry) : SubscriptionRegistry :=
  set_subs (<[d := entries_of d r ++ [mkSub c s t]]> (subs r)) r.
Definition names (c : ConnectionId) (s : string) (e : SubEntry) : bool := (conn e =? c) && bool_decide (sub_id e = s).
Definition unsubscribe (c : ConnectionId) (s : string) (r : SubscriptionRegistry) : SubscriptionRegistry :=
  set_subs (List.filter (λ e, negb (names c s e)) <$> subs r) r.
Definition is_nonempty (l : list SubEntry) : bool := match l with [] => false | _ => true end.
Definition unregister (c : ConnectionId) (r : SubscriptionRegistry) : SubscriptionRegistry :=
  set_subs (filter (λ p, is_nonempty p.2 = true) (List.filter (λ e, negb (conn e =? c)) <$> subs r)) r.
Definition targets (d : string) (r : SubscriptionRegistry) : list (string * nat) :=
  (λ e, (sub_id e, tx e)) <$> entries_of d r.

(** ** Publications *)

Section Fan.
Context {Payload Frame : Type} (make_frame : Z → string → string → Payload → Frame).

(** A publication: its destination and payload, the subscribers still to come, the
    sends of [deliver_frames] that were started and wait for room, and how many may
    wait at once ([None] for [publish_frames], which never waits). *)
Record Fan := mkFan {
  f_dest : string; f_payload : Payload; f_rest : list (string * nat); f_started : list (nat * Frame);
  f_limit : option nat }.
Definition publish_frames (d : string) (p : Payload) (r : SubscriptionRegistry) : Fan := mkFan d p (targets d r) [] None.
(** [deliver_frames::<N>]; [N.max(1)]. *)
Definition deliver_frames (n : nat) (d : string) (p : Payload) (r : SubscriptionRegistry) : Fan :=
  mkFan d p (targets d r) [] (Some (Nat.max n 1)).
Definition fan_done (f : Fan) : bool :=
  match f_rest f, f_started f with [], [] => true | _, _ => false end.

(** The next subscriber: its frame is made with a fresh message id, and is to be
    sent without waiting, or becomes one of the started sends. *)
Definition fan_next (f : Fan) (r : SubscriptionRegistry) : option (Fan * option (nat * Frame) * SubscriptionRegistry) :=
  match f_rest f with
  | [] => None
  | (s, t) :: rest =>
      let '(i, r') := next_message_id r in
      let frame := make_frame i (f_dest f) s (f_payload f) in
      match f_limit f with
      | None => Some (mkFan (f_dest f) (f_payload f) rest (f_started f) None, Some (t, frame), r')
      | Some n =>
          if (length (f_started f) <? n)%nat
          then Some (mkFan (f_dest f) (f_payload f) rest (f_started f ++ [(t, frame)]) (f_limit f), None, r')
          else None
      end
  end.
(** A started send is over. *)
Definition fan_finish (i : nat) (f : Fan) : Fan :=
  mkFan (f_dest f) (f_payload f) (f_rest f) (delete i (f_started f)) (f_limit f).
End Fan.
Arguments Fan : clear implicits.

(** ** What the operations do to the subscriptions *)

Definition subscribed (r : SubscriptionRegistry) (d : string) (e : SubEntry) : Prop := e ∈ entries_of d r.

Lemma subscribed_subs r d e : subscribed r d e ↔ ∃ l, subs r !! d = Some l ∧ e ∈ l.
Proof.
  unfold subscribed, entries_of. destruct (subs r !! d) as [l|]; simpl; [naive_solver|].
  split; [intros H; by apply elem_of_nil in H|naive_solver].
Qed.
Lemma subscribed_new d e : ¬ subscribed Registry_new d e.
Proof. unfold subscribed, entries_of. simpl. rewrite lookup_empty. apply not_elem_of_nil. Qed.
Lemma elem_of_filter_bool {A} (p : A → bool) (l : list A) x : x ∈ List.filter p l ↔ x ∈ l ∧ p x = true.
Proof. rewrite !list_elem_of_In. apply filter_In. Qed.
(** A subscription is added behind those of its destination. *)
Lemma subscribed_subscribe c s d t r d' e :
  subscribed (subscribe c s d t r) d' e ↔ subscribed r d' e ∨ (d' = d ∧ e = mkSub c s t).
Proof.
  unfold subscribed, subscribe, entries_of at 1. simpl. destruct (decide (d = d')) as [<-|Hne].
  - rewrite lookup_insert_eq. simpl. rewrite elem_of_app, list_elem_of_singleton. naive_solver.
  - rewrite lookup_insert_ne by done. unfold entries_of. naive_solver.
Qed.
(** Exactly the subscription of that id, on that connection, goes. *)
Lemma subscribed_unsubscribe c s r d e :
  subscribed (unsubscribe c s r) d e ↔ subscribed r d e ∧ ¬ (conn e = c ∧ sub_id e = s).
Proof.
  assert (Hn : negb (names c s e) = true ↔ ¬ (conn e = c ∧ sub_id e = s)).
  { unfold names. destruct (Z.eqb_spec (conn e) c); case_bool_decide; simpl; naive_solver. }
  rewrite !subscribed_subs. unfold unsubscribe. simpl. setoid_rewrite lookup_fmap. setoid_rewrite fmap_Some. split.
  - intros (l & (l0 & Hl & ->) & [He Hk]%elem_of_filter_bool). split; [by exists l0|by apply Hn].
  - intros [(l & Hl & He) Hk]. eexists. split; [by exists l|]. apply elem_of_filter_bool. split; [done|by apply Hn].
Qed.
(** Everything of that connection goes, and nothing else. *)
Lemma subscribed_unregister c r d e : subscribed (unregister c r) d e ↔ subscribed r d e ∧ conn e ≠ c.
Proof.
  assert (Hn : negb (conn e =? c) = true ↔ conn e ≠ c) by (destruct (Z.eqb_spec (conn e) c); naive_solver).
  rewrite !subscribed_subs. unfold unregister. simpl. setoid_rewrite map_lookup_filter_Some.
  setoid_rewrite lookup_fmap. setoid_rewrite fmap_Some. split.
  - intros (l & [(l0 & Hl & ->) _] & [He Hk]%elem_of_filter_bool). split; [by exists l0|by apply Hn].
  - intros [(l & Hl & He) Hk]. assert (e ∈ List.filter (λ e, negb (conn e =? c)) l) as Hin
      by (apply elem_of_filter_bool; split; [done|by apply Hn]).
    eexists. split; [|exact Hin]. split; [by exists l|]. simpl. by destruct (List.filter _ l); [apply elem_of_nil in Hin|].
Qed.
Lemma next_ids_frame r : subs (register r).2 = subs r ∧ subs (next_message_id r).2 = subs r.
Proof. done. Qed.
(** After a connection is unregistered no destination is left without subscribers. *)
Lemma unregister_no_empty c r d l : subs (unregister c r) !! d = Some l → l ≠ [].
Proof. unfold unregister. simpl. intros [_ Hl]%map_lookup_filter_Some. by destruct l. Qed.
Lemma elem_of_targets d r s t : (s, t) ∈ targets d r ↔ ∃ e, subscribed r d e ∧ sub_id e = s ∧ tx e = t.
Proof. unfold targets, subscribed. rewrite list_elem_of_fmap. naive_solver. Qed.
