(* ===== verification/WsHost.v ===== *)
(** * WsHost: what every WebSocket endpoint shares

    Models [crates/axum/src/ws/mod.rs]: the idle probe, the admission gate, the
    check of the routes and the mounting of an endpoint, and the errors of a
    dispatch. A time is nanoseconds of the monotonic clock. The upgrade itself is
    axum's: whether it selected a subprotocol, and when a connection ends, are
    events. *)
From S2P Require Import Prelude.

Inductive WsDispatchError :=
| NotFound (d : string) | Decode (d : string) | InjectError (d : string) | Encode (d : string) | Application (m : string).
(** [WsDispatchError::public_message] *)
Definition public_message (e : WsDispatchError) : string :=
  match e with
  | NotFound _ => "no handler for destination"
  | Decode _ => "invalid request payload"
  | InjectError _ | Encode _ => "internal error"
  | Application m => m
  end.
(** [Display] of [WsDispatchError]. *)
Definition dispatch_text (e : WsDispatchError) : string :=
  match e with
  | NotFound d => "no handler for ws destination `" +:+ d +:+ "`"
  | Decode d => "decoding ws payload: " +:+ d
  | InjectError d => "injecting ws dependency: " +:+ d
  | Encode d => "encoding ws response: " +:+ d
  | Application m => "ws application error: " +:+ m
  end.

(** ** [WsIdle] *)

Record WsIdle := mkIdle { idle_timeout : option Z; deadline : option Z; awaiting_probe_reply : bool }.
(** The setting, in milliseconds, and [WsIdle::new]. *)
Definition idle_setting (ms : Z) : option Z := if 0 <? ms then Some (ms * 10 ^ 6) else None.
Definition WsIdle_new (timeout : option Z) (now : Z) : WsIdle := mkIdle timeout (Z.add now <$> timeout) false.
Definition reset_deadline (awaiting : bool) (now : Z) (i : WsIdle) : WsIdle :=
  mkIdle (idle_timeout i) (Z.add now <$> idle_timeout i) awaiting.
Definition on_activity (now : Z) (i : WsIdle) : WsIdle := reset_deadline false now i.
Definition on_timeout (now : Z) (i : WsIdle) : bool * WsIdle :=
  if awaiting_probe_reply i then (true, i) else (false, reset_deadline true now i).
(** [wait] has returned. *)
Definition idle_expired (now : Z) (i : WsIdle) : bool := match deadline i with Some d => d <=? now | None => false end.

(** What a serve loop does with it: activity, or an expired wait, which drops the
    connection or probes it. *)
Inductive IdleEvent := Activity (now : Z) | Expired (now : Z).
Definition idle_step (ev : IdleEvent) (i : WsIdle) : option (bool * WsIdle) :=
  match ev with
  | Activity now => Some (false, on_activity now i)
  | Expired now => if idle_expired now i then Some (on_timeout now i) else None
  end.
Fixpoint idle_run (evs : list IdleEvent) (i : WsIdle) : option (bool * WsIdle) :=
  match evs with
  | [] => Some (false, i)
  | ev :: evs' => '(dropped, i') ← idle_step ev i; if (dropped : bool) then (match evs' with [] => Some (true, i') | _ => None end) else idle_run evs' i'
  end.

(** ** [WsAdmission] *)

(** Tokio's [Semaphore::MAX_PERMITS]. *)
Definition MAX_PERMITS : Z := 2 ^ 61 - 1.
Definition WsAdmission_new (max_connections : Z) : result (option Z) string :=
  if MAX_PERMITS <? max_connections
  then Err ("max_websocket_connections (" +:+ int_to_string max_connections +:+ ") exceeds Tokio's semaphore limit (" +:+
            int_to_string MAX_PERMITS +:+ ")")
  else Ok (if 0 <? max_connections then Some max_connections else None).
(** [try_acquire]: whether it succeeds, and what is left of the permits. *)
Definition try_acquire (permits : option Z) : bool * option Z :=
  match permits with
  | None => (true, None)
  | Some n => if 0 <? n then (true, Some (n - 1)) else (false, Some n)
  end.
Definition release (permits : option Z) : option Z := Z.add 1 <$> permits.

(** ** Mounting an endpoint *)

(** [validate_unique_routes], over the destinations of each controller. *)
Fixpoint unique_loop (destinations : list string) (seen : gset string) : result () string :=
  match destinations with
  | [] => Ok tt
  | d :: rest => if bool_decide (d ∈ seen) then Err d else unique_loop rest ({[d]} ∪ seen)
  end.
Definition validate_unique_routes (controllers : list (list string)) : result () string := unique_loop (concat controllers) ∅.

Inductive MountError := ByteLimits | DuplicateDestination (d : string) | BuildFailed (e : string) | Admission (e : string).
(** [mount_ws] up to the router; [build] is the protocol's. *)
Definition mount_ws {P} (max_message_bytes max_frame_bytes max_connections : Z) (controllers : list (list string))
    (build : result P string) : result (P * option Z) MountError :=
  if (max_message_bytes =? 0) || (max_frame_bytes =? 0) then Err ByteLimits
  else
    match validate_unique_routes controllers with
    | Err d => Err (DuplicateDestination d)
    | Ok _ =>
        match build with
        | Err e => Err (BuildFailed e)
        | Ok p => match WsAdmission_new max_connections with Err e => Err (Admission e) | Ok permits => Ok (p, permits) end
        end
    end.

(** The upgrade handler: the connections that hold a permit, and what is left. *)
Record Endpoint := mkEndpoint { permits : option Z; live : Z }.
Inductive UpgradeResult := Upgraded | ServiceUnavailable | BadRequest.
Definition upgrade (require_subprotocol selected : bool) (s : Endpoint) : UpgradeResult * Endpoint :=
  let '(ok, left_) := try_acquire (permits s) in
  if ok then
    if require_subprotocol && negb selected then (BadRequest, mkEndpoint (release left_) (live s))
    else (Upgraded, mkEndpoint left_ (live s + 1))
  else (ServiceUnavailable, s).
Inductive EndpointEvent := Upgrade (selected : bool) | ConnectionEnds.
Definition endpoint_step (require_subprotocol : bool) (ev : EndpointEvent) (s : Endpoint) : option Endpoint :=
  match ev with
  | Upgrade selected => Some (upgrade require_subprotocol selected s).2
  | ConnectionEnds => if 0 <? live s then Some (mkEndpoint (release (permits s)) (live s - 1)) else None
  end.
Fixpoint endpoint_run (require_subprotocol : bool) (evs : list EndpointEvent) (s : Endpoint) : option Endpoint :=
  match evs with [] => Some s | ev :: evs' => s' ← endpoint_step require_subprotocol ev s; endpoint_run require_subprotocol evs' s' end.

(** ** Properties *)

Lemma unique_loop_ok l seen : unique_loop l seen = Ok tt ↔ NoDup l ∧ ∀ d, d ∈ l → d ∉ seen.
Proof.
  revert seen. induction l as [|d l IH]; intros seen; simpl; [split; [intros _; split; [constructor|set_solver]|done]|].
  case_bool_decide as Hd.
  - split; [done|]. intros [_ H]. by destruct (H d (list_elem_of_here _ _)).
  - rewrite IH, NoDup_cons. split.
    + intros [Hn H]. split; [split; [|done]|].
      * intros Hin. specialize (H d Hin). set_solver.
      * intros d' [->|Hd']%elem_of_cons; [done|]. specialize (H d' Hd'). set_solver.
    + intros [[Hnd Hn] H]. split; [done|]. intros d' Hd'. specialize (H d' (list_elem_of_further _ _ _ Hd')). set_solver.
Qed.
(** An endpoint mounts exactly when the byte limits are positive, no destination is
    handled twice, the protocol was built and the connection limit fits a
    semaphore. *)
Theorem mount_accepts {P} mb fb mc controllers (build : result P string) p permits_ :
  mount_ws mb fb mc controllers build = Ok (p, permits_) ↔
  mb ≠ 0 ∧ fb ≠ 0 ∧ NoDup (concat controllers) ∧ build = Ok p ∧ WsAdmission_new mc = Ok permits_.
Proof.
  unfold mount_ws, validate_unique_routes. pose proof (unique_loop_ok (concat controllers) ∅) as Hu.
  destruct (Z.eqb_spec mb 0), (Z.eqb_spec fb 0); simpl; try (split; [done|naive_solver]).
  destruct (unique_loop _ _) as [[]|d].
  - assert (NoDup (concat controllers)) by by apply Hu. destruct build as [q|e]; [|naive_solver].
    destruct (WsAdmission_new mc); naive_solver.
  - split; [done|]. intros (_ & _ & Hnd & _). assert (Err d = Ok tt :> result () string) by (apply Hu; set_solver). done.
Qed.

(** However upgrades and ends of connections interleave, an endpoint with a limit
    never has more connections than that, and no permit is lost. *)
Theorem admission_bounded max require evs s :
  0 < max → endpoint_run require evs (mkEndpoint (Some max) 0) = Some s →
  0 ≤ live s ≤ max ∧ permits s = Some (max - live s).
Proof.
  intros Hmax. assert (Hgen : ∀ s0, 0 ≤ live s0 ≤ max ∧ permits s0 = Some (max - live s0) →
    endpoint_run require evs s0 = Some s → 0 ≤ live s ≤ max ∧ permits s = Some (max - live s)).
  { induction evs as [|ev evs IH]; intros s0 Hok; simpl; [by intros [= <-]|].
    destruct (endpoint_step require ev s0) as [s1|] eqn:Hev; [|done]. simpl. apply IH. clear IH.
    destruct s0 as [p n], Hok as [Hb Hp]; simpl in *. subst p. destruct ev as [selected|]; simpl in Hev.
    - unfold upgrade in Hev. simpl in Hev. destruct (Z.ltb_spec 0 (max - n)); [|by simplify_eq].
      destruct (require && negb selected); simplify_eq/=; (split; [lia|f_equal; lia]).
    - destruct (Z.ltb_spec 0 n); [|done]. simplify_eq/=. split; [lia|f_equal; lia]. }
  apply Hgen. simpl. split; [lia|f_equal; lia].
Qed.

(** The last activity, and the time of the last event. *)
Definition last_activity (evs : list IdleEvent) (start : Z) : Z :=
  foldl (λ t ev, match ev with Activity now => now | Expired _ => t end) start evs.
Record idle_ok (t : Z) (i : WsIdle) (active : Z) : Prop := {
  io_timeout : idle_timeout i = Some t;
  io_deadline : ∃ d, deadline i = Some d ∧ active + (if awaiting_probe_reply i then 2 * t else t) ≤ d;
}.
(** A connection is dropped for silence only after a probe, and after two whole
    intervals without anything from the peer. *)
Theorem idle_drops_after_two_intervals t start evs i :
  0 < t → idle_run evs (WsIdle_new (Some t) start) = Some (true, i) →
  ∃ evs' now, evs = evs' ++ [Expired now] ∧ last_activity evs start + 2 * t ≤ now ∧ ∃ probe, Expired probe ∈ evs'.
Proof.
  intros Ht. assert (Hgen : ∀ evs active i0, idle_ok t i0 active → idle_run evs i0 = Some (true, i) →
    ∃ evs' now, evs = evs' ++ [Expired now] ∧ last_activity evs active + 2 * t ≤ now ∧
      (awaiting_probe_reply i0 = true ∨ ∃ probe, Expired probe ∈ evs')).
  { clear evs start. induction evs as [|ev evs IH]; intros active i0 [Hto (d & Hd & Hle)] Hrun; simpl in Hrun; [done|].
    destruct ev as [now|now]; simpl in Hrun.
    - apply (IH now) in Hrun as (evs' & n & -> & Hn & Hp).
      + exists (Activity now :: evs'), n. split; [done|]. split; [done|]. simpl in Hp. destruct Hp as [?|[q Hq]]; [done|].
        right. exists q. by right.
      + split; simpl; [done|]. rewrite Hto. simpl. eexists. split; [done|lia].
    - unfold idle_expired in Hrun. rewrite Hd in Hrun. destruct (Z.leb_spec d now) as [Hnow|]; [|done]. simpl in Hrun.
      unfold on_timeout in Hrun. destruct (awaiting_probe_reply i0) eqn:Ha.
      + destruct evs; [|done]. exists [], now. split; [done|]. split; [simpl; lia|by left].
      + apply (IH active) in Hrun as (evs' & n & -> & Hn & _).
        * exists (Expired now :: evs'), n. split; [done|]. split; [done|]. right. exists now. by left.
        * split; simpl; [done|]. rewrite Hto. simpl. eexists. split; [done|lia]. }
  intros Hrun. apply (Hgen evs start) in Hrun as (evs' & now & -> & Hn & [Hp|Hp]); [done| |].
  - by exists evs', now.
  - split; simpl; [done|]. eexists. split; [done|lia].
Qed.

(** What a peer may see of a failure of the framework: one of three fixed texts. *)
Theorem public_messages_reveal_nothing e :
  (∀ m, e ≠ Application m) →
  public_message e ∈ ["no handler for destination"; "invalid request payload"; "internal error"].
Proof. destruct e; simpl; intros Ha; [set_solver..|]. by destruct (Ha m). Qed.

(** ** Witnesses *)

Lemma mount_accepts_witness : ∃ p permits_, mount_ws 1 1 2 [["a"]; ["b"]] (Ok 7) = Ok (p, permits_) ∧ p = 7.
Proof.
  exists 7, (Some 2). split; [|reflexivity]. apply (mount_accepts 1 1 2 [["a"]; ["b"]] (Ok 7)).
  split; [discriminate|]. split; [discriminate|]. split; [|split; reflexivity]. simpl.
  apply NoDup_cons. split; [set_solver|apply NoDup_singleton].
Defined.
Lemma admission_bounded_witness :
  ∃ s, endpoint_run true [Upgrade true; Upgrade false; Upgrade true; ConnectionEnds; Upgrade true] (mkEndpoint (Some 1) 0) = Some s ∧
    live s = 1 ∧ 0 ≤ live s ≤ 1.
Proof.
  eexists. split; [reflexivity|]. split; [reflexivity|].
  eapply (admission_bounded 1 true [Upgrade true; Upgrade false; Upgrade true; ConnectionEnds; Upgrade true]); [lia|reflexivity].
Defined.
Lemma idle_drops_after_two_intervals_witness :
  ∃ i evs' now, idle_run [Expired 10; Activity 12; Expired 22; Expired 33] (WsIdle_new (Some 10) 0) = Some (true, i) ∧
    [Expired 10; Activity 12; Expired 22; Expired 33] = evs' ++ [Expired now] ∧ 12 + 2 * 10 ≤ now.
Proof.
  destruct (idle_run [Expired 10; Activity 12; Expired 22; Expired 33] (WsIdle_new (Some 10) 0)) as [[b i]|] eqn:Hr; [|discriminate Hr].
  destruct b; [|discriminate Hr].
  destruct (idle_drops_after_two_intervals 10 0 [Expired 10; Activity 12; Expired 22; Expired 33] i ltac:(lia) Hr) as (evs' & now & He & Hn & _).
  exists i, evs', now. split; [reflexivity|]. split; [exact He|exact Hn].
Defined.
Lemma public_messages_reveal_nothing_witness :
  public_message (InjectError "Db") ∈ ["no handler for destination"; "invalid request payload"; "internal error"].
Proof. apply public_messages_reveal_nothing. discriminate. Defined.
