(* ===== verification/StompServer.v ===== *)
(** * StompServer: a STOMP endpoint and its connections

    Models [crates/axum-stomp/src/server.rs] with [server/broker.rs], [headers.rs],
    [auth.rs], [body.rs] and [error.rs]. An endpoint is a transition system: its
    broker ([PubSub]), one task and one writer task per connection, and the
    publications of other code. A step is one lock section, one send or one wait.
    An event says who moves and what the outside does: the socket delivers a
    message or writes a frame, the authenticator and the handlers of the
    application return, a request scope is built or not.

    The parser of STOMP frames is an argument. A frame that is sent is the value
    its builder is given; its text is the parser crate's. A channel is the list
    it holds; the receiver is gone when the writer task is. Two fields of a
    connection only record: what it subscribed to, and where it asked for replies. *)
From stdpp Require Import relations pretty.
From S2P Require Import Prelude PubSub WsHost.

(** ** Frames *)

Record StompBody := mkBody { content_type : option string; body_bytes : string }.
Abbreviation Headers := (list (string * string)).
Definition REPLY_SUBSCRIPTION_ID : string := "reply".
Definition MESSAGE_ERROR_HEADER : string := "overseerd-error".
Definition OUTBOUND_BUFFER : nat := 64.

(** [StompHeaders::get] and [header_value]: the first value. *)
Definition header_value (hs : Headers) (name : string) : option string :=
  snd <$> head (filter (λ p, p.1 = name) hs).
Definition send_header_seed (destination : string) (ct : option string) (custom : Headers) : Headers :=
  ("destination", destination) :: match ct with Some c => [("content-type", c)] | None => [] end ++ custom.

Record StompConnect := mkConnect { host : string; login : option string; passcode : option string; headers : Headers }.
(** [Debug] of [StompConnect]: the fields it prints. *)
Definition connect_debug (c : StompConnect) : string * option string * option string * list string :=
  (host c, login c, (λ _, "[REDACTED]") <$> passcode c, (headers c).*1).

Record StompPrincipal := mkPrincipal { subject : option string; attributes : gmap string string }.
Definition anonymous : StompPrincipal := mkPrincipal None ∅.
Definition authenticated (s : string) : StompPrincipal := mkPrincipal (Some s) ∅.
Definition with_attribute (n v : string) (p : StompPrincipal) : StompPrincipal := mkPrincipal (subject p) (<[n := v]> (attributes p)).
Definition is_authenticated (p : StompPrincipal) : bool := match subject p with Some _ => true | None => false end.

Record Publish := mkPublish { p_destination : string; p_body : StompBody; p_headers : Headers }.
Inductive StompOutcome := Nothing | Publishes (l : list Publish) | Reply (b : StompBody).

(** [StompError] and its [Display]. *)
Inductive StompError :=
| FrameError (m : string) | UnexpectedCommand (m : string) | VersionMismatch (offered : string) | Authentication (m : string)
| MissingHeader (h : string) | TooLarge (size max : N) | DispatchError (e : WsDispatchError).
Definition error_text (e : StompError) : string :=
  match e with
  | FrameError m => "malformed STOMP frame: " +:+ m
  | UnexpectedCommand m => "unexpected STOMP command `" +:+ m +:+ "`"
  | VersionMismatch o => "no common STOMP version (client offered `" +:+ o +:+ "`)"
  | Authentication m => "authentication failed: " +:+ m
  | MissingHeader h => "missing required header `" +:+ h +:+ "`"
  | TooLarge size max => "STOMP frame body too large (" +:+ pretty size +:+ " > " +:+ pretty max +:+ " bytes)"
  | DispatchError e => dispatch_text e
  end.

(** ** Text of an opener: [is_heartbeat], [ensure_connect_host] *)

Definition nl : ascii := "010".
Definition cr : ascii := "013".
Definition is_heartbeat (s : string) : bool :=
  bool_decide (s = "" ∨ s = String nl "" ∨ s = String cr (String nl "")).
Fixpoint contains_subsequence (needle s : string) : bool :=
  String.prefix needle s || match s with "" => false | String _ s' => contains_subsequence needle s' end.
Definition host_key : string := String nl "host:".
Definition host_line : string := "host:overseerd" +:+ String nl "".
(** The text with the line put behind the first newline, if there is one. *)
Fixpoint insert_line (line s : string) : option string :=
  match s with
  | "" => None
  | String c s' => if bool_decide (c = nl) then Some (String c (line +:+ s')) else String c <$> insert_line line s'
  end.
Definition ensure_connect_host (s : string) : string :=
  let is_connect := String.prefix "CONNECT" s || String.prefix "STOMP" s in
  if negb is_connect || contains_subsequence host_key s then s else default s (insert_line host_line s).

Section Stomp.
Context {Version : Type} `{EqDecision Version}.

(** What the parser of client frames returns, and what the builders of server
    frames are given. *)
Inductive ClientFrame :=
| CConnect (versions : list Version) (offered : string) (c : StompConnect) (debug : string)
| CSubscribe (id destination : string) (receipt : option string)
| CUnsubscribe (id : string) (receipt : option string)
| CSend (destination : string) (receipt ct : option string) (custom : Headers) (body : option string)
| CDisconnect (receipt : string)
| COther (debug : string).
Inductive ServerFrame :=
| SConnected (v : Version)
| SMessage (message_id : Z) (destination subscription : string) (b : StompBody) (extra : Headers)
| SReceipt (id : string)
| SError (e : StompError).
(** [OutFrame]; [Heartbeat] is never queued, the writer makes its own. *)
Inductive OutFrame := OFrame (f : ServerFrame) | OHeartbeat | OPing.
(** [build_message] *)
Definition build_message (message_id : Z) (destination sub : string) (p : StompBody * Headers) : OutFrame :=
  OFrame (SMessage message_id destination sub p.1 p.2).
Abbreviation Broadcast := (Fan (StompBody * Headers) OutFrame).

Record StompConfig := mkConfig {
  server_heartbeat : bool; versions : list Version; has_authenticator : bool; ws_idle : option Z }.

Inductive WsMessage := MText (s : string) | MBinary (s : string) | MOther.

Context (parse : string → result ClientFrame string) (is_route : string → bool) (config : StompConfig).

(** [negotiate] up to the authenticator. *)
Definition negotiate (m : WsMessage) : result (Version * StompConnect) StompError :=
  match m with
  | MOther => Err (FrameError "expected a CONNECT frame")
  | MText s | MBinary s =>
      match parse (ensure_connect_host s) with
      | Err e => Err (FrameError e)
      | Ok (CConnect offered text c _) =>
          match head (filter (λ v, v ∈ offered) (versions config)) with
          | Some v => Ok (v, c)
          | None => Err (VersionMismatch text)
          end
      | Ok _ => Err (UnexpectedCommand "expected CONNECT before any other frame")
      end
  end.

(** ** A connection *)

(** A [SEND] to a handler: what the handler's scope is given and where its outcome
    goes. *)
Record Call := mkCall {
  k_destination : string; k_body : StompBody; k_headers : Headers; reply_to : option string;
  correlation_id : option string; k_receipt : option string }.
(** Where the task of a connection stands. *)
Inductive Phase :=
| POpening                                     (* waits for the first frame *)
| PReject (e : StompError)                     (* sends the error and leaves *)
| PAuth (v : Version) (c : StompConnect)       (* in the authenticator *)
| PLoop                                        (* in [select!] *)
| PSend (fs : list OutFrame) (leave : bool)    (* awaits [tx.send] of each *)
| PHandle (k : Call)                           (* builds the scope, runs the handler *)
| PPublish (now : option Broadcast) (more : list Publish) (receipt : option string)
| PUnregister
| PDrain                                       (* waits for the writer *)
| PGone
| PPanicked.                                   (* unwound by a panic of a handler *)
Inductive Writer := WNone | WIdle | WWriting (f : OutFrame) | WGone.
Record Conn := mkConn {
  phase : Phase; c_id : ConnectionId; principal : option StompPrincipal; idle : WsIdle;
  chan : list OutFrame; writer : Writer; wire : list OutFrame;
  asked : list (string * string); requests : list string }.
Record World := mkWorld { broker : SubscriptionRegistry; conns : list Conn; fans : list Broadcast; shutdown : bool }.
Definition World_new : World := mkWorld Registry_new [] [] false.

Definition set_phase (p : Phase) (c : Conn) : Conn :=
  mkConn p (c_id c) (principal c) (idle c) (chan c) (writer c) (wire c) (asked c) (requests c).
Definition set_idle (i : WsIdle) (c : Conn) : Conn :=
  mkConn (phase c) (c_id c) (principal c) i (chan c) (writer c) (wire c) (asked c) (requests c).
Definition set_out (q : list OutFrame) (w : Writer) (l : list OutFrame) (c : Conn) : Conn :=
  mkConn (phase c) (c_id c) (principal c) (idle c) q w l (asked c) (requests c).
Definition add_asked (a : string * string) (c : Conn) : Conn :=
  mkConn (phase c) (c_id c) (principal c) (idle c) (chan c) (writer c) (wire c) (asked c ++ [a]) (requests c).
Definition add_request (r : option string) (c : Conn) : Conn :=
  mkConn (phase c) (c_id c) (principal c) (idle c) (chan c) (writer c) (wire c) (asked c)
    (requests c ++ match r with Some d => [d] | None => [] end).
Definition push (f : OutFrame) (c : Conn) : Conn := set_out (chan c ++ [f]) (writer c) (wire c) c.
Definition put_wire (f : OutFrame) (c : Conn) : Conn := set_out (chan c) (writer c) (wire c ++ [f]) c.
(** The writer task ends: its receiver and what it holds are dropped. *)
Definition writer_ends (c : Conn) : Conn := set_out [] WGone (wire c) c.
Definition upd (h : nat) (f : Conn → Conn) (s : World) : World := mkWorld (broker s) (alter f h (conns s)) (fans s) (shutdown s).
Definition set_broker (r : SubscriptionRegistry) (s : World) : World := mkWorld r (conns s) (fans s) (shutdown s).

Definition receiver_gone (c : Conn) : bool := match writer c with WNone | WGone => true | _ => false end.
Definition has_room (c : Conn) : bool := (length (chan c) <? OUTBOUND_BUFFER)%nat.
(** [tx.send(f).await]: [None] while it waits; a closed channel is ignored. *)
Definition send_wait (h : nat) (f : OutFrame) (s : World) : option World :=
  c ← conns s !! h;
  if receiver_gone c then Some s else if has_room c then Some (upd h (push f) s) else None.
(** [tx.try_send(f)] *)
Definition try_send (h : nat) (f : OutFrame) (s : World) : bool * World :=
  match conns s !! h with
  | Some c => if receiver_gone c || negb (has_room c) then (false, s) else (true, upd h (push f) s)
  | None => (false, s)
  end.
(** What is left of a dispatch: frames to send, then back to the loop or out of it. *)
Definition send_phase (fs : list OutFrame) (leave : bool) : Phase :=
  match fs with [] => if leave then PUnregister else PLoop | _ => PSend fs leave end.
Definition receipt_frames (r : option string) : list OutFrame := match r with Some i => [OFrame (SReceipt i)] | None => [] end.

(** ** [dispatch] and [route_send] *)

Definition call_of (d : string) (r ct : option string) (custom : Headers) (b : option string) : Call :=
  mkCall d (mkBody ct (default "" b)) (send_header_seed d ct custom) (header_value custom "reply-to")
    (header_value custom "correlation-id") r.
Definition dispatch (h : nat) (text : string) (s : World) : option World :=
  c ← conns s !! h;
  Some match parse text with
  | Err e => upd h (set_phase (PSend [OFrame (SError (FrameError e))] true)) s
  | Ok (CSubscribe i d r) =>
      upd h (λ c, set_phase (send_phase (receipt_frames r) false) (add_asked (i, d) c))
        (set_broker (subscribe (c_id c) i d h (broker s)) s)
  | Ok (CUnsubscribe i r) =>
      upd h (set_phase (send_phase (receipt_frames r) false)) (set_broker (unsubscribe (c_id c) i (broker s)) s)
  | Ok (CSend d r ct custom b) =>
      let k := call_of d r ct custom b in
      if is_route d then upd h (λ c, set_phase (PHandle k) (add_request (reply_to k) c)) s
      else upd h (set_phase (PPublish None [mkPublish d (k_body k) []] r)) s
  | Ok (CDisconnect r) => upd h (set_phase (PSend [OFrame (SReceipt r)] true)) s
  | Ok (CConnect _ _ _ d) | Ok (COther d) => upd h (set_phase (PSend [OFrame (SError (UnexpectedCommand d))] true)) s
  end.

Definition correlation_headers (k : Call) (extra : Headers) : Headers :=
  extra ++ match correlation_id k with Some i => [("correlation-id", i)] | None => [] end.
(** [deliver_reply] and [deliver_error_reply]: the frame, with a fresh message id. *)
Definition reply_frame (k : Call) (b : StompBody) (extra : Headers) (r : SubscriptionRegistry) : list OutFrame * SubscriptionRegistry :=
  match reply_to k with
  | None => ([], r)
  | Some d =>
      let '(i, r') := next_message_id r in
      ([build_message i d REPLY_SUBSCRIPTION_ID (b, correlation_headers k extra)], r')
  end.
Definition error_body (e : WsDispatchError) : StompBody := mkBody (Some "text/plain") (public_message e).
Inductive HandlerResult := ScopeFailed | HandlerPanics | Handled (r : result StompOutcome WsDispatchError).
Definition finish_call (h : nat) (k : Call) (res : HandlerResult) (s : World) : World :=
  let receipts := receipt_frames (k_receipt k) in
  let reply b extra :=
    let '(fs, r) := reply_frame k b extra (broker s) in
    upd h (set_phase (send_phase (fs ++ receipts) false)) (set_broker r s) in
  match res with
  | HandlerPanics => upd h (set_phase PPanicked) s
  | ScopeFailed | Handled (Ok Nothing) => upd h (set_phase (send_phase receipts false)) s
  | Handled (Ok (Publishes l)) => upd h (set_phase (PPublish None l (k_receipt k))) s
  | Handled (Ok (Reply b)) => reply b []
  | Handled (Err e) => reply (error_body e) [(MESSAGE_ERROR_HEADER, "1")]
  end.

(** One step of a publication, in a connection's task or elsewhere. *)
Definition fan_step (f : Broadcast) (s : World) : option (Broadcast * World) :=
  '(f', sent, r) ← fan_next build_message f (broker s);
  Some (f', let s := set_broker r s in match sent with Some (t, frame) => (try_send t frame s).2 | None => s end).
(** The task goes on: it sends, publishes or unregisters. *)
Definition advance (h : nat) (s : World) : option World :=
  c ← conns s !! h;
  match phase c with
  | PSend (f :: fs) leave => s' ← send_wait h f s; Some (upd h (set_phase (send_phase fs leave)) s')
  | PPublish (Some f) more r =>
      if fan_done f then Some (upd h (set_phase (PPublish None more r)) s)
      else '(f', s') ← fan_step f s; Some (upd h (set_phase (PPublish (Some f') more r)) s')
  | PPublish None (p :: more) r =>
      Some (upd h (set_phase (PPublish (Some (publish_frames (p_destination p) (p_body p, p_headers p) (broker s))) more r)) s)
  | PPublish None [] r => Some (upd h (set_phase (send_phase (receipt_frames r) false)) s)
  | PUnregister => Some (upd h (set_phase PDrain) (set_broker (unregister (c_id c) (broker s)) s))
  | _ => None
  end.

(** ** The moves *)

Inductive AuthResult := AuthOk (p : StompPrincipal) | AuthErr (m : string) | AuthPanics.
Inductive WriterStep :=
| WrNext                   (* takes a frame, or finishes the one it writes *)
| WrTick                   (* the heart-beat timer *)
| WrFails                  (* the socket fails *)
| WrEnds.                  (* every sender is dropped and the queue is empty *)
Inductive Event :=
| EAccept (now : Z)
| EOpener (h : nat) (now : Z) (m : option WsMessage)    (* [None]: closed, or a read error *)
| EOpenerIdle (h : nat) (now : Z) (pinged : bool)
| EOpenerShutdown (h : nat)
| EReject (h : nat) (written : bool)
| EAuth (h : nat) (r : AuthResult)
| EInbound (h : nat) (now : Z) (m : option WsMessage)
| EIdle (h : nat) (now : Z)
| EShutdownSeen (h : nat)
| EAdvance (h : nat)
| EHandled (h : nat) (r : HandlerResult)
| EWriter (h : nat) (w : WriterStep)
| EDrained (h : nat) (timeout : bool)
| EPublish (d : string) (b : StompBody)                   (* [TopicBus::emit] *)
| EDeliver (n : nat) (d : string) (b : StompBody)         (* [TopicBus::publish_to] *)
| EFan (i : nat)
| EFanSend (i j : nat)
| EShutdown.

(** Whether a sender of the channel is left. *)
Definition own_sender (p : Phase) : bool :=
  match p with PSend _ _ | PLoop | PHandle _ | PPublish _ _ _ | PUnregister => true | _ => false end.
Definition fan_sends_to (h : nat) (f : Broadcast) : bool :=
  existsb (λ t, (t.2 =? h)%nat) (f_rest f) || existsb (λ t, (t.1 =? h)%nat) (f_started f).
Definition phase_fan (p : Phase) : list Broadcast := match p with PPublish (Some f) _ _ => [f] | _ => [] end.
Definition all_fans (s : World) : list Broadcast := fans s ++ concat ((λ c, phase_fan (phase c)) <$> conns s).
Definition sender_alive (h : nat) (s : World) : bool :=
  match conns s !! h with Some c => own_sender (phase c) | None => false end
  || existsb (λ p, existsb (λ e, (tx e =? h)%nat) p.2) (map_to_list (subs (broker s)))
  || existsb (fan_sends_to h) (all_fans s).

Definition shutting_down : OutFrame := OFrame (SError (FrameError "server shutting down")).
Definition exec_writer (h : nat) (st : WriterStep) (s : World) : option World :=
  c ← conns s !! h;
  match writer c, st with
  | WIdle, WrNext => match chan c with f :: q => Some (upd h (set_out q (WWriting f) (wire c)) s) | [] => None end
  | WIdle, WrTick => if server_heartbeat config then Some (upd h (set_out (chan c) (WWriting OHeartbeat) (wire c)) s) else None
  | WIdle, WrEnds => match chan c with [] => if sender_alive h s then None else Some (upd h writer_ends s) | _ => None end
  | WWriting f, WrNext => Some (upd h (set_out (chan c) WIdle (wire c ++ [f])) s)
  | WWriting _, WrFails => Some (upd h writer_ends s)
  | _, _ => None
  end.
Definition connected (r : SubscriptionRegistry) (p : StompPrincipal) (v : Version) (c : Conn) : Conn :=
  mkConn (PSend [OFrame (SConnected v)] false) (register r).1 (Some p) (idle c) [] WIdle (wire c) (asked c) (requests c).
Definition exec (ev : Event) (s : World) : option World :=
  match ev with
  | EAccept now =>
      Some (mkWorld (broker s) (conns s ++ [mkConn POpening 0 None (WsIdle_new (ws_idle config) now) [] WNone [] [] []]) (fans s) (shutdown s))
  | EOpener h now m =>
      c ← conns s !! h;
      match phase c with
      | POpening =>
          Some (upd h (λ c, set_phase (match m with
                                       | None => PGone
                                       | Some m => match negotiate m with Ok (v, k) => PAuth v k | Err e => PReject e end
                                       end) (set_idle (on_activity now (idle c)) c)) s)
      | _ => None
      end
  | EOpenerIdle h now pinged =>
      c ← conns s !! h;
      match phase c with
      | POpening =>
          if idle_expired now (idle c) then
            let '(dropped, i) := on_timeout now (idle c) in
            Some (upd h (λ c, if dropped || negb pinged then set_phase PGone (set_idle i c) else put_wire OPing (set_idle i c)) s)
          else None
      | _ => None
      end
  | EOpenerShutdown h =>
      c ← conns s !! h;
      match phase c with POpening => if shutdown s then Some (upd h (set_phase PGone) s) else None | _ => None end
  | EReject h written =>
      c ← conns s !! h;
      match phase c with
      | PReject e => Some (upd h (λ c, set_phase PGone (if written then put_wire (OFrame (SError e)) c else c)) s)
      | _ => None
      end
  | EAuth h r =>
      c ← conns s !! h;
      match phase c with
      | PAuth v _ =>
          if has_authenticator config then
            match r with
            | AuthOk p => Some (upd h (connected (broker s) p v) (set_broker (register (broker s)).2 s))
            | AuthErr m => Some (upd h (set_phase (PReject (Authentication m))) s)
            | AuthPanics => Some (upd h (set_phase PGone) s)
            end
          else Some (upd h (connected (broker s) anonymous v) (set_broker (register (broker s)).2 s))
      | _ => None
      end
  | EInbound h now m =>
      c ← conns s !! h;
      match phase c with
      | PLoop =>
          let s := upd h (λ c, set_idle (on_activity now (idle c)) c) s in
          match m with
          | None => Some (upd h (set_phase PUnregister) s)
          | Some MOther => Some s
          | Some (MText t) | Some (MBinary t) => if is_heartbeat t then Some s else dispatch h t s
          end
      | _ => None
      end
  | EIdle h now =>
      c ← conns s !! h;
      match phase c with
      | PLoop =>
          if idle_expired now (idle c) then
            let '(dropped, i) := on_timeout now (idle c) in
            let s := upd h (set_idle i) s in
            if dropped then Some (upd h (set_phase PUnregister) s)
            else let '(sent, s) := try_send h OPing s in Some (if sent then s else upd h (set_phase PUnregister) s)
          else None
      | _ => None
      end
  | EShutdownSeen h =>
      c ← conns s !! h;
      match phase c with
      | PLoop => if shutdown s then Some (upd h (set_phase PUnregister) (try_send h shutting_down s).2) else None
      | _ => None
      end
  | EAdvance h => advance h s
  | EHandled h r =>
      c ← conns s !! h;
      match phase c with PHandle k => Some (finish_call h k r s) | _ => None end
  | EWriter h st => exec_writer h st s
  | EDrained h timeout =>
      c ← conns s !! h;
      match phase c, writer c with
      | PDrain, WGone => if timeout then None else Some (upd h (set_phase PGone) s)
      | PDrain, _ => if timeout then Some (upd h (λ c, set_phase PGone (writer_ends c)) s) else None
      | _, _ => None
      end
  | EPublish d b => Some (mkWorld (broker s) (conns s) (fans s ++ [publish_frames d (b, []) (broker s)]) (shutdown s))
  | EDeliver n d b => Some (mkWorld (broker s) (conns s) (fans s ++ [deliver_frames n d (b, []) (broker s)]) (shutdown s))
  | EFan i =>
      f ← fans s !! i; '(f', s') ← fan_step f s;
      Some (mkWorld (broker s') (conns s') (<[i := f']> (fans s')) (shutdown s'))
  | EFanSend i j =>
      f ← fans s !! i; '(t, frame) ← f_started f !! j; s' ← send_wait t frame s;
      Some (mkWorld (broker s') (conns s') (<[i := fan_finish j f]> (fans s')) (shutdown s'))
  | EShutdown => Some (mkWorld (broker s) (conns s) (fans s) true)
  end.
Fixpoint exec_all (evs : list Event) (s : World) : option World :=
  match evs with [] => Some s | ev :: evs' => s' ← exec ev s; exec_all evs' s' end.
Definition reachable (s : World) : Prop := ∃ evs, exec_all evs World_new = Some s.

Lemma stomp_exec_all_app evs evs' s : exec_all (evs ++ evs') s = (s' ← exec_all evs s; exec_all evs' s').
Proof. revert s. induction evs as [|ev evs IH]; intros s; simpl; [done|]. by destruct (exec ev s); simpl. Qed.
Lemma stomp_run_ind (P : list Event → World → Prop) :
  P [] World_new → (∀ evs ev s s', exec_all evs World_new = Some s → P evs s → exec ev s = Some s' → P (evs ++ [ev]) s') →
  ∀ evs s, exec_all evs World_new = Some s → P evs s.
Proof.
  intros H0 Hs evs. induction evs as [|ev evs IH] using rev_ind; intros s Hx; [by simplify_eq/=|].
  rewrite stomp_exec_all_app in Hx. destruct (exec_all evs World_new) as [s1|] eqn:E; [|done]. simpl in Hx.
  destruct (exec ev s1) as [s2|] eqn:Hev; [|done]. simpl in Hx. simplify_eq. eapply Hs; eauto.
Qed.
End Stomp.
