(* ===== verification/StompInv.v ===== *)
(** * StompInv: what every interleaving of a STOMP endpoint keeps

    The invariant of [StompServer]: queues are bounded, every frame that is queued,
    sent or about to be sent goes where the connection asked for it, and every
    entry of the registry belongs to a connection that is there. Each function of
    the model keeps it ([dispatch_ok], [fan_step_ok], ...), so every run does
    ([world_ok_run]). [StompSafety] holds the theorems. *)
From stdpp Require Import relations.
From S2P Require Import Prelude PubSub WsHost StompServer.

Section Safety.
Context {Version : Type} `{EqDecision Version}.
#[local] Abbreviation Conn := (@Conn Version).
#[local] Abbreviation World := (@World Version).
#[local] Abbreviation OutFrame := (@OutFrame Version).

(** ** Frames and where they may go *)

(** A message goes to a subscription the connection made, to that destination, or
    answers a request it sent, where it asked for the answer. *)
Definition frame_ok (c : Conn) (f : OutFrame) : Prop :=
  match f with
  | OFrame (SMessage _ d sub _ _) => (sub, d) ∈ asked c ∨ (sub = REPLY_SUBSCRIPTION_ID ∧ d ∈ requests c)
  | _ => True
  end.
Definition is_message (f : OutFrame) : bool := match f with OFrame (SMessage _ _ _ _ _) => true | _ => false end.
Definition writing (c : Conn) : list OutFrame := match writer c with WWriting f => [f] | _ => [] end.
(** Everything that was, is or will be on the wire. *)
Definition stream (c : Conn) : list OutFrame := wire c ++ writing c ++ chan c.
Definition phase_frames (p : @Phase Version) : list OutFrame := match p with PSend fs _ => fs | _ => [] end.
(** The phases in which a connection may have subscriptions. *)
Definition live_phase (p : @Phase Version) : bool := own_sender p || match p with PPanicked => true | _ => false end.

Definition grows (c c' : Conn) : Prop := asked c ⊆ asked c' ∧ requests c ⊆ requests c'.
Definition conns_grow (cs cs' : list Conn) : Prop := ∀ h c, cs !! h = Some c → ∃ c', cs' !! h = Some c' ∧ grows c c'.
Record fan_ok (cs : list Conn) (f : Fan (StompBody * Headers) OutFrame) : Prop := {
  fo_rest s t : (s, t) ∈ f_rest f → ∃ c, cs !! t = Some c ∧ (s, f_dest f) ∈ asked c;
  fo_started t fr : (t, fr) ∈ f_started f → ∃ c, cs !! t = Some c ∧ frame_ok c fr ∧ is_message fr = true;
}.
(** Where a call in a handler is to be answered is something the connection asked for. *)
Definition call_ok (c : Conn) (p : @Phase Version) : Prop :=
  match p with PHandle k => ∀ d, reply_to k = Some d → d ∈ requests c | _ => True end.
Record conn_ok (cs : list Conn) (c : Conn) : Prop := {
  co_room : (length (chan c) ≤ OUTBOUND_BUFFER)%nat;
  co_stream : Forall (frame_ok c) (stream c);
  co_sends : Forall (frame_ok c) (phase_frames (phase c));
  co_fan : Forall (fan_ok cs) (phase_fan (phase c));
  co_call : call_ok c (phase c);
}.
Record world_ok (s : World) : Prop := {
  wo_conns h c : conns s !! h = Some c → conn_ok (conns s) c;
  wo_fans : Forall (fan_ok (conns s)) (fans s);
  wo_subs d e : subscribed (broker s) d e →
    ∃ c, conns s !! tx e = Some c ∧ c_id c = conn e ∧ live_phase (phase c) = true ∧ (sub_id e, d) ∈ asked c;
}.

Lemma grows_refl c : grows c c.
Proof. by split. Qed.
Lemma frame_ok_grows c c' f : grows c c' → frame_ok c f → frame_ok c' f.
Proof. intros [Ha Hr]. destruct f as [[]| |]; simpl; set_solver. Qed.
Lemma frames_ok_grow c c' l : grows c c' → Forall (frame_ok c) l → Forall (frame_ok c') l.
Proof. intros Hg Hl. eapply Forall_impl; [exact Hl|]. intros f. by apply frame_ok_grows. Qed.
Lemma fan_ok_grows cs cs' f : conns_grow cs cs' → fan_ok cs f → fan_ok cs' f.
Proof.
  intros Hg [Hr Hs]. split.
  - intros s t (c & Hc & Hin)%Hr. destruct (Hg t c Hc) as (c' & Hc' & [Ha _]). exists c'. split; [done|set_solver].
  - intros t fr (c & Hc & Hf & Hm)%Hs. destruct (Hg t c Hc) as (c' & Hc' & Hgr). exists c'. split_and!; [done|by eapply frame_ok_grows|done].
Qed.
Lemma fans_ok_grow cs cs' l : conns_grow cs cs' → Forall (fan_ok cs) l → Forall (fan_ok cs') l.
Proof. intros Hg Hl. eapply Forall_impl; [exact Hl|]. intros f. by apply fan_ok_grows. Qed.
Lemma conn_ok_grows cs cs' c : conns_grow cs cs' → conn_ok cs c → conn_ok cs' c.
Proof. intros Hg [? ? ? Hf ?]. split; [done..| |done]. by eapply fans_ok_grow. Qed.
Lemma upd_grows (s : World) h c g : conns s !! h = Some c → grows c (g c) → conns_grow (conns s) (conns (upd h g s)).
Proof.
  intros Hc Hg i d Hi. unfold upd. simpl. destruct (decide (i = h)) as [->|Hne].
  - assert (d = c) as -> by congruence. exists (g c). by rewrite list_lookup_alter_eq, Hc.
  - exists d. by rewrite list_lookup_alter_ne.
Qed.

(** ** One connection changes *)

Lemma world_upd (s : World) h c g :
  world_ok s → conns s !! h = Some c → grows c (g c) → c_id (g c) = c_id c →
  (∀ d e, subscribed (broker s) d e → tx e = h → live_phase (phase (g c)) = true) →
  conn_ok (conns s) (g c) → world_ok (upd h g s).
Proof.
  intros Hok Hc Hg Hid Hlive Hco. pose proof (upd_grows s h c g Hc Hg) as Hgr. split.
  - intros i d Hi. apply (conn_ok_grows (conns s)); [done|]. unfold upd in Hi. simpl in Hi.
    destruct (decide (i = h)) as [->|Hne].
    + rewrite list_lookup_alter_eq, Hc in Hi. simpl in Hi. by simplify_eq.
    + rewrite list_lookup_alter_ne in Hi by done. by apply (wo_conns _ Hok i).
  - apply (fans_ok_grow (conns s)); [done|]. apply Hok.
  - intros d e He. destruct (wo_subs _ Hok d e He) as (c0 & Hc0 & Hid0 & Hl0 & Ha0).
    destruct (decide (tx e = h)) as [Heq|Hne].
    + exists (g c). unfold upd. simpl. rewrite Heq, list_lookup_alter_eq, Hc. simpl.
      rewrite Heq in Hc0. simplify_eq. split; [done|]. split; [congruence|]. split; [by eapply Hlive|]. destruct Hg. set_solver.
    + exists c0. unfold upd. simpl. by rewrite list_lookup_alter_ne.
Qed.
Lemma world_upd_live (s : World) h c g :
  world_ok s → conns s !! h = Some c → grows c (g c) → c_id (g c) = c_id c →
  (live_phase (phase c) = true → live_phase (phase (g c)) = true) → conn_ok (conns s) (g c) → world_ok (upd h g s).
Proof.
  intros Hok Hc Hg Hid Hl Hco. apply (world_upd s h c); [done..| |done]. intros d e He <-.
  destruct (wo_subs _ Hok d e He) as (c0 & Hc0 & _ & Hl0 & _). apply Hl. congruence.
Qed.
Lemma conn_ok_phase cs c p :
  conn_ok cs c → Forall (frame_ok c) (phase_frames p) → Forall (fan_ok cs) (phase_fan p) → call_ok c p → conn_ok cs (set_phase p c).
Proof. intros [? ? ? ? ?]. by split. Qed.
(** Only the phase of a connection changes. *)
Lemma world_phase (s : World) h c p :
  world_ok s → conns s !! h = Some c → (live_phase (phase c) = true → live_phase p = true) →
  Forall (frame_ok c) (phase_frames p) → Forall (fan_ok (conns s)) (phase_fan p) → call_ok c p → world_ok (upd h (set_phase p) s).
Proof.
  intros Hok Hc Hl Hf Hfan Hcall. apply (world_upd_live s h c); [done..|]. apply conn_ok_phase; [|done..]. by apply (wo_conns _ Hok h).
Qed.
Lemma world_broker (s : World) r :
  (∀ d e, subscribed r d e → subscribed (broker s) d e) → world_ok s → world_ok (set_broker r s).
Proof. intros Hr [Hc Hf Hs]. split; simpl; [done..|]. intros d e He. by apply Hs, Hr. Qed.
Lemma subscribed_frame r r' d e : subs r = subs r' → subscribed r d e → subscribed r' d e.
Proof. unfold subscribed, entries_of. by intros ->. Qed.

(** A frame is queued. *)
Lemma conn_ok_push cs c f : conn_ok cs c → has_room c = true → frame_ok c f → conn_ok cs (push f c).
Proof.
  intros [Hroom Hs Hsend Hfan Hcall] Hr Hf. unfold has_room in Hr. apply Nat.ltb_lt in Hr. split; simpl; [|..|done|done|done].
  - rewrite length_app. simpl. lia.
  - change (stream (push f c)) with (wire c ++ writing c ++ (chan c ++ [f])). unfold stream in Hs.
    rewrite !Forall_app in *. destruct Hs as (? & ? & ?). split_and!; [done..|by constructor].
Qed.
Lemma world_push (s : World) h c f : world_ok s → conns s !! h = Some c → has_room c = true → frame_ok c f → world_ok (upd h (push f) s).
Proof.
  intros Hok Hc Hr Hf. apply (world_upd_live s h c); [done..|]. apply conn_ok_push; [|done..]. by apply (wo_conns _ Hok h).
Qed.
(** What a send leaves as it was. *)
Definition quiet (s s' : World) : Prop :=
  broker s' = broker s ∧ fans s' = fans s ∧
  ∀ h c, conns s !! h = Some c → ∃ c', conns s' !! h = Some c' ∧ phase c' = phase c ∧ c_id c' = c_id c ∧
    asked c' = asked c ∧ requests c' = requests c ∧ principal c' = principal c.
Lemma sends_quiet_refl s : quiet s s.
Proof. split_and!; [done..|]. intros h c Hc. by exists c. Qed.
Lemma quiet_push s h f : quiet s (upd h (push f) s).
Proof.
  split_and!; [done..|]. intros i c Hc. simpl. destruct (decide (i = h)) as [->|Hne].
  - exists (push f c). by rewrite list_lookup_alter_eq, Hc.
  - exists c. by rewrite list_lookup_alter_ne.
Qed.
Lemma quiet_grows s s' : quiet s s' → conns_grow (conns s) (conns s').
Proof. intros (_ & _ & Hq) h c Hc. destruct (Hq h c Hc) as (c' & Hc' & _ & _ & Ha & Hr & _). exists c'. split; [done|]. split; [by rewrite Ha|by rewrite Hr]. Qed.
Lemma try_send_ok h f (s : World) :
  world_ok s → (∀ c, conns s !! h = Some c → frame_ok c f) → world_ok (try_send h f s).2 ∧ quiet s (try_send h f s).2.
Proof.
  intros Hok Hf. unfold try_send. destruct (conns s !! h) as [c|] eqn:Hc; [|split; [done|apply sends_quiet_refl]].
  destruct (receiver_gone c || negb (has_room c)) eqn:Hr; simpl; [split; [done|apply sends_quiet_refl]|].
  apply orb_false_iff in Hr as [_ Hr%negb_false_iff]. split; [|apply quiet_push]. by apply (world_push s h c); [..|apply Hf].
Qed.
Lemma send_wait_ok h f (s s' : World) :
  send_wait h f s = Some s' → world_ok s → (∀ c, conns s !! h = Some c → frame_ok c f) → world_ok s' ∧ quiet s s'.
Proof.
  unfold send_wait. destruct (conns s !! h) as [c|] eqn:Hc; [|done]. simpl. intros Hsend Hok Hf.
  destruct (receiver_gone c); simplify_eq; [split; [done|apply sends_quiet_refl]|].
  destruct (has_room c) eqn:Hr; simplify_eq. split; [|apply quiet_push]. by apply (world_push s h c); [..|apply Hf].
Qed.

(** ** Publications *)

Lemma publish_frames_ok (s : World) d p : world_ok s → fan_ok (conns s) (publish_frames d p (broker s)).
Proof.
  intros Hok. split; [|intros t fr Ht; by apply elem_of_nil in Ht].
  intros sub t (e & He & <- & <-)%elem_of_targets. destruct (wo_subs _ Hok d e He) as (c & Hc & _ & _ & Ha). by exists c.
Qed.
Lemma deliver_frames_ok (s : World) n d p : world_ok s → fan_ok (conns s) (deliver_frames n d p (broker s)).
Proof. intros Hok. destruct (publish_frames_ok s d p Hok) as [Hr Hs]. by split. Qed.
Lemma fan_next_spec f r f' sent r' :
  fan_next build_message f r = Some (f', sent, r') →
  subs r' = subs r ∧ next_conn r' = next_conn r ∧ f_dest f' = f_dest f ∧
  ∃ sub t i, f_rest f = (sub, t) :: f_rest f' ∧ 
    let fr : OutFrame := build_message i (f_dest f) sub (f_payload f) in
    (sent = Some (t, fr) ∧ f_started f' = f_started f) ∨ (sent = None ∧ f_started f' = f_started f ++ [(t, fr)]).
Proof.
  unfold fan_next. destruct (f_rest f) as [|[sub t] rest]; [done|]. simpl. destruct (f_limit f) as [n|].
  - destruct (_ <? _)%nat; [|done]. intros [= <- <- <-]. simpl. do 3 (split; [done|]). exists sub, t, (next_message r). split; [done|by right].
  - intros [= <- <- <-]. simpl. do 3 (split; [done|]). exists sub, t, (next_message r). split; [done|by left].
Qed.
Lemma fan_step_ok f (s : World) f' s' :
  fan_step f s = Some (f', s') → world_ok s → fan_ok (conns s) f →
  world_ok s' ∧ fan_ok (conns s') f' ∧ quiet (set_broker (broker s') s) s'.
Proof.
  unfold fan_step. destruct (fan_next build_message f (broker s)) as [[[f1 sent] r]|] eqn:Hn; [|done]. simpl.
  intros [= <- <-] Hok [Hr Hst]. destruct (fan_next_spec _ _ _ _ _ Hn) as (Hsub & _ & Hd & sub & t & i & Hrest & Hcase).
  assert (Hok1 : world_ok (set_broker r s)) by (apply world_broker; [by intros d e; apply subscribed_frame|done]).
  destruct (Hr sub t) as (c & Hc & Ha); [rewrite Hrest; apply list_elem_of_here|].
  assert (Hfr : frame_ok c (build_message i (f_dest f) sub (f_payload f))) by by left.
  assert (Hf1 : fan_ok (conns s) f1).
  { split.
    - rewrite Hd. intros s0 t0 H0. apply Hr. rewrite Hrest. by right.
    - intros t0 fr H0. destruct Hcase as [[-> Hs]|[-> Hs]]; rewrite Hs in H0; [by apply Hst|].
      apply elem_of_app in H0 as [H0|H0%list_elem_of_singleton]; [by apply Hst|]. simplify_eq. by exists c. }
  destruct Hcase as [[-> _]|[-> _]].
  - destruct (try_send_ok t (build_message i (f_dest f) sub (f_payload f)) (set_broker r s) Hok1) as [Hok2 Hq].
    { intros c' Hc'. simpl in Hc'. by simplify_eq. }
    split; [done|]. split; [eapply fan_ok_grows; [exact (quiet_grows _ _ Hq)|done]|]. destruct Hq as (Hb & Hfn & Hcs).
    split; [done|]. split; [done|done].
  - split; [done|]. split; [done|]. apply sends_quiet_refl.
Qed.

(** ** The task of a connection *)

Lemma send_phase_ok (cs : list Conn) (c : Conn) fs leave :
  Forall (frame_ok c) fs → Forall (frame_ok c) (phase_frames (send_phase fs leave)) ∧ phase_fan (send_phase fs leave) = [] ∧
  live_phase (send_phase fs leave) = true ∧ call_ok c (send_phase fs leave).
Proof. intros Hf. destruct fs as [|f fs]; simpl; [destruct leave|]; split_and!; try done; constructor. Qed.
Lemma receipts_ok c r : Forall (frame_ok c) (receipt_frames r).
Proof. destruct r; repeat constructor. Qed.
Lemma world_send (s : World) h c fs leave :
  world_ok s → conns s !! h = Some c → Forall (frame_ok c) fs → world_ok (upd h (set_phase (send_phase fs leave)) s).
Proof.
  intros Hok Hc Hf. destruct (send_phase_ok (conns s) c fs leave Hf) as (Hp & Hn & Hl & Hca).
  apply (world_phase s h c); [done..| |done]. by rewrite Hn.
Qed.
(** A connection records what it asked for before its phase changes. *)
Lemma conn_ok_grow_self cs c c' :
  conn_ok cs c → grows c c' → chan c' = chan c → writer c' = writer c → wire c' = wire c → phase c' = phase c → conn_ok cs c'.
Proof.
  intros [Hr Hs Hp Hf Hca] Hg Hc Hw Hl Hph. split; rewrite ?Hc, ?Hph; [done| |by eapply frames_ok_grow|done|].
  - unfold stream, writing in *. rewrite Hc, Hw, Hl. by eapply frames_ok_grow.
  - destruct Hg as [_ Hreq]. unfold call_ok in *. destruct (phase c); set_solver.
Qed.
Lemma lookup_upd (s : World) h c g : conns s !! h = Some c → conns (upd h g s) !! h = Some (g c).
Proof. intros Hc. unfold upd. simpl. by rewrite list_lookup_alter_eq, Hc. Qed.
Lemma upd_upd (s : World) h g g' : upd h g (upd h g' s) = upd h (g ∘ g') s.
Proof. unfold upd. simpl. by rewrite list_alter_compose. Qed.
Lemma world_set_idle (s : World) h c (i : Conn → WsIdle) :
  world_ok s → conns s !! h = Some c → world_ok (upd h (λ c, set_idle (i c) c) s).
Proof.
  intros Hok Hc. apply (world_upd_live s h c); [done..|]. eapply conn_ok_grow_self; [by apply (wo_conns _ Hok h)|done..].
Qed.

Context (parse : string → result (@ClientFrame Version) string) (is_route : string → bool) (config : @StompConfig Version).
#[local] Abbreviation exec := (exec parse is_route config).
Lemma dispatch_ok h t (s s' : World) c :
  dispatch parse is_route h t s = Some s' → conns s !! h = Some c → live_phase (phase c) = true → world_ok s → world_ok s'.
Proof.
  unfold dispatch. intros Hd Hc Hl Hok. rewrite Hc in Hd. cbn [mbind option_bind] in Hd.
  assert (Hsend : ∀ fs leave, Forall (frame_ok c) fs → world_ok (upd h (set_phase (PSend fs leave)) s)).
  { intros fs leave Hf. by apply (world_phase s h c). }
  destruct (parse t) as [f|e]; [|injection Hd as <-; apply Hsend; by repeat constructor].
  destruct f as [vs o k dbg|i d r|i r|d r ct custom b|r|dbg]; injection Hd as <-; try (apply Hsend; by repeat constructor).
  - change (world_ok (set_broker (subscribe (c_id c) i d h (broker s))
      (upd h (λ c, set_phase (send_phase (receipt_frames r) false) (add_asked (i, d) c)) s))).
    assert (Hok1 : world_ok (upd h (add_asked (i, d)) s)).
    { apply (world_upd_live s h c); [done|done|split; [simpl; set_solver|done]|done|done|].
      eapply conn_ok_grow_self; [by apply (wo_conns _ Hok h)|split; [simpl; set_solver|done]|done..]. }
    pose proof (world_send _ h _ (receipt_frames r) false Hok1 (lookup_upd s h c _ Hc) (receipts_ok _ r)) as Hok2.
    rewrite upd_upd in Hok2. destruct Hok2 as [Hcs Hfn Hsb]. split; simpl; [done..|].
    intros d0 e [He|[-> ->]]%subscribed_subscribe; [by apply Hsb|]. simpl.
    eexists. rewrite list_lookup_alter_eq, Hc. simpl. split; [done|]. split; [done|]. split; [|set_solver].
    by destruct r.
  - apply (world_send (set_broker _ s) h c); [|done|apply receipts_ok]. apply world_broker; [|done].
    intros d0 e. rewrite subscribed_unsubscribe. tauto.
  - destruct (is_route d).
    + apply (world_upd_live s h c); [done|done|split; [done|simpl; set_solver]|done|done|].
      eapply conn_ok_phase; [|constructor|constructor|simpl; intros d0 ->; set_solver].
      eapply conn_ok_grow_self; [by apply (wo_conns _ Hok h)|split; [done|simpl; set_solver]|done..].
    + apply (world_phase s h c); [done..|constructor|constructor|done].
Qed.
Lemma finish_call_ok h k r (s : World) c :
  conns s !! h = Some c → phase c = PHandle k → world_ok s → world_ok (finish_call h k r s).
Proof.
  intros Hc Hp Hok. pose proof (co_call _ _ (wo_conns _ Hok h c Hc)) as Hreq. rewrite Hp in Hreq. simpl in Hreq.
  assert (Hreply : ∀ b extra, world_ok
    (let '(fs, r) := reply_frame k b extra (broker s) in
     upd h (set_phase (send_phase (fs ++ receipt_frames (k_receipt k)) false)) (set_broker r s))).
  { intros b extra. unfold reply_frame. destruct (reply_to k) as [d|] eqn:Hd.
    - apply (world_send (set_broker _ s) h c); [by apply world_broker|done|]. apply Forall_app. split; [|apply receipts_ok].
      constructor; [|constructor]. right. split; [done|by apply Hreq].
    - apply (world_send (set_broker _ s) h c); [by apply world_broker|done|]. simpl. apply receipts_ok. }
  unfold finish_call. destruct r as [| |[[|l|b]|e]].
  - apply (world_send s h c); [done..|apply receipts_ok].
  - apply (world_phase s h c); [done..|constructor|constructor|done].
  - apply (world_send s h c); [done..|apply receipts_ok].
  - apply (world_phase s h c); [done..|constructor|constructor|done].
  - apply Hreply.
  - apply Hreply.
Qed.
Lemma quiet_lookup (s s' : World) h c :
  quiet s s' → conns s !! h = Some c →
  ∃ c', conns s' !! h = Some c' ∧ phase c' = phase c ∧ grows c c'.
Proof.
  intros (_ & _ & Hq) Hc. destruct (Hq h c Hc) as (c' & Hc' & Hp & _ & Ha & Hr & _).
  exists c'. split; [done|]. split; [done|]. split; [by rewrite Ha|by rewrite Hr].
Qed.
Lemma call_none (c : Conn) (p : @Phase Version) : (∀ k, p ≠ PHandle k) → call_ok c p.
Proof. destruct p; try done. intros Hp. by destruct (Hp k). Qed.
Lemma advance_ok h (s s' : World) : advance h s = Some s' → world_ok s → world_ok s'.
Proof.
  unfold advance. destruct (conns s !! h) as [c|] eqn:Hc; [|done]. cbn [mbind option_bind]. intros Ha Hok.
  pose proof (wo_conns _ Hok h c Hc) as Hco. destruct (phase c) as [ | | | |fs leave| |now more r| | | |] eqn:Hp; try done.
  - destruct fs as [|f fs]; [done|]. destruct (send_wait h f s) as [s1|] eqn:Hs; [|done]. injection Ha as <-.
    pose proof (co_sends _ _ Hco) as Hf. rewrite Hp in Hf. simpl in Hf. apply Forall_cons in Hf as [Hf Hfs].
    destruct (send_wait_ok h f s s1 Hs Hok) as [Hok1 Hq]; [intros c' Hc'; by simplify_eq|].
    destruct (quiet_lookup s s1 h c Hq Hc) as (c1 & Hc1 & _ & Hg).
    apply (world_send s1 h c1); [done..|by eapply frames_ok_grow].
  - destruct now as [f|].
    + destruct (fan_done f); [injection Ha as <-; by apply (world_phase s h c); [done..|constructor|constructor|]|].
      destruct (fan_step f s) as [[f1 s1]|] eqn:Hs; [|done]. injection Ha as <-.
      pose proof (co_fan _ _ Hco) as Hf. rewrite Hp in Hf. simpl in Hf. rewrite Forall_singleton in Hf.
      destruct (fan_step_ok f s f1 s1 Hs Hok Hf) as (Hok1 & Hf1 & Hq).
      destruct (quiet_lookup (set_broker (broker s1) s) s1 h c Hq Hc) as (c1 & Hc1 & Hp1 & _).
      apply (world_phase s1 h c1); [done..|constructor|by apply Forall_singleton|done].
    + destruct more as [|p more]; injection Ha as <-; [apply (world_send s h c); [done..|apply receipts_ok]|].
      apply (world_phase s h c); [done..|constructor| |done]. apply Forall_singleton. by apply publish_frames_ok.
  - injection Ha as <-.
    assert (Hok1 : world_ok (set_broker (unregister (c_id c) (broker s)) s)).
    { apply world_broker; [|done]. intros d e. rewrite subscribed_unregister. tauto. }
    apply (world_upd _ h c); [done|done|done|done| |].
    + simpl. intros d e [He Hne]%subscribed_unregister Htx. destruct (wo_subs _ Hok d e He) as (c0 & Hc0 & Hid & _).
      congruence.
    + apply conn_ok_phase; [done|constructor|constructor|done].
Qed.
Lemma Forall_sub (P : OutFrame → Prop) l l' : l' ⊆ l → Forall P l → Forall P l'.
Proof. rewrite !Forall_forall. set_solver. Qed.
Lemma world_out (s : World) h c q w l :
  world_ok s → conns s !! h = Some c → (length q ≤ OUTBOUND_BUFFER)%nat → Forall (frame_ok c) (stream (set_out q w l c)) →
  world_ok (upd h (set_out q w l) s).
Proof.
  intros Hok Hc Hq Hs. apply (world_upd_live s h c); [done..|]. destruct (wo_conns _ Hok h c Hc) as [? _ ? ? ?]. by split.
Qed.
Lemma exec_writer_ok h st (s s' : World) : exec_writer config h st s = Some s' → world_ok s → world_ok s'.
Proof.
  unfold exec_writer. destruct (conns s !! h) as [c|] eqn:Hc; [|done]. cbn [mbind option_bind]. intros Hx Hok.
  destruct (wo_conns _ Hok h c Hc) as [Hroom Hs _ _ _]. unfold stream, writing in Hs.
  assert (Hend : world_ok (upd h writer_ends s)).
  { assert (Heq : upd h writer_ends s = upd h (set_out [] WGone (wire c)) s).
    { unfold upd. f_equal. apply list_eq. intros i. destruct (decide (i = h)) as [->|];
        [by rewrite !list_lookup_alter_eq, Hc|by rewrite !list_lookup_alter_ne by done]. }
    rewrite Heq. apply (world_out s h c); [done..|simpl; lia|]. eapply Forall_sub, Hs. unfold stream, writing. simpl. set_solver. }
  destruct (writer c) as [| |f|] eqn:Hw, st; try done.
  - destruct (chan c) as [|f q] eqn:Hq; [done|]. injection Hx as <-. apply (world_out s h c); [done..| |].
    + simpl in Hroom. lia.
    + exact Hs.
  - destruct (server_heartbeat config); [|done]. injection Hx as <-. apply (world_out s h c); [done..|].
    unfold stream, writing. simpl. rewrite !Forall_app in *. destruct Hs as (? & ? & ?). split; [done|]. by constructor.
  - destruct (chan c); [|done]. destruct (sender_alive h s); [done|]. by injection Hx as <-.
  - injection Hx as <-. apply (world_out s h c); [done..|]. unfold stream, writing. simpl. by rewrite <- app_assoc.
  - by injection Hx as <-.
Qed.
(** A connection changes its phase and its idle policy. *)
Lemma world_phase_idle (s : World) h c p i :
  world_ok s → conns s !! h = Some c → (live_phase (phase c) = true → live_phase p = true) →
  Forall (frame_ok c) (phase_frames p) → phase_fan p = [] → call_ok c p → world_ok (upd h (λ c, set_phase p (set_idle (i c) c)) s).
Proof.
  intros Hok Hc Hl Hf Hfan Hcall. apply (world_upd_live s h c); [done..|]. apply conn_ok_phase; [|done|by rewrite Hfan|done].
  eapply conn_ok_grow_self; [by apply (wo_conns _ Hok h)|done..].
Qed.
Lemma world_gone (s : World) h c g :
  world_ok s → conns s !! h = Some c → live_phase (phase c) = false → phase (g c) = PGone → grows c (g c) → c_id (g c) = c_id c →
  (length (chan (g c)) ≤ OUTBOUND_BUFFER)%nat → Forall (frame_ok (g c)) (stream (g c)) → world_ok (upd h g s).
Proof.
  intros Hok Hc Hl Hp Hg Hid Hq Hs. apply (world_upd_live s h c); [done..|by rewrite Hl|]. split; [done|done|..]; by rewrite Hp.
Qed.
Lemma world_fans (s : World) l : world_ok s → Forall (fan_ok (conns s)) l → world_ok (mkWorld (broker s) (conns s) l (shutdown s)).
Proof. intros [? ? ?] Hl. by split. Qed.
Lemma world_accept (s : World) c :
  world_ok s → conn_ok (conns s) c → world_ok (mkWorld (broker s) (conns s ++ [c]) (fans s) (shutdown s)).
Proof.
  intros Hok Hc.
  assert (Hg : conns_grow (conns s) (conns s ++ [c])).
  { intros h d Hd. exists d. split; [by apply lookup_app_l_Some|apply grows_refl]. }
  split; simpl.
  - intros h d [Hd|[_ [_ <-]%list_lookup_singleton_Some]]%lookup_app_Some;
      eapply conn_ok_grows; try exact Hg; [by apply (wo_conns _ Hok h)|done].
  - eapply fans_ok_grow; [exact Hg|]. apply Hok.
  - intros d e (c0 & Hc0 & Hrest)%(wo_subs _ Hok). exists c0. split; [by apply lookup_app_l_Some|done].
Qed.
Lemma world_connected (s : World) h c v k p :
  world_ok s → conns s !! h = Some c → phase c = PAuth v k →
  world_ok (upd h (connected (broker s) p v) (set_broker (register (broker s)).2 s)).
Proof.
  intros Hok Hc Hp. destruct (wo_conns _ Hok h c Hc) as [Hroom Hs _ _ _].
  assert (Hok1 : world_ok (set_broker (register (broker s)).2 s)) by (apply world_broker; [by intros d e; apply subscribed_frame|done]).
  assert (Hg : grows c (connected (broker s) p v c)) by done.
  pose proof (upd_grows (set_broker (register (broker s)).2 s) h c (connected (broker s) p v) Hc Hg) as Hgr.
  split; [..|intros d e He].
  - intros i d Hi. apply (conn_ok_grows (conns s)); [done|]. unfold upd in Hi. simpl in Hi. destruct (decide (i = h)) as [->|Hne].
    + rewrite list_lookup_alter_eq, Hc in Hi. simpl in Hi. simplify_eq. split; simpl; [unfold OUTBOUND_BUFFER; lia| |by repeat constructor|done|done].
      eapply Forall_sub, Hs. unfold stream, writing. simpl. set_solver.
    + rewrite list_lookup_alter_ne in Hi by done. by apply (wo_conns _ Hok i).
  - apply (fans_ok_grow (conns s)); [done|]. apply Hok.
  - destruct (wo_subs _ Hok d e He) as (c0 & Hc0 & Hid & Hl & Ha). exists c0. split; [|done].
    unfold upd. simpl. rewrite list_lookup_alter_ne; [done|]. intros Heq. rewrite <- Heq in Hc0. cbn in Hc0. rewrite Hc in Hc0. injection Hc0 as <-. by rewrite Hp in Hl.
Qed.
Lemma exec_ok ev (s s' : World) : exec ev s = Some s' → world_ok s → world_ok s'.
Proof.
  intros Hx Hok.
  destruct ev as [now|h now m|h now pinged|h|h written|h r|h now m|h now|h|h|h r|h st|h timeout|d b|n d b|i|i j|];
    cbn [StompServer.exec] in Hx;
    try (destruct (conns s !! h) as [c|] eqn:Hc; [|done]; cbn [mbind option_bind] in Hx;
         pose proof (wo_conns _ Hok h c Hc) as Hco).
  - injection Hx as <-. apply world_accept; [done|]. split; simpl; by try constructor; try (unfold OUTBOUND_BUFFER; lia).
  - destruct (phase c) eqn:Hp; try done. injection Hx as <-.
    apply (world_phase_idle s h c); [done|done|by rewrite Hp|..];
      destruct m as [m|]; try done; destruct (negotiate _ _ m) as [[v k]|e]; done || constructor.
  - destruct (phase c) eqn:Hp; try done. destruct (idle_expired now (idle c)); [|done].
    destruct (on_timeout now (idle c)) as [dr i]. injection Hx as <-.
    destruct (dr || negb pinged); [by apply (world_phase_idle s h c); [done|done|by rewrite Hp|..]|].
    change (λ c : Conn, put_wire OPing (set_idle i c)) with ((put_wire OPing : Conn → Conn) ∘ set_idle i). rewrite <- upd_upd.
    pose proof (world_set_idle s h c (λ _, i) Hok Hc) as Hok1. apply (world_upd_live _ h (set_idle i c)); [done|by apply lookup_upd|done..|].
    destruct (wo_conns _ Hok1 h _ (lookup_upd s h c (set_idle i) Hc)) as [Hroom Hs ? ? ?]. split; simpl; [done| |done..].
    unfold stream, writing in *. simpl in *. rewrite <- app_assoc. rewrite !Forall_app in *. destruct Hs as (? & ? & ?). split_and!; try done. by constructor.
  - destruct (phase c) eqn:Hp; try done. destruct (shutdown s); [|done]. injection Hx as <-.
    by apply (world_phase s h c); [done|done|by rewrite Hp|..].
  - destruct (phase c) eqn:Hp; try done. injection Hx as <-.
    apply (world_gone s h c); [done|done|by rewrite Hp|done|by destruct written|by destruct written|by destruct written; apply Hco|].
    destruct Hco as [_ Hs _ _ _]. destruct written; [|exact Hs]. unfold stream, writing in *. simpl. rewrite <- app_assoc.
    rewrite !Forall_app in *. destruct Hs as (? & ? & ?). split_and!; try done. by constructor.
  - destruct (phase c) as [| |v k| | | | | | | |] eqn:Hp; try done. destruct (has_authenticator config).
    + destruct r as [p|m|]; injection Hx as <-; [by eapply world_connected| |];
        by apply (world_phase s h c); [done|done|by rewrite Hp|..].
    + injection Hx as <-. by eapply world_connected.
  - destruct (phase c) eqn:Hp; try done.
    pose proof (world_set_idle s h c (λ c, on_activity now (idle c)) Hok Hc) as Hok1.
    set (c1 := set_idle (on_activity now (idle c)) c). set (s1 := upd h (λ c, set_idle (on_activity now (idle c)) c) s) in *.
    assert (Hc1 : conns s1 !! h = Some c1) by by apply (lookup_upd s h c (λ c, set_idle (on_activity now (idle c)) c)).
    assert (Hl1 : live_phase (phase c1) = true) by (simpl; by rewrite Hp).
    destruct m as [[t|t|]|]; try (destruct (is_heartbeat t)); try (by injection Hx as <-);
      try by eapply dispatch_ok. injection Hx as <-. by apply (world_phase s1 h c1); [..|constructor|constructor|].
  - destruct (phase c) eqn:Hp; try done. destruct (idle_expired now (idle c)); [|done].
    destruct (on_timeout now (idle c)) as [dr i]. pose proof (world_set_idle s h c (λ _, i) Hok Hc) as Hok1.
    set (s1 := upd h (set_idle i) s) in *. assert (Hc1 : conns s1 !! h = Some (set_idle i c)) by by apply lookup_upd.
    assert (Hleave : ∀ s2 c2, world_ok s2 → conns s2 !! h = Some c2 → world_ok (upd h (set_phase PUnregister) s2)).
    { intros s2 c2 Hok2 Hc2. by apply (world_phase s2 h c2); [..|constructor|constructor|]. }
    destruct dr; [injection Hx as <-; by eapply Hleave|].
    destruct (try_send_ok h OPing s1 Hok1) as [Hok2 Hq]; [done|]. destruct (try_send h OPing s1) as [sent s2].
    injection Hx as <-. destruct sent; [done|]. destruct (quiet_lookup s1 s2 h _ Hq Hc1) as (c2 & Hc2 & _). by eapply Hleave.
  - destruct (phase c) eqn:Hp; try done. destruct (shutdown s); [|done]. injection Hx as <-.
    destruct (try_send_ok h shutting_down s Hok) as [Hok2 Hq]; [done|].
    destruct (quiet_lookup s _ h _ Hq Hc) as (c2 & Hc2 & _). by apply (world_phase _ h c2); [..|constructor|constructor|].
  - by eapply advance_ok.
  - destruct (phase c) eqn:Hp; try done. injection Hx as <-. by eapply finish_call_ok.
  - by eapply exec_writer_ok.
  - assert (Hdrained : phase c = PDrain → ∀ g, g = set_phase PGone ∨ g = (λ c, set_phase PGone (writer_ends c)) → world_ok (upd h g s)).
    { intros Hp g Hg. destruct Hco as [Hroom Hs _ _ _].
      destruct Hg as [-> | ->]; apply (world_gone s h c); try done; try (by rewrite Hp); [simpl; lia|].
      eapply Forall_sub, Hs. unfold stream, writing. simpl. set_solver. }
    destruct (phase c) eqn:Hp; try done. destruct (writer c), timeout; try done; injection Hx as <-; apply Hdrained; by auto.
  - injection Hx as <-. apply world_fans; [done|]. apply Forall_app. split; [apply Hok|]. apply Forall_singleton. by apply publish_frames_ok.
  - injection Hx as <-. apply world_fans; [done|]. apply Forall_app. split; [apply Hok|]. apply Forall_singleton. by apply deliver_frames_ok.
  - destruct (fans s !! i) as [f|] eqn:Hf; [|done]. cbn [mbind option_bind] in Hx.
    destruct (fan_step f s) as [[f1 s1]|] eqn:Hs; [|done]. injection Hx as <-.
    pose proof (wo_fans _ Hok) as Hfs. pose proof (Forall_lookup_1 _ _ _ _ Hfs Hf) as Hfo.
    destruct (fan_step_ok f s f1 s1 Hs Hok Hfo) as (Hok1 & Hf1 & _). apply world_fans; [done|].
    apply Forall_insert; [apply Hok1|done].
  - destruct (fans s !! i) as [f|] eqn:Hf; [|done]. cbn [mbind option_bind] in Hx.
    destruct (f_started f !! j) as [[t fr]|] eqn:Hj; [|done]. cbn [mbind option_bind] in Hx.
    destruct (send_wait t fr s) as [s1|] eqn:Hs; [|done]. injection Hx as <-.
    pose proof (wo_fans _ Hok) as Hfs. pose proof (Forall_lookup_1 _ _ _ _ Hfs Hf) as Hfo.
    destruct (fo_started _ _ Hfo t fr) as (c & Hc & Hfr & _); [by eapply list_elem_of_lookup_2|].
    destruct (send_wait_ok t fr s s1 Hs Hok) as [Hok1 Hq]; [intros c' Hc'; by simplify_eq|].
    apply world_fans; [done|]. apply Forall_insert; [apply Hok1|].
    apply (fan_ok_grows (conns s)); [by apply quiet_grows|]. destruct Hfo as [Hr Hst]. split; [done|].
    intros t0 fr0 H0. apply (Hst t0 fr0). by apply (list_elem_of_delete_inv _ j).
  - injection Hx as <-. by destruct Hok.
Qed.
Lemma world_ok_new : world_ok World_new.
Proof.
  split; simpl; [by intros ? ?|constructor|]. intros d e He. by apply subscribed_new in He.
Qed.
Lemma world_ok_run evs s : exec_all parse is_route config evs World_new = Some s → world_ok s.
Proof.
  apply (stomp_run_ind parse is_route config (λ _ s, world_ok s)); [apply world_ok_new|]. intros evs' ev s1 s2 _ Hok Hx. by eapply exec_ok.
Qed.
End Safety.
