(* ===== verification/StompFanout.v ===== *)
(** * StompFanout: what a publication delivers, and the texts of a connection's opener

    Functional theorems about [StompServer]: a publication that runs to its end, the
    frames each connection's queue gains and in which order; the line
    [ensure_connect_host] adds; what the [Debug] output of a CONNECT shows. *)
From S2P Require Import Prelude PubSub WsHost StompServer.

Section Fanout.
Context {Version : Type}.
#[local] Abbreviation Conn := (@Conn Version).
#[local] Abbreviation World := (@World Version).
#[local] Abbreviation OutFrame := (@OutFrame Version).
Implicit Types (s : World) (c : Conn) (p : StompBody * Headers).

(** ** A publication that runs to its end *)

Fixpoint fan_run (fuel : nat) (f : Fan (StompBody * Headers) OutFrame) s : Fan (StompBody * Headers) OutFrame * World :=
  match fuel with
  | O => (f, s)
  | S n => match fan_step f s with Some (f', s') => fan_run n f' s' | None => (f, s) end
  end.
(** The messages for one connection: one per subscription of it, in the order of the
    subscriptions, with the ids drawn for all subscribers. *)
Fixpoint deliveries (h : nat) (i : Z) (d : string) p (ts : list (string * nat)) : list OutFrame :=
  match ts with
  | [] => []
  | (sub, t) :: ts' => (if (t =? h)%nat then [build_message i d sub p] else []) ++ deliveries h (id_next i) d p ts'
  end.
(** The queue takes what it has room for, if its receiver is there. *)
Definition receive_all (l : list OutFrame) c : Conn :=
  set_out (chan c ++ (if receiver_gone c then [] else take (OUTBOUND_BUFFER - length (chan c)) l)) (writer c) (wire c) c.

Lemma set_out_same c : set_out (chan c) (writer c) (wire c) c = c.
Proof. by destruct c. Qed.
Lemma receive_nil c : receive_all [] c = c.
Proof. unfold receive_all. rewrite take_nil. destruct (receiver_gone c); rewrite app_nil_r; apply set_out_same. Qed.
Lemma receive_cons f l c : receive_all l (receive_all [f] c) = receive_all (f :: l) c.
Proof.
  unfold receive_all. change (receiver_gone (set_out _ (writer c) _ c)) with (receiver_gone c).
  destruct (receiver_gone c) eqn:Hr; simpl; [by rewrite !app_nil_r|].
  destruct (OUTBOUND_BUFFER - length (chan c))%nat as [|n] eqn:Hn; simpl.
  - rewrite !app_nil_r, Hn. simpl. by rewrite app_nil_r.
  - rewrite take_nil, length_app. simpl. replace (OUTBOUND_BUFFER - (length (chan c) + 1))%nat with n by lia.
    by rewrite <- app_assoc.
Qed.
Lemma try_send_receive t f s : (try_send t f s).2 = upd t (receive_all [f]) s.
Proof.
  unfold try_send, upd. destruct (conns s !! t) as [c|] eqn:Hc.
  - assert (Hsame : receive_all [f] c = c → s = mkWorld (broker s) (alter (receive_all [f]) t (conns s)) (fans s) (shutdown s)).
    { intros Heq. destruct s as [b cs fn sh]. simpl in *. f_equal. symmetry. apply list_eq. intros i.
      destruct (decide (i = t)) as [->|Hne]; [by rewrite list_lookup_alter_eq, Hc; simpl; rewrite Heq|by rewrite list_lookup_alter_ne]. }
    destruct (receiver_gone c) eqn:Hr; simpl.
    + apply Hsame. unfold receive_all. rewrite Hr, app_nil_r. apply set_out_same.
    + destruct (has_room c) eqn:Hroom; simpl; unfold has_room in Hroom.
      * apply Nat.ltb_lt in Hroom. unfold upd. f_equal. apply list_eq. intros i.
        destruct (decide (i = t)) as [->|Hne]; [|by rewrite !list_lookup_alter_ne by done].
        rewrite !list_lookup_alter_eq, Hc. simpl. unfold push, receive_all. rewrite Hr.
        destruct (OUTBOUND_BUFFER - length (chan c))%nat eqn:Hn; [lia|]. simpl. by rewrite take_nil.
      * apply Nat.ltb_ge in Hroom. apply Hsame. unfold receive_all. rewrite Hr.
        replace (OUTBOUND_BUFFER - length (chan c))%nat with O by lia. simpl. rewrite app_nil_r. apply set_out_same.
  - simpl. destruct s as [b cs fn sh]. simpl in *. f_equal. symmetry. apply list_eq. intros i.
    destruct (decide (i = t)) as [->|Hne]; [by rewrite list_lookup_alter_eq, Hc|by rewrite list_lookup_alter_ne].
Qed.
Lemma fan_run_all d p ts st s :
  ∃ s', fan_run (length ts) (mkFan d p ts st None) s = (mkFan d p [] st None, s') ∧
    subs (broker s') = subs (broker s) ∧
    conns s' = imap (λ h, receive_all (deliveries h (next_message (broker s)) d p ts)) (conns s).
Proof.
  revert s. induction ts as [|[sub t] ts IH]; intros s.
  - exists s. split_and!; [done..|]. apply list_eq. intros h. rewrite list_lookup_imap. destruct (conns s !! h); simpl; [|done].
    by rewrite receive_nil.
  - cbn [length fan_run]. unfold fan_step at 1. cbn [fan_next f_rest f_limit next_message_id f_dest f_payload f_started mbind option_bind].
    set (s1 := set_broker (mkRegistry (subs (broker s)) (next_conn (broker s)) (id_next (next_message (broker s)))) s).
    rewrite try_send_receive. destruct (IH (upd t (receive_all [build_message (next_message (broker s)) d sub p]) s1)) as (s' & -> & Hsub & Hcs).
    exists s'. split_and!; [done|by rewrite Hsub|]. rewrite Hcs. apply list_eq. intros h. rewrite !list_lookup_imap. simpl.
    destruct (decide (h = t)) as [->|Hne].
    + rewrite list_lookup_alter_eq. destruct (conns s !! t) as [c|]; simpl; [|done]. rewrite Nat.eqb_refl. simpl. by rewrite receive_cons.
    + rewrite list_lookup_alter_ne by done. destruct (conns s !! h) as [c|]; simpl; [|done].
      destruct (Nat.eqb_spec t h); [congruence|]. done.
Qed.
(** C26: A publication that runs to its end sends every subscription of its destination, and
    nobody else, one message: a connection's queue gains the messages of its own
    subscriptions in order, as many as it has room for, and a full or closed queue
    keeps the publication from nobody. The subscriptions stay as they were. *)
Theorem publication_reaches_subscribers d p s :
  let r := fan_run (length (targets d (broker s))) (publish_frames d p (broker s)) s in
  fan_done r.1 = true ∧ subs (broker r.2) = subs (broker s) ∧
  conns r.2 = imap (λ h, receive_all (deliveries h (next_message (broker s)) d p (targets d (broker s)))) (conns s).
Proof.
  unfold publish_frames. destruct (fan_run_all d p (targets d (broker s)) [] s) as (s' & -> & Hs & Hc). by split_and!.
Qed.
(** The messages of a connection are its subscriptions to the destination. *)
Lemma deliveries_subscriptions h i d p ts :
  (λ f, match f with OFrame (SMessage _ _ sub _ _) => sub | _ => "" end) <$> deliveries h i d p ts =
  (filter (λ t, t.2 = h) ts).*1.
Proof.
  revert i. induction ts as [|[sub t] ts IH]; intros i; [done|]. simpl. rewrite fmap_app, IH, filter_cons. simpl.
  destruct (Nat.eqb_spec t h); case_decide; by simplify_eq.
Qed.
End Fanout.

(** ** [ensure_connect_host] *)

Lemma prefix_insert l p s s' :
  insert_line l s = Some s' → (∀ a, a ∈ String.list_ascii_of_string p → a ≠ nl) → String.prefix p s' = String.prefix p s.
Proof.
  revert p s'. induction s as [|c s IH]; intros p s' Hi Hp; [done|]. destruct p as [|a p]; [by destruct s'|].
  assert (Ha : a ≠ nl) by (apply Hp; simpl; apply list_elem_of_here). assert (Hp' : ∀ b, b ∈ String.list_ascii_of_string p → b ≠ nl)
    by (intros b Hb; apply Hp; simpl; by right).
  simpl in Hi. case_bool_decide as Hc.
  - injection Hi as <-. subst c. simpl. by destruct (Ascii.ascii_dec a nl).
  - destruct (insert_line l s) as [s1|] eqn:E; [|done]. injection Hi as <-. simpl.
    destruct (Ascii.ascii_dec a c); [|done]. by apply IH.
Qed.
Lemma prefix_app p s : String.prefix p (p +:+ s) = true.
Proof. induction p as [|c p IH]; [by destruct s|]. simpl. by destruct (Ascii.ascii_dec c c). Qed.
Lemma contains_insert l s s' : insert_line l s = Some s' → contains_subsequence (String nl l) s' = true.
Proof.
  revert s'. induction s as [|c s IH]; intros s' Hi; [done|]. simpl in Hi. case_bool_decide as Hc.
  - injection Hi as <-. subst c. apply orb_true_iff. left. apply (prefix_app (String nl l)).
  - destruct (insert_line l s) as [s1|]; [|done]. injection Hi as <-. apply orb_true_iff. right. by apply IH.
Qed.
Lemma prefix_shorter p q s : String.prefix (p +:+ q) s = true → String.prefix p s = true.
Proof.
  revert s. induction p as [|c p IH]; intros s; [by destruct s|]. destruct s as [|a s]; [done|]. simpl.
  destruct (Ascii.ascii_dec c a); [|done]. apply IH.
Qed.
Lemma contains_shorter p q s : contains_subsequence (p +:+ q) s = true → contains_subsequence p s = true.
Proof.
  induction s as [|a s IH]; [by destruct p|]. 
  - change (String.prefix (p +:+ q) (String a s) || contains_subsequence (p +:+ q) s = true →
      String.prefix p (String a s) || contains_subsequence p s = true).
    intros [H|H]%orb_true_iff; apply orb_true_iff; [left; by eapply prefix_shorter|right; by apply IH].
Qed.

(** An opener without a host line gets one and no other text is changed; the result
    opens as the text did, has the line if it has a second line at all, and is not
    changed again. *)
Theorem ensure_connect_host_once s :
  let r := ensure_connect_host s in
  (r = s ∨ ∃ s', insert_line host_line s = Some s' ∧ r = s' ∧ contains_subsequence host_key s' = true) ∧
  String.prefix "CONNECT" r = String.prefix "CONNECT" s ∧ String.prefix "STOMP" r = String.prefix "STOMP" s ∧
  ensure_connect_host r = r.
Proof.
  assert (Hno : ∀ p, forallb (λ a, negb (bool_decide (a = nl))) (String.list_ascii_of_string p) = true →
    ∀ a, a ∈ String.list_ascii_of_string p → a ≠ nl).
  { intros p Hp a Ha. rewrite forallb_forall in Hp. apply list_elem_of_In in Ha. apply Hp in Ha. by case_bool_decide. }
  intros r. destruct (negb (String.prefix "CONNECT" s || String.prefix "STOMP" s) || contains_subsequence host_key s) eqn:Hb.
  - assert (Hr : r = s) by (unfold r, ensure_connect_host; by rewrite Hb). rewrite Hr. do 3 (split; [by auto|]). exact Hr.
  - destruct (insert_line host_line s) as [s'|] eqn:Hi.
    + assert (Hr : r = s') by (unfold r, ensure_connect_host; by rewrite Hb, Hi). rewrite Hr.
      assert (Hc : contains_subsequence host_key s' = true).
      { apply (contains_shorter host_key ("overseerd" +:+ String nl "")). by apply (contains_insert host_line s). }
      split; [right; by exists s'|]. split; [|split].
      * eapply prefix_insert; [exact Hi|by apply Hno].
      * eapply prefix_insert; [exact Hi|by apply Hno].
      * unfold ensure_connect_host. by rewrite Hc, orb_true_r.
    + assert (Hr : r = s) by (unfold r, ensure_connect_host; by rewrite Hb, Hi). rewrite Hr. do 3 (split; [by auto|]). exact Hr.
Qed.
(** What is printed of a CONNECT is the same for every passcode and for all values of its
    headers. *)
Theorem connect_debug_redacts h l p p' hs hs' :
  is_Some p ↔ is_Some p' → hs.*1 = hs'.*1 →
  connect_debug (mkConnect h l p hs) = connect_debug (mkConnect h l p' hs').
Proof.
  intros Hp Hh. unfold connect_debug. simpl. rewrite Hh. destruct p, p'; try done; exfalso.
  - destruct (proj1 Hp (mk_is_Some _ _ eq_refl)) as [? [=]].
  - destruct (proj2 Hp (mk_is_Some _ _ eq_refl)) as [? [=]].
Qed.
Lemma connect_debug_redacts_witness :
  (is_Some (Some "secret") ↔ is_Some (Some "other")) ∧
  connect_debug (mkConnect "h" None (Some "secret") [("token", "a")]) = connect_debug (mkConnect "h" None (Some "other") [("token", "b")]).
Proof. assert (H : is_Some (Some "secret") ↔ is_Some (Some "other")) by (split; intros _; by eexists). split; [exact H|by apply (connect_debug_redacts "h" None _ _ [("token", "a")] [("token", "b")] H)]. Defined.

Example ensure_host_inserts :
  ensure_connect_host ("CONNECT" +:+ String nl ("a:b" +:+ String nl (String nl ""))) =
  "CONNECT" +:+ String nl ("host:overseerd" +:+ String nl ("a:b" +:+ String nl (String nl ""))).
Proof. vm_compute. reflexivity. Qed.
