(* ===== verification/StompSafety.v ===== *)
(** * StompSafety: the theorems about a STOMP endpoint

    Theorems about [StompServer] over the invariant of [StompInv]: how much is
    queued, who receives which message, what a peer sees first, who is
    authenticated, and the states in which a connection is stuck or left behind.
    They hold of every interleaving. A step of the endpoint is, for each
    connection, a few moves of that connection ([exec_moves]). *)
From stdpp Require Import relations.
From S2P Require Import Prelude PubSub WsHost StompServer StompInv.

Section Safety.
Context {Version : Type} `{EqDecision Version}.
Context (parse : string → result (@ClientFrame Version) string) (is_route : string → bool) (config : @StompConfig Version).
#[local] Abbreviation Conn := (@Conn Version).
#[local] Abbreviation World := (@World Version).
#[local] Abbreviation OutFrame := (@OutFrame Version).
#[local] Abbreviation exec := (exec parse is_route config).
#[local] Abbreviation exec_all := (exec_all parse is_route config).
#[local] Abbreviation negotiate := (negotiate parse config).

(** ** The moves of one connection *)

(** The phases of a connection that was accepted and not given up. *)
Definition in_session (p : @Phase Version) : bool := live_phase p || match p with PDrain => true | _ => false end.
(** The phases whose task decides what comes next. *)
Definition turning (p : @Phase Version) : bool :=
  match p with PLoop | PHandle _ | PPublish _ _ _ | PUnregister => true | _ => false end.
Definition greets (f : OutFrame) : bool := match f with OFrame (SConnected _) => true | _ => false end.
Definition text_of (m : WsMessage) : option string := match m with MText t | MBinary t => Some t | MOther => None end.
(** The peer of [h] sends the frame [f] to an accepted connection. *)
Definition received (ev : Event) (h : nat) (f : @ClientFrame Version) : Prop :=
  ∃ now m t, ev = EInbound h now (Some m) ∧ text_of m = Some t ∧ is_heartbeat t = false ∧ parse t = Ok f.
(** What an event of the endpoint may do to the connection [h], one move at a time. *)
Inductive move (ev : Event) (h : nat) : Conn → Conn → Prop :=
| m_idle c i : phase c = POpening ∨ phase c = PLoop → move ev h c (set_idle i c)
| m_message c f : is_message f = true → frame_ok c f → receiver_gone c = false → has_room c = true → move ev h c (push f c)
| m_ping c : phase c = POpening → move ev h c (put_wire OPing c)
| m_opened c now m v k : phase c = POpening → ev = EOpener h now (Some m) → negotiate m = Ok (v, k) → move ev h c (set_phase (PAuth v k) c)
| m_refuse c e : phase c = POpening ∨ (∃ v k, phase c = PAuth v k) → move ev h c (set_phase (PReject e) c)
| m_leave c : phase c = PDrain → receiver_gone c = true → move ev h c (set_phase PGone c)
| m_close c : (phase c = POpening ∨ (∃ v k, phase c = PAuth v k) ∨ ∃ e, phase c = PReject e) → move ev h c (set_phase PGone c)
| m_reject c e : phase c = PReject e → move ev h c (set_phase PGone (put_wire (OFrame (SError e)) c))
| m_accept c v k p i : phase c = PAuth v k → (if has_authenticator config then ev = EAuth h (AuthOk p) else p = anonymous) →
    move ev h c (mkConn (PSend [OFrame (SConnected v)] false) i (Some p) (idle c) [] WIdle (wire c) (asked c) (requests c))
| m_queue c f : phase c = PLoop → greets f = false → receiver_gone c = false → has_room c = true → move ev h c (push f c)
| m_sent c f fs l : phase c = PSend (f :: fs) l → receiver_gone c = false → has_room c = true →
    move ev h c (set_phase (send_phase fs l) (push f c))
| m_lost c f fs l : phase c = PSend (f :: fs) l → receiver_gone c = true → move ev h c (set_phase (send_phase fs l) c)
| m_turn c p : turning (phase c) = true → in_session p = true →
    forallb (negb ∘ greets) (phase_frames p) = true → move ev h c (set_phase p c)
| m_subscribe c i d r : phase c = PLoop → received ev h (CSubscribe i d r) → move ev h c (add_asked (i, d) c)
| m_request c d r ct custom b : phase c = PLoop → received ev h (CSend d r ct custom b) →
    move ev h c (add_request (header_value custom "reply-to") c)
| m_take c st f q : ev = EWriter h st → writer c = WIdle → chan c = f :: q → move ev h c (set_out q (WWriting f) (wire c) c)
| m_tick c st : ev = EWriter h st → writer c = WIdle → move ev h c (set_out (chan c) (WWriting OHeartbeat) (wire c) c)
| m_written c st f : ev = EWriter h st → writer c = WWriting f → move ev h c (set_out (chan c) WIdle (wire c ++ [f]) c)
| m_ends c : (∃ st, ev = EWriter h st ∧ receiver_gone c = false) ∨ phase c = PDrain → move ev h c (writer_ends c).
Abbreviation moves ev h := (rtc (move ev h)).

Lemma upd_inv (s : World) h g i c' :
  conns (upd h g s) !! i = Some c' → (i = h ∧ ∃ c, conns s !! h = Some c ∧ c' = g c) ∨ (i ≠ h ∧ conns s !! i = Some c').
Proof.
  unfold upd. simpl. destruct (decide (i = h)) as [->|Hne].
  - rewrite list_lookup_alter_eq. intros (c & Hc & Heq)%fmap_Some. left. eauto.
  - rewrite list_lookup_alter_ne by done. auto.
Qed.
(** Every connection after a step comes from one before it by moves. *)
Definition steps_to (ev : Event) (s s' : World) : Prop :=
  length (conns s') = length (conns s) ∧
  ∀ h c', conns s' !! h = Some c' → ∃ c, conns s !! h = Some c ∧ moves ev h c c'.
Lemma steps_refl ev s s' : conns s' = conns s → steps_to ev s s'.
Proof. intros Heq. unfold steps_to. rewrite Heq. split; [done|]. intros h c' Hc. exists c'. by split. Qed.
Lemma steps_trans ev s1 s2 s3 : steps_to ev s1 s2 → steps_to ev s2 s3 → steps_to ev s1 s3.
Proof.
  intros [Hl12 H12] [Hl23 H23]. split; [congruence|]. intros h c3 Hc3. destruct (H23 h c3 Hc3) as (c2 & Hc2 & Hm2). destruct (H12 h c2 Hc2) as (c1 & Hc1 & Hm1).
  exists c1. split; [done|]. by etrans.
Qed.
Lemma steps_upd ev (s : World) h g : (∀ c, conns s !! h = Some c → moves ev h c (g c)) → steps_to ev s (upd h g s).
Proof.
  intros Hg. split; [unfold upd; simpl; by rewrite length_alter|]. intros i c' [[-> (c & Hc & ->)]|[_ Hc]]%upd_inv; [exists c; split; [done|by apply Hg]|exists c'; by split].
Qed.
Lemma steps_one ev (s : World) h g c : conns s !! h = Some c → move ev h c (g c) → steps_to ev s (upd h g s).
Proof. intros Hc Hm. apply steps_upd. intros c' Hc'. simplify_eq. by apply rtc_once. Qed.
Lemma steps_try_send ev h f (s : World) :
  (∀ c, conns s !! h = Some c → receiver_gone c = false → has_room c = true → move ev h c (push f c)) → steps_to ev s (try_send h f s).2.
Proof.
  intros Hf. unfold try_send. destruct (conns s !! h) as [c|] eqn:Hc; [|by apply steps_refl].
  destruct (receiver_gone c || negb (has_room c)) eqn:Hr; simpl; [by apply steps_refl|].
  apply orb_false_iff in Hr as [Hr1 Hr2%negb_false_iff]. by apply (steps_one ev s h _ c); [|apply Hf].
Qed.
Lemma steps_send_wait ev h f (s s' : World) :
  send_wait h f s = Some s' →
  (∀ c, conns s !! h = Some c → receiver_gone c = false → has_room c = true → move ev h c (push f c)) → steps_to ev s s'.
Proof.
  unfold send_wait. destruct (conns s !! h) as [c|] eqn:Hc; [|done]. simpl. intros Hs Hf.
  destruct (receiver_gone c) eqn:Hr; simplify_eq; [by apply steps_refl|].
  destruct (has_room c) eqn:Hr'; simplify_eq. by apply (steps_one ev s h _ c); [|apply Hf].
Qed.
Lemma message_move ev (s : World) t fr c :
  conns s !! t = Some c → frame_ok c fr → is_message fr = true →
  ∀ c', conns s !! t = Some c' → receiver_gone c' = false → has_room c' = true → move ev t c' (push fr c').
Proof. intros Hc Hf Hm c' Hc'. simplify_eq. by constructor. Qed.
Lemma steps_fan ev f (s : World) f' s' :
  fan_step f s = Some (f', s') → fan_ok (conns s) f → steps_to ev s s'.
Proof.
  unfold fan_step. destruct (fan_next build_message f (broker s)) as [[[f1 sent] r]|] eqn:Hn; [|done]. simpl.
  intros [= <- <-] [Hr _]. destruct (fan_next_spec _ _ _ _ _ Hn) as (_ & _ & _ & sub & t & i & Hrest & Hcase).
  destruct (Hr sub t) as (c & Hc & Ha); [rewrite Hrest; apply list_elem_of_here|].
  destruct Hcase as [[-> _]|[-> _]]; [|by apply steps_refl].
  apply (steps_trans ev s (set_broker r s)); [by apply steps_refl|]. apply steps_try_send.
  apply (message_move ev (set_broker r s) t _ c); [done|by left|done].
Qed.
Lemma greets_receipts (c : option string) : forallb (negb ∘ greets) (receipt_frames c) = true.
Proof. by destruct c. Qed.
Lemma send_phase_quiet fs l :
  forallb (negb ∘ greets) fs = true → in_session (send_phase fs l) = true ∧ forallb (negb ∘ greets) (phase_frames (send_phase fs l)) = true.
Proof. intros Hf. destruct fs; [by destruct l|done]. Qed.
Lemma steps_turn ev (s : World) h c p :
  conns s !! h = Some c → turning (phase c) = true → in_session p = true →
  forallb (negb ∘ greets) (phase_frames p) = true → steps_to ev s (upd h (set_phase p) s).
Proof. intros Hc H1 H3 H4. apply (steps_one ev s h _ c); [done|]. by apply m_turn. Qed.
Lemma steps_send_phase ev (s : World) h c fs l :
  conns s !! h = Some c → turning (phase c) = true →
  forallb (negb ∘ greets) fs = true → steps_to ev s (upd h (set_phase (send_phase fs l)) s).
Proof. intros Hc H1 Hf. destruct (send_phase_quiet fs l Hf). by apply (steps_turn ev s h c). Qed.
Lemma dispatch_steps now m h t (s s' : World) c :
  let ev := EInbound h now (Some m) in
  dispatch parse is_route h t s = Some s' → conns s !! h = Some c → phase c = PLoop →
  text_of m = Some t → is_heartbeat t = false → steps_to ev s s'.
Proof.
  intros ev Hd Hc Hp Ht Hb. unfold dispatch in Hd. rewrite Hc in Hd. cbn [mbind option_bind] in Hd.
  assert (Hrec : ∀ f, parse t = Ok f → received ev h f) by (intros f Hf; by exists now, m, t).
  assert (Hin : turning (phase c) = true) by by rewrite Hp.
  assert (Hturn : ∀ p, in_session p = true → forallb (negb ∘ greets) (phase_frames p) = true → steps_to ev s (upd h (set_phase p) s)).
  { intros p H1 H2. by apply (steps_turn ev s h c). }
  destruct (parse t) as [f|e]; [|injection Hd as <-; by apply Hturn].
  destruct f as [vs o k dbg|i d r|i r|d r ct custom b|r|dbg]; injection Hd as <-; try by apply Hturn.
  - apply (steps_trans ev s (set_broker (subscribe (c_id c) i d h (broker s)) s)); [by apply steps_refl|].
    apply steps_upd. intros c0 Hc0. simpl in Hc0. assert (c0 = c) as -> by congruence. eapply rtc_l; [eapply m_subscribe; [done|by apply Hrec]|].
    apply rtc_once. destruct (send_phase_quiet (receipt_frames r) false (greets_receipts r)). by apply m_turn.
  - apply (steps_trans ev s (set_broker (unsubscribe (c_id c) i (broker s)) s)); [by apply steps_refl|].
    apply (steps_send_phase ev _ h c); [done..|apply greets_receipts].
  - destruct (is_route d); [|by apply Hturn].
    apply steps_upd. intros c0 Hc0. assert (c0 = c) as -> by congruence. eapply rtc_l; [eapply m_request; [done|by apply Hrec]|].
    apply rtc_once. by apply m_turn.
Qed.
Lemma finish_call_steps ev h k r (s : World) c :
  conns s !! h = Some c → phase c = PHandle k → steps_to ev s (finish_call h k r s).
Proof.
  intros Hc Hp. assert (Hin : turning (phase c) = true) by by rewrite Hp.
  assert (Hsend : ∀ s1 fs, conns s1 = conns s → forallb (negb ∘ greets) fs = true → steps_to ev s (upd h (set_phase (send_phase fs false)) s1)).
  { intros s1 fs Hs1 Hf. apply (steps_trans ev s s1); [by apply steps_refl|]. apply (steps_send_phase ev s1 h c); [by rewrite Hs1|done..]. }
  assert (Hreply : ∀ b extra, steps_to ev s
    (let '(fs, r) := reply_frame k b extra (broker s) in
     upd h (set_phase (send_phase (fs ++ receipt_frames (k_receipt k)) false)) (set_broker r s))).
  { intros b extra. destruct (reply_frame k b extra (broker s)) as [fs r0] eqn:Hr. apply (Hsend (set_broker r0 s)); [done|].
    rewrite forallb_app, greets_receipts, andb_true_r. unfold reply_frame in Hr. by destruct (reply_to k); simpl in Hr; simplify_eq. }
  unfold finish_call. destruct r as [| |[[|l|b]|e]]; try apply Hreply; try (apply Hsend; [done|apply greets_receipts]).
  - by apply (steps_turn ev s h c).
  - by apply (steps_turn ev s h c).
Qed.
Lemma advance_steps ev h (s s' : World) : advance h s = Some s' → world_ok s → steps_to ev s s'.
Proof.
  unfold advance. destruct (conns s !! h) as [c|] eqn:Hc; [|done]. cbn [mbind option_bind]. intros Ha Hok.
  destruct (phase c) as [ | | | |fs leave| |now more r| | | |] eqn:Hp; try done.
  - destruct fs as [|f fs]; [done|]. unfold send_wait in Ha. rewrite Hc in Ha. simpl in Ha.
    destruct (receiver_gone c) eqn:Hg; simpl in Ha; [|destruct (has_room c) eqn:Hr; simpl in Ha; [|done]]; injection Ha as <-.
    + apply (steps_one ev s h _ c); [done|by eapply m_lost].
    + rewrite upd_upd. apply (steps_one ev s h _ c); [done|by eapply m_sent].
  - assert (Hturn : ∀ s1 c1 p, conns s1 !! h = Some c1 → phase c1 = phase c → in_session p = true → phase_frames p = [] →
      steps_to ev s1 (upd h (set_phase p) s1)).
    { intros s1 c1 p Hc1 Hp1 Hi Hf. apply (steps_turn ev s1 h c1); [done|by rewrite Hp1, Hp|done|by rewrite Hf]. }
    destruct now as [f|].
    + destruct (fan_done f); [injection Ha as <-; by eapply Hturn|].
      destruct (fan_step f s) as [[f1 s1]|] eqn:Hs; [|done]. injection Ha as <-.
      pose proof (co_fan _ _ (wo_conns _ Hok h c Hc)) as Hf. rewrite Hp in Hf. simpl in Hf. rewrite Forall_singleton in Hf.
      destruct (fan_step_ok f s f1 s1 Hs Hok Hf) as (_ & _ & Hq).
      destruct (quiet_lookup (set_broker (broker s1) s) s1 h c Hq Hc) as (c1 & Hc1 & Hp1 & _).
      apply (steps_trans ev s s1); [by eapply steps_fan|by eapply Hturn].
    + destruct more as [|p more]; injection Ha as <-; [|by eapply Hturn].
      apply (steps_send_phase ev s h c); [done|by rewrite Hp|apply greets_receipts].
  - injection Ha as <-. apply (steps_trans ev s (set_broker (unregister (c_id c) (broker s)) s)); [by apply steps_refl|].
    apply (steps_turn ev _ h c); [done|by rewrite Hp|done..].
Qed.
Lemma writer_steps h st (s s' : World) : exec_writer config h st s = Some s' → steps_to (EWriter h st) s s'.
Proof.
  set (ev := EWriter h st). unfold exec_writer. destruct (conns s !! h) as [c|] eqn:Hc; [|done]. cbn [mbind option_bind]. intros Hx.
  destruct (writer c) as [| |f|] eqn:Hw, st; try done.
  - destruct (chan c) as [|f q] eqn:Hq; [done|]. injection Hx as <-. apply (steps_one ev s h _ c); [done|by eapply (m_take ev h c)].
  - destruct (server_heartbeat config); [|done]. injection Hx as <-. apply (steps_one ev s h _ c); [done|by eapply m_tick].
  - destruct (chan c); [|done]. destruct (sender_alive h s); [done|]. injection Hx as <-.
    apply (steps_one ev s h _ c); [done|]. apply m_ends. left. eexists. unfold receiver_gone. by rewrite Hw.
  - injection Hx as <-. apply (steps_one ev s h _ c); [done|by eapply m_written].
  - injection Hx as <-. apply (steps_one ev s h _ c); [done|]. apply m_ends. left. eexists. unfold receiver_gone. by rewrite Hw.
Qed.
(** A connection the listener just accepted. *)
Definition fresh (now : Z) : Conn := mkConn POpening 0 None (WsIdle_new (ws_idle config) now) [] WNone [] [] [].
Lemma steps_idle ev h (s : World) c (i : Conn → WsIdle) :
  conns s !! h = Some c → phase c = PLoop → steps_to ev s (upd h (λ c, set_idle (i c) c) s).
Proof. intros Hc Hp. eapply steps_one; [exact Hc|]. apply m_idle. by right. Qed.
Lemma opener_steps ev h now m (s : World) c :
  ev = EOpener h now m → conns s !! h = Some c → phase c = POpening →
  steps_to ev s (upd h (λ c, set_phase (match m with
    | None => PGone | Some m => match negotiate m with Ok (v, k) => PAuth v k | Err e => PReject e end end)
    (set_idle (on_activity now (idle c)) c)) s).
Proof.
  intros Hev Hc Hp. apply steps_upd. intros c0 Hc0. assert (c0 = c) as -> by congruence.
  eapply rtc_l; [apply m_idle with (i := on_activity now (idle c)); by left|]. apply rtc_once.
  destruct m as [m|]; [|by apply m_close; left]. destruct (negotiate m) as [[v k]|e] eqn:Hn; [by eapply m_opened|by apply m_refuse; left].
Qed.
Lemma inbound_steps h now m (s s' : World) c :
  exec (EInbound h now m) s = Some s' → conns s !! h = Some c → phase c = PLoop → steps_to (EInbound h now m) s s'.
Proof.
  intros Hx Hc Hp. cbn [StompServer.exec] in Hx. rewrite Hc in Hx. cbn [mbind option_bind] in Hx. rewrite Hp in Hx.
  pose proof (steps_idle (EInbound h now m) h s c (λ c, on_activity now (idle c)) Hc Hp) as Hi.
  pose proof (lookup_upd s h c (λ c, set_idle (on_activity now (idle c)) c) Hc) as Hc1.
  destruct m as [[t|t|]|]; [| |by injection Hx as <-|].
  - destruct (is_heartbeat t) eqn:Hb; [by injection Hx as <-|]. eapply steps_trans; [exact Hi|]. by eapply dispatch_steps.
  - destruct (is_heartbeat t) eqn:Hb; [by injection Hx as <-|]. eapply steps_trans; [exact Hi|]. by eapply dispatch_steps.
  - injection Hx as <-. eapply steps_trans; [exact Hi|]. eapply steps_turn; [exact Hc1|simpl; by rewrite Hp|done|done].
Qed.
Lemma unregister_steps ev h (s : World) c :
  conns s !! h = Some c → phase c = PLoop → steps_to ev s (upd h (set_phase PUnregister) s).
Proof. intros Hc Hp. eapply steps_turn; [exact Hc|by rewrite Hp|done|done]. Qed.
Lemma loop_push_steps ev h f (s : World) c :
  conns s !! h = Some c → phase c = PLoop → greets f = false →
  steps_to ev s (try_send h f s).2 ∧ ∃ c', conns (try_send h f s).2 !! h = Some c' ∧ phase c' = PLoop.
Proof.
  intros Hc Hp Hf. split.
  - apply steps_try_send. intros c0 Hc0. assert (c0 = c) as -> by congruence. by apply m_queue.
  - unfold try_send. rewrite Hc. destruct (receiver_gone c || negb (has_room c)); [by exists c|].
    exists (push f c). split; [by apply lookup_upd|done].
Qed.
Lemma exec_moves ev (s s' : World) :
  world_ok s → exec ev s = Some s' → (∃ now, conns s' = conns s ++ [fresh now]) ∨ steps_to ev s s'.
Proof.
  intros Hok Hx.
  destruct ev as [now|h now m|h now pinged|h|h written|h r|h now m|h now|h|h|h r|h st|h timeout|d b|n d b|i|i j|];
    try (cbn [StompServer.exec] in Hx;
         destruct (conns s !! h) as [c|] eqn:Hc; [|done]; cbn [mbind option_bind] in Hx; destruct (phase c) eqn:Hp; try done; right).
  - injection Hx as <-. left. by exists now.
  - injection Hx as <-. by eapply opener_steps.
  - destruct (idle_expired now (idle c)); [|done]. destruct (on_timeout now (idle c)) as [dr i]. injection Hx as <-.
    apply steps_upd. intros c0 Hc0. assert (c0 = c) as -> by congruence. eapply rtc_l; [apply m_idle with (i := i); by left|].
    apply rtc_once. destruct (dr || negb pinged); [by apply m_close; left|by apply m_ping].
  - destruct (shutdown s); [|done]. injection Hx as <-. eapply steps_one; [exact Hc|]. by apply m_close; left.
  - injection Hx as <-. eapply steps_one; [exact Hc|]. destruct written; [by apply m_reject|]. apply m_close. right. right. by eexists.
  - assert (Hacc : ∀ p, (if has_authenticator config then EAuth h r = EAuth h (AuthOk p) else p = anonymous) →
      steps_to (EAuth h r) s (upd h (connected (broker s) p v) (set_broker (register (broker s)).2 s))).
    { intros p Hprin. apply (steps_trans _ s (set_broker (register (broker s)).2 s)); [by apply steps_refl|].
      eapply steps_one; [exact Hc|]. by eapply m_accept. }
    destruct (has_authenticator config) eqn:Hau; [|injection Hx as <-; by apply Hacc].
    destruct r as [p|m|]; injection Hx as <-; [by apply Hacc| |]; (eapply steps_one; [exact Hc|]).
    + apply m_refuse. right. eauto.
    + apply m_close. right. left. eauto.
  - eapply inbound_steps; [|exact Hc|exact Hp]. cbn [StompServer.exec]. rewrite Hc. cbn [mbind option_bind]. by rewrite Hp.
  - destruct (idle_expired now (idle c)); [|done]. destruct (on_timeout now (idle c)) as [dr i].
    pose proof (steps_idle (EIdle h now) h s c (λ _, i) Hc Hp) as Hi. set (s1 := upd h (set_idle i) s) in *.
    assert (Hc1 : conns s1 !! h = Some (set_idle i c)) by by apply lookup_upd.
    eapply steps_trans; [exact Hi|]. destruct dr; [injection Hx as <-; by eapply unregister_steps|].
    destruct (loop_push_steps (EIdle h now) h OPing s1 _ Hc1 Hp eq_refl) as [Hpush (c2 & Hc2 & Hp2)].
    destruct (try_send h OPing s1) as [sent s2]. injection Hx as <-.
    eapply steps_trans; [exact Hpush|]. destruct sent; [by apply steps_refl|by eapply unregister_steps].
  - destruct (shutdown s); [|done]. injection Hx as <-.
    destruct (loop_push_steps (EShutdownSeen h) h shutting_down s c Hc Hp eq_refl) as [Hpush (c2 & Hc2 & Hp2)].
    eapply steps_trans; [exact Hpush|]. by eapply unregister_steps.
  - right. by eapply advance_steps.
  - injection Hx as <-. by eapply finish_call_steps.
  - right. by eapply writer_steps.
  - assert (Hdrop : steps_to (EDrained h timeout) s (upd h (λ c, set_phase PGone (writer_ends c)) s)).
    { apply steps_upd. intros c0 Hc0. assert (c0 = c) as -> by congruence.
      eapply rtc_l; [apply m_ends; by right|]. apply rtc_once. by apply m_leave. }
    destruct (writer c) eqn:Hw, timeout; try done; injection Hx as <-; try exact Hdrop.
    eapply steps_one; [exact Hc|]. apply m_leave; [done|]. unfold receiver_gone. by rewrite Hw.
  - injection Hx as <-. right. by apply steps_refl.
  - injection Hx as <-. right. by apply steps_refl.
  - cbn [StompServer.exec] in Hx. destruct (fans s !! i) as [f|] eqn:Hf; [|done]. cbn [mbind option_bind] in Hx.
    destruct (fan_step f s) as [[f1 s1]|] eqn:Hs; [|done]. injection Hx as <-. right.
    apply (steps_trans _ s s1); [|by apply steps_refl]. eapply steps_fan; [exact Hs|].
    eapply Forall_lookup_1; [apply (wo_fans _ Hok)|exact Hf].
  - cbn [StompServer.exec] in Hx. destruct (fans s !! i) as [f|] eqn:Hf; [|done]. cbn [mbind option_bind] in Hx.
    destruct (f_started f !! j) as [[t fr]|] eqn:Hj; [|done]. cbn [mbind option_bind] in Hx.
    destruct (send_wait t fr s) as [s1|] eqn:Hs; [|done]. injection Hx as <-. right.
    apply (steps_trans _ s s1); [|by apply steps_refl]. eapply steps_send_wait; [exact Hs|].
    pose proof (Forall_lookup_1 _ _ _ _ (wo_fans _ Hok) Hf) as Hfo.
    destruct (fo_started _ _ Hfo t fr) as (c & Hc & Hfr & Hm); [by eapply list_elem_of_lookup_2|]. by eapply message_move.
  - injection Hx as <-. right. by apply steps_refl.
Qed.

(** A property of a connection, given the events so far, that its moves keep. *)
Lemma every_conn (P : list Event → nat → Conn → Prop) :
  (∀ evs h now, P evs h (fresh now)) → (∀ evs ev h c, P evs h c → P (evs ++ [ev]) h c) →
  (∀ evs ev h c c', move ev h c c' → ev ∈ evs → P evs h c → P evs h c') →
  ∀ evs s, exec_all evs World_new = Some s → ∀ h c, conns s !! h = Some c → P evs h c.
Proof.
  intros Hfresh Hmore Hmove evs s Hx.
  apply (stomp_run_ind parse is_route config (λ evs s, world_ok s ∧ ∀ h c, conns s !! h = Some c → P evs h c)); [..|exact Hx];
    clear evs s Hx.
  - split; [apply world_ok_new|]. intros h c Hc. done.
  - intros evs ev s s' _ [Hok HP] Hx. split; [by eapply exec_ok|]. intros h c' Hc'.
    destruct (exec_moves ev s s' Hok Hx) as [(now & Hcs)|Hst].
    + rewrite Hcs in Hc'. apply lookup_app_Some in Hc' as [Hc'|[_ [_ <-]%list_lookup_singleton_Some]]; [by apply Hmore, HP|apply Hfresh].
    + destruct (proj2 Hst h c' Hc') as (c & Hc & Hm). apply HP in Hc. apply (Hmore evs ev) in Hc.
      assert (Hev : ev ∈ evs ++ [ev]) by (apply elem_of_app; right; by apply list_elem_of_singleton).
      revert Hev Hc. clear -Hm Hmove. revert Hm. induction 1 as [|x y z Hm _ IH]; [done|]. intros Hev HPx. apply IH; [done|]. by eapply Hmove.
Qed.
(** ** What a connection went through *)

(** The peer of [h] opened with a frame [negotiate] takes, and the authenticator
    gave it the principal. *)
Definition admitted (evs : list Event) (h : nat) (p : StompPrincipal) : Prop :=
  (∃ now m r, EOpener h now (Some m) ∈ evs ∧ negotiate m = Ok r) ∧
  if has_authenticator config then EAuth h (AuthOk p) ∈ evs else p = anonymous.
Definition subscribed_by (evs : list Event) (h : nat) (sub d : string) : Prop :=
  ∃ ev r, ev ∈ evs ∧ received ev h (CSubscribe sub d r).
Definition asked_reply (evs : list Event) (h : nat) (d : string) : Prop :=
  ∃ ev dest r ct custom b, ev ∈ evs ∧ received ev h (CSend dest r ct custom b) ∧ header_value custom "reply-to" = Some d.
Record history (evs : list Event) (h : nat) (c : Conn) : Prop := {
  hi_asked a : a ∈ asked c → subscribed_by evs h a.1 a.2;
  hi_requests d : d ∈ requests c → asked_reply evs h d;
  hi_opened v k : phase c = PAuth v k → ∃ now m, EOpener h now (Some m) ∈ evs ∧ negotiate m = Ok (v, k);
  hi_admitted p : principal c = Some p → admitted evs h p;
  hi_session : in_session (phase c) = true → is_Some (principal c);
}.
Lemma history_fresh evs h now : history evs h (fresh now).
Proof. split; simpl; try done; intros ? H0; by apply elem_of_nil in H0. Qed.
Lemma history_more evs ev h c : history evs h c → history (evs ++ [ev]) h c.
Proof.
  assert (Hin : ∀ e, e ∈ evs → e ∈ evs ++ [ev]) by (intros e He; apply elem_of_app; by left).
  intros [H1 H2 H3 H4 H5]. split; [..|done].
  - intros a (e & r & He & Hr)%H1. exists e, r. auto.
  - intros d (e & x1 & x2 & x3 & x4 & x5 & He & Hr)%H2. exists e, x1, x2, x3, x4, x5. auto.
  - intros v k (now & m & He & Hn)%H3. exists now, m. auto.
  - intros p [(now & m & r & He & Hn) Hp]%H4. split; [exists now, m, r; auto|]. destruct (has_authenticator config); auto.
Qed.
(** Moves that do not touch what is recorded. *)
Lemma history_same evs h c c' :
  asked c' = asked c → requests c' = requests c → principal c' = principal c →
  (∀ v k, phase c' = PAuth v k → phase c = PAuth v k) → (in_session (phase c') = true → in_session (phase c) = true) →
  history evs h c → history evs h c'.
Proof.
  intros Ha Hr Hp Hau Hs [H1 H2 H3 H4 H5]. split; rewrite ?Ha, ?Hr, ?Hp; [done|done| |done|auto]. intros v k H0. by apply H3, Hau.
Qed.
Lemma history_move evs ev h c c' : move ev h c c' → ev ∈ evs → history evs h c → history evs h c'.
Proof.
  intros Hm Hev Hh. destruct Hm; subst; try (by apply (history_same evs h c)).
  - destruct Hh as [A1 A2 A3 A4 A5]. split; [done|done| |done|done]. simpl. intros v0 k0 [= <- <-]. by exists now, m.
  - destruct Hh as [A1 A2 A3 A4 A5]. split; simpl; [done|done|done| |done]. intros p0 [= <-]. split.
    + destruct (A3 _ _ ltac:(eassumption)) as (now & m & He & Hn). by exists now, m, (v, k).
    + destruct (has_authenticator config); [by subst|done].
  - apply (history_same evs h c); try done; simpl; [by destruct fs; [destruct l|]|by rewrite H].
  - apply (history_same evs h c); try done; simpl; [by destruct fs; [destruct l|]|by rewrite H].
  - apply (history_same evs h c); try done; simpl; [by intros v k ->|]. intros _. by destruct (phase c).
  - destruct Hh as [A1 A2 A3 A4 A5]. split; simpl; [|done..].
    intros a [Ha| ->%list_elem_of_singleton]%elem_of_app; [by apply A1|]. by exists ev, r.
  - destruct Hh as [A1 A2 A3 A4 A5]. split; simpl; [done| |done..].
    intros d0 [Hd|Hd]%elem_of_app; [by apply A2|]. destruct (header_value custom "reply-to") as [d1|] eqn:Hv; [|by apply elem_of_nil in Hd].
    apply list_elem_of_singleton in Hd as ->. by exists ev, d, r, ct, custom, b.
Qed.
Lemma history_run evs s : exec_all evs World_new = Some s → ∀ h c, conns s !! h = Some c → history evs h c.
Proof.
  apply (every_conn history); [intros; apply history_fresh|intros; by apply history_more|intros; by eapply history_move].
Qed.

(** ** What a peer is told first *)

Definition tells (f : OutFrame) : bool := match f with OHeartbeat | OPing => false | _ => true end.
Abbreviation told := (List.filter tells).
Definition greeted (l : list OutFrame) : Prop := ∃ v l', l = OFrame (SConnected v) :: l'.
(** Nothing, the greeting first, or a refusal alone. *)
Definition proper (l : list OutFrame) : Prop := l = [] ∨ greeted l ∨ ∃ e, l = [OFrame (SError e)].
Definition open_ok (c : Conn) : Prop := greeted (told (stream c)) ∨ (receiver_gone c = true ∧ told (stream c) = []).
Definition untold (c : Conn) : Prop := asked c = [] ∧ requests c = [] ∧ told (stream c) = [].
Definition greeting (c : Conn) : Prop :=
  match phase c with
  | POpening | PReject _ | PAuth _ _ => writer c = WNone ∧ chan c = [] ∧ untold c
  | PGone => receiver_gone c = true ∧ proper (told (stream c))
  | PSend (f :: fs) _ => (if greets f then untold c else open_ok c) ∧ forallb (negb ∘ greets) fs = true
  | _ => open_ok c
  end.
Lemma greeted_app l l' : greeted l → greeted (l ++ l').
Proof. intros (v & r & ->). by exists v, (r ++ l'). Qed.
Lemma queue_stream_push f (c : Conn) : stream (push f c) = stream c ++ [f].
Proof. unfold stream, writing. simpl. by rewrite <- !app_assoc. Qed.
Lemma open_ok_push c f : receiver_gone c = false → open_ok c → open_ok (push f c).
Proof.
  intros Hr [Hg|[Hr' _]]; [|congruence]. left. rewrite queue_stream_push, List.filter_app. by apply greeted_app.
Qed.
(** The stream only grows, or is cut to what is on the wire when the writer ends. *)
Lemma told_writer (c c' : Conn) :
  told (stream c') = told (stream c) → receiver_gone c' = receiver_gone c → asked c' = asked c → requests c' = requests c →
  phase c' = phase c → (writer c ≠ WNone) → greeting c → greeting c'.
Proof.
  intros Ht Hr Ha Hq Hp Hw. unfold greeting, open_ok, untold. rewrite Hp, Ht, Hr, Ha, Hq.
  destruct (phase c); try done; by intros [? _].
Qed.
Lemma told_cut (c : Conn) : ∃ l, told (stream c) = told (wire c) ++ l.
Proof. unfold stream. rewrite List.filter_app. by eexists. Qed.
Lemma open_ok_cut (c : Conn) p : open_ok c → open_ok (set_phase p (writer_ends c)).
Proof.
  destruct (told_cut c) as [l Hl]. unfold open_ok. rewrite Hl. change (stream (set_phase p (writer_ends c))) with (wire c ++ [] ++ []).
  rewrite app_nil_r. simpl. intros [(v & r & Hg)|[_ [Hw _]%app_eq_nil]]; [|right; by rewrite Hw].
  destruct (told (wire c)) as [|x w]; [by right|]. left. injection Hg as -> _. by exists v, w.
Qed.
Lemma greeting_ends (c : Conn) : receiver_gone c = false ∨ phase c = PDrain → greeting c → greeting (writer_ends c).
Proof.
  intros Hr Hg. assert (Hcut : open_ok c → open_ok (writer_ends c)) by apply (open_ok_cut c (phase c)).
  assert (Hun : untold c → untold (writer_ends c)).
  { intros (Ha & Hq & Ht). split; [done|]. split; [done|]. destruct (told_cut c) as [l Hl]. rewrite Hl in Ht.
    apply app_eq_nil in Ht as [Ht _]. change (stream (writer_ends c)) with (wire c ++ [] ++ []). by rewrite app_nil_r. }
  unfold greeting in *. simpl. destruct (phase c) as [| | | |[|f fs]| | | | | |]; try by auto; try (destruct Hg as [Hw _], Hr; try done; unfold receiver_gone in *; by rewrite Hw in *).
  destruct Hg as [Hg Hf]. split; [|done]. destruct (greets f); auto.
Qed.
Lemma greeting_session (c : Conn) p : open_ok c → turning p = true ∨ p = PDrain ∨ p = PPanicked → greeting (set_phase p c).
Proof. intros Ho Hp. destruct p; try done; naive_solver. Qed.
Lemma greeting_send (c : Conn) fs l : open_ok c → forallb (negb ∘ greets) fs = true → greeting (set_phase (send_phase fs l) c).
Proof.
  intros Ho Hf. destruct fs as [|f fs]; simpl; [by destruct l|]. simpl in Hf. apply andb_true_iff in Hf as [Hf Hfs].
  apply negb_true_iff in Hf. split; [|done]. simpl. by rewrite Hf.
Qed.
Lemma open_turning (c : Conn) : turning (phase c) = true ∨ phase c = PDrain → greeting c → open_ok c.
Proof. unfold greeting. destruct (phase c); naive_solver. Qed.
Lemma greeting_move ev h c c' : move ev h c c' → greeting c → greeting c'.
Proof.
  intros Hm Hg. destruct Hm as [c i Hp|c f Hm Hf Hr _|c Hp|c now m v k Hp Hev Hn|c e Hp|c Hp Hr|c Hp|c e Hp|c v k p i Hp Hpr|
    c f Hp Hf Hr Hroom|c f fs l Hp Hr Hroom|c f fs l Hp Hr|c p Hp Hs Hf|c i d r Hp _|c d r ct custom b Hp _|
    c st f q _ Hw Hq|c st _ Hw|c st f _ Hw|c Hr].
  - exact Hg.
  - assert (Hun : ¬ untold c) by (intros (Ha & Hq & _); destruct f as [[]| |]; try done; simpl in Hf; rewrite Ha, Hq in Hf; set_solver).
    pose proof (open_ok_push c f Hr) as Hpush. unfold greeting in *. simpl.
    destruct (phase c) as [| | | |[|g fs]| | | | | |]; try (by auto); try (by destruct Hg as (_ & _ & Hu)); [|by destruct Hg as [Hg _]; unfold receiver_gone in *; congruence].
    destruct Hg as [Hg Hfs]. split; [|done]. destruct (greets g); [by destruct Hun|]. auto.
  - unfold greeting in *. rewrite Hp in Hg. simpl. rewrite Hp. destruct Hg as (Hw & Hq & Ha & Hrq & Ht). split_and!; try done.
    unfold untold. split_and!; try done. unfold stream, writing in *. simpl. rewrite Hw, Hq in *. simpl in *.
    rewrite !app_nil_r in *. rewrite List.filter_app, Ht. done.
  - unfold greeting in *. rewrite Hp in Hg. exact Hg.
  - assert (Hu : writer c = WNone ∧ chan c = [] ∧ untold c) by (unfold greeting in Hg; destruct Hp as [Hp|(v & k & Hp)]; by rewrite Hp in Hg). exact Hu.
  - apply open_turning in Hg; [|by right]. split; [done|]. destruct Hg as [Hg|[_ Hg]]; [right; by left|by left].
  - assert (Hu : writer c = WNone ∧ chan c = [] ∧ untold c) by
      (unfold greeting in Hg; destruct Hp as [Hp|[(v & k & Hp)|(e & Hp)]]; by rewrite Hp in Hg).
    destruct Hu as (Hw & _ & _ & _ & Ht). split; [unfold receiver_gone; simpl; by rewrite Hw|by left].
  - unfold greeting in Hg. rewrite Hp in Hg. destruct Hg as (Hw & Hq & _ & _ & Ht). split; [unfold receiver_gone; simpl; by rewrite Hw|].
    right. right. exists e. unfold stream, writing in *. simpl. rewrite Hw, Hq in *. simpl in *.
    rewrite !app_nil_r in *. by rewrite List.filter_app, Ht.
  - unfold greeting in Hg. rewrite Hp in Hg. destruct Hg as (Hw & Hq & Ha & Hrq & Ht). split; [|done]. simpl. split_and!; try done.
    unfold stream, writing in *. simpl. rewrite Hw, Hq in Ht. simpl in Ht. done.
  - apply open_turning in Hg; [|by left; rewrite Hp]. apply (open_ok_push c f Hr) in Hg. unfold greeting. simpl. by rewrite Hp.
  - unfold greeting in Hg. rewrite Hp in Hg. destruct Hg as [Hg Hfs]. apply greeting_send; [|done].
    destruct (greets f) eqn:Hgr; [|by apply open_ok_push]. destruct f as [[v| | |]| |]; try done.
    left. rewrite queue_stream_push, List.filter_app. destruct Hg as (_ & _ & ->). by exists v, [].
  - unfold greeting in Hg. rewrite Hp in Hg. destruct Hg as [Hg Hfs]. apply greeting_send; [|done].
    destruct (greets f); [|done]. right. by destruct Hg as (_ & _ & Ht).
  - apply open_turning in Hg; [|by left]. destruct p as [| | | |fs l| | | | | |]; try done.
    destruct fs as [|f fs]; [done|]. by apply (greeting_send c (f :: fs) l).
  - apply open_turning in Hg; [|by left; rewrite Hp]. unfold greeting. simpl. by rewrite Hp.
  - apply open_turning in Hg; [|by left; rewrite Hp]. unfold greeting. simpl. by rewrite Hp.
  - apply (told_writer c); try done; [|unfold receiver_gone; simpl; by rewrite Hw|by rewrite Hw]. unfold stream, writing. simpl. by rewrite Hw, Hq.
  - apply (told_writer c); try done; [|unfold receiver_gone; simpl; by rewrite Hw|by rewrite Hw]. unfold stream, writing. simpl. rewrite Hw.
    by rewrite !List.filter_app.
  - apply (told_writer c); try done; [|unfold receiver_gone; simpl; by rewrite Hw|by rewrite Hw]. unfold stream, writing. simpl. rewrite Hw.
    by rewrite <- app_assoc.
  - apply greeting_ends; [destruct Hr as [(st & _ & Hr)|Hr]; auto|done].
Qed.
Lemma greeting_run evs s : exec_all evs World_new = Some s → ∀ h c, conns s !! h = Some c → greeting c.
Proof.
  apply (every_conn (λ _ _, greeting)); [|done|intros; by eapply greeting_move]. intros. split_and!; done.
Qed.

(** ** Theorems *)

(** Where a message may go: a subscription its receiver made, or the reply the receiver
    asked for. *)
Definition addressed (evs : list Event) (h : nat) (d sub : string) : Prop :=
  subscribed_by evs h sub d ∨ (sub = REPLY_SUBSCRIPTION_ID ∧ asked_reply evs h d).
(** C23: Nobody overhears a message: every message a connection is sent carries a
    subscription its peer made to that very destination, or answers a request of its
    peer that named the destination as its reply address. *)
Theorem nobody_overhears evs s h c i d sub b x :
  exec_all evs World_new = Some s → conns s !! h = Some c →
  OFrame (SMessage i d sub b x) ∈ stream c → addressed evs h d sub.
Proof.
  intros Hx Hc Hin. pose proof (world_ok_run parse is_route config evs s Hx) as Hok.
  pose proof (history_run evs s Hx h c Hc) as Hh. pose proof (co_stream _ _ (wo_conns _ Hok h c Hc)) as Hs.
  rewrite Forall_forall in Hs. destruct (Hs _ Hin) as [Ha|[-> Hr]]; [left; by apply (hi_asked _ _ _ Hh (sub, d))|].
  right. split; [done|by apply (hi_requests _ _ _ Hh)].
Qed.
(** What a session rests on: the connection is held, and its principal was admitted. *)
Definition admitted_session (evs : list Event) (s : World) (h : nat) (i : ConnectionId) : Prop :=
  ∃ c p, conns s !! h = Some c ∧ c_id c = i ∧ live_phase (phase c) = true ∧ principal c = Some p ∧ admitted evs h p.
(** C24: An entry of the registry belongs to a connection that has not been unregistered (it
    is served, or its task has panicked), that opened with a CONNECT of a common
    version, and whose principal is the one the authenticator returned (the anonymous
    one without an authenticator). *)
Theorem subscribers_are_admitted evs s d e :
  exec_all evs World_new = Some s → subscribed (broker s) d e → admitted_session evs s (tx e) (conn e).
Proof.
  intros Hx He. destruct (wo_subs _ (world_ok_run parse is_route config evs s Hx) d e He) as (c & Hc & Hid & Hl & _).
  pose proof (history_run evs s Hx (tx e) c Hc) as Hh.
  destruct (hi_session _ _ _ Hh) as [p Hp]; [unfold in_session; by rewrite Hl|].
  exists c, p. split_and!; try done. by apply (hi_admitted _ _ _ Hh).
Qed.
(** A handler runs only for an admitted peer, for a frame that peer sent. *)
Theorem handlers_run_for_admitted evs s h c k :
  exec_all evs World_new = Some s → conns s !! h = Some c → phase c = PHandle k →
  ∃ p, principal c = Some p ∧ admitted evs h p.
Proof.
  intros Hx Hc Hp. pose proof (history_run evs s Hx h c Hc) as Hh.
  destruct (hi_session _ _ _ Hh) as [p Hpr]; [by rewrite Hp|]. exists p. split; [done|by apply (hi_admitted _ _ _ Hh)].
Qed.
(** The first frame a peer is told is CONNECTED, apart from heart-beats and pings, or a
    single ERROR that refuses it. *)
Theorem connected_comes_first evs s h c :
  exec_all evs World_new = Some s → conns s !! h = Some c → proper (told (wire c)).
Proof.
  intros Hx Hc. pose proof (greeting_run evs s Hx h c Hc) as Hg. destruct (told_cut c) as [l Hl].
  assert (Hp : proper (told (stream c))).
  { unfold greeting, open_ok, untold in Hg. destruct (phase c) as [| | | |[|f fs]| | | | | |]; try destruct (greets f);
      unfold proper; naive_solver. }
  rewrite Hl in Hp. destruct Hp as [[Hw _]%app_eq_nil|[(v & r & Hg')|[e He]]]; [by left|..].
  - destruct (told (wire c)) as [|y w]; [by left|]. injection Hg' as -> _. right. left. by exists v, w.
  - destruct (told (wire c)) as [|y w]; [by left|]. injection He as -> [-> _]%app_eq_nil. right. right. by exists e.
Qed.
(** No queue of frames outgrows its channel, however fast messages are published. *)
Theorem outbound_bounded evs s h c :
  exec_all evs World_new = Some s → conns s !! h = Some c → (length (chan c) ≤ OUTBOUND_BUFFER)%nat.
Proof. intros Hx Hc. apply (co_room (conns s)). by apply (wo_conns _ (world_ok_run parse is_route config evs s Hx) h). Qed.

(** ** Connections that are stuck or left behind *)

(** The task waits for room in its own full queue, and the socket takes no bytes. *)
Definition stalled (c : Conn) : Prop :=
  (∃ f fs l, phase c = PSend (f :: fs) l) ∧ has_room c = false ∧ ∃ f, writer c = WWriting f.
Definition of_writer (h : nat) (ev : Event) : Prop := ∃ st, ev = EWriter h st.
Lemma stalled_move ev h c c' : move ev h c c' → ¬ of_writer h ev → stalled c → c' = c.
Proof.
  intros Hm Hw ((f & fs & l & Hp) & Hr & (g & Hwr)).
  assert (Hrg : receiver_gone c = false) by (unfold receiver_gone; by rewrite Hwr).
  destruct Hm; try congruence; try (rewrite Hp in *; naive_solver); try (destruct Hw; by eexists).
  match goal with H0 : _ ∨ phase c = PDrain |- _ => destruct H0 as [(st & -> & _)|H0] end; [destruct Hw; by eexists|congruence].
Qed.
(** A peer that keeps sending frames that are answered and reads nothing pins its
    connection: once the task waits for room and the writer for the socket, no event
    but the writer's own changes the connection, the shutdown and the idle timer of
    the endpoint included. *)
Theorem stalled_peer_outlives_shutdown evs evs' s s' h c :
  exec_all evs World_new = Some s → conns s !! h = Some c → stalled c →
  exec_all evs' s = Some s' → Forall (λ ev, ¬ of_writer h ev) evs' → conns s' !! h = Some c.
Proof.
  intros Hx Hc Hst. revert evs s Hx Hc. induction evs' as [|ev evs' IH]; intros evs s Hx Hc Hx' Hev; [by injection Hx' as <-|].
  simpl in Hx'. destruct (exec ev s) as [s1|] eqn:He; [|done]. simpl in Hx'. apply Forall_cons in Hev as [Hn Hev].
  assert (Hok : world_ok s) by by eapply world_ok_run.
  assert (Hc1 : conns s1 !! h = Some c).
  { destruct (exec_moves ev s s1 Hok He) as [(now & Hcs)|Hsteps]; [rewrite Hcs; by apply lookup_app_l_Some|].
    destruct (conns s1 !! h) as [c1|] eqn:Hc1.
    - destruct (proj2 Hsteps h c1 Hc1) as (c0 & Hc0 & Hm). assert (c0 = c) as -> by congruence. f_equal.
      clear -Hm Hn Hst. induction Hm as [|x y z Hm _ IH]; [done|]. assert (y = x) as -> by by eapply stalled_move. by apply IH.
    - apply lookup_ge_None in Hc1. apply lookup_lt_Some in Hc. rewrite (proj1 Hsteps) in Hc1. lia. }
  eapply (IH (evs ++ [ev])); [|done..]. rewrite stomp_exec_all_app, Hx. simpl. by rewrite He.
Qed.

Lemma panicked_move ev h c c' : move ev h c c' → phase c = PPanicked → phase c' = PPanicked.
Proof. intros Hm Hp. destruct Hm; simpl; try congruence; rewrite Hp in *; naive_solver. Qed.
(** A panic of a handler ends the task of its connection without [unregister]: the task
    never does anything again, so what the connection subscribed to stays in the
    registry until a connection of the same id unsubscribes it. *)
Theorem panicked_task_never_unregisters evs s ev s' h c :
  exec_all evs World_new = Some s → conns s !! h = Some c → phase c = PPanicked → exec ev s = Some s' →
  ∃ c', conns s' !! h = Some c' ∧ phase c' = PPanicked.
Proof.
  intros Hx Hc Hp He. assert (Hok : world_ok s) by by eapply world_ok_run.
  destruct (exec_moves ev s s' Hok He) as [(now & Hcs)|[Hlen Hsteps]].
  - exists c. rewrite Hcs. split; [by apply lookup_app_l_Some|done].
  - destruct (conns s' !! h) as [c'|] eqn:Hc'; [|apply lookup_ge_None in Hc'; apply lookup_lt_Some in Hc; lia].
    exists c'. split; [done|]. destruct (Hsteps h c' Hc') as (c0 & Hc0 & Hm). assert (c0 = c) as -> by congruence.
    clear -Hm Hp. induction Hm as [|x y z Hm _ IH]; [done|]. apply IH. by eapply panicked_move.
Qed.
End Safety.

(** ** Concrete runs *)

Module StompRuns.
Definition parse_sample (s : string) : result (@ClientFrame nat) string :=
  if bool_decide (s = "CONNECT") then Ok (CConnect [12%nat] "1.2" (mkConnect "h" None None []) "CONNECT")
  else if bool_decide (s = "SUB") then Ok (CSubscribe "s1" "/topic/a" (Some "r1"))
  else if bool_decide (s = "CALL") then Ok (CSend "/app/f" None None [("reply-to", "/reply/1")] None)
  else if bool_decide (s = "PUB") then Ok (CSend "/topic/a" (Some "p1") None [] (Some "hi"))
  else Err "unknown".
Definition is_route_sample (d : string) : bool := bool_decide (d = "/app/f").
Definition config_sample : @StompConfig nat := mkConfig true [12%nat] true None.
Abbreviation run := (exec_all parse_sample is_route_sample config_sample).
Definition inbound (h : nat) (t : string) : Event := EInbound h 0 (Some (MText t)).
Definition opened : list Event :=
  [EAccept 0; EOpener 0 0 (Some (MText "CONNECT")); EAuth 0 (AuthOk (authenticated "ann")); EAdvance 0].
(** The peer subscribes, a message is published to it, it calls a handler and is
    answered; everything is written. *)
Definition session : list Event :=
  opened ++ [inbound 0 "SUB"; EAdvance 0; EPublish "/topic/a" (mkBody None "news"); EFan 0; inbound 0 "CALL";
    EHandled 0 (Handled (Ok (Reply (mkBody None "done")))); EAdvance 0] ++ concat (repeat [EWriter 0 WrNext; EWriter 0 WrNext] 4).
Definition at_end (evs : list Event) : @World nat := default World_new (run evs World_new).
Definition conn_at (h : nat) (s : @World nat) : @Conn nat := default (fresh config_sample 0) (conns s !! h).

Example session_wire : wire (conn_at 0 (at_end session)) =
  [OFrame (SConnected 12%nat); OFrame (SReceipt "r1");
   OFrame (SMessage 1 "/topic/a" "s1" (mkBody None "news") []); OFrame (SMessage 2 "/reply/1" "reply" (mkBody None "done") [])].
Proof. vm_compute. reflexivity. Qed.
(** The interval ticks at once, so a heart-beat may be sent before CONNECTED. *)
Example heartbeat_before_connected :
  wire (conn_at 0 (at_end ([EAccept 0; EOpener 0 0 (Some (MText "CONNECT")); EAuth 0 (AuthOk anonymous);
    EWriter 0 WrTick; EWriter 0 WrNext; EAdvance 0; EWriter 0 WrNext; EWriter 0 WrNext]))) =
  [OHeartbeat; OFrame (SConnected 12%nat)].
Proof. vm_compute. reflexivity. Qed.
(** A handler panics; the connection's subscription is still there and is sent to. *)
Example panic_leaves_subscription :
  let s := at_end (opened ++ [inbound 0 "SUB"; EAdvance 0; inbound 0 "CALL"; EHandled 0 HandlerPanics;
                              EPublish "/topic/a" (mkBody None "news"); EFan 0]) in
  targets "/topic/a" (broker s) = [("s1", 0%nat)] ∧ length (chan (conn_at 0 s)) = 3%nat.
Proof. vm_compute. done. Qed.

End StompRuns.
Import StompRuns.

Definition overheard : @OutFrame nat := OFrame (SMessage 1 "/topic/a" "s1" (mkBody None "news") []).
Lemma nobody_overhears_witness :
  run session World_new = Some (at_end session) ∧ conns (at_end session) !! 0%nat = Some (conn_at 0 (at_end session)) ∧
  addressed parse_sample session 0 "/topic/a" "s1".
Proof.
  assert (H1 : run session World_new = Some (at_end session)) by (vm_compute; reflexivity).
  assert (H2 : conns (at_end session) !! 0%nat = Some (conn_at 0 (at_end session))) by (vm_compute; reflexivity).
  assert (H3 : overheard ∈ stream (conn_at 0 (at_end session))).
  { replace (stream (conn_at 0 (at_end session))) with
      [OFrame (SConnected 12%nat); OFrame (SReceipt "r1"); overheard; OFrame (SMessage 2 "/reply/1" "reply" (mkBody None "done") [])]
      by (vm_compute; reflexivity). right. right. left. }
  split; [exact H1|]. split; [exact H2|].
  apply (nobody_overhears parse_sample is_route_sample config_sample session (at_end session) 0 _ 1 "/topic/a" "s1" (mkBody None "news") [] H1 H2 H3).
Defined.
Lemma subscribers_are_admitted_witness :
  run session World_new = Some (at_end session) ∧ subscribed (broker (at_end session)) "/topic/a" (mkSub 1 "s1" 0) ∧
  admitted_session parse_sample config_sample session (at_end session) 0 1.
Proof.
  assert (H1 : run session World_new = Some (at_end session)) by (vm_compute; reflexivity).
  assert (H2 : subscribed (broker (at_end session)) "/topic/a" (mkSub 1 "s1" 0)).
  { unfold subscribed. replace (entries_of "/topic/a" (broker (at_end session))) with [mkSub 1 "s1" 0] by (vm_compute; reflexivity). left. }
  split; [exact H1|]. split; [exact H2|].
  apply (subscribers_are_admitted parse_sample is_route_sample config_sample session (at_end session) "/topic/a" _ H1 H2).
Defined.
Definition calling : list Event := opened ++ [inbound 0 "CALL"].
Lemma handlers_run_for_admitted_witness :
  ∃ k, phase (conn_at 0 (at_end calling)) = PHandle k ∧
  ∃ p, principal (conn_at 0 (at_end calling)) = Some p ∧ admitted parse_sample config_sample calling 0 p.
Proof.
  eexists. split; [vm_compute; reflexivity|].
  eapply (handlers_run_for_admitted parse_sample is_route_sample config_sample calling (at_end calling) 0); vm_compute; reflexivity.
Defined.
Lemma connected_comes_first_witness :
  run session World_new = Some (at_end session) ∧ proper (List.filter tells (wire (conn_at 0 (at_end session)))).
Proof.
  assert (H1 : run session World_new = Some (at_end session)) by (vm_compute; reflexivity). split; [exact H1|].
  apply (connected_comes_first parse_sample is_route_sample config_sample session (at_end session) 0 _ H1). vm_compute. reflexivity.
Defined.
Lemma outbound_bounded_witness :
  run session World_new = Some (at_end session) ∧ (length (chan (conn_at 0 (at_end session))) ≤ OUTBOUND_BUFFER)%nat.
Proof.
  assert (H1 : run session World_new = Some (at_end session)) by (vm_compute; reflexivity). split; [exact H1|].
  apply (outbound_bounded parse_sample is_route_sample config_sample session (at_end session) 0 _ H1). vm_compute. reflexivity.
Defined.
(** The peer asks for receipts and does not read; then the server shuts down. *)
Definition flood : list Event :=
  opened ++ EWriter 0 WrTick :: concat (repeat [inbound 0 "SUB"; EAdvance 0] 63) ++ [inbound 0 "SUB"].
Definition afterwards : list Event := [EShutdown; EAccept 5; EPublish "/topic/a" (mkBody None "news"); EFan 0].
Lemma stalled_peer_outlives_shutdown_witness :
  stalled (conn_at 0 (at_end flood)) ∧ run afterwards (at_end flood) = Some (at_end (flood ++ afterwards)) ∧
  conns (at_end (flood ++ afterwards)) !! 0%nat = Some (conn_at 0 (at_end flood)).
Proof.
  assert (H0 : stalled (conn_at 0 (at_end flood))).
  { split; [|split]; [do 3 eexists; vm_compute; reflexivity|vm_compute; reflexivity|eexists; vm_compute; reflexivity]. }
  assert (H1 : run afterwards (at_end flood) = Some (at_end (flood ++ afterwards))) by (vm_compute; reflexivity).
  split; [exact H0|]. split; [exact H1|].
  eapply (stalled_peer_outlives_shutdown parse_sample is_route_sample config_sample flood afterwards (at_end flood));
    [vm_compute; reflexivity|vm_compute; reflexivity|exact H0|exact H1|].
  repeat constructor; intros (st & [=]).
Defined.
Definition panicked : list Event := opened ++ [inbound 0 "CALL"; EHandled 0 HandlerPanics].
Lemma panicked_task_never_unregisters_witness :
  ∃ c', conns (at_end (panicked ++ [EShutdown])) !! 0%nat = Some c' ∧ phase c' = PPanicked.
Proof.
  eapply (panicked_task_never_unregisters parse_sample is_route_sample config_sample panicked (at_end panicked) EShutdown);
    vm_compute; reflexivity.
Defined.
