(* ===== verification/WsClient.v ===== *)
(** * WsClient: the correlating websocket client

    Models [crates/axum/src/client/websocket.rs] and
    [client/websocket/tungstenite.rs], with [ClientError] of
    [crates/client/src/lib.rs]: one actor task owns the socket, writes the commands of a
    bounded queue and matches the frames it reads to the calls that wait. The client is
    a transition system whose steps are one move of a call, one command taken or
    written by the actor, or one frame it reads.

    A protocol is the four functions of [WebsocketClientProtocol] the actor and the
    calls use; they are arguments here, and [JsonWs] gives one. A oneshot channel is the
    slot of its call; its sender is wherever the command is: in the caller, in the
    queue, in the actor's hand or in the pending map. *)
From stdpp Require Import relations.
From S2P Require Import Prelude.

(** ** Errors *)

Inductive TransportError := TClosed | TIo (m : string).
(** [ClientError]; an [ErrorBody] is its status and its bytes. *)
Inductive ClientError (Status : Type) :=
| ETransport (e : TransportError) | EEncode (m : string) | EDecode (m : string)
| ERemote (code : Status) (body : string) | EConnectionClosed | ETimeout.
Arguments ETransport {_}. Arguments EEncode {_}. Arguments EDecode {_}. Arguments ERemote {_}.
Arguments EConnectionClosed {_}. Arguments ETimeout {_}.
Definition clone_client_error {S} (e : ClientError S) : ClientError S :=
  match e with ETransport _ => ETransport TClosed | e => e end.
Definition net_err {S} (m : string) : ClientError S := ETransport (TIo m).
(** [WsClientFrame] *)
Inductive WsClientFrame := FText (s : string) | FBinary (s : string).

Section Client.
Context {Key Status Payload : Type} `{Countable Key}.
Context (next_key : Z → Key) (encode_call : string → Key → Payload → result WsClientFrame string)
  (encode_send : string → Payload → result WsClientFrame string)
  (reply_key : WsClientFrame → result (option Key) string).

(** ** Calls and the actor *)

(** What a call is answered with: the frame of a reply, or that a send was written. *)
Abbreviation Answer := (result (option WsClientFrame) (ClientError Status)).
Inductive CallKind := KRequest (key : Key) | KSend.
Inductive CallState :=
| CSending                 (* awaits [tx.send] *)
| CAwaiting                (* awaits its oneshot *)
| CReturned (r : Answer)
| CDropped.                (* its future was dropped *)
Record Call := mkCall { c_kind : CallKind; c_frame : option WsClientFrame; c_state : CallState; c_slot : option Answer }.
Inductive Actor := ASelect | AWriting (h : nat) | AGone.
(** [handles]: a handle of the client is left. [reads] and [written] record what the
    actor read, and the calls whose frames it wrote. *)
Record Client := mkClient {
  calls : list Call; queue : list nat; pending : gmap Key nat; actor : Actor; counter : Z; handles : bool;
  accepted : list nat; written : list nat; reads : list WsClientFrame }.
Definition Client_new : Client := mkClient [] [] ∅ ASelect 1 true [] [] [].
Definition COMMAND_BUFFER : nat := 64.

Definition set_call (h : nat) (f : Call → Call) (s : Client) : Client :=
  mkClient (alter f h (calls s)) (queue s) (pending s) (actor s) (counter s) (handles s) (accepted s) (written s) (reads s).
Definition set_state (st : CallState) (c : Call) : Call := mkCall (c_kind c) (c_frame c) st (c_slot c).
(** [oneshot::Sender::send]: nothing happens when the receiver is gone. *)
Definition receiver_open (c : Call) : bool := match c_state c with CSending | CAwaiting => true | _ => false end.
Definition fill (r : Answer) (c : Call) : Call :=
  if receiver_open c then mkCall (c_kind c) (c_frame c) (c_state c) (Some r) else c.
Definition answer (h : nat) (r : Answer) : Client → Client := set_call h (fill r).
Definition set_actor (a : Actor) (q : list nat) (p : gmap Key nat) (s : Client) : Client :=
  mkClient (calls s) q p a (counter s) (handles s) (accepted s) (written s) (reads s).

(** [prune_pending] *)
Definition open_call (s : Client) (h : nat) : bool := match calls s !! h with Some c => receiver_open c | None => false end.
Definition prune_pending (s : Client) : gmap Key nat := filter (λ p, open_call s p.2 = true) (pending s).
(** [fail_pending], which consumes the map; then the actor is over and its queue is
    dropped. *)
Definition fail_calls (hs : list nat) (e : ClientError Status) (s : Client) : Client :=
  foldr (λ h, answer h (Err (clone_client_error e))) s hs.
Definition fail_pending (e : ClientError Status) (s : Client) : Client :=
  set_actor AGone [] ∅ (fail_calls ((map_to_list (pending s)).*2) e s).
(** [correlate] *)
Definition correlate (f : WsClientFrame) (s : Client) : Client :=
  match reply_key f with
  | Ok (Some k) =>
      match pending s !! k with
      | Some h => answer h (Ok (Some f)) (set_actor (actor s) (queue s) (delete k (pending s)) s)
      | None => s
      end
  | Ok None | Err _ => s
  end.

(** ** The moves *)

Inductive ReadEvent := RFrame (f : WsClientFrame) | RClosed | RError (m : string).
Inductive Event :=
| ERequest (d : string) (p : Payload)   (* [websocket_call] up to [tx.send] *)
| ESend (d : string) (p : Payload)      (* [send_message] up to [tx.send] *)
| EEnqueue (h : nat)
| EReturn (h : nat)
| EDropCall (h : nat)
| EDropHandles
| ETake
| EWritten (ok : bool)
| ERead (m : ReadEvent)
| ELast.                                (* every sender is dropped *)

Definition add_call (k : CallKind) (r : result WsClientFrame string) (s : Client) : Client :=
  let c := match r with
           | Ok f => mkCall k (Some f) CSending None
           | Err m => mkCall k None (CReturned (Err (EEncode m))) None
           end in
  mkClient (calls s ++ [c]) (queue s) (pending s) (actor s) (counter s) (handles s) (accepted s) (written s) (reads s).
Definition set_counter (n : Z) (s : Client) : Client :=
  mkClient (calls s) (queue s) (pending s) (actor s) n (handles s) (accepted s) (written s) (reads s).
(** Where the sender of a waiting call may be. *)
Definition in_hand (a : Actor) : list nat := match a with AWriting h => [h] | _ => [] end.
Definition sender_alive (h : nat) (s : Client) : bool :=
  bool_decide (h ∈ queue s ++ in_hand (actor s) ++ (map_to_list (pending s)).*2).
Definition idle_call (c : Call) : bool := negb (receiver_open c).
Definition exec (ev : Event) (s : Client) : option Client :=
  match ev with
  | ERequest d p =>
      if handles s then
        let k := next_key (counter s) in
        Some (add_call (KRequest k) (encode_call d k p) (set_counter ((counter s + 1) mod 2 ^ 64) s))
      else None
  | ESend d p => if handles s then Some (add_call KSend (encode_send d p) s) else None
  | EEnqueue h =>
      c ← calls s !! h;
      match c_state c, actor s with
      | CSending, AGone => Some (set_call h (set_state (CReturned (Err EConnectionClosed))) s)
      | CSending, _ =>
          if (length (queue s) <? COMMAND_BUFFER)%nat then
            Some (mkClient (alter (set_state CAwaiting) h (calls s)) (queue s ++ [h]) (pending s) (actor s) (counter s)
                    (handles s) (accepted s ++ [h]) (written s) (reads s))
          else None
      | _, _ => None
      end
  | EReturn h =>
      c ← calls s !! h;
      match c_state c, c_slot c with
      | CAwaiting, Some r => Some (set_call h (set_state (CReturned r)) s)
      | CAwaiting, None => if sender_alive h s then None else Some (set_call h (set_state (CReturned (Err EConnectionClosed))) s)
      | _, _ => None
      end
  | EDropCall h =>
      c ← calls s !! h;
      if receiver_open c then Some (set_call h (set_state CDropped) s) else None
  | EDropHandles =>
      if forallb idle_call (calls s)
      then Some (mkClient (calls s) (queue s) (pending s) (actor s) (counter s) false (accepted s) (written s) (reads s))
      else None
  | ETake =>
      match actor s, queue s with
      | ASelect, h :: q => Some (set_actor (AWriting h) q (prune_pending s) s)
      | _, _ => None
      end
  | EWritten ok =>
      match actor s with
      | AWriting h =>
          c ← calls s !! h;
          if ok then
            let s1 := mkClient (calls s) (queue s) (match c_kind c with KRequest k => <[k := h]> (pending s) | KSend => pending s end)
                        ASelect (counter s) (handles s) (accepted s) (written s ++ [h]) (reads s) in
            Some match c_kind c with KRequest _ => s1 | KSend => answer h (Ok None) s1 end
          else Some (fail_pending EConnectionClosed (answer h (Err EConnectionClosed) s))
      | _ => None
      end
  | ERead m =>
      match actor s with
      | ASelect =>
          Some match m with
               | RFrame f => correlate f (mkClient (calls s) (queue s) (pending s) (actor s) (counter s) (handles s) (accepted s) (written s) (reads s ++ [f]))
               | RClosed => fail_pending EConnectionClosed s
               | RError m => fail_pending (net_err m) s
               end
      | _ => None
      end
  | ELast =>
      match actor s, queue s with
      | ASelect, [] => if handles s then None else Some (set_actor AGone [] ∅ s)
      | _, _ => None
      end
  end.
Fixpoint exec_all (evs : list Event) (s : Client) : option Client :=
  match evs with [] => Some s | ev :: evs' => s' ← exec ev s; exec_all evs' s' end.
Definition reachable (s : Client) : Prop := ∃ evs, exec_all evs Client_new = Some s.
Lemma wsclient_run_ind (P : Client → Prop) :
  P Client_new → (∀ ev s s', P s → exec ev s = Some s' → P s') → ∀ s, reachable s → P s.
Proof.
  intros H0 Hs s [evs Hx]. revert Hx. generalize Client_new, H0. clear H0. induction evs as [|ev evs IH]; intros s0 H0 Hx;
    [by simplify_eq/=|]. simpl in Hx. destruct (exec ev s0) as [s1|] eqn:E; [|done]. simpl in Hx. eapply IH; [|exact Hx]. by eapply Hs.
Qed.

(** ** The invariant *)

(** What an answer says: a reply belongs to the call's key and came from the socket, a
    send was written. *)
Definition answer_ok (s : Client) (h : nat) (k : CallKind) (r : Answer) : Prop :=
  match r with
  | Ok (Some f) => h ∈ written s ∧ f ∈ reads s ∧ ∃ key, k = KRequest key ∧ reply_key f = Ok (Some key)
  | Ok None => h ∈ written s ∧ k = KSend
  | Err _ => True
  end.
Definition call_fine (s : Client) (h : nat) (c : Call) : Prop :=
  ∀ r, c_slot c = Some r ∨ c_state c = CReturned r → answer_ok s h (c_kind c) r.
Record client_ok (s : Client) : Prop := {
  co_calls h c : calls s !! h = Some c → call_fine s h c;
  co_pending k h : pending s !! k = Some h → h ∈ written s ∧ ∃ c, calls s !! h = Some c ∧ c_kind c = KRequest k;
  co_order : ∃ l, accepted s = written s ++ in_hand (actor s) ++ queue s ++ l ∧ (actor s ≠ AGone → l = []);
  co_gone : actor s = AGone → queue s = [] ∧ pending s = ∅;
}.
(** Only the slots and states of calls change. *)
Definition same_kinds (s s' : Client) : Prop :=
  ∀ h c, calls s !! h = Some c → ∃ c', calls s' !! h = Some c' ∧ c_kind c' = c_kind c.
Lemma answer_ok_grow (s s' : Client) h k r :
  written s ⊆ written s' → reads s ⊆ reads s' → answer_ok s h k r → answer_ok s' h k r.
Proof. destruct r as [[f|]|e]; simpl; [|set_solver|done]. intros Hw Hr (H1 & H2 & H3). split_and!; [set_solver..|done]. Qed.
Lemma set_call_kinds h f (s : Client) : (∀ c, c_kind (f c) = c_kind c) → same_kinds s (set_call h f s).
Proof.
  intros Hf i c Hc. simpl. destruct (decide (i = h)) as [->|Hne].
  - exists (f c). by rewrite list_lookup_alter_eq, Hc.
  - exists c. by rewrite list_lookup_alter_ne.
Qed.
Lemma ws_ok_set_call h f (s : Client) :
  client_ok s → (∀ c, c_kind (f c) = c_kind c) → (∀ c, calls s !! h = Some c → call_fine s h (f c)) → client_ok (set_call h f s).
Proof.
  intros [Hc Hp Ho Hg] Hk Hf. split; [| |done|done].
  - intros i c Hi. simpl in Hi. destruct (decide (i = h)) as [->|Hne].
    + rewrite list_lookup_alter_eq in Hi. apply fmap_Some in Hi as (c0 & Hc0 & ->). by apply Hf.
    + rewrite list_lookup_alter_ne in Hi by done. by apply Hc.
  - intros k i Hi. destruct (Hp k i Hi) as (Hw & c & Hci & Hck). split; [done|].
    destruct (set_call_kinds h f s Hk i c Hci) as (c' & Hc' & Hk'). exists c'. split; [done|congruence].
Qed.
Lemma ws_ok_answer h r (s : Client) :
  client_ok s → (∀ c, calls s !! h = Some c → answer_ok s h (c_kind c) r) → client_ok (answer h r s).
Proof.
  intros Hok Hr. apply ws_ok_set_call; [done|by intros c; unfold fill; destruct (receiver_open c)|].
  intros c Hc. pose proof (co_calls _ Hok h c Hc) as Hfine. specialize (Hr c Hc). unfold fill.
  destruct (receiver_open c); [|done]. intros r' [[= <-]|Hst]; [done|]. simpl in *. apply Hfine. by right.
Qed.
Lemma ok_set_state h st (s : Client) :
  client_ok s → (∀ c r, calls s !! h = Some c → st = CReturned r → answer_ok s h (c_kind c) r) → client_ok (set_call h (set_state st) s).
Proof.
  intros Hok Hst. apply ws_ok_set_call; [done|done|]. intros c Hc r [Hr|Hr]; simpl in *.
  - apply (co_calls _ Hok h c Hc). by left.
  - by apply Hst.
Qed.
Lemma ok_fail_calls hs e (s : Client) :
  client_ok s → client_ok (fail_calls hs e s) ∧ written (fail_calls hs e s) = written s ∧ accepted (fail_calls hs e s) = accepted s.
Proof.
  intros Hok. induction hs as [|h hs (IH & Hw & Ha)]; [done|]. split; [|done]. apply ws_ok_answer; [done|]. by intros.
Qed.
Lemma fail_calls_frame hs e (s : Client) :
  accepted (fail_calls hs e s) = accepted s ∧ written (fail_calls hs e s) = written s ∧ actor (fail_calls hs e s) = actor s ∧
  queue (fail_calls hs e s) = queue s.
Proof. by induction hs as [|h hs IH]. Qed.
Lemma ok_gone (s : Client) : client_ok s → client_ok (set_actor AGone [] ∅ s).
Proof.
  intros [Hc Hp (l & Ho & _) Hg]. split; simpl; [done|by intros k h ?|exists (in_hand (actor s) ++ queue s ++ l); by split|done].
Qed.
Lemma ok_fail_pending e (s : Client) : client_ok s → client_ok (fail_pending e s).
Proof. intros Hok. apply ok_gone. by apply ok_fail_calls. Qed.
Lemma ok_read f (s : Client) :
  client_ok s →
  client_ok (mkClient (calls s) (queue s) (pending s) (actor s) (counter s) (handles s) (accepted s) (written s) (reads s ++ [f])).
Proof.
  intros [Hc Hp Ho Hg]. split; [|done..]. intros h c Hh r Hr. eapply answer_ok_grow; [| |by apply (Hc h)]; [done|simpl; set_solver].
Qed.
Lemma ok_correlate f (s : Client) : client_ok s → f ∈ reads s → client_ok (correlate f s).
Proof.
  intros Hok Hf. unfold correlate. destruct (reply_key f) as [[k|]|m] eqn:Hk; [|done..].
  destruct (pending s !! k) as [h|] eqn:Hp; [|done]. destruct (co_pending _ Hok k h Hp) as (Hw & c & Hc & Hck).
  apply ws_ok_answer.
  - destruct Hok as [Hcs Hpd Ho Hg]. split; [done| |done|].
    + intros k' h' Hk'. simpl in Hk'. apply lookup_delete_Some in Hk' as [_ Hk']. by apply Hpd.
    + intros Ha. destruct (Hg Ha) as [Hq He]. simpl. split; [done|]. by rewrite He, delete_empty.
  - intros c0 Hc0. simpl in Hc0. assert (c0 = c) as -> by congruence. simpl. split_and!; [done|done|]. by exists k.
Qed.
Lemma ws_ok_add_call k r (s : Client) : client_ok s → client_ok (add_call k r s).
Proof.
  intros [Hc Hp Ho Hg]. split; [| |done|done].
  - intros h c [Hh|[_ [_ <-]%list_lookup_singleton_Some]]%lookup_app_Some; [by apply (Hc h)|].
    intros r'. destruct r; simpl; intros [Hr|Hr]; try done. by simplify_eq.
  - intros k' h Hh. destruct (Hp k' h Hh) as (Hw & c & Hch & Hk). split; [done|]. exists c. split; [|done]. by apply lookup_app_l_Some.
Qed.
Lemma exec_wsclient_ok ev (s s' : Client) : client_ok s → exec ev s = Some s' → client_ok s'.
Proof.
  intros Hok Hx. destruct ev as [d p|d p|h|h|h| | |ok|m|]; simpl in Hx.
  - destruct (handles s); [|done]. injection Hx as <-. apply ws_ok_add_call. by destruct Hok.
  - destruct (handles s); [|done]. injection Hx as <-. by apply ws_ok_add_call.
  - destruct (calls s !! h) as [c|] eqn:Hc; [|done]. simpl in Hx.
    destruct (c_state c) eqn:Hst; try done.
    assert (Hq : (actor s ≠ AGone → client_ok (mkClient (alter (set_state CAwaiting) h (calls s)) (queue s ++ [h]) (pending s) (actor s) (counter s)
                    (handles s) (accepted s ++ [h]) (written s) (reads s)))).
    { intros Ha. pose proof (ok_set_state h CAwaiting s Hok) as [Hcs Hp (l & Ho & Hl) Hg]; [by intros|].
      split; [done|done| |done]. exists []. split; [|done]. simpl in *. rewrite Ho, (Hl Ha). by rewrite !app_nil_r, <- !app_assoc. }
    destruct (actor s) eqn:Ha; [| |injection Hx as <-; by apply ok_set_state; [|intros c0 r _ [= <-]]];
      (destruct (length (queue s) <? COMMAND_BUFFER)%nat; [|done]); injection Hx as <-; by apply Hq.
  - destruct (calls s !! h) as [c|] eqn:Hc; [|done]. simpl in Hx. destruct (c_state c); try done.
    destruct (c_slot c) as [r|] eqn:Hsl; [|destruct (sender_alive h s); [done|]]; injection Hx as <-; apply ok_set_state; try done.
    + intros c0 r0 Hc0 [= <-]. assert (c0 = c) as -> by congruence. apply (co_calls _ Hok h c Hc). by left.
    + by intros c0 r0 _ [= <-].
  - destruct (calls s !! h) as [c|] eqn:Hc; [|done]. simpl in Hx. destruct (receiver_open c); [|done]. injection Hx as <-.
    by apply ok_set_state.
  - destruct (forallb idle_call (calls s)); [|done]. injection Hx as <-. by destruct Hok.
  - destruct (actor s) eqn:Ha; try done. destruct (queue s) as [|h q] eqn:Hq; [done|]. injection Hx as <-.
    destruct Hok as [Hc Hp (l & Ho & Hl) Hg]. rewrite Ha, Hq in Ho. rewrite Ha in Hl. split; [done| | |done].
    + intros k i Hi. simpl in Hi. apply map_lookup_filter_Some in Hi as [Hi _]. by apply Hp.
    + exists l. split; [done|]. intros _. by apply Hl.
  - destruct (actor s) as [|h|] eqn:Ha; try done. destruct (calls s !! h) as [c|] eqn:Hc; [|done]. simpl in Hx.
    destruct ok; injection Hx as <-; [|apply ok_fail_pending; apply ws_ok_answer; [done|by intros]].
    set (s1 := mkClient (calls s) (queue s) (match c_kind c with KRequest k => <[k := h]> (pending s) | KSend => pending s end)
                 ASelect (counter s) (handles s) (accepted s) (written s ++ [h]) (reads s)).
    assert (Hok1 : client_ok s1).
    { destruct Hok as [Hcs Hp (l & Ho & Hl) Hg]. rewrite Ha in Ho, Hl. split; [| | |done].
      - intros i c0 Hi r Hr. eapply answer_ok_grow; [| |by apply (Hcs i)]; [simpl; set_solver|done].
      - intros k i Hi. assert (Hold : pending s !! k = Some i → i ∈ written s1 ∧ ∃ c, calls s1 !! i = Some c ∧ c_kind c = KRequest k).
        { intros Hi'. destruct (Hp k i Hi') as (Hw & Hrest). split; [simpl; set_solver|done]. }
        simpl in Hi. destruct (c_kind c) as [k0|] eqn:Hk; [|by apply Hold].
        destruct (decide (k = k0)) as [->|Hne]; [|rewrite lookup_insert_ne in Hi by done; by apply Hold].
        rewrite lookup_insert_eq in Hi. injection Hi as <-. split; [simpl; set_solver|by exists c].
      - exists l. split; [simpl; rewrite Ho; simpl; by rewrite <- app_assoc|]. intros _. by apply Hl. }
    destruct (c_kind c) as [k|] eqn:Hk; [done|]. apply ws_ok_answer; [done|]. intros c0 Hc0. simpl in Hc0. assert (c0 = c) as -> by congruence.
    split; [simpl; set_solver|done].
  - destruct (actor s) eqn:Ha; try done. injection Hx as <-. destruct m as [f| |m].
    + apply ok_correlate; [rewrite <- Ha; by apply ok_read|simpl; set_solver].
    + by apply ok_fail_pending.
    + by apply ok_fail_pending.
  - destruct (actor s) eqn:Ha; try done. destruct (queue s) eqn:Hq; [|done]. destruct (handles s); [done|]. injection Hx as <-. by apply ok_gone.
Qed.
Lemma client_ok_reachable s : reachable s → client_ok s.
Proof.
  apply wsclient_run_ind; [|intros ev s1 s2 Hok Hx; by eapply exec_wsclient_ok].
  split; simpl; [by intros h c|by intros k h|exists []; by split|done].
Qed.

(** ** Theorems *)

(** A call returns a frame only if it is a reply to that call: the socket delivered it,
    its key is the call's, and the request had been written; a send returns only once
    it has been written. *)
Theorem replies_match_calls s h c r :
  reachable s → calls s !! h = Some c → c_state c = CReturned r → answer_ok s h (c_kind c) r.
Proof. intros Hr Hc Hst. apply (co_calls _ (client_ok_reachable s Hr) h c Hc). by right. Qed.
(** Commands are written once each, in the order the queue accepted them, and as long as
    the actor runs none is lost. *)
Theorem commands_in_order s :
  reachable s → ∃ rest, accepted s = written s ++ in_hand (actor s) ++ queue s ++ rest ∧ (actor s ≠ AGone → rest = []).
Proof. intros Hr. apply (co_order _ (client_ok_reachable s Hr)). Qed.
(** Once the actor is over no call hangs: each one that waits can go on. *)
Theorem no_call_hangs_after_the_actor s h c :
  reachable s → actor s = AGone → calls s !! h = Some c →
  match c_state c with
  | CSending => is_Some (exec (EEnqueue h) s)
  | CAwaiting => is_Some (exec (EReturn h) s)
  | _ => True
  end.
Proof.
  intros Hr Ha Hc. destruct (co_gone _ (client_ok_reachable s Hr) Ha) as [Hq Hp].
  destruct (c_state c) eqn:Hst; simpl; rewrite ?Hc; simpl; rewrite ?Hst, ?Ha; try done.
  destruct (c_slot c); [done|]. unfold sender_alive. rewrite Hq, Ha, Hp, map_to_list_empty. done.
Qed.
(** After a command is taken the pending map holds no call whose caller has gone. *)
Theorem pending_is_pruned s s' k h :
  exec ETake s = Some s' → pending s' !! k = Some h → open_call s' h = true.
Proof.
  simpl. destruct (actor s); try done. destruct (queue s); [done|]. intros [= <-]. simpl.
  by intros [_ Ho]%map_lookup_filter_Some.
Qed.

(** ** Keys *)

Definition kinds (s : Client) : list CallKind := c_kind <$> calls s.
Definition keys (s : Client) : list Key := omap (λ k, match k with KRequest key => Some key | KSend => None end) (kinds s).
Lemma kinds_alter (f : Call → Call) (h : nat) (l : list Call) : (∀ c, c_kind (f c) = c_kind c) → c_kind <$> alter f h l = c_kind <$> l.
Proof.
  intros Hf. apply list_eq. intros i. rewrite !list_lookup_fmap. destruct (decide (i = h)) as [->|Hne].
  - rewrite list_lookup_alter_eq. destruct (l !! h); simpl; [|done]. by rewrite Hf.
  - by rewrite list_lookup_alter_ne.
Qed.
Lemma kinds_set_call h f (s : Client) : (∀ c, c_kind (f c) = c_kind c) → kinds (set_call h f s) = kinds s.
Proof. apply kinds_alter. Qed.
Lemma kinds_answer h r (s : Client) : kinds (answer h r s) = kinds s.
Proof. apply kinds_set_call. intros c. unfold fill. by destruct (receiver_open c). Qed.
Lemma kinds_fail hs e (s : Client) : kinds (fail_calls hs e s) = kinds s ∧ counter (fail_calls hs e s) = counter s.
Proof. induction hs as [|h hs [IH IHc]]; [done|]. simpl. by rewrite kinds_answer. Qed.
Lemma exec_kinds ev (s s' : Client) :
  exec ev s = Some s' →
  match ev with
  | ERequest _ _ => kinds s' = kinds s ++ [KRequest (next_key (counter s))] ∧ counter s' = (counter s + 1) mod 2 ^ 64
  | ESend _ _ => kinds s' = kinds s ++ [KSend] ∧ counter s' = counter s
  | _ => kinds s' = kinds s ∧ counter s' = counter s
  end.
Proof.
  assert (Hst : ∀ st h (s : Client), kinds (set_call h (set_state st) s) = kinds s) by (intros; by apply kinds_set_call).
  assert (Hfp : ∀ e (s : Client), kinds (fail_pending e s) = kinds s ∧ counter (fail_pending e s) = counter s) by (intros; apply kinds_fail).
  intros Hx. destruct ev as [d p|d p|h|h|h| | |ok|m|]; simpl in Hx.
  - destruct (handles s); [|done]. injection Hx as <-. unfold kinds, add_call. simpl. rewrite fmap_app.
    by destruct (encode_call d (next_key (counter s)) p).
  - destruct (handles s); [|done]. injection Hx as <-. unfold kinds, add_call. simpl. rewrite fmap_app. by destruct (encode_send d p).
  - destruct (calls s !! h) as [c|]; [|done]. simpl in Hx. destruct (c_state c); try done.
    destruct (actor s); [| |injection Hx as <-; split; [apply Hst|done]];
      (destruct (length (queue s) <? COMMAND_BUFFER)%nat; [|done]); injection Hx as <-; (split; [|done]); unfold kinds; by apply kinds_alter.
  - destruct (calls s !! h) as [c|]; [|done]. simpl in Hx. destruct (c_state c); try done.
    destruct (c_slot c); [|destruct (sender_alive h s); [done|]]; injection Hx as <-; split; try done; apply Hst.
  - destruct (calls s !! h) as [c|]; [|done]. simpl in Hx. destruct (receiver_open c); [|done]. injection Hx as <-. split; [apply Hst|done].
  - destruct (forallb idle_call (calls s)); [|done]. by injection Hx as <-.
  - destruct (actor s), (queue s); try done. by injection Hx as <-.
  - destruct (actor s) as [|h|]; try done. destruct (calls s !! h) as [c|]; [|done]. simpl in Hx.
    destruct ok; injection Hx as <-.
    + destruct (c_kind c); [done|]. by rewrite kinds_answer.
    + destruct (Hfp EConnectionClosed (answer h (Err EConnectionClosed) s)) as [-> ->]. by rewrite kinds_answer.
  - destruct (actor s); try done. injection Hx as <-. destruct m; [|apply Hfp|apply Hfp]. unfold correlate.
    destruct (reply_key f) as [[k|]|]; [|done..]. simpl. destruct (pending s !! k); [|done]. by rewrite kinds_answer.
  - destruct (actor s), (queue s); try done. destruct (handles s); [done|]. by injection Hx as <-.
Qed.
Lemma keys_below evs s :
  exec_all evs Client_new = Some s → Z.of_nat (length evs) < 2 ^ 64 - 1 →
  1 ≤ counter s ≤ 1 + Z.of_nat (length evs) ∧
  ∃ ns, keys s = next_key <$> ns ∧ NoDup ns ∧ Forall (λ n, 1 ≤ n < counter s) ns.
Proof.
  revert s. induction evs as [|ev evs IH] using rev_ind; intros s Hx Hlen.
  - injection Hx as <-. split; [simpl; lia|]. exists []. split_and!; [done|constructor|constructor].
  - assert (Happ : ∀ l l' (a : Client), exec_all (l ++ l') a = (b ← exec_all l a; exec_all l' b)).
    { induction l as [|e l IHl]; intros l' a; simpl; [done|]. destruct (exec e a); simpl; [apply IHl|done]. }
    rewrite Happ in Hx. destruct (exec_all evs Client_new) as [s1|]; [|done]. simpl in Hx.
    destruct (exec ev s1) as [s2|] eqn:He; [|done]. simpl in Hx. injection Hx as <-. rewrite length_app in Hlen |- *. simpl in *.
    destruct (IH s1 eq_refl) as (Hc & ns & Hk & Hnd & Hall); [lia|].
    assert (Hsame : keys s2 = keys s1 → counter s2 = counter s1 →
      1 ≤ counter s2 ≤ 1 + Z.of_nat (length evs + 1) ∧ ∃ ns, keys s2 = next_key <$> ns ∧ NoDup ns ∧ Forall (λ n, 1 ≤ n < counter s2) ns).
    { intros Hk2 Hc2. rewrite Hk2, Hc2. split; [lia|]. by exists ns. }
    pose proof (exec_kinds ev s1 s2 He) as Hkinds. unfold keys in Hsame. destruct ev; destruct Hkinds as [Hk2 Hc2]; try (apply Hsame; [by rewrite Hk2|done]).
    + rewrite Z.mod_small in Hc2 by lia. rewrite Hc2. split; [lia|]. exists (ns ++ [counter s1]).
      unfold keys in *. rewrite Hk2, omap_app, Hk, fmap_app. split; [done|]. split.
      * apply NoDup_app. split; [done|]. split; [|apply NoDup_singleton]. intros n Hn ->%list_elem_of_singleton.
        rewrite Forall_forall in Hall. specialize (Hall _ Hn). lia.
      * apply Forall_app. split; [|constructor; [lia|constructor]]. eapply Forall_impl; [exact Hall|]. simpl. intros n. lia.
    + apply Hsame; [by rewrite Hk2, omap_app; simpl; rewrite app_nil_r|done].
Qed.
(** No two requests of a client have one key, for a protocol whose keys follow the counter
    and in runs shorter than the counter's range; so no reply can be taken for the reply
    to another request. *)
Theorem request_keys_unique evs s :
  (∀ m n, 1 ≤ m < 2 ^ 64 → 1 ≤ n < 2 ^ 64 → next_key m = next_key n → m = n) →
  exec_all evs Client_new = Some s → Z.of_nat (length evs) < 2 ^ 64 - 1 → NoDup (keys s).
Proof.
  intros Hinj Hx Hlen. destruct (keys_below evs s Hx Hlen) as (Hc & ns & -> & Hnd & Hall).
  rewrite Forall_forall in Hall. clear Hx. induction Hnd as [|n ns Hn Hnd IH]; [constructor|].
  cbn [fmap list_fmap]. constructor; [|apply IH; intros; apply Hall; by right].
  intros (m & Heq & Hm)%list_elem_of_fmap. apply Hn.
  assert (Hn1 : 1 ≤ n < counter s) by (apply Hall; apply list_elem_of_here).
  assert (Hm1 : 1 ≤ m < counter s) by (apply Hall; by right).
  by rewrite (Hinj n m ltac:(lia) ltac:(lia) Heq).
Qed.
End Client.
