(* ===== verification/JsonWs.v ===== *)
(** * JsonWs: the JSON envelope protocol

    Models [crates/axum-json-ws/src/lib.rs]: the envelopes and how serde reads them, the
    dispatch of one text frame, the serve loop as a machine, and the client half that
    [WsClient] is given.

    The text codec (serde_json) is a parameter: [parse] gives the document of a text,
    [print] the text of an object, [de_text] what an error of the derived readers
    prints. A value is serde_json's; what a nested object holds is never looked at. *)
From stdpp Require Import relations.
From S2P Require Import Prelude WsHost WsClient.

Inductive Json :=
| JNull | JBool (b : bool) | JInt (n : Z) | JFloat (bits : Z) | JStr (s : string) | JArr (l : list Json) | JObj (l : list (string * Json)).
(** A text at the top level: the entries of an object in their order, repeated keys
    included, or the elements of an array. *)
Inductive Doc := DObject (fields : list (string * Json)) | DArray (l : list Json) | DOther.
Inductive DeError :=
| MissingField (f : string) | DuplicateField (f : string) | InvalidField (f : string) | InvalidLength (n : nat) | TrailingElements | NotAStruct.

(** ** The envelopes *)

Record Inbound := mkInbound { dest : string; id : option Z; payload : Json }.
Record Outbound := mkOutbound { o_dest : string; o_id : option Z; o_ok : option Json; o_error : option string }.
Record ClientOutbound := mkClientOutbound { c_id : option Z; c_ok : option Json; c_error : option string }.
(** [Serialize]: [Inbound] writes an absent id as null, [Outbound] skips what is absent. *)
Definition id_json (i : option Z) : Json := match i with Some n => JInt n | None => JNull end.
Definition inbound_fields (i : Inbound) : list (string * Json) :=
  [("dest", JStr (dest i)); ("id", id_json (id i)); ("payload", payload i)].
Definition field (k : string) (v : option Json) : list (string * Json) := match v with Some j => [(k, j)] | None => [] end.
Definition outbound_fields (o : Outbound) : list (string * Json) :=
  ("dest", JStr (o_dest o)) :: field "id" (JInt <$> o_id o) ++ field "ok" (o_ok o) ++ field "error" (JStr <$> o_error o).

(** [Deserialize] of the field types: [String], [Option<u64>], [Option<Value>],
    [Option<String>]; a null is an absent value. *)
Definition de_string (f : string) (j : Json) : result string DeError := match j with JStr s => Ok s | _ => Err (InvalidField f) end.
Definition de_id (f : string) (j : Json) : result (option Z) DeError :=
  match j with JNull => Ok None | JInt n => if (0 <=? n) && (n <? 2 ^ 64) then Ok (Some n) else Err (InvalidField f) | _ => Err (InvalidField f) end.
Definition de_value (j : Json) : option Json := match j with JNull => None | _ => Some j end.
Definition de_opt_string (f : string) (j : Json) : result (option string) DeError :=
  match j with JNull => Ok None | JStr s => Ok (Some s) | _ => Err (InvalidField f) end.

(** The derived visitor of a map: known keys once each, others ignored. *)
Fixpoint visit_inbound (fs : list (string * Json)) (d : option string) (i : option (option Z)) (p : option Json) : result Inbound DeError :=
  match fs with
  | [] => match d with Some d => Ok (mkInbound d (default None i) (default JNull p)) | None => Err (MissingField "dest") end
  | (k, v) :: fs' =>
      if bool_decide (k = "dest") then
        match d with
        | Some _ => Err (DuplicateField "dest")
        | None => match de_string "dest" v with Ok s => visit_inbound fs' (Some s) i p | Err e => Err e end
        end
      else if bool_decide (k = "id") then
        match i with
        | Some _ => Err (DuplicateField "id")
        | None => match de_id "id" v with Ok n => visit_inbound fs' d (Some n) p | Err e => Err e end
        end
      else if bool_decide (k = "payload") then
        match p with Some _ => Err (DuplicateField "payload") | None => visit_inbound fs' d i (Some v) end
      else visit_inbound fs' d i p
  end.
Definition Inbound_de (doc : Doc) : result Inbound DeError :=
  match doc with
  | DObject fs => visit_inbound fs None None None
  | DArray [] => Err (InvalidLength 0)
  | DArray (d :: rest) =>
      match de_string "dest" d with
      | Err e => Err e
      | Ok s =>
          match rest with
          | [] => Ok (mkInbound s None JNull)
          | i :: rest' =>
              match de_id "id" i with
              | Err e => Err e
              | Ok n => match rest' with [] => Ok (mkInbound s n JNull) | [p] => Ok (mkInbound s n p) | _ => Err TrailingElements end
              end
          end
      end
  | DOther => Err NotAStruct
  end.
Fixpoint visit_outbound (fs : list (string * Json)) (i : option (option Z)) (o : option (option Json)) (e : option (option string)) : result ClientOutbound DeError :=
  match fs with
  | [] => Ok (mkClientOutbound (default None i) (default None o) (default None e))
  | (k, v) :: fs' =>
      if bool_decide (k = "id") then
        match i with
        | Some _ => Err (DuplicateField "id")
        | None => match de_id "id" v with Ok n => visit_outbound fs' (Some n) o e | Err x => Err x end
        end
      else if bool_decide (k = "ok") then
        match o with Some _ => Err (DuplicateField "ok") | None => visit_outbound fs' i (Some (de_value v)) e end
      else if bool_decide (k = "error") then
        match e with
        | Some _ => Err (DuplicateField "error")
        | None => match de_opt_string "error" v with Ok s => visit_outbound fs' i o (Some s) | Err x => Err x end
        end
      else visit_outbound fs' i o e
  end.
Definition ClientOutbound_de (doc : Doc) : result ClientOutbound DeError :=
  match doc with
  | DObject fs => visit_outbound fs None None None
  | DArray [] => Err (InvalidLength 0)
  | DArray (i :: rest) =>
      match de_id "id" i with
      | Err e => Err e
      | Ok n =>
          match rest with
          | [] => Ok (mkClientOutbound n None None)
          | [o] => Ok (mkClientOutbound n (de_value o) None)
          | [o; e] => match de_opt_string "error" e with Ok s => Ok (mkClientOutbound n (de_value o) s) | Err x => Err x end
          | o :: e :: _ => match de_opt_string "error" e with Ok s => Err TrailingElements | Err x => Err x end
          end
      end
  | DOther => Err NotAStruct
  end.

Section JsonWs.
Context (parse : string → result Doc string) (print : list (string * Json) → string) (de_text : DeError → string).

(** [serde_json::from_str] into an envelope. *)
Definition read_as {A} (de : Doc → result A DeError) (text : string) : result A string :=
  match parse text with Ok doc => map_err de_text (de doc) | Err m => Err m end.

(** ** The server *)

(** [WsReply] *)
Abbreviation WsReply := (option Json).
Definition render_reply (d : string) (i : option Z) (r : result WsReply WsDispatchError) : option string :=
  match r with
  | Ok None => None
  | Ok (Some v) => Some (print (outbound_fields (mkOutbound d i (Some v) None)))
  | Err e => match i with None => None | Some _ => Some (print (outbound_fields (mkOutbound d i None (Some (public_message e))))) end
  end.
(** A route is what its handler returns for a payload, a scope is built or not. *)
Definition Routes : Type := gmap string (Json → result WsReply WsDispatchError).
Definition dispatch_inbound (routes : Routes) (scope : result () string) (i : Inbound) : result WsReply WsDispatchError :=
  match routes !! dest i with
  | Some handler => match scope with Ok _ => handler (payload i) | Err m => Err (InjectError m) end
  | None => Err (NotFound (dest i))
  end.
Definition handle_text (routes : Routes) (scope : result () string) (text : string) : option string :=
  match read_as Inbound_de text with
  | Err _ => None
  | Ok i => render_reply (dest i) (id i) (dispatch_inbound routes scope i)
  end.

(** [build]: later routes replace earlier ones of one destination. *)
Definition build (routes : list (string * (Json → result WsReply WsDispatchError))) : Routes :=
  foldl (λ m r, <[r.1 := r.2]> m) ∅ routes.

(** [serve]: the await points of the loop; [answered] and [sent] record the texts that
    were handled, with the scope each was given, and the replies that went out. *)
Inductive Phase := PSelect | PHandling (text : string) | PReplying (reply : string) | PProbing | PClosing | PEnded.
Record Serve := mkServe { phase : Phase; idle : WsIdle; answered : list (string * result () string); sent : list string }.
Inductive ServeEvent :=
| SvText (now : Z) (text : string) | SvOther (now : Z) | SvClosed | SvIdle (now : Z) | SvShutdown
| SvHandled (scope : result () string) | SvPanics | SvSent (ok : bool).
Definition serve_step (routes : Routes) (ev : ServeEvent) (s : Serve) : option Serve :=
  match phase s, ev with
  | PSelect, SvText now text => Some (mkServe (PHandling text) (on_activity now (idle s)) (answered s) (sent s))
  | PSelect, SvOther now => Some (mkServe PSelect (on_activity now (idle s)) (answered s) (sent s))
  | PSelect, SvClosed => Some (mkServe PEnded (idle s) (answered s) (sent s))
  | PSelect, SvIdle now =>
      if idle_expired now (idle s) then
        let '(dropped, i) := on_timeout now (idle s) in
        Some (mkServe (if dropped then PEnded else PProbing) i (answered s) (sent s))
      else None
  | PSelect, SvShutdown => Some (mkServe PClosing (idle s) (answered s) (sent s))
  | PHandling text, SvHandled scope =>
      Some (mkServe (match handle_text routes scope text with Some r => PReplying r | None => PSelect end) (idle s)
              (answered s ++ [(text, scope)]) (sent s))
  | PHandling _, SvPanics => Some (mkServe PEnded (idle s) (answered s) (sent s))
  | PReplying r, SvSent ok =>
      Some (if ok then mkServe PSelect (idle s) (answered s) (sent s ++ [r]) else mkServe PEnded (idle s) (answered s) (sent s))
  | PProbing, SvSent ok => Some (mkServe (if ok then PSelect else PEnded) (idle s) (answered s) (sent s))
  | PClosing, SvSent _ => Some (mkServe PEnded (idle s) (answered s) (sent s))
  | _, _ => None
  end.
Fixpoint serve_run (routes : Routes) (evs : list ServeEvent) (s : Serve) : option Serve :=
  match evs with [] => Some s | ev :: evs' => s' ← serve_step routes ev s; serve_run routes evs' s' end.
Definition Serve_new (idle_timeout : option Z) (now : Z) : Serve := mkServe PSelect (WsIdle_new idle_timeout now) [] [].

(** ** The client *)

Inductive JsonWsStatus := StatusError.
Definition next_key (counter : Z) : Z := counter.
Definition encode_call {T} (encode_payload : T → result Json string) (destination : string) (key : Z) (v : T) : result WsClientFrame string :=
  result_map (λ p, FText (print (inbound_fields (mkInbound destination (Some key) p)))) (encode_payload v).
Definition encode_send {T} (encode_payload : T → result Json string) (destination : string) (v : T) : result WsClientFrame string :=
  result_map (λ p, FText (print (inbound_fields (mkInbound destination None p)))) (encode_payload v).
(** The prefix a [CodecError::bad_input] prints is the transport's. *)
Definition reply_key (frame : WsClientFrame) : result (option Z) string :=
  match frame with
  | FBinary _ => Err "JSON WebSocket reply was binary"
  | FText t => result_map c_id (read_as ClientOutbound_de t)
  end.
Definition decode_reply {T} (decode_payload : Json → result T string) (frame : WsClientFrame) : result T (ClientError JsonWsStatus) :=
  match frame with
  | FBinary _ => Err (EDecode "JSON WebSocket reply was binary")
  | FText t =>
      match read_as ClientOutbound_de t with
      | Err m => Err (EDecode m)
      | Ok o =>
          match c_error o with
          | Some e => Err (ERemote StatusError e)
          | None =>
              match c_ok o with
              | None => Err (EDecode "ws reply contained neither ok nor error")
              | Some v => map_err EDecode (decode_payload v)
              end
          end
      end
  end.

(** ** Calls from end to end *)

Definition u64 (n : Z) : Prop := 0 ≤ n < 2 ^ 64.
(** The text of an object is read as that object. *)
Definition reads_back (fs : list (string * Json)) : Prop := parse (print fs) = Ok (DObject fs).
Lemma de_id_back f i : (∀ n, i = Some n → u64 n) → de_id f (id_json i) = Ok i.
Proof.
  intros Hi. destruct i as [n|]; [|done]. destruct (Hi n eq_refl) as [H0 H1]. simpl.
  by rewrite (proj2 (Z.leb_le 0 n) H0), (proj2 (Z.ltb_lt n (2 ^ 64)) H1).
Qed.
(** What a client encodes the server reads. *)
Lemma inbound_read_back i : (∀ n, id i = Some n → u64 n) → reads_back (inbound_fields i) →
  read_as Inbound_de (print (inbound_fields i)) = Ok i.
Proof.
  intros Hi Hp. unfold read_as. rewrite Hp. unfold inbound_fields, Inbound_de.
  cbn -[de_id id_json]. rewrite de_id_back by done. by destruct i.
Qed.
(** What a server renders the client reads, a null value as an absent one. *)
Lemma outbound_read_back o : (∀ n, o_id o = Some n → u64 n) → reads_back (outbound_fields o) →
  read_as ClientOutbound_de (print (outbound_fields o)) = Ok (mkClientOutbound (o_id o) (o_ok o ≫= de_value) (o_error o)).
Proof.
  intros Hi Hp. unfold read_as. rewrite Hp. unfold ClientOutbound_de, outbound_fields.
  destruct o as [d i v e]. cbn -[de_id] in *.
  assert (Hid : ∀ n, i = Some n → de_id "id" (JInt n) = Ok (Some n)) by (intros n ->; by apply (de_id_back "id" (Some n))).
  destruct i as [n|]; cbn -[de_id]; [rewrite (Hid n eq_refl)|]; destruct v as [v|], e as [e|]; done.
Qed.
(** What the caller gets for the result of a handler. *)
Definition caller_result {T} (decode_payload : Json → result T string) (r : result Json WsDispatchError) : result T (ClientError JsonWsStatus) :=
  match r with
  | Ok v => map_err EDecode (decode_payload v)
  | Err e => Err (ERemote StatusError (public_message e))
  end.
(** The envelope of a result. *)
Definition reply_envelope (d : string) (key : Z) (r : result Json WsDispatchError) : Outbound :=
  mkOutbound d (Some key) (result_ok r) (match r with Err e => Some (public_message e) | Ok _ => None end).
(** The result of a dispatch as it is answered: a handler of send mode gives none. *)
Definition dispatch_answer (res : result WsReply WsDispatchError) : option (result Json WsDispatchError) :=
  match res with Ok None => None | Ok (Some v) => Some (Ok v) | Err e => Some (Err e) end.
(** What the caller is told: a null is read as no value at all. *)
Definition caller_told {T} (decode_payload : Json → result T string) (r : result Json WsDispatchError) : result T (ClientError JsonWsStatus) :=
  match r with
  | Ok JNull => Err (EDecode "ws reply contained neither ok nor error")
  | _ => caller_result decode_payload r
  end.
(** C29: A call from end to end: the frame a client sends is read as the destination, key and
    payload it was made from, and dispatched to the route of that destination. If the route
    answers, the reply carries the key, and the caller gets the handler's value, the
    public text of its error or, when the value is null, an error that says there was
    neither; if it does not answer, nothing is sent back. The texts of the two envelopes
    must read back. *)
Theorem call_roundtrip {A T} (enc : A → result Json string) (dec : Json → result T string) routes scope d key a p :
  u64 key → enc a = Ok p → reads_back (inbound_fields (mkInbound d (Some key) p)) →
  (∀ r, dispatch_answer (dispatch_inbound routes scope (mkInbound d (Some key) p)) = Some r → reads_back (outbound_fields (reply_envelope d key r))) →
  ∃ call, encode_call enc d key a = Ok (FText call) ∧
    match dispatch_answer (dispatch_inbound routes scope (mkInbound d (Some key) p)) with
    | None => handle_text routes scope call = None
    | Some r => ∃ reply, handle_text routes scope call = Some reply ∧
        reply_key (FText reply) = Ok (Some key) ∧ decode_reply dec (FText reply) = caller_told dec r
    end.
Proof.
  intros Hk He Hin Hout. unfold encode_call. rewrite He. simpl. eexists. split; [done|].
  assert (Hid : ∀ n, Some key = Some n → u64 n) by (by intros n [= <-]).
  unfold handle_text. rewrite (inbound_read_back (mkInbound d (Some key) p) Hid Hin). cbn [dest id].
  destruct (dispatch_inbound routes scope _) as [[v|]|e]; cbn [dispatch_answer] in *; [|done|];
    specialize (Hout _ eq_refl); unfold reply_key, decode_reply.
  - exists (print (outbound_fields (reply_envelope d key (Ok v)))). split; [done|].
    rewrite (outbound_read_back (reply_envelope d key (Ok v)) Hid Hout). split; [done|]. by destruct v.
  - exists (print (outbound_fields (reply_envelope d key (Err e)))). split; [done|].
    by rewrite (outbound_read_back (reply_envelope d key (Err e)) Hid Hout).
Qed.
(** A handler that answers with null, as one that returns unit or an absent value does:
    the caller is told the reply holds neither a value nor an error. *)
Theorem null_reply_is_an_error {T} (dec : Json → result T string) routes scope d key p :
  u64 key → dispatch_inbound routes scope (mkInbound d (Some key) p) = Ok (Some JNull) →
  reads_back (inbound_fields (mkInbound d (Some key) p)) → reads_back (outbound_fields (mkOutbound d (Some key) (Some JNull) None)) →
  ∃ reply, handle_text routes scope (print (inbound_fields (mkInbound d (Some key) p))) = Some reply ∧
    decode_reply dec (FText reply) = Err (EDecode "ws reply contained neither ok nor error").
Proof.
  intros Hk Hr Hin Hout. assert (Hid : ∀ n, Some key = Some n → u64 n) by (by intros n [= <-]).
  eexists. split.
  - unfold handle_text. rewrite (inbound_read_back (mkInbound d (Some key) p) Hid Hin). cbn [dest id]. rewrite Hr. done.
  - unfold decode_reply. by rewrite (outbound_read_back (mkOutbound d (Some key) (Some JNull) None) Hid Hout).
Qed.
(** Nobody is answered who did not ask: a frame without an id gets no error, and a reply
    only if a handler of request mode gave one. *)
Theorem uncorrelated_errors_are_silent routes scope text i e :
  read_as Inbound_de text = Ok i → id i = None → dispatch_inbound routes scope i = Err e → handle_text routes scope text = None.
Proof. intros Ht Hi He. unfold handle_text. by rewrite Ht, He, Hi. Qed.

(** ** The serve loop *)

Definition reply_of (routes : Routes) (a : string * result () string) : option string := handle_text routes a.2 a.1.
Definition unsent (s : Serve) : list string := match phase s with PReplying r => [r] | _ => [] end.
(** The replies of a connection are those of its frames, in the order the frames came,
    each sent at most once; only the last may be missing, when its send is under way
    or failed. *)
Theorem replies_in_order routes timeout now evs s :
  serve_run routes evs (Serve_new timeout now) = Some s →
  ∃ lost, omap (reply_of routes) (answered s) = sent s ++ lost ∧ (length lost ≤ 1)%nat ∧
    (phase s ≠ PEnded → lost = unsent s).
Proof.
  assert (Hgen : ∀ evs s0 s, serve_run routes evs s0 = Some s →
    (∃ lost, omap (reply_of routes) (answered s0) = sent s0 ++ lost ∧ (length lost ≤ 1)%nat ∧ (phase s0 ≠ PEnded → lost = unsent s0)) →
    ∃ lost, omap (reply_of routes) (answered s) = sent s ++ lost ∧ (length lost ≤ 1)%nat ∧ (phase s ≠ PEnded → lost = unsent s)).
  { clear. induction evs as [|ev evs IH]; intros s0 s Hx Hinv; [by simplify_eq/=|]. simpl in Hx.
    destruct (serve_step routes ev s0) as [s1|] eqn:Hs; [|done]. simpl in Hx. apply (IH s1 s Hx). clear IH Hx.
    destruct Hinv as (lost & Ho & Hl & Hp). unfold serve_step in Hs. unfold unsent in Hp.
    destruct (phase s0) as [|text|r| | |] eqn:Hph; [..|done]; specialize (Hp ltac:(done)); subst lost;
      destruct ev as [t tx|t| |t| |sc| |ok]; try done; try (injection Hs as <-).
    - exists []. by split_and!.
    - exists []. by split_and!.
    - exists []. by split_and!.
    - destruct (idle_expired t (idle s0)); [|done]. destruct (on_timeout t (idle s0)) as [dr i]. injection Hs as <-.
      exists []. split_and!; [done|done|]. by destruct dr.
    - exists []. by split_and!.
    - exists (match handle_text routes sc text with Some r => [r] | None => [] end).
      cbn [answered sent]. rewrite omap_app, Ho. simpl. rewrite !app_nil_r. unfold reply_of, unsent. simpl.
      destruct (handle_text routes sc text); split_and!; try done; simpl; lia.
    - exists []. by split_and!.
    - destruct ok.
      + exists []. split_and!; [|simpl; lia|done]. simpl. by rewrite Ho, app_nil_r.
      + exists [r]. by split_and!.
    - exists []. split_and!; [done|done|]. by destruct ok.
    - exists []. by split_and!. }
  intros Hx. apply (Hgen evs _ s Hx). exists []. split_and!; [done|simpl; lia|done].
Qed.
End JsonWs.

(** ** Concrete runs *)

Module JsonRuns.
Definition toy_print (fs : list (string * Json)) : string :=
  match fs with
  | [_; _; ("payload", _)] => "call"
  | [_; _; ("ok", JNull)] => "null"
  | [_; _; ("ok", _)] => "ok"
  | _ => "error"
  end.
Definition call_sample : Inbound := mkInbound "echo" (Some 1) (JStr "hi").
Definition toy_parse (s : string) : result Doc string :=
  if bool_decide (s = "call") then Ok (DObject (inbound_fields call_sample))
  else if bool_decide (s = "null") then Ok (DObject (outbound_fields (mkOutbound "echo" (Some 1) (Some JNull) None)))
  else if bool_decide (s = "ok") then Ok (DObject (outbound_fields (mkOutbound "echo" (Some 1) (Some (JStr "hi")) None)))
  else Err "expected value".
Definition toy_text (e : DeError) : string := "bad frame".
Definition echo_routes : Routes := build [("echo", λ p, Ok (Some p))].
Definition null_routes : Routes := build [("echo", λ _, Ok (Some JNull))].
Definition as_string (j : Json) : result string string := match j with JStr s => Ok s | _ => Err "expected a string" end.
End JsonRuns.
Import JsonRuns.

Lemma call_roundtrip_witness :
  (∃ call reply, encode_call toy_print Ok "echo" 1 (JStr "hi") = Ok (FText call) ∧
    handle_text toy_parse toy_print toy_text echo_routes (Ok tt) call = Some reply ∧
    decode_reply toy_parse toy_text as_string (FText reply) = Ok "hi") ∧
  (∃ call reply, encode_call toy_print Ok "echo" 1 (JStr "hi") = Ok (FText call) ∧
    handle_text toy_parse toy_print toy_text null_routes (Ok tt) call = Some reply ∧
    decode_reply toy_parse toy_text as_string (FText reply) = Err (EDecode "ws reply contained neither ok nor error")).
Proof.
  assert (u64 1) as Hk by (unfold u64; lia). split.
  - destruct (call_roundtrip toy_parse toy_print toy_text Ok as_string echo_routes (Ok tt) "echo" 1 (JStr "hi") (JStr "hi") Hk eq_refl eq_refl)
      as (call & Hc & reply & Hr & _ & Hd); [intros r Hr; vm_compute in Hr; injection Hr as <-; reflexivity|].
    exists call, reply. split; [exact Hc|]. split; [exact Hr|exact Hd].
  - destruct (call_roundtrip toy_parse toy_print toy_text Ok as_string null_routes (Ok tt) "echo" 1 (JStr "hi") (JStr "hi") Hk eq_refl eq_refl)
      as (call & Hc & reply & Hr & _ & Hd); [intros r Hr; vm_compute in Hr; injection Hr as <-; reflexivity|].
    exists call, reply. split; [exact Hc|]. split; [exact Hr|exact Hd].
Defined.
Lemma null_reply_is_an_error_witness :
  ∃ reply, handle_text toy_parse toy_print toy_text null_routes (Ok tt) (toy_print (inbound_fields call_sample)) = Some reply ∧
    decode_reply toy_parse toy_text as_string (FText reply) = Err (EDecode "ws reply contained neither ok nor error").
Proof.
  apply (null_reply_is_an_error toy_parse toy_print toy_text as_string null_routes (Ok tt) "echo" 1 (JStr "hi"));
    try (vm_compute; reflexivity). unfold u64. lia.
Defined.
Definition anonymous_parse (s : string) : result Doc string := Ok (DObject (inbound_fields (mkInbound "gone" None JNull))).
Lemma uncorrelated_errors_are_silent_witness :
  handle_text anonymous_parse toy_print toy_text echo_routes (Ok tt) "x" = None.
Proof.
  apply (uncorrelated_errors_are_silent anonymous_parse toy_print toy_text echo_routes (Ok tt) "x" (mkInbound "gone" None JNull) (NotFound "gone"));
    vm_compute; reflexivity.
Defined.
Definition serve_sample : list ServeEvent := [SvText 1 "call"; SvHandled (Ok tt); SvSent true; SvText 2 "call"; SvHandled (Err "no scope"); SvSent false].
Definition served : Serve := default (Serve_new None 0) (serve_run toy_parse toy_print toy_text echo_routes serve_sample (Serve_new None 0)).
Lemma replies_in_order_witness :
  sent served = ["ok"] ∧ ∃ lost, omap (reply_of toy_parse toy_print toy_text echo_routes) (answered served) = sent served ++ lost ∧
    (length lost ≤ 1)%nat ∧ (phase served ≠ PEnded → lost = unsent served).
Proof.
  split; [vm_compute; reflexivity|].
  apply (replies_in_order toy_parse toy_print toy_text echo_routes None 0 serve_sample served). vm_compute. reflexivity.
Defined.

(** ** The client over this protocol: witnesses of [WsClient] *)

Abbreviation json_run := (exec_all (Status := JsonWsStatus) next_key (encode_call toy_print Ok) (encode_send toy_print Ok) (reply_key toy_parse toy_text)).
Definition json_events : list (@Event Json) :=
  [ERequest "echo" (JStr "hi"); ESend "echo" (JStr "hi"); EEnqueue 0; EEnqueue 1; ETake; EWritten true; ERead (RFrame (FText "ok"));
   ETake; EWritten true; EReturn 0; EReturn 1].
Definition json_client : Client (Key := Z) (Status := JsonWsStatus) := default Client_new (json_run json_events Client_new).
Example json_call_returns :
  (WsClient.c_state <$> calls json_client) = [CReturned (Ok (Some (FText "ok"))); CReturned (Ok None)].
Proof. vm_compute. reflexivity. Qed.
Lemma json_reachable : reachable (Status := JsonWsStatus) next_key (encode_call toy_print Ok) (encode_send toy_print Ok) (reply_key toy_parse toy_text) json_client.
Proof. exists json_events. vm_compute. reflexivity. Qed.
Lemma replies_match_calls_witness :
  ∃ c, calls json_client !! 0%nat = Some c ∧
    answer_ok (reply_key toy_parse toy_text) json_client 0 (KRequest 1) (Ok (Some (FText "ok"))).
Proof.
  eexists. split; [vm_compute; reflexivity|].
  apply (replies_match_calls next_key (encode_call toy_print Ok) (encode_send toy_print Ok) (reply_key toy_parse toy_text) json_client 0
    (mkCall (KRequest 1) (Some (FText "call")) (CReturned (Ok (Some (FText "ok")))) (Some (Ok (Some (FText "ok"))))));
    [apply json_reachable|vm_compute; reflexivity|reflexivity].
Defined.
Lemma commands_in_order_witness :
  accepted json_client = [0; 1]%nat ∧
  ∃ rest, accepted json_client = written json_client ++ in_hand (actor json_client) ++ queue json_client ++ rest ∧ (actor json_client ≠ AGone → rest = []).
Proof.
  split; [vm_compute; reflexivity|].
  apply (commands_in_order next_key (encode_call toy_print Ok) (encode_send toy_print Ok) (reply_key toy_parse toy_text) json_client json_reachable).
Defined.
Definition json_cut : list (@Event Json) := [ERequest "echo" (JStr "hi"); EEnqueue 0; ERead RClosed].
Definition json_dead : Client (Key := Z) (Status := JsonWsStatus) := default Client_new (json_run json_cut Client_new).
Lemma json_dead_reachable : reachable (Status := JsonWsStatus) next_key (encode_call toy_print Ok) (encode_send toy_print Ok) (reply_key toy_parse toy_text) json_dead.
Proof. exists json_cut. vm_compute. reflexivity. Qed.
Lemma no_call_hangs_after_the_actor_witness :
  is_Some (exec (Status := JsonWsStatus) next_key (encode_call toy_print Ok) (encode_send toy_print Ok) (reply_key toy_parse toy_text) (EReturn 0) json_dead).
Proof.
  apply (no_call_hangs_after_the_actor next_key (encode_call toy_print Ok) (encode_send toy_print Ok) (reply_key toy_parse toy_text) json_dead 0
    (mkCall (KRequest 1) (Some (FText "call")) CAwaiting None)); [apply json_dead_reachable|vm_compute; reflexivity..].
Defined.
Lemma request_keys_unique_witness :
  length (keys json_client) = 1%nat ∧ NoDup (keys json_client).
Proof.
  split; [vm_compute; reflexivity|].
  apply (request_keys_unique next_key (encode_call toy_print Ok) (encode_send toy_print Ok) (reply_key toy_parse toy_text) json_events json_client);
    [by intros m n _ _ Heq|vm_compute; reflexivity|simpl; lia].
Defined.
(** The caller of a request gave up: its entry is gone with the next command. *)
Definition json_abandoned : Client (Key := Z) (Status := JsonWsStatus) :=
  default Client_new (json_run [ERequest "echo" (JStr "hi"); EEnqueue 0; ETake; EWritten true; EDropCall 0; ERequest "echo" (JStr "hi"); EEnqueue 1;
                                ETake; EWritten true; ERequest "echo" (JStr "hi"); EEnqueue 2] Client_new).
Lemma pending_is_pruned_witness :
  ∃ s', exec (Status := JsonWsStatus) next_key (encode_call toy_print Ok) (encode_send toy_print Ok) (reply_key toy_parse toy_text) ETake json_abandoned = Some s' ∧
    pending s' !! 2 = Some 1%nat ∧ open_call s' 1 = true.
Proof.
  eexists. split; [vm_compute; reflexivity|]. split; [vm_compute; reflexivity|].
  eapply (pending_is_pruned next_key (encode_call toy_print Ok) (encode_send toy_print Ok) (reply_key toy_parse toy_text) json_abandoned _ 2 1);
    vm_compute; reflexivity.
Defined.
