(* ===== verification/StompClient.v ===== *)
(** * StompClient: the STOMP client transport

    Models [crates/axum-stomp/src/client/transport.rs] and [client.rs]: the handshake, the
    actor task that owns the socket, and the calls of the client handles. The client is
    a transition system; a step is one move of a call, one command the actor takes or
    finishes, one message it reads, or one step of its end.

    The table of requests is shared: a call puts its slot there before it sends, and
    removes it when it ends, whatever the reason ([RequestGuard]). The acknowledgement
    of any other command travels with the command. What a frame's bytes mean is the
    parser's; [parse] is an argument. *)
From stdpp Require Import relations.
From S2P Require Import Prelude PubSub WsHost WsClient StompServer.

(** ** Options and frames *)

Inductive StompStatus := StatusError | StatusProtocol | StatusHandler.
Abbreviation Error := (ClientError StompStatus).
Definition DEFAULT_REQUEST_TIMEOUT : Z := 30 * 10 ^ 9.
Record StompConnectOptions := mkOptions {
  opt_host : option string; opt_login : option string; opt_passcode : option string; opt_headers : Headers;
  request_timeout : option Z }.
Definition options_default : StompConnectOptions := mkOptions None None None [] (Some DEFAULT_REQUEST_TIMEOUT).
(** The builder methods; [add_header] and the others of the browser do the same. *)
Definition with_host (h : string) (o : StompConnectOptions) : StompConnectOptions := mkOptions (Some h) (opt_login o) (opt_passcode o) (opt_headers o) (request_timeout o).
Definition with_login (l : string) (o : StompConnectOptions) : StompConnectOptions := mkOptions (opt_host o) (Some l) (opt_passcode o) (opt_headers o) (request_timeout o).
Definition with_passcode (p : string) (o : StompConnectOptions) : StompConnectOptions := mkOptions (opt_host o) (opt_login o) (Some p) (opt_headers o) (request_timeout o).
Definition with_header (n v : string) (o : StompConnectOptions) : StompConnectOptions := mkOptions (opt_host o) (opt_login o) (opt_passcode o) (opt_headers o ++ [(n, v)]) (request_timeout o).
Definition with_request_timeout (t : option Z) (o : StompConnectOptions) : StompConnectOptions := mkOptions (opt_host o) (opt_login o) (opt_passcode o) (opt_headers o) t.
Definition options_debug (o : StompConnectOptions) : option string * option string * option string * list string :=
  (opt_host o, opt_login o, (λ _, "[REDACTED]") <$> opt_passcode o, (opt_headers o).*1).
(** [connect_frame]: what the CONNECT is built from. *)
Definition connect_frame (o : StompConnectOptions) : string * list string * option string * option string * Headers :=
  (default "localhost" (opt_host o), ["1.2"; "1.1"], opt_login o, opt_passcode o, opt_headers o).

Inductive ServerFrameIn :=
| SfConnected | SfMessage (subscription : string) (custom : Headers) (b : StompBody) | SfReceipt (id : string) | SfError (body : option string).
Definition message_correlation_id (custom : Headers) : option string := header_value custom "correlation-id".
Definition message_is_error (custom : Headers) : bool := existsb (λ p, bool_decide (p.1 = MESSAGE_ERROR_HEADER)) custom.
(** [is_heartbeat] of the client: the empty text is not one. *)
Definition client_is_heartbeat (s : string) : bool := bool_decide (s = String nl "" ∨ s = String cr (String nl "")).
Inductive ReadEvent := RText (s : string) | RBinary (s : string) | ROther | RFailed (m : string) | RClosed.

Section StompClient.
Context (parse : string → option ServerFrameIn) (timeout : option Z).

(** ** The handshake *)

Definition classify_handshake (s : string) : result () Error :=
  match parse s with
  | Some SfConnected => Ok tt
  | Some (SfError b) => Err (ERemote StatusError (default "" b))
  | _ => Err (ERemote StatusProtocol "expected CONNECTED")
  end.
(** [await_connected] over what the socket delivers; [None] while it waits. *)
Fixpoint await_connected (l : list ReadEvent) : option (result () Error) :=
  match l with
  | [] => None
  | RText s :: l' => if client_is_heartbeat s then await_connected l' else Some (classify_handshake s)
  | RBinary s :: _ => Some (classify_handshake s)
  | ROther :: l' => await_connected l'
  | RFailed m :: _ => Some (Err (net_err m))
  | RClosed :: _ => Some (Err EConnectionClosed)
  end.

(** ** Calls and commands *)

Inductive CallKind := KSend | KRequest (corr : string) | KSubscribe (id : string) | KDisconnect.
(** A request is answered with a body, the others with unit; one type carries both. *)
Abbreviation Answer := (result (option StompBody) Error).
Inductive CallState := CSending | CWaiting | CReturned (r : Answer) | CDropped.
(** [items] and [seen]: the channel of a subscription and what its stream returned. *)
Record Call := mkCall { k_kind : CallKind; k_state : CallState; k_slot : option Answer; items : list StompBody; seen : list StompBody; stream_open : bool }.
Inductive Command := DoSend (h : nat) | DoRequest (h : nat) (corr : string) | DoSubscribe (h : nat) (id : string)
| DoUnsubscribe (id : string) | DoDisconnect (h : option nat).
Inductive Actor := ASelect | AWriting (c : Command) | AFailing | ADropping | AGone.
(** [closed]: the receiver of the commands was closed. *)
Record Client := mkClient {
  calls : list Call; queue : list Command; requests : gmap string nat; subs : gmap string nat; receipts : gmap string nat;
  actor : Actor; closed : bool; next_id : Z; handles : bool; messages : list (string * Headers * StompBody) }.
Definition Client_new : Client := mkClient [] [] ∅ ∅ ∅ ASelect false 1 true [].
Definition CHANNEL_DEPTH : nat := 64.

Definition set_call (h : nat) (f : Call → Call) (s : Client) : Client :=
  mkClient (alter f h (calls s)) (queue s) (requests s) (subs s) (receipts s) (actor s) (closed s) (next_id s) (handles s) (messages s).
(** A call that fails or is dropped takes the receiver of its items with it. *)
Definition closes (st : CallState) : bool := match st with CReturned (Err _) | CDropped => true | _ => false end.
Definition close_stream (c : Call) : Call := mkCall (k_kind c) (k_state c) (k_slot c) [] (seen c) false.
Definition set_state (st : CallState) (c : Call) : Call :=
  let c' := mkCall (k_kind c) st (k_slot c) (items c) (seen c) (stream_open c) in if closes st then close_stream c' else c'.
Definition receiver_open (c : Call) : bool := match k_state c with CSending | CWaiting => true | _ => false end.
Definition fill (r : Answer) (c : Call) : Call :=
  if receiver_open c then mkCall (k_kind c) (k_state c) (Some r) (items c) (seen c) (stream_open c) else c.
Definition answer (h : nat) (r : Answer) : Client → Client := set_call h (fill r).
Definition set_queue (q : list Command) (s : Client) : Client :=
  mkClient (calls s) q (requests s) (subs s) (receipts s) (actor s) (closed s) (next_id s) (handles s) (messages s).
Definition set_requests (m : gmap string nat) (s : Client) : Client :=
  mkClient (calls s) (queue s) m (subs s) (receipts s) (actor s) (closed s) (next_id s) (handles s) (messages s).
Definition set_subs (m : gmap string nat) (s : Client) : Client :=
  mkClient (calls s) (queue s) (requests s) m (receipts s) (actor s) (closed s) (next_id s) (handles s) (messages s).
Definition set_receipts (m : gmap string nat) (s : Client) : Client :=
  mkClient (calls s) (queue s) (requests s) (subs s) m (actor s) (closed s) (next_id s) (handles s) (messages s).
Definition set_actor (a : Actor) (s : Client) : Client :=
  mkClient (calls s) (queue s) (requests s) (subs s) (receipts s) a (closed s) (next_id s) (handles s) (messages s).
Definition close (s : Client) : Client :=
  mkClient (calls s) (queue s) (requests s) (subs s) (receipts s) (actor s) true (next_id s) (handles s) (messages s).

(** [is_connected]; the receiver is dropped with the actor. *)
Definition is_connected (s : Client) : bool := negb (closed s) && match actor s with AGone => false | _ => true end.
Definition try_send (c : Command) (s : Client) : Client :=
  if is_connected s && (length (queue s) <? CHANNEL_DEPTH)%nat then set_queue (queue s ++ [c]) s else s.
(** The guard of a request: its slot leaves the table with the call. *)
Definition drop_guard (k : CallKind) (s : Client) : Client :=
  match k with KRequest corr => set_requests (delete corr (requests s)) s | _ => s end.
Definition finish (h : nat) (k : CallKind) (st : CallState) (s : Client) : Client := drop_guard k (set_call h (set_state st) s).
Definition command_of (h : nat) (k : CallKind) : Command :=
  match k with KSend => DoSend h | KRequest corr => DoRequest h corr | KSubscribe id => DoSubscribe h id | KDisconnect => DoDisconnect (Some h) end.
(** Whose acknowledgement a command carries. *)
Definition acks (c : Command) : list nat := match c with DoSend h | DoSubscribe h _ | DoDisconnect (Some h) => [h] | _ => [] end.
Definition in_hand (a : Actor) : list Command := match a with AWriting c => [c] | _ => [] end.
Definition sender_alive (h : nat) (k : CallKind) (s : Client) : bool :=
  match k with
  | KRequest corr => bool_decide (requests s !! corr = Some h)
  | _ => bool_decide (h ∈ concat (acks <$> (queue s ++ in_hand (actor s))))
  end.

(** ** [route] *)

Definition fail_requests_with (e : Error) (s : Client) : Client :=
  set_requests ∅ (foldr (λ h, answer h (Err e)) s ((map_to_list (requests s)).*2)).
Definition fail_receipts_with (e : Error) (s : Client) : Client :=
  set_receipts ∅ (foldr (λ h, answer h (Err e)) s ((map_to_list (receipts s)).*2)).
Definition deliver (b : StompBody) (c : Call) : Call :=
  if stream_open c && (length (items c) <? CHANNEL_DEPTH)%nat
  then mkCall (k_kind c) (k_state c) (k_slot c) (items c ++ [b]) (seen c) (stream_open c) else c.
Definition record_message (sub : string) (custom : Headers) (b : StompBody) (s : Client) : Client :=
  mkClient (calls s) (queue s) (requests s) (subs s) (receipts s) (actor s) (closed s) (next_id s) (handles s) (messages s ++ [(sub, custom, b)]).
(** The awaiting call a message answers, if it is a reply. *)
Definition reply_target (sub : string) (custom : Headers) (s : Client) : option (string * nat) :=
  if bool_decide (sub = REPLY_SUBSCRIPTION_ID) then
    corr ← message_correlation_id custom; h ← requests s !! corr; Some (corr, h)
  else None.
Definition reply_outcome (custom : Headers) (b : StompBody) : Answer :=
  if message_is_error custom then Err (ERemote StatusHandler (body_bytes b)) else Ok (Some b).
(** The flag is [Break]. *)
Definition route (text : string) (s : Client) : bool * Client :=
  match parse text with
  | None | Some SfConnected => (false, s)
  | Some (SfMessage sub custom b) =>
      let s := record_message sub custom b s in
      (false, match reply_target sub custom s with
              | Some (corr, h) => answer h (reply_outcome custom b) (set_requests (delete corr (requests s)) s)
              | None => match subs s !! sub with Some h => set_call h (deliver b) s | None => s end
              end)
  | Some (SfReceipt i) =>
      (false, match receipts s !! i with Some h => answer h (Ok None) (set_receipts (delete i (receipts s)) s) | None => s end)
  | Some (SfError b) =>
      let e := ERemote StatusError (default "" b) in (true, fail_requests_with e (fail_receipts_with e s))
  end.

(** ** The moves *)

Inductive Start := StartSend | StartRequest | StartSubscribe | StartDisconnect.
Inductive Event :=
| EStart (k : Start)
| EEnqueue (h : nat)                 (* [tx.send] goes through, or fails *)
| EReturn (h : nat)
| ETimeout (h : nat)
| EDropCall (h : nat)
| EDisconnectNow
| ERecvItem (h : nat)                (* a stream returns its next item *)
| EDropStream (h : nat)              (* a subscription is dropped: [unsubscribe] *)
| EDropHandles
| ETake
| EWritten (r : result () string)
| ERead (m : ReadEvent)
| ELast                              (* every sender is dropped and the queue is empty *)
| EFail                              (* [fail_receipts], [fail_requests] *)
| EGone.                             (* what the actor owns is dropped, the receiver too *)
Definition numbered (prefix : string) (n : Z) : string := prefix +:+ "-" +:+ pretty n.
Definition add_call (k : CallKind) (n : Z) (s : Client) : Client :=
  let h := length (calls s) in
  mkClient (calls s ++ [mkCall k CSending None [] [] true]) (queue s)
    (match k with KRequest corr => <[corr := h]> (requests s) | _ => requests s end)
    (subs s) (receipts s) (actor s) (closed s) n (handles s) (messages s).
Definition bump (n : Z) : Z := (n + 1) mod 2 ^ 64.
Definition start (k : Start) (s : Client) : Client :=
  match k with
  | StartSend => add_call KSend (next_id s) s
  | StartRequest => add_call (KRequest (numbered "corr" (next_id s))) (bump (next_id s)) s
  | StartSubscribe => add_call (KSubscribe (numbered "sub" (next_id s))) (bump (next_id s)) s
  | StartDisconnect => if is_connected s then add_call KDisconnect (next_id s) s else s
  end.
(** The result of a send that fails, and of an acknowledgement that was dropped: a
    disconnect takes both for success. *)
Definition gone_answer (k : CallKind) : Answer := match k with KDisconnect => Ok None | _ => Err EConnectionClosed end.
(** Nothing holds a handle: no call is under way and no stream is open. *)
Definition released (c : Call) : bool :=
  negb (receiver_open c) && match k_kind c, k_state c with KSubscribe _, CReturned (Ok _) => negb (stream_open c) | _, _ => true end.
Definition exec (ev : Event) (s : Client) : option Client :=
  match ev with
  | EStart k => if handles s then Some (start k s) else None
  | EEnqueue h =>
      c ← calls s !! h;
      match k_state c with
      | CSending =>
          if is_connected s then
            if (length (queue s) <? CHANNEL_DEPTH)%nat
            then Some (set_call h (set_state CWaiting) (set_queue (queue s ++ [command_of h (k_kind c)]) s)) else None
          else Some (finish h (k_kind c) (CReturned (gone_answer (k_kind c))) s)
      | _ => None
      end
  | EReturn h =>
      c ← calls s !! h;
      match k_state c, k_slot c with
      | CWaiting, Some r => Some (finish h (k_kind c) (CReturned r) s)
      | CWaiting, None =>
          if sender_alive h (k_kind c) s then None else Some (finish h (k_kind c) (CReturned (gone_answer (k_kind c))) s)
      | _, _ => None
      end
  | ETimeout h =>
      c ← calls s !! h;
      match k_kind c, timeout with
      | KRequest _, Some _ => if receiver_open c then Some (finish h (k_kind c) (CReturned (Err WsClient.ETimeout)) s) else None
      | _, _ => None
      end
  | EDropCall h =>
      c ← calls s !! h;
      if receiver_open c then Some (finish h (k_kind c) CDropped s) else None
  | EDisconnectNow => if handles s then Some (try_send (DoDisconnect None) s) else None
  | ERecvItem h =>
      c ← calls s !! h;
      match k_kind c, k_state c, items c with
      | KSubscribe _, CReturned (Ok _), b :: l => Some (set_call h (λ c, mkCall (k_kind c) (k_state c) (k_slot c) l (seen c ++ [b]) (stream_open c)) s)
      | _, _, _ => None
      end
  | EDropStream h =>
      c ← calls s !! h;
      match k_kind c, k_state c with
      | KSubscribe i, CReturned (Ok _) => if stream_open c then Some (try_send (DoUnsubscribe i) (set_call h close_stream s)) else None
      | _, _ => None
      end
  | EDropHandles =>
      if handles s && forallb released (calls s) then
        let s := try_send (DoDisconnect None) s in
        Some (mkClient (calls s) (queue s) (requests s) (subs s) (receipts s) (actor s) (closed s) (next_id s) false (messages s))
      else None
  | ETake =>
      match actor s, queue s with
      | ASelect, c :: q =>
          let s := set_actor (AWriting c) (set_queue q s) in
          Some match c with
               | DoSubscribe h i => set_subs (<[i := h]> (subs s)) s
               | DoUnsubscribe i => set_subs (delete i (subs s)) s
               | DoDisconnect _ => close s
               | _ => s
               end
      | _, _ => None
      end
  | EWritten r =>
      match actor s with
      | AWriting c =>
          let out : Answer := match r with Ok _ => Ok None | Err m => Err (net_err m) end in
          Some match c with
               | DoSend h | DoSubscribe h _ => answer h out (set_actor ASelect s)
               | DoRequest _ corr =>
                   let s := set_actor ASelect s in
                   match r with
                   | Ok _ => s
                   | Err _ => match requests s !! corr with
                              | Some h => answer h out (set_requests (delete corr (requests s)) s)
                              | None => s
                              end
                   end
               | DoUnsubscribe _ => set_actor ASelect s
               | DoDisconnect (Some h) => answer h out (set_actor AFailing s)
               | DoDisconnect None => set_actor AFailing s
               end
      | _ => None
      end
  | ERead m =>
      match actor s with
      | ASelect =>
          let routed t := let '(break, s') := route t s in if break : bool then set_actor AFailing s' else s' in
          Some match m with
               | RText t => if client_is_heartbeat t then s else routed t
               | RBinary t => routed t
               | ROther => s
               | RFailed _ | RClosed => set_actor AFailing s
               end
      | _ => None
      end
  | ELast => match actor s, queue s with ASelect, [] => if handles s then None else Some (set_actor AFailing s) | _, _ => None end
  | EFail =>
      match actor s with
      | AFailing => Some (set_actor ADropping (fail_requests_with EConnectionClosed (fail_receipts_with EConnectionClosed s)))
      | _ => None
      end
  | EGone => match actor s with ADropping => Some (set_actor AGone (set_subs ∅ (set_queue [] s))) | _ => None end
  end.
Fixpoint exec_all (evs : list Event) (s : Client) : option Client :=
  match evs with [] => Some s | ev :: evs' => s' ← exec ev s; exec_all evs' s' end.
Definition reachable (s : Client) : Prop := ∃ evs, exec_all evs Client_new = Some s.
Lemma stompclient_run_ind (P : Client → Prop) :
  P Client_new → (∀ ev s s', P s → exec ev s = Some s' → P s') → ∀ s, reachable s → P s.
Proof.
  intros H0 Hs s [evs Hx]. revert Hx. generalize Client_new, H0. clear H0. induction evs as [|ev evs IH]; intros s0 H0 Hx;
    [by simplify_eq/=|]. simpl in Hx. destruct (exec ev s0) as [s1|] eqn:E; [|done]. simpl in Hx. eapply IH; [|exact Hx]. by eapply Hs.
Qed.

(** ** The invariant *)

Definition replied (s : Client) (corr : string) (custom : Headers) (b : StompBody) : Prop :=
  (REPLY_SUBSCRIPTION_ID, custom, b) ∈ messages s ∧ message_correlation_id custom = Some corr.
(** What an answer says about the messages that were read. *)
Definition answer_ok (s : Client) (k : CallKind) (r : Answer) : Prop :=
  match k, r with
  | KRequest corr, Ok (Some b) => ∃ custom, replied s corr custom b ∧ message_is_error custom = false
  | KRequest corr, Err (ERemote StatusHandler m) => ∃ custom b, replied s corr custom b ∧ message_is_error custom = true ∧ m = body_bytes b
  | KRequest _, Ok None => False
  | KRequest _, Err _ => True
  | _, Ok (Some _) => False
  | _, _ => True
  end.
(** The bodies read for a subscription. *)
Definition bodies_of (k : CallKind) (l : list (string * Headers * StompBody)) : list StompBody :=
  match k with KSubscribe i => (filter (λ m, m.1.1 = i) l).*2 | _ => [] end.
Record call_fine (s : Client) (c : Call) : Prop := {
  cf_answers r : k_slot c = Some r ∨ k_state c = CReturned r → answer_ok s (k_kind c) r;
  cf_stream : seen c ++ items c `sublist_of` bodies_of (k_kind c) (messages s);
}.
Definition kind_at (s : Client) (h : nat) : option CallKind := k_kind <$> calls s !! h.
(** Acknowledgements go to calls that are not requests. *)
Definition not_request (s : Client) (h : nat) : Prop := ∃ k, kind_at s h = Some k ∧ ∀ corr, k ≠ KRequest corr.
Definition command_ok (s : Client) (c : Command) : Prop :=
  Forall (not_request s) (acks c) ∧ match c with DoSubscribe h i => kind_at s h = Some (KSubscribe i) | _ => True end.
Record client_ok (s : Client) : Prop := {
  co_calls h c : calls s !! h = Some c → call_fine s c;
  co_requests corr h : requests s !! corr = Some h →
    ∃ c, calls s !! h = Some c ∧ k_kind c = KRequest corr ∧ receiver_open c = true ∧ k_slot c = None;
  co_subs i h : subs s !! i = Some h → kind_at s h = Some (KSubscribe i);
  co_receipts : receipts s = ∅;
  co_queue : Forall (command_ok s) (queue s ++ in_hand (actor s));
  co_gone : actor s = AGone → queue s = [];
}.

Definition keeps_kinds (s s' : Client) : Prop := ∀ h k, kind_at s h = Some k → kind_at s' h = Some k.
Lemma command_ok_keeps s s' c : keeps_kinds s s' → command_ok s c → command_ok s' c.
Proof.
  intros Hk [Ha Hc]. split; [|destruct c; auto]. eapply Forall_impl; [exact Ha|]. intros h (k & Hh & Hn). exists k. auto.
Qed.
Lemma kind_at_set_call h f s i : (∀ c, k_kind (f c) = k_kind c) → kind_at (set_call h f s) i = kind_at s i.
Proof.
  intros Hf. unfold kind_at. simpl. destruct (decide (i = h)) as [->|Hne]; [|by rewrite list_lookup_alter_ne].
  rewrite list_lookup_alter_eq. destruct (calls s !! h); simpl; [by rewrite Hf|done].
Qed.
Lemma answer_ok_messages s s' k r : messages s ⊆ messages s' → answer_ok s k r → answer_ok s' k r.
Proof.
  intros Hm. unfold answer_ok, replied. destruct k as [|corr|i|], r as [[b|]|e]; try done.
  - intros (custom & [H1 H2] & H3). exists custom. split_and!; [set_solver|done|done].
  - destruct e as [| | |code m| |]; try done. destruct code; try done. intros (custom & b & [H1 H2] & H3). exists custom, b. split_and!; [set_solver|done|apply H3..].
Qed.
Lemma call_fine_messages s s' c : messages s ⊆ messages s' → bodies_of (k_kind c) (messages s) `sublist_of` bodies_of (k_kind c) (messages s') →
  call_fine s c → call_fine s' c.
Proof. intros Hm Hb [Ha Hs]. split; [|by etrans]. intros r Hr. eapply answer_ok_messages; [exact Hm|by apply Ha]. Qed.
Lemma call_fine_same s s' c : messages s' = messages s → call_fine s c → call_fine s' c.
Proof. intros Hm. apply call_fine_messages; by rewrite Hm. Qed.
(** One call changes, and neither its kind nor what is read of it is lost. *)
Lemma ok_set_call h f s :
  client_ok s → (∀ c, k_kind (f c) = k_kind c) →
  (∀ c, calls s !! h = Some c → call_fine s (f c)) →
  (∀ c corr, calls s !! h = Some c → requests s !! corr = Some h → receiver_open (f c) = true ∧ k_slot (f c) = None) →
  client_ok (set_call h f s).
Proof.
  intros [Hc Hr Hs Hre Hq Hg] Hk Hf Hreq. split; [| | |done| |done].
  - intros i c Hi. simpl in Hi. destruct (decide (i = h)) as [->|Hne].
    + rewrite list_lookup_alter_eq in Hi. apply fmap_Some in Hi as (c0 & Hc0 & ->). by apply (call_fine_same s), Hf.
    + rewrite list_lookup_alter_ne in Hi by done. by apply (call_fine_same s), (Hc i).
  - intros corr i Hi. simpl in *. destruct (Hr corr i Hi) as (c & Hci & Hck & Ho & Hsl). destruct (decide (i = h)) as [->|Hne].
    + exists (f c). rewrite list_lookup_alter_eq, Hci. split; [done|]. split; [by rewrite Hk|]. by eapply Hreq.
    + exists c. by rewrite list_lookup_alter_ne.
  - intros i j Hi. rewrite kind_at_set_call by done. by apply Hs.
  - eapply Forall_impl; [exact Hq|]. intros c. apply command_ok_keeps. intros j k. by rewrite kind_at_set_call.
Qed.
Lemma fill_kind r c : k_kind (fill r c) = k_kind c.
Proof. unfold fill. by destruct (receiver_open c). Qed.
Lemma ok_answer h r s :
  client_ok s → (∀ c, calls s !! h = Some c → answer_ok s (k_kind c) r) → (∀ corr, requests s !! corr ≠ Some h) → client_ok (answer h r s).
Proof.
  intros Hok Hr Hn. apply ok_set_call; [done|apply fill_kind| |intros c corr _ Hco; by destruct (Hn corr)].
  intros c Hc. pose proof (co_calls _ Hok h c Hc) as Hfine. unfold fill. destruct (receiver_open c); [|done].
  destruct Hfine as [Ha Hst]. split; [|done]. intros r' [[= <-]|Hstate]; [exact (Hr c Hc)|]. simpl in *. apply Ha. by right.
Qed.
Lemma ok_requests_sub m s : client_ok s → m ⊆ requests s → client_ok (set_requests m s).
Proof.
  intros [Hc Hr Hs Hre Hq Hg] Hm. split; [|intros corr h Hh; apply Hr; by eapply lookup_weaken|done..].
  intros h c Hh. by apply (call_fine_same s), (Hc h).
Qed.
Lemma ok_finish h c st s :
  client_ok s → calls s !! h = Some c → (∀ r, st = CReturned r → answer_ok s (k_kind c) r) →
  client_ok (finish h (k_kind c) st s).
Proof.
  intros Hok Hc Hst.
  assert (Hfine : ∀ c', k_kind c' = k_kind c → calls s !! h = Some c' → call_fine s (set_state st c')).
  { intros c' _ Hc'. assert (c' = c) as -> by congruence. destruct (co_calls _ Hok h c Hc) as [Ha Hsub]. unfold set_state.
    destruct (closes st); split; simpl; try (intros r [Hr|Hr]; [apply Ha; by left|by apply Hst]); try done.
    rewrite app_nil_r. etrans; [|exact Hsub]. by apply sublist_inserts_r. }
  assert (Hd : client_ok (set_call h (set_state st) (drop_guard (k_kind c) s))).
  { apply ok_set_call.
    - destruct (k_kind c); try done. apply ok_requests_sub; [done|apply delete_subseteq].
    - intros c'. unfold set_state. by destruct (closes st).
    - intros c' Hc'. assert (Hc'' : calls s !! h = Some c') by by destruct (k_kind c).
      apply (call_fine_same s); [by destruct (k_kind c)|by apply Hfine; [congruence|]].
    - intros c' corr Hc' Hco. exfalso. assert (Hco' : requests s !! corr = Some h).
      { destruct (k_kind c); try done. simpl in Hco. by apply lookup_delete_Some in Hco as [_ Hco]. }
      destruct (co_requests _ Hok corr h Hco') as (c0 & Hc0 & Hk0 & _). assert (c0 = c) as -> by congruence.
      rewrite Hk0 in Hco. simpl in Hco. by rewrite lookup_delete_eq in Hco. }
  unfold finish. by destruct (k_kind c).
Qed.
(** What the actor keeps changes, calls and messages do not. *)
Lemma ok_fields s s' :
  client_ok s → calls s' = calls s → messages s' = messages s → requests s' ⊆ requests s →
  (∀ i h, subs s' !! i = Some h → kind_at s h = Some (KSubscribe i)) → receipts s' = ∅ →
  Forall (command_ok s) (queue s' ++ in_hand (actor s')) → (actor s' = AGone → queue s' = []) → client_ok s'.
Proof.
  intros [Hc Hr Hs Hre Hq Hg] Hcs Hm Hreq Hsub Hrec Hcmd Hgone.
  assert (Hka : ∀ h, kind_at s' h = kind_at s h) by (intros h; unfold kind_at; by rewrite Hcs).
  split; [| | |done| |done].
  - intros h c Hh. rewrite Hcs in Hh. by apply (call_fine_same s), (Hc h).
  - intros corr h Hh. rewrite Hcs. apply Hr. by eapply lookup_weaken.
  - intros i h Hh. rewrite Hka. by apply Hsub.
  - eapply Forall_impl; [exact Hcmd|]. intros c. apply command_ok_keeps. intros h k. by rewrite Hka.
Qed.
(** Several calls are failed at once. *)
Lemma ok_fail_many hs e s :
  client_ok s → (∀ m, e ≠ ERemote StatusHandler m) → (∀ h, h ∈ hs → ∀ corr, requests s !! corr ≠ Some h) →
  client_ok (foldr (λ h, answer h (Err e)) s hs).
Proof.
  intros Hok He. induction hs as [|h hs IH]; intros Hn; [done|]. cbn [foldr]. apply ok_answer.
  - apply IH. intros i Hi. apply Hn. by right.
  - intros c _. destruct (k_kind c); try done. destruct e as [| | |code m| |]; try done. destruct code; try done. by destruct (He m).
  - intros corr. assert (Hreq : requests (foldr (λ h, answer h (Err e)) s hs) = requests s) by (clear; by induction hs).
    rewrite Hreq. apply Hn. apply list_elem_of_here.
Qed.
Lemma foldr_frame hs e s :
  let s' := foldr (λ h, answer h (Err e)) s hs in
  requests s' = requests s ∧ receipts s' = receipts s ∧ actor s' = actor s ∧ queue s' = queue s ∧ messages s' = messages s ∧ subs s' = subs s.
Proof. by induction hs. Qed.
Lemma foldr_requests hs e m s :
  set_requests m (foldr (λ h, answer h (Err e)) s hs) = foldr (λ h, answer h (Err e)) (set_requests m s) hs.
Proof. induction hs as [|h hs IH]; [done|]. simpl. by rewrite <- IH. Qed.
Lemma ok_fail_requests e s : client_ok s → (∀ m, e ≠ ERemote StatusHandler m) → client_ok (fail_requests_with e s).
Proof.
  intros Hok He. unfold fail_requests_with. rewrite foldr_requests. apply ok_fail_many; [|done|intros; simpl; by rewrite lookup_empty].
  apply ok_requests_sub; [done|apply map_empty_subseteq].
Qed.
Lemma fail_receipts_none e s : client_ok s → fail_receipts_with e s = s.
Proof. intros Hok. unfold fail_receipts_with. pose proof (co_receipts _ Hok) as Hr. rewrite Hr, map_to_list_empty. simpl. destruct s. simpl in *. by subst. Qed.
Lemma ok_add_call k n s : client_ok s → client_ok (add_call k n s).
Proof.
  intros [Hc Hr Hs Hre Hq Hg].
  assert (Hka : ∀ h k0, kind_at s h = Some k0 → kind_at (add_call k n s) h = Some k0).
  { intros h k0 (c & Hh & Hk)%fmap_Some. unfold kind_at. simpl. by rewrite (lookup_app_l_Some _ _ _ _ Hh), Hk. }
  assert (Hnew : calls (add_call k n s) !! length (calls s) = Some (mkCall k CSending None [] [] true)).
  { simpl. by rewrite lookup_app_r, Nat.sub_diag. }
  split; [| |intros i h Hh; by apply Hka, Hs|done| |done].
  - intros h c [Hh|[_ [_ <-]%list_lookup_singleton_Some]]%lookup_app_Some; [by apply (call_fine_same s), (Hc h)|].
    split; simpl; [naive_solver|apply sublist_nil_l].
  - intros corr h Hh. assert (Hold : requests s !! corr = Some h → ∃ c, calls (add_call k n s) !! h = Some c ∧ k_kind c = KRequest corr ∧ receiver_open c = true ∧ k_slot c = None).
    { intros Hh'. destruct (Hr corr h Hh') as (c & Hc' & Hrest). exists c. split; [by apply lookup_app_l_Some|done]. }
    simpl in Hh. destruct k as [|corr0|i|]; try by apply Hold. destruct (decide (corr = corr0)) as [->|Hne].
    + rewrite lookup_insert_eq in Hh. injection Hh as <-. by eexists.
    + rewrite lookup_insert_ne in Hh by done. by apply Hold.
  - eapply Forall_impl; [exact Hq|]. intros c. by apply command_ok_keeps.
Qed.
Lemma command_ok_call s h c : calls s !! h = Some c → command_ok s (command_of h (k_kind c)).
Proof.
  intros Hc. assert (Hk : kind_at s h = Some (k_kind c)) by (unfold kind_at; by rewrite Hc).
  destruct (k_kind c) eqn:E; split; simpl; try done; try constructor; try constructor; eexists; split; try exact Hk; done.
Qed.
Lemma ok_queue q s : client_ok s → Forall (command_ok s) q → (actor s = AGone → q = []) → client_ok (set_queue q s).
Proof.
  intros Hok Hq Hg. apply (ok_fields s); try done; try apply Hok. simpl. apply Forall_app. split; [done|].
  pose proof (co_queue _ Hok) as H. by apply Forall_app in H as [_ H].
Qed.
Lemma queue_ok s : client_ok s → Forall (command_ok s) (queue s) ∧ Forall (command_ok s) (in_hand (actor s)).
Proof. intros Hok. by apply Forall_app, co_queue. Qed.
Lemma connected_not_gone s : is_connected s = true → actor s ≠ AGone.
Proof. unfold is_connected. intros [_ H]%andb_true_iff Ha. by rewrite Ha in H. Qed.
Lemma ok_try_send c s : client_ok s → command_ok s c → client_ok (try_send c s).
Proof.
  intros Hok Hc. unfold try_send. destruct (is_connected s && _) eqn:E; [|done]. apply andb_true_iff in E as [E _].
  apply ok_queue; [done|apply Forall_app; split; [by apply queue_ok|by constructor]|intros Ha; by apply connected_not_gone in E].
Qed.
Lemma plain_command s c : acks c = [] → command_ok s c.
Proof. intros Ha. split; [rewrite Ha; constructor|]. by destruct c. Qed.
Lemma answer_ok_plain s k r : (∀ b, r ≠ Ok (Some b)) → (∀ corr, k ≠ KRequest corr) → answer_ok s k r.
Proof. intros Hb Hk. destruct k as [|corr| |], r as [[b|]|e]; try done; try (by destruct (Hb b)); by destruct (Hk corr). Qed.
Lemma answer_ok_error s k e : (∀ m, e ≠ ERemote StatusHandler m) → answer_ok s k (Err e).
Proof. intros He. destruct k; try done. destruct e as [| | |code m| |]; try done. destruct code; try done. by destruct (He m). Qed.
Lemma gone_answer_ok s k : answer_ok s k (gone_answer k).
Proof. by destruct k. Qed.
(** An acknowledgement of a command that is no request. *)
Lemma ok_ack h r s : client_ok s → not_request s h → (∀ b, r ≠ Ok (Some b)) → client_ok (answer h r s).
Proof.
  intros Hok (k & Hk & Hn) Hb. apply ok_answer; [done|..].
  - intros c Hc. unfold kind_at in Hk. rewrite Hc in Hk. injection Hk as <-. by apply answer_ok_plain.
  - intros corr Hco. destruct (co_requests _ Hok corr h Hco) as (c & Hc & Hkc & _). unfold kind_at in Hk. rewrite Hc in Hk.
    injection Hk as <-. by destruct (Hn corr).
Qed.
Lemma ok_actor a s : client_ok s → in_hand a = [] → a ≠ AGone → client_ok (set_actor a s).
Proof.
  intros Hok Ha Hg. apply (ok_fields s); try done; try apply Hok. simpl. rewrite Ha, app_nil_r. by apply queue_ok.
Qed.
Lemma ok_record sub custom b s : client_ok s → client_ok (record_message sub custom b s).
Proof.
  intros [Hc Hr Hs Hre Hq Hg]. split; try done. intros h c Hh. apply (call_fine_messages s); [simpl; set_solver| |by apply (Hc h)].
  simpl. destruct (k_kind c); try done. simpl. rewrite filter_app, fmap_app. by apply sublist_inserts_r.
Qed.
Lemma record_stream sub custom b s h c i :
  kind_at s h = Some (KSubscribe i) → calls s !! h = Some c → i = sub → seen c ++ items c `sublist_of` bodies_of (k_kind c) (messages s) →
  (seen c ++ items c) ++ [b] `sublist_of` bodies_of (k_kind c) (messages (record_message sub custom b s)).
Proof.
  intros Hk Hc -> Hs. unfold kind_at in Hk. rewrite Hc in Hk. injection Hk as Hk. rewrite Hk in *. simpl in *.
  rewrite filter_app, fmap_app. apply sublist_app; [done|]. rewrite filter_cons_True by done. done.
Qed.
Lemma ok_route text s : client_ok s → client_ok (route text s).2.
Proof.
  intros Hok. unfold route. destruct (parse text) as [[|sub custom b|i|b]|]; try done; simpl.
  - pose proof (ok_record sub custom b s Hok) as Hok1. destruct (reply_target sub custom _) as [[corr h]|] eqn:Ht.
    + unfold reply_target in Ht. case_bool_decide as Hsub; [|done]. destruct (message_correlation_id custom) as [corr0|] eqn:Hcor; [|done].
      simpl in Ht. destruct (requests s !! corr0) as [h0|] eqn:Hreq; [|done]. simpl in Ht. injection Ht as -> ->.
      destruct (co_requests _ Hok corr h Hreq) as (c & Hc & Hk & _ & _).
      apply ok_answer; [apply ok_requests_sub; [done|apply delete_subseteq]|..].
      * intros c0 Hc0. simpl in Hc0. assert (c0 = c) as -> by congruence. rewrite Hk. unfold reply_outcome.
        assert (Hrep : replied (record_message sub custom b s) corr custom b).
        { split; [simpl; subst; apply elem_of_app; right; by apply list_elem_of_singleton|done]. }
        destruct (message_is_error custom) eqn:He; simpl; [by exists custom, b|by exists custom].
      * intros corr1 Hc1. simpl in Hc1. apply lookup_delete_Some in Hc1 as [Hne Hc1].
        destruct (co_requests _ Hok corr1 h Hc1) as (c1 & Hc1' & Hk1 & _). congruence.
    + destruct (subs s !! sub) as [h|] eqn:Hsub; [|done]. pose proof (co_subs _ Hok sub h Hsub) as Hk.
      apply ok_set_call; [done|intros c; unfold deliver; by destruct (stream_open c && _)| |].
      * intros c Hc. simpl in Hc. pose proof (co_calls _ Hok1 h c Hc) as Hfine. unfold deliver.
        destruct (stream_open c && _); [|done]. destruct Hfine as [Ha _]. split; [done|]. simpl. rewrite app_assoc.
        apply (record_stream sub custom b s h c sub); try done. by apply (co_calls _ Hok h c Hc).
      * intros c corr Hc Hco. destruct (co_requests _ Hok corr h Hco) as (c0 & Hc0 & Hk0 & _).
        unfold kind_at in Hk. rewrite Hc0 in Hk. simpl in Hk. congruence.
  - rewrite (co_receipts _ Hok), lookup_empty. done.
  - rewrite fail_receipts_none by done. by apply ok_fail_requests.
Qed.
Lemma sublist_unread (c : Call) (l : list StompBody) : seen c ++ items c `sublist_of` l → seen c ++ [] `sublist_of` l.
Proof. rewrite app_nil_r. intros H. etrans; [by apply sublist_inserts_r|exact H]. Qed.
Lemma ok_close_stream h s : client_ok s → (∀ c, calls s !! h = Some c → ∃ i, k_kind c = KSubscribe i) → client_ok (set_call h close_stream s).
Proof.
  intros Hok Hk. apply ok_set_call; [done|done|..].
  - intros c Hc. destruct (co_calls _ Hok h c Hc) as [Ha Hs]. split; [done|]. simpl. by eapply sublist_unread.
  - intros c corr Hc Hco. destruct (co_requests _ Hok corr h Hco) as (c0 & Hc0 & Hk0 & _). destruct (Hk c Hc). congruence.
Qed.
Lemma ok_written r s s' : client_ok s → exec (EWritten r) s = Some s' → client_ok s'.
Proof.
  intros Hok Hx. simpl in Hx. destruct (actor s) as [|c| | |] eqn:Ha; try done. injection Hx as <-.
  destruct (queue_ok s Hok) as [_ Hh]. rewrite Ha in Hh. simpl in Hh. rewrite Forall_singleton in Hh. destruct Hh as [Hacks Hsub].
  set (out := match r with Ok _ => Ok None | Err m => Err (net_err m) end : Answer).
  assert (Hout : ∀ b, out ≠ Ok (Some b)) by (intros b; unfold out; by destruct r).
  assert (Hsel : client_ok (set_actor ASelect s)) by by apply ok_actor.
  assert (Hfail : client_ok (set_actor AFailing s)) by by apply ok_actor.
  assert (Hack : ∀ h s1, h ∈ acks c → client_ok s1 → calls s1 = calls s → client_ok (answer h out s1)).
  { intros h s1 Hin Hok1 Hcs. apply ok_ack; [done| |done]. rewrite Forall_forall in Hacks. destruct (Hacks h Hin) as (k & Hk & Hn).
    exists k. unfold kind_at in *. by rewrite Hcs. }
  destruct c as [h|h corr|h i|i|[h|]]; try done; try (apply Hack; [simpl; apply list_elem_of_here|done|done]).
  destruct r as [u|m]; [done|]. simpl. destruct (requests s !! corr) as [h0|] eqn:Hreq; [|done].
  destruct (co_requests _ Hok corr h0 Hreq) as (c & Hc & Hk & _). apply ok_answer.
  - apply ok_requests_sub; [done|apply delete_subseteq].
  - intros c0 _. by apply answer_ok_error.
  - intros corr1 Hc1. simpl in Hc1. apply lookup_delete_Some in Hc1 as [Hne Hc1].
    destruct (co_requests _ Hok corr1 h0 Hc1) as (c1 & Hc1' & Hk1 & _). congruence.
Qed.
Lemma exec_stomp_client_ok ev s s' : client_ok s → exec ev s = Some s' → client_ok s'.
Proof.
  intros Hok Hx. destruct ev as [k|h|h|h|h| |h|h| | |r|m| | |]; [..|by eapply ok_written| | | |]; simpl in Hx.
  - destruct (handles s); [|done]. injection Hx as <-. destruct k; simpl; try by apply ok_add_call.
    destruct (is_connected s); [by apply ok_add_call|done].
  - destruct (calls s !! h) as [c|] eqn:Hc; [|done]. simpl in Hx. destruct (k_state c) eqn:Hst; try done.
    destruct (is_connected s) eqn:Hcon; [|injection Hx as <-; apply ok_finish; [done|done|by intros r [= <-]; apply gone_answer_ok]].
    destruct (length (queue s) <? CHANNEL_DEPTH)%nat; [|done]. injection Hx as <-. apply ok_set_call; [|done|..].
    + apply ok_queue; [done|apply Forall_app; split; [by apply queue_ok|constructor; [by apply command_ok_call|constructor]]|].
      intros Ha. by apply connected_not_gone in Hcon.
    + intros c0 Hc0. destruct (co_calls _ Hok h c0 Hc0) as [Hans Hs]. split; [|done]. intros r [Hr|Hr]; [apply Hans; by left|done].
    + intros c0 corr Hc0 Hco. split; [done|]. destruct (co_requests _ Hok corr h Hco) as (c1 & Hc1 & _ & _ & Hsl). simpl in *. congruence.
  - destruct (calls s !! h) as [c|] eqn:Hc; [|done]. simpl in Hx. destruct (k_state c); try done.
    destruct (k_slot c) as [r|] eqn:Hsl; [|destruct (sender_alive h (k_kind c) s); [done|]]; injection Hx as <-; (apply ok_finish; [done|done|]).
    + intros r0 [= <-]. apply (co_calls _ Hok h c Hc). by left.
    + intros r0 [= <-]. apply gone_answer_ok.
  - destruct (calls s !! h) as [c|] eqn:Hc; [|done]. simpl in Hx. destruct (k_kind c) eqn:Hk; try done. destruct timeout; [|done].
    destruct (receiver_open c); [|done]. injection Hx as <-.
    assert (Hfin : client_ok (finish h (k_kind c) (CReturned (Err WsClient.ETimeout)) s)).
    { apply ok_finish; [done|done|]. intros r [= <-]. by apply answer_ok_error. }
    by rewrite Hk in Hfin.
  - destruct (calls s !! h) as [c|] eqn:Hc; [|done]. simpl in Hx. destruct (receiver_open c); [|done]. injection Hx as <-. by apply ok_finish.
  - destruct (handles s); [|done]. injection Hx as <-. apply ok_try_send; [done|by apply plain_command].
  - destruct (calls s !! h) as [c|] eqn:Hc; [|done]. simpl in Hx. destruct (k_kind c) as [| |i|] eqn:Hk; try done.
    destruct (k_state c) as [| |[r|e]|]; try done. destruct (items c) as [|b l] eqn:Hi; [done|]. injection Hx as <-. apply ok_set_call; [done|done|..].
    + intros c0 Hc0. assert (c0 = c) as -> by congruence. destruct (co_calls _ Hok h c Hc) as [Ha Hs]. split; [done|].
      simpl. rewrite Hi in Hs. by rewrite <- app_assoc.
    + intros c0 corr Hc0 Hco. destruct (co_requests _ Hok corr h Hco) as (c1 & Hc1 & Hk1 & _). congruence.
  - destruct (calls s !! h) as [c|] eqn:Hc; [|done]. simpl in Hx. destruct (k_kind c) as [| |i|] eqn:Hk; try done.
    destruct (k_state c) as [| |[r|e]|]; try done. destruct (stream_open c); [|done]. injection Hx as <-.
    apply ok_try_send; [|by apply plain_command]. apply ok_close_stream; [done|]. intros c0 Hc0. exists i. congruence.
  - destruct (handles s && forallb released (calls s)); [|done]. injection Hx as <-.
    assert (Hok1 : client_ok (try_send (DoDisconnect None) s)) by (apply ok_try_send; [done|by apply plain_command]).
    apply (ok_fields (try_send (DoDisconnect None) s)); try done; apply Hok1.
  - destruct (actor s) eqn:Ha; try done. destruct (queue s) as [|c q] eqn:Hq; [done|]. injection Hx as <-.
    destruct (queue_ok s Hok) as [Hqs _]. rewrite Hq in Hqs. apply Forall_cons in Hqs as [Hc Hqs].
    apply (ok_fields s); try done; try (by destruct c); try (by destruct c; apply Hok).
    + intros i h Hh. pose proof (co_subs _ Hok i h) as Hold. destruct c as [h0|h0 corr|h0 i0|i0|o]; simpl in Hh; try by apply Hold.
      * destruct (decide (i = i0)) as [->|Hne]; [|rewrite lookup_insert_ne in Hh by done; by apply Hold].
        rewrite lookup_insert_eq in Hh. injection Hh as <-. apply Hc.
      * apply lookup_delete_Some in Hh as [_ Hh]. by apply Hold.
    + assert (Hgoal : Forall (command_ok s) (q ++ [c])) by (apply Forall_app; split; [done|by constructor]). by destruct c.
  - destruct (actor s) eqn:Ha; try done. injection Hx as <-.
    assert (Hrt : ∀ t, client_ok (let '(break, s') := route t s in if break : bool then set_actor AFailing s' else s')).
    { intros t. pose proof (ok_route t s Hok) as Hr. destruct (route t s) as [[] s1]; [by apply ok_actor|done]. }
    destruct m as [t|t| |e|]; [destruct (client_is_heartbeat t); [done|]|..]; try apply Hrt; try done; by apply ok_actor.
  - destruct (actor s) eqn:Ha; try done. destruct (queue s) eqn:Hq; [|done]. destruct (handles s); [done|]. injection Hx as <-. by apply ok_actor.
  - destruct (actor s) eqn:Ha; try done. injection Hx as <-. apply ok_actor; [|done|done]. rewrite fail_receipts_none by done. by apply ok_fail_requests.
  - destruct (actor s) eqn:Ha; try done. injection Hx as <-. by apply (ok_fields s); try done; try apply Hok.
Qed.
Lemma stomp_client_ok_reachable s : reachable s → client_ok s.
Proof.
  apply stompclient_run_ind; [|intros ev s1 s2 Hok Hx; by eapply exec_stomp_client_ok].
  by split.
Qed.

(** ** Theorems *)

(** A request that returns a body, or the error of a handler, got it from a message on
    the reply subscription that carried its own correlation id. *)
Theorem request_answers_are_replies s h c corr r :
  reachable s → calls s !! h = Some c → k_kind c = KRequest corr → k_state c = CReturned r → answer_ok s (KRequest corr) r.
Proof.
  intros Hr Hc Hk Hst. rewrite <- Hk. apply (cf_answers _ _ (co_calls _ (stomp_client_ok_reachable s Hr) h c Hc)). by right.
Qed.
(** C30: The table of requests never leaks: a slot in it belongs to a call that is under way
    and unanswered. *)
Theorem request_table_never_leaks s corr h :
  reachable s → requests s !! corr = Some h → ∃ c, calls s !! h = Some c ∧ k_kind c = KRequest corr ∧ receiver_open c = true ∧ k_slot c = None.
Proof. intros Hr. apply (co_requests _ (stomp_client_ok_reachable s Hr)). Qed.
(** What a stream returns are bodies of its subscription's messages, in the order they
    were read; some may be missing, when they came while its buffer was full. *)
Theorem streams_in_order s h c :
  reachable s → calls s !! h = Some c → seen c ++ items c `sublist_of` bodies_of (k_kind c) (messages s).
Proof. intros Hr Hc. apply (cf_stream _ _ (co_calls _ (stomp_client_ok_reachable s Hr) h c Hc)). Qed.
(** No call ever waits for a receipt. *)
Theorem receipts_never_awaited s : reachable s → receipts s = ∅.
Proof. intros Hr. apply (co_receipts _ (stomp_client_ok_reachable s Hr)). Qed.

(** A request whose slot is still in the table. *)
Definition unanswered (s : Client) (h : nat) (c : Call) : bool :=
  match k_kind c with KRequest corr => bool_decide (requests s !! corr = Some h) | _ => false end.
(** Once the actor is gone every call that is under way can end, but for a request whose
    slot is still in the table: that one ends only by its timeout. *)
Theorem calls_end_with_the_connection s h c :
  reachable s → actor s = AGone → calls s !! h = Some c →
  match k_state c with
  | CSending => is_Some (exec (EEnqueue h) s)
  | CWaiting => if unanswered s h c then exec (EReturn h) s = None ∧ (is_Some (exec (ETimeout h) s) ↔ is_Some timeout)
                else is_Some (exec (EReturn h) s)
  | _ => True
  end.
Proof.
  intros Hr Ha Hc. pose proof (stomp_client_ok_reachable s Hr) as Hok. pose proof (co_gone _ Hok Ha) as Hq.
  assert (Hdead : is_connected s = false) by (unfold is_connected; rewrite Ha; by rewrite andb_false_r).
  destruct (k_state c) eqn:Hst; [..|done|done].
  - simpl. rewrite Hc. simpl. by rewrite Hst, Hdead.
  - destruct (unanswered s h c) eqn:Hl; unfold unanswered in Hl.
    + destruct (k_kind c) as [|corr| |] eqn:Hk; try done. apply bool_decide_eq_true in Hl.
      destruct (co_requests _ Hok corr h Hl) as (c0 & Hc0 & _ & Ho & Hsl). assert (c0 = c) as -> by congruence.
      simpl. rewrite Hc. simpl. rewrite Hst, Hsl, Hk. simpl. rewrite bool_decide_true by done. split; [done|].
      rewrite Ho. destruct timeout; [by split; intros; eexists|by split; intros []].
    + simpl. rewrite Hc. simpl. rewrite Hst. destruct (k_slot c) as [r|]; [by eexists|].
      assert (Hs : sender_alive h (k_kind c) s = false); [|by rewrite Hs; eexists].
      destruct (k_kind c); try done; simpl; rewrite Hq, Ha; by apply bool_decide_eq_false, not_elem_of_nil.
Qed.

(** *** Which requests may be late *)

Definition shrinks (s s' : Client) : Prop := requests s' ⊆ requests s ∧ length (calls s') = length (calls s).
Lemma shrinks_refl s : shrinks s s.
Proof. done. Qed.
Lemma shrinks_trans s1 s2 s3 : shrinks s1 s2 → shrinks s2 s3 → shrinks s1 s3.
Proof. intros [H1 L1] [H2 L2]. split; [by etrans|congruence]. Qed.
Lemma shrinks_same s s' : requests s' = requests s → length (calls s') = length (calls s) → shrinks s s'.
Proof. intros Hr Hl. split; [by rewrite Hr|done]. Qed.
Lemma shrinks_call h f s : shrinks s (set_call h f s).
Proof. apply shrinks_same; [done|]. simpl. by rewrite length_alter. Qed.
Lemma shrinks_requests m s : m ⊆ requests s → shrinks s (set_requests m s).
Proof. by split. Qed.
Lemma shrinks_finish h k st s : shrinks s (finish h k st s).
Proof.
  eapply shrinks_trans; [apply (shrinks_call h (set_state st))|]. unfold finish. destruct k; try apply shrinks_refl.
  apply shrinks_requests, delete_subseteq.
Qed.
Lemma shrinks_try_send c s : shrinks s (try_send c s).
Proof. unfold try_send. destruct (is_connected s && _); [by apply shrinks_same|apply shrinks_refl]. Qed.
Lemma shrinks_fail hs e s : shrinks s (foldr (λ h, answer h (Err e)) s hs).
Proof. induction hs as [|h hs IH]; [apply shrinks_refl|]. eapply shrinks_trans; [exact IH|apply shrinks_call]. Qed.
Lemma shrinks_fail_all e s : shrinks s (fail_requests_with e (fail_receipts_with e s)).
Proof.
  assert (H1 : shrinks s (fail_receipts_with e s)).
  { eapply shrinks_trans; [apply (shrinks_fail ((map_to_list (receipts s)).*2) e)|]. by apply shrinks_same. }
  eapply shrinks_trans; [exact H1|]. generalize (fail_receipts_with e s). intros s1.
  eapply shrinks_trans; [apply (shrinks_fail ((map_to_list (requests s1)).*2) e)|]. apply shrinks_requests, map_empty_subseteq.
Qed.
Lemma shrinks_reply h r corr s : shrinks s (answer h r (set_requests (delete corr (requests s)) s)).
Proof. eapply shrinks_trans; [apply shrinks_requests, delete_subseteq|apply shrinks_call]. Qed.
Lemma shrinks_route t s : shrinks s (route t s).2.
Proof.
  unfold route. destruct (parse t) as [[|sub custom b|i|b]|]; try apply shrinks_refl; simpl.
  - eapply (shrinks_trans _ (record_message sub custom b s)); [by apply shrinks_same|].
    destruct (reply_target sub custom _) as [[corr h]|]; [exact (shrinks_reply h _ corr (record_message sub custom b s))|].
    destruct (subs s !! sub); [apply shrinks_call|apply shrinks_refl].
  - destruct (receipts s !! i); [|apply shrinks_refl]. eapply shrinks_trans; [|apply shrinks_call]. by apply shrinks_same.
  - apply shrinks_fail_all.
Qed.
Lemma exec_requests ev s s' :
  exec ev s = Some s' → (∀ k, ev ≠ EStart k) → shrinks s s'.
Proof.
  intros Hx Hn. destruct ev as [k|h|h|h|h| |h|h| | |r|m| | |]; simpl in Hx; [by destruct (Hn k)|..].
  - destruct (calls s !! h) as [c|]; [|done]. simpl in Hx. destruct (k_state c); try done.
    destruct (is_connected s); [|injection Hx as <-; apply shrinks_finish].
    destruct (length (queue s) <? CHANNEL_DEPTH)%nat; [|done]. injection Hx as <-. eapply shrinks_trans; [|apply shrinks_call]. by apply shrinks_same.
  - destruct (calls s !! h) as [c|]; [|done]. simpl in Hx. destruct (k_state c); try done.
    destruct (k_slot c); [|destruct (sender_alive h (k_kind c) s); [done|]]; injection Hx as <-; apply shrinks_finish.
  - destruct (calls s !! h) as [c|]; [|done]. simpl in Hx. destruct (k_kind c), timeout; try done.
    destruct (receiver_open c); [|done]. injection Hx as <-. apply (shrinks_finish h (KRequest corr)).
  - destruct (calls s !! h) as [c|]; [|done]. simpl in Hx. destruct (receiver_open c); [|done]. injection Hx as <-. apply shrinks_finish.
  - destruct (handles s); [|done]. injection Hx as <-. apply shrinks_try_send.
  - destruct (calls s !! h) as [c|]; [|done]. simpl in Hx. destruct (k_kind c), (k_state c) as [| |[]|], (items c); try done.
    injection Hx as <-. apply shrinks_call.
  - destruct (calls s !! h) as [c|]; [|done]. simpl in Hx. destruct (k_kind c), (k_state c) as [| |[]|]; try done.
    destruct (stream_open c); [|done]. injection Hx as <-. eapply shrinks_trans; [apply shrinks_call|apply shrinks_try_send].
  - destruct (handles s && forallb released (calls s)); [|done]. injection Hx as <-.
    eapply shrinks_trans; [apply (shrinks_try_send (DoDisconnect None))|by apply shrinks_same].
  - destruct (actor s) as [|c0| | |], (queue s) as [|c q]; try done. injection Hx as <-. by destruct c; apply shrinks_same.
  - destruct (actor s) as [|c| | |]; try done. injection Hx as <-.
    destruct c as [h|h corr|h i|i|[h|]]; try (by apply shrinks_same); try (eapply shrinks_trans; [|apply shrinks_call]; by apply shrinks_same).
    destruct r; [by apply shrinks_same|]. simpl. destruct (requests s !! corr); [|by apply shrinks_same].
    eapply shrinks_trans; [|apply (shrinks_reply n _ corr (set_actor ASelect s))]. by apply shrinks_same.
  - destruct (actor s); try done. injection Hx as <-.
    assert (Hrt : ∀ t, shrinks s (let '(break, s') := route t s in if break : bool then set_actor AFailing s' else s')).
    { intros t. pose proof (shrinks_route t s) as Hr. destruct (route t s) as [[] s1]; [|done].
      eapply shrinks_trans; [exact Hr|by apply shrinks_same]. }
    destruct m as [t|t| |e|]; [destruct (client_is_heartbeat t)|..]; try apply Hrt; by apply shrinks_same.
  - destruct (actor s), (queue s); try done. destruct (handles s); [done|]. injection Hx as <-. by apply shrinks_same.
  - destruct (actor s); try done. injection Hx as <-. eapply shrinks_trans; [apply shrinks_fail_all|by apply shrinks_same].
  - destruct (actor s); try done. injection Hx as <-. by apply shrinks_same.
Qed.
(** Slots put into the table later belong to later calls. *)
Definition only_after (n : nat) (s : Client) : Prop := (n ≤ length (calls s))%nat ∧ ∀ corr h, requests s !! corr = Some h → (n ≤ h)%nat.
Lemma only_after_step n ev s s' : exec ev s = Some s' → only_after n s → only_after n s'.
Proof.
  intros Hx [Hl Hn]. assert (Hsh : shrinks s s' → only_after n s').
  { intros [Hr Hlen]. split; [by rewrite Hlen|]. intros corr h Hh. eapply Hn, lookup_weaken; [exact Hh|done]. }
  destruct ev as [k| | | | | | | | | | | | | |]; try (apply Hsh; eapply exec_requests; [exact Hx|done]).
  simpl in Hx. destruct (handles s); [|done]. injection Hx as <-.
  assert (Hadd : ∀ k0 m, only_after n (add_call k0 m s)).
  { intros k0 m. split; [simpl; rewrite length_app; lia|]. intros corr h. simpl.
    destruct k0 as [|corr0| |]; try by apply Hn. destruct (decide (corr = corr0)) as [->|Hne].
    - rewrite lookup_insert_eq. intros [= <-]. done.
    - rewrite lookup_insert_ne by done. by apply Hn. }
  destruct k; simpl; try apply Hadd. destruct (is_connected s); [apply Hadd|by split].
Qed.
(** A request that was made before the actor failed the table is answered: only one made
    afterwards, on a connection that was over, can be left in it. *)
Theorem requests_before_the_end_are_answered s s1 s2 evs h c :
  exec EFail s = Some s1 → exec_all evs s1 = Some s2 → (h < length (calls s1))%nat → calls s2 !! h = Some c → unanswered s2 h c = false.
Proof.
  intros Hf Hx Hh Hc.
  assert (H1 : only_after (length (calls s1)) s1).
  { split; [done|]. intros corr i Hi. simpl in Hf. destruct (actor s); try done. injection Hf as <-. simpl in Hi. by rewrite lookup_empty in Hi. }
  assert (H2 : only_after (length (calls s1)) s2).
  { revert Hx H1. generalize (length (calls s1)) as n. intros n. clear. revert s1. induction evs as [|ev evs IH]; intros s1 Hx H1; [by injection Hx as <-|].
    simpl in Hx. destruct (exec ev s1) as [s'|] eqn:He; [|done]. simpl in Hx. apply (IH s'); [done|]. by eapply only_after_step. }
  unfold unanswered. destruct (k_kind c) as [|corr| |]; try done. apply bool_decide_eq_false. intros Hin.
  destruct H2 as [_ H2]. specialize (H2 _ _ Hin). lia.
Qed.
(** A late request waits until it is dropped: without a timeout neither the call nor the
    actor has a move that would answer it. *)
Theorem late_request_waits s h c corr :
  reachable s → actor s = AGone → timeout = None → calls s !! h = Some c → k_kind c = KRequest corr → requests s !! corr = Some h →
  k_state c = CWaiting →
  exec (EEnqueue h) s = None ∧ exec (EReturn h) s = None ∧ exec (ETimeout h) s = None ∧
  exec ETake s = None ∧ (∀ r, exec (EWritten r) s = None) ∧ (∀ m, exec (ERead m) s = None) ∧ exec EFail s = None ∧ exec EGone s = None.
Proof.
  intros Hr Ha Ht Hc Hk Hreq Hst. destruct (co_requests _ (stomp_client_ok_reachable s Hr) corr h Hreq) as (c0 & Hc0 & _ & _ & Hsl).
  assert (c0 = c) as -> by congruence.
  simpl. rewrite Hc, Ha. simpl. rewrite Hst, Hk, Ht, Hsl. simpl. by rewrite bool_decide_true.
Qed.

Definition skipped (m : ReadEvent) : bool := match m with RText s => client_is_heartbeat s | ROther => true | _ => false end.
Definition frame_text (m : ReadEvent) : option string := match m with RText s | RBinary s => Some s | _ => None end.
Definition opens_with_connected (l : list ReadEvent) : Prop :=
  ∃ pre m t post, l = pre ++ m :: post ∧ forallb skipped pre = true ∧ skipped m = false ∧ frame_text m = Some t ∧ parse t = Some SfConnected.
Lemma opens_skip m l : skipped m = true → opens_with_connected (m :: l) ↔ opens_with_connected l.
Proof.
  intros Hm. split.
  - intros ([|p pre] & m0 & t & post & Heq & Hp & Hrest); [injection Heq as -> ->; destruct Hrest; congruence|].
    injection Heq as -> ->. simpl in Hp. apply andb_true_iff in Hp as [_ Hp]. by exists pre, m0, t, post.
  - intros (pre & m0 & t & post & -> & Hp & Hrest). exists (m :: pre), m0, t, post. split; [done|]. split; [simpl; by rewrite Hm|done].
Qed.
Lemma opens_stop m l : skipped m = false → opens_with_connected (m :: l) ↔ ∃ t, frame_text m = Some t ∧ parse t = Some SfConnected.
Proof.
  intros Hm. split; [|intros (t & Ht & Hp); by exists [], m, t, l].
  intros ([|p pre] & m0 & t & post & Heq & Hp & H0 & H1 & H2); injection Heq as -> ->; [by exists t|]. simpl in Hp. by rewrite Hm in Hp.
Qed.
Lemma classify_ok t : classify_handshake t = Ok tt ↔ parse t = Some SfConnected.
Proof. unfold classify_handshake. by destruct (parse t) as [[]|]. Qed.
(** The handshake succeeds exactly on CONNECTED as the first frame that is neither a
    heart-beat nor a control frame. *)
Theorem handshake_needs_connected l : await_connected l = Some (Ok tt) ↔ opens_with_connected l.
Proof.
  assert (Hs : ∀ r : result () Error, Some r = Some (Ok tt) ↔ r = Ok tt) by (intros r; split; [by intros [=]|by intros ->]).
  induction l as [|m l IH]; [split; [done|by intros ([|] & ? & ? & ? & ? & _)]|].
  destruct (skipped m) eqn:Hm.
  - rewrite opens_skip, <- IH by done. destruct m as [t|t| |e|]; simpl in *; try done. by rewrite Hm.
  - rewrite opens_stop by done. destruct m as [t|t| |e|]; simpl in *; try rewrite Hm; try rewrite Hs, classify_ok; naive_solver.
Qed.
End StompClient.

(** ** Concrete runs *)

Module StompClientRuns.
Definition parse_frame (s : string) : option ServerFrameIn :=
  if bool_decide (s = "CONNECTED") then Some SfConnected
  else if bool_decide (s = "REPLY") then Some (SfMessage "reply" [("correlation-id", "corr-1")] (mkBody None "42"))
  else if bool_decide (s = "NEWS") then Some (SfMessage "sub-2" [] (mkBody None "news"))
  else None.
Abbreviation client_run := (exec_all parse_frame None).
Definition client_at (evs : list Event) : Client := default Client_new (client_run evs Client_new).
Definition call_at (h : nat) (s : Client) : Call := default (mkCall KSend CDropped None [] [] false) (calls s !! h).
(** A request and a subscription, both answered. *)
Definition working : list Event :=
  [EStart StartRequest; EEnqueue 0; ETake; EWritten (Ok tt); EStart StartSubscribe; EEnqueue 1; ETake; EWritten (Ok tt); EReturn 1;
   ERead (RText "REPLY"); EReturn 0; ERead (RText "NEWS"); ERecvItem 1].
Example request_returns : k_state (call_at 0 (client_at working)) = CReturned (Ok (Some (mkBody None "42"))).
Proof. vm_compute. reflexivity. Qed.
(** A caller gives up a subscribe after its command was queued: it is carried out all the
    same, and nothing will ever end it. *)
Example abandoned_subscribe_stays :
  let s := client_at [EStart StartSubscribe; EEnqueue 0; EDropCall 0; ETake; EWritten (Ok tt)] in
  subs s !! "sub-1" = Some 0%nat ∧ queue s = [] ∧ stream_open (call_at 0 s) = false.
Proof. vm_compute. done. Qed.
(** A stream is dropped while the queue of commands is full: no UNSUBSCRIBE is sent. *)
Example full_queue_keeps_subscription :
  let s := client_at ([EStart StartSubscribe; EEnqueue 0; ETake; EWritten (Ok tt); EReturn 0] ++
    concat ((λ i, [EStart StartSend; EEnqueue i]) <$> seq 1 64) ++ [EDropStream 0] ++ concat (repeat [ETake; EWritten (Ok tt)] 64)) in
  subs s !! "sub-1" = Some 0%nat ∧ queue s = [].
Proof. vm_compute. done. Qed.
(** The socket closes; a request is made between the end of the actor's loop and the
    drop of its receiver. *)
Definition late : list Event := [ERead RClosed; EFail; EStart StartRequest; EEnqueue 0; EGone].
End StompClientRuns.
Import StompClientRuns.

Lemma working_reachable : reachable parse_frame None (client_at working).
Proof. exists working. vm_compute. reflexivity. Qed.
Lemma late_reachable : reachable parse_frame None (client_at late).
Proof. exists late. vm_compute. reflexivity. Qed.
Lemma request_answers_are_replies_witness :
  k_state (call_at 0 (client_at working)) = CReturned (Ok (Some (mkBody None "42"))) ∧
  answer_ok (client_at working) (KRequest "corr-1") (Ok (Some (mkBody None "42"))).
Proof.
  split; [vm_compute; reflexivity|].
  apply (request_answers_are_replies parse_frame None (client_at working) 0 (call_at 0 (client_at working)));
    [apply working_reachable|vm_compute; reflexivity..].
Defined.
Lemma request_table_never_leaks_witness :
  ∃ c, calls (client_at late) !! 0%nat = Some c ∧ k_kind c = KRequest "corr-1" ∧ receiver_open c = true ∧ k_slot c = None.
Proof. apply (request_table_never_leaks parse_frame None (client_at late) "corr-1" 0 late_reachable). vm_compute. reflexivity. Defined.
Lemma streams_in_order_witness :
  seen (call_at 1 (client_at working)) = [mkBody None "news"] ∧
  seen (call_at 1 (client_at working)) ++ items (call_at 1 (client_at working)) `sublist_of` bodies_of (k_kind (call_at 1 (client_at working))) (messages (client_at working)).
Proof.
  split; [vm_compute; reflexivity|].
  apply (streams_in_order parse_frame None (client_at working) 1 (call_at 1 (client_at working)) working_reachable). vm_compute. reflexivity.
Defined.
Lemma receipts_never_awaited_witness : receipts (client_at working) = ∅.
Proof. apply (receipts_never_awaited parse_frame None _ working_reachable). Defined.
Lemma calls_end_with_the_connection_witness :
  actor (client_at late) = AGone ∧ exec parse_frame None (EReturn 0) (client_at late) = None.
Proof.
  split; [vm_compute; reflexivity|].
  assert (Ha : actor (client_at late) = AGone) by (vm_compute; reflexivity).
  assert (Hc : calls (client_at late) !! 0%nat = Some (mkCall (KRequest "corr-1") CWaiting None [] [] true)) by (vm_compute; reflexivity).
  exact (proj1 (calls_end_with_the_connection parse_frame None (client_at late) 0 _ late_reachable Ha Hc)).
Defined.
Lemma late_request_waits_witness :
  exec parse_frame None (EReturn 0) (client_at late) = None ∧ exec parse_frame None EFail (client_at late) = None.
Proof.
  destruct (late_request_waits parse_frame None (client_at late) 0 (mkCall (KRequest "corr-1") CWaiting None [] [] true) "corr-1" late_reachable)
    as (_ & H1 & _ & _ & _ & _ & H2 & _); [vm_compute; reflexivity..|]. by split.
Defined.
Definition before_end : Client := client_at [EStart StartRequest; EEnqueue 0; ERead RClosed].
Definition after_fail : Client := default Client_new (exec parse_frame None EFail before_end).
Definition after_gone : Client := default Client_new (client_run [EGone] after_fail).
Lemma requests_before_the_end_are_answered_witness :
  unanswered after_gone 0 (call_at 0 after_gone) = false ∧ k_slot (call_at 0 after_gone) = Some (Err EConnectionClosed).
Proof.
  split; [|vm_compute; reflexivity].
  apply (requests_before_the_end_are_answered parse_frame None before_end after_fail after_gone [EGone] 0);
    [vm_compute; reflexivity|vm_compute; reflexivity|vm_compute; lia|vm_compute; reflexivity].
Defined.
