(* ===== verification/StompAuth.v ===== *)
(** * StompAuth: who a STOMP connection is

    Models [crates/axum-stomp/src/server/auth.rs]: the authenticators an endpoint can be
    given and what they are resolved from. A parameter is anything that can be taken from
    the connection's scope, with the name of its type; [extract] is
    [ScopeContainer::extract] on the shapes of [DiContainer]. The body of a function
    comes to an [AuthResult], as an event of [StompServer] has it; [None] is an
    authenticator that does not return. *)
From S2P Require Import Prelude CoreTypes DiTypes DiRegistry DiContainer DiScope DiHandles PubSub WsHost StompServer StompSafety.

(** [StompPrincipal::attribute] *)
Definition attribute (p : StompPrincipal) (name : string) : option string := attributes p !! name.
(** [connect_metadata], of the fields of a parsed frame. *)
Definition connect_metadata (host : string) (login passcode : option string) (custom : list (string * string)) : StompConnect :=
  StompServer.mkConnect host login passcode custom.
(** [StompAuthenticationError::new], of a dependency that is missing. *)
Definition misconfigured : AuthResult := AuthErr "authenticator misconfigured".

Section Authenticators.
Context {Scope : Type}.
(** What is logged: the dependency and why it could not be resolved. *)
Abbreviation Log := (list (string * DiError)).
(** [StompAuthenticator], as its method. *)
Definition StompAuthenticator : Type := StompConnect → Scope → option AuthResult * Log.
(** [FnAuthenticator]: a function of the frame and of injected arguments. *)
Inductive AuthFn : Type :=
| ABody (f : StompConnect → option AuthResult)
| AParam {T : Type} (name : string) (from : Scope → run T) (k : T → AuthFn).

(** [authenticator_dependency_error], after [extract]. *)
Definition resolved {T} (name : string) (m : run T) (k : T → option AuthResult * Log) : option AuthResult * Log :=
  match m with
  | None => (None, [])
  | Some (Err e) => (Some misconfigured, [(name, e)])
  | Some (Ok v) => k v
  end.
(** [FnAuthenticator::authenticate] *)
Fixpoint authenticate_fn (f : AuthFn) (c : StompConnect) (connection : Scope) : option AuthResult * Log :=
  match f with
  | ABody body => (body c, [])
  | AParam name from k => resolved name (from connection) (λ v, authenticate_fn (k v) c connection)
  end.
(** [Injected]: [into_authenticator] is that of [ResolvedAuthenticator]. *)
Definition Injected {H} (name : string) (from : Scope → run H) (into_authenticator : H → StompAuthenticator) : StompAuthenticator := λ c connection,
  resolved name (from connection) (λ handle, into_authenticator handle c connection).
(** [IntoAuthenticator]: what [with_authenticator] takes. *)
Inductive Given := GDirect (a : StompAuthenticator) | GFunction (f : AuthFn).
Definition into_authenticator (g : Given) : StompAuthenticator := match g with GDirect a => a | GFunction f => authenticate_fn f end.

(** The parameters come to values in order, and leave the body with them. *)
Fixpoint supplied (connection : Scope) (f : AuthFn) (body : StompConnect → option AuthResult) : Prop :=
  match f with
  | ABody body' => body = body'
  | AParam _ from k => ∃ v, from connection = done v ∧ supplied connection (k v) body
  end.
(** The first parameter that does not, with its error; [None] is one that does not end. *)
Fixpoint unsupplied (connection : Scope) (f : AuthFn) (name : string) (e : option DiError) : Prop :=
  match f with
  | ABody _ => False
  | AParam name' from k =>
      match from connection with
      | Some (Ok v) => unsupplied connection (k v) name e
      | Some (Err e') => name = name' ∧ e = Some e'
      | None => name = name' ∧ e = None
      end
  end.

Lemma authenticate_cases f c connection :
  (∃ body, supplied connection f body ∧ authenticate_fn f c connection = (body c, [])) ∨
  (∃ name e, unsupplied connection f name (Some e) ∧ authenticate_fn f c connection = (Some misconfigured, [(name, e)])) ∨
  (∃ name, unsupplied connection f name None ∧ authenticate_fn f c connection = (None, [])).
Proof.
  induction f as [body|T name from k IH]; [left; by exists body|]. cbn [authenticate_fn supplied unsupplied]. unfold resolved.
  destruct (from connection) as [[v|e]|]; [|right; left; by exists name, e|right; right; by exists name].
  destruct (IH v) as [(body & Hs & ->)|[(n & e & Hu & ->)|(n & Hu & ->)]]; [left; exists body; eauto|right; left; eauto|right; right; eauto].
Qed.
Lemma supplied_runs f c connection body : supplied connection f body → authenticate_fn f c connection = (body c, []).
Proof. induction f as [b|T name from k IH]; cbn; [by intros ->|]. intros (v & Hf & Hk). rewrite Hf. by apply IH. Qed.
Lemma unsupplied_runs f c connection name e : unsupplied connection f name (Some e) → authenticate_fn f c connection = (Some misconfigured, [(name, e)]).
Proof. induction f as [b|T n from k IH]; cbn; [done|]. destruct (from connection) as [[v|e']|]; [apply IH|by intros [-> [= ->]]|by intros [_ ?]]. Qed.
End Authenticators.

(** an injected authenticator runs with what it asks for, or not at all. When every
    parameter of a function comes to a value, in their order, its body runs with those
    values and nothing is logged; the first that does not refuses the connection, with one
    text whatever was missing, and only the log says what it was and why. One of the two
    happens, unless a parameter's construction does not end. *)
Theorem function_authenticates {Scope : Type} (f : @AuthFn Scope) (c : StompConnect) (connection : Scope) :
  (∀ body, supplied connection f body → authenticate_fn f c connection = (body c, [])) ∧
  (∀ name e, unsupplied connection f name (Some e) → authenticate_fn f c connection = (Some misconfigured, [(name, e)])) ∧
  ((∃ body, supplied connection f body) ∨ ∃ name e, unsupplied connection f name e).
Proof.
  split; [intros body; apply supplied_runs|]. split; [intros name e; apply unsupplied_runs|].
  destruct (authenticate_cases f c connection) as [(body & Hs & _)|[(n & e & Hu & _)|(n & Hu & _)]]; eauto.
Qed.

(** ** On an endpoint *)

Section Endpoint.
Context {Version : Type} `{EqDecision Version} {Scope : Type}.
Context (parse : string → result (@ClientFrame Version) string) (is_route : string → bool) (config : @StompConfig Version).

(** a connection is who its authenticator says. Where the endpoint has an authenticating
    function, a connection whose frame has been read is let in exactly when every
    parameter is supplied and the body accepts: then it has the principal the body gave,
    is registered and is sent [CONNECTED]; otherwise it is not registered, has no
    principal it did not have, and is told at most the text of the refusal, which is one
    text for every missing dependency. *)
Theorem connection_is_who_the_function_says (f : @AuthFn Scope) (connection : Scope) (s : World) h c v k r log :
  has_authenticator config = true → conns s !! h = Some c → phase c = PAuth v k → authenticate_fn f k connection = (Some r, log) →
  ∃ s' c', exec parse is_route config (EAuth h r) s = Some s' ∧ conns s' !! h = Some c' ∧
    match r with
    | AuthOk p => (∃ body, supplied connection f body ∧ body k = Some (AuthOk p)) ∧ log = [] ∧ principal c' = Some p ∧ broker s' = (register (broker s)).2 ∧ phase c' = PSend [OFrame (SConnected v)] false
    | AuthErr m => principal c' = principal c ∧ broker s' = broker s ∧ phase c' = PReject (Authentication m) ∧ (log ≠ [] → m = "authenticator misconfigured")
    | AuthPanics => principal c' = principal c ∧ broker s' = broker s ∧ phase c' = PGone
    end.
Proof.
  intros Ha Hc Hp Hr. cbn [exec]. rewrite Hc. cbn [mbind option_bind]. rewrite Hp, Ha. destruct r as [p|m|]; (eexists _, _; split; [done|]; split; [cbn; rewrite list_lookup_alter, decide_True by done; by rewrite Hc|]).
  - destruct (authenticate_cases f k connection) as [(body & Hs & Hx)|[(n & e & _ & Hx)|(n & _ & Hx)]]; rewrite Hr in Hx; [|by injection Hx..].
    injection Hx as Hx ->. split; [by exists body|done].
  - repeat (split; [done|]). intros Hl. destruct (authenticate_cases f k connection) as [(body & _ & Hx)|[(n & e & _ & Hx)|(n & _ & Hx)]]; rewrite Hr in Hx; injection Hx; intros; simplify_eq; done.
  - done.
Qed.
End Endpoint.

(** What is printed of a CONNECT frame depends on neither its passcode nor the values of
    its headers. *)
Theorem debug_is_redacted h l p p' hs hs' : hs.*1 = hs'.*1 →
  connect_debug (connect_metadata h l (Some p) hs) = connect_debug (connect_metadata h l (Some p') hs').
Proof. intros Hh. unfold connect_debug. cbn. by rewrite Hh. Qed.

(** ** Parameters *)

#[local] Open Scope run_scope.
Section Parameters.
Context {V Hd Rv : Type} (erase : ProviderDescriptor → @BoxedComponent V → @BoxedComponent V) (registry : @ScopeRegistry V Hd Rv)
  (transient : list (@ScopeContainer V Rv) → @ScopeStore V → ComponentDescriptor (@Program V Hd Rv) → run (@BoxedComponent V)).
Abbreviation Chain := (list (@ScopeContainer V Rv)).
(** [ScopeContainer::extract] *)
Definition extract (p : @Param V Hd) (self : Chain) : run (@Arg Hd) :=
  let cx := extract_cx self in
  match p with
  | PSingle ty H => o ←? resolve erase registry transient cx H; match o with Some h => done (ASingle h) | None => raise (MissingComponent (ty_name ty)) end
  | POption ty H => o ←? resolve erase registry transient cx H; done (AOption o)
  | PVec ty H => hs ←? resolve_all erase registry transient cx H; done (AVec hs)
  | PMap ty H => hs ←? resolve_keyed erase registry transient cx H; done (AMap hs)
  end.
(** A function of the frame and of these parameters. *)
Fixpoint function_of (ps : list (string * @Param V Hd)) (body : list (@Arg Hd) → StompConnect → option AuthResult) (args : list (@Arg Hd)) : @AuthFn Chain :=
  match ps with [] => ABody (body args) | (name, p) :: ps' => AParam name (extract p) (λ a, function_of ps' body (args ++ [a])) end.
Definition are_values (self : Chain) : list (@Param V Hd) → list (@Arg Hd) → Prop := Forall2 (λ p a, extract p self = done a).

Lemma from_container_extract p self k : run_factory erase registry transient (extract_cx self) (from_container p k) =
  run_bind (extract p self) (λ a, run_factory erase registry transient (extract_cx self) (k a)).
Proof.
  destruct p as [ty H|ty H|ty H|ty H]; cbn; unfold answer; [destruct (resolve _ _ _ _ _) as [[[]|]|]|destruct (resolve _ _ _ _ _) as [[]|]|destruct (resolve_all _ _ _ _ _) as [[]|]|destruct (resolve_keyed _ _ _ _ _) as [[]|]]; done.
Qed.
Lemma function_supplied self ps body args g : supplied self (function_of ps body args) g ↔ ∃ vs, are_values self ps.*2 vs ∧ g = body (args ++ vs).
Proof.
  revert args. induction ps as [|[name p] ps IH]; intros args; cbn [function_of].
  - cbn. split; [intros ->; exists []; rewrite app_nil_r; split; [constructor|done]|]. intros (vs & Hvs%Forall2_nil_inv_l & ->). by rewrite Hvs, app_nil_r.
  - split.
    + intros (a & Ha & (vs & Hvs & ->)%IH). exists (a :: vs). split; [by constructor|by rewrite <- app_assoc].
    + cbn. intros (vs & (a & vs' & Ha & Hvs' & ->)%Forall2_cons_inv_l & ->). exists a. split; [exact Ha|]. apply IH. exists vs'. split; [done|]. by rewrite <- app_assoc.
Qed.
Lemma program_supplied self ps user args vs : are_values self ps vs →
  run_factory erase registry transient (extract_cx self) (factory_program ps user args) = Some (user (args ++ vs)).
Proof.
  intros Hvs. revert args. induction Hvs as [|p a ps vs Hp _ IH]; intros args; cbn [factory_program]; [by rewrite app_nil_r|].
  rewrite from_container_extract, Hp. etransitivity; [apply IH|]. by rewrite <- app_assoc.
Qed.
Lemma program_unsupplied self ps body build args e :
  run_factory erase registry transient (extract_cx self) (factory_program ps.*2 (λ vs, Ok (build vs)) args) = raise e ↔
  ∃ name, unsupplied self (function_of ps body args) name (Some e).
Proof.
  revert args. induction ps as [|[name p] ps IH]; intros args; [cbn; split; [done|by intros [? []]]|].
  change ((name, p) :: ps).*2 with (p :: ps.*2). cbn [factory_program function_of unsupplied]. rewrite from_container_extract.
  destruct (extract p self) as [[a|e']|]; cbn [run_bind]; [apply IH| |]; split; [by intros [= ->]; eauto|by intros (n & _ & [= ->])|done|by intros (n & _ & ?)].
Qed.
(** an authenticator injects what a constructor can. A function whose parameters have the
    shapes of a constructor's runs on exactly the arguments that a constructor with those
    parameters would be called with in the connection's scope, and is refused exactly
    when that constructor would fail, for the same error, which is the one logged. *)
Theorem parameters_are_a_constructors self (ps : list (string * Param)) body build c :
  (∀ vs, are_values self ps.*2 vs →
     authenticate_fn (function_of ps body []) c self = (body vs c, []) ∧
     run_factory erase registry transient (extract_cx self) (dispatch_factory ps.*2 (λ vs, Ok (build vs))) = done (build vs)) ∧
  ∀ e, run_factory erase registry transient (extract_cx self) (dispatch_factory ps.*2 (λ vs, Ok (build vs))) = raise e ↔
    ∃ name, authenticate_fn (function_of ps body []) c self = (Some misconfigured, [(name, e)]).
Proof.
  split.
  - intros vs Hvs. split; [apply supplied_runs, function_supplied; by exists vs|]. unfold dispatch_factory. by rewrite (program_supplied self ps.*2 _ [] vs Hvs).
  - intros e. unfold dispatch_factory. rewrite (program_unsupplied self ps body build []). split; intros [name Hn]; [exists name; by apply unsupplied_runs|].
    destruct (authenticate_cases (function_of ps body []) c self) as [(b & _ & Hx)|[(n & e' & Hu & Hx)|(n & _ & Hx)]]; rewrite Hn in Hx; injection Hx; intros; simplify_eq; by eexists.
Qed.
End Parameters.

(** ** Samples *)

Module AuthRuns.
Import StompSafety.StompRuns.
Definition x_param (id : TypeId) (name : string) : string * @Param string string := (name, PSingle (mkType name name id) (x_handle id)).
Definition x_registry : @ScopeRegistry string string unit := ScopeRegistry_new ∅ ∅ [] ∅.
Definition x_transient := construct_transient_boxed x_erase x_registry 1.
(** A user is known when the store of users says so. *)
Definition x_body (args : list (@Arg string)) (c : StompConnect) : option AuthResult :=
  Some match args, login c with
       | [ASingle store], Some user => if bool_decide (store = "Alpha") then AuthOk (with_attribute "store" store (authenticated user)) else AuthErr "unknown user"
       | _, _ => AuthErr "no login"
       end.
Definition x_function (ps : list (string * @Param string string)) : AuthFn := function_of x_erase x_registry x_transient ps x_body [].
Definition x_connect : StompConnect := connect_metadata "h" (Some "ann") (Some "secret") [("token", "t")].

Example auth_samples :
  authenticate_fn (x_function [x_param 1 "Users"]) x_connect [x_root] = (Some (AuthOk (with_attribute "store" "Alpha" (authenticated "ann"))), []) ∧
  authenticate_fn (x_function [x_param 9 "Tokens"; x_param 1 "Users"]) x_connect [x_root] = (Some misconfigured, [("Tokens", MissingComponent "Tokens")]) ∧
  authenticate_fn (x_function []) x_connect [x_root] = (Some (AuthErr "no login"), []) ∧
  Injected "Login" (λ _, done tt) (λ _, into_authenticator (GFunction (x_function [x_param 1 "Users"]))) x_connect [x_root] =
    authenticate_fn (x_function [x_param 1 "Users"]) x_connect [x_root] ∧
  attribute (with_attribute "role" "b" (with_attribute "role" "a" (authenticated "ann"))) "role" = Some "b" ∧
  connect_debug x_connect = ("h", Some "ann", Some "[REDACTED]", ["token"]).
Proof. vm_compute. repeat split. Qed.
Lemma connection_is_who_the_function_says_witness :
  let s := at_end [EAccept 0; EOpener 0 0 (Some (MText "CONNECT"))] in
  ∃ p s' c', exec parse_sample is_route_sample config_sample (EAuth 0 (AuthOk p)) s = Some s' ∧ conns s' !! 0%nat = Some c' ∧ principal c' = Some p.
Proof.
  intros s. set (f := function_of x_erase x_registry x_transient [x_param 1 "Users"] (λ _ _, Some (AuthOk anonymous)) [] : @AuthFn (list (@ScopeContainer string unit))).
  destruct (connection_is_who_the_function_says parse_sample is_route_sample config_sample f [x_root] s 0 (conn_at 0 s) 12%nat (mkConnect "h" None None []) (AuthOk anonymous) []
    eq_refl ltac:(vm_compute; reflexivity) ltac:(vm_compute; reflexivity) ltac:(vm_compute; reflexivity)) as (s' & c' & He & Hc & _ & _ & Hp & _).
  by exists anonymous, s', c'.
Defined.
Lemma debug_is_redacted_witness : connect_debug (connect_metadata "h" None (Some "a") [("token", "t")]) = connect_debug (connect_metadata "h" None (Some "b") [("token", "u")]).
Proof. apply debug_is_redacted. reflexivity. Defined.
End AuthRuns.
