(* ===== verification/Dirs.v ===== *)
(** * Dirs: the application's directories

    Models [crates/dirs/src/lib.rs] on a Unix target and the [${@label}]
    namespace of [crates/config/src/managed/dirs.rs]: the directory kinds, the
    manager that resolves them, and the walk of [ensure_private_directory].

    A [PathBuf] is its text; [components] is [Path::components] and two paths
    are equal when their components are. A [Component] is its text, ["/"] for the
    root. The operating system is an interface, [Posix]: its calls read and
    change a state that other processes may share, so nothing is assumed of two
    consecutive calls. [PosixLaws] is what a file system does while no other
    process touches it. *)
From S2P Require Import Prelude ConfigResolve.

(** ** Paths *)

Definition is_absolute (p : string) : bool := match p with String "/" _ => true | _ => false end.
Fixpoint ends_with_sep (p : string) : bool :=
  match p with "" => false | String c "" => bool_decide (c = "/"%char) | String _ p' => ends_with_sep p' end.
Definition plain_piece (p : string) : bool := negb (str_is_empty p || bool_decide (p = ".")).
(** [Path::components]: repeated separators, and every dot but a leading one,
    are dropped. *)
Definition components (p : string) : list string :=
  let pieces := split_on "/" p in
  let plain := List.filter plain_piece pieces in
  if is_absolute p then "/" :: plain
  else match pieces with "." :: _ => "." :: plain | _ => plain end.
(** [PathBuf::push], [Path::join] *)
Definition push (p name : string) : string :=
  if is_absolute name then name
  else if str_is_empty p || ends_with_sep p then p +:+ name
  else p +:+ "/" +:+ name.
Definition path_eqb (p q : string) : bool := bool_decide (components p = components q).

(** ** The operating system *)

Inductive ErrorKind := NotFound | AlreadyExists | PermissionDenied | NotADirectory | OtherKind.
#[export] Instance ErrorKind_eq_dec : EqDecision ErrorKind.
Proof. solve_decision. Defined.
Record IoError := mkIo { io_kind : ErrorKind; io_text : string }.
Record Metadata := mkMetadata { is_symlink : bool; is_dir : bool; uid : Z; mode : Z }.

Class Posix (S : Type) := {
  symlink_metadata : string → rst S IoError Metadata;
  metadata : string → rst S IoError Metadata;
  create_dir : string → Z → rst S IoError unit;
  create_dir_all : string → rst S IoError unit;
  set_permissions : string → Z → rst S IoError unit;
  effective_uid : Z;
}.

Definition PRIVATE_MODE : Z := 448.  (* 0o700 *)
Definition UNSAFE_WRITE : Z := 18.   (* 0o022 *)
Definition STICKY : Z := 512.        (* 0o1000 *)
Definition writable_by_others (m : Metadata) : bool := negb (Z.land (mode m) UNSAFE_WRITE =? 0).
Definition sticky (m : Metadata) : bool := negb (Z.land (mode m) STICKY =? 0).

(** What a walk says of a path it refuses; the Unix transport has the same walk with
    other words. *)
Record Wording := mkWording { w_symlink : string; w_no_directory : string; w_owner : string; w_writable : string; w_ancestor : string }.
Definition application_words : Wording := mkWording "refusing symlinked application directory" "application directory path is not a directory"
  "application directory is not owned by this user" "application directory is writable by its group or other users" "application directory has an unsafe writable ancestor".

Section Ensure.
Context {S : Type} `{Posix S} (words : Wording).

(** The metadata of a component, and whether this call created it. *)
Definition observe (current : string) : rst S IoError (Metadata * bool) := λ s,
  match symlink_metadata current s with
  | (Ok m, s1) => (Ok (m, false), s1)
  | (Err e, s1) =>
      if decide (io_kind e = NotFound) then
        match create_dir current PRIVATE_MODE s1 with
        | (Ok _, s2) => (m ← symlink_metadata current; mret (m, true)) s2
        | (Err e', s2) =>
            if decide (io_kind e' = AlreadyExists) then (m ← symlink_metadata current; mret (m, false)) s2
            else (Err e', s2)
        end
      else (Err e, s1)
  end.
Definition refuse (kind : ErrorKind) (why current : string) : rst S IoError unit := throw (mkIo kind (why +:+ ": " +:+ current)).
Definition check_symlink (target : bool) (m : Metadata) (current : string) : rst S IoError unit :=
  if is_symlink m && (target || negb (uid m =? 0)) then
    refuse PermissionDenied (w_symlink words) current
  else mret tt.
Definition check_followed (target created : bool) (f : Metadata) (current : string) : rst S IoError unit :=
  if negb (is_dir f) then refuse NotADirectory (w_no_directory words) current
  else if target && negb (uid f =? effective_uid) then
    refuse PermissionDenied (w_owner words) current
  else if target && negb created && writable_by_others f then
    refuse PermissionDenied (w_writable words) current
  else if negb target && writable_by_others f && negb (sticky f) then
    refuse PermissionDenied (w_ancestor words) current
  else mret tt.
(** The loop body, then the rest of the loop, then the final [chmod]. *)
Fixpoint ensure_loop (path current : string) (rest : list string) : rst S IoError unit :=
  match rest with
  | [] => set_permissions path PRIVATE_MODE
  | component :: rest' =>
      let current := push current component in
      '(m, created) ← observe current;
      let target := path_eqb current path in
      check_symlink target m current;;
      followed ← metadata current;
      check_followed target created followed current;;
      ensure_loop path current rest'
  end.
End Ensure.
Definition ensure_private_directory {S} `{Posix S} (path : string) : rst S IoError unit := ensure_loop application_words path "" (components path).

(** ** Directory kinds *)

Inductive DirKind := Config | Data | Cache | State | Runtime | Tmp.
#[export] Instance DirKind_eq_dec : EqDecision DirKind.
Proof. solve_decision. Defined.
Definition dir_kinds : list DirKind := [Config; Data; Cache; State; Runtime; Tmp].
Definition LABEL (k : DirKind) : string :=
  match k with
  | Config => "config" | Data => "data" | Cache => "cache" | State => "state" | Runtime => "runtime" | Tmp => "tmp"
  end.
Definition NAME (k : DirKind) : string :=
  match k with
  | Config => "ConfigDir" | Data => "DataDir" | Cache => "CacheDir" | State => "StateDir" | Runtime => "RuntimeDir"
  | Tmp => "TmpDir"
  end.
Definition COMPONENT_ID (k : DirKind) : string := "overseerd:dir:" +:+ LABEL k.
Definition PRIVATE (k : DirKind) : bool := match k with Tmp => false | _ => true end.

(** The crate's [ProjectDirs], by its accessors, and [std::env::temp_dir]. *)
Record ProjectDirs := mkProject {
  config_dir : string; data_dir : string; cache_dir : string; state_dir : option string; runtime_dir : option string }.
Definition project_path (temp_dir : string) (k : DirKind) (d : ProjectDirs) : string :=
  match k with
  | Config => config_dir d
  | Data => data_dir d
  | Cache => cache_dir d
  | State => from_option id (data_dir d) (state_dir d)
  | Runtime => from_option id (cache_dir d) (runtime_dir d)
  | Tmp => temp_dir
  end.
Definition rooted_path (k : DirKind) (root : string) : string := push root (LABEL k).

Record Dir := mkDir { dir_kind : DirKind; dir_path : string; secure_root : option string }.
Definition dir_join (d : Dir) (name : string) : string := push (dir_path d) name.

Inductive Backing := Project (d : ProjectDirs) | Rooted (root : string).
Record DirectoriesManager := mkDirectories { backing : Backing }.

Section Manager.
(** [ProjectDirs::from], and the temporary directory of the environment. *)
Context (project_dirs_from : string → string → string → option ProjectDirs) (temp_dir : string).

Definition from_path (path : string) : DirectoriesManager := mkDirectories (Rooted path).
Definition from_project (q organization application : string) : option DirectoriesManager :=
  (λ d, mkDirectories (Project d)) <$> project_dirs_from q organization application.
Definition try_for_app (application : string) : result DirectoriesManager IoError :=
  match from_project "" "" application with
  | Some m => Ok m
  | None => Err (mkIo NotFound "no home directory is available for safe application directories")
  end.
Definition dir (m : DirectoriesManager) (k : DirKind) : Dir :=
  match backing m with
  | Project d => mkDir k (project_path temp_dir k d) None
  | Rooted root => mkDir k (rooted_path k root) (Some root)
  end.
Definition config_path (m : DirectoriesManager) : string := dir_path (dir m Config).
Definition entries (m : DirectoriesManager) : list (string * string) := (λ k, (LABEL k, dir_path (dir m k))) <$> dir_kinds.
End Manager.

(** [Dir::ensure] *)
Definition ensure {S} `{Posix S} (d : Dir) : rst S IoError unit :=
  if negb (PRIVATE (dir_kind d)) then create_dir_all (dir_path d)
  else
    match secure_root d with Some root => ensure_private_directory root | None => mret tt end;;
    ensure_private_directory (dir_path d).

(** ** The [@] namespace *)

Record DirectoriesResolver := mkDirsResolver { dr_entries : gmap string string }.
Definition from_manager (temp_dir : string) (m : DirectoriesManager) : DirectoriesResolver :=
  mkDirsResolver (foldl (λ acc e, <[e.1 := e.2]> acc) ∅ (entries temp_dir m)).
#[export] Instance DirectoriesResolver_resolve : Resolver DirectoriesResolver := λ r key,
  match key with
  | String "@" label => dr_entries r !! label
  | _ => None
  end.

(** ** The prefixes a walk visits *)

(** A component other than a leading root or dot. *)
Definition plain (p : string) : Prop := str_contains "/" p = false ∧ p ≠ "" ∧ p ≠ ".".
Definition valid (l : list string) : Prop :=
  match l with
  | [] => True
  | p :: l' => (p = "/" ∨ p = "." ∨ plain p) ∧ Forall plain l'
  end.
Lemma plain_pieces s : Forall plain (List.filter plain_piece (split_on "/" s)).
Proof.
  pose proof (split_on_pieces "/" s) as H. induction H as [|p ps Hp Hps IH]; simpl; [constructor|].
  destruct (plain_piece p) eqn:Hpp; [|done]. constructor; [|done]. unfold plain_piece in Hpp.
  apply negb_true_iff, orb_false_iff in Hpp as [He Hd%bool_decide_eq_false]. repeat split; try done. by intros ->.
Qed.
Lemma components_valid p : valid (components p).
Proof.
  unfold components. pose proof (plain_pieces p) as Hp. destruct (is_absolute p); [split; auto|].
  assert (valid (List.filter plain_piece (split_on "/" p))) as Hv.
  { destruct Hp; [done|]. simpl. auto. }
  destruct (split_on "/" p) as [|q qs] eqn:Hs; [done|].
  destruct (decide (q = ".")) as [->|Hq]; [split; auto|].
  destruct q as [|[[|] [|] [|] [|] [|] [|] [|] [|]] [|d q]]; done.
Qed.

Definition render (l : list string) : string := foldl push "" l.
Fixpoint tail_text (l : list string) : string :=
  match l with [] => "" | p :: l' => String "/" (p +:+ tail_text l') end.
Lemma plain_not_sep p : str_contains "/" p = false → ends_with_sep p = false.
Proof.
  induction p as [|c p IH]; [done|]. intros [Hc Hp]%str_contains_cons_false. simpl.
  destruct p; [by rewrite bool_decide_false|]. by apply IH.
Qed.
Lemma ends_with_sep_app a p : p ≠ "" → ends_with_sep (a +:+ p) = ends_with_sep p.
Proof.
  intros Hp. induction a as [|c a IH]; [done|]. rewrite str_app_cons. rewrite <- IH. simpl.
  destruct (a +:+ p) eqn:He; [|done]. destruct a; [by destruct p|done].
Qed.
Lemma plain_relative p : plain p → is_absolute p = false.
Proof.
  intros (Hc & Hn & _). destruct p as [|c p]; [done|]. apply str_contains_cons_false in Hc as [Hc _]. simpl.
  destruct c as [[|] [|] [|] [|] [|] [|] [|] [|]]; done.
Qed.
Lemma push_all b l :
  Forall plain l → b ≠ "" → ends_with_sep b = false → foldl push b l = b +:+ tail_text l.
Proof.
  intros Hl. revert b. induction Hl as [|p l Hp Hl IH]; intros b Hb Hs; simpl; [by rewrite str_app_nil_r|].
  assert (push b p = b +:+ "/" +:+ p) as ->.
  { unfold push. rewrite plain_relative, Hs by done. by destruct b. }
  rewrite IH.
  - by rewrite !str_app_assoc.
  - by destruct b.
  - destruct Hp as (Hc & Hn & _). rewrite ends_with_sep_app by done. change ("/" +:+ p) with ("/" +:+ p).
    rewrite ends_with_sep_app by done. by apply plain_not_sep.
Qed.
Lemma split_tail b l : str_contains "/" b = false → Forall plain l → split_on "/" (b +:+ tail_text l) = b :: l.
Proof.
  intros Hb Hl. revert b Hb. induction Hl as [|p l (Hp & _) Hl IH]; intros b Hb; simpl.
  - rewrite str_app_nil_r. by apply split_on_no_sep.
  - rewrite split_on_app by done. by rewrite IH.
Qed.
Lemma filter_plain l : Forall plain l → List.filter plain_piece l = l.
Proof.
  induction 1 as [|p l (_ & Hn & Hd) Hl IH]; [done|]. simpl. unfold plain_piece at 1.
  rewrite bool_decide_false by done. destruct p; [done|]. simpl. by rewrite IH.
Qed.
(** Pushing components one by one gives a path of exactly these components. *)
Lemma components_render l : valid l → components (render l) = l.
Proof.
  destruct l as [|p l]; [done|]. intros [Hp Hl]. unfold render. cbn [foldl].
  assert (push "" p = p) as -> by (unfold push; simpl; by destruct (is_absolute p)).
  destruct Hp as [->|[->|Hp]].
  - destruct Hl as [|q l Hq Hl]; [done|]. cbn [foldl].
    assert (push "/" q = "/" +:+ q) as -> by (unfold push; by rewrite plain_relative).
    destruct Hq as (Hqc & Hqn & Hqd). rewrite push_all; [|done|done|].
    + unfold components. change (is_absolute _) with true. cbn [split_on].
      change ("/" +:+ q) with (String "/" q). rewrite str_app_cons. cbn [split_on]. rewrite bool_decide_true by done.
      rewrite split_tail by done. cbn [List.filter]. change (plain_piece "") with false. cbn iota.
      f_equal. apply (filter_plain (q :: l)). by constructor.
    + rewrite ends_with_sep_app by done. by apply plain_not_sep.
  - rewrite push_all by done. unfold components. change (is_absolute _) with false. cbn iota.
    rewrite split_tail by done. cbn [List.filter]. change (plain_piece ".") with false. cbn iota. by rewrite filter_plain.
  - destruct (Hp) as (Hpc & Hpn & Hpd). rewrite push_all; [|done|done|by apply plain_not_sep]. unfold components.
    assert (is_absolute (p +:+ tail_text l) = false) as ->.
    { apply plain_relative in Hp. destruct p as [|c p]; [done|]. rewrite str_app_cons. by simpl in *. }
    rewrite split_tail by done. rewrite (filter_plain (p :: l)) by by constructor.
    destruct p as [|[[|] [|] [|] [|] [|] [|] [|] [|]] [|d p]]; done.
Qed.
Lemma valid_take n l : valid l → valid (take n l).
Proof. destruct l as [|p l]; [by destruct n|]. intros [Hp Hl]. destruct n; [done|]. split; [done|]. by apply Forall_take. Qed.
Lemma visited_path p n : components (render (take n (components p))) = take n (components p).
Proof. apply components_render, valid_take, components_valid. Qed.
Lemma whole_path p : components (render (components p)) = components p.
Proof. apply components_render, components_valid. Qed.

(** ** What a successful walk has seen *)

Section Walk.
Context {S : Type} `{Posix S} (words : Wording).

(** The two looks at one path, at the times the walk took them. *)
Definition trusted (target : bool) (p : string) : Prop :=
  ∃ s1 l s1' s2 f s2',
    symlink_metadata p s1 = (Ok l, s1') ∧ metadata p s2 = (Ok f, s2') ∧ is_dir f = true ∧
    if target then
      is_symlink l = false ∧ uid f = effective_uid ∧
      (writable_by_others f = true → ∃ s0 s0', create_dir p PRIVATE_MODE s0 = (Ok tt, s0'))
    else (is_symlink l = true → uid l = 0) ∧ (writable_by_others f = true → sticky f = true).

Lemma observe_ok p (s : S) m created s' :
  observe p s = (Ok (m, created), s') →
  (∃ s1, symlink_metadata p s1 = (Ok m, s')) ∧
  (created = true → ∃ s0 s0', create_dir p PRIVATE_MODE s0 = (Ok tt, s0')).
Proof.
  unfold observe. destruct (symlink_metadata p s) as [[m0|e] s1] eqn:Hl; [intros [= -> <- <-]; split; [eauto|done]|].
  case_decide; [|done]. destruct (create_dir p PRIVATE_MODE s1) as [[[]|e'] s2] eqn:Hc.
  - intros Hr. inv_run. split; eauto.
  - case_decide; [|done]. intros Hr. inv_run. split; [eauto|done].
Qed.
Lemma check_symlink_ok target m p (s s' : S) :
  check_symlink words target m p s = (Ok tt, s') → s' = s ∧ (is_symlink m = true → target = false ∧ uid m = 0).
Proof.
  unfold check_symlink. destruct (is_symlink m && _) eqn:Hc; [done|]. intros [= <-]. split; [done|]. intros Hm.
  rewrite Hm in Hc. simpl in Hc. apply orb_false_iff in Hc as [? Hu%negb_false_iff%Z.eqb_eq]. done.
Qed.
Lemma check_followed_ok target created f p (s s' : S) :
  check_followed words target created f p s = (Ok tt, s') →
  s' = s ∧ is_dir f = true ∧
  (if target then uid f = effective_uid ∧ (writable_by_others f = true → created = true)
   else writable_by_others f = true → sticky f = true).
Proof.
  unfold check_followed. destruct (is_dir f); [simpl|done].
  destruct target; simpl.
  - destruct (uid f =? effective_uid) eqn:Hu; [simpl|done]. apply Z.eqb_eq in Hu.
    destruct created; simpl; [intros [= <-]; by repeat split|].
    destruct (writable_by_others f); [done|]. intros [= <-]. by repeat split.
  - destruct (writable_by_others f), (sticky f); simpl; [| done | |]; intros [= <-]; by repeat split.
Qed.

Lemma ensure_loop_ok path done_ rest (s s' : S) :
  components path = done_ ++ rest → ensure_loop words path (render done_) rest s = (Ok tt, s') →
  (∀ n, (length done_ < n ≤ length (components path))%nat →
     trusted (bool_decide (n = length (components path))) (render (take n (components path)))) ∧
  ∃ s1, set_permissions path PRIVATE_MODE s1 = (Ok tt, s').
Proof.
  revert done_ s. induction rest as [|c rest IH]; intros done_ s Hp; cbn [ensure_loop].
  { intros Hs. split; [|by eexists]. intros n. rewrite Hp, app_nil_r. lia. }
  assert (push (render done_) c = render (done_ ++ [c])) as -> by (unfold render; by rewrite foldl_snoc).
  set (p := render (done_ ++ [c])).
  assert (components path = (done_ ++ [c]) ++ rest) as Hp' by by rewrite <- app_assoc.
  assert (take (length (done_ ++ [c])) (components path) = done_ ++ [c]) as Ht by (rewrite Hp'; apply take_app_length).
  assert (path_eqb p path = bool_decide (length (done_ ++ [c]) = length (components path))) as Heq.
  { assert (components p = done_ ++ [c]) as Hcp by (unfold p; rewrite <- Ht; apply visited_path).
    unfold path_eqb. rewrite Hcp. apply bool_decide_ext. rewrite Hp', !length_app. split.
    - intros Hc. assert (rest = []) as -> by (eapply app_inv_head; rewrite app_nil_r; by symmetry). simpl. lia.
    - intros Hl. destruct rest; [by rewrite app_nil_r|]. simpl in Hl; rewrite ?length_app in Hl; simpl in Hl. lia. }
  rewrite Heq. set (target := bool_decide _). unfold mbind, rst_bind.
  destruct (observe p s) as [[[l created]|e] s1] eqn:Ho; [|done]. apply observe_ok in Ho as [[s0 Hl] Hcreated].
  destruct (check_symlink words target l p s1) as [[[]|e] s2] eqn:Hs; [|done]. apply check_symlink_ok in Hs as [-> Hs].
  destruct (metadata p s1) as [[f|e] s3] eqn:Hf; [|done].
  destruct (check_followed words target created f p s3) as [[[]|e] s4] eqn:Hk; [|done].
  apply check_followed_ok in Hk as (-> & Hdir & Hk). intros Hrest. apply (IH (done_ ++ [c])) in Hrest as [Hall Hlast]; [|done].
  split; [|done]. intros n Hn. destruct (decide (n = length (done_ ++ [c]))) as [->|Hne].
  2: { apply Hall. rewrite length_app in *. simpl in *. lia. }
  rewrite Ht. fold target p. exists s0, l, s1, s1, f, s3. repeat (split; [done|]).
  destruct target.
  - destruct Hk as [Hu Hw]. split; [|split; [done|auto]]. destruct (is_symlink l); [by destruct Hs|done].
  - split; [|done]. intros Hsym. by apply Hs.
Qed.

Lemma walk_trusts_only_safe_paths (path : string) (s s' : S) :
  ensure_loop words path "" (components path) s = (Ok tt, s') →
  (∀ n, (0 < n < length (components path))%nat → trusted false (render (take n (components path)))) ∧
  (components path ≠ [] → trusted true (render (components path))) ∧
  ∃ s1, set_permissions path PRIVATE_MODE s1 = (Ok tt, s').
Proof.
  intros Hr. destruct (ensure_loop_ok path [] (components path) s s' eq_refl Hr) as [Hall Hlast]. split; [|split; [|done]].
  - intros n Hn. specialize (Hall n ltac:(simpl; lia)). by rewrite bool_decide_false in Hall by lia.
  - intros Hne. specialize (Hall (length (components path))). rewrite bool_decide_true, firstn_all in Hall by done.
    apply Hall. destruct (components path); [done|]. simpl. lia.
Qed.
End Walk.

(** C33: a private directory is only accepted on a trusted path, whatever other
    processes do between the calls. When the walk succeeds it has looked at every
    prefix of the path: each was a directory; each proper prefix was not a
    symlink of anyone but root, and was not writable by others unless sticky;
    the directory itself was not a symlink, belonged to the effective user, and
    was writable by others only if this very call had just created it. The last
    call made the directory private. *)
Theorem ensure_trusts_only_safe_paths {S : Type} `{Posix S} (path : string) (s s' : S) :
  ensure_private_directory path s = (Ok tt, s') →
  (∀ n, (0 < n < length (components path))%nat → trusted false (render (take n (components path)))) ∧
  (components path ≠ [] → trusted true (render (components path))) ∧
  ∃ s1, set_permissions path PRIVATE_MODE s1 = (Ok tt, s').
Proof. apply walk_trusts_only_safe_paths. Qed.


(** ** A quiet file system *)

Definition permission_bits (m : Metadata) : Z := Z.land (mode m) 4095.
(** What the calls do while no other process touches the file system. *)
Class PosixLaws (S : Type) `{Posix S} : Prop := {
  symlink_metadata_pure : ∀ p s, (symlink_metadata p s).2 = s;
  metadata_pure : ∀ p s, (metadata p s).2 = s;
  (** a path that is no symlink is followed to itself *)
  metadata_of_plain : ∀ p s m, (symlink_metadata p s).1 = Ok m → is_symlink m = false → (metadata p s).1 = Ok m;
  (** [chmod] through any spelling of the path of a directory *)
  set_permissions_sets : ∀ p q w s s' m,
    set_permissions p w s = (Ok tt, s') → components p = components q →
    (symlink_metadata q s).1 = Ok m → is_symlink m = false →
    ∃ m', (symlink_metadata q s').1 = Ok m' ∧ is_symlink m' = false ∧ is_dir m' = is_dir m ∧ uid m' = uid m ∧
      permission_bits m' = Z.land w 4095;
}.

Section Quiet.
Context {S : Type} `{PosixLaws S} (words : Wording).

Lemma observe_quiet p (s : S) m created s' : observe p s = (Ok (m, created), s') → (symlink_metadata p s').1 = Ok m.
Proof.
  intros Hr. apply observe_ok in Hr as [[s1 Hl] _]. pose proof (symlink_metadata_pure p s1) as Hs. rewrite Hl in Hs.
  simpl in Hs. subst s1. by rewrite Hl.
Qed.
Lemma ensure_loop_quiet path done_ c (s s' : S) :
  components path = done_ ++ [c] → ensure_loop words path (render done_) [c] s = (Ok tt, s') →
  ∃ m, (symlink_metadata (render (components path)) s').1 = Ok m ∧ is_symlink m = false ∧ is_dir m = true ∧
    uid m = effective_uid ∧ permission_bits m = PRIVATE_MODE.
Proof.
  intros Hp. cbn [ensure_loop].
  assert (push (render done_) c = render (done_ ++ [c])) as -> by (unfold render; by rewrite foldl_snoc).
  rewrite <- Hp. set (p := render (components path)).
  assert (path_eqb p path = true) as ->.
  { apply bool_decide_eq_true. apply whole_path. }
  unfold mbind, rst_bind.
  destruct (observe p s) as [[[l created]|e] s1] eqn:Ho; [|done]. apply observe_quiet in Ho.
  destruct (check_symlink words true l p s1) as [[[]|e] s2] eqn:Hs; [|done]. apply check_symlink_ok in Hs as [-> Hs].
  destruct (is_symlink l) eqn:Hl; [by destruct Hs|].
  pose proof (metadata_of_plain _ _ _ Ho Hl) as Hm. pose proof (metadata_pure p s1) as Hm'.
  destruct (metadata p s1) as [[f|e] s3]; [|done]. simpl in Hm, Hm'. simplify_eq.
  destruct (check_followed words true created l p s1) as [[[]|e] s4] eqn:Hk; [|done].
  apply check_followed_ok in Hk as (-> & Hdir & Hu & _). intros Hset.
  destruct (set_permissions_sets _ p _ _ _ l Hset) as (m' & Hm1 & Hm2 & Hm3 & Hm4 & Hm5); [|done|done|].
  - symmetry. apply whole_path.
  - exists m'. by rewrite Hm3, Hm4.
Qed.
Lemma ensure_loop_last path done_ rest (s s' : S) :
  components path = done_ ++ rest → rest ≠ [] → ensure_loop words path (render done_) rest s = (Ok tt, s') →
  ∃ done' c s0, components path = done' ++ [c] ∧ ensure_loop words path (render done') [c] s0 = (Ok tt, s').
Proof.
  revert done_ s. induction rest as [|c rest IH]; intros done_ s Hp Hne; [done|].
  destruct rest as [|c' rest]; [intros; by exists done_, c, s|]. remember (c' :: rest) as rest'. cbn [ensure_loop].
  assert (push (render done_) c = render (done_ ++ [c])) as -> by (unfold render; by rewrite foldl_snoc).
  unfold mbind, rst_bind. destruct (observe _ s) as [[[l created]|e] s1]; [|done].
  destruct (check_symlink words _ _ _ s1) as [[[]|e] s2]; [|done]. destruct (metadata _ s2) as [[f|e] s3]; [|done].
  destruct (check_followed words _ _ _ _ s3) as [[[]|e] s4]; [|done]. apply IH; [by rewrite <- app_assoc|by subst].
Qed.

Lemma walk_secures_the_directory (path : string) (s s' : S) :
  components path ≠ [] → ensure_loop words path "" (components path) s = (Ok tt, s') →
  ∃ m, (symlink_metadata (render (components path)) s').1 = Ok m ∧ is_symlink m = false ∧ is_dir m = true ∧
    uid m = effective_uid ∧ permission_bits m = PRIVATE_MODE.
Proof.
  intros Hne Hr. destruct (ensure_loop_last path [] (components path) s s' eq_refl Hne Hr) as (d & c & s0 & Hp & Hl).
  by eapply ensure_loop_quiet.
Qed.
End Quiet.

(** a private directory is private. While no other process interferes, a
    successful call leaves the path a real directory, not a symlink, owned by
    the effective user, with permissions [0o700] and no other bit. *)
Theorem ensure_secures_the_directory {S : Type} `{PosixLaws S} (path : string) (s s' : S) :
  components path ≠ [] → ensure_private_directory path s = (Ok tt, s') →
  ∃ m, (symlink_metadata (render (components path)) s').1 = Ok m ∧ is_symlink m = false ∧ is_dir m = true ∧
    uid m = effective_uid ∧ permission_bits m = PRIVATE_MODE.
Proof. apply walk_secures_the_directory. Qed.


(** ** The namespace *)

Lemma from_manager_entries temp_dir m label :
  dr_entries (from_manager temp_dir m) !! label =
  (λ k, dir_path (dir temp_dir m k)) <$> List.find (λ k, bool_decide (LABEL k = label)) dir_kinds.
Proof.
  unfold from_manager, entries, dir_kinds. cbn [dr_entries fmap list_fmap foldl fst snd List.find].
  rewrite !lookup_insert, lookup_empty. cbn [LABEL].
  repeat case_decide; repeat case_bool_decide; subst; try done; by simplify_eq.
Qed.
(** the [@] namespace names exactly the directories the application is given:
    ["@" ++ label] resolves to the path that [dir] hands out for the kind of this
    label, and no other key resolves. *)
Theorem namespace_is_the_directories (temp_dir : string) (m : DirectoriesManager) (key v : string) :
  resolve_key (from_manager temp_dir m) key = Some v ↔
  ∃ k, key = "@" +:+ LABEL k ∧ v = dir_path (dir temp_dir m k).
Proof.
  assert (∀ k, List.find (λ k', bool_decide (LABEL k' = LABEL k)) dir_kinds = Some k) as Hfind by by intros [].
  unfold resolve_key, DirectoriesResolver_resolve. split.
  - destruct key as [|[[|] [|] [|] [|] [|] [|] [|] [|]] label]; try done. rewrite from_manager_entries.
    destruct (List.find _ dir_kinds) as [k|] eqn:Hk; [|done]. intros [= <-].
    apply find_some in Hk as [_ Hk%bool_decide_eq_true]. exists k. split; [by rewrite <- Hk|done].
  - intros (k & -> & ->). rewrite str_app_cons, str_app_nil_l, from_manager_entries, Hfind. done.
Qed.

(** ** A host *)

(** A file system by the components of its paths: what [lstat] and what [stat]
    tell of each. User 1000 runs the application, under the given umask. *)
Record Host := mkHost { files : gmap (list string) (Metadata * Metadata); umask : Z }.
Definition host_look (f : Metadata * Metadata → Metadata) (p : string) : rst Host IoError Metadata := λ h,
  match files h !! components p with
  | Some e => (Ok (f e), h)
  | None => (Err (mkIo NotFound p), h)
  end.
Definition set_mode (m : Metadata) (w : Z) : Metadata := mkMetadata (is_symlink m) (is_dir m) (uid m) w.
Definition host_mkdir (p : string) (w : Z) : rst Host IoError unit := λ h,
  match files h !! components p with
  | Some _ => (Err (mkIo AlreadyExists p), h)
  | None =>
      let m := mkMetadata false true 1000 (Z.land w (Z.lnot (umask h))) in
      (Ok tt, mkHost (<[components p := (m, m)]> (files h)) (umask h))
  end.
Fixpoint host_mkdirs (current : string) (rest : list string) (h : Host) : Host :=
  match rest with
  | [] => h
  | c :: rest' => host_mkdirs (push current c) rest' (host_mkdir (push current c) 511 h).2
  end.
Definition host_chmod (p : string) (w : Z) : rst Host IoError unit := λ h,
  match files h !! components p with
  | Some (l, f) =>
      (Ok tt, mkHost (<[components p := (if is_symlink l then l else set_mode l (Z.land w 4095), set_mode f (Z.land w 4095))]> (files h))
                (umask h))
  | None => (Err (mkIo NotFound p), h)
  end.
#[export] Instance Host_posix : Posix Host := {|
  symlink_metadata := host_look fst;
  metadata := host_look (λ e, if is_symlink e.1 then e.2 else e.1);
  create_dir := host_mkdir;
  create_dir_all := λ p h, (Ok tt, host_mkdirs "" (components p) h);
  set_permissions := host_chmod;
  effective_uid := 1000 |}.

#[export] Instance Host_laws : PosixLaws Host.
Proof.
  split; simpl; unfold host_look.
  - intros p s. by destruct (files s !! components p).
  - intros p s. by destruct (files s !! components p).
  - intros p s m. destruct (files s !! components p) as [[l f]|]; [|done]. simpl. intros [= ->] ->. done.
  - intros p q w s s' m. unfold host_chmod. intros Hs Hc. rewrite Hc in Hs.
    destruct (files s !! components q) as [[l f]|]; [|done]. simplify_eq. simpl. intros [= <-] Hsym.
    rewrite lookup_insert_eq. simpl. rewrite Hsym. exists (set_mode l (Z.land w 4095)). repeat (split; [done|]).
    unfold permission_bits. simpl. by rewrite <- Z.land_assoc, Z.land_diag.
Qed.

Definition host_dir (owner w : Z) : Metadata * Metadata := let m := mkMetadata false true owner w in (m, m).
(** [/], [/home], the user's [/home/u], and a symlink [/home/u/link] of the
    user's to a directory. *)
Definition home_host (mask : Z) : Host := mkHost
  (<[["/"] := host_dir 0 493]> (<[["/"; "home"] := host_dir 0 493]> (<[["/"; "home"; "u"] := host_dir 1000 488]>
   (<[["/"; "home"; "u"; "link"] := (mkMetadata true false 1000 511, mkMetadata false true 1000 448)]> ∅)))) mask.
Definition ensured {S} (r : result unit IoError * S) : bool := is_ok r.1.
Definition state_of (root : string) : Dir := dir "/tmp" (from_path root) State.

Lemma ensure_trusts_only_safe_paths_witness :
  ∃ s', ensure_private_directory "/home/u/app" (home_host 18) = (Ok tt, s') ∧
    trusted true "/home/u/app" ∧ trusted false "/home".
Proof.
  eexists. split; [vm_compute; reflexivity|].
  edestruct (ensure_trusts_only_safe_paths (S := Host) "/home/u/app" (home_host 18)) as (Hn & Ht & _); [vm_compute; reflexivity|].
  split; [apply Ht; discriminate|apply (Hn 2%nat); vm_compute; lia].
Defined.
Lemma ensure_secures_the_directory_witness :
  ∃ s', ensure_private_directory "/home/u/app" (home_host 18) = (Ok tt, s') ∧
    ∃ m, (symlink_metadata "/home/u/app" s').1 = Ok m ∧ permission_bits m = PRIVATE_MODE.
Proof.
  eexists. split; [vm_compute; reflexivity|].
  edestruct (ensure_secures_the_directory (S := Host) "/home/u/app" (home_host 18)) as (m & Hm & _ & _ & _ & Hp);
    [discriminate|vm_compute; reflexivity|]. exists m. split; [exact Hm|exact Hp].
Defined.

(** Creating a private directory twice succeeds; a root that is a symlink of the
    user's is refused. *)
Lemma ensure_again :
  let r := ensure (state_of "/home/u/app") (home_host 18) in
  ensured r = true ∧ ensured (ensure (state_of "/home/u/app") r.2) = true.
Proof. by vm_compute. Qed.
Lemma symlinked_root_refused :
  (ensure (state_of "/home/u/link") (home_host 18)).1 =
  Err (mkIo PermissionDenied "refusing symlinked application directory: /home/u/link").
Proof. by vm_compute. Qed.
(** The temporary directory of a rooted manager lies under its root but is not
    private, and creating it creates the root under the umask alone. With a umask
    that lets the group write, the private directories are then refused. *)
Lemma tmp_before_state_is_refused :
  let tmp := ensure (dir "/tmp" (from_path "/home/u/app") Tmp) (home_host 2) in
  ensured tmp = true ∧
  (ensure (state_of "/home/u/app") tmp.2).1 =
    Err (mkIo PermissionDenied "application directory is writable by its group or other users: /home/u/app") ∧
  ensured (ensure (state_of "/home/u/app") (home_host 2)) = true.
Proof. by vm_compute. Qed.
