(* ===== verification/DirsWindows.v ===== *)
(** * DirsWindows: private directories on Windows

    Models [crates/dirs/src/windows.rs] and the Windows side of [Dir::ensure]. A [Path]
    is its components. The system calls are an interface, [Windows], whose state other
    processes may share; a security descriptor is opaque, and the functions that convert
    one to text are arguments. The marshalling of their buffers is left out.

    A handle is closed when its owner is dropped: [dropping] closes those that a walk holds
    when it fails. *)
From S2P Require Import Prelude Dirs.

(** [std::path::Component] *)
Inductive WComponent := Prefix (text : string) | RootDir | CurDir | ParentDir | Normal (name : string).
#[export] Instance WComponent_eq_dec : EqDecision WComponent.
Proof. solve_decision. Defined.
Definition WPath : Type := list WComponent.
Definition InvalidInput : ErrorKind := OtherKind.
(** [GetFileInformationByHandleEx], by the two flags that are read. *)
Record Attributes := mkAttributes { reparse_point : bool; directory : bool }.

Class Windows (S Handle Descriptor : Type) := {
  user_sid : rst S IoError string;                              (* current_user_sid_string *)
  create_file : WPath → rst S IoError Handle;                   (* CreateFileW, without FILE_SHARE_DELETE *)
  file_information : Handle → rst S IoError Attributes;
  create_directory_w : WPath → Descriptor → rst S IoError unit; (* CreateDirectoryW, with its ACL *)
  named_security_info : WPath → rst S IoError (option Descriptor);
  close_handle : Handle → S → S;
  sddl_to_descriptor : string → result Descriptor IoError;      (* descriptor_from_sddl *)
  descriptor_to_sddl : Descriptor → result string IoError;
  display : WPath → string;
}.

(** A [PrivateDirectoryGuard] is the handles it holds. *)
Definition private_sddl (user_sid : string) : string := "O:" +:+ user_sid +:+ "D:P(A;OICI;FA;;;" +:+ user_sid +:+ ")(A;OICI;FA;;;SY)".

Section Walk.
Context {S Handle Descriptor : Type} `{Windows S Handle Descriptor}.
Definition permission_denied (why : string) : IoError := mkIo PermissionDenied why.
(** Drops, in their order, the handles that are held when a computation fails. *)
Definition close_all (held : list Handle) (s : S) : S := foldl (λ s h, close_handle h s) s held.
Definition dropping {A} (held : list Handle) (m : rst S IoError A) : rst S IoError A := λ s,
  match m s with (Ok a, s') => (Ok a, s') | (Err e, s') => (Err e, close_all held s') end.

(** [create_private_directory] *)
Definition create_private_directory (path : WPath) (d : Descriptor) : rst S IoError unit := λ s,
  match create_directory_w path d s with
  | (Ok _, s') => (Ok tt, s')
  | (Err e, s') => if decide (io_kind e = AlreadyExists) then (Ok tt, s') else (Err e, s')
  end.
(** [open_directory] *)
Definition check_attributes (path : WPath) (a : Attributes) : rst S IoError unit :=
  if reparse_point a then throw (permission_denied ("refusing reparse point in application directory: " +:+ display path))
  else if negb (directory a) then throw (mkIo NotADirectory ("application directory path is not a directory: " +:+ display path))
  else mret tt.
Definition open_directory (path : WPath) : rst S IoError Handle :=
  handle ← create_file path;
  dropping [handle] (a ← file_information handle; check_attributes path a;; mret handle).
(** One turn of the loop, which opens a component or creates and opens it. *)
Definition open_or_create (current : WPath) (d : Descriptor) : rst S IoError Handle := λ s,
  match open_directory current s with
  | (Ok handle, s1) => (Ok handle, s1)
  | (Err e, s1) => if decide (io_kind e = NotFound) then (create_private_directory current d;; open_directory current) s1 else (Err e, s1)
  end.
(** A prefix is pushed and not opened; [.] is skipped. A [..] has been refused before. *)
Fixpoint walk_loop (d : Descriptor) (current : WPath) (rest : WPath) (held : list Handle) : rst S IoError (list Handle) :=
  match rest with
  | [] => mret held
  | Prefix p :: rest' => walk_loop d (current ++ [Prefix p]) rest' held
  | CurDir :: rest' => walk_loop d current rest' held
  | component :: rest' =>
      let current := current ++ [component] in
      handle ← dropping held (open_or_create current d);
      walk_loop d current rest' (held ++ [handle])
  end.
(** [verify_private_acl] *)
Definition verify_private_acl (path : WPath) (expected_sddl : string) : rst S IoError unit :=
  found ← named_security_info path;
  match found with
  | None => throw (mkIo OtherKind "Windows returned an empty security descriptor")
  | Some d =>
      actual ← lift_result (descriptor_to_sddl d);
      expected_descriptor ← lift_result (sddl_to_descriptor expected_sddl);
      expected ← lift_result (descriptor_to_sddl expected_descriptor);
      if decide (actual = expected) then mret tt
      else throw (permission_denied ("application directory owner or private ACL does not match the current user: " +:+ display path))
  end.
(** [ensure_private_directory] *)
Definition ensure_private_windows (path : WPath) : rst S IoError (list Handle) :=
  if decide (ParentDir ∈ path) then throw (mkIo InvalidInput "private application directory must not contain '..'")
  else
    sid ← user_sid;
    descriptor ← lift_result (sddl_to_descriptor (private_sddl sid));
    held ← walk_loop descriptor [] path [];
    dropping held (verify_private_acl path (private_sddl sid));;
    mret held.
(** [Dir::ensure] of a private kind: the new guards replace those the handle kept, which
    are closed only then. *)
Definition ensure_windows (secure_root : option WPath) (path : WPath) (protection : list Handle) : rst S IoError (list Handle) :=
  root ← match secure_root with Some root => ensure_private_windows root | None => mret [] end;
  own ← dropping root (ensure_private_windows path);
  modify_ctx (close_all protection);;
  mret (root ++ own).
End Walk.

(** ** What a successful walk has opened *)

(** The directories a walk opens: the prefixes that end in the root or in a name. *)
Fixpoint opened_prefixes (current rest : WPath) : list WPath :=
  match rest with
  | [] => []
  | Prefix p :: rest' => opened_prefixes (current ++ [Prefix p]) rest'
  | CurDir :: rest' => opened_prefixes current rest'
  | component :: rest' => (current ++ [component]) :: opened_prefixes (current ++ [component]) rest'
  end.

Section Facts.
Context {S Handle Descriptor : Type} `{Windows S Handle Descriptor}.
(** [handle] was opened for [p], and showed a directory that is no reparse point. *)
Definition opened_as (p : WPath) (handle : Handle) : Prop :=
  ∃ s1 s1' s2 s2' a, create_file p s1 = (Ok handle, s1') ∧ file_information handle s2 = (Ok a, s2') ∧ reparse_point a = false ∧ directory a = true.
(** The owner and the ACL of [path] were seen to be exactly those asked for. *)
Definition seen_private (path : WPath) (sddl : string) : Prop :=
  ∃ s1 s1' d e text, named_security_info path s1 = (Ok (Some d), s1') ∧ sddl_to_descriptor sddl = Ok e ∧ descriptor_to_sddl d = Ok text ∧ descriptor_to_sddl e = Ok text.

Lemma open_directory_ok p (s : S) h s' : open_directory p s = (Ok h, s') → opened_as p h.
Proof.
  unfold open_directory, dropping, check_attributes. intros Hr. inv_run. destruct (reparse_point _) eqn:Hp; [by inv_run|].
  destruct (directory _) eqn:Hd; cbn [negb] in *; [|by inv_run]. inv_run. by eexists _, _, _, _, _.
Qed.
Lemma open_or_create_ok p d (s : S) h s' : open_or_create p d s = (Ok h, s') → opened_as p h.
Proof.
  unfold open_or_create. destruct (open_directory p s) as [[h1|e] s1] eqn:Ho; [intros [= <- <-]; by eapply open_directory_ok|]. case_decide; [|done].
  intros Hr. unfold mbind, rst_bind in Hr. destruct (create_private_directory p d s1) as [[[]|] s2]; [|done]. by eapply open_directory_ok.
Qed.
Lemma walk_loop_ok d current rest held (s : S) held' s' : ParentDir ∉ rest → walk_loop d current rest held s = (Ok held', s') →
  ∃ more, held' = held ++ more ∧ Forall2 opened_as (opened_prefixes current rest) more.
Proof.
  revert current held s. induction rest as [|c rest IH]; intros current held s Hnp; [cbn; intros [= <- <-]; exists []; by rewrite app_nil_r|].
  apply not_elem_of_cons in Hnp as [Hc Hnp].
  assert (Hstep : ∀ cur, (handle ← dropping held (open_or_create cur d); walk_loop d cur rest (held ++ [handle])) s = (Ok held', s') →
    ∃ more, held' = held ++ more ∧ Forall2 opened_as (cur :: opened_prefixes cur rest) more).
  { intros cur. unfold mbind, rst_bind, dropping. destruct (open_or_create cur d s) as [[h|] s1] eqn:Ho; [|done].
    intros (more & -> & Hm)%IH; [|done]. exists (h :: more). rewrite <- app_assoc. split; [done|]. constructor; [by eapply open_or_create_ok|done]. }
  destruct c; cbn [walk_loop opened_prefixes]; [by apply IH|apply Hstep|by apply IH|done|apply Hstep].
Qed.
Lemma verify_private_acl_ok path sddl (s s' : S) : verify_private_acl path sddl s = (Ok tt, s') → seen_private path sddl.
Proof.
  unfold verify_private_acl. intros Hr. unfold mbind, rst_bind in Hr. destruct (named_security_info path s) as [[[d|]|] s1] eqn:Hn; [|done..].
  unfold lift_result in Hr. destruct (descriptor_to_sddl d) as [text|] eqn:Hd; [|done]. destruct (sddl_to_descriptor sddl) as [e|] eqn:He; [|done].
  destruct (descriptor_to_sddl e) as [text'|] eqn:Ht; [|done]. case_decide; [|done]. subst. by eexists _, _, _, _, _.
Qed.
(** a private directory on Windows is protected from the root down. When the walk
    succeeds, the path had no [..]; every directory on it was opened, in order, by a
    handle that is still held, and that very handle showed a directory and no link, so
    none of them can be renamed or replaced while the guard lives; and the owner and the
    ACL of the directory itself were seen to be exactly those that admit the current
    user and the system only. *)
Theorem windows_walk_holds_what_it_checked (path : WPath) (s s' : S) held : ensure_private_windows path s = (Ok held, s') →
  ParentDir ∉ path ∧ Forall2 opened_as (opened_prefixes [] path) held ∧
  ∃ sid s0 s0', user_sid s0 = (Ok sid, s0') ∧ seen_private path (private_sddl sid).
Proof.
  unfold ensure_private_windows. case_decide as Hp; [done|]. intros Hr. unfold mbind, rst_bind in Hr.
  destruct (user_sid s) as [[sid|] s1] eqn:Hs; [|done]. unfold lift_result in Hr. destruct (sddl_to_descriptor _) as [d|]; [|done].
  destruct (walk_loop d [] path [] s1) as [[h|] s2] eqn:Hw; [|done]. unfold dropping in Hr.
  destruct (verify_private_acl path (private_sddl sid) s2) as [[[]|] s3] eqn:Hv; [|done]. injection Hr as -> ->.
  apply walk_loop_ok in Hw as (more & -> & Hm); [|done]. split; [done|]. split; [done|]. exists sid, s, s1. split; [done|]. by eapply verify_private_acl_ok.
Qed.
End Facts.

(** ** Handles do not leak *)

(** What the calls do to the handles of the process while no other thread opens one. *)
Class WindowsLaws (S Handle Descriptor : Type) `{Windows S Handle Descriptor} := {
  open_handles : S → list Handle;
  create_file_opens : ∀ p s, match create_file p s with (Ok h, s') => open_handles s' ≡ₚ h :: open_handles s | (Err _, s') => open_handles s' ≡ₚ open_handles s end;
  user_sid_keeps : ∀ s, open_handles (user_sid s).2 ≡ₚ open_handles s;
  file_information_keeps : ∀ h s, open_handles (file_information h s).2 ≡ₚ open_handles s;
  create_directory_keeps : ∀ p d s, open_handles (create_directory_w p d s).2 ≡ₚ open_handles s;
  named_security_keeps : ∀ p s, open_handles (named_security_info p s).2 ≡ₚ open_handles s;
  close_handle_closes : ∀ h s l, open_handles s ≡ₚ h :: l → open_handles (close_handle h s) ≡ₚ l;
}.

Section Leaks.
Context {S Handle Descriptor : Type} `{WindowsLaws S Handle Descriptor}.
(** [m] takes over the handles [pre]; it hands on those of its result, and has closed
    them all when it fails. *)
Definition owns {A} (pre : list Handle) (m : rst S IoError A) (post : A → list Handle) : Prop := ∀ s l, open_handles s ≡ₚ pre ++ l →
  match m s with (Ok a, s') => open_handles s' ≡ₚ post a ++ l | (Err _, s') => open_handles s' ≡ₚ l end.
Lemma owns_bind {A B} pre (m : rst S IoError A) mid (k : A → rst S IoError B) post : owns pre m mid → (∀ a, owns (mid a) (k a) post) → owns pre (m ≫= k) post.
Proof. intros Hm Hk s l Hs. specialize (Hm s l Hs). unfold mbind, rst_bind. destruct (m s) as [[a|e] s']; [|done]. by apply Hk. Qed.
Lemma owns_keeps {A} (m : rst S IoError A) : (∀ s, open_handles (m s).2 ≡ₚ open_handles s) → owns [] m (λ _, []).
Proof. intros Hm s l Hs. specialize (Hm s). destruct (m s) as [[a|e] s']; cbn in *; by rewrite Hm. Qed.
Lemma owns_ret {A} (a : A) post : owns (post a) (mret a) post.
Proof. by intros s l Hs. Qed.
Lemma owns_throw {A} e (post : A → list Handle) : owns [] (throw e) post.
Proof. by intros s l Hs. Qed.
Lemma owns_lift {A} (r : result A IoError) : owns [] (lift_result r) (λ _, []).
Proof. apply owns_keeps. done. Qed.
Lemma close_all_closes held s l : open_handles s ≡ₚ held ++ l → open_handles (close_all held s) ≡ₚ l.
Proof. revert s. induction held as [|h held IH]; intros s Hs; [done|]. cbn. apply IH. by apply close_handle_closes. Qed.
Lemma owns_dropping {A} held (m : rst S IoError A) post : owns [] m post → owns held (dropping held m) (λ a, held ++ post a).
Proof.
  intros Hm s l Hs. specialize (Hm s (held ++ l) Hs). unfold dropping. destruct (m s) as [[a|e] s']; [|by apply close_all_closes].
  rewrite Hm, !app_assoc. by rewrite (Permutation_app_comm (post a)).
Qed.
Lemma create_private_directory_keeps p d s : open_handles (create_private_directory p d s).2 ≡ₚ open_handles s.
Proof. pose proof (create_directory_keeps p d s) as Hk. unfold create_private_directory. destruct (create_directory_w p d s) as [[|e] s']; [done|]. by case_decide. Qed.
Lemma check_attributes_keeps p a s : open_handles (check_attributes p a s).2 ≡ₚ open_handles s.
Proof. unfold check_attributes. destruct (reparse_point a); [done|]. by destruct (directory a). Qed.
Lemma open_directory_owns p : owns [] (open_directory p) (λ h, [h]).
Proof.
  intros s l Hs. cbn [app] in Hs. pose proof (create_file_opens p s) as Hc. unfold open_directory. unfold mbind at 1. unfold rst_bind at 1.
  destruct (create_file p s) as [[h|e] s1]; [|by rewrite Hc]. unfold dropping.
  pose proof (owns_bind [] (file_information h) (λ _, []) (λ a, check_attributes p a;; mret h) (λ _, []) (owns_keeps _ (file_information_keeps h))
    (λ a, owns_bind [] _ (λ _, []) _ (λ _, []) (owns_keeps _ (check_attributes_keeps p a)) (λ _, owns_ret h (λ _, []))) s1 (h :: l)) as Hi.
  cbn [app] in Hi. rewrite Hs in Hc. specialize (Hi Hc).
  assert (Hh : ∀ h' s', (a ← file_information h; check_attributes p a;; mret h) s1 = (Ok h', s') → h' = h) by (intros h' s' Hr; unfold check_attributes in Hr; inv_run; done).
  destruct ((a ← file_information h; check_attributes p a;; mret h) s1) as [[h'|e] s2] eqn:Hr; [by rewrite (Hh h' s2 eq_refl)|]. by apply (close_all_closes [h]).
Qed.
Lemma open_or_create_owns p d : owns [] (open_or_create p d) (λ h, [h]).
Proof.
  intros s l Hs. unfold open_or_create. pose proof (open_directory_owns p s l Hs) as Ho. destruct (open_directory p s) as [[h|e] s1]; [done|]. case_decide; [|done].
  exact (owns_bind [] _ (λ _, []) _ _ (owns_keeps _ (create_private_directory_keeps p d)) (λ _, open_directory_owns p) s1 l Ho).
Qed.
Lemma walk_loop_owns d current rest held : owns held (walk_loop d current rest held) (λ held', held').
Proof.
  revert current held. induction rest as [|c rest IH]; intros current held; [apply (owns_ret held (λ held', held'))|].
  assert (Hstep : ∀ cur, owns held (handle ← dropping held (open_or_create cur d); walk_loop d cur rest (held ++ [handle])) (λ held', held')).
  { intros cur. eapply owns_bind; [apply owns_dropping, open_or_create_owns|]. intros h. apply IH. }
  destruct c; cbn [walk_loop]; [apply IH|apply Hstep|apply IH|apply Hstep..].
Qed.
Lemma verify_private_acl_owns path sddl : owns [] (verify_private_acl path sddl) (λ _, []).
Proof.
  apply (owns_bind _ _ (λ _, [])); [apply owns_keeps, named_security_keeps|]. intros [d|]; [|apply owns_throw].
  repeat (apply (owns_bind _ _ (λ _, [])); [apply owns_lift|intros ?]). case_decide; [apply (owns_ret tt (λ _, []))|apply owns_throw].
Qed.
Lemma ensure_private_owns path : owns [] (ensure_private_windows path) (λ held, held).
Proof.
  unfold ensure_private_windows. case_decide; [apply owns_throw|]. apply (owns_bind _ _ (λ _, [])); [apply owns_keeps, user_sid_keeps|]. intros sid.
  apply (owns_bind _ _ (λ _, [])); [apply owns_lift|]. intros d. eapply owns_bind; [apply walk_loop_owns|]. intros held.
  eapply owns_bind; [apply owns_dropping, verify_private_acl_owns|]. intros ?. cbn. rewrite app_nil_r. apply (owns_ret held (λ held', held')).
Qed.
(** a directory handle keeps exactly the protection of its last success. Ensuring a
    directory, however it goes, leaks no handle and closes none that is in use: when it
    succeeds, what is open is what the new guards hold, and the guards from before are
    closed; when it fails anywhere, everything it opened is closed again and the
    protection from before is untouched. *)
Theorem ensure_windows_keeps_its_protection secure_root path protection s l : open_handles s ≡ₚ protection ++ l →
  match ensure_windows secure_root path protection s with
  | (Ok new, s') => open_handles s' ≡ₚ new ++ l
  | (Err _, s') => open_handles s' ≡ₚ protection ++ l
  end.
Proof.
  intros Hs. unfold ensure_windows.
  assert (Hroot : owns [] (match secure_root with Some root => ensure_private_windows root | None => mret [] end) (λ held, held)).
  { destruct secure_root; [apply ensure_private_owns|apply (owns_ret [] (λ held, held))]. }
  set (m := match secure_root with Some root => ensure_private_windows root | None => mret [] end) in *.
  unfold mbind, rst_bind. specialize (Hroot s _ Hs). destruct (m s) as [[root|] s1]; [|done].
  pose proof (owns_dropping root _ _ (ensure_private_owns path) s1 _ Hroot) as Hown. destruct (dropping root _ s1) as [[own|] s2]; [|done].
  cbn. apply close_all_closes. rewrite Hown. apply Permutation_app_swap_app.
Qed.
End Leaks.

(** ** A host *)

Definition WHandle : Type := WPath * nat.
Record WHost := mkWHost { w_entries : list (WPath * (Attributes * string)); w_open : list WHandle; w_next : nat }.
Definition entry (p : WPath) (s : WHost) : option (Attributes * string) := snd <$> list_find (λ e, e.1 = p) (w_entries s) ≫= λ e, Some e.2.
Fixpoint remove_first (h : WHandle) (l : list WHandle) : list WHandle :=
  match l with [] => [] | h' :: l' => if decide (h = h') then l' else h' :: remove_first h l' end.
Definition not_found : IoError := mkIo NotFound "not found".
#[local] Instance WHost_windows : Windows WHost WHandle string := {|
  user_sid := mret "S-1-5-21";
  create_file := λ p s, match entry p s with Some _ => (Ok (p, w_next s), mkWHost (w_entries s) ((p, w_next s) :: w_open s) (S (w_next s))) | None => (Err not_found, s) end;
  file_information := λ h s, match entry h.1 s with Some e => (Ok e.1, s) | None => (Err not_found, s) end;
  create_directory_w := λ p d s,
    match entry p s with Some _ => (Err (mkIo AlreadyExists "exists"), s) | None => (Ok tt, mkWHost (w_entries s ++ [(p, (mkAttributes false true, d))]) (w_open s) (w_next s)) end;
  named_security_info := λ p s, (Ok (snd <$> entry p s), s);
  close_handle := λ h s, mkWHost (w_entries s) (remove_first h (w_open s)) (w_next s);
  sddl_to_descriptor := Ok;
  descriptor_to_sddl := Ok;
  display := λ p, "path";
|}.
Lemma remove_first_elem h l : h ∈ l → h :: remove_first h l ≡ₚ l.
Proof.
  induction l as [|h' l IH]; [by intros ?%elem_of_nil|]. intros Hin. cbn. case_decide as Hd; [by subst|].
  apply elem_of_cons in Hin as [?|Hin]; [done|]. rewrite <- (IH Hin) at 2. constructor.
Qed.
#[local, refine] Instance WHost_laws : WindowsLaws WHost WHandle string := {| open_handles := w_open |}.
Proof.
  - intros p s. cbn. by destruct (entry p s).
  - done.
  - intros h s. cbn. by destruct (entry h.1 s).
  - intros p d s. cbn. by destruct (entry p s).
  - done.
  - intros h s l Hs. cbn. apply (Permutation_cons_inv (a := h)). rewrite <- Hs. apply remove_first_elem. rewrite Hs. left.
Defined.

Definition v_path (names : list string) : WPath := [Prefix "C:"; RootDir] ++ (Normal <$> names).
Definition v_dir : Attributes := mkAttributes false true.
(** A drive with a directory that anyone may write in and a link. *)
Definition v_host : WHost := mkWHost [(v_path [], (v_dir, "system")); (v_path ["open"], (v_dir, "D:P(A;OICI;FA;;;WD)")); (v_path ["link"], (mkAttributes true true, "user"))] [] 0.
Definition v_outcome (r : result (list WHandle) IoError * WHost) : result nat ErrorKind * nat := (map_err io_kind (result_map length r.1), length (w_open r.2)).
Definition v_ensure (path : WPath) := ensure_private_windows path v_host.
Example windows_samples :
  v_outcome (v_ensure (v_path ["app"; "state"])) = (Ok 3%nat, 3%nat) ∧
  v_outcome (v_ensure (v_path ["open"])) = (Err PermissionDenied, 0%nat) ∧
  v_outcome (v_ensure (v_path ["link"; "state"])) = (Err PermissionDenied, 0%nat) ∧
  v_outcome (v_ensure (v_path ["app"] ++ [ParentDir; Normal "state"])) = (Err InvalidInput, 0%nat) ∧
  v_outcome (ensure_windows (Some (v_path ["app"])) (v_path ["app"; "state"]) [] v_host) = (Ok 5%nat, 5%nat) ∧
  (let '(first, s) := ensure_windows None (v_path ["app"]) [] v_host in
   match first with Ok held => v_outcome (ensure_windows None (v_path ["app"; "state"]) held s) | Err _ => (Ok 0%nat, 0%nat) end) = (Ok 3%nat, 3%nat).
Proof. vm_compute. repeat split. Qed.
Lemma windows_walk_holds_what_it_checked_witness : ∃ held s, v_ensure (v_path ["app"; "state"]) = (Ok held, s) ∧
  Forall2 opened_as [v_path []; v_path ["app"]; v_path ["app"; "state"]] held.
Proof.
  destruct (v_ensure (v_path ["app"; "state"])) as [[held|e] s] eqn:Hr; [|vm_compute in Hr; discriminate Hr]. exists held, s. split; [done|].
  apply (windows_walk_holds_what_it_checked _ _ _ _ Hr).
Defined.
Lemma ensure_windows_keeps_its_protection_witness :
  let protection := [(v_path [], 0%nat)] in let s := mkWHost (w_entries v_host) protection 1 in
  ∃ e s', ensure_windows None (v_path ["open"]) protection s = (Err e, s') ∧ w_open s' ≡ₚ protection.
Proof.
  intros protection s. pose proof (ensure_windows_keeps_its_protection None (v_path ["open"]) protection s [] ltac:(by rewrite app_nil_r)) as Hk.
  destruct (ensure_windows None (v_path ["open"]) protection s) as [[new|e] s'] eqn:Hr; [vm_compute in Hr; discriminate Hr|]. exists e, s'. split; [done|]. by rewrite app_nil_r in Hk.
Defined.
