(* ===== verification/UnixSocket.v ===== *)
(** * UnixSocket: the Unix transport's socket

    Models [crates/transport/src/transports/unix.rs]: where the socket is bound, what is
    done to its parent first, its permissions and its removal. Connections are those of
    [StreamConn]. The file system is [Posix] of [Dirs], of which the walk over the parent
    is the one of an application directory; [Sockets] adds the two calls on the socket.
    [Path::parent] is given up to its spelling. *)
From S2P Require Import Prelude ConfigResolve Dirs.

(** ** Binding *)

Class Sockets (S : Type) `{Posix S} := { unix_bind : string → rst S IoError unit; remove_file : string → rst S IoError unit }.
Definition SOCKET_MODE : Z := 384.  (* 0o600 *)
Definition socket_words : Wording := mkWording "refusing symlinked Unix socket directory" "Unix socket path is not a directory"
  "Unix socket directory is not owned by this user" "Unix socket directory is writable by its group or other users" "Unix socket directory has an unsafe writable ancestor".
(** [Path::parent] *)
Definition parent (p : string) : option string :=
  match last (components p) with None => None | Some c => if bool_decide (c = "/") then None else Some (render (removelast (components p))) end.

Section Bind.
Context {S : Type} `{Sockets S}.
(** [Path::exists] *)
Definition path_exists (p : string) : rst S IoError bool := λ s, let '(r, s') := metadata p s in (Ok (is_ok r), s').
(** [set_private_permissions], and a result that is dropped. *)
Definition set_private_permissions (p : string) (m : Z) : rst S IoError unit := set_permissions p m.
Definition ignored (m : rst S IoError unit) : rst S IoError unit := λ s, (Ok tt, (m s).2).
Definition ensure_private_parent (p : string) : rst S IoError unit := ensure_loop socket_words p "" (components p).
Definition create_dirs (p : string) : rst S IoError unit :=
  match parent p with Some d => if str_is_empty d then mret tt else ensure_private_parent d | None => mret tt end.
Definition ensure_path (p : string) : rst S IoError unit := e ← path_exists p; if e : bool then mret tt else create_dirs p.
(** [UnixTransport], without its listener and limits. *)
Record UnixTransport := mkUnix { socket_path : string }.
Definition protect_socket (p : string) : rst S IoError UnixTransport := λ s,
  match set_private_permissions p SOCKET_MODE s with
  | (Ok _, s') => (Ok (mkUnix p), s')
  | (Err e, s') => (Err e, (ignored (remove_file p) s').2)
  end.
Definition bind_with_config (p : string) : rst S IoError UnixTransport := ensure_path p;; unix_bind p;; protect_socket p.
Definition drop_transport (t : UnixTransport) : rst S IoError unit := ignored (remove_file (socket_path t)).

(** ** A bound socket is guarded *)

Lemma ensure_path_ok p (s s' : S) : ensure_path p s = (Ok tt, s') →
  (∃ m, metadata p s = (Ok m, s')) ∨
  ((∃ e s1, metadata p s = (Err e, s1)) ∧
   match parent p with
   | Some d => d ≠ "" → ∃ s1, ensure_private_parent d s1 = (Ok tt, s')
   | None => True
   end).
Proof.
  unfold ensure_path, path_exists, mbind, rst_bind. destruct (metadata p s) as [[m|e] s1] eqn:Hm; cbn; [intros [= <-]; by left; exists m|].
  intros Hc. right. split; [by exists e, s1|]. unfold create_dirs in Hc. destruct (parent p) as [d|]; [|done]. intros Hd.
  destruct (str_is_empty d) eqn:He; [by destruct d|]. by exists s1.
Qed.
Lemma bind_ok p (s s' : S) t : bind_with_config p s = (Ok t, s') →
  t = mkUnix p ∧ ∃ s1 s2, ensure_path p s = (Ok tt, s1) ∧ unix_bind p s1 = (Ok tt, s2) ∧ set_permissions p SOCKET_MODE s2 = (Ok tt, s').
Proof.
  unfold bind_with_config, protect_socket, mbind, rst_bind, set_private_permissions. destruct (ensure_path p s) as [[[]|e] s1]; [|done]. destruct (unix_bind p s1) as [[[]|e] s2] eqn:Hb; [|done].
  destruct (set_permissions p SOCKET_MODE s2) as [[[]|e] s3] eqn:Hs; [|done]. intros [= <- <-]. split; [done|]. by exists s1, s2.
Qed.
(** a socket is bound behind a guarded directory, whatever other processes do between
    the calls. A transport is only made of a path at which something was already, or
    whose parent has been walked: every prefix was a directory that others could not
    have put there, the parent itself was real, of this user, and not writable by
    others unless just created, and it was made private before the socket was bound;
    the last call made the socket private. *)
Theorem socket_is_bound_behind_its_parent p (s s' : S) t : bind_with_config p s = (Ok t, s') →
  t = mkUnix p ∧ (∃ s1 s2, unix_bind p s1 = (Ok tt, s2) ∧ set_permissions p SOCKET_MODE s2 = (Ok tt, s') ∧
    ((∃ m, metadata p s = (Ok m, s1)) ∨
     ∀ d, parent p = Some d → d ≠ "" →
       (∀ n, (0 < n < length (components d))%nat → trusted false (render (take n (components d)))) ∧ trusted true d ∧
       ∃ s0, set_permissions d PRIVATE_MODE s0 = (Ok tt, s1))).
Proof.
  intros (-> & s1 & s2 & Hp & Hb & Hs)%bind_ok. split; [done|]. exists s1, s2. split; [done|]. split; [done|].
  apply ensure_path_ok in Hp as [Hm|[_ Hd]]; [by left|]. right. intros d Hpar Hne. rewrite Hpar in Hd. destruct (Hd Hne) as [s0 Hw].
  apply walk_trusts_only_safe_paths in Hw as (Hall & Hlast & Hset). split; [done|]. split; [|done].
  unfold parent in Hpar. destruct (last (components p)) as [c|]; [|done]. case_bool_decide; [done|]. injection Hpar as <-.
  assert (Hc : components (render (removelast (components p))) = removelast (components p)).
  { apply components_render. rewrite removelast_firstn_len. apply valid_take, components_valid. }
  rewrite Hc in Hlast. apply Hlast. intros Hnil. by rewrite Hnil in Hne.
Qed.
(** When the last call fails the socket is removed again. *)
Lemma failed_bind_removes_the_socket p (s s1 s2 s3 : S) e : ensure_path p s = (Ok tt, s1) → unix_bind p s1 = (Ok tt, s2) →
  set_permissions p SOCKET_MODE s2 = (Err e, s3) → bind_with_config p s = (Err e, (remove_file p s3).2).
Proof. unfold bind_with_config, protect_socket, mbind, rst_bind, set_private_permissions. by intros -> -> ->. Qed.
End Bind.

(** ** A quiet file system *)

(** What the calls do while no other process touches the file system. *)
Class SocketLaws (S : Type) `{Sockets S} : Prop := {
  socket_posix :: PosixLaws S;
  unix_bind_creates : ∀ p s s', unix_bind p s = (Ok tt, s') → ∃ m, (symlink_metadata p s').1 = Ok m ∧ is_symlink m = false;
  unix_bind_elsewhere : ∀ p q s s', unix_bind p s = (Ok tt, s') → components q ≠ components p → (symlink_metadata q s').1 = (symlink_metadata q s).1;
  set_permissions_elsewhere : ∀ p q w s s' m, set_permissions p w s = (Ok tt, s') → (symlink_metadata p s).1 = Ok m → is_symlink m = false →
    components q ≠ components p → (symlink_metadata q s').1 = (symlink_metadata q s).1 }.

Lemma parent_components p d : parent p = Some d → components d = removelast (components p) ∧ components p ≠ [].
Proof.
  unfold parent. destruct (last (components p)) as [c|] eqn:Hl; [|done]. case_bool_decide; [done|]. intros [= <-]. split; [|by intros Hn; rewrite Hn in Hl].
  apply components_render. rewrite removelast_firstn_len. apply valid_take, components_valid.
Qed.
Lemma parent_differs p d : parent p = Some d → components d ≠ components p.
Proof.
  intros [-> Hne]%parent_components Heq. rewrite removelast_firstn_len in Heq. apply (f_equal length) in Heq. rewrite length_take in Heq.
  destruct (components p); [done|]. cbn in Heq. lia.
Qed.
Section Quiet.
Context {S : Type} `{SocketLaws S}.
(** while nothing else touches the file system, a transport of a new path has a private
    socket in a private directory of the user. *)
Theorem socket_and_parent_are_private p d (s s' : S) t :
  bind_with_config p s = (Ok t, s') → is_ok (metadata p s).1 = false → parent p = Some d → d ≠ "" →
  (∃ m, (symlink_metadata p s').1 = Ok m ∧ permission_bits m = SOCKET_MODE) ∧
  (∃ m, (symlink_metadata d s').1 = Ok m ∧ is_symlink m = false ∧ is_dir m = true ∧ uid m = effective_uid ∧ permission_bits m = PRIVATE_MODE).
Proof.
  intros (_ & s1 & s2 & Hp & Hb & Hs)%bind_ok Hnew Hd Hne.
  apply ensure_path_ok in Hp as [[m Hm]|[_ Hpar]]; [by rewrite Hm in Hnew|]. rewrite Hd in Hpar. destruct (Hpar Hne) as [s0 Hw]. clear Hpar.
  destruct (parent_components p d Hd) as [Hcd Hcp]. pose proof (parent_differs p d Hd) as Hdiff.
  assert (Hrd : d = render (components d)).
  { rewrite Hcd. unfold parent in Hd. destruct (last (components p)); [|done]. case_bool_decide; [done|]. by injection Hd as <-. }
  assert (Hdn : components d ≠ []). { intros Hn. rewrite Hn in Hrd. by rewrite Hrd in Hne. }
  destruct (walk_secures_the_directory socket_words d s0 s1 Hdn Hw) as (md & Hmd & Hrest). rewrite <- Hrd in Hmd.
  destruct (unix_bind_creates _ _ _ Hb) as (m & Hm & Hsym).
  destruct (set_permissions_sets p p _ _ _ m Hs eq_refl Hm Hsym) as (m' & Hm' & _ & _ & _ & Hbits). split; [by exists m'|].
  exists md. split; [|done]. rewrite (set_permissions_elsewhere _ d _ _ _ m Hs Hm Hsym Hdiff). by rewrite (unix_bind_elsewhere _ d _ _ Hb Hdiff).
Qed.
End Quiet.

(** ** The host of [Dirs] *)

Definition host_bind (p : string) : rst Host IoError unit := λ h,
  match files h !! components p with
  | Some _ => (Err (mkIo OtherKind "address in use"), h)
  | None => let m := mkMetadata false false 1000 (Z.land 511 (Z.lnot (umask h))) in (Ok tt, mkHost (<[components p := (m, m)]> (files h)) (umask h))
  end.
Definition host_remove (p : string) : rst Host IoError unit := λ h,
  match files h !! components p with Some _ => (Ok tt, mkHost (delete (components p) (files h)) (umask h)) | None => (Err (mkIo NotFound p), h) end.
#[export] Instance Host_sockets : Sockets Host := { unix_bind := host_bind; remove_file := host_remove }.
#[export] Instance Host_socket_laws : SocketLaws Host.
Proof.
  split; [apply Host_laws|..].
  - intros p s s'. simpl. unfold host_bind, host_look. destruct (files s !! components p); [done|]. intros [= <-]. simpl. rewrite lookup_insert_eq. by eexists.
  - intros p q s s'. simpl. unfold host_bind, host_look. destruct (files s !! components p); [done|]. intros [= <-] Hne. simpl. rewrite lookup_insert_ne by done. by destruct (files s !! _).
  - intros p q w s s' m. simpl. unfold host_chmod, host_look. destruct (files s !! components p) as [[l f]|]; [|done]. intros [= <-] _ _ Hne. simpl.
    rewrite lookup_insert_ne by done. by destruct (files s !! _).
Qed.
Definition mode_of (p : string) (h : Host) : option Z := permission_bits <$> result_ok (symlink_metadata p h).1.
Definition bound (p : string) (h : Host) : result UnixTransport IoError * option Z * option Z :=
  let r := bind_with_config p h in (r.1, mode_of p r.2, parent p ≫= λ d, mode_of d r.2).
Example socket_samples :
  bound "/home/u/app/daemon.sock" (home_host 18) = (Ok (mkUnix "/home/u/app/daemon.sock"), Some 384, Some 448) ∧
  bound "/home/u/link/daemon.sock" (home_host 18) = (Err (mkIo PermissionDenied "refusing symlinked Unix socket directory: /home/u/link"), None, Some 511) ∧
  bound "/home/u/link/nested/daemon.sock" (home_host 18) = (Err (mkIo PermissionDenied "refusing symlinked Unix socket directory: /home/u/link"), None, None) ∧
  bound "/home/daemon.sock" (home_host 18) = (Err (mkIo PermissionDenied "Unix socket directory is not owned by this user: /home"), None, Some 493) ∧
  bound "daemon.sock" (home_host 18) = (Ok (mkUnix "daemon.sock"), Some 384, None) ∧
  parent "/daemon.sock" = Some "/" ∧ parent "/" = None ∧ parent "daemon.sock" = Some "".
Proof. vm_compute. repeat split. Qed.
(** Dropping the transport removes the socket. *)
Example dropped_socket : let h := (bind_with_config "/home/u/app/daemon.sock" (home_host 18)).2 in
  mode_of "/home/u/app/daemon.sock" (drop_transport (mkUnix "/home/u/app/daemon.sock") h).2 = None.
Proof. vm_compute. reflexivity. Qed.

Lemma socket_is_bound_behind_its_parent_witness : ∃ h, bind_with_config "/home/u/app/daemon.sock" (home_host 18) = (Ok (mkUnix "/home/u/app/daemon.sock"), h) ∧
  trusted true "/home/u/app" ∧ trusted false "/home".
Proof.
  destruct (bind_with_config "/home/u/app/daemon.sock" (home_host 18)) as [r h] eqn:Hr. assert (r = Ok (mkUnix "/home/u/app/daemon.sock")) as -> by (vm_compute in Hr; by injection Hr as <- _).
  exists h. split; [done|]. destruct (socket_is_bound_behind_its_parent _ _ _ _ Hr) as (_ & s1 & s2 & _ & _ & [[m Hm]|Hd]); [vm_compute in Hm; discriminate Hm|].
  destruct (Hd "/home/u/app" eq_refl ltac:(done)) as (Hn & Ht & _). split; [exact Ht|]. apply (Hn 2%nat). vm_compute. lia.
Defined.
Lemma socket_and_parent_are_private_witness : ∃ h, bind_with_config "/home/u/app/daemon.sock" (home_host 18) = (Ok (mkUnix "/home/u/app/daemon.sock"), h) ∧
  (∃ m, (symlink_metadata "/home/u/app/daemon.sock" h).1 = Ok m ∧ permission_bits m = 384) ∧
  (∃ m, (symlink_metadata "/home/u/app" h).1 = Ok m ∧ permission_bits m = 448).
Proof.
  destruct (bind_with_config "/home/u/app/daemon.sock" (home_host 18)) as [r h] eqn:Hr. assert (r = Ok (mkUnix "/home/u/app/daemon.sock")) as -> by (vm_compute in Hr; by injection Hr as <- _).
  exists h. split; [done|]. destruct (socket_and_parent_are_private _ "/home/u/app" _ _ _ Hr eq_refl eq_refl ltac:(done)) as [Hs (m & Hm & _ & _ & _ & Hb)].
  split; [exact Hs|]. by exists m.
Defined.

(** A directory that was there is made private all the same: binding a socket in the
    user's home, which its group could read, takes that away. *)
Theorem existing_directory_is_changed : mode_of "/home/u" (home_host 18) = Some 488 ∧
  bound "/home/u/daemon.sock" (home_host 18) = (Ok (mkUnix "/home/u/daemon.sock"), Some 384, Some 448).
Proof. vm_compute. repeat split. Qed.
(** A socket that a killed process has left is not cleared: the next bind skips the walk
    and fails. *)
Theorem stale_socket_blocks :
  let h := (bind_with_config "/home/u/app/daemon.sock" (home_host 18)).2 in
  (bind_with_config "/home/u/app/daemon.sock" h).1 = Err (mkIo OtherKind "address in use").
Proof. vm_compute. reflexivity. Qed.
