(* ===== verification/AppBuild.v ===== *)
(** * AppBuild: registering and assembling an application

    Models [crates/app/src/registry.rs], [error.rs], [runtime.rs] and the
    builder of [app.rs]. The builder composes the other components: the
    configuration manager and its store, the validated component graph, the
    scope plan, the hook manager and the root container.

    - The value of a framework singleton in the container is erased; the boxing
      functions and type descriptors are arguments.
    - The order in which a hash table is walked is an argument, [concretes] and
      [traits], as in [DiSort]. [None] is a panic, or a factory that does not
      return.
    - The hook manager that components receive, the one the reloader holds and
      the application's own share one state, so the assembled values hold the
      manager as it is once attached. *)
From S2P Require Import Prelude CoreTypes ConfigValue ConfigResolve ConfigDefaults ConfigSource ConfigDe ConfigManager Hooks Reload DiTypes ProviderOrder DiRegistry DiSort DiContainer Dirs.

Inductive AppError : Type :=
| AppUndeclaredScope (component scope : string)
| MissingConfig (component type_name path : string)
| AmbiguousConfig (component type_name : string) (count : nat) (paths : string)
| AppDirectories (source : Dirs.IoError)
| AppDi (source : DiError)
| AppConfig (source : ConfigError)
| AppHook (source : HookError)
| AppOther (text : string).

(** Computations that may fail with an application error, or may not return. *)
Definition outcome A : Type := option (result A AppError).
Definition outcome_bind {A B} (m : outcome A) (f : A → outcome B) : outcome B :=
  match m with None => None | Some (Err e) => Some (Err e) | Some (Ok a) => f a end.
Notation "x ←! m ; k" := (outcome_bind m (λ x, k)) (at level 20, m at level 100, k at level 200, right associativity).
(** [map_err] on a computation that may not return. *)
Definition wrap_err {A E F} (f : E → F) (m : option (result A E)) : option (result A F) := map_err f <$> m.

Section Registry.
Context {Construct Value : Type}.
Abbreviation Component := (ComponentDescriptor Construct).
Abbreviation Binding := (ConfigBinding Value).

Record AppRegistry := mkAppRegistry {
  app_components : list Component; app_providers : list ProviderDescriptor; app_bindings : list Binding }.
Definition AppRegistry_default : AppRegistry := mkAppRegistry [] [] [].

(** [AppRegistry::collect] over the link-time slices. *)
Definition AppRegistry_collect (linked : list Component) (linked_providers : list ProviderDescriptor)
    (linked_bindings : list Binding) : AppRegistry :=
  let c := DiRegistry.collect linked linked_providers in
  mkAppRegistry (DiRegistry.components c) (providers c) (sort_by descriptor_leb linked_bindings).
Definition component_registry (r : AppRegistry) : ComponentRegistry Construct :=
  mkRegistry (app_components r) (app_providers r).
Definition app_resolved_components (r : AppRegistry) : result (list Component) AppError :=
  map_err AppDi (resolved_components (component_registry r)).

(** ** Configuration edges *)

(** The paths each type is bound at, in binding order. *)
Definition bound_paths (bs : list Binding) : gmap TypeId (list string) :=
  foldl (λ m b, let T := type_id (ct_ty (cb_type b)) in
           <[T := from_option id [] (m !! T) ++ [cb_path b]]> m) ∅ bs.
Definition check_config_edge (bound : gmap TypeId (list string)) (c : Component) (dep : DependencyDescriptor) :
    result unit AppError :=
  let paths := from_option id [] (bound !! type_id (dep_ty dep)) in
  match qualifier dep with
  | Some path =>
      if bool_decide (path ∈ paths) then Ok tt
      else Err (MissingConfig (c_name c) (type_name (dep_ty dep)) path)
  | None =>
      match paths with
      | [_] => Ok tt
      | [] => Err (MissingConfig (c_name c) (type_name (dep_ty dep)) "<unqualified>")
      | _ => Err (AmbiguousConfig (c_name c) (type_name (dep_ty dep)) (length paths) (join ", " paths))
      end
  end.
Fixpoint check_config_edges (bound : gmap TypeId (list string)) (edges : list (Component * DependencyDescriptor)) :
    result unit AppError :=
  match edges with
  | [] => Ok tt
  | (c, dep) :: edges' =>
      match check_config_edge bound c dep with Err e => Err e | Ok _ => check_config_edges bound edges' end
  end.
(** The config dependencies in the order of the two loops. *)
Definition config_edges (cs : list Component) : list (Component * DependencyDescriptor) :=
  flat_map (λ c, pair c <$> List.filter config (dependencies c)) cs.
Definition validate_configs (bs : list Binding) (cs : list Component) : result unit AppError :=
  check_config_edges (bound_paths bs) (config_edges cs).

(** [AppRegistry::validate] *)
Definition app_validate (concretes traits : list TypeId) (r : AppRegistry) : outcome unit :=
  _ ←! wrap_err AppDi (DiRegistry.validate concretes traits (component_registry r));
  cs ←! Some (app_resolved_components r);
  Some (validate_configs (app_bindings r) cs).
End Registry.
Arguments AppRegistry : clear implicits.

Lemma outcome_bind_ok {A B} (m : outcome A) (f : A → outcome B) b :
  outcome_bind m f = Some (Ok b) → ∃ a, m = Some (Ok a) ∧ f a = Some (Ok b).
Proof. destruct m as [[a|e]|]; simpl; [eauto|done|done]. Qed.
Lemma wrap_err_ok {A E F} (f : E → F) (m : option (result A E)) a : wrap_err f m = Some (Ok a) ↔ m = Some (Ok a).
Proof. destruct m as [[x|e]|]; simpl; split; intros; by simplify_eq/=. Qed.

Section EdgeFacts.
Context {Construct Value : Type}.
Abbreviation Component := (ComponentDescriptor Construct).
Abbreviation Binding := (ConfigBinding Value).

(** The paths a type is bound at. *)
Definition paths_of (bs : list Binding) (T : TypeId) : list string :=
  cb_path <$> List.filter (λ b, type_id (ct_ty (cb_type b)) =? T) bs.
Definition edge_bound (bs : list Binding) (dep : DependencyDescriptor) : Prop :=
  match qualifier dep with
  | Some path => path ∈ paths_of bs (type_id (dep_ty dep))
  | None => ∃ path, paths_of bs (type_id (dep_ty dep)) = [path]
  end.
Definition edge_error (bs : list Binding) (c : Component) (dep : DependencyDescriptor) : AppError :=
  match qualifier dep, paths_of bs (type_id (dep_ty dep)) with
  | Some path, _ => MissingConfig (c_name c) (type_name (dep_ty dep)) path
  | None, [] => MissingConfig (c_name c) (type_name (dep_ty dep)) "<unqualified>"
  | None, paths => AmbiguousConfig (c_name c) (type_name (dep_ty dep)) (length paths) (join ", " paths)
  end.

Lemma bound_paths_lookup (bs : list Binding) T : from_option id [] (bound_paths bs !! T) = paths_of bs T.
Proof. unfold bound_paths. by rewrite bindings_by_type_lookup, lookup_empty. Qed.
Lemma check_config_edge_cases bs c dep :
  (check_config_edge (bound_paths bs) c dep = Ok tt ∧ edge_bound bs dep) ∨
  (check_config_edge (bound_paths bs) c dep = Err (edge_error bs c dep) ∧ ¬ edge_bound bs dep).
Proof.
  unfold check_config_edge, edge_bound, edge_error. rewrite bound_paths_lookup.
  destruct (qualifier dep) as [path|]; [case_bool_decide; auto|].
  destruct (paths_of bs _) as [|p [|q ps]]; [right|left|right]; (split; [done|]); [by intros [??]|eauto|by intros [??]].
Qed.

Lemma check_config_edges_ok (bs : list Binding) (edges : list (Component * DependencyDescriptor)) :
  check_config_edges (bound_paths bs) edges = Ok tt → ∀ c dep, (c, dep) ∈ edges → edge_bound bs dep.
Proof.
  induction edges as [|[c dep] edges IH]; cbn [check_config_edges]; [by intros _ c dep ?%not_elem_of_nil|].
  destruct (check_config_edge_cases bs c dep) as [[-> Hb]|[-> Hb]]; [|done].
  intros Hedges c' dep' [[= -> ->]|Hin]%elem_of_cons; [done|by eapply IH].
Qed.

(** a missing or ambiguous configuration is found before anything is built.
    Validation succeeds exactly when every config dependency has the binding it
    names, or names none and its type has a single binding; otherwise it reports
    the first dependency, in component order, for which that fails, as missing or
    as ambiguous with all the paths of its type. *)
Theorem validate_configs_outcome (bs : list Binding) (cs : list Component) :
  match validate_configs bs cs with
  | Ok _ => ∀ c dep, (c, dep) ∈ config_edges cs → edge_bound bs dep
  | Err e => ∃ before c dep after, config_edges cs = before ++ (c, dep) :: after ∧
      (∀ c' dep', (c', dep') ∈ before → edge_bound bs dep') ∧ ¬ edge_bound bs dep ∧ e = edge_error bs c dep
  end.
Proof.
  unfold validate_configs. induction (config_edges cs) as [|[c dep] edges IH]; simpl.
  { by intros c dep ?%not_elem_of_nil. }
  destruct (check_config_edge_cases bs c dep) as [[-> Hb]|[-> Hb]].
  - destruct (check_config_edges _ edges) as [|e].
    + intros c' dep' [[= -> ->]|Hin]%elem_of_cons; [done|by eapply IH].
    + destruct IH as (before & c' & dep' & after & -> & Hbefore & Hnot & ->).
      exists ((c, dep) :: before), c', dep', after. split; [done|]. split; [|done].
      intros c2 dep2 [[= -> ->]|Hin]%elem_of_cons; [done|by eapply Hbefore].
  - exists [], c, dep, edges. split; [done|]. split; [|done]. by intros c' dep' ?%not_elem_of_nil.
Qed.

Lemma config_edges_elem (cs : list Component) c dep :
  (c, dep) ∈ config_edges cs ↔ c ∈ cs ∧ dep ∈ dependencies c ∧ config dep = true.
Proof.
  unfold config_edges. rewrite list_elem_of_In, in_flat_map. split.
  - intros (c' & Hc & Hp). apply list_elem_of_In, list_elem_of_fmap in Hp as (dep' & [= <- <-] & Hd).
    apply list_elem_of_In, filter_In in Hd as [Hd Hcfg]. rewrite !list_elem_of_In. done.
  - intros (Hc & Hd & Hcfg). exists c. rewrite <- !list_elem_of_In. split; [done|]. apply list_elem_of_fmap.
    exists dep. split; [done|]. apply list_elem_of_In, filter_In. by rewrite <- list_elem_of_In.
Qed.

(** ** The store of a set of bindings *)

Definition config_edge_resolves (store : ConfigStore) (dep : DependencyDescriptor) : Prop :=
  let T := type_id (dep_ty dep) in
  match qualifier dep with
  | Some path => is_Some (resolve_path T path store)
  | None => is_Some (resolve_sole T store)
  end.

Lemma build_bindings_bound (m : ConfigManager Value) vars (bs : list Binding) cell store slots cs store' slots' cs' :
  build_bindings m vars bs cell (store, slots, cs) = Some (Ok (store', slots', cs')) →
  ∀ T path, is_Some (resolve_path T path store') ↔ is_Some (resolve_path T path store) ∨ path ∈ paths_of bs T.
Proof.
  revert cell store slots cs. induction bs as [|b bs IH]; intros cell store slots cs; simpl.
  { intros [= <- <- <-] T path. unfold paths_of. simpl. set_solver. }
  destruct (get_config_with_snapshot _ _ _ _) as [[[v|] snap]|e]; [|done|done].
  intros Hb T path. rewrite (IH _ _ _ _ Hb T path). clear Hb IH.
  destruct (store_resolution store (type_id (ct_ty (cb_type b))) (cb_path b) cell) as (Heq & Hne & _).
  unfold paths_of. cbn [List.filter]. destruct (decide (type_id (ct_ty (cb_type b)) = T)) as [HT|HT].
  - rewrite HT, Z.eqb_refl. rewrite HT in Heq, Hne. cbn [fmap list_fmap]. rewrite elem_of_cons.
    destruct (decide (path = cb_path b)) as [->|Hp]; [rewrite Heq; naive_solver|]. rewrite Hne by congruence. naive_solver.
  - rewrite (proj2 (Z.eqb_neq _ _) HT). rewrite Hne by congruence. done.
Qed.
Lemma resolve_sole_single T (store : ConfigStore) path :
  (∀ path', is_Some (resolve_path T path' store) ↔ path' = path) → is_Some (resolve_sole T store).
Proof.
  unfold resolve_path, resolve_sole. intros H. destruct (store !! T) as [m|]; simpl in *.
  - destruct (m !! path) as [c|] eqn:Hc; [|destruct (proj2 (H path) eq_refl) as [? Hc']; congruence].
    assert (m = {[path := c]}) as ->; [|by rewrite map_to_list_singleton].
    apply map_eq. intros p. destruct (decide (p = path)) as [->|Hp]; [by rewrite lookup_singleton_eq|].
    rewrite lookup_singleton_ne by done. destruct (m !! p) as [c'|] eqn:Hp'; [|done].
    destruct Hp. apply H. by rewrite Hp'.
  - by destruct (proj2 (H path) eq_refl).
Qed.
Lemma bound_edge_resolves (m : ConfigManager Value) vars store slots cs dep :
  ConfigStore_build m vars = Some (Ok (store, slots, cs)) → edge_bound (cm_bindings m) dep →
  config_edge_resolves store dep.
Proof.
  intros Hb. pose proof (build_bindings_bound _ _ _ _ _ _ _ _ _ _ Hb (type_id (dep_ty dep))) as Hbound.
  assert (∀ path, ¬ is_Some (resolve_path (type_id (dep_ty dep)) path (∅ : ConfigStore))) as Hempty.
  { intros path. unfold resolve_path. rewrite lookup_empty. by intros [??]. }
  unfold edge_bound, config_edge_resolves. destruct (qualifier dep) as [path|].
  - intros Hp. apply Hbound. by right.
  - intros [path Hp]. apply (resolve_sole_single _ _ path). intros path'. rewrite Hbound, Hp, list_elem_of_singleton.
    split; [intros [H|H]; [by destruct (Hempty path')|done]|auto].
Qed.
End EdgeFacts.

(** ** The builder *)

Section Builder.
Context {V Hd Rv Value World HookCx Any Plugin Protocol PluginError : Type}.
Abbreviation Factory := (@Program V Hd Rv).
Abbreviation Component := (ComponentDescriptor Factory).
Abbreviation Boxed := (@BoxedComponent V).
Abbreviation Registry := (AppRegistry Factory Value).
Abbreviation Hook := (HookDescriptor World HookCx Any).

(** [AppRuntime] *)
Record AppRuntime := mkRuntime {
  rt_name : string;
  rt_root : list (@ScopeContainer V Rv);
  rt_scopes : @ScopeRegistry V Hd Rv;
  rt_orders : gmap string (list Component);
  rt_resolved : list Component;
  rt_hooks : HookManager World HookCx Any;
}.

(** The traits [Plugin] and [ProtocolPlugin], as their operations. *)
Record ProtocolPlugin := mkPlugin {
  plugin_default : Plugin;
  plugin_auto_discover : Plugin → Plugin;
  plugin_register : Plugin → Registry → Registry;
  SCOPES : list Scope;
  plugin_build : Plugin → AppRuntime → result Protocol PluginError;
  from_app_error : AppError → PluginError;
}.
Context (P : ProtocolPlugin).

Record AppBuilder := mkBuilder {
  b_name : string;
  b_registry : Registry;
  b_instances : list Boxed;
  b_config_source : option (ConfigManager Value);
  b_auto_discover_configs : bool;
  b_dirs : option DirectoriesManager;
  b_protocol : Plugin;
}.
Definition AppBuilder_new (name : string) : AppBuilder :=
  mkBuilder name AppRegistry_default [] None false None (plugin_default P).
Definition set_registry (f : Registry → Registry) (b : AppBuilder) : AppBuilder :=
  mkBuilder (b_name b) (f (b_registry b)) (b_instances b) (b_config_source b) (b_auto_discover_configs b) (b_dirs b)
    (b_protocol b).
Definition add_component (c : Component) (r : Registry) : Registry :=
  mkAppRegistry (app_components r ++ [c]) (app_providers r) (app_bindings r).
Definition add_binding (x : ConfigBinding Value) (r : Registry) : Registry :=
  mkAppRegistry (app_components r) (app_providers r) (app_bindings r ++ [x]).

Definition config_source (m : ConfigManager Value) (b : AppBuilder) : AppBuilder :=
  mkBuilder (b_name b) (b_registry b) (b_instances b) (Some m) (b_auto_discover_configs b) (b_dirs b) (b_protocol b).
Definition directories (d : DirectoriesManager) (b : AppBuilder) : AppBuilder :=
  mkBuilder (b_name b) (b_registry b) (b_instances b) (b_config_source b) (b_auto_discover_configs b) (Some d)
    (b_protocol b).
Definition config_binding (x : ConfigBinding Value) : AppBuilder → AppBuilder := set_registry (add_binding x).
Definition with_component (id name : string) (value : Boxed) (b : AppBuilder) : AppBuilder :=
  let b' := set_registry (add_component (manual id name (b_ty value) Singleton)) b in
  mkBuilder (b_name b') (b_registry b') (b_instances b' ++ [value]) (b_config_source b') (b_auto_discover_configs b')
    (b_dirs b') (b_protocol b').
(** Also [component_descriptor]. *)
Definition component (c : Component) : AppBuilder → AppBuilder := set_registry (add_component c).
Definition plugin (register : Registry → Registry) : AppBuilder → AppBuilder := set_registry register.
(** The discovered config bindings are not merged here, but by [build]. *)
Definition app_auto_discover (discovered : Registry) (b : AppBuilder) : AppBuilder :=
  mkBuilder (b_name b)
    (mkAppRegistry (app_components (b_registry b) ++ app_components discovered)
       (app_providers (b_registry b) ++ app_providers discovered) (app_bindings (b_registry b)))
    (b_instances b) (b_config_source b) true (b_dirs b) (plugin_auto_discover P (b_protocol b)).

(** ** Framework singletons *)

(** The identity and the boxed value of a framework singleton. *)
Record Builtin := mkBuiltin { bi_id : string; bi_name : string; bi_ty : TypeDescriptor }.
Definition builtin_descriptor (x : Builtin) : Component := manual (bi_id x) (bi_name x) (bi_ty x) Singleton.
Context (DIRECTORIES SHUTDOWN_HANDLE ROOT_RESOLVER CONFIG_RELOADER HOOK_MANAGER : Builtin) (dir_ty : DirKind → TypeDescriptor).
Context (box_directories : DirectoriesManager → V) (box_dir : Dir → V)
  (boxed_shutdown boxed_root_resolver boxed_hooks boxed_reloader : V).
Context (project_dirs_from : string → string → string → option ProjectDirs) (temp_dir : string).

Definition Seeds : Type := Registry * list Boxed.
Definition seed (x : Builtin) (value : V) (s : Seeds) : Seeds :=
  (add_component (builtin_descriptor x) s.1, s.2 ++ [mkBoxed (bi_ty x) value]).
Definition seed_dir (d : DirectoriesManager) (s : Seeds) (k : DirKind) : Seeds :=
  seed (mkBuiltin (COMPONENT_ID k) (NAME k) (dir_ty k)) (box_dir (dir temp_dir d k)) s.
Definition seed_directories (d : DirectoriesManager) (s : Seeds) : Seeds :=
  foldl (seed_dir d) (seed DIRECTORIES (box_directories d) s) dir_kinds.
Definition seed_builtins (s : Seeds) : Seeds :=
  seed ROOT_RESOLVER boxed_root_resolver (seed SHUTDOWN_HANDLE boxed_shutdown s).

(** ** [AppBuilder::build] *)

Context (toml_from_str : string → result TomlValue string) (yaml_from_str : string → result YamlValue string)
  (number_to_string : YamlNumber → string) (debug_key : YamlValue → string) (yaml_feature : bool)
  (fs : FileSystem) (vars : gmap string string).
Context (discovered_bindings : list (ConfigBinding Value)) (hooks_of : Component → list Hook).
Context (erase : ProviderDescriptor → Boxed → Boxed) (concretes traits : list TypeId) (fuel : nat)
  (ComponentSource CONFIG_STORE : TypeId) (self_source : Rv) (store_resolver : ConfigStore → Rv).
(** A reload reaches a hook with its proposal as the erased context. *)
Context (erase_proposal : ReloadProposal Value → HookCx).

(** [ConfigManager::with_directories] *)
Definition with_directories (d : DirectoriesManager) (m : ConfigManager Value) : ConfigManager Value :=
  with_resolver (box_resolver (from_manager temp_dir d)) m.
(** The configuration the application is built from. *)
Definition finalize_config (b : AppBuilder) (d : DirectoriesManager) (explicit : list (ConfigBinding Value)) :
    result (ConfigManager Value) ConfigError :=
  result_map (λ m,
    let tree := with_directories d m in
    let tree := if b_auto_discover_configs b then auto_discover discovered_bindings tree else tree in
    foldl (λ t x, register_binding x t) tree explicit)
    (match b_config_source b with
     | Some m => Ok m
     | None => load_in toml_from_str yaml_from_str number_to_string debug_key yaml_feature fs vars FDynamic
                 (config_path temp_dir d) []
     end).

(** The registry as it is validated, with the supplied instances, and the
    directories and configuration that went into it. *)
Definition prepare_registry (b : AppBuilder) : result (Registry * list Boxed * ConfigManager Value) AppError :=
  let registry := plugin_register P (b_protocol b) (b_registry b) in
  match (match b_dirs b with Some d => Ok d | None => try_for_app project_dirs_from (b_name b) end) with
  | Err e => Err (AppDirectories e)
  | Ok d =>
      let '(registry, instances) := seed_builtins (seed_directories d (registry, b_instances b)) in
      let registry := add_component (builtin_descriptor HOOK_MANAGER) (add_component (builtin_descriptor CONFIG_RELOADER) registry) in
      match finalize_config b d (app_bindings registry) with
      | Err e => Err (AppConfig e)
      | Ok tree => Ok (mkAppRegistry (app_components registry) (app_providers registry) (cm_bindings tree), instances, tree)
      end
  end.

(** The view the reloader has of the manager: its context is the proposal. *)
Definition reload_hook (h : Hook) : HookDescriptor World (ReloadProposal Value) Any :=
  mkHook (Hooks.ordinal h) (component_ty h) (kind_ty h) (hook_dependencies h)
    (λ w p, hook_call h w (erase_proposal p)).
Definition reload_view (m : HookManager World HookCx Any) : HookManager World (ReloadProposal Value) Any :=
  mkHooks (attached m) (fmap (M := list) reload_hook <$> by_kind m).

Record App := mkApp {
  app_name : string;
  app_registry : Registry;
  app_runtime : AppRuntime;
  app_protocol : Protocol;
  app_reloader : Reloader Value World Any;
  app_reload_triggers : ReloadTriggers;
}.

Definition partition_error (e : PartitionError) : AppError :=
  match e with PartitionDi e => AppDi e | UndeclaredScope c s => AppUndeclaredScope c s end.
(** The components that have a factory, by type. *)
Definition factory_backed_of (resolved : list Component) : gmap TypeId Component :=
  collect_map (λ c, (component_ty_id c, c))
    (List.filter (λ c, match effective_factory c with Ok (Some _) => true | _ => false end) resolved).

(** From the validated registry to the runtime: everything but the protocol. *)
Definition assemble (name : string) (registry : Registry) (instances : list Boxed) (tree : ConfigManager Value)
    (resolved : list Component) : outcome (AppRuntime * Reloader Value World Any) :=
  let hooks := HookManager_new (flat_map hooks_of resolved) in
  let instances := instances ++ [mkBoxed (bi_ty HOOK_MANAGER) boxed_hooks] in
  scopes ←! wrap_err partition_error (partition concretes traits resolved (app_providers registry) (SCOPES P));
  built ←! wrap_err AppConfig (ConfigStore_build tree vars);
  let '(store, slots, cells) := built in
  let resolvers : ResolverSet Rv := resolver_set_insert CONFIG_STORE (store_resolver store) ∅ in
  let instances := instances ++ [mkBoxed (bi_ty CONFIG_RELOADER) boxed_reloader] in
  order ←! wrap_err AppDi (ProviderOrder.build concretes traits resolved (app_providers registry));
  let scope_registry := ScopeRegistry_new (DiSort.transient scopes) (factory_backed_of resolved) (app_providers registry) order in
  root ←! wrap_err AppDi (build_root erase scope_registry fuel concretes traits ComponentSource self_source
                            (singletons scopes) instances resolvers);
  let hooks := attach hooks in
  Some (Ok (mkRuntime name [root] scope_registry (orders scopes) resolved hooks,
            mkReloader tree slots (reload_view hooks) 0 cells)).

Definition app_build (b : AppBuilder) : option (result App PluginError) :=
  let checked :=
    prepared ←! Some (prepare_registry b);
    let '(registry, instances, tree) := prepared in
    _ ←! app_validate concretes traits registry;
    resolved ←! Some (app_resolved_components registry);
    let registry := mkAppRegistry resolved (app_providers registry) (app_bindings registry) in
    assembled ←! assemble (b_name b) registry instances tree resolved;
    Some (Ok (registry, tree, assembled)) in
  match checked with
  | None => None
  | Some (Err e) => Some (Err (from_app_error P e))
  | Some (Ok (registry, tree, (runtime, reloader))) =>
      Some (result_map (λ protocol, mkApp (b_name b) registry runtime protocol reloader (cm_triggers tree))
              (plugin_build P (b_protocol b) runtime))
  end.

(** [AppRuntime::open_scope] *)
Definition open_scope (rt : AppRuntime) (scope : Scope) (parent : list (@ScopeContainer V Rv)) (seeds : list Boxed) :
    outcome (list (@ScopeContainer V Rv)) :=
  let order := from_option id [] (rt_orders rt !! scope_name scope) in
  wrap_err AppDi (open_child erase (rt_scopes rt) fuel scope parent ComponentSource self_source order seeds).

(** ** What an assembled application has *)

(** The scopes reached from the root. *)
Inductive opened (rt : AppRuntime) : list (@ScopeContainer V Rv) → Prop :=
| opened_root : opened rt (rt_root rt)
| opened_child scope parent seeds chain :
    opened rt parent → open_scope rt scope parent seeds = Some (Ok chain) → opened rt chain.

Lemma build_scope_resolvers registry scope parent externals order seeds container :
  build_scope (Hd := Hd) erase registry fuel scope parent externals ComponentSource self_source order seeds = Some (Ok container) →
  ct_resolvers container = resolver_set_insert ComponentSource self_source externals.
Proof.
  unfold build_scope. intros (s1 & _ & H)%run_bind_done. apply run_bind_done in H as (s2 & _ & H). by injection H as <-.
Qed.
Lemma opened_store rt chain store :
  CONFIG_STORE ≠ ComponentSource → opened rt chain →
  get_resolver CONFIG_STORE (chain_resolvers (rt_root rt)) = Some (store_resolver store) →
  get_resolver CONFIG_STORE (chain_resolvers chain) = Some (store_resolver store).
Proof.
  intros Hne Ho Hroot. induction Ho as [|scope parent seeds chain Ho IH Hopen]; [done|].
  unfold open_scope, open_child in Hopen. apply wrap_err_ok in Hopen.
  destruct (from_option id [] _), seeds; try by injection Hopen as <-.
  all: apply run_bind_done in Hopen as (child & Hc%build_scope_resolvers & Hopen); injection Hopen as <-;
    unfold chain_resolvers at 1; cbn [head from_option]; by rewrite Hc, get_resolver_insert, decide_False.
Qed.
Lemma assemble_ok name registry instances tree resolved rt reloader :
  assemble name registry instances tree resolved = Some (Ok (rt, reloader)) →
  rt_resolved rt = resolved ∧ rt_name rt = name ∧ rt_hooks rt = attach (HookManager_new (flat_map hooks_of resolved)) ∧
  ∃ store slots cells externals,
    ConfigStore_build tree vars = Some (Ok (store, slots, cells)) ∧
    externals = resolver_set_insert CONFIG_STORE (store_resolver store) ∅ ∧
    chain_resolvers (rt_root rt) = resolver_set_insert ComponentSource self_source externals ∧
    reloader = mkReloader tree slots (reload_view (rt_hooks rt)) 0 cells.
Proof.
  unfold assemble. intros (scopes & _ & H)%outcome_bind_ok.
  apply outcome_bind_ok in H as ([[store slots] cells] & Hstore%wrap_err_ok & H).
  apply outcome_bind_ok in H as (order & _ & H). apply outcome_bind_ok in H as (root & Hroot%wrap_err_ok & H).
  injection H as <- <-. simpl. repeat (split; [done|]). exists store, slots, cells. eexists. split; [done|]. split; [done|].
  split; [|done]. unfold build_root in Hroot. destruct (topological_sort _ _ _ _ _ _) as [[o|]|]; [|done|done].
  by apply build_scope_resolvers in Hroot.
Qed.
Lemma app_build_ok b app :
  app_build b = Some (Ok app) →
  ∃ registry instances tree,
    prepare_registry b = Ok (registry, instances, tree) ∧
    validate_configs (app_bindings registry) (rt_resolved (app_runtime app)) = Ok tt ∧
    app_bindings registry = cm_bindings tree ∧
    assemble (b_name b) (app_registry app) instances tree (rt_resolved (app_runtime app)) =
      Some (Ok (app_runtime app, app_reloader app)).
Proof.
  unfold app_build. destruct (outcome_bind _ _) as [[[[registry tree] [rt reloader]]|e]|] eqn:Hc; [|done|done].
  destruct (plugin_build P (b_protocol b) rt) as [protocol|]; [|done]. intros [= <-]. simpl.
  apply outcome_bind_ok in Hc as ([[registry0 instances] tree0] & Hp & Hc).
  apply outcome_bind_ok in Hc as ([] & Hv & Hc). apply outcome_bind_ok in Hc as (resolved & Hr & Hc).
  apply outcome_bind_ok in Hc as ([rt0 reloader0] & Ha & Hc). injection Hc as <- <- <- <-.
  injection Hp as Hp. pose proof (proj1 (assemble_ok _ _ _ _ _ _ _ Ha)) as Hres. rewrite Hres.
  exists registry0, instances, tree0. split; [done|]. split; [|split; [|done]].
  - unfold app_validate in Hv. apply outcome_bind_ok in Hv as ([] & _ & Hv). apply outcome_bind_ok in Hv as (cs & Hcs & Hv).
    rewrite Hr in Hcs. injection Hcs as <-. by injection Hv as ->.
  - unfold prepare_registry in Hp. destruct (match b_dirs b with Some d => _ | None => _ end) as [d|]; [|done].
    destruct (seed_builtins _) as [r1 i1]. destruct (finalize_config _ _ _); [|done]. by injection Hp as <- <- <-.
Qed.

(** The configuration an application is built from keeps the triggers of the manager it
    was given. *)
Lemma set_root_triggers (root : ConfigValue) (m : ConfigManager Value) : cm_triggers (set_root root m) = cm_triggers m.
Proof. done. Qed.
Lemma push_binding_triggers (x : ConfigBinding Value) m : cm_triggers (push_binding x m) = cm_triggers m.
Proof. unfold push_binding. by destruct (existsb _ _). Qed.
Lemma register_binding_triggers (x : ConfigBinding Value) m : cm_triggers (register_binding x m) = cm_triggers m.
Proof. unfold register_binding, seed_defaults. by rewrite set_root_triggers, push_binding_triggers. Qed.
Lemma foldl_triggers (step : ConfigManager Value → ConfigBinding Value → ConfigManager Value) xs m :
  (∀ m x, cm_triggers (step m x) = cm_triggers m) → cm_triggers (foldl step m xs) = cm_triggers m.
Proof. intros Hs. revert m. induction xs as [|x xs IH]; intros m; [done|]. cbn [foldl]. by rewrite IH, Hs. Qed.
Lemma auto_discover_triggers xs (m : ConfigManager Value) : cm_triggers (auto_discover xs m) = cm_triggers m.
Proof. unfold auto_discover, seed_defaults. rewrite set_root_triggers. apply foldl_triggers. intros. apply push_binding_triggers. Qed.
Lemma loaded_triggers dir profiles (m : ConfigManager Value) :
  load_in toml_from_str yaml_from_str number_to_string debug_key yaml_feature fs vars FDynamic dir profiles = Ok m →
  cm_triggers m = ReloadTriggers_default.
Proof. unfold load_in. destruct (load_sources _ _ _ _ _ _ _ _ _ _) as [[root sources]|]; [|done]. by intros [= <-]. Qed.
Definition source_triggers (b : AppBuilder) : ReloadTriggers := from_option cm_triggers ReloadTriggers_default (b_config_source b).
Lemma finalize_config_triggers b d explicit tree :
  finalize_config b d explicit = Ok tree → cm_triggers tree = source_triggers b.
Proof.
  unfold finalize_config, source_triggers. intros Hf.
  assert (∃ m, cm_triggers m = from_option cm_triggers ReloadTriggers_default (b_config_source b) ∧
    tree = foldl (λ t x, register_binding x t) (if b_auto_discover_configs b then auto_discover discovered_bindings (with_directories d m) else with_directories d m) explicit)
    as (m & <- & ->).
  { destruct (b_config_source b) as [m|]; [injection Hf as <-; by exists m|].
    destruct (load_in _ _ _ _ _ _ _ _ _ _) as [m|] eqn:Hl; [|done]. apply loaded_triggers in Hl. injection Hf as <-. by exists m. }
  rewrite foldl_triggers by (intros; apply register_binding_triggers). destruct (b_auto_discover_configs b); [by rewrite auto_discover_triggers|done].
Qed.
Lemma app_build_name b app : app_build b = Some (Ok app) → app_name app = b_name b.
Proof.
  unfold app_build. destruct (outcome_bind _ _) as [[[[registry tree] [rt reloader]]|e]|]; [|done|done].
  destruct (plugin_build P (b_protocol b) rt) as [protocol|]; [|done]. by intros [= <-].
Qed.
Lemma app_build_triggers b app : app_build b = Some (Ok app) → app_reload_triggers app = source_triggers b.
Proof.
  unfold app_build. destruct (outcome_bind _ _) as [[[[registry tree] [rt reloader]]|e]|] eqn:Hc; [|done|done].
  destruct (plugin_build P (b_protocol b) rt) as [protocol|]; [|done]. intros [= <-]. cbn [app_reload_triggers].
  apply outcome_bind_ok in Hc as ([[registry0 instances] tree0] & Hp & Hc).
  apply outcome_bind_ok in Hc as (? & _ & Hc). apply outcome_bind_ok in Hc as (? & _ & Hc). apply outcome_bind_ok in Hc as ([] & _ & Hc).
  injection Hc as <- <- <- <-. injection Hp as Hp. unfold prepare_registry in Hp.
  destruct (match b_dirs b with Some d => _ | None => _ end) as [d|]; [|done]. destruct (seed_builtins _) as [r1 i1].
  destruct (finalize_config _ _ _) as [tree'|] eqn:Hf; [|done]. injection Hp as <- <- <-. by eapply finalize_config_triggers.
Qed.

(** a built application has every configuration it needs. If the builder
    returns an application, its root and every scope ever opened below it reach
    one and the same store of configuration values, and each config dependency of
    each component of the application resolves in it. *)
Theorem built_config_edges_resolve (b : AppBuilder) (app : App) :
  CONFIG_STORE ≠ ComponentSource → app_build b = Some (Ok app) →
  ∃ store,
    (∀ chain, opened (app_runtime app) chain →
       get_resolver CONFIG_STORE (chain_resolvers chain) = Some (store_resolver store)) ∧
    ∀ c dep, c ∈ rt_resolved (app_runtime app) → dep ∈ dependencies c → config dep = true →
      config_edge_resolves store dep.
Proof.
  intros Hne (registry & instances & tree & _ & Hv & Hbind & Ha)%app_build_ok.
  destruct (assemble_ok _ _ _ _ _ _ _ Ha) as (_ & _ & _ & store & slots & cells & externals & Hstore & -> & Hroot & _).
  exists store. split.
  - intros chain Ho. apply (opened_store (app_runtime app)); [done..|].
    rewrite Hroot, get_resolver_insert, decide_False by done. by rewrite get_resolver_insert, decide_True.
  - intros c dep Hc Hdep Hcfg. eapply bound_edge_resolves; [done|]. rewrite <- Hbind.
    apply (check_config_edges_ok _ _ Hv c). by apply config_edges_elem.
Qed.
End Builder.

(** ** A small application *)

Section Sample.
Abbreviation AppValue := (option ConfigStore).
Abbreviation AppFactory := (@Program string string AppValue).

(** A component that asks for the only binding of the [Server] configuration. *)
Definition listener_factory : AppFactory :=
  GetResolver 50 (λ r, match e ← r; s ← erased e; resolve_sole 2 s with
                       | Some _ => Return (Ok (mkBoxed (mkType "Listener" "app::Listener" 1) "listening"))
                       | None => Return (Err (MissingComponent "Server"))
                       end).
Definition server_dep : DependencyDescriptor := dependency_of (mkType "Server" "app::Server" 2) One false true.
Definition listener : ComponentDescriptor AppFactory :=
  mkComponent "listener" "Listener" (mkType "Listener" "app::Listener" 1) Singleton [mkFactory listener_factory [server_dep] true].
Definition app_builtin (name : string) (id : TypeId) : Builtin := mkBuiltin name name (mkType name name id).
Definition app_plugin : @ProtocolPlugin string string AppValue Plain (list string) unit Z unit unit AppError :=
  mkPlugin tt (λ p, p) (λ _ r, r) [] (λ _ _, Ok tt) id.
Definition sample_build (hooks_of : ComponentDescriptor AppFactory → list (HookDescriptor (list string) unit Z)) :=
  app_build app_plugin (app_builtin "Directories" 20) (app_builtin "ShutdownHandle" 21) (app_builtin "RootResolver" 22)
    (app_builtin "ConfigReloader" 23) (app_builtin "HookManager" 24)
    (λ k, mkType (NAME k) (NAME k) (match k with Config => 30 | Data => 31 | Cache => 32 | State => 33 | Runtime => 34 | Tmp => 35 end)) (λ _, "directories") dir_path "shutdown" "root" "hooks" "reloader"
    (λ _ _ _, None) "/tmp" (λ _, Err "no toml") (λ _, Err "no yaml") (λ _, "") (λ _, "") false ∅ ∅ [] hooks_of
    (λ p b, mkBoxed (trait_ty p) (b_value b)) [] [] 3 60 50 None Some (λ _, tt).
Definition sample_builder : @AppBuilder string string AppValue Plain unit :=
  config_binding (mkBinding server_type "server")
    (component listener (config_source sample_manager (directories (from_path "/srv") (AppBuilder_new app_plugin "demo")))).
End Sample.

Lemma sample_builds :
  match sample_build (λ _, []) sample_builder with
  | Some (Ok app) => map (λ c, c_name c) (rt_resolved (app_runtime app)) =
      ["Listener"; "Directories"; "ConfigDir"; "DataDir"; "CacheDir"; "StateDir"; "RuntimeDir"; "TmpDir"; "ShutdownHandle";
       "RootResolver"; "ConfigReloader"; "HookManager"]
  | _ => False
  end.
Proof. vm_compute. reflexivity. Qed.
(** Without the binding the application is refused, whatever its factories do. *)
Lemma unbound_configuration_refused :
  sample_build (λ _, []) (component listener (config_source sample_manager
    (directories (from_path "/srv") (AppBuilder_new app_plugin "demo")))) =
  Some (Err (MissingConfig "Listener" "app::Server" "<unqualified>")).
Proof. vm_compute. reflexivity. Qed.
Lemma sample_holds_listener :
  match sample_build (λ _, []) sample_builder with
  | Some (Ok app) => head (rt_resolved (app_runtime app)) = Some listener
  | _ => False
  end.
Proof. vm_compute. reflexivity. Qed.
Lemma built_config_edges_resolve_witness :
  match sample_build (λ _, []) sample_builder with
  | Some (Ok app) => ∃ store,
      get_resolver 50 (chain_resolvers (rt_root (app_runtime app))) = Some (Some store) ∧
      config_edge_resolves store server_dep
  | _ => False
  end.
Proof.
  pose proof sample_holds_listener as Hhead.
  destruct (sample_build (λ _, []) sample_builder) as [[app|e]|] eqn:Hb; [|exact Hhead..].
  edestruct @built_config_edges_resolve as (store & Hroot & Hedge); [|exact Hb|]; [discriminate|].
  exists store. split; [apply Hroot; constructor|]. apply (Hedge listener); [|left|reflexivity].
  destruct (rt_resolved (app_runtime app)) as [|c cs]; [discriminate Hhead|]. injection Hhead as ->. left.
Defined.
