(* ===== verification/AppLifecycle.v ===== *)
(** * AppLifecycle: serving an application

    Models [serve], [run], [run_startup] and [run_shutdown] of
    [crates/app/src/app.rs], the signal of [lifecycle.rs] and the reload triggers
    of [crates/config/src/managed/trigger.rs].

    The protocol is a plug-in: what its [serve] does to the world, together with
    everything the background tasks do meanwhile, is a function, of which the result
    may be that it never returns. So may a hook, and a task that is aborted may
    never reach an await. The envelope around them is a [Run], which ends or waits for
    one of them, with a [Trace] of what it started and stopped and of the hooks
    that ran. *)
From S2P Require Import Prelude CoreTypes ConfigValue ConfigManager Hooks Reload DiTypes DiContainer AppBuild.

(** ** The shutdown signal *)

(** A [watch] channel: its value, and the receivers that still exist. *)
Record ShutdownSignal := mkSignal { signalled : bool; receivers : nat }.
Definition ShutdownSignal_new : ShutdownSignal := mkSignal false 1.
(** [Sender::send] leaves the value alone when nobody receives. *)
Definition shutdown (s : ShutdownSignal) : ShutdownSignal :=
  match receivers s with O => s | S _ => mkSignal true (receivers s) end.
(** Whether [wait] returns: [wait_for] looks at the current value first, and the
    signal itself keeps the sender alive. *)
Definition wait_returns (s : ShutdownSignal) : bool := signalled s.

(** ** Reload triggers *)

Inductive Task := SighupTask | WatchTask | CtrlCTask.
#[export] Instance Task_eq_dec : EqDecision Task.
Proof. solve_decision. Defined.
Section Triggers.
(** The build and the platform: the [watch] feature, and whether the operating
    system gives the process a file watcher. *)
Context (watch_feature watcher_available : bool).
Definition spawn_watch (sources : list string) : list Task :=
  match sources with [] => [] | _ => if watcher_available then [WatchTask] else [] end.
Definition spawn_reload_triggers (sources : list string) (t : ReloadTriggers) : list Task :=
  (if sighup t then [SighupTask] else []) ++ (if watch t && watch_feature then spawn_watch sources else []).
End Triggers.

(** ** The envelope *)

Inductive Event :=
| Startup_ran (component : TypeDescriptor) (ok : bool)
| Spawned (t : Task)
| Served
| Stopped (t : Task)
| Shutdown_ran (component : TypeDescriptor).
Abbreviation Trace := (list Event).

Inductive Ending (E : Type) := Returned (r : result unit E) | Panicked.
Arguments Returned {E} r.
Arguments Panicked {E}.

(** What an execution that never comes to an end waits for. *)
Inductive Waited :=
| OnStartup (component : TypeDescriptor)
| OnProtocol
| OnTask (t : Task)
| OnShutdown (components : list TypeDescriptor).

(** An awaited computation: it ends, or waits for ever for what never ends; it may
    also panic because hooks are run on a manager that is not attached. *)
Inductive Run (World A : Type) :=
| Done (a : A) (tr : Trace) (w : World)
| Waits (on : Waited) (tr : Trace)
| Unattached.
Arguments Done {World A} a tr w.
Arguments Waits {World A} on tr.
Arguments Unattached {World A}.

Section Await.
Context {World : Type}.
Definition emit {A} (tr : Trace) (m : Run World A) : Run World A :=
  match m with
  | Done a tr' w => Done a (tr ++ tr') w
  | Waits on tr' => Waits on (tr ++ tr')
  | Unattached => Unattached
  end.
(** [m.await], and then the rest of the function. *)
Definition await {A B} (m : Run World A) (k : A → World → Run World B) : Run World B :=
  match m with
  | Done a tr w => emit tr (k a w)
  | Waits on tr => Waits on tr
  | Unattached => Unattached
  end.
End Await.

Section Envelope.
Context {World HookCx Any : Type}.
Abbreviation Manager := (HookManager World HookCx Any).
Abbreviation Hook := (HookDescriptor World HookCx Any).
Context (Startup Shutdown : HookKind Any unit) (unit_cx : HookCx).
(** The application's code: whether a hook called in a world never completes, and
    whether an aborted task reaches the await at which it is cancelled. *)
Context (hangs : Hook → World → bool) (task_ends : Task → bool).

Definition bucket (K : HookKind Any unit) (m : Manager) : list Hook := from_option id [] (by_kind m !! hook_kind K).

(** The loop of [run_startup] over the outcomes. *)
Fixpoint collect_started (outcomes : list (TypeDescriptor * result unit HookError)) (started : gset TypeId) :
    result (gset TypeId) (AppError * gset TypeId) :=
  match outcomes with
  | [] => Ok started
  | (component, Ok _) :: outcomes' => collect_started outcomes' ({[type_id component]} ∪ started)
  | (component, Err e) :: _ => Err (AppHook e, started)
  end.
Definition startup_events (outcomes : list (TypeDescriptor * result unit HookError)) : Trace :=
  (λ o, Startup_ran o.1 (is_ok o.2)) <$> outcomes.
(** The hook at which a sequence of startup hooks waits for ever, if there is one,
    and those that ran before it. *)
Fixpoint until_hang (hooks : list Hook) (w : World) : list Hook * option Hook :=
  match hooks with
  | [] => ([], None)
  | hook :: hooks' =>
      if hangs hook w then ([], Some hook)
      else let '(outcome, w1) := invoke_hook Startup hook w unit_cx in
           if is_ok outcome then let '(before, at_) := until_hang hooks' w1 in (hook :: before, at_)
           else (hook :: hooks', None)
  end.
Definition run_startup (m : Manager) (w : World) : Run World (result (gset TypeId) (AppError * gset TypeId)) :=
  match until_hang (bucket Startup m) w with
  | (before, Some hook) =>
      if attached m then Waits (OnStartup (component_ty hook)) (startup_events (run_seq Startup before w unit_cx).1)
      else Unattached
  | (_, None) =>
      match run_until_error Startup m (λ _, true) unit_cx w with
      | None => Unattached
      | Some (outcomes, w') => Done (collect_started outcomes ∅) (startup_events outcomes) w'
      end
  end.

Definition shuts_down (m : Manager) (started : gset TypeId) (hook : Hook) : bool :=
  let component := type_id (component_ty hook) in
  negb (component_has Startup m component) || bool_decide (component ∈ started).
(** The hooks run concurrently; a trace lists those that completed in the order of
    their registration. *)
Definition shutdown_events (outcomes : list (TypeDescriptor * result unit HookError)) : Trace :=
  (λ o, Shutdown_ran o.1) <$> outcomes.
(** Of concurrent hooks that take effect in the order [schedule], those that complete. *)
Fixpoint completing (hooks : list Hook) (schedule : list nat) (w : World) : list nat :=
  match schedule with
  | [] => []
  | i :: schedule' =>
      match hooks !! i with
      | None => completing hooks schedule' w
      | Some hook =>
          if hangs hook w then completing hooks schedule' w
          else i :: completing hooks schedule' (invoke_hook Shutdown hook w unit_cx).2
      end
  end.
Definition left_out (hooks : list Hook) (ran : list nat) : list TypeDescriptor :=
  omap (λ '(i, hook), if bool_decide (i ∈ ran) then None else Some (component_ty hook)) (imap pair hooks).
(** Errors are only logged. [join_all] ends when all its hooks have. *)
Definition run_shutdown (m : Manager) (started : gset TypeId) (schedule : list nat) (w : World) : Run World unit :=
  let hooks := List.filter (shuts_down m started) (bucket Shutdown m) in
  let ran := completing hooks schedule w in
  match Hooks.run Shutdown m (shuts_down m started) ran unit_cx w with
  | None => Unattached
  | Some (outcomes, w') =>
      match left_out hooks ran with
      | [] => Done tt (shutdown_events outcomes) w'
      | components => Waits (OnShutdown components) (shutdown_events outcomes)
      end
  end.

(** What [serve] and [run] share: [middle] is all between the two sets of hooks. *)
Definition envelope {E} (from_app : AppError → E) (m : Manager) (schedule : gset TypeId → list nat)
    (middle : World → Run World (Ending E)) (w : World) : Run World (Ending E) :=
  await (run_startup m w) (λ started w1,
    match started with
    | Err (error, started) =>
        await (run_shutdown m started (schedule started) w1) (λ _ w2, Done (Returned (Err (from_app error))) [] w2)
    | Ok started =>
        await (middle w1) (λ ending w2,
        await (run_shutdown m started (schedule started) w2) (λ _ w3, Done ending [] w3))
    end).

(** The tasks have been aborted; each is awaited. *)
Fixpoint join_aborted (tasks : list Task) (w : World) : Run World unit :=
  match tasks with
  | [] => Done tt [] w
  | t :: tasks' => if task_ends t then emit [Stopped t] (join_aborted tasks' w) else Waits (OnTask t) []
  end.
(** [stop_reload_triggers]: every task is aborted, then awaited. *)
Definition stop_reload_triggers (tasks : list Task) (w : World) : Run World unit := join_aborted tasks w.

Section App.
Context {V Hd Rv Value Protocol E : Type}.
Abbreviation App := (@AppBuild.App V Hd Rv Value World HookCx Any Protocol).
Context (watch_feature watcher_available : bool).
Definition app_tasks (app : App) : list Task :=
  spawn_reload_triggers watch_feature watcher_available (cm_sources (rl_manager (app_reloader app))) (app_reload_triggers app).

(** [App::serve]; a panic of the protocol is caught, and resumed at the end. A
    protocol that never returns is [None]. *)
Definition serve (from_app : AppError → E) (protocol_serve : Protocol → World → option (Ending E * World))
    (app : App) (schedule : gset TypeId → list nat) (w : World) : Run World (Ending E) :=
  envelope from_app (rt_hooks (app_runtime app)) schedule
    (λ w,
      let tasks := app_tasks app in
      emit ((Spawned <$> tasks) ++ [Spawned CtrlCTask; Served])
        match protocol_serve (app_protocol app) w with
        | None => Waits OnProtocol []
        | Some (ending, w') =>
            await (join_aborted [CtrlCTask] w') (λ _ w',
            await (stop_reload_triggers tasks w') (λ _ w', Done ending [] w'))
        end) w.
(** [App::run] waits for ctrl-c or the signal; [waited] is what the tasks do until
    then, if ever one of them comes. *)
Definition run_app (waited : World → option World) (app : App) (schedule : gset TypeId → list nat) (w : World) :
    Run World (Ending AppError) :=
  envelope id (rt_hooks (app_runtime app)) schedule
    (λ w,
      let tasks := app_tasks app in
      emit ((Spawned <$> tasks) ++ [Served])
        match waited w with
        | None => Waits OnProtocol []
        | Some w' => await (stop_reload_triggers tasks w') (λ _ w', Done (Returned (Ok tt)) [] w')
        end) w.
End App.
End Envelope.

(** ** The signal is not lost *)

Lemma signalled_stays s : signalled s = true → signalled (shutdown s) = true.
Proof. unfold shutdown. by destruct (receivers s). Qed.
(** A shutdown requested before anybody waits is seen by the wait. *)
Lemma shutdown_before_wait n : wait_returns (Nat.iter (S n) shutdown ShutdownSignal_new) = true.
Proof. induction n as [|n IH]; [done|]. cbn [Nat.iter]. by apply signalled_stays. Qed.

(** ** What a trace tells *)

Definition started_by (tr : Trace) : list TypeDescriptor :=
  omap (λ e, match e with Startup_ran c true => Some c | _ => None end) tr.
Definition shut_by (tr : Trace) : list TypeDescriptor :=
  omap (λ e, match e with Shutdown_ran c => Some c | _ => None end) tr.

Section Facts.
Context {World HookCx Any : Type}.
Abbreviation Hook := (HookDescriptor World HookCx Any).
Abbreviation Outcomes := (list (TypeDescriptor * result unit HookError)).
Context (Startup Shutdown : HookKind Any unit) (unit_cx : HookCx).

Definition hooks_of_kind (K : HookKind Any unit) (hs : list Hook) : list Hook :=
  List.filter (λ h, kind_ty h =? hook_kind K) hs.
(** The shutdown hooks that are due once the given components have started:
    those of a component that started, or that has no startup hook. *)
Definition due (hs : list Hook) (started : gset TypeId) : list Hook :=
  List.filter (λ h, negb (existsb (λ s, type_id (component_ty s) =? type_id (component_ty h)) (hooks_of_kind Startup hs)) ||
                    bool_decide (type_id (component_ty h) ∈ started)) (hooks_of_kind Shutdown hs).
Definition started_ids (tr : Trace) : gset TypeId := list_to_set (type_id <$> started_by tr).

Lemma started_startup (outcomes : Outcomes) :
  started_by (startup_events outcomes) = fst <$> List.filter succeeded outcomes.
Proof. induction outcomes as [|[c [[]|e]] outcomes IH]; [done|..]; [exact (f_equal (cons c) IH)|exact IH]. Qed.
Lemma shut_startup (outcomes : Outcomes) : shut_by (startup_events outcomes) = [].
Proof. induction outcomes as [|[c r] outcomes IH]; [done|]. exact IH. Qed.
Lemma started_shutdown (outcomes : Outcomes) : started_by (shutdown_events outcomes) = [].
Proof. induction outcomes as [|[c r] outcomes IH]; [done|]. exact IH. Qed.
Lemma shut_shutdown (outcomes : Outcomes) : shut_by (shutdown_events outcomes) = fst <$> outcomes.
Proof. induction outcomes as [|[c r] outcomes IH]; [done|]. exact (f_equal (cons c) IH). Qed.
Lemma shutdown_events_map (outcomes : Outcomes) : shutdown_events outcomes = Shutdown_ran <$> outcomes.*1.
Proof. unfold shutdown_events. by rewrite <- list_fmap_compose. Qed.
Lemma shut_by_app a b : shut_by (a ++ b) = shut_by a ++ shut_by b.
Proof. apply omap_app. Qed.
Lemma started_by_app a b : started_by (a ++ b) = started_by a ++ started_by b.
Proof. apply omap_app. Qed.

(** [run_startup] hands over exactly the components whose hooks succeeded. *)
Lemma collect_started_spec (outcomes : Outcomes) acc :
  forallb succeeded (removelast outcomes) = true →
  let ids := acc ∪ list_to_set (type_id <$> (fst <$> List.filter succeeded outcomes)) in
  (forallb succeeded outcomes = true ∧ collect_started outcomes acc = Ok ids) ∨
  (forallb succeeded outcomes = false ∧ ∃ e, collect_started outcomes acc = Err (AppHook e, ids)).
Proof.
  revert acc. induction outcomes as [|[c r] outcomes IH]; intros acc Hok; cbn -[union].
  { left. split; [done|]. f_equal. set_solver. }
  destruct r as [[]|e]; cbn -[union].
  - destruct outcomes as [|o outcomes]; [left; split; [done|]; cbn -[union]; f_equal; set_solver|].
    destruct (IH ({[type_id c]} ∪ acc)) as [[-> ->]|[-> [e ->]]].
    { cbn in Hok |- *. by destruct outcomes. }
    + left. split; [done|]. f_equal. set_solver.
    + right. split; [done|]. exists e. do 2 f_equal. set_solver.
  - right. split; [done|]. exists e. destruct outcomes; [|done]. cbn -[union]. do 2 f_equal. set_solver.
Qed.

Lemma component_has_new hs T :
  component_has Startup (attach (HookManager_new hs)) T =
  existsb (λ h, type_id (component_ty h) =? T) (hooks_of_kind Startup hs).
Proof.
  unfold component_has, hooks_of_kind. rewrite <- bucket_of. simpl. by destruct (_ !! hook_kind Startup).
Qed.
Lemma due_filter hs started :
  List.filter (shuts_down Startup (attach (HookManager_new hs)) started) (hooks_of_kind Shutdown hs) = due hs started.
Proof. unfold due. apply filter_ext. intros h. unfold shuts_down. by rewrite component_has_new. Qed.

Lemma due_bucket hs started :
  List.filter (shuts_down Startup (attach (HookManager_new hs)) started) (bucket Shutdown (attach (HookManager_new hs))) =
  due hs started.
Proof. rewrite <- due_filter. unfold bucket, hooks_of_kind. by rewrite <- bucket_of. Qed.
Lemma startup_bucket hs : bucket Startup (attach (HookManager_new hs)) = hooks_of_kind Startup hs.
Proof. unfold bucket, hooks_of_kind. by rewrite <- bucket_of. Qed.

(** *** Concurrent hooks *)

Lemma run_schedule_domain (K : HookKind Any unit) (hooks : list Hook) schedule w acc i :
  is_Some ((run_schedule K hooks schedule w unit_cx acc).1 !! i) ↔
  (i ∈ schedule ∧ (i < length hooks)%nat) ∨ is_Some (acc !! i).
Proof.
  revert w acc. induction schedule as [|j schedule IH]; intros w acc; cbn [run_schedule].
  { split; [by right|]. intros [[?%not_elem_of_nil _]|H]; done. }
  destruct (hooks !! j) as [h|] eqn:Hj.
  - destruct (invoke_hook K h w unit_cx) as [o w1]. rewrite IH, elem_of_cons. apply lookup_lt_Some in Hj.
    destruct (decide (i = j)) as [->|Hne]; [rewrite lookup_insert_eq; split; [left; auto|right; eauto]|].
    rewrite lookup_insert_ne by done. naive_solver.
  - rewrite IH, elem_of_cons. apply lookup_ge_None in Hj. naive_solver lia.
Qed.
Lemma imap_component (hooks : list Hook) : (component_ty ∘ snd) <$> imap pair hooks = component_ty <$> hooks.
Proof.
  enough (∀ f : nat → nat, (component_ty ∘ snd) <$> imap (λ i h, (f i, h)) hooks = component_ty <$> hooks) as H by exact (H id).
  induction hooks as [|h hooks IH]; intros f; [done|]. exact (f_equal (cons (component_ty h)) (IH (f ∘ S))).
Qed.
(** What ran and what is left out are all the hooks. *)
Lemma collect_left_out (hooks : list Hook) (ran : list nat) (acc : gmap nat (result unit HookError)) :
  (∀ i, (i < length hooks)%nat → is_Some (acc !! i) ↔ i ∈ ran) →
  (collect_outcomes hooks acc).*1 ++ left_out hooks ran ≡ₚ component_ty <$> hooks ∧
  (left_out hooks ran = [] → (collect_outcomes hooks acc).*1 = component_ty <$> hooks).
Proof.
  intros Hdom. rewrite <- imap_component. unfold collect_outcomes, left_out.
  assert (∀ p, p ∈ imap pair hooks → is_Some (acc !! p.1) ↔ p.1 ∈ ran) as Hin.
  { intros p Hp. apply elem_of_lookup_imap in Hp as (i & h & -> & Hi). apply Hdom. by apply lookup_lt_Some in Hi. }
  induction (imap pair hooks) as [|[i h] l IH]; [done|]. destruct IH as [IH1 IH2]; [by intros p Hp; apply Hin; right|].
  specialize (Hin (i, h) ltac:(left)). cbn in Hin |- *. destruct (acc !! i) as [o|]; cbn; case_bool_decide as Hi; cbn.
  - split; [by rewrite IH1|]. intros H. by rewrite IH2.
  - destruct Hi. by apply Hin.
  - by destruct (proj2 Hin Hi).
  - split; [|done]. by rewrite <- Permutation_middle, IH1.
Qed.
Section Hanging.
Context (hangs : Hook → World → bool) (task_ends : Task → bool).
(** A hook that does not complete was called in a world in which it hangs. *)
Lemma completing_spec hooks schedule w i hook :
  hooks !! i = Some hook → i ∈ schedule → i ∈ completing Shutdown unit_cx hangs hooks schedule w ∨ ∃ w', hangs hook w' = true.
Proof.
  intros Hi. revert w. induction schedule as [|j schedule IH]; intros w; [by intros ?%not_elem_of_nil|].
  cbn [completing]. rewrite elem_of_cons. intros [<-|Hj].
  - rewrite Hi. destruct (hangs hook w) eqn:Hh; [eauto|]. left. left.
  - destruct (hooks !! j) as [h|]; [|by apply IH]. destruct (hangs h w); [by apply IH|].
    destruct (IH (invoke_hook Shutdown h w unit_cx).2 Hj) as [H|H]; [left; by right|by right].
Qed.
Lemma left_out_elem (hooks : list Hook) ran c :
  c ∈ left_out hooks ran → ∃ i hook, hooks !! i = Some hook ∧ (i ∉ ran) ∧ component_ty hook = c.
Proof.
  unfold left_out. rewrite list_elem_of_omap. intros ([i hook] & Hin & Hc). case_bool_decide; [done|]. injection Hc as <-.
  apply elem_of_lookup_imap in Hin as (i' & h' & [= -> ->] & Hi). eauto.
Qed.
(** [run_shutdown] runs exactly the hooks that are due, and waits for those that hang. *)
Lemma run_shutdown_cases hs started schedule w :
  schedule ≡ₚ seq 0 (length (due hs started)) →
  (∃ w', run_shutdown Startup Shutdown unit_cx hangs (attach (HookManager_new hs)) started schedule w =
     Done tt (Shutdown_ran <$> (component_ty <$> due hs started)) w') ∨
  (∃ ran waited, run_shutdown Startup Shutdown unit_cx hangs (attach (HookManager_new hs)) started schedule w =
     Waits (OnShutdown waited) (Shutdown_ran <$> ran) ∧ waited ≠ [] ∧ ran ++ waited ≡ₚ component_ty <$> due hs started ∧
     ∀ c, c ∈ waited → ∃ hook w', hook ∈ due hs started ∧ component_ty hook = c ∧ hangs hook w' = true).
Proof.
  intros Hperm. unfold run_shutdown. rewrite due_bucket. set (ran := completing _ _ _ _ _ _).
  assert (∃ outcomes w', Hooks.run Shutdown (attach (HookManager_new hs)) (shuts_down Startup (attach (HookManager_new hs)) started)
            ran unit_cx w = Some (outcomes, w') ∧
          outcomes.*1 ++ left_out (due hs started) ran ≡ₚ component_ty <$> due hs started ∧
          (left_out (due hs started) ran = [] → outcomes.*1 = component_ty <$> due hs started)) as (outcomes & w' & -> & Hboth & Hall).
  { clearbody ran. clear Hperm. unfold Hooks.run. rewrite <- due_bucket. unfold bucket. cbn [by_kind attach attached].
    set (f := shuts_down _ _ _). clearbody f.
    destruct (by_kind (HookManager_new hs) !! hook_kind Shutdown) as [b|]; cbn [from_option id List.filter]; [|by exists [], w].
    destruct (run_schedule Shutdown (List.filter f b) ran w unit_cx ∅) as [acc w1] eqn:Hr. eexists _, _. split; [reflexivity|].
    apply collect_left_out. intros i Hi. change acc with (acc, w1).1. rewrite <- Hr, run_schedule_domain, lookup_empty.
    split; [by intros [[? _]|[? [=]]]|by left]. }
  rewrite shutdown_events_map. destruct (left_out (due hs started) ran) as [|c waited] eqn:Hl.
  - left. exists w'. by rewrite Hall.
  - right. exists outcomes.*1, (c :: waited). split; [done|]. split; [done|]. split; [done|]. rewrite <- Hl.
    intros c' Hc. apply left_out_elem in Hc as (i & hook & Hi & Hn & Hc). exists hook.
    destruct (completing_spec (due hs started) schedule w i hook Hi) as [H|[w2 H]]; [|by destruct Hn|].
    + rewrite Hperm. apply elem_of_seq. apply lookup_lt_Some in Hi. lia.
    + exists w2. split; [by eapply list_elem_of_lookup_2|done].
Qed.

(** *** Hooks in sequence, and tasks *)

Lemma all_succeeded (outcomes : Outcomes) : forallb succeeded outcomes = true → List.filter succeeded outcomes = outcomes.
Proof. intros H. by apply filter_all, List.Forall_forall, forallb_forall. Qed.

Lemma until_hang_spec hooks w before hook :
  until_hang Startup unit_cx hangs hooks w = (before, Some hook) →
  (∃ after, hooks = before ++ hook :: after) ∧ hangs hook (world_after before unit_cx w) = true ∧
  forallb succeeded (run_seq Startup before w unit_cx).1 = true ∧ (run_seq Startup before w unit_cx).1.*1 = component_ty <$> before.
Proof.
  revert w before. induction hooks as [|h hooks IH]; intros w before; [done|]. cbn [until_hang].
  destruct (hangs h w) eqn:Hh; [intros [= <- <-]; split; [by exists hooks|done]|].
  destruct (invoke_hook Startup h w unit_cx) as [o w1] eqn:Hi. destruct (is_ok o) eqn:Ho; [|done].
  destruct (until_hang Startup unit_cx hangs hooks w1) as [b at_] eqn:Hu. intros [= <- ->].
  destruct (IH _ _ Hu) as ([after ->] & Hw & Hs & Hf). split; [by exists after|].
  assert (w1 = (hook_call h w unit_cx).2) as -> by (unfold invoke_hook in Hi; destruct (hook_call h w unit_cx); by injection Hi as _ <-).
  cbn [world_after foldl run_seq]. rewrite Hi, Ho. destruct (run_seq Startup b _ unit_cx) as [rest w2]. cbn in *.
  split; [done|]. unfold succeeded at 1. cbn. by rewrite Ho, Hf.
Qed.
Lemma run_startup_cases hs w :
  (∃ outcomes w1, run_startup Startup unit_cx hangs (attach (HookManager_new hs)) w =
     Done (collect_started outcomes ∅) (startup_events outcomes) w1 ∧ forallb succeeded (removelast outcomes) = true ∧
     (forallb succeeded outcomes = true →
        outcomes.*1 = component_ty <$> hooks_of_kind Startup hs ∧ w1 = world_after (hooks_of_kind Startup hs) unit_cx w)) ∨
  (∃ outcomes before hook after, run_startup Startup unit_cx hangs (attach (HookManager_new hs)) w =
     Waits (OnStartup (component_ty hook)) (startup_events outcomes) ∧
     hooks_of_kind Startup hs = before ++ hook :: after ∧ hangs hook (world_after before unit_cx w) = true ∧
     started_by (startup_events outcomes) = component_ty <$> before).
Proof.
  unfold run_startup. rewrite startup_bucket.
  destruct (until_hang _ _ _ _ w) as [before [hook|]] eqn:Hu.
  - right. destruct (until_hang_spec _ _ _ _ Hu) as ([after Ha] & Hw & Hs & Hf). exists (run_seq Startup before w unit_cx).1, before, hook, after.
    split; [done|]. split; [done|]. split; [done|]. rewrite started_startup, <- Hf. f_equal. by apply all_succeeded.
  - left. clear Hu. unfold run_until_error, hooks_of_kind. rewrite <- bucket_of. cbn [by_kind attach attached].
    destruct (by_kind (HookManager_new hs) !! hook_kind Startup) as [b|]; cbn [from_option id]; [|by exists [], w].
    rewrite filter_all by (by apply Forall_true).
    destruct (run_seq Startup b w unit_cx) as [outcomes w1] eqn:Hr.
    destruct (run_seq_prefix _ _ _ _ _ _ Hr) as (n & Hle & Ho & Hw & Hok & Hall).
    exists outcomes, w1. split; [done|]. split; [done|]. intros Hs. rewrite Hs in Hall. subst n. by rewrite firstn_all in *.
Qed.
Lemma join_aborted_cases tasks (w : World) :
  join_aborted task_ends tasks w = Done tt (Stopped <$> tasks) w ∨
  (∃ t before, t ∈ tasks ∧ join_aborted task_ends tasks w = Waits (OnTask t) (Stopped <$> before) ∧ task_ends t = false).
Proof.
  induction tasks as [|t tasks IH]; [by left|]. cbn [join_aborted]. destruct (task_ends t) eqn:Ht.
  - destruct IH as [-> |(t' & before & Hin & -> & Hend)]; [by left|]. right. exists t', (t :: before). split; [by right|]. done.
  - right. exists t, []. split; [left|done].
Qed.

(** Events that are of no hook. *)
Definition of_task (e : Event) : Prop := e = Served ∨ (∃ t, e = Spawned t) ∨ ∃ t, e = Stopped t.
Lemma of_task_quiet tr : Forall of_task tr → started_by tr = [] ∧ shut_by tr = [].
Proof. induction 1 as [|e tr [-> |[[t ->]|[t ->]]] _ [IH1 IH2]]; done. Qed.
Lemma tasks_of_task (f : Task → Event) tasks : f = Spawned ∨ f = Stopped → Forall of_task (f <$> tasks).
Proof. intros Hf. apply Forall_fmap, Forall_true. intros t. unfold of_task; cbn. destruct Hf as [-> | ->]; eauto. Qed.
Lemma startup_no_task (outcomes : Outcomes) e : of_task e → e ∉ startup_events outcomes.
Proof. unfold startup_events. intros He H. apply list_elem_of_fmap in H as (? & -> & _). by destruct He as [?|[[]|[]]]. Qed.
Lemma shutdown_no_task (cs : list TypeDescriptor) e : of_task e → e ∉ Shutdown_ran <$> cs.
Proof. intros He H. apply list_elem_of_fmap in H as (? & -> & _). by destruct He as [?|[[]|[]]]. Qed.
Lemma shut_by_ran (cs : list TypeDescriptor) : shut_by (Shutdown_ran <$> cs) = cs ∧ started_by (Shutdown_ran <$> cs) = [].
Proof. induction cs as [|c cs [IH1 IH2]]; [done|]. split; [exact (f_equal (cons c) IH1)|exact IH2]. Qed.

Section App.
Context {V Hd Rv Value Protocol E : Type}.
Abbreviation App := (@AppBuild.App V Hd Rv Value World HookCx Any Protocol).
Context (watch_feature watcher_available : bool).

(** After a run that ended: exactly the due shutdown hooks ran, last of all, and
    every task that was spawned had been stopped before. *)
Definition cleaned_up (hs : list Hook) (tr : Trace) : Prop :=
  shut_by tr = component_ty <$> due hs (started_ids tr) ∧
  ∃ before, tr = before ++ (Shutdown_ran <$> shut_by tr) ∧ shut_by before = [] ∧ ∀ t, Spawned t ∈ tr → Stopped t ∈ before.
(** Nothing was spawned, served or shut down. *)
Definition nothing_served (tr : Trace) : Prop := Forall (λ e, ¬ of_task e) tr.

(** The hooks that are due depend on the startup hooks alone. *)
Lemma ids_of_trace (startup : Outcomes) between (cs : list TypeDescriptor) :
  Forall of_task between →
  started_ids (startup_events startup ++ between ++ (Shutdown_ran <$> cs)) =
    list_to_set (type_id <$> started_by (startup_events startup)) ∧
  started_by (startup_events startup ++ between ++ (Shutdown_ran <$> cs)) = started_by (startup_events startup) ∧
  shut_by (startup_events startup ++ between ++ (Shutdown_ran <$> cs)) = cs.
Proof.
  intros Hb. destruct (of_task_quiet between Hb) as [Hb1 Hb2]. destruct (shut_by_ran cs) as [Hc1 Hc2].
  unfold started_ids. by rewrite !started_by_app, !shut_by_app, Hb1, Hb2, Hc1, Hc2, shut_startup, !app_nil_r.
Qed.
Lemma task_between (startup : Outcomes) between (cs : list TypeDescriptor) e :
  of_task e → e ∈ startup_events startup ++ between ++ (Shutdown_ran <$> cs) ↔ e ∈ between.
Proof.
  intros He. rewrite !elem_of_app. split; [|auto].
  intros [H|[H|H]]; [by apply startup_no_task in H|done|by apply shutdown_no_task in H].
Qed.
Lemma ended_cleaned_up hs startup between :
  Forall of_task between → (∀ t, Spawned t ∈ between → Stopped t ∈ between) →
  let started := list_to_set (type_id <$> started_by (startup_events startup)) in
  cleaned_up hs (startup_events startup ++ between ++ (Shutdown_ran <$> (component_ty <$> due hs started))).
Proof.
  intros Hb Hstop started. destruct (ids_of_trace startup between (component_ty <$> due hs started) Hb) as (Hi & _ & Hs).
  split; [by rewrite Hs, Hi|]. exists (startup_events startup ++ between). rewrite Hs. split; [by rewrite app_assoc|].
  split; [rewrite shut_by_app, shut_startup; by apply of_task_quiet|].
  intros t Ht. apply elem_of_app. right. apply Hstop. eapply task_between; [|exact Ht]. unfold of_task. eauto.
Qed.
Lemma startup_nothing_served (startup : Outcomes) (cs : list TypeDescriptor) :
  nothing_served (startup_events startup ++ (Shutdown_ran <$> cs)).
Proof.
  apply Forall_forall. intros e He Ht. apply elem_of_app in He as [He|He].
  - exact (startup_no_task _ _ Ht He).
  - exact (shutdown_no_task _ _ Ht He).
Qed.

(** What a run of [serve] or of [run] waits for, for each thing it can wait for. *)
Definition waiting (hs : list Hook) (w : World) (protocol_returns : bool) (on : Waited) (tr : Trace) : Prop :=
  match on with
  | OnStartup component =>
      ∃ before hook after, hooks_of_kind Startup hs = before ++ hook :: after ∧ component_ty hook = component ∧
        hangs hook (world_after before unit_cx w) = true ∧ started_by tr = component_ty <$> before ∧
        nothing_served tr ∧ shut_by tr = []
  | OnProtocol => protocol_returns = false ∧ Served ∈ tr ∧ shut_by tr = []
  | OnTask t => task_ends t = false ∧ Spawned t ∈ tr ∧ protocol_returns = true ∧ shut_by tr = []
  | OnShutdown components =>
      components ≠ [] ∧ shut_by tr ++ components ≡ₚ component_ty <$> due hs (started_ids tr) ∧
      (∀ t, Spawned t ∈ tr → Stopped t ∈ tr) ∧
      ∀ c, c ∈ components → ∃ hook w', hook ∈ due hs (started_ids tr) ∧ component_ty hook = c ∧ hangs hook w' = true
  end.
Lemma shutdown_waiting hs w returns startup between ran waited :
  Forall of_task between → (∀ t, Spawned t ∈ between → Stopped t ∈ between) →
  let started := list_to_set (type_id <$> started_by (startup_events startup)) in
  waited ≠ [] → ran ++ waited ≡ₚ component_ty <$> due hs started →
  (∀ c, c ∈ waited → ∃ hook w', hook ∈ due hs started ∧ component_ty hook = c ∧ hangs hook w' = true) →
  waiting hs w returns (OnShutdown waited) (startup_events startup ++ between ++ (Shutdown_ran <$> ran)).
Proof.
  intros Hb Hstop started Hne Hperm Hw. destruct (ids_of_trace startup between ran Hb) as (Hi & _ & Hs).
  cbn. rewrite Hs, Hi. split; [done|]. split; [done|]. split; [|done].
  assert (∀ t, of_task (Spawned t) ∧ of_task (Stopped t)) as Hof by (intros t; split; unfold of_task; eauto).
  intros t. rewrite !task_between by apply Hof. apply Hstop.
Qed.

(** What lies between the two sets of hooks. *)
Definition middle_ok (protocol_returns : bool) (ends : Ending E → World → Prop) (m : Run World (Ending E)) : Prop :=
  match m with
  | Done ending tr w' => Forall of_task tr ∧ Served ∈ tr ∧ (∀ t, Spawned t ∈ tr → Stopped t ∈ tr) ∧ ends ending w'
  | Waits OnProtocol tr => Forall of_task tr ∧ Served ∈ tr ∧ protocol_returns = false
  | Waits (OnTask t) tr => Forall of_task tr ∧ Spawned t ∈ tr ∧ protocol_returns = true ∧ task_ends t = false
  | _ => False
  end.
Lemma envelope_spec (from_app : AppError → E) hs schedule (middle : World → Run World (Ending E)) w returns ends :
  (∀ started, schedule started ≡ₚ seq 0 (length (due hs started))) →
  middle_ok returns ends (middle (world_after (hooks_of_kind Startup hs) unit_cx w)) →
  match envelope Startup Shutdown unit_cx hangs from_app (attach (HookManager_new hs)) schedule middle w with
  | Done ending tr _ =>
      cleaned_up hs tr ∧
      ((Served ∈ tr ∧ started_by tr = component_ty <$> hooks_of_kind Startup hs ∧ ∃ w', ends ending w') ∨
       (nothing_served tr ∧ ∃ e, ending = Returned (Err (from_app (AppHook e)))))
  | Waits on tr => waiting hs w returns on tr
  | Unattached => False
  end.
Proof.
  intros Hperm Hmid. unfold envelope.
  destruct (run_startup_cases hs w) as [(startup & w1 & -> & Hok & Hall)|(startup & before & hook & after & -> & Hh & Hw & Hst)]; cbn [await].
  2: { exists before, hook, after. split_and!; try done; [|by rewrite shut_startup].
       rewrite <- (app_nil_r (startup_events startup)). apply (startup_nothing_served startup []). }
  destruct (collect_started_spec startup ∅ Hok) as [[Hs ->]|[Hs [e ->]]]; rewrite (left_id_L ∅ (∪)), <- started_startup;
    set (started := list_to_set _).
  - destruct (Hall Hs) as [Hfst ->]. clear Hall.
    assert (started_by (startup_events startup) = component_ty <$> hooks_of_kind Startup hs) as Hstarted
      by (by rewrite started_startup, all_succeeded).
    destruct (middle _) as [ending between w2|on between|]; cbn [await emit]; [|clear Hperm|done].
    + destruct Hmid as (Hb & Hserved & Hstop & Hends).
      destruct (run_shutdown_cases hs started (schedule started) w2 (Hperm started)) as [[w' ->]|(ran & waited & -> & Hne & Hp & Hc)]; cbn [await emit].
      * rewrite app_nil_r. split; [by apply ended_cleaned_up|]. left. destruct (ids_of_trace startup between (component_ty <$> due hs started) Hb) as (_ & -> & _).
        split; [rewrite !elem_of_app; auto|]. split; [done|]. eauto.
      * by apply (shutdown_waiting hs w returns startup between).
    + destruct on as [| |t|]; cbn in Hmid |- *; try done; destruct Hmid as (Hb & Hin & Hr);
        rewrite elem_of_app, shut_by_app, shut_startup, (proj2 (of_task_quiet between Hb)); naive_solver.
  - destruct (run_shutdown_cases hs started (schedule started) w1 (Hperm started)) as [[w' ->]|(ran & waited & -> & Hne & Hp & Hc)]; cbn [await emit].
    + rewrite app_nil_r. split; [|right; split; [apply startup_nothing_served|eauto]].
      apply (ended_cleaned_up hs startup []); [constructor|]. by intros t ?%not_elem_of_nil.
    + apply (shutdown_waiting hs w returns startup []); try done. by intros t ?%not_elem_of_nil.
Qed.

Lemma served_between (tasks : list Task) (served : option (Ending E * World)) :
  middle_ok (bool_decide (is_Some served)) (λ ending _, ∃ w', served = Some (ending, w'))
    (emit ((Spawned <$> tasks) ++ [Spawned CtrlCTask; Served])
       match served with
       | None => Waits OnProtocol []
       | Some (ending, w') =>
           await (join_aborted task_ends [CtrlCTask] w') (λ _ w',
           await (stop_reload_triggers task_ends tasks w') (λ _ w', Done ending [] w'))
       end).
Proof.
  set (spawned := (Spawned <$> tasks) ++ [Spawned CtrlCTask; Served]).
  assert (Forall of_task spawned) as Hsp.
  { apply Forall_app. split; [apply tasks_of_task; auto|]. apply Forall_cons; split; [unfold of_task; eauto|]. apply Forall_cons; split; [unfold of_task; eauto|done]. }
  assert (Served ∈ spawned ∧ Spawned CtrlCTask ∈ spawned) as [Hserved Hctrl] by (unfold spawned; set_solver).
  assert (∀ t, Spawned t ∈ spawned ↔ t ∈ CtrlCTask :: tasks) as Hin.
  { intros t. unfold spawned. rewrite elem_of_app, list_elem_of_fmap, !elem_of_cons, elem_of_nil. naive_solver. }
  assert (∀ ts, Forall of_task (Stopped <$> ts)) as Hst by (intros; apply tasks_of_task; auto).
  destruct served as [[ending w']|]; cbn [emit middle_ok]; [|rewrite app_nil_r; by rewrite bool_decide_eq_false_2 by (by intros [? [=]])].
  rewrite bool_decide_eq_true_2 by eauto. unfold stop_reload_triggers. cbn [join_aborted].
  destruct (task_ends CtrlCTask) eqn:Hc; cbn [emit await].
  - destruct (join_aborted_cases tasks w') as [-> |(t & before & Ht & -> & Hend)]; cbn [emit await middle_ok app].
    + rewrite app_nil_r. split; [by apply Forall_app; split; [|apply (Hst (CtrlCTask :: tasks))]|]. split; [set_solver|]. split; [|eauto].
      intros t Ht. apply elem_of_app. right. apply elem_of_app in Ht as [Ht|Ht].
      * apply Hin in Ht. apply (list_elem_of_fmap_2 Stopped (CtrlCTask :: tasks) t Ht).
      * exfalso. apply (list_elem_of_fmap Stopped (CtrlCTask :: tasks)) in Ht as (? & [=] & _).
    + split; [by apply Forall_app; split; [|apply (Hst (CtrlCTask :: before))]|]. split; [|done]. apply elem_of_app. left. apply Hin. by right.
  - rewrite app_nil_r. done.
Qed.

(** C36: serving an application is followed by its clean-up, unless it waits for what
    never ends. If a run ends, exactly the shutdown hooks of the components that
    have no startup hook or of which a startup hook succeeded have run, once each, and
    after every background task had been stopped; if all startup hooks succeeded
    the protocol was served and the run ends as the protocol ended, in a value, an error or
    a panic, and if one failed, nothing was spawned or served, and its error is
    returned. A run that does not end waits for a startup hook that hangs, with nothing
    spawned, served or shut down; for a protocol that never returns or an aborted task that
    never ends, with no shutdown hook run; or for shutdown hooks that hang, with the
    tasks stopped and every other due hook run. *)
Theorem serve_cleans_up (hs : list Hook) (from_app : AppError → E)
    (protocol_serve : Protocol → World → option (Ending E * World))
    (app : App) (schedule : gset TypeId → list nat) (w : World) :
  rt_hooks (app_runtime app) = attach (HookManager_new hs) →
  (∀ started, schedule started ≡ₚ seq 0 (length (due hs started))) →
  let served := protocol_serve (app_protocol app) (world_after (hooks_of_kind Startup hs) unit_cx w) in
  match serve Startup Shutdown unit_cx hangs task_ends watch_feature watcher_available from_app protocol_serve app schedule w with
  | Done ending tr _ =>
      cleaned_up hs tr ∧
      ((Served ∈ tr ∧ started_by tr = component_ty <$> hooks_of_kind Startup hs ∧ ∃ w', served = Some (ending, w')) ∨
       (nothing_served tr ∧ ∃ e, ending = Returned (Err (from_app (AppHook e)))))
  | Waits on tr => waiting hs w (bool_decide (is_Some served)) on tr
  | Unattached => False
  end.
Proof.
  intros Hhooks Hperm served. unfold serve. rewrite Hhooks. set (tasks := app_tasks _ _ app). clearbody tasks.
  match goal with |- context [envelope _ _ _ _ _ _ _ ?middle w] =>
    pose proof (envelope_spec from_app hs schedule middle w (bool_decide (is_Some served))
      (λ ending _, ∃ w', served = Some (ending, w')) Hperm (served_between tasks served)) as H end.
  destruct (envelope _ _ _ _ _ _ _ _) as [ending tr w'|on tr|]; [|done..].
  destruct H as [Hc [(Hs & Hst & _ & He)|H]]; (split; [done|]); [by left|by right].
Qed.
End App.
End Hanging.
End Facts.

(** ** Small applications *)

Section Sample.
Definition startup_kind : HookKind Z unit := mkKind 7 "startup" (λ _, Some tt).
Definition shutdown_kind : HookKind Z unit := mkKind 8 "shutdown" (λ _, Some tt).
(** The world of the samples is the list of the hooks that were called. *)
Definition life_hook (component : TypeDescriptor) (kind : TypeId) (name : string) (o : CallOutcome Z) :
    HookDescriptor (list string) unit Z := mkHook 0 component kind [] (λ trace _, (o, trace ++ [name])).
Definition listener_ty : TypeDescriptor := mkType "Listener" "app::Listener" 1.
Definition other_ty : TypeDescriptor := mkType "Other" "app::Other" 2.
(** Calls every due hook in registration order. *)
Definition in_order (hs : list (HookDescriptor (list string) unit Z)) (started : gset TypeId) : list nat :=
  seq 0 (length (due startup_kind shutdown_kind hs started)).
Definition life_app (hs : list (HookDescriptor (list string) unit Z)) :=
  match sample_build (λ c, if bool_decide (c_name c = "Listener") then hs else []) sample_builder with
  | Some (Ok app) => Some app
  | _ => None
  end.
Definition good_hooks := [life_hook listener_ty 7 "open" (CallOk 1); life_hook listener_ty 8 "close" (CallOk 1);
  life_hook other_ty 8 "flush" (CallErr (HookOther "disk full"))].
(** Two startup hooks of one component, of which the second panics. *)
Definition half_started := [life_hook listener_ty 7 "open" (CallOk 1); life_hook listener_ty 7 "warm" CallPanicked;
  life_hook listener_ty 8 "close" (CallOk 1)].
(** A hook hangs if its component is the one given. *)
Definition hangs_in (c : option TypeId) (h : HookDescriptor (list string) unit Z) (_ : list string) : bool :=
  bool_decide (Some (type_id (component_ty h)) = c) && (kind_ty h =? 8).
Definition serve_sample (hs : list (HookDescriptor (list string) unit Z)) (stuck : option TypeId)
    (ending : option (Ending AppError)) :=
  app ← life_app hs;
  Some (serve startup_kind shutdown_kind () (hangs_in stuck) (λ _, true) true true id
    (λ _ w, e ← ending; Some (e, w ++ ["served"])) app (in_order hs) []).
End Sample.

(** A protocol that panics is cleaned up after, and its panic goes on. *)
Lemma panicking_protocol_cleaned_up :
  serve_sample good_hooks None (Some Panicked) =
  Some (Done Panicked
    [Startup_ran listener_ty true; Spawned CtrlCTask; Served; Stopped CtrlCTask; Shutdown_ran listener_ty; Shutdown_ran other_ty]
    ["open"; "served"; "close"; "flush"]).
Proof. vm_compute. reflexivity. Qed.
(** A protocol that never returns is never cleaned up after. *)
Lemma endless_protocol_is_waited_for :
  serve_sample good_hooks None None =
  Some (Waits OnProtocol [Startup_ran listener_ty true; Spawned CtrlCTask; Served]).
Proof. vm_compute. reflexivity. Qed.
(** A shutdown hook that hangs keeps no other from running, but serving does not end. *)
Lemma hanging_hook_is_waited_for :
  serve_sample good_hooks (Some 1) (Some Panicked) =
  Some (Waits (OnShutdown [listener_ty])
    [Startup_ran listener_ty true; Spawned CtrlCTask; Served; Stopped CtrlCTask; Shutdown_ran other_ty]).
Proof. vm_compute. reflexivity. Qed.
(** A component counts as started once one of its startup hooks has succeeded:
    its shutdown hook runs although its startup as a whole failed. *)
Lemma half_started_is_shut_down :
  serve_sample half_started None (Some Panicked) =
  Some (Done (Returned (Err (AppHook (HookPanicked "startup" "Listener"))))
    [Startup_ran listener_ty true; Startup_ran listener_ty false; Shutdown_ran listener_ty]
    ["open"; "warm"; "close"]).
Proof. vm_compute. reflexivity. Qed.
Lemma life_app_hooks :
  match life_app good_hooks with
  | Some app => rt_hooks (app_runtime app) = attach (HookManager_new good_hooks)
  | None => False
  end.
Proof. vm_compute. reflexivity. Qed.
Lemma serve_cleans_up_witness :
  match serve_sample good_hooks (Some 1) (Some Panicked) with
  | Some (Waits (OnShutdown waited) tr) => waited = [listener_ty] ∧
      shut_by tr ++ waited ≡ₚ component_ty <$> due startup_kind shutdown_kind good_hooks (started_ids tr)
  | _ => False
  end.
Proof.
  pose proof life_app_hooks as Hh. pose proof hanging_hook_is_waited_for as Hs. unfold serve_sample in *.
  destruct (life_app good_hooks) as [app|]; [|exact Hh]. cbn [mbind option_bind] in *.
  pose proof (serve_cleans_up startup_kind shutdown_kind () (hangs_in (Some 1)) (λ _, true) true true good_hooks id
    (λ _ w, Some (Panicked, w ++ ["served"])) app (in_order good_hooks) [] Hh (λ _, reflexivity _)) as H.
  injection Hs as Hs. rewrite Hs in H |- *. split; [reflexivity|]. exact (proj1 (proj2 H)).
Defined.
