(* ===== verification/Ndjson.v ===== *)
(** * Ndjson: streamed bodies and their limits

    Models [crates/axum/src/stream.rs]: the NDJSON framing of a response or a
    client's request, the decoder that buffers across chunks, and the limits the
    server puts around it.

    - [serde_json] is an argument: [from_slice] and [to_vec].
    - A stream is the list of what its polls return. The decoder is one pass of
      its loop, [turn], repeated; [decode] runs it to the end of the stream.
    - A limited stream reads the clock before each poll. [Polled] is what one such
      poll came to: the reading, and whether the deadline fired first. *)
From S2P Require Import Prelude.

Definition newline : ascii := "010".
Definition MAX_NDJSON_LINE_BYTES : Z := 1024 * 1024.

(** [iter().position(|b| b == '\n')], with the text on both sides. *)
Fixpoint split_newline (s : string) : option (string * string) :=
  match s with
  | "" => None
  | String c s' =>
      if bool_decide (c = newline) then Some ("", s')
      else '(line, rest) ← split_newline s'; Some (String c line, rest)
  end.
(** The length of the line that a chunk continues. *)
Definition pending_line_len (buffer chunk : string) : Z :=
  match split_newline chunk with
  | Some (line, _) => str_len buffer + str_len line
  | None => str_len buffer + str_len chunk
  end.

Section Decode.
Context {T E : Type} (from_slice : string → option T).

Record State := mkState { body : list (result string E); buffer : string; ended : bool }.
Inductive Turn := Continue (s : State) | Emit (item : T) (s : State) | Finish.

Definition emit_line (line : string) (s : State) : Turn :=
  match from_slice line with Some item => Emit item s | None => Finish end.
(** One pass of the loop of [ndjson_decode]. *)
Definition turn (s : State) : Turn :=
  match split_newline (buffer s) with
  | Some (line, rest) =>
      let s' := mkState (body s) rest (ended s) in
      if str_is_empty line then Continue s'
      else if MAX_NDJSON_LINE_BYTES <? str_len line then Finish
      else emit_line line s'
  | None =>
      if ended s then
        if str_is_empty (buffer s) then Finish
        else if MAX_NDJSON_LINE_BYTES <? str_len (buffer s) then Finish
        else emit_line (buffer s) (mkState (body s) "" (ended s))
      else
        match body s with
        | Ok chunk :: body' =>
            if MAX_NDJSON_LINE_BYTES <? pending_line_len (buffer s) chunk then Finish
            else Continue (mkState body' (buffer s +:+ chunk) (ended s))
        | Err _ :: _ => Finish
        | [] => Continue (mkState [] (buffer s) true)
        end
  end.
(** The items of at most [fuel] passes; [None] if the stream has not ended. *)
Fixpoint run_turns (fuel : nat) (s : State) : option (list T) :=
  match fuel with
  | O => None
  | S fuel' =>
      match turn s with
      | Continue s' => run_turns fuel' s'
      | Emit item s' => cons item <$> run_turns fuel' s'
      | Finish => Some []
      end
  end.
Definition chunk_weight (c : result string E) : nat := match c with Ok chunk => S (String.length chunk) | Err _ => 0 end.
Definition weight (s : State) : nat :=
  String.length (buffer s) + list_sum (chunk_weight <$> body s) + (if ended s then 0 else 1).
Definition ndjson_decode (b : list (result string E)) : option (list T) :=
  let s := mkState b "" false in run_turns (S (weight s)) s.

(** ** The items of a text *)

Fixpoint decode_lines (lines : list string) : list T :=
  match lines with
  | [] => []
  | line :: lines' =>
      if str_is_empty line then decode_lines lines'
      else if MAX_NDJSON_LINE_BYTES <? str_len line then []
      else match from_slice line with Some item => item :: decode_lines lines' | None => [] end
  end.
(** What a body says before it ends, and whether it ended properly. *)
Fixpoint body_text (b : list (result string E)) : string * bool :=
  match b with
  | [] => ("", true)
  | Ok chunk :: b' => let '(text, clean) := body_text b' in (chunk +:+ text, clean)
  | Err _ :: _ => ("", false)
  end.
(** The lines a body delivers: a body cut off by an error loses its last piece. *)
Definition delivered (text : string) (clean : bool) : list string :=
  let pieces := split_on newline text in if clean then pieces else removelast pieces.
End Decode.
Arguments State : clear implicits.
Arguments Turn : clear implicits.

(** ** Encoding *)

Section Encode.
Context {T : Type} (to_vec : T → result string string).
Inductive CodecError := Internal (text : string).
(** [StreamEncode::encode] of [Ndjson], and one item of its response body. *)
Definition ndjson_encode (item : T) : result string CodecError :=
  match to_vec item with
  | Ok bytes => Ok (str_push bytes newline)
  | Err e => Err (Internal e)
  end.
Definition ndjson_response (items : list T) : list (result string CodecError) := ndjson_encode <$> items.
End Encode.
(** [RawStream]: chunks pass through. *)
Definition raw_encode (chunk : string) : result string CodecError := Ok chunk.

(** ** Limits *)

Record StreamRequestLimits := mkLimits { max_bytes : Z; max_items : Z; timeout_ms : option Z }.
(** The stream fields of [AxumConfig], in the order of the record above. *)
Definition limits_from (max_stream_request_bytes max_stream_request_items stream_request_timeout_ms : Z) : StreamRequestLimits :=
  mkLimits max_stream_request_bytes max_stream_request_items
    (if 0 <? stream_request_timeout_ms then Some stream_request_timeout_ms else None).
(** [AxumConfig::default] *)
Definition default_limits : StreamRequestLimits := limits_from (16 * 1024 * 1024) 100000 30000.
Definition stream_request_deadline (now : Z) (timeout : option Z) : option Z := (λ t, now + t) <$> timeout.

Inductive Poll (A : Type) := Ready (a : A) | TimedOut.
Arguments Ready {A} a.
Arguments TimedOut {A}.
Record Polled (A : Type) := mkPolled { polled_at : Z; poll : Poll A }.
Arguments mkPolled {A}. Arguments polled_at {A}. Arguments poll {A}.
Definition past (deadline : option Z) (now : Z) : bool := match deadline with Some d => d <=? now | None => false end.

Section Limits.
Context {T E : Type}.
(** [limit_request_body_until]; [TimedOut] stands for [timeout_at] firing. *)
Fixpoint limit_body (max : Z) (deadline : option Z) (total : Z) (polls : list (Polled (result string E))) :
    list (result string E) :=
  match polls with
  | [] => []
  | p :: polls' =>
      if past deadline (polled_at p) then []
      else
        match poll p with
        | TimedOut => []
        | Ready (Err e) => Err e :: limit_body max deadline total polls'
        | Ready (Ok chunk) =>
            let total := usize_saturating_add total (str_len chunk) in
            if (0 <? max) && (max <? total) then [] else Ok chunk :: limit_body max deadline total polls'
        end
  end.
(** [limit_decoded_items_until], polling the decoded items at the given times. *)
Fixpoint limit_items (max : Z) (deadline : option Z) (emitted : Z) (polls : list (Polled unit)) (decoded : list T) : list T :=
  if (0 <? max) && (max <=? emitted) then []
  else
    match polls, decoded with
    | p :: polls', item :: decoded' =>
        if past deadline (polled_at p) then []
        else match poll p with
             | TimedOut => []
             | Ready _ => item :: limit_items max deadline (emitted + 1) polls' decoded'
             end
    | _, _ => []
    end.
Definition limited_ndjson_decode (from_slice : string → option T) (limits : StreamRequestLimits) (now : Z)
    (body_polls : list (Polled (result string E))) (item_polls : list (Polled unit)) : option (list T) :=
  let deadline := stream_request_deadline now (timeout_ms limits) in
  limit_items (max_items limits) deadline 0 item_polls <$>
    ndjson_decode from_slice (limit_body (max_bytes limits) deadline 0 body_polls).
End Limits.

(** ** Lines *)

Lemma split_newline_some s line rest :
  split_newline s = Some (line, rest) → s = line +:+ String newline rest ∧ str_contains newline line = false.
Proof.
  revert line rest. induction s as [|c s IH]; intros line rest; simpl; [done|]. case_bool_decide as Hc.
  - intros [= <- <-]. by rewrite Hc.
  - destruct (split_newline s) as [[l r]|] eqn:Hs; simpl; [|done]. intros [= <- <-].
    destruct (IH l r eq_refl) as [-> Hl]. split; [done|]. rewrite str_contains_cons, Hl, bool_decide_false; done.
Qed.
Lemma split_newline_none s : split_newline s = None → str_contains newline s = false.
Proof.
  induction s as [|c s IH]; simpl; [done|]. case_bool_decide as Hc; [done|]. destruct (split_newline s) as [[l r]|]; [done|].
  intros _. rewrite str_contains_cons, IH, bool_decide_false; done.
Qed.
Lemma split_on_prepend c a t :
  str_contains c a = false →
  split_on c (a +:+ t) = match split_on c t with p :: ps => (a +:+ p) :: ps | [] => [] end.
Proof.
  induction a as [|d a IH]; intros Ha.
  - rewrite str_app_nil_l. destruct (split_on c t); done.
  - apply str_contains_cons_false in Ha as [Hd Ha]. rewrite str_app_cons. simpl. rewrite bool_decide_false by done.
    rewrite IH by done. pose proof (split_on_not_nil c t) as Hne. by destruct (split_on c t).
Qed.
Lemma removelast_cons {A} (x : A) l : l ≠ [] → removelast (x :: l) = x :: removelast l.
Proof. by destruct l. Qed.
Lemma delivered_line line rest clean :
  str_contains newline line = false → delivered (line +:+ String newline rest) clean = line :: delivered rest clean.
Proof.
  intros Hl. unfold delivered. rewrite split_on_app by done. destruct clean; [done|].
  by rewrite removelast_cons by apply split_on_not_nil.
Qed.

Section DecodeFacts.
Context {T E : Type} (from_slice : string → option T).
Abbreviation St := (State E).

Lemma decode_overlong line lines : MAX_NDJSON_LINE_BYTES < str_len line → decode_lines from_slice (line :: lines) = [].
Proof.
  intros Hl. simpl. destruct line as [|c line]; [unfold MAX_NDJSON_LINE_BYTES, str_len in Hl; simpl in Hl; lia|].
  cbn [str_is_empty]. by rewrite (proj2 (Z.ltb_lt _ _) Hl).
Qed.
(** A first line that is already too long leaves nothing to deliver. *)
Lemma delivered_overlong a t clean :
  str_contains newline a = false → MAX_NDJSON_LINE_BYTES < str_len a → decode_lines from_slice (delivered (a +:+ t) clean) = [].
Proof.
  intros Ha Hl. unfold delivered. rewrite split_on_prepend by done. pose proof (split_on_not_nil newline t) as Hne.
  destruct (split_on newline t) as [|p ps]; [done|].
  assert (MAX_NDJSON_LINE_BYTES < str_len (a +:+ p)) as Hp by (rewrite str_len_app; pose proof (str_len_nonneg p); lia).
  destruct clean; [by apply decode_overlong|]. destruct ps; [done|]. rewrite removelast_cons by done. by apply decode_overlong.
Qed.

Definition expected (s : St) : list T :=
  if ended s then decode_lines from_slice (split_on newline (buffer s))
  else let '(text, clean) := body_text (body s) in decode_lines from_slice (delivered (buffer s +:+ text) clean).

Lemma expected_line (b : list (result string E)) line rest e :
  str_contains newline line = false →
  expected (mkState b (line +:+ String newline rest) e) =
  if str_is_empty line then expected (mkState b rest e)
  else if MAX_NDJSON_LINE_BYTES <? str_len line then []
  else match from_slice line with Some item => item :: expected (mkState b rest e) | None => [] end.
Proof.
  intros Hl. unfold expected. cbn [ended buffer body]. destruct e; [by rewrite split_on_app|].
  destruct (body_text b) as [text clean]. by rewrite str_app_assoc, str_app_cons, delivered_line.
Qed.
Lemma run_turns_expected fuel (s : St) : (weight s < fuel)%nat → run_turns from_slice fuel s = Some (expected s).
Proof.
  revert s. induction fuel as [|fuel IH]; intros s Hw; [lia|]. cbn [run_turns]. unfold turn.
  destruct s as [b buf e]. cbn [buffer ended body]. unfold weight in *. cbn [buffer ended body] in Hw.
  destruct (split_newline buf) as [[line rest]|] eqn:Hs.
  - apply split_newline_some in Hs as [-> Hl]. rewrite str_length_app in Hw. cbn [String.length] in Hw.
    rewrite expected_line by done. destruct (str_is_empty line); [apply IH; unfold weight; cbn [buffer ended body]; lia|].
    destruct (MAX_NDJSON_LINE_BYTES <? str_len line); [done|]. unfold emit_line.
    destruct (from_slice line) as [item|]; [|done]. rewrite IH by (unfold weight; cbn [buffer ended body]; lia). done.
  - apply split_newline_none in Hs. destruct e.
    + unfold expected at 1. cbn [ended buffer]. rewrite split_on_no_sep by done. cbn [decode_lines].
      destruct (str_is_empty buf) eqn:He; [done|]. destruct (MAX_NDJSON_LINE_BYTES <? str_len buf); [done|]. unfold emit_line.
      destruct (from_slice buf) as [item|]; [|done]. rewrite IH; [done|]. unfold weight. cbn [buffer ended body String.length].
      destruct buf; [done|]. simpl in Hw. lia.
    + destruct b as [|[chunk|err] b].
      * rewrite IH; [|unfold weight; cbn [buffer ended body]; simpl in *; lia]. unfold expected. cbn [ended buffer body body_text].
        by rewrite str_app_nil_r.
      * unfold expected at 1. cbn [ended buffer body body_text]. destruct (body_text b) as [text clean] eqn:Hb.
        destruct (Z.ltb_spec MAX_NDJSON_LINE_BYTES (pending_line_len buf chunk)) as [Hp|Hp].
        -- f_equal. symmetry. unfold pending_line_len in Hp. destruct (split_newline chunk) as [[line rest]|] eqn:Hc.
           ++ apply split_newline_some in Hc as [-> Hl]. rewrite str_app_assoc, str_app_cons, <- str_app_assoc.
              apply delivered_overlong; [by rewrite str_contains_app, Hs, Hl|by rewrite str_len_app].
           ++ apply split_newline_none in Hc. rewrite <- str_app_assoc.
              apply delivered_overlong; [by rewrite str_contains_app, Hs, Hc|by rewrite str_len_app].
        -- rewrite IH.
           ++ unfold expected. cbn [ended buffer body]. by rewrite Hb, str_app_assoc.
           ++ unfold weight. cbn [buffer ended body]. rewrite str_length_app.
              change (list_sum (chunk_weight <$> Ok chunk :: b)) with (S (String.length chunk) + list_sum (chunk_weight <$> b))%nat in Hw. lia.
      * unfold expected. cbn [ended buffer body body_text]. rewrite str_app_nil_r. unfold delivered.
        by rewrite split_on_no_sep.
Qed.

(** C22: chunk boundaries do not matter. The decoder always comes to an end, and
    yields what decoding the lines of the whole text yields: empty lines are
    skipped, and the items stop at the first line that is too long or does not
    decode. A body that ends in an error delivers its complete lines only. *)
Theorem ndjson_decode_lines (b : list (result string E)) :
  ndjson_decode from_slice b =
  Some (let '(text, clean) := body_text b in decode_lines from_slice (delivered text clean)).
Proof.
  unfold ndjson_decode. rewrite run_turns_expected by lia. unfold expected. cbn [ended buffer body].
  destruct (body_text b) as [text clean]. by rewrite str_app_nil_l.
Qed.
End DecodeFacts.

(** ** Round trip *)

(** What [serde_json] does with the items of a stream: compact JSON holds no
    newline and is not empty, and parsing inverts printing. *)
Class JsonLine {T} (to_vec : T → result string string) (from_slice : string → option T) : Prop :=
  json_line : ∀ item bytes, to_vec item = Ok bytes →
    str_contains newline bytes = false ∧ bytes ≠ "" ∧ from_slice bytes = Some item.
Definition concat_text (chunks : list string) : string := foldr String.append "" chunks.

Lemma body_text_chunks {E} (chunks : list string) :
  body_text ((Ok <$> chunks) : list (result string E)) = (concat_text chunks, true).
Proof.
  induction chunks as [|c chunks IH]; [done|]. cbn [fmap list_fmap body_text]. by rewrite IH.
Qed.
Section Roundtrip.
Context {T E : Type} (to_vec : T → result string string) (from_slice : string → option T) `{!JsonLine to_vec from_slice}.

Lemma decode_encoded items (frames : list string) :
  ndjson_response to_vec items = Ok <$> frames →
  Forall (λ f, str_len f ≤ MAX_NDJSON_LINE_BYTES + 1) frames →
  decode_lines from_slice (split_on newline (concat_text frames)) = items.
Proof.
  revert frames. induction items as [|item items IH]; intros [|f frames]; try done. unfold ndjson_response. cbn [fmap list_fmap].
  intros [= Hf Hrest] [Hlen Hall]%Forall_cons. unfold ndjson_encode in Hf. destruct (to_vec item) as [bytes|] eqn:Hb; [|done].
  injection Hf as <-. apply json_line in Hb as (Hn & He & Hs). cbn [concat_text foldr]. rewrite str_push_app, split_on_app by done.
  cbn [decode_lines]. destruct (str_is_empty bytes) eqn:Hempty; [by apply str_is_empty_true in Hempty|].
  assert (str_len (str_push bytes newline) = str_len bytes + 1) as Hl by (unfold str_push; by rewrite str_len_app).
  rewrite (proj2 (Z.ltb_ge _ _)) by lia. rewrite Hs. f_equal. by apply IH.
Qed.
(** what one side sends, the other side reads. The items of a stream, framed
    by the encoder and cut into chunks in any way, decode to the same items in
    the same order, as long as each fits the line limit. *)
Theorem ndjson_roundtrip (items : list T) (frames chunks : list string) :
  ndjson_response to_vec items = Ok <$> frames →
  Forall (λ f, str_len f ≤ MAX_NDJSON_LINE_BYTES + 1) frames →
  concat_text chunks = concat_text frames →
  ndjson_decode (E := E) from_slice (Ok <$> chunks) = Some items.
Proof.
  intros Henc Hlen Heq. unfold ndjson_decode. rewrite run_turns_expected by lia. unfold expected. cbn [ended buffer body].
  rewrite body_text_chunks, str_app_nil_l, Heq. f_equal. by apply decode_encoded.
Qed.
End Roundtrip.

(** ** Limits *)

Section LimitFacts.
Context {T E : Type} (from_slice : string → option T).
Abbreviation Body := (list (result string E)).

Definition ready {A} (polls : list (Polled A)) : list A :=
  omap (λ p, match poll p with Ready a => Some a | TimedOut => None end) polls.
Fixpoint body_bytes (b : Body) : Z :=
  match b with [] => 0 | Ok chunk :: b' => str_len chunk + body_bytes b' | Err _ :: b' => body_bytes b' end.

Lemma limit_body_prefix max deadline total (polls : list (Polled (result string E))) :
  limit_body max deadline total polls `prefix_of` ready polls.
Proof.
  revert total. induction polls as [|p polls IH]; intros total; [done|]. cbn [limit_body]. unfold ready. cbn [omap list_omap].
  fold (ready polls). destruct (past deadline _); [apply prefix_nil|].
  destruct (poll p) as [[chunk|e]|]; [|by apply prefix_cons|apply prefix_nil].
  destruct ((0 <? max) && _); [apply prefix_nil|by apply prefix_cons].
Qed.
Lemma limit_body_bytes max deadline total (polls : list (Polled (result string E))) :
  0 < max < usize_max → 0 ≤ total ≤ max → total + body_bytes (limit_body max deadline total polls) ≤ max.
Proof.
  intros Hmax. revert total. induction polls as [|p polls IH]; intros total Ht; cbn [limit_body body_bytes]; [lia|].
  destruct (past deadline _); [cbn [body_bytes]; lia|].
  destruct (poll p) as [[chunk|e]|]; cbn [body_bytes]; [|by apply IH|lia].
  destruct (Z.ltb_spec 0 max) as [_|]; [|lia]. cbn [andb]. pose proof (str_len_nonneg chunk).
  destruct (Z.ltb_spec max (usize_saturating_add total (str_len chunk))) as [|Hle]; cbn [body_bytes]; [lia|].
  rewrite usize_saturating_add_le in Hle by lia.
  assert (usize_saturating_add total (str_len chunk) = total + str_len chunk) as Heq by (unfold usize_saturating_add; lia).
  rewrite Heq. specialize (IH (total + str_len chunk) ltac:(lia)). lia.
Qed.
Lemma limit_items_prefix max deadline emitted polls (decoded : list T) :
  limit_items max deadline emitted polls decoded `prefix_of` decoded.
Proof.
  revert emitted decoded. induction polls as [|p polls IH]; intros emitted decoded; cbn [limit_items].
  - destruct (_ && _); apply prefix_nil.
  - destruct (_ && _); [apply prefix_nil|]. destruct decoded as [|item decoded]; [done|].
    destruct (past deadline _); [apply prefix_nil|]. destruct (poll p); [by apply prefix_cons|apply prefix_nil].
Qed.
Lemma limit_items_count max deadline emitted polls (decoded : list T) :
  0 < max → 0 ≤ emitted ≤ max → emitted + Z.of_nat (length (limit_items max deadline emitted polls decoded)) ≤ max.
Proof.
  intros Hmax. revert emitted decoded. induction polls as [|p polls IH]; intros emitted decoded He; cbn [limit_items].
  - destruct (_ && _); simpl; lia.
  - destruct (Z.ltb_spec 0 max); [|lia]. cbn [andb]. destruct (Z.leb_spec max emitted); [simpl; lia|].
    destruct decoded as [|item decoded]; [simpl; lia|]. destruct (past deadline _); [simpl; lia|].
    destruct (poll p); [|simpl; lia]. cbn [length]. specialize (IH (emitted + 1) decoded ltac:(lia)). lia.
Qed.
Lemma limit_items_in_time max deadline emitted polls (decoded : list T) i item :
  limit_items max deadline emitted polls decoded !! i = Some item →
  ∃ p, polls !! i = Some p ∧ past deadline (polled_at p) = false.
Proof.
  revert emitted decoded i. induction polls as [|p polls IH]; intros emitted decoded i; cbn [limit_items].
  - by destruct (_ && _).
  - destruct (_ && _); [done|]. destruct decoded as [|x decoded]; [done|]. destruct (past deadline _) eqn:Hp; [done|].
    destruct (poll p); [|done]. destruct i as [|i]; [intros _; by exists p|]. apply IH.
Qed.

(** ** Truncation *)

(** Whether decoding gets past these lines. *)
Fixpoint passes (lines : list string) : bool :=
  match lines with
  | [] => true
  | line :: lines' =>
      if str_is_empty line then passes lines'
      else if MAX_NDJSON_LINE_BYTES <? str_len line then false
      else match from_slice line with Some _ => passes lines' | None => false end
  end.
Lemma decode_lines_app a b :
  decode_lines from_slice (a ++ b) = decode_lines from_slice a ++ (if passes a then decode_lines from_slice b else []).
Proof.
  induction a as [|line a IH]; [done|]. cbn [app decode_lines passes]. destruct (str_is_empty line); [done|].
  destruct (MAX_NDJSON_LINE_BYTES <? _); [done|]. destruct (from_slice line); [|done]. cbn [app]. by rewrite IH.
Qed.
Lemma decode_one line : (length (decode_lines from_slice [line]) ≤ 1)%nat.
Proof.
  cbn [decode_lines]. destruct (str_is_empty line); [simpl; lia|]. destruct (MAX_NDJSON_LINE_BYTES <? _); [simpl; lia|].
  destruct (from_slice line); simpl; lia.
Qed.
Lemma split_on_extend a m : ∃ init p q qs, split_on newline a = init ++ [p] ∧ split_on newline (a +:+ m) = init ++ q :: qs.
Proof.
  induction a as [|c a (init & p & q & qs & Ha & Hm)].
  - rewrite str_app_nil_l. pose proof (split_on_not_nil newline m). destruct (split_on newline m) as [|q qs]; [done|].
    by exists [], "", q, qs.
  - rewrite str_app_cons. simpl. case_bool_decide.
    + exists ("" :: init), p, q, qs. by rewrite Ha, Hm.
    + rewrite Ha, Hm. destruct init as [|x init]; [by exists [], (String c p), (String c q), qs|].
      by exists (String c x :: init), p, q, qs.
Qed.
Lemma decode_truncated a m clean :
  ∃ k extra, decode_lines from_slice (split_on newline a) =
    take k (decode_lines from_slice (delivered (a +:+ m) clean)) ++ extra ∧ (length extra ≤ 1)%nat.
Proof.
  destruct (split_on_extend a m) as (init & p & q & qs & Ha & Hm). rewrite Ha. unfold delivered. rewrite Hm.
  assert (∃ tail, (if clean then init ++ q :: qs else removelast (init ++ q :: qs)) = init ++ tail) as [tail ->].
  { destruct clean; [eauto|]. rewrite removelast_app by done. eauto. }
  exists (length (decode_lines from_slice init)). eexists. rewrite !decode_lines_app, take_app_length. split; [reflexivity|].
  destruct (passes init); [apply decode_one|simpl; lia].
Qed.
Lemma body_text_prefix (b1 b2 : Body) :
  (body_text (b1 ++ b2) = body_text b1 ∧ (body_text b1).2 = false) ∨
  ((body_text b1).2 = true ∧ body_text (b1 ++ b2) = ((body_text b1).1 +:+ (body_text b2).1, (body_text b2).2)).
Proof.
  induction b1 as [|[chunk|e] b1 IH]; [|..|by left].
  - right. split; [done|]. simpl. by destruct (body_text b2).
  - cbn [app body_text]. destruct (body_text b1) as [t1 c1], (body_text (b1 ++ b2)) as [t c], (body_text b2) as [t2 c2].
    simpl in *. destruct IH as [[[= -> ->] ->]|[-> [= -> ->]]]; [by left|right]. by rewrite str_app_assoc.
Qed.
Lemma take_prefix {A} (l : list A) k extra (items : list A) :
  items `prefix_of` (take k l ++ extra) → (length extra ≤ 1)%nat →
  ∃ k' extra', items = take k' l ++ extra' ∧ (length extra' ≤ 1)%nat.
Proof.
  intros [rest Heq] Hlen. exists (length items `min` k)%nat, (take (length items - length (take k l)) extra).
  split; [|rewrite length_take; lia].
  assert (items = take (length items) (items ++ rest)) as Hi by by rewrite take_app_length.
  rewrite Hi at 1. by rewrite <- Heq, take_app, take_take.
Qed.

Lemma decode_expected (b : Body) : ndjson_decode from_slice b = Some (expected from_slice (mkState b "" false)).
Proof. unfold ndjson_decode. by rewrite run_turns_expected by lia. Qed.
Lemma expected_prefix (b1 b2 : Body) :
  ∃ k extra, expected from_slice (mkState b1 "" false) =
    take k (expected from_slice (mkState (b1 ++ b2) "" false)) ++ extra ∧ (length extra ≤ 1)%nat.
Proof.
  unfold expected. cbn [ended buffer body]. destruct (body_text_prefix b1 b2) as [[-> _]|[Hc ->]].
  - destruct (body_text b1) as [t c]. eexists (length _), []. rewrite app_nil_r, firstn_all. split; [reflexivity|simpl; lia].
  - destruct (body_text b1) as [t c], (body_text b2) as [m clean]. simpl in *. subst c. rewrite !str_app_nil_l.
    apply decode_truncated.
Qed.

(** the limits hold and only shorten. A limited request body never passes on
    more bytes than its limit, and its items never exceed theirs; every item was
    asked for before the deadline; and the items are the first ones of the body as
    the peer sent it, except that a cut may turn the beginning of the next record
    into one more item. *)
Theorem limited_decode_within (limits : StreamRequestLimits) (now : Z)
    (body_polls : list (Polled (result string E))) (item_polls : list (Polled unit)) :
  max_bytes limits < usize_max →
  let deadline := stream_request_deadline now (timeout_ms limits) in
  ∃ items all,
    limited_ndjson_decode from_slice limits now body_polls item_polls = Some items ∧
    ndjson_decode from_slice (ready body_polls) = Some all ∧
    (∃ k extra, items = take k all ++ extra ∧ (length extra ≤ 1)%nat) ∧
    (0 < max_items limits → Z.of_nat (length items) ≤ max_items limits) ∧
    (0 < max_bytes limits → body_bytes (limit_body (max_bytes limits) deadline 0 body_polls) ≤ max_bytes limits) ∧
    (∀ i item, items !! i = Some item → ∃ p, item_polls !! i = Some p ∧ past deadline (polled_at p) = false).
Proof.
  intros Hmax deadline. eexists _, _. unfold limited_ndjson_decode. fold deadline. rewrite !decode_expected.
  split; [reflexivity|]. split; [reflexivity|]. split; [|split; [|split]].
  - destruct (limit_body_prefix (max_bytes limits) deadline 0 body_polls) as [rest ->].
    destruct (expected_prefix (limit_body (max_bytes limits) deadline 0 body_polls) rest) as (k & extra & Heq & Hlen).
    eapply take_prefix; [|exact Hlen]. rewrite <- Heq. apply limit_items_prefix.
  - intros Hpos. pose proof (limit_items_count (max_items limits) deadline 0 item_polls
      (expected from_slice (mkState (limit_body (max_bytes limits) deadline 0 body_polls) "" false))). lia.
  - intros Hpos. pose proof (limit_body_bytes (max_bytes limits) deadline 0 body_polls). lia.
  - intros i item. apply limit_items_in_time.
Qed.
End LimitFacts.

(** ** Small streams of numbers *)

Section Sample.
Definition parse_number (s : string) : option Z := parse_int 0 usize_max s.
Definition print_number (n : Z) : result string string := Ok (int_to_string n).
Definition at_time (t : Z) (text : string) : Polled (result string unit) := mkPolled t (Ready (Ok text)).
Definition ticks (n : nat) : list (Polled unit) := repeat (mkPolled 0 (Ready tt)) n.
Definition tiny_limits (bytes : Z) (timeout : option Z) : StreamRequestLimits := mkLimits bytes 0 timeout.
End Sample.

Lemma ndjson_decode_chunks :
  ndjson_decode (E := unit) parse_number [Ok "1"; Ok ("2" +:+ str_push "" newline +:+ "3"); Ok (str_push "" newline)] = Some [12; 3] ∧
  ndjson_decode parse_number [Ok (str_push "1" newline +:+ "2"); Err tt] = Some [1].
Proof. by vm_compute. Qed.
(** A cut is taken for the end of the body: the beginning of a record that the
    peer did not finish within the limit is delivered as a record. The peer sent
    1 and 123. *)
Lemma truncated_record_is_delivered :
  let polls := [at_time 0 (str_push "1" newline +:+ "12"); at_time 5 (str_push "3" newline)] in
  limited_ndjson_decode parse_number (tiny_limits 5 None) 0 polls (ticks 3) = Some [1; 12] ∧
  limited_ndjson_decode parse_number (tiny_limits 0 (Some 5)) 0 polls (ticks 3) = Some [1; 12] ∧
  limited_ndjson_decode parse_number (tiny_limits 0 None) 0 polls (ticks 3) = Some [1; 123].
Proof. by vm_compute. Qed.
Lemma limited_decode_within_witness :
  max_bytes (tiny_limits 5 None) < usize_max ∧
  ∃ items all, limited_ndjson_decode parse_number (tiny_limits 5 None) 0 [at_time 0 (str_push "1" newline)] (ticks 1) = Some items ∧
    ndjson_decode parse_number (ready [at_time 0 (str_push "1" newline)]) = Some all ∧
    ∃ k extra, items = take k all ++ extra ∧ (length extra ≤ 1)%nat.
Proof.
  split; [reflexivity|].
  destruct (limited_decode_within parse_number (tiny_limits 5 None) 0 [at_time 0 (str_push "1" newline)] (ticks 1))
    as (items & all & H1 & H2 & H3 & _); [reflexivity|]. exists items, all. split; [exact H1|]. split; [exact H2|exact H3].
Defined.
#[export] Instance bool_json : JsonLine (λ b, Ok (bool_to_string b)) parse_bool.
Proof. intros b bytes [= <-]. by destruct b. Qed.
Lemma ndjson_roundtrip_witness :
  ndjson_decode (E := unit) parse_bool (Ok <$> ["tr"; "ue" +:+ str_push "" newline +:+ "fa"; "lse" +:+ str_push "" newline]) =
  Some [true; false].
Proof.
  apply (ndjson_roundtrip (λ b, Ok (bool_to_string b)) parse_bool [true; false]
    [str_push "true" newline; str_push "false" newline]); [reflexivity| |reflexivity].
  repeat constructor; vm_compute; discriminate.
Defined.
