(* ===== verification/HttpBody.v ===== *)
(** * HttpBody: what a client puts into a request

    Models [crates/axum/src/client/body.rs], the path encoders of
    [client/mod.rs] and the header set of [client/headers.rs]. [serde_json] and
    [serde_urlencoded] are arguments. The reference reader of a multipart body,
    [read_multipart], is part of the specification: it reads what RFC 7578 says a
    body with this boundary means. *)
From S2P Require Import Prelude Ndjson.

(** ** Path segments *)

Definition in_range (lo hi : Z) (c : ascii) : bool := let n := Z.of_N (N_of_ascii c) in (lo <=? n) && (n <=? hi).
Definition is_alphanumeric (c : ascii) : bool := in_range 48 57 c || in_range 65 90 c || in_range 97 122 c.
Definition unreserved (c : ascii) : bool :=
  is_alphanumeric c || bool_decide (c = "-"%char) || bool_decide (c = "."%char) || bool_decide (c = "_"%char) ||
  bool_decide (c = "~"%char).
(** [HEX] *)
Definition hex_digit (n : N) : ascii := ascii_of_N (if (n <? 10)%N then 48 + n else 55 + n).
Definition encode_byte (c : ascii) : string :=
  if unreserved c then String c ""
  else let n := N_of_ascii c in String "%" (String (hex_digit (N.shiftr n 4)) (String (hex_digit (N.land n 15)) "")).
Fixpoint encode_path_segment (value : string) : string :=
  match value with "" => "" | String c value' => encode_byte c +:+ encode_path_segment value' end.
Definition encode_path_segments (value : string) : string := join "/" (encode_path_segment <$> split_on "/" value).

(** Percent-decoding. *)
Definition hex_value (c : ascii) : option N :=
  let n := N_of_ascii c in
  if in_range 48 57 c then Some (n - 48)%N else if in_range 65 70 c then Some (n - 55)%N
  else if in_range 97 102 c then Some (n - 87)%N else None.
Fixpoint percent_decode (s : string) : option string :=
  match s with
  | "" => Some ""
  | String "%" (String a (String b s')) =>
      x ← hex_value a; y ← hex_value b; r ← percent_decode s'; Some (String (ascii_of_N (16 * x + y)) r)
  | String "%" _ => None
  | String c s' => r ← percent_decode s'; Some (String c r)
  end.

(** ** Bodies *)

Definition BOUNDARY : string := "overseerdFormBoundary7MA4YWxkTrZu0gW".
Definition dquote : string := String "034" "".
Definition crlf : string := String "013" (String "010" "").

Record MultipartPart := mkPart {
  part_name : string; part_filename : option string; part_content_type : option string; part_data : string }.
Definition Multipart : Type := list MultipartPart.
Definition Multipart_new : Multipart := [].
Definition text (name value : string) (m : Multipart) : Multipart := m ++ [mkPart name None None value].
Definition file (name filename content_type data : string) (m : Multipart) : Multipart :=
  m ++ [mkPart name (Some filename) (Some content_type) data].

(** The browser's [Blob]: its type, its name if it is a [File], and what reading it
    comes to. *)
Record Blob := mkBlob { blob_type : string; blob_name : option string; blob_read : result string string }.
Definition push_blob (name : string) (blob : Blob) (filename : option string) (m : Multipart) : result unit string * Multipart :=
  let filename := match filename with Some f => Some f | None => blob_name blob end in
  let content_type := if str_is_empty (blob_type blob) then "application/octet-stream" else blob_type blob in
  match blob_read blob with
  | Err e => (Err ("failed to read blob: " +:+ e), m)
  | Ok data => (Ok tt, m ++ [mkPart name filename (Some content_type) data])
  end.
Fixpoint files (name : string) (blobs : list Blob) (m : Multipart) : result unit string * Multipart :=
  match blobs with
  | [] => (Ok tt, m)
  | blob :: blobs' =>
      match push_blob name blob None m with
      | (Ok _, m') => files name blobs' m'
      | (Err e, m') => (Err e, m')
      end
  end.

(** [data.windows(needle.len()).any(|w| w == needle)], for a needle that is not empty. *)
Fixpoint occurs (needle data : string) : bool :=
  String.prefix needle data || match data with "" => false | String _ data' => occurs needle data' end.

Definition disposition : string := "Content-Disposition: form-data; name=" +:+ dquote.
Definition filename_param : string := dquote +:+ "; filename=" +:+ dquote.
Definition encode_part (p : MultipartPart) : string :=
  "--" +:+ BOUNDARY +:+ crlf +:+ disposition +:+ part_name p +:+
  (match part_filename p with Some f => filename_param +:+ f | None => "" end) +:+ dquote +:+ crlf +:+
  (match part_content_type p with Some t => "Content-Type: " +:+ t +:+ crlf | None => "" end) +:+
  crlf +:+ part_data p +:+ crlf.
Fixpoint encode_parts (parts : list MultipartPart) : result string CodecError :=
  match parts with
  | [] => Ok ("--" +:+ BOUNDARY +:+ "--" +:+ crlf)
  | p :: parts' =>
      if occurs BOUNDARY (part_data p) then
        Err (Internal "multipart field data contains the encoder's boundary delimiter")
      else result_map (λ rest, encode_part p +:+ rest) (encode_parts parts')
  end.

Section HttpBody.
Context {T : Type} (to_vec to_urlencoded : T → result string string).
(** The body wrappers. *)
Inductive HttpBody :=
| NoBody
| JsonBody (value : T)
| FormBody (value : T)
| OctetStream (bytes : string)
| RawForm (bytes : string)
| MultipartBody (parts : Multipart).
Definition CONTENT_TYPE (b : HttpBody) : option string :=
  match b with
  | NoBody => None
  | JsonBody _ => Some "application/json"
  | FormBody _ | RawForm _ => Some "application/x-www-form-urlencoded"
  | OctetStream _ => Some "application/octet-stream"
  | MultipartBody _ => Some ("multipart/form-data; boundary=" +:+ BOUNDARY)
  end.
Definition body_encode (b : HttpBody) : result string CodecError :=
  match b with
  | NoBody => Ok ""
  | JsonBody value => map_err Internal (to_vec value)
  | FormBody value => map_err Internal (to_urlencoded value)
  | OctetStream bytes | RawForm bytes => Ok bytes
  | MultipartBody parts => encode_parts parts
  end.
End HttpBody.
Arguments HttpBody : clear implicits.

(** ** Reading a multipart body *)

(** The text before and after the first occurrence. *)
Fixpoint break_at (sep s : string) : option (string * string) :=
  if String.prefix sep s then Some ("", String.substring (String.length sep) (String.length s) s)
  else match s with
       | "" => None
       | String c s' => '(a, b) ← break_at sep s'; Some (String c a, b)
       end.
Definition strip (prefix s : string) : option string :=
  if String.prefix prefix s then Some (String.substring (String.length prefix) (String.length s) s) else None.
(** One part, from the line end after its delimiter: its headers, then its data up
    to the next delimiter. *)
Definition read_part (s : string) : option (MultipartPart * string) :=
  s ← strip (crlf +:+ disposition) s;
  '(name, s) ← break_at dquote s;
  '(filename, s) ←
    match strip ("; filename=" +:+ dquote) s with
    | Some s => '(f, s) ← break_at dquote s; Some (Some f, s)
    | None => Some (None, s)
    end;
  s ← strip crlf s;
  '(content_type, s) ←
    match strip "Content-Type: " s with
    | Some s => '(t, s) ← break_at crlf s; Some (Some t, s)
    | None => Some (None, s)
    end;
  s ← strip crlf s;
  '(data, s) ← break_at (crlf +:+ "--" +:+ BOUNDARY) s;
  Some (mkPart name filename content_type data, s).
Fixpoint read_parts (fuel : nat) (s : string) : option (list MultipartPart) :=
  match fuel with
  | O => None
  | S fuel' =>
      if bool_decide (s = "--" +:+ crlf) then Some []
      else '(p, s') ← read_part s; parts ← read_parts fuel' s'; Some (p :: parts)
  end.
Definition read_multipart (body : string) : option (list MultipartPart) :=
  s ← strip ("--" +:+ BOUNDARY) body; read_parts (S (String.length s)) s.

(** ** Header sets *)

(** A [HeaderMap]: the values of each name, in order. Names are lower case, as the
    crate keeps them. *)
Abbreviation HeaderMap := (gmap string (list string)).
(** [HeaderMap::insert] replaces every value of the name. *)
Definition header_insert (name value : string) (h : HeaderMap) : HeaderMap := <[name := [value]]> h.
(** [RequestHeaders::set]; the validity of names and values is the crate's. *)
Definition request_headers_set (parse_name parse_value : string → option string) (name value : string) (h : HeaderMap) : HeaderMap :=
  match parse_name name, parse_value value with
  | Some n, Some v => header_insert n v h
  | _, _ => h
  end.

(** ** Encoded segments stay segments *)

Definition safe_char (c : ascii) : bool := unreserved c || bool_decide (c = "%"%char).
Fixpoint all_safe (s : string) : bool := match s with "" => true | String c s' => safe_char c && all_safe s' end.
Lemma encode_byte_safe c r : all_safe (encode_byte c +:+ r) = all_safe r.
Proof. by destruct c as [[] [] [] [] [] [] [] []]. Qed.
Lemma encode_byte_decodes c r : percent_decode (encode_byte c +:+ r) = (λ s, String c s) <$> percent_decode r.
Proof. by destruct c as [[] [] [] [] [] [] [] []]. Qed.
Lemma all_safe_encoded value : all_safe (encode_path_segment value) = true.
Proof. induction value as [|c value IH]; [done|]. cbn [encode_path_segment]. by rewrite encode_byte_safe. Qed.
Lemma percent_decode_encoded value : percent_decode (encode_path_segment value) = Some value.
Proof. induction value as [|c value IH]; [done|]. cbn [encode_path_segment]. by rewrite encode_byte_decodes, IH. Qed.
Lemma all_safe_free c s : safe_char c = false → all_safe s = true → str_contains c s = false.
Proof.
  intros Hc. induction s as [|d s IH]; [done|]. cbn [all_safe]. intros [Hd Hs]%andb_true_iff.
  rewrite str_contains_cons, IH, bool_decide_false by (done || congruence). done.
Qed.
Lemma split_on_join c l :
  l ≠ [] → Forall (λ p, str_contains c p = false) l → split_on c (join (String c "") l) = l.
Proof.
  intros Hne Hl. induction Hl as [|p l Hp Hl IH]; [done|]. destruct l as [|q l]; [by apply split_on_no_sep|].
  change (join (String c "") (p :: q :: l)) with (p +:+ String c (join (String c "") (q :: l))).
  rewrite split_on_app by done. by rewrite IH.
Qed.

(** a value cannot escape its place in the path. The encoding of one segment
    consists of unreserved characters and percent signs only, so that it holds
    no separator of a URI, and it decodes to the value; the encoding of a
    catch-all value has exactly the segments of the value. *)
Theorem path_segments_roundtrip (value : string) :
  all_safe (encode_path_segment value) = true ∧
  percent_decode (encode_path_segment value) = Some value ∧
  (∀ c, c ∈ ["/"; "?"; "#"; " "; "&"; "="]%char → str_contains c (encode_path_segment value) = false) ∧
  split_on "/" (encode_path_segments value) = encode_path_segment <$> split_on "/" value.
Proof.
  split; [apply all_safe_encoded|]. split; [apply percent_decode_encoded|]. split.
  - intros c Hc. apply all_safe_free; [|apply all_safe_encoded].
    repeat (apply elem_of_cons in Hc as [->|Hc]; [done|]). by apply not_elem_of_nil in Hc.
  - unfold encode_path_segments. apply split_on_join.
    + intros H%fmap_nil_inv. by apply split_on_not_nil in H.
    + apply Forall_fmap, Forall_true. intros p. simpl. apply all_safe_free; [done|apply all_safe_encoded].
Qed.

(** ** Searching text *)

Lemma str_prefix_app p s : String.prefix p (p +:+ s) = true.
Proof.
  induction p as [|c p IH]; [by destruct s|]. rewrite str_app_cons. cbn [String.prefix].
  destruct (ascii_dec c c); [done|congruence].
Qed.
Lemma substring_all s m : (String.length s ≤ m)%nat → String.substring 0 m s = s.
Proof.
  revert m. induction s as [|c s IH]; intros m Hm; [by destruct m|]. destruct m as [|m]; cbn [String.length] in Hm; [lia|].
  cbn [String.substring]. rewrite IH by lia. done.
Qed.
Lemma substring_app p s m : (String.length s ≤ m)%nat → String.substring (String.length p) m (p +:+ s) = s.
Proof. induction p as [|c p IH]; intros Hm; [by apply substring_all|]. rewrite str_app_cons. cbn. by apply IH. Qed.
Lemma strip_app p s : strip p (p +:+ s) = Some s.
Proof. unfold strip. rewrite str_prefix_app, substring_app; [done|]. rewrite str_length_app. lia. Qed.

(** A separator whose first character occurs in it only once does not overlap itself. *)
Lemma prefix_overlap c d y z :
  str_contains c d = false → String.prefix d (y +:+ String c z) = true → String.prefix d y = true.
Proof.
  revert y. induction d as [|e d IH]; intros y Hd Hp; [by destruct y|].
  apply str_contains_cons_false in Hd as [He Hd]. destruct y as [|f y].
  - rewrite str_app_nil_l in Hp. cbn [String.prefix] in Hp. destruct (ascii_dec e c); [congruence|done].
  - rewrite str_app_cons in Hp. cbn [String.prefix] in *. destruct (ascii_dec e f); [by apply IH|done].
Qed.
Lemma break_at_here sep s :
  break_at sep s =
  if String.prefix sep s then Some ("", String.substring (String.length sep) (String.length s) s)
  else match s with "" => None | String c s' => '(a, b) ← break_at sep s'; Some (String c a, b) end.
Proof. by destruct s. Qed.
Lemma break_at_app c d x rest :
  str_contains c d = false → occurs (String c d) x = false →
  break_at (String c d) (x +:+ String c d +:+ rest) = Some (x, rest).
Proof.
  intros Hd. induction x as [|e x IH]; intros Hx.
  - rewrite str_app_nil_l, break_at_here. rewrite str_prefix_app, substring_app; [done|]. rewrite str_length_app. lia.
  - cbn [occurs] in Hx. apply orb_false_iff in Hx as [Hp Hx]. rewrite str_app_cons. cbn [break_at].
    assert (String.prefix (String c d) (String e (x +:+ String c d +:+ rest)) = false) as ->.
    { apply not_true_iff_false. intros Ht. apply not_true_iff_false in Hp. apply Hp. cbn [String.prefix] in *.
      destruct (ascii_dec c e); [|done]. rewrite str_app_cons in Ht. by eapply prefix_overlap. }
    by rewrite IH.
Qed.
Lemma occurs_char c x : str_contains c x = false → occurs (String c "") x = false.
Proof.
  induction x as [|e x IH]; [done|]. intros [He Hx]%str_contains_cons_false. cbn [occurs String.prefix].
  destruct (ascii_dec c e); [congruence|]. by apply IH.
Qed.
Lemma occurs_first c d x : str_contains c x = false → occurs (String c d) x = false.
Proof.
  induction x as [|e x IH]; [done|]. intros [He Hx]%str_contains_cons_false. cbn [occurs String.prefix].
  destruct (ascii_dec c e); [congruence|]. by apply IH.
Qed.
Lemma prefix_occurs a b s : String.prefix (a +:+ b) s = true → occurs b s = true.
Proof.
  revert s. induction a as [|c a IH]; intros s Hp.
  - rewrite str_app_nil_l in Hp. destruct s; simpl in *; by rewrite Hp.
  - rewrite str_app_cons in Hp. destruct s as [|e s]; [done|]. cbn [String.prefix] in Hp. destruct (ascii_dec c e); [|done].
    cbn [occurs]. rewrite (IH s Hp). apply orb_true_r.
Qed.
Lemma occurs_suffix a b s : occurs b s = false → occurs (a +:+ b) s = false.
Proof.
  intros Hb. apply not_true_iff_false. intros H. apply not_true_iff_false in Hb. apply Hb. clear Hb.
  induction s as [|e s IH].
  - cbn [occurs] in H. rewrite orb_false_r in H. by eapply prefix_occurs.
  - cbn [occurs] in H. apply orb_true_iff in H as [H|H]; [by eapply prefix_occurs|]. cbn [occurs]. rewrite (IH H).
    apply orb_true_r.
Qed.

(** ** Multipart bodies *)

(** Names without a quote, and a content type without a line end. *)
Definition tame (p : MultipartPart) : Prop :=
  str_contains "034" (part_name p) = false ∧
  (∀ f, part_filename p = Some f → str_contains "034" f = false) ∧
  (∀ t, part_content_type p = Some t → str_contains "013" t = false).

Lemma strip_filename_crlf s : strip ("; filename=" +:+ dquote) (crlf +:+ s) = None.
Proof. done. Qed.
Lemma strip_type_crlf s : strip "Content-Type: " (crlf +:+ s) = None.
Proof. done. Qed.
Lemma break_at_quote x rest : str_contains "034" x = false → break_at dquote (x +:+ dquote +:+ rest) = Some (x, rest).
Proof. intros Hx. apply break_at_app; [done|by apply occurs_char]. Qed.
Lemma break_at_crlf x rest : str_contains "013" x = false → break_at crlf (x +:+ crlf +:+ rest) = Some (x, rest).
Proof. intros Hx. apply break_at_app; [done|by apply occurs_first]. Qed.
Lemma break_at_delimiter x rest :
  occurs BOUNDARY x = false → break_at (crlf +:+ "--" +:+ BOUNDARY) (x +:+ crlf +:+ "--" +:+ BOUNDARY +:+ rest) = Some (x, rest).
Proof.
  intros Hx. assert (crlf +:+ "--" +:+ BOUNDARY +:+ rest = (crlf +:+ "--" +:+ BOUNDARY) +:+ rest) as -> by by rewrite !str_app_assoc.
  apply (break_at_app "013" (String "010" "--" +:+ BOUNDARY)); [reflexivity|].
  change (String "013" (String "010" "--" +:+ BOUNDARY)) with ((crlf +:+ "--") +:+ BOUNDARY). by apply occurs_suffix.
Qed.

(** What follows the delimiter of a part. *)
Definition after_delimiter (p : MultipartPart) : string :=
  crlf +:+ disposition +:+ part_name p +:+
  (match part_filename p with Some f => filename_param +:+ f | None => "" end) +:+ dquote +:+ crlf +:+
  (match part_content_type p with Some t => "Content-Type: " +:+ t +:+ crlf | None => "" end) +:+
  crlf +:+ part_data p.
Lemma read_part_encoded p s :
  tame p → occurs BOUNDARY (part_data p) = false →
  read_part (after_delimiter p +:+ crlf +:+ "--" +:+ BOUNDARY +:+ s) = Some (p, s).
Proof.
  destruct p as [name filename ctype data]. intros (Hn & Hf & Ht) Hd. unfold after_delimiter, read_part.
  cbn [part_name part_filename part_content_type part_data] in *.
  rewrite !str_app_assoc, <- (str_app_assoc crlf disposition), strip_app. cbn [mbind option_bind].
  assert (∀ x, match strip "Content-Type: " ((match ctype with Some t => "Content-Type: " +:+ t +:+ crlf | None => "" end) +:+ crlf +:+ x) with
               | Some s => '(t, s) ← break_at crlf s; Some (Some t, s)
               | None => Some (None, (match ctype with Some t => "Content-Type: " +:+ t +:+ crlf | None => "" end) +:+ crlf +:+ x)
               end = Some (ctype, crlf +:+ x)) as Htype.
  { intros x. destruct ctype as [t|].
    - rewrite !str_app_assoc, strip_app, break_at_crlf by auto. done.
    - by rewrite str_app_nil_l, strip_type_crlf. }
  destruct filename as [f|].
  - unfold filename_param. rewrite !str_app_assoc, break_at_quote by done. cbn [mbind option_bind].
    rewrite <- (str_app_assoc "; filename="), strip_app, break_at_quote by auto. cbn [mbind option_bind].
    rewrite strip_app. cbn [mbind option_bind]. rewrite Htype. cbn [mbind option_bind]. rewrite strip_app. cbn [mbind option_bind].
    by rewrite break_at_delimiter.
  - rewrite str_app_nil_l, break_at_quote by done. cbn [mbind option_bind]. rewrite strip_filename_crlf. cbn [mbind option_bind].
    rewrite strip_app. cbn [mbind option_bind]. rewrite Htype. cbn [mbind option_bind]. rewrite strip_app. cbn [mbind option_bind].
    by rewrite break_at_delimiter.
Qed.
Lemma encode_part_after p : encode_part p = ("--" +:+ BOUNDARY) +:+ after_delimiter p +:+ crlf.
Proof. unfold encode_part, after_delimiter. by rewrite !str_app_assoc. Qed.
Lemma after_delimiter_starts p : ∃ s, after_delimiter p = String "013" s.
Proof. by eexists. Qed.

Lemma encode_parts_read parts body :
  Forall tame parts → encode_parts parts = Ok body →
  ∃ s, body = ("--" +:+ BOUNDARY) +:+ s ∧ (length parts ≤ String.length s)%nat ∧
    ∀ fuel, (length parts < fuel)%nat → read_parts fuel s = Some parts.
Proof.
  intros Htame. revert body. induction Htame as [|p parts Hp Hparts IH]; intros body; cbn [encode_parts].
  - intros [= <-]. exists ("--" +:+ crlf). split; [by rewrite str_app_assoc|]. split; [simpl; lia|].
    intros [|fuel] Hfuel; [simpl in Hfuel; lia|]. done.
  - destruct (occurs BOUNDARY (part_data p)) eqn:Hd; [done|]. destruct (encode_parts parts) as [rest|] eqn:Henc; [|done].
    intros [= <-]. destruct (IH rest eq_refl) as (s & -> & Hlen & Hread).
    exists (after_delimiter p +:+ crlf +:+ "--" +:+ BOUNDARY +:+ s). split; [by rewrite encode_part_after, !str_app_assoc|].
    split; [rewrite !str_length_app; destruct (after_delimiter_starts p) as [t ->]; simpl; lia|].
    intros [|fuel] Hfuel; [lia|]. cbn [read_parts]. rewrite bool_decide_false.
    + rewrite read_part_encoded by done. cbn [mbind option_bind]. rewrite Hread by (simpl in Hfuel; lia). done.
    + destruct (after_delimiter_starts p) as [t ->]. done.
Qed.
(** a form arrives as it was built. Whatever the data of the parts, either
    encoding refuses, because some data holds the boundary, or a reader of the
    body gets exactly the parts, in order, provided that no name or filename
    holds a quote and no content type a line end. *)
Theorem multipart_roundtrip (parts : Multipart) :
  Forall tame parts →
  match encode_parts parts with
  | Ok body => read_multipart body = Some parts ∧ Forall (λ p, occurs BOUNDARY (part_data p) = false) parts
  | Err _ => Exists (λ p, occurs BOUNDARY (part_data p) = true) parts
  end.
Proof.
  intros Htame. assert (match encode_parts parts with
    | Ok _ => Forall (λ p, occurs BOUNDARY (part_data p) = false) parts
    | Err _ => Exists (λ p, occurs BOUNDARY (part_data p) = true) parts end) as Hocc.
  { clear Htame. induction parts as [|p parts IH]; [constructor|]. cbn [encode_parts].
    destruct (occurs BOUNDARY (part_data p)) eqn:Hd; [by left|].
    destruct (encode_parts parts); simpl; [by constructor|by right]. }
  destruct (encode_parts parts) as [body|] eqn:Henc; [|done]. split; [|done].
  destruct (encode_parts_read parts body Htame Henc) as (s & -> & Hlen & Hread).
  unfold read_multipart. rewrite strip_app. cbn [mbind option_bind]. apply Hread. lia.
Qed.

(** ** Small forms *)

Section Sample.
Definition upload : Multipart := file "avatar" "me.png" "image/png" (crlf +:+ "--almost") (text "title" "a & b" Multipart_new).
(** A field name that goes on as the headers and data of another field. *)
Definition forged_name : string :=
  "a" +:+ dquote +:+ crlf +:+ crlf +:+ "1" +:+ crlf +:+ "--" +:+ BOUNDARY +:+ crlf +:+ disposition +:+ "b".
End Sample.
Lemma multipart_roundtrip_witness :
  Forall tame upload ∧ match encode_parts upload with Ok body => read_multipart body = Some upload | Err _ => False end.
Proof.
  assert (Forall tame upload) as Ht.
  { repeat constructor; try (intros ? [= <-]); vm_compute; reflexivity. }
  split; [exact Ht|]. pose proof (multipart_roundtrip upload Ht) as H.
  destruct (encode_parts upload) as [body|e] eqn:He; [exact (proj1 H)|].
  vm_compute in He. discriminate He.
Defined.
(** Only the data of a part is checked: a name is written as it is, so one field
    can be encoded exactly as two others are. *)
Lemma names_can_forge_parts :
  encode_parts (text forged_name "2" Multipart_new) = encode_parts (text "b" "2" (text "a" "1" Multipart_new)) ∧
  is_ok (encode_parts (text forged_name "2" Multipart_new)) = true.
Proof. by vm_compute. Qed.
(** Several files: those before the first that cannot be read are in the form. *)
Lemma files_keep_their_order :
  let file n r := mkBlob "" (Some n) r in
  let part n d := mkPart "f" (Some n) (Some "application/octet-stream") d in
  files "f" [file "a" (Ok "1"); file "b" (Ok "2")] Multipart_new = (Ok tt, [part "a" "1"; part "b" "2"]) ∧
  files "f" [file "a" (Ok "1"); file "b" (Err "gone"); file "c" (Ok "3")] Multipart_new =
    (Err "failed to read blob: gone", [part "a" "1"]).
Proof. by vm_compute. Qed.
Lemma boundary_in_data_refused : is_ok (encode_parts (text "a" ("x" +:+ BOUNDARY) Multipart_new)) = false.
Proof. by vm_compute. Qed.
(** Dots are unreserved: a parent segment is passed on as it is. *)
Lemma dot_segments_pass : encode_path_segment ".." = ".." ∧ encode_path_segments "a/../b" = "a/../b" ∧ encode_path_segment "a/b" = "a%2Fb".
Proof. by vm_compute. Qed.
