(* ===== verification/HttpClient.v ===== *)
(** * HttpClient: the two HTTP client transports

    Models [crates/axum/src/client/reqwest_backend.rs] and [hyper_backend.rs], with
    the hooks of [interceptor.rs], the envelope of [response.rs], the stream decoders
    of [streaming.rs] and the browser connection of [connection.rs].

    - A call is a computation over [Exchange]: the interceptor's own state and the
      trace of what happened, in order. The trace is what the theorems speak of; the
      code has no such log.
    - The HTTP libraries are arguments: [net] is what sending a request came to, and
      [parse_uri] is [str::parse::<Uri>], with its result printed.
    - The error type [E] of a call is a marker only, so [typed] and [retype] are the
      identity here. *)
From S2P Require Import Prelude WsClient Ndjson HttpBody.

Abbreviation HttpError := (ClientError Z).

(** ** Requests, responses and hooks *)

Record RequestParts := mkRequest { method : string; uri : string; req_headers : HeaderMap }.
Record ResponseParts := mkResponse { status : Z; resp_headers : HeaderMap }.
(** [StatusCode::is_success] *)
Definition is_success (code : Z) : bool := (200 <=? code) && (code <? 300).
Record HttpResponse (R : Type) := HttpResponse_new { hr_status : Z; hr_headers : HeaderMap; hr_body : R }.
Arguments HttpResponse_new {R}. Arguments hr_status {R}. Arguments hr_headers {R}. Arguments hr_body {R}.
(** [ClientInterceptor]: hooks over a state [H] behind its [&self]. *)
Record ClientInterceptor (H : Type) := mkInterceptor {
  on_request : H → RequestParts → H * RequestParts;
  on_response : H → ResponseParts → H * ResponseParts;
  on_error : H → HttpError → H }.
Arguments mkInterceptor {H}. Arguments on_request {H}. Arguments on_response {H}. Arguments on_error {H}.
(** [impl ClientInterceptor for ()] *)
Definition no_interceptor : ClientInterceptor unit :=
  mkInterceptor (λ h p, (h, p)) (λ h p, (h, p)) (λ h _, h).

Inductive SentBody := Full (bytes : string) | Streamed (chunks : list (result string string)).
Inductive Event :=
| EvRequest (parts : RequestParts)                    (* [on_request] left these parts *)
| EvSent (parts : RequestParts) (body : SentBody)     (* handed to the HTTP library *)
| EvResponse (parts : ResponseParts)                  (* [on_response] left these parts *)
| EvError (error : HttpError).                        (* [on_error] was told *)
(** What the HTTP library answers: the head of a response and the pieces of its
    body, or a failure. [C] is what a piece is. *)
Record Reply (C : Type) := mkReply { head : ResponseParts; pieces : list (result C string) }.
Arguments mkReply {C}. Arguments head {C}. Arguments pieces {C}.

(** [bytes()] and [collect()]: the whole body, or the first failure. *)
Fixpoint collect (chunks : list (result string string)) : result string string :=
  match chunks with
  | [] => Ok ""
  | Ok chunk :: chunks' => result_map (λ rest, chunk +:+ rest) (collect chunks')
  | Err m :: _ => Err m
  end.
(** A body frame of [hyper]; [into_data] keeps the data. *)
Inductive Frame := Data (bytes : string) | Trailers (h : HeaderMap).
Definition data_frame (f : result Frame string) : option (result string string) :=
  match f with Ok (Data b) => Some (Ok b) | Ok (Trailers _) => None | Err m => Some (Err m) end.
Definition codec_text (e : CodecError) : string := match e with Internal text => text end.
(** [stream_body] of the [hyper] backend: the [Serialization] errors of a body. *)
Definition stream_body (chunks : list (result string CodecError)) : list (result string string) :=
  map_err codec_text <$> chunks.

Section Client.
Context {H : Type} (I : ClientInterceptor H) (parse_uri : string → result string string).

Record Exchange := mkExchange { hooks : H; trace : list Event }.
Definition call (A : Type) : Type := rst Exchange HttpError A.
Definition record_event (ev : Event) (h : H) (s : Exchange) : Exchange := mkExchange h (trace s ++ [ev]).

Definition fail {A} (e : HttpError) : call A := λ s, (Err e, record_event (EvError e) (on_error I (hooks s) e) s).
(** [.map_err(|error| self.fail(..))?] *)
Definition or_fail {A F} (f : F → HttpError) (r : result A F) : call A :=
  match r with Ok a => mret a | Err e => fail (f e) end.
Definition run_on_request (parts : RequestParts) : call RequestParts :=
  λ s, let '(h, parts) := on_request I (hooks s) parts in (Ok parts, record_event (EvRequest parts) h s).
Definition response_parts (parts : ResponseParts) : call ResponseParts :=
  λ s, let '(h, parts) := on_response I (hooks s) parts in (Ok parts, record_event (EvResponse parts) h s).
Definition send {C} (net : RequestParts → SentBody → result (Reply C) string) (parts : RequestParts) (body : SentBody) :
    call (Reply C) :=
  λ s, or_fail net_err (net parts body) (record_event (EvSent parts body) (hooks s) s).
(** From the head of a response to the result of a unary call: the body, the
    classification by status, the decoder. *)
Definition read_response {R} (decode : string → result R string) (parts : ResponseParts) (body : result string string) :
    call (HttpResponse R) :=
  bytes ← or_fail net_err body;
  if is_success (status parts) then
    decoded ← or_fail EDecode (decode bytes);
    mret (HttpResponse_new (status parts) (resp_headers parts) decoded)
  else fail (ERemote (status parts) bytes).

(** ** The [reqwest] backend *)

(** The header provider is called for every request. *)
Record ReqwestClient := mkReqwest { rq_base_url : string; header_provider : option HeaderMap }.
(** [for (name, value) in request_headers { merged.insert(..) }]: a name is
    visited once per value. *)
Definition merged_headers (c : ReqwestClient) (request_headers : HeaderMap) : HeaderMap :=
  map_fold (λ name values acc, foldl (λ acc value, header_insert name value acc) acc values)
    (default ∅ (header_provider c)) request_headers.
Definition prepare_request (c : ReqwestClient) (parts : RequestParts) : call RequestParts :=
  u ← or_fail EEncode (parse_uri (rq_base_url c +:+ uri parts));
  run_on_request (mkRequest (method parts) u (merged_headers c (req_headers parts))).
Section Reqwest.
Context (c : ReqwestClient) (net : RequestParts → SentBody → result (Reply string) string).
Definition reqwest_unary {R} (decode : string → result R string) (parts : RequestParts) (body : result string CodecError) :
    call (HttpResponse R) :=
  bytes ← or_fail (EEncode ∘ codec_text) body;
  parts ← prepare_request c parts;
  reply ← send net parts (Full bytes);
  parts ← response_parts (head reply);
  read_response decode parts (collect (pieces reply)).
(** The byte stream of a response; later failures of the network are its items. *)
Definition reqwest_open_stream (parts : RequestParts) (body : result string CodecError) :
    call (list (result string HttpError)) :=
  bytes ← or_fail (EEncode ∘ codec_text) body;
  parts ← prepare_request c parts;
  reply ← send net parts (Full bytes);
  parts ← response_parts (head reply);
  if is_success (status parts) then mret (map_err net_err <$> pieces reply)
  else bytes ← or_fail net_err (collect (pieces reply)); fail (ERemote (status parts) bytes).
Definition reqwest_send_stream {R} (decode : string → result R string) (parts : RequestParts)
    (body : list (result string CodecError)) : call (HttpResponse R) :=
  parts ← prepare_request c parts;
  reply ← send net parts (Streamed (map_err codec_text <$> body));
  parts ← response_parts (head reply);
  read_response decode parts (collect (pieces reply)).
End Reqwest.

(** ** The [hyper] backend *)

Definition prepare_parts (base_url : string) (parts : RequestParts) : call RequestParts :=
  u ← or_fail EEncode (parse_uri (base_url +:+ uri parts));
  run_on_request (mkRequest (method parts) u (req_headers parts)).
(** The builder cannot fail: its method, URI and headers are already typed. *)
Definition build_request (base_url : string) (parts : RequestParts) (body : result string CodecError) :
    call (RequestParts * SentBody) :=
  bytes ← or_fail (EEncode ∘ codec_text) body;
  parts ← prepare_parts base_url parts;
  mret (parts, Full bytes).
Definition build_stream_request (base_url : string) (parts : RequestParts) (body : list (result string CodecError)) :
    call (RequestParts * SentBody) :=
  parts ← prepare_parts base_url parts;
  mret (parts, Streamed (stream_body body)).
Section Hyper.
Context (base_url : string) (net : RequestParts → SentBody → result (Reply Frame) string).
Definition hyper_unary {R} (decode : string → result R string) (parts : RequestParts) (body : result string CodecError) :
    call (HttpResponse R) :=
  request ← build_request base_url parts body;
  reply ← send net request.1 request.2;
  parts ← response_parts (head reply);
  read_response decode parts (collect (omap data_frame (pieces reply))).
Definition hyper_open_stream (parts : RequestParts) (body : result string CodecError) :
    call (list (result string HttpError)) :=
  request ← build_request base_url parts body;
  reply ← send net request.1 request.2;
  parts ← response_parts (head reply);
  if is_success (status parts) then mret (map_err net_err <$> omap data_frame (pieces reply))
  else bytes ← or_fail net_err (collect (omap data_frame (pieces reply))); fail (ERemote (status parts) bytes).
Definition hyper_send_stream {R} (decode : string → result R string) (parts : RequestParts)
    (body : list (result string CodecError)) : call (HttpResponse R) :=
  request ← build_stream_request base_url parts body;
  reply ← send net request.1 request.2;
  parts ← response_parts (head reply);
  read_response decode parts (collect (omap data_frame (pieces reply))).
End Hyper.
End Client.
Arguments Exchange : clear implicits.
Arguments call : clear implicits.

(** [StreamDecode]: the framings of a streamed response. *)
Definition ndjson_decode_stream {T} (from_slice : string → option T) (body : list (result string HttpError)) : option (list T) :=
  ndjson_decode from_slice body.
Fixpoint raw_decode_stream (body : list (result string HttpError)) : list string :=
  match body with Ok chunk :: body' => chunk :: raw_decode_stream body' | _ => [] end.
(** [encode_stream]: the chunks of a streamed request. *)
Definition encode_stream {T} (encode : T → result string CodecError) (input : list T) : list (result string CodecError) :=
  encode <$> input.

(** ** Every error is reported, once *)

Definition errors (tr : list Event) : list HttpError :=
  omap (λ ev, match ev with EvError e => Some e | _ => None end) tr.
Lemma errors_app a b : errors (a ++ b) = errors a ++ errors b.
Proof. apply omap_app. Qed.

Section Facts.
Context {H : Type} (I : ClientInterceptor H) (parse_uri : string → result string string).

(** A computation that tells [on_error] of its error and of nothing else. *)
Class Reported {A} (m : call H A) : Prop :=
  reported s : ∃ tr, trace (m s).2 = trace s ++ tr ∧ errors tr = match (m s).1 with Ok _ => [] | Err e => [e] end.

#[local] Instance mret_reported {A} (a : A) : Reported (mret a).
Proof. intros s. exists []. by rewrite app_nil_r. Qed.
#[local] Instance bind_reported {A B} (m : call H A) (f : A → call H B) :
  Reported m → (∀ a, Reported (f a)) → Reported (m ≫= f).
Proof.
  intros Hm Hf s. destruct (Hm s) as (tr & Htr & He). unfold mbind, rst_bind. destruct (m s) as [[a|e] s']; [|by exists tr].
  simpl in *. destruct (Hf a s') as (tr' & Htr' & He'). exists (tr ++ tr'). rewrite Htr', Htr, app_assoc. split; [done|].
  by rewrite errors_app, He.
Qed.
#[local] Instance fail_reported {A} e : Reported (fail (A := A) I e).
Proof. intros s. by exists [EvError e]. Qed.
#[local] Instance or_fail_reported {A F} (f : F → HttpError) (r : result A F) : Reported (or_fail I f r).
Proof. destruct r; apply _. Qed.
#[local] Instance on_request_reported parts : Reported (run_on_request I parts).
Proof. intros s. unfold run_on_request. destruct (on_request I _ _) as [h p]. by exists [EvRequest p]. Qed.
#[local] Instance on_response_reported parts : Reported (response_parts I parts).
Proof. intros s. unfold response_parts. destruct (on_response I _ _) as [h p]. by exists [EvResponse p]. Qed.
#[local] Instance send_reported {C} (net : RequestParts → SentBody → result (Reply C) string) parts b : Reported (send I net parts b).
Proof.
  intros s. unfold send. destruct (or_fail_reported net_err (net parts b) (record_event (EvSent parts b) (hooks s) s)) as (tr & Htr & He).
  exists (EvSent parts b :: tr). rewrite Htr. split; [|done]. cbn [record_event trace]. by rewrite <- app_assoc.
Qed.
#[local] Instance if_reported {A} (b : bool) (m1 m2 : call H A) : Reported m1 → Reported m2 → Reported (if b then m1 else m2).
Proof. by destruct b. Qed.
#[local] Instance read_response_reported {R} (decode : string → result R string) parts body :
  Reported (read_response I decode parts body).
Proof. unfold read_response. apply _. Qed.

(** C35: whatever a call comes to, unary or streaming, over either backend, the
    interceptor is told of its error exactly once, and of no error when the call
    succeeds. *)
Theorem errors_are_reported_once {R} (c : ReqwestClient) (base : string)
    (rnet : RequestParts → SentBody → result (Reply string) string)
    (hnet : RequestParts → SentBody → result (Reply Frame) string)
    (decode : string → result R string) (parts : RequestParts) (body : result string CodecError)
    (chunks : list (result string CodecError)) :
  Reported (reqwest_unary I parse_uri c rnet decode parts body) ∧
  Reported (reqwest_open_stream I parse_uri c rnet parts body) ∧
  Reported (reqwest_send_stream I parse_uri c rnet decode parts chunks) ∧
  Reported (hyper_unary I parse_uri base hnet decode parts body) ∧
  Reported (hyper_open_stream I parse_uri base hnet parts body) ∧
  Reported (hyper_send_stream I parse_uri base hnet decode parts chunks).
Proof. repeat split; unfold reqwest_unary, reqwest_open_stream, reqwest_send_stream, hyper_unary, hyper_open_stream,
  hyper_send_stream, build_request, build_stream_request, prepare_request, prepare_parts; apply _. Qed.

(** ** What an outcome says about the exchange *)

(** [tr] is a trace of a call with result [r]; [sends p b] says which request
    the backend makes, before [on_request], and [answers] what it reads of the network. *)
Definition Reflects {R} (sends : RequestParts → SentBody → Prop) (answers : RequestParts → SentBody → result (Reply string) string)
    (decode : string → result R string) (tr : list Event) (r : result (HttpResponse R) HttpError) : Prop :=
  let exchanged p rp b tail := ∃ p0 h h' sent reply,
    sends p0 sent ∧ p = (on_request I h p0).2 ∧ answers p sent = Ok reply ∧ rp = (on_response I h' (head reply)).2 ∧
    b = collect (pieces reply) ∧ tr = [EvRequest p; EvSent p sent; EvResponse rp] ++ tail in
  match r with
  | Ok resp => ∃ p rp bytes, exchanged p rp (Ok bytes) [] ∧ is_success (status rp) = true ∧
      hr_status resp = status rp ∧ hr_headers resp = resp_headers rp ∧ decode bytes = Ok (hr_body resp)
  | Err (ERemote code bytes as e) => ∃ p rp, exchanged p rp (Ok bytes) [EvError e] ∧ code = status rp ∧ is_success code = false
  | Err (EDecode m as e) => ∃ p rp bytes, exchanged p rp (Ok bytes) [EvError e] ∧ is_success (status rp) = true ∧ decode bytes = Err m
  | Err (EEncode _ as e) => tr = [EvError e]
  | Err (ETransport t as e) => ∃ m, t = TIo m ∧
      ((∃ p rp, exchanged p rp (Err m) [EvError e]) ∨
       (∃ p0 h p sent, sends p0 sent ∧ p = (on_request I h p0).2 ∧ answers p sent = Err m ∧ tr = [EvRequest p; EvSent p sent; EvError e]))
  | Err EConnectionClosed | Err ETimeout => False
  end.

(** The exchange all unary calls end in: [view] is how the body is read. *)
Definition exchange {C R} (view : list (result C string) → list (result string string))
    (net : RequestParts → SentBody → result (Reply C) string) (decode : string → result R string)
    (p0 : RequestParts) (sent : SentBody) : call H (HttpResponse R) :=
  p ← run_on_request I p0;
  reply ← send I net p sent;
  parts ← response_parts I (head reply);
  read_response I decode parts (collect (view (pieces reply))).
Definition viewed {C} (view : list (result C string) → list (result string string))
    (net : RequestParts → SentBody → result (Reply C) string) : RequestParts → SentBody → result (Reply string) string :=
  λ p b, result_map (λ r, mkReply (head r) (view (pieces r))) (net p b).

Lemma exchange_reflects {C R} view (net : RequestParts → SentBody → result (Reply C) string) (decode : string → result R string)
    (sends : RequestParts → SentBody → Prop) p0 sent s :
  sends p0 sent →
  ∃ tr, trace (exchange view net decode p0 sent s).2 = trace s ++ tr ∧
    Reflects sends (viewed view net) decode tr (exchange view net decode p0 sent s).1.
Proof.
  intros Hp0. unfold exchange, run_on_request, mbind, rst_bind. destruct (on_request I (hooks s) p0) as [h p] eqn:Hreq.
  assert (p = (on_request I (hooks s) p0).2) as Hp by by rewrite Hreq.
  unfold send. destruct (net p sent) as [reply|m] eqn:Hnet; cbn [or_fail].
  2:{ eexists. split; [cbn; by rewrite <- !app_assoc|]. simpl. exists m. split; [done|]. right. exists p0, (hooks s), p, sent.
      split; [done|]. split; [done|]. split; [|done]. unfold viewed. by rewrite Hnet. }
  assert (viewed view net p sent = Ok (mkReply (head reply) (view (pieces reply)))) as Hans by (unfold viewed; by rewrite Hnet).
  unfold mret, rst_ret, response_parts. cbn [hooks record_event].
  destruct (on_response I h (head reply)) as [h' rp] eqn:Hresp.
  assert (rp = (on_response I h (head (mkReply (head reply) (view (pieces reply))))).2) as Hrp by (cbn; by rewrite Hresp).
  unfold read_response, mbind, rst_bind. destruct (collect (view (pieces reply))) as [bytes|m] eqn:Hb; cbn [or_fail].
  - unfold mret, rst_ret. destruct (is_success (status rp)) eqn:Hok.
    + destruct (decode bytes) as [a|m] eqn:Hd; (eexists; split; [cbn; by rewrite <- !app_assoc|]); cbn;
        exists p, rp, bytes; (split; [by eauto 15|done]).
    + eexists; split; [cbn; by rewrite <- !app_assoc|]. cbn. exists p, rp. split; [by eauto 15|done].
  - eexists; split; [cbn; by rewrite <- !app_assoc|]. cbn. exists m. split; [done|]. left. exists p, rp. by eauto 15.
Qed.

Definition faithful {R} sends answers (decode : string → result R string) (m : call H (HttpResponse R)) : Prop :=
  ∀ s, ∃ tr, trace (m s).2 = trace s ++ tr ∧ Reflects sends answers decode tr (m s).1.
(** The requests of a call to a base URL, with the headers it adds. *)
Definition requests (base : string) (add : HeaderMap → HeaderMap) (parts : RequestParts) (body : SentBody → Prop)
    (p0 : RequestParts) (sent : SentBody) : Prop :=
  body sent ∧ ∃ u, parse_uri (base +:+ uri parts) = Ok u ∧ p0 = mkRequest (method parts) u (add (req_headers parts)).
Definition encoded (body : result string CodecError) (sent : SentBody) : Prop := ∃ bytes, body = Ok bytes ∧ sent = Full bytes.

Lemma encode_faithful {A R} sends answers (decode : string → result R string) (r : result A CodecError) (f : A → call H (HttpResponse R)) :
  (∀ a, r = Ok a → faithful sends answers decode (f a)) → faithful sends answers decode (or_fail I (EEncode ∘ codec_text) r ≫= f).
Proof. intros Hf s. destruct r as [a|e]; [by apply Hf|]. by exists [EvError (EEncode (codec_text e))]. Qed.
Lemma uri_faithful {R} sends answers (decode : string → result R string) r (f : string → call H (HttpResponse R)) :
  (∀ u, r = Ok u → faithful sends answers decode (f u)) → faithful sends answers decode (or_fail I EEncode r ≫= f).
Proof. intros Hf s. destruct r as [u|e]; [by apply Hf|]. by exists [EvError (EEncode e)]. Qed.
Lemma call_bind_assoc {A B C} (m : call H A) (f : A → call H B) (g : B → call H C) s :
  ((m ≫= f) ≫= g) s = (m ≫= (λ a, f a ≫= g)) s.
Proof. unfold mbind, rst_bind. by destruct (m s) as [[]]. Qed.
Lemma faithful_ext {R} sends answers (decode : string → result R string) (m1 m2 : call H (HttpResponse R)) :
  (∀ s, m1 s = m2 s) → faithful sends answers decode m2 → faithful sends answers decode m1.
Proof. intros Heq Hm s. rewrite Heq. apply Hm. Qed.

Lemma reqwest_tail_faithful {R} c net (decode : string → result R string) parts sent (body : SentBody → Prop) :
  body sent →
  faithful (requests (rq_base_url c) (merged_headers c) parts body) (viewed id net) decode
    (p ← prepare_request I parse_uri c parts; reply ← send I net p sent; rp ← response_parts I (head reply);
     read_response I decode rp (collect (pieces reply))).
Proof.
  intros Hb. eapply faithful_ext; [apply call_bind_assoc|]. apply uri_faithful. intros u Hu s.
  apply (exchange_reflects id). split; [done|]. by exists u.
Qed.
Lemma hyper_tail_faithful {R} base net (decode : string → result R string) parts sent (body : SentBody → Prop) :
  body sent →
  faithful (requests base id parts body) (viewed (omap data_frame) net) decode
    (p ← prepare_parts I parse_uri base parts; reply ← send I net p sent; rp ← response_parts I (head reply);
     read_response I decode rp (collect (omap data_frame (pieces reply)))).
Proof.
  intros Hb. eapply faithful_ext; [apply call_bind_assoc|]. apply uri_faithful. intros u Hu s.
  apply (exchange_reflects (omap data_frame)). split; [done|]. by exists u.
Qed.

(** a result says what happened. A call that succeeds made one request, with
    the encoded body, the absolute URI and whatever [on_request] made of it, and
    answers with the status, the headers and the decoded body of the response as
    [on_response] left it, a success; a remote error carries the status and the raw
    body of a response that was none; an encoding error means that nothing was
    sent and no hook ran; and there are no other outcomes than these, a failed
    decoding and a failure of the network. *)
Theorem outcomes_reflect_the_exchange {R} (c : ReqwestClient) (base : string)
    (rnet : RequestParts → SentBody → result (Reply string) string)
    (hnet : RequestParts → SentBody → result (Reply Frame) string)
    (decode : string → result R string) (parts : RequestParts) (body : result string CodecError)
    (chunks : list (result string CodecError)) :
  let streamed sent := sent = Streamed (map_err codec_text <$> chunks) in
  let reqwest_requests := requests (rq_base_url c) (merged_headers c) parts in
  faithful (reqwest_requests (encoded body)) (viewed id rnet) decode (reqwest_unary I parse_uri c rnet decode parts body) ∧
  faithful (reqwest_requests streamed) (viewed id rnet) decode (reqwest_send_stream I parse_uri c rnet decode parts chunks) ∧
  faithful (requests base id parts (encoded body)) (viewed (omap data_frame) hnet) decode
    (hyper_unary I parse_uri base hnet decode parts body) ∧
  faithful (requests base id parts streamed) (viewed (omap data_frame) hnet) decode
    (hyper_send_stream I parse_uri base hnet decode parts chunks).
Proof.
  intros streamed rr. split; [|split; [|split]].
  - apply encode_faithful. intros bytes Hb. apply reqwest_tail_faithful. by exists bytes.
  - by apply reqwest_tail_faithful.
  - eapply faithful_ext; [apply call_bind_assoc|]. apply encode_faithful. intros bytes Hb.
    eapply faithful_ext; [apply call_bind_assoc|].
    exact (hyper_tail_faithful base hnet decode parts (Full bytes) (encoded body) ltac:(by exists bytes)).
  - eapply faithful_ext; [apply call_bind_assoc|].
    exact (hyper_tail_faithful base hnet decode parts (Streamed (stream_body chunks)) streamed eq_refl).
Qed.

(** ** One backend for the other *)

Lemma insert_values_lookup name n vs (acc : HeaderMap) :
  foldl (λ acc value, header_insert name value acc) acc vs !! n =
  if bool_decide (n = name) then match last vs with Some v => Some [v] | None => acc !! n end else acc !! n.
Proof.
  revert acc. induction vs as [|v vs IH]; intros acc; simpl; [by case_bool_decide|]. rewrite IH. unfold header_insert.
  case_bool_decide as Hn; [|by rewrite lookup_insert_ne]. subst n. destruct vs as [|w vs]; [by rewrite lookup_insert_eq|].
  change (last (v :: w :: vs)) with (last (w :: vs)). destruct (last (w :: vs)) eqn:Hl; [done|].
  by apply last_None in Hl.
Qed.
(** What is sent under each name: the last value of the request, or else the
    provider's. *)
Lemma merged_headers_lookup c h n :
  merged_headers c h !! n =
  match h !! n ≫= last with Some v => Some [v] | None => default ∅ (header_provider c) !! n end.
Proof.
  unfold merged_headers. apply (map_fold_weak_ind (λ (acc m : HeaderMap),
    acc !! n = match m !! n ≫= last with Some v => Some [v] | None => default ∅ (header_provider c) !! n end)); [done|].
  intros name vs m acc Hm IH. rewrite insert_values_lookup. case_bool_decide as Hn.
  - subst name. rewrite lookup_insert_eq. simpl. destruct (last vs); [done|]. by rewrite IH, Hm.
  - by rewrite lookup_insert_ne.
Qed.
Definition single_valued (h : HeaderMap) : Prop := map_Forall (λ _ vs, ∃ v, vs = [v]) h.
Lemma merged_headers_single c h : header_provider c = None → single_valued h → merged_headers c h = h.
Proof.
  intros Hp Hs. apply map_eq. intros n. rewrite merged_headers_lookup, Hp. destruct (h !! n) as [vs|] eqn:Hn; [|done].
  destruct (Hs _ _ Hn) as [v ->]. done.
Qed.

(** the backends are interchangeable. Without a header provider and with one
    value per request header, the two transports, given the same network, base URL
    and interceptor, give every call the same result and the same trace. *)
Theorem backends_agree {R} (base : string) (hnet : RequestParts → SentBody → result (Reply Frame) string)
    (decode : string → result R string) (parts : RequestParts) (body : result string CodecError)
    (chunks : list (result string CodecError)) (s : Exchange H) :
  single_valued (req_headers parts) →
  let c := mkReqwest base None in
  let rnet := viewed (omap data_frame) hnet in
  reqwest_unary I parse_uri c rnet decode parts body s = hyper_unary I parse_uri base hnet decode parts body s ∧
  reqwest_open_stream I parse_uri c rnet parts body s = hyper_open_stream I parse_uri base hnet parts body s ∧
  reqwest_send_stream I parse_uri c rnet decode parts chunks s = hyper_send_stream I parse_uri base hnet decode parts chunks s.
Proof.
  intros Hs c rnet.
  assert (prepare_request I parse_uri c parts = prepare_parts I parse_uri base parts) as Hprep
    by (unfold prepare_request, prepare_parts; by rewrite merged_headers_single).
  assert (∀ p b s, send I rnet p b s = match send I hnet p b s with
    | (Ok r, s') => (Ok (mkReply (head r) (omap data_frame (pieces r))), s') | (Err e, s') => (Err e, s') end) as Hsend.
  { intros p b s0. unfold send, rnet, viewed. by destruct (hnet p b). }
  split; [|split].
  1, 2: unfold reqwest_unary, hyper_unary, reqwest_open_stream, hyper_open_stream, build_request;
    rewrite Hprep; destruct body as [bytes|e]; [|done].
  3: unfold reqwest_send_stream, hyper_send_stream, build_stream_request; rewrite Hprep.
  all: unfold mbind, rst_bind; cbn [or_fail mret rst_ret]; unfold mret, rst_ret;
    destruct (prepare_parts I parse_uri base parts s) as [[p|e] s']; [|done];
    cbn [fst snd]; rewrite Hsend; unfold stream_body; destruct (send I hnet p _ s') as [[r|e] s'']; done.
Qed.
End Facts.

(** ** The browser connection *)

(** [Connection::websocket_url] *)
Definition websocket_url (base_url endpoint : string) : string :=
  if String.prefix "ws://" endpoint || String.prefix "wss://" endpoint then endpoint
  else
    let base := trim_end_char "/" base_url in
    let ws_base :=
      match strip "https://" base with
      | Some rest => "wss://" +:+ rest
      | None => match strip "http://" base with Some rest => "ws://" +:+ rest | None => base end
      end in
    if String.prefix "/" endpoint then ws_base +:+ endpoint else ws_base +:+ "/" +:+ endpoint.

(** The registry of transports: by the type of the protocol, with the type of the
    transport, which [downcast] compares. *)
Section Registry.
Context {V : Type}.
Abbreviation Transports := (gmap nat (nat * V)).
Definition attach_transport (p ty : nat) (v : V) (m : Transports) : Transports := <[p := (ty, v)]> m.
Definition transport (p ty : nat) (m : Transports) : option V :=
  '(ty', v) ← m !! p; if bool_decide (ty' = ty) then Some v else None.
Definition detach_transport (p ty : nat) (m : Transports) : option V * Transports := (transport p ty m, delete p m).
End Registry.

(** ** Small calls *)

Section Sample.
Definition any_uri (s : string) : result string string := Ok s.
Definition two_cookies : RequestParts := mkRequest "GET" "/a" {["cookie" := ["x=1"; "y=2"]]}.
Definition echo (p : RequestParts) (_ : SentBody) : result (Reply string) string :=
  Ok (mkReply (mkResponse 200 (req_headers p)) [Ok "t"; Ok "rue"]).
Definition echo_frames (p : RequestParts) (_ : SentBody) : result (Reply Frame) string :=
  Ok (mkReply (mkResponse 200 (req_headers p)) [Ok (Data "t"); Ok (Data "rue"); Ok (Trailers ∅)]).
Definition read_bool (s : string) : result bool string := match parse_bool s with Some b => Ok b | None => Err "no boolean" end.
Definition local : ReqwestClient := mkReqwest "http://h" None.
Definition fresh : Exchange unit := mkExchange tt [].
(** An interceptor that turns 404 into 200. *)
Definition forgiving : ClientInterceptor unit :=
  mkInterceptor (λ h p, (h, p)) (λ h p, (h, mkResponse (if status p =? 404 then 200 else status p) (resp_headers p))) (λ h _, h).
End Sample.

Lemma backends_agree_witness :
  single_valued {["accept" := ["a"]]} ∧
  reqwest_unary no_interceptor any_uri local (viewed (omap data_frame) echo_frames) read_bool
    (mkRequest "GET" "/a" {["accept" := ["a"]]}) (Ok "") fresh =
  hyper_unary no_interceptor any_uri "http://h" echo_frames read_bool (mkRequest "GET" "/a" {["accept" := ["a"]]}) (Ok "") fresh.
Proof.
  assert (single_valued {["accept" := ["a"]]}) as Hs by (apply map_Forall_singleton; eauto).
  split; [exact Hs|].
  exact (proj1 (backends_agree no_interceptor any_uri "http://h" echo_frames read_bool
    (mkRequest "GET" "/a" {["accept" := ["a"]]}) (Ok "") [] fresh Hs)).
Defined.
(** Merging visits a name once per value and replaces: of a header with two values
    the reqwest backend sends the last one only, and hyper sends both. *)
Lemma repeated_header_loses_values :
  (hr_headers <$> result_ok (reqwest_unary no_interceptor any_uri local echo read_bool two_cookies (Ok "") fresh).1) =
    Some {["cookie" := ["y=2"]]} ∧
  (hr_headers <$> result_ok (hyper_unary no_interceptor any_uri "http://h" echo_frames read_bool two_cookies (Ok "") fresh).1) =
    Some {["cookie" := ["x=1"; "y=2"]]}.
Proof. by vm_compute. Qed.
Lemma interceptor_decides_the_status :
  let net := λ p b, Ok (mkReply (mkResponse 404 ∅) [Ok "true"]) in
  (reqwest_unary no_interceptor any_uri local net read_bool two_cookies (Ok "") fresh).1 = Err (ERemote 404 "true") ∧
  (reqwest_unary forgiving any_uri local net read_bool two_cookies (Ok "") fresh).1 = Ok (HttpResponse_new 200 ∅ true).
Proof. by vm_compute. Qed.
(** A failure of the network in the middle of a streamed response is an item of
    the stream, which the decoders turn into its end; no hook is told. *)
Lemma late_failure_is_silent :
  let net := λ p b, Ok (mkReply (mkResponse 200 ∅) [Ok "a"; Err "reset"]) in
  let '(r, s) := reqwest_open_stream no_interceptor any_uri local net (mkRequest "GET" "/a" ∅) (Ok "") fresh in
  (raw_decode_stream <$> result_ok r) = Some ["a"] ∧ errors (trace s) = [].
Proof. by vm_compute. Qed.
Lemma websocket_url_samples :
  websocket_url "https://h:1//" "/ws" = "wss://h:1/ws" ∧ websocket_url "http://h" "ws" = "ws://h/ws" ∧
  websocket_url "http://h" "wss://o/x" = "wss://o/x" ∧ websocket_url "h" "x" = "h/x".
Proof. by vm_compute. Qed.
(** Detaching with another type than was attached loses the transport. *)
Lemma mistyped_detach_loses_the_transport :
  detach_transport 1%nat 2%nat (attach_transport 1%nat 3%nat true ∅) = (None, ∅).
Proof. by vm_compute. Qed.
