(* ===== verification/HttpCallbacks.v ===== *)
(** * HttpCallbacks: the browser's callbacks around a request

    Models the interceptor of a browser build ([WasmClientInterceptor] and the handles
    [ClientRequest], [ClientResponse] and [ClientError] of
    [crates/axum/src/client/interceptor.rs]), the setters of [client/connection.rs] and the
    text of a [ClientError] ([crates/client/src/lib.rs]), and runs it in the calls of
    [HttpClient].

    A callback is a JavaScript function: a [Script] of the operations it makes on the
    handles it can reach, which returns or throws. A handle is an index into a store of
    cells, because the function may keep it: the parts move into a cell for the length of
    the callback and out of it again, and a handle that was kept is still there.
    Which names, values, methods and URIs are valid is the [http] crate's. *)
From S2P Require Import Prelude WsClient Ndjson HttpBody HttpClient.

(** ** The text of an error *)

Definition transport_text (e : TransportError) : string :=
  match e with TClosed => "transport is closed" | TIo m => "transport io error: " +:+ m end.
(** [Display] of [ClientError]; [debug] shows a status. *)
Definition client_error_text {S} (debug : S → string) (e : ClientError S) : string :=
  match e with
  | ETransport e => "transport: " +:+ transport_text e
  | EEncode s => "encoding request: " +:+ s
  | EDecode s => "decoding response: " +:+ s
  | ERemote code _ => "remote error (status " +:+ debug code +:+ ")"
  | EConnectionClosed => "connection closed before response"
  | ETimeout => "timed out waiting for response"
  end.
Definition error_kind {S} (e : ClientError S) : string :=
  match e with
  | ETransport _ => "transport" | EEncode _ => "encode" | EDecode _ => "decode" | ERemote _ _ => "remote"
  | EConnectionClosed => "connectionClosed" | ETimeout => "timeout"
  end.
Definition remote_status {S} (e : ClientError S) : option S := match e with ERemote code _ => Some code | _ => None end.
Record WasmError := mkWasmError { we_kind : string; we_message : string; we_status : option Z }.

(** ** Handles *)

(** [WasmRequestParts], [WasmResponseParts]: what the cell behind a handle holds. *)
Inductive Cell := CRequest (parts : RequestParts) | CResponse (parts : ResponseParts).
Definition empty_request_parts : RequestParts := mkRequest "GET" "/" ∅.
Definition empty_response_parts : ResponseParts := mkResponse 200 ∅.
Inductive HandleOp :=
| GetMethod | SetMethod (method : string) | GetUrl | SetUrl (url : string)
| GetStatus | SetStatus (status : Z)
| GetHeader (name : string) | SetHeader (name value : string) | RemoveHeader (name : string).
(** What JavaScript sees of an operation. *)
Inductive Answer := AText (s : string) | ANumber (n : Z) | AMaybe (s : option string) | ADone | AThrown (message : string).

Section Handles.
(** [str::parse] of the crate's types, with the result printed, and [to_str]. *)
Context (parse_method parse_uri parse_name parse_value : string → result string string) (to_str : string → option string).
Definition get_header (headers : HeaderMap) (name : string) : option string :=
  match parse_name name with
  | Ok n => values ← headers !! n; value ← List.head values; to_str value
  | Err _ => None
  end.
Definition set_header (headers : HeaderMap) (name value : string) : result HeaderMap string :=
  match parse_name name with
  | Err e => Err e
  | Ok n => match parse_value value with Err e => Err e | Ok v => Ok (header_insert n v headers) end
  end.
Definition remove_header (headers : HeaderMap) (name : string) : HeaderMap :=
  match parse_name name with Ok n => delete n headers | Err _ => headers end.
(** [StatusCode::from_u16] *)
Definition from_u16 (n : Z) : result Z string := if (100 <=? n) && (n <? 1000) then Ok n else Err "invalid status code".
(** A setter that fails throws, and writes nothing. *)
Definition assign {A B} (r : result A string) (cell : B) (set : A → B) : Answer * B :=
  match r with Ok a => (ADone, set a) | Err e => (AThrown e, cell) end.
Definition handle_op (c : Cell) (op : HandleOp) : Answer * Cell :=
  match c, op with
  | CRequest p, GetMethod => (AText (method p), c)
  | CRequest p, SetMethod m => assign (parse_method m) c (λ m, CRequest (mkRequest m (uri p) (req_headers p)))
  | CRequest p, GetUrl => (AText (uri p), c)
  | CRequest p, SetUrl u => assign (parse_uri u) c (λ u, CRequest (mkRequest (method p) u (req_headers p)))
  | CRequest p, GetHeader n => (AMaybe (get_header (req_headers p) n), c)
  | CRequest p, SetHeader n v => assign (set_header (req_headers p) n v) c (λ h, CRequest (mkRequest (method p) (uri p) h))
  | CRequest p, RemoveHeader n => (ADone, CRequest (mkRequest (method p) (uri p) (remove_header (req_headers p) n)))
  | CResponse p, GetStatus => (ANumber (status p), c)
  | CResponse p, SetStatus n => assign (from_u16 n) c (λ n, CResponse (mkResponse n (resp_headers p)))
  | CResponse p, GetHeader n => (AMaybe (get_header (resp_headers p) n), c)
  | CResponse p, SetHeader n v => assign (set_header (resp_headers p) n v) c (λ h, CResponse (mkResponse (status p) h))
  | CResponse p, RemoveHeader n => (ADone, CResponse (mkResponse (status p) (remove_header (resp_headers p) n)))
  | _, _ => (AThrown "is not a function", c)
  end.

(** ** Callbacks *)

(** [Fn] is a JavaScript function, [Mem] what the page remembers. *)
Context {Fn Mem : Type}.
Record WasmCallbacks := mkCallbacks { cb_request : option Fn; cb_response : option Fn; cb_error : option Fn }.
Definition set_on_request (callback : option Fn) (c : WasmCallbacks) : WasmCallbacks := mkCallbacks callback (cb_response c) (cb_error c).
Definition set_on_response (callback : option Fn) (c : WasmCallbacks) : WasmCallbacks := mkCallbacks (cb_request c) callback (cb_error c).
Definition set_on_error (callback : option Fn) (c : WasmCallbacks) : WasmCallbacks := mkCallbacks (cb_request c) (cb_response c) callback.
(** A callback may itself set callbacks: no lock is held while it runs. *)
Inductive Script :=
| Return (m : Mem)
| Throw (error : string) (m : Mem)
| Use (handle : nat) (op : HandleOp) (k : Answer → Script)
| SetCallbacks (f : WasmCallbacks → WasmCallbacks) (k : Script).
Inductive Argument := AHandle (handle : nat) | AError (e : WasmError).
Context (js_call : Fn → Mem → Argument → Script) (status_debug : Z → string).
(** [WasmClientInterceptor], the page, and the warnings that were logged. *)
Record Wasm := mkWasm { callbacks : WasmCallbacks; store : list Cell; memory : Mem; warnings : list (string * string) }.
Definition set_store (st : list Cell) (w : Wasm) : Wasm := mkWasm (callbacks w) st (memory w) (warnings w).
Fixpoint run_script (s : Script) (w : Wasm) : option string * Wasm :=
  match s with
  | Return m => (None, mkWasm (callbacks w) (store w) m (warnings w))
  | Throw e m => (Some e, mkWasm (callbacks w) (store w) m (warnings w))
  | Use h op k =>
      match store w !! h with
      | Some c => let '(a, c) := handle_op c op in run_script (k a) (set_store (<[h := c]> (store w)) w)
      | None => run_script (k (AThrown "is undefined")) w
      end
  | SetCallbacks f k => run_script k (mkWasm (f (callbacks w)) (store w) (memory w) (warnings w))
  end.
(** [call1], with [report_callback_error]. *)
Definition call1 (name : string) (f : Fn) (a : Argument) (w : Wasm) : Wasm :=
  match run_script (js_call f (memory w) a) w with
  | (None, w) => w
  | (Some e, w) => mkWasm (callbacks w) (store w) (memory w) (warnings w ++ [(name, e)])
  end.
(** [state] is a new cell, and what is left in it. The parts are taken out of it. *)
Definition lend (name : string) (f : Fn) (c left : Cell) (w : Wasm) : Wasm * option Cell :=
  let n := length (store w) in
  let w := call1 name f (AHandle n) (set_store (store w ++ [c]) w) in
  (set_store (<[n := left]> (store w)) w, store w !! n).
Definition wasm_on_request (w : Wasm) (parts : RequestParts) : Wasm * RequestParts :=
  match cb_request (callbacks w) with
  | None => (w, parts)
  | Some f =>
      let '(w, taken) := lend "onRequest" f (CRequest parts) (CRequest empty_request_parts) w in
      (w, match taken with Some (CRequest p) => p | _ => parts end)
  end.
Definition wasm_on_response (w : Wasm) (parts : ResponseParts) : Wasm * ResponseParts :=
  match cb_response (callbacks w) with
  | None => (w, parts)
  | Some f =>
      let '(w, taken) := lend "onResponse" f (CResponse parts) (CResponse empty_response_parts) w in
      (w, match taken with Some (CResponse p) => p | _ => parts end)
  end.
Definition wasm_error (e : HttpError) : WasmError := mkWasmError (error_kind e) (client_error_text status_debug e) (remote_status e).
Definition wasm_on_error (w : Wasm) (e : HttpError) : Wasm :=
  match cb_error (callbacks w) with None => w | Some f => call1 "onError" f (AError (wasm_error e)) w end.
Definition wasm_interceptor : ClientInterceptor Wasm := mkInterceptor wasm_on_request wasm_on_response wasm_on_error.

(** ** What a callback does to the parts *)

Definition edit (c : Cell) (op : HandleOp) : Cell := (handle_op c op).2.
(** The operations that a script makes on the handle [n], in order. *)
Fixpoint edits (n : nat) (s : Script) (st : list Cell) : list HandleOp :=
  match s with
  | Return _ | Throw _ _ => []
  | SetCallbacks _ k => edits n k st
  | Use h op k =>
      match st !! h with
      | Some c => (if bool_decide (h = n) then [op] else []) ++ edits n (k (handle_op c op).1) (<[h := (handle_op c op).2]> st)
      | None => edits n (k (AThrown "is undefined")) st
      end
  end.

(** An operation that throws changes nothing. *)
Lemma refused_changes_nothing c op e : (handle_op c op).1 = AThrown e → edit c op = c.
Proof.
  unfold edit. destruct c as [p|p], op; cbn; try done;
    match goal with |- context [assign ?r _ _] => by destruct r end.
Qed.
Lemma run_script_cell n s w c : store w !! n = Some c → store (run_script s w).2 !! n = Some (foldl edit c (edits n s (store w))).
Proof.
  revert w c. induction s as [m|e m|h op k IH|f k IH]; intros w c Hc; cbn [run_script edits]; [done|done| |exact (IH (mkWasm _ _ _ _) c Hc)].
  destruct (store w !! h) as [d|] eqn:Hd; [|by apply IH]. destruct (handle_op d op) as [a d'] eqn:Hop. cbn [fst snd].
  rewrite foldl_app. case_bool_decide as Hh.
  - subst h. simplify_eq. cbn [foldl]. rewrite (IH _ (set_store (<[n := d']> (store w)) w) d').
    + unfold edit at 3. by rewrite Hop.
    + cbn. by rewrite list_lookup_insert_eq by by eapply lookup_lt_Some.
  - rewrite (IH _ (set_store (<[h := d']> (store w)) w) c); [done|]. cbn. by rewrite list_lookup_insert_ne.
Qed.
Lemma run_script_length s w : length (store (run_script s w).2) = length (store w).
Proof.
  revert w. induction s as [m|e m|h op k IH|f k IH]; intros w; cbn [run_script]; [done|done| |by rewrite IH].
  destruct (store w !! h) as [d|]; [|by rewrite IH]. destruct (handle_op d op). rewrite IH. cbn. by rewrite length_insert.
Qed.
Lemma edit_request p ops : ∃ p', foldl edit (CRequest p) ops = CRequest p'.
Proof.
  revert p. induction ops as [|op ops IH]; intros p; [by exists p|]. cbn. unfold edit at 2.
  destruct op; cbn; try apply IH; match goal with |- context [assign ?r _ _] => destruct r; apply IH end.
Qed.
Lemma edit_response p ops : ∃ p', foldl edit (CResponse p) ops = CResponse p'.
Proof.
  revert p. induction ops as [|op ops IH]; intros p; [by exists p|]. cbn. unfold edit at 2.
  destruct op; cbn; try apply IH; match goal with |- context [assign ?r _ _] => destruct r; apply IH end.
Qed.
Lemma call1_run name f a w :
  store (call1 name f a w) = store (run_script (js_call f (memory w) a) w).2 ∧
  callbacks (call1 name f a w) = callbacks (run_script (js_call f (memory w) a) w).2 ∧
  warnings (call1 name f a w) = warnings (run_script (js_call f (memory w) a) w).2 ++ match (run_script (js_call f (memory w) a) w).1 with Some e => [(name, e)] | None => [] end.
Proof. unfold call1. destruct (run_script _ w) as [[e|] w']; repeat split. cbn. by rewrite app_nil_r. Qed.
Lemma run_script_warnings s w : warnings (run_script s w).2 = warnings w.
Proof.
  revert w. induction s as [m|e m|h op k IH|f k IH]; intros w; cbn [run_script]; [done|done| |by rewrite IH].
  destruct (store w !! h) as [d|]; [|by rewrite IH]. destruct (handle_op d op). by rewrite IH.
Qed.
(** The script of a callback, and the world it starts in. *)
Definition started (f : Fn) (c : Cell) (w : Wasm) : Script := js_call f (memory w) (AHandle (length (store w))).
Definition lent (c : Cell) (w : Wasm) : Wasm := set_store (store w ++ [c]) w.
Lemma lend_spec name f c left w :
  (lend name f c left w).2 = Some (foldl edit c (edits (length (store w)) (started f c w) (store w ++ [c]))) ∧
  store (lend name f c left w).1 !! length (store w) = Some left ∧
  warnings (lend name f c left w).1 = warnings w ++ match (run_script (started f c w) (lent c w)).1 with Some e => [(name, e)] | None => [] end.
Proof.
  destruct (call1_run name f (AHandle (length (store w))) (lent c w)) as (Hst & _ & Hw).
  change (js_call f (memory (lent c w)) (AHandle (length (store w)))) with (started f c w) in *.
  unfold lend. fold (lent c w). set (w1 := call1 name f (AHandle (length (store w))) (lent c w)) in *. cbn zeta. cbn [fst snd].
  repeat split.
  - rewrite Hst. apply (run_script_cell _ _ (lent c w) c). cbn. by rewrite list_lookup_middle.
  - cbn [store set_store]. rewrite list_lookup_insert_eq; [done|]. rewrite Hst, run_script_length. cbn. rewrite length_app. cbn. lia.
  - cbn [warnings set_store]. by rewrite Hw, run_script_warnings.
Qed.
(** a request is sent as the callback's operations on its handle left it. Of those
    operations, made in order, the accepted ones change the method, the URL or a header
    and the refused ones nothing; whether the callback then returns or throws, and
    whatever it does to handles it kept from earlier requests, is all the same to the
    request. A throw is logged, and the handle it keeps of this request is of an empty
    one. *)
Theorem callback_edits_the_request w f parts :
  cb_request (callbacks w) = Some f →
  let n := length (store w) in
  let s := started f (CRequest parts) w in
  let '(w', sent) := wasm_on_request w parts in
  CRequest sent = foldl edit (CRequest parts) (edits n s (store w ++ [CRequest parts])) ∧
  (∀ c op e, (handle_op c op).1 = AThrown e → edit c op = c) ∧
  store w' !! n = Some (CRequest empty_request_parts) ∧
  warnings w' = warnings w ++ match (run_script s (lent (CRequest parts) w)).1 with Some e => [("onRequest", e)] | None => [] end.
Proof.
  intros Hf. cbn zeta. unfold wasm_on_request. rewrite Hf.
  destruct (lend_spec "onRequest" f (CRequest parts) (CRequest empty_request_parts) w) as (Ht & Hl & Hw).
  destruct (lend _ _ _ _ w) as [w' taken]. cbn [fst snd] in *. subst taken.
  destruct (edit_request parts (edits (length (store w)) (started f (CRequest parts) w) (store w ++ [CRequest parts]))) as [p ->].
  repeat split; [apply refused_changes_nothing|done|done].
Qed.

(** ** Only valid parts *)

Definition parsed {A B} (parse : A → result B string) (x : B) : Prop := ∃ s, parse s = Ok x.
Definition valid_headers (h : HeaderMap) : Prop := map_Forall (λ n vs, parsed parse_name n ∧ Forall (parsed parse_value) vs) h.
Definition valid_request (p : RequestParts) : Prop := parsed parse_method (method p) ∧ parsed parse_uri (uri p) ∧ valid_headers (req_headers p).
Definition valid_response (p : ResponseParts) : Prop := 100 ≤ status p < 1000 ∧ valid_headers (resp_headers p).
Definition valid_cell (c : Cell) : Prop := match c with CRequest p => valid_request p | CResponse p => valid_response p end.
Definition valid_store (w : Wasm) : Prop := Forall valid_cell (store w).

Lemma set_header_valid h n v h' : valid_headers h → set_header h n v = Ok h' → valid_headers h'.
Proof.
  unfold set_header. destruct (parse_name n) as [n'|] eqn:Hn; [|done]. destruct (parse_value v) as [v'|] eqn:Hv; [|done].
  intros Hh [= <-]. apply map_Forall_insert_2; [|done]. split; [by exists n|]. repeat constructor. by exists v.
Qed.
Lemma remove_header_valid h n : valid_headers h → valid_headers (remove_header h n).
Proof. unfold remove_header. destruct (parse_name n); [|done]. by apply map_Forall_delete. Qed.
Lemma edit_valid c op : valid_cell c → valid_cell (edit c op).
Proof.
  unfold edit. destruct c as [p|p], op; cbn; intros Hp; try done;
    try match goal with |- context [assign ?r _ _] => destruct r eqn:Hr; [|done] end; cbn.
  - destruct Hp as (_ & Hu & Hh). split; [by exists method|by split].
  - destruct Hp as (Hm & _ & Hh). split; [done|]. split; [by exists url|done].
  - destruct Hp as (Hm & Hu & Hh). split; [done|]. split; [done|]. by eapply set_header_valid.
  - destruct Hp as (Hm & Hu & Hh). split; [done|]. split; [done|]. by apply remove_header_valid.
  - destruct Hp as (_ & Hh). unfold from_u16 in Hr. destruct ((100 <=? status) && (status <? 1000)) eqn:Hn; [|done]. injection Hr as <-.
    apply andb_true_iff in Hn as [?%Z.leb_le ?%Z.ltb_lt]. by split.
  - destruct Hp as (Hs & Hh). split; [done|]. by eapply set_header_valid.
  - destruct Hp as (Hs & Hh). split; [done|]. by apply remove_header_valid.
Qed.
Lemma run_script_valid s w : valid_store w → valid_store (run_script s w).2.
Proof.
  revert w. induction s as [m|e m|h op k IH|f k IH]; intros w Hw; cbn [run_script]; [done|done| |by apply (IH (mkWasm _ _ _ _))].
  destruct (store w !! h) as [d|] eqn:Hd; [|by apply IH]. destruct (handle_op d op) as [a d'] eqn:Hop. apply IH.
  apply Forall_insert; [done|]. replace d' with (edit d op) by by (unfold edit; rewrite Hop).
  apply edit_valid. by eapply Forall_lookup_1.
Qed.
Lemma call1_valid name f a w : valid_store w → valid_store (call1 name f a w).
Proof. intros Hw. unfold valid_store. rewrite (proj1 (call1_run name f a w)). by apply run_script_valid. Qed.
Lemma lend_valid name f c left w :
  valid_cell c → valid_cell left → valid_store w → valid_store (lend name f c left w).1 ∧ ∀ d, (lend name f c left w).2 = Some d → valid_cell d.
Proof.
  intros Hc Hleft Hw. assert (Hv : valid_store (call1 name f (AHandle (length (store w))) (lent c w))).
  { apply call1_valid. apply Forall_app. split; [done|by repeat constructor]. }
  split; [|intros d Hd; exact (Forall_lookup_1 _ _ _ _ Hv Hd)]. unfold valid_store, lend in *. cbn. by apply (Forall_insert _ _ _ _ Hv).
Qed.

(** The crate's own names for an empty request are valid. *)
Context (GET_valid : parsed parse_method "GET") (root_valid : parsed parse_uri "/").
Lemma empty_request_valid : valid_request empty_request_parts.
Proof. split; [exact GET_valid|]. split; [exact root_valid|]. apply map_Forall_empty. Qed.
Lemma empty_response_valid : valid_response empty_response_parts.
Proof. split; [cbn; lia|]. apply map_Forall_empty. Qed.
Lemma on_request_valid w p : valid_store w → valid_request p → valid_store (wasm_on_request w p).1 ∧ valid_request (wasm_on_request w p).2.
Proof.
  intros Hw Hp. unfold wasm_on_request. destruct (cb_request (callbacks w)) as [f|]; [|done].
  destruct (lend_valid "onRequest" f (CRequest p) (CRequest empty_request_parts) w Hp empty_request_valid Hw) as [Hs Ht].
  destruct (lend _ _ _ _ w) as [w' [[p'|p']|]]; split; try done. by apply (Ht (CRequest p')).
Qed.
Lemma on_response_valid w p : valid_store w → valid_response p → valid_store (wasm_on_response w p).1 ∧ valid_response (wasm_on_response w p).2.
Proof.
  intros Hw Hp. unfold wasm_on_response. destruct (cb_response (callbacks w)) as [f|]; [|done].
  destruct (lend_valid "onResponse" f (CResponse p) (CResponse empty_response_parts) w Hp empty_response_valid Hw) as [Hs Ht].
  destruct (lend _ _ _ _ w) as [w' [[p'|p']|]]; split; try done. by apply (Ht (CResponse p')).
Qed.
Lemma on_error_valid w e : valid_store w → valid_store (wasm_on_error w e).
Proof. unfold wasm_on_error. destruct (cb_error (callbacks w)); [apply call1_valid|done]. Qed.

(** ** Calls *)

Abbreviation wasm_call := (call Wasm).
Definition valid_event (ev : Event) : Prop :=
  match ev with EvRequest p | EvSent p _ => valid_request p | EvResponse p => valid_response p | EvError _ => True end.
Definition valid_exchange (s : Exchange Wasm) : Prop := valid_store (hooks s) ∧ Forall valid_event (trace s).
(** A computation that keeps an exchange valid, and its result when [P] says so. *)
Definition Keeps {A} (m : wasm_call A) (P : A → Prop) : Prop :=
  ∀ s, valid_exchange s → valid_exchange (m s).2 ∧ ∀ a, (m s).1 = Ok a → P a.
Lemma keeps_ret {A} (a : A) (P : A → Prop) : P a → Keeps (mret a) P.
Proof. intros Ha s Hs. split; [done|]. by intros ? [= <-]. Qed.
Lemma keeps_bind {A B} (m : wasm_call A) (f : A → wasm_call B) (P : A → Prop) (Q : B → Prop) :
  Keeps m P → (∀ a, P a → Keeps (f a) Q) → Keeps (m ≫= f) Q.
Proof.
  intros Hm Hf s Hs. destruct (Hm s Hs) as [Hs' Hp]. unfold mbind, rst_bind. destruct (m s) as [[a|e] s']; [|by split].
  exact (Hf a (Hp a eq_refl) s' Hs').
Qed.
Lemma keeps_fail {A} e (P : A → Prop) : Keeps (fail wasm_interceptor e) P.
Proof.
  intros s [Hst Htr]. split; [|done]. split; [by apply on_error_valid|]. apply Forall_app. split; [done|by apply Forall_singleton].
Qed.
Lemma keeps_or_fail {A F} (f : F → HttpError) (r : result A F) (P : A → Prop) : (∀ a, r = Ok a → P a) → Keeps (or_fail wasm_interceptor f r) P.
Proof. intros Hr. destruct r; [apply keeps_ret; by apply Hr|apply keeps_fail]. Qed.
Lemma keeps_on_request p : valid_request p → Keeps (run_on_request wasm_interceptor p) valid_request.
Proof.
  intros Hp s [Hst Htr]. unfold run_on_request. destruct (on_request_valid (hooks s) p Hst Hp) as [Hs' Hp'].
  cbn [on_request wasm_interceptor]. destruct (wasm_on_request (hooks s) p) as [w' p']. cbn [fst snd] in *. split; [|by intros ? [= <-]].
  split; [done|]. apply Forall_app. split; [done|by apply Forall_singleton].
Qed.
Lemma keeps_on_response p : valid_response p → Keeps (response_parts wasm_interceptor p) (λ _, True).
Proof.
  intros Hp s [Hst Htr]. unfold response_parts. destruct (on_response_valid (hooks s) p Hst Hp) as [Hs' Hp'].
  cbn [on_response wasm_interceptor]. destruct (wasm_on_response (hooks s) p) as [w' p']. cbn [fst snd] in *. split; [|done].
  split; [done|]. apply Forall_app. split; [done|by apply Forall_singleton].
Qed.
Section Calls.
Context (c : ReqwestClient) (net : RequestParts → SentBody → result (Reply string) string).
(** The library answers with a status and headers of its types. *)
Context (net_valid : ∀ p b reply, net p b = Ok reply → valid_response (head reply)).
Lemma keeps_send p b : valid_request p → Keeps (send wasm_interceptor net p b) (λ reply, valid_response (head reply)).
Proof.
  intros Hp s [Hst Htr]. unfold send. apply keeps_or_fail; [by intros reply; apply net_valid|]. split; [done|].
  apply Forall_app. split; [done|by apply Forall_singleton].
Qed.
Lemma merged_headers_valid h : header_provider c = None → valid_headers h → valid_headers (merged_headers c h).
Proof.
  intros Hc Hh n vs. rewrite merged_headers_lookup, Hc. destruct (h !! n) as [ws|] eqn:Hn; cbn; [|by rewrite lookup_empty].
  destruct (Hh _ _ Hn) as [Hname Hws]. destruct (last ws) as [v|] eqn:Hv; [|by rewrite lookup_empty].
  intros [= <-]. split; [done|]. apply Forall_singleton. apply last_Some_elem_of in Hv. by eapply Forall_forall.
Qed.
(** The request that a client of the page's connection is asked to make. *)
Context (parts : RequestParts) (no_provider : header_provider c = None).
Context (method_valid : parsed parse_method (method parts)) (headers_valid : valid_headers (req_headers parts)).
Lemma keeps_prepare : Keeps (prepare_request wasm_interceptor parse_uri c parts) valid_request.
Proof.
  eapply (keeps_bind _ _ (parsed parse_uri)); [apply keeps_or_fail; intros u Hu; by eexists|].
  intros u Hu. apply keeps_on_request. split; [done|]. split; [done|]. by apply merged_headers_valid.
Qed.
Lemma keeps_read {R} (decode : string → result R string) p b : Keeps (read_response wasm_interceptor decode p b) (λ _, True).
Proof.
  eapply (keeps_bind _ _ (λ _, True)); [by apply keeps_or_fail|]. intros bytes _. destruct (is_success _); [|apply keeps_fail].
  eapply (keeps_bind _ _ (λ _, True)); [by apply keeps_or_fail|]. intros a _. by apply keeps_ret.
Qed.
Lemma keeps_exchange {A} (sent : SentBody) (f : Reply string → ResponseParts → wasm_call A) :
  (∀ reply p, Keeps (f reply p) (λ _, True)) →
  Keeps (p ← prepare_request wasm_interceptor parse_uri c parts; reply ← send wasm_interceptor net p sent;
         rp ← response_parts wasm_interceptor (head reply); f reply rp) (λ _, True).
Proof.
  intros Hf. eapply keeps_bind; [apply keeps_prepare|]. intros p Hp. eapply keeps_bind; [by apply keeps_send|].
  intros reply Hr. eapply keeps_bind; [by apply keeps_on_response|]. intros rp _. apply Hf.
Qed.
(** whatever a page's callbacks do, only valid requests are sent. In a call of any
    shape every request that is handed to [fetch] has a method, a URL, header names and
    header values that the crate accepted, and every response that is classified a status
    and headers it accepted: a callback that throws, sets nonsense or uses the handles of
    other requests changes nothing of this. *)
Theorem callbacks_send_only_valid_requests {R} (decode : string → result R string) (body : result string CodecError) (chunks : list (result string CodecError)) s :
  valid_exchange s →
  valid_exchange (reqwest_unary wasm_interceptor parse_uri c net decode parts body s).2 ∧
  valid_exchange (reqwest_open_stream wasm_interceptor parse_uri c net parts body s).2 ∧
  valid_exchange (reqwest_send_stream wasm_interceptor parse_uri c net decode parts chunks s).2.
Proof.
  intros Hs. assert (Hk : ∀ A (m : wasm_call A), Keeps m (λ _, True) → valid_exchange (m s).2) by (intros A m Hm; by apply Hm).
  split; [|split]; apply Hk.
  - eapply (keeps_bind _ _ (λ _, True)); [by apply keeps_or_fail|]. intros bytes _. apply (keeps_exchange _ (λ reply p, read_response _ _ p _)). intros. apply keeps_read.
  - eapply (keeps_bind _ _ (λ _, True)); [by apply keeps_or_fail|]. intros bytes _.
    apply (keeps_exchange _ (λ reply p, if is_success (status p) then _ else _)). intros reply p. destruct (is_success _); [by apply keeps_ret|].
    eapply (keeps_bind _ _ (λ _, True)); [by apply keeps_or_fail|]. intros. apply keeps_fail.
  - apply (keeps_exchange _ (λ reply p, read_response _ _ p _)). intros. apply keeps_read.
Qed.
End Calls.

(** ** Errors *)

(** Without request and response callbacks, what a computation leaves of the page is
    what the report of its error does, if it fails. *)
Definition quiet (w : Wasm) : Prop := cb_request (callbacks w) = None ∧ cb_response (callbacks w) = None.
Class Quiet {A} (m : wasm_call A) : Prop :=
  quietly s : quiet (hooks s) → hooks (m s).2 = match (m s).1 with Ok _ => hooks s | Err e => wasm_on_error (hooks s) e end.
#[local] Instance mret_quiet {A} (a : A) : Quiet (mret a).
Proof. by intros s _. Qed.
#[local] Instance bind_quiet {A B} (m : wasm_call A) (f : A → wasm_call B) : Quiet m → (∀ a, Quiet (f a)) → Quiet (m ≫= f).
Proof.
  intros Hm Hf s Hs. specialize (Hm s Hs). unfold mbind, rst_bind. destruct (m s) as [[a|e] s']; [|done]. cbn in Hm.
  rewrite (Hf a s') by by rewrite Hm. by rewrite Hm.
Qed.
#[local] Instance or_fail_quiet {A F} (f : F → HttpError) (r : result A F) : Quiet (or_fail wasm_interceptor f r).
Proof. by destruct r; intros s _. Qed.
#[local] Instance fail_quiet {A} e : Quiet (fail (A := A) wasm_interceptor e).
Proof. by intros s _. Qed.
#[local] Instance on_request_quiet p : Quiet (run_on_request wasm_interceptor p).
Proof. intros s [Hq _]. unfold run_on_request. cbn [on_request wasm_interceptor]. unfold wasm_on_request. by rewrite Hq. Qed.
#[local] Instance on_response_quiet p : Quiet (response_parts wasm_interceptor p).
Proof. intros s [_ Hq]. unfold response_parts. cbn [on_response wasm_interceptor]. unfold wasm_on_response. by rewrite Hq. Qed.
#[local] Instance send_quiet (net : RequestParts → SentBody → result (Reply string) string) p b : Quiet (send wasm_interceptor net p b).
Proof. intros s Hs. unfold send. by rewrite (or_fail_quiet net_err (net p b) (record_event (EvSent p b) (hooks s) s) Hs). Qed.
#[local] Instance if_quiet {A} (b : bool) (m1 m2 : wasm_call A) : Quiet m1 → Quiet m2 → Quiet (if b then m1 else m2).
Proof. by destruct b. Qed.
(** the error callback hears of a failed call, once. With no other callback
    installed a call that succeeds leaves the page as it was, and one that fails has
    run the error callback once, on the kind of the error, its text, and the status if
    the server sent one; what the callback throws is logged and the error is still the
    caller's. *)
Theorem error_callback_hears_of_a_failure {R} (c : ReqwestClient) (net : RequestParts → SentBody → result (Reply string) string)
    (decode : string → result R string) parts body chunks s f :
  quiet (hooks s) → cb_error (callbacks (hooks s)) = Some f →
  let told (e : HttpError) := call1 "onError" f (AError (mkWasmError (error_kind e) (client_error_text status_debug e) (remote_status e))) (hooks s) in
  let ended {A} (m : wasm_call A) := hooks (m s).2 = match (m s).1 with Ok _ => hooks s | Err e => told e end in
  ended (reqwest_unary wasm_interceptor parse_uri c net decode parts body) ∧
  ended (reqwest_open_stream wasm_interceptor parse_uri c net parts body) ∧
  ended (reqwest_send_stream wasm_interceptor parse_uri c net decode parts chunks).
Proof.
  intros Hs Hf. cbn zeta.
  assert (Hq : ∀ A (m : wasm_call A), Quiet m → hooks (m s).2 = match (m s).1 with Ok _ => hooks s | Err e => call1 "onError" f (AError (wasm_error e)) (hooks s) end).
  { intros A m Hm. rewrite (Hm s Hs). destruct (m s).1; [done|]. unfold wasm_on_error. by rewrite Hf. }
  repeat split; apply Hq; unfold reqwest_unary, reqwest_open_stream, reqwest_send_stream, prepare_request, read_response; apply _.
Qed.
End Handles.

(** ** A page *)

Definition accept (ok : string → bool) (s : string) : result string string := if ok s then Ok s else Err "invalid".
Definition page_method : string → result string string := accept (λ s, bool_decide (s ∈ ["GET"; "POST"])).
Definition page_uri : string → result string string := accept (λ s, bool_decide (s ≠ "")).
Definition page_name : string → result string string := accept (λ s, bool_decide (s ≠ "")).
Definition page_value : string → result string string := accept (λ s, bool_decide (s ≠ "bad")).
Inductive PageFn := Authorize | Meddle | Report.
(** [Authorize] sets a header, is refused a method, and throws. [Meddle] keeps its handle
    and clears a header through the handles it kept. [Report] notes the errors. *)
Definition page_call (f : PageFn) (m : list (nat + WasmError)) (a : Argument) : @Script PageFn (list (nat + WasmError)) :=
  match f, a with
  | Authorize, AHandle h => Use h (SetHeader "authorization" "Bearer t") (λ _, Use h (SetMethod "NONE") (λ r, match r with AThrown e => Throw e m | _ => Return m end))
  | Meddle, AHandle h => Use 0 (RemoveHeader "accept") (λ _, Use h (SetUrl "/b") (λ _, Return (m ++ [inl h])))
  | Report, AError e => Return (m ++ [inr e])
  | _, _ => Return m
  end.
Definition page (c : @WasmCallbacks PageFn) : @Wasm PageFn (list (nat + WasmError)) := mkWasm c [] [] [].
Definition page_request : RequestParts := mkRequest "GET" "/a" {["accept" := ["json"]]}.
Definition page_on_request := wasm_on_request page_method page_uri page_name page_value Some page_call.
Definition page_interceptor := wasm_interceptor page_method page_uri page_name page_value Some page_call pretty.
Example authorize_edits :
  let '(w, p) := page_on_request (page (set_on_request (Some Authorize) (mkCallbacks None None None))) page_request in
  p = mkRequest "GET" "/a" {["accept" := ["json"]; "authorization" := ["Bearer t"]]} ∧ warnings w = [("onRequest", "invalid")].
Proof. vm_compute. done. Qed.
(** The handle of the first request does not reach the second. *)
Example meddle_is_harmless :
  let '(w, p) := page_on_request (page (mkCallbacks (Some Meddle) None None)) page_request in
  let '(w, q) := page_on_request w page_request in
  p = mkRequest "GET" "/b" ∅ ∧ q = mkRequest "GET" "/b" {["accept" := ["json"]]} ∧ store w = [CRequest empty_request_parts; CRequest empty_request_parts].
Proof. vm_compute. done. Qed.
Lemma callback_edits_the_request_witness :
  let w := page (mkCallbacks (Some Authorize) None None) in
  CRequest (page_on_request w page_request).2 =
    foldl (edit page_method page_uri page_name page_value Some) (CRequest page_request) [SetHeader "authorization" "Bearer t"; SetMethod "NONE"].
Proof.
  pose proof (callback_edits_the_request page_method page_uri page_name page_value Some page_call (page (mkCallbacks (Some Authorize) None None)) Authorize page_request eq_refl) as Hc.
  cbn zeta in *. unfold page_on_request. destruct (wasm_on_request _ _ _ _ _ _ _ _) as [w p]. exact (proj1 Hc).
Defined.
Definition page_net (p : RequestParts) (b : SentBody) : result (Reply string) string := Ok (mkReply (mkResponse 404 ∅) [Ok "no"]).
Definition page_client : ReqwestClient := mkReqwest "http://h" None.
Definition page_exchange : Exchange Wasm := mkExchange (page (mkCallbacks (Some Authorize) None None)) [].
Lemma page_headers_valid : valid_headers page_name page_value (req_headers page_request).
Proof.
  apply map_Forall_insert_2; [|apply map_Forall_empty]. split; [by exists "accept"|]. constructor; [by exists "json"|constructor].
Qed.
Lemma callbacks_send_only_valid_requests_witness :
  valid_exchange page_method page_uri page_name page_value
    (reqwest_unary page_interceptor page_uri page_client page_net (λ b, Ok b) page_request (Ok "") page_exchange).2.
Proof.
  refine (proj1 (callbacks_send_only_valid_requests page_method page_uri page_name page_value Some page_call pretty
    _ _ page_client page_net _ page_request eq_refl _ page_headers_valid (λ b, Ok b) (Ok "") [] page_exchange _)).
  - by exists "GET".
  - by exists "/".
  - intros p b reply [= <-]. split; [cbn; lia|apply map_Forall_empty].
  - by exists "GET".
  - split; constructor.
Defined.
Lemma error_callback_hears_of_a_failure_witness :
  memory (hooks (reqwest_unary page_interceptor page_uri page_client page_net (λ b, Ok b) page_request (Ok "") (mkExchange (page (mkCallbacks None None (Some Report))) [])).2) =
  [inr (mkWasmError "remote" "remote error (status 404)" (Some 404))].
Proof.
  destruct (error_callback_hears_of_a_failure page_method page_uri page_name page_value Some page_call pretty page_client page_net (λ b, Ok b) page_request (Ok "") []
    (mkExchange (page (mkCallbacks None None (Some Report))) []) Report (conj eq_refl eq_refl) eq_refl) as (Hu & _).
  unfold page_interceptor. rewrite Hu. vm_compute. reflexivity.
Defined.
