(* ===== verification/AxumConfig.v ===== *)
(** * AxumConfig: the configuration the axum plugin owns

    Models [crates/axum/src/config.rs]: the two configuration types, their defaults
    in code, and the templates of their [ConfigProperties]. Their [Deserialize] is
    the derived one: a struct visitor over the entries of a table. It runs on the
    deserializer of [ConfigDe], so that a read of the configuration is a run of the
    modelled manager, defaults and placeholder resolution included. The parser of IP
    addresses is an argument. *)
From S2P Require Import Prelude F64 ConfigValue ConfigResolve ConfigDefaults ConfigSource ConfigDe CoreTypes ConfigManager.

(** ** Derived deserialization *)

Inductive OpenApiUi := UiNone | Swagger | Redoc | Rapidoc | Scalar.
#[export] Instance OpenApiUi_eq_dec : EqDecision OpenApiUi.
Proof. solve_decision. Defined.
(** [rename_all = "lowercase"] *)
Definition OpenApiUi_from_name (s : string) : option OpenApiUi :=
  if bool_decide (s = "none") then Some UiNone else if bool_decide (s = "swagger") then Some Swagger
  else if bool_decide (s = "redoc") then Some Redoc else if bool_decide (s = "rapidoc") then Some Rapidoc
  else if bool_decide (s = "scalar") then Some Scalar else None.

(** The types of the fields, and their values. *)
Inductive FieldTy := TInt (t : IntTy) | TIp | TText | TBool | TUi.
Inductive FieldValue (Ip : Type) := VInt (n : Z) | VIp (ip : Ip) | VText (s : string) | VBool (b : bool) | VUi (u : OpenApiUi).
Arguments VInt {Ip}. Arguments VIp {Ip}. Arguments VText {Ip}. Arguments VBool {Ip}. Arguments VUi {Ip}.

Section Derived.
Context {Ip : Type} (parse_ip : string → option Ip).
Abbreviation Value := (FieldValue Ip).

Definition invalid {A} (what : string) : RM A := throw (Bare (Message ("invalid " +:+ what))).
(** A visitor that accepts booleans, integers, strings and variants as given. *)
Definition accept (on_bool : bool → RM Value) (on_int : Z → RM Value) (on_string : string → RM Value) (on_enum : EnumWalk → RM Value) :
    Visitor Value :=
  mkVisitor (invalid "type") on_bool (λ _ n, on_int n) (λ _, invalid "type") (λ _, invalid "type") on_string on_string
    (invalid "type") (λ _, invalid "type") (λ _, invalid "type") (λ _, invalid "type") (λ _, invalid "type") on_enum.
Definition of_option (what : string) (o : option Value) : RM Value := match o with Some v => mret v | None => invalid what end.
Definition read_field (root : ConfigValue) (chain : ResolverChain) (ty : FieldTy) (d : ValueDeserializer) : RM Value :=
  match ty with
  | TInt t => deserialize_int root chain t d
      (accept (λ _, invalid "type") (λ n, of_option "value" (VInt <$> int_try_from t n)) (λ _, invalid "type") (λ _, invalid "type"))
  | TBool => deserialize_bool root chain d
      (accept (λ b, mret (VBool b)) (λ _, invalid "type") (λ _, invalid "type") (λ _, invalid "type"))
  | TText => deserialize_str root chain d
      (accept (λ _, invalid "type") (λ _, invalid "type") (λ s, mret (VText s)) (λ _, invalid "type"))
  | TIp => deserialize_str root chain d
      (accept (λ _, invalid "type") (λ _, invalid "type") (λ s, of_option "IP address syntax" (VIp <$> parse_ip s)) (λ _, invalid "type"))
  | TUi => deserialize_enum root chain d
      (accept (λ _, invalid "type") (λ _, invalid "type") (λ _, invalid "type")
        (λ w, r ← variant_seed w (λ s, of_option "variant" (VUi <$> OpenApiUi_from_name s)); _ ← unit_variant r.2; mret r.1))
  end.

(** The visitor of a struct: known keys are read once, other keys are ignored. *)
Fixpoint read_entries (root : ConfigValue) (chain : ResolverChain) (fields : list (string * FieldTy)) (fuel : nat) (w : MapWalk)
    (acc : gmap string Value) : RM (gmap string Value) :=
  match fuel with
  | O => mret acc
  | S fuel' =>
      k ← next_key_seed w mret;
      match k with
      | None => mret acc
      | Some key =>
          match assoc_find key fields with
          | None =>
              match next_value_seed w (λ d, mret tt) with
              | None => mret acc
              | Some (value, w') => _ ← value; read_entries root chain fields fuel' w' acc
              end
          | Some ty =>
              match acc !! key with
              | Some _ => throw (Bare (Message ("duplicate field `" +:+ key +:+ "`")))
              | None =>
                  match next_value_seed w (read_field root chain ty) with
                  | None => mret acc
                  | Some (value, w') => v ← value; read_entries root chain fields fuel' w' (<[key := v]> acc)
                  end
              end
          end
      end
  end.
Fixpoint take_fields (fields : list (string * FieldTy)) (acc : gmap string Value) : RM (list Value) :=
  match fields with
  | [] => mret []
  | (name, _) :: fields' =>
      match acc !! name with
      | None => throw (Bare (Message ("missing field `" +:+ name +:+ "`")))
      | Some v => vs ← take_fields fields' acc; mret (v :: vs)
      end
  end.
Definition read_struct {A} (fields : list (string * FieldTy)) (make : list Value → A) : Deserialize A := λ root chain d,
  deserialize_map d
    (mkVisitor (invalid "type") (λ _, invalid "type") (λ _ _, invalid "type") (λ _, invalid "type") (λ _, invalid "type")
      (λ _, invalid "type") (λ _, invalid "type") (invalid "type") (λ _, invalid "type") (λ _, invalid "type") (λ _, invalid "type")
      (λ w, acc ← read_entries root chain fields (S (Z.to_nat (map_size_hint w))) w ∅;
            vs ← take_fields fields acc; mret (make vs))
      (λ _, invalid "type")).

(** ** The two types *)

Record AxumConfig := mkAxumConfig {
  bind : Ip; port : Z; base_path : string; max_request_body_bytes : Z; max_stream_request_bytes : Z;
  max_stream_request_items : Z; stream_request_timeout_ms : Z; max_websocket_message_bytes : Z; max_websocket_frame_bytes : Z;
  max_websocket_connections : Z; websocket_idle_timeout_ms : Z; request_timeout_ms : Z; graceful_shutdown_timeout_ms : Z }.
Definition AxumConfig_fields : list (string * FieldTy) :=
  [("bind", TIp); ("port", TInt U16); ("base_path", TText); ("max_request_body_bytes", TInt U64);
   ("max_stream_request_bytes", TInt U64); ("max_stream_request_items", TInt U64); ("stream_request_timeout_ms", TInt U64);
   ("max_websocket_message_bytes", TInt U64); ("max_websocket_frame_bytes", TInt U64); ("max_websocket_connections", TInt U64);
   ("websocket_idle_timeout_ms", TInt U64); ("request_timeout_ms", TInt U64); ("graceful_shutdown_timeout_ms", TInt U64)].
Definition AxumConfig_of (vs : list Value) : option AxumConfig :=
  match vs with
  | [VIp a; VInt b; VText c; VInt d; VInt e; VInt f; VInt g; VInt h; VInt i; VInt j; VInt k; VInt l; VInt m] =>
      Some (mkAxumConfig a b c d e f g h i j k l m)
  | _ => None
  end.
Definition AXUM_CONFIG_PATH : string := "axum".
Definition AxumConfig_DEFAULTS : list (string * string) :=
  [("bind", "${AXUM_BIND:127.0.0.1}"); ("port", "${AXUM_PORT:3000}"); ("base_path", "${AXUM_BASE_PATH:}");
   ("max_request_body_bytes", "${AXUM_MAX_REQUEST_BODY_BYTES:2097152}");
   ("max_stream_request_bytes", "${AXUM_MAX_STREAM_REQUEST_BYTES:16777216}");
   ("max_stream_request_items", "${AXUM_MAX_STREAM_REQUEST_ITEMS:100000}");
   ("stream_request_timeout_ms", "${AXUM_STREAM_REQUEST_TIMEOUT_MS:30000}");
   ("max_websocket_message_bytes", "${AXUM_MAX_WEBSOCKET_MESSAGE_BYTES:262144}");
   ("max_websocket_frame_bytes", "${AXUM_MAX_WEBSOCKET_FRAME_BYTES:65536}");
   ("max_websocket_connections", "${AXUM_MAX_WEBSOCKET_CONNECTIONS:1024}");
   ("websocket_idle_timeout_ms", "${AXUM_WEBSOCKET_IDLE_TIMEOUT_MS:60000}");
   ("request_timeout_ms", "${AXUM_REQUEST_TIMEOUT_MS:30000}");
   ("graceful_shutdown_timeout_ms", "${AXUM_GRACEFUL_SHUTDOWN_TIMEOUT_MS:30000}")].
(** [AxumConfig::default()], for the address [IpAddr::from([127, 0, 0, 1])]. *)
Definition AxumConfig_default (loopback : Ip) : AxumConfig :=
  mkAxumConfig loopback 3000 "" (2 * 1024 * 1024) (16 * 1024 * 1024) 100000 30000 (256 * 1024) (64 * 1024) 1024 60000 30000 30000.
Definition socket_addr (c : AxumConfig) : Ip * Z := (bind c, port c).

Record OpenApiConfig := mkOpenApi {
  enabled : bool; json_path : string; ui : OpenApiUi; ui_path : string; title : string; version : string }.
Definition OpenApiConfig_fields : list (string * FieldTy) :=
  [("enabled", TBool); ("json_path", TText); ("ui", TUi); ("ui_path", TText); ("title", TText); ("version", TText)].
Definition OpenApiConfig_of (vs : list Value) : option OpenApiConfig :=
  match vs with
  | [VBool a; VText b; VUi c; VText d; VText e; VText f] => Some (mkOpenApi a b c d e f)
  | _ => None
  end.
Definition AXUM_OPENAPI_CONFIG_PATH : string := "axum.openapi".
Definition OpenApiConfig_DEFAULTS : list (string * string) :=
  [("enabled", "${AXUM_OPENAPI_ENABLED:false}"); ("json_path", "${AXUM_OPENAPI_JSON_PATH:/openapi.json}");
   ("ui", "${AXUM_OPENAPI_UI:none}"); ("ui_path", "${AXUM_OPENAPI_UI_PATH:/docs}"); ("title", "${AXUM_OPENAPI_TITLE:API}");
   ("version", "${AXUM_OPENAPI_VERSION:0.0.0}")].
Definition OpenApiConfig_default : OpenApiConfig := mkOpenApi false "/openapi.json" UiNone "/docs" "API" "0.0.0".
(** [ConfigProperties], with a type id for each. *)
Definition AxumConfig_type : ConfigType AxumConfig :=
  mkConfigType (mkType "AxumConfig" "AxumConfig" 1) (DefaultFields AxumConfig_DEFAULTS) (read_struct AxumConfig_fields AxumConfig_of).
Definition OpenApiConfig_type : ConfigType OpenApiConfig :=
  mkConfigType (mkType "OpenApiConfig" "OpenApiConfig" 2) (DefaultFields OpenApiConfig_DEFAULTS)
    (read_struct OpenApiConfig_fields OpenApiConfig_of).
End Derived.


(** ** Which text a field is read from *)

(** A field, its type, its variable and the default of its template. *)
Record Setting := mkSetting { s_name : string; s_ty : FieldTy; s_var : string; s_default : string }.
Definition leaf (s : Setting) : ConfigValue :=
  CStr (mkConfigStr [SegPlaceholder (mkPlaceholder (s_var s) (Some (s_default s)))] KFullPlaceholder).
Definition setting_text (vars : gmap string string) (s : Setting) : string :=
  match vars !! s_var s with Some text => text | None => s_default s end.
Definition with_defaults (fields : list (string * FieldTy)) (vars : list (string * string)) : list Setting :=
  zip_with (λ f v, mkSetting f.1 f.2 v.1 v.2) fields vars.
Definition AxumConfig_settings : list Setting :=
  with_defaults AxumConfig_fields
    [("AXUM_BIND", "127.0.0.1"); ("AXUM_PORT", "3000"); ("AXUM_BASE_PATH", ""); ("AXUM_MAX_REQUEST_BODY_BYTES", "2097152");
     ("AXUM_MAX_STREAM_REQUEST_BYTES", "16777216"); ("AXUM_MAX_STREAM_REQUEST_ITEMS", "100000");
     ("AXUM_STREAM_REQUEST_TIMEOUT_MS", "30000"); ("AXUM_MAX_WEBSOCKET_MESSAGE_BYTES", "262144");
     ("AXUM_MAX_WEBSOCKET_FRAME_BYTES", "65536"); ("AXUM_MAX_WEBSOCKET_CONNECTIONS", "1024");
     ("AXUM_WEBSOCKET_IDLE_TIMEOUT_MS", "60000"); ("AXUM_REQUEST_TIMEOUT_MS", "30000");
     ("AXUM_GRACEFUL_SHUTDOWN_TIMEOUT_MS", "30000")].
Definition OpenApiConfig_settings : list Setting :=
  with_defaults OpenApiConfig_fields
    [("AXUM_OPENAPI_ENABLED", "false"); ("AXUM_OPENAPI_JSON_PATH", "/openapi.json"); ("AXUM_OPENAPI_UI", "none");
     ("AXUM_OPENAPI_UI_PATH", "/docs"); ("AXUM_OPENAPI_TITLE", "API"); ("AXUM_OPENAPI_VERSION", "0.0.0")].

(** What a run of the deserializer may still spend for [n] more fields. *)
Definition FIELD_BYTES : Z := 1000.
Record room (n : nat) (c : ResolveCtx) : Prop := {
  room_flight : in_flight c = [];
  room_steps : 0 ≤ resolution_steps c ∧ resolution_steps c + Z.of_nat n ≤ MAX_DESERIALIZATION_RESOLUTION_STEPS;
  room_bytes : 0 ≤ rendered_bytes c ∧ rendered_bytes c + FIELD_BYTES * Z.of_nat n ≤ MAX_DESERIALIZATION_RENDERED_BYTES }.
(** A variable that only the environment can supply. *)
Definition env_only (root : ConfigValue) (var : string) : Prop :=
  is_namespace var = false ∧ str_contains "." var = false ∧ is_screaming var = true ∧ lookup_path root var = None.

Section Reading.
Context {Ip : Type} (parse_ip : string → option Ip) (root : ConfigValue) (chain : ResolverChain) (vars : gmap string string).
Hypothesis Hchain : ∀ k, chain_resolve chain k = vars !! k.

Lemma resolve_setting s n c :
  env_only root (s_var s) → room (S n) c →
  ∃ c', resolve_placeholder root chain (mkPlaceholder (s_var s) (Some (s_default s))) c = (Ok (setting_text vars s), c') ∧
    in_flight c' = [] ∧ resolution_steps c' = resolution_steps c + 1 ∧ rendered_bytes c' = rendered_bytes c.
Proof.
  intros (Hns & Hdot & Hscr & Hroot) [Hfl [Hs0 Hs1] _]. unfold resolve_placeholder. rewrite Nat2Z.inj_succ in Hs1.
  unfold resolve_fuel at 1. fold resolve_fuel. unfold resolve_placeholder_step, mbind, rst_bind, consume_step.
  assert (usize_saturating_add (resolution_steps c) 1 = resolution_steps c + 1) as ->.
  { unfold usize_saturating_add, usize_max, MAX_DESERIALIZATION_RESOLUTION_STEPS in *. lia. }
  rewrite (proj2 (Z.ltb_ge _ _)) by lia. unfold get_ctx. cbn [in_flight]. rewrite Hfl.
  change (MAX_RESOLUTION_DEPTH <=? Z.of_nat (length [])) with false. cbn iota. rewrite bool_decide_false by apply not_elem_of_nil.
  unfold resolve_by_shape. cbn [key]. rewrite Hns, Hdot, Hscr. unfold resolve_env_then_path. rewrite Hchain. unfold setting_text.
  destruct (vars !! s_var s) as [text|].
  - eexists. split; [reflexivity|]. by cbn.
  - unfold resolve_config_path. rewrite Hroot. eexists. split; [reflexivity|]. by cbn.
Qed.

Definition parse_field (ty : FieldTy) (s : string) : option (FieldValue Ip) :=
  match ty with
  | TInt t => n ← parse_i128 s; VInt <$> int_try_from t n
  | TBool => VBool <$> parse_bool s
  | TText => Some (VText s)
  | TIp => VIp <$> parse_ip s
  | TUi => VUi <$> OpenApiUi_from_name s
  end.
Lemma scalar_source_setting s path n c :
  env_only root (s_var s) → room (S n) c →
  ∃ c', scalar_source root chain (mkDe (leaf s) path) (mkConfigStr [SegPlaceholder (mkPlaceholder (s_var s) (Some (s_default s)))] KFullPlaceholder) c =
      (Ok (KFullPlaceholder, setting_text vars s), c') ∧ room n c'.
Proof.
  intros He Hr. destruct (resolve_setting s n c He Hr) as (c' & Hres & Hf & Hs & Hb). unfold scalar_source. cbn [kind].
  change (as_full _) with (Some (mkPlaceholder (s_var s) (Some (s_default s)))). cbn iota. unfold mbind, rst_bind. rewrite Hres.
  exists c'. split; [done|]. destruct Hr as [_ ? ?]. split; [done|..]; unfold FIELD_BYTES in *; lia.
Qed.
Lemma render_setting s n c :
  env_only root (s_var s) → room (S n) c → str_len (setting_text vars s) ≤ FIELD_BYTES →
  ∃ c', render_str root chain (mkConfigStr [SegPlaceholder (mkPlaceholder (s_var s) (Some (s_default s)))] KFullPlaceholder) c =
      (Ok (setting_text vars s), c') ∧ room n c'.
Proof.
  intros He Hr Hlen. destruct (resolve_setting s n c He Hr) as (c' & Hres & Hf & Hs & Hb).
  unfold render_str, render_str_with. cbn [segments render_segments]. unfold mbind, rst_bind. rewrite Hres. unfold consume_bytes.
  rewrite Hb. destruct Hr as [_ Hsteps [Hb0 Hb1]]. pose proof (str_len_nonneg (setting_text vars s)).
  assert (usize_saturating_add (rendered_bytes c) (str_len (setting_text vars s)) = rendered_bytes c + str_len (setting_text vars s)) as ->.
  { unfold usize_saturating_add, usize_max, MAX_DESERIALIZATION_RENDERED_BYTES, FIELD_BYTES in *. lia. }
  unfold FIELD_BYTES in *. rewrite (proj2 (Z.ltb_ge _ _)) by lia. eexists. split; [reflexivity|]. split; cbn; [done|lia|].
  unfold FIELD_BYTES. lia.
Qed.
Lemma read_setting s path n c v :
  env_only root (s_var s) → room (S n) c → str_len (setting_text vars s) ≤ FIELD_BYTES →
  parse_field (s_ty s) (setting_text vars s) = Some v →
  ∃ c', read_field parse_ip root chain (s_ty s) (mkDe (leaf s) path) c = (Ok v, c') ∧ room n c'.
Proof.
  intros He Hr Hlen Hp. destruct (scalar_source_setting s path n c He Hr) as (cs & Hs & Hrs).
  destruct (render_setting s n c He Hr Hlen) as (cr & Hrd & Hrr).
  destruct (s_ty s) as [t| | | |]; unfold parse_field in Hp; unfold read_field.
  - destruct (parse_i128 (setting_text vars s)) as [m|] eqn:Hm; [|done]. simpl in Hp.
    destruct (int_try_from t m) as [m'|] eqn:Ht; [|done]. injection Hp as <-.
    pose proof Ht as [-> Hrange]%int_try_from_Some.
    unfold deserialize_int, int_value, coerce_scalar. cbn [de_value leaf]. unfold mbind, rst_bind. rewrite Hs. cbn iota.
    rewrite bool_decide_false by done. rewrite Hm. cbn. rewrite Ht. cbn. rewrite Ht. eauto.
  - destruct (parse_ip _) as [ip|] eqn:Hip; [|done]. injection Hp as <-. unfold deserialize_str. cbn [de_value leaf].
    unfold mbind, rst_bind. rewrite Hrd. cbn. rewrite Hip. eauto.
  - injection Hp as <-. unfold deserialize_str. cbn [de_value leaf]. unfold mbind, rst_bind. rewrite Hrd. eauto.
  - destruct (parse_bool _) as [b|] eqn:Hb; [|done]. injection Hp as <-. unfold deserialize_bool, coerce_scalar. cbn [de_value leaf].
    unfold mbind, rst_bind. rewrite Hs. cbn iota. rewrite bool_decide_false by done. rewrite Hb. eauto.
  - destruct (OpenApiUi_from_name _) as [u|] eqn:Hu; [|done]. injection Hp as <-. unfold deserialize_enum. cbn [de_value leaf].
    unfold mbind at 1, rst_bind at 1. rewrite Hrd. cbn. unfold variant_seed, mbind, rst_bind. cbn [ew_variant]. rewrite Hu. eauto.
Qed.

Section Struct.
Context (settings : list Setting) (Hnodup : NoDup (s_name <$> settings)).
Abbreviation fields := ((λ s, (s_name s, s_ty s)) <$> settings).
Abbreviation entries := ((λ s, (s_name s, leaf s)) <$> settings).
Definition readable (s : Setting) (v : FieldValue Ip) : Prop :=
  env_only root (s_var s) ∧ str_len (setting_text vars s) ≤ FIELD_BYTES ∧ parse_field (s_ty s) (setting_text vars s) = Some v.

Lemma assoc_find_field s : s ∈ settings → assoc_find (s_name s) fields = Some (s_ty s).
Proof.
  intros Hs. apply assoc_find_in; [|by apply (list_elem_of_fmap_2 (λ s, (s_name s, s_ty s)))].
  unfold assoc_keys. by rewrite <- list_fmap_compose.
Qed.
Lemma read_entries_settings path before rest vs fuel acc c :
  settings = before ++ rest → Forall2 readable rest vs → (length rest < fuel)%nat → room (length rest) c →
  (∀ s, s ∈ rest → acc !! s_name s = None) →
  ∃ acc' c', read_entries parse_ip root chain fields fuel (mkMapWalk entries (length before) path) acc c = (Ok acc', c') ∧
    Forall2 (λ s v, acc' !! s_name s = Some v) rest vs ∧ (∀ k, k ∉ s_name <$> rest → acc' !! k = acc !! k).
Proof.
  intros Hall Hrest. revert before fuel acc c Hall. induction Hrest as [|s v rest vs (He & Hlen & Hp) Hrest IH];
    intros before fuel acc c Hall Hfuel Hroom Hacc; (destruct fuel as [|fuel]; [simpl in Hfuel; lia|]); cbn [read_entries].
  - exists acc, c. unfold next_key_seed. cbn [mw_entries mw_index]. rewrite app_nil_r in Hall. subst before.
    rewrite list_lookup_fmap, lookup_ge_None_2 by done. done.
  - assert (entries !! length before = Some (s_name s, leaf s)) as Hlook.
    { rewrite list_lookup_fmap, Hall, lookup_app_r, Nat.sub_diag by done. done. }
    unfold next_key_seed, next_value_seed, mbind, rst_bind. cbn [mw_entries mw_index mw_path]. rewrite Hlook. cbn.
    rewrite assoc_find_field by (rewrite Hall; set_solver). rewrite Hacc by set_solver.
    destruct (read_setting s (key_path path (s_name s)) (length rest) c v He Hroom Hlen Hp) as (c1 & Hread & Hroom1).
    rewrite Hread. replace (S (length before)) with (length (before ++ [s])) by (rewrite length_app; simpl; lia).
    assert (s_name s ∉ s_name <$> rest) as Hfresh.
    { pose proof Hnodup as Hnd. rewrite Hall, fmap_app in Hnd. by apply NoDup_app in Hnd as (_ & _ & [? _]%NoDup_cons). }
    destruct (IH (before ++ [s]) fuel (<[s_name s := v]> acc) c1) as (acc' & c' & Heq & Hvals & Hrestk).
    { by rewrite <- app_assoc. } { simpl in Hfuel; lia. } { done. }
    { intros s' Hs'. rewrite lookup_insert_ne; [apply Hacc; set_solver|]. intros Heq. apply Hfresh. rewrite Heq. by apply list_elem_of_fmap_2. }
    exists acc', c'. split; [exact Heq|]. split.
    + constructor; [|done]. by rewrite Hrestk, lookup_insert_eq.
    + intros k [Hk Hk']%not_elem_of_cons. rewrite Hrestk by done. by rewrite lookup_insert_ne.
Qed.
Lemma take_fields_settings acc rest vs c :
  Forall2 (λ s v, acc !! s_name s = Some v) rest vs →
  take_fields ((λ s, (s_name s, s_ty s)) <$> rest) acc c = (Ok (vs : list (FieldValue Ip)), c).
Proof.
  induction 1 as [|s v rest vs Hs _ IH]; [done|]. cbn [fmap list_fmap take_fields]. rewrite Hs. unfold mbind, rst_bind.
  by rewrite IH.
Qed.
(** A table of templates is read as the environment and the defaults say. *)
Lemma read_struct_settings {A} (make : list (FieldValue Ip) → A) path vs :
  Forall2 readable settings vs → (length settings ≤ 1000)%nat →
  ∃ c', read_struct parse_ip fields make root chain (mkDe (CTable entries) path) ResolveCtx_new = (Ok (make vs), c').
Proof.
  intros Hvs Hlen. unfold read_struct, deserialize_map. cbn [de_value de_path visit_map].
  destruct (read_entries_settings path [] settings vs (S (Z.to_nat (map_size_hint (mkMapWalk entries 0 path)))) ∅ ResolveCtx_new)
    as (acc & c & Heq & Hvals & _); [done|done|..].
  { unfold map_size_hint. cbn [mw_entries mw_index]. rewrite length_fmap. lia. }
  { split; [done|..]; cbn [in_flight resolution_steps rendered_bytes ResolveCtx_new];
      unfold MAX_DESERIALIZATION_RESOLUTION_STEPS, MAX_DESERIALIZATION_RENDERED_BYTES, FIELD_BYTES; lia. }
  { intros. apply lookup_empty. }
  unfold mbind, rst_bind. cbn [length] in Heq. rewrite Heq. rewrite (take_fields_settings acc settings vs c Hvals). by eexists.
Qed.
End Struct.
End Reading.

(** ** Reading the configuration of an empty document *)

Definition table_of (settings : list Setting) : ConfigValue := CTable ((λ s, (s_name s, leaf s)) <$> settings).
Definition env_onlyb (root : ConfigValue) (var : string) : bool :=
  negb (is_namespace var) && negb (str_contains "." var) && is_screaming var && bool_decide (lookup_path root var = None).
Lemma env_onlyb_spec root var : env_onlyb root var = true → env_only root var.
Proof.
  unfold env_onlyb, env_only. rewrite !andb_true_iff, !negb_true_iff, bool_decide_eq_true. tauto.
Qed.
(** What a value of each field may be read from, and what it is then. *)
Definition configured {Ip} (parse_ip : string → option Ip) (vars : gmap string string) (settings : list Setting)
    (vs : list (FieldValue Ip)) : Prop :=
  Forall2 (λ s v, str_len (setting_text vars s) ≤ FIELD_BYTES ∧ parse_field parse_ip (s_ty s) (setting_text vars s) = Some v) settings vs.

Lemma get_config_empty {Ip A} (parse_ip : string → option Ip) vars ty templates fields make path (settings : list Setting) vs :
  let T := mkConfigType ty (DefaultFields templates) (read_struct parse_ip fields make) : ConfigType A in
  get_path (CTable []) path = None →
  fill_missing (DefaultFields templates) (CTable []) = (Ok tt, table_of settings) →
  fields = (λ s, (s_name s, s_ty s)) <$> settings → NoDup (s_name <$> settings) → (length settings ≤ 1000)%nat →
  forallb (λ s, env_onlyb (place (CTable []) path (table_of settings)) (s_var s)) settings = true →
  configured parse_ip vars settings vs →
  get_config (empty FToml) vars T path = Ok (make vs).
Proof.
  intros T Hpath Hfill Hf Hnd Hlen Henv Hvs. unfold get_config, get_config_in, get_config_in_with_snapshot, binding_subtree.
  cbn [cm_root empty wrap ct_defaults ct_deserialize is_none T]. rewrite Hpath. cbn iota. rewrite Hfill.
  unfold from_value_in_with_dependencies. subst fields.
  assert (∀ k, chain_resolve (resolvers (empty (Value := A) FToml) vars) k = vars !! k) as Hchain.
  { intros k. cbn. unfold dyn_resolve. cbn. unfold resolve_key, EnvResolver_resolve. cbn. by destruct (vars !! k). }
  destruct (read_struct_settings parse_ip (place (CTable []) path (table_of settings)) (resolvers (empty FToml) vars) vars Hchain
    settings Hnd make "" vs) as (c' & Heq); [|done|].
  - assert (Forall (λ s, env_only (place (CTable []) path (table_of settings)) (s_var s)) settings) as He.
    { apply List.Forall_forall. intros s Hs. apply env_onlyb_spec. by apply (proj1 (forallb_forall _ _) Henv). }
    clear Hfill Hnd Hlen Henv. revert He. generalize (place (CTable []) path (table_of settings)). intros root.
    induction Hvs as [|s v l vs [Hl Hp] _ IH]; [constructor|]. intros [? ?]%Forall_cons. constructor; [|by apply IH]. done.
  - unfold table_of in *. by rewrite Heq.
Qed.

(** an application that configures nothing runs on its environment and the
    documented defaults. Read through the modelled manager from an empty document,
    each field of the server's and of the OpenAPI configuration is what its variable
    says, or else its default; with none of the variables set the two are exactly
    the values of their [Default] implementations. *)
Theorem axum_config_reads_environment {Ip} (parse_ip : string → option Ip) (vars : gmap string string) (loopback : Ip) :
  parse_ip "127.0.0.1" = Some loopback →
  (∀ vs, configured parse_ip vars AxumConfig_settings vs →
     get_config (empty FToml) vars (AxumConfig_type parse_ip) AXUM_CONFIG_PATH = Ok (AxumConfig_of vs)) ∧
  (∀ vs, configured parse_ip vars OpenApiConfig_settings vs →
     get_config (empty FToml) vars (OpenApiConfig_type parse_ip) AXUM_OPENAPI_CONFIG_PATH = Ok (OpenApiConfig_of vs)) ∧
  ((∀ s, s ∈ AxumConfig_settings ++ OpenApiConfig_settings → vars !! s_var s = None) →
     get_config (empty FToml) vars (AxumConfig_type parse_ip) AXUM_CONFIG_PATH = Ok (Some (AxumConfig_default loopback)) ∧
     get_config (empty FToml) vars (OpenApiConfig_type parse_ip) AXUM_OPENAPI_CONFIG_PATH = Ok (Some OpenApiConfig_default)).
Proof.
  intros Hip.
  assert (∀ vs, configured parse_ip vars AxumConfig_settings vs →
    get_config (empty FToml) vars (AxumConfig_type parse_ip) AXUM_CONFIG_PATH = Ok (AxumConfig_of vs)) as Ha.
  { intros vs Hvs. apply (get_config_empty parse_ip vars _ _ _ _ _ AxumConfig_settings); [by vm_compute..| |simpl; lia|by vm_compute|done].
    apply (bool_decide_unpack _). by vm_compute. }
  assert (∀ vs, configured parse_ip vars OpenApiConfig_settings vs →
    get_config (empty FToml) vars (OpenApiConfig_type parse_ip) AXUM_OPENAPI_CONFIG_PATH = Ok (OpenApiConfig_of vs)) as Ho.
  { intros vs Hvs. apply (get_config_empty parse_ip vars _ _ _ _ _ OpenApiConfig_settings); [by vm_compute..| |simpl; lia|by vm_compute|done].
    apply (bool_decide_unpack _). by vm_compute. }
  split; [exact Ha|]. split; [exact Ho|]. intros Hunset.
  assert (∀ s, s ∈ AxumConfig_settings ++ OpenApiConfig_settings → setting_text vars s = s_default s) as Htext
    by (intros s Hs; unfold setting_text; by rewrite Hunset).
  assert (∀ settings vs, (∀ s, s ∈ settings → setting_text vars s = s_default s) →
    Forall2 (λ s v, str_len (s_default s) ≤ FIELD_BYTES ∧ parse_field parse_ip (s_ty s) (s_default s) = Some v) settings vs →
    configured parse_ip vars settings vs) as Hdef.
  { intros settings vs Ht H. induction H as [|s v l vs [Hl Hp] _ IH]; constructor.
    - rewrite Ht by set_solver. done.
    - apply IH. intros; apply Ht; set_solver. }
  split.
  - rewrite (Ha [VIp loopback; VInt 3000; VText ""; VInt 2097152; VInt 16777216; VInt 100000; VInt 30000; VInt 262144; VInt 65536;
      VInt 1024; VInt 60000; VInt 30000; VInt 30000]); [done|].
    apply Hdef; [intros s Hs; apply Htext, elem_of_app; by left|].
    repeat (constructor; [split; [by vm_compute|first [by vm_compute|simpl; by rewrite Hip]]|]); constructor.
  - rewrite (Ho [VBool false; VText "/openapi.json"; VUi UiNone; VText "/docs"; VText "API"; VText "0.0.0"]); [done|].
    apply Hdef; [intros s Hs; apply Htext, elem_of_app; by right|].
    repeat (constructor; [split; [by vm_compute|by vm_compute]|]); constructor.
Qed.

(** ** One variable *)

Section Sample.
Definition any_ip (s : string) : option string := Some s.
Definition port_set (text : string) : gmap string string := {["AXUM_PORT" := text]}.
End Sample.
Lemma axum_config_reads_environment_witness :
  get_config (empty FToml) (port_set "8080") (AxumConfig_type any_ip) AXUM_CONFIG_PATH =
  Ok (Some (mkAxumConfig "127.0.0.1" 8080 "" 2097152 16777216 100000 30000 262144 65536 1024 60000 30000 30000)).
Proof.
  apply (proj1 (axum_config_reads_environment any_ip (port_set "8080") "127.0.0.1" eq_refl)
    [VIp "127.0.0.1"; VInt 8080; VText ""; VInt 2097152; VInt 16777216; VInt 100000; VInt 30000; VInt 262144; VInt 65536;
      VInt 1024; VInt 60000; VInt 30000; VInt 30000]).
  repeat (constructor; [split; vm_compute; first [reflexivity|discriminate]|]). constructor.
Defined.
(** A port out of range is an error at its field, whether it comes from a variable
    or from a file. *)
Lemma port_out_of_range :
  get_config (empty FToml) (port_set "65536") (AxumConfig_type any_ip) AXUM_CONFIG_PATH =
    Err (ConfigSubstitution "axum" (At "port" (OutOfRange "u16"))) ∧
  get_config (wrap FToml (CTable [("axum", CTable [("port", CInt (-1))])]) []) ∅ (AxumConfig_type any_ip) AXUM_CONFIG_PATH =
    Err (ConfigSubstitution "axum" (At "port" (OutOfRange "u16"))).
Proof. by vm_compute. Qed.
