(* ===== verification/AxumServer.v ===== *)
(** * AxumServer: how the HTTP server is put together, and how it runs

    Models [crates/axum/src/plugin.rs], [openapi.rs], [extract.rs],
    [request_meta.rs], [middleware.rs] and [protocol.rs]. [axum]'s router is an
    interface: [Routing] has its operations and what the documentation says of
    them, in terms of the routes of a router, each with its layers, outermost
    first. [listed_routing] is an instance.

    A service is a function of the request's extensions to a run: what happened,
    when, and the status. Its layers are the ones the plugin adds; user middleware
    is any function of the next service. *)
From S2P Require Import Prelude CoreTypes WsHost AxumConfig.

(** ** Paths *)

Definition normalize_base_path (base_path : string) : string :=
  let trimmed := trim_char "/" base_path in if str_is_empty trimmed then "" else "/" +:+ trimmed.
Definition normalize_prefix (base_path : string) : option string :=
  let trimmed := trim_end_char "/" base_path in if str_is_empty trimmed then None else Some trimmed.
Definition spec_url (base_path json_path : string) : string :=
  match normalize_prefix base_path with Some prefix => prefix | None => "" end +:+ json_path.
Definition join_base (base relative : string) : string :=
  let joined := trim_end_char "/" base +:+ (if bool_decide (relative = "/") then "" else relative) in
  if str_is_empty joined then "/" else joined.

(** ** The router *)

Record Route (L Hn : Type) := mkRoute { r_path : string; r_layers : list L; r_handler : Hn }.
Arguments mkRoute {L Hn}. Arguments r_path {L Hn}. Arguments r_layers {L Hn}. Arguments r_handler {L Hn}.
Definition wrap_route {L Hn} (l : L) (r : Route L Hn) : Route L Hn := mkRoute (r_path r) (l :: r_layers r) (r_handler r).
Definition move_route {L Hn} (path : string → string) (r : Route L Hn) : Route L Hn :=
  mkRoute (path (r_path r)) (r_layers r) (r_handler r).
(** [axum::Router]: a layer wraps the routes that are there. *)
Class Routing (R L Hn : Type) := {
  router_new : R; router_merge : R → R → R; router_layer : L → R → R; router_route : string → Hn → R → R; router_nest : string → R → R;
  routes : R → list (Route L Hn);
  nested_path : string → string → string;
  routes_new : routes router_new = [];
  routes_merge a b : routes (router_merge a b) = routes a ++ routes b;
  routes_layer l r : routes (router_layer l r) = wrap_route l <$> routes r;
  routes_route p h r : routes (router_route p h r) = routes r ++ [mkRoute p [] h];
  routes_nest p r : routes (router_nest p r) = move_route (nested_path p) <$> routes r;
  nested_path_app p q : trim_end_char "/" p = p → q ≠ "/" → nested_path p q = p +:+ q;
  nested_path_root p : trim_end_char "/" p = p → p ≠ "" → nested_path p "/" = p }.

(** ** OpenAPI *)

Inductive AxumError := AppFailed (m : string) | ServeFailed (m : string) | ConfigError (m : string) | WebsocketBuild (m : string).
Section OpenApi.
(** Which UI features are compiled in. *)
Context (features : OpenApiUi → bool).
Definition ui_is_compiled (u : OpenApiUi) : bool := match u with UiNone => false | _ => features u end.
Definition overlaps (json ui : string) : bool :=
  bool_decide (json = ui) || (negb (str_is_empty ui) && String.prefix (ui +:+ "/") json).
Definition overlap_message (c : OpenApiConfig) : string :=
  "OpenAPI json_path (`" +:+ json_path c +:+ "`) overlaps ui_path (`" +:+ ui_path c +:+
  "`): serving both would register conflicting routes; configure distinct paths".
Definition validate_paths (c : OpenApiConfig) : result unit AxumError :=
  if negb (ui_is_compiled (ui c)) then Ok tt
  else if overlaps (trim_end_char "/" (json_path c)) (trim_end_char "/" (ui_path c)) then Err (ConfigError (overlap_message c))
  else Ok tt.

(** What the OpenAPI routes answer: the document, or a UI that is told where it is. *)
Inductive OpenApiRoute := ServeJson | ServeUi (u : OpenApiUi) (spec : string).
Context {R L Hn : Type} `{Routing R L Hn} (openapi_handler : OpenApiRoute → Hn).
Definition mount_ui (router : R) (c : OpenApiConfig) (spec : string) : R :=
  if ui_is_compiled (ui c) then
    let router := match ui c with
      | Swagger => router_route (json_path c) (openapi_handler ServeJson) router
      | _ => router end in
    router_route (ui_path c) (openapi_handler (ServeUi (ui c) spec)) router
  else router.
Definition swagger_owns_json (c : OpenApiConfig) : bool := features Swagger && bool_decide (ui c = Swagger).
Definition mount (router : R) (c : OpenApiConfig) (base_path : string) : result R AxumError :=
  if negb (enabled c) then Ok router
  else
    match validate_paths c with
    | Err e => Err e
    | Ok _ =>
        let router := if swagger_owns_json c then router else router_route (json_path c) (openapi_handler ServeJson) router in
        Ok (mount_ui router c (spec_url base_path (json_path c)))
    end.
End OpenApi.

(** ** The plugin *)

Section Plugin.
(** [M]: middleware, as a function of the next service; [Ip]: addresses. *)
Context {R M Hn Ip Rt : Type}.
Inductive Layer := BodyLimit (max : Z) | RequestTimeout (ms : Z) | OpenScope | Middleware (m : M).
Context `{Routing R Layer Hn}.
(** [runtime.root().get::<M>()] *)
Context (root_get : Rt → TypeId → option M).

Record ControllerDescriptor := mkController { cd_id : string; cd_router : Rt → R }.
Inductive MiddlewareApplier := RawLayer (m : M) | Injected (ty : TypeId).
(** A WebSocket controller: its protocol and its destinations. *)
Record WsController := mkWsController { ws_protocol : TypeId; ws_destinations : list string }.
(** [mount] as what [P::build] comes to and the upgrade handler. *)
Record WsRegistration := mkWsRegistration {
  wr_path : string; wr_protocol : TypeId; wr_build : list WsController → result unit string;
  wr_handler : list WsController → option Z → Hn }.
Record AxumPlugin := mkAxumPlugin {
  controllers : list ControllerDescriptor; middleware : list MiddlewareApplier;
  ws_controllers : list WsController; ws_registrations : list WsRegistration }.
Definition AxumPlugin_default : AxumPlugin := mkAxumPlugin [] [] [] [].
Definition auto_discover (CONTROLLERS : list ControllerDescriptor) (WS_CONTROLLERS : list WsController) (p : AxumPlugin) : AxumPlugin :=
  mkAxumPlugin (controllers p ++ CONTROLLERS) (middleware p) (ws_controllers p ++ WS_CONTROLLERS) (ws_registrations p).
(** The builder's methods; [None] is the panic of a second registration of a path. *)
Definition controller (d : ControllerDescriptor) (p : AxumPlugin) : AxumPlugin :=
  mkAxumPlugin (controllers p ++ [d]) (middleware p) (ws_controllers p) (ws_registrations p).
Definition add_middleware (m : MiddlewareApplier) (p : AxumPlugin) : AxumPlugin :=
  mkAxumPlugin (controllers p) (middleware p ++ [m]) (ws_controllers p) (ws_registrations p).
Definition register_ws_with (w : WsRegistration) (p : AxumPlugin) : option AxumPlugin :=
  if existsb (λ x, bool_decide (wr_path x = wr_path w)) (ws_registrations p) then None
  else Some (mkAxumPlugin (controllers p) (middleware p) (ws_controllers p) (ws_registrations p ++ [w])).

Definition mount_error (e : MountError) : AxumError :=
  match e with
  | ByteLimits => ConfigError "WebSocket message and frame byte limits must both be greater than zero"
  | DuplicateDestination d => ConfigError d
  | BuildFailed e => WebsocketBuild e
  | Admission e => ConfigError e
  end.
Definition speakers (p : TypeId) (cs : list WsController) : list WsController := List.filter (λ c, ws_protocol c =? p) cs.
(** One endpoint: its router, and the handle that shuts it down, which is its path. *)
Definition mount_registration (config : AxumConfig (Ip := Ip)) (cs : list WsController) (w : WsRegistration) : result R AxumError :=
  match mount_ws (max_websocket_message_bytes config) (max_websocket_frame_bytes config) (max_websocket_connections config)
          (ws_destinations <$> cs) (wr_build w cs) with
  | Err e => Err (mount_error e)
  | Ok (_, permits) => Ok (router_route (wr_path w) (wr_handler w cs permits) router_new)
  end.
Fixpoint mount_endpoints (config : AxumConfig) (ws : list WsController) (ws_regs : list WsRegistration) (router : R) :
    result (R * list string) AxumError :=
  match ws_regs with
  | [] => Ok (router, [])
  | w :: rest =>
      match mount_registration config (speakers (wr_protocol w) ws) w with
      | Err e => Err e
      | Ok ws_router => result_map (λ r, (r.1, wr_path w :: r.2)) (mount_endpoints config ws rest (router_merge router ws_router))
      end
  end.
(** An applier; [None] is the panic of a middleware that is not in the container. *)
Definition apply_middleware (rt : Rt) (m : MiddlewareApplier) (router : R) : option R :=
  match m with
  | RawLayer m => Some (router_layer (Middleware m) router)
  | Injected ty => m ← root_get rt ty; Some (router_layer (Middleware m) router)
  end.
Fixpoint apply_all (rt : Rt) (ms : list MiddlewareApplier) (router : R) : option R :=
  match ms with [] => Some router | m :: ms' => router ← apply_middleware rt m router; apply_all rt ms' router end.
Definition nest_base_path (router : R) (prefix : string) : R :=
  if str_is_empty prefix then router else router_nest prefix router.

Record Axum := mkAxum { ax_router : R; ax_endpoints : list string }.
Definition plugin_build (features : OpenApiUi → bool) (openapi_handler : OpenApiRoute → Hn) (rt : Rt) (config : AxumConfig)
    (openapi : OpenApiConfig) (p : AxumPlugin) : option (result Axum AxumError) :=
  let router := foldl (λ r d, router_merge r (cd_router d rt)) router_new (controllers p) in
  match mount_endpoints config (ws_controllers p) (ws_registrations p) router with
  | Err e => Some (Err e)
  | Ok (router, endpoints) =>
      router ← apply_all rt (reverse (middleware p)) router;
      let router := router_layer (BodyLimit (max_request_body_bytes config)) router in
      let router := if 0 <? request_timeout_ms config then router_layer (RequestTimeout (request_timeout_ms config)) router else router in
      let router := router_layer OpenScope router in
      let base_prefix := normalize_base_path (base_path config) in
      Some (match mount features openapi_handler router openapi base_prefix with
            | Err e => Err e
            | Ok router => Ok (mkAxum (nest_base_path router base_prefix) endpoints)
            end)
  end.
End Plugin.
Arguments Layer : clear implicits.

(** ** A request through the layers *)

Section Serve.
(** [S]: scopes; [Ev]: what user code does. *)
Context {S Ev : Type}.
Record Extensions := mkExtensions { scope_handle : option S; body_limit : option Z }.
Record Run := mkRun { events : list (Z * Ev); ends : Z; response : Z }.
Definition Service : Type := Extensions → Run.
Definition REQUEST_TIMEOUT : Z := 408.
Definition INTERNAL_SERVER_ERROR : Z := 500.
(** [tokio::time::timeout]: what the service did until it was dropped. *)
Definition with_timeout (ms : Z) (r : Run) : Run :=
  if ends r <=? ms then r else mkRun (List.filter (λ e, e.1 <=? ms) (events r)) ms REQUEST_TIMEOUT.
(** [open]: what opening the request scope, seeded with the request's data, comes to. *)
Definition apply_layer (open : result S string) (l : Layer (Service → Service)) (next : Service) : Service :=
  match l with
  | BodyLimit max => λ x, next (mkExtensions (scope_handle x) (Some max))
  | RequestTimeout ms => λ x, with_timeout ms (next x)
  | OpenScope => λ x,
      match open with
      | Ok scope => next (mkExtensions (Some scope) (body_limit x))
      | Err _ => mkRun [] 0 INTERNAL_SERVER_ERROR
      end
  | Middleware m => m next
  end.
Definition run_route (open : result S string) (r : Route (Layer (Service → Service)) Service) : Service :=
  foldr (apply_layer open) (r_handler r) (r_layers r).

(** [Inject]: extraction from the request's scope. *)
Inductive InjectRejection := MissingScope | Unresolved (name error : string).
Definition inject {A} (name : string) (extract : S → result A string) (x : Extensions) : result A InjectRejection :=
  match scope_handle x with
  | None => Err MissingScope
  | Some scope => map_err (Unresolved name) (extract scope)
  end.
Definition rejection_status (r : InjectRejection) : Z := INTERNAL_SERVER_ERROR.
End Serve.
Arguments Extensions : clear implicits.
Arguments Run : clear implicits.
Arguments Service : clear implicits.

(** [RequestMeta::from_parts]: the cookies of every [Cookie] header; of two with the
    same name the later one stays. *)
Record RequestMeta := mkMeta { rm_method : string; rm_uri : string; rm_headers : list (string * string); cookies : gmap string string }.
Definition from_parts (to_str : string → option string) (split_parse : string → list (option (string * string)))
    (method uri : string) (headers : list (string * string)) : RequestMeta :=
  let values := snd <$> List.filter (λ h, bool_decide (h.1 = "cookie")) headers in
  let parsed := v ← values; match to_str v with Some s => omap id (split_parse s) | None => [] end in
  mkMeta method uri headers (foldl (λ m c, <[c.1 := c.2]> m) ∅ parsed).

(** ** Serving and stopping *)

(** [Axum::run]. [server sd] is when the server ends, and how, if the shutdown signal
    fires at [sd]; a shutdown also stops the WebSocket endpoints. [None]: it serves
    for ever. *)
Definition run_server {E} (graceful_timeout_ms : Z) (shutdown_at : option Z) (server : option Z → option (Z * result unit E)) :
    option (Z * result unit E) :=
  match shutdown_at with
  | None => server None
  | Some t =>
      match server (Some t) with
      | Some (e, r) =>
          if (e <=? t) || (graceful_timeout_ms =? 0) || (e <=? t + graceful_timeout_ms) then Some (e, r)
          else Some (t + graceful_timeout_ms, Ok tt)
      | None => if graceful_timeout_ms =? 0 then None else Some (t + graceful_timeout_ms, Ok tt)
      end
  end.
Definition endpoints_stopped {E} (endpoints : list string) (shutdown_at : option Z) (server : option Z → option (Z * result unit E)) : list string :=
  match shutdown_at with
  | None => []
  | Some t => match server (Some t) with Some (e, _) => if e <? t then [] else endpoints | None => endpoints end
  end.

(** ** The documented server and the spec URL agree *)

Lemma trim_start_char_head d s c r : trim_start_char d s = String c r → c ≠ d.
Proof. induction s as [|a s IH]; [done|]. cbn. case_bool_decide; [done|]. by intros [= <- <-]. Qed.
Lemma trim_end_char_head d s c r : trim_end_char d s = String c r → ∃ r', s = String c r'.
Proof.
  destruct s as [|a s]; [done|]. cbn. destruct (trim_end_char d s); [case_bool_decide|]; intros Heq; try done; injection Heq as -> _; by eexists.
Qed.
(** A mount prefix: empty, or with a leading slash and no other at its ends. *)
Lemma normalize_base_path_shape b :
  normalize_base_path b = "" ∨
  ∃ c t, normalize_base_path b = String "/" (String c t) ∧ c ≠ "/"%char ∧ trim_end_char "/" (String c t) = String c t.
Proof.
  unfold normalize_base_path, trim_char. destruct (trim_end_char "/" (trim_start_char "/" b)) as [|c t] eqn:Ht; [by left|right].
  exists c, t. split; [done|]. split.
  - destruct (trim_end_char_head _ _ _ _ Ht) as [r' Hr]. by eapply trim_start_char_head.
  - by rewrite <- Ht, trim_end_char_idem.
Qed.
Lemma normalize_base_path_trimmed b : trim_end_char "/" (normalize_base_path b) = normalize_base_path b.
Proof.
  destruct (normalize_base_path_shape b) as [->|(c & t & -> & _ & Ht)]; [done|].
  change (trim_end_char "/" (String "/" (String c t))) with
    (match trim_end_char "/" (String c t) with "" => if bool_decide ("/"%char = "/"%char) then "" else "/" | String a a0 => String "/" (String a a0) end).
  by rewrite Ht.
Qed.
Lemma normalize_prefix_base b : normalize_prefix (normalize_base_path b) =
  if str_is_empty (normalize_base_path b) then None else Some (normalize_base_path b).
Proof. unfold normalize_prefix. by rewrite normalize_base_path_trimmed. Qed.

Section RouterFacts.
Context {R M Hn Ip Rt : Type} `{Routing R (Layer M) Hn} (root_get : Rt → TypeId → option M).

(** a UI is sent to where the document is. Whatever base path is configured, the
    URL a UI fetches is the path under which the router serves the document, once it
    is nested, and the server URL of the document is the prefix of every route. *)
Theorem spec_url_is_served (b p : string) (r : R) (h : Hn) :
  p ≠ "/" →
  let prefix := normalize_base_path b in
  (∃ route, route ∈ routes (nest_base_path (router_route p h r) prefix) ∧ r_path route = spec_url prefix p ∧ r_handler route = h) ∧
  (∀ route, route ∈ routes (nest_base_path r prefix) → ∃ q, q ∈ r_path <$> routes r ∧
     (q ≠ "/" → r_path route = match normalize_prefix prefix with Some s => s | None => "" end +:+ q)).
Proof.
  intros Hp prefix. unfold spec_url, nest_base_path. unfold prefix. rewrite normalize_prefix_base.
  destruct (str_is_empty (normalize_base_path b)) eqn:He; split.
  - exists (mkRoute p [] h). rewrite routes_route. split; [set_solver|]. by rewrite str_app_nil_l.
  - intros route Hr. exists (r_path route). split; [by apply list_elem_of_fmap_2|]. intros _. by rewrite str_app_nil_l.
  - exists (move_route (nested_path (normalize_base_path b)) (mkRoute p [] h)). rewrite routes_nest, routes_route. split.
    + apply list_elem_of_fmap_2. set_solver.
    + split; [|done]. cbn. apply nested_path_app; [apply normalize_base_path_trimmed|done].
  - intros route. rewrite routes_nest. intros (x & -> & Hx)%list_elem_of_fmap_1. exists (r_path x). split; [by apply list_elem_of_fmap_2|].
    intros Hq. cbn. apply nested_path_app; [apply normalize_base_path_trimmed|done].
Qed.

(** ** The layers of a built server *)

Definition resolved (rt : Rt) (a : MiddlewareApplier) : option M := match a with RawLayer m => Some m | Injected ty => root_get rt ty end.
Definition under (layers : list (Layer M)) (r : Route (Layer M) Hn) : Route (Layer M) Hn :=
  mkRoute (r_path r) (layers ++ r_layers r) (r_handler r).
Lemma wrap_under l layers (rs : list (Route (Layer M) Hn)) : wrap_route l <$> (under layers <$> rs) = under (l :: layers) <$> rs.
Proof. by rewrite <- list_fmap_compose. Qed.
Lemma under_nil (rs : list (Route (Layer M) Hn)) : under [] <$> rs = rs.
Proof. induction rs as [|[p l h] rs IH]; [done|]. cbn. by rewrite IH. Qed.
Lemma under_under a b (rs : list (Route (Layer M) Hn)) : under a <$> (under b <$> rs) = under (a ++ b) <$> rs.
Proof. rewrite <- list_fmap_compose. apply list_fmap_ext. intros i [p l h] _. unfold under. cbn. by rewrite app_assoc. Qed.

Lemma apply_all_routes rt (ms : list (MiddlewareApplier (M := M))) r :
  match mapM (resolved rt) ms with
  | Some fs => ∃ r', apply_all root_get rt ms r = Some r' ∧ routes r' = under (reverse (Middleware <$> fs)) <$> routes r
  | None => apply_all root_get rt ms r = None
  end.
Proof.
  revert r. induction ms as [|a ms IH]; intros r; [exists r; by rewrite under_nil|]. cbn [mapM apply_all].
  destruct (resolved rt a) as [m|] eqn:Ha; simpl.
  2:{ destruct a; simpl in Ha; [done|]. unfold apply_middleware. by rewrite Ha. }
  assert (apply_middleware root_get rt a r = Some (router_layer (Middleware m) r)) as ->.
  { destruct a; simpl in Ha |- *; [by simplify_eq|]. by rewrite Ha. }
  simpl. specialize (IH (router_layer (Middleware m) r)). destruct (mapM (resolved rt) ms) as [fs|]; [|done].
  destruct IH as (r' & Hr' & Hroutes). exists r'. split; [done|].
  rewrite Hroutes, routes_layer, fmap_cons, reverse_cons. rewrite <- (under_nil (routes r)) at 1.
  by rewrite wrap_under, under_under.
Qed.
Lemma merged_routes rt (ds : list (ControllerDescriptor (Rt := Rt))) r :
  routes (foldl (λ r d, router_merge r (cd_router d rt)) r ds) = routes r ++ (ds ≫= λ d, routes (cd_router d rt)).
Proof.
  revert r. induction ds as [|d ds IH]; intros r; [by rewrite app_nil_r|]. cbn [foldl]. by rewrite IH, routes_merge, <- app_assoc.
Qed.

Context (features : OpenApiUi → bool) (openapi_handler : OpenApiRoute → Hn).
Definition json_route (c : OpenApiConfig) : Route (Layer M) Hn := mkRoute (json_path c) [] (openapi_handler ServeJson).
Definition ui_route (base : string) (c : OpenApiConfig) : Route (Layer M) Hn :=
  mkRoute (ui_path c) [] (openapi_handler (ServeUi (ui c) (spec_url base (json_path c)))).
Definition openapi_routes (base : string) (c : OpenApiConfig) : list (Route (Layer M) Hn) :=
  if negb (enabled c) then []
  else json_route c :: (if ui_is_compiled features (ui c) then [ui_route base c] else []).
(** The document is served once, by the UI that brings its own copy or beside it. *)
Lemma mount_routes (router : R) (c : OpenApiConfig) (base : string) :
  match mount features openapi_handler router c base with
  | Ok r => routes r = routes router ++ openapi_routes base c
  | Err e => enabled c = true ∧ ui_is_compiled features (ui c) = true ∧ e = ConfigError (overlap_message c)
  end.
Proof.
  unfold mount, openapi_routes, validate_paths, mount_ui, swagger_owns_json. destruct (enabled c); cbn [negb]; [|by rewrite app_nil_r].
  destruct (ui_is_compiled features (ui c)) eqn:Hf; cbn [negb].
  - destruct (overlaps _ _); [done|]. unfold ui_route. destruct (ui c); try done;
      rewrite ?bool_decide_false, ?bool_decide_true, ?andb_false_r, ?andb_true_r by done; cbn [ui_is_compiled] in Hf; rewrite ?Hf;
      cbn iota; by rewrite !routes_route, <- app_assoc.
  - destruct (bool_decide_reflect (ui c = Swagger)) as [Hs|]; [rewrite Hs in Hf; cbn in Hf; rewrite Hf|rewrite andb_false_r];
      cbn; by rewrite routes_route.
Qed.

Definition ws_route (ws : list WsController) (permits : option Z) (w : WsRegistration (Hn := Hn)) : Route (Layer M) Hn :=
  mkRoute (wr_path w) [] (wr_handler w (speakers (wr_protocol w) ws) permits).
Definition permits_of (config : AxumConfig (Ip := Ip)) : option Z :=
  match WsAdmission_new (max_websocket_connections config) with Ok permits => permits | Err _ => None end.
Lemma mount_endpoints_routes (config : AxumConfig (Ip := Ip)) ws regs (router r : R) endpoints :
  mount_endpoints config ws regs router = Ok (r, endpoints) →
  routes r = routes router ++ (ws_route ws (permits_of config) <$> regs) ∧ endpoints = wr_path <$> regs.
Proof.
  assert (∀ w ws_router, mount_registration config (speakers (wr_protocol w) ws) w = Ok ws_router →
    routes ws_router = [ws_route ws (permits_of config) w]) as Hone.
  { intros w ws_router. unfold mount_registration. destruct (mount_ws _ _ _ _ _) as [[u permits]|e] eqn:Hm; [|done].
    intros [= <-]. rewrite routes_route, routes_new. unfold ws_route, permits_of. unfold mount_ws in Hm.
    by repeat case_match; simplify_eq. }
  revert router r endpoints. induction regs as [|w regs IH]; intros router r endpoints; cbn [mount_endpoints].
  - intros [= -> <-]. by rewrite app_nil_r.
  - destruct (mount_registration config _ w) as [ws_router|e] eqn:Hw; [|done].
    destruct (mount_endpoints config ws regs (router_merge router ws_router)) as [[r' eps]|e] eqn:Hrest; [|done].
    intros [= <- <-]. apply IH in Hrest as (Hr & ->). apply Hone in Hw. by rewrite Hr, routes_merge, Hw, <- app_assoc.
Qed.

Abbreviation Plugin := (AxumPlugin (R := R) (M := M) (Hn := Hn) (Rt := Rt)).
(** The layers of a route of the application, outermost first. *)
Definition app_layers (config : AxumConfig (Ip := Ip)) (fs : list M) : list (Layer M) :=
  OpenScope :: (if 0 <? request_timeout_ms config then [RequestTimeout (request_timeout_ms config)] else []) ++
  BodyLimit (max_request_body_bytes config) :: (Middleware <$> fs).
Definition app_routes (rt : Rt) (config : AxumConfig (Ip := Ip)) (p : Plugin) : list (Route (Layer M) Hn) :=
  (controllers p ≫= λ d, routes (cd_router d rt)) ++ (ws_route (ws_controllers p) (permits_of config) <$> ws_registrations p).
Definition nest_routes (prefix : string) (rs : list (Route (Layer M) Hn)) : list (Route (Layer M) Hn) :=
  if str_is_empty prefix then rs else move_route (nested_path prefix) <$> rs.

(** what is served. A plugin that builds serves the routes of its controllers and
    of its WebSocket endpoints, each under the request scope, the request timeout if
    one is set, the body limit and the middleware in the order of its registration,
    and then the OpenAPI routes under none of them, all beneath the base path; and
    it stops exactly its endpoints. *)
Theorem built_server_routes (rt : Rt) (config : AxumConfig (Ip := Ip)) (openapi : OpenApiConfig) (p : Plugin) (ax : Axum) :
  plugin_build root_get features openapi_handler rt config openapi p = Some (Ok ax) →
  let prefix := normalize_base_path (base_path config) in
  ∃ fs, mapM (resolved rt) (middleware p) = Some fs ∧
    routes (ax_router ax) =
      nest_routes prefix ((under (app_layers config fs) <$> app_routes rt config p) ++ openapi_routes prefix openapi) ∧
    ax_endpoints ax = wr_path <$> ws_registrations p.
Proof.
  intros Hb prefix. unfold plugin_build in Hb.
  destruct (mount_endpoints config _ _ _) as [[router endpoints]|e] eqn:Hm; [|done].
  apply mount_endpoints_routes in Hm as (Hroutes & ->). rewrite merged_routes, routes_new in Hroutes. cbn [app] in Hroutes.
  pose proof (apply_all_routes rt (reverse (middleware p)) router) as Happly.
  destruct (mapM (resolved rt) (middleware p)) as [fs|] eqn:Hfs.
  2:{ assert (mapM (resolved rt) (reverse (middleware p)) = None) as Hnone.
      { apply mapM_None, list.Exists_exists. apply mapM_None, list.Exists_exists in Hfs as (a & Ha & Hn0). exists a.
        split; [by apply elem_of_reverse|done]. }
      rewrite Hnone in Happly. by rewrite Happly in Hb. }
  assert (mapM (resolved rt) (reverse (middleware p)) = Some (reverse fs)) as Hrev.
  { apply mapM_Some. apply mapM_Some in Hfs. by apply Forall2_reverse. }
  rewrite Hrev in Happly. destruct Happly as (r' & Hr' & Hr'routes). rewrite Hr' in Hb. cbn [mbind option_bind] in Hb.
  exists fs. split; [done|]. injection Hb as Hb.
  match type of Hb with context [mount _ _ ?r _ _] => set (wrapped := r) in Hb end.
  assert (routes wrapped = under (app_layers config fs) <$> app_routes rt config p) as Hwrapped.
  { unfold wrapped, app_layers. rewrite <- fmap_reverse, reverse_involutive in Hr'routes. unfold app_routes. rewrite <- Hroutes.
    destruct (0 <? request_timeout_ms config); by rewrite !routes_layer, Hr'routes, !wrap_under. }
  pose proof (mount_routes wrapped openapi prefix) as Hmount. fold prefix in Hb.
  destruct (mount features openapi_handler wrapped openapi prefix) as [r|e]; [|done]. injection Hb as <-. cbn [ax_router ax_endpoints].
  split; [|done]. rewrite <- Hwrapped, <- Hmount. unfold nest_routes, nest_base_path. destruct (str_is_empty prefix); [done|apply routes_nest].
Qed.
End RouterFacts.

(** ** A request of a built server *)

Section Envelope.
Context {R Sc Ev Ip Rt : Type}.
Abbreviation Svc := (Service Sc Ev).
Abbreviation Mw := (Svc → Svc).
Context `{Routing R (Layer Mw) Svc} (root_get : Rt → TypeId → option Mw) (features : OpenApiUi → bool)
  (openapi_handler : OpenApiRoute → Svc) (open : result Sc string).

Lemma run_middleware fs (r : Route (Layer Mw) Svc) layers x :
  run_route open (mkRoute (r_path r) ((Middleware <$> fs) ++ layers) (r_handler r)) x =
  foldr (λ m next, m next) (run_route open (mkRoute (r_path r) layers (r_handler r))) fs x.
Proof.
  unfold run_route. cbn [r_layers r_handler]. revert x. 
  assert (foldr (apply_layer open) (r_handler r) ((Middleware <$> fs) ++ layers) =
    foldr (λ m next, m next) (foldr (apply_layer open) (r_handler r) layers) fs) as Heq; [|intros x; by rewrite Heq].
  induction fs as [|m fs IH]; [done|]. cbn [fmap list_fmap app foldr]. by rewrite IH.
Qed.
Lemma with_timeout_ends ms (r : Run Ev) : ends (with_timeout ms r) ≤ ms.
Proof. unfold with_timeout. destruct (Z.leb_spec (ends r) ms); simpl; lia. Qed.

(** Where a route ends up beneath the base path. *)
Definition placed (prefix path : string) : string := if str_is_empty prefix then path else nested_path prefix path.
(** What is served for a route of the application whose middleware is [fs]. *)
Definition enveloped (config : AxumConfig (Ip := Ip)) (fs : list Mw) (r : Route (Layer Mw) Svc) (x : Extensions Sc) : Run Ev :=
  match open with
  | Err _ => mkRun [] 0 INTERNAL_SERVER_ERROR
  | Ok scope =>
      let inner := foldr (λ m next, m next) (run_route open r) fs (mkExtensions (Some scope) (Some (max_request_body_bytes config))) in
      if 0 <? request_timeout_ms config then with_timeout (request_timeout_ms config) inner else inner
  end.
Lemma run_under_app config fs (r : Route (Layer Mw) Svc) x :
  run_route open (under (app_layers config fs) r) x = enveloped config fs r x.
Proof.
  unfold enveloped. unfold run_route at 1, under, app_layers. cbn [r_layers r_handler app foldr apply_layer].
  destruct open as [scope|e] eqn:Hopen; [|done].
  pose proof (run_middleware fs r (r_layers r) (mkExtensions (Some scope) (Some (max_request_body_bytes config)))) as Hmw.
  destruct r as [path layers handler]. rewrite Hopen in Hmw. unfold run_route at 1 in Hmw. cbn [r_path r_layers r_handler] in *.
  destruct (0 <? request_timeout_ms config); cbn [app foldr apply_layer scope_handle]; by rewrite Hmw.
Qed.
Lemma enveloped_ends config fs r x scope :
  open = Ok scope → 0 < request_timeout_ms config → ends (enveloped config fs r x) ≤ request_timeout_ms config.
Proof. intros Ho Hpos. unfold enveloped. rewrite Ho, (proj2 (Z.ltb_lt _ _)) by done. apply with_timeout_ends. Qed.
Lemma elem_of_nest_routes prefix (rs : list (Route (Layer Mw) Svc)) route :
  route ∈ nest_routes prefix rs ↔
  ∃ r, r ∈ rs ∧ route = (if str_is_empty prefix then r else move_route (nested_path prefix) r).
Proof.
  unfold nest_routes. destruct (str_is_empty prefix).
  - split; [by exists route|by intros (r & Hr & ->)].
  - rewrite list_elem_of_fmap. naive_solver.
Qed.
Lemma nested_runs prefix (r : Route (Layer Mw) Svc) :
  let route := if str_is_empty prefix then r else move_route (nested_path prefix) r in
  r_path route = placed prefix (r_path r) ∧ ∀ x, run_route open route x = run_route open r x.
Proof. unfold placed. by destruct (str_is_empty prefix). Qed.

(** C18: no handler of the application runs outside its request scope, and none runs
    too long. Of a built server, every route of the application is served beneath the base
    path in such a way that, when the request scope cannot be opened, the answer is
    an internal error and no user code runs; otherwise the middleware runs in the
    order of its registration, around the route, with the scope and the body limit in the
    extensions; and with a request timeout the answer is there when it expires. Nothing
    else is served but the OpenAPI document and its page, which answer without a scope,
    a timeout or middleware. *)
Theorem requests_are_enveloped (rt : Rt) (config : AxumConfig (Ip := Ip)) (openapi : OpenApiConfig)
    (p : AxumPlugin (R := R) (M := Mw) (Hn := Svc) (Rt := Rt)) (ax : Axum) :
  plugin_build root_get features openapi_handler rt config openapi p = Some (Ok ax) →
  let prefix := normalize_base_path (base_path config) in
  ∃ fs, mapM (resolved root_get rt) (middleware p) = Some fs ∧
    (∀ r, r ∈ app_routes rt config p → ∃ route, route ∈ routes (ax_router ax) ∧ r_path route = placed prefix (r_path r) ∧
       ∀ x, run_route open route x = enveloped config fs r x) ∧
    (∀ route, route ∈ routes (ax_router ax) →
       (∃ r, r ∈ app_routes rt config p ∧ r_path route = placed prefix (r_path r) ∧
          ∀ x, run_route open route x = enveloped config fs r x) ∨
       (∃ r, r ∈ openapi_routes (M := Mw) features openapi_handler prefix openapi ∧ r_path route = placed prefix (r_path r) ∧
          ∀ x, run_route open route x = r_handler r x)) ∧
    (∀ r x, 0 < request_timeout_ms config → ends (enveloped config fs r x) ≤ request_timeout_ms config).
Proof.
  intros Hb prefix. destruct (built_server_routes _ _ _ _ _ _ _ _ Hb) as (fs & Hfs & Hroutes & _).
  exists fs. split; [done|]. fold prefix in Hroutes. rewrite Hroutes. split; [|split].
  - intros r Hr. eexists. rewrite elem_of_nest_routes. destruct (nested_runs prefix (under (app_layers config fs) r)) as [Hp Hrun].
    split; [eexists; split; [|reflexivity]; apply elem_of_app; left; by apply list_elem_of_fmap_2|].
    split; [exact Hp|]. intros x. by rewrite Hrun, run_under_app.
  - intros route (r & Hr & ->)%elem_of_nest_routes. destruct (nested_runs prefix r) as [Hp Hrun].
    apply elem_of_app in Hr as [(r0 & -> & Hr)%list_elem_of_fmap|Hr]; [left; exists r0|right; exists r]; (split; [done|]);
      (split; [exact Hp|]); intros x; rewrite Hrun; [apply run_under_app|].
    unfold openapi_routes in Hr. destruct (enabled openapi); [|by apply not_elem_of_nil in Hr].
    apply elem_of_cons in Hr as [-> |Hr]; [done|]. destruct (ui_is_compiled _ _); [|by apply not_elem_of_nil in Hr].
    by apply list_elem_of_singleton in Hr as ->.
  - intros r x Hpos. destruct open as [scope|e] eqn:Ho; [|unfold enveloped; rewrite Ho; cbn; lia].
    by apply (enveloped_ends config fs r x scope).
Qed.
End Envelope.

(** ** Endpoints and stopping *)

(** No two endpoints have one path, however the plugin was assembled. *)
Lemma register_ws_distinct {R M Hn Rt} (w : WsRegistration (Hn := Hn)) (p p' : AxumPlugin (R := R) (M := M) (Rt := Rt)) :
  NoDup (wr_path <$> ws_registrations p) → register_ws_with w p = Some p' → NoDup (wr_path <$> ws_registrations p').
Proof.
  intros Hnd. unfold register_ws_with. destruct (existsb _ _) eqn:He; [done|]. intros [= <-]. cbn [ws_registrations].
  rewrite fmap_app. apply NoDup_app. split; [done|]. split; [|apply NoDup_singleton].
  intros path Hp ->%list_elem_of_singleton. apply list_elem_of_fmap_1 in Hp as (x & Heq & Hx).
  apply not_true_iff_false in He. apply He, existsb_exists. exists x. split; [by apply list_elem_of_In|]. by apply bool_decide_eq_true.
Qed.
(** A stop takes at most the grace period; what the server reports before it is the
    result. *)
Lemma run_server_stops {E} (grace t : Z) (server : option Z → option (Z * result unit E)) :
  0 < grace → ∃ e r, run_server grace (Some t) server = Some (e, r) ∧ e ≤ Z.max t (t + grace) ∧
    (r ≠ Ok tt → server (Some t) = Some (e, r)).
Proof.
  intros Hg. unfold run_server. destruct (server (Some t)) as [[e r]|] eqn:Hs.
  - destruct (Z.leb_spec e t), (Z.eqb_spec grace 0), (Z.leb_spec e (t + grace)); cbn [orb]; try lia;
      (eexists _, _; split; [done|]; split; [lia|]; done).
  - destruct (Z.eqb_spec grace 0); [lia|]. eexists _, _. split; [done|]. split; [lia|done].
Qed.

(** ** A list of routes as the router *)

#[export, refine] Instance listed_routing {L Hn} : Routing (list (Route L Hn)) L Hn := {|
  router_new := []; router_merge := app; router_layer l r := wrap_route l <$> r;
  router_route p h r := r ++ [mkRoute p [] h];
  router_nest p r := move_route (λ q, if bool_decide (q = "/") then p else p +:+ q) <$> r;
  routes r := r; nested_path p q := if bool_decide (q = "/") then p else p +:+ q |}.
Proof. all: try done. intros p q _ Hq. by rewrite bool_decide_false. Defined.

Section Sample.
Abbreviation SampleService := (Service nat string).
(** What a handler and a piece of middleware do, at their times. *)
Definition users : SampleService := λ x, mkRun [(5, "users")] 10 (match scope_handle x with Some _ => 200 | None => 500 end).
Definition slow : SampleService := λ x, mkRun [(5, "begin"); (900, "end")] 900 200.
Definition note (what : string) (next : SampleService) : SampleService := λ x, let r := next x in mkRun ((0, what) :: events r) (ends r) (response r).
Definition user_routes : list (Route (Layer (SampleService → SampleService)) SampleService) :=
  [mkRoute "/users" [] users; mkRoute "/slow" [] slow].
Definition sample_config : AxumConfig (Ip := string) :=
  mkAxumConfig "127.0.0.1" 3000 "api/" 100 100 100 100 100 100 100 100 500 100.
Definition sample_plugin : AxumPlugin (R := list (Route (Layer (SampleService → SampleService)) SampleService)) (Hn := SampleService) (Rt := unit) :=
  add_middleware (RawLayer (note "second")) (add_middleware (RawLayer (note "first"))
    (controller (mkController "users" (λ _, user_routes)) AxumPlugin_default)).
Definition document : OpenApiRoute → SampleService := λ _ x, mkRun [(0, "openapi")] 1 200.
Definition sample_server :=
  plugin_build (λ _ _, None) (λ _, true) document () sample_config (mkOpenApi true "/openapi.json" Redoc "/docs" "API" "1") sample_plugin.
Definition answer (open : result nat string) (path : string) : option (Run string) :=
  match sample_server with
  | Some (Ok ax) =>
      match List.filter (λ r, bool_decide (r_path r = path)) (ax_router ax) with
      | r :: _ => Some (run_route open r (mkExtensions None None))
      | [] => None
      end
  | _ => None
  end.
End Sample.
Lemma sample_requests :
  answer (Ok 7%nat) "/api/users" = Some (mkRun [(0, "first"); (0, "second"); (5, "users")] 10 200) ∧
  answer (Err "no pool") "/api/users" = Some (mkRun [] 0 500) ∧
  answer (Ok 7%nat) "/api/slow" = Some (mkRun [(0, "first"); (0, "second"); (5, "begin")] 500 408) ∧
  answer (Err "no pool") "/api/openapi.json" = Some (mkRun [(0, "openapi")] 1 200) ∧ answer (Ok 7%nat) "/users" = None.
Proof. by vm_compute. Qed.
Lemma requests_are_enveloped_witness :
  ∃ ax, sample_server = Some (Ok ax) ∧ ∃ route, route ∈ ax_router ax ∧ r_path route = "/api/users" ∧
    ∀ x, ends (run_route (Ok 7%nat) route x) ≤ 500.
Proof.
  eexists. split; [reflexivity|].
  destruct (requests_are_enveloped (λ _ _, None) (λ _, true) document (Ok 7%nat) () sample_config
    (mkOpenApi true "/openapi.json" Redoc "/docs" "API" "1") sample_plugin _ eq_refl) as (fs & _ & Happ & _ & Hends).
  destruct (Happ (mkRoute "/users" [] users)) as (route & Hin & Hpath & Hrun); [apply elem_of_app; left; apply elem_of_app; left; left|].
  exists route. split; [exact Hin|]. split; [exact Hpath|]. intros x. rewrite Hrun. exact (Hends _ x eq_refl).
Defined.
Lemma built_server_routes_witness :
  ∃ ax, sample_server = Some (Ok ax) ∧ r_path <$> ax_router ax = ["/api/users"; "/api/slow"; "/api/openapi.json"; "/api/docs"].
Proof.
  eexists. split; [reflexivity|].
  destruct (built_server_routes (λ _ _, None) (λ _, true) document () sample_config
    (mkOpenApi true "/openapi.json" Redoc "/docs" "API" "1") sample_plugin _ eq_refl) as (fs & Hfs & Hroutes & _).
  injection Hfs as <-. cbn [routes listed_routing] in Hroutes. rewrite Hroutes. reflexivity.
Defined.
Lemma spec_url_is_served_witness :
  "/openapi.json" ≠ "/" ∧
  ∃ route, route ∈ nest_base_path (router_route "/openapi.json" true ([] : list (Route (Layer unit) bool))) (normalize_base_path "/api//") ∧
    r_path route = "/api/openapi.json".
Proof.
  split; [done|].
  destruct (proj1 (spec_url_is_served (M := unit) "/api//" "/openapi.json" ([] : list (Route (Layer unit) bool)) true ltac:(done)))
    as (route & Hin & Hpath & _).
  exists route. split; [exact Hin|exact Hpath].
Defined.
(** The path of a route without a leading slash does not get one. *)
Lemma join_base_samples :
  join_base "/users/" "/{id}" = "/users/{id}" ∧ join_base "/" "/x" = "/x" ∧ join_base "/users" "/" = "/users" ∧
  join_base "" "" = "/" ∧ join_base "" "x" = "x" ∧ join_base "users" "/x" = "users/x".
Proof. by vm_compute. Qed.
