(* ===== verification/MacroTopics.v ===== *)
(** * MacroTopics: the [#[topics]] macro

    Models [crates/axum-macros/src/topics.rs]: the destination templates, the
    validation of a variant, the names it generates, and what the generated
    [Topic::destination] and [subscribe_*] compute.

    - The generated code is modelled by what it does: the destination is the string it
      renders, given what [TopicParam::render] makes of each field.
    - Types are opaque, names are ASCII identifiers, and a syntax error of the
      attribute's tokens is [syn]'s. *)
From S2P Require Import Prelude.

(** ** Templates *)

Inductive Segment := Literal (text : string) | Hole (name : string).
#[export] Instance Segment_eq_dec : EqDecision Segment.
Proof. solve_decision. Defined.
Inductive TemplateError := UnmatchedOpen | EmptyHole | UnmatchedClose.

Definition flush (literal : string) (rest : list Segment) : list Segment := if bool_decide (literal = "") then rest else Literal literal :: rest.
(** [parse_template]; [hole] is the name read so far of the hole it is in. *)
Fixpoint parse_chars (hole : option string) (literal : string) (cs : string) : result (list Segment) TemplateError :=
  match hole, cs with
  | None, "" => Ok (flush literal [])
  | None, String c cs' =>
      if bool_decide (c = "{"%char) then
        match cs' with
        | String d cs'' =>
            if bool_decide (d = "{"%char) then parse_chars None (literal +:+ "{") cs''
            else result_map (flush literal) (parse_chars (Some "") "" cs')
        | "" => Err UnmatchedOpen
        end
      else if bool_decide (c = "}"%char) then
        match cs' with
        | String d cs'' => if bool_decide (d = "}"%char) then parse_chars None (literal +:+ "}") cs'' else Err UnmatchedClose
        | "" => Err UnmatchedClose
        end
      else parse_chars None (literal +:+ String c "") cs'
  | Some _, "" => Err UnmatchedOpen
  | Some name, String c cs' =>
      if bool_decide (c = "}"%char) then
        if bool_decide (name = "") then Err EmptyHole else result_map (cons (Hole name)) (parse_chars None "" cs')
      else parse_chars (Some (name +:+ String c "")) "" cs'
  end.
Definition parse_template (destination : string) : result (list Segment) TemplateError := parse_chars None "" destination.
(** [hole_names] *)
Definition hole_names (segments : list Segment) : list string := omap (λ s, match s with Hole n => Some n | Literal _ => None end) segments.

(** ** Variants *)

Section Topics.
Context {Ty : Type}.
Record Field := mkField { f_name : string; f_ty : Ty; f_content : bool }.
(** The fields of a variant: [Unit] stands for whatever is neither shape. *)
Inductive Fields := Unnamed (tys : list Ty) | Named (fields : list Field) | UnitFields.
(** A variant of the enum; its attribute is the template of [#[topic(..)]]. *)
Record Variant := mkVariant { v_ident : string; v_topic : option string; v_fields : Fields }.
Inductive VariantKind :=
| Static (payload : Ty)
| Templated (params : list (string * Ty)) (content_field : string) (content_type : Ty).
Record TopicVariant := mkTopic { t_ident : string; t_destination : string; t_segments : list Segment; t_kind : VariantKind }.
Inductive TopicsError :=
| NoTopicAttr (ident : string) | BadTemplate (e : TemplateError) | HolesNeedFields | TwoContents (field : string) | NoContent (ident : string)
| UnusedField (name : string) | HoleWithoutField (hole : string) | BadShape (ident : string) | NoVariants.

(** The loop over the fields: the content and the others. *)
Fixpoint split_fields (fields : list Field) (content : option (string * Ty)) : result (option (string * Ty) * list (string * Ty)) TopicsError :=
  match fields with
  | [] => Ok (content, [])
  | f :: fields' =>
      if f_content f then
        match content with
        | Some _ => Err (TwoContents (f_name f))
        | None => split_fields fields' (Some (f_name f, f_ty f))
        end
      else result_map (λ r, (r.1, (f_name f, f_ty f) :: r.2)) (split_fields fields' content)
  end.
Fixpoint params_for (holes : list string) (fields : list (string * Ty)) : result (list (string * Ty)) TopicsError :=
  match holes with
  | [] => Ok []
  | hole :: holes' =>
      match List.find (λ f, bool_decide (f.1 = hole)) fields with
      | None => Err (HoleWithoutField hole)
      | Some f => result_map (cons f) (params_for holes' fields)
      end
  end.
(** [parse_templated_variant] *)
Definition parse_templated_variant (ident : string) (holes : list string) (fields : list Field) : result VariantKind TopicsError :=
  match split_fields fields None with
  | Err e => Err e
  | Ok (None, _) => Err (NoContent ident)
  | Ok (Some (content_field, content_type), field_types) =>
      match List.find (λ f, negb (bool_decide (f.1 ∈ holes))) field_types with
      | Some f => Err (UnusedField f.1)
      | None => result_map (λ params, Templated params content_field content_type) (params_for holes field_types)
      end
  end.
Definition parse_variant (v : Variant) : result TopicVariant TopicsError :=
  match v_topic v with
  | None => Err (NoTopicAttr (v_ident v))
  | Some destination =>
      match parse_template destination with
      | Err e => Err (BadTemplate e)
      | Ok segments =>
          let holes := hole_names segments in
          result_map (mkTopic (v_ident v) destination segments)
            match v_fields v with
            | Unnamed [ty] => if bool_decide (holes = []) then Ok (Static ty) else Err HolesNeedFields
            | Named fields => parse_templated_variant (v_ident v) holes fields
            | _ => Err (BadShape (v_ident v))
            end
      end
  end.
(** [parse_variants] *)
Definition parse_variants (vs : list Variant) : result (list TopicVariant) TopicsError :=
  match try_map parse_variant vs with
  | Ok [] => Err NoVariants
  | r => r
  end.

(** ** The generated code *)

(** [render_destination], with the value of each hole; [None] is a name that is not bound. *)
Fixpoint render_destination (value : string → option string) (segments : list Segment) : option string :=
  match segments with
  | [] => Some ""
  | Literal text :: rest => dest ← render_destination value rest; Some (text +:+ dest)
  | Hole name :: rest => v ← value name; dest ← render_destination value rest; Some (v +:+ dest)
  end.
(** The value of the first binding of a name. *)
Definition bound (names : list string) (values : list string) (name : string) : option string :=
  snd <$> List.find (λ b, bool_decide (b.1 = name)) (zip names values).
(** The arm of [Topic::destination]: [render f] is what the field [f] renders to. *)
Definition topic_destination (t : TopicVariant) (render : string → string) : option string :=
  match t_kind t with
  | Static _ => Some (t_destination t)
  | Templated params _ _ => render_destination (bound params.*1 (render <$> params.*1)) (t_segments t)
  end.
(** The destination that [subscribe_*] subscribes to, called with these arguments. *)
Definition subscribe_destination (t : TopicVariant) (args : list string) : option string :=
  match t_kind t with
  | Static _ => Some (t_destination t)
  | Templated params _ _ => render_destination (bound params.*1 args) (t_segments t)
  end.
End Topics.
Arguments Field : clear implicits.
Arguments Fields : clear implicits.
Arguments Variant : clear implicits.
Arguments VariantKind : clear implicits.
Arguments TopicVariant : clear implicits.

(** [to_snake_case] *)
Definition is_upper (c : ascii) : bool := (65 <=? Z.of_nat (nat_of_ascii c)) && (Z.of_nat (nat_of_ascii c) <=? 90).
Definition lower_ascii (c : ascii) : ascii := ascii_of_nat (nat_of_ascii c + 32).
Fixpoint snake_from (first : bool) (name : string) : string :=
  match name with
  | "" => ""
  | String c name' => (if is_upper c then (if first then "" else "_") +:+ String (lower_ascii c) "" else String c "") +:+ snake_from false name'
  end.
Definition to_snake_case (name : string) : string := snake_from true name.
Definition subscribe_method (ident : string) : string := "subscribe_" +:+ to_snake_case ident.

(** [transport_param_ident]: the name of the transport's type parameter, given those the
    enum declares. [None] is out of fuel. *)
Definition TRANSPORT_BASE : string := "__OverseerdClientTransport".
Fixpoint fresh_suffix (fuel : nat) (suffix : nat) (declared : gset string) : option string :=
  match fuel with
  | O => None
  | S fuel' =>
      let candidate := TRANSPORT_BASE +:+ pretty suffix in
      if bool_decide (candidate ∈ declared) then fresh_suffix fuel' (S suffix) declared else Some candidate
  end.
Definition transport_param_ident (declared : gset string) : option string :=
  if bool_decide ("C" ∉ declared) then Some "C"
  else if bool_decide (TRANSPORT_BASE ∉ declared) then Some TRANSPORT_BASE
  else fresh_suffix (S (size declared)) 0 declared.

(** [lifetimes_in_type], on the token trees of a type. *)
Inductive TokenTree := TIdent (name : string) | TPunct (c : ascii) | TLiteral | TGroup (tokens : list TokenTree).
Fixpoint walk_tree (t : TokenTree) : list string :=
  match t with
  | TGroup tokens =>
      (fix walk (tokens : list TokenTree) : list string :=
         match tokens with
         | [] => []
         | TPunct c :: rest =>
             if bool_decide (c = "'"%char) then
               match rest with TIdent name :: rest' => name :: walk rest' | _ => walk rest end
             else walk rest
         | t :: rest => walk_tree t ++ walk rest
         end) tokens
  | _ => []
  end.
Definition lifetimes_in_type (tokens : list TokenTree) : gset string := list_to_set (walk_tree (TGroup tokens)).
(** [ts_type_name], of the last segment of a path type. *)
Definition ts_type_name (ident : option string) : string :=
  match ident with
  | None => "any"
  | Some name =>
      if bool_decide (name ∈ ["String"; "str"; "char"]) then "string"
      else if bool_decide (name = "bool") then "boolean"
      else if bool_decide (name ∈ ["u8"; "u16"; "u32"; "u64"; "u128"; "usize"; "i8"; "i16"; "i32"; "i64"; "i128"; "isize"; "f32"; "f64"]) then "number"
      else name
  end.

(** ** Templates are parsed and printed *)

(** Literal braces doubled. *)
Fixpoint escape (text : string) : string :=
  match text with
  | "" => ""
  | String c text' => (if bool_decide (c = "{"%char ∨ c = "}"%char) then String c (String c "") else String c "") +:+ escape text'
  end.
Definition print_segment (s : Segment) : string := match s with Literal text => escape text | Hole name => "{" +:+ name +:+ "}" end.
Definition print_segments (segments : list Segment) : string := foldr (λ s acc, print_segment s +:+ acc) "" segments.
Definition hole_ok (name : string) : Prop := name ≠ "" ∧ str_contains "}" name = false ∧ ∀ rest, name ≠ String "{" rest.
(** What a template is parsed into: no literal is empty, none follows another. *)
Fixpoint normal (segments : list Segment) : Prop :=
  match segments with
  | [] => True
  | Hole name :: rest => hole_ok name ∧ normal rest
  | Literal text :: rest => text ≠ "" ∧ match rest with Literal _ :: _ => False | _ => True end ∧ normal rest
  end.

Lemma parse_literal text acc rest : parse_chars None acc (escape text +:+ rest) = parse_chars None (acc +:+ text) rest.
Proof.
  revert acc. induction text as [|c text IH]; intros acc; [cbn [escape]; by autorewrite with str|].
  cbn [escape]. case_bool_decide as Hc; autorewrite with str; cbn [parse_chars].
  - destruct Hc as [-> | ->]; [|rewrite bool_decide_false by done]; rewrite !bool_decide_true by done; rewrite IH; by autorewrite with str.
  - rewrite !bool_decide_false by tauto. rewrite IH. by autorewrite with str.
Qed.
Lemma parse_hole name acc rest : str_contains "}" name = false → acc +:+ name ≠ "" →
  parse_chars (Some acc) "" (name +:+ String "}" rest) = result_map (cons (Hole (acc +:+ name))) (parse_chars None "" rest).
Proof.
  revert acc. induction name as [|c name IH]; intros acc Hc Hne; autorewrite with str in *.
  - cbn [parse_chars]. rewrite bool_decide_true by done. by rewrite bool_decide_false.
  - cbn in Hc. apply orb_false_iff in Hc as [Hd Hc]. apply bool_decide_eq_false in Hd. cbn [parse_chars].
    rewrite bool_decide_false by congruence. rewrite IH; autorewrite with str; done.
Qed.
(** Printing the segments of a template gives text that parses into them. *)
Lemma parse_print segments : normal segments → parse_template (print_segments segments) = Ok segments.
Proof.
  unfold parse_template. induction segments as [|[text|name] rest IH]; [done|..]; cbn [normal print_segments foldr print_segment].
  - intros (Hne & Hn & Hr). rewrite parse_literal, str_app_nil_l. destruct rest as [|[|name] rest]; [cbn; unfold flush; by rewrite bool_decide_false|done|].
    specialize (IH Hr). fold (print_segments (Hole name :: rest)) in *. revert IH. cbn [print_segments foldr print_segment]. autorewrite with str.
    cbn [parse_chars]. rewrite !bool_decide_true by done. destruct Hr as [(Hn1 & Hn2 & Hn3) _]. destruct name as [|c name]; [done|]. autorewrite with str.
    rewrite bool_decide_false by (intros ->; by eapply Hn3). intros IH. destruct (parse_chars (Some "") "" _) as [l|]; [|done]. cbn in IH |- *.
    injection IH as IH. unfold flush in *. rewrite bool_decide_true in IH by done. subst l. by rewrite bool_decide_false.
  - intros [(Hn1 & Hn2 & Hn3) Hr]. autorewrite with str. destruct name as [|c name]; [done|]. cbn [parse_chars]. rewrite bool_decide_true by done. autorewrite with str.
    rewrite bool_decide_false by (intros ->; by eapply Hn3). rewrite <- str_app_cons. rewrite parse_hole by done. fold (print_segments rest). rewrite IH by done. done.
Qed.

Lemma escape_app a b : escape (a +:+ b) = escape a +:+ escape b.
Proof. induction a as [|c a IH]; [done|]. autorewrite with str. cbn [escape]. rewrite IH. by autorewrite with str. Qed.
Lemma escape_brace c : c = "{"%char ∨ c = "}"%char → escape (String c "") = String c (String c "").
Proof. intros Hc. cbn [escape]. by rewrite bool_decide_true. Qed.
Lemma escape_plain c : c ≠ "{"%char → c ≠ "}"%char → escape (String c "") = String c "".
Proof. intros H1 H2. cbn [escape]. by rewrite bool_decide_false by tauto. Qed.
Lemma contains_snoc name c : str_contains "}" name = false → c ≠ "}"%char → str_contains "}" (name +:+ String c "") = false.
Proof.
  intros Hn Hc. induction name as [|d name IH]; autorewrite with str; cbn in *; [by rewrite bool_decide_false by congruence|].
  apply orb_false_iff in Hn as [-> Hn]. by apply IH.
Qed.
(** The other direction. [String.length] bounds the text that is left. *)
Lemma parse_chars_prints n : (∀ acc cs segments, (String.length cs < n)%nat → parse_chars None acc cs = Ok segments →
    normal segments ∧ print_segments segments = escape acc +:+ cs) ∧
  (∀ name cs segments, (String.length cs < n)%nat → parse_chars (Some name) "" cs = Ok segments →
    str_contains "}" name = false → (∀ rest, name +:+ cs ≠ String "{" rest) →
    normal segments ∧ print_segments segments = "{" +:+ name +:+ cs ∧ ∃ h l, segments = Hole h :: l).
Proof.
  induction n as [|n [IHn IHs]]; [split; intros; lia|]. split.
  - intros acc cs segments Hlen. destruct cs as [|c cs].
    + cbn. intros [= <-]. unfold flush. case_bool_decide as Ha; [by subst|]. split; [done|]. cbn. by autorewrite with str.
    + cbn [String.length] in Hlen. cbn [parse_chars]. case_bool_decide as Hc; [subst c|case_bool_decide as Hc'; [subst c|]].
      * destruct cs as [|d cs]; [done|]. cbn [String.length] in Hlen. case_bool_decide as Hd.
        -- subst d. intros Hp. apply IHn in Hp as [Hnorm Hp]; [|lia]. split; [done|]. rewrite Hp, escape_app, escape_brace by auto. by autorewrite with str.
        -- destruct (parse_chars (Some "") "" (String d cs)) as [l|] eqn:Hp; [|done]. intros [= <-].
           apply IHs in Hp as (Hnorm & Hp & h & l' & ->); [|cbn; lia|done|intros rest; autorewrite with str; congruence].
           unfold flush. case_bool_decide as Ha; [subst acc; by split|]. split; [by split|]. cbn [print_segments foldr print_segment] in Hp |- *. rewrite Hp. by autorewrite with str.
      * destruct cs as [|d cs]; [done|]. cbn [String.length] in Hlen. case_bool_decide as Hd; [|done]. subst d. intros Hp.
        apply IHn in Hp as [Hnorm Hp]; [|lia]. split; [done|]. rewrite Hp, escape_app, escape_brace by auto. by autorewrite with str.
      * intros Hp. apply IHn in Hp as [Hnorm Hp]; [|lia]. split; [done|]. rewrite Hp, escape_app, escape_plain by done. by autorewrite with str.
  - intros name cs segments Hlen. destruct cs as [|c cs]; [done|]. cbn [String.length] in Hlen. cbn [parse_chars]. case_bool_decide as Hc; [subst c|].
    + case_bool_decide as Hn; [done|]. destruct (parse_chars None "" cs) as [l|] eqn:Hp; [|done]. intros [= <-] Hcl Hh.
      apply IHn in Hp as [Hnorm Hp]; [|lia]. split; [split; [|done]|].
      * split; [done|]. split; [done|]. intros rest Hr. apply (Hh (rest +:+ String "}" cs)). rewrite Hr. by autorewrite with str.
      * split; [|eauto]. cbn [print_segments foldr print_segment]. fold (print_segments l). rewrite Hp. cbn [escape]. by autorewrite with str.
    + intros Hp Hcl Hh. apply IHs in Hp as (Hnorm & Hp & He); [|lia|by apply contains_snoc|intros rest; autorewrite with str; apply Hh].
      split; [done|]. split; [|done]. rewrite Hp. by autorewrite with str.
Qed.

(** Parsing loses nothing: the template is the printing of its segments, which are in
    normal form; so each template has one reading, and [parse_template] accepts just
    the printings of such segments. *)
Theorem template_roundtrip destination segments : parse_template destination = Ok segments ↔ normal segments ∧ print_segments segments = destination.
Proof.
  split; [|intros [Hn <-]; by apply parse_print].
  intros Hp. destruct (parse_chars_prints (S (String.length destination))) as [H _]. by apply (H "" destination); [lia|].
Qed.

(** ** One enum, two sides *)

Section Contract.
Context {Ty : Type}.
Lemma split_fields_spec (fields : list (Field Ty)) content c rest : split_fields fields content = Ok (c, rest) →
  rest = (λ f, (f_name f, f_ty f)) <$> filter (λ f, f_content f = false) fields ∧
  match content with
  | Some x => c = Some x ∧ filter (λ f, f_content f = true) fields = []
  | None => (λ f, (f_name f, f_ty f)) <$> filter (λ f, f_content f = true) fields = option_list c
  end.
Proof.
  revert content c rest. induction fields as [|f fields IH]; intros content c rest; cbn [split_fields].
  - intros [= <- <-]. split; [done|]. by destruct content.
  - destruct (f_content f) eqn:Hf.
    + destruct content; [done|]. intros [Hr [-> Hall]]%IH. rewrite filter_cons_False by congruence. split; [done|].
      rewrite filter_cons_True by done. rewrite fmap_cons. by rewrite Hall.
    + destruct (split_fields fields content) as [[c' rest']|e] eqn:Hs; [|done]. cbn [result_map fst snd]. intros [= -> <-]. apply IH in Hs as [-> Hc].
      rewrite filter_cons_True by done. split; [done|]. rewrite filter_cons_False by congruence. done.
Qed.
Lemma find_Some_elem {A} (p : A → bool) (l : list A) x : List.find p l = Some x → x ∈ l ∧ p x = true.
Proof. intros [Hin Hp]%List.find_some. by rewrite list_elem_of_In. Qed.
Lemma params_for_spec holes (fields : list (string * Ty)) params : params_for holes fields = Ok params →
  params.*1 = holes ∧ Forall (λ p, p ∈ fields) params.
Proof.
  revert params. induction holes as [|hole holes IH]; intros params; cbn [params_for]; [by intros [= <-]|].
  destruct (List.find _ fields) as [f|] eqn:Hf; [|done]. apply find_Some_elem in Hf as [Hin Hn]. apply bool_decide_eq_true in Hn.
  destruct (params_for holes fields) as [ps|e]; [|done]. intros [= <-]. destruct (IH ps eq_refl) as [H1 H2]. split; [cbn; by rewrite H1, Hn|by constructor].
Qed.

Lemma templated_spec ident holes (fields : list (Field Ty)) kind : parse_templated_variant ident holes fields = Ok kind →
  ∃ params content ty, kind = Templated params content ty ∧ params.*1 = holes ∧
    (λ f, (f_name f, f_ty f)) <$> filter (λ f, f_content f = true) fields = [(content, ty)] ∧
    (∀ p, p ∈ params → p ∈ (λ f, (f_name f, f_ty f)) <$> filter (λ f, f_content f = false) fields) ∧
    (∀ f, f ∈ fields → f_content f = false → f_name f ∈ holes).
Proof.
  unfold parse_templated_variant. destruct (split_fields fields None) as [[[[cf ct]|] rest]|e] eqn:Hs; [|done..].
  apply split_fields_spec in Hs as [-> Hc]. destruct (List.find _ _) as [f|] eqn:Hu; [done|].
  destruct (params_for holes _) as [params|e] eqn:Hp; [|done]. intros [= <-]. apply params_for_spec in Hp as [H1 H2].
  exists params, cf, ct. split; [done|]. split; [done|]. split; [done|]. split; [by rewrite Forall_forall in H2|].
  intros f Hf Hn. pose proof (List.find_none _ _ Hu (f_name f, f_ty f)) as Hx. rewrite <- list_elem_of_In in Hx.
  specialize (Hx ltac:(apply list_elem_of_fmap_2' with f; [by apply list_elem_of_filter|done])).
  by apply negb_false_iff, bool_decide_eq_true in Hx.
Qed.
(** A struct variant is accepted only when it and its template agree: one field is the
    content, every other field fills a hole, and every hole has a field, whose type is
    the parameter's, in the order of the template. *)
Theorem templated_variant_agrees ident holes (fields : list (Field Ty)) kind : parse_templated_variant ident holes fields = Ok kind →
  ∃ params content ty, kind = Templated params content ty ∧ params.*1 = holes ∧
    (λ f, (f_name f, f_ty f)) <$> filter (λ f, f_content f = true) fields = [(content, ty)] ∧
    (∀ p, p ∈ params → p ∈ (λ f, (f_name f, f_ty f)) <$> filter (λ f, f_content f = false) fields) ∧
    (∀ f, f ∈ fields → f_content f = false → f_name f ∈ holes).
Proof. apply templated_spec. Qed.

(** What the segments come to, given the value of every field. *)
Definition filled (render : string → string) (segments : list Segment) : string :=
  foldr (λ s acc, match s with Literal text => text | Hole name => render name end +:+ acc) "" segments.
Lemma bound_fmap (names : list string) (render : string → string) n : n ∈ names → bound names (render <$> names) n = Some (render n).
Proof.
  unfold bound. induction names as [|m names IH]; [by intros ?%not_elem_of_nil|]. cbn. case_bool_decide as Hm; [cbn in Hm; by subst|].
  intros [->|Hin]%elem_of_cons; [done|by apply IH].
Qed.
Lemma render_filled render value segments : (∀ n, n ∈ hole_names segments → value n = Some (render n)) →
  render_destination value segments = Some (filled render segments).
Proof.
  induction segments as [|[text|n] segments IH]; intros Hv; [done|..]; cbn.
  - by rewrite IH.
  - rewrite (Hv n) by by left. cbn. rewrite IH; [done|]. intros m Hm. apply Hv. by right.
Qed.
Lemma parse_variant_inv (v : Variant Ty) t : parse_variant v = Ok t →
  t_ident t = v_ident v ∧ v_topic v = Some (t_destination t) ∧ parse_template (t_destination t) = Ok (t_segments t) ∧
  match t_kind t with
  | Static _ => hole_names (t_segments t) = []
  | Templated params _ _ => params.*1 = hole_names (t_segments t)
  end.
Proof.
  unfold parse_variant. destruct (v_topic v) as [dest|]; [|done]. destruct (parse_template dest) as [segs|e] eqn:Ht; [|done].
  destruct (v_fields v) as [[|ty []]|fields|]; try done.
  - case_bool_decide; [|done]. by intros [= <-].
  - destruct (parse_templated_variant _ _ _) as [k|e] eqn:Hk; [|done]. intros [= <-]. cbn. repeat split; [done|].
    apply templated_spec in Hk as (params & c & ty & -> & H & _). done.
Qed.

(** The server publishes where the client subscribes. Of every topic of an accepted
    enum, the destination of a value with these fields is the template with the fields
    in its holes, and it is the destination to which the generated [subscribe_*] method
    subscribes when it is given the same values as arguments. *)
Theorem topic_contract (v : Variant Ty) t params content ty render : parse_variant v = Ok t → t_kind t = Templated params content ty →
  topic_destination t render = Some (filled render (t_segments t)) ∧
  subscribe_destination t (render <$> params.*1) = topic_destination t render.
Proof.
  intros (_ & _ & _ & Hk)%parse_variant_inv Hkind. rewrite Hkind in Hk. unfold topic_destination, subscribe_destination. rewrite Hkind.
  split; [|done]. apply render_filled. intros n Hn. apply bound_fmap. by rewrite Hk.
Qed.
End Contract.

(** ** The transport's name *)

Lemma fresh_suffix_fresh fuel suffix declared n : fresh_suffix fuel suffix declared = Some n → n ∉ declared.
Proof.
  revert suffix. induction fuel as [|fuel IH]; intros suffix; cbn; [done|]. case_bool_decide as Hc; [apply IH|]. by intros [= <-].
Qed.
(** Out of fuel: so many candidates are declared. *)
Lemma fresh_suffix_stuck fuel suffix declared : fresh_suffix fuel suffix declared = None →
  (list_to_set ((λ i, TRANSPORT_BASE +:+ pretty i) <$> seq suffix fuel) : gset string) ⊆ declared.
Proof.
  revert suffix. induction fuel as [|fuel IH]; intros suffix; cbn [fresh_suffix seq]; [set_solver|].
  case_bool_decide as Hc; [|done]. intros Hs%IH. cbn. set_solver.
Qed.
(** The loop that looks for a name ends, with a name the enum does not declare. *)
Theorem transport_param_fresh declared : ∃ n, transport_param_ident declared = Some n ∧ n ∉ declared.
Proof.
  unfold transport_param_ident. case_bool_decide as H1; [by exists "C"|]. case_bool_decide as H2; [by exists TRANSPORT_BASE|].
  destruct (fresh_suffix _ _ _) as [n|] eqn:Hf; [exists n; split; [done|by eapply fresh_suffix_fresh]|].
  apply fresh_suffix_stuck, subseteq_size in Hf. rewrite size_list_to_set, length_fmap, length_seq in Hf; [lia|].
  apply NoDup_fmap_2; [|apply NoDup_seq]. intros i j Hij%str_app_inv_head. by apply (inj pretty).
Qed.

(** ** Concrete topics *)

Definition m_room : Variant string :=
  mkVariant "RoomUpdates" (Some "/topic/{org}/room/{room}")
    (Named [mkField "room" "String" false; mkField "org" "OrgId" false; mkField "msg" "RoomMsg" true]).
Definition m_render (f : string) : string := if bool_decide (f = "org") then "acme" else "7".
Example topic_samples :
  parse_template "/t/{{x}}/{y}" = Ok [Literal "/t/{x}/"; Hole "y"] ∧ parse_template "/t/{y" = Err UnmatchedOpen ∧ parse_template "/t/{}" = Err EmptyHole ∧
  parse_template "/t/y}" = Err UnmatchedClose ∧
  result_map t_kind (parse_variant m_room) = Ok (Templated [("org", "OrgId"); ("room", "String")] "msg" "RoomMsg") ∧
  parse_variant (mkVariant "R" (Some "/t/{a}") (Named [mkField "b" "u8" false; mkField "m" "M" true])) = Err (UnusedField "b") ∧
  subscribe_method "RoomUpdates" = "subscribe_room_updates" ∧ transport_param_ident {["C"; "T"]} = Some TRANSPORT_BASE ∧
  parse_variants (Ty := string) [] = Err NoVariants ∧
  elements (lifetimes_in_type [TIdent "Cow"; TPunct "<"; TPunct "'"; TIdent "a"; TPunct ","; TGroup [TPunct "'"; TIdent "b"]]) = ["a"; "b"] ∧
  ts_type_name (Some "usize") = "number".
Proof. vm_compute. repeat split. Qed.
Lemma topic_contract_witness : ∃ t, parse_variant m_room = Ok t ∧ topic_destination t m_render = Some "/topic/acme/room/7" ∧
  subscribe_destination t ["acme"; "7"] = Some "/topic/acme/room/7".
Proof.
  eexists. split; [reflexivity|]. destruct (topic_contract m_room _ [("org", "OrgId"); ("room", "String")] "msg" "RoomMsg" m_render eq_refl eq_refl) as [H1 H2].
  split; [exact H1|]. etransitivity; [exact H2|exact H1].
Defined.
Lemma templated_variant_agrees_witness :
  ∃ kind, parse_templated_variant "R" ["a"] [mkField "a" "u8" false; mkField "m" "M" true] = Ok kind ∧ kind = Templated [("a", "u8")] "m" "M".
Proof.
  eexists. split; [reflexivity|].
  destruct (templated_variant_agrees "R" ["a"] [mkField "a" "u8" false; mkField "m" "M" true] _ eq_refl) as (params & c & ty & Hk & _). reflexivity.
Defined.

(** The destination of a static topic is the literal as it is written: its escaped
    braces stay doubled, which a struct variant with the same template turns into one. *)
Theorem static_braces_stay_doubled :
  ∃ t u, parse_variant (mkVariant "A" (Some "/t/{{x}}") (Unnamed ["M"])) = Ok t ∧
    parse_variant (mkVariant "B" (Some "/t/{{x}}") (Named [mkField "m" "M" true])) = Ok u ∧
    topic_destination t id = Some "/t/{{x}}" ∧ topic_destination u id = Some "/t/{x}".
Proof. do 2 eexists. repeat split; reflexivity. Qed.
(** A parameter is not confined to its segment: two rooms of two organisations can have
    one destination. *)
Theorem parameters_can_collide :
  ∃ t, parse_variant m_room = Ok t ∧ subscribe_destination t ["a/room/b"; "c"] = subscribe_destination t ["a"; "b/room/c"].
Proof. eexists. split; reflexivity. Qed.
