(* ===== verification/TopicBus.v ===== *)
(** * TopicBus: typed publication

    Models [crates/axum/src/ws/pubsub/topic_bus.rs] and [publisher.rs]: a value of a topic
    enum is encoded and published through the registry of [PubSub]; and composes it with
    the topics of [MacroTopics] and the endpoint of [StompServer].

    A topic value is its destination and what encoding it comes to. [emit] and
    [publish_to] answer an encoding error, or start a publication ([Fan]). *)
From stdpp Require Import relations.
From S2P Require Import Prelude PubSub WsHost StompServer StompFanout MacroTopics.

(** ** The bus *)

Section Bus.
Context {Body Frame CodecError : Type}.
(** [Topic], of one value. *)
Record TopicValue := mkTopicValue { tv_destination : string; tv_encode : result Body CodecError }.
Abbreviation Publication := (Fan (Body * Headers) Frame).
Definition DEFAULT_PUBLISH_FANOUT : nat := 16.
Definition publish_raw (destination : string) (body : Body) (r : SubscriptionRegistry) : Publication :=
  publish_frames destination (body, []) r.
Definition emit (topic : TopicValue) (r : SubscriptionRegistry) : result Publication CodecError :=
  match tv_encode topic with Err e => Err e | Ok body => Ok (publish_raw (tv_destination topic) body r) end.
Definition publish_to (n : nat) (topic : TopicValue) (r : SubscriptionRegistry) : result Publication CodecError :=
  match tv_encode topic with Err e => Err e | Ok body => Ok (deliver_frames n (tv_destination topic) (body, []) r) end.
Definition publish (topic : TopicValue) (r : SubscriptionRegistry) : result Publication CodecError := publish_to DEFAULT_PUBLISH_FANOUT topic r.
(** What [#[topics]] generates: the value of the variant [t] whose fields render to
    [render] and whose content is [content]. [None]: a hole without a field. *)
Definition topic_value {Ty Content : Type} (encode : Content → result Body CodecError) (t : TopicVariant Ty) (render : string → string) (content : Content) : option TopicValue :=
  d ← topic_destination t render; Some (mkTopicValue d (encode content)).
End Bus.
Arguments TopicValue : clear implicits.

(** ** A topic and its subscribers *)

Section Subscribers.
Context {Version Ty Content CodecError : Type}.
#[local] Abbreviation Conn := (@Conn Version).
#[local] Abbreviation World := (@World Version).
#[local] Abbreviation OutFrame := (@OutFrame Version).
Implicit Types (s : World) (c : Conn) (p : StompBody * Headers) (r : SubscriptionRegistry).

Lemma deliveries_length h i d p ts : length (deliveries (Version := Version) h i d p ts) = length (filter (λ t, t.2 = h) ts).
Proof. rewrite <- (length_fmap fst), <- (deliveries_subscriptions (Version := Version) h i d p), length_fmap. done. Qed.
Lemma deliveries_elem h i d p ts sub : (sub, h) ∈ ts → ∃ j, build_message (Version := Version) j d sub p ∈ deliveries h i d p ts.
Proof.
  revert i. induction ts as [|[sub' t] ts IH]; intros i; [by intros ?%not_elem_of_nil|]. intros [[= <- <-]|Hin]%elem_of_cons; cbn.
  - exists i. rewrite Nat.eqb_refl. apply elem_of_app. left. by apply list_elem_of_singleton.
  - destruct (IH (id_next i) Hin) as [j Hj]. exists j. apply elem_of_app. by right.
Qed.
Lemma deliveries_other h i d p ts : (∀ sub, (sub, h) ∉ ts) → deliveries (Version := Version) h i d p ts = [].
Proof.
  revert i. induction ts as [|[sub t] ts IH]; intros i Hn; [done|]. cbn. destruct (Nat.eqb_spec t h) as [->|]; [by destruct (Hn sub); left|].
  apply IH. intros sub' Hin. apply (Hn sub'). by right.
Qed.
(** who subscribes to a topic is sent its values. When a value of a topic is emitted and
    the publication has run, a connection that subscribed with the generated method, with
    the values of the fields as arguments, has in its queue, under its subscription, a
    message whose body its codec decodes to the content that was published, if there was
    room for its messages; a connection that did not subscribe to that destination is as
    it was; and a content that cannot be encoded is the emitter's error. *)
Theorem emitted_topic_reaches_its_subscribers (v : Variant Ty) t params field ty render
    (encode : Content → result StompBody CodecError) (decode : StompBody → result Content CodecError) content s :
  (∀ x b, encode x = Ok b → decode b = Ok x) → parse_variant v = Ok t → t_kind t = Templated params field ty →
  ∃ topic d, topic_value encode t render content = Some topic ∧ subscribe_destination t (render <$> params.*1) = Some d ∧
  match encode content with
  | Err e => emit (Frame := OutFrame) topic (broker s) = Err e
  | Ok body => ∃ f, emit topic (broker s) = Ok f ∧
      let r := fan_run (length (f_rest f)) f s in
      fan_done r.1 = true ∧ length (conns r.2) = length (conns s) ∧
      ∀ h c, conns s !! h = Some c →
        ((∀ e, subscribed (broker s) d e → tx e ≠ h) → conns r.2 !! h = Some c) ∧
        (∀ k sub, subscribed (broker s) d (mkSub k sub h) → receiver_gone c = false →
          (length (chan c) + length (filter (λ x, x.2 = h) (targets d (broker s))) ≤ OUTBOUND_BUFFER)%nat →
          ∃ c' i, conns r.2 !! h = Some c' ∧ build_message i d sub (body, []) ∈ chan c' ∧ decode body = Ok content)
  end.
Proof.
  intros Hlaw Hv Hk. destruct (topic_contract v t params field ty render Hv Hk) as [Hd Hs].
  eexists (mkTopicValue _ (encode content)), _. unfold topic_value. rewrite Hs, Hd. split; [done|]. split; [done|].
  unfold emit. cbn [tv_encode tv_destination]. destruct (encode content) as [body|e] eqn:He; [|done].
  eexists. split; [done|]. unfold publish_raw, publish_frames. cbn [f_rest].
  set (d := filled render (t_segments t)). cbn zeta.
  destruct (fan_run_all d (body, []) (targets d (broker s)) [] s) as (s' & -> & _ & Hc). cbn [fst snd]. split; [done|]. rewrite Hc.
  split; [apply length_imap|]. intros h c Hh. rewrite list_lookup_imap, Hh. cbn [fmap option_fmap option_map]. split.
  - intros Hno. rewrite deliveries_other; [by rewrite receive_nil|]. intros sub (e & He' & _ & Ht)%elem_of_targets. by destruct (Hno e He').
  - intros k sub Hsub Hgone Hroom. destruct (deliveries_elem h (next_message (broker s)) d (body, []) (targets d (broker s)) sub) as [j Hj].
    { apply elem_of_targets. by exists (mkSub k sub h). }
    eexists _, j. split; [done|]. split; [|by apply Hlaw]. unfold receive_all. cbn [chan set_out]. rewrite Hgone.
    rewrite take_ge by (rewrite deliveries_length; lia). apply elem_of_app. by right.
Qed.

(** ** Publishing with backpressure *)

(** The moves of a publication with [deliver_frames], and a log of the sends that are
    over: whether each was committed to a queue, or its receiver was gone. Whatever else
    happens to the world happens in between. *)
#[local] Abbreviation Broadcast := (Fan (StompBody * Headers) OutFrame).
#[local] Abbreviation Log := (list (nat * OutFrame * bool)).
Definition gone (t : nat) s : bool := match conns s !! t with Some c => receiver_gone c | None => true end.
Inductive deliver_step : Broadcast * World * Log → Broadcast * World * Log → Prop :=
| DeliverNext f s log f' s' : fan_step f s = Some (f', s') → deliver_step (f, s, log) (f', s', log)
| DeliverSent f s log i t frame s' : f_started f !! i = Some (t, frame) → send_wait t frame s = Some s' →
    deliver_step (f, s, log) (fan_finish i f, s', log ++ [(t, frame, negb (gone t s))])
| DeliverOther f s log s' : deliver_step (f, s, log) (f, s', log).
Definition message_for d p (sent : nat * OutFrame) (target : string * nat) : Prop :=
  sent.1 = target.2 ∧ ∃ i, sent.2 = build_message i d target.1 p.
(** What a send that is over did. *)
Lemma send_wait_commits t frame s s' : send_wait t frame s = Some s' → gone t s = false → ∃ c, conns s' !! t = Some c ∧ last (chan c) = Some frame.
Proof.
  unfold send_wait, gone. destruct (conns s !! t) as [c|] eqn:Hc; cbn [mbind option_bind]; [|done]. intros Hs Hg. rewrite Hg in Hs.
  destruct (has_room c); [|done]. injection Hs as <-. exists (push frame c). cbn. by rewrite list_lookup_alter_eq, Hc, last_snoc.
Qed.
Record delivering (n : nat) d p (ts : list (string * nat)) (f : Broadcast) (log : Log) : Prop := {
  dl_fan : f_dest f = d ∧ f_payload f = p ∧ f_limit f = Some n;
  dl_bound : (length (f_started f) ≤ n)%nat;
  dl_targets : ∃ started over, Forall2 (message_for d p) (f_started f) started ∧ Forall2 (message_for d p) (log.*1) over ∧
    over ++ started ++ f_rest f ≡ₚ ts }.
Lemma Forall2_delete {A B} (P : A → B → Prop) l k i : Forall2 P l k → Forall2 P (delete i l) (delete i k).
Proof. intros HP. revert i. induction HP; intros [|i]; cbn; try constructor; auto. Qed.
Lemma deliver_step_keeps n d p ts f s log f' s' log' :
  deliver_step (f, s, log) (f', s', log') → delivering n d p ts f log → delivering n d p ts f' log'.
Proof.
  intros Hstep [(Hd & Hp & Hn) Hb (started & over & Hst & Hov & Hperm)]. inversion Hstep as [f0 s0 log0 f1 s1 Hfan|f0 s0 log0 i t frame s1 Hi Hsend|]; simplify_eq; [| |by split; eauto 10].
  - unfold fan_step, fan_next in Hfan. rewrite Hn in Hfan. destruct (f_rest f) as [|[sub t] rest] eqn:Hr in Hfan; cbn -[Nat.ltb] in Hfan; [done|]. rewrite Hr in Hperm.
    destruct (length (f_started f) <? n)%nat eqn:Hlt in Hfan; cbn in Hfan; [|done]. injection Hfan as <- <-. apply Nat.ltb_lt in Hlt. split; cbn; [done|rewrite length_app; cbn; lia|].
    exists (started ++ [(sub, t)]), over. split; [apply Forall2_app; [done|constructor; [|done]]|split; [done|]].
    + split; [done|]. by eexists.
    + rewrite <- Hperm. by rewrite <- app_assoc.
  - destruct (Forall2_lookup_l _ _ _ _ _ Hst Hi) as (target & Htarget & Hmsg). split; cbn; [done|rewrite length_delete by eauto; lia|].
    exists (delete i started), (over ++ [target]). split; [by apply Forall2_delete|]. rewrite fmap_app. split; [apply Forall2_app; [done|constructor; [exact Hmsg|constructor]]|].
    rewrite <- Hperm, <- app_assoc. apply Permutation_app_head. cbn. rewrite app_comm_cons. apply Permutation_app_tail.
    by rewrite <- (delete_Permutation started i target).
Qed.
Lemma fan_next_some f s sub t rest n : f_rest f = (sub, t) :: rest → f_limit f = Some n → (length (f_started f) <? n)%nat = true →
  ∃ s', fan_step f s = Some (mkFan (f_dest f) (f_payload f) rest (f_started f ++ [(t, build_message (next_message (broker s)) (f_dest f) sub (f_payload f))]) (Some n), s').
Proof. intros Hr Hn Hlt. eexists. unfold fan_step, fan_next. rewrite Hr, Hn. cbn -[Nat.ltb]. by rewrite Hlt. Qed.
Lemma delivering_run n d p ts f s log f' s' log' :
  rtc deliver_step (f, s, log) (f', s', log') → delivering n d p ts f log → delivering n d p ts f' log'.
Proof.
  remember (f, s, log) as x eqn:Hx. remember (f', s', log') as y eqn:Hy. intros Hrun. revert f s log Hx.
  induction Hrun as [z|z [[f1 s1] log1] z' Hstep _ IH]; intros f s log ->; [by simplify_eq|].
  intros Hd. eapply (IH Hy); [done|]. by eapply deliver_step_keeps.
Qed.
(** What is left of a publication: a subscriber to come counts for the start and the end
    of its send. *)
Definition left_over (f : Broadcast) : nat := 2 * length (f_rest f) + length (f_started f).
(** a publication with backpressure loses nothing. Whatever happens to the world meanwhile,
    a publication never has more sends under way than it was told to (one, if told none);
    when it resolves there has been exactly one send for each subscription its destination
    had when it began, with its message for that subscription, and each was put into the
    queue of its connection unless the receiver was gone; and while no subscriber's queue
    is full a publication that has not resolved can go on, and ends. *)
Theorem publish_commits_to_every_subscriber n (topic : TopicValue StompBody CodecError) body s0 f s log :
  tv_encode topic = Ok body →
  (∀ f0, publish_to n topic (broker s0) = Ok f0 → rtc deliver_step (f0, s0, []) (f, s, log)) →
  (length (f_started f) ≤ Nat.max n 1)%nat ∧
  (fan_done f = true → ∃ ts, ts ≡ₚ targets (tv_destination topic) (broker s0) ∧ Forall2 (message_for (tv_destination topic) (body, [])) (log.*1) ts) ∧
  (fan_done f = false → (∀ t c, conns s !! t = Some c → receiver_gone c = true ∨ has_room c = true) → (∀ x, x ∈ f_started f → is_Some (conns s !! x.1)) →
   ∃ f' s' log', deliver_step (f, s, log) (f', s', log') ∧ (left_over f' < left_over f)%nat).
Proof.
  intros He Hrun. unfold publish_to in Hrun. rewrite He in Hrun. specialize (Hrun _ eq_refl).
  assert (Hinv : delivering (Nat.max n 1) (tv_destination topic) (body, []) (targets (tv_destination topic) (broker s0)) f log).
  { apply (delivering_run _ _ _ _ _ _ _ _ _ _ Hrun). split; cbn; [done|lia|]. exists [], []. by repeat constructor. }
  destruct Hinv as [(Hd & Hp & Hn) Hb (started & over & Hst & Hov & Hperm)]. split; [done|]. split.
  - unfold fan_done. intros Hdone. destruct (f_rest f); [|done]. destruct (f_started f); [|done]. apply Forall2_nil_inv_l in Hst as ->.
    exists over. cbn in Hperm. by rewrite app_nil_r in Hperm.
  - intros Hdone Hroom Hconn. destruct (f_started f) as [|[t frame] rest] eqn:Hs.
    + destruct (f_rest f) as [|[sub t] rest] eqn:Hr; [unfold fan_done in Hdone; by rewrite Hr, Hs in Hdone|].
      assert (Hlt : (0 <? Nat.max n 1)%nat = true) by (apply Nat.ltb_lt; lia).
      destruct (fan_next_some f s sub t rest (Nat.max n 1) Hr Hn) as [s' Hnext]; [by rewrite Hs|].
      do 3 eexists. split; [by apply DeliverNext|].
      unfold left_over. rewrite Hr, Hs. cbn. lia.
    + destruct (Hconn (t, frame)) as [c Hc]; [left|]. cbn in Hc. assert (Hw : ∃ s', send_wait t frame s = Some s').
      { unfold send_wait. rewrite Hc. cbn [mbind option_bind]. destruct (receiver_gone c) eqn:Hg; [by eexists|]. destruct (Hroom t c Hc) as [?| ->]; [congruence|by eexists]. }
      destruct Hw as [s' Hw]. do 3 eexists. split; [apply (DeliverSent f s log 0); [by rewrite Hs|exact Hw]|].
      unfold left_over, fan_finish. cbn. rewrite Hs. cbn. lia.
Qed.
End Subscribers.

(** ** A chat *)

Definition tb_conn : @Conn unit := mkConn PLoop 1 None (WsIdle_new None 0) [] WIdle [] [] [].
Definition tb_world : @World unit :=
  mkWorld (subscribe 1 "sub-0" "/topic/acme/room/7" 0 Registry_new) [tb_conn; tb_conn] [] false.
Definition tb_encode (x : string) : result StompBody string := if bool_decide (x = "bad") then Err "bad" else Ok (mkBody (Some "text/plain") x).
Definition tb_decode (b : StompBody) : result string string := Ok (body_bytes b).
Definition tb_topic (x : string) : option (TopicValue StompBody string) :=
  match parse_variant m_room with Ok t => topic_value tb_encode t m_render x | Err _ => None end.
Example topic_is_emitted :
  tb_topic "hi" = Some (mkTopicValue "/topic/acme/room/7" (Ok (mkBody (Some "text/plain") "hi"))) ∧
  (topic ← tb_topic "bad"; Some (emit (Frame := OutFrame (Version := unit)) topic (broker tb_world))) = Some (Err "bad").
Proof. vm_compute. done. Qed.
Lemma emitted_topic_reaches_its_subscribers_witness :
  ∃ topic f, tb_topic "hi" = Some topic ∧ emit topic (broker tb_world) = Ok f ∧
    let r := fan_run (length (f_rest f)) f tb_world in
    conns r.2 !! 1%nat = Some tb_conn ∧ ∃ c i, conns r.2 !! 0%nat = Some c ∧
      build_message i "/topic/acme/room/7" "sub-0" (mkBody (Some "text/plain") "hi", []) ∈ chan c.
Proof.
  destruct (parse_variant m_room) as [t|e] eqn:Ht; [|discriminate Ht].
  assert (Hk : t_kind t = Templated [("org", "OrgId"); ("room", "String")] "msg" "RoomMsg") by (vm_compute in Ht; injection Ht as <-; reflexivity).
  assert (Hd : subscribe_destination t (m_render <$> ["org"; "room"]) = Some "/topic/acme/room/7") by (vm_compute in Ht; injection Ht as <-; reflexivity).
  destruct (emitted_topic_reaches_its_subscribers m_room t [("org", "OrgId"); ("room", "String")] "msg" "RoomMsg" m_render tb_encode tb_decode "hi" tb_world) as (topic & d & Htopic & Hs & f & Hf & _ & _ & Hall).
  - unfold tb_encode. intros x b. case_bool_decide; [done|]. by intros [= <-].
  - exact Ht.
  - exact Hk.
  - assert (Hsd : Some "/topic/acme/room/7" = Some d) by (rewrite <- Hd; exact Hs). injection Hsd as <-. exists topic, f. split; [unfold tb_topic; rewrite Ht; exact Htopic|]. split; [exact Hf|]. split.
    + apply (Hall 1%nat tb_conn eq_refl). intros e He. unfold subscribed in He. vm_compute in He. apply list_elem_of_singleton in He as ->. discriminate.
    + destruct (Hall 0%nat tb_conn eq_refl) as [_ H0]. destruct (H0 1 "sub-0") as (c & i & Hc & Hin & _); [by left|done|vm_compute; lia|]. by exists c, i.
Defined.
Lemma publish_commits_to_every_subscriber_witness :
  let topic := mkTopicValue (CodecError := string) "/topic/acme/room/7" (Ok (mkBody None "hi")) in
  ∃ ts, ts ≡ₚ [("sub-0", 0%nat)] ∧
    Forall2 (message_for (Version := unit) "/topic/acme/room/7" (mkBody None "hi", [])) [(0%nat, build_message 1 "/topic/acme/room/7" "sub-0" (mkBody None "hi", []))] ts.
Proof.
  cbn zeta.
  destruct (publish_commits_to_every_subscriber (Version := unit) 0 (mkTopicValue (CodecError := string) "/topic/acme/room/7" (Ok (mkBody None "hi"))) (mkBody None "hi") tb_world
    (mkFan "/topic/acme/room/7" (mkBody None "hi", []) [] [] (Some 1%nat))
    (upd 0 (push (build_message 1 "/topic/acme/room/7" "sub-0" (mkBody None "hi", []))) (set_broker (next_message_id (broker tb_world)).2 tb_world))
    [(0%nat, build_message 1 "/topic/acme/room/7" "sub-0" (mkBody None "hi", []), true)] eq_refl) as (_ & Hdone & _).
  - intros f0 [= <-]. eapply rtc_l; [by apply DeliverNext|]. eapply rtc_l; [|reflexivity].
    refine (DeliverSent _ _ [] 0 0 (build_message 1 "/topic/acme/room/7" "sub-0" (mkBody None "hi", [])) _ _ _); reflexivity.
  - exact (Hdone eq_refl).
Defined.
