(* ===== verification/MacroSyn.v ===== *)
(** * MacroSyn: what the macros read of a type

    Models the readers of [crates/macros-core/src/attr.rs] that the protocol macros
    share, and the tokens their attributes are parsed from. [syn]'s types are not the repository's: a type is opaque, and an instance of
    [SynType] says what matching on it shows, one level at a time. *)
From S2P Require Import Prelude MacroTopics.

Section View.
Context {Ty : Type}.
(** [GenericArgument], [PathSegment], [TypeParamBound] and [Type]. The arguments of a
    segment are those in angle brackets; [None] stands for the other forms. A plain
    path has no self type and no leading colons. *)
Inductive GenericArgument := ArgType (t : Ty) | ArgAssoc (name : string) (t : Ty) | ArgOther.
Record PathSegment := mkSeg { seg_ident : string; seg_args : option (list GenericArgument) }.
Inductive Bound := BoundTrait (segments : list PathSegment) | BoundOther.
Inductive TypeView :=
| VPath (plain : bool) (segments : list PathSegment)
| VImplTrait (bounds : list Bound)
| VTraitObject
| VReference
| VTuple (elems : list Ty)
| VOther.
End View.
Arguments GenericArgument : clear implicits.
Arguments PathSegment : clear implicits.
Arguments Bound : clear implicits.
Arguments TypeView : clear implicits.
(** [unit_type] is [parse_quote!(())]; [stream_item_of S] is [<S as Stream>::Item]. *)
Class SynType (Ty : Type) := { view : Ty → TypeView Ty; unit_type : Ty; stream_item_of : Ty → Ty }.

Section Readers.
Context {Ty : Type} `{SynType Ty}.

(** [type_name] *)
Definition last_segment (t : Ty) : option (PathSegment Ty) := match view t with VPath _ segments => last segments | _ => None end.
Definition type_name (t : Ty) : option string := seg_ident <$> last_segment t.
Definition named (name : string) (s : PathSegment Ty) : option (PathSegment Ty) := if bool_decide (seg_ident s = name) then Some s else None.
(** [first_type_arg]; the readers of [Option], [Vec], [Dynamic], [Lazy], [Fresh],
    [Deferred], [Cfg], [Payload] and [Streaming] are this one. *)
Definition first_type_arg (t : Ty) (name : string) : option Ty :=
  s ← last_segment t; s ← named name s; args ← seg_args s;
  match args with ArgType inner :: _ => Some inner | _ => None end.
(** [peel_named] *)
Definition peel_named (t : Ty) (name : string) : Ty := from_option (λ x, x) t (first_type_arg t name).
Definition type_args (args : list (GenericArgument Ty)) : list Ty := omap (λ a, match a with ArgType t => Some t | _ => None end) args.
(** [hashmap_value] *)
Definition hashmap_value (t : Ty) : option Ty :=
  s ← last_segment t; s ← named "HashMap" s; args ← seg_args s;
  match type_args args with
  | key :: value :: _ => if bool_decide (type_name key = Some "String") then Some value else None
  | _ => None
  end.
(** [arc_inner_type] *)
Definition arc_inner_type (t : Ty) : option Ty := first_type_arg t "Arc".
(** [ReturnType]: [None] is the default. [returns_result], [result_type_args],
    [returns_response_stream] and [response_body_type]. *)
Definition ReturnType : Type := option Ty.
Definition returns_result (output : ReturnType) : bool :=
  match output with Some t => bool_decide (type_name t = Some "Result") | None => false end.
Definition result_args (t : Ty) : option (list Ty) := s ← last_segment t; s ← named "Result" s; args ← seg_args s; Some (type_args args).
Definition result_type_args (output : ReturnType) : option (Ty * option Ty) :=
  t ← output; args ← result_args t;
  match args with [] => None | [ok] => Some (ok, None) | ok :: err :: _ => Some (ok, Some err) end.
Definition returns_response_stream (output : ReturnType) : bool :=
  match output with Some t => bool_decide (type_name (peel_named t "Result") = Some "ResponseStream") | None => false end.
Definition response_body_type (output : ReturnType) : Ty :=
  match output with None => unit_type | Some t => peel_named (peel_named t "Result") "ResponseStream" end.
(** [is_streaming_param] and [is_payload_param] *)
Definition is_streaming_param (t : Ty) : bool := bool_decide (type_name t = Some "Streaming").
Definition is_payload_param (t : Ty) : bool := bool_decide (type_name t = Some "Payload").

(** ** Streams *)

Record StreamShape := mkShape { item : Ty; error : option Ty }.
Definition fallible (s : StreamShape) : bool := match error s with Some _ => true | None => false end.
(** The type parameters with their bounds, and the predicates of the [where] clause. *)
Record Generics := mkGenerics { type_params : list (string * list (Bound Ty)); where_clause : list (Ty * list (Bound Ty)) }.
(** [result_args_of_type] *)
Definition result_args_of_type (t : Ty) : option (Ty * Ty) :=
  args ← result_args t; match args with ok :: err :: _ => Some (ok, err) | _ => None end.
(** [shape_from_item] *)
Definition shape_from_item (t : Ty) : StreamShape :=
  match result_args_of_type t with Some (ok, err) => mkShape ok (Some err) | None => mkShape t None end.
Fixpoint first_some {A B} (f : A → option B) (l : list A) : option B :=
  match l with [] => None | x :: l' => match f x with Some y => Some y | None => first_some f l' end end.
(** [stream_item_of_bound] and [stream_item_in_bounds] *)
Definition stream_item_of_bound (segments : list (PathSegment Ty)) : option Ty :=
  s ← last segments; s ← named "Stream" s; args ← seg_args s;
  first_some (λ a, match a with ArgAssoc name t => if bool_decide (name = "Item") then Some t else None | _ => None end) args.
Definition stream_item_in_bounds (bounds : list (Bound Ty)) : option Ty :=
  first_some (λ b, match b with BoundTrait segments => stream_item_of_bound segments | BoundOther => None end) bounds.
(** [generic_stream_item] *)
Definition generic_stream_item (name : string) (g : Generics) : option Ty :=
  match first_some (λ p, if bool_decide (p.1 = name) then stream_item_in_bounds p.2 else None) (type_params g) with
  | Some t => Some t
  | None => first_some (λ p, if bool_decide (type_name p.1 = Some name) then stream_item_in_bounds p.2 else None) (where_clause g)
  end.
(** [stream_shape]; a path is an identifier when it is one segment without arguments. *)
Definition stream_shape (t : Ty) (g : Generics) : option StreamShape :=
  found ← match view t with
          | VImplTrait bounds => stream_item_in_bounds bounds
          | VPath true [s] => match seg_args s with None => generic_stream_item (seg_ident s) g | Some _ => None end
          | _ => None
          end;
  Some (shape_from_item found).
End Readers.
Arguments StreamShape : clear implicits.
Arguments Generics : clear implicits.

(** [str::to_lowercase], on ASCII. *)
Fixpoint to_lowercase (s : string) : string :=
  match s with "" => "" | String c s' => String (if is_upper c then lower_ascii c else c) (to_lowercase s') end.

(** ** Tokens *)

(** What an attribute is read from. [KIdent] is an identifier and no keyword, which
    [syn] does not read as one. *)
Inductive Token :=
| KIdent (name : string) | KStr (text : string) | KBool (b : bool) | KComma | KEq | KAs | KColon | KBracket (content : list Token) | KBrace (content : list Token) | KOther (text : string).
Definition Parser (E A : Type) : Type := list Token → result (A * list Token) E.
Section Lists.
Context {E A : Type} (syntax : E) (parse : Parser E A).
(** [Punctuated::parse_terminated]: a trailing comma is allowed. *)
Fixpoint parse_terminated (fuel : nat) (ts : list Token) : result (list A) E :=
  match fuel, ts with
  | _, [] => Ok []
  | O, _ => Err syntax
  | S fuel', _ =>
      match parse ts with
      | Err e => Err e
      | Ok (p, []) => Ok [p]
      | Ok (p, KComma :: ts') => result_map (cons p) (parse_terminated fuel' ts')
      | Ok (p, _) => Err syntax
      end
  end.
Definition terminated (content : list Token) : result (list A) E := parse_terminated (S (length content)) content.

(** A parser reads what is printed, up to the end or a comma. *)
Definition follows (rest : list Token) : Prop := rest = [] ∨ ∃ r, rest = KComma :: r.
Definition reads (print : A → list Token) (x : A) : Prop :=
  print x ≠ [] ∧ ∀ rest, follows rest → parse (print x ++ rest) = Ok (x, rest).
Fixpoint print_list (print : A → list Token) (xs : list A) (trailing : bool) : list Token :=
  match xs with
  | [] => []
  | [x] => print x ++ (if trailing then [KComma] else [])
  | x :: xs' => print x ++ KComma :: print_list print xs' trailing
  end.
Lemma parse_terminated_step print fuel x rest : reads print x → follows rest →
  parse_terminated (S fuel) (print x ++ rest) =
  match rest with KComma :: ts' => result_map (cons x) (parse_terminated fuel ts') | _ => Ok [x] end.
Proof.
  intros [Hne Hp] Hr. cbn [parse_terminated]. destruct (print x ++ rest) as [|t ts] eqn:He; [by apply app_eq_nil in He as [? _]|].
  rewrite <- He, Hp by done. destruct Hr as [-> | [r ->]]; done.
Qed.
Lemma parse_print_list print xs trailing fuel : Forall (reads print) xs → (length (print_list print xs trailing) < fuel)%nat →
  parse_terminated fuel (print_list print xs trailing) = Ok xs.
Proof.
  intros Hxs. revert fuel. induction Hxs as [|x xs Hx Hxs IH]; intros fuel Hf; [by destruct fuel|]. destruct fuel as [|fuel]; [lia|].
  assert (Hlen : (0 < length (print x))%nat). { destruct Hx as [Hne _]. destruct (print x); [done|cbn; lia]. }
  destruct xs as [|y xs]; [destruct trailing|]; cbn [print_list] in *.
  - rewrite (parse_terminated_step print) by (done || right; by eexists). by destruct fuel.
  - rewrite (parse_terminated_step print) by (done || by left). done.
  - rewrite (parse_terminated_step print) by (done || right; by eexists). rewrite IH; [done|]. rewrite length_app in Hf. cbn [length] in Hf. lia.
Qed.
Lemma terminated_print print xs trailing : Forall (reads print) xs → terminated (print_list print xs trailing) = Ok xs.
Proof. intros Hxs. apply parse_print_list; [done|lia]. Qed.
Lemma parse_terminated_Forall (P : A → Prop) fuel ts xs : (∀ ts x ts', parse ts = Ok (x, ts') → P x) → parse_terminated fuel ts = Ok xs → Forall P xs.
Proof.
  intros HP. revert ts xs. induction fuel as [|fuel IH]; intros [|t ts] xs; cbn [parse_terminated]; try by intros [= <-].
  destruct (parse (t :: ts)) as [[x [|[] ts']]|e] eqn:Hp; try done; apply HP in Hp; [by intros [= <-]; constructor|].
  destruct (parse_terminated fuel ts') as [l|e] eqn:Hl; [|done]. intros [= <-]. constructor; [done|by eapply IH].
Qed.
Lemma terminated_Forall (P : A → Prop) content xs : (∀ ts x ts', parse ts = Ok (x, ts') → P x) → terminated content = Ok xs → Forall P xs.
Proof. apply parse_terminated_Forall. Qed.
End Lists.

(** ** What they agree on *)

Section Agreement.
Context {Ty : Type} `{SynType Ty}.

Lemma first_type_arg_named (t : Ty) name inner : first_type_arg t name = Some inner → type_name t = Some name.
Proof.
  unfold first_type_arg, type_name, named. destruct (last_segment t) as [s|]; [|done]. cbn. case_bool_decide as Hn; [|done]. by rewrite <- Hn.
Qed.
(** A type is wrapped in at most one of two names. *)
Lemma first_type_arg_exclusive (t : Ty) a b x : a ≠ b → first_type_arg t a = Some x → first_type_arg t b = None.
Proof.
  intros Hne Ha%first_type_arg_named. destruct (first_type_arg t b) as [y|] eqn:Hb; [|done]. apply first_type_arg_named in Hb. congruence.
Qed.
(** A return that streams is a [Result] only if the stream is inside it. *)
Lemma result_args_returns (t : Ty) r : result_type_args (Some t) = Some r → returns_result (Some t) = true.
Proof.
  unfold result_type_args, result_args, returns_result, type_name, named. cbn. destruct (last_segment t) as [s|]; [|done]. cbn.
  case_bool_decide as Hn; [|done]. intros _. by rewrite bool_decide_true by by rewrite Hn.
Qed.
End Agreement.
