(* ===== verification/MacroRoutes.v ===== *)
(** * MacroRoutes: route attributes and the clients generated for them

    Models [crates/axum-macros/src/route.rs] and, of [client.rs] of the same crate, the
    classification of a handler's arguments and return, the parameters of the generated
    method and the URI it builds.

    - An attribute is the list of its tokens; a [syn] path among them is read by an
      argument, [parse_path].
    - The generated URI expression is modelled by the string it evaluates to: [format!]
      of the template's format string, with every hole's value encoded by
      [encode_path_segment] of [HttpBody]. *)
From S2P Require Import Prelude MacroSyn MacroTopics HttpBody.

(** ** Route attributes *)

Section Attributes.
Context {Path : Type}.
Inductive RouteError := Syntax | UnknownFlag (name : string) | UnsupportedMethod (name : string) | UnknownMessageFlag (name : string).
Context (parse_path : Parser RouteError Path).

Definition parse_ident : Parser RouteError string := λ ts, match ts with KIdent n :: ts' => Ok (n, ts') | _ => Err Syntax end.
Definition parse_str : Parser RouteError string := λ ts, match ts with KStr s :: ts' => Ok (s, ts') | _ => Err Syntax end.
Definition parse_comma : Parser RouteError unit := λ ts, match ts with KComma :: ts' => Ok (tt, ts') | _ => Err Syntax end.
(** [parse_modifiers], on all the tokens that are left. *)
Fixpoint parse_modifiers (fuel : nat) (streamed : bool) (middleware : list Path) (ts : list Token) : result (bool * list Path) RouteError :=
  match fuel with
  | O => Err Syntax
  | S fuel' =>
      let next streamed middleware ts :=
        match ts with
        | [] => Ok (streamed, middleware)
        | KComma :: ts' => parse_modifiers fuel' streamed middleware ts'
        | _ => Err Syntax
        end in
      match ts with
      | KIdent n :: ts' =>
          if bool_decide (n = "streamed") then next true middleware ts'
          else if bool_decide (n = "middleware") then
            match ts' with
            | KEq :: KBracket content :: ts'' =>
                match terminated Syntax parse_path content with Err e => Err e | Ok ps => next streamed ps ts'' end
            | _ => Err Syntax
            end
          else Err (UnknownFlag n)
      | _ => Err Syntax
      end
  end.
Definition modifiers (ts : list Token) : result (bool * list Path) RouteError := parse_modifiers (S (length ts)) false [] ts.
(** [parse_trailing_modifiers] *)
Definition parse_trailing_modifiers (ts : list Token) : result (bool * list Path) RouteError :=
  match ts with
  | [] => Ok (false, [])
  | KComma :: ts' => modifiers ts'
  | _ => Err Syntax
  end.

Record RouteAttr := mkRoute { verb : string; route_path : string; streamed : bool; middleware : list Path }.
Definition VERBS : list string := ["get"; "post"; "put"; "delete"; "patch"; "head"; "options"].
Definition ROUTE_ATTRS : list string := VERBS ++ ["route"].
(** The path of an attribute, when it is one identifier, and its tokens, when it has any. *)
Record Attribute := mkAttr { attr_ident : option string; attr_args : option (list Token) }.
Definition is_route_attr (a : Attribute) : bool := match attr_ident a with Some n => bool_decide (n ∈ ROUTE_ATTRS) | None => false end.
(** [normalize_verb] *)
Definition normalize_verb (method : string) : result string RouteError :=
  if bool_decide (to_lowercase method ∈ VERBS) then Ok (to_lowercase method) else Err (UnsupportedMethod method).
(** [RouteArgs], then [normalize_verb]. *)
Definition parse_route_args (ts : list Token) : result RouteAttr RouteError :=
  match ts with
  | KIdent method :: KComma :: KStr path :: ts' =>
      match parse_trailing_modifiers ts' with
      | Err e => Err e
      | Ok (st, mw) => match normalize_verb method with Err e => Err e | Ok v => Ok (mkRoute v path st mw) end
      end
  | _ => Err Syntax
  end.
(** [ShorthandArgs] *)
Definition parse_shorthand_args (verb : string) (ts : list Token) : result RouteAttr RouteError :=
  match ts with
  | KIdent _ :: _ => result_map (λ m, mkRoute verb "" m.1 m.2) (modifiers ts)
  | KStr path :: ts' => result_map (λ m, mkRoute verb path m.1 m.2) (parse_trailing_modifiers ts')
  | _ => Err Syntax
  end.
(** [parse_route_attr] *)
Definition parse_route_attr (a : Attribute) : result RouteAttr RouteError :=
  let name := from_option (λ n, n) "" (attr_ident a) in
  if bool_decide (name = "route") then match attr_args a with Some ts => parse_route_args ts | None => Err Syntax end
  else match attr_args a with None => Ok (mkRoute name "" false []) | Some ts => parse_shorthand_args name ts end.

(** [MessageArgs] *)
Inductive MessageMode := Infer | Send | Request.
Definition parse_message_attr (ts : list Token) : result (string * MessageMode) RouteError :=
  match ts with
  | [KStr destination] => Ok (destination, Infer)
  | [KStr destination; KComma; KIdent k] =>
      if bool_decide (k = "send") then Ok (destination, Send)
      else if bool_decide (k = "request") then Ok (destination, Request)
      else Err (UnknownMessageFlag k)
  | KStr _ :: KComma :: KIdent k :: _ => if bool_decide (k ∈ ["send"; "request"]) then Err Syntax else Err (UnknownMessageFlag k)
  | _ => Err Syntax
  end.
End Attributes.
Arguments RouteAttr : clear implicits.

(** ** What a handler's arguments are on the wire *)

Section Classify.
Context {Ty : Type} `{SynType Ty}.
Inductive QueryInput := QTyped (t : Ty) | QRaw.
Inductive BodyKind := BJson | BForm | BBytes | BRawForm | BMultipart.
Record Body := mkBody { b_kind : BodyKind; b_inner : option Ty }.
Record Inputs := mkInputs { path_ty : option Ty; query : option QueryInput; in_body : option Body }.
Definition UNSUPPORTED_WIRE : list string := ["Request"; "RawRequest"].
Definition set_body (i : Inputs) (b : Body) : option Inputs :=
  match in_body i with Some _ => None | None => Some (mkInputs (path_ty i) (query i) (Some b)) end.
Definition set_query (i : Inputs) (q : QueryInput) : option Inputs :=
  match query i with Some _ => None | None => Some (mkInputs (path_ty i) (Some q) (in_body i)) end.
Definition set_path (i : Inputs) (t : Ty) : option Inputs :=
  match path_ty i with Some _ => None | None => Some (mkInputs (Some t) (query i) (in_body i)) end.
(** One turn of the loop of [classify]. *)
Definition classify_one (i : Inputs) (t : Ty) : option Inputs :=
  match first_type_arg t "Path" with
  | Some inner => set_path i inner
  | None =>
  match first_type_arg t "Query" with
  | Some inner => set_query i (QTyped inner)
  | None =>
  match first_type_arg t "Json" with
  | Some inner => set_body i (mkBody BJson (Some inner))
  | None =>
  match first_type_arg t "Form" with
  | Some inner => set_body i (mkBody BForm (Some inner))
  | None =>
      match type_name t with
      | Some name =>
          if bool_decide (name = "RawQuery") then set_query i QRaw
          else if bool_decide (name = "Bytes") then set_body i (mkBody BBytes None)
          else if bool_decide (name = "RawForm") then set_body i (mkBody BRawForm None)
          else if bool_decide (name = "Multipart") then set_body i (mkBody BMultipart None)
          else if bool_decide (name ∈ UNSUPPORTED_WIRE) then None
          else Some i
      | None => Some i
      end
  end end end end.
Fixpoint classify_from (i : Inputs) (args : list Ty) : option Inputs :=
  match args with [] => Some i | t :: args' => i' ← classify_one i t; classify_from i' args' end.
(** [classify] *)
Definition classify (args : list Ty) : option Inputs := classify_from (mkInputs None None None) args.

(** [response_type], [is_opaque_response] *)
Definition response_type (output : option Ty) : Ty :=
  match output with
  | Some t => peel_named (peel_named t "Result") "Json"
  | None => unit_type
  end.
Definition is_opaque_response (t : Ty) : bool :=
  match view t with VImplTrait _ => true | _ => bool_decide (type_name t = Some "Response") end.
(** The types [collect_wire_types] pushes. *)
Definition collect_wire_types (args : list Ty) (output : option Ty) : list Ty :=
  match classify args with
  | None => []
  | Some i =>
      option_list (path_ty i) ++ (match query i with Some (QTyped q) => [q] | _ => [] end) ++
      (match in_body i with Some (mkBody _ (Some b)) => [b] | _ => [] end) ++
      (if is_opaque_response (response_type output) then [] else [response_type output])
  end.

(** [classify_stream_return]; a framing wrapper is the name the client decodes by. *)
Inductive ServerWrap := WrapNdjson | WrapRawU8.
Inductive Framing := FrNdjson | FrRawStream.
Record StreamReturn := mkStreamReturn { server_wrap : option ServerWrap; in_result : bool; client : option (Framing * option Ty) }.
Definition stream_item (t : Ty) : option Ty :=
  match view t with VImplTrait bounds => stream_item_in_bounds bounds | _ => Some (stream_item_of t) end.
Definition classify_stream_return (output : option Ty) (flagged : bool) : option StreamReturn :=
  t ← output;
  let '(inner, wrapped) := match first_type_arg t "Result" with Some ok => (ok, true) | None => (t, false) end in
  let framed (name : string) (f : Framing) : option (option StreamReturn) :=
    stream_ty ← first_type_arg inner name;
    Some (it ← stream_item stream_ty; Some (mkStreamReturn None wrapped (Some (f, Some it)))) in
  match framed "Ndjson" FrNdjson with
  | Some r => r
  | None =>
  match framed "RawStream" FrRawStream with
  | Some r => r
  | None =>
      match (match view inner with VImplTrait bounds => stream_item_in_bounds bounds | _ => None end) with
      | Some it =>
          (* the client's item of a raw stream is [Bytes], not the item of the stream *)
          Some (if bool_decide (type_name it = Some "u8") then mkStreamReturn (Some WrapRawU8) wrapped (Some (FrRawStream, None))
                else mkStreamReturn (Some WrapNdjson) wrapped (Some (FrNdjson, Some it)))
      | None => if flagged then Some (mkStreamReturn None wrapped None) else None
      end
  end end.

(** ** The parameters of the generated method *)

Definition MAX_NAMED_PATH_PARAMS : nat := 3.
Context (string_type : Ty) (tuple_type : list Ty → Ty).
(** [hole_param_types] *)
Definition hole_param_types (holes : list string) (path : option Ty) : list Ty :=
  let string_per_hole := (λ _, string_type) <$> holes in
  match path with
  | None => string_per_hole
  | Some t =>
      if bool_decide (length holes = 1%nat) then [t]
      else match view t with
           | VTuple elems => if bool_decide (length elems = length holes) then elems else string_per_hole
           | _ => string_per_hole
           end
  end.
(** [hole_ident]; [is_ident] is whether [syn] reads the name as an identifier. *)
Context (is_ident : string → bool).
Definition is_word (c : ascii) : bool :=
  let n := Z.of_nat (nat_of_ascii c) in
  (65 <=? n) && (n <=? 90) || (97 <=? n) && (n <=? 122) || (48 <=? n) && (n <=? 57) || (n =? 95).
Definition is_digit (c : ascii) : bool := let n := Z.of_nat (nat_of_ascii c) in (48 <=? n) && (n <=? 57).
Fixpoint trim_stars (s : string) : string := match s with String c s' => if bool_decide (c = "*"%char) then trim_stars s' else s | "" => "" end.
Definition hole_ident (hole : string) (index : nat) : string :=
  let name := trim_stars hole in
  let plain := match name with "" => false | String c _ => negb (str_any (λ c, negb (is_word c)) name) && negb (is_digit c) && is_ident name end in
  if plain then name else "path" +:+ pretty index.
(** [PathPlan]: the leading arguments, and what fills each hole. *)
Inductive Subst := ByName (name : string) | ByIndex (index : nat).
Record PathPlan := mkPlan { args : list (string * Ty); subst : list Subst }.
Definition plan_path (holes : list string) (path : option Ty) : PathPlan :=
  match holes with
  | [] => mkPlan [] []
  | _ =>
      let types := hole_param_types holes path in
      if (length holes <=? MAX_NAMED_PATH_PARAMS)%nat then
        let named := (λ p, (hole_ident p.2.1 p.1, p.2.2)) <$> zip (seq 0 (length holes)) (zip holes types) in
        mkPlan named (ByName <$> named.*1)
      else mkPlan [("path", tuple_type types)] (ByIndex <$> seq 0 (length holes))
  end.
End Classify.
Arguments QueryInput : clear implicits.
Arguments Body : clear implicits.
Arguments Inputs : clear implicits.
Arguments StreamReturn : clear implicits.
Arguments PathPlan : clear implicits.

(** ** The URI *)

(** [parse_template] of [client.rs]: the rest of the format string, and the holes. *)
Fixpoint route_chars (hole : option string) (cs : string) : string * list string :=
  match hole, cs with
  | None, "" => ("", [])
  | Some name, "" => ("{}", [name])
  | Some name, String c cs' =>
      if bool_decide (c = "}"%char) then let '(out, holes) := route_chars None cs' in ("{}" +:+ out, name :: holes)
      else route_chars (Some (name +:+ String c "")) cs'
  | None, String c cs' =>
      if bool_decide (c = "{"%char) then
        match cs' with
        | String d cs'' =>
            if bool_decide (d = "{"%char) then let '(out, holes) := route_chars None cs'' in ("{{" +:+ out, holes)
            else route_chars (Some "") cs'
        | "" => route_chars (Some "") cs'
        end
      else if bool_decide (c = "}"%char) then
        match cs' with
        | String d cs'' =>
            if bool_decide (d = "}"%char) then let '(out, holes) := route_chars None cs'' in ("}}" +:+ out, holes)
            else let '(out, holes) := route_chars None cs' in ("}}" +:+ out, holes)
        | "" => let '(out, holes) := route_chars None cs' in ("}}" +:+ out, holes)
        end
      else let '(out, holes) := route_chars None cs' in (String c out, holes)
  end.
Definition route_template (template : string) : string * list string :=
  let '(out, holes) := route_chars None template in ("{}" +:+ out, holes).
(** [format!] with positional arguments; [None] is a malformed format string or a
    missing argument, which does not compile. *)
Fixpoint format_args (fmt : string) (args : list string) : option string :=
  match fmt with
  | "" => Some ""
  | String c fmt' =>
      if bool_decide (c = "{"%char) then
        match fmt' with
        | String d fmt'' =>
            if bool_decide (d = "{"%char) then out ← format_args fmt'' args; Some (String "{" out)
            else if bool_decide (d = "}"%char) then
              match args with [] => None | a :: args' => out ← format_args fmt'' args'; Some (a +:+ out) end
            else None
        | "" => None
        end
      else if bool_decide (c = "}"%char) then
        match fmt' with
        | String d fmt'' => if bool_decide (d = "}"%char) then out ← format_args fmt'' args; Some (String "}" out) else None
        | "" => None
        end
      else out ← format_args fmt' args; Some (String c out)
  end.
(** The encoding of the value of a hole. *)
Definition encode_hole (hole value : string) : string :=
  match hole with String "*" _ => encode_path_segments value | _ => encode_path_segment value end.
(** The URI of [request_builder], given the displayed values of the holes and the query
    suffix. *)
Definition request_uri (base template : string) (values : list string) (query_suffix : string) : option string :=
  let '(fmt, holes) := route_template template in
  uri ← format_args fmt (base :: zip_with encode_hole holes values);
  Some (uri +:+ query_suffix).
(** The suffix of a [RawQuery], and of a typed one whose encoding is [q]. *)
Definition query_suffix (q : option string) : string := match q with Some q => if bool_decide (q = "") then "" else "?" +:+ q | None => "" end.

(** ** The generated methods *)

Section Methods.
Context {Ty : Type} `{SynType Ty} {Path : Type}.
(** The types the macro writes itself. *)
Record OwnTypes := mkOwn { string_ty : Ty; option_string_ty : Ty; bytes_ty : Ty; multipart_ty : Ty; octet_stream_ty : Ty; tuple_ty : list Ty → Ty }.
Context (own : OwnTypes) (is_ident : string → bool).

(** [body_param_type] *)
Definition body_param_type (b : option (Body Ty)) : option Ty :=
  b ← b;
  match b_kind b with
  | BJson | BForm => b_inner b
  | BBytes | BRawForm => Some (bytes_ty own)
  | BMultipart => Some (multipart_ty own)
  end.
(** [query_parts], the parameter. *)
Definition query_arg (q : option (QueryInput Ty)) : option (string * Ty) :=
  q ← q; Some ("query", match q with QTyped t => t | QRaw => option_string_ty own end).
(** Of a [ClientMethod] what the signature is made of, and what the URI is. *)
Record RouteMethod := mkMethod {
  m_ident : string; m_verb : string; m_extra_args : list (string * Ty); m_holes : list string; m_subst : list Subst;
  m_request : option Ty; m_response : Ty; m_headers : bool }.
(** [build_client_method] and [assemble]: the method and its sibling with headers. *)
Definition unary_method (ident : string) (route : RouteAttr Path) (i : Inputs Ty) (output : option Ty) (headers : bool) : RouteMethod :=
  let holes := (route_template (route_path route)).2 in
  let plan := plan_path (string_ty own) (tuple_ty own) is_ident holes (path_ty i) in
  mkMethod ident (verb route) (args plan ++ option_list (query_arg (query i))) holes (subst plan) (body_param_type (in_body i))
    (if is_opaque_response (response_type output) then octet_stream_ty own else response_type output) headers.
Definition build_client_method (ident : string) (route : RouteAttr Path) (arg_types : list Ty) (output : option Ty) : option (RouteMethod * RouteMethod) :=
  if streamed route then None
  else i ← classify arg_types;
       Some (unary_method ident route i output false, unary_method (ident +:+ "_with_headers") route i output true).
(** [build_stream_client_method] and [build_client_stream_method] *)
Definition build_stream_client_method (ident : string) (route : RouteAttr Path) (arg_types : list Ty) (item : Ty) : option RouteMethod :=
  i ← classify arg_types;
  let holes := (route_template (route_path route)).2 in
  let plan := plan_path (string_ty own) (tuple_ty own) is_ident holes (path_ty i) in
  Some (mkMethod ident (verb route) (args plan ++ option_list (query_arg (query i))) holes (subst plan) (body_param_type (in_body i)) item false).
Definition build_client_stream_method (ident : string) (route : RouteAttr Path) (arg_types : list Ty) (output : option Ty) : option RouteMethod :=
  i ← classify arg_types;
  match in_body i with
  | Some _ => None
  | None =>
      let holes := (route_template (route_path route)).2 in
      let plan := plan_path (string_ty own) (tuple_ty own) is_ident holes (path_ty i) in
      Some (mkMethod ident (verb route) (args plan ++ option_list (query_arg (query i))) holes (subst plan) None (response_type output) false)
  end.
(** The displays of an argument: one, or those of the elements of a tuple. *)
Definition subst_value (names : list string) (values : list (list string)) (s : Subst) : option string :=
  match s with
  | ByName n => '(_, v) ← List.find (λ b, bool_decide (b.1 = n)) (zip names values); head v
  | ByIndex i => '(_, v) ← List.find (λ b, bool_decide (b.1 = "path")) (zip names values); v !! i
  end.
(** The URI a call makes with these arguments; [None] does not compile. *)
Definition method_uri (m : RouteMethod) (base template : string) (values : list (list string)) (query_suffix : string) : option string :=
  displays ← mapM (subst_value (m_extra_args m).*1 values) (m_subst m);
  request_uri base template displays query_suffix.
End Methods.
Arguments RouteMethod : clear implicits.
Arguments OwnTypes : clear implicits.

(** ** The URI of a template *)

Definition fmt_segment (s : Segment) : string := match s with Literal text => escape text | Hole _ => "{}" end.
Definition fmt_segments (segments : list Segment) : string := foldr (λ s acc, fmt_segment s +:+ acc) "" segments.
Lemma route_chars_literal text rest :
  route_chars None (escape text +:+ rest) = (escape text +:+ (route_chars None rest).1, (route_chars None rest).2).
Proof.
  induction text as [|c text IH]; [cbn [escape]; rewrite !str_app_nil_l; by destruct (route_chars None rest)|].
  cbn [escape]. case_bool_decide as Hc; autorewrite with str; cbn [route_chars].
  - destruct Hc as [-> | ->]; [|rewrite (bool_decide_false ("}"%char = "{"%char)) by done]; rewrite !bool_decide_true by done; rewrite IH; by autorewrite with str.
  - rewrite !bool_decide_false by tauto. rewrite IH. by autorewrite with str.
Qed.
Lemma route_chars_hole name acc rest : str_contains "}" name = false →
  route_chars (Some acc) (name +:+ String "}" rest) = ("{}" +:+ (route_chars None rest).1, (acc +:+ name) :: (route_chars None rest).2).
Proof.
  revert acc. induction name as [|c name IH]; intros acc Hc; autorewrite with str in *.
  - cbn [route_chars]. rewrite bool_decide_true by done. by destruct (route_chars None rest).
  - apply str_contains_cons_false in Hc as [Hd Hc]. cbn [route_chars]. rewrite bool_decide_false by congruence. rewrite IH by done. by autorewrite with str.
Qed.
(** The client's reader of templates agrees with the one that validates topics. *)
Lemma route_chars_segments segments : normal segments → route_chars None (print_segments segments) = (fmt_segments segments, hole_names segments).
Proof.
  induction segments as [|[text|name] rest IH]; [done|..]; cbn [normal print_segments foldr print_segment fmt_segments fmt_segment].
  - intros (_ & _ & Hr). fold (print_segments rest) (fmt_segments rest). by rewrite route_chars_literal, IH.
  - intros [(Hn1 & Hn2 & Hn3) Hr]. fold (print_segments rest) (fmt_segments rest). autorewrite with str. destruct name as [|c name]; [done|].
    cbn [route_chars]. rewrite bool_decide_true by done. autorewrite with str. rewrite bool_decide_false by (intros ->; by eapply Hn3).
    rewrite <- (str_app_cons c). rewrite route_chars_hole by done. by rewrite IH.
Qed.
(** The template with these strings in its holes, in order. *)
Fixpoint fill (segments : list Segment) (values : list string) : string :=
  match segments, values with
  | Literal text :: rest, _ => text +:+ fill rest values
  | Hole _ :: rest, v :: values' => v +:+ fill rest values'
  | _, _ => ""
  end.
Lemma format_literal text rest values : format_args (escape text +:+ rest) values = (λ out, text +:+ out) <$> format_args rest values.
Proof.
  induction text as [|c text IH]; [cbn [escape]; rewrite str_app_nil_l; by destruct (format_args rest values)|]. cbn [escape]. case_bool_decide as Hc; autorewrite with str; cbn [format_args].
  - destruct Hc as [-> | ->]; [|rewrite (bool_decide_false ("}"%char = "{"%char)) by done]; rewrite !bool_decide_true by done; rewrite IH;
      by destruct (format_args rest values).
  - rewrite !bool_decide_false by tauto. rewrite IH. by destruct (format_args rest values).
Qed.
Lemma format_segments segments values : (length (hole_names segments) ≤ length values)%nat → format_args (fmt_segments segments) values = Some (fill segments values).
Proof.
  revert values. induction segments as [|[text|name] rest IH]; intros values Hlen; [done|..]; cbn [fmt_segments foldr fmt_segment fill]; fold (fmt_segments rest).
  - rewrite format_literal, IH by done. done.
  - destruct values as [|v values]; cbn in Hlen; [lia|]. autorewrite with str. cbn [format_args]. rewrite bool_decide_true by done.
    rewrite bool_decide_false by done. rewrite bool_decide_true by done. by rewrite IH by (unfold hole_names; lia).
Qed.

(** ** Holes keep their values apart *)

Lemma percent_decode_app value r : percent_decode (encode_path_segment value +:+ r) = (λ s, value +:+ s) <$> percent_decode r.
Proof.
  induction value as [|c value IH]; [rewrite str_app_nil_l; by destruct (percent_decode r)|]. cbn [encode_path_segment]. autorewrite with str.
  rewrite encode_byte_decodes, IH. by destruct (percent_decode r).
Qed.
Lemma percent_decode_slash s : percent_decode (String "/" s) = (λ r, String "/" r) <$> percent_decode s.
Proof. done. Qed.
Lemma decode_encoded_segments value : percent_decode (encode_path_segments value) = Some value.
Proof.
  unfold encode_path_segments. rewrite <- (join_split_on "/" value) at 2. induction (split_on "/" value) as [|p l IH]; [done|].
  destruct l as [|q l]; [by apply percent_decode_encoded|].
  change (join "/" (encode_path_segment <$> p :: q :: l)) with (encode_path_segment p +:+ String "/" (join "/" (encode_path_segment <$> q :: l))).
  rewrite percent_decode_app, percent_decode_slash, IH. done.
Qed.
Lemma join_free c l : c ≠ "/"%char → Forall (λ p, str_contains c p = false) l → str_contains c (join "/" l) = false.
Proof.
  intros Hc Hl. induction Hl as [|p l Hp Hl IH]; [done|]. destruct l as [|q l]; [done|].
  change (join "/" (p :: q :: l)) with (p +:+ String "/" (join "/" (q :: l))). rewrite str_contains_app, Hp, str_contains_cons, IH.
  by rewrite bool_decide_false by congruence.
Qed.
(** What stands in a hole decodes to the value, does not start a query or a fragment,
    and is one segment unless the hole is a catch-all. *)
Definition carries (hole value text : string) : Prop :=
  percent_decode text = Some value ∧ str_contains "?" text = false ∧ str_contains "#" text = false ∧
  (String.prefix "*" hole = false → str_contains "/" text = false).
Lemma encode_hole_carries hole value : carries hole value (encode_hole hole value).
Proof.
  assert (Hs : ∀ c v, safe_char c = false → str_contains c (encode_path_segment v) = false).
  { intros c v Hc. apply all_safe_free; [done|apply all_safe_encoded]. }
  assert (Hm : ∀ c, c ≠ "/"%char → safe_char c = false → str_contains c (encode_path_segments value) = false).
  { intros c Hne Hc. apply join_free; [done|]. apply Forall_fmap, Forall_true. intros p. by apply Hs. }
  unfold carries, encode_hole. destruct (String.prefix "*" hole) eqn:Hp.
  - destruct hole as [|c hole]; [done|]. cbn [String.prefix] in Hp. destruct (ascii_dec "*" c) as [<-|Hne]; [|discriminate Hp].
    split; [apply decode_encoded_segments|]. split; [by apply Hm|]. split; [by apply Hm|done].
  - assert (Heq : match hole with String "*" _ => encode_path_segments value | _ => encode_path_segment value end = encode_path_segment value).
    { destruct hole as [|c hole]; [done|]. by destruct c as [[] [] [] [] [] [] [] []]; try done; cbn in Hp; destruct hole. }
    rewrite Heq. split; [apply percent_decode_encoded|]. repeat split; [by apply Hs..|]. intros _. by apply Hs.
Qed.
Lemma route_template_segments template segments : parse_template template = Ok segments → route_template template = ("{}" +:+ fmt_segments segments, hole_names segments).
Proof.
  intros Ht. destruct (parse_chars_prints (S (String.length template))) as [H _]. destruct (H "" template segments ltac:(lia) Ht) as [Hn Hp].
  cbn [escape] in Hp. rewrite str_app_nil_l in Hp. unfold route_template. rewrite <- Hp. by rewrite route_chars_segments.
Qed.
Lemma request_uri_segments base template segments values suffix : parse_template template = Ok segments → length values = length (hole_names segments) →
  request_uri base template values suffix = Some (base +:+ fill segments (zip_with encode_hole (hole_names segments) values) +:+ suffix).
Proof.
  intros Ht Hlen. unfold request_uri. rewrite (route_template_segments _ _ Ht). autorewrite with str. cbn [format_args].
  rewrite bool_decide_true by done. rewrite bool_decide_false by done. rewrite bool_decide_true by done.
  rewrite format_segments by (rewrite length_zip_with; lia). cbn. by autorewrite with str.
Qed.

(** ** The parameters fill the holes *)

Section Calls.
Context {Ty : Type} `{SynType Ty} {Path : Type} (own : OwnTypes Ty) (is_ident : string → bool).
Lemma hole_param_types_length string_type holes (path : option Ty) : length (hole_param_types string_type holes path) = length holes.
Proof.
  unfold hole_param_types. destruct path as [t|]; [|by rewrite length_fmap]. case_bool_decide as Hl; [done|].
  destruct (view t); try by rewrite length_fmap. case_bool_decide; [done|]. by rewrite length_fmap.
Qed.
Lemma find_zip {B} (names : list string) (values : list B) i n v : NoDup names → names !! i = Some n → values !! i = Some v →
  List.find (λ b, bool_decide (b.1 = n)) (zip names values) = Some (n, v).
Proof.
  intros Hnd. revert i values. induction Hnd as [|m names Hm Hnd IH]; intros i values Hn Hv; [done|]. destruct values as [|w values]; [done|]. cbn.
  destruct i as [|i]; cbn in *; [simplify_eq; by rewrite bool_decide_true|]. rewrite bool_decide_false; [by eapply IH|].
  intros ->. by apply list_elem_of_lookup_2 in Hn.
Qed.
(** The arguments that carry these displays: one each, or a tuple. *)
Definition arg_values (holes values : list string) : list (list string) :=
  match holes with [] => [] | _ => if (length holes <=? MAX_NAMED_PATH_PARAMS)%nat then (λ v, [v]) <$> values else [values] end.
Lemma plan_values string_type tuple_type holes (path : option Ty) values names' values' :
  let plan := plan_path string_type tuple_type is_ident holes path in
  length values = length holes → NoDup ((args plan).*1 ++ names') →
  mapM (subst_value ((args plan).*1 ++ names') (arg_values holes values ++ values')) (subst plan) = Some values.
Proof.
  intros plan Hlen Hnd. apply mapM_Some. unfold plan, plan_path, arg_values in *. destruct holes as [|h holes]; [by destruct values|].
  destruct (length (h :: holes) <=? MAX_NAMED_PATH_PARAMS)%nat eqn:Hm; cbn [args subst] in *.
  - set (names := _.*1) in *. assert (Hn : length names = length values).
    { unfold names. rewrite !length_fmap, !length_zip_with, hole_param_types_length, length_seq. lia. }
    apply Forall2_fmap_l, Forall2_same_length_lookup_2; [done|]. intros i n v Hni Hvi. cbn [compose subst_value].
    rewrite (find_zip _ _ i n [v]); [done|done|by apply lookup_app_l_Some|].
    apply lookup_app_l_Some. by rewrite list_lookup_fmap, Hvi.
  - apply Forall2_fmap_l, Forall2_same_length_lookup_2; [by rewrite length_seq|]. intros i j v Hj Hvi. apply lookup_seq in Hj as [-> _]. done.
Qed.

Lemma client_method_uri (ident : string) (route : RouteAttr Path) arg_types output m mh segments values extra base suffix :
  build_client_method own is_ident ident route arg_types output = Some (m, mh) →
  parse_template (route_path route) = Ok segments → length values = length (hole_names segments) → NoDup (m_extra_args m).*1 →
  let uri := Some (base +:+ fill segments (zip_with encode_hole (hole_names segments) values) +:+ suffix) in
  method_uri m base (route_path route) (arg_values (hole_names segments) values ++ extra) suffix = uri ∧
  method_uri mh base (route_path route) (arg_values (hole_names segments) values ++ extra) suffix = uri.
Proof.
  unfold build_client_method. destruct (streamed route); [done|]. destruct (classify arg_types) as [i|]; [|done]. cbn. intros [= <- <-] Ht Hlen Hnd.
  unfold unary_method, method_uri in *. cbn [m_extra_args m_subst] in *. rewrite (route_template_segments _ _ Ht) in *. cbn [snd] in *.
  rewrite fmap_app in Hnd |- *. rewrite (plan_values _ _ _ _ values) by done. cbn. by rewrite (request_uri_segments _ _ _ _ _ Ht Hlen).
Qed.
(** the generated client asks for the route it was generated from. Called with a value
    for every hole of the route's template, which validates, and with arguments of
    distinct names, a method compiles, and its URI is the base followed by the template
    with every value in its hole, followed by the query; what stands in a hole decodes
    to the value and keeps to its place: it starts no query and no fragment, and is one
    segment unless the hole is a catch-all. The sibling with headers asks for the same. *)
Theorem client_asks_for_its_route (ident : string) (route : RouteAttr Path) arg_types output m mh segments values extra base suffix :
  build_client_method own is_ident ident route arg_types output = Some (m, mh) →
  parse_template (route_path route) = Ok segments → length values = length (hole_names segments) → NoDup (m_extra_args m).*1 →
  let holes := hole_names segments in
  let texts := zip_with encode_hole holes values in
  method_uri m base (route_path route) (arg_values holes values ++ extra) suffix = Some (base +:+ fill segments texts +:+ suffix) ∧
  method_uri mh base (route_path route) (arg_values holes values ++ extra) suffix = Some (base +:+ fill segments texts +:+ suffix) ∧
  (∀ i hole value text, holes !! i = Some hole → values !! i = Some value → texts !! i = Some text → carries hole value text).
Proof.
  intros Hm Ht Hlen Hnd holes texts. destruct (client_method_uri _ _ _ _ _ _ _ values extra base suffix Hm Ht Hlen Hnd) as [H1 H2].
  split; [done|]. split; [done|]. intros j hole value text Hh Hv Htx. unfold texts in Htx. rewrite lookup_zip_with in Htx. fold holes in Htx. rewrite Hh, Hv in Htx. cbn in Htx. simplify_eq.
  apply encode_hole_carries.
Qed.
End Calls.

(** ** What is on the wire *)

Section Wire.
Context {Ty : Type} `{SynType Ty}.
(** What an argument is on its own. *)
Definition path_of (t : Ty) : option Ty := first_type_arg t "Path".
Definition query_of (t : Ty) : option (QueryInput Ty) :=
  match first_type_arg t "Query" with
  | Some q => Some (QTyped q)
  | None => if bool_decide (type_name t = Some "RawQuery") then Some QRaw else None
  end.
Definition body_of (t : Ty) : option (Body Ty) :=
  match first_type_arg t "Json", first_type_arg t "Form" with
  | Some b, _ => Some (mkBody BJson (Some b))
  | None, Some b => Some (mkBody BForm (Some b))
  | None, None =>
      if bool_decide (type_name t = Some "Bytes") then Some (mkBody BBytes None)
      else if bool_decide (type_name t = Some "RawForm") then Some (mkBody BRawForm None)
      else if bool_decide (type_name t = Some "Multipart") then Some (mkBody BMultipart None) else None
  end.
Definition whole_request (t : Ty) : Prop := type_name t = Some "Request" ∨ type_name t = Some "RawRequest".

Lemma first_type_arg_None (t : Ty) name : type_name t ≠ Some name → first_type_arg t name = None.
Proof. destruct (first_type_arg t name) eqn:Hf; [|done]. apply first_type_arg_named in Hf. congruence. Qed.
Lemma slot_full {A} (y x : A) l (out : option A) : option_list (Some y) ++ x :: l = option_list out → False.
Proof. by destruct out. Qed.

(** One argument of each name, whichever test finds it. *)
Inductive ArgCase (i : Inputs Ty) (t : Ty) : option (Inputs Ty) → Prop :=
| AcPath p : path_of t = Some p → query_of t = None → body_of t = None → ¬ whole_request t → ArgCase i t (set_path i p)
| AcQuery q : path_of t = None → query_of t = Some q → body_of t = None → ¬ whole_request t → ArgCase i t (set_query i q)
| AcBody b : path_of t = None → query_of t = None → body_of t = Some b → ¬ whole_request t → ArgCase i t (set_body i b)
| AcWhole : path_of t = None → query_of t = None → body_of t = None → whole_request t → ArgCase i t None
| AcContext : path_of t = None → query_of t = None → body_of t = None → ¬ whole_request t → ArgCase i t (Some i).
Lemma classify_one_case (i : Inputs Ty) t : ArgCase i t (classify_one i t).
Proof.
  unfold classify_one.
  destruct (first_type_arg t "Path") as [p|] eqn:Hp.
  { pose proof (first_type_arg_named _ _ _ Hp) as Hn. apply AcPath; unfold query_of, body_of, whole_request; [done|..];
      rewrite ?(first_type_arg_None t "Query"), ?(first_type_arg_None t "Json"), ?(first_type_arg_None t "Form"), ?Hn by congruence; try done. intros [|]; congruence. }
  destruct (first_type_arg t "Query") as [q|] eqn:Hq.
  { pose proof (first_type_arg_named _ _ _ Hq) as Hn. apply AcQuery; unfold query_of, body_of, whole_request; [done|by rewrite Hq|..];
      rewrite ?(first_type_arg_None t "Json"), ?(first_type_arg_None t "Form"), ?Hn by congruence; try done. intros [|]; congruence. }
  destruct (first_type_arg t "Json") as [b|] eqn:Hj.
  { pose proof (first_type_arg_named _ _ _ Hj) as Hn. apply AcBody; unfold query_of, body_of, whole_request; rewrite ?Hq, ?Hj, ?Hn; try done. intros [|]; congruence. }
  destruct (first_type_arg t "Form") as [b|] eqn:Hf.
  { pose proof (first_type_arg_named _ _ _ Hf) as Hn. apply AcBody; unfold query_of, body_of, whole_request; rewrite ?Hq, ?Hj, ?Hf, ?Hn; try done. intros [|]; congruence. }
  destruct (type_name t) as [n|] eqn:Hn.
  - repeat case_bool_decide; subst; try (match goal with H : ?n ∈ _ |- _ => unfold UNSUPPORTED_WIRE in H end);
      constructor; unfold query_of, body_of, whole_request; rewrite ?Hq, ?Hj, ?Hf, ?Hn; try done;
      repeat case_bool_decide; set_solver.
  - apply AcContext; unfold query_of, body_of, whole_request; rewrite ?Hq, ?Hj, ?Hf, ?Hn; try done. intros [|]; congruence.
Qed.
Lemma classify_from_spec args (i j : Inputs Ty) : classify_from i args = Some j ↔
  Forall (λ t, ¬ whole_request t) args ∧ option_list (path_ty i) ++ omap path_of args = option_list (path_ty j) ∧
  option_list (query i) ++ omap query_of args = option_list (query j) ∧ option_list (in_body i) ++ omap body_of args = option_list (in_body j).
Proof.
  revert i. induction args as [|t args IH]; intros i; cbn [classify_from omap list_omap].
  - rewrite !app_nil_r. split; [intros [= ->]; repeat split; constructor|]. intros (_ & H1 & H2 & H3). destruct i as [p q b], j as [p' q' b']. cbn in *.
    destruct p, p', q, q', b, b'; by simplify_eq.
  - rewrite Forall_cons. destruct (classify_one_case i t) as [p Hp Hq Hb Hw|q Hp Hq Hb Hw|b Hp Hq Hb Hw|Hp Hq Hb Hw|Hp Hq Hb Hw];
      rewrite ?Hp, ?Hq, ?Hb.
    + unfold set_path. destruct (path_ty i) as [p0|]; cbn; [split; [done|by intros (_ & ?%slot_full & _)]|]. rewrite IH. cbn. tauto.
    + unfold set_query. destruct (query i) as [q0|]; cbn; [split; [done|by intros (_ & _ & ?%slot_full & _)]|]. rewrite IH. cbn. tauto.
    + unfold set_body. destruct (in_body i) as [b0|]; cbn; [split; [done|by intros (_ & _ & _ & ?%slot_full)]|]. rewrite IH. cbn. tauto.
    + cbn. split; [done|]. tauto.
    + cbn. rewrite IH. tauto.
Qed.
(** a route has a client only if its client can send everything the handler reads.
    The inputs of the client are the path, the query and the body among the handler's
    arguments, in whatever order they stand; there is none when an argument takes the
    whole request or when a slot is taken twice, and no other argument prevents it. *)
Theorem classify_spec args (i : Inputs Ty) : classify args = Some i ↔
  Forall (λ t, ¬ whole_request t) args ∧ omap path_of args = option_list (path_ty i) ∧ omap query_of args = option_list (query i) ∧
  omap body_of args = option_list (in_body i).
Proof. apply classify_from_spec. Qed.
End Wire.

(** ** Attributes are parsed and printed *)

Section Printing.
Context {Path : Type} (parse_path : Parser RouteError Path) (print_path : Path → list Token).
Context (Hpath : ∀ p, reads parse_path print_path p).
Inductive Modifier := MStreamed | MMiddleware (paths : list Path) (trailing_comma : bool).
Definition print_modifier (m : Modifier) : list Token :=
  match m with MStreamed => [KIdent "streamed"] | MMiddleware ps tr => [KIdent "middleware"; KEq; KBracket (print_list print_path ps tr)] end.
Fixpoint print_modifiers (ms : list Modifier) : list Token :=
  match ms with [] => [] | [m] => print_modifier m | m :: ms' => print_modifier m ++ KComma :: print_modifiers ms' end.
(** What the modifiers set. *)
Definition apply_modifier (acc : bool * list Path) (m : Modifier) : bool * list Path :=
  match m with MStreamed => (true, acc.2) | MMiddleware ps _ => (acc.1, ps) end.

Lemma parse_one m fuel st mw rest : (length (print_modifier m) < fuel)%nat →
  parse_modifiers parse_path fuel st mw (print_modifier m ++ rest) =
  let '(st', mw') := apply_modifier (st, mw) m in
  match rest with [] => Ok (st', mw') | KComma :: ts => parse_modifiers parse_path (pred fuel) st' mw' ts | _ => Err Syntax end.
Proof.
  destruct fuel as [|fuel]; [lia|]. intros _. destruct m as [|ps tr]; cbn [parse_modifiers print_modifier app apply_modifier fst snd pred].
  - by rewrite bool_decide_true.
  - rewrite bool_decide_false by done. rewrite bool_decide_true by done. by rewrite terminated_print by (apply Forall_forall; intros; apply Hpath).
Qed.
Lemma parse_print_modifiers ms fuel st mw : ms ≠ [] → (length (print_modifiers ms) < fuel)%nat →
  parse_modifiers parse_path fuel st mw (print_modifiers ms) = Ok (foldl apply_modifier (st, mw) ms).
Proof.
  revert fuel st mw. induction ms as [|m ms IH]; [done|]. intros fuel st mw _ Hf. destruct ms as [|m' ms].
  - cbn [print_modifiers] in *. rewrite <- (app_nil_r (print_modifier m)). rewrite parse_one by done. cbn [foldl]. by destruct (apply_modifier _ _).
  - change (print_modifiers (m :: m' :: ms)) with (print_modifier m ++ KComma :: print_modifiers (m' :: ms)) in *. rewrite length_app in Hf. cbn [length] in Hf.
    rewrite parse_one by lia. cbn [foldl]. destruct (apply_modifier (st, mw) m) as [st' mw']. by apply IH; [|lia].
Qed.
Lemma modifiers_print ms : ms ≠ [] → modifiers parse_path (print_modifiers ms) = Ok (foldl apply_modifier (false, []) ms).
Proof. intros Hms. apply parse_print_modifiers; [done|lia]. Qed.
Lemma trailing_print ms : parse_trailing_modifiers parse_path (match ms with [] => [] | _ => KComma :: print_modifiers ms end) = Ok (foldl apply_modifier (false, []) ms).
Proof. destruct ms as [|m ms]; [done|]. by apply modifiers_print. Qed.

(** How an attribute can be written: a shorthand alone, with modifiers, with a path and
    modifiers, and [route]. *)
Inductive Written :=
| WBare (verb : string) | WModifiers (verb : string) (ms : list Modifier) | WPath (verb path : string) (ms : list Modifier)
| WRoute (method path : string) (ms : list Modifier).
Definition print_route (w : Written) : Attribute :=
  match w with
  | WBare v => mkAttr (Some v) None
  | WModifiers v ms => mkAttr (Some v) (Some (print_modifiers ms))
  | WPath v path ms => mkAttr (Some v) (Some (KStr path :: match ms with [] => [] | _ => KComma :: print_modifiers ms end))
  | WRoute method path ms => mkAttr (Some "route") (Some (KIdent method :: KComma :: KStr path :: match ms with [] => [] | _ => KComma :: print_modifiers ms end))
  end.
Definition modified (verb path : string) (ms : list Modifier) : RouteAttr Path :=
  let '(st, mw) := foldl apply_modifier (false, []) ms in mkRoute verb path st mw.
(** What it is to mean. *)
Definition meaning (w : Written) : result (RouteAttr Path) RouteError :=
  match w with
  | WBare v => Ok (mkRoute v "" false [])
  | WModifiers v ms => Ok (modified v "" ms)
  | WPath v path ms => Ok (modified v path ms)
  | WRoute method path ms => if bool_decide (to_lowercase method ∈ VERBS) then Ok (modified (to_lowercase method) path ms) else Err (UnsupportedMethod method)
  end.
Definition well_written (w : Written) : Prop :=
  match w with WBare v | WPath v _ _ => v ∈ VERBS | WModifiers v ms => v ∈ VERBS ∧ ms ≠ [] | WRoute _ _ _ => True end.
(** a route attribute means what is written: every form of it, with any modifiers in
    any order, parses into its verb, its path and what the modifiers set, and [route]
    with a method in any case means the shorthand of that method or is refused. *)
Theorem route_attr_means (w : Written) : well_written w →
  is_route_attr (print_route w) = true ∧ parse_route_attr parse_path (print_route w) = meaning w.
Proof.
  assert (Hv : ∀ v, v ∈ VERBS → bool_decide (v = "route") = false ∧ bool_decide (v ∈ ROUTE_ATTRS) = true).
  { intros v Hv. split; [apply bool_decide_eq_false; intros ->; revert Hv; by apply (bool_decide_unpack (_ ∉ _))|].
    apply bool_decide_eq_true. unfold ROUTE_ATTRS. set_solver. }
  unfold is_route_attr, parse_route_attr. destruct w as [v|v ms|v path ms|method path ms]; cbn [print_route well_written attr_ident attr_args from_option meaning].
  - intros Hw. destruct (Hv v Hw) as [-> ->]. done.
  - intros [Hw Hms]. destruct (Hv v Hw) as [-> ->]. split; [done|]. pose proof (modifiers_print ms Hms) as Hm. unfold parse_shorthand_args, modified in *.
    destruct ms as [|[|ps tr] ms]; [done|..]; destruct ms; cbn [print_modifiers print_modifier app] in *; rewrite Hm; by destruct (foldl _ _ _).
  - intros Hw. destruct (Hv v Hw) as [-> ->]. split; [done|]. unfold parse_shorthand_args, modified. rewrite trailing_print. by destruct (foldl _ _ _).
  - intros _. split; [done|]. rewrite bool_decide_true by done. unfold parse_route_args, normalize_verb, modified. rewrite trailing_print.
    destruct (foldl _ _ _). by case_bool_decide.
Qed.
End Printing.

(** ** Concrete routes *)

Inductive RTy := RPath (name : string) (type_args : option (list RTy)) | RTuple (elems : list RTy) | RStream (item : RTy) | RItem (stream : RTy).
#[local] Instance RTy_syn : SynType RTy := {
  view (t : RTy) := match t with
            | RPath n a => VPath true [mkSeg n (option_map (map ArgType) a)]
            | RTuple elems => VTuple elems
            | RStream it => VImplTrait [BoundTrait [mkSeg "Stream" (Some [ArgAssoc "Item" it])]]
            | RItem _ => VOther
            end;
  unit_type := RTuple []; stream_item_of := RItem }.
Definition r_ty (n : string) : RTy := RPath n None.
Definition r_of (n : string) (t : RTy) : RTy := RPath n (Some [t]).
Definition r_own : OwnTypes RTy := mkOwn (r_ty "String") (r_ty "OptionString") (r_ty "Vec") (r_ty "Multipart") (r_ty "OctetStream") RTuple.
Definition r_ident (n : string) : bool := bool_decide (n ∉ ["type"; "self"]).
Definition r_route : RouteAttr string := mkRoute "get" "/users/{id}/files/{*path}" false [].
Definition r_args : list RTy := [r_of "Inject" (r_ty "Db"); r_of "Path" (RTuple [r_ty "u64"; r_ty "String"]); r_of "Query" (r_ty "Page")].
Definition r_print (p : string) : list Token := [KIdent p].
Lemma r_reads p : reads parse_ident r_print p.
Proof. by split. Qed.

Example route_samples :
  parse_route_attr parse_ident (mkAttr (Some "get") None) = Ok (mkRoute "get" "" false []) ∧
  parse_route_attr parse_ident (mkAttr (Some "post") (Some [KStr "/x"; KComma; KIdent "middleware"; KEq; KBracket [KIdent "A"; KComma; KIdent "B"]])) = Ok (mkRoute "post" "/x" false ["A"; "B"]) ∧
  parse_route_attr parse_ident (mkAttr (Some "route") (Some [KIdent "TRACE"; KComma; KStr "/x"])) = Err (UnsupportedMethod "TRACE") ∧
  parse_route_attr parse_ident (mkAttr (Some "get") (Some [KIdent "stream"])) = Err (UnknownFlag "stream") ∧
  parse_route_attr parse_ident (mkAttr (Some "get") (Some [KStr "/x"; KComma])) = Err Syntax ∧
  parse_message_attr [KStr "/app/chat"; KComma; KIdent "request"] = Ok ("/app/chat", Request) ∧ parse_message_attr [KStr "/a"; KComma; KIdent "push"] = Err (UnknownMessageFlag "push") ∧
  route_template "/lit/{{x}}/{id}" = ("{}/lit/{{x}}/{}", ["id"]) ∧ hole_ident r_ident "type" 0 = "path0" ∧ hole_ident r_ident "*path" 1 = "path" ∧
  classify r_args = Some (mkInputs (Some (RTuple [r_ty "u64"; r_ty "String"])) (Some (QTyped (r_ty "Page"))) None) ∧
  classify [r_of "Json" (r_ty "A"); r_ty "Bytes"] = None ∧ classify [r_ty "Request"] = None ∧
  collect_wire_types [r_of "Json" (r_ty "A")] (Some (r_of "Result" (r_of "Json" (r_ty "B")))) = [r_ty "A"; r_ty "B"] ∧
  classify_stream_return (Some (r_of "Result" (r_of "Ndjson" (RStream (r_ty "Tick"))))) false = Some (mkStreamReturn None true (Some (FrNdjson, Some (r_ty "Tick")))) ∧
  classify_stream_return (Some (RStream (r_ty "u8"))) false = Some (mkStreamReturn (Some WrapRawU8) false (Some (FrRawStream, None))) ∧
  classify_stream_return (Some (r_ty "Sse")) false = None ∧
  query_suffix None = "" ∧ query_suffix (Some "a=1") = "?a=1".
Proof. vm_compute. repeat split. Qed.

Definition r_inputs : Inputs RTy := mkInputs (Some (RTuple [r_ty "u64"; r_ty "String"])) (Some (QTyped (r_ty "Page"))) None.
Lemma client_asks_for_its_route_witness :
  let m := unary_method r_own r_ident "show" r_route r_inputs None false in
  let mh := unary_method r_own r_ident "show_with_headers" r_route r_inputs None true in
  build_client_method r_own r_ident "show" r_route r_args None = Some (m, mh) ∧ (m_extra_args m).*1 = ["id"; "path"; "query"] ∧
  method_uri m "/api" (route_path r_route) [["7"]; ["a b/c"]; ["page"]] "?p=2" = Some "/api/users/7/files/a%20b/c?p=2".
Proof.
  intros m mh. split; [reflexivity|]. split; [reflexivity|].
  destruct (@client_asks_for_its_route RTy RTy_syn string r_own r_ident "show" r_route r_args None m mh
    [Literal "/users/"; Hole "id"; Literal "/files/"; Hole "*path"] ["7"; "a b/c"] [["page"]] "/api" "?p=2" eq_refl eq_refl eq_refl) as [H _];
    [apply (bool_decide_unpack _); reflexivity|exact H].
Defined.
Lemma route_attr_means_witness :
  parse_route_attr parse_ident (print_route r_print (WRoute "POST" "/x" [MMiddleware ["A"] true; MStreamed])) = Ok (mkRoute "post" "/x" true ["A"]).
Proof. destruct (route_attr_means parse_ident r_print r_reads (WRoute "POST" "/x" [MMiddleware ["A"] true; MStreamed]) I) as [_ H]. exact H. Defined.

(** A modifier may be written twice, and a second list of middleware replaces the first. *)
Theorem repeated_middleware_is_replaced :
  parse_route_attr parse_ident (print_route r_print (WPath "get" "/x" [MMiddleware ["Auth"] false; MMiddleware ["Log"] false])) = Ok (mkRoute "get" "/x" false ["Log"]).
Proof. reflexivity. Qed.
(** The names of a method's parameters can clash: a hole [query] with the query, and a
    hole that is no identifier with one called like its substitute. *)
Theorem parameters_can_clash :
  (∃ m mh, build_client_method r_own r_ident "f" (mkRoute "get" "/{query}" false [] : RouteAttr string) [r_of "Query" (r_ty "Page")] None = Some (m, mh) ∧
     (m_extra_args m).*1 = ["query"; "query"]) ∧
  (∃ m mh, build_client_method r_own r_ident "g" (mkRoute "get" "/{path1}/{a-b}" false [] : RouteAttr string) [] None = Some (m, mh) ∧
     (m_extra_args m).*1 = ["path1"; "path1"]).
Proof. split; do 2 eexists; split; reflexivity. Qed.
(** A value [..] is sent as it is. *)
Theorem dot_segment_is_sent :
  request_uri "/api" "/users/{id}/secret" [".."] "" = Some "/api/users/../secret".
Proof. reflexivity. Qed.
