(* ===== verification/MacroComponent.v ===== *)
(** * MacroComponent: the arguments of [#[component]] and what follows from them

    Models [crates/macros-core/src/attr.rs] (the arguments), [extend.rs] (the seam for
    extensions), [provide.rs] (the providers a component registers), the identity that
    [component.rs] resolves, the arguments of [methods.rs], and the extension [Router]
    of [crates/rpc-macros/src/router.rs].

    - Types, expressions and paths are read by arguments; the text of a type is what
      [to_token_stream().to_string()] gives.
    - [TypeDescriptor::of] of a type and the value of a priority are arguments: the
      compiler works them out of the generated code. *)
From S2P Require Import Prelude CoreTypes DiTypes MacroTopics MacroSyn.

Inductive MacroError :=
| Syntax | UnknownKey (key : string) | NotATraitObject | NotConcrete | EmptyTargets | EmptyTraits | ByValueProvides | DuplicateTrait | OrderWithoutProvide
| NotASingleton.
(** [ParseKeyed]: [None] is a key that is not the extension's. *)
Class ParseKeyed (Ext : Type) := { ext_default : Ext; parse_keyed : Ext → string → list Token → result (option Ext * list Token) MacroError }.
(** [ParseItem<ComponentContext>], and [ComponentExt]. *)
Record ComponentContext (Path : Type) := mkContext { cx_ident : string; cx_type_name : string; cx_id : string; cx_name : string; cx_scope : option Path }.
Arguments mkContext {Path}. Arguments cx_ident {Path}. Arguments cx_type_name {Path}. Arguments cx_id {Path}. Arguments cx_name {Path}. Arguments cx_scope {Path}.
Class ComponentExt (Path Ext : Type) := {
  ext_keyed :: ParseKeyed Ext; parse_item : ComponentContext Path → Ext → result Ext MacroError; defers_factory : Ext → bool; asserts_wired : Ext → bool }.
(** What matching on a path shows: its only segment, if it is an identifier, and the
    name of its last segment. *)
Class SynPath (Path : Type) := { path_ident : Path → option string; path_last : Path → option string; ident_path : string → Path }.

Definition COMPONENT_KEYS : list string :=
  ["id"; "name"; "qualifier"; "primary"; "by_value"; "scope"; "factory_slice"; "factory"; "default_factory"; "provide"; "priority"; "before"; "after"; "overseerd"; "crate"].
Definition eat_eq (ts : list Token) : list Token := match ts with KEq :: ts' => ts' | _ => ts end.
Definition eat_comma (ts : list Token) : list Token := match ts with KComma :: ts' => ts' | _ => ts end.
Definition parse_ident : Parser MacroError string := λ ts, match ts with KIdent n :: ts' => Ok (n, ts') | _ => Err Syntax end.
Definition parse_str : Parser MacroError string := λ ts, match ts with KStr s :: ts' => Ok (s, ts') | _ => Err Syntax end.
Definition parse_bool_lit : Parser MacroError bool := λ ts, match ts with KBool b :: ts' => Ok (b, ts') | _ => Err Syntax end.
(** [input.parse::<Token![=]>()?], then a value. *)
Definition after_eq {A} (p : Parser MacroError A) : Parser MacroError A := λ ts, match ts with KEq :: ts' => p ts' | _ => Err Syntax end.
(** [parse_value] *)
Definition parse_value : Parser MacroError string := after_eq parse_str.

Section Args.
Context {Ty Expr Path Ext : Type} `{SynType Ty, SynPath Path, ParseKeyed Ext}.
Context (parse_type : Parser MacroError Ty) (parse_expr : Parser MacroError Expr) (parse_path : Parser MacroError Path) (type_text : Ty → string).

Record ProviderOrderTarget := mkTarget { target : Ty; traits : list Ty }.
Record ComponentArgs := mkArgs {
  a_id : option string; a_name : option string; provide : list Ty; a_priority : option Expr; before : list ProviderOrderTarget;
  after : list ProviderOrderTarget; qualifier : option string; a_primary : bool; by_value : bool; scope : option Path;
  factory_slice : option string; factory : option Path; no_default_factory : bool; overseerd : option Path; krate : option Path; ext : Ext }.
Definition default_args : ComponentArgs := mkArgs None None [] None [] [] None false false None None None false None None ext_default.

(** [parse_path_override] *)
Definition parse_path_override : Parser MacroError Path := after_eq parse_path.
(** [parse_scope_path] *)
Definition scope_alias (p : Path) : Path :=
  match path_ident p with
  | Some n =>
      if bool_decide (n = "singleton") then ident_path "Singleton"
      else if bool_decide (n = "connection") then ident_path "Connection"
      else if bool_decide (n = "request") then ident_path "Request"
      else if bool_decide (n = "transient") then ident_path "Transient" else p
  | None => p
  end.
Definition parse_scope_path : Parser MacroError Path := λ ts, result_map (λ r, (scope_alias r.1, r.2)) (parse_path ts).
Definition is_trait_object (t : Ty) : bool := match view t with VTraitObject => true | _ => false end.
(** [ProvidedTrait] *)
Definition parse_provided_trait : Parser MacroError Ty := λ ts,
  match parse_type ts with
  | Err e => Err e
  | Ok (t, ts') => if is_trait_object t then Ok (t, ts') else Err NotATraitObject
  end.
Definition parse_provide (old : list Ty) (ts : list Token) : result (list Ty * list Token) MacroError :=
  match ts with
  | KBracket content :: ts' => result_map (λ l, (old ++ l, ts')) (terminated Syntax parse_provided_trait content)
  | _ => result_map (λ r, (old ++ [r.1], r.2)) (parse_provided_trait ts)
  end.
(** [ProviderOrderTarget::parse] *)
Definition parse_order_target : Parser MacroError ProviderOrderTarget := λ ts,
  match parse_type ts with
  | Err e => Err e
  | Ok (t, ts') =>
      if is_trait_object t then Err NotConcrete
      else
        match ts' with
        | KAs :: KBracket content :: ts'' =>
            match terminated Syntax parse_provided_trait content with
            | Err e => Err e
            | Ok [] => Err EmptyTraits
            | Ok l => Ok (mkTarget t l, ts'')
            end
        | KAs :: ts'' => result_map (λ r, (mkTarget t [r.1], r.2)) (parse_provided_trait ts'')
        | _ => Ok (mkTarget t [], ts')
        end
  end.
(** [parse_order_targets] *)
Definition parse_order_targets (old : list ProviderOrderTarget) (ts : list Token) : result (list ProviderOrderTarget * list Token) MacroError :=
  match ts with
  | KEq :: KBracket content :: ts' =>
      match terminated Syntax parse_order_target content with
      | Err e => Err e
      | Ok [] => Err EmptyTargets
      | Ok l => Ok (old ++ l, ts')
      end
  | KEq :: ts' => result_map (λ r, (old ++ [r.1], r.2)) (parse_order_target ts')
  | _ => Err Syntax
  end.

(** The assignments of the loop. *)
Definition set_id a v := let 'mkArgs i n p pr b f q m bv s fs fa nd o k e := a in mkArgs (Some v) n p pr b f q m bv s fs fa nd o k e.
Definition set_name a v := let 'mkArgs i n p pr b f q m bv s fs fa nd o k e := a in mkArgs i (Some v) p pr b f q m bv s fs fa nd o k e.
Definition set_provide a v := let 'mkArgs i n p pr b f q m bv s fs fa nd o k e := a in mkArgs i n v pr b f q m bv s fs fa nd o k e.
Definition set_priority a v := let 'mkArgs i n p pr b f q m bv s fs fa nd o k e := a in mkArgs i n p (Some v) b f q m bv s fs fa nd o k e.
Definition set_before a v := let 'mkArgs i n p pr b f q m bv s fs fa nd o k e := a in mkArgs i n p pr v f q m bv s fs fa nd o k e.
Definition set_after a v := let 'mkArgs i n p pr b f q m bv s fs fa nd o k e := a in mkArgs i n p pr b v q m bv s fs fa nd o k e.
Definition set_qualifier a v := let 'mkArgs i n p pr b f q m bv s fs fa nd o k e := a in mkArgs i n p pr b f (Some v) m bv s fs fa nd o k e.
Definition set_primary a := let 'mkArgs i n p pr b f q m bv s fs fa nd o k e := a in mkArgs i n p pr b f q true bv s fs fa nd o k e.
Definition set_by_value a := let 'mkArgs i n p pr b f q m bv s fs fa nd o k e := a in mkArgs i n p pr b f q m true s fs fa nd o k e.
Definition set_scope a v := let 'mkArgs i n p pr b f q m bv s fs fa nd o k e := a in mkArgs i n p pr b f q m bv (Some v) fs fa nd o k e.
Definition set_factory_slice a v := let 'mkArgs i n p pr b f q m bv s fs fa nd o k e := a in mkArgs i n p pr b f q m bv s (Some v) fa nd o k e.
Definition set_factory a v := let 'mkArgs i n p pr b f q m bv s fs fa nd o k e := a in mkArgs i n p pr b f q m bv s fs (Some v) nd o k e.
Definition set_default_factory a v := let 'mkArgs i n p pr b f q m bv s fs fa nd o k e := a in mkArgs i n p pr b f q m bv s fs fa (negb v) o k e.
Definition set_overseerd a v := let 'mkArgs i n p pr b f q m bv s fs fa nd o k e := a in mkArgs i n p pr b f q m bv s fs fa nd (Some v) k e.
Definition set_krate a v := let 'mkArgs i n p pr b f q m bv s fs fa nd o k e := a in mkArgs i n p pr b f q m bv s fs fa nd o (Some v) e.
Definition set_ext a v := let 'mkArgs i n p pr b f q m bv s fs fa nd o k e := a in mkArgs i n p pr b f q m bv s fs fa nd o k v.
Definition stored {A} (set : ComponentArgs → A → ComponentArgs) (a : ComponentArgs) (r : result (A * list Token) MacroError) : result (ComponentArgs * list Token) MacroError :=
  result_map (λ r, (set a r.1, r.2)) r.
(** The value of a key, read. *)
Definition parse_key (a : ComponentArgs) (key : string) (ts : list Token) : result (ComponentArgs * list Token) MacroError :=
  if bool_decide (key = "id") then stored set_id a (parse_value ts)
  else if bool_decide (key = "name") then stored set_name a (parse_value ts)
  else if bool_decide (key = "qualifier") then stored set_qualifier a (parse_value ts)
  else if bool_decide (key = "primary") then Ok (set_primary a, ts)
  else if bool_decide (key = "priority") then stored set_priority a (after_eq parse_expr ts)
  else if bool_decide (key = "by_value") then Ok (set_by_value a, ts)
  else if bool_decide (key = "factory_slice") then stored set_factory_slice a (after_eq parse_ident ts)
  else if bool_decide (key = "factory") then stored set_factory a (after_eq parse_path ts)
  else if bool_decide (key = "default_factory") then stored set_default_factory a (after_eq parse_bool_lit ts)
  else if bool_decide (key = "overseerd") then stored set_overseerd a (parse_path_override ts)
  else if bool_decide (key = "crate") then stored set_krate a (parse_path_override ts)
  else if bool_decide (key = "scope") then stored set_scope a (after_eq parse_scope_path ts)
  else if bool_decide (key = "provide") then stored set_provide a (after_eq (parse_provide (provide a)) ts)
  else if bool_decide (key = "before") then stored set_before a (parse_order_targets (before a) ts)
  else if bool_decide (key = "after") then stored set_after a (parse_order_targets (after a) ts)
  else
    match parse_keyed (ext a) key ts with
    | Err e => Err e
    | Ok (Some x, ts') => Ok (set_ext a x, ts')
    | Ok (None, _) => Err (UnknownKey key)
    end.
Fixpoint parse_loop (fuel : nat) (a : ComponentArgs) (ts : list Token) : result ComponentArgs MacroError :=
  match ts, fuel with
  | [], _ => Ok a
  | _, O => Err Syntax
  | KIdent key :: ts', S fuel' =>
      match parse_key a key ts' with
      | Err e => Err e
      | Ok (a', ts'') => parse_loop fuel' a' (eat_comma ts'')
      end
  | _, _ => Err Syntax
  end.
(** The duplicates are looked for by their text. *)
Fixpoint has_duplicate (seen : list string) (l : list Ty) : bool :=
  match l with [] => false | t :: l' => bool_decide (type_text t ∈ seen) || has_duplicate (type_text t :: seen) l' end.
Definition check_args (a : ComponentArgs) : result ComponentArgs MacroError :=
  if by_value a && negb (bool_decide (length (provide a) = 0%nat)) then Err ByValueProvides
  else if has_duplicate [] (provide a) then Err DuplicateTrait
  else if bool_decide (length (provide a) = 0%nat) && (match a_priority a with Some _ => true | None => false end || negb (bool_decide (length (before a) = 0%nat)) || negb (bool_decide (length (after a) = 0%nat)))
  then Err OrderWithoutProvide
  else Ok a.
(** [ComponentArgs::parse] *)
Definition parse_component_args (ts : list Token) : result ComponentArgs MacroError :=
  match parse_loop (length ts) default_args ts with Err e => Err e | Ok a => check_args a end.
End Args.
Arguments ProviderOrderTarget : clear implicits.
Arguments ComponentArgs : clear implicits.

(** ** What the component registers *)

Section Expansion.
Context {Ty Expr Path Ext : Type} `{SynType Ty, SynPath Path, ComponentExt Path Ext}.
Context (type_of : Ty → TypeDescriptor) (value_of : Expr → Z).
(** The identity that [expand] resolves; [self_type] is the descriptor of the type. *)
Definition component_id (ident : string) (a : ComponentArgs Ty Expr Path Ext) : string := from_option (λ x, x) (to_lowercase ident) (a_id a).
Definition component_name (ident : string) (a : ComponentArgs Ty Expr Path Ext) : string := from_option (λ x, x) ident (a_name a).
Definition component_context (ident : string) (a : ComponentArgs Ty Expr Path Ext) : ComponentContext Path :=
  mkContext ident ident (component_id ident a) (component_name ident a) (scope a).
(** Whether the default factory by field injection is emitted. *)
Definition emits_default (a : ComponentArgs Ty Expr Path Ext) : bool := match factory a with Some _ => false | None => negb (no_default_factory a) end.
(** [expand], up to the tokens: the extension gets the identity and may refuse. *)
Definition expand_component (ident : string) (a : ComponentArgs Ty Expr Path Ext) : result (ComponentArgs Ty Expr Path Ext) MacroError :=
  result_map (set_ext a) (parse_item (component_context ident a) (ext a)).

(** [generate_providers] *)
Definition order_of (direction : ProviderOrderDirection) (t : ProviderOrderTarget Ty) : ProviderOrder :=
  mkOrder (type_of (target t)) (type_of <$> traits t) direction.
Definition provider_ordering (a : ComponentArgs Ty Expr Path Ext) : list ProviderOrder := (order_of Before <$> before a) ++ (order_of After <$> after a).
Definition provider_qualifier (ident : string) (a : ComponentArgs Ty Expr Path Ext) : string :=
  match qualifier a with Some q => q | None => component_id ident a end.
Definition generate_providers (ident : string) (self_type : TypeDescriptor) (a : ComponentArgs Ty Expr Path Ext) : list ProviderDescriptor :=
  (λ t, mkProvider (type_of t) self_type (provider_qualifier ident a) (a_primary a) (match a_priority a with Some e => value_of e | None => 0 end) (provider_ordering a)) <$> provide a.
(** What the ordering assertions demand: pairs of a component and a trait it provides. *)
Definition ordering_assertions (a : ComponentArgs Ty Expr Path Ext) : list (Ty * Ty) :=
  concat ((λ t, pair (target t) <$> traits t) <$> before a ++ after a).
End Expansion.

(** ** Extensions *)

(** [NoExt] *)
Definition NoExt : Type := unit.
#[export] Instance no_ext_keyed : ParseKeyed NoExt := { ext_default := tt; parse_keyed _ _ ts := Ok (None, ts) }.
#[export] Instance no_ext {Path} : ComponentExt Path NoExt := {
  ext_keyed := no_ext_keyed; parse_item _ e := Ok e; defers_factory _ := false; asserts_wired _ := false }.
(** [Router] *)
Section Router.
Context {Path Ext : Type} `{SynPath Path, ComponentExt Path Ext}.
Record Router := mkRouter { r_version : option string; r_rpc_slice : option string; r_context : option (ComponentContext Path); r_inner : Ext }.
Definition router_keyed (r : Router) (key : string) (ts : list Token) : result (option Router * list Token) MacroError :=
  if bool_decide (key = "version") then
    result_map (λ v, (Some (mkRouter (Some v.1) (r_rpc_slice r) (r_context r) (r_inner r)), v.2)) (parse_str (eat_eq ts))
  else if bool_decide (key = "rpc_slice") then
    result_map (λ v, (Some (mkRouter (r_version r) (Some v.1) (r_context r) (r_inner r)), v.2)) (parse_ident (eat_eq ts))
  else
    result_map (λ v, ((λ i, mkRouter (r_version r) (r_rpc_slice r) (r_context r) i) <$> v.1, v.2)) (parse_keyed (r_inner r) key ts).
Definition router_item (cx : ComponentContext Path) (r : Router) : result Router MacroError :=
  if match cx_scope cx with Some s => negb (bool_decide (path_last s = Some "Singleton")) | None => false end then Err NotASingleton
  else result_map (mkRouter (r_version r) (r_rpc_slice r) (Some cx)) (parse_item cx (r_inner r)).
#[export] Instance router_ParseKeyed : ParseKeyed Router := { ext_default := mkRouter None None None ext_default; parse_keyed := router_keyed }.
#[export] Instance router_ext : ComponentExt Path Router := {
  ext_keyed := router_ParseKeyed; parse_item := router_item; defers_factory _ := true; asserts_wired _ := true }.
(** What [to_tokens] registers of the service; [None] is nothing. *)
Record ServiceIdentity := mkServiceIdentity { s_id : string; s_name : string; s_version : option string; s_slice : string; s_client : string }.
Definition service_identity (r : Router) : option ServiceIdentity :=
  cx ← r_context r;
  Some (mkServiceIdentity (cx_id cx) (cx_name cx) (r_version r) (from_option (λ x, x) (cx_ident cx +:+ "Rpcs") (r_rpc_slice r)) (cx_ident cx +:+ "Client")).
End Router.
Arguments Router : clear implicits.

(** [MethodArgs] *)
Section MethodArgs.
Context {Path Ext : Type} `{ParseKeyed Ext} (parse_path : Parser MacroError Path).
Record MethodArgs := mkMethodArgs { ma_slice : option string; ma_overseerd : option Path; ma_krate : option Path; ma_ext : Ext }.
Definition parse_method_key (a : MethodArgs) (key : string) (ts : list Token) : result (MethodArgs * list Token) MacroError :=
  if bool_decide (key = "factory_slice") then result_map (λ v, (mkMethodArgs (Some v.1) (ma_overseerd a) (ma_krate a) (ma_ext a), v.2)) (parse_ident (eat_eq ts))
  else if bool_decide (key = "overseerd") then result_map (λ v, (mkMethodArgs (ma_slice a) (Some v.1) (ma_krate a) (ma_ext a), v.2)) (after_eq parse_path ts)
  else if bool_decide (key = "crate") then result_map (λ v, (mkMethodArgs (ma_slice a) (ma_overseerd a) (Some v.1) (ma_ext a), v.2)) (after_eq parse_path ts)
  else
    match parse_keyed (ma_ext a) key ts with
    | Err e => Err e
    | Ok (Some x, ts') => Ok (mkMethodArgs (ma_slice a) (ma_overseerd a) (ma_krate a) x, ts')
    | Ok (None, _) => Err (UnknownKey key)
    end.
Fixpoint parse_method_loop (fuel : nat) (a : MethodArgs) (ts : list Token) : result MethodArgs MacroError :=
  match ts, fuel with
  | [], _ => Ok a
  | _, O => Err Syntax
  | KIdent key :: ts', S fuel' => match parse_method_key a key ts' with Err e => Err e | Ok (a', ts'') => parse_method_loop fuel' a' (eat_comma ts'') end
  | _, _ => Err Syntax
  end.
Definition parse_method_args (ts : list Token) : result MethodArgs MacroError := parse_method_loop (length ts) (mkMethodArgs None None None ext_default) ts.
End MethodArgs.
Arguments MethodArgs : clear implicits.

(** ** Accepted arguments are well formed *)

Section WellFormed.
Context {Ty Expr Path Ext : Type} `{SynType Ty, SynPath Path, ParseKeyed Ext}.
Context (parse_type : Parser MacroError Ty) (parse_expr : Parser MacroError Expr) (parse_path : Parser MacroError Path) (type_text : Ty → string).
Definition target_ok (t : ProviderOrderTarget Ty) : Prop := is_trait_object (target t) = false ∧ Forall (λ t, is_trait_object t = true) (traits t).
Definition args_ok (a : ComponentArgs Ty Expr Path Ext) : Prop := Forall (λ t, is_trait_object t = true) (provide a) ∧ Forall target_ok (before a) ∧ Forall target_ok (after a).

Lemma provided_trait_ok ts t ts' : parse_provided_trait parse_type ts = Ok (t, ts') → is_trait_object t = true.
Proof. unfold parse_provided_trait. destruct (parse_type ts) as [[u r]|e]; [|done]. by destruct (is_trait_object u) eqn:Hu; [intros [= <- <-]|]. Qed.
Lemma provided_traits_ok content l : terminated Syntax (parse_provided_trait parse_type) content = Ok l → Forall (λ t, is_trait_object t = true) l.
Proof. by apply terminated_Forall, provided_trait_ok. Qed.
Lemma order_target_ok ts t ts' : parse_order_target parse_type ts = Ok (t, ts') → target_ok t.
Proof.
  assert (Hone : ∀ u ts, is_trait_object u = false → result_map (λ r, (mkTarget u [r.1], r.2)) (parse_provided_trait parse_type ts) = Ok (t, ts') → target_ok t).
  { intros u ts0 Hu. destruct (parse_provided_trait parse_type ts0) as [[v r]|e] eqn:Hv; [|done]. intros [= <- <-]. split; [done|].
    cbn. repeat constructor. by eapply provided_trait_ok. }
  unfold parse_order_target. destruct (parse_type ts) as [[u r]|e]; [|done]. destruct (is_trait_object u) eqn:Hu; [done|].
  destruct r as [|[] r]; try (intros [= <- <-]; by split; [|constructor]). destruct r as [|[] r]; try by apply Hone.
  destruct (terminated _ _ content) as [[|x l]|e] eqn:Hl; [done| |done]. intros [= <- <-]. split; [done|]. by eapply provided_traits_ok.
Qed.
Lemma parse_provide_ok old ts l ts' : Forall (λ t, is_trait_object t = true) old → parse_provide parse_type old ts = Ok (l, ts') → Forall (λ t, is_trait_object t = true) l.
Proof.
  intros Ho. assert (Hone : ∀ ts, result_map (λ r, (old ++ [r.1], r.2)) (parse_provided_trait parse_type ts) = Ok (l, ts') → Forall (λ t, is_trait_object t = true) l).
  { intros ts0. destruct (parse_provided_trait parse_type ts0) as [[v r]|e] eqn:Hv; [|done]. intros [= <- <-]. apply Forall_app_2; [done|].
    repeat constructor. by eapply provided_trait_ok. }
  unfold parse_provide. destruct ts as [|[] ts]; try apply Hone. destruct (terminated _ _ content) as [x|e] eqn:Hl; [|done].
  intros [= <- <-]. apply Forall_app_2; [done|by eapply provided_traits_ok].
Qed.
Lemma parse_order_targets_ok old ts l ts' : Forall target_ok old → parse_order_targets parse_type old ts = Ok (l, ts') → Forall target_ok l.
Proof.
  intros Ho. assert (Hone : ∀ ts, result_map (λ r, (old ++ [r.1], r.2)) (parse_order_target parse_type ts) = Ok (l, ts') → Forall target_ok l).
  { intros ts0. destruct (parse_order_target parse_type ts0) as [[v r]|e] eqn:Hv; [|done]. intros [= <- <-]. apply Forall_app_2; [done|].
    repeat constructor; by eapply order_target_ok. }
  unfold parse_order_targets. destruct ts as [|[] ts]; try done. destruct ts as [|[] ts]; try apply Hone.
  destruct (terminated _ _ content) as [[|x xs]|e] eqn:Hl; [done| |done]. intros [= <- <-]. apply Forall_app_2; [done|].
  eapply terminated_Forall; [|exact Hl]. intros; by eapply order_target_ok.
Qed.
Lemma parse_key_ok (a a' : ComponentArgs Ty Expr Path Ext) key ts ts' : args_ok a → parse_key parse_type parse_expr parse_path a key ts = Ok (a', ts') → args_ok a'.
Proof.
  intros (Hp & Hb & Hf). unfold parse_key, stored. destruct a as [i n p pr b f q m bv s fs fa nd o k e]. cbn [provide before after ext] in *.
  repeat (case_bool_decide; [try (intros [= <- <-]; done);
    match goal with |- result_map _ ?r = _ → _ => destruct r as [[v r']|] eqn:Hv; [|done]; intros [= <- <-] end; try done|]).
  - unfold after_eq in Hv. destruct ts as [|[] ts]; try done. split; [by eapply parse_provide_ok|done].
  - split; [done|]. split; [by eapply parse_order_targets_ok, Hv|done].
  - split; [done|]. split; [done|by eapply parse_order_targets_ok, Hv].
  - destruct (parse_keyed _ _ _) as [[[x|] r]|]; try done. by intros [= <- <-].
Qed.
Lemma parse_loop_ok fuel (a a' : ComponentArgs Ty Expr Path Ext) ts : args_ok a → parse_loop parse_type parse_expr parse_path fuel a ts = Ok a' → args_ok a'.
Proof.
  revert a ts. induction fuel as [|fuel IH]; intros a [|t ts] Ha; cbn [parse_loop]; try by intros [= <-].
  - by destruct t.
  - destruct t; try done. destruct (parse_key _ _ _ a name ts) as [[a1 ts1]|] eqn:Hk; [|done]. apply IH. by eapply parse_key_ok.
Qed.
Lemma has_duplicate_false seen (l : list Ty) : has_duplicate type_text seen l = false → NoDup (type_text <$> l) ∧ ∀ t, t ∈ l → type_text t ∉ seen.
Proof.
  revert seen. induction l as [|t l IH]; intros seen; cbn [has_duplicate]; [intros _; split; [constructor|set_solver]|].
  intros [Hn Hd]%orb_false_iff. apply bool_decide_eq_false in Hn. destruct (IH _ Hd) as [Hnd Hs]. split.
  - rewrite fmap_cons. constructor; [|done]. intros (u & Hu & Hin)%list_elem_of_fmap. specialize (Hs u Hin). set_solver.
  - intros u [->|Hu]%elem_of_cons; [done|]. specialize (Hs u Hu). set_solver.
Qed.
(** what the macro accepts makes sense. Whatever tokens a component's arguments are read
    from, if they are accepted then every provided type is a trait object and none is
    provided twice, every component that is ordered against is concrete and the traits
    it is ordered for are trait objects, a component stored by value provides nothing,
    and one that provides nothing has no place in an order. *)
Theorem accepted_args_well_formed ts (a : ComponentArgs Ty Expr Path Ext) : parse_component_args parse_type parse_expr parse_path type_text ts = Ok a →
  args_ok a ∧ NoDup (type_text <$> provide a) ∧ (by_value a = true → provide a = []) ∧
  (provide a = [] → a_priority a = None ∧ before a = [] ∧ after a = []).
Proof.
  unfold parse_component_args. destruct (parse_loop _ _ _ _ _ ts) as [b|e] eqn:Hl; [|done]. unfold check_args.
  destruct (by_value b && _) eqn:Hbv; [done|]. destruct (has_duplicate _ _ _) eqn:Hd; [done|]. destruct (bool_decide _ && _) eqn:Ho; [done|].
  intros [= <-]. apply parse_loop_ok in Hl; [|by repeat split; constructor]. split; [done|]. apply has_duplicate_false in Hd as [Hd _]. split; [done|]. split.
  - intros Hb. rewrite Hb in Hbv. cbn in Hbv. apply negb_false_iff, bool_decide_eq_true, length_zero_iff_nil in Hbv. done.
  - intros Hp. rewrite Hp in Ho. cbn in Ho. apply orb_false_iff in Ho as [[Hpr Hb]%orb_false_iff Ha]. apply negb_false_iff, bool_decide_eq_true, length_zero_iff_nil in Ha, Hb.
    split; [by destruct (a_priority b)|done].
Qed.
End WellFormed.

(** ** Arguments mean what is written *)

(** What an extension promises: it has entries of its own, whose keys are not the base's,
    and reads each of them as it is printed. *)
Class ParseKeyedLaws (Ext X : Type) `{ParseKeyed Ext} := {
  ext_key : X → string; ext_print : X → list Token; ext_apply : Ext → X → Ext;
  ext_key_own : ∀ x, ext_key x ∉ COMPONENT_KEYS;
  ext_reads : ∀ x e rest, follows rest → parse_keyed e (ext_key x) (ext_print x ++ rest) = Ok (Some (ext_apply e x), rest) }.

Section Written.
Context {Ty Expr Path Ext X : Type} `{SynType Ty, SynPath Path, ParseKeyed Ext, !ParseKeyedLaws Ext X}.
Context (parse_type : Parser MacroError Ty) (parse_expr : Parser MacroError Expr) (parse_path : Parser MacroError Path) (type_text : Ty → string).
Context (print_type : Ty → list Token) (print_expr : Expr → list Token) (print_path : Path → list Token).
(** A type is also read up to [as]. *)
Context (Htype : ∀ t, print_type t ≠ [] ∧ ∀ rest, follows rest ∨ (∃ r, rest = KAs :: r) → parse_type (print_type t ++ rest) = Ok (t, rest)).
Context (Hexpr : ∀ e, reads parse_expr print_expr e) (Hpath : ∀ p, reads parse_path print_path p).

Inductive Entry :=
| EId (s : string) | EName (s : string) | EQualifier (s : string) | EPrimary | EPriority (e : Expr) | EByValue | ESlice (i : string)
| EFactory (p : Path) | EDefaultFactory (b : bool) | EOverseerd (p : Path) | EScope (p : Path)
| EProvide (t : Ty) | EProvides (l : list Ty) (comma : bool)
| EBefore (t : ProviderOrderTarget Ty) | EBefores (l : list (ProviderOrderTarget Ty)) (comma : bool)
| EAfter (t : ProviderOrderTarget Ty) | EAfters (l : list (ProviderOrderTarget Ty)) (comma : bool)
| EExt (x : X).
Definition print_target (t : ProviderOrderTarget Ty) : list Token :=
  print_type (target t) ++
  match traits t with [] => [] | [u] => KAs :: print_type u | l => [KAs; KBracket (print_list print_type l false)] end.
Definition key_of (e : Entry) : string :=
  match e with
  | EId _ => "id" | EName _ => "name" | EQualifier _ => "qualifier" | EPrimary => "primary" | EPriority _ => "priority" | EByValue => "by_value"
  | ESlice _ => "factory_slice" | EFactory _ => "factory" | EDefaultFactory _ => "default_factory" | EOverseerd _ => "overseerd" | EScope _ => "scope"
  | EProvide _ | EProvides _ _ => "provide" | EBefore _ | EBefores _ _ => "before" | EAfter _ | EAfters _ _ => "after" | EExt x => ext_key x
  end.
Definition print_value (e : Entry) : list Token :=
  match e with
  | EId s | EName s | EQualifier s => [KEq; KStr s] | EPrimary | EByValue => [] | EPriority e => KEq :: print_expr e | ESlice i => [KEq; KIdent i]
  | EFactory p | EOverseerd p | EScope p => KEq :: print_path p | EDefaultFactory b => [KEq; KBool b]
  | EProvide t => KEq :: print_type t | EProvides l c => [KEq; KBracket (print_list print_type l c)]
  | EBefore t | EAfter t => KEq :: print_target t | EBefores l c | EAfters l c => [KEq; KBracket (print_list print_target l c)]
  | EExt x => ext_print x
  end.
Definition print_entry (e : Entry) : list Token := KIdent (key_of e) :: print_value e.
Definition starts_bracket (ts : list Token) : bool := match ts with KBracket _ :: _ => true | _ => false end.
Definition entry_ok (e : Entry) : Prop :=
  match e with
  | EProvide t => is_trait_object t = true ∧ starts_bracket (print_type t) = false
  | EProvides l _ => Forall (λ t, is_trait_object t = true) l
  | EBefore t | EAfter t => target_ok t ∧ starts_bracket (print_type (target t)) = false ∧ Forall (λ u, starts_bracket (print_type u) = false) (traits t)
  | EBefores l _ | EAfters l _ => l ≠ [] ∧ Forall (λ t, target_ok t ∧ Forall (λ u, starts_bracket (print_type u) = false) (traits t)) l
  | _ => True
  end.
Definition apply_entry (a : ComponentArgs Ty Expr Path Ext) (e : Entry) : ComponentArgs Ty Expr Path Ext :=
  match e with
  | EId s => set_id a s | EName s => set_name a s | EQualifier s => set_qualifier a s | EPrimary => set_primary a | EPriority e => set_priority a e
  | EByValue => set_by_value a | ESlice i => set_factory_slice a i | EFactory p => set_factory a p | EDefaultFactory b => set_default_factory a b
  | EOverseerd p => set_overseerd a p | EScope p => set_scope a (scope_alias p)
  | EProvide t => set_provide a (provide a ++ [t]) | EProvides l _ => set_provide a (provide a ++ l)
  | EBefore t => set_before a (before a ++ [t]) | EBefores l _ => set_before a (before a ++ l)
  | EAfter t => set_after a (after a ++ [t]) | EAfters l _ => set_after a (after a ++ l)
  | EExt x => set_ext a (ext_apply (ext a) x)
  end.

Lemma provided_reads t : is_trait_object t = true → reads (parse_provided_trait parse_type) print_type t.
Proof. intros Ht. split; [apply Htype|]. intros rest Hr. unfold parse_provided_trait. rewrite (proj2 (Htype t)) by by left. by rewrite Ht. Qed.
Lemma provideds_read l c : Forall (λ t, is_trait_object t = true) l → terminated Syntax (parse_provided_trait parse_type) (print_list print_type l c) = Ok l.
Proof. intros Hl. apply terminated_print. eapply Forall_impl; [done|]. apply provided_reads. Qed.
(** A match on whether a list starts with a bracket, when it does not. *)
Lemma no_bracket {B} (ts : list Token) (f : list Token → list Token → B) (g : B) : starts_bracket ts = false →
  match ts with KBracket content :: ts' => f content ts' | _ => g end = g.
Proof. by destruct ts as [|[] ts]. Qed.
Lemma starts_bracket_app l rest : l ≠ [] → starts_bracket l = false → starts_bracket (l ++ rest) = false.
Proof. by destruct l as [|[] l]. Qed.
Lemma target_reads t : target_ok t → Forall (λ u, starts_bracket (print_type u) = false) (traits t) → reads (parse_order_target parse_type) print_target t.
Proof.
  intros [Ht Hu] Hb. destruct t as [t l]. cbn [target traits] in *. assert (Hne : print_target (mkTarget t l) ≠ []).
  { unfold print_target. cbn. destruct (Htype t) as [Hne _]. by destruct (print_type t). }
  split; [done|]. intros rest Hr. unfold print_target, parse_order_target. cbn [target traits]. rewrite <- app_assoc.
  destruct l as [|u [|v l]]; cbn [app].
  - rewrite (proj2 (Htype t)) by by left. rewrite Ht. by destruct Hr as [-> | [r ->]].
  - rewrite (proj2 (Htype t)) by (right; by eexists). rewrite Ht. apply Forall_cons in Hu as [Hu _], Hb as [Hb _].
    rewrite (no_bracket (print_type u ++ rest)) by (apply starts_bracket_app; [apply Htype|done]).
    by rewrite (proj2 (provided_reads u Hu)).
  - rewrite (proj2 (Htype t)) by (right; by eexists). rewrite Ht. by rewrite provideds_read.
Qed.
Lemma targets_read l c : Forall (λ t, target_ok t ∧ Forall (λ u, starts_bracket (print_type u) = false) (traits t)) l →
  terminated Syntax (parse_order_target parse_type) (print_list print_target l c) = Ok l.
Proof. intros Hl. apply terminated_print. eapply Forall_impl; [done|]. intros t [Ht Hu]. by apply target_reads. Qed.
Lemma order_targets_one old t rest : target_ok t ∧ starts_bracket (print_type (target t)) = false ∧ Forall (λ u, starts_bracket (print_type u) = false) (traits t) →
  follows rest → parse_order_targets parse_type old (KEq :: print_target t ++ rest) = Ok (old ++ [t], rest).
Proof.
  intros (Ht & Hb & Hu) Hr. unfold parse_order_targets. rewrite (no_bracket (print_target t ++ rest)).
  - by rewrite (proj2 (target_reads t Ht Hu)).
  - unfold print_target. rewrite <- app_assoc. apply starts_bracket_app; [apply Htype|done].
Qed.
Lemma order_targets_list old l c rest : l ≠ [] → Forall (λ t, target_ok t ∧ Forall (λ u, starts_bracket (print_type u) = false) (traits t)) l →
  parse_order_targets parse_type old (KEq :: KBracket (print_list print_target l c) :: rest) = Ok (old ++ l, rest).
Proof. intros Hne Hl. unfold parse_order_targets. rewrite targets_read by done. by destruct l. Qed.
Lemma provide_one old t rest : is_trait_object t = true → starts_bracket (print_type t) = false → follows rest →
  parse_provide parse_type old (print_type t ++ rest) = Ok (old ++ [t], rest).
Proof.
  intros Ht Hb Hr. unfold parse_provide. rewrite (no_bracket (print_type t ++ rest)) by (apply starts_bracket_app; [apply Htype|done]).
  by rewrite (proj2 (provided_reads t Ht)).
Qed.
Ltac pick_key := unfold parse_key, stored; repeat match goal with |- context [bool_decide (?a = ?b)] =>
  let v := eval vm_compute in (bool_decide (a = b)) in change (bool_decide (a = b)) with v; cbv iota end.
Lemma parse_entry a e rest : entry_ok e → follows rest →
  parse_key parse_type parse_expr parse_path a (key_of e) (print_value e ++ rest) = Ok (apply_entry a e, rest).
Proof.
  intros He Hr. destruct e; cbn [key_of print_value entry_ok apply_entry app] in *;
    try (pick_key; unfold after_eq, parse_path_override, after_eq, parse_scope_path;
      rewrite ?(proj2 (Hexpr _)), ?(proj2 (Hpath _)) by done; done).
  - pick_key. unfold after_eq. by rewrite provide_one by naive_solver.
  - pick_key. unfold after_eq, parse_provide. by rewrite provideds_read.
  - pick_key. by rewrite order_targets_one.
  - pick_key. by rewrite order_targets_list by naive_solver.
  - pick_key. by rewrite order_targets_one.
  - pick_key. by rewrite order_targets_list by naive_solver.
  - pose proof (ext_key_own x) as Hk. unfold COMPONENT_KEYS in Hk. unfold parse_key. repeat (rewrite bool_decide_false by set_solver). by rewrite ext_reads.
Qed.
Lemma parse_loop_print es trailing fuel a : Forall entry_ok es → (length (print_list print_entry es trailing) ≤ fuel)%nat →
  parse_loop parse_type parse_expr parse_path fuel a (print_list print_entry es trailing) = Ok (foldl apply_entry a es).
Proof.
  intros Hes. revert fuel a. induction Hes as [|e es He Hes IH]; intros fuel a Hf; [by destruct fuel|].
  assert (Hstep : ∀ fuel rest, follows rest → parse_loop parse_type parse_expr parse_path (S fuel) a (print_entry e ++ rest) =
    parse_loop parse_type parse_expr parse_path fuel (apply_entry a e) (eat_comma rest)).
  { intros fuel' rest Hr. unfold print_entry. cbn [app parse_loop]. by rewrite parse_entry. }
  destruct fuel as [|fuel]; [destruct es; cbn in Hf; [|rewrite length_app in Hf; cbn in Hf]; lia|]. cbn [foldl]. destruct es as [|e' es].
  - cbn [print_list] in *. rewrite Hstep by (destruct trailing; [right; by eexists|by left]). destruct trailing, fuel; done.
  - change (print_list print_entry (e :: e' :: es) trailing) with (print_entry e ++ KComma :: print_list print_entry (e' :: es) trailing) in *.
    rewrite Hstep by (right; by eexists). cbn [eat_comma]. apply IH. rewrite length_app in Hf. unfold print_entry in Hf at 1. cbn [length] in Hf. lia.
Qed.
(** the arguments of a component mean what is written. Entries in any order, separated
    by commas and perhaps followed by one, are all read, each sets what it names (the
    lists of traits and of ordering targets grow, everything else is replaced), an
    extension reads its own, and only then are they checked. *)
Theorem component_args_mean es trailing : Forall entry_ok es →
  parse_component_args parse_type parse_expr parse_path type_text (print_list print_entry es trailing) =
  check_args type_text (foldl apply_entry default_args es).
Proof. intros Hes. unfold parse_component_args. by rewrite parse_loop_print. Qed.
End Written.

(** [Router] keeps the promise. *)
Inductive RouterEntry := RVersion (v : string) (eq : bool) | RSlice (i : string) (eq : bool).
#[export, refine] Instance router_laws {Path} `{SynPath Path} : ParseKeyedLaws (Router Path NoExt) RouterEntry := {
  ext_key x := match x with RVersion _ _ => "version" | RSlice _ _ => "rpc_slice" end;
  ext_print x := match x with RVersion v eq => (if eq then [KEq] else []) ++ [KStr v] | RSlice i eq => (if eq then [KEq] else []) ++ [KIdent i] end;
  ext_apply r x := match x with
                   | RVersion v _ => mkRouter (Some v) (r_rpc_slice r) (r_context r) (r_inner r)
                   | RSlice i _ => mkRouter (r_version r) (Some i) (r_context r) (r_inner r)
                   end;
  ext_key_own := _; ext_reads := _ }.
Proof.
  - intros []; apply (bool_decide_unpack _); reflexivity.
  - by intros [v []|i []] e rest Hr.
Defined.

(** ** Providers *)

Section Providers.
Context {Ty Expr Path Ext : Type} `{SynType Ty, SynPath Path, ComponentExt Path Ext}.
Context (parse_type : Parser MacroError Ty) (parse_expr : Parser MacroError Expr) (parse_path : Parser MacroError Path) (type_text : Ty → string).
Context (type_of : Ty → TypeDescriptor) (value_of : Expr → Z).
(** a component registers one provider for each trait it is said to provide. They all
    carry its type, its qualifier (the one given, else its id, else its lower-case
    name), its priority and its order, with what comes before it and what it follows in
    the order written; no two of them have one text, so that if types of different text
    are different no trait is registered twice; a component stored by value registers
    none; and the components it is ordered for a trait against are asserted to provide
    that trait. *)
Theorem providers_of_component ts (a : ComponentArgs Ty Expr Path Ext) ident self_type :
  parse_component_args parse_type parse_expr parse_path type_text ts = Ok a →
  let ps := generate_providers type_of value_of ident self_type a in
  (trait_ty <$> ps = type_of <$> provide a) ∧ NoDup (type_text <$> provide a) ∧ (by_value a = true → ps = []) ∧
  (∀ p, p ∈ ps → concrete_ty p = self_type ∧ primary p = a_primary a ∧ priority p = from_option value_of 0 (a_priority a) ∧
    p_qualifier p = match qualifier a, a_id a with Some q, _ => q | None, Some i => i | None, None => to_lowercase ident end ∧
    ordering p = (order_of type_of Before <$> before a) ++ (order_of type_of After <$> after a)) ∧
  (∀ p o tr, p ∈ ps → o ∈ ordering p → tr ∈ po_traits o → ∃ c t, (c, t) ∈ ordering_assertions a ∧ type_of c = po_target o ∧ type_of t = tr ∧ is_trait_object t = true ∧ is_trait_object c = false).
Proof.
  intros (Hok & Hnd & Hbv & _)%accepted_args_well_formed ps. unfold ps, generate_providers. split; [by rewrite <- list_fmap_compose|].
  split; [done|]. split; [intros Hb; by rewrite (Hbv Hb)|]. split.
  - intros p (t & -> & _)%list_elem_of_fmap. by repeat split.
  - intros p o tr (t0 & -> & _)%list_elem_of_fmap Ho Htr. cbn [ordering] in Ho. unfold provider_ordering in Ho.
    assert (∃ tg, tg ∈ before a ++ after a ∧ po_target o = type_of (target tg) ∧ po_traits o = type_of <$> traits tg) as (tg & Htg & Hpo & Hpt).
    { apply elem_of_app in Ho as [Ho|Ho]; apply list_elem_of_fmap in Ho as (tg & -> & Htg); exists tg; (split; [apply elem_of_app; tauto|done]). }
    rewrite Hpt in Htr. apply list_elem_of_fmap in Htr as (t & -> & Ht). exists (target tg), t.
    assert (Htok : target_ok tg). { destruct Hok as (_ & Hb & Hf). apply elem_of_app in Htg as [Htg|Htg]; [by eapply Forall_forall in Hb|by eapply Forall_forall in Hf]. }
    destruct Htok as [Hc Hts]. rewrite Forall_forall in Hts. split; [|split; [done|split; [done|split; [by apply Hts|done]]]].
    unfold ordering_assertions. apply list_elem_of_In, in_concat. eexists. split; apply list_elem_of_In; [by apply list_elem_of_fmap_2, Htg|].
    by apply list_elem_of_fmap_2.
Qed.
End Providers.

(** ** Concrete components *)

Inductive CTy := Dyn (name : string) | Con (name : string).
#[local] Instance CTy_syn : SynType CTy := {
  view (t : CTy) := match t with Dyn _ => VTraitObject | Con n => VPath true [mkSeg n None] end; unit_type := Con "Unit"; stream_item_of t := t }.
#[local] Instance string_path : SynPath string := { path_ident p := Some p; path_last p := Some p; ident_path n := n }.
Definition c_type : Parser MacroError CTy := λ ts, match ts with KOther "dyn" :: KIdent n :: ts' => Ok (Dyn n, ts') | KIdent n :: ts' => Ok (Con n, ts') | _ => Err Syntax end.
Definition c_print_type (t : CTy) : list Token := match t with Dyn n => [KOther "dyn"; KIdent n] | Con n => [KIdent n] end.
Definition c_text (t : CTy) : string := match t with Dyn n => "dyn " +:+ n | Con n => n end.
Definition c_expr : Parser MacroError string := λ ts, match ts with KOther s :: ts' => Ok (s, ts') | _ => Err Syntax end.
Definition c_print_expr (s : string) : list Token := [KOther s].
Definition c_print_path (s : string) : list Token := [KIdent s].
Definition c_parse (ts : list Token) : result (ComponentArgs CTy string string NoExt) MacroError := parse_component_args c_type c_expr parse_ident c_text ts.
Definition c_parse_service (ts : list Token) : result (ComponentArgs CTy string string (Router string NoExt)) MacroError := parse_component_args c_type c_expr parse_ident c_text ts.
Definition c_type_of (t : CTy) : TypeDescriptor := mkType (c_text t) (c_text t) (match t with Dyn n => 2 * str_len n | Con n => 2 * str_len n + 1 end).
Definition c_tokens : list Token :=
  [KIdent "provide"; KEq; KBracket [KOther "dyn"; KIdent "Repo"; KComma; KOther "dyn"; KIdent "Cache"]; KComma; KIdent "id"; KEq; KStr "pg"; KComma;
   KIdent "before"; KEq; KIdent "Mem"; KAs; KOther "dyn"; KIdent "Repo"].
Definition c_args : ComponentArgs CTy string string NoExt :=
  mkArgs (Some "pg") None [Dyn "Repo"; Dyn "Cache"] None [mkTarget (Con "Mem") [Dyn "Repo"]] [] None false false None None None false None None tt.

Example component_samples :
  c_parse c_tokens = Ok c_args ∧ c_parse [KIdent "colour"] = Err (UnknownKey "colour") ∧
  c_parse [KIdent "by_value"; KComma; KIdent "provide"; KEq; KOther "dyn"; KIdent "Repo"] = Err ByValueProvides ∧
  c_parse [KIdent "provide"; KEq; KIdent "Repo"] = Err NotATraitObject ∧ c_parse [KIdent "before"; KEq; KOther "dyn"; KIdent "Repo"] = Err NotConcrete ∧
  c_parse [KIdent "after"; KEq; KIdent "Mem"] = Err OrderWithoutProvide ∧ c_parse [KIdent "after"; KEq; KBracket []] = Err EmptyTargets ∧
  c_parse [KIdent "primary"; KEq; KBool true] = Err Syntax ∧
  is_ok (c_parse_service [KIdent "version"; KEq; KStr "1"; KIdent "rpc_slice"; KIdent "MyRpcs"]) = true ∧
  result_map scope (c_parse [KIdent "scope"; KEq; KIdent "request"]) = Ok (Some "Request") ∧
  p_qualifier <$> generate_providers c_type_of (λ _, 0) "PgRepo" (c_type_of (Con "PgRepo")) c_args = ["pg"; "pg"] ∧
  result_map (λ _, tt) (router_item (mkContext "S" "S" "s" "S" (Some "Request")) (ext_default : Router string NoExt)) = Err NotASingleton ∧
  is_ok (parse_method_args (Ext := NoExt) parse_ident [KIdent "factory_slice"; KIdent "Regs"; KComma; KIdent "overseerd"; KEq; KIdent "fork"]) = true.
Proof. vm_compute. repeat split. Qed.

Lemma c_types t : c_print_type t ≠ [] ∧ ∀ rest, follows rest ∨ (∃ r, rest = KAs :: r) → c_type (c_print_type t ++ rest) = Ok (t, rest).
Proof. by destruct t. Qed.
Lemma c_exprs e : reads c_expr c_print_expr e.
Proof. by split. Qed.
Lemma c_paths p : reads parse_ident c_print_path p.
Proof. by split. Qed.
Definition c_entries : list (@Entry CTy string string RouterEntry) :=
  [EProvides [Dyn "Repo"] true; EExt (RVersion "2" false); EPrimary; EAfter (mkTarget (Con "Mem") []); EName "pg"; EScope "singleton"; EName "postgres"].
Lemma component_args_mean_witness : ∃ a, c_parse_service (print_list (print_entry c_print_type c_print_expr c_print_path) c_entries true) = Ok a ∧
  a_name a = Some "postgres" ∧ r_version (ext a) = Some "2" ∧ scope a = Some "Singleton".
Proof.
  exists (mkArgs None (Some "postgres") [Dyn "Repo"] None [] [mkTarget (Con "Mem") []] None true false (Some "Singleton") None None false None None
    (mkRouter (Some "2") None None tt)).
  split; [|done]. unfold c_parse_service.
  rewrite (component_args_mean c_type c_expr parse_ident c_text c_print_type c_print_expr c_print_path c_types c_exprs c_paths c_entries true); [reflexivity|].
  repeat constructor.
Defined.
Lemma accepted_args_well_formed_witness : c_parse c_tokens = Ok c_args ∧ NoDup (c_text <$> provide c_args).
Proof. split; [reflexivity|]. destruct (accepted_args_well_formed c_type c_expr parse_ident c_text c_tokens c_args (eq_refl : c_parse c_tokens = Ok c_args)) as (_ & Hd & _). exact Hd. Defined.
Lemma providers_of_component_witness : c_parse c_tokens = Ok c_args ∧
  trait_ty <$> generate_providers c_type_of (λ _, 0) "PgRepo" (c_type_of (Con "PgRepo")) c_args = c_type_of <$> provide c_args.
Proof.
  split; [reflexivity|].
  destruct (@providers_of_component CTy string string NoExt CTy_syn string_path no_ext c_type c_expr parse_ident c_text c_type_of (λ _, 0) c_tokens c_args "PgRepo" (c_type_of (Con "PgRepo")) (eq_refl : c_parse c_tokens = Ok c_args)) as (Ht & _).
  exact Ht.
Defined.

(** [crate = ..] is one of the keys the macros know, but a keyword is not read as a key:
    whatever follows it, the arguments are refused. *)
Theorem crate_key_is_refused rest : c_parse (KOther "crate" :: rest) = Err Syntax ∧ parse_method_args (Ext := NoExt) parse_ident (KOther "crate" :: rest) = Err Syntax ∧
  "crate" ∈ COMPONENT_KEYS.
Proof. split; [done|]. split; [done|]. apply (bool_decide_unpack _). reflexivity. Qed.
(** A component that says nothing of its identity has its name in lower case as its id,
    and its qualifier with it, so that two of one name up to case have one qualifier. *)
Theorem default_ids_collide :
  component_id "HTTPCache" (default_args : ComponentArgs CTy string string NoExt) = "httpcache" ∧
  provider_qualifier "HttpCache" (default_args : ComponentArgs CTy string string NoExt) = provider_qualifier "HTTPCache" (default_args : ComponentArgs CTy string string NoExt).
Proof. split; reflexivity. Qed.
