(* ===== verification/MacroRpc.v ===== *)
(** * MacroRpc: [#[rpc]] methods and the client generated for them

    Models [crates/rpc-macros/src/handlers.rs] (what is read of a method, its dispatch
    wrapper, its descriptor and its client hint) and [crates/macros-core/src/client.rs]
    (the method that the framework generates from a hint).

    - A generated wrapper is modelled by what decides its behaviour: the extractor of
      every parameter, the dispatcher and the wrapping of the return.
    - A generated client method is modelled by its parameters, its return, the
      capability call it makes and its bounds.
    - The types a macro writes are arguments: [stream_arg], [raw_ty] and so on. *)
From S2P Require Import Prelude CoreTypes WireFrame RpcRoutes MacroTopics MacroSyn MacroComponent.

(** ** The framework's client methods *)

Inductive Capability := Unary | ServerStreaming | ClientStreaming | BidiStreaming.
#[export] Instance Capability_eq_dec : EqDecision Capability.
Proof. solve_decision. Defined.
Section Client.
Context {Ty Tok : Type}.
Record ClientMethod := mkClient {
  cm_ident : string; cm_path : string; cm_capability : Capability; cm_request : option Ty; cm_encode_as : option Ty; cm_req_item : option Ty;
  cm_resp_item : option Ty; cm_response : Ty; cm_error : option Ty; cm_extra_args : list (string * Ty); cm_request_envelope : option Ty;
  cm_request_builder : option Tok; cm_response_envelope : option Ty; cm_response_mapper : option Tok; cm_override_bounds : option Tok;
  cm_override_ret : option Tok; cm_override_body : option Tok; cm_trailing_args : list (string * Ty) }.
(** The argument of the call: [request], [()] or what the protocol builds. *)
Inductive CallArg := ArgRequest | ArgUnit | ArgBuilt (t : Tok).
Inductive Call :=
| CallUnary (path : string) (arg : CallArg) (mapper : option Tok) | CallServerStream (path : string) (arg : CallArg)
| CallClientStream (path : string) | CallBidiStream (path : string) | CallOverride (t : Tok).
Inductive Return := RetValue (t err : Ty) | RetStream (item err : Ty) | RetOverride (t : Tok).
(** [C: Cap], with the envelopes it pins, and the codecs. *)
Inductive CBound := BCap (c : Capability) (pinned : option (Ty * Ty)) | BEncodes (t : Ty) | BDecodes (t : Ty) | BOverride (t : Tok).
Record Generated := mkGenerated { g_params : list (string * Ty); g_ret : Return; g_body : Call; g_bounds : list CBound }.
Context (unit_ty raw_ty : Ty) (stream_arg : Ty → Ty).
(** [ClientMethod::build] *)
Definition build (m : ClientMethod) : Generated :=
  let err := from_option (λ x, x) raw_ty (cm_error m) in
  let '(req_arg, call_arg, request_ty) := match cm_request m with Some t => ([("request", t)], ArgRequest, t) | None => ([], ArgUnit, unit_ty) end in
  let unary_encode := from_option (λ x, x) request_ty (cm_encode_as m) in
  let req_item := from_option (λ x, x) unit_ty (cm_req_item m) in
  let resp_item := from_option (λ x, x) (cm_response m) (cm_resp_item m) in
  let '(args, ret, body, bounds) :=
    match cm_capability m with
    | Unary =>
        let req_env := from_option (λ x, x) unary_encode (cm_request_envelope m) in
        let resp_env := from_option (λ x, x) (cm_response m) (cm_response_envelope m) in
        (cm_extra_args m ++ req_arg ++ cm_trailing_args m, RetValue resp_env err,
         CallUnary (cm_path m) (match cm_request_builder m with Some t => ArgBuilt t | None => call_arg end) (cm_response_mapper m),
         [BCap Unary (Some (req_env, resp_env)); BEncodes unary_encode; BDecodes (cm_response m)])
    | ServerStreaming =>
        (cm_extra_args m ++ req_arg, RetStream resp_item err, CallServerStream (cm_path m) call_arg,
         [BCap ServerStreaming None; BEncodes unary_encode; BDecodes resp_item])
    | ClientStreaming =>
        (cm_extra_args m ++ [("input", stream_arg req_item)], RetValue (cm_response m) err, CallClientStream (cm_path m),
         [BCap ClientStreaming None; BEncodes req_item; BDecodes (cm_response m)])
    | BidiStreaming =>
        (cm_extra_args m ++ [("input", stream_arg req_item)], RetStream resp_item err, CallBidiStream (cm_path m),
         [BCap BidiStreaming None; BEncodes req_item; BDecodes resp_item])
    end in
  mkGenerated args
    match cm_override_ret m with Some t => RetOverride t | None => ret end
    match cm_override_body m with Some t => CallOverride t | None => body end
    match cm_override_bounds m with Some t => [BOverride t] | None => bounds end.
End Client.
Arguments ClientMethod : clear implicits.
Arguments Generated : clear implicits.
(** [client_ident] *)
Definition client_ident (self_ident : string) : string := self_ident +:+ "Client".

(** ** Methods *)

Section Rpc.
Context {Ty Tok : Type} `{SynType Ty}.
(** The receiver's [&] and [mut]. *)
Record Receiver := mkReceiver { reference : bool; mutability : bool }.
Record MethodSig := mkSig { sig_ident : string; is_async : bool; receiver : option Receiver; params : list Ty; sig_output : ReturnType (Ty := Ty); sig_generics : Generics Ty }.
Inductive RpcMacroError := NotAsync | BadReceiver | TwoStreams | StreamWithPayload | UnknownArgument | NameValue.

(** [parse_rpc_attr]: the attribute's arguments, if it is a path, a list of one
    identifier or an assignment. *)
Inductive RpcAttr := AttrPath | AttrList (ident : string) | AttrNameValue.
Definition parse_rpc_attr (a : RpcAttr) : result bool RpcMacroError :=
  match a with
  | AttrPath => Ok false
  | AttrList n => if bool_decide (n = "stream") then Ok true else Err UnknownArgument
  | AttrNameValue => Err NameValue
  end.

(** The extractor of a parameter: the type as it is, [Streaming] of an item or
    [RequestStream] of an item. *)
Inductive Extractor := XAs (t : Ty) | XStreaming (item : Ty) | XRequestStream (item : Ty).
Record Scan := mkScan { extractor_types : list Extractor; streaming_inputs : nat; has_payload : bool; req_item : option Ty }.
(** One turn of the loop over the parameters. *)
Definition scan_one (g : Generics Ty) (s : Scan) (t : Ty) : Scan :=
  let has_payload := has_payload s || is_payload_param t in
  if is_streaming_param t then mkScan (extractor_types s ++ [XAs t]) (S (streaming_inputs s)) has_payload (first_type_arg t "Streaming")
  else
    match stream_shape t g with
    | Some shape =>
        mkScan (extractor_types s ++ [if fallible shape then XStreaming (item shape) else XRequestStream (item shape)])
          (S (streaming_inputs s)) has_payload (Some (item shape))
    | None => mkScan (extractor_types s ++ [XAs t]) (streaming_inputs s) has_payload (req_item s)
    end.
Definition scan_params (g : Generics Ty) (params : list Ty) : Scan := foldl (scan_one g) (mkScan [] 0 false None) params.

Inductive OutputWrap := WrapNone | WrapItems | WrapResults.
Record StreamTypes := mkStreamTypes { streamed_input : bool; streamed_output : bool; st_req_item : option Ty; st_resp_item : option Ty; stream_err : option Ty }.
(** The streaming of the return. *)
Definition resolve_output (output : ReturnType) (g : Generics Ty) (stream_flag : bool) : bool * OutputWrap * option Ty * option Ty :=
  if returns_response_stream output then (true, WrapNone, Some (response_body_type output), r ← result_type_args output; r.2)
  else
    match t ← output; stream_shape t g with
    | Some shape => (true, if fallible shape then WrapResults else WrapItems, Some (item shape), error shape)
    | None => if stream_flag then (true, WrapItems, stream_item_of <$> output, None) else (false, WrapNone, None, None)
    end.
Inductive OperationKind := OpUnary | OpServerStream | OpClientStream | OpBidiStream.
(** [operation_ident] *)
Definition operation (streamed_input streamed_output : bool) : OperationKind :=
  match streamed_input, streamed_output with
  | false, false => OpUnary | false, true => OpServerStream | true, false => OpClientStream | true, true => OpBidiStream
  end.
Definition capability (streamed_input streamed_output : bool) : Capability :=
  match streamed_input, streamed_output with
  | false, false => Unary | false, true => ServerStreaming | true, false => ClientStreaming | true, true => BidiStreaming
  end.

(** [client_method]; [error_body E] is [<E as ResponseError>::Body]. *)
Context (error_body : Ty → Ty).
Definition client_method (self_ident method_ident : string) (param_types : list Ty) (output : ReturnType) (st : StreamTypes) : ClientMethod Ty Tok :=
  let payload_ty := first_some (λ t, first_type_arg t "Payload") param_types in
  let args := result_type_args output in
  let result_err := r ← args; r.2 in
  let err_source := match stream_err st with Some e => Some e | None => result_err end in
  let response := match args, output with Some (ok, _), _ => ok | None, Some t => t | None, None => unit_type end in
  mkClient method_ident (self_ident +:+ "." +:+ method_ident) (capability (streamed_input st) (streamed_output st)) payload_ty None (st_req_item st)
    (st_resp_item st) response (error_body <$> err_source) [] None None None None None None None [].

(** What decides how a call is served. *)
Record Expansion := mkExpansion {
  x_name : string; x_takes_self : bool; x_extractors : list Extractor; x_fallible : bool; x_wrap : OutputWrap; x_operation : OperationKind; x_output : Ty;
  x_streams : StreamTypes; x_client : ClientMethod Ty Tok }.
(** [expand_method] *)
Definition expand_method (self_ident : string) (m : MethodSig) (stream_flag : bool) : result Expansion RpcMacroError :=
  if negb (is_async m) then Err NotAsync
  else if match receiver m with Some r => negb (reference r) || mutability r | None => false end then Err BadReceiver
  else
    let s := scan_params (sig_generics m) (params m) in
    if bool_decide (1 < streaming_inputs s)%nat then Err TwoStreams
    else
      let streamed_in := bool_decide (streaming_inputs s = 1%nat) in
      if streamed_in && has_payload s then Err StreamWithPayload
      else
        let '(streamed_out, wrap, resp, err) := resolve_output (sig_output m) (sig_generics m) stream_flag in
        let st := mkStreamTypes streamed_in streamed_out (req_item s) resp err in
        Ok (mkExpansion (sig_ident m) (match receiver m with Some _ => true | None => false end) (extractor_types s) (returns_result (sig_output m)) wrap
          (operation streamed_in streamed_out)
          (if streamed_out then from_option (λ x, x) unit_type resp else response_body_type (sig_output m)) st
          (client_method self_ident (sig_ident m) (params m) (sig_output m) st)).
End Rpc.
Arguments MethodSig : clear implicits.
Arguments Expansion : clear implicits.
Arguments StreamTypes : clear implicits.
Arguments Extractor : clear implicits.

(** ** What a service is called *)

Section Services.
Context {Path Ext Ctx : Type}.
(** The service that [Router] registers, with the methods of its [#[handlers]] blocks. *)
Definition service_descriptor (r : Router Path Ext) (self_type : TypeDescriptor) (groups : list (list (@RpcDescriptor Ctx))) : option (@ServiceDescriptor Ctx) :=
  i ← service_identity r; Some (mkService (s_id i) (s_name i) self_type (s_version i) (mkGroup self_type <$> groups)).
End Services.

(** ** What is read of the parameters *)

Section Scanned.
Context {Ty : Type} `{SynType Ty} (g : Generics Ty).
Definition is_stream (t : Ty) : bool := is_streaming_param t || match stream_shape t g with Some _ => true | None => false end.
Definition extractor_of (t : Ty) : Extractor Ty :=
  if is_streaming_param t then XAs t
  else match stream_shape t g with Some shape => if fallible shape then XStreaming (item shape) else XRequestStream (item shape) | None => XAs t end.
(** The type of the items an extractor decodes. *)
Definition extractor_item (x : Extractor Ty) : option Ty := match x with XAs t => first_type_arg t "Streaming" | XStreaming t | XRequestStream t => Some t end.
Lemma scan_snoc ps t : scan_params g (ps ++ [t]) = scan_one g (scan_params g ps) t.
Proof. unfold scan_params. by rewrite foldl_snoc. Qed.
Lemma scan_spec ps :
  let s := scan_params g ps in
  extractor_types s = extractor_of <$> ps ∧ streaming_inputs s = length (filter is_stream ps) ∧ has_payload s = existsb is_payload_param ps ∧
  req_item s = match last (filter is_stream ps) with Some t => extractor_item (extractor_of t) | None => None end.
Proof.
  induction ps as [|t ps IH] using rev_ind; [done|]. cbn zeta in IH |- *. rewrite scan_snoc. destruct (scan_params g ps) as [xs n hp ri]. cbn in IH. destruct IH as (-> & -> & -> & ->).
  rewrite fmap_app, filter_app, existsb_app. cbn [existsb]. rewrite orb_false_r. unfold scan_one. cbn [extractor_types streaming_inputs has_payload req_item].
  destruct (is_streaming_param t) eqn:Hs.
  - assert (Hi : is_stream t = true) by (unfold is_stream; by rewrite Hs). rewrite filter_cons_True, filter_nil by by rewrite Hi. rewrite length_app, last_snoc. cbn.
    unfold extractor_of. rewrite Hs. cbn. split; [done|]. split; [lia|]. done.
  - destruct (stream_shape t g) as [shape|] eqn:Hsh.
    + assert (Hi : is_stream t = true) by (unfold is_stream; by rewrite Hs, Hsh). rewrite filter_cons_True, filter_nil by by rewrite Hi. rewrite length_app, last_snoc. cbn.
      unfold extractor_of. rewrite Hs, Hsh. split; [done|]. split; [lia|]. split; [done|]. by destruct (fallible shape).
    + assert (Hi : is_stream t = false) by (unfold is_stream; by rewrite Hs, Hsh). rewrite filter_cons_False, filter_nil, app_nil_r by (rewrite Hi; by intros []). cbn.
      unfold extractor_of. rewrite Hs, Hsh. done.
Qed.
End Scanned.

(** ** The two sides agree *)

Section Agreement.
Context {Ty Tok : Type} `{SynType Ty} (error_body stream_arg : Ty → Ty) (raw_ty : Ty).
#[local] Abbreviation expand := (expand_method (Tok := Tok) error_body).
Definition op_of (c : Capability) : OperationKind := match c with Unary => OpUnary | ServerStreaming => OpServerStream | ClientStreaming => OpClientStream | BidiStreaming => OpBidiStream end.
(** The call a generated method makes, by the kind of its operation. *)
Definition calls (op : OperationKind) (path : string) (arg : CallArg (Tok := Tok)) : Call :=
  match op with
  | OpUnary => CallUnary path arg None | OpServerStream => CallServerStream path arg | OpClientStream => CallClientStream path | OpBidiStream => CallBidiStream path
  end.
(** The first generic argument of a [Result], if it has any, is a type. *)
Definition plain_result (t : Ty) : Prop :=
  match s ← last_segment t; s ← named "Result" s; seg_args s with Some (ArgType _ :: _) | Some [] | None => True | _ => False end.

Lemma expand_inv self m flag e : expand self m flag = Ok e →
  is_async m = true ∧ match receiver m with Some r => reference r = true ∧ mutability r = false | None => True end ∧
  let g := sig_generics m in
  let n := length (filter (is_stream g) (params m)) in
  (n ≤ 1)%nat ∧ streamed_input (x_streams e) = bool_decide (n = 1%nat) ∧ (n = 1%nat → existsb is_payload_param (params m) = false) ∧
  x_extractors e = extractor_of g <$> params m ∧ x_name e = sig_ident m ∧ x_fallible e = returns_result (sig_output m) ∧
  resolve_output (sig_output m) g flag = (streamed_output (x_streams e), x_wrap e, st_resp_item (x_streams e), stream_err (x_streams e)) ∧
  st_req_item (x_streams e) = match last (filter (is_stream g) (params m)) with Some t => extractor_item (extractor_of g t) | None => None end ∧
  x_operation e = operation (streamed_input (x_streams e)) (streamed_output (x_streams e)) ∧
  x_output e = (if streamed_output (x_streams e) then from_option (λ x, x) unit_type (st_resp_item (x_streams e)) else response_body_type (sig_output m)) ∧
  x_client e = client_method error_body self (sig_ident m) (params m) (sig_output m) (x_streams e).
Proof.
  unfold expand_method. destruct (is_async m); [|done]. cbn [negb]. destruct (match receiver m with Some _ => _ | None => false end) eqn:Hr; [done|].
  destruct (scan_spec (sig_generics m) (params m)) as (Hx & Hn & Hp & Hi). case_bool_decide as H1; [done|].
  destruct (bool_decide _ && _) eqn:Hsp; [done|]. destruct (resolve_output _ _ _) as [[[so wrap] resp] err] eqn:Ho. intros [= <-]. cbn.
  split; [done|]. split; [destruct (receiver m) as [[[] []]|]; done|]. rewrite Hn in *. split; [lia|]. split; [done|]. split; [|done].
  intros H2. rewrite bool_decide_true in Hsp by done. cbn in Hsp. by rewrite <- Hp.
Qed.
Lemma op_of_capability i o : op_of (capability i o) = operation i o.
Proof. by destruct i, o. Qed.
Lemma response_is_output (t : Ty) : plain_result t → returns_response_stream (Some t) = false →
  match result_type_args (Some t) with Some (ok, _) => ok | None => t end = response_body_type (Some t).
Proof.
  unfold plain_result, returns_response_stream, response_body_type, result_type_args, result_args. intros Hp Hr%bool_decide_eq_false.
  assert (Hpeel : ∀ u, type_name u ≠ Some "ResponseStream" → peel_named u "ResponseStream" = u).
  { intros u Hu. unfold peel_named. destruct (first_type_arg u "ResponseStream") as [v|] eqn:Hv; [|done]. by apply first_type_arg_named in Hv. }
  rewrite Hpeel by done. unfold peel_named, first_type_arg. cbn [mbind option_bind]. destruct (last_segment t) as [s|]; [|done]. cbn in *. destruct (named "Result" s) as [s'|]; [|done].
  cbn in *. destruct (seg_args s') as [[|[inner|n u|] l]|]; try done. cbn [mbind option_bind from_option].
  change (type_args (ArgType inner :: l)) with (inner :: type_args l). by destruct (type_args l).
Qed.
(** the server and the client that are generated from one method agree. Of an accepted
    method at most one parameter is a stream, and then none is a payload; the client
    makes the call of the operation that the descriptor declares, under the name of the
    service's type and the method; it sends items of the type that the extractor of the
    stream reads, or the type of the first payload; and it decodes the type that the
    descriptor gives as the output. *)
Theorem rpc_sides_agree self m flag e : expand self m flag = Ok e →
  let c := x_client e in
  let streams := filter (is_stream (sig_generics m)) (params m) in
  (length streams ≤ 1)%nat ∧ length (x_extractors e) = length (params m) ∧
  g_body (build unit_type raw_ty stream_arg c) = calls (x_operation e) (self +:+ "." +:+ x_name e) (match cm_request c with Some _ => ArgRequest | None => ArgUnit end) ∧
  (∀ t, t ∈ streams → existsb is_payload_param (params m) = false ∧ extractor_of (sig_generics m) t ∈ x_extractors e ∧
     cm_req_item c = extractor_item (extractor_of (sig_generics m) t) ∧
     BEncodes (from_option (λ x, x) unit_type (extractor_item (extractor_of (sig_generics m) t))) ∈ g_bounds (build unit_type raw_ty stream_arg c)) ∧
  (streams = [] → cm_request c = first_some (λ t, first_type_arg t "Payload") (params m) ∧
     BEncodes (from_option (λ x, x) unit_type (cm_request c)) ∈ g_bounds (build unit_type raw_ty stream_arg c)) ∧
  (∀ t, sig_output m = Some t → plain_result t → BDecodes (x_output e) ∈ g_bounds (build unit_type raw_ty stream_arg c)).
Proof.
  intros (_ & _ & Hn & Hin & Hpay & Hx & Hname & _ & Hout & Hreq & Hop & Hxo & Hc)%expand_inv c streams. unfold c. rewrite Hc. fold streams in Hn, Hin, Hpay, Hreq.
  rewrite Hx, length_fmap, Hname, Hop. split; [done|]. split; [done|].
  assert (Hs : ∀ t, t ∈ streams → streams = [t]).
  { intros t Ht. destruct streams as [|u [|v l]]; [by apply not_elem_of_nil in Ht| |cbn in Hn; lia]. by apply list_elem_of_singleton in Ht as ->. }
  unfold build, client_method. cbn [cm_request cm_capability cm_path cm_encode_as cm_req_item cm_resp_item cm_response cm_error cm_extra_args cm_request_envelope
    cm_request_builder cm_response_envelope cm_response_mapper cm_override_bounds cm_override_ret cm_override_body cm_trailing_args].
  split. { by destruct (first_some _ _), (streamed_input (x_streams e)), (streamed_output (x_streams e)). }
  split.
  { intros t Ht. pose proof (Hs t Ht) as He. rewrite He in *. cbn in Hin, Hreq. split; [by apply Hpay|].
    split; [apply list_elem_of_fmap_2; assert (Ht' : t ∈ streams) by (rewrite He; by left); by apply list_elem_of_filter in Ht' as [_ ?]|].
    cbn. rewrite Hin, Hreq. split; [done|]. destruct (first_some _ _), (streamed_output (x_streams e)); cbn; set_solver. }
  split.
  { intros He. rewrite He in Hin. cbn in Hin. split; [done|]. cbn. rewrite Hin. destruct (first_some _ _), (streamed_output (x_streams e)); cbn; set_solver. }
  intros t Ht Hpl. rewrite Hxo. destruct (streamed_output (x_streams e)) eqn:Hso.
  - assert (Hr : ∃ r, st_resp_item (x_streams e) = Some r).
    { unfold resolve_output in Hout. rewrite Ht in Hout. destruct (returns_response_stream _); [simplify_eq; by eexists|].
      cbn [mbind option_bind] in Hout. destruct (stream_shape t _) as [shape|]; [simplify_eq; by eexists|]. destruct flag; simplify_eq; by eexists. }
    destruct Hr as [r Hr]. rewrite Hr. cbn. destruct (first_some _ _), (streamed_input (x_streams e)); cbn; set_solver.
  - assert (Hrs : returns_response_stream (Some t) = false).
    { unfold resolve_output in Hout. rewrite Ht in Hout. by destruct (returns_response_stream _). }
    rewrite Ht. rewrite <- (response_is_output t Hpl Hrs). destruct (first_some _ _), (streamed_input (x_streams e)); cbn; destruct (result_args t ≫= _) as [[ok err]|]; set_solver.
Qed.
End Agreement.

(** ** A call reaches its method *)

Section Reaching.
Context {Ty Tok Path Ext Ctx : Type} `{SynType Ty} (error_body stream_arg : Ty → Ty) (raw_ty : Ty).
Context (encode_str : string → result bytes string).
Definition path_called (c : Call (Tok := Tok)) : option string :=
  match c with CallUnary p _ _ | CallServerStream p _ | CallClientStream p | CallBidiStream p => Some p | CallOverride _ => None end.
Lemma expanded_path self m flag e : expand_method (Tok := Tok) error_body self m flag = Ok e →
  x_name e = sig_ident m ∧ path_called (g_body (build unit_type raw_ty stream_arg (x_client e))) = Some (self +:+ "." +:+ x_name e).
Proof.
  intros (_ & _ & _ & _ & _ & _ & Hn & _ & _ & _ & _ & _ & ->)%expand_inv. rewrite Hn. split; [done|]. unfold build, client_method. cbn.
  by destruct (streamed_input (x_streams e)), (streamed_output (x_streams e)), (first_some _ _).
Qed.
Lemma last_dot a b c d : str_contains "." b = false → str_contains "." d = false → a +:+ "." +:+ b = c +:+ "." +:+ d → a = c ∧ b = d.
Proof.
  intros Hb Hd. revert c. induction a as [|x a IH]; intros [|y c]; autorewrite with str.
  - by intros [= ->].
  - intros [= <- ->]. by rewrite str_contains_app, str_contains_cons, bool_decide_true, orb_true_r in Hb.
  - intros [= -> <-]. by rewrite str_contains_app, str_contains_cons, bool_decide_true, orb_true_r in Hd.
  - intros [= -> Heq]. by destruct (IH c Heq) as [-> ->].
Qed.
(** C17: a generated client reaches the generated handler. When a service keeps the name of
    its type, the path that the client of any of its methods calls is the route under
    which a validated set of services serves that method; when the service is given
    another name, no method of the service is served under the path of its client. *)
Theorem client_reaches_its_handler (r : Router Path Ext) (cx : ComponentContext Path) self_type groups d services s method m flag e ctx :
  r_context r = Some cx → service_descriptor r self_type groups = Some d → validate_services services = Ok tt → s ∈ services → descriptor s = d →
  method ∈ rpcs s →
  Forall (λ r, str_contains "." (rpc_name r) = false) (rpcs s) → expand_method (Tok := Tok) error_body (cx_ident cx) m flag = Ok e → rpc_name method = x_name e →
  ∃ p, path_called (g_body (build unit_type raw_ty stream_arg (x_client e))) = Some p ∧
    (cx_name cx = cx_ident cx → dispatch encode_str (from_services services) p ctx = @handler Ctx method ctx) ∧
    (cx_name cx ≠ cx_ident cx → p ∉ paths s).
Proof.
  intros Hcx Hd Hv Hs Hsd Hm Hdots He Hn. destruct (expanded_path _ _ _ _ He) as [_ Hp]. eexists. split; [exact Hp|].
  unfold service_descriptor, service_identity in Hd. rewrite Hcx in Hd. cbn in Hd. injection Hd as Hd.
  assert (Hname : name (descriptor s) = cx_name cx) by (rewrite Hsd; by destruct d; simplify_eq). split.
  - intros Heq. destruct (dispatch_reaches encode_str services Hv) as [Hr _].
    assert (Hpath : cx_ident cx +:+ "." +:+ x_name e = rpc_path (descriptor s) method) by (unfold rpc_path; by rewrite Hname, Heq, Hn).
    rewrite Hpath. by apply Hr.
  - intros Hne Hin. unfold paths in Hin. apply list_elem_of_fmap in Hin as (r' & Heq & Hr'). unfold rpc_path in Heq. rewrite Hname in Heq.
    rewrite Forall_forall in Hdots. apply last_dot in Heq as [Heq _]; [by apply Hne| |by apply Hdots]. rewrite <- Hn. by apply Hdots.
Qed.
End Reaching.

(** ** Concrete methods *)

Inductive PTy := PPath (name : string) (type_args : option (list PTy)) | PStream (item : PTy) | PItem (stream : PTy) | PArg (t : PTy).
#[export] Instance PTy_syn : SynType PTy := {
  view (t : PTy) := match t with
            | PPath n a => VPath true [mkSeg n (option_map (map ArgType) a)]
            | PStream it => VImplTrait [BoundOther; BoundTrait [mkSeg "Stream" (Some [ArgAssoc "Item" it])]]
            | _ => VOther
            end;
  unit_type := PPath "Unit" None; stream_item_of := PItem }.
Definition p_ty (n : string) : PTy := PPath n None.
Definition p_of (n : string) (t : PTy) : PTy := PPath n (Some [t]).
Definition p_result (t e : PTy) : PTy := PPath "Result" (Some [t; e]).
Definition p_sig (ps : list PTy) (out : option PTy) : MethodSig PTy := mkSig "sum" true (Some (mkReceiver true false)) ps out (mkGenerics [] []).
Definition p_expand (m : MethodSig PTy) (flag : bool) : result (Expansion PTy unit) RpcMacroError := expand_method (p_of "Body") "Calc" m flag.
Definition p_build (m : ClientMethod PTy unit) : Generated PTy unit := build (p_ty "Unit") (p_ty "Raw") (p_of "StreamArg") m.
Definition p_client_sum : MethodSig PTy := p_sig [PStream (p_ty "u32")] (Some (p_result (p_ty "u64") (p_ty "CalcError"))).

Example rpc_samples :
  result_map (λ e, (x_operation e, g_body (p_build (x_client e)))) (p_expand p_client_sum false) = Ok (OpClientStream, CallClientStream "Calc.sum") ∧
  result_map (λ e, g_params (p_build (x_client e))) (p_expand p_client_sum false) = Ok [("input", p_of "StreamArg" (p_ty "u32"))] ∧
  result_map (λ e, g_ret (p_build (x_client e))) (p_expand p_client_sum false) = Ok (RetValue (p_ty "u64") (p_of "Body" (p_ty "CalcError"))) ∧
  p_expand (p_sig [PStream (p_ty "u32"); p_of "Streaming" (p_ty "u8")] None) false = Err TwoStreams ∧
  p_expand (p_sig [PStream (p_ty "u32"); p_of "Payload" (p_ty "In")] None) false = Err StreamWithPayload ∧
  p_expand (mkSig "f" true (Some (mkReceiver true true)) [] None (mkGenerics [] [])) false = Err BadReceiver ∧
  p_expand (mkSig "f" false None [] None (mkGenerics [] [])) false = Err NotAsync ∧
  result_map (λ e, (x_wrap e, x_output e)) (p_expand (p_sig [] (Some (PStream (p_result (p_ty "Tick") (p_ty "E"))))) false) = Ok (WrapResults, p_ty "Tick") ∧
  result_map (λ e, (x_wrap e, x_output e)) (p_expand (p_sig [] (Some (p_result (p_of "ResponseStream" (p_ty "Tick")) (p_ty "E")))) false) = Ok (WrapNone, p_ty "Tick") ∧
  result_map (λ e, x_output e) (p_expand (p_sig [] (Some (p_ty "Feed"))) true) = Ok (PItem (p_ty "Feed")) ∧
  parse_rpc_attr (AttrList "stream") = Ok true ∧ parse_rpc_attr (AttrList "unary") = Err UnknownArgument ∧ client_ident "Calc" = "CalcClient".
Proof. vm_compute. repeat split. Qed.

Definition p_expanded : Expansion PTy unit :=
  mkExpansion "sum" true [XRequestStream (p_ty "u32")] true WrapNone OpClientStream (p_ty "u64") (mkStreamTypes true false (Some (p_ty "u32")) None None)
    (client_method (p_of "Body") "Calc" "sum" [PStream (p_ty "u32")] (Some (p_result (p_ty "u64") (p_ty "CalcError"))) (mkStreamTypes true false (Some (p_ty "u32")) None None)).
Lemma rpc_sides_agree_witness : p_expand p_client_sum false = Ok p_expanded ∧
  g_body (p_build (x_client p_expanded)) = CallClientStream "Calc.sum" ∧ BDecodes (p_ty "u64") ∈ g_bounds (p_build (x_client p_expanded)).
Proof.
  split; [reflexivity|].
  destruct (@rpc_sides_agree PTy unit PTy_syn (p_of "Body") (p_of "StreamArg") (p_ty "Raw") "Calc" p_client_sum false p_expanded eq_refl) as (_ & _ & Hc & _ & _ & Hd).
  split; [exact Hc|]. exact (Hd _ eq_refl I).
Defined.
Definition p_rpc : @RpcDescriptor unit := mkRpc "sum" (λ _, Returned (Ok (RpcRoutes.Unary []))).
Definition p_router (given : string) : Router string NoExt := mkRouter None None (Some (mkContext "Calc" "Calc" "calc" given None)) tt.
Definition p_service (given : string) : @ServiceDescriptor unit := mkService "calc" given (mkType "Calc" "Calc" 1) None [mkGroup (mkType "Calc" "Calc" 1) [p_rpc]].
Definition p_services (given : string) : list (@ResolvedService unit) := resolved_services [p_service given].
Lemma client_reaches_its_handler_witness :
  dispatch toy_encode (from_services (p_services "Calc")) "Calc.sum" tt = Returned (Ok (RpcRoutes.Unary [])) ∧ "Calc.sum" ∉ paths (mkResolved (p_service "calc") [p_rpc]).
Proof.
  split.
  - destruct (@client_reaches_its_handler PTy unit string NoExt unit PTy_syn (p_of "Body") (p_of "StreamArg") (p_ty "Raw") toy_encode (p_router "Calc")
      (mkContext "Calc" "Calc" "calc" "Calc" None) (mkType "Calc" "Calc" 1) [[p_rpc]] (p_service "Calc") (p_services "Calc") (mkResolved (p_service "Calc") [p_rpc]) p_rpc
      p_client_sum false p_expanded tt eq_refl eq_refl eq_refl ltac:(by left) eq_refl ltac:(by left) ltac:(by repeat constructor) eq_refl eq_refl) as (p & Hp & Hd & _).
    vm_compute in Hp. injection Hp as <-. exact (Hd eq_refl).
  - destruct (@client_reaches_its_handler PTy unit string NoExt unit PTy_syn (p_of "Body") (p_of "StreamArg") (p_ty "Raw") toy_encode (p_router "calc")
      (mkContext "Calc" "Calc" "calc" "calc" None) (mkType "Calc" "Calc" 1) [[p_rpc]] (p_service "calc") (p_services "calc") (mkResolved (p_service "calc") [p_rpc]) p_rpc
      p_client_sum false p_expanded tt eq_refl eq_refl eq_refl ltac:(by left) eq_refl ltac:(by left) ltac:(by repeat constructor) eq_refl eq_refl) as (p & Hp & _ & Hn).
    vm_compute in Hp. injection Hp as <-. apply Hn. done.
Defined.

(** A [Result] of a stream is no stream to the macro, and flagging it does not help: the
    wrapper gives the dispatcher of [Result]s a stream, which does not compile. *)
Theorem result_of_a_stream_is_refused :
  result_map x_operation (p_expand (p_sig [] (Some (p_result (PStream (p_ty "Tick")) (p_ty "E")))) false) = Ok OpUnary ∧
  result_map (λ e, (x_wrap e, x_fallible e)) (p_expand (p_sig [] (Some (p_result (p_ty "Feed") (p_ty "E")))) true) = Ok (WrapItems, true).
Proof. split; reflexivity. Qed.
(** Two payloads are accepted, and the client sends the first. *)
Theorem second_payload_is_not_sent :
  result_map (λ e, (length (x_extractors e), cm_request (x_client e))) (p_expand (p_sig [p_of "Payload" (p_ty "A"); p_of "Payload" (p_ty "B")] None) false) = Ok (2%nat, Some (p_ty "A")).
Proof. reflexivity. Qed.
