(* ===== verification/MacroMethods.v ===== *)
(** * MacroMethods: the methods of an annotated [impl] block

    Models the walk of [crates/macros-core/src/methods.rs] over the methods of a block
    ([#[methods]], [#[handlers]]), what it reads of a constructor and of a hook
    ([hook.rs]), and the extension [Rpcs] of [crates/rpc-macros/src/handlers.rs].

    A method is its attributes and its signature; the path of a hook's kind and the
    literal of a parameter's [#[config]] are read by [syn]. *)
From S2P Require Import Prelude CoreTypes MacroTopics MacroSyn MacroComponent MacroRpc.

(** Why a job is refused; [UnknownVariant] is a path that does not compile. *)
Inductive JobMacroError :=
| NotAList | JobSyntax | NeitherEveryNorCron | UnknownOption | InvalidDuration | DurationTooLarge | UnknownVariant
| JobNotAsync | BadJobReceiver | NoReceiver.

Section Methods.
Context {Ty Tok Path : Type} `{SynType Ty}.
(** The attributes the walk and its extensions look for; [None] is an attribute that is
    malformed, or of [#[job]] one that is no list. *)
Inductive MethodAttr := AHook (kind : option Path) | AInit | ARpc (a : RpcAttr) | AJob (content : option (list Token)) | AOther (name : string).
(** The [#[config(..)]] of each parameter, if it has one, and its path, if it is one. *)
Record ImplMethod := mkImpl { im_attrs : list MethodAttr; im_sig : MethodSig Ty; im_config : list (option (option string)) }.
Inductive WalkError := BadHookKind | HookNotAsync | BadHookReceiver | BadConfigPath | TwoInits | InitTakesSelf | RpcRefused (e : RpcMacroError) | JobRefused (e : JobMacroError).

(** [HookInfo] and [parse_hook] *)
Record HookInfo := mkHook { h_ident : string; h_kind : Path; h_takes_self : bool; h_params : list (Ty * option string); h_is_result : bool }.
Fixpoint hook_params (params : list Ty) (config : list (option (option string))) : result (list (Ty * option string)) WalkError :=
  match params with
  | [] => Ok []
  | t :: params' =>
      match head config with
      | Some (Some None) => Err BadConfigPath
      | Some (Some (Some p)) => result_map (cons (t, Some p)) (hook_params params' (tail config))
      | Some None | None => result_map (cons (t, None)) (hook_params params' (tail config))
      end
  end.
Definition parse_hook (m : ImplMethod) (kind : Path) : result HookInfo WalkError :=
  let s := im_sig m in
  if negb (is_async s) then Err HookNotAsync
  else if match receiver s with Some r => negb (reference r) || mutability r | None => false end then Err BadHookReceiver
  else result_map (λ ps, mkHook (sig_ident s) kind (match receiver s with Some _ => true | None => false end) ps
    (match result_type_args (sig_output s) with Some _ => true | None => false end)) (hook_params (params s) (im_config m)).
(** [InitInfo] and [parse_init] *)
Record InitInfo := mkInit { i_ident : string; i_async : bool; i_params : list Ty; i_output : ReturnType (Ty := Ty) }.
Definition parse_init (m : ImplMethod) : result InitInfo WalkError :=
  match receiver (im_sig m) with
  | Some _ => Err InitTakesSelf
  | None => Ok (mkInit (sig_ident (im_sig m)) (is_async (im_sig m)) (params (im_sig m)) (sig_output (im_sig m)))
  end.
(** The wrapper that [generate_init] emits: [None] when the constructor is [init] itself. *)
Definition init_wrapper (i : InitInfo) : option bool := if bool_decide (i_ident i = "init") then None else Some (i_async i).

(** [ParseMethod] *)
Class ParseMethod (Ext : Type) := { parse_method : Ext → ImplMethod → result (Ext * option (ClientMethod Ty Tok)) WalkError }.
Section Walk.
Context {Ext : Type} `{ParseMethod Ext}.
Record Walk := mkWalk { w_init : option InitInfo; w_hooks : list HookInfo; w_clients : list (ClientMethod Ty Tok); w_ext : Ext }.
Definition first_hook (m : ImplMethod) : option (option Path) := first_some (λ a, match a with AHook k => Some k | _ => None end) (im_attrs m).
Definition has_init (m : ImplMethod) : bool := existsb (λ a, match a with AInit => true | _ => false end) (im_attrs m).
(** One turn of the loop of [expand]. *)
Definition walk_one (w : Walk) (m : ImplMethod) : result Walk WalkError :=
  match first_hook m with
  | Some None => Err BadHookKind
  | Some (Some kind) => result_map (λ h, mkWalk (w_init w) (w_hooks w ++ [h]) (w_clients w) (w_ext w)) (parse_hook m kind)
  | None =>
      if has_init m then
        match w_init w with
        | Some _ => Err TwoInits
        | None => result_map (λ i, mkWalk (Some i) (w_hooks w) (w_clients w) (w_ext w)) (parse_init m)
        end
      else result_map (λ r, mkWalk (w_init w) (w_hooks w) (w_clients w ++ option_list r.2) r.1) (parse_method (w_ext w) m)
  end.
Fixpoint walk (w : Walk) (methods : list ImplMethod) : result Walk WalkError :=
  match methods with [] => Ok w | m :: methods' => match walk_one w m with Err e => Err e | Ok w' => walk w' methods' end end.
Definition expand_methods (ext : Ext) (methods : list ImplMethod) : result Walk WalkError := walk (mkWalk None [] [] ext) methods.
End Walk.

(** [Rpcs]: its keys, the name of the service's type, and what it collects. *)
Record Rpcs := mkRpcs { rs_slice : option string; rs_client_trait : option string; rs_self : string; rs_methods : list (Expansion Ty Tok) }.
Definition rpcs_keyed (r : Rpcs) (key : string) (ts : list Token) : result (option Rpcs * list Token) MacroError :=
  if bool_decide (key = "rpc_slice") then result_map (λ v, (Some (mkRpcs (Some v.1) (rs_client_trait r) (rs_self r) (rs_methods r)), v.2)) (parse_ident (eat_eq ts))
  else if bool_decide (key = "client_trait") then result_map (λ v, (Some (mkRpcs (rs_slice r) (Some v.1) (rs_self r) (rs_methods r)), v.2)) (parse_ident (eat_eq ts))
  else Ok (None, ts).
Context (error_body : Ty → Ty).
Definition first_rpc (m : ImplMethod) : option RpcAttr := first_some (λ a, match a with ARpc a => Some a | _ => None end) (im_attrs m).
Definition rpcs_method (r : Rpcs) (m : ImplMethod) : result (Rpcs * option (ClientMethod Ty Tok)) WalkError :=
  match first_rpc m with
  | None => Ok (r, None)
  | Some a =>
      match parse_rpc_attr a with
      | Err e => Err (RpcRefused e)
      | Ok flag =>
          match expand_method error_body (rs_self r) (im_sig m) flag with
          | Err e => Err (RpcRefused e)
          | Ok x => Ok (mkRpcs (rs_slice r) (rs_client_trait r) (rs_self r) (rs_methods r ++ [x]), Some (x_client x))
          end
      end
  end.
#[local] Instance rpcs_parse_method : ParseMethod Rpcs := { parse_method := rpcs_method }.
(** [to_tokens]: the slice and the descriptors registered in it; nothing without methods. *)
Definition rpc_group (r : Rpcs) : option (string * list (string * OperationKind)) :=
  match rs_methods r with
  | [] => None
  | l => Some (from_option (λ x, x) (rs_self r +:+ "Rpcs") (rs_slice r), (λ x, (x_name x, x_operation x)) <$> l)
  end.

(** ** Every method is claimed once *)

Definition is_hook (m : ImplMethod) : bool := match first_hook m with Some _ => true | None => false end.
Definition is_init (m : ImplMethod) : bool := negb (is_hook m) && has_init m.
Definition is_rpc (m : ImplMethod) : bool := negb (is_hook m) && negb (has_init m) && match first_rpc m with Some _ => true | None => false end.
Definition rpc_of (self : string) (m : ImplMethod) (x : Expansion Ty Tok) : Prop :=
  ∃ a flag, first_rpc m = Some a ∧ parse_rpc_attr a = Ok flag ∧ expand_method error_body self (im_sig m) flag = Ok x.
Definition hook_of (m : ImplMethod) (h : HookInfo) : Prop := ∃ kind, first_hook m = Some (Some kind) ∧ parse_hook m kind = Ok h.
Definition walked (self : string) (w w' : Walk (Ext := Rpcs)) (methods : list ImplMethod) : Prop :=
  (∃ hs, w_hooks w' = w_hooks w ++ hs ∧ Forall2 hook_of (filter is_hook methods) hs) ∧
  (match w_init w with Some i => filter is_init methods = [] ∧ w_init w' = Some i | None => ∃ l, filter is_init methods = l ∧ Forall2 (λ m i, parse_init m = Ok i) l (option_list (w_init w')) end) ∧
  (∃ xs, rs_methods (w_ext w') = rs_methods (w_ext w) ++ xs ∧ w_clients w' = w_clients w ++ (x_client <$> xs) ∧ Forall2 (rpc_of self) (filter is_rpc methods) xs) ∧
  rs_slice (w_ext w') = rs_slice (w_ext w) ∧ rs_self (w_ext w') = rs_self (w_ext w).
Lemma walk_spec self w w' methods : rs_self (w_ext w) = self → walk w methods = Ok w' → walked self w w' methods.
Proof.
  revert w. induction methods as [|m methods IH]; intros w Hself; cbn [walk].
  { intros [= <-]. split; [exists []; by rewrite app_nil_r|]. split; [destruct (w_init w); [done|]; exists []; by split|].
    split; [exists []; cbn; rewrite !app_nil_r; by repeat split|done]. }
  destruct (walk_one w m) as [w1|e] eqn:Hw; [|done]. intros Hrest. unfold walk_one in Hw. unfold walked, is_rpc, is_init, is_hook in *.
  assert (Hself1 : rs_self (w_ext w1) = self → _) by exact (λ H, IH w1 H Hrest). rewrite !filter_cons_bool.
  destruct (first_hook m) as [[kind|]|] eqn:Hh; [|done|].
  - destruct (parse_hook m kind) as [h|] eqn:Hp; [|done]. injection Hw as <-. cbn in *. destruct (Hself1 Hself) as ((hs & -> & Hhs) & Hi & Hx & Hs).
    split; [|done]. exists (h :: hs). rewrite <- app_assoc. split; [done|]. constructor; [by exists kind|done].
  - cbn [negb andb]. destruct (has_init m) eqn:Hini; cbn [negb andb].
    + destruct (w_init w) as [i0|] eqn:Hi0; [done|]. destruct (parse_init m) as [i|] eqn:Hp; [|done]. injection Hw as <-. cbn in *.
      destruct (Hself1 Hself) as (Hhs & [Hi ->] & Hx & Hs). split; [done|]. split; [|done]. eexists. split; [done|]. rewrite Hi. by repeat constructor.
    + unfold parse_method, rpcs_parse_method, rpcs_method in Hw. destruct (first_rpc m) as [a|] eqn:Ha.
      * destruct (parse_rpc_attr a) as [flag|] eqn:Hfl; [|done]. rewrite Hself in *. destruct (expand_method _ _ _ _) as [x|] eqn:Hx; [|done]. injection Hw as <-. cbn in *.
        destruct (Hself1 eq_refl) as (Hhs & Hi & (xs & -> & -> & Hxs) & Hs). split; [done|]. split; [done|]. split; [|done].
        exists (x :: xs). rewrite fmap_cons, <- !app_assoc. split; [done|]. split; [done|]. constructor; [by exists a, flag|done].
      * injection Hw as <-. cbn in *. rewrite app_nil_r in Hself1. destruct (Hself1 Hself) as (Hhs & Hi & Hx & Hs). done.
Qed.
(** every method of a block is claimed by one of its attributes. Of an accepted block
    the hooks are the methods with a hook attribute, the constructor is the only method
    that is marked as one and is no hook, and of the others those marked [#[rpc]], in
    their order, give one descriptor each to the service's group and one method each to
    its client, made from the same reading of the signature. *)
Theorem block_is_claimed r methods (w : Walk) : rs_methods r = [] → expand_methods r methods = Ok w →
  Forall2 hook_of (filter is_hook methods) (w_hooks w) ∧
  Forall2 (λ m i, parse_init m = Ok i) (filter is_init methods) (option_list (w_init w)) ∧
  Forall2 (rpc_of (rs_self r)) (filter is_rpc methods) (rs_methods (w_ext w)) ∧
  w_clients w = x_client <$> rs_methods (w_ext w) ∧
  (filter is_rpc methods ≠ [] → rpc_group (w_ext w) =
     Some (from_option (λ x, x) (rs_self r +:+ "Rpcs") (rs_slice r), (λ x, (x_name x, x_operation x)) <$> rs_methods (w_ext w))).
Proof.
  intros Hr Hw. unfold expand_methods in Hw. apply (walk_spec (rs_self r)) in Hw as ((hs & Hh & Hhs) & (l & <- & Hi) & (xs & Hx & Hc & Hxs) & Hsl & Hse); [|done].
  cbn in Hh, Hx, Hc, Hsl, Hse. rewrite Hr in Hx. cbn in Hx. rewrite Hh, Hx, Hc. repeat split; try done. intros Hne. unfold rpc_group. rewrite Hx, Hsl, Hse.
  destruct xs; [by apply Forall2_nil_inv_r in Hxs|done].
Qed.
End Methods.
Arguments ImplMethod : clear implicits.
Arguments Rpcs : clear implicits.

(** ** A concrete block *)

Definition b_sig (n : string) (self : bool) (ps : list PTy) (out : option PTy) : MethodSig PTy :=
  mkSig n true (if self then Some (mkReceiver true false) else None) ps out (mkGenerics [] []).
Definition b_block : list (ImplMethod PTy string) :=
  [mkImpl [AInit] (b_sig "create" false [p_of "Arc" (p_ty "Db")] None) []; mkImpl [AOther "doc"; ARpc AttrPath] (b_sig "add" true [p_of "Payload" (p_ty "In")] (Some (p_ty "u64"))) [];
   mkImpl [] (b_sig "helper" true [] None) []; mkImpl [AHook (Some "ConfigReload")] (b_sig "reload" true [p_of "CfgNext" (p_ty "Conf")] None) [Some (Some "app.conf")];
   mkImpl [ARpc (AttrList "stream")] (b_sig "feed" true [] (Some (p_ty "Feed"))) []].
Definition b_rpcs : Rpcs PTy unit := mkRpcs None None "Calc" [].
Definition b_walk (methods : list (ImplMethod PTy string)) := expand_methods (H0 := rpcs_parse_method (p_of "Body")) b_rpcs methods.
Example block_samples :
  result_map (λ w, (h_ident <$> w_hooks w, h_params <$> w_hooks w)) (b_walk b_block) = Ok (["reload"], [[(p_of "CfgNext" (p_ty "Conf"), Some "app.conf")]]) ∧
  result_map (λ w, init_wrapper <$> w_init w) (b_walk b_block) = Ok (Some (Some true)) ∧
  result_map (λ w, rpc_group (w_ext w)) (b_walk b_block) = Ok (Some ("CalcRpcs", [("add", OpUnary); ("feed", OpServerStream)])) ∧
  result_map (λ w, cm_path <$> w_clients w) (b_walk b_block) = Ok ["Calc.add"; "Calc.feed"] ∧
  result_map (λ _, tt) (b_walk [mkImpl [AInit] (b_sig "a" false [] None) []; mkImpl [AInit] (b_sig "b" false [] None) []]) = Err TwoInits ∧
  result_map (λ _, tt) (b_walk [mkImpl [AInit] (b_sig "a" true [] None) []]) = Err InitTakesSelf ∧
  result_map (λ _, tt) (b_walk [mkImpl [ARpc (AttrList "uni")] (b_sig "a" true [] None) []]) = Err (RpcRefused UnknownArgument) ∧
  rpcs_keyed b_rpcs "rpc_slice" [KEq; KIdent "S"; KComma] = Ok (Some (mkRpcs (Some "S") None "Calc" []), [KComma]).
Proof. vm_compute. repeat split. Qed.
Lemma block_is_claimed_witness :
  match b_walk b_block with Ok w => w_clients w = x_client <$> rs_methods (w_ext w) ∧ length (w_clients w) = 2%nat | Err _ => False end.
Proof.
  destruct (b_walk b_block) as [w|e] eqn:Hw; [|discriminate Hw].
  destruct (@block_is_claimed PTy unit string PTy_syn (p_of "Body") b_rpcs b_block w eq_refl Hw) as (_ & _ & _ & Hc & _).
  split; [exact Hc|]. vm_compute in Hw. injection Hw as <-. reflexivity.
Defined.
