(* ===== verification/MacroHandlers.v ===== *)
(** * MacroHandlers: the [#[handlers]] of a controller

    Models [crates/axum-macros/src/handlers.rs]: what is claimed of a method, the
    handler of a route with its middleware, the folding of routes that share a path, the
    operations it documents ([openapi.rs]), and the message handlers of a websocket controller with the client methods that
    call them.

    - [axum]'s [MethodRouter] is what its documentation says of [merge] and [layer]: a
      service for each verb with its layers, outermost first; merging two that share a
      verb panics, here [None]. Which paths [Router::route] takes beside each other is a
      parameter. The slots of the verbs are modelled, not what [axum] derives from them
      (an answer to [HEAD] from the slot of [get], 405 for an empty slot).
    - A value that crosses a websocket is [Val]; the codec of a block is a pair of
      functions for each type. *)
From S2P Require Import Prelude MacroTopics MacroSyn MacroComponent MacroRpc MacroRoutes.

Section Handlers.
Context {Ty Path : Type} `{SynType Ty} (own : OwnTypes Ty) (is_ident : string → bool) (parse_path : Parser RouteError Path).

(** ** What is read of a method *)

(** The arguments of its [#[message]], its route attribute, the arguments of its
    [#[openapi]] if it has one and it is a list, its signature, and which of its
    parameters are marked [#[stream]]. *)
Record HandlerMethod := mkHandlerMethod {
  hm_message : option (list Token); hm_route : option Attribute; hm_openapi : option (option (list Token)); hm_sig : MethodSig Ty; hm_stream : list bool }.
Inductive HandlerError := BadOpenApi | RouteRefused (e : RouteError) | MessageRefused (e : RouteError) | NoProtocol | HandlerReceiver | TwoPayloads | TwoStreamParams | NotAStream.

(** [take_stream_param]; [i] is the position among the typed parameters. *)
Fixpoint take_stream_from (i : nat) (params : list Ty) (marks : list bool) (found : option (nat * Ty)) : result (option (nat * Ty)) HandlerError :=
  match params with
  | [] => Ok found
  | t :: params' =>
      if from_option (λ b, b) false (head marks) then
        match found with
        | Some _ => Err TwoStreamParams
        | None => match stream_item t with Some it => take_stream_from (S i) params' (tail marks) (Some (i, it)) | None => Err NotAStream end
        end
      else take_stream_from (S i) params' (tail marks) found
  end.
Definition take_stream_param (m : HandlerMethod) : result (option (nat * Ty)) HandlerError := take_stream_from 0 (params (hm_sig m)) (hm_stream m) None.
Definition bad_receiver (s : MethodSig Ty) : bool := match receiver s with Some r => negb (reference r) || mutability r | None => false end.
Definition takes_self (s : MethodSig Ty) : bool := match receiver s with Some _ => true | None => false end.

(** [RouteSpec] and [build_route]: a parameter of the closure is an extractor or the
    framed request body. *)
Inductive ClosureParam := PExtract (t : Ty) | PStreamBody (item : Ty).
Record Handler := mkHandler { hd_ident : string; hd_takes_self : bool; hd_params : list ClosureParam; hd_wrap : option ServerWrap; hd_in_result : bool }.
Record RouteSpec := mkSpec { rs_verb : string; rs_path : string; rs_middleware : list Path; rs_handler : Handler }.
Definition closure_param (stream : option (nat * Ty)) (i : nat) (t : Ty) : ClosureParam :=
  match stream with Some (index, it) => if bool_decide (index = i) then PStreamBody it else PExtract t | None => PExtract t end.
Definition build_route (s : MethodSig Ty) (route : RouteAttr Path) (stream : option (nat * Ty)) (wrap : option ServerWrap) (in_result : bool) : result RouteSpec HandlerError :=
  if bad_receiver s then Err HandlerReceiver
  else Ok (mkSpec (verb route) (route_path route) (middleware route)
    (mkHandler (sig_ident s) (takes_self s) (zip_with (closure_param stream) (seq 0 (length (params s))) (params s)) wrap in_result)).

(** ** Messages *)

(** [inject_inner] *)
Definition inject_inner (t : Ty) : option Ty := s ← last_segment t; s ← named "Inject" s; args ← seg_args s; head (type_args args).
(** [ws_payload_type] *)
Fixpoint ws_payload_from (params : list Ty) (payload : option Ty) : result (option Ty) HandlerError :=
  match params with
  | [] => Ok payload
  | t :: params' =>
      match inject_inner t with
      | Some _ => ws_payload_from params' payload
      | None => match payload with Some _ => Err TwoPayloads | None => ws_payload_from params' (Some t) end
      end
  end.
Definition ws_payload_type (s : MethodSig Ty) : result (option Ty) HandlerError := ws_payload_from (params s) None.
Definition is_unit_type (t : Ty) : bool := match view t with VTuple [] => true | _ => false end.
(** [resolve_message_reply] *)
Definition resolve_message_reply (mode : MessageMode) (output : ReturnType (Ty := Ty)) : bool :=
  match mode with Send => false | Request => true | Infer => negb (is_unit_type (response_type output)) end.
(** [message_success_value]: the type, and how it is got: out of a [Result], of a [Json]. *)
Definition message_success_value (output : ReturnType (Ty := Ty)) (peel_json : bool) : Ty * bool * bool :=
  match output with
  | None => (unit_type, false, false)
  | Some t =>
      let '(inner, from_result) := match first_type_arg t "Result" with Some ok => (ok, true) | None => (t, false) end in
      let json := first_type_arg inner "Json" in
      (match json with Some j => if peel_json then j else inner | None => inner end, from_result,
       peel_json && match json with Some _ => true | None => false end)
  end.
(** [WsRouteSpec] and [build_ws_route]: every binding in the order of the parameters. *)
Inductive WsBinding := BindInject (handle : Ty) | BindPayload (t : Ty).
Record WsRouteSpec := mkWsSpec { ws_destination : string; ws_ident : string; ws_takes_self : bool; ws_bindings : list WsBinding; ws_output : ReturnType (Ty := Ty); ws_is_request : bool }.
Fixpoint ws_bindings_from (params : list Ty) (payload_seen : bool) : result (list WsBinding) HandlerError :=
  match params with
  | [] => Ok []
  | t :: params' =>
      match inject_inner t with
      | Some handle => result_map (cons (BindInject handle)) (ws_bindings_from params' payload_seen)
      | None => if payload_seen then Err TwoPayloads else result_map (cons (BindPayload t)) (ws_bindings_from params' true)
      end
  end.
Definition build_ws_route (s : MethodSig Ty) (destination : string) (is_request : bool) : result WsRouteSpec HandlerError :=
  if bad_receiver s then Err HandlerReceiver
  else result_map (λ bs, mkWsSpec destination (sig_ident s) (takes_self s) bs (sig_output s) is_request) (ws_bindings_from (params s) false).
(** [build_message_send_method] and [build_message_request_method]. *)
Record MessageMethod := mkMessage { mm_ident : string; mm_destination : string; mm_request : option Ty; mm_response : Ty; mm_is_request : bool }.
Definition build_message_method (s : MethodSig Ty) (destination : string) (is_request : bool) : result MessageMethod HandlerError :=
  result_map (λ payload, mkMessage (sig_ident s) destination payload (if is_request then response_type (sig_output s) else unit_type) is_request) (ws_payload_type s).

(** ** Documentation *)

(** [operation_tokens] of [openapi.rs], with the feature on: an operation has its
    parameters, the type and media type of its body, and its response: [None] is left to
    the user, [Some None] has no body. *)
Record Operation := mkOperation {
  op_id : string; op_verb : string; op_path : string; op_params : list (string * Ty); op_body : option (Ty * option string); op_response : option (option Ty) }.
(** [params_arg] *)
Definition params_arg (path : string) (arg_types : list Ty) : list (string * Ty) :=
  let holes := (route_template path).2 in
  match holes with
  | [] => []
  | _ =>
      let types := hole_param_types (string_ty own) holes (i ← classify arg_types; path_ty i) in
      (λ p, (hole_ident is_ident p.2.1 p.1, p.2.2)) <$> zip (seq 0 (length holes)) (zip holes types)
  end.
(** [request_body_arg] *)
Definition request_body_arg (arg_types : list Ty) : option (Ty * option string) :=
  i ← classify arg_types; b ← in_body i;
  match b with
  | mkBody BJson (Some t) => Some (t, None)
  | mkBody BForm (Some t) => Some (t, Some "application/x-www-form-urlencoded")
  | _ => None
  end.
(** [undocumented_body] and [responses_arg] *)
Definition undocumented_body (t : Ty) : bool :=
  is_opaque_response t ||
  match view t with VTuple [] => true | VReference => true | VPath _ _ => bool_decide (type_name t = Some "StatusCode") | _ => false end.
Definition responses_arg (output : ReturnType (Ty := Ty)) : option Ty := if undocumented_body (response_type output) then None else Some (response_type output).
Definition declares_responses (extra : list Token) : bool := existsb (λ t, match t with KIdent n => bool_decide (n = "responses") | _ => false end) extra.
Definition operation_of (self_ident : string) (s : MethodSig Ty) (route : RouteAttr Path) (extra : option (list Token)) : Operation :=
  mkOperation (self_ident +:+ "_" +:+ sig_ident s) (verb route) (route_path route) (params_arg (route_path route) (params s)) (request_body_arg (params s))
    (if match extra with Some ts => declares_responses ts | None => false end then None else Some (responses_arg (sig_output s))).

(** ** The extension *)

Context (self_ident : string).
Inductive Hint := HintRoute (m : RouteMethod Ty) | HintMessage (m : MessageMethod).
Record AxumHandlers := mkAxumHandlers {
  routes : list RouteSpec; wire_types : list Ty; header_methods : list (RouteMethod Ty); openapi_ops : list Operation; ws_routes : list WsRouteSpec;
  ws_protocol : option string; ws_codec : option string; routes_slice : option string }.
(** [parse_keyed] *)
Definition handlers_keyed (h : AxumHandlers) (key : string) (ts : list Token) : result (option AxumHandlers * list Token) MacroError :=
  let set f := result_map (λ v : string * list Token, (Some (f v.1), v.2)) (MacroComponent.parse_ident (eat_eq ts)) in
  if bool_decide (key = "routes_slice") then set (λ v, mkAxumHandlers (routes h) (wire_types h) (header_methods h) (openapi_ops h) (ws_routes h) (ws_protocol h) (ws_codec h) (Some v))
  else if bool_decide (key = "ws") then set (λ v, mkAxumHandlers (routes h) (wire_types h) (header_methods h) (openapi_ops h) (ws_routes h) (Some v) (ws_codec h) (routes_slice h))
  else if bool_decide (key = "codec") then set (λ v, mkAxumHandlers (routes h) (wire_types h) (header_methods h) (openapi_ops h) (ws_routes h) (ws_protocol h) (Some v) (routes_slice h))
  else Ok (None, ts).
(** The branch of [parse_method] for a message. *)
Definition parse_message (h : AxumHandlers) (ts : list Token) (s : MethodSig Ty) : result (AxumHandlers * option Hint) HandlerError :=
  match parse_message_attr ts with
  | Err e => Err (MessageRefused e)
  | Ok (destination, mode) =>
      match ws_protocol h with
      | None => Err NoProtocol
      | Some _ =>
          let is_request := resolve_message_reply mode (sig_output s) in
          match build_ws_route s destination is_request with
          | Err e => Err e
          | Ok spec =>
              match build_message_method s destination is_request, ws_payload_type s with
              | Ok m, Ok payload =>
                  Ok (mkAxumHandlers (routes h) (wire_types h ++ option_list payload) (header_methods h) (openapi_ops h) (ws_routes h ++ [spec]) (ws_protocol h) (ws_codec h) (routes_slice h),
                      Some (HintMessage m))
              | Err e, _ | _, Err e => Err e
              end
          end
      end
  end.
(** The arguments without the marked one. *)
Definition path_args (args : list Ty) (index : nat) : list Ty := (λ p, p.2) <$> filter (λ p, p.1 ≠ index) (zip (seq 0 (length args)) args).
(** The client method of a route, and its sibling with headers. *)
Definition route_hint (route : RouteAttr Path) (s : MethodSig Ty) (stream_param : option (nat * Ty)) (stream_return : option (StreamReturn Ty)) : option (RouteMethod Ty) * option (RouteMethod Ty) :=
  match stream_param, stream_return with
  | Some (index, it), _ => (build_client_stream_method own is_ident (sig_ident s) route (path_args (params s) index) (sig_output s), None)
  | None, Some r =>
      match client r with
      | Some (_, it) => (build_stream_client_method own is_ident (sig_ident s) route (params s) (from_option (λ x, x) (bytes_ty own) it), None)
      | None => (None, None)
      end
  | None, None =>
      match build_client_method own is_ident (sig_ident s) route (params s) (sig_output s) with
      | Some (m, mh) => (Some m, Some mh)
      | None => (None, None)
      end
  end.
Definition parse_route (h : AxumHandlers) (a : Attribute) (m : HandlerMethod) : result (AxumHandlers * option Hint) HandlerError :=
  let s := hm_sig m in
  match parse_route_attr parse_path a with
  | Err e => Err (RouteRefused e)
  | Ok route =>
      match hm_openapi m, take_stream_param m with
      | Some None, _ => Err BadOpenApi
      | _, Err e => Err e
      | extra, Ok stream_param =>
          let stream_return := match stream_param with Some _ => None | None => classify_stream_return (sig_output s) (streamed route) end in
          let '(hint, sibling) := route_hint route s stream_param stream_return in
          let unary := match stream_param, stream_return with None, None => true | _, _ => false end in
          let wrap := r ← stream_return; server_wrap r in
          let in_result := match stream_return with Some r => in_result r | None => false end in
          match build_route s route stream_param wrap in_result with
          | Err e => Err e
          | Ok spec =>
              Ok (mkAxumHandlers (routes h ++ [spec]) (wire_types h ++ if unary then collect_wire_types (params s) (sig_output s) else [])
                    (header_methods h ++ option_list sibling) (openapi_ops h ++ if unary then [operation_of self_ident s route (o ← extra; o)] else []) (ws_routes h) (ws_protocol h) (ws_codec h) (routes_slice h),
                  HintRoute <$> hint)
          end
      end
  end.
(** [parse_method] *)
Definition parse_handler (h : AxumHandlers) (m : HandlerMethod) : result (AxumHandlers * option Hint) HandlerError :=
  match hm_message m, hm_route m with
  | Some ts, _ => parse_message h ts (hm_sig m)
  | None, Some a => if is_route_attr a then parse_route h a m else Ok (h, None)
  | None, None => Ok (h, None)
  end.

(** ** The router of a block *)

(** A service: its layers, outermost first, around a handler. *)
Record Service := mkService { layers : list Path; around : Handler }.
Definition layer (mw : Path) (s : Service) : Service := mkService (mw :: layers s) (around s).
(** [layer_route]; [None] is the [expect] of a middleware that is not [registered] in the
    root. *)
Definition layer_route (registered : Path → bool) (base : Service) (middleware : list Path) : option Service :=
  foldl (λ chain mw, chain ← chain; if registered mw then Some (layer mw chain) else None) (Some base) (reverse middleware).
Definition MethodRouter : Type := list (string * Service).
Definition merge (a b : MethodRouter) : option MethodRouter := if existsb (λ v, existsb (λ w, bool_decide (v = w)) (fst <$> a)) (fst <$> b) then None else Some (a ++ b).
(** The routes that share a path, in order. *)
Definition RouteEntry : Type := string * list Path * Handler.
Fixpoint push_entry (groups : list (string * list RouteEntry)) (path : string) (e : RouteEntry) : list (string * list RouteEntry) :=
  match groups with
  | [] => [(path, [e])]
  | (p, es) :: groups' => if bool_decide (p = path) then (p, es ++ [e]) :: groups' else (p, es) :: push_entry groups' path e
  end.
Definition group_routes (specs : list RouteSpec) : list (string * list RouteEntry) :=
  foldl (λ groups s, push_entry groups (rs_path s) (rs_verb s, rs_middleware s, rs_handler s)) [] specs.
Definition verb_router (registered : Path → bool) (e : RouteEntry) : option MethodRouter :=
  s ← layer_route registered (mkService [] e.2) e.1.2; Some [(e.1.1, s)].
Fixpoint merge_all (registered : Path → bool) (chain : MethodRouter) (entries : list RouteEntry) : option MethodRouter :=
  match entries with
  | [] => Some chain
  | e :: entries' => r ← verb_router registered e; chain' ← merge chain r; merge_all registered chain' entries'
  end.
Definition method_router (registered : Path → bool) (entries : list RouteEntry) : option MethodRouter :=
  match entries with [] => Some [] | e :: entries' => r ← verb_router registered e; merge_all registered r entries' end.
(** The route group that [to_tokens] generates: it is built when the server starts, or
    panics; [accepts] is whether the router takes these paths. *)
Definition route_group (registered : Path → bool) (accepts : list string → bool) (specs : list RouteSpec) :
    option (list (string * MethodRouter)) :=
  if accepts (group_routes specs).*1 then mapM (λ g, r ← method_router registered g.2; Some (g.1, r)) (group_routes specs) else None.
(** [to_tokens]: what a block registers. *)
Inductive Registered := RegNothing | RegMixed | RegRoutes (slice : string) (specs : list RouteSpec) | RegMessages (slice : string) (routes : list WsRouteSpec).
Definition register (h : AxumHandlers) : Registered :=
  match routes h, ws_routes h with
  | _ :: _, _ :: _ => RegMixed
  | _, _ :: _ => RegMessages (from_option (λ x, x) (self_ident +:+ "WsRoutes") (routes_slice h)) (ws_routes h)
  | [], [] => RegNothing
  | _ :: _, [] => RegRoutes (from_option (λ x, x) (self_ident +:+ "Routes") (routes_slice h)) (routes h)
  end.
End Handlers.
Arguments HandlerMethod : clear implicits.
Arguments AxumHandlers : clear implicits.
Arguments RouteSpec : clear implicits.
Arguments WsRouteSpec : clear implicits.
Arguments MessageMethod : clear implicits.

(** ** A block's routes are served *)

Section Served.
Context {Path : Type} {Ty : Type}.
#[local] Abbreviation RouteSpec := (RouteSpec Ty Path).
Definition pair_of (s : RouteSpec) : string * string := (rs_path s, rs_verb s).
Definition entry_of (s : RouteSpec) : RouteEntry (Ty := Ty) (Path := Path) := (rs_verb s, rs_middleware s, rs_handler s).
Definition at_path (specs : list RouteSpec) (p : string) : list (RouteEntry (Ty := Ty) (Path := Path)) := entry_of <$> filter (λ s, rs_path s = p) specs.
Definition service_of (e : RouteEntry (Ty := Ty) (Path := Path)) : Service (Ty := Ty) (Path := Path) := mkService e.1.2 e.2.
Definition served (table : list (string * MethodRouter (Ty := Ty) (Path := Path))) (p v : string) : option (Service (Ty := Ty) (Path := Path)) := r ← assoc_find p table; assoc_find v r.

(** A middleware of the entry is missing, or all are there. *)
Definition equipped (registered : Path → bool) (e : RouteEntry (Ty := Ty) (Path := Path)) : bool := forallb registered e.1.2.
Lemma layer_route_around registered (ls mws : list Path) (h : Handler (Ty := Ty)) :
  layer_route registered (mkService ls h) mws = if forallb registered mws then Some (mkService (mws ++ ls) h) else None.
Proof.
  unfold layer_route. induction mws as [|mw mws IH]; [done|]. rewrite reverse_cons, foldl_snoc, IH. cbn [forallb].
  destruct (forallb registered mws); cbn [mbind option_bind]; [|by rewrite andb_false_r]. by destruct (registered mw).
Qed.
Lemma verb_router_spec registered (e : RouteEntry (Ty := Ty) (Path := Path)) :
  verb_router registered e = if equipped registered e then Some [(e.1.1, service_of e)] else None.
Proof. unfold verb_router, equipped, service_of. rewrite layer_route_around, app_nil_r. by destruct (forallb _ _). Qed.
Lemma push_entry_find groups path (e : RouteEntry (Ty := Ty) (Path := Path)) p :
  assoc_find p (push_entry groups path e) = if bool_decide (p = path) then Some (from_option (λ x, x) [] (assoc_find p groups) ++ [e]) else assoc_find p groups.
Proof.
  induction groups as [|[q es] groups IH]; cbn [push_entry assoc_find].
  - destruct (decide (p = path)) as [->|Hp]; [by rewrite !bool_decide_true|by rewrite !bool_decide_false by congruence].
  - destruct (decide (q = path)) as [->|Hq].
    + rewrite (bool_decide_true (path = path)) by done. cbn [assoc_find]. destruct (decide (p = path)) as [->|Hp]; [by rewrite !bool_decide_true|by rewrite !bool_decide_false by congruence].
    + rewrite (bool_decide_false (q = path)) by done. cbn [assoc_find]. rewrite IH. destruct (decide (q = p)) as [->|Hqp]; [|by rewrite !(bool_decide_false (q = p))].
      by rewrite (bool_decide_true (p = p)), bool_decide_false.
Qed.
Lemma push_entry_keys groups path (e : RouteEntry (Ty := Ty) (Path := Path)) : NoDup groups.*1 → NoDup (push_entry groups path e).*1.
Proof.
  assert (Hin : ∀ q groups, q ∈ (push_entry groups path e).*1 → q = path ∨ q ∈ groups.*1).
  { intros q gs. induction gs as [|[r es] gs IH]; cbn [push_entry]; [cbn; set_solver|]. case_bool_decide; cbn; set_solver. }
  induction groups as [|[q es] groups IH]; cbn [push_entry]; [intros _; cbn; apply NoDup_singleton|]. cbn. intros [Hq Hnd]%NoDup_cons.
  case_bool_decide as Hqp; cbn; apply NoDup_cons; split; [done..| |by apply IH]. intros [?|?]%Hin; [by subst|done].
Qed.
Lemma group_routes_spec (specs : list RouteSpec) :
  NoDup (group_routes specs).*1 ∧ ∀ p, assoc_find p (group_routes specs) = match at_path specs p with [] => None | es => Some es end.
Proof.
  unfold group_routes. induction specs as [|s specs [IHn IHf]] using rev_ind; [split; [constructor|done]|]. rewrite foldl_snoc. split; [by apply push_entry_keys|].
  intros p. rewrite push_entry_find, IHf. unfold at_path. rewrite filter_app, fmap_app. case_bool_decide as Hp.
  - subst p. rewrite filter_cons_True, filter_nil by done. cbn. by destruct (entry_of <$> _).
  - rewrite filter_cons_False, filter_nil, app_nil_r by congruence. done.
Qed.
Lemma merge_all_spec registered chain (es : list (RouteEntry (Ty := Ty) (Path := Path))) : NoDup chain.*1 →
  merge_all registered chain es =
    if bool_decide (NoDup (chain.*1 ++ ((λ e, e.1.1) <$> es))) && forallb (equipped registered) es
    then Some (chain ++ ((λ e, (e.1.1, service_of e)) <$> es)) else None.
Proof.
  revert chain. induction es as [|e es IH]; intros chain Hnd; cbn [merge_all].
  - cbn. rewrite !app_nil_r. by rewrite bool_decide_true.
  - rewrite verb_router_spec. cbn [forallb]. destruct (equipped registered e); cbn [mbind option_bind andb]; [|by rewrite andb_false_r].
    unfold merge at 1. cbn [fmap list_fmap fst existsb]. rewrite orb_false_r. destruct (existsb _ (chain.*1)) eqn:He; cbn [mbind option_bind].
    + apply existsb_exists in He as (w & Hw%list_elem_of_In & <-%bool_decide_eq_true). rewrite bool_decide_false; [done|].
      intros (_ & Hd & _)%NoDup_app. apply (Hd _ Hw). by left.
    + assert (Hnin : e.1.1 ∉ chain.*1).
      { intros Hin. rewrite <- not_true_iff_false in He. apply He, existsb_exists. exists e.1.1. split; [by apply list_elem_of_In|by apply bool_decide_eq_true]. }
      rewrite IH.
      * rewrite fmap_app. cbn. rewrite <- !app_assoc. done.
      * rewrite fmap_app. apply NoDup_app. split; [done|]. split; [|apply NoDup_singleton]. intros x Hx ->%list_elem_of_singleton. done.
Qed.
Lemma method_router_spec registered (es : list (RouteEntry (Ty := Ty) (Path := Path))) :
  method_router registered es =
    if bool_decide (NoDup ((λ e, e.1.1) <$> es)) && forallb (equipped registered) es
    then Some ((λ e, (e.1.1, service_of e)) <$> es) else None.
Proof.
  destruct es as [|e es]; [done|]. cbn [method_router]. rewrite verb_router_spec. cbn [forallb].
  destruct (equipped registered e); cbn [mbind option_bind andb]; [|by rewrite andb_false_r].
  rewrite merge_all_spec by apply NoDup_singleton. done.
Qed.
Lemma concat_verb_find (es : list (RouteEntry (Ty := Ty) (Path := Path))) v :
  assoc_find v ((λ e, (e.1.1, service_of e)) <$> es) = service_of <$> List.find (λ e, bool_decide (e.1.1 = v)) es.
Proof. induction es as [|e es IH]; [done|]. cbn. by case_bool_decide. Qed.
Lemma assoc_find_mapM {A B} (f : A → option B) (l : list (string * A)) k p : mapM (λ g, r ← f g.2; Some (g.1, r)) l = Some k →
  assoc_find p k = (x ← assoc_find p l; f x).
Proof.
  revert k. induction l as [|[q x] l IH]; intros k; cbn; [by intros [= <-]|]. destruct (f x) as [y|] eqn:Hf; [|done]. cbn. destruct (mapM _ l) as [k'|]; [|done].
  intros [= <-]. cbn. case_bool_decide; [done|by apply IH].
Qed.
Lemma pairs_at (specs : list RouteSpec) : NoDup (pair_of <$> specs) ↔ ∀ p, NoDup ((λ e, e.1.1) <$> at_path specs p).
Proof.
  assert (Hat : ∀ p, (λ e, e.1.1) <$> at_path specs p = rs_verb <$> filter (λ s, rs_path s = p) specs) by (intros p; unfold at_path; by rewrite <- list_fmap_compose).
  setoid_rewrite Hat. clear Hat. induction specs as [|s specs IH]; [split; [intros _ p|intros _]; constructor|]. rewrite fmap_cons, NoDup_cons, IH. split.
  - intros [Hs Hnd] p. destruct (decide (rs_path s = p)) as [Hp|Hp]; [rewrite filter_cons_True by done|by rewrite filter_cons_False].
    rewrite fmap_cons. apply NoDup_cons. split; [|done]. intros (s' & Hv & [Hp' Hin]%list_elem_of_filter)%list_elem_of_fmap. apply Hs.
    apply list_elem_of_fmap. exists s'. split; [|done]. unfold pair_of. congruence.
  - intros Hnd. split.
    + intros (s' & Heq & Hin)%list_elem_of_fmap. specialize (Hnd (rs_path s)). rewrite filter_cons_True in Hnd by done. rewrite fmap_cons in Hnd.
      apply NoDup_cons in Hnd as [Hnin _]. apply Hnin. unfold pair_of in Heq. injection Heq as Hp Hv. rewrite Hv. apply list_elem_of_fmap_2, list_elem_of_filter. done.
    + intros p. specialize (Hnd p). destruct (decide (rs_path s = p)); [rewrite filter_cons_True, fmap_cons in Hnd by done; by apply NoDup_cons in Hnd as [_ ?]|by rewrite filter_cons_False in Hnd].
Qed.
Lemma equipped_at registered (specs : list RouteSpec) :
  (∀ s, s ∈ specs → forallb registered (rs_middleware s) = true) ↔ ∀ p, forallb (equipped registered) (at_path specs p) = true.
Proof.
  split.
  - intros H p. apply forallb_forall. intros e (s & -> & [_ Hs]%list_elem_of_filter)%list_elem_of_In%list_elem_of_fmap. by apply H.
  - intros H s Hs. specialize (H (rs_path s)). rewrite forallb_forall in H. apply (H (entry_of s)), list_elem_of_In.
    by apply list_elem_of_fmap_2, list_elem_of_filter.
Qed.
(** every route of a controller is served. The router of a block can be built exactly
    when no verb is bound twice to one path, all middleware is registered and [axum]
    takes the paths; then the verb and
    the path of a route are bound to the handler of that route, inside the middleware of
    that route only, the first listed outermost, however many routes share the path, and
    nothing else is bound. *)
Theorem route_group_serves (registered : Path → bool) (accepts : list string → bool) (specs : list RouteSpec) :
  (is_Some (route_group registered accepts specs) ↔ accepts (group_routes specs).*1 = true ∧ NoDup (pair_of <$> specs) ∧
     ∀ s, s ∈ specs → forallb registered (rs_middleware s) = true) ∧
  ∀ table, route_group registered accepts specs = Some table → NoDup table.*1 ∧
    (∀ s, s ∈ specs → served table (rs_path s) (rs_verb s) = Some (mkService (rs_middleware s) (rs_handler s))) ∧
    (∀ p v, (p, v) ∉ pair_of <$> specs → served table p v = None).
Proof.
  destruct (group_routes_spec specs) as [Hnd Hfind].
  assert (Hsome : is_Some (mapM (λ g, r ← method_router registered g.2; Some (g.1, r)) (group_routes specs)) ↔
    NoDup (pair_of <$> specs) ∧ ∀ s, s ∈ specs → forallb registered (rs_middleware s) = true).
  { rewrite mapM_is_Some, pairs_at, equipped_at, Forall_forall.
    assert (Hat : ∀ es, is_Some (method_router registered es) ↔ NoDup ((λ e, e.1.1) <$> es) ∧ forallb (equipped registered) es = true).
    { intros es. rewrite method_router_spec. destruct (decide (NoDup ((λ e, e.1.1) <$> es))); [rewrite bool_decide_true by done|rewrite bool_decide_false by done; split; [by intros [? ?]|by intros [? ?]]].
      cbn [andb]. destruct (forallb _ _); [split; [done|by eexists]|split; [by intros [? ?]|by intros [? ?]]]. }
    split.
    - intros Hall. cut (∀ p, is_Some (method_router registered (at_path specs p))); [intros H; split; intros p; by apply Hat|].
      intros p. destruct (at_path specs p) as [|e es] eqn:Hp; [by eexists|]. specialize (Hfind p). rewrite Hp in Hfind.
      apply assoc_find_Some_in in Hfind. specialize (Hall _ Hfind) as [x Hx]. cbn [fst snd] in Hx. by destruct (method_router registered (e :: es)).
    - intros [H1 H2] [p es] Hin. pose proof (assoc_find_in _ _ _ Hnd Hin) as Hf. rewrite Hfind in Hf. cbn [compose fst snd].
      destruct (proj2 (Hat (at_path specs p)) (conj (H1 p) (H2 p))) as [x Hx]. destruct (at_path specs p); [done|]. injection Hf as <-. rewrite Hx. by eexists. }
  unfold route_group. destruct (accepts _); [|split; [split; [by intros [? ?]|by intros [? _]]|done]]. split; [rewrite Hsome; naive_solver|].
  intros table Ht. assert (Hkeys : table.*1 = (group_routes specs).*1).
  { apply mapM_Some in Ht. clear -Ht. induction Ht as [|g t gs ts Hg Hgs IH]; [done|]. cbn. rewrite IH. f_equal. destruct (method_router registered g.2); [|done]. by injection Hg as <-. }
  split; [by rewrite Hkeys|]. destruct (proj1 Hsome (ex_intro _ table Ht)) as [Hnp Heq].
  assert (Hserved : ∀ p v, served table p v = service_of <$> List.find (λ e, bool_decide (e.1.1 = v)) (at_path specs p)).
  { intros p v. unfold served. rewrite (assoc_find_mapM _ _ _ p Ht), Hfind. destruct (at_path specs p) as [|e es] eqn:Hp; [done|]. cbn [mbind option_bind].
    rewrite method_router_spec, <- Hp, bool_decide_true, (proj1 (equipped_at registered specs) Heq p) by by apply pairs_at.
    cbn [andb]. apply concat_verb_find. }
  split.
  - intros s Hs. rewrite Hserved. assert (Hf : List.find (λ e, bool_decide (e.1.1 = rs_verb s)) (at_path specs (rs_path s)) = Some (entry_of s)).
    { rewrite pairs_at in Hnp. specialize (Hnp (rs_path s)). assert (Hin : entry_of s ∈ at_path specs (rs_path s)) by (apply list_elem_of_fmap_2, list_elem_of_filter; done).
      clear -Hnp Hin. induction (at_path specs (rs_path s)) as [|e es IH]; [by apply not_elem_of_nil in Hin|]. rewrite fmap_cons in Hnp. apply NoDup_cons in Hnp as [Hn Hnp]. cbn.
      apply elem_of_cons in Hin as [<-|Hin]; [by rewrite bool_decide_true|]. rewrite bool_decide_false; [by apply IH|]. intros Heq. apply Hn. rewrite Heq.
      by apply (list_elem_of_fmap_2 (λ e : RouteEntry, e.1.1)) in Hin. }
    by rewrite Hf.
  - intros p v Hpv. rewrite Hserved. destruct (List.find _ _) as [e|] eqn:He; [|done]. exfalso. apply Hpv. apply List.find_some in He as [Hin%list_elem_of_In <-%bool_decide_eq_true].
    apply list_elem_of_fmap in Hin as (s & -> & [<- Hs]%list_elem_of_filter). by apply (list_elem_of_fmap_2 pair_of).
Qed.
End Served.

(** ** A block serves its methods *)

Section Block.
Context {Ty Path : Type} `{SynType Ty} (own : OwnTypes Ty) (is_ident : string → bool) (parse_path : Parser RouteError Path) (self_ident : string).
#[local] Abbreviation HandlerMethod := (HandlerMethod Ty).
#[local] Abbreviation AxumHandlers := (AxumHandlers Ty Path).
(** The walk over a block gives [parse_handler] the methods that are neither hooks nor
    constructors, in their order. *)
Fixpoint parse_handlers (h : AxumHandlers) (ms : list HandlerMethod) : result (AxumHandlers * list (Hint (Ty := Ty))) HandlerError :=
  match ms with
  | [] => Ok (h, [])
  | m :: ms' =>
      match parse_handler own is_ident parse_path self_ident h m with
      | Err e => Err e
      | Ok (h', hint) => result_map (λ r, (r.1, option_list hint ++ r.2)) (parse_handlers h' ms')
      end
  end.
(** The route and the message a method declares. *)
Definition declared_route (m : HandlerMethod) : option (RouteAttr Path) :=
  match hm_message m, hm_route m with
  | None, Some a => if is_route_attr a then match parse_route_attr parse_path a with Ok r => Some r | Err _ => None end else None
  | _, _ => None
  end.
Definition declared_message (m : HandlerMethod) : option (string * MessageMode) :=
  ts ← hm_message m; match parse_message_attr ts with Ok d => Some d | Err _ => None end.
Definition declared {A} (f : HandlerMethod → option A) (ms : list HandlerMethod) : list (HandlerMethod * A) := omap (λ m, (m,.) <$> f m) ms.
(** What a route has from its method. *)
Definition param_of (marks : list bool) (i : nat) (t : Ty) (p : ClosureParam (Ty := Ty)) : Prop :=
  match p with
  | PExtract u => u = t ∧ marks !! i ≠ Some true
  | PStreamBody it => stream_item t = Some it ∧ marks !! i = Some true
  end.
Definition route_of (m : HandlerMethod) (r : RouteAttr Path) (s : RouteSpec Ty Path) : Prop :=
  rs_verb s = verb r ∧ rs_path s = route_path r ∧ rs_middleware s = middleware r ∧ hd_ident (rs_handler s) = sig_ident (hm_sig m) ∧
  hd_takes_self (rs_handler s) = takes_self (hm_sig m) ∧ bad_receiver (hm_sig m) = false ∧
  length (hd_params (rs_handler s)) = length (params (hm_sig m)) ∧
  ∀ i t p, params (hm_sig m) !! i = Some t → hd_params (rs_handler s) !! i = Some p → param_of (hm_stream m) i t p.
Definition message_of (m : HandlerMethod) (d : string * MessageMode) (w : WsRouteSpec Ty) : Prop :=
  ws_destination w = d.1 ∧ ws_ident w = sig_ident (hm_sig m) ∧ ws_is_request w = resolve_message_reply d.2 (sig_output (hm_sig m)) ∧
  bad_receiver (hm_sig m) = false ∧ ws_bindings_from (params (hm_sig m)) false = Ok (ws_bindings w).
(** Neither its body nor its return is streamed. *)
Definition is_unary (p : HandlerMethod * RouteAttr Path) : bool :=
  match take_stream_param p.1, classify_stream_return (sig_output (hm_sig p.1)) (streamed p.2) with Ok None, None => true | _, _ => false end.
Definition operation_for (p : HandlerMethod * RouteAttr Path) : Operation (Ty := Ty) :=
  operation_of own is_ident self_ident (hm_sig p.1) p.2 (o ← hm_openapi p.1; o).
Definition grown (h h' : AxumHandlers) (ms : list HandlerMethod) : Prop :=
  (∃ specs, routes h' = routes h ++ specs ∧ Forall2 (λ p s, route_of p.1 p.2 s) (declared declared_route ms) specs) ∧
  (∃ ws, ws_routes h' = ws_routes h ++ ws ∧ Forall2 (λ p w, message_of p.1 p.2 w) (declared declared_message ms) ws) ∧
  openapi_ops h' = openapi_ops h ++ (operation_for <$> filter is_unary (declared declared_route ms)) ∧
  (declared declared_message ms ≠ [] → is_Some (ws_protocol h)) ∧ ws_protocol h' = ws_protocol h ∧ ws_codec h' = ws_codec h ∧ routes_slice h' = routes_slice h.

Lemma take_stream_spec k ps marks (found0 found : option (nat * Ty)) : take_stream_from k ps marks found0 = Ok found →
  match found0 with Some f => found = found0 ∧ ∀ i t, ps !! i = Some t → marks !! i ≠ Some true
  | None => ∀ i t, ps !! i = Some t → match marks !! i with Some true => ∃ it, found = Some ((k + i)%nat, it) ∧ stream_item t = Some it | _ => ∀ it, found ≠ Some ((k + i)%nat, it) end
  end ∧ match found0, found with None, Some (j, _) => (k <= j)%nat | _, _ => True end.
Proof.
  revert k marks found0. induction ps as [|t ps IH]; intros k marks found0; cbn [take_stream_from].
  { intros [= <-]. destruct found0; [split; [|done]; split; done|]. split; done. }
  destruct marks as [|b marks]; cbn [head from_option tail].
  - intros Hr. apply IH in Hr as [Hr Hk]. destruct found0 as [f|].
    + destruct Hr as [-> Hr]. split; [|done]. split; [done|]. by intros i u _.
    + split; [|destruct found as [[j u]|]; [lia|done]]. intros i u Hi. cbn. intros it ->. destruct i as [|i]; [lia|].
      cbn in Hi. specialize (Hr i u Hi). cbn in Hr. apply (Hr it). f_equal. f_equal. lia.
  - destruct b.
    + destruct found0; [done|]. destruct (stream_item t) as [it|] eqn:Ht; [|done]. intros Hr. apply IH in Hr as [[-> Hr] _]. split; [|lia].
      intros [|i] u Hi; cbn in Hi.
      * injection Hi as <-. cbn. exists it. by rewrite Nat.add_0_r.
      * cbn. specialize (Hr i u Hi). destruct (marks !! i) as [[]|]; [done|..]; intros it' [= Heq]; lia.
    + intros Hr. apply IH in Hr as [Hr Hk]. destruct found0 as [f|].
      * destruct Hr as [-> Hr]. split; [|done]. split; [done|]. intros [|i] u Hi; [done|]. by apply (Hr i u).
      * split; [|destruct found as [[j u]|]; [lia|done]]. intros [|i] u Hi; cbn in Hi |- *; [intros it ->; lia|].
        replace (k + S i)%nat with (S k + i)%nat by lia. by apply Hr.
Qed.
Lemma build_route_of m r stream wrap in_result s : take_stream_param m = Ok stream → build_route (hm_sig m) r stream wrap in_result = Ok s → route_of m r s.
Proof.
  unfold build_route, take_stream_param. intros [Hst _]%take_stream_spec. destruct (bad_receiver _) eqn:Hb; [done|]. intros [= <-]. repeat split; cbn; [done|..].
  - rewrite length_zip_with, length_seq. lia.
  - intros i t p Hi. rewrite lookup_zip_with, Hi. rewrite lookup_seq_lt by (by apply lookup_lt_Some in Hi). cbn. intros [= <-]. specialize (Hst i t Hi). cbn in Hst.
    unfold closure_param. destruct (hm_stream m !! i) as [[]|] eqn:Hm.
    + destruct Hst as (it & -> & Hit). by rewrite bool_decide_true.
    + destruct stream as [[j it]|]; [|by split; [|congruence]]. case_bool_decide; [subst; by destruct (Hst it)|by split; [|congruence]].
    + destruct stream as [[j it]|]; [|by split; [|congruence]]. case_bool_decide; [subst; by destruct (Hst it)|by split; [|congruence]].
Qed.
Lemma parse_message_grows h h' m hint : hm_message m <> None → parse_handler own is_ident parse_path self_ident h m = Ok (h', hint) → grown h h' [m].
Proof.
  unfold parse_handler, grown, declared, declared_route, declared_message. cbn [omap list_omap]. destruct (hm_message m) as [ts|] eqn:Hm; [|done]. intros _. cbn [mbind option_bind].
  unfold parse_message. destruct (parse_message_attr ts) as [[dest mode]|]; [|done]. destruct (ws_protocol h) as [pr|] eqn:Hpr; [|done]. unfold build_ws_route.
  destruct (bad_receiver _) eqn:Hb; [done|]. destruct (ws_bindings_from _ _) as [bs|] eqn:Hbs; [|done]. cbn [result_map].
  destruct (build_message_method _ _ _); [|done]. destruct (ws_payload_type _); [|done]. intros [= <- <-]. cbn.
  split; [exists []; by rewrite app_nil_r|]. split; [eexists; split; [done|]; by repeat constructor|]. rewrite app_nil_r. by repeat split.
Qed.
Lemma parse_route_grows h h' m hint : hm_message m = None → parse_handler own is_ident parse_path self_ident h m = Ok (h', hint) → grown h h' [m].
Proof.
  intros Hm. assert (Hmsg : declared declared_message [m] = []) by (unfold declared, declared_message; cbn; by rewrite Hm).
  assert (Hnone : declared declared_route [m] = [] → grown h h [m]).
  { intros Hd. unfold grown. rewrite Hd, Hmsg, filter_nil, fmap_nil, app_nil_r. split; [exists []; by rewrite app_nil_r|]. split; [exists []; by rewrite app_nil_r|done]. }
  unfold parse_handler. rewrite Hm. destruct (hm_route m) as [a|] eqn:Ha; [|intros [= <- <-]; apply Hnone; unfold declared, declared_route; cbn; by rewrite Hm, Ha].
  destruct (is_route_attr a) eqn:Hra; [|intros [= <- <-]; apply Hnone; unfold declared, declared_route; cbn; by rewrite Hm, Ha, Hra].
  unfold parse_route. destruct (parse_route_attr parse_path a) as [r|] eqn:Hr; [|done].
  assert (Hd : declared declared_route [m] = [(m, r)]) by (unfold declared, declared_route; cbn; by rewrite Hm, Ha, Hra, Hr).
  unfold grown. rewrite Hd, Hmsg, filter_cons_bool, filter_nil. unfold operation_for, is_unary. cbn [fst snd].
  destruct (hm_openapi m) as [[extra|]|] eqn:Hx; [|done|].
  all: destruct (take_stream_param m) as [stream|] eqn:Hst; [|done].
  all: destruct (route_hint _ _ _ _ _ _) as [hh sibling]; destruct (build_route _ _ _ _ _) as [s|] eqn:Hs; [|done]; intros [= <- <-]; cbn.
  all: split; [exists [s]; split; [done|]; constructor; [|constructor]; by eapply build_route_of|].
  all: split; [exists []; by rewrite app_nil_r|]; split; [|done]; f_equal.
  all: destruct stream as [p|]; [done|]; destruct (classify_stream_return _ _); cbn; by rewrite ?Hx.
Qed.
Lemma declared_cons {A} (f : HandlerMethod → option A) m ms : declared f (m :: ms) = declared f [m] ++ declared f ms.
Proof. unfold declared. cbn. by destruct (f m). Qed.
Lemma parse_handlers_grows ms h h' hints : parse_handlers h ms = Ok (h', hints) → grown h h' ms.
Proof.
  revert h hints. induction ms as [|m ms IH]; intros h hints; cbn [parse_handlers].
  { intros [= <- <-]. split; [exists []; by rewrite app_nil_r|]. split; [exists []; by rewrite app_nil_r|]. cbn. by rewrite app_nil_r. }
  destruct (parse_handler _ _ _ _ h m) as [[h1 hint]|] eqn:Hm; [|done]. destruct (parse_handlers h1 ms) as [[h2 hints']|] eqn:Hr; [|done]. cbn. intros [= <- <-].
  assert (Hg : grown h h1 [m]) by (destruct (hm_message m) eqn:Hmm; [by eapply parse_message_grows; [rewrite Hmm|]|by eapply parse_route_grows]).
  destruct Hg as ((s1 & Hs1 & Hf1) & (w1 & Hw1 & Hg1) & Ho1 & Hp1 & Hpr1 & Hc1 & Hl1). apply IH in Hr as ((s2 & Hs2 & Hf2) & (w2 & Hw2 & Hg2) & Ho2 & Hp2 & Hpr2 & Hc2 & Hl2).
  unfold grown. rewrite !(declared_cons _ m ms). repeat split; try congruence.
  - exists (s1 ++ s2). rewrite Hs2, Hs1, app_assoc. split; [done|]. by apply Forall2_app.
  - exists (w1 ++ w2). rewrite Hw2, Hw1, app_assoc. split; [done|]. by apply Forall2_app.
  - by rewrite Ho2, Ho1, filter_app, fmap_app, app_assoc.
  - intros Hne. rewrite <- Hpr1 in *. destruct (declared declared_message ms) eqn:Hd; [rewrite app_nil_r in Hne; by apply Hp1|by apply Hp2].
Qed.
Lemma declared_elem {A} (f : HandlerMethod → option A) ms m a : (m, a) ∈ declared f ms ↔ m ∈ ms ∧ f m = Some a.
Proof.
  unfold declared. rewrite list_elem_of_omap. split.
  - intros (m' & Hm & Heq). destruct (f m') eqn:Hf; [|done]. injection Heq as <- <-. done.
  - intros [Hm Hf]. exists m. by rewrite Hf.
Qed.
(** C27: a block of routes is served as it is declared. Of a block that is accepted and
    registers its routes, the server can be built exactly when no two routes declare the same
    verb and path, every middleware they list is registered in the root and [axum] takes the
    paths. Then each declared route is bound, under its verb and path, to a handler that
    calls its method and extracts the method's parameters in order, the streamed body
    where the method marks it, inside the middleware it lists; whatever is bound was
    declared; and the documented operations are those of the routes that do not stream, each
    at a path and verb that is bound. *)
Theorem block_serves_its_methods h0 ms h hints registered accepts slice specs :
  routes h0 = [] → openapi_ops h0 = [] → parse_handlers h0 ms = Ok (h, hints) → register self_ident h = RegRoutes slice specs →
  (is_Some (route_group registered accepts specs) ↔
     accepts (group_routes specs).*1 = true ∧
     NoDup ((λ d, (route_path d.2, verb d.2)) <$> declared declared_route ms) ∧
     ∀ m r mw, m ∈ ms → declared_route m = Some r → mw ∈ middleware r → registered mw = true) ∧
  ∀ table, route_group registered accepts specs = Some table →
    (∀ m r, m ∈ ms → declared_route m = Some r →
       ∃ s, route_of m r s ∧ served table (route_path r) (verb r) = Some (mkService (middleware r) (rs_handler s))) ∧
    (∀ p v sv, served table p v = Some sv →
       ∃ m r s, m ∈ ms ∧ declared_route m = Some r ∧ route_path r = p ∧ verb r = v ∧ route_of m r s ∧ sv = mkService (middleware r) (rs_handler s)) ∧
    openapi_ops h = operation_for <$> filter is_unary (declared declared_route ms) ∧
    (∀ o, o ∈ openapi_ops h → is_Some (served table (op_path o) (op_verb o))).
Proof.
  intros Hr0 Ho0 ((specs' & Hspecs & Hf) & _ & Hops & _)%parse_handlers_grows Hreg. rewrite Hr0 in Hspecs. rewrite Ho0 in Hops. cbn in Hspecs, Hops.
  assert (specs' = specs) as -> by (unfold register in Hreg; rewrite Hspecs in Hreg; destruct specs', (ws_routes h); congruence).
  clear Hreg Hspecs. destruct (route_group_serves registered accepts specs) as [Hbuilt Hserve].
  assert (Hfwd : ∀ m r, m ∈ ms → declared_route m = Some r → ∃ s, s ∈ specs ∧ route_of m r s ∧ rs_verb s = verb r ∧ rs_path s = route_path r ∧ rs_middleware s = middleware r).
  { intros m r Hm Hr. assert (Hd : (m, r) ∈ declared declared_route ms) by by apply declared_elem.
    apply list_elem_of_lookup in Hd as [i Hi]. destruct (Forall2_lookup_l _ _ _ _ _ Hf Hi) as (s & Hs & Hro). exists s.
    split; [by eapply list_elem_of_lookup_2|]. split; [done|]. destruct Hro as (Hv & Hp & Hmw & _). done. }
  assert (Hbwd : ∀ s, s ∈ specs → ∃ m r, m ∈ ms ∧ declared_route m = Some r ∧ route_of m r s ∧ rs_verb s = verb r ∧ rs_path s = route_path r ∧ rs_middleware s = middleware r).
  { intros s Hs. apply list_elem_of_lookup in Hs as [i Hi].
    destruct (Forall2_lookup_r _ _ _ _ _ Hf Hi) as ([m r] & Hd%list_elem_of_lookup_2 & Hro). apply declared_elem in Hd as [Hm Hr].
    exists m, r. pose proof Hro as (Hv & Hp & Hmw & _). done. }
  split.
  { rewrite Hbuilt. assert (pair_of <$> specs = (λ d, (route_path d.2, verb d.2)) <$> declared declared_route ms) as ->.
    { clear -Hf. induction Hf as [|[m r] s ds ss (Hv & Hp & _) _ IH]; [done|]. rewrite !fmap_cons, IH. unfold pair_of. cbn [fst snd] in *. by rewrite Hp, Hv. }
    split; intros (Ha & Hn & Hmw); (split; [done|]); (split; [done|]).
    - intros m r mw Hm Hr Hin. destruct (Hfwd m r Hm Hr) as (s & Hs & _ & _ & _ & Heq). specialize (Hmw s Hs).
      rewrite forallb_forall in Hmw. apply Hmw, list_elem_of_In. by rewrite Heq.
    - intros s Hs. destruct (Hbwd s Hs) as (m & r & Hm & Hr & _ & _ & _ & ->). apply forallb_forall. intros mw Hin%list_elem_of_In. by apply (Hmw m r). }
  intros table Ht. destruct (Hserve table Ht) as (_ & Hin & Hout).
  assert (Hbound : ∀ m r, m ∈ ms → declared_route m = Some r → ∃ s, route_of m r s ∧ served table (route_path r) (verb r) = Some (mkService (middleware r) (rs_handler s))).
  { intros m r Hm Hr. destruct (Hfwd m r Hm Hr) as (s & Hs & Hro & Hv & Hp & Hmw). exists s. split; [done|]. rewrite <- Hv, <- Hp, <- Hmw. by apply Hin. }
  split; [done|]. split; [|split; [done|]].
  - intros p v sv Hsv. destruct (decide ((p, v) ∈ pair_of <$> specs)) as [Hin'|Hnin]; [|by rewrite Hout in Hsv].
    apply list_elem_of_fmap in Hin' as (s & [= -> ->] & Hs). pose proof (Hin s Hs) as Heq. destruct (Hbwd s Hs) as (m & r & Hm & Hr & Hro & Hv & Hp & Hmw).
    exists m, r, s. split; [done|]. split; [done|]. split; [done|]. split; [done|]. split; [done|]. congruence.
  - intros o Ho. rewrite Hops in Ho. apply list_elem_of_fmap in Ho as ([m r] & -> & [_ Hd]%list_elem_of_filter). apply declared_elem in Hd as [Hm Hr].
    destruct (Hbound m r Hm Hr) as (s & _ & Hsv). cbn. by rewrite Hsv.
Qed.
End Block.

(** ** A streamed return has the framing its client reads *)

Section Framed.
Context {Ty : Type} `{SynType Ty}.
(** The framing of the response: the wrapper the macro adds, or the one the handler's
    return names. *)
Definition response_framing (output : ReturnType (Ty := Ty)) (r : StreamReturn Ty) : option Framing :=
  match server_wrap r with
  | Some WrapNdjson => Some FrNdjson
  | Some WrapRawU8 => Some FrRawStream
  | None =>
      t ← output;
      let name := type_name (peel_named t "Result") in
      if bool_decide (name = Some "Ndjson") then Some FrNdjson else if bool_decide (name = Some "RawStream") then Some FrRawStream else None
  end.
(** the client of a streaming route reads the framing that the server writes. Whenever
    a return is taken for a stream and a client method is made for it, the framing it
    decodes is that of the response, whether the macro adds it or the handler does; the
    wrap reaches into a [Result] exactly when the return is one; and a return that has
    no client method is passed on as it is and was flagged. *)
Theorem stream_framing_agrees (output : ReturnType (Ty := Ty)) flagged r : classify_stream_return output flagged = Some r →
  (∀ f it, client r = Some (f, it) → response_framing output r = Some f) ∧ (client r = None → flagged = true ∧ server_wrap r = None) ∧
  (in_result r = true ↔ ∃ t ok, output = Some t ∧ first_type_arg t "Result" = Some ok).
Proof.
  unfold classify_stream_return. destruct output as [t|]; [|done]. cbn [mbind option_bind].
  assert (Hres : ∀ b, b = match first_type_arg t "Result" with Some _ => true | None => false end → b = true ↔ ∃ t' ok, Some t = Some t' ∧ first_type_arg t' "Result" = Some ok).
  { intros b ->. destruct (first_type_arg t "Result") as [ok|] eqn:Hr; [split; [intros _; by exists t, ok|done]|]. split; [done|]. intros (t' & ok & [= <-] & ?). congruence. }
  assert (Hin : (let '(inner, _) := match first_type_arg t "Result" with Some ok => (ok, true) | None => (t, false) end in inner) = peel_named t "Result").
  { unfold peel_named. by destruct (first_type_arg t "Result"). }
  destruct (match first_type_arg t "Result" with Some ok => (ok, true) | None => (t, false) end) as [inner wrapped] eqn:Hw. subst inner.
  assert (Hwr : wrapped = match first_type_arg t "Result" with Some _ => true | None => false end) by (by destruct (first_type_arg t "Result"); simplify_eq).
  unfold response_framing. cbn [mbind option_bind]. set (inner := peel_named t "Result") in *.
  destruct (first_type_arg inner "Ndjson") as [s|] eqn:Hn; cbn [mbind option_bind].
  { pose proof (first_type_arg_named _ _ _ Hn) as Hname. destruct (stream_item s) as [it|]; [|done]. cbn [mbind option_bind]. intros [= <-]. cbn. split; [intros f it' [= <- <-]; by rewrite bool_decide_true|].
    split; [done|by apply Hres]. }
  destruct (first_type_arg inner "RawStream") as [s|] eqn:Hr; cbn [mbind option_bind].
  { pose proof (first_type_arg_named _ _ _ Hr) as Hname. destruct (stream_item s) as [it|]; [|done]. cbn [mbind option_bind]. intros [= <-]. cbn.
    split; [intros f it' [= <- <-]; rewrite bool_decide_false by congruence; by rewrite bool_decide_true|]. split; [done|by apply Hres]. }
  destruct (match view inner with VImplTrait bounds => _ | _ => None end) as [it|].
  { intros [= <-]. destruct (bool_decide (type_name it = Some "u8")); cbn; (split; [by intros f it' [= <- <-]|split; [done|by apply Hres]]). }
  destruct flagged; [|done]. intros [= <-]. cbn. split; [done|]. split; [done|by apply Hres].
Qed.
End Framed.

(** ** A message and its reply *)

Section Messages.
Context {Ty Val Body : Type} `{SynType Ty}.
(** The codec of the block ([TopicCodec]) and the scope of the message. *)
Context (codec_encode : Ty → Val → result Body string) (codec_decode : Ty → Body → result Val string) (extract : Ty → result Val string).
Inductive DispatchError := DInject (msg : string) | DDecode (msg : string) | DApplication (msg : string) | DEncode (msg : string).
Inductive CallError := CEncode (msg : string) | CDecode (msg : string) | CRemote (e : DispatchError).
(** What a method returns: a value or an error, in a [Result] or not, in a [Json] or not. *)
Record Ret := mkRet { ret_result : bool; ret_json : bool; ret_value : result Val string }.
(** A return of the type a method declares. *)
Definition ret_typed (output : ReturnType (Ty := Ty)) (r : Ret) : Prop :=
  let '(_, from_result, json) := message_success_value output true in ret_result r = from_result ∧ ret_json r = json ∧ (from_result = false → ∃ v, ret_value r = Ok v).

Fixpoint bind_args (bs : list (WsBinding (Ty := Ty))) (payload : Body) : result (list Val) DispatchError :=
  match bs with
  | [] => Ok []
  | BindInject h :: bs' => match extract h with Err e => Err (DInject e) | Ok v => result_map (cons v) (bind_args bs' payload) end
  | BindPayload t :: bs' => match codec_decode t payload with Err e => Err (DDecode e) | Ok v => result_map (cons v) (bind_args bs' payload) end
  end.
(** The handler of a request that [build_ws_route] generates. *)
Definition serve_request (spec : WsRouteSpec Ty) (f : list Val → Ret) (payload : Body) : result Body DispatchError :=
  match bind_args (ws_bindings spec) payload with
  | Err e => Err e
  | Ok args =>
      let '(t, from_result, _) := message_success_value (ws_output spec) true in
      match ret_value (f args) with
      | Err e => if from_result then Err (DApplication e) else Err (DEncode e)
      | Ok v => map_err DEncode (codec_encode t v)
      end
  end.
(** The client's method: [transport] sends to a destination and waits for the reply. *)
Definition call_request (m : MessageMethod Ty) (transport : string → Body → result Body CallError) (v : Val) : result Val CallError :=
  match codec_encode (from_option (λ t, t) unit_type (mm_request m)) v with
  | Err e => Err (CEncode e)
  | Ok body =>
      match transport (mm_destination m) body with
      | Err e => Err e
      | Ok reply => map_err CDecode (codec_decode (mm_response m) reply)
      end
  end.

(** The arguments, when the payload is a value. *)
Fixpoint args_of (bs : list (WsBinding (Ty := Ty))) (v : Val) : result (list Val) DispatchError :=
  match bs with
  | [] => Ok []
  | BindInject h :: bs' => match extract h with Err e => Err (DInject e) | Ok w => result_map (cons w) (args_of bs' v) end
  | BindPayload _ :: bs' => result_map (cons v) (args_of bs' v)
  end.
Lemma success_type (output : ReturnType (Ty := Ty)) : (message_success_value output true).1.1 = response_type output.
Proof.
  unfold message_success_value, response_type, peel_named. destruct output as [t|]; [|done]. destruct (first_type_arg t "Result") as [ok|]; cbn.
  - by destruct (first_type_arg ok "Json").
  - by destruct (first_type_arg t "Json").
Qed.
Lemma ws_bindings_payload (ps : list Ty) (seen : option Ty) : 
  match ws_payload_from ps seen with
  | Ok p => ∃ bs, ws_bindings_from ps (match seen with Some _ => true | None => false end) = Ok bs ∧ (match seen with Some _ => p = seen | None => True end) ∧
      (∀ t, BindPayload t ∈ bs → seen = None ∧ p = Some t)
  | Err e => ws_bindings_from ps (match seen with Some _ => true | None => false end) = Err e
  end.
Proof.
  revert seen. induction ps as [|t ps IH]; intros seen; cbn [ws_payload_from ws_bindings_from].
  - exists []. split; [done|]. split; [by destruct seen|]. by intros t ?%not_elem_of_nil.
  - destruct (inject_inner t) as [h|].
    + specialize (IH seen). destruct (ws_payload_from ps seen) as [p|e]; [|by rewrite IH]. destruct IH as (bs & -> & Hp & Hb). exists (BindInject h :: bs). split; [done|]. split; [done|].
      intros u [?|Hu]%elem_of_cons; [done|by apply Hb].
    + destruct seen as [s|]; [done|]. specialize (IH (Some t)). destruct (ws_payload_from ps (Some t)) as [p|e]; [|by rewrite IH]. destruct IH as (bs & -> & -> & Hb).
      exists (BindPayload t :: bs). split; [done|]. split; [done|]. intros u [[= ->]|Hu]%elem_of_cons; [done|]. by apply Hb in Hu as [? _].
Qed.
Lemma bind_args_value bs body v : (∀ t, BindPayload t ∈ bs → codec_decode t body = Ok v) → bind_args bs body = args_of bs v.
Proof.
  induction bs as [|[h|t] bs IH]; intros Hd; [done|..]; cbn.
  - destruct (extract h); [|done]. rewrite IH; [done|]. intros t Ht. apply Hd. by right.
  - rewrite (Hd t) by by left. rewrite IH; [done|]. intros u Hu. apply Hd. by right.
Qed.
(** C40: a request over a websocket gives what the method returns. The client method and the
    route made of one message method are accepted together; and when a transport takes
    the request to that route, with a codec that reads what it writes, the client gets
    the value the method returns for its payload, or the error of the first thing that
    failed: its own encoding, a dependency, the method itself, the encoding of the
    reply. *)
Theorem message_request_end_to_end (s : MethodSig Ty) destination m spec (f : list Val → Ret) transport v :
  build_message_method s destination true = Ok m → build_ws_route s destination true = Ok spec →
  (∀ t v b, codec_encode t v = Ok b → codec_decode t b = Ok v) → (∀ args, ret_typed (sig_output s) (f args)) →
  (∀ b, transport destination b = map_err CRemote (serve_request spec f b)) →
  call_request m transport v =
    match codec_encode (from_option (λ t, t) unit_type (mm_request m)) v with
    | Err e => Err (CEncode e)
    | Ok _ =>
        match args_of (ws_bindings spec) v with
        | Err e => Err (CRemote e)
        | Ok args =>
            match ret_value (f args) with
            | Err e => Err (CRemote (DApplication e))
            | Ok u => match codec_encode (response_type (sig_output s)) u with Err e => Err (CRemote (DEncode e)) | Ok _ => Ok u end
            end
        end
    end.
Proof.
  unfold build_message_method, build_ws_route, ws_payload_type. intros Hm Hs Hcodec Htyped Htr. destruct (bad_receiver s); [done|].
  pose proof (ws_bindings_payload (params s) None) as Hb. destruct (ws_payload_from (params s) None) as [p|e]; [|done]. destruct Hb as (bs & Hbs & _ & Hp).
  rewrite Hbs in Hs. injection Hm as <-. injection Hs as <-. unfold call_request. cbn [mm_request mm_destination mm_response ws_bindings].
  destruct (codec_encode _ v) as [body|e] eqn:He; [|done]. rewrite Htr. unfold serve_request. cbn [ws_bindings ws_output].
  rewrite (bind_args_value bs body v). 2: { intros t [_ Ht]%Hp. rewrite Ht in He. by apply Hcodec. }
  destruct (args_of bs v) as [args|e]; [|done]. specialize (Htyped args). unfold ret_typed in Htyped. pose proof (success_type (sig_output s)) as Ht.
  destruct (message_success_value (sig_output s) true) as [[t from_result] json]. cbn in Ht. subst t. destruct Htyped as (_ & _ & Hv).
  destruct (ret_value (f args)) as [u|e].
  - destruct (codec_encode _ u) as [reply|e] eqn:Hu; [|done]. cbn. by rewrite (Hcodec _ _ _ Hu).
  - destruct from_result; [done|]. by destruct (Hv eq_refl).
Qed.
End Messages.

(** ** Concrete controllers *)

#[local] Existing Instance RTy_syn.
Definition c_sig (n : string) (ps : list RTy) (out : option RTy) : MethodSig RTy := mkSig n true (Some (mkReceiver true false)) ps out (mkGenerics [] []).
Definition c_route (verb : string) (args : list Token) (s : MethodSig RTy) (stream : list bool) : HandlerMethod RTy :=
  mkHandlerMethod None (Some (mkAttr (Some verb) (Some args))) None s stream.
Definition c_list : HandlerMethod RTy := c_route "get" [KStr "/users"] (c_sig "list" [] (Some (r_of "Json" (r_ty "Users")))) [].
Definition c_create : HandlerMethod RTy :=
  c_route "post" [KStr "/users"; KComma; KIdent "middleware"; KEq; KBracket [KIdent "Auth"; KComma; KIdent "Log"]] (c_sig "create" [r_of "Json" (r_ty "User")] (Some (r_of "Json" (r_ty "User")))) [].
Definition c_upload : HandlerMethod RTy := c_route "put" [KStr "/files/{type}"] (c_sig "upload" [r_of "Path" (r_ty "String"); RStream (r_ty "Chunk")] None) [false; true].
Definition c_show : HandlerMethod RTy := c_route "get" [KStr "/files/{type}"] (c_sig "show" [r_of "Path" (r_ty "String")] (Some (r_of "Json" (r_ty "File")))) [].
Definition c_message (ts : list Token) (s : MethodSig RTy) : HandlerMethod RTy := mkHandlerMethod (Some ts) None None s [].
Definition c_ask : MethodSig RTy := c_sig "ask" [r_of "Inject" (r_ty "Db"); r_ty "Question"] (Some (r_of "Result" (r_of "Json" (r_ty "Answer")))).
Definition c_empty (ws : option string) : AxumHandlers RTy string := mkAxumHandlers [] [] [] [] [] ws None None.
Definition c_parse (ws : option string) (ms : list (HandlerMethod RTy)) := parse_handlers r_own r_ident parse_ident "Files" (c_empty ws) ms.
Definition c_block : list (HandlerMethod RTy) := [c_list; c_create; c_upload; c_show].
Definition c_table : option (list (string * list (string * list string * string))) :=
  match c_parse None c_block with
  | Ok (h, _) => option_map (map (λ g, (g.1, map (λ v : string * Service, (v.1, layers v.2, hd_ident (around v.2))) g.2))) (route_group (λ _, true) (λ _, true) (routes h))
  | Err _ => None
  end.

Example handlers_samples :
  c_table = Some [("/users", [("get", [], "list"); ("post", ["Auth"; "Log"], "create")]); ("/files/{type}", [("put", [], "upload"); ("get", [], "show")])] ∧
  result_map (λ r, (λ s, hd_params (rs_handler s)) <$> routes r.1) (c_parse None [c_upload]) = Ok [[PExtract (r_of "Path" (r_ty "String")); PStreamBody (r_ty "Chunk")]] ∧
  result_map (λ r, length r.2) (c_parse None c_block) = Ok 4%nat ∧
  result_map (λ r, (λ o, (op_id o, op_verb o, op_path o)) <$> openapi_ops r.1) (c_parse None c_block) =
    Ok [("Files_list", "get", "/users"); ("Files_create", "post", "/users"); ("Files_show", "get", "/files/{type}")] ∧
  c_parse None [c_message [KStr "/ask"] c_ask] = Err NoProtocol ∧
  result_map (λ r, (λ w, (ws_destination w, ws_is_request w, ws_bindings w)) <$> ws_routes r.1) (c_parse (Some "Stomp") [c_message [KStr "/ask"] c_ask]) =
    Ok [("/ask", true, [BindInject (r_ty "Db"); BindPayload (r_ty "Question")])] ∧
  c_parse (Some "Stomp") [c_message [KStr "/x"] (c_sig "f" [r_ty "A"; r_ty "B"] None)] = Err TwoPayloads ∧
  result_map (λ r, (λ s, hd_params (rs_handler s)) <$> routes r.1) (c_parse None [c_route "put" [KStr "/x"] (c_sig "f" [r_ty "A"] None) [true]]) = Ok [[PStreamBody (RItem (r_ty "A"))]] ∧
  c_parse None [c_route "put" [KStr "/x"] (c_sig "f" [RStream (r_ty "A"); RStream (r_ty "B")] None) [true; true]] = Err TwoStreamParams ∧
  result_map (λ r, register "Files" r.1) (c_parse (Some "Stomp") [c_list; c_message [KStr "/ask"] c_ask]) = Ok RegMixed ∧
  resolve_message_reply Infer None = false ∧ resolve_message_reply Infer (Some (r_of "Result" (RTuple []))) = false ∧ resolve_message_reply Send (Some (r_ty "A")) = false.
Proof. vm_compute. repeat split. Qed.

Definition c_registered (mw : string) : bool := bool_decide (mw ∈ ["Auth"; "Log"]).
Lemma block_serves_its_methods_witness : ∃ h hints table, c_parse None c_block = Ok (h, hints) ∧ route_group c_registered (λ _, true) (routes h) = Some table ∧
  (layers <$> served table "/users" "post") = Some ["Auth"; "Log"] ∧ length (openapi_ops h) = 3%nat ∧ ¬ is_Some (route_group (λ _, false) (λ _, true) (routes h)).
Proof.
  destruct (c_parse None c_block) as [[h hints]|] eqn:Hp; [|discriminate Hp].
  assert (register "Files" h = RegRoutes "FilesRoutes" (routes h)) as Hreg by (vm_compute in Hp; injection Hp as <- <-; reflexivity).
  destruct (route_group c_registered (λ _, true) (routes h)) as [table|] eqn:Ht; [|vm_compute in Hp; injection Hp as <- <-; vm_compute in Ht; discriminate Ht].
  exists h, hints, table. split; [done|]. split; [done|].
  destruct (@block_serves_its_methods RTy string RTy_syn r_own r_ident parse_ident "Files" (c_empty None) c_block h hints c_registered (λ _, true) _ _ eq_refl eq_refl Hp Hreg) as (_ & Hserve).
  destruct (@block_serves_its_methods RTy string RTy_syn r_own r_ident parse_ident "Files" (c_empty None) c_block h hints (λ _, false) (λ _, true) _ _ eq_refl eq_refl Hp Hreg) as (Hb & _).
  destruct (Hserve table Ht) as (Hf & _ & Ho & _). split; [|split; [rewrite Ho; reflexivity|]].
  - destruct (Hf c_create (mkRoute "post" "/users" false ["Auth"; "Log"]) ltac:(right; by left) eq_refl) as (s & _ & Hs). cbn in Hs. by rewrite Hs.
  - intros Hsome. apply Hb in Hsome as (_ & _ & Hall). by specialize (Hall c_create (mkRoute "post" "/users" false ["Auth"; "Log"]) "Auth" ltac:(right; by left) eq_refl ltac:(by left)).
Defined.
Lemma stream_framing_agrees_witness :
  let out := Some (r_of "Result" (RStream (r_ty "Tick"))) in
  ∃ r, classify_stream_return out false = Some r ∧ response_framing out r = Some FrNdjson ∧ in_result r = true.
Proof.
  intros out. destruct (classify_stream_return out false) as [r|] eqn:Hr; [|discriminate Hr]. exists r. split; [done|].
  destruct (@stream_framing_agrees RTy RTy_syn out false r Hr) as (Hc & _ & Hi).
  vm_compute in Hr. injection Hr as <-. split; [by apply (Hc FrNdjson (Some (r_ty "Tick")))|]. apply Hi. by eexists _, _.
Defined.

(** A codec of numbers that does not encode negative ones. *)
Definition c_encode (t : RTy) (v : Z) : result Z string := if bool_decide (v < 0) then Err "negative" else Ok (2 * v).
Definition c_decode (t : RTy) (b : Z) : result Z string := Ok (b / 2).
Definition c_extract (t : RTy) : result Z string := Ok 40.
Definition c_answer (args : list Z) : Ret (Val := Z) := mkRet true true (Ok (foldr Z.add 0 args)).
Definition c_method : MessageMethod RTy := mkMessage "ask" "/ask" (Some (r_ty "Question")) (r_ty "Answer") true.
Definition c_spec : WsRouteSpec RTy := mkWsSpec "/ask" "ask" true [BindInject (r_ty "Db"); BindPayload (r_ty "Question")] (sig_output c_ask) true.
Lemma message_request_end_to_end_witness :
  let transport := λ (d : string) b, map_err CRemote (serve_request c_encode c_decode c_extract c_spec c_answer b) in
  build_message_method c_ask "/ask" true = Ok c_method ∧ call_request c_encode c_decode c_method transport 2 = Ok 42 ∧
  call_request c_encode c_decode c_method transport (-1) = Err (CEncode "negative").
Proof.
  intros transport. split; [reflexivity|].
  assert (Hcodec : ∀ (t : RTy) v b, c_encode t v = Ok b → c_decode t b = Ok v).
  { intros t v b. unfold c_encode, c_decode. case_bool_decide; [done|]. intros [= <-]. f_equal. rewrite Z.mul_comm. by apply Z.div_mul. }
  assert (Hty : ∀ args, ret_typed (sig_output c_ask) (c_answer args)) by (intros args; vm_compute; done).
  split.
  - rewrite (@message_request_end_to_end RTy Z Z RTy_syn c_encode c_decode c_extract c_ask "/ask" c_method c_spec c_answer transport 2 eq_refl eq_refl Hcodec Hty (λ _, eq_refl)). reflexivity.
  - rewrite (@message_request_end_to_end RTy Z Z RTy_syn c_encode c_decode c_extract c_ask "/ask" c_method c_spec c_answer transport (-1) eq_refl eq_refl Hcodec Hty (λ _, eq_refl)). reflexivity.
Defined.

(** A hole that is no identifier is documented under another name than the one in the
    path. *)
Theorem renamed_hole_is_documented :
  let o := operation_of r_own r_ident "Files" (hm_sig c_show) (mkRoute "get" "/files/{type}" false [] : RouteAttr string) None in
  op_path o = "/files/{type}" ∧ op_params o = [("path0", r_ty "String")].
Proof. split; reflexivity. Qed.
(** Two routes with the same verb and path in one block are accepted by the macro, and
    no server can be built from them. *)
Theorem same_route_twice_is_accepted registered accepts :
  ∃ h hints, c_parse None [c_list; c_list] = Ok (h, hints) ∧ route_group registered accepts (routes h) = None.
Proof. do 2 eexists. split; [reflexivity|]. destruct (route_group_serves registered accepts (routes (match c_parse None [c_list; c_list] with Ok r => r.1 | Err _ => c_empty None end))) as [Hiff _].
  apply eq_None_not_Some. intros (_ & Hnd & _)%Hiff. revert Hnd. apply (bool_decide_unpack (¬ _)). reflexivity.
Qed.
