(* ===== verification/MacroInject.v ===== *)
(** * MacroInject: components built of their fields

    Models [crates/macros-core/src/inject.rs]: what is read of a field of a
    [#[component]], the dependency it declares and the expression that builds it, the
    default factory of the struct, an explicit one, and what a type registers.

    - A generated expression is an [Expr]; [run_expr] is the program it is, in the
      sense of [DiContainer].
    - The texts of types, their names and keys, and the downcasts of stored values are
      Rust's; [Deferred::capture] is in [DiHandles], and here an argument. *)
From S2P Require Import Prelude MacroTopics MacroSyn CoreTypes DiTypes DiRegistry ConfigManager DiSort DiContainer DiHandles AppBuild.
#[local] Open Scope run_scope.

(** [short_name]: the last part between [::]. *)
Fixpoint last_part (acc s : string) : string :=
  match s with
  | "" => acc
  | String c rest =>
      match rest with
      | String d rest' => if bool_decide (c = ":"%char) && bool_decide (d = ":"%char) then last_part rest' rest else last_part acc rest
      | "" => acc
      end
  end.
Definition short_name (full : string) : string := last_part full full.

(** [#[default]], [#[qualifier = ".."]] and [#[config(..)]]; [None] and [CMalformed]: it
    is written in another form. *)
Inductive ConfigArg := CBare | CPath (path : string) | CMalformed.
Inductive FieldAttr := ADefault | AQualifier (value : option string) | AConfig (arg : ConfigArg) | AOtherAttr (name : string).

Section Inject.
Context {Ty V Hd Rv : Type} `{SynType Ty}.
(** [to_token_stream], [std::any::type_name], the identity of a type, the [Target] of a
    handle and how a handle is got from a stored value. *)
Context (text rust_name : Ty → string) (key : Ty → TypeId) (target_of : Ty → Ty) (stored : Ty → V → option Hd).
(** The key of the [ConfigStore], the store in its resolver, and the handle of a cell. *)
Context (config_store : TypeId) (store_of : Rv → ConfigStore) (config_handle : Ty → nat → Hd).
Context (capture : Ty → option string → result unit DiError).
#[local] Abbreviation Program := (@Program V Hd Rv).
Definition of_type (name : string) (t : Ty) : TypeDescriptor := mkType name (rust_name t) (key t).
Definition inj (h : Ty) : @Injectable V Hd := mkInjectable (key (target_of h)) (stored h).

(** ** Fields *)

Record Field := mkField { f_attrs : list FieldAttr; f_type : Ty }.
Definition had_default (f : Field) : bool := existsb (λ a, match a with ADefault => true | _ => false end) (f_attrs f).
Definition field_qualifier (f : Field) : option string := first_some (λ a, match a with AQualifier q => q | _ => None end) (f_attrs f).
Definition config_attr (f : Field) : option ConfigArg := first_some (λ a, match a with AConfig p => Some p | _ => None end) (f_attrs f).
Definition config_path (a : ConfigArg) : option string := match a with CPath p => Some p | CBare | CMalformed => None end.
(** The attributes that stay on the struct. *)
Definition kept (f : Field) : list FieldAttr :=
  if had_default f then List.filter (λ a, match a with ADefault => false | _ => true end) (f_attrs f)
  else List.filter (λ a, match a with AOtherAttr _ => true | _ => false end) (f_attrs f).

(** The [FromContainer] and [FreshFromContainer] of the types that implement them. *)
Definition named_target (h : Ty) : TypeDescriptor := of_type (short_name (rust_name (target_of h))) (target_of h).
Definition param_of (t : Ty) : @Param V Hd :=
  match first_type_arg t "Option" with
  | Some h => POption (named_target h) (inj h)
  | None =>
      match first_type_arg t "Vec" with
      | Some h => PVec (named_target h) (inj h)
      | None => match hashmap_value t with Some h => PMap (named_target h) (inj h) | None => PSingle (named_target t) (inj t) end
      end
  end.
Definition fresh_shape (t : Ty) : FreshShape * Ty :=
  match first_type_arg t "Option" with
  | Some h => (FOption, h)
  | None =>
      match first_type_arg t "Vec" with
      | Some h => (FVec, h)
      | None => match hashmap_value t with Some h => (FMap, h) | None => (match arc_inner_type t with Some _ => FArc | None => FValue end, t) end
      end
  end.
(** A handle may be of a [Cfg]; handles of handles are left out. *)
Definition handle_dependency (h : Ty) : DependencyDescriptor :=
  match first_type_arg h "Cfg" with
  | Some t => dependency_of (of_type (short_name (rust_name t)) t) One false true
  | None => param_dependency (param_of h)
  end.
Definition lazy_dependency (h : Ty) : DependencyDescriptor := with_resolution Lazy (handle_dependency h).
Definition fresh_handle_dependency (h : Ty) : DependencyDescriptor :=
  with_resolution Fresh (fresh_dependency (fresh_shape h).1 (named_target (fresh_shape h).2)).
Definition deferred_dependency (t : Ty) : DependencyDescriptor :=
  with_resolution Deferred (dependency_of (of_type (short_name (rust_name t)) t) One false false).
Definition with_qualifier (q : option string) (d : DependencyDescriptor) : DependencyDescriptor :=
  mkDep (dep_name d) (dep_ty d) (cardinality d) (optional d) (dynamic d) q (config d) (resolution d).

(** The expressions that build a field. *)
Inductive Expr :=
| XDefault
| XFresh (h : Ty) (q : option string)
| XDeferred (t : Ty) (q : option string)
| XLazy (h : Ty) (q : option string)
| XConfig (h : Ty) (path : option string) (name : string)
| XAll (item : Ty)
| XKeyed (value : Ty)
| XSingle (h : Ty) (q : option string) (optional dynamic : bool) (name : string).
(** [FieldPlan]; the checked and wired types are the [Target]s of handles. *)
Record FieldPlan := mkPlan { fp_value : Expr; fp_dependency : option DependencyDescriptor; fp_check : option Ty; fp_wired : option Ty }.
Definition dep_text (h : Ty) : string := text (from_option (λ t, t) h (arc_inner_type h)).
(** The closure [dep]. *)
Definition edge (h : Ty) (name : string) (c : Cardinality) (optional_ dynamic_ : bool) (q : option string) (config_ : bool) : DependencyDescriptor :=
  mkDep name (of_type name (target_of h)) c optional_ dynamic_ q config_ Eager.
Definition is_trait_object (h : Ty) : bool :=
  match view h with VTraitObject => true | _ => match arc_inner_type h with Some t => match view t with VTraitObject => true | _ => false end | None => false end end.
(** The single edge, with its wrappers peeled. *)
Definition plan_single (t : Ty) (q : option string) : FieldPlan :=
  let '(optional_, after_option) := match first_type_arg t "Option" with Some i => (true, i) | None => (false, t) end in
  let '(dynamic_, h) := match first_type_arg after_option "Dynamic" with Some i => (true, i) | None => (false, after_option) end in
  let required := negb optional_ && negb dynamic_ in
  mkPlan (XSingle h q optional_ dynamic_ (dep_text h)) (Some (edge h (dep_text h) One optional_ dynamic_ q false))
    (if required && negb (is_trait_object h) then Some (target_of h) else None) (if required then Some (target_of h) else None).
(** [plan_field] *)
Definition plan_field (f : Field) : FieldPlan :=
  if had_default f then mkPlan XDefault None None None
  else
    let t := f_type f in
    let q := field_qualifier f in
    let unchecked x d := mkPlan x (Some d) None None in
    match first_type_arg t "Fresh" with
    | Some h => unchecked (XFresh h q) (with_qualifier q (fresh_handle_dependency h))
    | None =>
    match first_type_arg t "Deferred" with
    | Some target => unchecked (XDeferred target q) (with_qualifier q (deferred_dependency target))
    | None =>
    match first_type_arg t "Lazy" with
    | Some h =>
        unchecked (match q, arc_inner_type h with Some _, Some _ => XLazy h q | _, _ => XLazy h None end)
          (match q with Some _ => with_qualifier q (lazy_dependency h) | None => lazy_dependency h end)
    | None =>
    match config_attr f with
    | Some a =>
        let name := text (from_option (λ x, x) t (first_type_arg t "Cfg")) in
        unchecked (XConfig t (config_path a) name) (edge t name One false false (config_path a) true)
    | None =>
    match first_type_arg t "Vec" with
    | Some item => unchecked (XAll item) (edge item (dep_text item) Collection false false None false)
    | None =>
    match hashmap_value t with
    | Some v => unchecked (XKeyed v) (edge v (dep_text v) Keyed false false None false)
    | None => plan_single t q
    end end end end end end.

(** ** Factories *)

(** What a field is built with; a handle that resolves later is what it captured. *)
Inductive FieldValue := FLocal | FLater (mode : ResolutionMode) (h : Ty) (q : option string) | FOne (is_dynamic : bool) (h : Hd) | FMaybe (is_dynamic : bool) (h : option Hd) | FMany (hs : list Hd) | FKeyed (hs : gmap string Hd).
Definition question {A} (f : A → Program) (r : result A DiError) : Program := match r with Ok a => f a | Err e => Return (Err e) end.
(** [get_resolver], then [resolve_path] or [resolve_sole]. *)
Definition config_lookup (h : Ty) (path : option string) (r : option (Erased Rv)) : option Hd :=
  e ← r; store ← downcast config_store e;
  cell ← match path with Some p => resolve_path (key (target_of h)) p (store_of store) | None => resolve_sole (key (target_of h)) (store_of store) end;
  Some (config_handle h cell).
Definition run_expr (x : Expr) (k : FieldValue → Program) : Program :=
  match x with
  | XDefault => k FLocal
  | XFresh h q => k (FLater Fresh h q)
  | XDeferred t q => match capture t q with Ok _ => k (FLater Deferred t q) | Err e => Return (Err e) end
  | XLazy h q => k (FLater Lazy h q)
  | XConfig h path name =>
      GetResolver config_store (λ r, match config_lookup h path r with Some v => k (FOne false v) | None => Return (Err (MissingComponent name)) end)
  | XAll item => ResolveAll (inj item) (question (λ hs, k (FMany hs)))
  | XKeyed v => ResolveKeyed (inj v) (question (λ hs, k (FKeyed hs)))
  | XSingle h q optional_ dynamic_ name =>
      let got := question (λ o, if optional_ : bool then k (FMaybe dynamic_ o)
        else match o with Some v => k (FOne dynamic_ v) | None => Return (Err (MissingComponent name)) end) in
      match q with Some q => ResolveQualified (inj h) q got | None => Resolve (inj h) got end
  end.
(** The struct literal: its fields in the order they are written. *)
Fixpoint fields_program (xs : list Expr) (build : list FieldValue → @BoxedComponent V) (vs : list FieldValue) : Program :=
  match xs with
  | [] => Return (Ok (build vs))
  | x :: xs' => run_expr x (λ v, fields_program xs' build (vs ++ [v]))
  end.
Definition plan_values (fields : list Field) : list Expr := fp_value ∘ plan_field <$> fields.
Definition plan_dependencies (fields : list Field) : list DependencyDescriptor := omap (fp_dependency ∘ plan_field) fields.
Definition plan_checks (fields : list Field) : list Ty := omap (fp_check ∘ plan_field) fields.
Definition plan_wired (fields : list Field) : list Ty := omap (fp_wired ∘ plan_field) fields.
Definition default_factory (fields : list Field) (build : list FieldValue → @BoxedComponent V) : ComponentFactoryDescriptor Program :=
  mkFactory (fields_program (plan_values fields) build []) (plan_dependencies fields) true.
(** [explicit_factory] *)
Definition explicit_factory (params : list (@Param V Hd)) (user : list (@Arg Hd) → result (@BoxedComponent V) DiError) : ComponentFactoryDescriptor Program :=
  mkFactory (dispatch_factory params user) (params_dependencies params) false.

(** [Registration], and the entries of a type's slice by kind; hooks are sorted. *)
Inductive Registration {Hook : Type} := RegFactory (f : ComponentFactoryDescriptor Program) | RegHook (h : Hook).
Definition as_factory {Hook} (r : Registration (Hook := Hook)) : option (ComponentFactoryDescriptor Program) := match r with RegFactory f => Some f | RegHook _ => None end.
Definition as_hook {Hook} (r : Registration (Hook := Hook)) : option Hook := match r with RegHook h => Some h | RegFactory _ => None end.
Definition factories_of {Hook} (slice : list (Registration (Hook := Hook))) : list (ComponentFactoryDescriptor Program) := omap as_factory slice.
Definition hooks_of {Hook} (ordinal_of : Hook → Z) (slice : list (Registration (Hook := Hook))) : list Hook :=
  sort_by (λ a b, ordinal_of a <=? ordinal_of b) (omap as_hook slice).
(** [field_injection_component]: without a default factory only what is registered
    otherwise builds the component, and nothing has to be wired. [link] is the order the
    linker gives the entries of a slice. *)
Record InjectedComponent (Hook : Type) := mkInjected { ic_descriptor : ComponentDescriptor Program; ic_hooks : list Hook; ic_asserted : list Ty; ic_wired : list Ty }.
Definition own_registrations {Hook} (emit_default_factory : bool) (fields : list Field) (build : list FieldValue → @BoxedComponent V) : list (Registration (Hook := Hook)) :=
  if emit_default_factory then [RegFactory (default_factory fields build)] else [].
Definition field_injection_component {Hook} (ordinal_of : Hook → Z) (link : list (Registration (Hook := Hook)) → list (Registration (Hook := Hook)))
    (id name : string) (self_ty : TypeDescriptor) (defer_di_assert : bool) (scope : Scope)
    (others : list (Registration (Hook := Hook))) (emit_default_factory : bool) (fields : list Field) (build : list FieldValue → @BoxedComponent V) : InjectedComponent Hook :=
  let slice := link (own_registrations emit_default_factory fields build ++ others) in
  mkInjected Hook (mkComponent id name self_ty scope (factories_of slice)) (hooks_of ordinal_of slice)
    (if emit_default_factory && negb defer_di_assert then plan_checks fields else [])
    (if emit_default_factory then plan_wired fields else []).

(** ** A field asks for what it declares *)

(** What an expression asks of the container, now or later, and for what. *)
Definition asks (x : Expr) : option (ResolutionMode * Cardinality * TypeId * option string * bool) :=
  match x with
  | XDefault => None
  | XFresh h q => let '(shape, inner) := fresh_shape h in Some (Fresh, cardinality (fresh_dependency shape (named_target inner)), key (target_of inner), q, false)
  | XDeferred t q => Some (Deferred, One, key t, q, false)
  | XLazy h q => let d := handle_dependency h in Some (Lazy, cardinality d, type_id (dep_ty d), q, config d)
  | XConfig h path _ => Some (Eager, One, key (target_of h), path, true)
  | XAll item => Some (Eager, Collection, key (target_of item), None, false)
  | XKeyed v => Some (Eager, Keyed, key (target_of v), None, false)
  | XSingle h q _ _ _ => Some (Eager, One, key (target_of h), q, false)
  end.
Definition declares (d : DependencyDescriptor) : ResolutionMode * Cardinality * TypeId * option string * bool :=
  (resolution d, cardinality d, type_id (dep_ty d), qualifier d, config d).
(** A qualified [Lazy] of something else than an [Arc]. *)
Definition lazily_unqualified (f : Field) : bool :=
  match first_type_arg (f_type f) "Fresh", first_type_arg (f_type f) "Deferred", first_type_arg (f_type f) "Lazy", field_qualifier f with
  | None, None, Some h, Some _ => match arc_inner_type h with Some _ => false | None => true end
  | _, _, _, _ => false
  end.
(** Every shape of a parameter. *)
Ltac shapes h :=
  unfold param_of, fresh_shape; destruct (first_type_arg h "Option"); [|destruct (first_type_arg h "Vec"); [|destruct (hashmap_value h); [|destruct (arc_inner_type h)]]].
(** the graph that is validated is the one that is resolved. What the generated code of
    a field asks of the container, its type, whether for one, all or keyed providers,
    the qualifier or path, and when, is what the field declares, and a value that is
    required and missing is reported under the declared name; only [#[default]] asks for
    nothing; except that a qualified [Lazy] of no [Arc] declares its qualifier and
    resolves without it. *)
Theorem fields_ask_what_they_declare (f : Field) :
  let p := plan_field f in
  (had_default f = true ↔ fp_dependency p = None) ∧
  (lazily_unqualified f && negb (had_default f) = false → asks (fp_value p) = declares <$> fp_dependency p) ∧
  (lazily_unqualified f = true → had_default f = false → ∃ d h, fp_dependency p = Some d ∧ fp_value p = XLazy h None ∧ qualifier d = field_qualifier f) ∧
  (∀ h q o dyn name, fp_value p = XSingle h q o dyn name → ∃ d, fp_dependency p = Some d ∧ dep_name d = name ∧ optional d = o ∧ dynamic d = dyn) ∧
  (∀ h path name, fp_value p = XConfig h path name → ∃ d, fp_dependency p = Some d ∧ dep_name d = name ∧ optional d = false).
Proof.
  unfold plan_field, lazily_unqualified. destruct (had_default f) eqn:Hdef; cbn zeta.
  { rewrite andb_false_r. cbn. repeat split; done. }
  rewrite andb_true_r.
  destruct (first_type_arg (f_type f) "Fresh") as [h|].
  { cbn. split; [by split|]. split; [|by repeat split]. intros _. unfold fresh_handle_dependency. by shapes h. }
  destruct (first_type_arg (f_type f) "Deferred") as [t|]; [by cbn; repeat split|].
  destruct (first_type_arg (f_type f) "Lazy") as [h|].
  { destruct (field_qualifier f) as [q|] eqn:Hq; [destruct (arc_inner_type h) as [t|] eqn:Ha|]; cbn; (split; [by split|]).
    - by repeat split.
    - split; [done|]. split; [|done]. intros _ _. eexists _, h. by repeat split.
    - split; [|by repeat split]. intros _. unfold declares, lazy_dependency, handle_dependency. destruct (first_type_arg h "Cfg"); [done|]. by shapes h. }
  destruct (config_attr f) as [a|].
  { cbn. split; [by split|]. split; [done|]. split; [done|]. split; [done|]. intros h path name [= _ _ <-]. eexists. by repeat split. }
  destruct (first_type_arg (f_type f) "Vec") as [item|]; [by cbn; repeat split|]. destruct (hashmap_value (f_type f)) as [v|]; [by cbn; repeat split|].
  unfold plan_single. destruct (match first_type_arg (f_type f) "Option" with Some i => (true, i) | None => (false, f_type f) end) as [o after].
  destruct (match first_type_arg after "Dynamic" with Some i => (true, i) | None => (false, after) end) as [dy h]. cbn.
  split; [by split|]. split; [done|]. split; [done|]. split; [|done]. intros h' q' o' dyn' name [= <- <- <- <- <-]. eexists. by repeat split.
Qed.

(** ** Fields and parameters *)

(** What a parameter's value is as a field's. *)
Definition as_field (a : @Arg Hd) : FieldValue :=
  match a with ASingle h => FOne false h | AOption h => FMaybe false h | AVec hs => FMany hs | AMap hs => FKeyed hs end.
Definition plain (f : Field) : Prop := had_default f = false ∧ field_qualifier f = None ∧ config_attr f = None.
(** The types a parameter can have that is no later handle: [Arc<T>], and [Option],
    [Vec] and [HashMap] of it. *)
Inductive parameter_type (t : Ty) : Ty → Prop :=
| TypeArc a : arc_inner_type t = Some a → parameter_type t t
| TypeOption h a : first_type_arg t "Option" = Some h → arc_inner_type h = Some a → parameter_type t h
| TypeVec h a : first_type_arg t "Vec" = Some h → arc_inner_type h = Some a → parameter_type t h
| TypeMap h a : hashmap_value t = Some h → arc_inner_type h = Some a → parameter_type t h.
Lemma hashmap_named t h : hashmap_value t = Some h → MacroSyn.type_name t = Some "HashMap".
Proof.
  unfold hashmap_value, MacroSyn.type_name. destruct (last_segment t) as [s|]; [|done]. cbn. unfold named. case_bool_decide as Hs; [|done]. intros _. by rewrite Hs.
Qed.
Lemma first_arg_none (t : Ty) n m : MacroSyn.type_name t = Some n → n ≠ m → first_type_arg t m = None.
Proof. intros Hn Hne. destruct (first_type_arg t m) eqn:Hm; [|done]. apply first_type_arg_named in Hm. congruence. Qed.
Lemma hashmap_none (t : Ty) n : MacroSyn.type_name t = Some n → n ≠ "HashMap" → hashmap_value t = None.
Proof. intros Hn Hne. destruct (hashmap_value t) eqn:Hm; [|done]. apply hashmap_named in Hm. congruence. Qed.
(** a field is injected as a parameter is. For a type that both can have, an unmarked
    field is built by the very program that builds a parameter of that type, and they
    declare the same dependency, if the type's text is its short name. *)
Theorem field_is_a_parameter (f : Field) h k :
  plain f → parameter_type (f_type f) h → dep_text h = short_name (rust_name (target_of h)) →
  run_expr (fp_value (plan_field f)) k = from_container (param_of (f_type f)) (k ∘ as_field) ∧
  fp_dependency (plan_field f) = Some (param_dependency (param_of (f_type f))).
Proof.
  intros (Hdef & Hq & Hc) Ht Htext. unfold plan_field, param_of. rewrite Hdef, Hq, Hc. unfold arc_inner_type in *.
  unfold plan_single, edge. destruct Ht as [a Ha|h a Ha Hh|h a Ha Hh|h a Ha Hh]; [pose proof (first_type_arg_named _ _ _ Ha) as Hn..|pose proof (hashmap_named _ _ Ha) as Hn].
  all: rewrite ?Ha, ?(first_arg_none _ _ "Fresh" Hn), ?(first_arg_none _ _ "Deferred" Hn), ?(first_arg_none _ _ "Lazy" Hn), ?(first_arg_none _ _ "Option" Hn),
    ?(first_arg_none _ _ "Vec" Hn), ?(first_arg_none _ _ "Dynamic" Hn), ?(hashmap_none _ _ Hn) by done.
  2: rewrite (first_arg_none h "Arc" "Dynamic") by (by first [apply first_type_arg_named in Hh|done]).
  all: cbn; unfold dependency_of, named_target, of_type; cbn; by rewrite ?Htext.
Qed.

(** ** A component is built of its fields *)

Section Building.
Context (erase : ProviderDescriptor → @BoxedComponent V → @BoxedComponent V) (registry : @ScopeRegistry V Hd Rv)
  (transient : list (@ScopeContainer V Rv) → @ScopeStore V → ComponentDescriptor Program → run (@BoxedComponent V)).
#[local] Abbreviation Cx := (@Cx V Rv).
Definition required {A} (name : string) (o : option A) : run A := match o with Some a => done a | None => raise (MissingComponent name) end.
(** What an expression comes to in a construction context. *)
Definition eval_expr (cx : Cx) (x : Expr) : run FieldValue :=
  match x with
  | XDefault => done FLocal
  | XFresh h q => done (FLater Fresh h q)
  | XDeferred t q => match capture t q with Ok _ => done (FLater Deferred t q) | Err e => raise e end
  | XLazy h q => done (FLater Lazy h q)
  | XConfig h path name => v ←? required name (config_lookup h path (resolver (cx_resolvers cx) config_store)); done (FOne false v)
  | XAll item => hs ←? resolve_all erase registry transient cx (inj item); done (FMany hs)
  | XKeyed v => hs ←? resolve_keyed erase registry transient cx (inj v); done (FKeyed hs)
  | XSingle h q optional_ dynamic_ name =>
      o ←? match q with Some q => resolve_qualified erase registry transient cx (inj h) q | None => resolve erase registry transient cx (inj h) end;
      if optional_ : bool then done (FMaybe dynamic_ o) else v ←? required name o; done (FOne dynamic_ v)
  end.
Definition builds (cx : Cx) (f : Field) (v : FieldValue) : Prop := eval_expr cx (fp_value (plan_field f)) = done v.

Lemma run_expr_eval cx x k : run_factory erase registry transient cx (run_expr x k) = run_bind (eval_expr cx x) (λ v, run_factory erase registry transient cx (k v)).
Proof.
  destruct x as [|h q|t q|h q|h path name|item|v|h q o dy name]; cbn; [done|done|by destruct (capture t q)|done|..].
  - by destruct (config_lookup _ _ _).
  - unfold answer. by destruct (resolve_all _ _ _ _ _) as [[]|].
  - unfold answer. by destruct (resolve_keyed _ _ _ _ _) as [[]|].
  - destruct q as [q|]; cbn; unfold answer; [destruct (resolve_qualified _ _ _ _ _ _) as [[r|]|]|destruct (resolve _ _ _ _ _) as [[r|]|]]; try done; cbn; destruct o; try done; by destruct r.
Qed.
Lemma plan_values_cons f (fields : list Field) : plan_values (f :: fields) = fp_value (plan_field f) :: plan_values fields.
Proof. done. Qed.
Lemma fields_program_run cx (fields : list Field) build vs r :
  run_factory erase registry transient cx (fields_program (plan_values fields) build vs) = Some r →
  match r with
  | Ok b => ∃ ws, Forall2 (builds cx) fields ws ∧ b = build (vs ++ ws)
  | Err e => ∃ before f after ws, fields = before ++ f :: after ∧ Forall2 (builds cx) before ws ∧ eval_expr cx (fp_value (plan_field f)) = raise e
  end.
Proof.
  revert vs. induction fields as [|f fields IH]; intros vs.
  { cbn. intros [= <-]. exists []. by rewrite app_nil_r. }
  rewrite plan_values_cons. cbn [fields_program]. rewrite run_expr_eval. destruct (eval_expr cx (fp_value (plan_field f))) as [[v|e]|] eqn:Hf; cbn [run_bind]; [|intros [= <-]; by exists [], f, fields, []|done].
  intros Hr. specialize (IH _ Hr). destruct r as [b|e].
  - destruct IH as (ws & Hws & ->). exists (v :: ws). rewrite <- app_assoc. split; [by constructor|done].
  - destruct IH as (before & g & after & ws & -> & Hws & He). exists (f :: before), g, after, (v :: ws). repeat split; [by constructor|done].
Qed.
Lemma fields_program_builds cx (fields : list Field) build vs ws : Forall2 (builds cx) fields ws →
  run_factory erase registry transient cx (fields_program (plan_values fields) build vs) = done (build (vs ++ ws)).
Proof.
  intros Hws. revert vs. induction Hws as [|f v fields ws Hf Hws IH]; intros vs; [cbn; by rewrite app_nil_r|].
  rewrite plan_values_cons. cbn [fields_program]. rewrite run_expr_eval, Hf. specialize (IH (vs ++ [v])). rewrite <- app_assoc in IH. exact IH.
Qed.
Lemma fields_program_fails cx before f after build vs ws e : Forall2 (builds cx) before ws → eval_expr cx (fp_value (plan_field f)) = raise e →
  run_factory erase registry transient cx (fields_program (plan_values (before ++ f :: after)) build vs) = raise e.
Proof.
  intros Hws He. revert vs. induction Hws as [|g v before ws Hg Hws IH]; intros vs; cbn [app]; rewrite plan_values_cons; cbn [fields_program]; rewrite run_expr_eval;
    [by rewrite He|rewrite Hg; cbn [run_bind]; apply IH].
Qed.
(** a component is built of its fields. The default factory returns the struct exactly
    of the values its fields come to, each evaluated in the same context; and it fails
    exactly with the error of the first field, in their order, that does. *)
Theorem component_is_built_of_its_fields cx (fields : list Field) build :
  (∀ b, run_factory erase registry transient cx (construct (default_factory fields build)) = done b ↔ ∃ vs, Forall2 (builds cx) fields vs ∧ b = build vs) ∧
  (∀ e, run_factory erase registry transient cx (construct (default_factory fields build)) = raise e ↔
     ∃ before f after vs, fields = before ++ f :: after ∧ Forall2 (builds cx) before vs ∧ eval_expr cx (fp_value (plan_field f)) = raise e).
Proof.
  cbn [construct default_factory]. split.
  - intros b. split; [intros Hr; apply (fields_program_run cx _ _ _ _ Hr)|]. intros (vs & Hvs & ->). by apply (fields_program_builds cx fields build []).
  - intros e. split; [intros Hr; apply (fields_program_run cx _ _ _ _ Hr)|]. intros (before & f & after & vs & -> & Hvs & He). by eapply fields_program_fails.
Qed.
(** a configuration that was validated is there. In a context that reaches a store in
    which every declared binding resolves, as it does in every application that was
    built, the field of a binding gets the cell of its path, or the only one of its type;
    it is never reported missing. *)
Theorem config_field_is_bound cx (f : Field) d r : 
  fp_dependency (plan_field f) = Some d → config d = true → resolution d = Eager → get_resolver config_store (cx_resolvers cx) = Some r → config_edge_resolves (store_of r) d →
  ∃ cell, (match qualifier d with Some p => resolve_path (type_id (dep_ty d)) p (store_of r) | None => resolve_sole (type_id (dep_ty d)) (store_of r) end) = Some cell ∧
    builds cx f (FOne false (config_handle (f_type f) cell)).
Proof.
  intros Hdep Hc Hres Hr He. unfold builds.
  assert (Hx : ∃ name, fp_value (plan_field f) = XConfig (f_type f) (qualifier d) name ∧ type_id (dep_ty d) = key (target_of (f_type f))).
  { revert Hdep Hc Hres. clear. unfold plan_field. destruct (had_default f); [done|].
    destruct (first_type_arg _ "Fresh") as [h|]; [intros [= <-]; cbn; by shapes h|]. destruct (first_type_arg _ "Deferred"); [by intros [= <-]|].
    destruct (first_type_arg _ "Lazy") as [h|]; [by destruct (field_qualifier f); intros [= <-]|].
    destruct (config_attr f) as [a|]; [intros [= <-] _ _; cbn; by eexists|]. destruct (first_type_arg _ "Vec"); [by intros [= <-]|]. destruct (hashmap_value _); [by intros [= <-]|].
    unfold plan_single. destruct (match first_type_arg (f_type f) "Option" with Some i => (true, i) | None => (false, f_type f) end) as [o after].
    destruct (match first_type_arg after "Dynamic" with Some i => (true, i) | None => (false, after) end) as [dy h]. by intros [= <-]. }
  destruct Hx as (name & -> & Hty). unfold config_edge_resolves in He. rewrite Hty in He |- *. cbn [eval_expr]. unfold config_lookup.
  unfold get_resolver in Hr. destruct (resolver (cx_resolvers cx) config_store) as [e|]; [|done]. cbn in Hr |- *. rewrite Hr. cbn.
  destruct (qualifier d) as [p|]; destruct He as [cell Hcell]; rewrite Hcell; by exists cell.
Qed.
End Building.

(** ** Which factory builds a component *)

Lemma filter_Permutation_bool {A} (p : A → bool) (l k : list A) : l ≡ₚ k → List.filter p l ≡ₚ List.filter p k.
Proof. induction 1 as [|x l k _ IH|x y l|l k m _ IH _ IH']; cbn; [done|by destruct (p x); [constructor|]|destruct (p x), (p y); by try constructor|by etransitivity]. Qed.
Lemma factories_of_app {Hook} (a b : list (Registration (Hook := Hook))) : factories_of (a ++ b) = factories_of a ++ factories_of b.
Proof. apply omap_app. Qed.
(** an explicit factory overrides injection, in whatever order the entries are linked.
    Of a component whose other registered factories are explicit ones, the only explicit
    one builds it, two are refused, and without one the struct is injected if the
    macro emits its factory; what is asserted of its fields is asserted only then. The
    hooks keep the order of their ordinals. *)
Theorem explicit_factory_overrides {Hook} (ordinal_of : Hook → Z) link id name self_ty defer scope (others : list (Registration (Hook := Hook))) emit fields build :
  (∀ l, link l ≡ₚ l) → Forall (λ f, is_default f = false) (factories_of others) →
  let c := field_injection_component ordinal_of link id name self_ty defer scope others emit fields build in
  effective_factory (ic_descriptor Hook c) =
    match factories_of others with
    | [] => Ok (if emit then Some (default_factory fields build) else None)
    | [f] => Ok (Some f)
    | _ => Err (AmbiguousFactory name)
    end ∧
  ic_hooks Hook c ≡ₚ omap as_hook others ∧ Sorted (λ a b, ordinal_of a ≤ ordinal_of b) (ic_hooks Hook c) ∧
  (ic_asserted Hook c ≠ [] → emit = true ∧ defer = false).
Proof.
  intros Hlink Hothers c. unfold c, field_injection_component. cbn [ic_descriptor ic_hooks ic_asserted]. split; [|split; [|split]].
  - unfold effective_factory. cbn [factories c_name]. assert (Hperm : factories_of (link (own_registrations emit fields build ++ others)) ≡ₚ (if emit then [default_factory fields build] else []) ++ factories_of others).
    { transitivity (factories_of (own_registrations emit fields build ++ others)); [apply omap_Permutation, Hlink|]. rewrite factories_of_app. by destruct emit. }
    set (l := factories_of (link _)) in *. clearbody l. assert (Hexp : List.filter (λ f, negb (is_default f)) l ≡ₚ factories_of others).
    { etransitivity; [apply filter_Permutation_bool, Hperm|]. rewrite List.filter_app, (filter_all _ (factories_of others)); [by destruct emit|]. eapply Forall_impl; [done|]. by intros f ->. }
    destruct (factories_of others) as [|f [|g fs]].
    + rewrite app_nil_r in Hperm. destruct emit; [by apply Permutation_singleton_r in Hperm as ->|]. by apply Permutation_nil_r in Hperm as ->.
    + apply Permutation_singleton_r in Hexp. destruct l as [|x [|y l]]; [done| |by rewrite Hexp]. cbn in Hexp. destruct (is_default x); [done|]. by injection Hexp as ->.
    + pose proof (Permutation_length Hperm) as Hlen. rewrite length_app in Hlen. cbn in Hlen. apply Permutation_length in Hexp. cbn in Hexp.
      destruct l as [|x [|y l]]; [cbn in Hlen; lia..|]. by destruct (List.filter _ (x :: y :: l)) as [|? [|??]].
  - unfold hooks_of. rewrite sort_by_Permutation. transitivity (omap as_hook (own_registrations emit fields build ++ others)); [apply omap_Permutation, Hlink|]. rewrite omap_app. by destruct emit.
  - unfold hooks_of. pose proof (sort_by_Sorted (λ a b, ordinal_of a <=? ordinal_of b) (omap as_hook (link (own_registrations emit fields build ++ others)))) as Hs.
    specialize (Hs ltac:(intros a b; rewrite Z.leb_gt, Z.leb_le; lia)). induction Hs as [|x l Hl IH Hx]; constructor; [done|]. destruct Hx; constructor. by apply Z.leb_le.
  - by destruct emit, defer.
Qed.
(** What is asserted at compile time is required, eager, single and concrete, and what
    is wired is so but for trait objects. *)
Lemma checked_edges_are_required (f : Field) t : fp_wired (plan_field f) = Some t →
  (∃ d, fp_dependency (plan_field f) = Some d ∧ optional d = false ∧ dynamic d = false ∧ config d = false ∧ cardinality d = One ∧ resolution d = Eager ∧ type_id (dep_ty d) = key t) ∧
  (fp_check (plan_field f) = Some t ∨ fp_check (plan_field f) = None ∧ ∃ h, t = target_of h ∧ is_trait_object h = true).
Proof.
  unfold plan_field. destruct (had_default f); [done|]. destruct (first_type_arg _ "Fresh"); [done|]. destruct (first_type_arg _ "Deferred"); [done|]. destruct (first_type_arg _ "Lazy"); [done|].
  destruct (config_attr f); [done|]. destruct (first_type_arg _ "Vec"); [done|]. destruct (hashmap_value _); [done|]. unfold plan_single.
  destruct (match first_type_arg (f_type f) "Option" with Some i => (true, i) | None => (false, f_type f) end) as [[] after]; destruct (match first_type_arg after "Dynamic" with Some i => (true, i) | None => (false, after) end) as [[] h]; cbn; try done.
  intros [= <-]. split; [eexists; by repeat split|]. destruct (is_trait_object h) eqn:Ho; cbn; [right; split; [done|by exists h]|by left].
Qed.
End Inject.

(** ** A concrete component *)

Inductive ITy := IPath (name : string) (args : list ITy) | IDyn (name : string).
#[local] Instance ITy_syn : SynType ITy := {
  view t := match t with IPath n args => VPath true [mkSeg n (match args with [] => None | _ => Some (map ArgType args) end)] | IDyn _ => VTraitObject end;
  unit_type := IPath "Unit" []; stream_item_of t := t }.
Fixpoint i_text (t : ITy) : string :=
  match t with
  | IPath n [] => n
  | IPath n (a :: _) => n +:+ " < " +:+ i_text a +:+ " >"
  | IDyn n => "dyn " +:+ n
  end.
Definition i_target (h : ITy) : ITy := match h with IPath "Arc" [t] | IPath "Cfg" [t] => t | _ => h end.
Definition i_key (t : ITy) : TypeId := Zpos (encode (i_text t)).
Definition i_name (t : ITy) : string := match t with IPath _ [] => "demo::" +:+ i_text t | _ => i_text t end.
Definition i_capture (t : ITy) (q : option string) : result unit DiError := Ok tt.
Definition i_ty (n : string) : ITy := IPath n [].
Definition i_of (n : string) (t : ITy) : ITy := IPath n [t].
Definition i_field (attrs : list FieldAttr) (t : ITy) : Field (Ty := ITy) := mkField attrs t.
Definition i_plan : Field → FieldPlan := plan_field i_text i_name i_key i_target (V := string) (Hd := string) (λ _ v, Some v).
Definition i_cell (t : ITy) (cell : nat) : string := "cell".
Definition i_fields : list (Field (Ty := ITy)) :=
  [i_field [] (i_of "Arc" (i_ty "Db")); i_field [] (i_of "Option" (i_of "Arc" (i_ty "Cache"))); i_field [AConfig (CPath "app")] (i_of "Cfg" (i_ty "Server")); i_field [ADefault] (i_ty "Count")].
Definition i_boxed (t : ITy) (v : string) : @BoxedComponent string := mkBoxed (mkType (i_text t) (i_name t) (i_key t)) v.
Definition i_store : ConfigStore := {[ i_key (i_ty "Server") := {[ "app" := 7%nat ]} ]}.
Definition i_cx (components : list (ITy * string)) : @Cx string ConfigStore :=
  mkCx Singleton (foldr (λ c s, insert_component (i_boxed c.1 c.2) s) empty_store components) [] {[ 50 := mkErased 50 i_store ]}.
Definition i_show (v : FieldValue (Ty := ITy) (Hd := string)) : string :=
  match v with FOne _ h => h | FMaybe _ None => "none" | FMaybe _ (Some h) => h | FLocal => "default" | _ => "?" end.
Definition i_build (vs : list FieldValue) : @BoxedComponent string := i_boxed (i_ty "App") (String.concat "," (i_show <$> vs)).
Definition i_factory := default_factory i_text i_name i_key i_target (λ _ v, Some v) 50 (λ s : ConfigStore, s) i_cell i_capture i_fields i_build.
Definition i_registry : @ScopeRegistry string string ConfigStore := ScopeRegistry_new ∅ ∅ [] ∅.
Definition i_run (cx : Cx) : run BoxedComponent := run_factory (λ _ b, b) i_registry (λ _ _ _, None) cx (construct i_factory).

Example inject_samples :
  i_run (i_cx [(i_ty "Db", "db")]) = done (i_boxed (i_ty "App") "db,none,cell,default") ∧ i_run (i_cx []) = raise (MissingComponent "Db") ∧
  (λ d, (dep_name d, optional d, config d, qualifier d)) <$> factory_dependencies i_factory =
    [("Db", false, false, None); ("Cache", true, false, None); ("Server", false, true, Some "app")] ∧
  fp_check (i_plan (i_field [] (i_of "Arc" (IDyn "Port")))) = None ∧ fp_wired (i_plan (i_field [] (i_of "Arc" (IDyn "Port")))) = Some (IDyn "Port") ∧
  fp_value (i_plan (i_field [AQualifier (Some "x")] (i_of "Option" (i_of "Dynamic" (i_of "Arc" (i_ty "Db")))))) = XSingle (i_of "Arc" (i_ty "Db")) (Some "x") true true "Db" ∧
  short_name "alloc::sync::Db" = "Db" ∧ short_name "Db" = "Db" ∧ short_name "a::Vec<b::C>" = "C>".
Proof. vm_compute. repeat split. Qed.

Lemma component_is_built_of_its_fields_witness :
  i_run (i_cx [(i_ty "Db", "db")]) = done (i_boxed (i_ty "App") "db,none,cell,default") ∧ i_run (i_cx []) = raise (MissingComponent "Db").
Proof.
  split.
  - apply (@component_is_built_of_its_fields ITy string string ConfigStore ITy_syn i_text i_name i_key i_target (λ _ v, Some v) 50 (λ s, s) i_cell i_capture
      (λ _ b, b) i_registry (λ _ _ _, None) (i_cx [(i_ty "Db", "db")]) i_fields i_build).
    exists [FOne false "db"; FMaybe false None; FOne false "cell"; FLocal]. split; [repeat constructor; vm_compute; reflexivity|reflexivity].
  - apply (@component_is_built_of_its_fields ITy string string ConfigStore ITy_syn i_text i_name i_key i_target (λ _ v, Some v) 50 (λ s, s) i_cell i_capture
      (λ _ b, b) i_registry (λ _ _ _, None) (i_cx []) i_fields i_build).
    exists [], (i_field [] (i_of "Arc" (i_ty "Db"))), (tail i_fields), []. split; [reflexivity|]. split; [constructor|vm_compute; reflexivity].
Defined.
Lemma field_is_a_parameter_witness :
  let f := i_field [] (i_of "Vec" (i_of "Arc" (i_ty "Db"))) in
  fp_dependency (i_plan f) = Some (param_dependency (param_of i_name i_key i_target (V := string) (Hd := string) (λ _ v, Some v) (f_type f))).
Proof.
  intros f. apply (@field_is_a_parameter ITy string string ConfigStore ITy_syn i_text i_name i_key i_target (λ _ v, Some v) 50 (λ s, s) i_cell i_capture
    f (i_of "Arc" (i_ty "Db")) (λ v, Return (Ok (i_build [v])))); [by repeat split|by eapply TypeVec|reflexivity].
Defined.
Lemma config_field_is_bound_witness :
  let f := i_field [AConfig CBare] (i_of "Cfg" (i_ty "Server")) in
  ∃ cell, resolve_sole (i_key (i_ty "Server")) i_store = Some cell ∧
    builds i_text i_name i_key i_target (λ _ v, Some v) 50 (λ s, s) i_cell i_capture (λ _ b, b) i_registry (λ _ _ _, None) (i_cx []) f (FOne false "cell").
Proof.
  intros f. destruct (@config_field_is_bound ITy string string ConfigStore ITy_syn i_text i_name i_key i_target (λ _ v, Some v) 50 (λ s, s) i_cell i_capture
    (λ _ b, b) i_registry (λ _ _ _, None) (i_cx []) f (from_option (λ d, d) (dependency_of (mkType "" "" 0) One false false) (fp_dependency (i_plan f))) i_store eq_refl eq_refl eq_refl eq_refl ltac:(by exists 7%nat)) as (cell & Hc & Hb).
  exists cell. split; [exact Hc|exact Hb].
Defined.
Lemma explicit_factory_overrides_witness :
  let own := explicit_factory (Rv := ConfigStore) [] (λ _ : list (@Arg string), Ok (i_boxed (i_ty "App") "own")) in
  let c := field_injection_component i_text i_name i_key i_target (λ _ v, Some v) 50 (λ s, s) i_cell i_capture (λ h : Z, h) (λ l, l) "app" "App" (mkType "App" "demo::App" 1) true Singleton
    [RegHook 2; RegFactory own; RegHook 1] true i_fields i_build in
  effective_factory (ic_descriptor Z c) = Ok (Some own) ∧ ic_hooks Z c = [1; 2].
Proof.
  intros own c. split; [|reflexivity].
  apply (@explicit_factory_overrides ITy string string ConfigStore ITy_syn i_text i_name i_key i_target (λ _ v, Some v) 50 (λ s, s) i_cell i_capture Z (λ h : Z, h) (λ l, l)
    "app" "App" (mkType "App" "demo::App" 1) true Singleton [RegHook 2; RegFactory own; RegHook 1] true i_fields i_build); [done|by repeat constructor].
Defined.

(** A [#[config]] that is no call with a string, such as [#[config = "app"]], stands for
    the only binding of the type; and a [#[qualifier("x")]] for none. *)
Theorem malformed_markers_are_dropped :
  (fp_value (i_plan (i_field [AConfig CMalformed] (i_of "Cfg" (i_ty "Server")))) = XConfig (i_of "Cfg" (i_ty "Server")) None "Server") ∧
  kept (i_field [AConfig CMalformed; AQualifier None] (i_ty "T")) = [] ∧
  i_plan (i_field [AQualifier None] (i_of "Arc" (IDyn "Port"))) = i_plan (i_field [] (i_of "Arc" (IDyn "Port"))).
Proof. repeat split. Qed.
(** A qualifier on a collection is dropped. *)
Theorem collections_ignore_qualifiers :
  i_plan (i_field [AQualifier (Some "x")] (i_of "Vec" (i_of "Arc" (IDyn "Port")))) = i_plan (i_field [] (i_of "Vec" (i_of "Arc" (IDyn "Port")))).
Proof. reflexivity. Qed.
(** The qualifier of a lazy optional provider is declared, and not used. *)
Definition i_lazy : Field := i_field [AQualifier (Some "x")] (i_of "Lazy" (i_of "Option" (i_of "Arc" (IDyn "Port")))).
Lemma fields_ask_what_they_declare_witness :
  asks i_name i_key i_target (V := string) (Hd := string) (λ _ v, Some v) (fp_value (i_plan (hd i_lazy i_fields))) = declares <$> fp_dependency (i_plan (hd i_lazy i_fields)) ∧
  ∃ d h, fp_dependency (i_plan i_lazy) = Some d ∧ fp_value (i_plan i_lazy) = XLazy h None ∧ qualifier d = Some "x".
Proof.
  destruct (@fields_ask_what_they_declare ITy string string ITy_syn i_text i_name i_key i_target (λ _ v, Some v) (hd i_lazy i_fields)) as (_ & H & _).
  destruct (@fields_ask_what_they_declare ITy string string ITy_syn i_text i_name i_key i_target (λ _ v, Some v) i_lazy) as (_ & _ & H' & _).
  split; [by apply H|by apply H'].
Defined.
