(* ===== verification/MacroHook.v ===== *)
(** * MacroHook: the hooks of a block

    Models what [crates/macros-core/src/hook.rs] generates of a [#[hook(Kind)]] method:
    its descriptor in [Hooks], and the call that extracts the parameters, finds the
    receiver and runs the method; and composes the walk of [MacroMethods] with the
    running of hooks.

    A kind of hook is its type, its name and the downcast of its context. A parameter of
    a kind is an instance of [HookParam]; a method is a function of its receiver and its
    arguments that returns its [Output], or a [Result] of it; [None] is a panic. *)
From S2P Require Import Prelude CoreTypes ConfigDe ConfigManager Dirs Hooks Reload DiTypes DiContainer AppBuild MacroTopics MacroSyn MacroComponent MacroRpc MacroMethods MacroInject.

Section Generated.
Context {Ty Path World HookCx KindCx Any Receiver Arg Output DomainError : Type}.
(** [HookKind], as the descriptor uses it. *)
Record KindOf := mkKindOf { ko_type : TypeId; ko_name : string; ko_downcast : HookCx → option KindCx }.
(** [HookParam<Kind>] of a type. *)
Record HookParam := mkHookParam { hp_dependency : option string → DependencyDescriptor; hp_extract : KindCx → option string → result Arg HookError }.
Inductive Method :=
| MPlain (f : option Receiver → list Arg → World → option Output * World)
| MFallible (f : option Receiver → list Arg → World → option (result Output DomainError) * World).
Context (kind_of : Path → KindOf) (param : Ty → HookParam).
(** The receiver that the component source of the context has, the name of the
    component, and how outputs and errors are boxed. *)
Context (component : World → option Receiver) (self_ty : TypeDescriptor) (NAME : string) (box : Output → Any) (boxed : DomainError → HookError).

(** The parameters, in order, up to the first that is missing. *)
Fixpoint extract_params (cx : KindCx) (ps : list (Ty * option string)) : result (list Arg) HookError :=
  match ps with
  | [] => Ok []
  | (t, path) :: ps' => match hp_extract (param t) cx path with Err e => Err e | Ok a => result_map (cons a) (extract_params cx ps') end
  end.
(** The output is normalized: an error of the method is the hook's. *)
Definition invoke (m : Method) (receiver : option Receiver) (args : list Arg) (w : World) : CallOutcome Any * World :=
  match m with
  | MPlain f => match f receiver args w with (None, w') => (CallPanicked, w') | (Some o, w') => (CallOk (box o), w') end
  | MFallible f => match f receiver args w with (None, w') => (CallPanicked, w') | (Some (Ok o), w') => (CallOk (box o), w') | (Some (Err e), w') => (CallErr (boxed e), w') end
  end.
(** The erased call; a context of another kind is the panic of [expect]. *)
Definition generated_call (h : HookInfo (Ty := Ty) (Path := Path)) (m : Method) (w : World) (cx : HookCx) : CallOutcome Any * World :=
  match ko_downcast (kind_of (h_kind h)) cx with
  | None => (CallPanicked, w)
  | Some cx =>
      match extract_params cx (h_params h) with
      | Err e => (CallErr e, w)
      | Ok args =>
          if h_takes_self h then
            match component w with None => (CallErr (MissingReceiver NAME), w) | Some s => invoke m (Some s) args w end
          else invoke m None args w
      end
  end.
Definition fallible_method (m : Method) : bool := match m with MFallible _ => true | MPlain _ => false end.
(** [generate_hook]; [line] is [line!()] at the method. [None]: what the signature was
    read as does not fit what the method returns, and the output is not of the type the
    kind asks for. *)
Definition generate_hook (h : HookInfo (Ty := Ty) (Path := Path)) (line : Z) (m : Method) : option (HookDescriptor World HookCx Any) :=
  if bool_decide (h_is_result h = fallible_method m) then
    Some (Hooks.mkHook line self_ty (ko_type (kind_of (h_kind h))) ((λ p, hp_dependency (param p.1) p.2) <$> h_params h) (generated_call h m))
  else None.

Lemma extract_params_ok cx ps args : extract_params cx ps = Ok args ↔ Forall2 (λ p a, hp_extract (param p.1) cx p.2 = Ok a) ps args.
Proof.
  revert args. induction ps as [|[t path] ps IH]; intros args; cbn [extract_params].
  - split; [intros [= <-]; constructor|by intros ->%Forall2_nil_inv_l].
  - split.
    + destruct (hp_extract (param t) cx path) as [a|] eqn:Ha; [|done]. destruct (extract_params cx ps) as [l|] eqn:Hl; [|done]. intros [= <-]. constructor; [done|by apply IH].
    + intros (a & l & Ha & Hl & ->)%Forall2_cons_inv_l. cbn in Ha. rewrite Ha. apply IH in Hl. by rewrite Hl.
Qed.
Lemma extract_params_err cx ps e : extract_params cx ps = Err e ↔
  ∃ before t path after args, ps = before ++ (t, path) :: after ∧ Forall2 (λ p a, hp_extract (param p.1) cx p.2 = Ok a) before args ∧ hp_extract (param t) cx path = Err e.
Proof.
  induction ps as [|[t path] ps IH]; cbn [extract_params].
  - split; [done|]. by intros ([|] & ? & ? & ? & ? & ? & _).
  - destruct (hp_extract (param t) cx path) as [a|e'] eqn:Ha.
    + transitivity (extract_params cx ps = Err e); [by destruct (extract_params cx ps)|]. rewrite IH. split.
      * intros (before & t' & path' & after & args & -> & Hb & He). exists ((t, path) :: before), t', path', after, (a :: args). repeat split; [by constructor|done].
      * intros ([|p before] & t' & path' & after & args & [= <- Heq] & Hb & He); [simplify_eq; congruence|]. subst ps.
        apply Forall2_cons_inv_l in Hb as (a' & args' & _ & Hb & ->). by exists before, t', path', after, args'.
    + split; [intros [= <-]; by exists [], t, path, ps, []|]. intros ([|p before] & t' & path' & after & args & [= <- Heq] & Hb & He); [simplify_eq; congruence|].
      apply Forall2_cons_inv_l in Hb as (a' & args' & Hp & _). cbn in Hp. congruence.
Qed.
(** a hook runs its method on what it asked for. In a context of its kind the call of a
    generated hook fails, and changes nothing, with the error of the first parameter that
    cannot be extracted; with all of them extracted, a method that takes a receiver fails
    when the component is not there; otherwise the method runs once, on the component and
    the parameters in their order, and what it returns is the outcome, its error being
    the hook's. The dependencies it declares are those of its parameters. *)
Theorem hook_runs_its_method h line m d w cx kcx :
  generate_hook h line m = Some d → ko_downcast (kind_of (h_kind h)) cx = Some kcx →
  kind_ty d = ko_type (kind_of (h_kind h)) ∧ hook_dependencies d = (λ p, hp_dependency (param p.1) p.2) <$> h_params h ∧
  (∀ before t path after args e, h_params h = before ++ (t, path) :: after → Forall2 (λ p a, hp_extract (param p.1) kcx p.2 = Ok a) before args →
     hp_extract (param t) kcx path = Err e → hook_call d w cx = (CallErr e, w)) ∧
  ∀ args, Forall2 (λ p a, hp_extract (param p.1) kcx p.2 = Ok a) (h_params h) args →
    hook_call d w cx =
      if h_takes_self h then match component w with None => (CallErr (MissingReceiver NAME), w) | Some s => invoke m (Some s) args w end
      else invoke m None args w.
Proof.
  unfold generate_hook. case_bool_decide; [|done]. intros [= <-] Hcx. split; [done|]. split; [done|]. cbn. unfold generated_call. rewrite Hcx. split.
  - intros before t path after args e Hp Hb He. assert (Hx : extract_params kcx (h_params h) = Err e) by (apply extract_params_err; eauto 8). by rewrite Hx.
  - intros args Hargs%extract_params_ok. by rewrite Hargs.
Qed.
End Generated.

(** ** The hooks of a block fire in their order *)

Section Fire.
Context {Ty Tok Path World HookCx KindCx Any Receiver Arg Output DomainError V Hd Rv : Type} `{SynType Ty}.
Abbreviation Descriptor := (HookDescriptor World HookCx Any).
Context (kind_of : Path → @KindOf HookCx KindCx) (param : Ty → @HookParam KindCx Arg).
Context (component : World → option Receiver) (self_ty : TypeDescriptor) (NAME : string) (box : Output → Any) (boxed : DomainError → HookError).
(** What the descriptors of the hooks [hs] are, at [lines], with the bodies [ms]. *)
Definition generated (hs : list (HookInfo (Ty := Ty) (Path := Path))) (lines : list Z) (ms : list (@Method World Receiver Arg Output DomainError)) (ds : list Descriptor) : Prop :=
  Forall2 (λ hlm d, generate_hook kind_of param component self_ty NAME box boxed hlm.1.1 hlm.1.2 hlm.2 = Some d) (zip (zip hs lines) ms) ds.

Lemma generated_ordinals hs lines ms ds : length lines = length hs → length ms = length hs → generated hs lines ms ds → Hooks.ordinal <$> ds = lines.
Proof.
  unfold generated. intros Hl Hm Hg. revert lines ms ds Hl Hm Hg. induction hs as [|h hs IH]; intros [|l lines] [|m ms] ds Hl Hm Hg; try done; [by apply Forall2_nil_inv_l in Hg as ->|].
  cbn in Hg. apply Forall2_cons_inv_l in Hg as (d & ds' & Hgen & Hds & ->). rewrite fmap_cons. f_equal; [|by eapply (IH lines ms); [cbn in Hl; lia|cbn in Hm; lia|]].
  unfold generate_hook in Hgen. cbn in Hgen. case_bool_decide; [|done]. by injection Hgen as <-.
Qed.
Lemma fmap_NoDup_inj {A B} (f : A → B) l x y : NoDup (f <$> l) → x ∈ l → y ∈ l → f x = f y → x = y.
Proof.
  intros Hnd [i Hi]%list_elem_of_lookup [j Hj]%list_elem_of_lookup Hxy. assert (i = j) as ->; [|congruence].
  apply (NoDup_lookup _ _ _ (f x) Hnd); rewrite list_lookup_fmap; [by rewrite Hi|rewrite Hj; cbn; by rewrite Hxy].
Qed.
(** Sorting by distinct keys gives the one order in which they ascend. *)
Lemma sort_by_key {A} (key : A → Z) (l k : list A) : StronglySorted Z.lt (key <$> l) → k ≡ₚ l → sort_by (λ a b, key a <=? key b) k = l.
Proof.
  intros Hl Hk. assert (Hp : sort_by (λ a b, key a <=? key b) k ≡ₚ l) by by rewrite sort_by_Permutation.
  assert (Hnd : NoDup (key <$> l)).
  { clear -Hl. induction (key <$> l) as [|x xs IH]; [constructor|]. apply StronglySorted_inv in Hl as [Hxs Hx]. constructor; [|by apply IH].
    intros Hin. rewrite Forall_forall in Hx. specialize (Hx x Hin). lia. }
  assert (Hkeys : key <$> sort_by (λ a b, key a <=? key b) k = key <$> l).
  { apply (Sorted_unique Z.le).
    - assert (Hs : Sorted (λ a b, (key a <=? key b) = true) (sort_by (λ a b, key a <=? key b) k)) by (apply sort_by_Sorted; intros a b Hab; apply Z.leb_le; apply Z.leb_gt in Hab; lia).
      clear -Hs. induction Hs as [|x xs _ IH Hx]; [constructor|]. rewrite fmap_cons. constructor; [done|]. destruct Hx; constructor. by apply Z.leb_le.
    - clear -Hl. induction (key <$> l) as [|x xs IH]; [constructor|]. apply StronglySorted_inv in Hl as [Hxs Hx]. constructor; [by apply IH|].
      destruct Hx; constructor. lia.
    - by rewrite Hp. }
  apply list_eq. intros i. apply (f_equal (λ l, l !! i)) in Hkeys. rewrite !list_lookup_fmap in Hkeys.
  destruct (sort_by _ k !! i) as [x|] eqn:Hx, (l !! i) as [y|] eqn:Hy; try done. cbn in Hkeys. injection Hkeys as Hxy. f_equal.
  apply (fmap_NoDup_inj key l); [done|rewrite <- Hp; by eapply list_elem_of_lookup_2|by eapply list_elem_of_lookup_2|done].
Qed.
(** the hooks of a block fire in the order they are written. Of an accepted block the
    hooks are the methods so marked, in their order; however the linker orders the
    registrations of the type, an event of a kind runs exactly those of that kind, in the
    order of the block, each as generated, up to the first that fails. *)
Theorem block_hooks_fire_in_source_order {Output'} (error_body : Ty → Ty) (r : Rpcs Ty Tok) methods (w : Walk (Ext := Rpcs Ty Tok)) lines ms ds link (factories : list (ComponentFactoryDescriptor (@Program V Hd Rv))) (K : HookKind Any Output') cx w0 :
  expand_methods (H0 := rpcs_parse_method error_body) r methods = Ok w → rs_methods r = [] →
  StronglySorted Z.lt lines → length lines = length (w_hooks w) → length ms = length (w_hooks w) → generated (w_hooks w) lines ms ds →
  link ≡ₚ (RegHook <$> ds) ++ (RegFactory <$> factories) →
  Forall2 (hook_of (Path := Path)) (filter is_hook methods) (w_hooks w) ∧
  run_until_error K (attach (HookManager_new (hooks_of Hooks.ordinal link))) (λ _, true) cx w0 = Some (run_seq K (List.filter (λ d, kind_ty d =? hook_kind K) ds) w0 cx).
Proof.
  intros Hw Hr Hlines Hll Hlm Hg Hlink. split; [by apply (block_is_claimed error_body r methods w Hr) in Hw as (Hh & _)|].
  assert (Hds : hooks_of Hooks.ordinal link = ds).
  { unfold hooks_of. apply (sort_by_key Hooks.ordinal); [by rewrite (generated_ordinals _ _ _ _ Hll Hlm Hg)|].
    transitivity (omap (as_hook (Hook := Descriptor)) ((RegHook <$> ds) ++ (RegFactory <$> factories))); [by apply omap_Permutation|].
    rewrite omap_app. replace (omap as_hook (RegFactory <$> factories)) with ([] : list Descriptor) by (clear; by induction factories). rewrite app_nil_r.
    clear. induction ds as [|d ds IH]; [done|]. cbn. by rewrite IH. }
  rewrite Hds. unfold run_until_error. cbn [attached attach by_kind].
  pose proof (bucket_of ds (hook_kind K)) as Hb. cbn [by_kind attach] in *. destruct (by_kind (HookManager_new ds) !! hook_kind K) as [bucket|] eqn:Eb; cbn in Hb; [rewrite <- Hb|by rewrite <- Hb].
  f_equal. f_equal. clear. induction bucket as [|d ds IH]; [done|]. cbn. by rewrite IH.
Qed.
End Fire.

(** ** Reloads *)

(** [CfgNext<T>] as a parameter of [ConfigReload]. *)
Definition CfgNext {Value : Type} (T : TypeDescriptor) (NAME : string) : @HookParam (ReloadProposal Value) (Value * string) :=
  mkHookParam (λ path, mkDep NAME T One false false path true Eager)
    (λ cx path, match next cx (type_id T) path with Some v => Ok v | None => Err (MissingParam NAME) end).

(** ** Samples *)

Definition hk_kind (p : string) : @KindOf (ReloadProposal Plain) (ReloadProposal Plain) := mkKindOf (if bool_decide (p = "ConfigReload") then 7 else 8) p (λ cx, Some cx).
Definition hk_conf : TypeDescriptor := mkType "Conf" "app::Conf" 3.
Definition hk_param (t : PTy) : @HookParam (ReloadProposal Plain) (Plain * string) := CfgNext hk_conf "Conf".
(** The component is there when the state says so; a method notes that it ran. *)
Definition hk_component (w : list string) : option string := head w.
Definition hk_method (name : string) (fails : bool) : @Method (list string) string (Plain * string) Z string :=
  MFallible (λ s args w, (Some (if fails then Err "no" else Ok (Z.of_nat (length args))), w ++ [name +:+ " of " +:+ from_option (λ x, x) "nobody" s])).
Definition hk_hook (name : string) (self : bool) : ImplMethod PTy string :=
  mkImpl [AHook (Some "ConfigReload")] (b_sig name self [p_of "CfgNext" (p_ty "Conf")] (Some (PPath "Result" (Some [p_ty "Z"])))) [Some (Some "app.conf")].
Definition hk_block : list (ImplMethod PTy string) := [hk_hook "check" true; mkImpl [AInit] (b_sig "create" false [] None) []; hk_hook "apply" false].
Definition hk_generate := generate_hook hk_kind hk_param hk_component (mkType "Server" "app::Server" 1) "Server" (λ o : Z, o) HookOther.
Definition hk_lines : list Z := [10; 20].
Definition hk_methods (fails : bool) := [hk_method "check" fails; hk_method "apply" false].
Definition hk_descriptors (fails : bool) : list (HookDescriptor (list string) (ReloadProposal Plain) Z) :=
  match b_walk hk_block with
  | Ok w => omap (λ hlm : _ * _ * _, hk_generate hlm.1.1 hlm.1.2 hlm.2) (zip (zip (w_hooks w) hk_lines) (hk_methods fails))
  | Err _ => []
  end.
Definition hk_fired : HookKind Z Z := mkKind 7 "ConfigReload" Some.
Example hk_sample : length (hk_descriptors true) = 2%nat ∧ Hooks.ordinal <$> hk_descriptors true = hk_lines.
Proof. vm_compute. done. Qed.
(** The proposals of the sample: with the value the hooks ask for staged, and without. *)
Definition hk_staged : ReloadProposal Plain := [mkStaged 3 "app.conf" (PInt 8)].
Definition hk_link (fails : bool) : list (Registration (V := string) (Hd := string) (Rv := string) (Hook := HookDescriptor (list string) (ReloadProposal Plain) Z)) :=
  (RegHook <$> reverse (hk_descriptors fails)) ++ (RegFactory <$> []).
Definition hk_fire (fails : bool) : list string → option (list Z * option HookError * list string) :=
  λ w, '(outcomes, w) ← run_until_error hk_fired (attach (HookManager_new (hooks_of Hooks.ordinal (hk_link fails)))) (λ _, true) hk_staged w;
    Some (omap (λ o, match o.2 with Ok v => Some v | Err _ => None end) outcomes, head (omap (λ o, match o.2 with Ok _ => None | Err e => Some e end) outcomes), w).
(** However they were linked the hooks run in the order of the block; the second does not
    run when the first fails, and none when the receiver is not there. *)
Example hooks_fire :
  hk_fire false ["server"] = Some ([1; 1], None, ["server"; "check of server"; "apply of nobody"]) ∧
  hk_fire true ["server"] = Some ([], Some (HookOther "no"), ["server"; "check of server"]) ∧
  hk_fire false [] = Some ([], Some (MissingReceiver "Server"), []).
Proof. vm_compute. done. Qed.
Lemma hook_runs_its_method_witness :
  match head (hk_descriptors false), b_walk hk_block with
  | Some d, Ok w => match head (w_hooks w) with
                    | Some h => hook_call d ["server"] hk_staged = (CallOk 1, ["server"; "check of server"]) ∧ hook_call d ["server"] [] = (CallErr (MissingParam "Conf"), ["server"])
                    | None => False
                    end
  | _, _ => False
  end.
Proof.
  destruct (b_walk hk_block) as [w|] eqn:Hw; vm_compute in Hw; [|discriminate Hw]. injection Hw as <-.
  destruct (head (hk_descriptors false)) as [d|] eqn:Hd; [|discriminate Hd].
  assert (Hg : hk_generate (MacroMethods.mkHook "check" "ConfigReload" true [(p_of "CfgNext" (p_ty "Conf"), Some "app.conf")] true) 10 (hk_method "check" false) = Some d) by exact Hd.
  split.
  - destruct (hook_runs_its_method hk_kind hk_param hk_component _ _ _ _ _ _ _ d ["server"] hk_staged hk_staged Hg eq_refl) as (_ & _ & _ & Hok).
    exact (Hok [(PInt 8, "app.conf")] ltac:(repeat constructor)).
  - destruct (hook_runs_its_method hk_kind hk_param hk_component _ _ _ _ _ _ _ d ["server"] [] [] Hg eq_refl) as (_ & _ & Herr & _).
    exact (Herr [] _ _ [] [] _ eq_refl ltac:(constructor) eq_refl).
Defined.
Lemma block_hooks_fire_in_source_order_witness :
  match b_walk hk_block with
  | Ok w => Forall2 (hook_of (Path := string)) (filter is_hook hk_block) (w_hooks w) ∧
      run_until_error hk_fired (attach (HookManager_new (hooks_of Hooks.ordinal (hk_link false)))) (λ _, true) hk_staged ["server"] =
        Some (run_seq hk_fired (List.filter (λ d, kind_ty d =? hook_kind hk_fired) (hk_descriptors false)) ["server"] hk_staged)
  | Err _ => False
  end.
Proof.
  destruct (b_walk hk_block) as [w|] eqn:Hw; [|vm_compute in Hw; discriminate Hw].
  apply (block_hooks_fire_in_source_order (Tok := unit) (H := PTy_syn) (V := string) (Hd := string) (Rv := string) hk_kind hk_param hk_component (mkType "Server" "app::Server" 1) "Server" (λ o : Z, o) HookOther
    (p_of "Body") b_rpcs hk_block w hk_lines (hk_methods false) (hk_descriptors false) (hk_link false) [] hk_fired hk_staged ["server"] Hw eq_refl).
  all: vm_compute in Hw; injection Hw as <-.
  - repeat constructor.
  - reflexivity.
  - reflexivity.
  - repeat constructor.
  - unfold hk_link. by rewrite reverse_Permutation.
Defined.
(** a hook may ask for configuration that nothing binds. The application of the sample,
    one of whose components has a hook that depends on an unbound configuration, builds. *)
Definition hk_unbound : HookDescriptor (list string) unit Z :=
  Hooks.mkHook 10 (mkType "Listener" "app::Listener" 1) 7 [hp_dependency (hk_param (p_ty "Conf")) None] (λ w _, (CallOk 1, w)).
Theorem unbound_hook_is_accepted :
  (λ b, type_id (ct_ty (cb_type b))) <$> app_bindings (b_registry sample_builder) = [2] ∧ (λ d, (config d, type_id (dep_ty d))) <$> hook_dependencies hk_unbound = [(true, 3)] ∧
  match sample_build (λ c, if bool_decide (c_name c = "Listener") then [hk_unbound] else []) sample_builder with
  | Some (Ok app) => length (flat_map (λ d, hook_dependencies d) (from_option id [] (by_kind (rt_hooks (app_runtime app)) !! 7))) = 1%nat
  | _ => False
  end.
Proof. vm_compute. done. Qed.
