(* ===== verification/MacroConfig.v ===== *)
(** * MacroConfig: configuration types

    Models [crates/macros-core/src/config.rs] and [case.rs]: the arguments of
    [#[config]], what is read of serde's attributes, the names serde gives fields and
    variants, and the defaults that are declared, which [ConfigDefaults] merges.

    - Identifiers are ASCII. An attribute's arguments are what [syn] parses; a panic is
      an error of its own.
    - The names are checked against what the rules mean: a renamed variant can be read
      back, and a default lands under the name its field is read from. *)
From S2P Require Import Prelude ConfigValue ConfigDefaults MacroTopics MacroSyn MacroComponent.

(** ** [RenameRule] *)

Inductive RenameRule := LowerCase | UpperCase | PascalCase | CamelCase | SnakeCase | ScreamingSnakeCase | KebabCase | ScreamingKebabCase.
Definition RenameRule_from_str (rule : string) : option RenameRule :=
  if bool_decide (rule = "lowercase") then Some LowerCase else if bool_decide (rule = "UPPERCASE") then Some UpperCase
  else if bool_decide (rule = "PascalCase") then Some PascalCase else if bool_decide (rule = "camelCase") then Some CamelCase
  else if bool_decide (rule = "snake_case") then Some SnakeCase else if bool_decide (rule = "SCREAMING_SNAKE_CASE") then Some ScreamingSnakeCase
  else if bool_decide (rule = "kebab-case") then Some KebabCase else if bool_decide (rule = "SCREAMING-KEBAB-CASE") then Some ScreamingKebabCase else None.
Fixpoint map_chars (f : ascii → ascii) (s : string) : string := match s with "" => "" | String c s' => String (f c) (map_chars f s') end.
Definition is_lower (c : ascii) : bool := (97 <=? Z.of_nat (nat_of_ascii c)) && (Z.of_nat (nat_of_ascii c) <=? 122).
Definition upper_ascii (c : ascii) : ascii := ascii_of_nat (nat_of_ascii c - 32).
(** [to_ascii_lowercase], [to_ascii_uppercase] and [replace('_', "-")] *)
Definition lower_char (c : ascii) : ascii := if is_upper c then lower_ascii c else c.
Definition upper_char (c : ascii) : ascii := if is_lower c then upper_ascii c else c.
Definition dash_char (c : ascii) : ascii := if bool_decide (c = "_"%char) then "-"%char else c.
Definition to_ascii_lowercase : string → string := map_chars lower_char.
Definition to_ascii_uppercase : string → string := map_chars upper_char.
Definition dashes : string → string := map_chars dash_char.
(** [s[..1].to_ascii_lowercase() + &s[1..]]: [None] is the panic of an empty string. *)
Definition lower_first (s : string) : option string := match s with "" => None | String c s' => Some (String (lower_char c) s') end.
(** The loops of [SnakeCase] and [PascalCase]. *)
Fixpoint to_snake (first : bool) (s : string) : string :=
  match s with
  | "" => ""
  | String c s' => let rest := String (lower_char c) (to_snake false s') in if negb first && is_upper c then String "_" rest else rest
  end.
Fixpoint to_pascal (capitalize : bool) (s : string) : string :=
  match s with
  | "" => ""
  | String c s' =>
      if bool_decide (c = "_"%char) then to_pascal true s'
      else if capitalize then String (upper_char c) (to_pascal false s') else String c (to_pascal false s')
  end.
Definition apply_to_variant (r : RenameRule) (variant : string) : option string :=
  match r with
  | PascalCase => Some variant
  | LowerCase => Some (to_ascii_lowercase variant)
  | UpperCase => Some (to_ascii_uppercase variant)
  | CamelCase => lower_first variant
  | SnakeCase => Some (to_snake true variant)
  | ScreamingSnakeCase => Some (to_ascii_uppercase (to_snake true variant))
  | KebabCase => Some (dashes (to_snake true variant))
  | ScreamingKebabCase => Some (dashes (to_ascii_uppercase (to_snake true variant)))
  end.
Definition apply_to_field (r : RenameRule) (field : string) : option string :=
  match r with
  | LowerCase | SnakeCase => Some field
  | UpperCase | ScreamingSnakeCase => Some (to_ascii_uppercase field)
  | PascalCase => Some (to_pascal true field)
  | CamelCase => lower_first (to_pascal true field)
  | KebabCase => Some (dashes field)
  | ScreamingKebabCase => Some (dashes (to_ascii_uppercase field))
  end.

(** ** Attributes *)

(** An argument of [#[serde(..)]]: a flag, [= ".."], [= ..] or a group, and what a group
    says for [deserialize] and the like; [None]: it is no string. *)
Inductive SerdeValue := SFlag | SStr (s : string) | SExpr | SGroup (inner : list (string * option string)).
(** [#[default]], [#[default = ".."]], [#[default = ..]] and [#[default(..)]]. *)
Inductive DefaultForm := DBare | DStr (s : string) | DExpr | DList.
(** An entry of a [#[cfg_attr]]. *)
Inductive CfgMeta := MDefault | MOther (text : string).
Inductive ConfigAttr := ASerde (metas : list (string * SerdeValue)) | ADefaulted (form : DefaultForm) | ACfgAttr (metas : option (list CfgMeta)) | AOther (name : string).
Inductive ConfigMacroError := BadSerde | DefaultNotAString | DefaultNotWritten | DefaultOnTuple | VariantDefaultValue | TwoDefaults | UnionRefused | BadCfgAttr | NamePanics.
#[local] Abbreviation M A := (result A ConfigMacroError).

(** [serde_string_arg] *)
Fixpoint group_arg (inner : list (string * option string)) (found : option string) : M (option string) :=
  match inner with
  | [] => Ok found
  | (n, Some lit) :: inner' => group_arg inner' (if bool_decide (n = "deserialize") then Some lit else found)
  | (_, None) :: _ => Err BadSerde
  end.
Fixpoint metas_arg (key : string) (metas : list (string * SerdeValue)) (found : option string) : M (option string) :=
  match metas with
  | [] => Ok found
  | (n, v) :: metas' =>
      if bool_decide (n = key) then
        match v with
        | SStr s => metas_arg key metas' (Some s)
        | SGroup inner => match group_arg inner found with Ok found' => metas_arg key metas' found' | Err e => Err e end
        | SFlag | SExpr => Err BadSerde
        end
      else metas_arg key metas' found
  end.
Fixpoint string_arg (key : string) (attrs : list ConfigAttr) (found : option string) : M (option string) :=
  match attrs with
  | [] => Ok found
  | ASerde metas :: attrs' => match metas_arg key metas found with Ok found' => string_arg key attrs' found' | Err e => Err e end
  | _ :: attrs' => string_arg key attrs' found
  end.
Definition serde_string_arg (attrs : list ConfigAttr) (key : string) : M (option string) := string_arg key attrs None.
(** [serde_rename] and [serde_rename_all] *)
Definition serde_rename (attrs : list ConfigAttr) : M (option string) := serde_string_arg attrs "rename".
Definition serde_rename_all (attrs : list ConfigAttr) (arg : string) : M (option RenameRule) :=
  result_map (λ v, v ← v; RenameRule_from_str v) (serde_string_arg attrs arg).
(** [serde_flag]: a flag with a payload is a syntax error. *)
Fixpoint metas_flag (flag : string) (metas : list (string * SerdeValue)) : M bool :=
  match metas with
  | [] => Ok false
  | (n, v) :: metas' =>
      if bool_decide (n = flag) then match v with SFlag => result_map (λ _, true) (metas_flag flag metas') | _ => Err BadSerde end
      else metas_flag flag metas'
  end.
Fixpoint serde_flag (attrs : list ConfigAttr) (flag : string) : M bool :=
  match attrs with
  | [] => Ok false
  | ASerde metas :: attrs' => match metas_flag flag metas with Ok b => result_map (orb b) (serde_flag attrs' flag) | Err e => Err e end
  | _ :: attrs' => serde_flag attrs' flag
  end.
(** [enum_tag_tokens] *)
Definition enum_tag (attrs : list ConfigAttr) : M EnumTag :=
  match serde_flag attrs "untagged" with
  | Err e => Err e
  | Ok true => Ok Untagged
  | Ok false =>
      match serde_string_arg attrs "tag", serde_string_arg attrs "content" with
      | Err e, _ | _, Err e => Err e
      | Ok (Some tag), Ok (Some content) => Ok (Adjacent tag content)
      | Ok (Some tag), Ok None => Ok (Internal tag)
      | Ok None, Ok _ => Ok External
      end
  end.

(** ** Defaults *)

(** [attrs.iter().position], then [remove]. *)
Fixpoint take_first {A} (p : ConfigAttr → option A) (attrs : list ConfigAttr) : option A * list ConfigAttr :=
  match attrs with
  | [] => (None, [])
  | a :: attrs' => match p a with Some x => (Some x, attrs') | None => let '(r, rest) := take_first p attrs' in (r, a :: rest) end
  end.
Definition default_form (a : ConfigAttr) : option DefaultForm := match a with ADefaulted f => Some f | _ => None end.
(** [take_default_attr] *)
Definition take_default_attr (attrs : list ConfigAttr) : M (option string * list ConfigAttr) :=
  match take_first default_form attrs with
  | (None, rest) => Ok (None, rest)
  | (Some (DStr s), rest) => Ok (Some s, rest)
  | (Some DExpr, _) => Err DefaultNotAString
  | (Some (DBare | DList), _) => Err DefaultNotWritten
  end.
(** [take_default_from_cfg_attr]: whether there is a [default], and the rest. *)
Definition take_default_from_cfg_attr (metas : list CfgMeta) : option (option (list CfgMeta)) :=
  match metas with
  | [] => None
  | predicate :: rest =>
      let remaining := List.filter (λ m, match m with MDefault => false | MOther _ => true end) rest in
      if existsb (λ m, match m with MDefault => true | MOther _ => false end) rest
      then Some (match remaining with [] => None | _ => Some (predicate :: remaining) end) else None
  end.
Fixpoint scan_cfg_attrs (attrs : list ConfigAttr) : M (bool * list ConfigAttr) :=
  match attrs with
  | [] => Ok (false, [])
  | ACfgAttr None :: _ => Err BadCfgAttr
  | ACfgAttr (Some metas) :: attrs' =>
      match take_default_from_cfg_attr metas with
      | Some (Some metas') => Ok (true, ACfgAttr (Some metas') :: attrs')
      | Some None => Ok (true, attrs')
      | None => result_map (λ r, (r.1, ACfgAttr (Some metas) :: r.2)) (scan_cfg_attrs attrs')
      end
  | a :: attrs' => result_map (λ r, (r.1, a :: r.2)) (scan_cfg_attrs attrs')
  end.
(** [take_variant_default_marker] *)
Definition take_variant_default_marker (attrs : list ConfigAttr) : M (bool * list ConfigAttr) :=
  match take_first default_form attrs with
  | (Some DBare, rest) => Ok (true, rest)
  | (Some _, _) => Err VariantDefaultValue
  | (None, _) => scan_cfg_attrs attrs
  end.

Record FieldDecl := mkFieldDecl { fd_ident : string; fd_attrs : list ConfigAttr }.
Inductive Fields := FNamed (fields : list FieldDecl) | FUnnamed (attrs : list (list ConfigAttr)) | FUnit.
Record Variant := mkVariant { v_ident : string; v_attrs : list ConfigAttr; v_fields : Fields }.
Inductive Data := DataStruct (fields : Fields) | DataEnum (variants : list Variant) | DataUnion.

Definition renamed (apply : RenameRule → string → option string) (attrs : list ConfigAttr) (ident : string) (rule : option RenameRule) : M string :=
  match serde_rename attrs with
  | Err e => Err e
  | Ok (Some name) => Ok name
  | Ok None => match rule with Some r => match apply r ident with Some n => Ok n | None => Err NamePanics end | None => Ok ident end
  end.
(** [field_serde_name] and [variant_serde_name] *)
Definition field_serde_name := renamed apply_to_field.
Definition variant_serde_name (v : Variant) : list ConfigAttr → option RenameRule → M string := λ attrs rule, renamed apply_to_variant attrs (v_ident v) rule.
(** [take_field_defaults] *)
Fixpoint named_defaults (fields : list FieldDecl) (rule : option RenameRule) : M (list FieldDefault) :=
  match fields with
  | [] => Ok []
  | f :: fields' =>
      match take_default_attr (fd_attrs f) with
      | Err e => Err e
      | Ok (None, _) => named_defaults fields' rule
      | Ok (Some lit, rest) =>
          match field_serde_name rest (fd_ident f) rule with
          | Err e => Err e
          | Ok key => result_map (cons (key, lit)) (named_defaults fields' rule)
          end
      end
  end.
Fixpoint tuple_defaults (fields : list (list ConfigAttr)) : M (list FieldDefault) :=
  match fields with
  | [] => Ok []
  | attrs :: fields' =>
      match take_default_attr attrs with Err e => Err e | Ok (Some _, _) => Err DefaultOnTuple | Ok (None, _) => tuple_defaults fields' end
  end.
Definition take_field_defaults (fields : Fields) (rule : option RenameRule) : M (list FieldDefault) :=
  match fields with FNamed l => named_defaults l rule | FUnnamed l => tuple_defaults l | FUnit => Ok [] end.
Definition is_unit (fields : Fields) : bool := match fields with FUnit => true | _ => false end.
Definition or_else {A} (a b : option A) : option A := match a with Some _ => a | None => b end.
(** One turn of the loop over the variants. *)
Definition scan_variant (rename_all rename_all_fields : option RenameRule) (acc : option (string * bool) * list VariantDefault) (v : Variant) :
    M (option (string * bool) * list VariantDefault) :=
  match take_variant_default_marker (v_attrs v) with
  | Err e => Err e
  | Ok (is_default, attrs) =>
      match variant_serde_name v attrs rename_all with
      | Err e => Err e
      | Ok key =>
          match serde_rename_all attrs "rename_all" with
          | Err e => Err e
          | Ok own =>
              match take_field_defaults (v_fields v) (or_else own rename_all_fields) with
              | Err e => Err e
              | Ok fields =>
                  let variants := acc.2 ++ match fields with [] => [] | _ => [(key, fields)] end in
                  if is_default then match acc.1 with Some _ => Err TwoDefaults | None => Ok (Some (key, is_unit (v_fields v)), variants) end
                  else Ok (acc.1, variants)
              end
          end
      end
  end.
Fixpoint scan_variants (rename_all rename_all_fields : option RenameRule) (acc : option (string * bool) * list VariantDefault) (vs : list Variant) :
    M (option (string * bool) * list VariantDefault) :=
  match vs with
  | [] => Ok acc
  | v :: vs' => match scan_variant rename_all rename_all_fields acc v with Err e => Err e | Ok acc' => scan_variants rename_all rename_all_fields acc' vs' end
  end.
(** [build_defaults]: the [DEFAULTS] of the type. *)
Definition build_defaults (attrs : list ConfigAttr) (data : Data) : M DefaultSpec :=
  match serde_rename_all attrs "rename_all", serde_rename_all attrs "rename_all_fields", enum_tag attrs with
  | Err e, _, _ | _, Err e, _ | _, _, Err e => Err e
  | Ok rename_all, Ok rename_all_fields, Ok tagging =>
      match data with
      | DataStruct fields => result_map (λ l, match l with [] => DefaultNone | _ => DefaultFields l end) (take_field_defaults fields rename_all)
      | DataEnum vs =>
          result_map (λ r, match r with (None, []) => DefaultNone | (d, l) => DefaultVariants tagging d l end) (scan_variants rename_all rename_all_fields (None, []) vs)
      | DataUnion => Err UnionRefused
      end
  end.

(** ** The attribute itself *)

Section Args.
Context {Path : Type} (parse_path : Parser MacroError Path).
Record ConfigArgs := mkConfigArgs { ca_name : option string; ca_path : option string; ca_overseerd : option Path; ca_krate : option Path }.
(** One key of [ConfigArgs::parse], and its comma. *)
Definition parse_config_key (a : ConfigArgs) (ts : list Token) : result (ConfigArgs * list Token) MacroError :=
  match MacroComponent.parse_ident ts with
  | Err e => Err e
  | Ok (key, ts') =>
      result_map (λ r, (r.1, eat_comma r.2))
        (if bool_decide (key = "name") then result_map (λ v, (mkConfigArgs (Some v.1) (ca_path a) (ca_overseerd a) (ca_krate a), v.2)) (MacroComponent.parse_value ts')
         else if bool_decide (key = "path") then result_map (λ v, (mkConfigArgs (ca_name a) (Some v.1) (ca_overseerd a) (ca_krate a), v.2)) (MacroComponent.parse_value ts')
         else if bool_decide (key = "overseerd") then result_map (λ v, (mkConfigArgs (ca_name a) (ca_path a) (Some v.1) (ca_krate a), v.2)) (after_eq parse_path ts')
         else if bool_decide (key = "crate") then result_map (λ v, (mkConfigArgs (ca_name a) (ca_path a) (ca_overseerd a) (Some v.1), v.2)) (after_eq parse_path ts')
         else Err Syntax)
  end.
Fixpoint parse_config_args (fuel : nat) (a : ConfigArgs) (ts : list Token) : result ConfigArgs MacroError :=
  match fuel, ts with
  | _, [] => Ok a
  | O, _ => Err Syntax
  | S fuel', _ => match parse_config_key a ts with Err e => Err e | Ok (a', ts') => parse_config_args fuel' a' ts' end
  end.
Definition no_config_args : ConfigArgs := mkConfigArgs None None None None.
Definition ConfigArgs_parse (ts : list Token) : result ConfigArgs MacroError := parse_config_args (length ts) no_config_args ts.
(** [expand]: the name and the defaults of the type, and the path it is bound at. *)
Record ConfigExpansion := mkConfigExpansion { ce_name : string; ce_defaults : DefaultSpec; ce_binding : option string }.
Definition expand_config (a : ConfigArgs) (ident : string) (attrs : list ConfigAttr) (data : Data) : M ConfigExpansion :=
  result_map (λ d, mkConfigExpansion (from_option (λ n, n) ident (ca_name a)) d (ca_path a)) (build_defaults attrs data).
End Args.

(** ** Renamed variants can be read back *)

(** A variant's name: it starts with a capital and has no underscore and no dash. *)
Definition pascal_name (v : string) : Prop :=
  match v with "" => False | String c _ => is_upper c = true end ∧ str_any (λ c, bool_decide (c = "_"%char) || bool_decide (c = "-"%char)) v = false.
Definition undash_char (c : ascii) : ascii := if bool_decide (c = "-"%char) then "_"%char else c.
Definition upper_first (s : string) : string := match s with "" => "" | String c s' => String (upper_char c) s' end.
Definition read_variant (r : RenameRule) (n : string) : string :=
  match r with
  | PascalCase | LowerCase | UpperCase => n
  | CamelCase => upper_first n
  | SnakeCase => to_pascal true n
  | ScreamingSnakeCase => to_pascal true (to_ascii_lowercase n)
  | KebabCase => to_pascal true (map_chars undash_char n)
  | ScreamingKebabCase => to_pascal true (to_ascii_lowercase (map_chars undash_char n))
  end.

Ltac every_char c := destruct c as [[] [] [] [] [] [] [] []]; vm_compute; try done; try congruence.
Lemma upper_lower c : is_upper c = true → upper_char (lower_char c) = c.
Proof. by every_char c. Qed.
Lemma lower_not_upper c : is_upper c = false → lower_char c = c.
Proof. unfold lower_char. by intros ->. Qed.
Lemma lower_no_underscore c : is_upper c = true → lower_char c ≠ "_"%char.
Proof. by every_char c. Qed.
Lemma lower_upper_lower c : lower_char (upper_char (lower_char c)) = lower_char c.
Proof. by every_char c. Qed.
Lemma lower_lower c : lower_char (lower_char c) = lower_char c.
Proof. by every_char c. Qed.
Lemma map_chars_comp f g s : map_chars f (map_chars g s) = map_chars (f ∘ g) s.
Proof. induction s as [|c s IH]; [done|]. cbn. by rewrite IH. Qed.
Lemma to_snake_lowered first s : map_chars (lower_char ∘ upper_char) (to_snake first s) = to_snake first s.
Proof.
  revert first. induction s as [|c s IH]; intros first; [done|]. cbn. destruct (negb first && is_upper c); cbn; rewrite IH, lower_upper_lower; done.
Qed.
Lemma to_snake_no_dash first s : str_any (λ c, bool_decide (c = "_"%char) || bool_decide (c = "-"%char)) s = false →
  str_any (λ c, bool_decide (c = "-"%char)) (to_snake first s) = false.
Proof.
  revert first. induction s as [|c s IH]; intros first; [done|]. cbn. intros [[Hu Hd]%orb_false_iff Hs]%orb_false_iff.
  assert (Hl : bool_decide (lower_char c = "-"%char) = false). { revert Hd. clear. by every_char c. }
  destruct (negb first && is_upper c); cbn; rewrite (IH false Hs), Hl; done.
Qed.
Lemma undash_dashes s : str_any (λ c, bool_decide (c = "-"%char)) s = false → map_chars undash_char (dashes s) = s.
Proof.
  unfold dashes. rewrite map_chars_comp. induction s as [|c s IH]; [done|]. cbn. intros [Hc Hs]%orb_false_iff. rewrite IH by done. f_equal.
  unfold undash_char, dash_char. by destruct (bool_decide (c = "_"%char)) eqn:Hu; [apply bool_decide_eq_true in Hu as ->|rewrite Hc].
Qed.
Lemma map_chars_no_dash f s : (∀ c, f c = "-"%char → c = "-"%char) → str_any (λ c, bool_decide (c = "-"%char)) s = false → str_any (λ c, bool_decide (c = "-"%char)) (map_chars f s) = false.
Proof.
  intros Hf. induction s as [|c s IH]; [done|]. cbn. intros [Hc Hs]%orb_false_iff. rewrite IH, orb_false_r by done.
  apply bool_decide_eq_false. apply bool_decide_eq_false in Hc. by intros ?%Hf.
Qed.
Lemma pascal_snake_rest s : str_any (λ c, bool_decide (c = "_"%char) || bool_decide (c = "-"%char)) s = false → to_pascal false (to_snake false s) = s.
Proof.
  induction s as [|c s IH]; [done|]. cbn. intros [[Hu _]%orb_false_iff Hs]%orb_false_iff. destruct (is_upper c) eqn:Hup; cbn.
  - change (bool_decide ("_"%char = "_"%char)) with true. cbn iota. rewrite bool_decide_false by (by apply lower_no_underscore). by rewrite IH, upper_lower.
  - rewrite lower_not_upper, Hu by done. by rewrite IH.
Qed.
Lemma pascal_snake s : pascal_name s → to_pascal true (to_snake true s) = s.
Proof.
  destruct s as [|c s]; [by intros [[] _]|]. intros [Hup Hs]. cbn in Hs |- *. apply orb_false_iff in Hs as [_ Hs].
  rewrite bool_decide_false by (by apply lower_no_underscore). by rewrite upper_lower, pascal_snake_rest.
Qed.
(** a variant is named as serde names it, and no two are named alike. Under every rule
    but the two that forget the capitals, the name given to a variant can be read back,
    so two variants of an enum never share a tag. *)
Theorem renamed_variant_read_back r v : pascal_name v → r ≠ LowerCase → r ≠ UpperCase → ∃ n, apply_to_variant r v = Some n ∧ read_variant r n = v.
Proof.
  intros Hv Hl Hu. assert (Hdash : str_any (λ c, bool_decide (c = "-"%char)) (to_snake true v) = false) by (apply to_snake_no_dash; by destruct Hv).
  assert (Hlow : to_ascii_lowercase (to_ascii_uppercase (to_snake true v)) = to_snake true v) by (unfold to_ascii_lowercase, to_ascii_uppercase; by rewrite map_chars_comp, to_snake_lowered).
  destruct r; try done; cbn.
  - by eexists.
  - destruct v as [|c v]; [by destruct Hv as [[] _]|]. eexists. split; [done|]. cbn. rewrite upper_lower; [done|]. by destruct Hv.
  - eexists. split; [done|]. by apply pascal_snake.
  - eexists. split; [done|]. rewrite Hlow. by apply pascal_snake.
  - eexists. split; [done|]. rewrite undash_dashes by done. by apply pascal_snake.
  - eexists. split; [done|]. rewrite undash_dashes, Hlow; [by apply pascal_snake|]. apply map_chars_no_dash; [|done]. intros c. by every_char c.
Qed.

(** ** A default lands where its field is read *)

(** What the macro makes of a field: a name and a literal. *)
Definition named_default (rule : option RenameRule) (f : FieldDecl) (key lit : string) : Prop :=
  ∃ rest, take_default_attr (fd_attrs f) = Ok (Some lit, rest) ∧ field_serde_name rest (fd_ident f) rule = Ok key.
Lemma named_defaults_spec fields rule l : named_defaults fields rule = Ok l → ∀ key lit, (key, lit) ∈ l ↔ ∃ f, f ∈ fields ∧ named_default rule f key lit.
Proof.
  revert l. induction fields as [|f fields IH]; intros l; cbn [named_defaults].
  { intros [= <-] key lit. split; [by intros ?%not_elem_of_nil|]. by intros (f & ?%not_elem_of_nil & _). }
  destruct (take_default_attr (fd_attrs f)) as [[[lit0|] rest]|] eqn:Hd; [| |done].
  - destruct (field_serde_name rest (fd_ident f) rule) as [key0|] eqn:Hn; [|done]. destruct (named_defaults fields rule) as [l'|] eqn:Hr; [|done]. intros [= <-] key lit.
    rewrite elem_of_cons, (IH l' eq_refl). split.
    + intros [[= -> ->]|(g & Hg & Hdg)]; [exists f; split; [by left|by exists rest]|exists g; split; [by right|done]].
    + intros (g & [->|Hg]%elem_of_cons & Hdg); [|right; by exists g]. left. destruct Hdg as (rest' & Hd' & Hn'). congruence.
  - intros Hr key lit. rewrite (IH l Hr). split; intros (g & Hg & Hdg); [exists g; split; [by right|done]|].
    apply elem_of_cons in Hg as [->|Hg]; [|by exists g]. destruct Hdg as (rest' & Hd' & _). congruence.
Qed.
(** *** The name that serde reads, as its documentation has it *)

(** Serde reads a raw identifier without its prefix. *)
Definition unraw (ident : string) : string := match ident with String "r" (String "#" s) => s | _ => ident end.
(** An identifier is words with underscores between them. *)
Fixpoint words (s : string) : list string :=
  match s with
  | "" => [""]
  | String c s' =>
      if bool_decide (c = "_"%char) then "" :: words s'
      else match words s' with w :: ws => String c w :: ws | [] => [String c ""] end
  end.
Definition capitalized (w : string) : string := match w with "" => "" | String c w' => String (upper_char c) w' end.
(** A rule for fields puts the words together again. *)
Definition named_by (rule : option RenameRule) (ident : string) : option string :=
  let ws := words ident in
  match rule with
  | None => Some ident
  | Some (LowerCase | SnakeCase) => Some (String.concat "_" ws)
  | Some (UpperCase | ScreamingSnakeCase) => Some (String.concat "_" (to_ascii_uppercase <$> ws))
  | Some PascalCase => Some (String.concat "" (capitalized <$> ws))
  | Some CamelCase => match String.concat "" (capitalized <$> ws) with "" => None | String c s => Some (String (lower_char c) s) end
  | Some KebabCase => Some (String.concat "-" ws)
  | Some ScreamingKebabCase => Some (String.concat "-" (to_ascii_uppercase <$> ws))
  end.
(** The strings written for an argument of [#[serde(..)]] that are for deserialization. *)
Definition written_in (key : string) (meta : string * SerdeValue) : list string :=
  if bool_decide (meta.1 = key) then
    match meta.2 with
    | SStr s => [s]
    | SGroup inner => omap (λ e, if bool_decide (e.1 = "deserialize") then e.2 else None) inner
    | SFlag | SExpr => []
    end
  else [].
Definition written (key : string) (attrs : list ConfigAttr) : list string :=
  attrs ≫= λ a, match a with ASerde metas => metas ≫= written_in key | _ => [] end.
Definition section_rule (attrs : list ConfigAttr) : option RenameRule := v ← last (written "rename_all" attrs); RenameRule_from_str v.
(** A field of a struct with these attributes is read from a key: one it is renamed to
    or, if it is renamed to none, what the struct's rule makes of its identifier. *)
Definition serde_reads (attrs : list ConfigAttr) (f : FieldDecl) (key : string) : Prop :=
  key ∈ written "rename" (fd_attrs f) ∨
  (written "rename" (fd_attrs f) = [] ∧ named_by (section_rule attrs) (unraw (fd_ident f)) = Some key).
(** The default that is written on a field. *)
Definition declares_default (f : FieldDecl) (lit : string) : Prop :=
  ∃ before after, fd_attrs f = before ++ ADefaulted (DStr lit) :: after ∧ omap default_form before = [].

(** *** What the macro reads is what is written *)

Lemma group_arg_spec inner found r : group_arg inner found = Ok r →
  r = last (option_list found ++ omap (λ e, if bool_decide (e.1 = "deserialize") then e.2 else None) inner).
Proof.
  revert found. induction inner as [|[n [lit|]] inner IH]; intros found; cbn [group_arg]; [intros [= <-]; by destruct found| |done].
  intros ->%IH. cbn. case_bool_decide; cbn; [|done]. by destruct found; cbn.
Qed.
Lemma metas_arg_spec key metas found r : metas_arg key metas found = Ok r → r = last (option_list found ++ (metas ≫= written_in key)).
Proof.
  revert found. induction metas as [|[n v] metas IH]; intros found; cbn [metas_arg]; [intros [= <-]; by destruct found|].
  rewrite bind_cons. unfold written_in at 1. cbn [fst snd]. case_bool_decide; [|intros ->%IH; done]. destruct v as [|s| |inner]; try done.
  - intros ->%IH. by destruct found.
  - destruct (group_arg inner found) as [found'|] eqn:Hg; [|done]. apply group_arg_spec in Hg. intros ->%IH.
    rewrite app_assoc. set (l := option_list found ++ _) in *. subst found'. rewrite !last_app. destruct (last (metas ≫= _)) as [|] eqn:Hl; [done|].
    by destruct (last l).
Qed.
Lemma string_arg_spec key attrs found r : string_arg key attrs found = Ok r → r = last (option_list found ++ written key attrs).
Proof.
  revert found. induction attrs as [|a attrs IH]; intros found; cbn [string_arg]; [intros [= <-]; by destruct found|].
  unfold written. rewrite bind_cons. fold (written key attrs). destruct a as [metas| | |]; try (intros ->%IH; done).
  destruct (metas_arg key metas found) as [found'|] eqn:Hm; [|done]. apply metas_arg_spec in Hm. intros ->%IH.
  rewrite app_assoc. set (l := option_list found ++ _) in *. subst found'. rewrite !last_app. destruct (last (written key attrs)); [done|].
  by destruct (last l).
Qed.
Lemma serde_string_arg_spec attrs key r : serde_string_arg attrs key = Ok r → r = last (written key attrs).
Proof. apply string_arg_spec. Qed.
Lemma section_rule_spec attrs rule : serde_rename_all attrs "rename_all" = Ok rule → rule = section_rule attrs.
Proof.
  unfold serde_rename_all, section_rule. destruct (serde_string_arg attrs "rename_all") as [v|] eqn:Hv; [|done].
  apply serde_string_arg_spec in Hv as <-. by intros [= <-].
Qed.

(** *** The loops of the rules put words together *)

Lemma words_cons s : ∃ w ws, words s = w :: ws.
Proof. destruct s as [|c s]; [by exists "", []|]. cbn. case_bool_decide; [by eexists _, _|]. destruct (words s) as [|w ws]; by eexists _, _. Qed.
Lemma concat_cons sep w ws : String.concat sep (w :: ws) = w +:+ match ws with [] => "" | _ => sep +:+ String.concat sep ws end.
Proof. destruct ws; [by rewrite str_app_nil_r|done]. Qed.
Lemma map_chars_words f d s :
  map_chars (λ c, if bool_decide (c = "_"%char) then d else f c) s = String.concat (String d "") (map_chars f <$> words s).
Proof.
  induction s as [|c s IH]; [done|]. cbn [words map_chars]. destruct (words_cons s) as (w & ws & Hw). rewrite IH, Hw. case_bool_decide as Hc.
  - by rewrite (fmap_cons _ ""), (concat_cons _ _ (_ <$> _)).
  - rewrite !fmap_cons, !concat_cons. done.
Qed.
Lemma map_chars_id s : map_chars (λ c, c) s = s.
Proof. induction s as [|c s IH]; [done|]. cbn. by rewrite IH. Qed.
Lemma map_chars_ext f g s : (∀ c, f c = g c) → map_chars f s = map_chars g s.
Proof. intros Hfg. induction s as [|c s IH]; [done|]. cbn. by rewrite Hfg, IH. Qed.
Lemma to_pascal_words s : ∀ w ws, words s = w :: ws →
  to_pascal false s = w +:+ String.concat "" (capitalized <$> ws) ∧ to_pascal true s = capitalized w +:+ String.concat "" (capitalized <$> ws).
Proof.
  assert (Hcat : ∀ w ws, String.concat "" (w :: ws) = w +:+ String.concat "" ws) by (intros w [|w' ws]; [cbn; by rewrite str_app_nil_r|done]).
  induction s as [|c s IH]; intros w ws; cbn [words]; [intros [= <- <-]; done|]. destruct (words_cons s) as (w' & ws' & Hw). specialize (IH _ _ Hw) as [IHf IHt].
  rewrite Hw. cbn [to_pascal]. case_bool_decide as Hc.
  - intros [= <- <-]. rewrite fmap_cons, Hcat, IHt. done.
  - intros [= <- <-]. by rewrite IHf.
Qed.
Lemma apply_to_field_named r ident : apply_to_field r ident = named_by (Some r) ident.
Proof.
  assert (Hid : String.concat "_" (words ident) = ident).
  { rewrite <- (map_chars_id ident) at 2. rewrite <- (list_fmap_id (words ident)), (map_chars_ext _ (λ c, if bool_decide (c = "_"%char) then "_"%char else c)).
    - rewrite map_chars_words. f_equal. apply list_fmap_ext. intros. by rewrite map_chars_id.
    - intros c. by case_bool_decide. }
  assert (Hdash : dashes ident = String.concat "-" (words ident)).
  { unfold dashes, dash_char. rewrite (map_chars_words (λ c, c)). f_equal. rewrite <- (list_fmap_id (words ident)) at 2. apply list_fmap_ext. intros. apply map_chars_id. }
  assert (Hup : to_ascii_uppercase ident = String.concat "_" (to_ascii_uppercase <$> words ident)).
  { unfold to_ascii_uppercase. rewrite <- map_chars_words. apply map_chars_ext. intros c. case_bool_decide as Hc; [by subst|done]. }
  assert (Hupdash : dashes (to_ascii_uppercase ident) = String.concat "-" (to_ascii_uppercase <$> words ident)).
  { unfold dashes, to_ascii_uppercase. rewrite map_chars_comp, <- map_chars_words. apply map_chars_ext. intros c. cbn. by every_char c. }
  assert (Hpas : to_pascal true ident = String.concat "" (capitalized <$> words ident)).
  { destruct (words_cons ident) as (w & ws & Hw). destruct (to_pascal_words ident w ws Hw) as [_ ->]. rewrite Hw, fmap_cons, concat_cons. by destruct (capitalized <$> ws). }
  destruct r; cbn [apply_to_field named_by]; rewrite ?Hid, ?Hdash, ?Hupdash, ?Hup, ?Hpas; done.
Qed.
Lemma field_serde_name_reads attrs rest f key :
  written "rename" rest = written "rename" (fd_attrs f) → unraw (fd_ident f) = fd_ident f →
  field_serde_name rest (fd_ident f) (section_rule attrs) = Ok key → serde_reads attrs f key.
Proof.
  intros Hrest Hraw. unfold field_serde_name, renamed, serde_reads. rewrite Hraw. destruct (serde_rename rest) as [[name|]|] eqn:Hn; [| |done];
    apply serde_string_arg_spec in Hn; rewrite Hrest in Hn.
  - intros [= <-]. left. symmetry in Hn. by apply last_Some_elem_of.
  - symmetry in Hn. apply last_None in Hn. intros Hk. right. split; [done|].
    destruct (section_rule attrs) as [r|]; [|by injection Hk as <-]. rewrite <- apply_to_field_named. by destruct (apply_to_field r _); [injection Hk as <-|].
Qed.
Lemma take_first_spec {A} (p : ConfigAttr → option A) attrs :
  match take_first p attrs with
  | (Some x, rest) => ∃ before a after, attrs = before ++ a :: after ∧ p a = Some x ∧ omap p before = [] ∧ rest = before ++ after
  | (None, _) => omap p attrs = []
  end.
Proof.
  induction attrs as [|a attrs IH]; [done|]. cbn [take_first]. destruct (p a) as [x|] eqn:Hp; [by exists [], a, attrs|].
  destruct (take_first p attrs) as [[x|] rest]; [|cbn; by rewrite Hp].
  destruct IH as (before & a' & after & -> & Ha & Hb & ->). exists (a :: before), a', after. cbn. by rewrite Hp.
Qed.
Lemma take_default_spec f lit rest : take_default_attr (fd_attrs f) = Ok (Some lit, rest) →
  declares_default f lit ∧ written "rename" rest = written "rename" (fd_attrs f).
Proof.
  unfold take_default_attr, declares_default. pose proof (take_first_spec default_form (fd_attrs f)) as H.
  destruct (take_first default_form (fd_attrs f)) as [[[|s| |]|] rest']; try done. intros [= -> ->].
  destruct H as (before & a & after & -> & Ha & Hb & ->). destruct a; try done. injection Ha as ->. split; [by exists before, after|].
  unfold written. by rewrite !bind_app.
Qed.
Lemma declared_is_named f lit fields rule l : named_defaults fields rule = Ok l → f ∈ fields → declares_default f lit → ∃ key, named_default rule f key lit.
Proof.
  intros Hl Hf (before & after & Hattrs & Hb).
  assert (Htake : ∃ rest, take_default_attr (fd_attrs f) = Ok (Some lit, rest)).
  { unfold take_default_attr. pose proof (take_first_spec default_form (fd_attrs f)) as H. rewrite Hattrs in H |- *.
    assert (take_first default_form (before ++ ADefaulted (DStr lit) :: after) = (Some (DStr lit), before ++ after)) as ->; [|by eexists].
    clear -Hb. induction before as [|a before IH]; [done|]. cbn in Hb |- *. destruct (default_form a); [done|]. by rewrite IH. }
  destruct Htake as [rest Htake]. unfold named_default. setoid_rewrite Htake. clear Hattrs. revert l Hl Hf.
  induction fields as [|g fields IH]; intros l Hl Hf; [by apply not_elem_of_nil in Hf|]. cbn [named_defaults] in Hl. apply elem_of_cons in Hf as [<-|Hf].
  - rewrite Htake in Hl. destruct (field_serde_name rest (fd_ident f) rule) as [key|] eqn:Hk; [|done]. by exists key, rest.
  - destruct (take_default_attr (fd_attrs g)) as [[[?|] ?]|]; [| |done]; [|by eapply IH].
    destruct (field_serde_name _ _ _); [|done]. destruct (named_defaults fields rule) as [l'|]; [|done]. by eapply IH.
Qed.

(** C32: a default lands under the name its field is read from. Filling the section of a
    struct without raw identifiers leaves what is configured; what is added is the
    default of a field, under a key that serde reads that field from; and every field
    with a default has a value under such a key, its own default when the key was absent
    and no other default is for it. *)
Theorem default_lands_under_its_name attrs fields spec es v' :
  (∀ f, f ∈ fields → unraw (fd_ident f) = fd_ident f) →
  build_defaults attrs (DataStruct (FNamed fields)) = Ok spec → fill_missing spec (CTable es) = (Ok tt, v') →
  ∃ es', v' = CTable es' ∧ (∀ k v, assoc_find k es = Some v → assoc_find k es' = Some v) ∧
    (∀ k v, assoc_find k es = None → assoc_find k es' = Some v →
       ∃ f lit, f ∈ fields ∧ declares_default f lit ∧ serde_reads attrs f k ∧ default_value lit false = Ok v) ∧
    (∀ f lit, f ∈ fields → declares_default f lit →
       ∃ k, serde_reads attrs f k ∧ is_Some (assoc_find k es') ∧
         (assoc_find k es = None → (∀ g lit', g ∈ fields → declares_default g lit' → serde_reads attrs g k → lit' = lit) →
          assoc_find k es' = result_ok (default_value lit false))).
Proof.
  intros Hraw Hb Hfill. unfold build_defaults in Hb. destruct (serde_rename_all attrs "rename_all") as [rule|] eqn:Hrule; [|done].
  apply section_rule_spec in Hrule as ->. destruct (serde_rename_all attrs "rename_all_fields"); [|done]. destruct (enum_tag attrs); [|done].
  cbn [take_field_defaults] in Hb. destruct (named_defaults fields (section_rule attrs)) as [l|] eqn:Hl; [|done]. pose proof (named_defaults_spec _ _ _ Hl) as Hspec. cbn [result_map] in Hb.
  assert (Hmeans : ∀ f k lit, f ∈ fields → named_default (section_rule attrs) f k lit → declares_default f lit ∧ serde_reads attrs f k).
  { intros f k lit Hf (rest & Ht%take_default_spec & Hk). destruct Ht as [Hd Hw]. split; [done|]. by eapply field_serde_name_reads; [|apply Hraw|]. }
  assert (Hes : ∃ es', v' = CTable es' ∧ fill_entries l false es = (Ok tt, es')).
  { destruct l as [|d l]; injection Hb as <-; [injection Hfill as <-; by exists es|]. cbn [fill_missing] in Hfill. unfold fill_fields, on_table in Hfill.
    destruct (fill_entries (d :: l) false es) as [r es'] eqn:He. injection Hfill as -> <-. by exists es'. }
  destruct Hes as (es' & -> & Hes). exists es'. split; [done|]. split; [|split].
  - intros k v Hk. by rewrite (fill_entries_find _ _ _ _ k Hes), Hk.
  - intros k v Hk Hv. rewrite (fill_entries_find _ _ _ _ k Hes), Hk in Hv. destruct (assoc_find k l) as [lit|] eqn:Hlit; [|done].
    apply assoc_find_Some_in, Hspec in Hlit as (f & Hf & Hd). exists f, lit. split; [done|]. destruct (Hmeans _ _ _ Hf Hd) as [? ?].
    split; [done|]. split; [done|]. cbn in Hv. by destruct (default_value lit false); [injection Hv as ->|].
  - intros f lit Hf Hd. destruct (declared_is_named _ _ _ _ _ Hl Hf Hd) as [k Hn]. exists k. destruct (Hmeans _ _ _ Hf Hn) as [_ Hreads].
    assert (Hin : (k, lit) ∈ l) by (apply Hspec; by exists f).
    assert (Hp : is_Some (assoc_find k es')) by (apply (fill_entries_present _ _ _ _ k Hes); by apply (list_elem_of_fmap_2 fst) in Hin).
    split; [done|]. split; [done|]. intros Hk Hsole.
    assert (Hlit : assoc_find k l = Some lit).
    { destruct (assoc_find k l) as [lit'|] eqn:Hlit.
      - apply assoc_find_Some_in, Hspec in Hlit as (g & Hg & Hdg). f_equal. destruct (Hmeans _ _ _ Hg Hdg). by eapply Hsole.
      - apply assoc_find_None in Hlit. destruct Hlit. by apply (list_elem_of_fmap_2 fst) in Hin. }
    by rewrite (fill_entries_find _ _ _ _ k Hes), Hk, Hlit.
Qed.

(** ** The default variant of an enum *)

Definition marked (v : Variant) : option (bool * list ConfigAttr) := result_ok (take_variant_default_marker (v_attrs v)).
Definition variant_key (rule : option RenameRule) (v : Variant) : option string := m ← marked v; result_ok (variant_serde_name v m.2 rule).
Definition default_of (rule : option RenameRule) (v : Variant) : option (string * bool) :=
  m ← marked v; k ← variant_key rule v; if m.1 : bool then Some (k, is_unit (v_fields v)) else None.
Definition defaults_of (rule rule_fields : option RenameRule) (v : Variant) : option VariantDefault :=
  m ← marked v; k ← variant_key rule v; own ← result_ok (serde_rename_all m.2 "rename_all");
  l ← result_ok (take_field_defaults (v_fields v) (or_else own rule_fields)); match l with [] => None | _ => Some (k, l) end.
Lemma scan_variants_spec rule rule_fields vs d l d' l' : scan_variants rule rule_fields (d, l) vs = Ok (d', l') →
  option_list d' = option_list d ++ omap (default_of rule) vs ∧ l' = l ++ omap (defaults_of rule rule_fields) vs.
Proof.
  revert d l. induction vs as [|v vs IH]; intros d l; cbn [scan_variants omap list_omap]; [intros [= <- <-]; by rewrite !app_nil_r|].
  destruct (scan_variant _ _ _ v) as [[d1 l1]|] eqn:Hv; [|done]. intros [Hd Hl]%IH. unfold scan_variant in Hv. unfold default_of at 1, defaults_of at 1, variant_key, marked.
  destruct (take_variant_default_marker (v_attrs v)) as [[b rest]|]; [|done]. cbn [result_ok mbind option_bind fst snd].
  destruct (variant_serde_name v rest rule) as [key|]; [|done]. destruct (serde_rename_all rest "rename_all") as [own|]; [|done].
  cbn [result_ok mbind option_bind fst snd]. destruct (take_field_defaults _ _) as [fs|]; [|done]. cbn [result_ok mbind option_bind fst snd] in *. split.
  - rewrite Hd. destruct b; [destruct d; [done|]|]; injection Hv as <- _; done.
  - rewrite Hl. assert (l1 = l ++ match fs with [] => [] | _ => [(key, fs)] end) as -> by (destruct b; [destruct d; [done|]|]; by injection Hv as _ <-).
    by destruct fs; rewrite ?app_nil_r, <- ?app_assoc.
Qed.
(** an enum has one default variant, in the shape serde reads. Of an accepted enum at
    most one variant is marked; its defaults are those of its variants, each under the
    tag serde reads it from; and a section that names no variant is given the marked one,
    as its bare tag or as a table under it, or with its tag beside its fields. *)
Theorem default_variant_is_the_marked_one attrs vs rule spec :
  serde_rename_all attrs "rename_all" = Ok rule → build_defaults attrs (DataEnum vs) = Ok spec →
  ∃ rule_fields tagging, serde_rename_all attrs "rename_all_fields" = Ok rule_fields ∧ enum_tag attrs = Ok tagging ∧
    (length (omap (default_of rule) vs) ≤ 1)%nat ∧
    (spec = DefaultNone ∨ spec = DefaultVariants tagging (head (omap (default_of rule) vs)) (omap (defaults_of rule rule_fields) vs)) ∧
    (spec = DefaultNone → omap (default_of rule) vs = [] ∧ omap (defaults_of rule rule_fields) vs = []) ∧
    (∀ tag, omap (default_of rule) vs = [(tag, true)] → tagging = External → (fill_missing spec (CTable [])) = match parsed_str tag with Ok s => (Ok tt, s) | Err e => (Err e, CTable []) end) ∧
    (∀ tag, omap (default_of rule) vs = [(tag, false)] → tagging = External → ∀ v', fill_missing spec (CTable []) = (Ok tt, v') →
       ∃ inner, v' = CTable [(tag, inner)] ∧ (assoc_find tag (omap (defaults_of rule rule_fields) vs) = None → inner = CTable [])).
Proof.
  intros Hrule. unfold build_defaults. rewrite Hrule. destruct (serde_rename_all attrs "rename_all_fields") as [rule_fields|]; [|done]. destruct (enum_tag attrs) as [tagging|]; [|done].
  destruct (scan_variants rule rule_fields (None, []) vs) as [[d l]|] eqn:Hs; [|done]. apply scan_variants_spec in Hs as [Hd Hl]. cbn in Hd, Hl. cbn [result_map]. intros Hspec.
  exists rule_fields, tagging. split; [done|]. split; [done|]. rewrite <- Hd, <- Hl.
  assert (Hcases : spec = DefaultNone ∧ d = None ∧ l = [] ∨ spec = DefaultVariants tagging d l) by (destruct d, l; injection Hspec as <-; first [by left|by right]).
  split; [by destruct d; cbn; lia|]. split; [destruct Hcases as [(-> & _)| ->]; [by left|right; by destruct d]|].
  split; [intros ->; destruct Hcases as [(_ & -> & ->)|]; done|].
  destruct Hcases as [(-> & -> & ->)| ->]; [done|]. split; intros tag Ht ->; (destruct d as [[tag0 u]|]; [injection Ht as -> ->|done]).
  - cbn. unfold fill_external. destruct (parsed_str tag); done.
  - intros v'. cbn [fill_missing]. unfold fill_variants, fill_external, variant_fields. destruct (assoc_find tag l) as [fs|]; cbn.
    + destruct (fill_entries fs false []) as [[[]|e] es]; [|done]. intros [= <-]. by exists (CTable es).
    + intros [= <-]. by exists (CTable []).
Qed.

(** ** Concrete types *)

Definition g_field (ident : string) (attrs : list ConfigAttr) : FieldDecl := mkFieldDecl ident attrs.
Definition g_kebab : list ConfigAttr := [ASerde [("rename_all", SStr "kebab-case"); ("deny_unknown_fields", SFlag)]].
Definition g_fields : list FieldDecl :=
  [g_field "bind_port" [ADefaulted (DStr "8080")]; g_field "host" [ASerde [("rename", SGroup [("serialize", Some "h"); ("deserialize", Some "host-name")])]; ADefaulted (DStr "${env.HOST}")];
   g_field "timeout" [ASerde [("alias", SStr "timeout_secs")]; ADefaulted (DStr "30")]; g_field "name" []].
Definition g_variants : list Variant :=
  [mkVariant "Tcp" [] (FNamed [g_field "port" [ADefaulted (DStr "1")]]); mkVariant "UnixSocket" [ACfgAttr (Some [MOther "unix"; MDefault; MOther "doc"])] FUnit].
Definition g_parse (ts : list Token) : result (ConfigArgs (Path := string)) MacroError := ConfigArgs_parse MacroComponent.parse_ident ts.

Example config_samples :
  build_defaults g_kebab (DataStruct (FNamed g_fields)) = Ok (DefaultFields [("bind-port", "8080"); ("host-name", "${env.HOST}"); ("timeout", "30")]) ∧
  build_defaults g_kebab (DataEnum g_variants) = Ok (DefaultVariants External (Some ("unix-socket", true)) [("tcp", [("port", "1")])]) ∧
  build_defaults [ASerde [("tag", SStr "kind"); ("content", SStr "data")]] (DataEnum g_variants) = Ok (DefaultVariants (Adjacent "kind" "data") (Some ("UnixSocket", true)) [("Tcp", [("port", "1")])]) ∧
  build_defaults [] (DataEnum [mkVariant "A" [] FUnit]) = Ok DefaultNone ∧ build_defaults [] DataUnion = Err UnionRefused ∧
  build_defaults [] (DataStruct (FUnnamed [[ADefaulted (DStr "1")]])) = Err DefaultOnTuple ∧ build_defaults [] (DataStruct (FNamed [g_field "a" [ADefaulted DBare]])) = Err DefaultNotWritten ∧
  build_defaults [] (DataEnum [mkVariant "A" [ADefaulted (DStr "x")] FUnit]) = Err VariantDefaultValue ∧
  take_default_from_cfg_attr [MOther "unix"; MDefault] = Some None ∧ apply_to_field CamelCase "max_open_files" = Some "maxOpenFiles" ∧ apply_to_field CamelCase "__" = None ∧
  apply_to_variant SnakeCase "HTTPServer" = Some "h_t_t_p_server" ∧ apply_to_variant ScreamingKebabCase "UnixSocket" = Some "UNIX-SOCKET" ∧
  g_parse [KIdent "path"; KEq; KStr "app.db"; KComma; KIdent "name"; KEq; KStr "Db"] = Ok (mkConfigArgs (Some "Db") (Some "app.db") None None) ∧ g_parse [KIdent "paths"; KEq; KStr "x"] = Err Syntax.
Proof. vm_compute. repeat split. Qed.

Lemma renamed_variant_read_back_witness : ∃ n, apply_to_variant ScreamingKebabCase "UnixSocket" = Some n ∧ read_variant ScreamingKebabCase n = "UnixSocket".
Proof. apply renamed_variant_read_back; [by split|done|done]. Defined.
Definition g_section : entries_t := [("host-name", CInt 1)].
Definition g_filled : ConfigValue := (fill_missing (DefaultFields [("bind-port", "8080"); ("host-name", "${env.HOST}"); ("timeout", "30")]) (CTable g_section)).2.
Lemma default_lands_under_its_name_witness :
  build_defaults g_kebab (DataStruct (FNamed g_fields)) = Ok (DefaultFields [("bind-port", "8080"); ("host-name", "${env.HOST}"); ("timeout", "30")]) ∧
  ∃ es', g_filled = CTable es' ∧ assoc_find "host-name" es' = Some (CInt 1) ∧
    ∃ k, serde_reads g_kebab (g_field "bind_port" [ADefaulted (DStr "8080")]) k ∧ is_Some (assoc_find k es').
Proof.
  split; [reflexivity|].
  destruct (default_lands_under_its_name g_kebab g_fields (DefaultFields [("bind-port", "8080"); ("host-name", "${env.HOST}"); ("timeout", "30")]) g_section g_filled)
    as (es' & He & Hkeep & _ & Hnew); [|reflexivity|reflexivity|].
  { intros f Hf. unfold g_fields in Hf. repeat (apply elem_of_cons in Hf as [->|Hf]; [reflexivity|]). by apply not_elem_of_nil in Hf. }
  exists es'. split; [exact He|]. split; [by apply Hkeep|].
  destruct (Hnew (g_field "bind_port" [ADefaulted (DStr "8080")]) "8080") as (k & Hk & Hs & _); [by left|by exists [], []|].
  exists k. split; [exact Hk|exact Hs].
Defined.
(** The default of a field with a raw identifier lands under a key that serde does not read:
    the field stays without a value. *)
Theorem raw_field_default_is_lost :
  let f := g_field "r#type" [ADefaulted (DStr "tcp")] in
  (build_defaults [] (DataStruct (FNamed [f])) = Ok (DefaultFields [("r#type", "tcp")])) ∧ serde_reads [] f "type" ∧ ¬ serde_reads [] f "r#type".
Proof.
  split; [reflexivity|]. split; [by right|]. intros [H|[_ H]]; [by apply not_elem_of_nil in H|vm_compute in H; discriminate H].
Qed.
Lemma default_variant_is_the_marked_one_witness :
  fill_missing (DefaultVariants External (Some ("unix-socket", true)) [("tcp", [("port", "1")])]) (CTable []) = match parsed_str "unix-socket" with Ok s => (Ok tt, s) | Err e => (Err e, CTable []) end.
Proof.
  destruct (default_variant_is_the_marked_one g_kebab g_variants (Some KebabCase) (DefaultVariants External (Some ("unix-socket", true)) [("tcp", [("port", "1")])]) eq_refl eq_refl)
    as (rf & t & _ & Ht & _ & _ & _ & Hunit & _). vm_compute in Ht. injection Ht as <-. by apply Hunit.
Defined.

(** An alias is not looked at: a field that the file gives under its alias gets its
    default as well, and the section then has it twice. *)
Theorem aliased_field_is_given_twice :
  ∃ es', fill_missing (DefaultFields [("bind-port", "8080"); ("host-name", "${env.HOST}"); ("timeout", "30")]) (CTable [("timeout_secs", CInt 5)]) = (Ok tt, CTable es') ∧
    assoc_find "timeout_secs" es' = Some (CInt 5) ∧ is_Some (assoc_find "timeout" es').
Proof. eexists. split; [reflexivity|]. split; [done|by eexists]. Qed.
(** A default for each platform is refused, although no two of them are ever compiled
    together. *)
Theorem one_default_for_all_platforms :
  build_defaults [] (DataEnum [mkVariant "Unix" [ACfgAttr (Some [MOther "unix"; MDefault])] FUnit; mkVariant "Pipe" [ACfgAttr (Some [MOther "windows"; MDefault])] FUnit]) = Err TwoDefaults.
Proof. reflexivity. Qed.
(** The key [crate] is never read. *)
Theorem config_crate_key_is_refused rest : g_parse (KOther "crate" :: rest) = Err Syntax.
Proof. reflexivity. Qed.
