(* ===== verification/MacroJobs.v ===== *)
(** * MacroJobs: the jobs of an annotated [impl] block

    Models [crates/jobs-macros/src/jobs.rs]: the arguments of [#[job]], the options they
    become, what is read of a method, and the extension [Jobs] of the walk of
    [MacroMethods]. A job that is accepted is the descriptor that [JobScheduler] starts
    and the call that runs the method; [run_job] is what that call computes.

    - [humantime] parses durations, to nanoseconds; it is an argument.
    - The [FromContainer] of a parameter's type is an argument; those of the injectable
      shapes are in [DiContainer]. The world may change between any two resolutions. *)
From S2P Require Import Prelude CoreTypes DiTypes DiRegistry DiSort DiContainer DiScope DiHandles.
From S2P Require Import MacroTopics MacroSyn MacroComponent MacroRpc MacroMethods JobSchedule JobEntry JobRun JobScheduler.

(** ** The attribute *)

Inductive JobKind := JInterval | JCron.
(** [variant] *)
Definition kind_variant (k : JobKind) : ScheduleKind := match k with JInterval => Interval | JCron => CronKind end.

(** [RawOptions] *)
Record RawOptions := mkRaw {
  o_run_on_startup : bool; o_timeout : option string; o_jitter : option string; o_max_runtime : option string;
  o_overlap : option string; o_timezone : option string }.
Definition raw_default : RawOptions := mkRaw false None None None None None.
Definition set_startup (b : bool) (r : RawOptions) : RawOptions := mkRaw b (o_timeout r) (o_jitter r) (o_max_runtime r) (o_overlap r) (o_timezone r).
Definition set_timeout (v : string) (r : RawOptions) : RawOptions := mkRaw (o_run_on_startup r) (Some v) (o_jitter r) (o_max_runtime r) (o_overlap r) (o_timezone r).
Definition set_jitter (v : string) (r : RawOptions) : RawOptions := mkRaw (o_run_on_startup r) (o_timeout r) (Some v) (o_max_runtime r) (o_overlap r) (o_timezone r).
Definition set_max_runtime (v : string) (r : RawOptions) : RawOptions := mkRaw (o_run_on_startup r) (o_timeout r) (o_jitter r) (Some v) (o_overlap r) (o_timezone r).
Definition set_overlap (v : string) (r : RawOptions) : RawOptions := mkRaw (o_run_on_startup r) (o_timeout r) (o_jitter r) (o_max_runtime r) (Some v) (o_timezone r).
Definition set_timezone (v : string) (r : RawOptions) : RawOptions := mkRaw (o_run_on_startup r) (o_timeout r) (o_jitter r) (o_max_runtime r) (o_overlap r) (Some v).

Definition j_ident : Parser JobMacroError string := λ ts, match ts with KIdent n :: ts' => Ok (n, ts') | _ => Err JobSyntax end.
Definition j_str : Parser JobMacroError string := λ ts, match ts with KStr s :: ts' => Ok (s, ts') | _ => Err JobSyntax end.
Definition j_bool : Parser JobMacroError bool := λ ts, match ts with KBool b :: ts' => Ok (b, ts') | _ => Err JobSyntax end.
(** What follows the [=] of an option. *)
Definition option_value (name : string) (raw : RawOptions) (ts : list Token) : result (RawOptions * list Token) JobMacroError :=
  let string_into set := result_map (λ r, (set r.1 raw, r.2)) (j_str ts) in
  let ident_into set := result_map (λ r, (set r.1 raw, r.2)) (j_ident ts) in
  if bool_decide (name = "timeout") then string_into set_timeout
  else if bool_decide (name = "jitter") then string_into set_jitter
  else if bool_decide (name = "max_runtime") then string_into set_max_runtime
  else if bool_decide (name = "overlap") then ident_into set_overlap
  else if bool_decide (name = "tz") || bool_decide (name = "timezone") then ident_into set_timezone
  else Err UnknownOption.
(** [parse_option] *)
Definition parse_option (ts : list Token) (raw : RawOptions) : result (RawOptions * list Token) JobMacroError :=
  match j_ident ts with
  | Err e => Err e
  | Ok (name, ts') =>
      if bool_decide (name = "run_on_startup") then
        match ts' with
        | KEq :: ts'' => result_map (λ r, (set_startup r.1 raw, r.2)) (j_bool ts'')
        | _ => Ok (set_startup true raw, ts')
        end
      else match ts' with KEq :: ts'' => option_value name raw ts'' | _ => Err JobSyntax end
  end.
(** The loop over the options; it ends with the tokens. *)
Fixpoint parse_options (fuel : nat) (ts : list Token) (raw : RawOptions) : result RawOptions JobMacroError :=
  match fuel, ts with
  | _, [] => Ok raw
  | O, _ => Err JobSyntax
  | S _, [KComma] => Ok raw
  | S fuel', KComma :: ts' => match parse_option ts' raw with Err e => Err e | Ok (raw', rest) => parse_options fuel' rest raw' end
  | S _, _ => Err JobSyntax
  end.
(** The schedule, then the options; [JobArgs] before the options are lowered. *)
Definition parse_schedule (ts : list Token) : result (JobKind * string * list Token) JobMacroError :=
  match ts with
  | KIdent key :: KEq :: KStr schedule :: rest =>
      if bool_decide (key = "every") then Ok (JInterval, schedule, rest)
      else if bool_decide (key = "cron") then Ok (JCron, schedule, rest)
      else Err NeitherEveryNorCron
  | _ => Err JobSyntax
  end.

Section Lowering.
Context {DurationError : Type} (parse_duration : string → result Z DurationError).
(** [optional_duration] *)
Definition optional_duration (lit : option string) : result (option Z) JobMacroError :=
  match lit with
  | None => Ok None
  | Some text =>
      match parse_duration text with
      | Err _ => Err InvalidDuration
      | Ok nanos => if nanos <? 2 ^ 64 then Ok (Some nanos) else Err DurationTooLarge
      end
  end.
(** The emitted paths [OverlapPolicy::#variant] and [JobTimezone::#variant]: an unknown
    one does not compile. *)
Definition overlap_variant (name : string) : result OverlapPolicy JobMacroError :=
  if bool_decide (name = "Skip") then Ok Skip
  else if bool_decide (name = "QueueOne") then Ok QueueOne
  else if bool_decide (name = "Allow") then Ok Allow
  else if bool_decide (name = "CancelPrevious") then Ok CancelPrevious
  else Err UnknownVariant.
Definition timezone_variant (name : string) : result JobTimezone JobMacroError :=
  if bool_decide (name = "Utc") then Ok Utc else if bool_decide (name = "Local") then Ok Local else Err UnknownVariant.
(** [build_options] *)
Definition build_options (raw : RawOptions) : result JobOptions JobMacroError :=
  match optional_duration (o_timeout raw) with Err e => Err e | Ok timeout =>
  match optional_duration (o_jitter raw) with Err e => Err e | Ok jitter =>
  match optional_duration (o_max_runtime raw) with Err e => Err e | Ok max_runtime =>
  match match o_overlap raw with Some v => overlap_variant v | None => Ok Skip end with Err e => Err e | Ok overlap =>
  match match o_timezone raw with Some v => result_map Some (timezone_variant v) | None => Ok None end with Err e => Err e | Ok timezone =>
    Ok (mkOptions (o_run_on_startup raw) timeout jitter overlap max_runtime timezone)
  end end end end end.
(** [JobArgs] and [parse_job_args] *)
Record JobArgs := mkJobArgs { ja_kind : JobKind; ja_schedule : string; ja_options : JobOptions }.
Definition parse_job_args (content : option (list Token)) : result JobArgs JobMacroError :=
  match content with
  | None => Err NotAList
  | Some ts =>
      match parse_schedule ts with
      | Err e => Err e
      | Ok (kind, schedule, rest) =>
          match parse_options (S (length rest)) rest raw_default with
          | Err e => Err e
          | Ok raw => result_map (mkJobArgs kind schedule) (build_options raw)
          end
      end
  end.

(** ** The attribute means what is written *)

(** An option as it is written; [run_on_startup] may be a bare flag, and [tz] is
    [timezone]. *)
Inductive JobOption :=
| OpStartup (value : option bool) | OpTimeout (v : string) | OpJitter (v : string) | OpMaxRuntime (v : string)
| OpOverlap (v : string) | OpTimezone (short : bool) (v : string).
Definition print_option (o : JobOption) : list Token :=
  match o with
  | OpStartup None => [KIdent "run_on_startup"]
  | OpStartup (Some b) => [KIdent "run_on_startup"; KEq; KBool b]
  | OpTimeout v => [KIdent "timeout"; KEq; KStr v]
  | OpJitter v => [KIdent "jitter"; KEq; KStr v]
  | OpMaxRuntime v => [KIdent "max_runtime"; KEq; KStr v]
  | OpOverlap v => [KIdent "overlap"; KEq; KIdent v]
  | OpTimezone short v => [KIdent (if short then "tz" else "timezone"); KEq; KIdent v]
  end.
Definition apply_option (raw : RawOptions) (o : JobOption) : RawOptions :=
  match o with
  | OpStartup value => set_startup (from_option (λ b, b) true value) raw
  | OpTimeout v => set_timeout v raw
  | OpJitter v => set_jitter v raw
  | OpMaxRuntime v => set_max_runtime v raw
  | OpOverlap v => set_overlap v raw
  | OpTimezone _ v => set_timezone v raw
  end.
Definition kind_key (k : JobKind) : string := match k with JInterval => "every" | JCron => "cron" end.
Definition print_options (opts : list JobOption) (trailing : bool) : list Token :=
  flat_map (λ o, KComma :: print_option o) opts ++ (if trailing then [KComma] else []).
Definition print_job (k : JobKind) (schedule : string) (opts : list JobOption) (trailing : bool) : list Token :=
  KIdent (kind_key k) :: KEq :: KStr schedule :: print_options opts trailing.

Lemma parse_option_print o raw rest : follows rest → parse_option (print_option o ++ rest) raw = Ok (apply_option raw o, rest).
Proof. intros Hr. destruct o as [[b|]| | | | |[]]; try reflexivity. destruct Hr as [-> | [r ->]]; reflexivity. Qed.
Lemma option_value_inv name raw ts raw' rest : option_value name raw ts = Ok (raw', rest) →
  ∃ o, KIdent name :: KEq :: ts = print_option o ++ rest ∧ raw' = apply_option raw o.
Proof.
  unfold option_value, j_str, j_ident. intros Hv.
  repeat (case_bool_decide; [subst; destruct ts as [|[] ts]; try discriminate Hv; injection Hv as <- <-|]);
    [by eexists (OpTimeout _)|by eexists (OpJitter _)|by eexists (OpMaxRuntime _)|by eexists (OpOverlap _)|by eexists (OpTimezone true _)|by eexists (OpTimezone false _)|done].
Qed.
Lemma parse_option_inv ts raw raw' rest : parse_option ts raw = Ok (raw', rest) → ∃ o, ts = print_option o ++ rest ∧ raw' = apply_option raw o.
Proof.
  unfold parse_option, j_ident. destruct ts as [|[name| | | | | | | | |] ts]; try done. case_bool_decide as Hn.
  - subst name. destruct ts as [|[] ts]; try (intros [= <- <-]; by exists (OpStartup None)).
    destruct ts as [|[] ts]; try done. intros [= <- <-]. by exists (OpStartup (Some b)).
  - destruct ts as [|[] ts]; try done. apply option_value_inv.
Qed.
Lemma print_options_follows opts trailing : follows (print_options opts trailing).
Proof. destruct opts; [destruct trailing; [right; by eexists|by left]|right; by eexists]. Qed.
Lemma print_option_ne o : print_option o ≠ [].
Proof. by destruct o as [[]| | | | |]. Qed.
Lemma parse_options_print fuel opts trailing raw : (length (print_options opts trailing) < fuel)%nat →
  parse_options fuel (print_options opts trailing) raw = Ok (foldl apply_option raw opts).
Proof.
  revert fuel raw. induction opts as [|o opts IH]; intros [|fuel] raw Hf; try lia; [by destruct trailing|].
  change (print_options (o :: opts) trailing) with (KComma :: (print_option o ++ flat_map (λ o, KComma :: print_option o) opts) ++ (if trailing then [KComma] else [])) in *.
  rewrite <- app_assoc in *. fold (print_options opts trailing) in *. cbn [parse_options].
  destruct (print_option o ++ print_options opts trailing) as [|t ts] eqn:He; [apply app_eq_nil in He as [He _]; by destruct (print_option_ne o)|].
  rewrite <- He, parse_option_print by apply print_options_follows. cbn [foldl]. apply IH. cbn [length] in Hf. pose proof (f_equal length He) as Hl. rewrite length_app in Hl. cbn [length] in Hl. lia.
Qed.
Lemma parse_options_inv fuel ts raw raw' : parse_options fuel ts raw = Ok raw' → ∃ opts trailing, ts = print_options opts trailing ∧ raw' = foldl apply_option raw opts.
Proof.
  revert ts raw. induction fuel as [|fuel IH]; intros [|t ts] raw; cbn [parse_options]; try done; try (intros [= <-]; by exists [], false).
  destruct t; try done. destruct ts as [|t ts]; [intros [= <-]; by exists [], true|].
  destruct (parse_option (t :: ts) raw) as [[raw1 rest]|e] eqn:Ho; [|done]. intros (opts & trailing & -> & ->)%IH.
  apply parse_option_inv in Ho as (o & -> & ->). exists (o :: opts), trailing. split; [|done].
  unfold print_options. cbn [flat_map app]. by rewrite !app_assoc.
Qed.
(** the attribute of a job means what is written. Accepted are exactly a schedule
    followed by options, in any order and with a trailing comma or without, each option
    taken at its last mention, whose durations are ones that fit 64 bits of nanoseconds
    and whose variants exist; nothing else is. *)
Theorem attribute_means_what_is_written content a :
  parse_job_args content = Ok a ↔
  ∃ k schedule opts trailing o, content = Some (print_job k schedule opts trailing) ∧
    build_options (foldl apply_option raw_default opts) = Ok o ∧ a = mkJobArgs k schedule o.
Proof.
  split.
  - destruct content as [ts|]; [|done]. unfold parse_job_args. destruct (parse_schedule ts) as [[[k schedule] rest]|e] eqn:Hs; [|done].
    destruct (parse_options _ rest raw_default) as [raw|e] eqn:Ho; [|done]. apply parse_options_inv in Ho as (opts & trailing & -> & ->).
    destruct (build_options _) as [o|e] eqn:Hb; [|done]. intros [= <-]. exists k, schedule, opts, trailing, o. split; [|done]. f_equal.
    unfold parse_schedule in Hs. destruct ts as [|[key| | | | | | | | |] [|[] [|[] ts]]]; try done.
    repeat (case_bool_decide; [subst; injection Hs as <- <- ->; reflexivity|]). done.
  - intros (k & schedule & opts & trailing & o & -> & Ho & ->). unfold parse_job_args.
    assert (parse_schedule (print_job k schedule opts trailing) = Ok (k, schedule, print_options opts trailing)) as -> by by destruct k.
    rewrite parse_options_print by lia. by rewrite Ho.
Qed.

(** ** Jobs of methods *)

Section Jobs.
Context {Ty Tok Path : Type} `{SynType Ty}.
#[local] Abbreviation ImplMethod := (ImplMethod Ty Path).

(** [is_run_context] *)
Definition is_run_context (t : Ty) : bool := bool_decide (type_name t = Some "JobRunContext").
(** How a parameter gets its argument. *)
Inductive Binding := BContext | BExtract (t : Ty).
Definition binding (t : Ty) : Binding := if is_run_context t then BContext else BExtract t.
(** What [generate_job] emits: the fields of the [JobDescriptor], and its call. *)
Record Job := mkJob { j_name : string; j_self : Ty; j_schedule : string; j_kind : ScheduleKind; j_options : JobOptions;
  j_method : string; j_bindings : list Binding; j_fallible : bool }.
Definition generate_job (self_ty : Ty) (name : string) (m : MethodSig Ty) (attr : option (list Token)) : result Job JobMacroError :=
  if negb (is_async m) then Err JobNotAsync
  else
    match parse_job_args attr with
    | Err e => Err e
    | Ok a =>
        match receiver m with
        | Some r =>
            if negb (reference r) || mutability r then Err BadJobReceiver
            else Ok (mkJob (name +:+ "::" +:+ sig_ident m) self_ty (ja_schedule a) (kind_variant (ja_kind a)) (ja_options a)
                   (sig_ident m) (binding <$> params m) (match result_type_args (sig_output m) with Some _ => true | None => false end))
        | None => Err NoReceiver
        end
    end.

(** [Jobs], with the context its item pass has left. *)
Record Jobs := mkJobs { js_self_ty : Ty; js_self_name : string; js_blocks : list Job }.
(** [parse_item]; [self_ty_ident] wants a path. *)
Definition jobs_item (self_ty : Ty) : option Jobs := (λ n, mkJobs self_ty n []) <$> type_name self_ty.
Definition first_job (m : ImplMethod) : option (option (list Token)) := first_some (λ a, match a with AJob c => Some c | _ => None end) (im_attrs m).
Definition jobs_method (j : Jobs) (m : ImplMethod) : result (Jobs * option (ClientMethod Ty Tok)) WalkError :=
  match first_job m with
  | None => Ok (j, None)
  | Some attr =>
      match generate_job (js_self_ty j) (js_self_name j) (im_sig m) attr with
      | Err e => Err (JobRefused e)
      | Ok job => Ok (mkJobs (js_self_ty j) (js_self_name j) (js_blocks j ++ [job]), None)
      end
  end.
#[local] Instance jobs_parse_method : ParseMethod Jobs := { parse_method := jobs_method }.
(** The entries of the slice [JOBS]. *)
Definition descriptor (j : Job) : JobDescriptor := mkDescriptor (j_name j) (j_schedule j) (j_kind j) (j_options j).

(** ** What a block's methods become *)

(** A method neither a hook nor the constructor is offered to the extension. *)
Definition offered (m : ImplMethod) : bool := negb (is_hook m) && negb (has_init m).
Definition is_job (m : ImplMethod) : bool := offered m && match first_job m with Some _ => true | None => false end.
Definition job_of (self_ty : Ty) (name : string) (m : ImplMethod) (j : Job) : Prop :=
  ∃ attr, first_job m = Some attr ∧ generate_job self_ty name (im_sig m) attr = Ok j.
Lemma jobs_walk (w w' : Walk (Tok := Tok) (Ext := Jobs)) (methods : list ImplMethod) : walk w methods = Ok w' →
  js_self_ty (w_ext w') = js_self_ty (w_ext w) ∧ js_self_name (w_ext w') = js_self_name (w_ext w) ∧ w_clients w' = w_clients w ∧
  ∃ js, js_blocks (w_ext w') = js_blocks (w_ext w) ++ js ∧ Forall2 (job_of (js_self_ty (w_ext w)) (js_self_name (w_ext w))) (filter is_job methods) js.
Proof.
  revert w. induction methods as [|m methods IH]; intros w; cbn [walk].
  { intros [= <-]. repeat split. exists []. by rewrite app_nil_r. }
  destruct (walk_one w m) as [w1|e] eqn:Hw; [|done]. intros (Ht & Hn & Hc & js & Hj & Hjs)%IH. rewrite Ht, Hn, Hc, Hj. clear IH Ht Hn Hc Hj.
  rewrite filter_cons_bool. unfold is_job at 1, offered, is_hook. unfold walk_one in Hw.
  destruct (first_hook m) as [[kind|]|]; [destruct (parse_hook m kind); [|done]; injection Hw as <-; cbn; eauto 6|done|].
  destruct (has_init m); [destruct (w_init w); [done|]; destruct (parse_init m); [|done]; injection Hw as <-; cbn; eauto 6|].
  unfold parse_method, jobs_parse_method, jobs_method in Hw. cbn [negb andb]. destruct (first_job m) as [attr|] eqn:Ha.
  - destruct (generate_job _ _ _ attr) as [j|e] eqn:Hj; [|done]. injection Hw as <-. cbn in *. rewrite app_nil_r. repeat split.
    exists (j :: js). rewrite <- app_assoc. split; [done|]. constructor; [by exists attr|done].
  - injection Hw as <-. cbn in *. rewrite app_nil_r. eauto 6.
Qed.

(** What an accepted job is, field by field. *)
Lemma generate_job_inv self_ty name m attr j : generate_job self_ty name m attr = Ok j →
  ∃ a, parse_job_args attr = Ok a ∧ is_async m = true ∧ (∃ r, receiver m = Some r ∧ reference r = true ∧ mutability r = false) ∧
    j = mkJob (name +:+ "::" +:+ sig_ident m) self_ty (ja_schedule a) (kind_variant (ja_kind a)) (ja_options a) (sig_ident m) (binding <$> params m)
          (match result_type_args (sig_output m) with Some _ => true | None => false end).
Proof.
  unfold generate_job. destruct (is_async m); [|done]. destruct (parse_job_args attr) as [a|]; [|done].
  destruct (receiver m) as [[[] []]|]; try done. intros [= <-]. exists a. eauto 8.
Qed.

(** ** The jobs of a block run on the scheduler *)

Section Scheduled.
Context {Cron CronError : Type} (parse_cron : string → result Cron CronError).
#[local] Abbreviation SchedulerWorld := (@JobScheduler.World Cron).
Lemma spawn_all_lookup ds scs (w : SchedulerWorld) k d sc :
  length ds = length scs → 0 ≤ next_id w → next_id w + Z.of_nat (length ds) < 2 ^ 64 → ds !! k = Some d → scs !! k = Some sc →
  jobs (spawn_all ds scs w) !! (next_id w + Z.of_nat k) =
    Some (initial (JobEntry_new (next_id w + Z.of_nat k) (metadata_named (d_name d)) sc (d_options d)) (w_run_ids w)).
Proof.
  assert (Hkeep : ∀ ds scs (w : SchedulerWorld) i, 0 ≤ next_id w → next_id w + Z.of_nat (length ds) < 2 ^ 64 → i < next_id w → jobs (spawn_all ds scs w) !! i = jobs w !! i).
  { clear. induction ds as [|d ds IH]; intros scs w i H0 Hn Hi; [done|]. destruct scs as [|sc scs]; [done|].
    change (spawn_all (d :: ds) (sc :: scs) w) with (spawn_all ds scs (spawn (metadata_named (d_name d)) sc (d_options d) w).2). cbn [length] in Hn.
    assert (word_succ (next_id w) = next_id w + 1) as Hs by (apply Z.mod_small; lia).
    rewrite IH; cbn; rewrite ?Hs; [|lia..]. by rewrite lookup_insert_ne by lia. }
  revert w ds scs. induction k as [|k IH]; intros w [|d' ds] [|sc' scs] Hl H0 Hn Hd Hsc; try done; cbn [length] in *.
  - injection Hd as ->. injection Hsc as ->. change (spawn_all _ _ w) with (spawn_all ds scs (spawn (metadata_named (d_name d)) sc (d_options d) w).2).
    assert (word_succ (next_id w) = next_id w + 1) as Hs by (apply Z.mod_small; lia).
    rewrite Z.add_0_r, Hkeep; cbn; rewrite ?Hs; [by rewrite lookup_insert_eq|lia..].
  - change (spawn_all _ _ w) with (spawn_all ds scs (spawn (metadata_named (d_name d')) sc' (d_options d') w).2).
    assert (word_succ (next_id w) = next_id w + 1) as Hs by (apply Z.mod_small; lia).
    set (w1 := (spawn (metadata_named (d_name d')) sc' (d_options d') w).2). specialize (IH w1 ds scs).
    assert (next_id w1 = next_id w + 1) as Hw1 by exact Hs. rewrite Hw1 in IH.
    replace (next_id w + Z.of_nat (S k)) with (next_id w + 1 + Z.of_nat k) by lia. apply IH; [lia..|done|done].
Qed.

(** C31: the jobs of a block run as they are written. When the scheduler starts with the jobs
    of an accepted block, each method that is marked [#[job]] is a job there, waiting to
    start, under the name of its type and its own; its schedule is the one the attribute
    gives, and its options are those the attribute lists. *)
Theorem block_is_scheduled (self_ty : Ty) js0 (methods : list ImplMethod) (walked : Walk (Tok := Tok) (Ext := Jobs)) (w w' : SchedulerWorld) n :
  jobs_item self_ty = Some js0 → expand_methods js0 methods = Ok walked →
  start parse_duration parse_cron (descriptor <$> js_blocks (w_ext walked)) w = (Ok n, w') →
  0 ≤ next_id w → next_id w + Z.of_nat (length methods) < 2 ^ 64 →
  n = length (filter is_job methods) ∧
  ∀ k m, filter is_job methods !! k = Some m →
    ∃ kind schedule opts trailing o sc,
      first_job m = Some (Some (print_job kind schedule opts trailing)) ∧ build_options (foldl apply_option raw_default opts) = Ok o ∧
      Schedule_parse parse_duration parse_cron (kind_variant kind) schedule = Ok sc ∧
      let i := next_id w + Z.of_nat k in
      jobs w' !! i = Some (initial (JobEntry_new i (metadata_named (js_self_name js0 +:+ "::" +:+ sig_ident (im_sig m))) sc o) (w_run_ids w)).
Proof.
  intros Hitem Hwalk Hstart H0 Hn. assert (js_blocks js0 = []) as Hb by (unfold jobs_item in Hitem; destruct (MacroSyn.type_name self_ty); [by injection Hitem as <-|done]).
  apply jobs_walk in Hwalk as (_ & _ & _ & js & Hj & Hjs). cbn in Hj, Hjs. rewrite Hb in Hj. cbn in Hj. rewrite Hj in Hstart. clear Hj Hb.
  pose proof (start_jobs_spec parse_duration parse_cron (descriptor <$> js) 0 w) as Hspec. unfold start in Hstart. rewrite Hstart in Hspec.
  destruct Hspec as (-> & scs & Hscs & ->). pose proof (Forall2_length _ _ _ Hjs) as Hlen. rewrite length_fmap, Hlen. split; [done|].
  intros k m Hm. destruct (Forall2_lookup_l _ _ _ _ _ Hjs Hm) as (j & Hj & attr & Ha & Hg).
  assert ((descriptor <$> js) !! k = Some (descriptor j)) as Hd by by rewrite list_lookup_fmap, Hj.
  destruct (Forall2_lookup_l _ _ _ _ _ Hscs Hd) as (sc & Hsc & Hparse).
  apply generate_job_inv in Hg as (a & Hargs & _ & _ & ->). apply attribute_means_what_is_written in Hargs as (kind & schedule & opts & trailing & o & -> & Ho & ->).
  exists kind, schedule, opts, trailing, o, sc. split; [done|]. split; [done|]. split; [exact Hparse|]. cbn.
  assert (length (filter is_job methods) ≤ length methods)%nat as Hle by apply length_filter.
  assert (length (descriptor <$> js) = length scs) as Hl by by apply Forall2_length in Hscs.
  refine (spawn_all_lookup _ _ w k _ _ Hl H0 _ Hd Hsc). rewrite length_fmap. lia.
Qed.
End Scheduled.

(** ** A run of a job *)

Section Running.
Context {V Hd Rv A Ctx E : Type}.
#[local] Abbreviation RootWorld := (@DiHandles.World V Hd Rv).
(** The [FromContainer] of a type, and the receiver's [Injectable] and its [NAME]. *)
Context (extract_as : Ty → list (@ScopeContainer V Rv) → run A) (receiver_of : @Injectable V Hd) (NAME : string).
(** What the method is given and what it returns: a [Result], by whatever name, or not. *)
Inductive JobArg := AContext (cx : Ctx) | AExtracted (a : A).
Inductive Returned := RResult (r : result unit E) | RPlain.
(** The boxed error of a [JobOutcome]. *)
Inductive BoxedError := Unresolved (e : DiError) | Domain (e : E).

Section Call.
Context (root : RootResolver) (cx : Ctx) (at_ : nat → RootWorld).
(** The arguments, each resolved in the world of its moment. *)
Fixpoint bind_all (n : nat) (bs : list Binding) (args : list JobArg) (k : list JobArg → option (result unit BoxedError)) : option (result unit BoxedError) :=
  match bs with
  | [] => k args
  | BContext :: bs' => bind_all (S n) bs' (args ++ [AContext cx]) k
  | BExtract t :: bs' =>
      match root_extract root (extract_as t) (at_ n) with
      | None => None
      | Some (Err e) => Some (Err (Unresolved e))
      | Some (Ok a) => bind_all (S n) bs' (args ++ [AExtracted a]) k
      end
  end.
(** The emitted call. *)
Definition run_job (j : Job) (body : Hd → list JobArg → Returned) : option (result unit BoxedError) :=
  match root_component root receiver_of NAME (at_ O) with
  | Err e => Some (Err (Unresolved e))
  | Ok svc =>
      bind_all 1 (j_bindings j) [] (λ args, Some
        (if j_fallible j then match body svc args with RResult r => map_err Domain r | RPlain => Ok tt end
         else let _ := body svc args in Ok tt))
  end.
(** What the run is recorded as: [run_body] of [run.rs], uncancelled and in time. *)
Definition recorded (to_string : BoxedError → string) (o : result unit BoxedError) : JobRunOutcome :=
  match o with Ok _ => Success | Err e => Failed (to_string e) end.

(** What a parameter is supplied with at a moment. *)
Definition supply (n : nat) (t : Ty) : option (result JobArg DiError) :=
  if is_run_context t then Some (Ok (AContext cx)) else result_map AExtracted <$> root_extract root (extract_as t) (at_ n).
Fixpoint all_supplied (n : nat) (ts : list Ty) (vs : list JobArg) : Prop :=
  match ts, vs with
  | [], [] => True
  | t :: ts', v :: vs' => supply n t = Some (Ok v) ∧ all_supplied (S n) ts' vs'
  | _, _ => False
  end.
Lemma bind_all_cons n t ts args k : bind_all n (binding <$> t :: ts) args k =
  match supply n t with None => None | Some (Err e) => Some (Err (Unresolved e)) | Some (Ok v) => bind_all (S n) (binding <$> ts) (args ++ [v]) k end.
Proof.
  unfold supply. cbn [fmap list_fmap bind_all]. unfold binding at 1. destruct (is_run_context t); [done|].
  by destruct (root_extract _ _ _) as [[]|].
Qed.
(** The first parameter that cannot be supplied. *)
Definition first_unsupplied (n : nat) (ts : list Ty) (e : DiError) : Prop :=
  ∃ before t after vs, ts = before ++ t :: after ∧ all_supplied n before vs ∧ supply (n + length before) t = Some (Err e).
Lemma first_unsupplied_cons n t ts e : first_unsupplied n (t :: ts) e ↔
  supply n t = Some (Err e) ∨ ∃ v, supply n t = Some (Ok v) ∧ first_unsupplied (S n) ts e.
Proof.
  split.
  - intros ([|t0 before] & t' & after & vs & Ht & Hs & Hu); injection Ht as <- ->; [left; cbn in Hu; by rewrite Nat.add_0_r in Hu|].
    destruct vs as [|v vs]; [done|]. destruct Hs as [Hv Hs]. right. exists v. split; [done|]. exists before, t', after, vs. cbn in Hu. by rewrite Nat.add_succ_r in Hu.
  - intros [Hu|(v & Hv & before & t' & after & vs & -> & Hs & Hu)]; [exists [], t, ts, []; cbn; by rewrite Nat.add_0_r|].
    exists (t :: before), t', after, (v :: vs). cbn. by rewrite Nat.add_succ_r.
Qed.
Lemma bind_all_spec n ts args k o : bind_all n (binding <$> ts) args k = Some o ↔
  (∃ e, first_unsupplied n ts e ∧ o = Err (Unresolved e)) ∨ (∃ vs, all_supplied n ts vs ∧ k (args ++ vs) = Some o).
Proof.
  revert n args. induction ts as [|t ts IH]; intros n args.
  { cbn. split; [intros Hk; right; exists []; by rewrite app_nil_r|].
    intros [(e & ([|? before] & ? & ? & ? & ? & _) & _)|([|v vs] & Hs & Hk)]; [done|done|by rewrite app_nil_r in Hk|done]. }
  rewrite bind_all_cons. setoid_rewrite first_unsupplied_cons. destruct (supply n t) as [[v|e]|] eqn:Hx.
  - rewrite IH. split.
    + intros [(e & Hu & ->)|(vs & Hs & Hk)]; [left; eauto 6|]. right. exists (v :: vs). cbn. rewrite Hx. by rewrite <- app_assoc in Hk.
    + intros [(e & [?|(v' & _ & Hu)] & ->)|([|v' vs] & Hs & Hk)]; [done|left; eauto|done|].
      destruct Hs as [Hv Hs]. rewrite Hx in Hv. injection Hv as ->. right. exists vs. by rewrite <- app_assoc.
  - split; [intros [= <-]; left; eauto|]. intros [(e' & [[= ->]|(v' & ? & _)] & ->)|([|v' vs] & Hs & Hk)]; try done. destruct Hs as [Hv _]. by rewrite Hx in Hv.
  - split; [done|]. intros [(e' & [?|(v' & ? & _)] & ->)|([|v' vs] & Hs & Hk)]; try done. destruct Hs as [Hv _]. by rewrite Hx in Hv.
Qed.
(** What a method may return: a [Result] that is seen as one, or nothing that fails. *)
Definition typed (output : ReturnType (Ty := Ty)) (ret : Returned) : Prop :=
  match result_type_args output with Some _ => ∃ r, ret = RResult r | None => ret = RPlain end.
Definition method_outcome (ret : Returned) : result unit BoxedError := match ret with RResult r => map_err Domain r | RPlain => Ok tt end.
(** a run of a job is a call of its method. An accepted job resolves its receiver in the
    root scope, then each parameter in order, the run's own context where a parameter is
    one; the run comes to what the method returns for them, or to the first of them that
    cannot be resolved, without calling the method. *)
Theorem run_calls_the_method self_ty name (m : MethodSig Ty) attr j body o :
  generate_job self_ty name m attr = Ok j → (∀ svc args, typed (sig_output m) (body svc args)) →
  run_job j body = Some o ↔
    (∃ e, root_component root receiver_of NAME (at_ O) = Err e ∧ o = Err (Unresolved e)) ∨
    (∃ svc, root_component root receiver_of NAME (at_ O) = Ok svc ∧
      ((∃ e, first_unsupplied 1 (params m) e ∧ o = Err (Unresolved e)) ∨
       (∃ args, all_supplied 1 (params m) args ∧ o = method_outcome (body svc args)))).
Proof.
  intros (a & _ & _ & _ & ->)%generate_job_inv Hret. unfold run_job. cbn [j_bindings j_fallible].
  destruct (root_component _ _ _ _) as [svc|e].
  - rewrite bind_all_spec. assert (Heq : ∀ args, (if match result_type_args (sig_output m) with Some _ => true | None => false end
      then match body svc args with RResult r => map_err Domain r | RPlain => Ok tt end else let _ := body svc args in Ok tt) = method_outcome (body svc args)).
    { intros args. specialize (Hret svc args). unfold typed in Hret. unfold method_outcome. destruct (result_type_args _); [done|by rewrite Hret]. }
    setoid_rewrite Heq. naive_solver.
  - naive_solver.
Qed.
End Call.
End Running.

End Jobs.
End Lowering.

(** ** A concrete block *)

Definition jb_content : list Token :=
  print_job JCron "0 3 * * *" [OpTimeout "30s"; OpStartup None; OpOverlap "Allow"; OpOverlap "CancelPrevious"; OpTimezone true "Local"] true.
Definition jb_duration (text : string) : result Z unit := if bool_decide (text = "30s") then Ok 30000000000 else if bool_decide (text = "600y") then Ok 18934560000000000000 else Err tt.
Definition jb_cron (text : string) : result string unit := if bool_decide (text = "0 3 * * *") then Ok text else Err tt.
Definition jb_options : JobOptions := mkOptions true (Some 30000000000) None CancelPrevious None (Some Local).
Definition jb_args (ts : list Token) := parse_job_args jb_duration (Some ts).
Definition jb_sync (out : option PTy) : MethodSig PTy := b_sig "sync" true [p_of "Arc" (p_ty "Alpha"); p_ty "JobRunContext"] out.
Definition jb_tick : ImplMethod PTy string := mkImpl [AOther "doc"; AJob (Some (print_job JInterval " 30s " [] false))] (b_sig "tick" true [] None) [].
Definition jb_block : list (ImplMethod PTy string) :=
  [mkImpl [AJob (Some jb_content)] (jb_sync (Some (p_result (p_ty "u64") (p_ty "E")))) []; mkImpl [] (b_sig "helper" true [] None) [];
   mkImpl [AInit] (b_sig "create" false [] None) []; jb_tick].
Definition jb_item : Jobs := mkJobs (p_ty "Sync") "Sync" [].
Definition jb_walk (methods : list (ImplMethod PTy string)) := expand_methods (Tok := unit) (H0 := jobs_parse_method jb_duration) jb_item methods.
Definition jb_job (out : option PTy) : Job := mkJob "Sync::sync" (p_ty "Sync") "0 3 * * *" CronKind jb_options "sync"
  [BExtract (p_of "Arc" (p_ty "Alpha")); BContext] (match result_type_args out with Some _ => true | None => false end).
Example job_samples :
  jb_args jb_content = Ok (mkJobArgs JCron "0 3 * * *" jb_options) ∧
  jb_args [KIdent "after"; KEq; KStr "30s"] = Err NeitherEveryNorCron ∧
  jb_args (print_job JInterval "30s" [OpJitter "600y"] false) = Err DurationTooLarge ∧
  jb_args (print_job JInterval "30s" [OpJitter "soon"] false) = Err InvalidDuration ∧
  jb_args (print_job JInterval "30s" [OpOverlap "Queue"] false) = Err UnknownVariant ∧
  jb_args [KIdent "every"; KEq; KStr "30s"; KComma; KIdent "retries"; KEq; KStr "3"] = Err UnknownOption ∧
  parse_job_args jb_duration None = Err NotAList ∧
  result_map (λ w, js_blocks (w_ext w)) (jb_walk jb_block) =
    Ok [jb_job (Some (p_result (p_ty "u64") (p_ty "E"))); mkJob "Sync::tick" (p_ty "Sync") " 30s " Interval JobOptions_default "tick" [] false] ∧
  result_map (λ _, tt) (jb_walk [mkImpl [AJob None] (b_sig "a" false [] None) []]) = Err (JobRefused NotAList) ∧
  result_map (λ _, tt) (jb_walk [mkImpl [AJob (Some jb_content)] (b_sig "a" false [] None) []]) = Err (JobRefused NoReceiver).
Proof. vm_compute. repeat split. Qed.

Lemma block_is_scheduled_witness : ∃ walked w, jb_walk jb_block = Ok walked ∧
  start jb_duration jb_cron (descriptor <$> js_blocks (w_ext walked)) create = (Ok 2%nat, w) ∧
  jobs w !! 1 = Some (initial (JobEntry_new 1 (metadata_named "Sync::tick") (Every 30000000000) JobOptions_default) 0).
Proof.
  destruct (jb_walk jb_block) as [walked|e] eqn:Hw; [|discriminate Hw].
  destruct (start jb_duration jb_cron (descriptor <$> js_blocks (w_ext walked)) create) as [r w] eqn:Hs.
  assert (r = Ok 2%nat) as ->.
  { vm_compute in Hw. injection Hw as <-. vm_compute in Hs. by injection Hs as <- _. }
  exists walked, w. split; [done|]. split; [done|].
  destruct (@block_is_scheduled unit jb_duration PTy unit string PTy_syn string unit jb_cron (p_ty "Sync") jb_item jb_block walked create w 2
    eq_refl Hw Hs ltac:(done) ltac:(vm_compute; reflexivity)) as [_ Hk].
  destruct (Hk 1%nat jb_tick eq_refl) as (kind & schedule & opts & trailing & o & sc & Ha & Ho & Hsc & Hj).
  cbn in Ha. destruct opts as [|x opts]; [|destruct kind, x as [[]| | | | |[]]; discriminate Ha]. destruct kind, trailing; try discriminate Ha. injection Ha as <-.
  vm_compute in Ho. injection Ho as <-. vm_compute in Hsc. injection Hsc as <-. exact Hj.
Defined.

(** A run that resolves in the root of [DiHandles]; the method is given what the
    context's [FromContainer] makes. *)
Definition jb_extract (t : PTy) (chain : list (@ScopeContainer string unit)) : run string :=
  match first_type_arg t "Arc" with
  | Some (PPath "Alpha" None) => match resolve_built (x_handle 1) chain with Some h => Some (Ok h) | None => Some (Err (MissingComponent "Alpha")) end
  | _ => Some (Err (MissingComponent "Peer"))
  end.
Definition jb_body (svc : string) (args : list (@JobArg string Z)) : @Returned string :=
  match args with [AExtracted a; AContext c] => RResult (if c =? 7 then Err (svc +:+ "," +:+ a) else Ok tt) | _ => RPlain end.
Definition jb_run (root : RootResolver) (cx : Z) (out : option PTy) :=
  run_job jb_extract (x_handle 1) "Alpha" root cx (λ _, y_world) (jb_job out) jb_body.
Example run_samples :
  jb_run (Some 0%nat) 3 (Some (p_result (p_ty "u64") (p_ty "E"))) = Some (Ok tt) ∧
  jb_run (Some 0%nat) 7 (Some (p_result (p_ty "u64") (p_ty "E"))) = Some (Err (Domain "Alpha,Alpha")) ∧
  jb_run None 3 None = Some (Err (Unresolved RootUnavailable)) ∧
  jb_run (Some 5%nat) 3 None = Some (Err (Unresolved RootUnavailable)).
Proof. vm_compute. repeat split. Qed.
Lemma run_calls_the_method_witness :
  generate_job jb_duration (p_ty "Sync") "Sync" (jb_sync (Some (p_result (p_ty "u64") (p_ty "E")))) (Some jb_content) = Ok (jb_job (Some (p_result (p_ty "u64") (p_ty "E")))) ∧
  run_job jb_extract (x_handle 1) "Alpha" (Some 0%nat) 7 (λ _, y_world) (jb_job (Some (p_result (p_ty "u64") (p_ty "E")))) (λ svc (_ : list (@JobArg string Z)), RResult (Err svc)) =
    Some (Err (Domain "Alpha")).
Proof.
  assert (generate_job jb_duration (p_ty "Sync") "Sync" (jb_sync (Some (p_result (p_ty "u64") (p_ty "E")))) (Some jb_content) = Ok (jb_job (Some (p_result (p_ty "u64") (p_ty "E"))))) as Hg by reflexivity.
  split; [exact Hg|].
  refine (proj2 (run_calls_the_method jb_duration jb_extract (x_handle 1) "Alpha" (Some 0%nat) 7 (λ _, y_world) _ _ _ _ _ _ _ Hg _) _); [by intros; eexists|].
  right. exists "Alpha". split; [vm_compute; reflexivity|]. right. exists [AExtracted "Alpha"; AContext 7]. split; [|reflexivity]. vm_compute. by repeat split.
Defined.

(** An alias that names no arguments, [-> Result], is a [Result] but not one whose
    arguments are read: what the method fails with is dropped and the run is recorded
    as a success. *)
Theorem aliased_error_is_dropped :
  let out := Some (p_ty "Result") in
  returns_result out = true ∧
  result_map j_fallible (generate_job jb_duration (p_ty "Sync") "Sync" (jb_sync out) (Some jb_content)) = Ok false ∧
  (recorded (λ _ : @BoxedError string, "failed")) <$> jb_run (Some 0%nat) 7 out = Some Success.
Proof. vm_compute. repeat split. Qed.
