(* ===== verification/MacroController.v ===== *)
(** * MacroController: controllers

    Models [crates/axum-macros/src/router.rs], the extension that makes a component a
    controller: its keys, the surface it emits, and what the emitted [router] and
    [ws_routes] build out of the groups that the [#[handlers]] blocks register.

    - A group is a function of the controller and the runtime, as in [controller.rs]; [None] is a
      panic when the server starts, of an [expect] or of [axum].
    - [axum]'s router is the interface [Routing] of [AxumServer]; a path of a router is
      bound to the [MethodRouter] of [MacroHandlers]. [route_layer], the routers that
      [merge] takes, which panics on a method bound twice to one path, and the paths that
      [nest] takes are arguments. *)
From S2P Require Import Prelude CoreTypes MacroTopics MacroSyn MacroRpc HttpBody MacroRoutes MacroHandlers MacroComponent.
From S2P Require Import WsHost AxumConfig AxumServer.

Section Keys.
Context {Path Ext : Type} `{SynPath Path, ComponentExt Path Ext} (parse_path : Parser MacroError Path).

(** [AxumRouter] *)
Record AxumRouter := mkAxumRouter {
  ar_base : option string; ar_routes_slice : option string; ar_ws : option Path; ar_middleware : list Path;
  ar_context : option (ComponentContext Path); ar_inner : Ext }.
Definition set_base (v : string) (a : AxumRouter) : AxumRouter := mkAxumRouter (Some v) (ar_routes_slice a) (ar_ws a) (ar_middleware a) (ar_context a) (ar_inner a).
Definition set_slice (v : string) (a : AxumRouter) : AxumRouter := mkAxumRouter (ar_base a) (Some v) (ar_ws a) (ar_middleware a) (ar_context a) (ar_inner a).
Definition set_ws (v : Path) (a : AxumRouter) : AxumRouter := mkAxumRouter (ar_base a) (ar_routes_slice a) (Some v) (ar_middleware a) (ar_context a) (ar_inner a).
Definition set_middleware (v : list Path) (a : AxumRouter) : AxumRouter := mkAxumRouter (ar_base a) (ar_routes_slice a) (ar_ws a) v (ar_context a) (ar_inner a).
Definition set_inner (v : Ext) (a : AxumRouter) : AxumRouter := mkAxumRouter (ar_base a) (ar_routes_slice a) (ar_ws a) (ar_middleware a) (ar_context a) v.
(** [bracketed!], then the paths up to its end. *)
Definition parse_middleware : Parser MacroError (list Path) := λ ts,
  match ts with KBracket content :: ts' => result_map (λ l, (l, ts')) (terminated Syntax parse_path content) | _ => Err Syntax end.
(** [parse_keyed] *)
Definition controller_keyed (a : AxumRouter) (key : string) (ts : list Token) : result (option AxumRouter * list Token) MacroError :=
  let into {A} (set : A → AxumRouter → AxumRouter) (p : Parser MacroError A) := result_map (λ v, (Some (set v.1 a), v.2)) (p (eat_eq ts)) in
  if bool_decide (key = "path") then into set_base parse_str
  else if bool_decide (key = "routes_slice") then into set_slice parse_ident
  else if bool_decide (key = "ws") then into set_ws parse_path
  else if bool_decide (key = "middleware") then into set_middleware parse_middleware
  else result_map (λ v, ((λ i, set_inner i a) <$> v.1, v.2)) (parse_keyed (ar_inner a) key ts).
(** [parse_item] *)
Definition controller_item (cx : ComponentContext Path) (a : AxumRouter) : result AxumRouter MacroError :=
  if match cx_scope cx with Some s => negb (bool_decide (path_last s = Some "Singleton")) | None => false end then Err NotASingleton
  else result_map (mkAxumRouter (ar_base a) (ar_routes_slice a) (ar_ws a) (ar_middleware a) (Some cx)) (parse_item cx (ar_inner a)).
Definition controller_ParseKeyed : ParseKeyed AxumRouter := {| ext_default := mkAxumRouter None None None [] None ext_default; parse_keyed := controller_keyed |}.
Definition controller_ext : ComponentExt Path AxumRouter :=
  {| ext_keyed := controller_ParseKeyed; parse_item := controller_item; defers_factory _ := true; asserts_wired _ := true |}.

(** What [to_tokens] emits: nothing before the item pass, and one of two surfaces. *)
Record HttpSurface := mkHttp { hs_id : string; hs_name : string; hs_base : string; hs_slice : string; hs_middleware : list Path; hs_client : string }.
Record WsSurface := mkWs { wss_id : string; wss_name : string; wss_protocol : Path; wss_slice : string; wss_client : string }.
Inductive Surface := NoSurface | Http (s : HttpSurface) | Ws (s : WsSurface).
Definition http_surface (a : AxumRouter) (cx : ComponentContext Path) : HttpSurface :=
  mkHttp (cx_id cx) (cx_name cx) (from_option (λ b, b) "" (ar_base a)) (from_option (λ i, i) (cx_ident cx +:+ "Routes") (ar_routes_slice a)) (ar_middleware a) (cx_ident cx +:+ "Client").
Definition ws_surface (a : AxumRouter) (cx : ComponentContext Path) (protocol : Path) : WsSurface :=
  mkWs (cx_id cx) (cx_name cx) protocol (from_option (λ i, i) (cx_ident cx +:+ "WsRoutes") (ar_routes_slice a)) (cx_ident cx +:+ "Client").
Definition surface (a : AxumRouter) : Surface :=
  match ar_context a with
  | None => NoSurface
  | Some cx => match ar_ws a with Some protocol => Ws (ws_surface a cx protocol) | None => Http (http_surface a cx) end
  end.
End Keys.
Arguments AxumRouter : clear implicits.
Arguments HttpSurface : clear implicits.
Arguments WsSurface : clear implicits.
Arguments Surface : clear implicits.

(** The keys of a controller, as they are written: the [=] may be left out. *)
Inductive ControllerEntry (Path : Type) := CPath (v : string) (eq : bool) | CSlice (i : string) (eq : bool) | CWs (p : Path) (eq : bool) | CMiddleware (l : list Path) (comma eq : bool).
Arguments CPath {Path}. Arguments CSlice {Path}. Arguments CWs {Path}. Arguments CMiddleware {Path}.
Section Laws.
Context {Path : Type} `{SynPath Path} (parse_path : Parser MacroError Path) (print_path : Path → list Token).
Context (Hpath : ∀ p, reads parse_path print_path p) (Hplain : ∀ p, match print_path p with KEq :: _ => False | _ => True end).
#[local] Instance keyed : ParseKeyed (AxumRouter Path NoExt) := controller_ParseKeyed parse_path.
(** A controller reads its keys as they are written, so that [component_args_mean] holds
    of it. *)
#[refine] Definition controller_laws : ParseKeyedLaws (AxumRouter Path NoExt) (ControllerEntry Path) := {|
  ext_key x := match x with CPath _ _ => "path" | CSlice _ _ => "routes_slice" | CWs _ _ => "ws" | CMiddleware _ _ _ => "middleware" end;
  ext_print x := match x with
                 | CPath v eq => (if eq then [KEq] else []) ++ [KStr v]
                 | CSlice i eq => (if eq then [KEq] else []) ++ [KIdent i]
                 | CWs p eq => (if eq then [KEq] else []) ++ print_path p
                 | CMiddleware l comma eq => (if eq then [KEq] else []) ++ [KBracket (print_list print_path l comma)]
                 end;
  ext_apply a x := match x with CPath v _ => set_base v a | CSlice i _ => set_slice i a | CWs p _ => set_ws p a | CMiddleware l _ _ => set_middleware l a end;
  ext_key_own := _; ext_reads := _ |}.
Proof.
  - intros []; apply (bool_decide_unpack _); reflexivity.
  - intros x e rest Hr.
    assert (Heq : ∀ eq p, eat_eq (((if eq : bool then [KEq] else []) ++ print_path p) ++ rest) = print_path p ++ rest).
    { intros [] p; [done|]. destruct (Hpath p) as [Hne _]. specialize (Hplain p). destruct (print_path p) as [|[] ts]; done. }
    destruct x as [v []|i []|p eq|l comma eq]; try done.
    + cbn. unfold controller_keyed. cbn. rewrite Heq. destruct (Hpath p) as [_ Hp]. by rewrite Hp.
    + destruct eq; cbn -[terminated]; unfold controller_keyed, parse_middleware; cbn -[terminated]; by rewrite (terminated_print Syntax parse_path print_path) by by apply Forall_forall.
Defined.
End Laws.

(** ** What the surfaces build *)

Section Build.
Context {R M Hn Rt Svc Path : Type} `{Routing R (Layer M) Hn}.
(** [runtime.root().get::<Self>()] and [get::<Mw>()]. *)
Context (get_self : Rt → option Svc) (get_middleware : Rt → Path → option M).
Context (route_layer : Layer M → R → option R) (merges : R → R → bool) (nests_at : string → bool).

(** [ControllerRoute] *)
Definition ControllerRoute : Type := Svc → Rt → option R.
Fixpoint merge_groups (svc : Svc) (rt : Rt) (router : R) (groups : list ControllerRoute) : option R :=
  match groups with
  | [] => Some router
  | g :: groups' => r ← g svc rt; if merges router r then merge_groups svc rt (router_merge router r) groups' else None
  end.
Fixpoint route_layers (rt : Rt) (router : R) (mws : list Path) : option R :=
  match mws with [] => Some router | mw :: mws' => m ← get_middleware rt mw; router ← route_layer (Middleware m) router; route_layers rt router mws' end.
Definition at_root (base : string) : bool := str_is_empty base || bool_decide (base = "/").
Definition mounted (base : string) (router : R) : option R :=
  if at_root base then Some router else if nests_at base then Some (router_nest base router) else None.
(** [Controller::router], of the groups in the order of the registry. *)
Definition controller_router (s : HttpSurface Path) (groups : list ControllerRoute) (rt : Rt) : option R :=
  svc ← get_self rt;
  router ← merge_groups svc rt router_new groups;
  router ← route_layers rt router (reverse (hs_middleware s));
  mounted (hs_base s) router.

(** [WebsocketController::ws_routes], and the descriptor the endpoint of its protocol is
    given. *)
Definition ws_routes_of {W} (groups : list (Svc → list W)) (rt : Rt) : option (list W) :=
  svc ← get_self rt; Some (groups ≫= λ g, g svc).
Definition ws_descriptor {W} (type_id_of : Path → TypeId) (destination : W → string) (s : WsSurface Path) (groups : list (Svc → list W)) (rt : Rt) : option WsController :=
  rs ← ws_routes_of groups rt; Some (mkWsController (type_id_of (wss_protocol s)) (destination <$> rs)).

(** ** A controller is the groups of its blocks *)

Context (route_layer_routes : ∀ l r r', route_layer l r = Some r' → routes r' = wrap_route l <$> routes r).
Lemma merge_groups_routes svc rt router groups r : merge_groups svc rt router groups = Some r →
  ∃ rs, Forall2 (λ g r, g svc rt = Some r) groups rs ∧ routes r = routes router ++ (rs ≫= routes).
Proof.
  revert router. induction groups as [|g groups IH]; intros router; cbn [merge_groups]; [intros [= <-]; exists []; by rewrite app_nil_r|].
  destruct (g svc rt) as [r0|] eqn:Hg; [|done]. cbn. destruct (merges router r0); [|done]. intros (rs & Hrs & Hr)%IH. exists (r0 :: rs). split; [by constructor|].
  by rewrite Hr, routes_merge, <- app_assoc.
Qed.
Lemma route_layers_routes rt router mws r : route_layers rt router mws = Some r →
  ∃ ms, Forall2 (λ mw m, get_middleware rt mw = Some m) mws ms ∧ routes r = under (reverse (Middleware <$> ms)) <$> routes router.
Proof.
  revert router. induction mws as [|mw mws IH]; intros router; cbn [route_layers]; [intros [= <-]; exists []; split; [done|symmetry; apply under_nil]|].
  destruct (get_middleware rt mw) as [m|] eqn:Hm; [|done]. cbn. destruct (route_layer (Middleware m) router) as [router'|] eqn:Hl; [|done]. cbn.
  intros (ms & Hms & Hr)%IH. exists (m :: ms). split; [by constructor|].
  rewrite Hr, (route_layer_routes _ _ _ Hl), fmap_cons, reverse_cons. rewrite <- (under_nil (routes router)) at 1. by rewrite wrap_under, under_under.
Qed.
Definition mount_path (base path : string) : string := if at_root base then path else nested_path base path.
Lemma mounted_routes base router r : mounted base router = Some r → routes r = move_route (mount_path base) <$> routes router.
Proof.
  unfold mounted, mount_path. destruct (at_root base).
  - intros [= <-]. induction (routes router) as [|[p l h] rs IH]; [done|]. cbn. by rewrite <- IH.
  - destruct (nests_at base); [|done]. intros [= <-]. by rewrite routes_nest.
Qed.
(** a controller serves what its blocks register. When it can be built, the controller
    and its middleware are in the root, every block's group has been built for it, and
    its routes are those of the groups in their order, each at its path under the base
    and inside the controller's middleware, the first listed outermost, around the
    layers of its own. *)
Theorem controller_serves_its_groups (s : HttpSurface Path) groups rt r : controller_router s groups rt = Some r →
  ∃ svc rs ms, get_self rt = Some svc ∧ Forall2 (λ g r, g svc rt = Some r) groups rs ∧
    Forall2 (λ mw m, get_middleware rt mw = Some m) (hs_middleware s) ms ∧
    routes r = (λ x, mkRoute (mount_path (hs_base s) (r_path x)) ((Middleware <$> ms) ++ r_layers x) (r_handler x)) <$> (rs ≫= routes).
Proof.
  unfold controller_router. destruct (get_self rt) as [svc|]; [|done]. cbn. destruct (merge_groups _ _ _ _) as [r0|] eqn:Hm; [|done]. cbn.
  destruct (route_layers _ _ _) as [r1|] eqn:Hl; [|done]. cbn. intros Hr%mounted_routes.
  apply merge_groups_routes in Hm as (rs & Hrs & Hr0). apply route_layers_routes in Hl as (ms & Hms & Hr1).
  exists svc, rs, (reverse ms). split; [done|]. split; [done|]. split.
  - apply Forall2_reverse in Hms. by rewrite reverse_involutive in Hms.
  - rewrite Hr, Hr1, Hr0, routes_new. cbn. rewrite <- list_fmap_compose. unfold compose, move_route, under. cbn.
    by rewrite fmap_reverse.
Qed.
End Build.

(** ** Router, document and client agree *)

Section Agreement.
Context {R M Rt Svc Path Ty : Type} `{Routing R (Layer M) (MethodRouter (Ty := Ty) (Path := Path))} `{SynType Ty}.
Context (get_self : Rt → option Svc) (get_middleware : Rt → Path → option M) (route_layer : Layer M → R → option R) (merges : R → R → bool) (nests_at : string → bool).
Context (accepts : list string → bool) (own : OwnTypes Ty) (is_ident : string → bool).
(** The group that a block emits: a router of its table, made of middleware from the root. *)
Definition group_router (table : list (string * MethodRouter (Ty := Ty) (Path := Path))) : R := foldl (λ r g, router_route g.1 g.2 r) router_new table.
Definition block_group (specs : list (RouteSpec Ty Path)) : ControllerRoute (Svc := Svc) (Rt := Rt) := λ _ rt,
  group_router <$> route_group (λ mw, bool_decide (is_Some (get_middleware rt mw))) accepts specs.
(** The client's constant [BASE] is that of the router. *)
Definition client_uri (s : HttpSurface Path) (m : RouteMethod Ty) (path : string) (values : list (list string)) (suffix : string) : option string :=
  method_uri m (hs_base s) path values suffix.
End Agreement.

(** ** Concrete controllers *)

#[local] Instance string_path : SynPath string := { path_ident p := Some p; path_last p := Some p; ident_path n := n }.
#[local] Existing Instance RTy_syn.
Definition k_keyed := controller_keyed (Ext := NoExt) parse_ident.
Definition k_none : AxumRouter string NoExt := mkAxumRouter None None None [] None tt.
Definition k_context : ComponentContext string := mkContext "Users" "Users" "users" "Users" None.
Definition k_http : AxumRouter string NoExt := mkAxumRouter (Some "/api") None None ["Auth"; "Log"] (Some k_context) tt.
Definition k_surface (base : string) (mws : list string) : HttpSurface string := mkHttp "users" "Users" base "UsersRoutes" mws "UsersClient".
Abbreviation KRouter := (list (Route (Layer string) (MethodRouter (Ty := RTy) (Path := string)))).
Definition k_specs : list (RouteSpec RTy string) := match MacroHandlers.c_parse None c_block with Ok (h, _) => MacroHandlers.routes h | Err _ => [] end.
Definition k_layer (l : Layer string) (r : KRouter) : option KRouter := Some (router_layer l r).
(** [axum] refuses two routes of one path that share a verb. *)
Definition k_merges (a b : KRouter) : bool :=
  negb (existsb (λ x, existsb (λ y, bool_decide (r_path x = r_path y) && existsb (λ v, bool_decide (v ∈ (r_handler y).*1)) (r_handler x).*1) b) a).
Definition k_middleware (_ : unit) (mw : string) : option string :=
  if bool_decide (mw = "Auth") then Some "auth" else if bool_decide (mw = "Log") then Some "log" else None.
Definition k_build (s : HttpSurface string) (blocks : list (list (RouteSpec RTy string))) : option KRouter :=
  controller_router (λ _, Some tt) k_middleware k_layer k_merges (λ _, true) s (block_group k_middleware (λ _, true) <$> blocks) tt.
(** The routes of [/users] in one block and those of [/files] in another. *)
Definition k_blocks : list (list (RouteSpec RTy string)) := [take 2 k_specs; drop 2 k_specs].
Definition k_router (s : HttpSurface string) : option KRouter := k_build s k_blocks.
Definition k_route (path : string) : RouteAttr string := MacroRoutes.mkRoute "get" path false [].
Definition k_uri (base path : string) (args : list RTy) (values : list (list string)) : option string :=
  r ← build_client_method r_own r_ident "show" (k_route path) args None; client_uri (k_surface base []) r.1 path values "".

Example controller_samples :
  k_keyed k_none "path" [KEq; KStr "/api"; KComma] = Ok (Some (set_base "/api" k_none), [KComma]) ∧
  k_keyed k_none "middleware" [KEq; KBracket [KIdent "Auth"; KComma; KIdent "Log"; KComma]] = Ok (Some (set_middleware ["Auth"; "Log"] k_none), []) ∧
  k_keyed k_none "ws" [KEq; KIdent "Stomp"] = Ok (Some (set_ws "Stomp" k_none), []) ∧
  k_keyed k_none "version" [KEq; KStr "1"] = Ok (None, [KEq; KStr "1"]) ∧
  result_map surface (controller_item k_context (set_base "/api" (set_middleware ["Auth"; "Log"] k_none))) = Ok (Http (k_surface "/api" ["Auth"; "Log"])) ∧
  controller_item (mkContext "Users" "Users" "users" "Users" (Some "Request")) k_none = Err NotASingleton ∧
  surface k_none = NoSurface ∧
  (λ r : KRouter, (λ x, (r_path x, r_layers x, (r_handler x).*1)) <$> r) <$> k_router (k_surface "/api" ["Auth"; "Log"]) =
    Some [("/api/users", [Middleware "auth"; Middleware "log"], ["get"; "post"]); ("/api/files/{type}", [Middleware "auth"; Middleware "log"], ["put"; "get"])] ∧
  k_router (k_surface "/api" ["Gone"]) = None ∧ k_build (k_surface "/api" []) [k_specs; drop 3 k_specs] = None.
Proof. vm_compute. repeat split. Qed.

Lemma controller_serves_its_groups_witness : ∃ r, k_router (k_surface "/api" ["Auth"]) = Some r ∧ r_layers <$> head r = Some [Middleware "auth"].
Proof.
  destruct (k_router (k_surface "/api" ["Auth"])) as [r|] eqn:Hr; [|vm_compute in Hr; discriminate Hr]. exists r. split; [done|].
  destruct (controller_serves_its_groups _ _ k_layer _ _ ltac:(by intros l a b [= <-]) _ _ _ _ Hr) as (svc & rs & ms & _ & Hrs & Hms & Hroutes).
  vm_compute in Hr. injection Hr as <-. reflexivity.
Defined.

(** A base of one slash mounts the routes at the root, and the client puts the slash in
    front of their paths all the same. *)
Theorem slash_base_is_asked_for :
  (λ r : KRouter, r_path <$> head r) <$> k_router (k_surface "/" []) = Some (Some "/users") ∧ join_base "/" "/users" = "/users" ∧
  k_uri "/" "/users" [] [] = Some "//users".
Proof. vm_compute. repeat split. Qed.
(** The route ["/"] of a controller is served and documented at its base; the client asks
    for the base followed by a slash. *)
Theorem root_route_is_asked_with_a_slash :
  mount_path (R := KRouter) (M := string) "/users" "/" = "/users" ∧ join_base "/users" "/" = "/users" ∧ k_uri "/users" "/" [] [] = Some "/users/".
Proof. vm_compute. repeat split. Qed.
(** A hole in the base is no parameter of the client's methods and is sent as it is
    written. *)
Theorem base_hole_is_sent_as_it_is : k_uri "/users/{id}" "/posts" [] [] = Some "/users/{id}/posts".
Proof. reflexivity. Qed.
(** The middleware and the base path of a websocket controller are accepted and have no
    effect. *)
Theorem ws_middleware_is_ignored (a : AxumRouter string NoExt) (protocol base : string) mws : ar_ws a = Some protocol →
  surface (set_base base (set_middleware mws a)) = surface a.
Proof. intros Hws. unfold surface. cbn. by rewrite Hws. Qed.
