(* ===== verification/MacroApp.v ===== *)
(** * MacroApp: whole applications

    Models [crates/macros-core/src/app.rs]: what [app!] is written with, the two managers
    it may construct, and the application it assembles, as the calls on the builder of
    [AppBuild]. Expressions are read by an argument and evaluated by another; the loader
    of configuration files is that of [ConfigManager], an argument here with the
    application's file system. *)
From S2P Require Import Prelude ConfigValue ConfigResolve ConfigDefaults ConfigSource ConfigDe ConfigManager Dirs.
From S2P Require Import CoreTypes DiTypes DiRegistry DiSort DiContainer Hooks Reload AppBuild.
From S2P Require Import MacroTopics MacroSyn.

Inductive AppMacroError :=
| AppSyntax | UnknownKey (key : string) | UnknownManager (key : string) | DuplicateManager (key : string)
| UnknownConfigSetting (key : string) | UnknownDirSetting (key : string) | NoName | NoProtocol | NoDirectorySource | NoConfigSource.

(** ** Keyed fields *)

(** [key: value], each followed by a comma or not; a step reads a value. *)
Section Fields.
Context {A : Type} (step : A → string → list Token → result (A * list Token) AppMacroError).
Definition comma_eaten (ts : list Token) : list Token := match ts with KComma :: ts' => ts' | _ => ts end.
Fixpoint fields_loop (fuel : nat) (a : A) (ts : list Token) : result A AppMacroError :=
  match fuel, ts with
  | _, [] => Ok a
  | S fuel', KIdent key :: KColon :: ts' => match step a key ts' with Err e => Err e | Ok (a', rest) => fields_loop fuel' a' (comma_eaten rest) end
  | _, _ => Err AppSyntax
  end.
Definition fields (a : A) (ts : list Token) : result A AppMacroError := fields_loop (length ts) a ts.

Context {X : Type} (key : X → string) (value : X → list Token) (apply : A → X → result A AppMacroError).
Definition print_field (x : X) : list Token := KIdent (key x) :: KColon :: value x.
Fixpoint apply_entries (a : A) (xs : list X) : result A AppMacroError :=
  match xs with [] => Ok a | x :: xs' => match apply a x with Err e => Err e | Ok a' => apply_entries a' xs' end end.
Definition step_reads (x : X) : Prop := ∀ a rest, follows rest → step a (key x) (value x ++ rest) = result_map (λ a', (a', rest)) (apply a x).
Lemma fields_loop_print xs trailing fuel a : Forall step_reads xs → (length (print_list print_field xs trailing) ≤ fuel)%nat →
  fields_loop fuel a (print_list print_field xs trailing) = apply_entries a xs.
Proof.
  intros Hxs. revert fuel a. induction Hxs as [|x xs Hx Hxs IH]; intros fuel a Hf; [by destruct fuel|].
  assert (Hstep : ∀ fuel rest, follows rest → fields_loop (S fuel) a (print_field x ++ rest) =
    match apply a x with Err e => Err e | Ok a' => fields_loop fuel a' (comma_eaten rest) end).
  { intros fuel' rest Hr. cbn [print_field app fields_loop]. rewrite (Hx a rest Hr). by destruct (apply a x). }
  destruct fuel as [|fuel]; [destruct xs; cbn in Hf; lia|]. cbn [apply_entries]. destruct xs as [|y xs].
  - cbn [print_list]. rewrite Hstep by (destruct trailing; [right; by eexists|by left]). destruct (apply a x); [|done]. by destruct trailing, fuel.
  - change (print_list print_field (x :: y :: xs) trailing) with (print_field x ++ KComma :: print_list print_field (y :: xs) trailing) in *.
    rewrite Hstep by (right; by eexists). destruct (apply a x) as [a'|]; [|done]. cbn [comma_eaten]. apply IH. rewrite length_app in Hf. cbn [length] in Hf. lia.
Qed.
Lemma fields_print xs trailing a : Forall step_reads xs → fields a (print_list print_field xs trailing) = apply_entries a xs.
Proof. intros Hxs. by apply fields_loop_print. Qed.
End Fields.

(** ** The input *)

Section Input.
Context {Expr Ty Path : Type}.
Context (parse_expr : Parser AppMacroError Expr) (parse_type : Parser AppMacroError Ty) (parse_path : Parser AppMacroError Path).

Inductive ManagerSource (S : Type) := Instance_ (e : Expr) | Configure (s : S).
Arguments Instance_ {S}. Arguments Configure {S}.
Record ConfigSettings := mkConfigSettings { cs_source : option Expr; cs_profiles : option Expr; cs_sighup : bool; cs_watch : bool; cs_debounce : option Expr }.
Record DirSettings := mkDirSettings { ds_app : option Expr; ds_root : option Expr }.
Definition no_config_settings : ConfigSettings := mkConfigSettings None None false false None.
Definition no_dir_settings : DirSettings := mkDirSettings None None.
Definition bool_lit : Parser AppMacroError bool := λ ts, match ts with KBool b :: ts' => Ok (b, ts') | _ => Err AppSyntax end.
Definition read {A B} (p : Parser AppMacroError A) (f : A → B) (ts : list Token) : result (B * list Token) AppMacroError := result_map (λ r, (f r.1, r.2)) (p ts).
(** [ConfigSettings::parse] and [DirSettings::parse] *)
Definition config_setting (s : ConfigSettings) (key : string) (ts : list Token) : result (ConfigSettings * list Token) AppMacroError :=
  let 'mkConfigSettings source profiles sighup watch debounce := s in
  if bool_decide (key = "source") then read parse_expr (λ e, mkConfigSettings (Some e) profiles sighup watch debounce) ts
  else if bool_decide (key = "profiles") then read parse_expr (λ e, mkConfigSettings source (Some e) sighup watch debounce) ts
  else if bool_decide (key = "sighup") then read bool_lit (λ b, mkConfigSettings source profiles b watch debounce) ts
  else if bool_decide (key = "watch") then read bool_lit (λ b, mkConfigSettings source profiles sighup b debounce) ts
  else if bool_decide (key = "debounce") then read parse_expr (λ e, mkConfigSettings source profiles sighup watch (Some e)) ts
  else Err (UnknownConfigSetting key).
Definition dir_setting (s : DirSettings) (key : string) (ts : list Token) : result (DirSettings * list Token) AppMacroError :=
  if bool_decide (key = "app") then read parse_expr (λ e, mkDirSettings (Some e) (ds_root s)) ts
  else if bool_decide (key = "root") then read parse_expr (λ e, mkDirSettings (ds_app s) (Some e)) ts
  else Err (UnknownDirSetting key).
(** [parse_manager_source] *)
Definition parse_manager_source {S} (parse : list Token → result S AppMacroError) : Parser AppMacroError (ManagerSource S) := λ ts,
  match ts with KBrace content :: ts' => result_map (λ s, (Configure s, ts')) (parse content) | _ => read parse_expr Instance_ ts end.
(** [parse_managers] *)
Definition Managers : Type := option (ManagerSource ConfigSettings) * option (ManagerSource DirSettings).
Definition manager (m : Managers) (key : string) (ts : list Token) : result (Managers * list Token) AppMacroError :=
  if bool_decide (key = "config") then
    match m.1 with
    | Some _ => Err (DuplicateManager key)
    | None => read (parse_manager_source (fields config_setting no_config_settings)) (λ s, (Some s, m.2)) ts
    end
  else if bool_decide (key = "directories") then
    match m.2 with
    | Some _ => Err (DuplicateManager key)
    | None => read (parse_manager_source (fields dir_setting no_dir_settings)) (λ s, (m.1, Some s)) ts
    end
  else Err (UnknownManager key).
Definition parse_managers (m : Managers) : Parser AppMacroError Managers := λ ts,
  match ts with KBrace content :: ts' => result_map (λ m', (m', ts')) (fields manager m content) | _ => Err AppSyntax end.
(** [bracketed_list] and [ConfigEntry] *)
Definition bracketed_list {A} (p : Parser AppMacroError A) : Parser AppMacroError (list A) := λ ts,
  match ts with KBracket content :: ts' => result_map (λ l, (l, ts')) (terminated AppSyntax p content) | _ => Err AppSyntax end.
Definition parse_config_entry : Parser AppMacroError (Ty * string) := λ ts,
  match parse_type ts with Ok (t, KOther "=>" :: KStr path :: ts') => Ok ((t, path), ts') | Ok _ => Err AppSyntax | Err e => Err e end.

(** [AppInput], and its fields while they are read. *)
Record AppFields := mkFields {
  f_name : option Expr; f_protocol : option Ty; f_services : list Ty; f_components : list Expr; f_configs : list (Ty * string);
  f_managers : Managers; f_middleware : list Expr; f_guards : list Expr; f_error_handler : option Expr; f_overseerd : option Path; f_krate : option Path }.
Definition no_fields : AppFields := mkFields None None [] [] [] (None, None) [] [] None None None.
Definition app_field (f : AppFields) (key : string) (ts : list Token) : result (AppFields * list Token) AppMacroError :=
  let 'mkFields n p sv c cf m mw g h o k := f in
  if bool_decide (key = "name") then read parse_expr (λ e, mkFields (Some e) p sv c cf m mw g h o k) ts
  else if bool_decide (key = "protocol") then read parse_type (λ t, mkFields n (Some t) sv c cf m mw g h o k) ts
  else if bool_decide (key = "services") then read (bracketed_list parse_type) (λ l, mkFields n p l c cf m mw g h o k) ts
  else if bool_decide (key = "components") then read (bracketed_list parse_expr) (λ l, mkFields n p sv l cf m mw g h o k) ts
  else if bool_decide (key = "configs") then read (bracketed_list parse_config_entry) (λ l, mkFields n p sv c l m mw g h o k) ts
  else if bool_decide (key = "managers") then read (parse_managers m) (λ m', mkFields n p sv c cf m' mw g h o k) ts
  else if bool_decide (key = "middleware") then read (bracketed_list parse_expr) (λ l, mkFields n p sv c cf m l g h o k) ts
  else if bool_decide (key = "guards") then read (bracketed_list parse_expr) (λ l, mkFields n p sv c cf m mw l h o k) ts
  else if bool_decide (key = "error_handler") then read parse_expr (λ e, mkFields n p sv c cf m mw g (Some e) o k) ts
  else if bool_decide (key = "overseerd") then read parse_path (λ q, mkFields n p sv c cf m mw g h (Some q) k) ts
  else if bool_decide (key = "crate") then read parse_path (λ q, mkFields n p sv c cf m mw g h o (Some q)) ts
  else Err (UnknownKey key).
Record AppInput := mkInput { in_name : Expr; in_protocol : Ty; in_fields : AppFields }.
Definition AppInput_parse (ts : list Token) : result AppInput AppMacroError :=
  match fields app_field no_fields ts with
  | Err e => Err e
  | Ok f =>
      match f_name f, f_protocol f with
      | None, _ => Err NoName
      | Some _, None => Err NoProtocol
      | Some n, Some p => Ok (mkInput n p f)
      end
  end.

(** ** What is emitted *)

Inductive DirsCode := DirsIs (e : Expr) | DirsFromPath (root : Expr) | DirsForApp (app : Expr).
Inductive ManagerBase := ManagerIs (e : Expr) | LoadFrom (profiles : option Expr).
(** A manager as it is made: its base and the triggers it is asked for. *)
Record ManagerCode := mkManagerCode { mc_base : ManagerBase; mc_sighup : bool; mc_watch : bool; mc_debounce : option Expr }.
Record AppCode := mkCode { ac_asserted : list Ty; ac_directories : option DirsCode; ac_config : option ManagerCode; ac_input : AppInput }.
Definition directories_code (m : option (ManagerSource DirSettings)) : result (option DirsCode) AppMacroError :=
  match m with
  | None => Ok None
  | Some (Instance_ e) => Ok (Some (DirsIs e))
  | Some (Configure s) =>
      match ds_root s, ds_app s with
      | Some root, _ => Ok (Some (DirsFromPath root))
      | None, Some app => Ok (Some (DirsForApp app))
      | None, None => Err NoDirectorySource
      end
  end.
Definition config_code (available : bool) (m : option (ManagerSource ConfigSettings)) : result (option ManagerCode) AppMacroError :=
  match m with
  | None => Ok None
  | Some (Instance_ e) => Ok (Some (mkManagerCode (ManagerIs e) false false None))
  | Some (Configure s) =>
      let code base := Ok (Some (mkManagerCode base (cs_sighup s) (cs_watch s) (cs_debounce s))) in
      match cs_source s with
      | Some source => code (ManagerIs source)
      | None => if available then code (LoadFrom (cs_profiles s)) else Err NoConfigSource
      end
  end.
(** [expand]; [di_check] is the feature of that name. *)
Definition expand_app (di_check : bool) (i : AppInput) : result AppCode AppMacroError :=
  match directories_code (f_managers (in_fields i)).2 with
  | Err e => Err e
  | Ok dirs =>
      match config_code (match dirs with Some _ => true | None => false end) (f_managers (in_fields i)).1 with
      | Err e => Err e
      | Ok config => Ok (mkCode (if di_check then f_services (in_fields i) else []) dirs config i)
      end
  end.
End Input.
Arguments ManagerSource : clear implicits.
Arguments Instance_ {Expr S}. Arguments Configure {Expr S}.
Arguments ConfigSettings : clear implicits.
Arguments DirSettings : clear implicits.
Arguments Managers : clear implicits.
Arguments AppFields : clear implicits.
Arguments AppInput : clear implicits.
Arguments DirsCode : clear implicits.
Arguments ManagerBase : clear implicits.
Arguments ManagerCode : clear implicits.
Arguments AppCode : clear implicits.

(** ** The input means what is written *)

Section Written.
Context {Expr Ty Path : Type}.
Context (parse_expr : Parser AppMacroError Expr) (parse_type : Parser AppMacroError Ty) (parse_path : Parser AppMacroError Path).
Context (print_expr : Expr → list Token) (print_type : Ty → list Token) (print_path : Path → list Token).
Context (Hexpr : ∀ e, reads parse_expr print_expr e) (Hpath : ∀ p, reads parse_path print_path p).
(** A type is also read up to [=>]. *)
Context (Htype : ∀ t, print_type t ≠ [] ∧ ∀ rest, follows rest ∨ (∃ r, rest = KOther "=>" :: r) → parse_type (print_type t ++ rest) = Ok (t, rest)).

Inductive ConfigSetting := SetSource (e : Expr) | SetProfiles (e : Expr) | SetSighup (b : bool) | SetWatch (b : bool) | SetDebounce (e : Expr).
Definition config_key (x : ConfigSetting) : string :=
  match x with SetSource _ => "source" | SetProfiles _ => "profiles" | SetSighup _ => "sighup" | SetWatch _ => "watch" | SetDebounce _ => "debounce" end.
Definition config_value (x : ConfigSetting) : list Token := match x with SetSource e | SetProfiles e | SetDebounce e => print_expr e | SetSighup b | SetWatch b => [KBool b] end.
Definition apply_config (s : ConfigSettings Expr) (x : ConfigSetting) : result (ConfigSettings Expr) AppMacroError :=
  let 'mkConfigSettings source profiles sighup watch debounce := s in
  Ok match x with
     | SetSource e => mkConfigSettings (Some e) profiles sighup watch debounce
     | SetProfiles e => mkConfigSettings source (Some e) sighup watch debounce
     | SetSighup b => mkConfigSettings source profiles b watch debounce
     | SetWatch b => mkConfigSettings source profiles sighup b debounce
     | SetDebounce e => mkConfigSettings source profiles sighup watch (Some e)
     end.
Inductive DirSetting := SetApp (e : Expr) | SetRoot (e : Expr).
Definition dir_key (x : DirSetting) : string := match x with SetApp _ => "app" | SetRoot _ => "root" end.
Definition dir_value (x : DirSetting) : list Token := match x with SetApp e | SetRoot e => print_expr e end.
Definition apply_dir (s : DirSettings Expr) (x : DirSetting) : result (DirSettings Expr) AppMacroError :=
  Ok match x with SetApp e => mkDirSettings (Some e) (ds_root s) | SetRoot e => mkDirSettings (ds_app s) (Some e) end.
(** A manager as it is written: an expression, or a block of settings. *)
Inductive Written (X : Type) := WExpr (e : Expr) | WBlock (l : list X) (trailing : bool).
Arguments WExpr {X}. Arguments WBlock {X}.
Inductive ManagerEntry := MConfig (w : Written ConfigSetting) | MDirectories (w : Written DirSetting).
Definition manager_key (x : ManagerEntry) : string := match x with MConfig _ => "config" | MDirectories _ => "directories" end.
Definition print_written {X} (key : X → string) (value : X → list Token) (w : Written X) : list Token :=
  match w with WExpr e => print_expr e | WBlock l trailing => [KBrace (print_list (print_field key value) l trailing)] end.
Definition manager_value (x : ManagerEntry) : list Token :=
  match x with MConfig w => print_written config_key config_value w | MDirectories w => print_written dir_key dir_value w end.
Definition source_of {X S} (empty : S) (apply : S → X → result S AppMacroError) (w : Written X) : result (ManagerSource Expr S) AppMacroError :=
  match w with WExpr e => Ok (Instance_ e) | WBlock l _ => result_map Configure (apply_entries apply empty l) end.
Definition apply_manager (m : Managers Expr) (x : ManagerEntry) : result (Managers Expr) AppMacroError :=
  match x with
  | MConfig w => match m.1 with Some _ => Err (DuplicateManager "config") | None => result_map (λ s, (Some s, m.2)) (source_of no_config_settings apply_config w) end
  | MDirectories w => match m.2 with Some _ => Err (DuplicateManager "directories") | None => result_map (λ s, (m.1, Some s)) (source_of no_dir_settings apply_dir w) end
  end.
(** An expression that stands for a manager does not start with a brace. *)
Definition no_brace (ts : list Token) : Prop := match ts with KBrace _ :: _ => False | _ => True end.
Definition written_ok {X} (w : Written X) : Prop := match w with WExpr e => no_brace (print_expr e) | WBlock _ _ => True end.
Definition manager_ok (x : ManagerEntry) : Prop := match x with MConfig w => written_ok w | MDirectories w => written_ok w end.

Inductive AppEntry :=
| AName (e : Expr) | AProtocol (t : Ty) | AServices (l : list Ty) (c : bool) | AComponents (l : list Expr) (c : bool) | AConfigs (l : list (Ty * string)) (c : bool)
| AManagers (l : list ManagerEntry) (c : bool) | AMiddleware (l : list Expr) (c : bool) | AGuards (l : list Expr) (c : bool) | AErrorHandler (e : Expr) | AOverseerd (p : Path).
Definition app_key (x : AppEntry) : string :=
  match x with
  | AName _ => "name" | AProtocol _ => "protocol" | AServices _ _ => "services" | AComponents _ _ => "components" | AConfigs _ _ => "configs" | AManagers _ _ => "managers"
  | AMiddleware _ _ => "middleware" | AGuards _ _ => "guards" | AErrorHandler _ => "error_handler" | AOverseerd _ => "overseerd"
  end.
Definition print_binding (x : Ty * string) : list Token := print_type x.1 ++ [KOther "=>"; KStr x.2].
Definition app_value (x : AppEntry) : list Token :=
  match x with
  | AName e | AErrorHandler e => print_expr e | AProtocol t => print_type t | AOverseerd p => print_path p
  | AServices l c => [KBracket (print_list print_type l c)] | AConfigs l c => [KBracket (print_list print_binding l c)]
  | AComponents l c | AMiddleware l c | AGuards l c => [KBracket (print_list print_expr l c)]
  | AManagers l c => [KBrace (print_list (print_field manager_key manager_value) l c)]
  end.
Definition app_ok (x : AppEntry) : Prop := match x with AManagers l _ => Forall manager_ok l | _ => True end.
Definition apply_app (f : AppFields Expr Ty Path) (x : AppEntry) : result (AppFields Expr Ty Path) AppMacroError :=
  let 'mkFields n p sv c cf m mw g h o k := f in
  match x with
  | AName e => Ok (mkFields (Some e) p sv c cf m mw g h o k) | AProtocol t => Ok (mkFields n (Some t) sv c cf m mw g h o k)
  | AServices l _ => Ok (mkFields n p l c cf m mw g h o k) | AComponents l _ => Ok (mkFields n p sv l cf m mw g h o k)
  | AConfigs l _ => Ok (mkFields n p sv c l m mw g h o k)
  | AManagers l _ => result_map (λ m', mkFields n p sv c cf m' mw g h o k) (apply_entries apply_manager m l)
  | AMiddleware l _ => Ok (mkFields n p sv c cf m l g h o k) | AGuards l _ => Ok (mkFields n p sv c cf m mw l h o k)
  | AErrorHandler e => Ok (mkFields n p sv c cf m mw g (Some e) o k) | AOverseerd q => Ok (mkFields n p sv c cf m mw g h (Some q) k)
  end.

Lemma read_expr {B} (f : Expr → B) e rest : follows rest → read parse_expr f (print_expr e ++ rest) = Ok (f e, rest).
Proof. intros Hr. unfold read. destruct (Hexpr e) as [_ He]. by rewrite He. Qed.
Lemma config_setting_reads x : step_reads (config_setting parse_expr) config_key config_value apply_config x.
Proof. intros [so pr si wa de] rest Hr. destruct x; cbn [config_key config_value apply_config app]; unfold config_setting; by repeat (rewrite bool_decide_false by done); rewrite bool_decide_true, ?read_expr by done. Qed.
Lemma dir_setting_reads x : step_reads (dir_setting parse_expr) dir_key dir_value apply_dir x.
Proof. intros s rest Hr. destruct x; cbn [dir_key dir_value apply_dir app]; unfold dir_setting; by repeat (rewrite bool_decide_false by done); rewrite bool_decide_true, ?read_expr by done. Qed.
Lemma manager_source_reads {X S} step key value apply (empty : S) (w : Written X) rest :
  (∀ x, step_reads step key value apply x) → written_ok w → follows rest →
  parse_manager_source parse_expr (fields step empty) (print_written key value w ++ rest) = result_map (λ s, (s, rest)) (source_of empty apply w).
Proof.
  intros Hstep Hok Hr. destruct w as [e|l trailing]; cbn [print_written source_of].
  - assert (Hne : no_brace (print_expr e ++ rest)). { destruct (Hexpr e) as [Hne _]. cbn in Hok. by destruct (print_expr e) as [|[] ts]. }
    unfold parse_manager_source. transitivity (read parse_expr (Instance_ (S := S)) (print_expr e ++ rest)); [by destruct (print_expr e ++ rest) as [|[] ts]|by rewrite read_expr].
  - cbn [app parse_manager_source]. rewrite (fields_print step key value apply) by by apply Forall_forall. by destruct (apply_entries apply empty l).
Qed.
Lemma manager_reads x : manager_ok x → step_reads (manager parse_expr) manager_key manager_value apply_manager x.
Proof.
  intros Hok m rest Hr. destruct x as [w|w]; cbn [manager_key manager_value apply_manager]; unfold manager.
  - rewrite bool_decide_true by done. destruct m.1; [done|]. unfold read. rewrite (manager_source_reads _ _ _ apply_config) by (done || apply config_setting_reads). by destruct (source_of _ _ w).
  - rewrite bool_decide_false, bool_decide_true by done. destruct m.2; [done|]. unfold read. rewrite (manager_source_reads _ _ _ apply_dir) by (done || apply dir_setting_reads). by destruct (source_of _ _ w).
Qed.
Lemma binding_reads x : reads (parse_config_entry parse_type) print_binding x.
Proof.
  destruct x as [t path]. destruct (Htype t) as [Hne Ht]. split; [intros Hn; by apply app_eq_nil in Hn as [? _]|]. intros rest Hr. unfold parse_config_entry, print_binding. cbn [fst snd].
  rewrite <- app_assoc, Ht by (right; by eexists). done.
Qed.
Lemma bracket_reads {A B} (p : Parser AppMacroError A) print (f : list A → B) l c rest : (∀ x, reads p print x) → read (bracketed_list p) f (KBracket (print_list print l c) :: rest) = Ok (f l, rest).
Proof. intros Hp. unfold read, bracketed_list. by rewrite terminated_print by by apply Forall_forall. Qed.
Lemma app_field_reads x : app_ok x → step_reads (app_field parse_expr parse_type parse_path) app_key app_value apply_app x.
Proof.
  assert (Htypes : ∀ t, reads parse_type print_type t) by (intros t; destruct (Htype t) as [Hne Ht]; split; [done|]; intros rest Hr; apply Ht; by left).
  intros Hok [n p sv c cf m mw g h o k] rest Hr. destruct x; cbn [app_key app_value apply_app app]; unfold app_field; repeat (rewrite bool_decide_false by done); rewrite bool_decide_true by done.
  all: rewrite ?read_expr by done; rewrite ?(bracket_reads _ print_expr) by done; rewrite ?(bracket_reads _ print_type) by done; rewrite ?(bracket_reads _ print_binding) by apply binding_reads; try done.
  - unfold read. destruct (Htypes t) as [_ Ht]. by rewrite Ht.
  - unfold read, parse_managers. rewrite (fields_print _ manager_key manager_value apply_manager) by (eapply Forall_impl; [exact Hok|apply manager_reads]). by destruct (apply_entries apply_manager m l).
  - unfold read. destruct (Hpath p0) as [_ Hp]. by rewrite Hp.
Qed.
(** what [app!] is written with means what it says. Fields in any order, separated by
    commas and perhaps followed by one, are all read, down to the settings of a manager
    in a block; a field written twice has its last value, a manager written twice is
    refused; and a name and a protocol are needed. *)
Theorem app_input_means_what_is_written es trailing : Forall app_ok es →
  AppInput_parse parse_expr parse_type parse_path (print_list (print_field app_key app_value) es trailing) =
  match apply_entries apply_app no_fields es with
  | Err e => Err e
  | Ok f => match f_name f, f_protocol f with None, _ => Err NoName | Some _, None => Err NoProtocol | Some n, Some p => Ok (mkInput n p f) end
  end.
Proof. intros Hes. unfold AppInput_parse. rewrite (fields_print _ app_key app_value apply_app); [done|]. eapply Forall_impl; [exact Hes|apply app_field_reads]. Qed.
End Written.

(** ** What the code assembles *)

(** [set_triggers] keeps what is asked for once; the settings only add to it. *)
Definition added_triggers (sighup' watch' : bool) (debounce : option Z) (t : ReloadTriggers) : ReloadTriggers :=
  mkTriggers (sighup t || sighup') (watch t || watch') (from_option (λ d, d) (debounce_ms t) debounce).

Section Assembled.
Context {Expr Ty Path V Hd Rv Value Plugin Protocol PluginError World HookCx Any : Type}.
Abbreviation Builder := (@AppBuilder V Hd Rv Value Plugin).
Abbreviation Registry := (AppRegistry (@Program V Hd Rv) Value).
Abbreviation Boxed := (@BoxedComponent V).
Context (P : @ProtocolPlugin V Hd Rv Value World HookCx Any Plugin Protocol PluginError).
(** What the expressions and types of the input stand for. The builder of a protocol
    takes a middleware, a guard or an error handler into its plugin. *)
Record Meaning := mkMeaning {
  m_string : Expr → string; m_directories : Expr → DirectoriesManager; m_manager : Expr → ConfigManager Value; m_profiles : Expr → list string; m_millis : Expr → Z;
  m_component : Expr → string * string * Boxed; m_config : Ty → ConfigType Value; m_middleware : Expr → Plugin → Plugin; m_guard : Expr → Plugin → Plugin;
  m_error_handler : Expr → Plugin → Plugin }.
Context (M : Meaning) (discovered : Registry) (project_dirs_from : string → string → string → option ProjectDirs) (temp_dir : string).
(** [ConfigManager::load_in] on the file system. *)
Context (load_in : string → list string → result (ConfigManager Value) ConfigError).

(** [ConfigManager::load_from] *)
Definition load_from (d : DirectoriesManager) (profiles : list string) : result (ConfigManager Value) ConfigError :=
  result_map (with_directories temp_dir d) (load_in (config_path temp_dir d) profiles).
(** [DirectoriesManager::for_app] panics where there is no home directory. *)
Definition make_directories (c : DirsCode Expr) : option DirectoriesManager :=
  match c with
  | DirsIs e => Some (m_directories M e)
  | DirsFromPath e => Some (from_path (m_string M e))
  | DirsForApp e => match try_for_app project_dirs_from (m_string M e) with Ok d => Some d | Err _ => None end
  end.
(** A base that is loaded names the binding of the directories, which does not compile
    without one. *)
Definition make_base (dirs : option DirectoriesManager) (base : ManagerBase Expr) : outcome (ConfigManager Value) :=
  match base with
  | ManagerIs e => Some (Ok (m_manager M e))
  | LoadFrom profiles => d ← dirs; wrap_err AppConfig (Some (load_from d (from_option (m_profiles M) [] profiles)))
  end.
Definition triggered (c : ManagerCode Expr) (m : ConfigManager Value) : ConfigManager Value :=
  let m := if mc_sighup c then reload_on_sighup m else m in
  let m := if mc_watch c then watch_config m else m in
  match mc_debounce c with Some e => config_reload_debounce (m_millis M e) m | None => m end.
Definition set_protocol (f : Plugin → Plugin) (b : Builder) : Builder :=
  AppBuild.mkBuilder (b_name b) (b_registry b) (b_instances b) (b_config_source b) (b_auto_discover_configs b) (b_dirs b) (f (b_protocol b)).
(** The block [expand] emits; a failed load leaves the function around it. *)
Definition assembled (c : AppCode Expr Ty Path) : outcome Builder :=
  let f := in_fields (ac_input c) in
  dirs ←! match ac_directories c with None => Some (Ok None) | Some code => d ← make_directories code; Some (Ok (Some d)) end;
  config ←! match ac_config c with None => Some (Ok None) | Some code => m ←! make_base dirs (mc_base code); Some (Ok (Some (triggered code m))) end;
  let b := app_auto_discover P discovered (AppBuilder_new P (m_string M (in_name (ac_input c)))) in
  let b := foldl (λ b e, let '(id, name, value) := m_component M e in with_component id name value b) b (f_components f) in
  let b := foldl (λ b x, config_binding (mkBinding (m_config M x.1) x.2) b) b (f_configs f) in
  let b := match config with Some m => config_source m b | None => b end in
  let b := match dirs with Some d => directories d b | None => b end in
  let b := foldl (λ b e, set_protocol (m_middleware M e) b) b (f_middleware f) in
  let b := foldl (λ b e, set_protocol (m_guard M e) b) b (f_guards f) in
  let b := match f_error_handler f with Some e => set_protocol (m_error_handler M e) b | None => b end in
  Some (Ok b).

(** What the two managers are, of what is written for them. *)
Definition dirs_are (m : option (ManagerSource Expr (DirSettings Expr))) (dirs : option DirectoriesManager) : Prop :=
  match m with
  | None => dirs = None
  | Some (Instance_ e) => dirs = Some (m_directories M e)
  | Some (Configure s) =>
      match ds_root s with
      | Some root => dirs = Some (from_path (m_string M root))
      | None => ∃ app d, ds_app s = Some app ∧ try_for_app project_dirs_from (m_string M app) = Ok d ∧ dirs = Some d
      end
  end.
Definition config_is (m : option (ManagerSource Expr (ConfigSettings Expr))) (dirs : option DirectoriesManager) (config : option (ConfigManager Value)) : Prop :=
  match m with
  | None => config = None
  | Some (Instance_ e) => config = Some (m_manager M e)
  | Some (Configure s) => ∃ base, config = Some (set_triggers (added_triggers (cs_sighup s) (cs_watch s) (m_millis M <$> cs_debounce s)) base) ∧
      match cs_source s with
      | Some e => base = m_manager M e
      | None => ∃ d, dirs = Some d ∧ load_from d (from_option (m_profiles M) [] (cs_profiles s)) = Ok base
      end
  end.
Definition manual_component (e : Expr) : ComponentDescriptor (@Program V Hd Rv) :=
  let '(id, name, value) := m_component M e in manual id name (b_ty value) Singleton.

Lemma triggered_adds c m : triggered c m = set_triggers (added_triggers (mc_sighup c) (mc_watch c) (m_millis M <$> mc_debounce c)) m.
Proof. destruct c as [b [] [] [e|]], m as [? ? ? ? ? [[] [] ?]]; reflexivity. Qed.
Lemma fold_components es (b : Builder) :
  foldl (λ b e, let '(id, name, value) := m_component M e in with_component id name value b) b es =
  AppBuild.mkBuilder (b_name b) (mkAppRegistry (app_components (b_registry b) ++ (manual_component <$> es)) (app_providers (b_registry b)) (app_bindings (b_registry b)))
    (b_instances b ++ ((λ e, (m_component M e).2) <$> es)) (b_config_source b) (b_auto_discover_configs b) (b_dirs b) (b_protocol b).
Proof.
  revert b. induction es as [|e es IH]; intros [n [cs ps bs] is_ c a d pr]; cbn; [by rewrite !app_nil_r|].
  rewrite IH. assert (Hm : manual_component e = let '(id, name, value) := m_component M e in manual id name (b_ty value) Singleton) by done.
  rewrite Hm. destruct (m_component M e) as [[id name] value]. cbn. by rewrite <- !app_assoc.
Qed.
Lemma fold_configs (xs : list (Ty * string)) (b : Builder) :
  foldl (λ b x, config_binding (mkBinding (m_config M x.1) x.2) b) b xs =
  AppBuild.mkBuilder (b_name b) (mkAppRegistry (app_components (b_registry b)) (app_providers (b_registry b)) (app_bindings (b_registry b) ++ ((λ x, mkBinding (m_config M x.1) x.2) <$> xs)))
    (b_instances b) (b_config_source b) (b_auto_discover_configs b) (b_dirs b) (b_protocol b).
Proof. revert b. induction xs as [|x xs IH]; intros [n [cs ps bs] is_ c a d pr]; cbn; [by rewrite app_nil_r|]. rewrite IH. cbn. by rewrite <- app_assoc. Qed.
Lemma fold_protocol (f : Expr → Plugin → Plugin) es (b : Builder) :
  foldl (λ b e, set_protocol (f e) b) b es = set_protocol (λ p, foldl (λ p e, f e p) p es) b.
Proof. revert b. induction es as [|e es IH]; intros b; [by destruct b|]. cbn [foldl]. by rewrite IH. Qed.
Lemma directories_made m code dirs : directories_code m = Ok code →
  match code with None => Some (Ok None) | Some code => d ← make_directories code; Some (Ok (Some d)) end = Some (Ok dirs : result _ AppError) → dirs_are m dirs.
Proof.
  destruct m as [[e|[app [root|]]]|]; cbn; [by intros [= <-] [= <-]..| |by intros [= <-] [= <-]].
  destruct app as [app|]; [|done]. intros [= <-]. cbn. destruct (try_for_app _ _) as [d|] eqn:Hdir; [|done]. intros [= <-]. eauto.
Qed.
Lemma config_made m available code dirs config : config_code available m = Ok code →
  match code with None => Some (Ok None) | Some code => m ←! make_base dirs (mc_base code); Some (Ok (Some (triggered code m))) end = Some (Ok config) → config_is m dirs config.
Proof.
  destruct m as [[e|[[source|] profiles si wa de]]|]; cbn [config_code config_is cs_source cs_profiles cs_sighup cs_watch cs_debounce].
  - intros [= <-]. cbn. by intros [= <-].
  - intros [= <-]. cbn [make_base mc_base outcome_bind]. intros [= <-]. rewrite triggered_adds. eauto.
  - destruct available; [|done]. intros [= <-]. cbn [mc_base make_base]. intros (base & Hb & Hc)%outcome_bind_ok. injection Hc as <-.
    destruct dirs as [d|]; [|done]. cbn [mbind option_bind] in Hb. apply wrap_err_ok in Hb. injection Hb as Hb. exists base. rewrite triggered_adds. eauto.
  - by intros [= <-] [= <-].
Qed.
Definition written_builder (i : AppInput Expr Ty Path) (dirs : option DirectoriesManager) (config : option (ConfigManager Value)) : Builder :=
  let f := in_fields i in
  AppBuild.mkBuilder (m_string M (in_name i))
    (mkAppRegistry (app_components discovered ++ (manual_component <$> f_components f)) (app_providers discovered) ((λ x, mkBinding (m_config M x.1) x.2) <$> f_configs f))
    ((λ e, (m_component M e).2) <$> f_components f) config true dirs
    (let p := foldl (λ p e, m_guard M e p) (foldl (λ p e, m_middleware M e p) (plugin_auto_discover P (plugin_default P)) (f_middleware f)) (f_guards f) in
     match f_error_handler f with Some e => m_error_handler M e p | None => p end).
Lemma assembled_written di_check (i : AppInput Expr Ty Path) c b : expand_app di_check i = Ok c → assembled c = Some (Ok b) →
  ∃ dirs config, dirs_are (f_managers (in_fields i)).2 dirs ∧ config_is (f_managers (in_fields i)).1 dirs config ∧ b = written_builder i dirs config.
Proof.
  unfold expand_app. destruct (directories_code _) as [dc|] eqn:Hdc; [|done]. destruct (config_code _ _) as [cc|] eqn:Hcc; [|done]. intros [= <-].
  unfold assembled. cbn [ac_directories ac_config ac_input]. intros (dirs & Hdirs & Hb)%outcome_bind_ok. apply outcome_bind_ok in Hb as (config & Hconfig & Hb).
  exists dirs, config. apply (directories_made _ _ _ Hdc) in Hdirs. apply (config_made _ _ _ _ _ Hcc) in Hconfig. split; [done|]. split; [done|]. injection Hb as <-.
  rewrite fold_components, fold_configs, !fold_protocol. unfold written_builder. by destruct (f_error_handler _), config, dirs.
Qed.
(** the application [app!] assembles is what is written. The builder has the name, what
    is discovered followed by the components and the bindings in the order they are
    written, and the directories and the configuration that the two managers are; the
    protocol's plugin, set to discover too, takes the middleware, the guards and the
    error handler, in that order. *)
Theorem app_is_what_is_written di_check (i : AppInput Expr Ty Path) c b : expand_app di_check i = Ok c → assembled c = Some (Ok b) →
  let f := in_fields i in
  b_name b = m_string M (in_name i) ∧
  app_components (b_registry b) = app_components discovered ++ (manual_component <$> f_components f) ∧
  app_providers (b_registry b) = app_providers discovered ∧
  app_bindings (b_registry b) = (λ x, mkBinding (m_config M x.1) x.2) <$> f_configs f ∧
  b_instances b = (λ e, (m_component M e).2) <$> f_components f ∧
  b_auto_discover_configs b = true ∧
  dirs_are (f_managers f).2 (b_dirs b) ∧
  config_is (f_managers f).1 (b_dirs b) (b_config_source b) ∧
  b_protocol b =
    (let p := foldl (λ p e, m_guard M e p) (foldl (λ p e, m_middleware M e p) (plugin_auto_discover P (plugin_default P)) (f_middleware f)) (f_guards f) in
     match f_error_handler f with Some e => m_error_handler M e p | None => p end).
Proof.
  intros Hc Hb. destruct (assembled_written _ _ _ _ Hc Hb) as (dirs & config & Hdirs & Hconfig & ->). by repeat (split; [done|]).
Qed.
End Assembled.

(** ** The application that is built *)

Section Built.
Context {Expr Ty Path V Hd Rv Value Plugin Protocol PluginError World HookCx Any : Type}.
Abbreviation Boxed := (@BoxedComponent V).
Context (P : @ProtocolPlugin V Hd Rv Value World HookCx Any Plugin Protocol PluginError) (M : @Meaning Expr Ty V Value Plugin).
Context (discovered : AppRegistry (@Program V Hd Rv) Value) (project_dirs_from : string → string → string → option ProjectDirs) (temp_dir : string).
Context (DIRECTORIES SHUTDOWN_HANDLE ROOT_RESOLVER CONFIG_RELOADER HOOK_MANAGER : Builtin) (dir_ty : DirKind → TypeDescriptor).
Context (box_directories : DirectoriesManager → V) (box_dir : Dir → V) (boxed_shutdown boxed_root_resolver boxed_hooks boxed_reloader : V).
Context (toml_from_str : string → result TomlValue string) (yaml_from_str : string → result YamlValue string)
  (number_to_string : YamlNumber → string) (debug_key : YamlValue → string) (yaml_feature : bool) (fs : FileSystem) (vars : gmap string string).
Context (discovered_bindings : list (ConfigBinding Value)) (hooks_of : ComponentDescriptor (@Program V Hd Rv) → list (HookDescriptor World HookCx Any)).
Context (erase : ProviderDescriptor → Boxed → Boxed) (concretes traits : list TypeId) (fuel : nat)
  (ComponentSource CONFIG_STORE : TypeId) (self_source : Rv) (store_resolver : ConfigStore → Rv) (erase_proposal : ReloadProposal Value → HookCx).
Abbreviation build := (app_build P DIRECTORIES SHUTDOWN_HANDLE ROOT_RESOLVER CONFIG_RELOADER HOOK_MANAGER dir_ty box_directories box_dir
  boxed_shutdown boxed_root_resolver boxed_hooks boxed_reloader project_dirs_from temp_dir toml_from_str yaml_from_str number_to_string debug_key yaml_feature
  fs vars discovered_bindings hooks_of erase concretes traits fuel ComponentSource CONFIG_STORE self_source store_resolver erase_proposal).
(** The loader of configuration files of [ConfigManager]. *)
Definition load_files (dir : string) (profiles : list string) : result (ConfigManager Value) ConfigError :=
  load_in toml_from_str yaml_from_str number_to_string debug_key yaml_feature fs vars FDynamic dir profiles.
Abbreviation assemble_app := (assembled P M discovered project_dirs_from temp_dir load_files).

Lemma load_in_triggers d profiles (m : ConfigManager Value) : load_from temp_dir load_files d profiles = Ok m → cm_triggers m = ReloadTriggers_default.
Proof. unfold load_from, load_files, load_in. destruct (load_sources _ _ _ _ _ _ _ _ _ _) as [[root sources]|]; [|done]. by intros [= <-]. Qed.

(** C38: an application reloads when it is written to. Once built from [app!], it has the
    name that is written, and reloads on the triggers of the manager that is written: a
    manager that is an expression keeps its own; a block adds the ones it sets to true to
    those of its source, and cannot take one away; a block without a source has just
    those, with the debounce it gives or the default one; and without a manager it
    reloads on nothing. *)
Theorem app_reloads_as_written di_check (i : AppInput Expr Ty Path) c b app :
  expand_app di_check i = Ok c → assemble_app c = Some (Ok b) → build b = Some (Ok app) →
  app_name app = m_string M (in_name i) ∧
  match (f_managers (in_fields i)).1 with
  | None => app_reload_triggers app = mkTriggers false false (debounce_ms ReloadTriggers_default)
  | Some (Instance_ e) => app_reload_triggers app = cm_triggers (m_manager M e)
  | Some (Configure s) =>
      let own := from_option (λ e, cm_triggers (m_manager M e)) ReloadTriggers_default (cs_source s) in
      (sighup (app_reload_triggers app) = true ↔ sighup own = true ∨ cs_sighup s = true) ∧
      (watch (app_reload_triggers app) = true ↔ watch own = true ∨ cs_watch s = true) ∧
      debounce_ms (app_reload_triggers app) = from_option (m_millis M) (debounce_ms own) (cs_debounce s)
  end.
Proof.
  intros Hc Hb Happ. destruct (assembled_written P M discovered project_dirs_from temp_dir load_files di_check i c b Hc Hb) as (dirs & config & _ & Hconfig & ->).
  split; [by apply app_build_name in Happ|]. apply app_build_triggers in Happ.
  assert (Hbuilt : app_reload_triggers app = from_option cm_triggers ReloadTriggers_default config) by (rewrite Happ; by destruct config).
  clear Happ. rewrite Hbuilt. unfold config_is in Hconfig. destruct ((f_managers (in_fields i)).1) as [[e|s]|]; [by subst config| |by subst config].
  destruct Hconfig as (base & -> & Hbase). cbn [from_option cm_triggers set_triggers]. unfold added_triggers. cbn [sighup watch debounce_ms].
  assert (cm_triggers base = from_option (λ e, cm_triggers (m_manager M e)) ReloadTriggers_default (cs_source s)) as ->.
  { destruct (cs_source s); [by subst base|]. by destruct Hbase as (d & _ & ->%load_in_triggers). }
  rewrite !orb_true_iff. split; [done|]. split; [done|]. by destruct (cs_debounce s).
Qed.
End Built.

(** ** Samples *)

Definition z_parse : Parser AppMacroError string := λ ts, match ts with KOther t :: ts' => Ok (t, ts') | _ => Err AppSyntax end.
Definition z_print (t : string) : list Token := [KOther t].
Definition z_entries : list (@AppEntry string string string) :=
  [AManagers [MDirectories (WBlock _ [SetRoot "/srv"] false); MConfig (WBlock _ [SetWatch true; SetDebounce "slow"] true)] true; AServices ["Echo"] false;
   AConfigs [("Server", "server")] true; AProtocol "Rpc"; AComponents ["clock"; "greeter"] false; AName "demo"; AMiddleware ["log"] false; AGuards ["auth"] false].
Definition z_tokens : list Token := print_list (print_field app_key (app_value z_print z_print z_print)) z_entries true.
Definition z_input : result (AppInput string string string) AppMacroError := AppInput_parse z_parse z_parse z_parse z_tokens.
Abbreviation ZValue := (option ConfigStore).
Definition z_meaning : @Meaning string string string Plain (list string) := mkMeaning (λ s, s) from_path (λ _, watch_config sample_manager) (λ s, [s]) (λ s, if bool_decide (s = "slow") then 900 else 10)
  (λ s, (s, s, mkBoxed (mkType s s (if bool_decide (s = "clock") then 41 else 42)) s)) (λ _, server_type) (λ s p, p ++ ["middleware:" +:+ s]) (λ s p, p ++ ["guard:" +:+ s]) (λ s p, p ++ ["errors:" +:+ s]).
Definition z_plugin : @ProtocolPlugin string string ZValue Plain (list string) unit Z (list string) (list string) AppError :=
  mkPlugin [] (λ p, p ++ ["discover"]) (λ _ r, r) [] (λ p _, Ok p) id.
Definition z_code (i : result (AppInput string string string) AppMacroError) : result (AppCode string string string) AppMacroError :=
  match i with Ok i => expand_app true i | Err e => Err e end.
Definition z_load (yaml : string → result YamlValue string) : string → list string → result (ConfigManager Plain) ConfigError :=
  load_files (λ _, Err "no toml") yaml (λ _, "") (λ _, "") false ∅ ∅.
Definition z_assembled (c : AppCode string string string) := assembled z_plugin z_meaning AppRegistry_default (λ _ _ _, None) "/tmp" (z_load (λ _, Err "no yaml")) c.
Definition z_dir_type (k : DirKind) : TypeDescriptor := mkType (NAME k) (NAME k) (match k with Config => 30 | Data => 31 | Cache => 32 | State => 33 | Runtime => 34 | Tmp => 35 end).
Definition z_build (b : @AppBuilder string string ZValue Plain (list string)) :=
  app_build z_plugin (app_builtin "Directories" 20) (app_builtin "ShutdownHandle" 21) (app_builtin "RootResolver" 22) (app_builtin "ConfigReloader" 23) (app_builtin "HookManager" 24)
    z_dir_type (λ _, "directories") dir_path "shutdown" "root" "hooks" "reloader"
    (λ _ _ _, None) "/tmp" (λ _, Err "no toml") (λ _, Err "no yaml") (λ _, "") (λ _, "") false ∅ ∅ [] (λ _, [])
    (λ p b, mkBoxed (trait_ty p) (b_value b)) [] [] 3 60 50 None Some (λ _, tt) b.
Definition z_built (i : result (AppInput string string string) AppMacroError) :=
  match z_code i with Ok c => match z_assembled c with Some (Ok b) => z_build b | _ => None end | Err _ => None end.
Definition z_of (f : AppFields string string string → AppFields string string string) : result (AppInput string string string) AppMacroError :=
  result_map (λ i, mkInput (in_name i) (in_protocol i) (f (in_fields i))) z_input.
Definition z_managers (m : Managers string) (f : AppFields string string string) : AppFields string string string :=
  mkFields (f_name f) (f_protocol f) (f_services f) (f_components f) (f_configs f) m (f_middleware f) (f_guards f) (f_error_handler f) (f_overseerd f) (f_krate f).
Definition z_config (s : ConfigSettings string) : AppFields string string string → AppFields string string string :=
  z_managers (Some (Configure s), Some (Instance_ "/srv")).

Example app_samples :
  match z_built z_input with
  | Some (Ok app) =>
      app_name app = "demo" ∧ app_reload_triggers app = mkTriggers false true 900 ∧ app_protocol app = ["discover"; "middleware:log"; "guard:auth"] ∧
      take 3 (map (λ c, c_name c) (rt_resolved (app_runtime app))) = ["clock"; "greeter"; "Directories"]
  | _ => False
  end ∧
  AppInput_parse z_parse z_parse z_parse [KIdent "name"; KColon; KOther "demo"] = Err NoProtocol ∧
  AppInput_parse z_parse z_parse z_parse [KIdent "protocol"; KColon; KOther "Rpc"; KComma] = Err NoName ∧
  AppInput_parse z_parse z_parse z_parse [KIdent "names"; KColon; KOther "demo"] = Err (UnknownKey "names") ∧
  AppInput_parse z_parse z_parse z_parse [KIdent "managers"; KColon; KBrace [KIdent "config"; KColon; KOther "a"; KIdent "config"; KColon; KOther "b"]] = Err (DuplicateManager "config") ∧
  AppInput_parse z_parse z_parse z_parse [KIdent "managers"; KColon; KBrace [KIdent "config"; KColon; KBrace [KIdent "format"; KColon; KOther "toml"]]] = Err (UnknownConfigSetting "format") ∧
  z_code (z_of (z_managers (None, Some (Configure no_dir_settings)))) = Err NoDirectorySource ∧
  z_code (z_of (z_managers (Some (Configure no_config_settings), None))) = Err NoConfigSource ∧
  result_map z_assembled (z_code (z_of (z_managers (None, Some (Configure (mkDirSettings (Some "demo") None)))))) = Ok None.
Proof. vm_compute. repeat split. Qed.
Lemma app_input_means_what_is_written_witness : Forall (app_ok z_print) z_entries ∧ is_ok z_input = true.
Proof.
  assert (Hok : Forall (app_ok z_print) z_entries) by (vm_compute; repeat constructor). split; [exact Hok|]. unfold z_input, z_tokens.
  rewrite (app_input_means_what_is_written z_parse z_parse z_parse z_print z_print z_print); [reflexivity| | | |exact Hok].
  - intros e. split; [discriminate|]. reflexivity.
  - intros e. split; [discriminate|]. reflexivity.
  - intros e. split; [discriminate|]. reflexivity.
Defined.
Lemma app_is_what_is_written_witness : ∃ i c b, z_input = Ok i ∧ expand_app true i = Ok c ∧ z_assembled c = Some (Ok b) ∧
  b_name b = "demo" ∧ b_dirs b = Some (from_path "/srv") ∧ b_protocol b = ["discover"; "middleware:log"; "guard:auth"].
Proof.
  destruct z_input as [i|] eqn:Hi; [|discriminate Hi]. destruct (expand_app true i) as [c|] eqn:Hc; [|vm_compute in Hi; injection Hi as <-; discriminate Hc].
  destruct (z_assembled c) as [[b|]|] eqn:Hb; [|vm_compute in Hi; injection Hi as <-; vm_compute in Hc; injection Hc as <-; discriminate Hb..].
  exists i, c, b. repeat (split; [done|]). destruct (app_is_what_is_written _ _ _ _ _ _ _ _ _ _ Hc Hb) as (-> & _ & _ & _ & _ & _ & Hdirs & _ & ->).
  vm_compute in Hi. injection Hi as <-. split; [reflexivity|]. split; [exact Hdirs|reflexivity].
Defined.
Lemma z_is_built : match z_built z_input with Some (Ok _) => True | _ => False end.
Proof. vm_compute. exact I. Qed.
Lemma app_reloads_as_written_witness : ∃ i c b, z_input = Ok i ∧ expand_app true i = Ok c ∧ z_assembled c = Some (Ok b) ∧
  match z_build b with Some (Ok app) => app_name app = "demo" ∧ watch (app_reload_triggers app) = true ∧ debounce_ms (app_reload_triggers app) = 900 | _ => False end.
Proof.
  destruct z_input as [i|] eqn:Hi; [|discriminate Hi]. destruct (expand_app true i) as [c|] eqn:Hc; [|vm_compute in Hi; injection Hi as <-; discriminate Hc].
  destruct (z_assembled c) as [[b|]|] eqn:Hb; [|vm_compute in Hi; injection Hi as <-; vm_compute in Hc; injection Hc as <-; discriminate Hb..].
  pose proof z_is_built as Hok. unfold z_built, z_code in Hok. rewrite Hi, Hc, Hb in Hok.
  exists i, c, b. repeat (split; [done|]). destruct (z_build b) as [[app|]|] eqn:Happ; [|exact Hok..].
  destruct (app_reloads_as_written z_plugin z_meaning AppRegistry_default (λ _ _ _, None) "/tmp"
    (app_builtin "Directories" 20) (app_builtin "ShutdownHandle" 21) (app_builtin "RootResolver" 22) (app_builtin "ConfigReloader" 23) (app_builtin "HookManager" 24)
    z_dir_type (λ _, "directories") dir_path "shutdown" "root" "hooks" "reloader" (λ _, Err "no toml") (λ _, Err "no yaml") (λ _, "") (λ _, "") false ∅ ∅ [] (λ _, [])
    (λ p b, mkBoxed (trait_ty p) (b_value b)) [] [] 3 60 50 None Some (λ _, tt) true i c b app Hc Hb Happ) as [Hname Ht].
  rewrite Hname. clear -Hi Ht. vm_compute in Hi. injection Hi as <-. destruct Ht as (_ & Hw & Hd). split; [reflexivity|]. split; [apply Hw; by right|exact Hd].
Defined.

(** The key [crate], which the macro documents, is a keyword: no identifier is read where
    it is written, so the input is refused whatever else it holds. *)
Theorem app_crate_key_is_refused {Expr Ty Path : Type} (parse_expr : Parser AppMacroError Expr) (parse_type : Parser AppMacroError Ty) (parse_path : Parser AppMacroError Path) rest :
  AppInput_parse parse_expr parse_type parse_path (KOther "crate" :: KColon :: rest) = Err AppSyntax.
Proof. done. Qed.
(** Where a [directories] block has both settings, [app] is dropped. *)
Theorem root_overrides_app {Expr : Type} (root : Expr) (app : option Expr) :
  directories_code (Some (Configure (mkDirSettings app (Some root)))) = Ok (Some (DirsFromPath root)).
Proof. done. Qed.
(** A trigger that is set to false stays on where the source has it. *)
Theorem trigger_is_not_switched_off :
  match z_built (z_of (z_config (mkConfigSettings (Some "m") None false false None))) with
  | Some (Ok app) => app_reload_triggers app = mkTriggers false true 250
  | _ => False
  end.
Proof. vm_compute. reflexivity. Qed.
